(* ===== verification/_CoqProject ===== *)
-Q . S2P
Prelude.v
Values.v
Extern.v
Writer.v
Reader.v
Froto.v
WellFormed.v
RoundTrip.v
Types.v
Walk.v
Cdr.v
CheckedBuffers.v
Keys.v
State.v
Store.v
SimpleStore.v
Namespaced.v
Interleaving.v
Effects.v
Nodes.v
Schema.v
Graphs.v
GraphLowering.v
Cells.v
Expressions.v
Sorting.v
Detached.v
Evaluation.v
DetachedExamples.v
CoreNodes.v
ScatterNode.v
Ticks.v
Lowering.v
Loading.v
Sweeps.v
Loaded.v
LoadingExamples.v
Planning.v
GraphWalks.v
Planned.v
PlannedExamples.v
TreeExamples.v
StoreMeta.v
Runtime.v
Commands.v
Stepping.v
Outbound.v
Lifecycles.v
TaskRuns.v
RuntimeExamples.v
Interpreter.v
Scaffold.v
Runs.v
ScaffoldExamples.v
Reports.v
Traces.v
Following.v
FollowingExamples.v
Regexes.v
Tokens.v
Lexing.v
Parser.v
Parsing.v
Formatter.v
Formatting.v
ParsingExamples.v
GuestArguments.v
ArgumentChecks.v
ComponentLayout.v
Admission.v
Engine.v
Dispatching.v
Returning.v
Reloading.v
Answering.v
EngineExamples.v
Messages.v
Registered.v
RosTypes.v
RosExamples.v
