(* ===== verification/Prelude.v ===== *)
(** * A verification library for the Arora SDK

    A model, in Rocq, of the core of the SDK's Rust crates, and the theorems that
    make it correct. Every definition that models code is a translation of the
    source; the code is named by its file under [src/crates/].

    ** The program

    Devices, behaviors and bridges meet in a *data store*: keys hold *values*, a
    write notifies the subscribers of what changed, and each participant sees the
    store through a *view* of its own namespace. Values cross the boundary between
    the host and its guest modules as *buffers*. What a device does is a *behavior
    tree*, ticked once per step of the runtime: its variables are store slots, its
    leaves are calls to module functions, its control nodes are ticked by the
    host.

    ** The files, in the order they build on each other

    - [Prelude]: results, the state-and-error monad of the buffers, bytes and
      integers at their width, UTF-8, hash maps nested in values; lemmas and the
      hint databases [arora].
    - [Values]: [arora-types/src/value.rs], [keyvalue.rs], [ty/mod.rs]. A [Uuid]
      is its 128-bit number, a float its bit pattern, a [String] its bytes.
    - [Extern]: the [bytes] and [uuid] crates, which are not in the repository, as
      classes of operations and of the laws their documentation states, with
      concrete instances.
    - [Writer], [Reader], [Froto]: [arora-buffers/src/writer.rs], [reader.rs],
      [format.rs] and [froto_value.rs]. A panic is an error of the reader's monad;
      the decoder recurses on fuel, and the length of the buffer is always enough
      ([deserialize_terminates]).
    - [WellFormed]: [well_formed.rs], as a walk, and its simulation by the decoder.
    - [RoundTrip]: what the codec preserves: [canon] is what a value becomes
      through it, [codec] the simulation of the writer by the reader.
    - [Types]: [arora-types/src/ty/low.rs] and [module/low.rs]: types, validation
      and defaults. A registry is an insertion-ordered map, as [indexmap]'s.
    - [Walk]: [arora-types/src/value_serde/walk.rs]: a value written and read
      against its type. The [ValueWriter] and [ValueReader] traits are classes, and
      [WireLaws] what a writer and a reader of one format promise each other; the
      walk's theorems are proved against it. [Cdr] ([arora-msgs-ros2/src/cdr.rs])
      and [CheckedBuffers] ([arora-buffers/src/froto_checked_value.rs]) are the two
      formats that discharge it.
    - [Keys], [State], [Store]: [arora-types/src/data/state.rs] and [store.rs]. The
      [DataStore] trait is a class of operations over a state [S] passed
      explicitly, and [DataStoreLaws] what it promises, key by key: clients are
      proved against the laws, implementations discharge them.
    - [SimpleStore], [Namespaced]: [arora-simple-data-store/src/lib.rs] and
      [namespaced.rs]. A cell is a location of a heap shared by the store and its
      slots, a channel the list of the changes sent and not received. Both are
      instances of [DataStore] and [DataStoreLaws], the view over any store that
      is one.
    - [Interleaving]: the hash-map store between threads, as a step relation at
      the grain of its locks.
    - [Effects]: code whose effects outlive its errors, for the trees.
    - [Nodes], [Schema]: [arora-behavior/src/status.rs] and
      [arora-behavior-tree/src/nodes.rs], [schema.rs], [error.rs]; calls and
      function signatures.
    - [Graphs], [GraphLowering]: [arora-behavior/src/graph.rs], behavior graphs
      and the edits between them, and their lowering to schema nodes,
      [arora-behavior-tree/src/graph.rs].
    - [Cells], [Expressions], [CoreNodes], [ScatterNode], [Ticks], [Lowering]:
      [variable.rs], [core_nodes.rs], [scatter.rs] and [behavior_tree.rs] of
      [arora-behavior-tree/src/], and the callable registry of
      [arora-engine/src/call.rs]. A tick is code over a [World]: the tree-local
      cells, the store, what the [Scatter] nodes keep, the registered callables,
      and whatever else a module call may change. Cells are seen as [place]s, so
      that a theorem about a node holds of local cells and store slots alike, over
      any store with the laws. A tree's recursion runs on fuel, and its height is
      always enough ([lowered_ticks_return]).
    - [Sorting], [Detached], [Evaluation]: [arora-behavior-tree/src/detached.rs]:
      the order of the nodes no tick callable holds, the walk that brings them up
      to date, over an arbitrary evaluation, and the evaluation itself.
    - [Loading], [Sweeps], [Loaded]: [load_behavior_tree_nodes_with] of
      [behavior_tree.rs], which binds every argument of a tree to a cell before it
      is lowered; its sweeps over the arguments not bound yet, and what holds of a
      loaded tree. The orders of Rust's hash maps are parameters.
    - [Planning], [Planned]: [Detached::lower] and [lower_detached]: what a loaded
      tree's detached nodes write and read, and when each is evaluated; its theorems
      give those on the evaluation what they assume.
    - [DetachedExamples], [LoadingExamples], [PlannedExamples], [TreeExamples]: the theorems on concrete nodes and trees.
    - [Runtime]: [arora/src/runtime.rs], the device's step as code over one state:
      its store, its streams, what it sent. The engine and the interpreter are a
      class of operations, which may do anything to the store but take from the
      device's own feed ([HostLaws]). [StoreMeta] is what a store's key meta
      promises it, of both stores; [Commands] (what a bridge asks), [Stepping] (what
      a step keeps and sends), [Outbound] (the HAL's part), [Lifecycles] (faults,
      clock and cadence) and [TaskRuns] (what the log says of a run over a device's
      life) its theorems; [RuntimeExamples] a small device.

    - [GraphWalks], [Interpreter]: [arora-behavior-tree/src/behavior.rs]: the
      checks and walks over a graph, on fuel that is always enough, and the
      interpreter, whose one graph, the scaffold, holds the main behavior and the
      runs. An operation is code over the interpreter that keeps it as it was where
      it is refused; a new [Uuid] is its argument. [Scaffold] is the shape of the
      scaffold and what keeps it, [Runs] what loads, spawns and halts come to, and
      [ScaffoldExamples] a small device.
    - [Reports], [Traces]: [arora-behavior/src/trace.rs] and
      [arora-behavior-tree/src/trace.rs]: what a tick records, the report each
      trace makes of it, and how it travels. [Following] is a client that follows a
      trace, as [arora-behavior/docs/trace.md] tells it to, and
      [FollowingExamples] one over two ticks.
    - [Regexes], [Tokens], [Parser], [Formatter]: [arora-behavior-tree/src/text/]
      ([lexer.rs], [ast.rs], [parser.rs], [format.rs]), the text a tree is written
      in: the patterns of its tokens, matched by derivatives; the tokens and the
      blocks their columns make; the parser, a state monad whose [None] is a
      panic or a lack of fuel, which eight times the tokens always is enough for;
      the formatter, over what is known of a function's parameters. [Lexing],
      [Parsing] and [Formatting] are their theorems, [ParsingExamples] texts.
    - [GuestArguments], [ArgumentChecks]: [arora-engine/src/arguments.rs], a call's
      arguments checked where they lie in its buffer, against a check of the values
      they decode to.
    - [ComponentLayout], [Admission]:
      [arora-engine/src/component_layout.rs], what the component of a guest is made
      of, as a parser yields it, and what is admitted.
    - [Engine]: [engine.rs], [call.rs], [module.rs], [limits.rs], [compiled.rs] and
      [executor/component/mod.rs] of [arora-engine/src/]: dispatch into components
      and host modules, as code over the engine that may panic. A guest's code is a
      [Program] that computes on its memory, traps, dispatches calls of its own
      through the engine, and loops, for ever too; the clock and the epoch are
      sequences read in order. Calls nest and loops turn on fuel, of which there is
      always enough, as the deadlines end what does not end by itself
      ([calls_return]). [Dispatching] is the books the engine keeps and that every
      dispatch keeps them, [Returning] that calls return, [Reloading] what loading
      comes to over what an executor promises (the class [KeepsEngine]),
      [Answering] the calls of a host's functions, [EngineExamples] small engines.
    - [Messages], [Registered], [RosTypes]: [schema.rs], [registry.rs],
      [representable.rs] and [hash.rs] of [arora-msgs-ros2/src/]: the parser of
      message and action definitions, the registry of their types, which types have
      a ROS 2 form, and the descriptions a type's hash is of. The walks over types
      visit each id once, on a fuel of one more than the types of the registry.
      What definitions read as, however they are spaced and commented, is with the
      parser, the walks against the types reached with the walks; [RosExamples] is
      some messages.

    ** What the theorems show

    - The codec: decoding inverts encoding up to [canon], the encoding is
      canonical, decoding always ends, and a buffer [well_formed] passes decodes
      without a panic; [well_formed] and [value_end] agree with the decoder.
    - The typed plane: what a walk writes it reads back framed, its bare optionals
      made present, over any format that keeps the laws; what it reads, of a format
      whose fixed arrays are exact, is of its type; walks end where types are
      ranked, and only there; CDR numbers are aligned; the buffers' typed bytes are
      the self-describing codec's of the value framed; which defaults validate, and what validation
      accepts.
    - The store: reads, writes, slots, snapshots and notifications agree; a
      subscriber that applies what it receives holds what the store holds, over any
      store with the laws, and under any interleaving of writers that share no key;
      two writers that race on one key may leave a subscriber behind.
    - The views: a view is a store of its own keys, and neighbours see, wake and
      describe nothing of each other.
    - The keys: construction, reading, selection, and prefixes as segments.
    - The nodes: what each control node ticks, returns and keeps between ticks; the
      data nodes write everything or nothing; the string nodes refine their
      functions; a run's end is final.
    - The loading: it ends, and refuses exactly the nodes whose arguments are bound
      to nothing; arguments bound together share one cell, and the cells hold what
      the arguments name; the hash maps' orders do not show.
    - The trees: lowering registers a mirror of the tree or nothing, every tick of a
      lowered tree ends, and a tick through the registry is the node's own.
    - The detached nodes: of a tree that loads, lowering them always ends; by the
      account it keeps, a cell one writes has no other writer; who reads whom is exact, and the plan has each node
      once; their order always comes out, or a cycle; each is
      evaluated and called at most once per tick, after what it reads; a sink's
      tick brings every sink up to date; what did not change is not called.
    - The device: over any store with the laws no step fails; a remote that goes
      on asking and applies what it is sent mirrors the store; the writers of a frame
      without calls apply in their order, and the behavior ticks over what they leave; a remote's update is
      written whole or refused whole; what is listed is what there is, sorted; the
      HAL is told all but its own readings; a fault is told once, and so are, over
      a device's whole life, each run's start and its end, as it ended; the clock adds up and saturates, and the cadence neither drifts nor
      bursts.
    - The interpreter: its operations return, and, with no ended run left to prune,
      what they refuse changes nothing; from the empty scaffold, whatever is asked
      and taken, loads that name the scaffold's own nodes aside, the runner stays at
      the root over the main behavior and the runs, each under its decorator; what is
      loaded is what is read back; a run spawned on a settled interpreter and halted
      leaves no trace, and a halt takes out exactly what only the run held; the check
      that a graph is one tree is exact.
    - The traces: a client that applies each report shows what the tick did,
      through restarts, edits and failed writes; a report written reads back.
    - The text of a tree: any text is cut, laid out and parsed without a panic or
      an endless loop; its tokens are slices of it in order and its blocks
      balance; what is written is exactly what has no errors and ends within the
      limit of levels.
    - The engine: a call's arguments are checked as the values they decode to,
      without a read out of the buffer; of an admitted component, the one guest
      module runs and only what every host provides is imported; whatever guests do,
      calls end by their callers' deadlines, a trapped instance is not entered, the
      stack of calls is as it was and the modules are the ones they were, and nothing
      but the decoding of a buffer panics; as time passes every call returns, of
      guests that loop or recurse for ever too; a reload puts the instance made of
      it in a module's place, or is refused, for a reason that holds; a host's
      function is answered over the buffers as it answers.
    - The ROS 2 messages: a definition reads as what it says, however it is written;
      a message defined is found by its id and both its names, and changes nothing
      else; a type has a ROS 2 form exactly when all it reaches has, and its
      description lists all it reaches, each once.
    - The graphs: a diff takes a graph to its target, and what it edits lowers as
      the target.

    ** Not modelled

    The lowering the interpreter keeps between ticks, the state it takes over and
    what it records for the traces; the names a tree's text resolves to, its Groot
    XML and its display; the device's builder, module lifecycle and run loop; the
    generated ROS 2 messages; serde's bridges to values; the engine's
    native and browser executors, WASI and the cap on a guest's memory. Network and
    device I/O, what runs a guest, code generation and floating-point arithmetic are out
    of reach: a module call is an arbitrary function of the world, and the [regex],
    [logos], [rand] and [semver] crates, the quoting of a string, the printing of an
    id, serde's derived encoder and decoder of a [Call] and the [wasmparser] and
    [ros2_client] crates are classes. A machine
    integer is a [Z] in its range; [usize] is a parameter where its width shows; an
    overflow wraps as in the release profile. *)

From Stdlib Require Export ZArith Lia.
From Stdlib Require Import Init.Byte.
From Stdlib Require Strings.Byte Strings.String.
From stdpp Require Export base tactics gmap strings sorting numbers list.

Open Scope Z_scope.

(** ** Results: [Result<A, E>] of the source *)

Inductive result (E A : Type) : Type :=
| Ok (a : A)
| Err (e : E).
Arguments Ok {E A} a.
Arguments Err {E A} e.

Definition is_ok {E A} (r : result E A) : bool :=
  match r with Ok _ => true | Err _ => false end.

(** [?] *)
#[export] Instance result_ret {E} : MRet (result E) := λ A a, Ok a.
#[export] Instance result_bind {E} : MBind (result E) := λ A B k m, match m with Ok a => k a | Err e => Err e end.
Definition ok_or {E A} (x : option A) (e : E) : result E A := match x with Some a => Ok a | None => Err e end.
(** [l.iter().map(f).collect::<Result<_, _>>()?] *)
Fixpoint collect_results {E A B} (f : A → result E B) (l : list A) : result E (list B) :=
  match l with
  | [] => mret []
  | x :: l => y ← f x; ys ← collect_results f l; mret (y :: ys)
  end.
(** [for x in l { state = f(x, state)?; }] *)
Fixpoint fold_results {E A B} (f : A → B → result E B) (l : list A) (b : B) : result E B :=
  match l with
  | [] => mret b
  | x :: l => b ← f x b; fold_results f l b
  end.

(** ** Stateful fallible code

    [SE S E A] is code over a mutable state [S] that returns an [A] or stops
    with an [E]: the reader of a buffer (its errors are panics), the walk of
    [well_formed] (its errors are messages). *)
Definition SE (S E A : Type) : Type := S → result E (A * S).

Definition se_ret {S E A} (a : A) : SE S E A := λ s, Ok (a, s).
Definition se_fail {S E A} (e : E) : SE S E A := λ _, Err e.
Definition se_bind {S E A B} (m : SE S E A) (k : A → SE S E B) : SE S E B :=
  λ s, match m s with Ok (a, s') => k a s' | Err e => Err e end.

Declare Scope se_scope.
Delimit Scope se_scope with se.
Notation "'let*' x ':=' m 'in' k" := (se_bind m (λ x, k))
  (at level 10, x name, m at level 100, k at level 200) : se_scope.
Notation "'let*' ' p ':=' m 'in' k" := (se_bind m (λ x, match x with p => k end))
  (at level 10, p pattern, m at level 100, k at level 200) : se_scope.
Notation "m ';;' k" := (se_bind m (λ _, k))
  (at level 100, k at level 200, right associativity) : se_scope.
Open Scope se_scope.

(** [(0..n).map(|_| m()).collect()] *)
Fixpoint se_repeat {S E A} (n : nat) (m : SE S E A) : SE S E (list A) :=
  match n with
  | O => se_ret []
  | Datatypes.S n => let* x := m in let* xs := se_repeat n m in se_ret (x :: xs)
  end.

(** [for _ in 0..n { m()?; }] *)
Fixpoint se_loop {S E} (n : nat) (m : SE S E unit) : SE S E unit :=
  match n with
  | O => se_ret tt
  | Datatypes.S n => m ;; se_loop n m
  end.

(** ** Bytes and machine integers *)

Abbreviation byte := Byte.byte.

Definition byte_Z (b : byte) : Z := Z.of_N (Byte.to_N b).
Definition Z_byte (z : Z) : byte :=
  match Byte.of_N (Z.to_N (z mod 256)) with Some b => b | None => x00 end.

(** Bytes written as numbers. *)
Definition bytes_of (zs : list Z) : list byte := map Z_byte zs.

(** [to_le_bytes] of an [n]-byte integer: the value modulo [256^n]. *)
Fixpoint le_bytes (n : nat) (z : Z) : list byte :=
  match n with
  | O => []
  | S n => Z_byte z :: le_bytes n (z / 256)
  end.

(** [from_le_bytes], unsigned. *)
Fixpoint le_Z (bs : list byte) : Z :=
  match bs with
  | [] => 0
  | b :: bs => byte_Z b + 256 * le_Z bs
  end.

(** The two's complement reading of a [w]-bit pattern. *)
Definition to_signed (w z : Z) : Z := if z <? 2 ^ (w - 1) then z else z - 2 ^ w.

Definition in_u (w z : Z) : bool := (0 <=? z) && (z <? 2 ^ w).
Definition in_i (w z : Z) : bool := (- 2 ^ (w - 1) <=? z) && (z <? 2 ^ (w - 1)).

(** [x as u32] of a [usize]. *)
Definition as_u32 (n : nat) : Z := Z.of_nat n mod 2 ^ 32.

(** ** UTF-8: [std::str::from_utf8] accepts exactly the well-formed byte
    sequences of the Unicode standard (table 3-7). *)
Definition in_range (lo hi : Z) (b : byte) : bool := (lo <=? byte_Z b) && (byte_Z b <=? hi).
Definition cont_byte : byte → bool := in_range 0x80 0xBF.

Fixpoint utf8_valid (bs : list byte) : bool :=
  match bs with
  | [] => true
  | b0 :: r0 =>
    if in_range 0x00 0x7F b0 then utf8_valid r0
    else match r0 with
    | [] => false
    | b1 :: r1 =>
      if in_range 0xC2 0xDF b0 then cont_byte b1 && utf8_valid r1
      else match r1 with
      | [] => false
      | b2 :: r2 =>
        if in_range 0xE0 0xE0 b0 then in_range 0xA0 0xBF b1 && cont_byte b2 && utf8_valid r2
        else if in_range 0xE1 0xEC b0 then cont_byte b1 && cont_byte b2 && utf8_valid r2
        else if in_range 0xED 0xED b0 then in_range 0x80 0x9F b1 && cont_byte b2 && utf8_valid r2
        else if in_range 0xEE 0xEF b0 then cont_byte b1 && cont_byte b2 && utf8_valid r2
        else match r2 with
        | [] => false
        | b3 :: r3 =>
          if in_range 0xF0 0xF0 b0 then in_range 0x90 0xBF b1 && cont_byte b2 && cont_byte b3 && utf8_valid r3
          else if in_range 0xF1 0xF3 b0 then cont_byte b1 && cont_byte b2 && cont_byte b3 && utf8_valid r3
          else if in_range 0xF4 0xF4 b0 then in_range 0x80 0x8F b1 && cont_byte b2 && cont_byte b3 && utf8_valid r3
          else false
        end
      end
    end
  end.

(** A Rust [String] is its bytes; [str::as_bytes] and its inverse. *)
Definition str_bytes (s : string) : list byte := String.list_byte_of_string s.
Definition bytes_str (bs : list byte) : string := String.string_of_list_byte bs.

(** ** [HashMap<String, V>] inside a value

    A hash map nested in the values of the wire is its entries in iteration
    order, the keys pairwise distinct; that order is not specified, so nothing
    about a map may depend on it. Maps that are not nested in an inductive
    type are stdpp's [gmap]. *)
Fixpoint hm_get {V} (k : string) (m : list (string * V)) : option V :=
  match m with
  | [] => None
  | (k', v) :: m => if String.eqb k k' then Some v else hm_get k m
  end.

Fixpoint hm_insert {V} (k : string) (v : V) (m : list (string * V)) : list (string * V) :=
  match m with
  | [] => [(k, v)]
  | (k', v') :: m => if String.eqb k k' then (k, v) :: m else (k', v') :: hm_insert k v m
  end.

(** [fields.sort_by(|a, b| a.0.cmp(b.0))] *)
Definition key_le {V} (a b : string * V) : Prop := String.le a.1 b.1.
#[export] Instance key_le_dec {V} : RelDecision (@key_le V) := λ a b, String.le_dec a.1 b.1.
Definition sort_by_key {V} (m : list (string * V)) : list (string * V) := merge_sort key_le m.

(** ** Lemmas *)

Create HintDb arora.
Create Rewrite HintDb arora.

(** Case analysis on the scrutinee of a stuck match, in the goal or in [H]. *)
Ltac case_on_match :=
  match goal with
  | |- context [match ?x with _ => _ end] => destruct x eqn:?
  end.
Ltac case_in H :=
  match type of H with
  | context [match ?x with _ => _ end] => destruct x eqn:?
  end.

(** Booleans to propositions, then linear arithmetic. *)
Ltac bool_lia :=
  unfold in_u, in_i, in_range in *;
  repeat match goal with
  | H : context [andb _ _ = true] |- _ => rewrite andb_true_iff in H; destruct H
  | H : (_ <=? _) = true |- _ => apply Z.leb_le in H
  | H : (_ <? _) = true |- _ => apply Z.ltb_lt in H
  end; lia.

Lemma byte_Z_range b : 0 <= byte_Z b < 256.
Proof.
  unfold byte_Z. pose proof (Byte.to_N_bounded b). lia.
Qed.

Lemma Z_byte_Z b : Z_byte (byte_Z b) = b.
Proof.
  unfold Z_byte. rewrite Z.mod_small by apply byte_Z_range.
  unfold byte_Z. by rewrite N2Z.id, Byte.of_to_N.
Qed.

Lemma byte_Z_byte z : byte_Z (Z_byte z) = z mod 256.
Proof.
  unfold Z_byte, byte_Z. pose proof (Z.mod_pos_bound z 256 eq_refl).
  destruct (Byte.of_N _) as [b|] eqn:E.
  - apply Byte.to_of_N in E. rewrite E. lia.
  - apply Byte.of_N_None_iff in E. lia.
Qed.

Lemma length_le_bytes n z : length (le_bytes n z) = n.
Proof. revert z. induction n; intros; simpl; auto. Qed.
#[export] Hint Rewrite length_le_bytes : arora.

Lemma le_Z_range bs : 0 <= le_Z bs < 256 ^ Z.of_nat (length bs).
Proof.
  induction bs as [|b bs IH]; cbn [le_Z length]; [lia|].
  rewrite Nat2Z.inj_succ, Z.pow_succ_r by lia. pose proof (byte_Z_range b). lia.
Qed.

Lemma le_Z_bytes n z : le_Z (le_bytes n z) = z mod 256 ^ Z.of_nat n.
Proof.
  revert z. induction n as [|n IH]; intros z; cbn [le_bytes le_Z].
  - by rewrite Z.mod_1_r.
  - rewrite IH, byte_Z_byte, Nat2Z.inj_succ, Z.pow_succ_r by lia.
    rewrite Z.rem_mul_r by lia. lia.
Qed.

Lemma le_bytes_Z bs : le_bytes (length bs) (le_Z bs) = bs.
Proof.
  induction bs as [|b bs IH]; cbn [length le_Z le_bytes]; [done|].
  pose proof (byte_Z_range b).
  replace ((byte_Z b + 256 * le_Z bs) / 256) with (le_Z bs)
    by (apply Z.div_unique with (byte_Z b); lia).
  rewrite IH. f_equal. unfold Z_byte.
  replace ((byte_Z b + 256 * le_Z bs) mod 256) with (byte_Z b mod 256)
    by (rewrite Z.mul_comm, Z.mod_add; lia).
  apply Z_byte_Z.
Qed.

Lemma le_Z_bytes_small n z : 0 <= z < 256 ^ Z.of_nat n → le_Z (le_bytes n z) = z.
Proof. intros. rewrite le_Z_bytes. by apply Z.mod_small. Qed.

Lemma to_signed_mod w z : 0 < w → in_i w z = true → to_signed w (z mod 2 ^ w) = z.
Proof.
  intros Hw Hz. unfold in_i in Hz. apply andb_true_iff in Hz as [H1 H2].
  apply Z.leb_le in H1. apply Z.ltb_lt in H2.
  assert (Hp : 2 ^ w = 2 * 2 ^ (w - 1)) by (rewrite <- Z.pow_succ_r by lia; f_equal; lia).
  unfold to_signed. destruct (Z.ltb_spec z 0) as [Hn|Hn].
  - replace (z mod 2 ^ w) with (z + 2 ^ w)
      by (apply Z.mod_unique with (-1); lia).
    destruct (Z.ltb_spec (z + 2 ^ w) (2 ^ (w - 1))); lia.
  - rewrite Z.mod_small by lia. destruct (Z.ltb_spec z (2 ^ (w - 1))); lia.
Qed.

Lemma bytes_str_bytes s : bytes_str (str_bytes s) = s.
Proof. apply String.string_of_list_byte_of_string. Qed.
Lemma str_bytes_str bs : str_bytes (bytes_str bs) = bs.
Proof. apply String.list_byte_of_string_of_list_byte. Qed.
#[export] Hint Rewrite bytes_str_bytes str_bytes_str : arora.

(** *** Hash maps *)
Lemma hm_get_insert {V} k k' (v : V) m :
  hm_get k (hm_insert k' v m) = if String.eqb k k' then Some v else hm_get k m.
Proof.
  induction m as [|[k'' v''] m IH]; simpl.
  - done.
  - destruct (String.eqb_spec k' k'') as [->|Hne]; simpl.
    + by destruct (String.eqb k k'').
    + rewrite IH. destruct (String.eqb_spec k k'') as [->|]; [|done].
      destruct (String.eqb_spec k'' k'); congruence.
Qed.

Lemma hm_get_None {V} k (m : list (string * V)) : hm_get k m = None ↔ k ∉ m.*1.
Proof.
  induction m as [|[k' v] m IH]; simpl; [set_solver|].
  destruct (String.eqb_spec k k') as [->|]; set_solver.
Qed.

Lemma hm_insert_keys {V} k (v : V) m :
  (hm_insert k v m).*1 = if decide (k ∈ m.*1) then m.*1 else m.*1 ++ [k].
Proof.
  induction m as [|[k' v'] m IH]; [done|]. cbn [hm_insert].
  destruct (String.eqb_spec k k') as [->|Hne].
  - cbn. by rewrite decide_True by set_solver.
  - rewrite !fmap_cons, IH. repeat case_decide; set_solver.
Qed.

Lemma hm_insert_NoDup {V} k (v : V) m : NoDup m.*1 → NoDup (hm_insert k v m).*1.
Proof.
  intros Hm. rewrite hm_insert_keys. case_decide; [done|].
  apply NoDup_app. split_and!; [done|set_solver|apply NoDup_singleton].
Qed.

Lemma hm_insert_fresh {V} k (v : V) m : k ∉ m.*1 → hm_insert k v m = m ++ [(k, v)].
Proof.
  induction m as [|[k' v'] m IH]; simpl; [done|]. intros Hk.
  destruct (String.eqb_spec k k') as [->|]; [set_solver|]. rewrite IH; set_solver.
Qed.

Lemma hm_get_elem_of {V} k (v : V) m : NoDup m.*1 → hm_get k m = Some v ↔ (k, v) ∈ m.
Proof.
  induction m as [|[k' v'] m IH]; [set_solver|].
  rewrite fmap_cons, NoDup_cons. intros [Hk' Hm]. simpl in *.
  rewrite elem_of_cons. destruct (String.eqb_spec k k') as [->|Hne].
  - split; [intros [= ->]; by left|]. intros [[= ->]|Hin]; [done|].
    contradict Hk'. apply list_elem_of_fmap. by exists (k', v).
  - rewrite IH by done. split; [by right|]. intros [[=]|]; congruence.
Qed.

Lemma hm_get_Permutation {V} k (m1 m2 : list (string * V)) :
  m1 ≡ₚ m2 → NoDup m1.*1 → hm_get k m1 = hm_get k m2.
Proof.
  intros Hp Hd. apply option_eq. intros v.
  rewrite hm_get_elem_of by done. rewrite hm_get_elem_of by (by rewrite <- Hp).
  by rewrite Hp.
Qed.

(** *** Sorting by key *)
#[export] Instance key_le_total {V} : Total (@key_le V).
Proof. intros a b. unfold key_le. apply (total String.le). Qed.
#[export] Instance key_le_trans {V} : Transitive (@key_le V).
Proof. intros a b c. unfold key_le. apply (transitivity (R := String.le)). Qed.

Lemma sort_by_key_Permutation {V} (m : list (string * V)) : sort_by_key m ≡ₚ m.
Proof. apply merge_sort_Permutation. Qed.

Lemma sort_by_key_sorted {V} (m : list (string * V)) : StronglySorted key_le (sort_by_key m).
Proof. apply StronglySorted_merge_sort; apply _. Qed.

Lemma NoDup_fst_unique {V} (m : list (string * V)) k v1 v2 :
  NoDup m.*1 → (k, v1) ∈ m → (k, v2) ∈ m → v1 = v2.
Proof. intros Hd H1 H2. apply hm_get_elem_of in H1, H2; [|done..]. congruence. Qed.

(** Two sorted listings of one map are the same list. *)
Lemma key_sorted_unique {V} (m1 m2 : list (string * V)) :
  NoDup m1.*1 → StronglySorted key_le m1 → StronglySorted key_le m2 → m1 ≡ₚ m2 → m1 = m2.
Proof.
  intros Hd H1 H2 Hp. apply (StronglySorted_unique_strong key_le); [|done..].
  intros [k1 v1] [k2 v2] Hin1 Hin2 Hle1 Hle2. unfold key_le in *; simpl in *.
  assert (k1 = k2) as -> by (by apply (anti_symm String.le)).
  f_equal. eapply NoDup_fst_unique; [exact Hd|done|by rewrite Hp].
Qed.

Lemma sort_by_key_perm_eq {V} (m1 m2 : list (string * V)) :
  NoDup m1.*1 → m1 ≡ₚ m2 → sort_by_key m1 = sort_by_key m2.
Proof.
  intros Hd Hp. apply key_sorted_unique.
  - by rewrite sort_by_key_Permutation.
  - apply sort_by_key_sorted.
  - apply sort_by_key_sorted.
  - by rewrite !sort_by_key_Permutation.
Qed.

Lemma sort_by_key_sorted_id {V} (m : list (string * V)) :
  NoDup m.*1 → StronglySorted key_le m → sort_by_key m = m.
Proof.
  intros. apply key_sorted_unique; [|apply sort_by_key_sorted|done|apply sort_by_key_Permutation].
  by rewrite sort_by_key_Permutation.
Qed.

(** *** Lists *)
Lemma Forall_impl2 {A} (P Q R : A → Prop) l :
  Forall P l → Forall Q l → (∀ x, P x → Q x → R x) → Forall R l.
Proof. intros HP HQ H. induction HP; inversion HQ; subst; constructor; auto. Qed.

Lemma mapM_Forall {A B} (f : A → option B) (P : A → Prop) l k :
  mapM f l = Some k → (∀ x, is_Some (f x) → P x) → Forall P l.
Proof.
  intros Hm HP. apply mapM_Some_1 in Hm. induction Hm; constructor; eauto.
Qed.
