(* ===== verification/Values.v ===== *)
(** * Values: [crates/arora-types/src/value.rs] and [keyvalue.rs]

    The runtime values every part of the SDK exchanges, their shapes
    ([Value::kind]), their equality (Rust's derived [PartialEq]), the packing of
    arrays ([array_of], [into_elements]) and the key-value records.

    A [Uuid] is its 128-bit number ([Uuid::as_u128]); an [f32] or [f64] is its
    IEEE bit pattern ([to_bits]); an integer is a [Z], in the range of its Rust
    type by [wf]; a Rust [String] is its bytes. *)

From S2P Require Import Prelude.

Definition Uuid : Type := Z.

(** ** Data *)

Record StructureField_ (V : Type) := mkStructureField { sf_id : Uuid; sf_value : V }.
Record Structure_ (V : Type) := mkStructure { st_id : Uuid; st_fields : list (StructureField_ V) }.
Record Enumeration_ (V : Type) := mkEnumeration { en_id : Uuid; en_variant_id : Uuid; en_value : V }.
Record StructureWithoutId_ (V : Type) := mkStructureWithoutId { sw_fields : list (StructureField_ V) }.
Record EnumerationWithoutId_ (V : Type) := mkEnumerationWithoutId { ew_variant_id : Uuid; ew_value : V }.
Record KeyValueField_ (V : Type) := mkKeyValueField
  { kvf_id : Uuid; kvf_name : string; kvf_value : option V }.
(** [fields: HashMap<String, KeyValueField>], in iteration order. *)
Record KeyValue_ (V : Type) := mkKeyValue
  { kv_id : Uuid; kv_fields : list (string * KeyValueField_ V) }.

Arguments mkStructureField {V} _ _.
Arguments sf_id {V} _.
Arguments sf_value {V} _.
Arguments mkStructure {V} _ _.
Arguments st_id {V} _.
Arguments st_fields {V} _.
Arguments mkEnumeration {V} _ _ _.
Arguments en_id {V} _.
Arguments en_variant_id {V} _.
Arguments en_value {V} _.
Arguments mkStructureWithoutId {V} _.
Arguments sw_fields {V} _.
Arguments mkEnumerationWithoutId {V} _ _.
Arguments ew_variant_id {V} _.
Arguments ew_value {V} _.
Arguments mkKeyValueField {V} _ _ _.
Arguments kvf_id {V} _.
Arguments kvf_name {V} _.
Arguments kvf_value {V} _.
Arguments mkKeyValue {V} _ _.
Arguments kv_id {V} _.
Arguments kv_fields {V} _.

Unset Elimination Schemes.
Module Value.
Inductive Value : Type :=
| Unit
| Boolean (b : bool)
| U8 (n : Z) | U16 (n : Z) | U32 (n : Z) | U64 (n : Z)
| I8 (n : Z) | I16 (n : Z) | I32 (n : Z) | I64 (n : Z)
| F32 (bits : Z) | F64 (bits : Z)
| String (s : string)
| Option (o : option Value)
| Structure (s : Structure_ Value)
| Enumeration (e : Enumeration_ Value)
| ArrayBoolean (v : list bool)
| ArrayU8 (v : list Z) | ArrayU16 (v : list Z) | ArrayU32 (v : list Z) | ArrayU64 (v : list Z)
| ArrayI8 (v : list Z) | ArrayI16 (v : list Z) | ArrayI32 (v : list Z) | ArrayI64 (v : list Z)
| ArrayF32 (v : list Z) | ArrayF64 (v : list Z)
| ArrayString (v : list string)
| ArrayValue (v : list Value)
| ArrayStructure (id : Uuid) (elements : list (StructureWithoutId_ Value))
| ArrayEnumeration (id : Uuid) (elements : list (EnumerationWithoutId_ Value))
| KeyValue (kv : KeyValue_ Value)
| Uuid (u : Uuid).
End Value.
Set Elimination Schemes.

Abbreviation Value := Value.Value.
Abbreviation StructureField := (StructureField_ Value).
Abbreviation Structure := (Structure_ Value).
Abbreviation Enumeration := (Enumeration_ Value).
Abbreviation StructureWithoutId := (StructureWithoutId_ Value).
Abbreviation EnumerationWithoutId := (EnumerationWithoutId_ Value).
Abbreviation KeyValueField := (KeyValueField_ Value).
Abbreviation KeyValue := (KeyValue_ Value).

(** [enum Type]: the shapes, one per variant of [Value]. *)
Module Ty.
Inductive Type_ : Set :=
| Unit | Boolean
| U8 | U16 | U32 | U64 | I8 | I16 | I32 | I64 | F32 | F64
| String | Option | Structure | Enumeration
| ArrayBoolean
| ArrayU8 | ArrayU16 | ArrayU32 | ArrayU64
| ArrayI8 | ArrayI16 | ArrayI32 | ArrayI64 | ArrayF32 | ArrayF64
| ArrayString | ArrayValue | ArrayStructure | ArrayEnumeration
| KeyValue | Uuid.
End Ty.
#[export] Instance Type__eq_dec : EqDecision Ty.Type_.
Proof. solve_decision. Defined.

Definition kind (v : Value) : Ty.Type_ :=
  match v with
  | Value.Unit => Ty.Unit
  | Value.Boolean _ => Ty.Boolean
  | Value.U8 _ => Ty.U8
  | Value.U16 _ => Ty.U16
  | Value.U32 _ => Ty.U32
  | Value.U64 _ => Ty.U64
  | Value.I8 _ => Ty.I8
  | Value.I16 _ => Ty.I16
  | Value.I32 _ => Ty.I32
  | Value.I64 _ => Ty.I64
  | Value.F32 _ => Ty.F32
  | Value.F64 _ => Ty.F64
  | Value.String _ => Ty.String
  | Value.Option _ => Ty.Option
  | Value.Structure _ => Ty.Structure
  | Value.Enumeration _ => Ty.Enumeration
  | Value.ArrayBoolean _ => Ty.ArrayBoolean
  | Value.ArrayU8 _ => Ty.ArrayU8
  | Value.ArrayU16 _ => Ty.ArrayU16
  | Value.ArrayU32 _ => Ty.ArrayU32
  | Value.ArrayU64 _ => Ty.ArrayU64
  | Value.ArrayI8 _ => Ty.ArrayI8
  | Value.ArrayI16 _ => Ty.ArrayI16
  | Value.ArrayI32 _ => Ty.ArrayI32
  | Value.ArrayI64 _ => Ty.ArrayI64
  | Value.ArrayF32 _ => Ty.ArrayF32
  | Value.ArrayF64 _ => Ty.ArrayF64
  | Value.ArrayString _ => Ty.ArrayString
  | Value.ArrayValue _ => Ty.ArrayValue
  | Value.ArrayStructure _ _ => Ty.ArrayStructure
  | Value.ArrayEnumeration _ _ => Ty.ArrayEnumeration
  | Value.KeyValue _ => Ty.KeyValue
  | Value.Uuid _ => Ty.Uuid
  end.

Definition conforms_to (v : Value) (ty : Ty.Type_) : bool := bool_decide (kind v = ty).

(** ** The well-known type ids: [crates/arora-types/src/ty/mod.rs] *)
Definition UNIT_ID : Uuid := 0x0.
Definition BOOLEAN_ID : Uuid := 0x1.
Definition I8_ID : Uuid := 0x2.
Definition I16_ID : Uuid := 0x3.
Definition I32_ID : Uuid := 0x4.
Definition I64_ID : Uuid := 0x5.
Definition U8_ID : Uuid := 0x6.
Definition U16_ID : Uuid := 0x7.
Definition U32_ID : Uuid := 0x8.
Definition U64_ID : Uuid := 0x9.
Definition F32_ID : Uuid := 0xa.
Definition F64_ID : Uuid := 0xb.
Definition STRING_ID : Uuid := 0xc.
Definition OPTION_ID : Uuid := 0xd.
Definition ARRAY_BOOLEAN_ID : Uuid := 0xe.
Definition ARRAY_U8_ID : Uuid := 0xf.
Definition ARRAY_U16_ID : Uuid := 0x10.
Definition ARRAY_U32_ID : Uuid := 0x11.
Definition ARRAY_U64_ID : Uuid := 0x12.
Definition ARRAY_I8_ID : Uuid := 0x13.
Definition ARRAY_I16_ID : Uuid := 0x14.
Definition ARRAY_I32_ID : Uuid := 0x15.
Definition ARRAY_I64_ID : Uuid := 0x16.
Definition ARRAY_F32_ID : Uuid := 0x17.
Definition ARRAY_F64_ID : Uuid := 0x18.
Definition ARRAY_STRING_ID : Uuid := 0x19.
Definition ARRAY_VALUE_ID : Uuid := 0x1a.
Definition KEY_VALUE_ID : Uuid := 0x1b.
Definition UUID_ID : Uuid := 0x1c.

Definition type_uuid (v : Value) : Uuid :=
  match v with
  | Value.Unit => UNIT_ID
  | Value.Boolean _ => BOOLEAN_ID
  | Value.I8 _ => I8_ID
  | Value.I16 _ => I16_ID
  | Value.I32 _ => I32_ID
  | Value.I64 _ => I64_ID
  | Value.U8 _ => U8_ID
  | Value.U16 _ => U16_ID
  | Value.U32 _ => U32_ID
  | Value.U64 _ => U64_ID
  | Value.F32 _ => F32_ID
  | Value.F64 _ => F64_ID
  | Value.String _ => STRING_ID
  | Value.Option _ => OPTION_ID
  | Value.Structure s => st_id s
  | Value.Enumeration e => en_id e
  | Value.ArrayBoolean _ => ARRAY_BOOLEAN_ID
  | Value.ArrayU8 _ => ARRAY_U8_ID
  | Value.ArrayU16 _ => ARRAY_U16_ID
  | Value.ArrayU32 _ => ARRAY_U32_ID
  | Value.ArrayU64 _ => ARRAY_U64_ID
  | Value.ArrayI8 _ => ARRAY_I8_ID
  | Value.ArrayI16 _ => ARRAY_I16_ID
  | Value.ArrayI32 _ => ARRAY_I32_ID
  | Value.ArrayI64 _ => ARRAY_I64_ID
  | Value.ArrayF32 _ => ARRAY_F32_ID
  | Value.ArrayF64 _ => ARRAY_F64_ID
  | Value.ArrayString _ => ARRAY_STRING_ID
  | Value.ArrayValue _ => ARRAY_VALUE_ID
  | Value.ArrayStructure id _ => id
  | Value.ArrayEnumeration id _ => id
  | Value.KeyValue _ => KEY_VALUE_ID
  | Value.Uuid _ => UUID_ID
  end.

(** ** Equality: the derived [PartialEq]

    [f32] and [f64] compare as IEEE numbers: a NaN equals nothing, itself
    included, and the two zeros are equal. *)
Definition float_abs (w bits : Z) : Z := bits mod 2 ^ (w - 1).
Definition f32_is_nan (bits : Z) : bool := 0x7F800000 <? float_abs 32 bits.
Definition f64_is_nan (bits : Z) : bool := 0x7FF0000000000000 <? float_abs 64 bits.
Definition f32_eqb (a b : Z) : bool :=
  negb (f32_is_nan a) && negb (f32_is_nan b) &&
  ((a =? b) || ((float_abs 32 a =? 0) && (float_abs 32 b =? 0))).
Definition f64_eqb (a b : Z) : bool :=
  negb (f64_is_nan a) && negb (f64_is_nan b) &&
  ((a =? b) || ((float_abs 64 a =? 0) && (float_abs 64 b =? 0))).

Section list_eqb.
Context {A B : Type} (eqb : A → B → bool).
Fixpoint list_eqb (l : list A) (k : list B) : bool :=
  match l, k with
  | [], [] => true
  | x :: l, y :: k => eqb x y && list_eqb l k
  | _, _ => false
  end.
Definition option_eqb (x : option A) (y : option B) : bool :=
  match x, y with
  | None, None => true
  | Some x, Some y => eqb x y
  | _, _ => false
  end.
(** [HashMap: PartialEq]: as many entries, each key holding an equal value. *)
Definition hm_eqb (m1 : list (string * A)) (m2 : list (string * B)) : bool :=
  (length m1 =? length m2)%nat &&
  forallb (λ kv, match hm_get kv.1 m2 with Some w => eqb kv.2 w | None => false end) m1.
End list_eqb.

Fixpoint value_eqb (a b : Value) {struct a} : bool :=
  let fields_eqb := list_eqb (λ f g : StructureField,
    (sf_id f =? sf_id g) && value_eqb (sf_value f) (sf_value g)) in
  match a, b with
  | Value.Unit, Value.Unit => true
  | Value.Boolean x, Value.Boolean y => Bool.eqb x y
  | Value.U8 x, Value.U8 y => x =? y
  | Value.U16 x, Value.U16 y => x =? y
  | Value.U32 x, Value.U32 y => x =? y
  | Value.U64 x, Value.U64 y => x =? y
  | Value.I8 x, Value.I8 y => x =? y
  | Value.I16 x, Value.I16 y => x =? y
  | Value.I32 x, Value.I32 y => x =? y
  | Value.I64 x, Value.I64 y => x =? y
  | Value.F32 x, Value.F32 y => f32_eqb x y
  | Value.F64 x, Value.F64 y => f64_eqb x y
  | Value.String x, Value.String y => String.eqb x y
  | Value.Option x, Value.Option y => option_eqb value_eqb x y
  | Value.Structure s, Value.Structure t =>
      (st_id s =? st_id t) && fields_eqb (st_fields s) (st_fields t)
  | Value.Enumeration x, Value.Enumeration y =>
      (en_id x =? en_id y) && (en_variant_id x =? en_variant_id y)
      && value_eqb (en_value x) (en_value y)
  | Value.ArrayBoolean x, Value.ArrayBoolean y => list_eqb Bool.eqb x y
  | Value.ArrayU8 x, Value.ArrayU8 y => list_eqb Z.eqb x y
  | Value.ArrayU16 x, Value.ArrayU16 y => list_eqb Z.eqb x y
  | Value.ArrayU32 x, Value.ArrayU32 y => list_eqb Z.eqb x y
  | Value.ArrayU64 x, Value.ArrayU64 y => list_eqb Z.eqb x y
  | Value.ArrayI8 x, Value.ArrayI8 y => list_eqb Z.eqb x y
  | Value.ArrayI16 x, Value.ArrayI16 y => list_eqb Z.eqb x y
  | Value.ArrayI32 x, Value.ArrayI32 y => list_eqb Z.eqb x y
  | Value.ArrayI64 x, Value.ArrayI64 y => list_eqb Z.eqb x y
  | Value.ArrayF32 x, Value.ArrayF32 y => list_eqb f32_eqb x y
  | Value.ArrayF64 x, Value.ArrayF64 y => list_eqb f64_eqb x y
  | Value.ArrayString x, Value.ArrayString y => list_eqb String.eqb x y
  | Value.ArrayValue x, Value.ArrayValue y => list_eqb value_eqb x y
  | Value.ArrayStructure i x, Value.ArrayStructure j y =>
      (i =? j) && list_eqb (λ s t, fields_eqb (sw_fields s) (sw_fields t)) x y
  | Value.ArrayEnumeration i x, Value.ArrayEnumeration j y =>
      (i =? j) && list_eqb (λ s t, (ew_variant_id s =? ew_variant_id t)
                                   && value_eqb (ew_value s) (ew_value t)) x y
  | Value.KeyValue x, Value.KeyValue y =>
      (kv_id x =? kv_id y) &&
      hm_eqb (λ f g, (kvf_id f =? kvf_id g) && String.eqb (kvf_name f) (kvf_name g)
                     && option_eqb value_eqb (kvf_value f) (kvf_value g))
             (kv_fields x) (kv_fields y)
  | Value.Uuid x, Value.Uuid y => x =? y
  | _, _ => false
  end.

(** ** Packing arrays *)
Definition as_Boolean (v : Value) : option bool := match v with Value.Boolean x => Some x | _ => None end.
Definition as_U8 (v : Value) : option Z := match v with Value.U8 x => Some x | _ => None end.
Definition as_U16 (v : Value) : option Z := match v with Value.U16 x => Some x | _ => None end.
Definition as_U32 (v : Value) : option Z := match v with Value.U32 x => Some x | _ => None end.
Definition as_U64 (v : Value) : option Z := match v with Value.U64 x => Some x | _ => None end.
Definition as_I8 (v : Value) : option Z := match v with Value.I8 x => Some x | _ => None end.
Definition as_I16 (v : Value) : option Z := match v with Value.I16 x => Some x | _ => None end.
Definition as_I32 (v : Value) : option Z := match v with Value.I32 x => Some x | _ => None end.
Definition as_I64 (v : Value) : option Z := match v with Value.I64 x => Some x | _ => None end.
Definition as_F32 (v : Value) : option Z := match v with Value.F32 x => Some x | _ => None end.
Definition as_F64 (v : Value) : option Z := match v with Value.F64 x => Some x | _ => None end.
Definition as_String (v : Value) : option string := match v with Value.String x => Some x | _ => None end.
Definition as_StructureWithoutId (v : Value) : option StructureWithoutId :=
  match v with Value.Structure s => Some (mkStructureWithoutId (st_fields s)) | _ => None end.
Definition as_EnumerationWithoutId (v : Value) : option EnumerationWithoutId :=
  match v with
  | Value.Enumeration e => Some (mkEnumerationWithoutId (en_variant_id e) (en_value e))
  | _ => None
  end.

(** The [typed!] macro: when every element is of the variant, the typed array;
    otherwise [next]. *)
Definition typed {A} (as_ : Value → option A) (array : list A → Value)
    (elements : list Value) (next : Value) : Value :=
  match mapM as_ elements with Some xs => array xs | None => next end.

Definition empty_array (element_id : Uuid) (enumeration : bool) : Value :=
  let id := element_id in
  if id =? BOOLEAN_ID then Value.ArrayBoolean []
  else if id =? U8_ID then Value.ArrayU8 []
  else if id =? U16_ID then Value.ArrayU16 []
  else if id =? U32_ID then Value.ArrayU32 []
  else if id =? U64_ID then Value.ArrayU64 []
  else if id =? I8_ID then Value.ArrayI8 []
  else if id =? I16_ID then Value.ArrayI16 []
  else if id =? I32_ID then Value.ArrayI32 []
  else if id =? I64_ID then Value.ArrayI64 []
  else if id =? F32_ID then Value.ArrayF32 []
  else if id =? F64_ID then Value.ArrayF64 []
  else if id =? STRING_ID then Value.ArrayString []
  else if (id =? UUID_ID) || (id =? KEY_VALUE_ID) then Value.ArrayValue []
  else if enumeration then Value.ArrayEnumeration element_id []
  else Value.ArrayStructure element_id [].

Definition array_of (element_id : Uuid) (elements : list Value) : Value :=
  match elements with
  | [] => empty_array element_id false
  | _ =>
    typed as_Boolean Value.ArrayBoolean elements $
    typed as_U8 Value.ArrayU8 elements $
    typed as_U16 Value.ArrayU16 elements $
    typed as_U32 Value.ArrayU32 elements $
    typed as_U64 Value.ArrayU64 elements $
    typed as_I8 Value.ArrayI8 elements $
    typed as_I16 Value.ArrayI16 elements $
    typed as_I32 Value.ArrayI32 elements $
    typed as_I64 Value.ArrayI64 elements $
    typed as_F32 Value.ArrayF32 elements $
    typed as_F64 Value.ArrayF64 elements $
    typed as_String Value.ArrayString elements $
    typed as_StructureWithoutId (Value.ArrayStructure element_id) elements $
    typed as_EnumerationWithoutId (Value.ArrayEnumeration element_id) elements $
    Value.ArrayValue elements
  end.

(** [array_of_type::<T>], given what it reads of [T]: its id and whether its
    type is an enumeration. *)
Definition array_of_type (arora_type_id : Uuid) (is_enumeration : bool) (elements : list Value) : Value :=
  match elements with
  | [] => empty_array arora_type_id is_enumeration
  | _ => array_of arora_type_id elements
  end.

(** [into_elements]: [Err] holds the value that is no array. *)
Definition into_elements (v : Value) : result Value (list Value) :=
  match v with
  | Value.ArrayBoolean v => Ok (Value.Boolean <$> v)
  | Value.ArrayU8 v => Ok (Value.U8 <$> v)
  | Value.ArrayU16 v => Ok (Value.U16 <$> v)
  | Value.ArrayU32 v => Ok (Value.U32 <$> v)
  | Value.ArrayU64 v => Ok (Value.U64 <$> v)
  | Value.ArrayI8 v => Ok (Value.I8 <$> v)
  | Value.ArrayI16 v => Ok (Value.I16 <$> v)
  | Value.ArrayI32 v => Ok (Value.I32 <$> v)
  | Value.ArrayI64 v => Ok (Value.I64 <$> v)
  | Value.ArrayF32 v => Ok (Value.F32 <$> v)
  | Value.ArrayF64 v => Ok (Value.F64 <$> v)
  | Value.ArrayString v => Ok (Value.String <$> v)
  | Value.ArrayValue v => Ok v
  | Value.ArrayStructure id elements =>
      Ok ((λ e, Value.Structure (mkStructure id (sw_fields e))) <$> elements)
  | Value.ArrayEnumeration id elements =>
      Ok ((λ e, Value.Enumeration (mkEnumeration id (ew_variant_id e) (ew_value e))) <$> elements)
  | other => Err other
  end.

(** ** Key-values: [crates/arora-types/src/keyvalue.rs] *)
Definition kv_new_with_id (id : Uuid) : KeyValue := mkKeyValue id [].

Definition set_field (field : KeyValueField) (kv : KeyValue) : KeyValue :=
  mkKeyValue (kv_id kv) (hm_insert (kvf_name field) field (kv_fields kv)).

Definition new_with_id_and_option (name : string) (id : Uuid) (value : option Value) : KeyValueField :=
  mkKeyValueField id name value.

(** [fresh] is the id [gen_bb_uuid] draws for a field that is new. *)
Definition set_field_value (fresh : Uuid) (key : string) (value : Value) (kv : KeyValue) : KeyValue :=
  match hm_get key (kv_fields kv) with
  | Some existing =>
      mkKeyValue (kv_id kv)
        (hm_insert key (mkKeyValueField (kvf_id existing) (kvf_name existing) (Some value)) (kv_fields kv))
  | None =>
      mkKeyValue (kv_id kv) (hm_insert key (mkKeyValueField fresh key (Some value)) (kv_fields kv))
  end.

Definition get_field (key : string) (kv : KeyValue) : option KeyValueField := hm_get key (kv_fields kv).

(** [From<(Uuid, Vec<KeyValueField>)>]. *)
Definition kv_from_fields (id : Uuid) (fields : list KeyValueField) : KeyValue :=
  mkKeyValue id (foldl (λ m f, hm_insert (kvf_name f) f m) [] fields).

(** [KeyValueItems]: a vector of fields with distinct names. [set] returns the
    field it replaced. *)
Abbreviation KeyValueItems := (list KeyValueField).

Fixpoint items_set (field : KeyValueField) (items : KeyValueItems) : KeyValueItems * option KeyValueField :=
  match items with
  | [] => ([field], None)
  | f :: items =>
      if String.eqb (kvf_name f) (kvf_name field) then (field :: items, Some f)
      else let '(items, old) := items_set field items in (f :: items, old)
  end.

Definition items_get (name : string) (items : KeyValueItems) : option KeyValueField :=
  List.find (λ f, String.eqb (kvf_name f) name) items.

Definition items_from (v : list KeyValueField) : KeyValueItems :=
  foldl (λ items f, (items_set f items).1) [] v.

(** ** Well-formed values

    The ranges of the Rust types: an integer in its width, a [String] that is
    UTF-8, lengths that fit the wire's [u32], a map with distinct keys. *)
Definition wf_uuid (u : Uuid) : bool := in_u 128 u.
Definition wf_string (s : string) : bool :=
  utf8_valid (str_bytes s) && (Z.of_nat (length (str_bytes s)) <? 2 ^ 32).
Definition wf_len {A} (l : list A) : bool := Z.of_nat (length l) <? 2 ^ 32.
Definition wf_vec {A} (p : A → bool) (l : list A) : bool := wf_len l && forallb p l.

Fixpoint wf_value (v : Value) : bool :=
  let wf_fields := wf_vec (λ f : StructureField, wf_uuid (sf_id f) && wf_value (sf_value f)) in
  match v with
  | Value.Unit => true
  | Value.Boolean _ => true
  | Value.U8 n => in_u 8 n
  | Value.U16 n => in_u 16 n
  | Value.U32 n => in_u 32 n
  | Value.U64 n => in_u 64 n
  | Value.I8 n => in_i 8 n
  | Value.I16 n => in_i 16 n
  | Value.I32 n => in_i 32 n
  | Value.I64 n => in_i 64 n
  | Value.F32 n => in_u 32 n
  | Value.F64 n => in_u 64 n
  | Value.String s => wf_string s
  | Value.Option None => true
  | Value.Option (Some v) => wf_value v
  | Value.Structure s => wf_uuid (st_id s) && wf_fields (st_fields s)
  | Value.Enumeration e => wf_uuid (en_id e) && wf_uuid (en_variant_id e) && wf_value (en_value e)
  | Value.ArrayBoolean v => wf_len v
  | Value.ArrayU8 v => wf_vec (in_u 8) v
  | Value.ArrayU16 v => wf_vec (in_u 16) v
  | Value.ArrayU32 v => wf_vec (in_u 32) v
  | Value.ArrayU64 v => wf_vec (in_u 64) v
  | Value.ArrayI8 v => wf_vec (in_i 8) v
  | Value.ArrayI16 v => wf_vec (in_i 16) v
  | Value.ArrayI32 v => wf_vec (in_i 32) v
  | Value.ArrayI64 v => wf_vec (in_i 64) v
  | Value.ArrayF32 v => wf_vec (in_u 32) v
  | Value.ArrayF64 v => wf_vec (in_u 64) v
  | Value.ArrayString v => wf_vec wf_string v
  | Value.ArrayValue v => wf_vec wf_value v
  | Value.ArrayStructure id es => wf_uuid id && wf_vec (λ e, wf_fields (sw_fields e)) es
  | Value.ArrayEnumeration id es =>
      wf_uuid id && wf_vec (λ e, wf_uuid (ew_variant_id e) && wf_value (ew_value e)) es
  | Value.KeyValue kv =>
      wf_uuid (kv_id kv) && bool_decide (NoDup (kv_fields kv).*1) &&
      wf_vec (λ kf, wf_string kf.1 && wf_uuid (kvf_id kf.2) &&
                    match kvf_value kf.2 with None => true | Some w => wf_value w end) (kv_fields kv)
  | Value.Uuid u => wf_uuid u
  end.

(** What a NaN-free value is: one that equals itself. *)
Fixpoint nan_free (v : Value) : bool :=
  let fields := forallb (λ f : StructureField, nan_free (sf_value f)) in
  match v with
  | Value.F32 n => negb (f32_is_nan n)
  | Value.F64 n => negb (f64_is_nan n)
  | Value.ArrayF32 v => forallb (λ n, negb (f32_is_nan n)) v
  | Value.ArrayF64 v => forallb (λ n, negb (f64_is_nan n)) v
  | Value.Option (Some v) => nan_free v
  | Value.Structure s => fields (st_fields s)
  | Value.Enumeration e => nan_free (en_value e)
  | Value.ArrayValue v => forallb nan_free v
  | Value.ArrayStructure _ es => forallb (λ e, fields (sw_fields e)) es
  | Value.ArrayEnumeration _ es => forallb (λ e, nan_free (ew_value e)) es
  | Value.KeyValue kv =>
      forallb (λ kf, match kvf_value kf.2 with None => true | Some w => nan_free w end) (kv_fields kv)
  | _ => true
  end.

(** ** Lemmas *)

(** What holds of every value directly inside [v]. *)
Definition subs_ok (P : Value → Prop) (v : Value) : Prop :=
  let fields := Forall (λ f : StructureField, P (sf_value f)) in
  match v with
  | Value.Option (Some w) => P w
  | Value.Structure s => fields (st_fields s)
  | Value.Enumeration e => P (en_value e)
  | Value.ArrayValue vs => Forall P vs
  | Value.ArrayStructure _ es => Forall (λ e, fields (sw_fields e)) es
  | Value.ArrayEnumeration _ es => Forall (λ e, P (ew_value e)) es
  | Value.KeyValue kv =>
      Forall (λ kf, match kvf_value kf.2 with Some w => P w | None => True end) (kv_fields kv)
  | _ => True
  end.

(** Induction on values, through the vectors and maps they hold. *)
Lemma Value_ind_subs (P : Value → Prop) : (∀ v, subs_ok P v → P v) → ∀ v, P v.
Proof.
  intros H. fix IH 1. intros v. apply H.
  assert (IHf : ∀ fs : list StructureField, Forall (λ f, P (sf_value f)) fs).
  { fix IHf 1. intros [|[i w] fs]; constructor; [apply IH|apply IHf]. }
  destruct v as [| | | | | | | | | | | | |[w|]|[i fs]|[i vi w]| | | | | | | | | | | | |vs|i es|i es|[i fs]|];
    simpl; try exact I.
  - apply IH.
  - apply IHf.
  - apply IH.
  - clear IHf. revert vs. fix IHl 1. intros [|w vs]; constructor; [apply IH|apply IHl].
  - revert es. fix IHl 1. intros [|[fs] es]; constructor; [apply IHf|apply IHl].
  - clear IHf. revert es. fix IHl 1. intros [|[j w] es]; constructor; [apply IH|apply IHl].
  - clear IHf. revert fs. fix IHl 1.
    intros [|[k [j n [w|]]] fs]; constructor; try apply IHl; [apply IH|exact I].
Qed.

Lemma forallb_Forall {A} (p : A → bool) l : forallb p l = true ↔ Forall (λ x, p x = true) l.
Proof. rewrite List.forallb_forall, List.Forall_forall. done. Qed.

(** One element-wise boolean test equals another when they agree on each element. *)
Lemma list_eqb_diag {A} (eqb : A → A → bool) (p : A → bool) l :
  Forall (λ x, eqb x x = p x) l → list_eqb eqb l l = forallb p l.
Proof. induction 1 as [|x l Hx _ IH]; simpl; [done|]. by rewrite Hx, IH. Qed.

Lemma hm_eqb_diag {A} (eqb : A → A → bool) (p : A → bool) (m : list (string * A)) :
  NoDup m.*1 → Forall (λ kv, eqb kv.2 kv.2 = p kv.2) m →
  hm_eqb eqb m m = forallb (λ kv, p kv.2) m.
Proof.
  intros Hd Hm. unfold hm_eqb. rewrite Nat.eqb_refl. simpl.
  assert (∀ l, l ⊆ m → Forall (λ kv, eqb kv.2 kv.2 = p kv.2) l →
    forallb (λ kv, match hm_get kv.1 m with Some w => eqb kv.2 w | None => false end) l
    = forallb (λ kv, p kv.2) l) as Hgen; [|by apply Hgen].
  intros l Hl. induction 1 as [|[k v] l Hx _ IH]; simpl; [done|].
  rewrite (proj2 (hm_get_elem_of k v m Hd)) by (apply Hl; by left).
  simpl in Hx. rewrite Hx, IH; [done|]. intros y Hy. apply Hl. by right.
Qed.

Lemma f32_eqb_diag x : f32_eqb x x = negb (f32_is_nan x).
Proof. unfold f32_eqb. rewrite Z.eqb_refl. by destruct (f32_is_nan x). Qed.
Lemma f64_eqb_diag x : f64_eqb x x = negb (f64_is_nan x).
Proof. unfold f64_eqb. rewrite Z.eqb_refl. by destruct (f64_is_nan x). Qed.

Lemma list_eqb_refl {A} (eqb : A → A → bool) l : (∀ x, eqb x x = true) → list_eqb eqb l l = true.
Proof. intros H. induction l; simpl; [done|]. by rewrite H. Qed.

#[export] Hint Rewrite Z.eqb_refl String.eqb_refl Bool.eqb_reflx @f32_eqb_diag @f64_eqb_diag : arora.
#[export] Hint Resolve Z.eqb_refl String.eqb_refl Bool.eqb_reflx : arora.

Lemma wf_vec_Forall {A} (p : A → bool) l : wf_vec p l = true → Forall (λ x, p x = true) l.
Proof. unfold wf_vec. intros [_ H]%andb_true_iff. by apply forallb_Forall. Qed.

Lemma wf_len_lt {A} (l : list A) : wf_len l = true → Z.of_nat (length l) < 2 ^ 32.
Proof. apply Z.ltb_lt. Qed.

Lemma wf_vec_len {A} (p : A → bool) l : wf_vec p l = true → wf_len l = true.
Proof. unfold wf_vec. by intros [H _]%andb_true_iff. Qed.

Ltac split_wf :=
  repeat match goal with
  | H : andb _ _ = true |- _ => apply andb_true_iff in H as [? ?]
  | H : bool_decide _ = true |- _ => apply bool_decide_eq_true in H
  end.

(** A reading of a list of fields whose values all satisfy [Q] when well-formed. *)
Lemma Forall_wf_fields (fs : list StructureField) (Q : Value → Prop) :
  wf_vec (λ f : StructureField, wf_uuid (sf_id f) && wf_value (sf_value f)) fs = true →
  Forall (λ f, wf_value (sf_value f) = true → Q (sf_value f)) fs →
  Forall (λ f, Q (sf_value f)) fs.
Proof.
  intros Hwf HQ. apply wf_vec_Forall in Hwf.
  induction HQ as [|f fs Hf _ IH]; inversion Hwf; subst; constructor; split_wf; auto.
Qed.

Lemma value_eqb_diag v : wf_value v = true → value_eqb v v = nan_free v.
Proof.
  induction v as [v IH] using Value_ind_subs.
  assert (IHf : ∀ fs : list StructureField,
    Forall (λ f, wf_value (sf_value f) = true → value_eqb (sf_value f) (sf_value f) = nan_free (sf_value f)) fs →
    wf_vec (λ f : StructureField, wf_uuid (sf_id f) && wf_value (sf_value f)) fs = true →
    list_eqb (λ f g : StructureField, (sf_id f =? sf_id g) && value_eqb (sf_value f) (sf_value g)) fs fs
    = forallb (λ f : StructureField, nan_free (sf_value f)) fs).
  { intros fs Hfs Hwf.
    apply (Forall_wf_fields fs (λ w, value_eqb w w = nan_free w)) in Hfs; [|done].
    apply list_eqb_diag. eapply Forall_impl; [exact Hfs|]. intros f ->. by rewrite Z.eqb_refl. }
  destruct v as [| | | | | | | | | | | | |[w|]|[i fs]|[i vi w]| | | | | | | | | | | | |vs|i es|i es|[i fs]|];
    simpl in *; intros Hwf; split_wf; autorewrite with arora; simpl; auto;
    try (apply list_eqb_refl; auto with arora; fail);
    try (apply list_eqb_diag; apply Forall_true; intros; by autorewrite with arora).
  - apply list_eqb_diag. apply wf_vec_Forall in Hwf.
    eapply Forall_impl2; [exact IH|exact Hwf|auto].
  - apply list_eqb_diag.
    match goal with H : wf_vec _ es = true |- _ => apply wf_vec_Forall in H; rename H into Hes end.
    eapply Forall_impl2; [exact IH|exact Hes|]. simpl. auto.
  - apply list_eqb_diag.
    match goal with H : wf_vec _ es = true |- _ => apply wf_vec_Forall in H; rename H into Hes end.
    eapply Forall_impl2; [exact IH|exact Hes|]. simpl. intros e H1 H2.
    split_wf. autorewrite with arora. auto.
  - apply (hm_eqb_diag _ (λ f, match kvf_value f with None => true | Some w => nan_free w end)); [done|].
    match goal with H : wf_vec _ fs = true |- _ => apply wf_vec_Forall in H; rename H into Hfs end.
    eapply Forall_impl2; [exact IH|exact Hfs|]. simpl. intros [k [j n [w|]]] Hw1 Hw2;
      simpl in *; split_wf; autorewrite with arora; simpl; auto.
Qed.

(** *** Arrays *)
Lemma typed_Some {A} (as_ : Value → option A) array elements next xs :
  mapM as_ elements = Some xs → typed as_ array elements next = array xs.
Proof. unfold typed. by intros ->. Qed.

Lemma typed_inv {A} (as_ : Value → option A) array elements next (P : Value → Prop) :
  (∀ xs, mapM as_ elements = Some xs → P (array xs)) → P next → P (typed as_ array elements next).
Proof. unfold typed. intros H1 H2. destruct (mapM as_ elements); auto. Qed.

(** Reading a variant's payload and wrapping it again gives the value back. *)
Lemma mapM_wrap {A} (as_ : Value → option A) (wrap : A → Value) elements xs :
  (∀ v x, v ∈ elements → as_ v = Some x → wrap x = v) →
  mapM as_ elements = Some xs → wrap <$> xs = elements.
Proof.
  intros H Hm. apply mapM_Some_1 in Hm.
  induction Hm as [|v x vs xs Hx _ IH]; simpl; [done|].
  f_equal; [apply H; [by left|done]|]. apply IH. intros; apply H; [by right|done].
Qed.

(** The id an element of a user type carries must be the one its array names. *)
Definition element_of (id : Uuid) (v : Value) : bool :=
  match v with
  | Value.Structure s => st_id s =? id
  | Value.Enumeration e => en_id e =? id
  | _ => true
  end.

Lemma into_elements_empty_array id b : into_elements (empty_array id b) = Ok [].
Proof. unfold empty_array. by repeat case_match. Qed.

Ltac typed_case :=
  apply typed_inv; [intros xs Hxs; simpl; f_equal;
    eapply mapM_wrap; [|exact Hxs]; intros [] ?; simpl; intros; simplify_eq; done|].

Lemma into_elements_array_of_gen id elements :
  forallb (element_of id) elements = true → into_elements (array_of id elements) = Ok elements.
Proof.
  intros Hid. unfold array_of. destruct elements as [|e es]; [apply into_elements_empty_array|].
  remember (e :: es) as elements. clear e es Heqelements.
  do 12 typed_case. apply forallb_Forall in Hid. rewrite Forall_forall in Hid.
  apply typed_inv; [intros xs Hxs; simpl; f_equal|].
  { apply (mapM_wrap as_StructureWithoutId (λ e, Value.Structure (mkStructure id (sw_fields e)))); [|done].
    intros [] x Hin; simpl; intros [= <-]. apply Hid in Hin. simpl in Hin.
    apply Z.eqb_eq in Hin as <-. by destruct s. }
  apply typed_inv; [intros xs Hxs; simpl; f_equal|done].
  apply (mapM_wrap as_EnumerationWithoutId (λ e, Value.Enumeration (mkEnumeration id (ew_variant_id e) (ew_value e)))); [|done].
  intros [] x Hin; simpl; intros [= <-]. apply Hid in Hin. simpl in Hin.
  apply Z.eqb_eq in Hin as <-. by destruct e.
Qed.

(** *** Key-value items *)
Definition names (items : KeyValueItems) : list string := kvf_name <$> items.

Lemma items_get_cons n f items :
  items_get n (f :: items) = if String.eqb n (kvf_name f) then Some f else items_get n items.
Proof. unfold items_get. simpl. by rewrite String.eqb_sym. Qed.

Lemma items_get_set n field items :
  items_get n (items_set field items).1 =
  if String.eqb n (kvf_name field) then Some field else items_get n items.
Proof.
  induction items as [|f items IH]; [apply items_get_cons|]. cbn [items_set].
  destruct (String.eqb_spec (kvf_name f) (kvf_name field)) as [Hf|Hf]; cbn [fst].
  - rewrite !items_get_cons, Hf. by destruct (String.eqb n (kvf_name field)).
  - destruct (items_set field items) as [its old]. cbn [fst] in *. rewrite !items_get_cons, IH.
    destruct (String.eqb_spec n (kvf_name f)) as [->|]; [|done].
    by destruct (String.eqb_spec (kvf_name f) (kvf_name field)).
Qed.

Lemma names_items_set field items :
  names (items_set field items).1 =
  if decide (kvf_name field ∈ names items) then names items else names items ++ [kvf_name field].
Proof.
  induction items as [|f items IH]; [done|]. simpl.
  destruct (String.eqb_spec (kvf_name f) (kvf_name field)) as [Hf|Hf]; simpl.
  - rewrite Hf. by rewrite decide_True by (by left).
  - destruct (items_set field items) as [its old]; simpl in *. rewrite IH.
    destruct (decide (kvf_name field ∈ names items)) as [Hin|Hin].
    + by rewrite decide_True by (by right).
    + rewrite decide_False; [done|]. intros [?|?]%elem_of_cons; congruence.
Qed.

Lemma items_set_NoDup field items : NoDup (names items) → NoDup (names (items_set field items).1).
Proof.
  intros Hd. rewrite names_items_set. case_decide as Hin; [done|].
  apply NoDup_app. split_and!; [done| |apply NoDup_singleton].
  intros x Hx ->%list_elem_of_singleton. done.
Qed.

Lemma items_from_snoc v f : items_from (v ++ [f]) = (items_set f (items_from v)).1.
Proof. unfold items_from. by rewrite foldl_app. Qed.

Lemma items_from_NoDup_gen v : NoDup (names (items_from v)).
Proof.
  induction v as [|f v IH] using rev_ind; [apply NoDup_nil_2|].
  rewrite items_from_snoc. by apply items_set_NoDup.
Qed.

(** The last field of a name wins, in the vector form and in the map form. *)
Definition last_named (n : string) (v : list KeyValueField) : option KeyValueField :=
  List.find (λ f, String.eqb (kvf_name f) n) (rev v).

Lemma last_named_snoc n v f :
  last_named n (v ++ [f]) = if String.eqb n (kvf_name f) then Some f else last_named n v.
Proof. unfold last_named. rewrite rev_app_distr. simpl. by rewrite (String.eqb_sym n). Qed.

Lemma items_get_from n v : items_get n (items_from v) = last_named n v.
Proof.
  induction v as [|f v IH] using rev_ind; [done|].
  by rewrite items_from_snoc, items_get_set, IH, last_named_snoc.
Qed.

Lemma get_field_from n id v : get_field n (kv_from_fields id v) = last_named n v.
Proof.
  unfold get_field, kv_from_fields. simpl.
  induction v as [|f v IH] using rev_ind; [done|].
  rewrite foldl_app. simpl. by rewrite hm_get_insert, IH, last_named_snoc.
Qed.

(** ** Properties *)

(** [array_of] and [into_elements] are inverse: unpacking a packed array
    gives the elements back, in order, whatever their variants, as long as each
    structure or enumeration is of the type the array names. *)
Theorem into_elements_array_of (id : Uuid) (elements : list Value) :
  forallb (element_of id) elements = true → into_elements (array_of id elements) = Ok elements.
Proof. apply into_elements_array_of_gen. Qed.

Lemma into_elements_array_of_witness :
  into_elements (array_of 7 [Value.Structure (mkStructure 7 [mkStructureField 1 (Value.U8 3)]);
                             Value.Structure (mkStructure 7 [])])
  = Ok [Value.Structure (mkStructure 7 [mkStructureField 1 (Value.U8 3)]); Value.Structure (mkStructure 7 [])].
Proof. apply into_elements_array_of. reflexivity. Defined.

(** Equality of values ([PartialEq]) is reflexive exactly on the values that
    hold no NaN, at any depth. *)
Theorem value_eqb_refl_iff_nan_free (v : Value) :
  wf_value v = true → value_eqb v v = nan_free v.
Proof. apply value_eqb_diag. Qed.

Lemma value_eqb_refl_iff_nan_free_witness :
  value_eqb (Value.Option (Some (Value.F32 0x7FC00000))) (Value.Option (Some (Value.F32 0x7FC00000))) = false.
Proof.
  rewrite value_eqb_refl_iff_nan_free; reflexivity.
Defined.

(** [KeyValueItems::from] a vector of fields keeps one field per name, the
    last one, and a [KeyValue] built from the same fields answers the same. *)
Theorem key_value_last_wins (id : Uuid) (v : list KeyValueField) :
  NoDup (names (items_from v)) ∧
  ∀ n, items_get n (items_from v) = last_named n v ∧
       get_field n (kv_from_fields id v) = last_named n v.
Proof.
  split; [apply items_from_NoDup_gen|]. intros n. split; [apply items_get_from|apply get_field_from].
Qed.
