(* ===== verification/Extern.v ===== *)
(** * The third-party crates the buffers rely on

    The source reads and writes bytes through the [bytes] crate ([Buf], [BufMut])
    and takes ids apart with the [uuid] crate. Their code is not part of the
    repository: here they are classes of operations, and what their
    documentation says of each operation is a law. The components that use them
    are defined for any instance; their theorems assume the laws; [Bytes_ref]
    and [UuidCrate_ref] are concrete instances, for evaluation. *)

From S2P Require Import Prelude Values.

(** [BufMut] on a [Vec<u8>] ([put_*]) and [Buf] on a [&[u8]] ([get_*],
    [advance]): [None] is a panic. A float is its bit pattern. *)
Class Bytes := {
  put_slice : list byte → list byte → list byte;
  put_u8 : list byte → Z → list byte;
  put_i8 : list byte → Z → list byte;
  put_u16_le : list byte → Z → list byte;
  put_u32_le : list byte → Z → list byte;
  put_u64_le : list byte → Z → list byte;
  put_i16_le : list byte → Z → list byte;
  put_i32_le : list byte → Z → list byte;
  put_i64_le : list byte → Z → list byte;
  put_f32_le : list byte → Z → list byte;
  put_f64_le : list byte → Z → list byte;
  advance : list byte → nat → option (list byte);
  get_u8 : list byte → option (Z * list byte);
  get_i8 : list byte → option (Z * list byte);
  get_u16_le : list byte → option (Z * list byte);
  get_u32_le : list byte → option (Z * list byte);
  get_u64_le : list byte → option (Z * list byte);
  get_i16_le : list byte → option (Z * list byte);
  get_i32_le : list byte → option (Z * list byte);
  get_i64_le : list byte → option (Z * list byte);
  get_f32_le : list byte → option (Z * list byte);
  get_f64_le : list byte → option (Z * list byte);
}.

(** A [get_*] method: reads [n] bytes and advances past them, or panics when
    fewer remain. *)
Definition get_spec (n : nat) (decode : Z → Z) (bs : list byte) : option (Z * list byte) :=
  if (length bs <? n)%nat then None else Some (decode (le_Z (take n bs)), drop n bs).

Class BytesLaws `{Bytes} : Prop := {
  put_slice_spec b s : put_slice b s = b ++ s;
  put_u8_spec b v : put_u8 b v = b ++ le_bytes 1 v;
  put_i8_spec b v : put_i8 b v = b ++ le_bytes 1 v;
  put_u16_le_spec b v : put_u16_le b v = b ++ le_bytes 2 v;
  put_u32_le_spec b v : put_u32_le b v = b ++ le_bytes 4 v;
  put_u64_le_spec b v : put_u64_le b v = b ++ le_bytes 8 v;
  put_i16_le_spec b v : put_i16_le b v = b ++ le_bytes 2 v;
  put_i32_le_spec b v : put_i32_le b v = b ++ le_bytes 4 v;
  put_i64_le_spec b v : put_i64_le b v = b ++ le_bytes 8 v;
  put_f32_le_spec b v : put_f32_le b v = b ++ le_bytes 4 v;
  put_f64_le_spec b v : put_f64_le b v = b ++ le_bytes 8 v;
  advance_spec b n : advance b n = if (length b <? n)%nat then None else Some (drop n b);
  get_u8_spec b : get_u8 b = get_spec 1 id b;
  get_i8_spec b : get_i8 b = get_spec 1 (to_signed 8) b;
  get_u16_le_spec b : get_u16_le b = get_spec 2 id b;
  get_u32_le_spec b : get_u32_le b = get_spec 4 id b;
  get_u64_le_spec b : get_u64_le b = get_spec 8 id b;
  get_i16_le_spec b : get_i16_le b = get_spec 2 (to_signed 16) b;
  get_i32_le_spec b : get_i32_le b = get_spec 4 (to_signed 32) b;
  get_i64_le_spec b : get_i64_le b = get_spec 8 (to_signed 64) b;
  get_f32_le_spec b : get_f32_le b = get_spec 4 id b;
  get_f64_le_spec b : get_f64_le b = get_spec 8 id b;
}.

(** [Uuid::as_bytes], [Uuid::from_slice] ([None]: not 16 bytes) and
    [Uuid::parse_str] ([None]: not the text of an id), of which nothing is
    assumed. *)
Class UuidCrate := {
  as_bytes : Uuid → list byte;
  from_slice : list byte → option Uuid;
  parse_str : string → option Uuid;
}.

Class UuidLaws `{UuidCrate} : Prop := {
  length_as_bytes u : length (as_bytes u) = 16%nat;
  from_as_bytes u : wf_uuid u = true → from_slice (as_bytes u) = Some u;
  from_slice_spec bs : length bs = 16%nat → ∃ u, from_slice bs = Some u ∧ wf_uuid u = true;
}.

(** ** Reference instances *)
#[export] Instance Bytes_ref : Bytes := {|
  put_slice b s := b ++ s;
  put_u8 b v := b ++ le_bytes 1 v;
  put_i8 b v := b ++ le_bytes 1 v;
  put_u16_le b v := b ++ le_bytes 2 v;
  put_u32_le b v := b ++ le_bytes 4 v;
  put_u64_le b v := b ++ le_bytes 8 v;
  put_i16_le b v := b ++ le_bytes 2 v;
  put_i32_le b v := b ++ le_bytes 4 v;
  put_i64_le b v := b ++ le_bytes 8 v;
  put_f32_le b v := b ++ le_bytes 4 v;
  put_f64_le b v := b ++ le_bytes 8 v;
  advance b n := if (length b <? n)%nat then None else Some (drop n b);
  get_u8 := get_spec 1 id;
  get_i8 := get_spec 1 (to_signed 8);
  get_u16_le := get_spec 2 id;
  get_u32_le := get_spec 4 id;
  get_u64_le := get_spec 8 id;
  get_i16_le := get_spec 2 (to_signed 16);
  get_i32_le := get_spec 4 (to_signed 32);
  get_i64_le := get_spec 8 (to_signed 64);
  get_f32_le := get_spec 4 id;
  get_f64_le := get_spec 8 id;
|}.

(** The hexadecimal digits of an id's text, its hyphens left out. *)
Fixpoint hex_value (acc : Z) (digits : nat) (s : string) : option Z :=
  match s, digits with
  | String.EmptyString, O => Some acc
  | String.EmptyString, _ => None
  | String.String a s, _ =>
      let n := Z.of_nat (Ascii.nat_of_ascii a) in
      if n =? 45 then hex_value acc digits s
      else match digits with
           | O => None
           | S digits =>
               if (48 <=? n) && (n <=? 57) then hex_value (16 * acc + (n - 48)) digits s
               else if (97 <=? n) && (n <=? 102) then hex_value (16 * acc + (n - 87)) digits s
               else if (65 <=? n) && (n <=? 70) then hex_value (16 * acc + (n - 55)) digits s
               else None
           end
  end.

(** Big-endian, the first byte the most significant. *)
#[export] Instance UuidCrate_ref : UuidCrate := {|
  as_bytes u := rev (le_bytes 16 u);
  from_slice bs := if (length bs =? 16)%nat then Some (le_Z (rev bs)) else None;
  parse_str := hex_value 0 32;
|}.

#[export] Instance BytesLaws_ref : BytesLaws.
Proof. by constructor. Qed.

#[export] Instance UuidLaws_ref : UuidLaws.
Proof.
  constructor; cbn [as_bytes from_slice UuidCrate_ref].
  - intros u. by rewrite length_rev, length_le_bytes.
  - intros u Hu. rewrite length_rev, length_le_bytes, rev_involutive. cbn [Nat.eqb].
    f_equal. apply le_Z_bytes_small. change (256 ^ Z.of_nat 16) with (2 ^ 128).
    unfold wf_uuid, in_u in Hu. split_wf. lia.
  - intros bs Hbs. rewrite Hbs. cbn [Nat.eqb]. eexists; split; [done|].
    pose proof (le_Z_range (rev bs)) as Hr. rewrite length_rev, Hbs in Hr.
    unfold wf_uuid, in_u. change (256 ^ Z.of_nat 16) with (2 ^ 128) in Hr.
    apply andb_true_iff. split; [apply Z.leb_le|apply Z.ltb_lt]; lia.
Qed.
