(* ===== verification/Writer.v ===== *)
(** * The buffer writer: [crates/arora-buffers/src/format.rs] and [writer.rs]

    The wire's constants, and [BufferWriter]: a growing vector that opens with
    four bytes for its size, filled by [finalize]. Every operation of the source
    is a function from a writer to the writer after it. *)

From S2P Require Import Prelude Values Extern.

(** ** [format.rs] *)
Definition TYPE_UNIT : Z := 0.
Definition TYPE_BOOLEAN : Z := 1.
Definition TYPE_U8 : Z := 2.
Definition TYPE_U16 : Z := 3.
Definition TYPE_U32 : Z := 4.
Definition TYPE_U64 : Z := 5.
Definition TYPE_I8 : Z := 6.
Definition TYPE_I16 : Z := 7.
Definition TYPE_I32 : Z := 8.
Definition TYPE_I64 : Z := 9.
Definition TYPE_F32 : Z := 10.
Definition TYPE_F64 : Z := 11.
Definition TYPE_STRING : Z := 12.
Definition TYPE_STRUCTURE : Z := 13.
Definition TYPE_ENUMERATION : Z := 14.
Definition TYPE_ARRAY : Z := 15.
Definition TYPE_MAP : Z := 16.
Definition TYPE_OPTION : Z := 17.
Definition TYPE_UUID : Z := 18.
Definition TYPE_VALUE : Z := 19.
Definition TYPE_ERROR : Z := 20.
Definition ALIGNMENT : nat := 8.
Definition BUFFER_SIZE_SIZE : nat := 4.

Section Writer.
Context `{BY : Bytes}.

(** [struct BufferWriter { backing: Vec<u8> }] *)
Abbreviation BufferWriter := (list byte).

Definition new : BufferWriter := put_u32_le [] 0.

(** Pads to the next multiple of [ALIGNMENT], a whole [ALIGNMENT] on from one. *)
Definition align (w : BufferWriter) : BufferWriter :=
  let alignment_buffer := (ALIGNMENT - length w mod ALIGNMENT)%nat in
  Nat.iter alignment_buffer (λ w, put_u8 w 0) w.

(** An id arrives as the bytes of a [Uuid]; the [assert_eq!(id.len(), 16)] of the
    operations below holds of those ([UuidLaws]), so it is not modelled. *)
Definition begin_structure_raw (w : BufferWriter) (field_count : Z) : BufferWriter :=
  put_u32_le w field_count.
Definition begin_structure (w : BufferWriter) (id : list byte) (field_count : Z) : BufferWriter :=
  begin_structure_raw (put_slice (put_u8 w TYPE_STRUCTURE) id) field_count.
Definition add_enumeration_value_raw (w : BufferWriter) (value_id : list byte) : BufferWriter :=
  put_slice w value_id.
Definition add_enumeration_value (w : BufferWriter) (id value_id : list byte) : BufferWriter :=
  add_enumeration_value_raw (put_slice (put_u8 w TYPE_ENUMERATION) id) value_id.
Definition add_structure_field (w : BufferWriter) (id : list byte) : BufferWriter := put_slice w id.

Definition add_unit (w : BufferWriter) : BufferWriter := put_u8 w TYPE_UNIT.
Definition add_boolean_raw (w : BufferWriter) (value : bool) : BufferWriter :=
  put_u8 w (if value then 1 else 0).
Definition add_boolean (w : BufferWriter) (value : bool) : BufferWriter :=
  add_boolean_raw (put_u8 w TYPE_BOOLEAN) value.
Definition add_boolean_raw_bulk (w : BufferWriter) (values : list bool) : BufferWriter :=
  foldl add_boolean_raw (align w) values.
Definition add_u8_raw (w : BufferWriter) (value : Z) : BufferWriter := put_u8 w value.
Definition add_u8 (w : BufferWriter) (value : Z) : BufferWriter := add_u8_raw (put_u8 w TYPE_U8) value.
Definition add_u8_raw_bulk (w : BufferWriter) (values : list Z) : BufferWriter :=
  foldl add_u8_raw (align w) values.
Definition add_u16_raw (w : BufferWriter) (value : Z) : BufferWriter := put_u16_le w value.
Definition add_u16 (w : BufferWriter) (value : Z) : BufferWriter := add_u16_raw (put_u8 w TYPE_U16) value.
Definition add_u16_raw_bulk (w : BufferWriter) (values : list Z) : BufferWriter :=
  foldl add_u16_raw (align w) values.
Definition add_u32_raw (w : BufferWriter) (value : Z) : BufferWriter := put_u32_le w value.
Definition add_u32 (w : BufferWriter) (value : Z) : BufferWriter := add_u32_raw (put_u8 w TYPE_U32) value.
Definition add_u32_raw_bulk (w : BufferWriter) (values : list Z) : BufferWriter :=
  foldl add_u32_raw (align w) values.
Definition add_u64_raw (w : BufferWriter) (value : Z) : BufferWriter := put_u64_le w value.
Definition add_u64 (w : BufferWriter) (value : Z) : BufferWriter := add_u64_raw (put_u8 w TYPE_U64) value.
Definition add_u64_raw_bulk (w : BufferWriter) (values : list Z) : BufferWriter :=
  foldl add_u64_raw (align w) values.
Definition add_i8_raw (w : BufferWriter) (value : Z) : BufferWriter := put_i8 w value.
Definition add_i8 (w : BufferWriter) (value : Z) : BufferWriter := add_i8_raw (put_u8 w TYPE_I8) value.
Definition add_i8_raw_bulk (w : BufferWriter) (values : list Z) : BufferWriter :=
  foldl add_i8_raw (align w) values.
Definition add_i16_raw (w : BufferWriter) (value : Z) : BufferWriter := put_i16_le w value.
Definition add_i16 (w : BufferWriter) (value : Z) : BufferWriter := add_i16_raw (put_u8 w TYPE_I16) value.
Definition add_i16_raw_bulk (w : BufferWriter) (values : list Z) : BufferWriter :=
  foldl add_i16_raw (align w) values.
Definition add_i32_raw (w : BufferWriter) (value : Z) : BufferWriter := put_i32_le w value.
Definition add_i32 (w : BufferWriter) (value : Z) : BufferWriter := add_i32_raw (put_u8 w TYPE_I32) value.
Definition add_i32_raw_bulk (w : BufferWriter) (values : list Z) : BufferWriter :=
  foldl add_i32_raw (align w) values.
Definition add_i64_raw (w : BufferWriter) (value : Z) : BufferWriter := put_i64_le w value.
Definition add_i64 (w : BufferWriter) (value : Z) : BufferWriter := add_i64_raw (put_u8 w TYPE_I64) value.
Definition add_i64_raw_bulk (w : BufferWriter) (values : list Z) : BufferWriter :=
  foldl add_i64_raw (align w) values.
Definition add_f32_raw (w : BufferWriter) (value : Z) : BufferWriter := put_f32_le w value.
Definition add_f32 (w : BufferWriter) (value : Z) : BufferWriter := add_f32_raw (put_u8 w TYPE_F32) value.
Definition add_f32_raw_bulk (w : BufferWriter) (values : list Z) : BufferWriter :=
  foldl add_f32_raw (align w) values.
Definition add_f64_raw (w : BufferWriter) (value : Z) : BufferWriter := put_f64_le w value.
Definition add_f64 (w : BufferWriter) (value : Z) : BufferWriter := add_f64_raw (put_u8 w TYPE_F64) value.
Definition add_f64_raw_bulk (w : BufferWriter) (values : list Z) : BufferWriter :=
  foldl add_f64_raw (align w) values.

Definition add_string_raw (w : BufferWriter) (value : string) : BufferWriter :=
  put_slice (put_u32_le w (as_u32 (length (str_bytes value)))) (str_bytes value).
Definition add_string (w : BufferWriter) (value : string) : BufferWriter :=
  add_string_raw (put_u8 w TYPE_STRING) value.
Definition add_string_raw_bulk (w : BufferWriter) (values : list string) : BufferWriter :=
  foldl add_string_raw (align w) values.

Definition add_array_primitive (w : BufferWriter) (ty element_count : Z) : BufferWriter :=
  put_u32_le (put_u8 (put_u8 w TYPE_ARRAY) ty) element_count.
Definition add_array_structure (w : BufferWriter) (ty_id : list byte) (element_count : Z) : BufferWriter :=
  put_slice (put_u32_le (put_u8 (put_u8 w TYPE_ARRAY) TYPE_STRUCTURE) element_count) ty_id.
Definition add_array_enumeration (w : BufferWriter) (ty_id : list byte) (element_count : Z) : BufferWriter :=
  put_slice (put_u32_le (put_u8 (put_u8 w TYPE_ARRAY) TYPE_ENUMERATION) element_count) ty_id.

Definition add_option_some (w : BufferWriter) : BufferWriter := put_u8 (put_u8 w TYPE_OPTION) 1.
Definition add_option_none (w : BufferWriter) : BufferWriter := put_u8 (put_u8 w TYPE_OPTION) 0.
Definition add_uuid_raw (w : BufferWriter) (id : list byte) : BufferWriter := put_slice w id.
Definition add_uuid (w : BufferWriter) (id : list byte) : BufferWriter := add_uuid_raw (put_u8 w TYPE_UUID) id.
Definition begin_map (w : BufferWriter) (id : list byte) (field_count : Z) : BufferWriter :=
  put_u32_le (put_slice (put_u8 w TYPE_MAP) id) field_count.
Definition add_map_field_key (w : BufferWriter) (key : string) : BufferWriter :=
  put_slice (put_u32_le w (as_u32 (length (str_bytes key)))) (str_bytes key).
Definition add_error (w : BufferWriter) (message : string) : BufferWriter :=
  add_string_raw (put_u8 w TYPE_ERROR) message.

(** [self.backing[0..4].copy_from_slice(&size.to_le_bytes())] *)
Definition finalize (w : BufferWriter) : list byte :=
  le_bytes 4 (as_u32 (length w)) ++ drop 4 w.
End Writer.
