(* ===== verification/Reader.v ===== *)
(** * The buffer reader: [crates/arora-buffers/src/reader.rs]

    [BufferReader] is the bytes not read yet and the length of the whole
    buffer. Its operations panic on bytes that are not there: they are [SE]
    computations whose errors are the panics. *)

From S2P Require Import Prelude Values Extern Writer.

(** Why a read panics. *)
Inductive panic :=
| BufferExhausted          (* a [bytes::Buf] method on too few bytes *)
| SliceOutOfRange          (* [&backing[a..b]] past the end *)
| NotUtf8                  (* [from_utf8(..).unwrap()] *)
| BadUuid                  (* [Uuid::from_slice(..).unwrap()] *)
| UnsupportedArrayType (ty : Z)
| InvalidTypeKind (kind : Z)
| InvalidTypeOfNoKind
| OutOfFuel.               (* no panic of the source: the bound of the model *)

Record BufferReader := mkReader { backing : list byte; buffer_len : nat }.

Section Reader.
Context `{BY : Bytes} `{UC : UuidCrate}.

Abbreviation R A := (SE BufferReader panic A).

(** [BufferReader::new]: [&buffer[4..]] panics on less than 4 bytes. *)
Definition reader_new (buffer : list byte) : result panic BufferReader :=
  if (length buffer <? 4)%nat then Err SliceOutOfRange
  else Ok (mkReader (drop 4 buffer) (length buffer)).

(** A [get_*] method of [bytes::Buf] on [self.backing]. *)
Definition buf_get (get : list byte → option (Z * list byte)) : R Z := λ r,
  match get (backing r) with
  | Some (v, bs) => Ok (v, mkReader bs (buffer_len r))
  | None => Err BufferExhausted
  end.

(** [&self.backing[0..n]] *)
Definition slice_front (n : nat) : R (list byte) := λ r,
  if (length (backing r) <? n)%nat then Err SliceOutOfRange else Ok (take n (backing r), r).

(** [self.backing.advance(n)] *)
Definition buf_advance (n : nat) : R unit := λ r,
  match advance (backing r) n with
  | Some bs => Ok (tt, mkReader bs (buffer_len r))
  | None => Err BufferExhausted
  end.

(** [self.backing = &self.backing[n..]] *)
Definition skip_front (n : nat) : R unit := λ r,
  if (length (backing r) <? n)%nat then Err SliceOutOfRange
  else Ok (tt, mkReader (drop n (backing r)) (buffer_len r)).

Definition reader_align : R unit := λ r,
  let absolute_offset := (buffer_len r - length (backing r))%nat in
  let pad := (ALIGNMENT - absolute_offset mod ALIGNMENT)%nat in
  skip_front pad r.

Definition peek_type (r : BufferReader) : option byte := head (backing r).

Definition next_type : R (option Z) := λ r,
  match backing r with
  | [] => Ok (None, r)
  | _ => match buf_get get_u8 r with Ok (v, r) => Ok (Some v, r) | Err e => Err e end
  end.

Definition take_aligned_bytes (bytes : nat) : R (list byte) :=
  reader_align ;; let* block := slice_front bytes in skip_front bytes ;; se_ret block.

Definition get_u8_bulk (count : nat) : R (list byte) := take_aligned_bytes count.

Definition get_boolean : R bool := let* v := buf_get get_u8 in se_ret (negb (v =? 0)).
Definition r_u8 : R Z := buf_get get_u8.
Definition r_u16 : R Z := buf_get get_u16_le.
Definition r_u32 : R Z := buf_get get_u32_le.
Definition r_u64 : R Z := buf_get get_u64_le.
Definition r_i8 : R Z := buf_get get_i8.
Definition r_i16 : R Z := buf_get get_i16_le.
Definition r_i32 : R Z := buf_get get_i32_le.
Definition r_i64 : R Z := buf_get get_i64_le.
Definition r_f32 : R Z := buf_get get_f32_le.
Definition r_f64 : R Z := buf_get get_f64_le.

(** [&self.backing[0..n]], then [advance(n)]. *)
Definition take_front (n : nat) : R (list byte) :=
  let* bs := slice_front n in buf_advance n ;; se_ret bs.

Definition from_utf8 (bs : list byte) : R string :=
  if utf8_valid bs then se_ret (bytes_str bs) else se_fail NotUtf8.

Definition get_string : R string :=
  let* len := buf_get get_u32_le in
  let* bs := slice_front (Z.to_nat len) in
  let* ret := from_utf8 bs in
  buf_advance (Z.to_nat len) ;; se_ret ret.

Definition get_structure_raw : R Z := buf_get get_u32_le.
Definition get_structure : R (list byte * Z) :=
  let* id := take_front 16 in
  let* field_count := get_structure_raw in
  se_ret (id, field_count).
Definition get_structure_field : R (list byte) := take_front 16.
Definition get_enumeration_value : R (list byte * list byte) :=
  let* id := take_front 16 in
  let* value_id := take_front 16 in
  se_ret (id, value_id).
Definition get_enumeration_value_raw : R (list byte) := take_front 16.
Definition get_option_presence : R bool := let* v := buf_get get_u8 in se_ret (negb (v =? 0)).
Definition get_uuid : R (list byte) := take_front 16.
Definition get_map : R (list byte * Z) :=
  let* id := take_front 16 in
  let* field_count := buf_get get_u32_le in
  se_ret (id, field_count).
Definition get_map_field_key : R string :=
  let* len := buf_get get_u32_le in
  let* bs := slice_front (Z.to_nat len) in
  let* ret := from_utf8 bs in
  buf_advance (Z.to_nat len) ;; se_ret ret.
Definition get_array : R (Z * Z) :=
  let* ty := buf_get get_u8 in
  let* count := buf_get get_u32_le in
  se_ret (ty, count).

(** [Uuid::from_slice(bytes).unwrap()] *)
Definition uuid_unwrap (bs : list byte) : R Uuid :=
  match from_slice bs with Some u => se_ret u | None => se_fail BadUuid end.
End Reader.

(** ** Lemmas *)

(** What an operation of the reader may do: it ends without running out of the
    model's fuel, and leaves no more bytes than there were. *)
Definition atomic {A} (m : SE BufferReader panic A) : Prop := ∀ r,
  match m r with
  | Ok (_, r') => (length (backing r') ≤ length (backing r))%nat
  | Err e => e ≠ OutOfFuel
  end.

Section Facts.
Context `{BL : BytesLaws} `{UL : UuidLaws}.

Lemma buf_get_spec n decode get r :
  (∀ b, get b = get_spec n decode b) →
  buf_get get r =
  if (length (backing r) <? n)%nat then Err BufferExhausted
  else Ok (decode (le_Z (take n (backing r))), mkReader (drop n (backing r)) (buffer_len r)).
Proof. intros Hget. unfold buf_get. rewrite Hget. unfold get_spec. by destruct (_ <? _)%nat. Qed.

Lemma buf_get_atomic n decode get : (∀ b, get b = get_spec n decode b) → atomic (buf_get get).
Proof.
  intros Hget r. rewrite (buf_get_spec n decode) by done.
  destruct (_ <? _)%nat; simpl; [done|]. rewrite length_drop. lia.
Qed.

Lemma buf_advance_spec n r :
  buf_advance n r =
  if (length (backing r) <? n)%nat then Err BufferExhausted
  else Ok (tt, mkReader (drop n (backing r)) (buffer_len r)).
Proof. unfold buf_advance. rewrite advance_spec. by destruct (_ <? _)%nat. Qed.

Lemma take_front_spec n r :
  take_front n r =
  if (length (backing r) <? n)%nat then Err SliceOutOfRange
  else Ok (take n (backing r), mkReader (drop n (backing r)) (buffer_len r)).
Proof.
  unfold take_front, se_bind, slice_front.
  destruct (_ <? _)%nat eqn:E; [done|]. by rewrite buf_advance_spec, E.
Qed.

Lemma slice_front_atomic n : atomic (slice_front n).
Proof. intros r. unfold slice_front. destruct (_ <? _)%nat; [done|]. simpl. lia. Qed.
Lemma skip_front_atomic n : atomic (skip_front n).
Proof. intros r. unfold skip_front. destruct (_ <? _)%nat; simpl; [done|]. rewrite length_drop. lia. Qed.
Lemma buf_advance_atomic n : atomic (buf_advance n).
Proof. intros r. rewrite buf_advance_spec. destruct (_ <? _)%nat; simpl; [done|]. rewrite length_drop. lia. Qed.
Lemma reader_align_atomic : atomic reader_align.
Proof. intros r. apply (skip_front_atomic _ r). Qed.

(** [next_type] returns a tag only by consuming a byte. *)
Lemma next_type_spec r :
  next_type r =
  match backing r with
  | [] => Ok (None, r)
  | b :: bs => Ok (Some (byte_Z b), mkReader bs (buffer_len r))
  end.
Proof.
  unfold next_type. destruct r as [[|b bs] n]; simpl; [done|].
  rewrite (buf_get_spec 1 id) by apply get_u8_spec. simpl. do 4 f_equal. unfold id. lia.
Qed.
End Facts.
