(* ===== verification/Froto.v ===== *)
(** * The value codec: [crates/arora-buffers/src/froto_value.rs]

    [serialize_to_writer] writes a self-describing value; [deserialize_from_reader]
    reads one back, panicking on bytes that are not one. The decoder recurses on
    what it reads: [deserialize_fuel] bounds the nesting, and one more than the
    bytes left is always enough ([deserialize_terminates]), so
    [deserialize_from_reader] takes that. *)

From S2P Require Import Prelude Values Extern Writer Reader.

Section Froto.
Context `{BY : Bytes} `{UC : UuidCrate}.

Abbreviation BufferWriter := (list byte).
Abbreviation R A := (SE BufferReader panic A).

Fixpoint serialize_to_writer (v : Value) (w : BufferWriter) {struct v} : BufferWriter :=
  let write_fields (fields : list StructureField) (w : BufferWriter) :=
    foldl (λ w f, serialize_to_writer (sf_value f) (add_structure_field w (as_bytes (sf_id f)))) w fields in
  match v with
  | Value.Unit => add_unit w
  | Value.Boolean b => add_boolean w b
  | Value.U8 v => add_u8 w v
  | Value.U16 v => add_u16 w v
  | Value.U32 v => add_u32 w v
  | Value.U64 v => add_u64 w v
  | Value.I8 v => add_i8 w v
  | Value.I16 v => add_i16 w v
  | Value.I32 v => add_i32 w v
  | Value.I64 v => add_i64 w v
  | Value.F32 v => add_f32 w v
  | Value.F64 v => add_f64 w v
  | Value.String v => add_string w v
  | Value.Structure v =>
      write_fields (st_fields v)
        (begin_structure w (as_bytes (st_id v)) (as_u32 (length (st_fields v))))
  | Value.Enumeration v =>
      serialize_to_writer (en_value v)
        (add_enumeration_value w (as_bytes (en_id v)) (as_bytes (en_variant_id v)))
  | Value.ArrayBoolean v => add_boolean_raw_bulk (add_array_primitive w TYPE_BOOLEAN (as_u32 (length v))) v
  | Value.ArrayU8 v => add_u8_raw_bulk (add_array_primitive w TYPE_U8 (as_u32 (length v))) v
  | Value.ArrayU16 v => add_u16_raw_bulk (add_array_primitive w TYPE_U16 (as_u32 (length v))) v
  | Value.ArrayU32 v => add_u32_raw_bulk (add_array_primitive w TYPE_U32 (as_u32 (length v))) v
  | Value.ArrayU64 v => add_u64_raw_bulk (add_array_primitive w TYPE_U64 (as_u32 (length v))) v
  | Value.ArrayI8 v => add_i8_raw_bulk (add_array_primitive w TYPE_I8 (as_u32 (length v))) v
  | Value.ArrayI16 v => add_i16_raw_bulk (add_array_primitive w TYPE_I16 (as_u32 (length v))) v
  | Value.ArrayI32 v => add_i32_raw_bulk (add_array_primitive w TYPE_I32 (as_u32 (length v))) v
  | Value.ArrayI64 v => add_i64_raw_bulk (add_array_primitive w TYPE_I64 (as_u32 (length v))) v
  | Value.ArrayF32 v => add_f32_raw_bulk (add_array_primitive w TYPE_F32 (as_u32 (length v))) v
  | Value.ArrayF64 v => add_f64_raw_bulk (add_array_primitive w TYPE_F64 (as_u32 (length v))) v
  | Value.ArrayString v =>
      foldl add_string_raw (add_array_primitive w TYPE_STRING (as_u32 (length v))) v
  | Value.ArrayStructure id elements =>
      foldl (λ w s, write_fields (sw_fields s) (begin_structure_raw w (as_u32 (length (sw_fields s)))))
        (add_array_structure w (as_bytes id) (as_u32 (length elements))) elements
  | Value.ArrayEnumeration id elements =>
      foldl (λ w e, serialize_to_writer (ew_value e) (add_enumeration_value_raw w (as_bytes (ew_variant_id e))))
        (add_array_enumeration w (as_bytes id) (as_u32 (length elements))) elements
  | Value.ArrayValue values =>
      foldl (λ w value, serialize_to_writer value w)
        (add_array_primitive w TYPE_VALUE (as_u32 (length values))) values
  | Value.Option (Some inner) => serialize_to_writer inner (add_option_some w)
  | Value.Option None => add_option_none w
  | Value.KeyValue kv =>
      let write_field (field : KeyValueField) (w : BufferWriter) :=
        let w := add_uuid_raw w (as_bytes (kvf_id field)) in
        match kvf_value field with
        | Some v => serialize_to_writer v w
        | None => add_unit w
        end in
      (* the entries, each with what writes its field, sorted by key *)
      let fields := sort_by_key ((λ kf, (kf.1, write_field kf.2)) <$> kv_fields kv) in
      foldl (λ w kf, kf.2 (add_map_field_key w kf.1))
        (begin_map w (as_bytes (kv_id kv)) (as_u32 (length fields))) fields
  | Value.Uuid uuid => add_uuid w (as_bytes uuid)
  end.

(** ** Decoding, by open recursion: [read_value] decodes a nested value *)
Section Decode.
Variable read_value : R Value.

(** A structure's field: its id, then its value. *)
Definition read_structure_field : R StructureField :=
  let* field_id := get_structure_field in
  let* id := uuid_unwrap field_id in
  let* value := read_value in
  se_ret (mkStructureField id value).

Definition read_element_structure : R StructureWithoutId :=
  let* field_count := get_structure_raw in
  let* fields := se_repeat (Z.to_nat field_count) read_structure_field in
  se_ret (mkStructureWithoutId fields).

Definition read_element_enumeration : R EnumerationWithoutId :=
  let* variant := get_enumeration_value_raw in
  let* variant_id := uuid_unwrap variant in
  let* value := read_value in
  se_ret (mkEnumerationWithoutId variant_id value).

(** One entry of a map, set in the key-value built so far. *)
Definition read_map_field (kv : KeyValue) : R KeyValue :=
  let* key := get_map_field_key in
  let* field_id_bytes := get_uuid in
  let* field_id := uuid_unwrap field_id_bytes in
  let* value := read_value in
  let field_value := match value with Value.Unit => None | other => Some other end in
  se_ret (set_field (new_with_id_and_option key field_id field_value) kv).

Fixpoint read_map_fields (n : nat) (kv : KeyValue) : R KeyValue :=
  match n with
  | O => se_ret kv
  | S n => let* kv := read_map_field kv in read_map_fields n kv
  end.

Definition is_primitive_array (ty : Z) : bool :=
  bool_decide (ty ∈ [TYPE_BOOLEAN; TYPE_U8; TYPE_U16; TYPE_U32; TYPE_U64; TYPE_I8; TYPE_I16;
                     TYPE_I32; TYPE_I64; TYPE_F32; TYPE_F64]).

Definition read_array : R Value :=
  let* '(ty, count) := get_array in
  let count := Z.to_nat count in
  (if is_primitive_array ty then reader_align else se_ret tt) ;;
  if ty =? TYPE_BOOLEAN then let* v := se_repeat count get_boolean in se_ret (Value.ArrayBoolean v)
  else if ty =? TYPE_U8 then let* v := se_repeat count r_u8 in se_ret (Value.ArrayU8 v)
  else if ty =? TYPE_U16 then let* v := se_repeat count r_u16 in se_ret (Value.ArrayU16 v)
  else if ty =? TYPE_U32 then let* v := se_repeat count r_u32 in se_ret (Value.ArrayU32 v)
  else if ty =? TYPE_U64 then let* v := se_repeat count r_u64 in se_ret (Value.ArrayU64 v)
  else if ty =? TYPE_I8 then let* v := se_repeat count r_i8 in se_ret (Value.ArrayI8 v)
  else if ty =? TYPE_I16 then let* v := se_repeat count r_i16 in se_ret (Value.ArrayI16 v)
  else if ty =? TYPE_I32 then let* v := se_repeat count r_i32 in se_ret (Value.ArrayI32 v)
  else if ty =? TYPE_I64 then let* v := se_repeat count r_i64 in se_ret (Value.ArrayI64 v)
  else if ty =? TYPE_F32 then let* v := se_repeat count r_f32 in se_ret (Value.ArrayF32 v)
  else if ty =? TYPE_F64 then let* v := se_repeat count r_f64 in se_ret (Value.ArrayF64 v)
  else if ty =? TYPE_STRING then let* v := se_repeat count get_string in se_ret (Value.ArrayString v)
  else if ty =? TYPE_STRUCTURE then
    let* structure_id := get_structure_field in
    let* structures := se_repeat count read_element_structure in
    let* id := uuid_unwrap structure_id in
    se_ret (Value.ArrayStructure id structures)
  else if ty =? TYPE_ENUMERATION then
    let* enumeration_id := get_structure_field in
    let* enumerations := se_repeat count read_element_enumeration in
    let* id := uuid_unwrap enumeration_id in
    se_ret (Value.ArrayEnumeration id enumerations)
  else if ty =? TYPE_VALUE then
    let* values := se_repeat count read_value in se_ret (Value.ArrayValue values)
  else se_fail (UnsupportedArrayType ty).

Definition read_kind (kind : option Z) : R Value :=
  match kind with
  | None => se_fail InvalidTypeOfNoKind
  | Some kind =>
    if kind =? TYPE_UNIT then se_ret Value.Unit
    else if kind =? TYPE_BOOLEAN then let* v := get_boolean in se_ret (Value.Boolean v)
    else if kind =? TYPE_U8 then let* v := r_u8 in se_ret (Value.U8 v)
    else if kind =? TYPE_U16 then let* v := r_u16 in se_ret (Value.U16 v)
    else if kind =? TYPE_U32 then let* v := r_u32 in se_ret (Value.U32 v)
    else if kind =? TYPE_U64 then let* v := r_u64 in se_ret (Value.U64 v)
    else if kind =? TYPE_I8 then let* v := r_i8 in se_ret (Value.I8 v)
    else if kind =? TYPE_I16 then let* v := r_i16 in se_ret (Value.I16 v)
    else if kind =? TYPE_I32 then let* v := r_i32 in se_ret (Value.I32 v)
    else if kind =? TYPE_I64 then let* v := r_i64 in se_ret (Value.I64 v)
    else if kind =? TYPE_F32 then let* v := r_f32 in se_ret (Value.F32 v)
    else if kind =? TYPE_F64 then let* v := r_f64 in se_ret (Value.F64 v)
    else if kind =? TYPE_STRING then let* v := get_string in se_ret (Value.String v)
    else if kind =? TYPE_STRUCTURE then
      let* '(id, field_count) := get_structure in
      let* fields := se_repeat (Z.to_nat field_count) read_structure_field in
      let* id := uuid_unwrap id in
      se_ret (Value.Structure (mkStructure id fields))
    else if kind =? TYPE_ENUMERATION then
      let* enum_type_id := get_structure_field in
      let* enum_variant_id := get_enumeration_value_raw in
      let* id := uuid_unwrap enum_type_id in
      let* variant_id := uuid_unwrap enum_variant_id in
      let* value := read_value in
      se_ret (Value.Enumeration (mkEnumeration id variant_id value))
    else if kind =? TYPE_ARRAY then read_array
    else if kind =? TYPE_OPTION then
      let* present := get_option_presence in
      if (present : bool) then let* inner := read_value in se_ret (Value.Option (Some inner))
      else se_ret (Value.Option None)
    else if kind =? TYPE_UUID then
      let* uuid_bytes := get_uuid in
      let* uuid := uuid_unwrap uuid_bytes in
      se_ret (Value.Uuid uuid)
    else if kind =? TYPE_MAP then
      let* '(id_bytes, field_count) := get_map in
      let* id := uuid_unwrap id_bytes in
      let* kv := read_map_fields (Z.to_nat field_count) (kv_new_with_id id) in
      se_ret (Value.KeyValue kv)
    else se_fail (InvalidTypeKind kind)
  end.
End Decode.

Fixpoint deserialize_fuel (fuel : nat) : R Value :=
  match fuel with
  | O => se_fail OutOfFuel
  | S fuel => let* kind := next_type in read_kind (deserialize_fuel fuel) kind
  end.

Definition deserialize_from_reader : R Value := λ r,
  deserialize_fuel (S (length (backing r))) r.

Definition serialize (value : Value) : list byte :=
  finalize (serialize_to_writer value new).

Definition deserialize (data : list byte) : result panic Value :=
  match reader_new data with
  | Err e => Err e
  | Ok reader =>
      match deserialize_from_reader reader with Ok (v, _) => Ok v | Err e => Err e end
  end.
End Froto.

(** ** Lemmas *)

Create HintDb reads.

Ltac bool_split :=
  match goal with
  | |- context [if ?b then _ else _] => destruct b eqn:?
  end.

Section Facts.
Context `{BL : BytesLaws} `{UL : UuidLaws}.

Abbreviation R A := (SE BufferReader panic A).

(** *** Atomic reads compose *)
Lemma atomic_ret {A} (a : A) : atomic (se_ret a : R A).
Proof. intros r. simpl. lia. Qed.
Lemma atomic_fail {A} e : e ≠ OutOfFuel → atomic (se_fail e : R A).
Proof. intros He r. done. Qed.
Lemma atomic_bind {A B} (m : R A) (k : A → R B) : atomic m → (∀ a, atomic (k a)) → atomic (se_bind m k).
Proof.
  intros Hm Hk r. unfold se_bind. specialize (Hm r). destruct (m r) as [[a r1]|e]; [|done].
  specialize (Hk a r1). destruct (k a r1) as [[b r2]|e]; [lia|done].
Qed.

Lemma uuid_unwrap_atomic bs : atomic (uuid_unwrap bs).
Proof. unfold uuid_unwrap. destruct (from_slice bs); [apply atomic_ret|by apply atomic_fail]. Qed.
Lemma from_utf8_atomic bs : atomic (from_utf8 bs).
Proof. unfold from_utf8. destruct (utf8_valid bs); [apply atomic_ret|by apply atomic_fail]. Qed.

Lemma get_u8_atomic : atomic (buf_get get_u8).
Proof. apply (buf_get_atomic 1 id), get_u8_spec. Qed.
Lemma get_u32_atomic : atomic (buf_get get_u32_le).
Proof. apply (buf_get_atomic 4 id), get_u32_le_spec. Qed.
Lemma r_u8_atomic : atomic r_u8. Proof. apply get_u8_atomic. Qed.
Lemma r_u16_atomic : atomic r_u16. Proof. apply (buf_get_atomic 2 id), get_u16_le_spec. Qed.
Lemma r_u32_atomic : atomic r_u32. Proof. apply get_u32_atomic. Qed.
Lemma r_u64_atomic : atomic r_u64. Proof. apply (buf_get_atomic 8 id), get_u64_le_spec. Qed.
Lemma r_i8_atomic : atomic r_i8. Proof. apply (buf_get_atomic 1 (to_signed 8)), get_i8_spec. Qed.
Lemma r_i16_atomic : atomic r_i16. Proof. apply (buf_get_atomic 2 (to_signed 16)), get_i16_le_spec. Qed.
Lemma r_i32_atomic : atomic r_i32. Proof. apply (buf_get_atomic 4 (to_signed 32)), get_i32_le_spec. Qed.
Lemma r_i64_atomic : atomic r_i64. Proof. apply (buf_get_atomic 8 (to_signed 64)), get_i64_le_spec. Qed.
Lemma r_f32_atomic : atomic r_f32. Proof. apply (buf_get_atomic 4 id), get_f32_le_spec. Qed.
Lemma r_f64_atomic : atomic r_f64. Proof. apply (buf_get_atomic 8 id), get_f64_le_spec. Qed.

#[local] Hint Resolve atomic_ret atomic_fail uuid_unwrap_atomic from_utf8_atomic
  get_u8_atomic get_u32_atomic r_u8_atomic r_u16_atomic r_u32_atomic r_u64_atomic
  r_i8_atomic r_i16_atomic r_i32_atomic r_i64_atomic r_f32_atomic r_f64_atomic
  slice_front_atomic skip_front_atomic buf_advance_atomic reader_align_atomic : reads.

Ltac atomic_solve := intros; repeat (apply atomic_bind; [|intros]); auto with reads.

Lemma take_front_atomic n : atomic (take_front n).
Proof. unfold take_front. atomic_solve. Qed.
#[local] Hint Resolve take_front_atomic : reads.
Lemma get_boolean_atomic : atomic get_boolean.
Proof. unfold get_boolean. atomic_solve. Qed.
Lemma get_string_atomic : atomic get_string.
Proof. unfold get_string. atomic_solve. Qed.
Lemma get_map_field_key_atomic : atomic get_map_field_key.
Proof. unfold get_map_field_key. atomic_solve. Qed.
Lemma get_structure_raw_atomic : atomic get_structure_raw.
Proof. apply get_u32_atomic. Qed.
#[local] Hint Resolve get_boolean_atomic get_string_atomic get_map_field_key_atomic
  get_structure_raw_atomic : reads.
Lemma get_structure_atomic : atomic get_structure.
Proof. unfold get_structure. atomic_solve. Qed.
Lemma get_map_atomic : atomic get_map.
Proof. unfold get_map. atomic_solve. Qed.
Lemma get_array_atomic : atomic get_array.
Proof. unfold get_array. atomic_solve. Qed.
Lemma get_option_presence_atomic : atomic get_option_presence.
Proof. unfold get_option_presence. atomic_solve. Qed.
Lemma get_16_atomic :
  atomic get_structure_field ∧ atomic get_enumeration_value_raw ∧ atomic get_uuid.
Proof. split_and!; apply take_front_atomic. Qed.
#[local] Hint Resolve get_structure_atomic get_map_atomic get_array_atomic get_option_presence_atomic
  get_16_atomic : reads.
Lemma get_structure_field_atomic : atomic get_structure_field. Proof. apply get_16_atomic. Qed.
Lemma get_enumeration_value_raw_atomic : atomic get_enumeration_value_raw. Proof. apply get_16_atomic. Qed.
Lemma get_uuid_atomic : atomic get_uuid. Proof. apply get_16_atomic. Qed.
#[local] Hint Resolve get_structure_field_atomic get_enumeration_value_raw_atomic get_uuid_atomic : reads.

(** *** What relates the decoder at two nested decoders

    A relation on reads that the monad's operations and the atomic reads
    respect: it then relates [read_kind] at two related nested decoders. *)
Record read_closed (P : ∀ A, R A → R A → Prop) : Prop := {
  rc_atomic A (m : R A) : atomic m → P A m m;
  rc_bind A B m1 m2 (k1 k2 : A → R B) :
    P A m1 m2 → (∀ a, P B (k1 a) (k2 a)) → P B (se_bind m1 k1) (se_bind m2 k2);
}.

Section Closed.
Context (P : ∀ A, R A → R A → Prop) (HP : read_closed P).
Context (rec1 rec2 : R Value) (Hrec : P _ rec1 rec2).

Ltac rc :=
  intros; repeat first
  [ exact Hrec
  | lazymatch goal with
    | |- P _ (se_bind _ _) _ => apply (rc_bind P HP); [|intros]
    | |- P _ (if _ then _ else _) _ => bool_split
    | |- P _ (match ?x with (_, _) => _ end) _ => destruct x
    end
  | apply (rc_atomic P HP); solve [auto with reads] ].

Lemma rc_repeat A (m1 m2 : R A) n : P _ m1 m2 → P _ (se_repeat n m1) (se_repeat n m2).
Proof. intros Hm. induction n; cbn [se_repeat]; rc; auto. Qed.

Lemma rc_structure_field : P _ (read_structure_field rec1) (read_structure_field rec2).
Proof. unfold read_structure_field. rc. Qed.
Lemma rc_element_structure : P _ (read_element_structure rec1) (read_element_structure rec2).
Proof. unfold read_element_structure. rc. apply rc_repeat, rc_structure_field. Qed.
Lemma rc_element_enumeration : P _ (read_element_enumeration rec1) (read_element_enumeration rec2).
Proof. unfold read_element_enumeration. rc. Qed.
Lemma rc_map_fields n kv : P _ (read_map_fields rec1 n kv) (read_map_fields rec2 n kv).
Proof.
  revert kv. induction n as [|n IH]; intros kv; cbn [read_map_fields]; [rc|].
  apply (rc_bind P HP); [unfold read_map_field; rc|apply IH].
Qed.

Lemma rc_array : P _ (read_array rec1) (read_array rec2).
Proof.
  unfold read_array. rc; apply rc_repeat; auto using rc_element_structure, rc_element_enumeration;
    apply (rc_atomic P HP); auto with reads.
Qed.

Lemma rc_kind k : P _ (read_kind rec1 k) (read_kind rec2 k).
Proof.
  destruct k as [k|]; unfold read_kind; rc;
    auto using rc_array, rc_map_fields, rc_repeat, rc_structure_field.
Qed.
End Closed.

(** *** The fuel is no limit *)

(** More fuel gives the same result. *)
Definition mono {A} (m1 m2 : R A) : Prop := ∀ r, m1 r ≠ Err OutOfFuel → m2 r = m1 r.

Lemma mono_closed : read_closed (@mono).
Proof.
  split.
  - by intros A m _ r _.
  - intros A B m1 m2 k1 k2 Hm Hk r. unfold se_bind. specialize (Hm r).
    destruct (m1 r) as [[a r1]|e]; intros Hr.
    + rewrite Hm by done. by apply Hk.
    + rewrite Hm; [done|]. congruence.
Qed.

Lemma deserialize_fuel_mono n m : (n ≤ m)%nat → mono (deserialize_fuel n) (deserialize_fuel m).
Proof.
  revert m. induction n as [|n IH]; intros m Hnm r; [done|].
  destruct m as [|m]; [lia|]. cbn [deserialize_fuel].
  apply (rc_bind _ mono_closed); [by intros ??|]. intros k.
  apply (rc_kind _ mono_closed). apply IH. lia.
Qed.

(** Fuel for the bytes there are. *)
Definition enough (k : nat) {A} (m : R A) (_ : R A) : Prop := ∀ r,
  (length (backing r) ≤ k)%nat →
  match m r with
  | Ok (_, r') => (length (backing r') ≤ length (backing r))%nat
  | Err e => e ≠ OutOfFuel
  end.

Lemma enough_closed k : read_closed (@enough k).
Proof.
  split.
  - intros A m Hm r _. apply Hm.
  - intros A B m1 m2 k1 k2 Hm Hk r Hr. unfold se_bind. specialize (Hm r Hr).
    destruct (m1 r) as [[a r1]|e]; [|done].
    specialize (Hk a r1 ltac:(lia)). destruct (k1 a r1) as [[b r2]|e]; [lia|done].
Qed.

Lemma deserialize_fuel_enough k : enough k (deserialize_fuel (S k)) (deserialize_fuel (S k)).
Proof.
  induction k as [|k IH]; intros r Hr.
  - cbn [deserialize_fuel]. unfold se_bind. rewrite next_type_spec.
    destruct (backing r); simpl in *; [done|lia].
  - cbn [deserialize_fuel]. unfold se_bind. rewrite next_type_spec.
    destruct (backing r) as [|b bs] eqn:E; [done|].
    pose proof (rc_kind _ (enough_closed k) _ _ IH (Some (byte_Z b)) (mkReader bs (buffer_len r))) as H'.
    specialize (H' ltac:(simpl in *; lia)). cbn [deserialize_fuel] in H'.
    destruct (read_kind _ _ _) as [[v r']|e]; [simpl in *; lia|done].
Qed.

(** The decoder's result at the fuel it takes is its result at any fuel that
    gives one. *)
Lemma deserialize_fuel_any n r :
  deserialize_fuel n r ≠ Err OutOfFuel → deserialize_from_reader r = deserialize_fuel n r.
Proof.
  intros Hn. unfold deserialize_from_reader. set (k := S (length (backing r))).
  assert (deserialize_fuel k r ≠ Err OutOfFuel) as Hk.
  { pose proof (deserialize_fuel_enough (length (backing r)) r ltac:(lia)) as H'.
    fold k in H'. destruct (deserialize_fuel k r) as [[]|e]; congruence. }
  destruct (Nat.le_ge_cases n k) as [Hle|Hle].
  - by apply deserialize_fuel_mono.
  - symmetry. by apply deserialize_fuel_mono.
Qed.

(** ** Properties *)

(** The decoder always ends: on any bytes it returns a value or panics for
    one of the reader's reasons, and the fuel of one level per byte is never
    what stops it. *)
Theorem deserialize_terminates data :
  deserialize data ≠ Err OutOfFuel ∧ ∀ n r, deserialize_fuel n r ≠ Err OutOfFuel →
    deserialize_from_reader r = deserialize_fuel n r.
Proof.
  split; [|apply deserialize_fuel_any]. unfold deserialize, reader_new.
  destruct (_ <? _)%nat; [done|]. set (r := mkReader _ _).
  pose proof (deserialize_fuel_enough (length (backing r)) r ltac:(lia)) as Hr.
  unfold deserialize_from_reader. destruct (deserialize_fuel _ r) as [[]|]; congruence.
Qed.
End Facts.

Lemma deserialize_terminates_witness :
  deserialize (bytes_of [0; 0; 0; 0; TYPE_OPTION; 1; TYPE_OPTION]) ≠ Err OutOfFuel.
Proof. apply (deserialize_terminates). Defined.
