(* ===== verification/WellFormed.v ===== *)
(** * The buffer check: [crates/arora-buffers/src/well_formed.rs]

    [well_formed] walks a buffer without decoding it; [value_end] steps over one
    value. [walk_value] recurses on the nesting still allowed,
    [MAX_DEPTH - depth]: the guard [depth == MAX_DEPTH] of the source is its
    base case. *)

From S2P Require Import Prelude Values Extern Writer Reader Froto.

Definition MAX_DEPTH : nat := 128.

(** The messages, by what they report. *)
Inductive walk_error :=
| ShorterThanPrefix
| SizePrefix (size len : nat)
| RunsPastEnd (at_ : nat)
| NotUtf8At (at_ : nat)
| NestsTooDeep
| NotAValue (kind : Z) (at_ : nat)
| ArrayTooLong
| NotAnArray (ty : Z).

Record Walk := mkWalk { walk_buffer : list byte; walk_at : nat }.

Section WellFormed.
(** [usize::MAX] of the target: [2^64 - 1], or [2^32 - 1] in a wasm guest. *)
Variable usize_max : Z.

Abbreviation W A := (SE Walk walk_error A).

Definition take_ (len : nat) : W (list byte) := λ w,
  let bytes :=
    (* self.at.checked_add(len).and_then(|end| self.buffer.get(self.at..end)) *)
    if Z.of_nat (walk_at w) + Z.of_nat len <=? usize_max then
      if (walk_at w + len <=? length (walk_buffer w))%nat
      then Some (take len (drop (walk_at w) (walk_buffer w))) else None
    else None in
  match bytes with
  | Some bytes => Ok (bytes, mkWalk (walk_buffer w) (walk_at w + len)%nat)
  | None => Err (RunsPastEnd (walk_at w))
  end.

Definition skip (len : nat) : W unit := let* bytes := take_ len in se_ret tt.

Definition walk_u8 : W Z := let* bs := take_ 1 in se_ret (le_Z bs).
Definition walk_u32 : W nat := let* bs := take_ 4 in se_ret (Z.to_nat (le_Z bs)).

Definition walk_align : W unit := λ w, skip (ALIGNMENT - walk_at w mod ALIGNMENT) w.

Definition walk_string : W unit :=
  let* len := walk_u32 in
  λ w, let at_ := walk_at w in
  (let* bs := take_ len in if utf8_valid bs then se_ret tt else se_fail (NotUtf8At at_)) w.

(** The width of a primitive element, in bytes. *)
Definition primitive_size (ty : Z) : option nat :=
  if bool_decide (ty ∈ [TYPE_BOOLEAN; TYPE_U8; TYPE_I8]) then Some 1%nat
  else if bool_decide (ty ∈ [TYPE_U16; TYPE_I16]) then Some 2%nat
  else if bool_decide (ty ∈ [TYPE_U32; TYPE_I32; TYPE_F32]) then Some 4%nat
  else if bool_decide (ty ∈ [TYPE_U64; TYPE_I64; TYPE_F64]) then Some 8%nat
  else None.

Section Nested.
(** [self.value(depth)] for the values one level down. *)
Variable walk_nested : W unit.

Definition walk_fields : W unit :=
  let* n := walk_u32 in se_loop n (skip 16 ;; walk_nested).

Definition walk_array : W unit :=
  let* ty := walk_u8 in
  let* count := walk_u32 in
  match primitive_size ty with
  | Some size =>
      walk_align ;;
      (* count.checked_mul(size) *)
      if Z.of_nat count * Z.of_nat size <=? usize_max then skip (count * size)
      else se_fail ArrayTooLong
  | None =>
      if ty =? TYPE_STRING then se_loop count walk_string
      else if ty =? TYPE_STRUCTURE then skip 16 ;; se_loop count walk_fields
      else if ty =? TYPE_ENUMERATION then skip 16 ;; se_loop count (skip 16 ;; walk_nested)
      else if ty =? TYPE_VALUE then se_loop count walk_nested
      else se_fail (NotAnArray ty)
  end.

Definition walk_kind (at_ : nat) (kind : Z) : W unit :=
  if kind =? TYPE_UNIT then se_ret tt
  else if bool_decide (kind ∈ [TYPE_BOOLEAN; TYPE_U8; TYPE_I8]) then skip 1
  else if bool_decide (kind ∈ [TYPE_U16; TYPE_I16]) then skip 2
  else if bool_decide (kind ∈ [TYPE_U32; TYPE_I32; TYPE_F32]) then skip 4
  else if bool_decide (kind ∈ [TYPE_U64; TYPE_I64; TYPE_F64]) then skip 8
  else if kind =? TYPE_STRING then walk_string
  else if kind =? TYPE_UUID then skip 16
  else if kind =? TYPE_STRUCTURE then skip 16 ;; walk_fields
  else if kind =? TYPE_ENUMERATION then skip 32 ;; walk_nested
  else if kind =? TYPE_OPTION then
    let* present := walk_u8 in if present =? 0 then se_ret tt else walk_nested
  else if kind =? TYPE_MAP then
    skip 16 ;; let* n := walk_u32 in se_loop n (walk_string ;; skip 16 ;; walk_nested)
  else if kind =? TYPE_ARRAY then walk_array
  else se_fail (NotAValue kind at_).
End Nested.

(** [self.value(depth)], with [budget = MAX_DEPTH - depth]. *)
Fixpoint walk_value (budget : nat) : W unit :=
  match budget with
  | O => se_fail NestsTooDeep
  | S budget => λ w, let at_ := walk_at w in
      (let* kind := walk_u8 in walk_kind (walk_value budget) at_ kind) w
  end.

Definition well_formed (buffer : list byte) : result walk_error unit :=
  if (length buffer <? BUFFER_SIZE_SIZE)%nat then Err ShorterThanPrefix
  else
    let size := Z.to_nat (le_Z (take BUFFER_SIZE_SIZE buffer)) in
    if negb ((BUFFER_SIZE_SIZE <=? size)%nat && (size <=? length buffer)%nat)
    then Err (SizePrefix size (length buffer))
    else
      match walk_value MAX_DEPTH (mkWalk (take size buffer) BUFFER_SIZE_SIZE) with
      | Ok _ => Ok tt
      | Err e => Err e
      end.

Definition value_end (buffer : list byte) (at_ : nat) : result walk_error nat :=
  match walk_value MAX_DEPTH (mkWalk buffer at_) with
  | Ok (_, walk) => Ok (walk_at walk)
  | Err e => Err e
  end.
End WellFormed.

(** ** What the check promises *)

(** The size a buffer's prefix announces, within the buffer and the prefix. *)
Definition prefix_size (buffer : list byte) : option nat :=
  if (length buffer <? BUFFER_SIZE_SIZE)%nat then None
  else
    let size := Z.to_nat (le_Z (take BUFFER_SIZE_SIZE buffer)) in
    if (BUFFER_SIZE_SIZE <=? size)%nat && (size <=? length buffer)%nat then Some size else None.

(** The reader of the value at offset [at_] of a buffer. *)
Definition reader_at (buffer : list byte) (at_ : nat) : BufferReader :=
  mkReader (drop at_ buffer) (length buffer).

(** ** Lemmas *)

Section Facts.
Context `{BL : BytesLaws} `{UL : UuidLaws}.
Variable usize_max : Z.

Abbreviation W A := (SE Walk walk_error A).
Abbreviation R A := (SE BufferReader panic A).

(** *** The walk and the decoder, step by step

    A walk over the first bytes of [whole] and a reader of [whole] are at the
    same place; when [ex], the walk is over all of [whole], which fits the
    target's memory. *)
Record at_same (ex : bool) (whole : list byte) (w : Walk) (r : BufferReader) : Prop := {
  as_prefix : ∃ rest, whole = walk_buffer w ++ rest;
  as_within : (walk_at w ≤ length (walk_buffer w))%nat;
  as_backing : backing r = drop (walk_at w) whole;
  as_len : buffer_len r = length whole;
  as_exact : ex = true → whole = walk_buffer w ∧ Z.of_nat (length whole) ≤ usize_max;
}.

(** Where the walk passes, the read passes, and they end at the same place;
    where an exact walk fails, the read fails. *)
Definition sim {A B} (Q : A → B → Prop) (wa : W A) (ra : R B) : Prop :=
  ∀ ex whole w r, at_same ex whole w r →
  match wa w with
  | Ok (a, w') => ∃ b r', ra r = Ok (b, r') ∧ Q a b ∧ at_same ex whole w' r'
  | Err _ => ex = true → is_ok (ra r) = false
  end.

Abbreviation any := (λ _ _, True).

(** The cases of a tag in a list of tags. *)
Ltac case_list_in H :=
  first [ apply elem_of_cons in H as [H|H] | apply elem_of_nil in H; destruct H ].

Lemma sim_ret {A B} (Q : A → B → Prop) a b : Q a b → sim Q (se_ret a) (se_ret b).
Proof. intros HQ ex whole w r Hs. simpl. eauto. Qed.

Lemma sim_fail {A B} (Q : A → B → Prop) e e' : sim Q (se_fail e) (se_fail e' : R B).
Proof. intros ex whole w r Hs. done. Qed.

Lemma sim_bind {A A' B B'} (Q : A → B → Prop) (Q' : A' → B' → Prop)
    (wa : W A) (ra : R B) (wk : A → W A') (rk : B → R B') :
  sim Q wa ra → (∀ a b, Q a b → sim Q' (wk a) (rk b)) → sim Q' (se_bind wa wk) (se_bind ra rk).
Proof.
  intros Ha Hk ex whole w r Hs. unfold se_bind. specialize (Ha _ _ _ _ Hs).
  destruct (wa w) as [[a w1]|].
  - destruct Ha as (b & r1 & -> & HQ & Hs1). by apply Hk.
  - intros Hx. specialize (Ha Hx). by destruct (ra r) as [[]|].
Qed.

(** The tests on a tag that is none of them. *)
Ltac eqb_neqs :=
  repeat first [ rewrite (proj2 (Z.eqb_neq _ _)) by done
               | match goal with H : (_ =? _) = false |- _ => rewrite H end ].

(** A read that takes nothing from the buffer. *)
Lemma sim_pure {A B B'} (Q : A → B' → Prop) (wa : W A) (ra : R B) (rk : B → R B') b :
  (∀ r, ra r = Ok (b, r)) → sim Q wa (rk b) → sim Q wa (se_bind ra rk).
Proof. intros Hra Hk ex whole w r Hs. unfold se_bind. rewrite Hra. by apply Hk. Qed.

Lemma sim_impl {A B} (Q Q' : A → B → Prop) wa ra :
  (∀ a b, Q a b → Q' a b) → sim Q wa ra → sim Q' wa ra.
Proof.
  intros HQ Hm ex whole w r Hs. specialize (Hm _ _ _ _ Hs). destruct (wa w) as [[a w1]|]; [|done].
  destruct Hm as (b & r' & ? & ? & ?). eauto 6.
Qed.

(** Mapping the result of the read, and of the walk. *)
Lemma sim_map {A B B'} (Q : A → B → Prop) (Q' : A → B' → Prop) wa (ra : R B) (f : B → B') :
  sim Q wa ra → (∀ a b, Q a b → Q' a (f b)) → sim Q' wa (let* b := ra in se_ret (f b)).
Proof.
  intros Hm Hf ex whole w r Hs. specialize (Hm _ _ _ _ Hs). unfold se_bind.
  destruct (wa w) as [[a w1]|].
  - destruct Hm as (b & r' & -> & ? & ?). simpl. eauto 6.
  - intros Hx. specialize (Hm Hx). by destruct (ra r) as [[]|].
Qed.

Lemma sim_walk_map {A A' B} (Q : A → B → Prop) (Q' : A' → B → Prop) wa (ra : R B) (f : A → A') :
  sim Q wa ra → (∀ a b, Q a b → Q' (f a) b) → sim Q' (let* a := wa in se_ret (f a)) ra.
Proof.
  intros Hm Hf ex whole w r Hs. specialize (Hm _ _ _ _ Hs). unfold se_bind.
  destruct (wa w) as [[a w1]|]; [|done]. simpl.
  destruct Hm as (b & r' & -> & ? & ?). eauto 6.
Qed.

Lemma sim_loop {B} (wa : W unit) (ra : R B) n :
  sim any wa ra → sim any (se_loop n wa) (se_repeat n ra).
Proof.
  intros Ha. induction n as [|n IH]; cbn [se_loop se_repeat]; [by apply sim_ret|].
  eapply sim_bind; [exact Ha|]. intros _ b _. eapply sim_map; [exact IH|done].
Qed.

Lemma take_spec len w :
  take_ usize_max len w =
  if bool_decide (walk_at w + len ≤ length (walk_buffer w))%nat &&
     (Z.of_nat (walk_at w + len) <=? usize_max)
  then Ok (take len (drop (walk_at w) (walk_buffer w)), mkWalk (walk_buffer w) (walk_at w + len))
  else Err (RunsPastEnd (walk_at w)).
Proof.
  unfold take_. rewrite Nat2Z.inj_add. destruct (_ <=? usize_max).
  - rewrite andb_true_r. case_bool_decide.
    + by rewrite (proj2 (Nat.leb_le _ _)).
    + by rewrite (proj2 (Nat.leb_gt _ _)) by lia.
  - by rewrite andb_false_r.
Qed.

Lemma at_same_length ex whole w r :
  at_same ex whole w r → (length (walk_buffer w) - walk_at w ≤ length (backing r))%nat.
Proof. intros [[rest Hw] Hin Hb _ _]. rewrite Hb, Hw, length_drop, length_app. lia. Qed.

(** What a walk's [take] returns and where it leaves the walk, for a reader at
    the same place. *)
Lemma take_at_same ex whole w r len :
  at_same ex whole w r →
  match take_ usize_max len w with
  | Ok (bs, w') =>
      (len ≤ length (backing r))%nat ∧ bs = take len (backing r) ∧
      at_same ex whole w' (mkReader (drop len (backing r)) (buffer_len r))
  | Err _ => ex = true → (length (backing r) < len)%nat
  end.
Proof.
  intros Hs. pose proof (at_same_length _ _ _ _ Hs) as Hrl.
  destruct Hs as [[rest Hw] Hin Hb Hl Hx]. rewrite take_spec.
  destruct (bool_decide_reflect (walk_at w + len ≤ length (walk_buffer w))%nat) as [Hlen|Hlen]; simpl.
  - destruct (Z.leb_spec (Z.of_nat (walk_at w + len)) usize_max) as [_|Hm].
    + split; [lia|]. rewrite Hb, Hw, drop_app_le by done. split.
      * rewrite take_app_le; [done|]. rewrite length_drop. lia.
      * split; simpl; [by exists rest|lia| |by rewrite <- Hw|].
        { rewrite <- drop_app_le by done. by rewrite drop_drop, Nat.add_comm. }
        { by rewrite <- Hw. }
    + intros E. destruct (Hx E) as [-> Hu]. lia.
  - intros E. destruct (Hx E) as [Heq Hu]. rewrite Hb, Heq, length_drop. lia.
Qed.

(** A take of the walk and a read that needs the same bytes. *)
Lemma sim_of_take {B} (Q : list byte → B → Prop) n (ra : R B) :
  (∀ r, if (length (backing r) <? n)%nat then is_ok (ra r) = false
        else ∃ b, ra r = Ok (b, mkReader (drop n (backing r)) (buffer_len r)) ∧ Q (take n (backing r)) b) →
  sim Q (take_ usize_max n) ra.
Proof.
  intros Hr ex whole w r Hs. specialize (Hr r). apply (take_at_same _ _ _ _ n) in Hs.
  destruct (take_ usize_max n w) as [[bs w1]|].
  - destruct Hs as (? & -> & ?). rewrite (proj2 (Nat.ltb_ge _ _)) in Hr by done.
    destruct Hr as (b & ? & ?). eauto.
  - intros Hx. specialize (Hs Hx). by rewrite (proj2 (Nat.ltb_lt _ _)) in Hr by done.
Qed.

Lemma sim_get n decode get :
  (∀ b, get b = get_spec n decode b) →
  sim (λ bs v, v = decode (le_Z bs)) (take_ usize_max n) (buf_get get).
Proof.
  intros Hget. apply sim_of_take. intros r. rewrite (buf_get_spec n decode) by done.
  destruct (_ <? _)%nat; eauto.
Qed.

Lemma sim_get_skip n decode get :
  (∀ b, get b = get_spec n decode b) → sim any (skip usize_max n) (buf_get get).
Proof. intros Hget. eapply (sim_walk_map _ any); [by eapply sim_get|done]. Qed.

Lemma sim_u8 : sim eq (walk_u8 usize_max) r_u8.
Proof. eapply sim_walk_map; [apply (sim_get 1 id), get_u8_spec|done]. Qed.

Lemma sim_u32 : sim (λ n z, n = Z.to_nat z) (walk_u32 usize_max) (buf_get get_u32_le).
Proof. eapply sim_walk_map; [apply (sim_get 4 id), get_u32_le_spec|]. by intros bs z ->. Qed.

Lemma sim_take n : sim (λ bs bs', bs = bs' ∧ length bs' = n) (take_ usize_max n) (take_front n).
Proof.
  apply sim_of_take. intros r. rewrite take_front_spec.
  destruct (Nat.ltb_spec (length (backing r)) n); [done|].
  eexists. split; [done|]. split; [done|]. rewrite length_take. lia.
Qed.

(** An id is skipped by the walk; the decoder takes its 16 bytes, which make an id. *)
Lemma sim_id : sim (λ _ bs, length bs = 16%nat) (skip usize_max 16) (take_front 16).
Proof. eapply sim_walk_map; [apply (sim_take 16)|]. by intros ?? [_ ?]. Qed.

Lemma sim_uuid {A B} (Q : A → B → Prop) (wa : W A) bs (rk : Uuid → R B) :
  length bs = 16%nat → (∀ u, sim Q wa (rk u)) → sim Q wa (se_bind (uuid_unwrap bs) rk).
Proof.
  intros Hbs Hk. destruct (from_slice_spec bs Hbs) as (u & Hu & _).
  eapply (sim_pure _ _ _ _ u); [|apply Hk]. intros r. unfold uuid_unwrap. by rewrite Hu.
Qed.

(** An id unwrapped after the reads that follow its bytes. *)
Lemma sim_late_uuid {A B} (wa : W unit) (ra : R B) bs (f : Uuid → B → A) :
  length bs = 16%nat → sim any wa ra →
  sim any wa (let* b := ra in let* u := uuid_unwrap bs in se_ret (f u b)).
Proof.
  intros Hbs Hm ex whole w r Hs. specialize (Hm _ _ _ _ Hs). unfold se_bind.
  destruct (from_slice_spec bs Hbs) as (u & Hu & _). unfold uuid_unwrap. rewrite Hu.
  destruct (wa w) as [[a w1]|].
  - destruct Hm as (b & r' & -> & ? & ?). simpl. eauto 6.
  - intros Hx. specialize (Hm Hx). by destruct (ra r) as [[]|].
Qed.

(** [skip(a + b)] is [skip(a)] then [skip(b)], but for where they fail. *)
Lemma skip_add a b w :
  match skip usize_max (a + b) w, (skip usize_max a ;; skip usize_max b) w with
  | Ok x, Ok y => x = y
  | Err _, Err _ => True
  | _, _ => False
  end.
Proof.
  unfold skip, se_bind. rewrite !take_spec.
  destruct (Z.leb_spec (Z.of_nat (walk_at w + (a + b))) usize_max);
    destruct (Z.leb_spec (Z.of_nat (walk_at w + a)) usize_max);
    repeat case_bool_decide; simpl; rewrite ?take_spec; simpl;
    destruct (Z.leb_spec (Z.of_nat (walk_at w + a + b)) usize_max);
    repeat case_bool_decide; simpl; try lia; try done.
  by rewrite Nat.add_assoc.
Qed.

(** The bulk of a primitive array: one skip for all the elements read. *)
Lemma sim_bulk {B} (ra : R B) size n :
  sim any (skip usize_max size) ra → sim any (skip usize_max (n * size)) (se_repeat n ra).
Proof.
  intros Ha. induction n as [|n IH]; cbn [se_repeat Nat.mul].
  - apply (sim_walk_map any any); [|done]. apply sim_of_take. intros [bk bl].
    by eexists.
  - intros ex whole w r Hs. pose proof (skip_add size (n * size) w) as Hadd.
    assert (sim any (skip usize_max size ;; skip usize_max (n * size))
      (let* x := ra in let* xs := se_repeat n ra in se_ret (x :: xs))) as Hm.
    { apply (sim_bind any any); [exact Ha|]. intros. by eapply sim_map. }
    specialize (Hm _ _ _ _ Hs).
    destruct (skip _ _ w) as [[]|], ((skip _ _ ;; _) w) as [[]|]; simplify_eq; done.
Qed.

Lemma sim_align : sim any (walk_align usize_max) reader_align.
Proof.
  intros ex whole w r Hs. unfold walk_align, reader_align.
  assert (Hoff : (buffer_len r - length (backing r) = walk_at w)%nat).
  { destruct Hs as [[rest Hw] ? Hb Hl _]. rewrite Hb, Hl, length_drop, Hw, length_app. lia. }
  rewrite Hoff. revert ex whole w r Hs Hoff.
  intros ex whole w r Hs _. generalize (ALIGNMENT - walk_at w mod ALIGNMENT)%nat as n. intros n.
  assert (sim any (skip usize_max n) (skip_front n)) as Hm; [|by apply Hm].
  apply (sim_walk_map any any); [|done]. apply sim_of_take. intros r'. unfold skip_front.
  destruct (_ <? _)%nat; eauto.
Qed.

Lemma sim_string : sim any (walk_string usize_max) get_string.
Proof.
  unfold walk_string, get_string. eapply sim_bind; [apply sim_u32|]. intros n z ->.
  intros ex whole w r Hs. apply (take_at_same _ _ _ _ (Z.to_nat z)) in Hs. unfold se_bind, slice_front.
  destruct (take_ _ _ w) as [[bs w1]|].
  - destruct Hs as (Hle & -> & Hs').
    rewrite (proj2 (Nat.ltb_ge _ _)) by done.
    unfold from_utf8. destruct (utf8_valid _); [|done]. cbn [se_ret].
    rewrite buf_advance_spec. rewrite (proj2 (Nat.ltb_ge _ _)) by done. eauto.
  - intros Hx. specialize (Hs Hx). by rewrite (proj2 (Nat.ltb_lt _ _)).
Qed.

(** *** Reassociating the read side *)
Lemma sim_ext {A B} (Q : A → B → Prop) (wa wa' : W A) (ra ra' : R B) :
  (∀ w, wa w = wa' w) → (∀ r, ra r = ra' r) → sim Q wa ra → sim Q wa' ra'.
Proof. intros Hw Hr Hm ex whole w r Hs. rewrite <- Hw, <- Hr. by apply Hm. Qed.

Lemma sim_assoc {A B B' C} (Q : A → C → Prop) (wa : W A) (m : R B) (k : B → R B') (h : B' → R C) :
  sim Q wa (se_bind m (λ b, se_bind (k b) h)) → sim Q wa (se_bind (se_bind m k) h).
Proof. apply sim_ext; [done|]. intros r. unfold se_bind. by destruct (m r) as [[]|]. Qed.

Lemma sim_ret_bind {A B C} (Q : A → C → Prop) (wa : W A) (b : B) (h : B → R C) :
  sim Q wa (h b) → sim Q wa (se_bind (se_ret b) h).
Proof. intros Hs. by apply (sim_pure _ _ _ _ b). Qed.

Lemma skip_split {A B} (Q : A → B → Prop) a b (k : W A) (ra : R B) :
  sim Q (skip usize_max a ;; skip usize_max b ;; k) ra → sim Q (skip usize_max (a + b) ;; k) ra.
Proof.
  intros Hm ex whole w r Hs. specialize (Hm _ _ _ _ Hs). pose proof (skip_add a b w) as Hadd.
  unfold se_bind in *.
  destruct (skip _ (a + b) w) as [[[] w2]|], (skip _ a w) as [[[] w1]|]; try done;
    destruct (skip _ b w1) as [[[] w3]|]; simplify_eq; done.
Qed.

Section Nested.
Variables (wn : W unit) (rv : R Value).
Hypothesis Hn : sim any wn rv.

Ltac sb := eapply sim_bind; [|intros].
Ltac leaf := eapply sim_map; [|done].

Lemma sim_structure_field : sim any (skip usize_max 16 ;; wn) (read_structure_field rv).
Proof.
  unfold read_structure_field. eapply sim_bind; [apply sim_id|]. intros ? bs Hbs. simpl in Hbs.
  apply sim_uuid; [done|]. intros u. leaf. apply Hn.
Qed.

Lemma sim_fields : sim any (walk_fields usize_max wn) (read_element_structure rv).
Proof.
  unfold walk_fields, read_element_structure. eapply sim_bind; [apply sim_u32|]. intros n z ->.
  leaf. apply sim_loop, sim_structure_field.
Qed.

Lemma sim_element_enumeration : sim any (skip usize_max 16 ;; wn) (read_element_enumeration rv).
Proof.
  unfold read_element_enumeration. eapply sim_bind; [apply sim_id|]. intros ? bs Hbs. simpl in Hbs.
  apply sim_uuid; [done|]. intros u. leaf. apply Hn.
Qed.

(** An element tag of a given width, and its reader. *)
Lemma sim_primitive_array {A} size n (m : R A) (f : list A → Value) :
  sim any (skip usize_max size) m →
  sim any
    (walk_align usize_max ;;
     if Z.of_nat n * Z.of_nat size <=? usize_max then skip usize_max (n * size) else se_fail ArrayTooLong)
    (reader_align ;; let* v := se_repeat n m in se_ret (f v)).
Proof.
  intros Hm. eapply sim_bind; [apply sim_align|]. intros _ _ _.
  assert (sim any (skip usize_max (n * size)) (let* v := se_repeat n m in se_ret (f v))) as Hs.
  { leaf. by apply sim_bulk. }
  destruct (Z.leb_spec (Z.of_nat n * Z.of_nat size) usize_max); [exact Hs|].
  (* the skip would fail too *)
  intros ex whole w r Hw. specialize (Hs _ _ _ _ Hw). revert Hs. unfold skip, se_bind.
  rewrite take_spec. destruct (Z.leb_spec (Z.of_nat (walk_at w + n * size)) usize_max); [lia|].
  by rewrite andb_false_r.
Qed.

Ltac skip_get n dec spec := apply (sim_get_skip n dec); intros; apply spec.

Lemma sim_boolean : sim any (skip usize_max 1) get_boolean.
Proof. unfold get_boolean. leaf. skip_get 1%nat (@id Z) get_u8_spec. Qed.

(** A tag that is none of the primitive ones. *)
Lemma primitive_size_None ty : primitive_size ty = None →
  is_primitive_array ty = false ∧
  Forall (λ x, (ty =? x) = false) [TYPE_BOOLEAN; TYPE_U8; TYPE_U16; TYPE_U32; TYPE_U64; TYPE_I8;
    TYPE_I16; TYPE_I32; TYPE_I64; TYPE_F32; TYPE_F64].
Proof.
  unfold primitive_size, is_primitive_array. intros Hp. repeat case_bool_decide; try done.
  - exfalso. rewrite !elem_of_cons, elem_of_nil in *. tauto.
  - split; [done|]. rewrite Forall_forall. intros x Hx. apply Z.eqb_neq. by intros ->.
Qed.

Lemma sim_array : sim any (walk_array usize_max wn) (read_array rv).
Proof.
  unfold walk_array, read_array, get_array.
  apply sim_assoc. eapply sim_bind; [apply sim_u8|]. intros ty ? <-.
  apply sim_assoc. eapply sim_bind; [apply sim_u32|]. intros n z ->. apply sim_ret_bind.
  generalize (Z.to_nat z) as count. clear z. intros count.
  destruct (primitive_size ty) as [size|] eqn:Hp.
  - unfold primitive_size in Hp.
    repeat match type of Hp with (if ?b then _ else _) = _ =>
      let H := fresh in destruct b eqn:H; [simplify_eq; apply bool_decide_eq_true in H|] end;
      [..|done];
      match goal with H : ty ∈ _ |- _ => repeat case_list_in H end; subst ty.
    + refine (sim_primitive_array 1 count get_boolean Value.ArrayBoolean _). apply sim_boolean.
    + refine (sim_primitive_array 1 count r_u8 Value.ArrayU8 _). skip_get 1%nat (@id Z) get_u8_spec.
    + refine (sim_primitive_array 1 count r_i8 Value.ArrayI8 _). skip_get 1%nat (to_signed 8) get_i8_spec.
    + refine (sim_primitive_array 2 count r_u16 Value.ArrayU16 _). skip_get 2%nat (@id Z) get_u16_le_spec.
    + refine (sim_primitive_array 2 count r_i16 Value.ArrayI16 _). skip_get 2%nat (to_signed 16) get_i16_le_spec.
    + refine (sim_primitive_array 4 count r_u32 Value.ArrayU32 _). skip_get 4%nat (@id Z) get_u32_le_spec.
    + refine (sim_primitive_array 4 count r_i32 Value.ArrayI32 _). skip_get 4%nat (to_signed 32) get_i32_le_spec.
    + refine (sim_primitive_array 4 count r_f32 Value.ArrayF32 _). skip_get 4%nat (@id Z) get_f32_le_spec.
    + refine (sim_primitive_array 8 count r_u64 Value.ArrayU64 _). skip_get 8%nat (@id Z) get_u64_le_spec.
    + refine (sim_primitive_array 8 count r_i64 Value.ArrayI64 _). skip_get 8%nat (to_signed 64) get_i64_le_spec.
    + refine (sim_primitive_array 8 count r_f64 Value.ArrayF64 _). skip_get 8%nat (@id Z) get_f64_le_spec.
  - apply primitive_size_None in Hp as [Hnp Hne].
    destruct (Z.eqb_spec ty TYPE_STRING) as [->|?].
    { apply sim_ret_bind. refine (sim_map any any _ (se_repeat count get_string) Value.ArrayString _ _); [|done].
      apply sim_loop, sim_string. }
    destruct (Z.eqb_spec ty TYPE_STRUCTURE) as [->|?].
    { apply sim_ret_bind. eapply sim_bind; [apply sim_id|]. intros ? bs Hbs. simpl in Hbs.
      apply sim_late_uuid; [done|]. apply sim_loop, sim_fields. }
    destruct (Z.eqb_spec ty TYPE_ENUMERATION) as [->|?].
    { apply sim_ret_bind. eapply sim_bind; [apply sim_id|]. intros ? bs Hbs. simpl in Hbs.
      apply sim_late_uuid; [done|]. apply sim_loop, sim_element_enumeration. }
    destruct (Z.eqb_spec ty TYPE_VALUE) as [->|?].
    2: { decompose_Forall_hyps. rewrite Hnp. by eqb_neqs. }
    apply sim_ret_bind. refine (sim_map any any _ (se_repeat count rv) Value.ArrayValue _ _); [|done].
    apply sim_loop, Hn.
Qed.

Lemma sim_map_key : sim any (walk_string usize_max) get_map_field_key.
Proof. exact sim_string. Qed.

Lemma sim_map_fields n kv :
  sim any (se_loop n (walk_string usize_max ;; skip usize_max 16 ;; wn)) (read_map_fields rv n kv).
Proof.
  revert kv. induction n as [|n IH]; intros kv; cbn [se_loop read_map_fields]; [by apply sim_ret|].
  apply (sim_bind any any); [|intros; apply IH]. unfold read_map_field.
  eapply sim_bind; [apply sim_map_key|]. intros _ key _.
  eapply sim_bind; [apply sim_id|]. intros ? bs Hbs. simpl in Hbs.
  apply sim_uuid; [done|]. intros u. leaf. apply Hn.
Qed.

(** A kind of fixed width, and its reader. *)
Lemma sim_leaf {A} size (m : R A) (f : A → Value) :
  sim any (skip usize_max size) m → sim any (skip usize_max size) (let* v := m in se_ret (f v)).
Proof. intros Hm. leaf. exact Hm. Qed.

(** The identifiers and the count before the fields of a structure or a map. *)
Lemma sim_counted {A} (wk : nat → W unit) (rk : list byte * Z → R A) :
  (∀ bs z, length bs = 16%nat → sim any (wk (Z.to_nat z)) (rk (bs, z))) →
  sim any (skip usize_max 16 ;; let* n := walk_u32 usize_max in wk n)
    (let* p := (let* id := take_front 16 in let* n := buf_get get_u32_le in se_ret (id, n)) in rk p).
Proof.
  intros Hk. apply sim_assoc. eapply sim_bind; [apply sim_id|]. intros ? bs Hbs. simpl in Hbs.
  apply sim_assoc. eapply sim_bind; [apply sim_u32|]. intros n z ->. apply sim_ret_bind. by apply Hk.
Qed.

Lemma sim_structure :
  sim any (skip usize_max 16 ;; walk_fields usize_max wn) (read_kind rv (Some TYPE_STRUCTURE)).
Proof.
  apply sim_counted. intros bs z Hbs.
  refine (sim_late_uuid _ _ bs (λ u l, Value.Structure (mkStructure u l)) Hbs _).
  apply sim_loop, sim_structure_field.
Qed.

Lemma sim_enumeration : sim any (skip usize_max 32 ;; wn) (read_kind rv (Some TYPE_ENUMERATION)).
Proof.
  apply (skip_split any 16 16). cbn [read_kind].
  eapply sim_bind; [apply sim_id|]. intros ? bs Hbs. simpl in Hbs.
  eapply sim_bind; [apply sim_id|]. intros ? bs' Hbs'. simpl in Hbs'.
  apply sim_uuid; [done|]. intros id. apply sim_uuid; [done|]. intros vid. leaf. apply Hn.
Qed.

Lemma sim_option :
  sim any (let* present := walk_u8 usize_max in if present =? 0 then se_ret tt else wn)
    (read_kind rv (Some TYPE_OPTION)).
Proof.
  apply sim_assoc. eapply sim_bind; [apply sim_u8|]. intros p ? <-. apply sim_ret_bind.
  destruct (p =? 0); [by apply sim_ret|]. leaf. apply Hn.
Qed.

Lemma sim_map_value :
  sim any
    (skip usize_max 16 ;; let* n := walk_u32 usize_max in
     se_loop n (walk_string usize_max ;; skip usize_max 16 ;; wn))
    (read_kind rv (Some TYPE_MAP)).
Proof.
  apply sim_counted. intros bs z Hbs. apply sim_uuid; [done|]. intros id.
  leaf. apply sim_map_fields.
Qed.

Lemma sim_uuid_value : sim any (skip usize_max 16) (read_kind rv (Some TYPE_UUID)).
Proof.
  apply (sim_ext _ (skip usize_max 16 ;; se_ret tt) _
    (let* bs := take_front 16 in let* u := uuid_unwrap bs in se_ret (Value.Uuid u)) _); [|done|].
  { intros w. unfold se_bind. by destruct (skip _ _ w) as [[[] ?]|]. }
  eapply sim_bind; [apply sim_id|]. intros ? bs Hbs. apply sim_uuid; [done|].
  intros. by apply sim_ret.
Qed.

Lemma sim_kind at_ k : sim any (walk_kind usize_max wn at_ k) (read_kind rv (Some k)).
Proof.
  unfold walk_kind.
  destruct (Z.eqb_spec k TYPE_UNIT) as [->|?]; [by apply sim_ret|].
  repeat match goal with |- sim _ (if bool_decide ?P then _ else _) _ =>
    let H := fresh "H" in destruct (bool_decide_reflect P) as [H|H];
      [repeat case_list_in H; subst k|] end.
  { refine (sim_leaf 1 get_boolean Value.Boolean _). apply sim_boolean. }
  { refine (sim_leaf 1 r_u8 Value.U8 _). skip_get 1%nat (@id Z) get_u8_spec. }
  { refine (sim_leaf 1 r_i8 Value.I8 _). skip_get 1%nat (to_signed 8) get_i8_spec. }
  { refine (sim_leaf 2 r_u16 Value.U16 _). skip_get 2%nat (@id Z) get_u16_le_spec. }
  { refine (sim_leaf 2 r_i16 Value.I16 _). skip_get 2%nat (to_signed 16) get_i16_le_spec. }
  { refine (sim_leaf 4 r_u32 Value.U32 _). skip_get 4%nat (@id Z) get_u32_le_spec. }
  { refine (sim_leaf 4 r_i32 Value.I32 _). skip_get 4%nat (to_signed 32) get_i32_le_spec. }
  { refine (sim_leaf 4 r_f32 Value.F32 _). skip_get 4%nat (@id Z) get_f32_le_spec. }
  { refine (sim_leaf 8 r_u64 Value.U64 _). skip_get 8%nat (@id Z) get_u64_le_spec. }
  { refine (sim_leaf 8 r_i64 Value.I64 _). skip_get 8%nat (to_signed 64) get_i64_le_spec. }
  { refine (sim_leaf 8 r_f64 Value.F64 _). skip_get 8%nat (@id Z) get_f64_le_spec. }
  destruct (Z.eqb_spec k TYPE_STRING) as [->|?].
  { cbn [read_kind]. refine (sim_map any any _ get_string Value.String _ _); [apply sim_string|done]. }
  destruct (Z.eqb_spec k TYPE_UUID) as [->|?].
  { apply sim_uuid_value. }
  destruct (Z.eqb_spec k TYPE_STRUCTURE) as [->|?]; [apply sim_structure|].
  destruct (Z.eqb_spec k TYPE_ENUMERATION) as [->|?]; [apply sim_enumeration|].
  destruct (Z.eqb_spec k TYPE_OPTION) as [->|?]; [apply sim_option|].
  destruct (Z.eqb_spec k TYPE_MAP) as [->|?]; [apply sim_map_value|].
  destruct (Z.eqb_spec k TYPE_ARRAY) as [->|?]; [apply sim_array|].
  cbn [read_kind]. rewrite !not_elem_of_cons in *. destruct_and!. by eqb_neqs.
Qed.
End Nested.

(** The walk with [n] levels left passes exactly where the decoder with fuel for
    [n] levels does. *)
Lemma sim_value n : sim any (walk_value usize_max n) (deserialize_fuel n).
Proof.
  induction n as [|n IH]; [apply sim_fail|].
  intros ex whole w r Hs. cbn [walk_value deserialize_fuel].
  assert (sim any (let* kind := walk_u8 usize_max in
                   walk_kind usize_max (walk_value usize_max n) (walk_at w) kind)
                  (let* kind := r_u8 in read_kind (deserialize_fuel n) (Some kind))) as Hm.
  { eapply sim_bind; [apply sim_u8|]. intros k ? <-. by apply sim_kind. }
  specialize (Hm _ _ _ _ Hs).
  assert ((let* kind := r_u8 in read_kind (deserialize_fuel n) (Some kind)) r =
    match backing r with
    | [] => Err BufferExhausted
    | b :: bs => read_kind (deserialize_fuel n) (Some (byte_Z b)) (mkReader bs (buffer_len r))
    end) as E1.
  { unfold se_bind, r_u8. rewrite (buf_get_spec 1 id) by apply get_u8_spec.
    destruct (backing r); [done|]. cbn -[read_kind Z.mul]. by rewrite Z.add_0_r, drop_0. }
  assert ((let* kind := next_type in read_kind (deserialize_fuel n) kind) r =
    match backing r with
    | [] => Err InvalidTypeOfNoKind
    | b :: bs => read_kind (deserialize_fuel n) (Some (byte_Z b)) (mkReader bs (buffer_len r))
    end) as E2.
  { unfold se_bind. rewrite next_type_spec. by destruct (backing r). }
  rewrite E1 in Hm. rewrite E2. destruct (backing r) as [|b bs]; [|exact Hm].
  match type of Hm with match ?x with _ => _ end => destruct x as [[? ?]|]; [naive_solver|done] end.
Qed.

Lemma prefix_size_bounds buffer size :
  prefix_size buffer = Some size → (4 ≤ size ≤ length buffer)%nat.
Proof.
  unfold prefix_size, BUFFER_SIZE_SIZE. destruct (_ <? _)%nat; [done|]. cbv zeta.
  destruct (Nat.leb_spec 4 (Z.to_nat (le_Z (take 4 buffer)))); [|done].
  destruct (Nat.leb_spec (Z.to_nat (le_Z (take 4 buffer))) (length buffer)); [|done].
  intros [= <-]. lia.
Qed.

Lemma well_formed_prefix buffer :
  well_formed usize_max buffer = Ok tt ↔
  ∃ size w, prefix_size buffer = Some size ∧
    walk_value usize_max MAX_DEPTH (mkWalk (take size buffer) BUFFER_SIZE_SIZE) = Ok (tt, w).
Proof.
  unfold well_formed, prefix_size.
  destruct (_ <? _)%nat; [split; [done|naive_solver]|]. cbv zeta.
  destruct (_ && _); cbn [negb]; [|split; [done|naive_solver]].
  split.
  - destruct (walk_value usize_max _ _) as [[[] w]|] eqn:E; [eauto|done].
  - intros (? & w & [= <-] & ->). done.
Qed.

Lemma at_same_start ex size at_ buffer :
  (at_ ≤ size)%nat → (size ≤ length buffer)%nat →
  (ex = true → size = length buffer ∧ Z.of_nat (length buffer) ≤ usize_max) →
  at_same ex buffer (mkWalk (take size buffer) at_) (reader_at buffer at_).
Proof.
  intros Hat Hsize Hx. split; simpl; [|rewrite length_take; lia|done..|].
  - exists (drop size buffer). by rewrite take_drop.
  - intros E. destruct (Hx E) as [-> ?]. by rewrite firstn_all.
Qed.

(** A walk that passes from [at_] has something to read there. *)
Lemma walk_value_within n w x :
  walk_value usize_max n w = Ok x → (walk_at w < length (walk_buffer w))%nat.
Proof.
  destruct n as [|n]; [done|]. cbn [walk_value]. unfold walk_u8, se_bind. rewrite take_spec.
  case_bool_decide; [lia|done].
Qed.

(** [well_formed] accepts exactly the buffers whose size prefix is right and
    whose counted bytes the decoder reads in [MAX_DEPTH] levels. *)
Lemma well_formed_iff buffer :
  Z.of_nat (length buffer) ≤ usize_max →
  well_formed usize_max buffer = Ok tt ↔
  ∃ size v r, prefix_size buffer = Some size ∧
    deserialize_fuel MAX_DEPTH (reader_at (take size buffer) BUFFER_SIZE_SIZE) = Ok (v, r).
Proof.
  intros Hu. rewrite well_formed_prefix.
  pose proof (prefix_size_bounds buffer) as Hp.
  assert (∀ size, prefix_size buffer = Some size →
    at_same true (take size buffer) (mkWalk (take size buffer) 4) (reader_at (take size buffer) 4)) as Hs.
  { intros size Hsz. specialize (Hp _ Hsz).
    replace (mkWalk (take size buffer) 4)
      with (mkWalk (take (length (take size buffer)) (take size buffer)) 4) by (by rewrite firstn_all).
    apply at_same_start; [rewrite length_take; lia|done|]. intros _. rewrite length_take. lia. }
  split.
  - intros (size & w & Hsz & Hw). pose proof (sim_value MAX_DEPTH _ _ _ _ (Hs _ Hsz)) as Hm.
    unfold BUFFER_SIZE_SIZE in *. rewrite Hw in Hm. destruct Hm as (v & r & ? & _). eauto.
  - intros (size & v & r & Hsz & Hr). pose proof (sim_value MAX_DEPTH _ _ _ _ (Hs _ Hsz)) as Hm.
    unfold BUFFER_SIZE_SIZE in *. rewrite Hr in Hm.
    destruct (walk_value usize_max _ _) as [[[] w]|] eqn:E; [eauto|by specialize (Hm eq_refl)].
Qed.

(** Where [value_end] answers, the decoder reads a value and stops there. *)
Lemma value_end_reads buffer at_ end_ :
  Z.of_nat (length buffer) ≤ usize_max →
  value_end usize_max buffer at_ = Ok end_ →
  ∃ v, deserialize_from_reader (reader_at buffer at_) = Ok (v, reader_at buffer end_) ∧
       (end_ ≤ length buffer)%nat.
Proof.
  intros Hu. unfold value_end.
  destruct (walk_value usize_max _ _) as [[[] w]|] eqn:E; [|done]. intros [= <-].
  pose proof (walk_value_within _ _ _ E) as Hin. cbn [walk_at walk_buffer] in Hin.
  assert (at_same true buffer (mkWalk buffer at_) (reader_at buffer at_)) as Hs.
  { pose proof (at_same_start true (length buffer) at_ buffer) as Hs.
    rewrite firstn_all in Hs. apply Hs; [lia..|done]. }
  pose proof (sim_value MAX_DEPTH _ _ _ _ Hs) as Hm. rewrite E in Hm.
  destruct Hm as (v & [bk bl] & Hr & _ & [_ Hle Hb Hl Hx]).
  destruct (Hx eq_refl) as [Hwb _]. cbn [walk_buffer walk_at backing buffer_len] in *. subst bk bl.
  exists v. rewrite (deserialize_fuel_any MAX_DEPTH) by congruence.
  rewrite Hr. by rewrite <- Hwb in Hle.
Qed.

Lemma deserialize_of_fuel n buffer v r :
  (4 ≤ length buffer)%nat → deserialize_fuel n (reader_at buffer 4) = Ok (v, r) →
  deserialize buffer = Ok v.
Proof.
  intros Hl Hr. unfold deserialize, reader_new. rewrite (proj2 (Nat.ltb_ge _ _)) by done.
  fold (reader_at buffer 4). rewrite (deserialize_fuel_any n) by congruence. by rewrite Hr.
Qed.

(** What [well_formed] promises: the decoder, which is handed the whole buffer,
    returns. *)
Lemma well_formed_deserialize buffer :
  well_formed usize_max buffer = Ok tt → ∃ v, deserialize buffer = Ok v.
Proof.
  intros (size & w & Hsz & Hw)%well_formed_prefix.
  pose proof (prefix_size_bounds _ _ Hsz) as Hle.
  pose proof (sim_value MAX_DEPTH _ _ _ _
    (at_same_start false size 4 buffer ltac:(lia) ltac:(lia) ltac:(done))) as Hm.
  unfold BUFFER_SIZE_SIZE in *. rewrite Hw in Hm. destruct Hm as (v & r & Hr & _).
  exists v. eapply deserialize_of_fuel; [lia|exact Hr].
Qed.

(** ** Properties *)

(** C3. [well_formed] is exact: it passes a buffer precisely when the size prefix
    counts at least itself and no more than the bytes there are, and the decoder
    reads a value from the start of the bytes it counts, entering at most
    [MAX_DEPTH] nested values. It refuses nothing the decoder reads in that depth,
    and passes nothing on which the decoder would panic. Like the code, it does not
    look at the bytes the value leaves over. *)
Theorem well_formed_exact buffer :
  Z.of_nat (length buffer) ≤ usize_max →
  well_formed usize_max buffer = Ok tt ↔
  ∃ size v r, prefix_size buffer = Some size ∧
    deserialize_fuel MAX_DEPTH (reader_at (take size buffer) BUFFER_SIZE_SIZE) = Ok (v, r).
Proof. apply well_formed_iff. Qed.

(** C2. The contract the guests rely on: a buffer [well_formed] passes decodes
    without a panic, also when bytes follow the ones the prefix counts. *)
Theorem well_formed_guards_deserialize buffer :
  well_formed usize_max buffer = Ok tt → ∃ v, deserialize buffer = Ok v.
Proof. apply well_formed_deserialize. Qed.

(** [value_end] and the decoder agree on where a value ends: where [value_end]
    answers [end_], decoding from [at_] returns a value and leaves the reader at
    [end_], within the buffer. *)
Theorem value_end_agrees buffer at_ end_ :
  Z.of_nat (length buffer) ≤ usize_max →
  value_end usize_max buffer at_ = Ok end_ →
  ∃ v, deserialize_from_reader (reader_at buffer at_) = Ok (v, reader_at buffer end_) ∧
       (end_ ≤ length buffer)%nat.
Proof. apply value_end_reads. Qed.
End Facts.

(** A buffer of one string in an option, and a byte after it. *)
Definition sample_buffer : list byte :=
  bytes_of [11; 0; 0; 0; TYPE_OPTION; 1; TYPE_STRING; 1; 0; 0; 0; 0x61; 0].
Definition unit_buffer : list byte := bytes_of [5; 0; 0; 0; TYPE_UNIT].

Lemma well_formed_exact_witness :
  well_formed (2 ^ 64 - 1) unit_buffer = Ok tt ↔
  ∃ size v r, prefix_size unit_buffer = Some size ∧
    deserialize_fuel MAX_DEPTH
      (reader_at (take size unit_buffer) BUFFER_SIZE_SIZE) = Ok (v, r).
Proof. apply (well_formed_exact (2 ^ 64 - 1)). vm_compute. done. Defined.

Lemma well_formed_guards_deserialize_witness :
  ∃ v, deserialize (unit_buffer ++ [Z_byte 42]) = Ok v.
Proof. apply (well_formed_guards_deserialize (2 ^ 64 - 1)). vm_compute. reflexivity. Defined.

Lemma value_end_agrees_witness :
  ∃ v, deserialize_from_reader (reader_at sample_buffer 4) = Ok (v, reader_at sample_buffer 12) ∧
       (12 ≤ length sample_buffer)%nat.
Proof. apply (value_end_agrees (2 ^ 64 - 1)); vm_compute; done. Defined.
