(* ===== verification/RoundTrip.v ===== *)
(** * The codec's round trip: [serialize] and [deserialize] of [froto_value.rs]

    What a value reads back as ([canon]), how deep it nests ([depth]), and the
    relation [codec] between a write and a read on which the round trip is built,
    operation by operation. *)

From S2P Require Import Prelude Values Extern Writer Reader Froto WellFormed.

(** ** What a value reads back as

    Its maps sorted by key, each field named by its key, a field holding [Unit]
    read as one holding nothing. *)
Definition held (v : Value) : option Value :=
  match v with Value.Unit => None | other => Some other end.

Fixpoint canon (v : Value) : Value :=
  let fields := fmap (λ f : StructureField, mkStructureField (sf_id f) (canon (sf_value f))) in
  match v with
  | Value.Option (Some w) => Value.Option (Some (canon w))
  | Value.Structure s => Value.Structure (mkStructure (st_id s) (fields (st_fields s)))
  | Value.Enumeration e => Value.Enumeration (mkEnumeration (en_id e) (en_variant_id e) (canon (en_value e)))
  | Value.ArrayValue vs => Value.ArrayValue (canon <$> vs)
  | Value.ArrayStructure id es =>
      Value.ArrayStructure id ((λ e, mkStructureWithoutId (fields (sw_fields e))) <$> es)
  | Value.ArrayEnumeration id es =>
      Value.ArrayEnumeration id
        ((λ e, mkEnumerationWithoutId (ew_variant_id e) (canon (ew_value e))) <$> es)
  | Value.KeyValue kv =>
      Value.KeyValue (mkKeyValue (kv_id kv) (sort_by_key
        ((λ kf, (kf.1, mkKeyValueField (kvf_id kf.2) kf.1
           match kvf_value kf.2 with
           | Some w => held (canon w)
           | None => None
           end)) <$> kv_fields kv)))
  | v => v
  end.

Definition max_of {A} (f : A → nat) (l : list A) : nat := foldr (λ x d, f x `max` d)%nat 0%nat l.

(** The levels of a value: the values its decoding enters, one inside another. A
    map's field without a value is written as a [Unit]. *)
Fixpoint depth (v : Value) : nat :=
  let fields := max_of (λ f : StructureField, depth (sf_value f)) in
  S match v with
    | Value.Option (Some w) => depth w
    | Value.Structure s => fields (st_fields s)
    | Value.Enumeration e => depth (en_value e)
    | Value.ArrayValue vs => max_of depth vs
    | Value.ArrayStructure _ es => max_of (λ e, fields (sw_fields e)) es
    | Value.ArrayEnumeration _ es => max_of (λ e, depth (ew_value e)) es
    | Value.KeyValue kv =>
        max_of (λ kf, match kvf_value kf.2 with Some w => depth w | None => 1%nat end) (kv_fields kv)
    | _ => 0%nat
    end.

(** A map as code builds it: each field under its own name, none holding [Unit]. *)
Fixpoint normal (v : Value) : bool :=
  let fields := forallb (λ f : StructureField, normal (sf_value f)) in
  match v with
  | Value.Option (Some w) => normal w
  | Value.Structure s => fields (st_fields s)
  | Value.Enumeration e => normal (en_value e)
  | Value.ArrayValue vs => forallb normal vs
  | Value.ArrayStructure _ es => forallb (λ e, fields (sw_fields e)) es
  | Value.ArrayEnumeration _ es => forallb (λ e, normal (ew_value e)) es
  | Value.KeyValue kv =>
      forallb (λ kf, String.eqb kf.1 (kvf_name kf.2) &&
        match kvf_value kf.2 with
        | Some Value.Unit => false
        | Some w => normal w
        | None => true
        end) (kv_fields kv)
  | _ => true
  end.

Abbreviation entry := (string * KeyValueField)%type.

(** The value a field is written with, and what the field reads back as. *)
Definition written (f : KeyValueField) : Value := default Value.Unit (kvf_value f).
Definition read_back (kf : entry) : KeyValueField :=
  new_with_id_and_option kf.1 (kvf_id kf.2) (held (canon (written kf.2))).

Definition canon_field (f : StructureField) : StructureField :=
  mkStructureField (sf_id f) (canon (sf_value f)).

(** ** Lemmas *)
Lemma max_of_leb {A} (f : A → nat) l n : (max_of f l <=? n)%nat = forallb (λ x, f x <=? n)%nat l.
Proof.
  induction l as [|x l IH]; [done|]. simpl. rewrite <- IH.
  destruct (Nat.leb_spec (f x) n), (Nat.leb_spec (max_of f l) n);
    destruct (Nat.leb_spec (f x `max` max_of f l) n); simpl; lia || done.
Qed.

(** Sorting by key commutes with a map over what the keys hold. *)
Lemma sort_by_key_fmap {V W} (g : string * V → W) (m : list (string * V)) :
  NoDup m.*1 →
  sort_by_key ((λ kf, (kf.1, g kf)) <$> m) = (λ kf, (kf.1, g kf)) <$> sort_by_key m.
Proof.
  intros Hd. assert (∀ l : list (string * V), ((λ kf, (kf.1, g kf)) <$> l).*1 = l.*1) as Hk.
  { intros l. rewrite <- list_fmap_compose. by apply list_fmap_ext. }
  apply key_sorted_unique.
  - by rewrite sort_by_key_Permutation, Hk.
  - apply sort_by_key_sorted.
  - pose proof (sort_by_key_sorted m) as Hs. induction Hs as [|x l Hs IH Hx]; simpl; constructor; [done|].
    apply Forall_fmap. exact Hx.
  - by rewrite !sort_by_key_Permutation.
Qed.

(** *** [PartialEq] sees no difference *)
Lemma list_eqb_fmap {A} (eqb : A → A → bool) (h : A → A) l :
  Forall (λ x, eqb x (h x) = true) l → list_eqb eqb l (h <$> l) = true.
Proof. induction 1 as [|x l Hx _ IH]; simpl; [done|]. by rewrite Hx. Qed.

Lemma hm_eqb_intro {A} (eqb : A → A → bool) (m1 m2 : list (string * A)) :
  NoDup m1.*1 → length m1 = length m2 →
  (∀ k x, (k, x) ∈ m1 → ∃ y, hm_get k m2 = Some y ∧ eqb x y = true) → hm_eqb eqb m1 m2 = true.
Proof.
  intros Hd Hl Hm. unfold hm_eqb. apply andb_true_iff. split; [by apply Nat.eqb_eq|].
  apply forallb_Forall, Forall_forall. intros [k x] (y & Hy & He)%Hm. simpl. by rewrite Hy.
Qed.

Lemma Forall_3 {A} (P Q R T : A → Prop) l :
  Forall P l → Forall Q l → Forall R l → (∀ x, P x → Q x → R x → T x) → Forall T l.
Proof. intros HP HQ HR HT. rewrite !Forall_forall in *. eauto. Qed.

Lemma canon_key_value (kv : KeyValue) :
  NoDup (kv_fields kv).*1 →
  canon (Value.KeyValue kv) =
  Value.KeyValue (mkKeyValue (kv_id kv) ((λ kf, (kf.1, read_back kf)) <$> sort_by_key (kv_fields kv))).
Proof.
  intros Hd. cbn [canon]. do 2 f_equal. rewrite <- sort_by_key_fmap by done. f_equal.
  apply list_fmap_ext. intros _ [k [i nm [v|]]] _; done.
Qed.

Lemma key_value_eqb_canon (kv : KeyValue) :
  NoDup (kv_fields kv).*1 →
  Forall (λ kf : entry, String.eqb kf.1 (kvf_name kf.2) = true ∧
    option_eqb value_eqb (kvf_value kf.2) (kvf_value (read_back kf)) = true) (kv_fields kv) →
  value_eqb (Value.KeyValue kv) (canon (Value.KeyValue kv)) = true.
Proof.
  intros Hd Hfs. pose proof (sort_by_key_Permutation (kv_fields kv)) as Hp.
  rewrite canon_key_value by done.
  cbn [value_eqb kv_id kv_fields]. rewrite Z.eqb_refl. cbn [andb].
  assert (((λ kf : entry, (kf.1, read_back kf)) <$> sort_by_key (kv_fields kv)).*1 = (sort_by_key (kv_fields kv)).*1) as Hk.
  { rewrite <- list_fmap_compose. by apply list_fmap_ext. }
  apply hm_eqb_intro; [done|by rewrite length_fmap, (Permutation_length Hp)|].
  intros k x Hin. exists (read_back (k, x)). split.
  - apply hm_get_elem_of; [by rewrite Hk, Hp|]. apply list_elem_of_fmap. exists (k, x).
    split; [done|by rewrite Hp].
  - rewrite Forall_forall in Hfs. destruct (Hfs _ Hin) as [Hn Hv]. simpl in *.
    apply String.eqb_eq in Hn as ->. rewrite Z.eqb_refl, String.eqb_refl. done.
Qed.

Lemma field_eqb_canon (f : StructureField) :
  value_eqb (sf_value f) (canon (sf_value f)) = true →
  (sf_id f =? sf_id (canon_field f)) && value_eqb (sf_value f) (sf_value (canon_field f)) = true.
Proof. intros Hf. by rewrite Z.eqb_refl. Qed.

Lemma canon_Unit v : canon v = Value.Unit → v = Value.Unit.
Proof. destruct v; simpl; try done. by case_match. Qed.
Lemma held_Some v : v ≠ Value.Unit → held v = Some v.
Proof. by destruct v. Qed.

Definition eqb_canon (v : Value) : Prop :=
  wf_value v = true → normal v = true → nan_free v = true → value_eqb v (canon v) = true.

Lemma fields_eqb_canon fs :
  wf_vec (λ f : StructureField, wf_uuid (sf_id f) && wf_value (sf_value f)) fs = true →
  forallb (λ f : StructureField, normal (sf_value f)) fs = true →
  forallb (λ f : StructureField, nan_free (sf_value f)) fs = true →
  Forall (λ f : StructureField, eqb_canon (sf_value f)) fs →
  list_eqb (λ f g : StructureField, (sf_id f =? sf_id g) && value_eqb (sf_value f) (sf_value g))
    fs (canon_field <$> fs) = true.
Proof.
  intros Hwf Hn Hf IH. apply (Forall_wf_fields fs (λ v, normal v = true → nan_free v = true →
    value_eqb v (canon v) = true)) in IH; [|done].
  apply forallb_Forall in Hn, Hf. apply list_eqb_fmap.
  eapply Forall_3; [exact IH|exact Hn|exact Hf|]. intros f H1 H2 H3. apply field_eqb_canon. by apply H1.
Qed.

Lemma value_eqb_canon_gen v : eqb_canon v.
Proof.
  induction v as [v IH] using Value_ind_subs. intros Hwf Hn Hf.
  pose proof (value_eqb_diag v Hwf) as Hself. rewrite Hf in Hself.
  destruct v as [| | | | | | | | | | | | |[x|]|[i fs]|e| | | | | | | | | | | |l|vs|i es|i es|kv|];
    try exact Hself; clear Hself; cbn [subs_ok] in IH; cbn [wf_value normal nan_free] in Hwf, Hn, Hf.
  - by apply IH.
  - cbn [st_id st_fields] in *. apply andb_true_iff in Hwf as [_ Hfs].
    cbn [canon value_eqb st_id st_fields]. rewrite Z.eqb_refl. by apply fields_eqb_canon.
  - cbn [canon value_eqb en_id en_variant_id en_value]. rewrite !Z.eqb_refl. split_wf. by apply IH.
  - cbn [canon value_eqb]. apply wf_vec_Forall in Hwf. apply forallb_Forall in Hn, Hf.
    apply list_eqb_fmap. rewrite Forall_forall in *. intros v Hv. by apply IH; eauto.
  - apply andb_true_iff in Hwf as [_ Hes]. apply wf_vec_Forall in Hes. apply forallb_Forall in Hn, Hf.
    cbn [canon value_eqb]. rewrite Z.eqb_refl. apply list_eqb_fmap. rewrite Forall_forall in *.
    intros e He. apply fields_eqb_canon; [exact (Hes e He)|exact (Hn e He)|exact (Hf e He)|].
    rewrite Forall_forall. intros f Hff. specialize (IH e He). rewrite Forall_forall in IH. by apply IH.
  - apply andb_true_iff in Hwf as [_ Hes]. apply wf_vec_Forall in Hes. apply forallb_Forall in Hn, Hf.
    cbn [canon value_eqb]. rewrite Z.eqb_refl. apply list_eqb_fmap. rewrite Forall_forall in *.
    intros e He. specialize (Hes e He). simpl in Hes. split_wf. rewrite Z.eqb_refl.
    apply IH; [done|done|by apply Hn|by apply Hf].
  - apply andb_true_iff in Hwf as [Hd Hfs]. split_wf. apply wf_vec_Forall in Hfs.
    apply forallb_Forall in Hn, Hf. apply key_value_eqb_canon; [done|]. rewrite Forall_forall in *.
    intros [k [j nm v]] He. specialize (Hfs _ He). specialize (Hn _ He). specialize (Hf _ He).
    specialize (IH _ He). simpl in *. split_wf. split; [done|].
    destruct v as [v|]; [|done]. unfold written. simpl.
    assert (value_eqb v (canon v) = true) as Hv.
    { apply IH; [done| |done]. by destruct v. }
    rewrite (held_Some (canon v)); [exact Hv|]. intros ->%canon_Unit. done.
Qed.

Section Facts.
Context `{BL : BytesLaws} `{UL : UuidLaws}.

Abbreviation R A := (SE BufferReader panic A).

(** *** A write and its read

    [f] appends bytes to a writer, from which a reader at the same offset reads
    the result and nothing more: a value, or the end of the model's fuel. *)
Definition codec {A} (f : list byte → list byte) (m : R A) (res : option A) : Prop :=
  ∀ w, ∃ enc, f w = w ++ enc ∧ ∀ rest bl,
    bl = (length w + length enc + length rest)%nat →
    m (mkReader (enc ++ rest) bl) =
    match res with Some a => Ok (a, mkReader rest bl) | None => Err OutOfFuel end.

Definition appends (f : list byte → list byte) : Prop := ∀ w, ∃ enc, f w = w ++ enc.

Lemma codec_appends {A} f (m : R A) res : codec f m res → appends f.
Proof. intros Hc w. destruct (Hc w) as (enc & ? & _). eauto. Qed.

Lemma codec_ret {A} (a : A) : codec (λ w, w) (se_ret a) (Some a).
Proof. intros w. exists []. rewrite app_nil_r. done. Qed.

Lemma codec_fail {A} f : appends f → codec f (se_fail OutOfFuel : R A) None.
Proof. intros Hf w. destruct (Hf w) as (enc & ?). eauto. Qed.

Lemma codec_bind {A B} f g (m : R A) (k : A → R B) ra res :
  codec f m ra →
  match ra with Some a => codec g (k a) res | None => appends g ∧ res = None end →
  codec (λ w, g (f w)) (se_bind m k) res.
Proof.
  intros Hm Hk w. destruct (Hm w) as (e1 & E1 & R1). destruct ra as [a|].
  - destruct (Hk (f w)) as (e2 & E2 & R2). exists (e1 ++ e2).
    rewrite E2, E1, app_assoc. split; [done|]. intros rest bl Hbl.
    rewrite <- app_assoc. unfold se_bind. rewrite length_app in Hbl.
    rewrite R1 by (rewrite length_app; lia). apply R2. rewrite E1, length_app. lia.
  - destruct Hk as [Hg ->]. destruct (Hg (f w)) as (e2 & E2). exists (e1 ++ e2).
    rewrite E2, E1, app_assoc. split; [done|]. intros rest bl Hbl. rewrite length_app in Hbl.
    rewrite <- app_assoc. unfold se_bind. by rewrite R1 by (rewrite length_app; lia).
Qed.

Lemma codec_seq {A B} f g (m : R A) (k : A → R B) a res :
  codec f m (Some a) → codec g (k a) res → codec (λ w, g (f w)) (se_bind m k) res.
Proof. intros Hm Hk. by apply (codec_bind f g m k (Some a)). Qed.

(** A read that takes nothing. *)
Lemma codec_pure {A B} f (m : R A) (k : A → R B) a res :
  (∀ r, m r = Ok (a, r)) → codec f (k a) res → codec f (se_bind m k) res.
Proof.
  intros Hm Hk w. destruct (Hk w) as (e & E & Hr). exists e. split; [done|].
  intros rest bl Hbl. unfold se_bind. rewrite Hm. by apply Hr.
Qed.

Lemma codec_map {A B} f (m : R A) (h : A → B) res :
  codec f m res → codec f (let* a := m in se_ret (h a)) (h <$> res).
Proof.
  intros Hm w. destruct (Hm w) as (e & E & Hr). exists e. split; [done|].
  intros rest bl Hbl. unfold se_bind. rewrite Hr by done. by destruct res.
Qed.

Lemma codec_ext {A} f g (m m' : R A) res :
  (∀ w, f w = g w) → (∀ r, m r = m' r) → codec f m res → codec g m' res.
Proof.
  intros Hf Hm Hc w. destruct (Hc w) as (e & E & Hr). exists e. rewrite <- Hf. split; [done|].
  intros rest bl Hbl. rewrite <- Hm. by apply Hr.
Qed.

Lemma codec_foldl {A B} (f : list byte → A → list byte) (m : R B) (p : A → bool) (h : A → B) l :
  Forall (λ x, codec (λ w, f w x) m (if p x then Some (h x) else None)) l →
  codec (λ w, foldl f w l) (se_repeat (length l) m) (if forallb p l then Some (h <$> l) else None).
Proof.
  induction 1 as [|x l Hx Hl IH]; [apply codec_ret|]. cbn [foldl length se_repeat forallb].
  refine (codec_bind (λ w, f w x) (λ w, foldl f w l) _ _ _ _ Hx _).
  destruct (p x); simpl; [|split; [eapply codec_appends, IH|done]].
  eapply codec_ext; [done|done|]. pose proof (codec_map _ _ (λ xs, h x :: xs) _ IH) as Hc.
  by destruct (forallb p l).
Qed.

Lemma forallb_ext {A} (p q : A → bool) l : (∀ x, p x = q x) → forallb p l = forallb q l.
Proof. intros Hpq. induction l as [|x l IH]; simpl; [done|]. by rewrite Hpq, IH. Qed.

Lemma forallb_true {A} (l : list A) : forallb (λ _, true) l = true.
Proof. by induction l. Qed.

Lemma codec_foldl_total {A} (f : list byte → A → list byte) (m : R A) l :
  Forall (λ x, codec (λ w, f w x) m (Some x)) l →
  codec (λ w, foldl f w l) (se_repeat (length l) m) (Some l).
Proof.
  intros Hl. pose proof (codec_foldl f m (λ _, true) id l Hl) as Hc.
  rewrite list_fmap_id, forallb_true in Hc. exact Hc.
Qed.

(** *** The reads and writes of the buffers *)
Lemma codec_get n (put : list byte → Z → list byte) decode get v :
  (∀ b, put b v = b ++ le_bytes n v) → (∀ b, get b = get_spec n decode b) →
  decode (v mod 256 ^ Z.of_nat n) = v →
  codec (λ w, put w v) (buf_get get) (Some v).
Proof.
  intros Hput Hget Hv w. exists (le_bytes n v). split; [done|]. intros rest bl _.
  rewrite (buf_get_spec n decode) by done. simpl.
  rewrite length_app, length_le_bytes, (proj2 (Nat.ltb_ge _ _)) by lia.
  rewrite take_app_length', drop_app_length' by (by rewrite length_le_bytes).
  by rewrite le_Z_bytes, Hv.
Qed.

Lemma codec_slice bs : codec (λ w, put_slice w bs) (take_front (length bs)) (Some bs).
Proof.
  intros w. exists bs. rewrite put_slice_spec. split; [done|]. intros rest bl _.
  rewrite take_front_spec. simpl. rewrite length_app, (proj2 (Nat.ltb_ge _ _)) by lia.
  by rewrite take_app_length, drop_app_length.
Qed.

Lemma codec_id u : codec (λ w, put_slice w (as_bytes u)) (take_front 16) (Some (as_bytes u)).
Proof. rewrite <- (length_as_bytes u). apply codec_slice. Qed.

Lemma codec_unwrap {B} f u (k : Uuid → R B) res :
  wf_uuid u = true → codec f (k u) res → codec f (se_bind (uuid_unwrap (as_bytes u)) k) res.
Proof.
  intros Hu. apply codec_pure. intros r. unfold uuid_unwrap. by rewrite from_as_bytes.
Qed.

Lemma unsigned_id w z : in_u w z = true → id (z mod 2 ^ w) = z.
Proof. intros Hz. unfold id. apply Z.mod_small. bool_lia. Qed.

Lemma codec_u8 v : in_u 8 v = true → codec (λ w, put_u8 w v) r_u8 (Some v).
Proof. intros. eapply (codec_get 1); [intros; apply put_u8_spec|apply get_u8_spec|]. by apply (unsigned_id 8). Qed.
Lemma codec_u16 v : in_u 16 v = true → codec (λ w, put_u16_le w v) r_u16 (Some v).
Proof. intros. eapply (codec_get 2); [intros; apply put_u16_le_spec|apply get_u16_le_spec|]. by apply (unsigned_id 16). Qed.
Lemma codec_u32 v : in_u 32 v = true → codec (λ w, put_u32_le w v) r_u32 (Some v).
Proof. intros. eapply (codec_get 4); [intros; apply put_u32_le_spec|apply get_u32_le_spec|]. by apply (unsigned_id 32). Qed.
Lemma codec_u64 v : in_u 64 v = true → codec (λ w, put_u64_le w v) r_u64 (Some v).
Proof. intros. eapply (codec_get 8); [intros; apply put_u64_le_spec|apply get_u64_le_spec|]. by apply (unsigned_id 64). Qed.
Lemma codec_i8 v : in_i 8 v = true → codec (λ w, put_i8 w v) r_i8 (Some v).
Proof. intros. eapply (codec_get 1); [intros; apply put_i8_spec|apply get_i8_spec|]. by apply (to_signed_mod 8). Qed.
Lemma codec_i16 v : in_i 16 v = true → codec (λ w, put_i16_le w v) r_i16 (Some v).
Proof. intros. eapply (codec_get 2); [intros; apply put_i16_le_spec|apply get_i16_le_spec|]. by apply (to_signed_mod 16). Qed.
Lemma codec_i32 v : in_i 32 v = true → codec (λ w, put_i32_le w v) r_i32 (Some v).
Proof. intros. eapply (codec_get 4); [intros; apply put_i32_le_spec|apply get_i32_le_spec|]. by apply (to_signed_mod 32). Qed.
Lemma codec_i64 v : in_i 64 v = true → codec (λ w, put_i64_le w v) r_i64 (Some v).
Proof. intros. eapply (codec_get 8); [intros; apply put_i64_le_spec|apply get_i64_le_spec|]. by apply (to_signed_mod 64). Qed.
Lemma codec_f32 v : in_u 32 v = true → codec (λ w, put_f32_le w v) r_f32 (Some v).
Proof. intros. eapply (codec_get 4); [intros; apply put_f32_le_spec|apply get_f32_le_spec|]. by apply (unsigned_id 32). Qed.
Lemma codec_f64 v : in_u 64 v = true → codec (λ w, put_f64_le w v) r_f64 (Some v).
Proof. intros. eapply (codec_get 8); [intros; apply put_f64_le_spec|apply get_f64_le_spec|]. by apply (unsigned_id 64). Qed.

Lemma codec_boolean b : codec (λ w, add_boolean_raw w b) get_boolean (Some b).
Proof.
  unfold get_boolean, add_boolean_raw.
  pose proof (codec_map _ _ (λ v, negb (v =? 0)) _ (codec_u8 (if b then 1 else 0) ltac:(by destruct b))) as Hc.
  by destruct b.
Qed.

Lemma as_u32_small n : Z.of_nat n < 2 ^ 32 → as_u32 n = Z.of_nat n.
Proof. intros. unfold as_u32. rewrite Z.mod_small; lia. Qed.

(** A length, written as a [u32]. *)
Lemma codec_len n : Z.of_nat n < 2 ^ 32 →
  codec (λ w, put_u32_le w (as_u32 n)) (buf_get get_u32_le) (Some (Z.of_nat n)).
Proof.
  intros Hn. rewrite (as_u32_small n Hn). apply codec_u32. unfold in_u.
  apply andb_true_iff. split; [apply Z.leb_le|apply Z.ltb_lt]; lia.
Qed.

Lemma codec_string s : wf_string s = true → codec (λ w, add_string_raw w s) get_string (Some s).
Proof.
  unfold wf_string. intros [Hu Hl]%andb_true_iff. apply Z.ltb_lt in Hl.
  unfold add_string_raw, get_string.
  refine (codec_seq (λ w, put_u32_le w (as_u32 (length (str_bytes s))))
    (λ w, put_slice w (str_bytes s)) _ _ _ _ (codec_len _ Hl) _).
  rewrite Nat2Z.id. intros w. exists (str_bytes s). rewrite put_slice_spec. split; [done|].
  intros rest bl _. unfold se_bind, slice_front. simpl.
  rewrite length_app, (proj2 (Nat.ltb_ge _ _)) by lia. rewrite take_app_length.
  unfold from_utf8. rewrite Hu. cbn [se_ret]. rewrite buf_advance_spec. simpl.
  rewrite length_app, (proj2 (Nat.ltb_ge _ _)) by lia.
  by rewrite drop_app_length, bytes_str_bytes.
Qed.

Lemma align_spec w : align w = w ++ replicate (ALIGNMENT - length w mod ALIGNMENT) (Z_byte 0).
Proof.
  unfold align. generalize (ALIGNMENT - length w mod ALIGNMENT)%nat as n.
  induction n as [|n IH]; [by rewrite app_nil_r|]. cbn [Nat.iter]. rewrite Nat.iter_succ, IH, put_u8_spec.
  by rewrite replicate_S_end, <- app_assoc.
Qed.

Lemma codec_align : codec align reader_align (Some tt).
Proof.
  intros w. eexists. split; [apply align_spec|]. intros rest bl Hbl.
  unfold reader_align, skip_front. simpl in *. rewrite length_app, length_replicate in *.
  replace (bl - _)%nat with (length w) by lia.
  rewrite (proj2 (Nat.ltb_ge _ _)) by lia.
  by rewrite drop_app_length' by (by rewrite length_replicate).
Qed.

(** The tag of a value. *)
Lemma codec_tag t : in_u 8 t = true → codec (λ w, put_u8 w t) next_type (Some (Some t)).
Proof.
  intros Ht w. exists (le_bytes 1 t). rewrite put_u8_spec. split; [done|]. intros rest bl _.
  rewrite next_type_spec. simpl. rewrite byte_Z_byte.
  by rewrite (unsigned_id 8 t Ht : t mod 256 = t).
Qed.

(** *** Values *)

(** What the decoder returns for [v] with [n] levels left. *)
Definition res (n : nat) (v : Value) : option Value :=
  if (depth v <=? n)%nat then Some (canon v) else None.

Abbreviation ser := serialize_to_writer.

(** A value's write: its tag, then the rest. *)
Lemma codec_value t g v n r :
  in_u 8 t = true → (∀ w, ser v w = g (put_u8 w t)) →
  codec g (read_kind (deserialize_fuel n) (Some t)) r →
  codec (λ w, ser v w) (deserialize_fuel (S n)) r.
Proof.
  intros Ht Hg Hc. eapply codec_ext; [intros w; symmetry; apply Hg|done|].
  refine (codec_seq (λ w, put_u8 w t) g _ _ _ _ (codec_tag t Ht) Hc).
Qed.

(** A variant of one payload, read and wrapped. *)
Lemma codec_leaf {A} t g v n (m : R A) (wrap : A → Value) a :
  in_u 8 t = true → (∀ w, ser v w = g (put_u8 w t)) →
  (∀ r, read_kind (deserialize_fuel n) (Some t) r = (let* a := m in se_ret (wrap a)) r) →
  codec g m (Some a) → depth v = 1%nat → canon v = wrap a →
  codec (λ w, ser v w) (deserialize_fuel (S n)) (res (S n) v).
Proof.
  intros Ht Hg Hr Hc Hd Hv. apply (codec_value t g); [done..|].
  eapply codec_ext; [done|intros; symmetry; apply Hr|].
  unfold res. rewrite Hd, Hv. apply (codec_map _ _ wrap _ Hc).
Qed.

Section Nested.
Variable n : nat.
Let rv : R Value := deserialize_fuel n.

(** An id, and the value after it. *)
Lemma codec_with_id {A} u (f : list byte → list byte) (mk : Uuid → Value → A) r :
  wf_uuid u = true → codec f rv r →
  codec (λ w, f (put_slice w (as_bytes u)))
    (let* bs := take_front 16 in let* id := uuid_unwrap bs in let* v := rv in se_ret (mk id v))
    (mk u <$> r).
Proof.
  intros Hu Hf. refine (codec_seq (λ w, put_slice w (as_bytes u)) f _ _ _ _ (codec_id u) _).
  apply codec_unwrap; [done|]. by apply codec_map.
Qed.

Definition leb (v : Value) : bool := (depth v <=? n)%nat.
Lemma res_map {A} (mk : Value → A) v :
  mk <$> res n v = if leb v then Some (mk (canon v)) else None.
Proof. unfold res, leb. by destruct (_ <=? _)%nat. Qed.

(** The fields of a structure. *)
Definition write_fields (fields : list StructureField) (w : list byte) : list byte :=
  foldl (λ w f, ser (sf_value f) (add_structure_field w (as_bytes (sf_id f)))) w fields.

Lemma codec_fields fs :
  Forall (λ f : StructureField, wf_uuid (sf_id f) = true) fs →
  Forall (λ f : StructureField, codec (λ w, ser (sf_value f) w) rv (res n (sf_value f))) fs →
  codec (write_fields fs) (se_repeat (length fs) (read_structure_field rv))
    (if forallb (λ f, leb (sf_value f)) fs then Some (canon_field <$> fs) else None).
Proof.
  intros Hu Hf. apply (codec_foldl _ _ (λ f : StructureField, leb (sf_value f)) canon_field).
  eapply Forall_impl2; [exact Hu|exact Hf|]. intros f Huf Hcf.
  rewrite <- (res_map (mkStructureField (sf_id f))).
  exact (codec_with_id (sf_id f) (λ w, ser (sf_value f) w) mkStructureField _ Huf Hcf).
Qed.

(** *** Arrays *)
Lemma codec_header ty k : in_u 8 ty = true → Z.of_nat k < 2 ^ 32 →
  codec (λ w, put_u32_le (put_u8 w ty) (as_u32 k)) get_array (Some (ty, Z.of_nat k)).
Proof.
  intros Ht Hk. unfold get_array.
  refine (codec_seq (λ w, put_u8 w ty) (λ w, put_u32_le w (as_u32 k)) _ _ _ _ (codec_u8 ty Ht) _).
  apply (codec_map _ _ (λ z, (ty, z)) _ (codec_len k Hk)).
Qed.

(** An array whose elements [g] writes and [m] reads. *)
Lemma codec_array ty k v g (K : Z * Z → R Value) r :
  in_u 8 ty = true → Z.of_nat k < 2 ^ 32 →
  (∀ w, ser v w = g (put_u32_le (put_u8 (put_u8 w TYPE_ARRAY) ty) (as_u32 k))) →
  (∀ r, read_array rv r = (let* p := get_array in K p) r) →
  codec g (K (ty, Z.of_nat k)) r →
  codec (λ w, ser v w) (deserialize_fuel (S n)) r.
Proof.
  intros Ht Hk Hg HK Hc.
  apply (codec_value TYPE_ARRAY (λ w, g (put_u32_le (put_u8 w ty) (as_u32 k)))); [done|done|].
  eapply codec_ext; [done|intros x; symmetry; apply HK|].
  refine (codec_seq (λ w, put_u32_le (put_u8 w ty) (as_u32 k)) g _ _ _ _ (codec_header ty k Ht Hk) Hc).
Qed.

Lemma codec_primitive_array {A} ty (put : list byte → A → list byte) (m : R A) (wrap : list A → Value)
    l (K : Z * Z → R Value) :
  in_u 8 ty = true → wf_len l = true →
  (∀ w, ser (wrap l) w =
        foldl put (align (put_u32_le (put_u8 (put_u8 w TYPE_ARRAY) ty) (as_u32 (length l)))) l) →
  (∀ r, read_array rv r = (let* p := get_array in K p) r) →
  (∀ z r, K (ty, z) r = (reader_align ;; let* v := se_repeat (Z.to_nat z) m in se_ret (wrap v)) r) →
  Forall (λ x, codec (λ w, put w x) m (Some x)) l →
  depth (wrap l) = 1%nat → canon (wrap l) = wrap l →
  codec (λ w, ser (wrap l) w) (deserialize_fuel (S n)) (res (S n) (wrap l)).
Proof.
  intros Ht Hl Hg HK Hr Hc Hd Hv.
  eapply (codec_array ty (length l) _ (λ w, foldl put (align w) l)); [done|by apply wf_len_lt|done|exact HK|].
  eapply codec_ext; [done|intros x; symmetry; apply Hr|]. rewrite Nat2Z.id. unfold res. rewrite Hd, Hv.
  refine (codec_seq align (λ w, foldl put w l) _ _ _ _ codec_align _).
  apply (codec_map _ _ wrap _ (codec_foldl_total put m l Hc)).
Qed.

Lemma codec_string_array l :
  wf_vec wf_string l = true →
  codec (λ w, ser (Value.ArrayString l) w) (deserialize_fuel (S n)) (res (S n) (Value.ArrayString l)).
Proof.
  intros Hwf. eapply (codec_array TYPE_STRING (length l) _ (λ w, foldl add_string_raw w l));
    [done|by apply wf_len_lt, (wf_vec_len wf_string)|done|reflexivity|].
  eapply codec_pure; [done|]. rewrite Nat2Z.id.
  refine (codec_map _ _ Value.ArrayString _ (codec_foldl_total add_string_raw get_string l _)).
  apply wf_vec_Forall in Hwf. eapply Forall_impl; [exact Hwf|]. intros s. apply codec_string.
Qed.

Lemma codec_value_array l :
  wf_len l = true → Forall (λ v, codec (λ w, ser v w) rv (res n v)) l →
  codec (λ w, ser (Value.ArrayValue l) w) (deserialize_fuel (S n)) (res (S n) (Value.ArrayValue l)).
Proof.
  intros Hwf Hl. eapply (codec_array TYPE_VALUE (length l) _ (λ w, foldl (λ w v, ser v w) w l));
    [done|by apply wf_len_lt|done|reflexivity|].
  eapply codec_pure; [done|]. rewrite Nat2Z.id.
  pose proof (codec_map _ _ Value.ArrayValue _ (codec_foldl (λ w v, ser v w) rv leb canon l Hl)) as Hc.
  unfold res. cbn [depth Nat.leb canon]. rewrite max_of_leb.
  fold (leb). unfold leb in Hc. by destruct (forallb _ l).
Qed.

(** The elements of an array of a user type, after the id of the type. *)
Lemma codec_user_elements {A B} (put : list byte → A → list byte) (m : R B) id (wrap : Uuid → list B → Value)
    (p : A → bool) (h : A → B) (l : list A) :
  wf_uuid id = true →
  Forall (λ x, codec (λ w, put w x) m (if p x then Some (h x) else None)) l →
  codec (λ w, foldl put (put_slice w (as_bytes id)) l)
    (let* bs := take_front 16 in let* es := se_repeat (length l) m in
     let* i := uuid_unwrap bs in se_ret (wrap i es))
    (if forallb p l then Some (wrap id (h <$> l)) else None).
Proof.
  intros Hid Hl.
  refine (codec_seq (λ w, put_slice w (as_bytes id)) (λ w, foldl put w l) _ _ _ _ (codec_id id) _).
  pose proof (codec_map _ _ (wrap id) _ (codec_foldl put m p h l Hl)) as Hc.
  eapply codec_ext; [done| |destruct (forallb p l); exact Hc].
  intros r. unfold se_bind, uuid_unwrap. rewrite from_as_bytes by done.
  by destruct (se_repeat _ _ _) as [[]|].
Qed.

Lemma codec_structure_array id es :
  wf_uuid id = true → wf_len es = true →
  Forall (λ e : StructureWithoutId, wf_len (sw_fields e) = true ∧
    Forall (λ f : StructureField, wf_uuid (sf_id f) = true) (sw_fields e)) es →
  Forall (λ e : StructureWithoutId,
    Forall (λ f, codec (λ w, ser (sf_value f) w) rv (res n (sf_value f))) (sw_fields e)) es →
  codec (λ w, ser (Value.ArrayStructure id es) w) (deserialize_fuel (S n))
    (res (S n) (Value.ArrayStructure id es)).
Proof.
  intros Hid Hlen Hwf Hes.
  set (put w e := write_fields (sw_fields e) (begin_structure_raw w (as_u32 (length (sw_fields e))))).
  eapply (codec_array TYPE_STRUCTURE (length es) _ (λ w, foldl put (put_slice w (as_bytes id)) es));
    [done|by apply wf_len_lt|done|reflexivity|].
  eapply codec_pure; [done|]. rewrite Nat2Z.id.
  pose proof (codec_user_elements put (read_element_structure rv) id Value.ArrayStructure
    (λ e, forallb (λ f, leb (sf_value f)) (sw_fields e))
    (λ e : StructureWithoutId, mkStructureWithoutId (canon_field <$> sw_fields e)) es Hid) as Hc.
  unfold res. cbn [depth Nat.leb canon]. rewrite max_of_leb.
  erewrite (forallb_ext _ _ es); [apply Hc|]; [|intros e; apply max_of_leb].
  eapply Forall_impl2; [exact Hwf|exact Hes|]. intros e [Hl Hu] He. unfold put, read_element_structure.
  refine (codec_seq (λ w, begin_structure_raw w (as_u32 (length (sw_fields e))))
    (write_fields (sw_fields e)) _ _ _ _ (codec_len _ (wf_len_lt _ Hl)) _).
  rewrite Nat2Z.id.
  pose proof (codec_map _ _ mkStructureWithoutId _ (codec_fields _ Hu He)) as Hf.
  destruct (forallb _ (sw_fields e)); exact Hf.
Qed.

Lemma codec_enumeration_array id es :
  wf_uuid id = true → wf_len es = true →
  Forall (λ e : EnumerationWithoutId, wf_uuid (ew_variant_id e) = true) es →
  Forall (λ e : EnumerationWithoutId, codec (λ w, ser (ew_value e) w) rv (res n (ew_value e))) es →
  codec (λ w, ser (Value.ArrayEnumeration id es) w) (deserialize_fuel (S n))
    (res (S n) (Value.ArrayEnumeration id es)).
Proof.
  intros Hid Hlen Hwf Hes.
  set (put w (e : EnumerationWithoutId) := ser (ew_value e) (put_slice w (as_bytes (ew_variant_id e)))).
  eapply (codec_array TYPE_ENUMERATION (length es) _ (λ w, foldl put (put_slice w (as_bytes id)) es));
    [done|by apply wf_len_lt|done|reflexivity|].
  eapply codec_pure; [done|]. rewrite Nat2Z.id.
  pose proof (codec_user_elements put (read_element_enumeration rv) id Value.ArrayEnumeration
    (λ e, leb (ew_value e))
    (λ e : EnumerationWithoutId, mkEnumerationWithoutId (ew_variant_id e) (canon (ew_value e))) es Hid) as Hc.
  unfold res. cbn [depth Nat.leb canon]. rewrite max_of_leb. apply Hc.
  eapply Forall_impl2; [exact Hwf|exact Hes|]. intros e Hu He.
  rewrite <- (res_map (mkEnumerationWithoutId (ew_variant_id e))).
  exact (codec_with_id (ew_variant_id e) (λ w, ser (ew_value e) w) mkEnumerationWithoutId _ Hu He).
Qed.

(** *** Maps *)
Definition write_entry (w : list byte) (kf : entry) : list byte :=
  ser (written kf.2) (add_uuid_raw (add_map_field_key w kf.1) (as_bytes (kvf_id kf.2))).

Lemma codec_entry kf (kv : KeyValue) :
  wf_string kf.1 = true → wf_uuid (kvf_id kf.2) = true →
  codec (λ w, ser (written kf.2) w) rv (res n (written kf.2)) →
  codec (λ w, write_entry w kf) (read_map_field rv kv)
    (if leb (written kf.2) then Some (set_field (read_back kf) kv) else None).
Proof.
  intros Hk Hu Hc. unfold write_entry, read_map_field.
  refine (codec_seq (λ w, add_map_field_key w kf.1)
    (λ w, ser (written kf.2) (add_uuid_raw w (as_bytes (kvf_id kf.2)))) _ _ _ _ (codec_string _ Hk) _).
  set (mk id v := set_field (new_with_id_and_option kf.1 id (held v)) kv).
  change (set_field (read_back kf) kv) with (mk (kvf_id kf.2) (canon (written kf.2))).
  rewrite <- (res_map (mk (kvf_id kf.2))).
  exact (codec_with_id (kvf_id kf.2) (λ w, ser (written kf.2) w) mk _ Hu Hc).
Qed.

Lemma codec_entries id (l : list entry) acc :
  NoDup (acc.*1 ++ l.*1) →
  Forall (λ kf : entry, wf_string kf.1 = true ∧ wf_uuid (kvf_id kf.2) = true) l →
  Forall (λ kf : entry, codec (λ w, ser (written kf.2) w) rv (res n (written kf.2))) l →
  codec (λ w, foldl write_entry w l) (read_map_fields rv (length l) (mkKeyValue id acc))
    (if forallb (λ kf, leb (written kf.2)) l
     then Some (mkKeyValue id (acc ++ ((λ kf, (kf.1, read_back kf)) <$> l))) else None).
Proof.
  intros Hd Hwf Hl. revert acc Hd. induction Hl as [|kf l Hkf Hl IH]; intros acc Hd.
  { rewrite app_nil_r. apply codec_ret. }
  apply Forall_cons in Hwf as [[Hk Hu] Hwf]. specialize (IH Hwf).
  cbn [foldl length read_map_fields forallb].
  refine (codec_bind (λ w, write_entry w kf) (λ w, foldl write_entry w l) _ _ _ _
    (codec_entry kf (mkKeyValue id acc) Hk Hu Hkf) _).
  assert (set_field (read_back kf) (mkKeyValue id acc) = mkKeyValue id (acc ++ [(kf.1, read_back kf)])) as ->.
  { unfold set_field. cbn [kv_id kv_fields]. rewrite hm_insert_fresh; [done|]. cbn.
    rewrite fmap_cons, NoDup_app in Hd. destruct Hd as (_ & Hd & _). intros Hin. apply (Hd _ Hin). by left. }
  assert (NoDup ((acc ++ [(kf.1, read_back kf)]).*1 ++ l.*1)) as Hd'.
  { by rewrite fmap_app, <- app_assoc. }
  specialize (IH _ Hd'). destruct (leb _); simpl; [|split; [eapply codec_appends, IH|done]].
  by rewrite <- app_assoc in IH.
Qed.

Lemma forallb_Permutation {A} (p : A → bool) l k : l ≡ₚ k → forallb p l = forallb p k.
Proof. induction 1; simpl; try congruence. by rewrite !andb_assoc, (andb_comm (p y)). Qed.

Lemma foldl_write (fields : list entry) w :
  foldl (λ w kf, kf.2 (add_map_field_key w kf.1)) w
    ((λ kf, (kf.1, λ w, match kvf_value kf.2 with
                        | Some v => ser v (add_uuid_raw w (as_bytes (kvf_id kf.2)))
                        | None => add_unit (add_uuid_raw w (as_bytes (kvf_id kf.2)))
                        end)) <$> fields) = foldl write_entry w fields.
Proof.
  revert w. induction fields as [|[k [i nm v]] fields IH]; intros w; [done|]. cbn [fmap list_fmap foldl].
  rewrite IH. f_equal. unfold write_entry, written. simpl. by destruct v.
Qed.

Lemma ser_key_value (kv : KeyValue) w :
  NoDup (kv_fields kv).*1 →
  ser (Value.KeyValue kv) w =
  foldl write_entry (begin_map w (as_bytes (kv_id kv)) (as_u32 (length (kv_fields kv))))
    (sort_by_key (kv_fields kv)).
Proof.
  intros Hd. cbn [ser].
  rewrite (sort_by_key_fmap (λ kf : entry, λ w, match kvf_value kf.2 with
      | Some v => ser v (add_uuid_raw w (as_bytes (kvf_id kf.2)))
      | None => add_unit (add_uuid_raw w (as_bytes (kvf_id kf.2)))
      end)) by done.
  rewrite length_fmap, (Permutation_length (sort_by_key_Permutation (kv_fields kv))).
  apply foldl_write.
Qed.

Lemma codec_key_value (kv : KeyValue) :
  wf_uuid (kv_id kv) = true → NoDup (kv_fields kv).*1 → wf_len (kv_fields kv) = true →
  Forall (λ kf : entry, wf_string kf.1 = true ∧ wf_uuid (kvf_id kf.2) = true) (kv_fields kv) →
  Forall (λ kf : entry, codec (λ w, ser (written kf.2) w) rv (res n (written kf.2))) (kv_fields kv) →
  codec (λ w, ser (Value.KeyValue kv) w) (deserialize_fuel (S n)) (res (S n) (Value.KeyValue kv)).
Proof.
  intros Hid Hd Hlen Hwf Hfs. pose proof (sort_by_key_Permutation (kv_fields kv)) as Hp.
  apply (codec_value TYPE_MAP
    (λ w, foldl write_entry (put_u32_le (put_slice w (as_bytes (kv_id kv))) (as_u32 (length (kv_fields kv))))
       (sort_by_key (kv_fields kv)))); [done|intros w; by apply ser_key_value|].
  assert (codec (λ w, put_u32_le (put_slice w (as_bytes (kv_id kv))) (as_u32 (length (kv_fields kv))))
    get_map (Some (as_bytes (kv_id kv), Z.of_nat (length (kv_fields kv))))) as Hhead.
  { refine (codec_seq (λ w, put_slice w (as_bytes (kv_id kv))) (λ w, put_u32_le w _) _ _ _ _ (codec_id _) _).
    apply (codec_map _ _ (λ z, (as_bytes (kv_id kv), z)) _ (codec_len _ (wf_len_lt _ Hlen))). }
  refine (codec_seq _ (λ w, foldl write_entry w (sort_by_key (kv_fields kv))) _ _ _ _ Hhead _).
  apply codec_unwrap; [done|]. rewrite Nat2Z.id, <- (Permutation_length Hp).
  unfold res. rewrite canon_key_value by done. cbn [depth Nat.leb]. rewrite max_of_leb.
  pose proof (codec_map _ _ Value.KeyValue _
    (codec_entries (kv_id kv) (sort_by_key (kv_fields kv)) [] ltac:(by rewrite Hp)
      ltac:(by rewrite Hp) ltac:(by rewrite Hp))) as Hc.
  rewrite (forallb_Permutation _ _ _ Hp) in Hc.
  rewrite (forallb_ext _ (λ kf : entry, leb (written kf.2)) (kv_fields kv)) by by intros [k [i nm [v|]]].
  destruct (forallb _ (kv_fields kv)); exact Hc.
Qed.
End Nested.

(** *** The round trip of a value *)
Abbreviation decodes n v := (codec (λ w, ser v w) (deserialize_fuel (S n)) (res (S n) v)).

Ltac leaf t put m wrap lem :=
  match goal with |- codec _ _ (res _ ?v) =>
    refine (codec_leaf t put v _ m wrap _ eq_refl (λ _, eq_refl) (λ _, eq_refl) lem eq_refl eq_refl)
  end.

(** The variants that hold no value: a tag and a payload. *)
Lemma codec_scalar v n :
  wf_value v = true →
  match v with
  | Value.Unit | Value.Boolean _ | Value.U8 _ | Value.U16 _ | Value.U32 _ | Value.U64 _ | Value.I8 _
  | Value.I16 _ | Value.I32 _ | Value.I64 _ | Value.F32 _ | Value.F64 _ | Value.String _ | Value.Uuid _
  | Value.Option None => decodes n v
  | _ => True
  end.
Proof.
  destruct v as [|b|x|x|x|x|x|x|x|x|x|x|s|[w|]| | | | | | | | | | | | | | | | | | |u]; try done;
    cbn [wf_value]; intros Hwf.
  - apply (codec_value TYPE_UNIT (λ w, w)); [done..|]. apply codec_ret.
  - leaf TYPE_BOOLEAN (λ w, add_boolean_raw w b) get_boolean Value.Boolean (codec_boolean b).
  - leaf TYPE_U8 (λ w, put_u8 w x) r_u8 Value.U8 (codec_u8 x Hwf).
  - leaf TYPE_U16 (λ w, put_u16_le w x) r_u16 Value.U16 (codec_u16 x Hwf).
  - leaf TYPE_U32 (λ w, put_u32_le w x) r_u32 Value.U32 (codec_u32 x Hwf).
  - leaf TYPE_U64 (λ w, put_u64_le w x) r_u64 Value.U64 (codec_u64 x Hwf).
  - leaf TYPE_I8 (λ w, put_i8 w x) r_i8 Value.I8 (codec_i8 x Hwf).
  - leaf TYPE_I16 (λ w, put_i16_le w x) r_i16 Value.I16 (codec_i16 x Hwf).
  - leaf TYPE_I32 (λ w, put_i32_le w x) r_i32 Value.I32 (codec_i32 x Hwf).
  - leaf TYPE_I64 (λ w, put_i64_le w x) r_i64 Value.I64 (codec_i64 x Hwf).
  - leaf TYPE_F32 (λ w, put_f32_le w x) r_f32 Value.F32 (codec_f32 x Hwf).
  - leaf TYPE_F64 (λ w, put_f64_le w x) r_f64 Value.F64 (codec_f64 x Hwf).
  - leaf TYPE_STRING (λ w, add_string_raw w s) get_string Value.String (codec_string s Hwf).
  - apply (codec_value TYPE_OPTION (λ w, put_u8 w 0)); [done..|].
    exact (codec_seq (λ w, put_u8 w 0) (λ w, w) get_option_presence _ false _
      (codec_boolean false) (codec_ret (Value.Option None))).
  - apply (codec_value TYPE_UUID (λ w, put_slice w (as_bytes u))); [done..|].
    refine (codec_seq (λ w, put_slice w (as_bytes u)) (λ w, w) (take_front 16) _ _ _ (codec_id u) _).
    apply codec_unwrap; [done|apply codec_ret].
Qed.

(** The arrays of a primitive type. *)
Ltac elements lem :=
  first [ apply Forall_true; intros; apply lem; fail
        | eapply Forall_impl; [apply wf_vec_Forall; eassumption|]; intros; by apply lem ].
Ltac prim_array ty put m wrap lem :=
  refine (codec_primitive_array _ ty put m wrap _ _ eq_refl _ (λ _, eq_refl) (λ _, eq_refl) (λ _ _, eq_refl)
    _ eq_refl eq_refl); [first [assumption|eapply wf_vec_len; eassumption] | elements lem].

Lemma codec_primitives v n :
  wf_value v = true →
  match v with
  | Value.ArrayBoolean _ | Value.ArrayU8 _ | Value.ArrayU16 _ | Value.ArrayU32 _ | Value.ArrayU64 _
  | Value.ArrayI8 _ | Value.ArrayI16 _ | Value.ArrayI32 _ | Value.ArrayI64 _ | Value.ArrayF32 _
  | Value.ArrayF64 _ => decodes n v
  | _ => True
  end.
Proof.
  destruct v; try done; cbn [wf_value]; intros Hwf.
  - prim_array TYPE_BOOLEAN add_boolean_raw get_boolean Value.ArrayBoolean codec_boolean.
  - prim_array TYPE_U8 put_u8 r_u8 Value.ArrayU8 codec_u8.
  - prim_array TYPE_U16 put_u16_le r_u16 Value.ArrayU16 codec_u16.
  - prim_array TYPE_U32 put_u32_le r_u32 Value.ArrayU32 codec_u32.
  - prim_array TYPE_U64 put_u64_le r_u64 Value.ArrayU64 codec_u64.
  - prim_array TYPE_I8 put_i8 r_i8 Value.ArrayI8 codec_i8.
  - prim_array TYPE_I16 put_i16_le r_i16 Value.ArrayI16 codec_i16.
  - prim_array TYPE_I32 put_i32_le r_i32 Value.ArrayI32 codec_i32.
  - prim_array TYPE_I64 put_i64_le r_i64 Value.ArrayI64 codec_i64.
  - prim_array TYPE_F32 put_f32_le r_f32 Value.ArrayF32 codec_f32.
  - prim_array TYPE_F64 put_f64_le r_f64 Value.ArrayF64 codec_f64.
Qed.

Lemma wf_field_ids fs :
  wf_vec (λ f : StructureField, wf_uuid (sf_id f) && wf_value (sf_value f)) fs = true →
  Forall (λ f : StructureField, wf_uuid (sf_id f) = true) fs.
Proof.
  intros Hfs%wf_vec_Forall. eapply Forall_impl; [exact Hfs|]. simpl. intros f Hf. by split_wf.
Qed.

Lemma codec_structure s n :
  wf_value (Value.Structure s) = true →
  Forall (λ f : StructureField, wf_value (sf_value f) = true →
    ∀ n, codec (λ w, ser (sf_value f) w) (deserialize_fuel n) (res n (sf_value f))) (st_fields s) →
  decodes n (Value.Structure s).
Proof.
  destruct s as [i fs]. cbn [wf_value st_id st_fields]. intros [Hi Hfs]%andb_true_iff Hc.
  apply (Forall_wf_fields fs (λ v, ∀ n, codec (λ w, ser v w) (deserialize_fuel n) (res n v))) in Hc; [|done].
  apply (codec_value TYPE_STRUCTURE (λ w, write_fields fs
    (put_u32_le (put_slice w (as_bytes i)) (as_u32 (length fs))))); [done..|].
  assert (codec (λ w, put_u32_le (put_slice w (as_bytes i)) (as_u32 (length fs)))
    get_structure (Some (as_bytes i, Z.of_nat (length fs)))) as Hhead.
  { refine (codec_seq (λ w, put_slice w (as_bytes i)) (λ w, put_u32_le w _) _ _ _ _ (codec_id _) _).
    apply (codec_map _ _ (λ z, (as_bytes i, z)) _ (codec_len _ (wf_len_lt _ (wf_vec_len _ _ Hfs)))). }
  refine (codec_seq _ (write_fields fs) _ _ _ _ Hhead _). rewrite Nat2Z.id.
  pose proof (codec_map _ _ (λ l, Value.Structure (mkStructure i l)) _ (codec_fields n fs
    (wf_field_ids fs Hfs)
    ltac:(eapply Forall_impl; [exact Hc|]; auto))) as Hr.
  unfold res. cbn [depth Nat.leb canon st_id st_fields]. rewrite max_of_leb.
  eapply codec_ext; [done| |unfold leb in Hr; destruct (forallb _ fs); exact Hr].
  intros r. unfold se_bind, uuid_unwrap. rewrite from_as_bytes by done.
  by destruct (se_repeat _ _ _) as [[]|].
Qed.

Lemma codec_enumeration e n :
  wf_value (Value.Enumeration e) = true →
  codec (λ w, ser (en_value e) w) (deserialize_fuel n) (res n (en_value e)) →
  decodes n (Value.Enumeration e).
Proof.
  destruct e as [i vi v]. cbn [wf_value en_id en_variant_id en_value]. intros Hwf Hc. split_wf.
  apply (codec_value TYPE_ENUMERATION (λ w, ser v
    (put_slice (put_slice w (as_bytes i)) (as_bytes vi)))); [done..|].
  refine (codec_seq (λ w, put_slice w (as_bytes i)) (λ w, ser v (put_slice w (as_bytes vi)))
    get_structure_field _ _ _ (codec_id i) _).
  refine (codec_seq (λ w, put_slice w (as_bytes vi)) (λ w, ser v w)
    get_enumeration_value_raw _ _ _ (codec_id vi) _).
  apply codec_unwrap; [done|]. apply codec_unwrap; [done|].
  pose proof (codec_map _ _ (λ v, Value.Enumeration (mkEnumeration i vi v)) _ Hc) as Hr.
  by rewrite res_map in Hr.
Qed.

Lemma codec_some v n :
  codec (λ w, ser v w) (deserialize_fuel n) (res n v) → decodes n (Value.Option (Some v)).
Proof.
  intros Hc. apply (codec_value TYPE_OPTION (λ w, ser v (put_u8 w 1))); [done..|].
  refine (codec_seq (λ w, put_u8 w 1) (λ w, ser v w) get_option_presence _ _ _ (codec_boolean true) _).
  pose proof (codec_map _ _ (λ v, Value.Option (Some v)) _ Hc) as Hr. by rewrite res_map in Hr.
Qed.

Lemma codec_serialize v : wf_value v = true → ∀ n, codec (λ w, ser v w) (deserialize_fuel n) (res n v).
Proof.
  induction v as [v IH] using Value_ind_subs. intros Hwf.
  assert (∀ n, decodes n v) as Hc.
  2: { intros [|n]; [|apply Hc]. unfold res. rewrite (proj2 (Nat.leb_gt _ _)) by (destruct v; simpl; lia).
       apply codec_fail. eapply codec_appends, (Hc 0%nat). }
  intros n. pose proof (codec_scalar v n Hwf) as Hs. pose proof (codec_primitives v n Hwf) as Hp.
  destruct v as [| | | | | | | | | | | | |[w|]|s|e| | | | | | | | | | | |l|vs|i es|i es|kv|];
    try assumption; clear Hs Hp; cbn [subs_ok] in IH.
  - apply codec_some, IH, Hwf.
  - by apply codec_structure.
  - apply codec_enumeration; [done|]. apply IH. cbn in Hwf. by split_wf.
  - by apply codec_string_array.
  - cbn in Hwf. apply codec_value_array; [by eapply wf_vec_len|].
    eapply Forall_impl2; [exact IH|by apply wf_vec_Forall|]. auto.
  - cbn in Hwf. apply andb_true_iff in Hwf as [Hi Hes].
    apply codec_structure_array; [done|by eapply wf_vec_len|..]; apply wf_vec_Forall in Hes.
    + eapply Forall_impl; [exact Hes|]. intros e He. simpl in He.
      split; [by eapply wf_vec_len|by apply wf_field_ids].
    + eapply Forall_impl2; [exact IH|exact Hes|]. intros e Hf He. simpl in *.
      eapply Forall_impl; [apply (Forall_wf_fields _
        (λ v, ∀ n, codec (λ w, ser v w) (deserialize_fuel n) (res n v)) He Hf)|]. auto.
  - cbn in Hwf. apply andb_true_iff in Hwf as [Hi Hes].
    apply codec_enumeration_array; [done|by eapply wf_vec_len|..]; apply wf_vec_Forall in Hes.
    + eapply Forall_impl; [exact Hes|]. simpl. intros e He. by split_wf.
    + eapply Forall_impl2; [exact IH|exact Hes|]. simpl. intros e Hc He. split_wf. auto.
  - cbn in Hwf. apply andb_true_iff in Hwf as [Hi Hfs]. split_wf.
    apply codec_key_value; [done|done|by eapply wf_vec_len|..]; apply wf_vec_Forall in Hfs.
    + eapply Forall_impl; [exact Hfs|]. simpl. intros kf He. by split_wf.
    + eapply Forall_impl2; [exact IH|exact Hfs|]. simpl. intros [k [j nm [v|]]] Hc He;
        simpl in *; split_wf; [auto|]. unfold written. simpl.
      destruct n; [apply codec_fail; intros w; eexists; apply put_u8_spec|].
      by apply (codec_scalar Value.Unit).
Qed.

(** *** Buffers *)
Lemma serialize_split v : wf_value v = true →
  ∃ enc, serialize_to_writer v new = new ++ enc ∧
    serialize v = le_bytes 4 (as_u32 (4 + length enc)) ++ enc ∧
    ∀ n, deserialize_fuel n (reader_at (serialize v) 4) =
      if (depth v <=? n)%nat then Ok (canon v, reader_at (serialize v) (length (serialize v)))
      else Err OutOfFuel.
Proof.
  intros Hwf. destruct (codec_serialize v Hwf 0%nat new) as (enc & E & _).
  assert (new = le_bytes 4 0) as Hnew by apply put_u32_le_spec.
  assert (serialize v = le_bytes 4 (as_u32 (4 + length enc)) ++ enc) as Es.
  { unfold serialize, finalize. rewrite E, Hnew, length_app, length_le_bytes.
    by rewrite drop_app_length' by (by rewrite length_le_bytes). }
  exists enc. split; [done|]. split; [done|]. intros n.
  destruct (codec_serialize v Hwf n new) as (enc' & E' & Hr).
  assert (enc' = enc) as -> by (rewrite E in E'; by apply app_inv_head in E').
  unfold reader_at. rewrite Es. rewrite drop_app_length' by (by rewrite length_le_bytes).
  rewrite <- (app_nil_r enc) at 1. rewrite Hr.
  - unfold res. rewrite drop_all. by destruct (_ <=? _)%nat.
  - rewrite Hnew, !length_app, !length_le_bytes. simpl. lia.
Qed.

Lemma deserialize_serialize_gen v : wf_value v = true → deserialize (serialize v) = Ok (canon v).
Proof.
  intros Hwf. destruct (serialize_split v Hwf) as (enc & _ & Es & Hr).
  specialize (Hr (depth v)). rewrite Nat.leb_refl in Hr.
  eapply deserialize_of_fuel; [|exact Hr]. rewrite Es, length_app, length_le_bytes. lia.
Qed.

Lemma length_serialize_prefix v : wf_value v = true → Z.of_nat (length (serialize v)) < 2 ^ 32 →
  prefix_size (serialize v) = Some (length (serialize v)).
Proof.
  intros Hwf Hlen. destruct (serialize_split v Hwf) as (enc & _ & Es & _).
  assert (length (serialize v) = (4 + length enc)%nat) as Hl by by rewrite Es, length_app, length_le_bytes.
  unfold prefix_size, BUFFER_SIZE_SIZE. rewrite Hl, (proj2 (Nat.ltb_ge _ _)) by lia. cbv zeta.
  replace (Z.to_nat (le_Z (take 4 (serialize v)))) with (4 + length enc)%nat.
  - by rewrite !(proj2 (Nat.leb_le _ _)) by lia.
  - rewrite Es, take_app_length' by (by rewrite length_le_bytes). rewrite Hl in Hlen.
    rewrite as_u32_small, le_Z_bytes_small by (change (256 ^ Z.of_nat 4) with (2 ^ 32) in *; lia). lia.
Qed.

(** *** What reads back is written the same *)
Lemma written_read_back (kf : entry) : written (read_back kf) = canon (written kf.2).
Proof. unfold written, read_back. simpl. by destruct (canon _). Qed.

Lemma foldl_fmap_ext {A B W} (f : W → B → W) (g : W → A → W) (h : A → B) l w :
  Forall (λ x, ∀ w, f w (h x) = g w x) l → foldl f w (h <$> l) = foldl g w l.
Proof. intros Hl. revert w. induction Hl as [|x l Hx _ IH]; intros w; simpl; [done|]. by rewrite Hx, IH. Qed.

Lemma write_fields_canon fs w :
  Forall (λ f : StructureField, ∀ w, ser (canon (sf_value f)) w = ser (sf_value f) w) fs →
  write_fields (canon_field <$> fs) w = write_fields fs w.
Proof. intros Hfs. apply foldl_fmap_ext. eapply Forall_impl; [exact Hfs|]. simpl. auto. Qed.

Lemma key_value_canon (kv : KeyValue) w :
  NoDup (kv_fields kv).*1 →
  Forall (λ kf : entry, ∀ w, ser (canon (written kf.2)) w = ser (written kf.2) w) (kv_fields kv) →
  ser (canon (Value.KeyValue kv)) w = ser (Value.KeyValue kv) w.
Proof.
  intros Hd Hfs. pose proof (sort_by_key_Permutation (kv_fields kv)) as Hp.
  set (g (kf : entry) := (kf.1, read_back kf)).
  assert (∀ l : list entry, (g <$> l).*1 = l.*1) as Hk.
  { intros l. rewrite <- list_fmap_compose. by apply list_fmap_ext. }
  rewrite canon_key_value, !ser_key_value by (try done; cbn [kv_fields]; fold g; by rewrite Hk, Hp).
  cbn [kv_id kv_fields]. fold g. rewrite length_fmap, (Permutation_length Hp).
  rewrite (sort_by_key_fmap read_back), (sort_by_key_sorted_id (sort_by_key _));
    [|by rewrite Hp|apply sort_by_key_sorted|by rewrite Hp].
  apply foldl_fmap_ext. rewrite Hp. eapply Forall_impl; [exact Hfs|]. intros kf Hkf x.
  unfold write_entry. cbn [fst snd]. rewrite written_read_back. apply Hkf.
Qed.

Lemma ser_canon v : wf_value v = true → ∀ w, ser (canon v) w = ser v w.
Proof.
  induction v as [v IH] using Value_ind_subs. intros Hwf w.
  destruct v as [| | | | | | | | | | | | |[x|]|[i fs]|e| | | | | | | | | | | |l|vs|i es|i es|kv|];
    try done; cbn [subs_ok] in IH; cbn [wf_value] in Hwf.
  - cbn. by rewrite IH.
  - cbn [st_id st_fields] in *. apply andb_true_iff in Hwf as [_ Hfs].
    pose proof (Forall_wf_fields fs (λ v, ∀ w, ser (canon v) w = ser v w) Hfs IH) as Hc.
    cbn [canon ser st_id st_fields]. rewrite length_fmap. apply (write_fields_canon fs _ Hc).
  - cbn. split_wf. by rewrite IH.
  - cbn [canon ser]. rewrite length_fmap. apply foldl_fmap_ext.
    eapply Forall_impl2; [exact IH|by apply wf_vec_Forall|]. auto.
  - apply andb_true_iff in Hwf as [_ Hes]. apply wf_vec_Forall in Hes.
    cbn [canon ser]. rewrite length_fmap. apply foldl_fmap_ext.
    eapply Forall_impl2; [exact IH|exact Hes|]. intros e Hf He x. simpl in *. rewrite length_fmap.
    apply (write_fields_canon (sw_fields e)). by apply (Forall_wf_fields _ (λ v, ∀ w, ser (canon v) w = ser v w)).
  - apply andb_true_iff in Hwf as [_ Hes]. apply wf_vec_Forall in Hes.
    cbn [canon ser]. rewrite length_fmap. apply foldl_fmap_ext.
    eapply Forall_impl2; [exact IH|exact Hes|]. intros e Hf He x. simpl in *. split_wf. by apply Hf.
  - apply andb_true_iff in Hwf as [Hd Hfs]. split_wf. apply wf_vec_Forall in Hfs.
    apply key_value_canon; [done|].
    eapply Forall_impl2; [exact IH|exact Hfs|]. intros [k [j nm [v|]]] Hf He; simpl in *; split_wf; auto.
Qed.

Lemma well_formed_serialize_iff usize_max v :
  wf_value v = true → Z.of_nat (length (serialize v)) < 2 ^ 32 → 2 ^ 32 - 1 ≤ usize_max →
  well_formed usize_max (serialize v) = Ok tt ↔ (depth v ≤ MAX_DEPTH)%nat.
Proof.
  intros Hwf Hlen Hu. destruct (serialize_split v Hwf) as (_ & _ & _ & Hr).
  rewrite well_formed_iff by lia. rewrite (length_serialize_prefix v) by done. unfold BUFFER_SIZE_SIZE. split.
  - intros (size & x & r & Hsz & H'). apply Some_inj in Hsz as <-. rewrite firstn_all, Hr in H'.
    destruct (Nat.leb_spec (depth v) MAX_DEPTH); [done|discriminate].
  - intros Hd. eexists _, _, _. split; [done|]. rewrite firstn_all, Hr. by rewrite (proj2 (Nat.leb_le _ _)).
Qed.

Lemma value_end_serialize_gen usize_max v :
  wf_value v = true → Z.of_nat (length (serialize v)) ≤ usize_max → (depth v ≤ MAX_DEPTH)%nat →
  value_end usize_max (serialize v) 4 = Ok (length (serialize v)).
Proof.
  intros Hwf Hu Hd. destruct (serialize_split v Hwf) as (enc & _ & Es & Hr).
  specialize (Hr MAX_DEPTH). rewrite (proj2 (Nat.leb_le _ _)) in Hr by done.
  assert (4 ≤ length (serialize v))%nat as H4 by (rewrite Es, length_app, length_le_bytes; lia).
  pose proof (at_same_start usize_max true (length (serialize v)) 4 (serialize v)) as Hs.
  rewrite firstn_all in Hs. specialize (Hs ltac:(lia) ltac:(lia) ltac:(done)).
  pose proof (sim_value usize_max MAX_DEPTH _ _ _ _ Hs) as Hm. rewrite Hr in Hm. unfold value_end.
  destruct (walk_value _ _ _) as [[[] w]|e] eqn:E; [|by specialize (Hm eq_refl)].
  destruct Hm as (x & r & Hxr & _ & [_ Hle Hb _ Hx]). destruct (Hx eq_refl) as [Hwb _].
  assert (r = reader_at (serialize v) (length (serialize v))) as -> by congruence.
  rewrite <- Hwb in Hle. cbn [backing reader_at] in Hb. rewrite drop_all in Hb.
  f_equal. symmetry in Hb. apply (f_equal length) in Hb. rewrite length_drop, length_nil in Hb. lia.
Qed.

(** ** Properties *)

(** C1. The round trip of the value codec: what [serialize] writes, [deserialize]
    reads, for every value of the model's types. What comes back is [canon v]: the
    same value, its maps sorted by key, each of their fields under its key's
    name, and a field holding [Unit] read as holding nothing. *)
Theorem deserialize_serialize v : wf_value v = true → deserialize (serialize v) = Ok (canon v).
Proof. apply deserialize_serialize_gen. Qed.

(** Seen through [PartialEq], the round trip is the identity: a value without
    NaN, whose maps hold each field under its own name and no [Unit], reads back
    equal to itself. *)
Theorem roundtrip_eq v :
  wf_value v = true → normal v = true → nan_free v = true →
  ∃ w, deserialize (serialize v) = Ok w ∧ value_eqb v w = true.
Proof.
  intros Hwf Hn Hf. exists (canon v). split; [by apply deserialize_serialize_gen|].
  by apply value_eqb_canon_gen.
Qed.

(** The encoding is canonical: two values have the same bytes exactly when
    they have the same canonical form. In particular the bytes do not depend on
    the order a [HashMap] iterates in, at any depth. *)
Theorem serialize_canonical v w :
  wf_value v = true → wf_value w = true → serialize v = serialize w ↔ canon v = canon w.
Proof.
  intros Hv Hw. split; intros Heq.
  - pose proof (deserialize_serialize_gen v Hv) as H1. pose proof (deserialize_serialize_gen w Hw) as H2.
    rewrite Heq in H1. congruence.
  - unfold serialize. rewrite <- (ser_canon v Hv), <- (ser_canon w Hw). by rewrite Heq.
Qed.

(** A guest accepts what a host writes: [well_formed] passes a serialized
    value exactly when it nests no deeper than [MAX_DEPTH], and [value_end] then
    finds its end at the end of the buffer. *)
Theorem well_formed_serialize usize_max v :
  wf_value v = true → Z.of_nat (length (serialize v)) < 2 ^ 32 → 2 ^ 32 - 1 ≤ usize_max →
  (well_formed usize_max (serialize v) = Ok tt ↔ (depth v ≤ MAX_DEPTH)%nat) ∧
  ((depth v ≤ MAX_DEPTH)%nat → value_end usize_max (serialize v) BUFFER_SIZE_SIZE = Ok (length (serialize v))).
Proof.
  intros Hwf Hlen Hu. split; [by apply well_formed_serialize_iff|].
  intros Hd. apply value_end_serialize_gen; [done|lia|done].
Qed.
End Facts.

(** ** Witnesses *)
Definition sample_map (swap : bool) : Value :=
  let a := ("a"%string, mkKeyValueField 1 "a" (Some (Value.ArrayU16 [1; 65535]))) in
  let b := ("b"%string, mkKeyValueField 2 "b" None) in
  Value.KeyValue (mkKeyValue 7 (if swap then [b; a] else [a; b])).

Lemma deserialize_serialize_witness : deserialize (serialize (sample_map true)) = Ok (sample_map false).
Proof.
  rewrite deserialize_serialize by (vm_compute; reflexivity). vm_compute. reflexivity.
Defined.

Lemma roundtrip_eq_witness :
  ∃ w, deserialize (serialize (sample_map true)) = Ok w ∧ value_eqb (sample_map true) w = true.
Proof. apply roundtrip_eq; vm_compute; reflexivity. Defined.

Lemma serialize_canonical_witness : serialize (sample_map true) = serialize (sample_map false).
Proof. apply serialize_canonical; vm_compute; reflexivity. Defined.

Lemma well_formed_serialize_witness :
  well_formed (2 ^ 32 - 1) (serialize (sample_map true)) = Ok tt.
Proof. apply well_formed_serialize; vm_compute; try reflexivity; try lia. intros [=]. Defined.
