(* ===== verification/Types.v ===== *)
(** * Types: [crates/arora-types/src/ty/mod.rs], [ty/low.rs] and the [TypeRef] of
    [module/low.rs]

    What a value may be declared to be: references to types, structures and
    enumerations in their declared order, the default value of a type and the
    check of a value against one. *)

From S2P Require Import Prelude Values.

(** ** [TypeRef] *)
Module TypeRef.
Inductive TypeRef :=
| Scalar (id : Uuid)
| Array (id : Uuid)
| FixedArray (id : Uuid) (len : nat)
| Map_ (key_id value_id : Uuid)
| Option (id : Uuid).
End TypeRef.
Abbreviation TypeRef := TypeRef.TypeRef.

Definition ref_type_dependencies (t : TypeRef) : gset Uuid :=
  match t with
  | TypeRef.Scalar id => {[ id ]}
  | TypeRef.Array id => {[ id ]}
  | TypeRef.FixedArray id _ => {[ id ]}
  | TypeRef.Map_ key_id value_id => {[ key_id; value_id ]}
  | TypeRef.Option id => {[ id ]}
  end.

(** ** [IndexMap<Uuid, V>]: the entries in insertion order, the keys distinct *)
Abbreviation IndexMap V := (list (Uuid * V)).
Fixpoint im_get {V} (id : Uuid) (m : IndexMap V) : option V :=
  match m with
  | [] => None
  | (k, v) :: m => if k =? id then Some v else im_get id m
  end.
(** [insert]: an entry there already keeps its place and takes the new value. *)
Fixpoint im_insert {V} (id : Uuid) (v : V) (m : IndexMap V) : IndexMap V :=
  match m with
  | [] => [(id, v)]
  | (k, w) :: m => if k =? id then (k, v) :: m else (k, w) :: im_insert id v m
  end.
(** [FromIterator]. *)
Definition im_collect {V} (entries : list (Uuid * V)) : IndexMap V :=
  foldl (λ m e, im_insert e.1 e.2 m) [] entries.

(** ** The declarations of [ty/low.rs] *)
Module low.
Record StructureField := mkStructureField { sf_name : string; sf_type_ref : TypeRef }.
Record Structure := mkStructure { fields : IndexMap StructureField }.
Record EnumerationValue := mkEnumerationValue { ev_name : string; ev_type_ref : TypeRef }.
Record Enumeration := mkEnumeration { values : IndexMap EnumerationValue }.
Inductive TypeKind :=
| KStructure (s : Structure)
| KEnumeration (e : Enumeration)
| KPrimitive (t : TypeRef).
Record Type_ := mkType { name : string; id : Uuid; description : string; kind : TypeKind }.
End low.

(** [TypeRegistry = HashMap<Uuid, Type>] *)
Definition TypeRegistry : Type := gmap Uuid low.Type_.

(** [Structure::from_fields] *)
Definition from_fields (fs : list (Uuid * low.StructureField)) : low.Structure :=
  low.mkStructure (im_collect fs).

Definition structure_type_dependencies (s : low.Structure) : gset Uuid :=
  ⋃ ((λ e : Uuid * low.StructureField, ref_type_dependencies (low.sf_type_ref e.2)) <$> low.fields s).
Definition enumeration_type_dependencies (e : low.Enumeration) : gset Uuid :=
  ⋃ ((λ e : Uuid * low.EnumerationValue, ref_type_dependencies (low.ev_type_ref e.2)) <$> low.values e).
Definition kind_type_dependencies (k : low.TypeKind) : gset Uuid :=
  match k with
  | low.KStructure s => structure_type_dependencies s
  | low.KEnumeration e => enumeration_type_dependencies e
  | low.KPrimitive _ => ∅
  end.
Definition type_dependencies (t : low.Type_) : gset Uuid := kind_type_dependencies (low.kind t).

(** [PRIMITIVE_IDS], [WELL_KNOWN_IDS] *)
Definition PRIMITIVE_IDS : list Uuid :=
  [UNIT_ID; BOOLEAN_ID; I8_ID; I16_ID; I32_ID; I64_ID; U8_ID; U16_ID; U32_ID; U64_ID;
   F32_ID; F64_ID; STRING_ID].
Definition WELL_KNOWN_IDS : list Uuid :=
  PRIMITIVE_IDS ++
  [OPTION_ID; ARRAY_BOOLEAN_ID; ARRAY_U8_ID; ARRAY_U16_ID; ARRAY_U32_ID; ARRAY_U64_ID;
   ARRAY_I8_ID; ARRAY_I16_ID; ARRAY_I32_ID; ARRAY_I64_ID; ARRAY_F32_ID; ARRAY_F64_ID;
   ARRAY_STRING_ID; ARRAY_VALUE_ID; KEY_VALUE_ID; UUID_ID].
Definition in_ids (id : Uuid) (ids : list Uuid) : bool := existsb (Z.eqb id) ids.

(** ** Defaults *)

(** A chain of [if id == *A_ID { a } else if id == *B_ID { b } ... else { d }]. *)
Fixpoint by_id {A} (id : Uuid) (cases : list (Uuid * A)) (otherwise : A) : A :=
  match cases with
  | [] => otherwise
  | (k, a) :: cases => if id =? k then a else by_id id cases otherwise
  end.

Definition default_value_for_fixed_array (id : Uuid) (len : nat) : Value :=
  by_id id
    [(BOOLEAN_ID, Value.ArrayBoolean (replicate len false));
     (U8_ID, Value.ArrayU8 (replicate len 0)); (U16_ID, Value.ArrayU16 (replicate len 0));
     (U32_ID, Value.ArrayU32 (replicate len 0)); (U64_ID, Value.ArrayU64 (replicate len 0));
     (I8_ID, Value.ArrayI8 (replicate len 0)); (I16_ID, Value.ArrayI16 (replicate len 0));
     (I32_ID, Value.ArrayI32 (replicate len 0)); (I64_ID, Value.ArrayI64 (replicate len 0));
     (F32_ID, Value.ArrayF32 (replicate len 0)); (F64_ID, Value.ArrayF64 (replicate len 0));
     (STRING_ID, Value.ArrayString (replicate len ""%string))]
    (Value.ArrayStructure id []).

Definition default_value_for_scalar_type_id (fresh id : Uuid) : Value :=
  by_id id
    [(UNIT_ID, Value.Unit); (BOOLEAN_ID, Value.Boolean false);
     (I8_ID, Value.I8 0); (I16_ID, Value.I16 0); (I32_ID, Value.I32 0); (I64_ID, Value.I64 0);
     (U8_ID, Value.U8 0); (U16_ID, Value.U16 0); (U32_ID, Value.U32 0); (U64_ID, Value.U64 0);
     (F32_ID, Value.F32 0); (F64_ID, Value.F64 0); (STRING_ID, Value.String ""%string);
     (OPTION_ID, Value.Option None);
     (ARRAY_BOOLEAN_ID, Value.ArrayBoolean []);
     (ARRAY_U8_ID, Value.ArrayU8 []); (ARRAY_U16_ID, Value.ArrayU16 []);
     (ARRAY_U32_ID, Value.ArrayU32 []); (ARRAY_U64_ID, Value.ArrayU64 []);
     (ARRAY_I8_ID, Value.ArrayI8 []); (ARRAY_I16_ID, Value.ArrayI16 []);
     (ARRAY_I32_ID, Value.ArrayI32 []); (ARRAY_I64_ID, Value.ArrayI64 []);
     (ARRAY_F32_ID, Value.ArrayF32 []); (ARRAY_F64_ID, Value.ArrayF64 []);
     (ARRAY_STRING_ID, Value.ArrayString []); (ARRAY_VALUE_ID, Value.ArrayValue []);
     (KEY_VALUE_ID, Value.KeyValue (kv_new_with_id fresh)); (UUID_ID, Value.Uuid 0)]
    (Value.Structure (mkStructure id [])).

Definition default_value_for_array_element_type_id (id : Uuid) : Value :=
  by_id id
    [(BOOLEAN_ID, Value.ArrayBoolean []);
     (U8_ID, Value.ArrayU8 []); (U16_ID, Value.ArrayU16 []);
     (U32_ID, Value.ArrayU32 []); (U64_ID, Value.ArrayU64 []);
     (I8_ID, Value.ArrayI8 []); (I16_ID, Value.ArrayI16 []);
     (I32_ID, Value.ArrayI32 []); (I64_ID, Value.ArrayI64 []);
     (F32_ID, Value.ArrayF32 []); (F64_ID, Value.ArrayF64 []);
     (STRING_ID, Value.ArrayString [])]
    (Value.ArrayStructure id []).

(** [fresh] is the id [gen_bb_uuid] draws, for a default that holds a map. *)
Definition default_value_for_type_ref (fresh : Uuid) (type_ref : TypeRef) : Value :=
  match type_ref with
  | TypeRef.Scalar id => default_value_for_scalar_type_id fresh id
  | TypeRef.Array id => default_value_for_array_element_type_id id
  | TypeRef.FixedArray id len => default_value_for_fixed_array id len
  | TypeRef.Map_ _ _ => Value.KeyValue (kv_new_with_id fresh)
  | TypeRef.Option _ => Value.Option None
  end.

(** The draws are counted: the field at [i] draws [fresh i]. *)
Definition default_value (fresh : nat → Uuid) (ty : low.Type_) : Value :=
  match low.kind ty with
  | low.KPrimitive type_ref => default_value_for_type_ref (fresh O) type_ref
  | low.KStructure structure =>
      Value.Structure (mkStructure (low.id ty)
        (imap (λ i e, mkStructureField e.1
                        (default_value_for_type_ref (fresh i) (low.sf_type_ref e.2)))
              (low.fields structure)))
  | low.KEnumeration enumeration =>
      match low.values enumeration with
      | (variant_id, variant) :: _ =>
          Value.Enumeration (mkEnumeration (low.id ty) variant_id
            (default_value_for_type_ref (fresh O) (low.ev_type_ref variant)))
      | [] => Value.Enumeration (mkEnumeration (low.id ty) 0 Value.Unit)
      end
  end.

(** ** Validation *)

(** [ConversionError]: what its message says. [FieldMissing] is the panic of the
    [expect] in [validate]. *)
Inductive ConversionError :=
| ExpectedStructure
| StructureIdMismatch
| FieldsMismatch
| ExpectedEnumeration
| EnumerationIdMismatch
| UnknownVariant
| ExpectedMap
| ExpectedOptional
| FixedArrayLength (len actual : nat)
| ExpectedFixedArray
| NotTheScalar
| NotTheArray
| FieldMissing.

Definition array_len (value : Value) : option nat :=
  match value with
  | Value.ArrayBoolean v => Some (length v)
  | Value.ArrayU8 v => Some (length v) | Value.ArrayU16 v => Some (length v)
  | Value.ArrayU32 v => Some (length v) | Value.ArrayU64 v => Some (length v)
  | Value.ArrayI8 v => Some (length v) | Value.ArrayI16 v => Some (length v)
  | Value.ArrayI32 v => Some (length v) | Value.ArrayI64 v => Some (length v)
  | Value.ArrayF32 v => Some (length v) | Value.ArrayF64 v => Some (length v)
  | Value.ArrayString v => Some (length v)
  | Value.ArrayValue v => Some (length v)
  | Value.ArrayStructure _ elements => Some (length elements)
  | Value.ArrayEnumeration _ elements => Some (length elements)
  | _ => None
  end.

Definition validate_scalar_type_id (value : Value) (id : Uuid) : result ConversionError unit :=
  let shape k := conforms_to value k in
  let valid := by_id id
    [(UNIT_ID, shape Ty.Unit); (BOOLEAN_ID, shape Ty.Boolean);
     (I8_ID, shape Ty.I8); (I16_ID, shape Ty.I16); (I32_ID, shape Ty.I32); (I64_ID, shape Ty.I64);
     (U8_ID, shape Ty.U8); (U16_ID, shape Ty.U16); (U32_ID, shape Ty.U32); (U64_ID, shape Ty.U64);
     (F32_ID, shape Ty.F32); (F64_ID, shape Ty.F64); (STRING_ID, shape Ty.String);
     (OPTION_ID, shape Ty.Option);
     (ARRAY_BOOLEAN_ID, shape Ty.ArrayBoolean);
     (ARRAY_U8_ID, shape Ty.ArrayU8); (ARRAY_U16_ID, shape Ty.ArrayU16);
     (ARRAY_U32_ID, shape Ty.ArrayU32); (ARRAY_U64_ID, shape Ty.ArrayU64);
     (ARRAY_I8_ID, shape Ty.ArrayI8); (ARRAY_I16_ID, shape Ty.ArrayI16);
     (ARRAY_I32_ID, shape Ty.ArrayI32); (ARRAY_I64_ID, shape Ty.ArrayI64);
     (ARRAY_F32_ID, shape Ty.ArrayF32); (ARRAY_F64_ID, shape Ty.ArrayF64);
     (ARRAY_STRING_ID, shape Ty.ArrayString); (ARRAY_VALUE_ID, shape Ty.ArrayValue);
     (KEY_VALUE_ID, shape Ty.KeyValue); (UUID_ID, shape Ty.Uuid)]
    match value with
    | Value.Structure s => st_id s =? id
    | Value.Enumeration e => en_id e =? id
    | _ => false
    end in
  if valid then Ok tt else Err NotTheScalar.

Definition validate_array_element_type_id (value : Value) (id : Uuid) : result ConversionError unit :=
  let shape k := conforms_to value k in
  let valid := by_id id
    [(BOOLEAN_ID, shape Ty.ArrayBoolean);
     (U8_ID, shape Ty.ArrayU8); (U16_ID, shape Ty.ArrayU16); (U32_ID, shape Ty.ArrayU32); (U64_ID, shape Ty.ArrayU64);
     (I8_ID, shape Ty.ArrayI8); (I16_ID, shape Ty.ArrayI16); (I32_ID, shape Ty.ArrayI32); (I64_ID, shape Ty.ArrayI64);
     (F32_ID, shape Ty.ArrayF32); (F64_ID, shape Ty.ArrayF64); (STRING_ID, shape Ty.ArrayString)]
    match value with
    | Value.ArrayStructure value_id _ => value_id =? id
    | Value.ArrayEnumeration value_id _ => value_id =? id
    | _ => false
    end in
  if valid then Ok tt else Err NotTheArray.

Definition validate_fixed_array (value : Value) (id : Uuid) (len : nat) : result ConversionError unit :=
  match validate_array_element_type_id value id with
  | Err e => Err e
  | Ok _ =>
      match array_len value with
      | Some actual => if (actual =? len)%nat then Ok tt else Err (FixedArrayLength len actual)
      | None => Err ExpectedFixedArray
      end
  end.

Definition validate_type_ref (value : Value) (type_ref : TypeRef) : result ConversionError unit :=
  match type_ref with
  | TypeRef.Scalar id => validate_scalar_type_id value id
  | TypeRef.Array id => validate_array_element_type_id value id
  | TypeRef.FixedArray id len => validate_fixed_array value id len
  | TypeRef.Map_ _ _ => match value with Value.KeyValue _ => Ok tt | _ => Err ExpectedMap end
  | TypeRef.Option id =>
      match value with
      | Value.Option None => Ok tt
      | Value.Option (Some inner) => validate_scalar_type_id inner id
      | _ => Err ExpectedOptional
      end
  end.

(** [for actual_field in &actual.fields { validate_type_ref(..)?; }] *)
Fixpoint validate_fields (fs : list StructureField) (declared : IndexMap low.StructureField)
    : result ConversionError unit :=
  match fs with
  | [] => Ok tt
  | f :: fs =>
      match im_get (sf_id f) declared with
      | None => Err FieldMissing
      | Some expected_field =>
          match validate_type_ref (sf_value f) (low.sf_type_ref expected_field) with
          | Err e => Err e
          | Ok _ => validate_fields fs declared
          end
      end
  end.

Definition validate (value : Value) (ty : low.Type_) : result ConversionError unit :=
  match low.kind ty with
  | low.KPrimitive type_ref => validate_type_ref value type_ref
  | low.KStructure structure =>
      match value with
      | Value.Structure actual =>
          if negb (st_id actual =? low.id ty) then Err StructureIdMismatch else
          let expected_ids : gset Uuid := list_to_set (low.fields structure).*1 in
          let actual_ids : gset Uuid := list_to_set (sf_id <$> st_fields actual) in
          if negb (bool_decide (expected_ids = actual_ids))
             || negb (length (st_fields actual) =? size expected_ids)%nat
          then Err FieldsMismatch
          else validate_fields (st_fields actual) (low.fields structure)
      | _ => Err ExpectedStructure
      end
  | low.KEnumeration enumeration =>
      match value with
      | Value.Enumeration actual =>
          if negb (en_id actual =? low.id ty) then Err EnumerationIdMismatch else
          match im_get (en_variant_id actual) (low.values enumeration) with
          | None => Err UnknownVariant
          | Some expected_variant => validate_type_ref (en_value actual) (low.ev_type_ref expected_variant)
          end
      | _ => Err ExpectedEnumeration
      end
  end.

(** ** The index map *)
Lemma im_get_insert {V} k k' (v : V) m :
  im_get k (im_insert k' v m) = if k' =? k then Some v else im_get k m.
Proof.
  induction m as [|[k1 v1] m IH]; simpl; [done|].
  destruct (Z.eqb_spec k1 k') as [->|]; simpl.
  - by destruct (Z.eqb_spec k' k).
  - destruct (Z.eqb_spec k1 k) as [->|]; [|done].
    by rewrite (proj2 (Z.eqb_neq k' k)) by congruence.
Qed.

Lemma im_insert_elem_of {V} k k' (v : V) m : k ∈ (im_insert k' v m).*1 ↔ k = k' ∨ k ∈ m.*1.
Proof.
  induction m as [|[k1 v1] m IH]; simpl; [set_solver|].
  destruct (Z.eqb_spec k1 k'); simpl; set_solver.
Qed.

Lemma im_insert_NoDup {V} k (v : V) m : NoDup m.*1 → NoDup (im_insert k v m).*1.
Proof.
  induction m as [|[k1 v1] m IH]; simpl; [repeat constructor; set_solver|].
  inversion 1; subst. destruct (Z.eqb_spec k1 k); simpl; constructor; auto.
  rewrite im_insert_elem_of. naive_solver.
Qed.

Lemma im_collect_NoDup {V} (es : list (Uuid * V)) : NoDup (im_collect es).*1.
Proof.
  unfold im_collect. cut (∀ m, NoDup m.*1 → NoDup (foldl (λ m e, im_insert e.1 e.2 m) m es).*1).
  { intros H. apply (H []). constructor. }
  induction es as [|e es IH]; simpl; auto using @im_insert_NoDup.
Qed.

Lemma im_get_elem_of {V} k (v : V) m : NoDup m.*1 → im_get k m = Some v ↔ (k, v) ∈ m.
Proof.
  induction m as [|[k1 v1] m IH]; simpl; [set_solver|]. inversion 1; subst.
  destruct (Z.eqb_spec k1 k) as [->|]; rewrite elem_of_cons; [|rewrite IH; naive_solver].
  split; [naive_solver|]. intros [|Hin]; [naive_solver|].
  contradict Hin. intros Hin. eapply H2, list_elem_of_fmap. by exists (k, v).
Qed.

Lemma im_get_is_Some {V} k (m : IndexMap V) : is_Some (im_get k m) ↔ k ∈ m.*1.
Proof.
  induction m as [|[k1 v1] m IH]; simpl.
  { split; [by intros [? ?]|by intros ?%elem_of_nil]. }
  destruct (Z.eqb_spec k1 k) as [->|]; rewrite elem_of_cons; [naive_solver|].
  rewrite IH. naive_solver.
Qed.

(** ** Identifiers *)
Lemma by_id_cases {A} (P : A → Prop) id cases (otherwise : A) :
  Forall (λ c, id = c.1 → P c.2) cases → (id ∉ cases.*1 → P otherwise) → P (by_id id cases otherwise).
Proof.
  induction cases as [|[k a] cases IH]; simpl; intros Hc Ho.
  { apply Ho, not_elem_of_nil. }
  apply Forall_cons in Hc as [Hk Hc].
  destruct (Z.eqb_spec id k); [auto|]. apply IH; [done|]. intros. apply Ho. set_solver.
Qed.

(** The keys of an [IndexMap] are distinct: an invariant of the library. *)
Definition wf_type (ty : low.Type_) : Prop :=
  match low.kind ty with
  | low.KStructure s => NoDup (low.fields s).*1
  | low.KEnumeration e => NoDup (low.values e).*1
  | low.KPrimitive _ => True
  end.

(** The element types a fixed array has a default for: the others name records. *)
Definition scalar_element (id : Uuid) : bool :=
  in_ids id [BOOLEAN_ID; U8_ID; U16_ID; U32_ID; U64_ID; I8_ID; I16_ID; I32_ID; I64_ID;
             F32_ID; F64_ID; STRING_ID].
Definition defaultable_ref (t : TypeRef) : bool :=
  match t with
  | TypeRef.FixedArray id len => scalar_element id || (len =? 0)%nat
  | _ => true
  end.
Definition defaultable (ty : low.Type_) : bool :=
  match low.kind ty with
  | low.KPrimitive t => defaultable_ref t
  | low.KStructure s => forallb (λ e, defaultable_ref (low.sf_type_ref e.2)) (low.fields s)
  | low.KEnumeration e =>
      match low.values e with [] => false | (_, v) :: _ => defaultable_ref (low.ev_type_ref v) end
  end.

Lemma in_ids_spec id ids : in_ids id ids = true ↔ id ∈ ids.
Proof.
  unfold in_ids. rewrite existsb_exists. setoid_rewrite Z.eqb_eq.
  rewrite list_elem_of_In. naive_solver.
Qed.

(** Each id of the chain is a constant: the chains agree by evaluation, and past
    them the id is none of the constants. *)
Ltac by_ids id :=
  repeat match goal with
  | |- context [id =? ?k] => destruct (Z.eqb_spec id k) as [->|?]; [vm_compute; done|]
  end.

Lemma default_scalar_valid fresh id :
  validate_scalar_type_id (default_value_for_scalar_type_id fresh id) id = Ok tt.
Proof.
  unfold default_value_for_scalar_type_id, validate_scalar_type_id, by_id.
  by_ids id. simpl. by rewrite Z.eqb_refl.
Qed.

Lemma default_array_valid id :
  validate_array_element_type_id (default_value_for_array_element_type_id id) id = Ok tt.
Proof.
  unfold default_value_for_array_element_type_id, validate_array_element_type_id, by_id.
  by_ids id. by rewrite Z.eqb_refl.
Qed.

Lemma default_fixed_valid id len :
  validate_fixed_array (default_value_for_fixed_array id len) id len
  = if scalar_element id || (len =? 0)%nat then Ok tt else Err (FixedArrayLength len 0).
Proof.
  unfold validate_fixed_array, default_value_for_fixed_array, validate_array_element_type_id,
    scalar_element, in_ids, by_id; simpl.
  repeat match goal with
  | |- context [id =? ?k] =>
      destruct (Z.eqb_spec id k) as [->|?]; [simpl; by rewrite length_replicate, Nat.eqb_refl|]
  end. simpl. rewrite Z.eqb_refl. by destruct len.
Qed.

Lemma default_ref_valid fresh t :
  is_ok (validate_type_ref (default_value_for_type_ref fresh t) t) = defaultable_ref t.
Proof.
  destruct t as [id|id|id len| |]; simpl; try done.
  - by rewrite default_scalar_valid.
  - by rewrite default_array_valid.
  - rewrite default_fixed_valid. by destruct (_ || _).
Qed.

(** ** Checking the fields of a structure *)
Lemma is_ok_unit {E} (r : result E unit) : is_ok r = true ↔ r = Ok tt.
Proof. destruct r as [[]|]; naive_solver. Qed.

Lemma validate_fields_spec fs declared :
  validate_fields fs declared = Ok tt ↔
  Forall (λ f, ∃ e, im_get (sf_id f) declared = Some e
                    ∧ validate_type_ref (sf_value f) (low.sf_type_ref e) = Ok tt) fs.
Proof.
  induction fs as [|f fs IH]; simpl; [by split|]. rewrite Forall_cons.
  destruct (im_get _ _) as [e|]; [|split; [done|by intros [(? & ? & _) _]]].
  destruct (validate_type_ref _ _) as [[]|] eqn:Hv; [rewrite IH|]; split.
  - eauto.
  - by intros [_ ?].
  - done.
  - intros [(e' & [= <-] & He) _]. congruence.
Qed.

(** As many distinct ids as declared, and all of them: the ids are a permutation. *)
Lemma fields_match_spec (declared actual : list Uuid) :
  NoDup declared →
  (list_to_set declared : gset Uuid) = list_to_set actual ∧
  length actual = size (list_to_set declared : gset Uuid) ↔ actual ≡ₚ declared.
Proof.
  intros Hnd. rewrite size_list_to_set by done. split.
  - intros [Heq Hlen]. symmetry. apply submseteq_length_Permutation; [|lia].
    apply NoDup_submseteq; [done|]. intros x Hx.
    rewrite <- (elem_of_list_to_set (C := gset Uuid)), <- Heq, elem_of_list_to_set. done.
  - intros Hp. split; [|by rewrite Hp].
    apply set_eq. intros x. by rewrite !elem_of_list_to_set, Hp.
Qed.

Lemma validate_structure_eq actual ty s :
  low.kind ty = low.KStructure s → NoDup (low.fields s).*1 →
  validate (Value.Structure actual) ty =
    if negb (st_id actual =? low.id ty) then Err StructureIdMismatch
    else if bool_decide (sf_id <$> st_fields actual ≡ₚ (low.fields s).*1)
    then validate_fields (st_fields actual) (low.fields s) else Err FieldsMismatch.
Proof.
  intros Hk Hnd. unfold validate. rewrite Hk. destruct (negb (st_id actual =? _)); [done|].
  pose proof (fields_match_spec _ (sf_id <$> st_fields actual) Hnd) as Hspec.
  rewrite length_fmap in Hspec.
  case_bool_decide as Hset; case_bool_decide as Hp; simpl.
  - apply Hspec in Hp as [_ Hlen]. by rewrite Hlen, Nat.eqb_refl.
  - destruct (Nat.eqb_spec (length (st_fields actual))
      (size (list_to_set (low.fields s).*1 : gset Uuid))); naive_solver.
  - naive_solver.
  - done.
Qed.

Lemma validate_type_ref_missing v t : validate_type_ref v t ≠ Err FieldMissing.
Proof.
  assert (∀ v id, validate_scalar_type_id v id ≠ Err FieldMissing) as Hs.
  { intros; unfold validate_scalar_type_id. by destruct (by_id _ _ _). }
  assert (∀ v id, validate_array_element_type_id v id ≠ Err FieldMissing) as Ha.
  { intros; unfold validate_array_element_type_id. by destruct (by_id _ _ _). }
  destruct t as [id|id|id len| |id]; simpl; auto.
  - unfold validate_fixed_array. specialize (Ha v id).
    destruct (validate_array_element_type_id v id); [|congruence].
    destruct (array_len v); [|done]. by destruct (_ =? _)%nat.
  - by destruct v.
  - destruct v; try done. by destruct o.
Qed.

Definition default_field (fresh : Uuid) (e : Uuid * low.StructureField) : StructureField :=
  mkStructureField e.1 (default_value_for_type_ref fresh (low.sf_type_ref e.2)).

Lemma default_fields_ids fs (fresh : nat → Uuid) :
  sf_id <$> imap (λ i, default_field (fresh i)) fs = fs.*1.
Proof.
  revert fresh. induction fs as [|[k f] fs IH]; intros fresh; simpl; [done|].
  f_equal. apply (IH (fresh ∘ S)).
Qed.

Lemma default_fields_valid fs (fresh : nat → Uuid) declared :
  Forall (λ e, im_get e.1 declared = Some e.2) fs →
  is_ok (validate_fields (imap (λ i, default_field (fresh i)) fs) declared)
  = forallb (λ e, defaultable_ref (low.sf_type_ref e.2)) fs.
Proof.
  intros Hfs. revert fresh. induction Hfs as [|[k f] fs He _ IH]; intros fresh; simpl; [done|].
  simpl in He. rewrite He, <- (default_ref_valid (fresh 0%nat)).
  destruct (validate_type_ref _ _); simpl; [|done].
  by rewrite <- (IH (fresh ∘ S)).
Qed.

(** [validate] accepts a structure exactly when it carries the type's id, its
    field ids are those declared, each once and in any order, and each field's
    value is of its declared type; and its [expect] never panics. *)
Theorem validate_structure_spec (ty : low.Type_) (s : low.Structure) (v : Value)
    (Hkind : low.kind ty = low.KStructure s) (Hwf : wf_type ty) :
  (validate v ty = Ok tt ↔
   ∃ actual, v = Value.Structure actual ∧ st_id actual = low.id ty
     ∧ sf_id <$> st_fields actual ≡ₚ (low.fields s).*1
     ∧ Forall (λ f, ∃ e, im_get (sf_id f) (low.fields s) = Some e
                         ∧ validate_type_ref (sf_value f) (low.sf_type_ref e) = Ok tt)
              (st_fields actual))
  ∧ validate v ty ≠ Err FieldMissing.
Proof.
  unfold wf_type in Hwf. rewrite Hkind in Hwf.
  destruct v; try (split; [|by unfold validate; rewrite Hkind]; split;
    [by unfold validate; rewrite Hkind|by intros (? & ? & _)]).
  rewrite (validate_structure_eq s0 ty s Hkind Hwf). split.
  - setoid_rewrite <- validate_fields_spec.
    destruct (Z.eqb_spec (st_id s0) (low.id ty)); simpl; [|naive_solver].
    case_bool_decide; naive_solver.
  - destruct (negb _); [done|]. case_bool_decide as Hp; [|done].
    assert (Forall (λ f, is_Some (im_get (sf_id f) (low.fields s))) (st_fields s0)) as Hin.
    { apply Forall_forall. intros f Hf. apply im_get_is_Some. rewrite <- Hp.
      by apply list_elem_of_fmap_2. }
    clear Hp. induction Hin as [|f fs [e He] _ IH]; simpl; [done|]. rewrite He.
    pose proof (validate_type_ref_missing (sf_value f) (low.sf_type_ref e)).
    destruct (validate_type_ref _ _) as [[]|]; congruence.
Qed.

(** The default of a type validates against it, except where the type, or a
    field or the first variant of it, is a non-empty fixed array of records, and
    for an enumeration without variants. *)
Theorem default_value_validates (fresh : nat → Uuid) (ty : low.Type_) (Hwf : wf_type ty) :
  is_ok (validate (default_value fresh ty) ty) = defaultable ty.
Proof.
  unfold wf_type in Hwf. unfold default_value, defaultable. destruct (low.kind ty) as [s|e|t] eqn:Hk.
  - rewrite (validate_structure_eq _ ty s Hk Hwf); simpl. rewrite Z.eqb_refl; simpl.
    rewrite bool_decide_true; last first.
    { by rewrite <- (default_fields_ids (low.fields s) fresh). }
    apply (default_fields_valid (low.fields s)). apply Forall_forall. intros [k f] Hf.
    by apply im_get_elem_of.
  - unfold validate. rewrite Hk. destruct (low.values e) as [|[variant_id variant] vs] eqn:Hv; simpl.
    + by rewrite Z.eqb_refl.
    + rewrite Z.eqb_refl; simpl. by rewrite Z.eqb_refl, default_ref_valid.
  - unfold validate. rewrite Hk. apply default_ref_valid.
Qed.

(** ** The theorems on a point, its name and its readings *)
Definition point_type : low.Type_ :=
  low.mkType "point" 0x100 "" (low.KStructure (from_fields
    [(0x101, low.mkStructureField "x" (TypeRef.Scalar F64_ID));
     (0x102, low.mkStructureField "label" (TypeRef.Option STRING_ID));
     (0x103, low.mkStructureField "readings" (TypeRef.FixedArray F32_ID 2))])).

Lemma point_type_wf : wf_type point_type.
Proof. apply im_collect_NoDup. Qed.

Lemma validate_structure_spec_witness :
  let v := Value.Structure (mkStructure 0x100
    [mkStructureField 0x103 (Value.ArrayF32 [1; 2]); mkStructureField 0x101 (Value.F64 7);
     mkStructureField 0x102 (Value.Option None)]) in
  validate v point_type = Ok tt ∧ validate v point_type ≠ Err FieldMissing.
Proof.
  intros v. destruct (validate_structure_spec point_type _ v eq_refl point_type_wf) as [Hv Hp].
  split; [|exact Hp]. apply Hv. eexists. split; [reflexivity|]. split; [reflexivity|]. split.
  - apply (bool_decide_unpack _). vm_compute. exact I.
  - repeat constructor; eexists; split; reflexivity.
Defined.

Lemma default_value_validates_witness :
  is_ok (validate (default_value (λ _, 7) point_type) point_type) = true.
Proof. exact (default_value_validates (λ _, 7) point_type point_type_wf). Defined.
