(* ===== verification/Walk.v ===== *)
(** * The type-directed walk: [crates/arora-types/src/value_serde/walk.rs]

    A value is written to, and read from, a wire format against a type known at
    run time. The format is a pair of classes, [ValueWriter] and [ValueReader];
    the walk drives their operations. [WireLaws] is what a format promises, and
    the walk's theorems hold of every format that keeps it.

    The ten numeric operations of the traits ([write_u8] .. [write_f64], and as
    many for arrays and fixed arrays) are one operation indexed by [Num]. *)

From S2P Require Import Prelude Values Types.

(** ** The numeric types *)
Inductive Num := NU8 | NU16 | NU32 | NU64 | NI8 | NI16 | NI32 | NI64 | NF32 | NF64.
#[export] Instance Num_eq_dec : EqDecision Num.
Proof. solve_decision. Defined.

Definition num_id (t : Num) : Uuid :=
  match t with
  | NU8 => U8_ID | NU16 => U16_ID | NU32 => U32_ID | NU64 => U64_ID
  | NI8 => I8_ID | NI16 => I16_ID | NI32 => I32_ID | NI64 => I64_ID
  | NF32 => F32_ID | NF64 => F64_ID
  end.
Definition num_kind (t : Num) : Ty.Type_ :=
  match t with
  | NU8 => Ty.U8 | NU16 => Ty.U16 | NU32 => Ty.U32 | NU64 => Ty.U64
  | NI8 => Ty.I8 | NI16 => Ty.I16 | NI32 => Ty.I32 | NI64 => Ty.I64
  | NF32 => Ty.F32 | NF64 => Ty.F64
  end.
Definition num_array_kind (t : Num) : Ty.Type_ :=
  match t with
  | NU8 => Ty.ArrayU8 | NU16 => Ty.ArrayU16 | NU32 => Ty.ArrayU32 | NU64 => Ty.ArrayU64
  | NI8 => Ty.ArrayI8 | NI16 => Ty.ArrayI16 | NI32 => Ty.ArrayI32 | NI64 => Ty.ArrayI64
  | NF32 => Ty.ArrayF32 | NF64 => Ty.ArrayF64
  end.
Definition num_value (t : Num) (n : Z) : Value :=
  match t with
  | NU8 => Value.U8 n | NU16 => Value.U16 n | NU32 => Value.U32 n | NU64 => Value.U64 n
  | NI8 => Value.I8 n | NI16 => Value.I16 n | NI32 => Value.I32 n | NI64 => Value.I64 n
  | NF32 => Value.F32 n | NF64 => Value.F64 n
  end.
Definition num_array (t : Num) (v : list Z) : Value :=
  match t with
  | NU8 => Value.ArrayU8 v | NU16 => Value.ArrayU16 v | NU32 => Value.ArrayU32 v | NU64 => Value.ArrayU64 v
  | NI8 => Value.ArrayI8 v | NI16 => Value.ArrayI16 v | NI32 => Value.ArrayI32 v | NI64 => Value.ArrayI64 v
  | NF32 => Value.ArrayF32 v | NF64 => Value.ArrayF64 v
  end.
(** The range of the Rust type. *)
Definition in_num (t : Num) (n : Z) : bool :=
  match t with
  | NU8 => in_u 8 n | NU16 => in_u 16 n | NU32 => in_u 32 n | NU64 => in_u 64 n
  | NI8 => in_i 8 n | NI16 => in_i 16 n | NI32 => in_i 32 n | NI64 => in_i 64 n
  | NF32 => in_u 32 n | NF64 => in_u 64 n
  end.

(** What a [value_serde::Error] of the walk says. *)
Inductive WalkError :=
| EnumerationsUnsupported
| UuidsUnsupported
| MapsUnsupported
| ExpectedAStructure (got : Value)
| StructureIdIs (actual id : Uuid)
| FieldCountIs (actual declared : nat)
| FieldIdIs (actual declared : Uuid)
| NotInTheRegistry (id : Uuid)
| ElementNotAStructure (id : Uuid)
| ExpectedStructures (got : Value)
| ElementIdIs (actual id : Uuid)
| FixedLengthIs (len actual : nat)
| NotAnElement (id : Uuid)
| NotAPrimitive (id : Uuid)
| Expected (shape : Ty.Type_) (got : Value).

(** ** Formats

    An operation may fail with the format's own error [E]; [w_error] and
    [r_error] make one of the walk's ([Error::new]). *)
Class ValueWriter (W E : Type) := {
  w_error : WalkError → E;
  write_unit : SE W E unit;
  write_bool : bool → SE W E unit;
  write_num : Num → Z → SE W E unit;
  write_string : string → SE W E unit;
  begin_struct : Uuid → nat → SE W E unit;
  begin_field : Uuid → SE W E unit;
  begin_option : bool → SE W E unit;
  write_bool_array : list bool → SE W E unit;
  write_num_array : Num → list Z → SE W E unit;
  write_string_array : list string → SE W E unit;
  begin_struct_array : Uuid → nat → SE W E unit;
  begin_struct_element : nat → SE W E unit;
  write_bool_fixed_array : list bool → SE W E unit;
  write_num_fixed_array : Num → list Z → SE W E unit;
  write_string_fixed_array : list string → SE W E unit;
  begin_fixed_struct_array : Uuid → nat → SE W E unit;
}.

Class ValueReader (R E : Type) := {
  r_error : WalkError → E;
  read_unit : SE R E unit;
  read_bool : SE R E bool;
  read_num : Num → SE R E Z;
  read_string : SE R E string;
  enter_struct : Uuid → nat → SE R E unit;
  enter_field : Uuid → SE R E unit;
  enter_option : SE R E bool;
  read_bool_array : SE R E (list bool);
  read_num_array : Num → SE R E (list Z);
  read_string_array : SE R E (list string);
  enter_struct_array : Uuid → SE R E nat;
  enter_struct_element : nat → SE R E unit;
  read_bool_fixed_array : nat → SE R E (list bool);
  read_num_fixed_array : Num → nat → SE R E (list Z);
  read_string_fixed_array : nat → SE R E (list string);
  enter_fixed_struct_array : Uuid → nat → SE R E unit;
}.

(** The traits' defaults for fixed arrays: the writers and readers of variable
    ones, and for structures a check of the count. *)
Definition default_read_fixed {R E A} (read_array : SE R E A) (len : nat) : SE R E A := read_array.
Definition default_enter_fixed_struct_array {R E} (error : WalkError → E)
    (enter_struct_array : Uuid → SE R E nat) (element_id : Uuid) (len : nat) : SE R E unit :=
  let* n := enter_struct_array element_id in
  if (n =? len)%nat then se_ret tt else se_fail (error (FixedLengthIs len n)).

(** [for item in v { f(item)?; }] *)
Fixpoint se_for {S E A} (f : A → SE S E unit) (v : list A) : SE S E unit :=
  match v with [] => se_ret tt | x :: v => f x ;; se_for f v end.

(** ** The walk

    [Err None] is a walk that has not ended: the recursion's fuel ran out. An
    error of the code is [Err (Some e)]. *)
Definition op {S E A} (m : SE S E A) : SE S (option E) A := λ s,
  match m s with Ok r => Ok r | Err e => Err (Some e) end.

Section Write.
Context {W E : Type} `{VW : !ValueWriter W E}.
Abbreviation M := (SE W (option E) unit).

Definition w_fail (e : WalkError) : M := se_fail (Some (w_error e)).

Definition write_bool_of (value : Value) : M :=
  match value with Value.Boolean b => op (write_bool b) | other => w_fail (Expected Ty.Boolean other) end.
Definition write_string_of (value : Value) : M :=
  match value with Value.String s => op (write_string s) | other => w_fail (Expected Ty.String other) end.
Definition as_num (t : Num) (value : Value) : option Z :=
  match t, value with
  | NU8, Value.U8 n | NU16, Value.U16 n | NU32, Value.U32 n | NU64, Value.U64 n
  | NI8, Value.I8 n | NI16, Value.I16 n | NI32, Value.I32 n | NI64, Value.I64 n
  | NF32, Value.F32 n | NF64, Value.F64 n => Some n
  | _, _ => None
  end.
Definition write_num_of (t : Num) (value : Value) : M :=
  match as_num t value with
  | Some n => op (write_num t n)
  | None => w_fail (Expected (num_kind t) value)
  end.

Definition write_scalar (id : Uuid) (value : Value) : M :=
  by_id id
    [(UNIT_ID, match value with Value.Unit => op write_unit | other => w_fail (Expected Ty.Unit other) end);
     (BOOLEAN_ID, write_bool_of value);
     (U8_ID, write_num_of NU8 value); (U16_ID, write_num_of NU16 value);
     (U32_ID, write_num_of NU32 value); (U64_ID, write_num_of NU64 value);
     (I8_ID, write_num_of NI8 value); (I16_ID, write_num_of NI16 value);
     (I32_ID, write_num_of NI32 value); (I64_ID, write_num_of NI64 value);
     (F32_ID, write_num_of NF32 value); (F64_ID, write_num_of NF64 value);
     (STRING_ID, write_string_of value)]
    (w_fail (NotAPrimitive id)).

Definition as_num_array (t : Num) (value : Value) : option (list Z) :=
  match t, value with
  | NU8, Value.ArrayU8 v | NU16, Value.ArrayU16 v | NU32, Value.ArrayU32 v | NU64, Value.ArrayU64 v
  | NI8, Value.ArrayI8 v | NI16, Value.ArrayI16 v | NI32, Value.ArrayI32 v | NI64, Value.ArrayI64 v
  | NF32, Value.ArrayF32 v | NF64, Value.ArrayF64 v => Some v
  | _, _ => None
  end.

(** [write_array_of!] *)
Definition write_num_array_of (t : Num) (value : Value) : M :=
  match as_num_array t value with
  | Some items => op (write_num_array t items)
  | None => w_fail (Expected (num_array_kind t) value)
  end.
Definition write_scalar_array (element_id : Uuid) (value : Value) : M :=
  by_id element_id
    [(BOOLEAN_ID, match value with
       | Value.ArrayBoolean items => op (write_bool_array items)
       | other => w_fail (Expected Ty.ArrayBoolean other) end);
     (U8_ID, write_num_array_of NU8 value); (U16_ID, write_num_array_of NU16 value);
     (U32_ID, write_num_array_of NU32 value); (U64_ID, write_num_array_of NU64 value);
     (I8_ID, write_num_array_of NI8 value); (I16_ID, write_num_array_of NI16 value);
     (I32_ID, write_num_array_of NI32 value); (I64_ID, write_num_array_of NI64 value);
     (F32_ID, write_num_array_of NF32 value); (F64_ID, write_num_array_of NF64 value);
     (STRING_ID, match value with
       | Value.ArrayString items => op (write_string_array items)
       | other => w_fail (Expected Ty.ArrayString other) end)]
    (w_fail (NotAnElement element_id)).

(** [write_fixed_of!] *)
Definition check_len {A} (len : nat) (items : list A) (k : list A → M) : M :=
  if negb (length items =? len)%nat then w_fail (FixedLengthIs len (length items)) else k items.
Definition write_num_fixed_of (t : Num) (len : nat) (value : Value) : M :=
  match as_num_array t value with
  | Some items => check_len len items (λ items, op (write_num_fixed_array t items))
  | None => w_fail (Expected (num_array_kind t) value)
  end.
Definition write_fixed_scalar_array (element_id : Uuid) (len : nat) (value : Value) : M :=
  by_id element_id
    [(BOOLEAN_ID, match value with
       | Value.ArrayBoolean items => check_len len items (λ items, op (write_bool_fixed_array items))
       | other => w_fail (Expected Ty.ArrayBoolean other) end);
     (U8_ID, write_num_fixed_of NU8 len value); (U16_ID, write_num_fixed_of NU16 len value);
     (U32_ID, write_num_fixed_of NU32 len value); (U64_ID, write_num_fixed_of NU64 len value);
     (I8_ID, write_num_fixed_of NI8 len value); (I16_ID, write_num_fixed_of NI16 len value);
     (I32_ID, write_num_fixed_of NI32 len value); (I64_ID, write_num_fixed_of NI64 len value);
     (F32_ID, write_num_fixed_of NF32 len value); (F64_ID, write_num_fixed_of NF64 len value);
     (STRING_ID, match value with
       | Value.ArrayString items => check_len len items (λ items, op (write_string_fixed_array items))
       | other => w_fail (Expected Ty.ArrayString other) end)]
    (w_fail (NotAnElement element_id)).

Definition check_field_count (structure : low.Structure) (fields : list StructureField) : M :=
  if negb (length fields =? length (low.fields structure))%nat
  then w_fail (FieldCountIs (length fields) (length (low.fields structure))) else se_ret tt.

(** The recursion is through the references a field, an element or an alias
    names: [by_ref] is [write_by_ref] for those. *)
Section Open.
Variable registry : TypeRegistry.
Variable by_ref : TypeRef → Value → M.

(** [for ((id, field), actual) in declared.iter().zip(fields)] *)
Fixpoint write_fields (declared : IndexMap low.StructureField) (fields : list StructureField) : M :=
  match declared, fields with
  | (field_id, field) :: declared, actual_field :: fields =>
      if negb (sf_id actual_field =? field_id) then w_fail (FieldIdIs (sf_id actual_field) field_id) else
      op (begin_field field_id) ;;
      by_ref (low.sf_type_ref field) (sf_value actual_field) ;;
      write_fields declared fields
  | _, _ => se_ret tt
  end.

Definition write_structure_fields (id : Uuid) (structure : low.Structure)
    (fields : list StructureField) : M :=
  check_field_count structure fields ;;
  op (begin_struct id (length (low.fields structure))) ;;
  write_fields (low.fields structure) fields.

Definition write_structure (id : Uuid) (structure : low.Structure) (value : Value) : M :=
  match value with
  | Value.Structure actual =>
      if negb (st_id actual =? id) then w_fail (StructureIdIs (st_id actual) id)
      else write_structure_fields id structure (st_fields actual)
  | other => w_fail (ExpectedAStructure other)
  end.

Definition write_value_with (ty : low.Type_) (value : Value) : M :=
  match low.kind ty with
  | low.KPrimitive type_ref => by_ref type_ref value
  | low.KStructure structure => write_structure (low.id ty) structure value
  | low.KEnumeration _ => w_fail EnumerationsUnsupported
  end.

Fixpoint write_elements (structure : low.Structure) (elements : list StructureWithoutId) : M :=
  match elements with
  | [] => se_ret tt
  | element :: elements =>
      check_field_count structure (sw_fields element) ;;
      op (begin_struct_element (length (low.fields structure))) ;;
      write_fields (low.fields structure) (sw_fields element) ;;
      write_elements structure elements
  end.

Definition write_array (element_id : Uuid) (value : Value) : M :=
  match registry !! element_id with
  | Some element_ty =>
      match low.kind element_ty with
      | low.KStructure structure =>
          match value with
          | Value.ArrayStructure id elements =>
              if negb (id =? element_id) then w_fail (ElementIdIs id element_id) else
              op (begin_struct_array element_id (length elements)) ;;
              write_elements structure elements
          | other => w_fail (ExpectedStructures other)
          end
      | _ => w_fail (ElementNotAStructure element_id)
      end
  | None => write_scalar_array element_id value
  end.

Definition write_fixed_array (element_id : Uuid) (len : nat) (value : Value) : M :=
  match registry !! element_id with
  | Some element_ty =>
      match low.kind element_ty with
      | low.KStructure structure =>
          match value with
          | Value.ArrayStructure id elements =>
              if negb (id =? element_id) then w_fail (ElementIdIs id element_id) else
              if negb (length elements =? len)%nat then w_fail (FixedLengthIs len (length elements)) else
              op (begin_fixed_struct_array element_id len) ;;
              write_elements structure elements
          | other => w_fail (ExpectedStructures other)
          end
      | _ => w_fail (ElementNotAStructure element_id)
      end
  | None => write_fixed_scalar_array element_id len value
  end.
End Open.

Fixpoint write_by_ref (fuel : nat) (registry : TypeRegistry) (type_ref : TypeRef) (value : Value) : M :=
  match fuel with
  | O => se_fail None
  | Datatypes.S fuel =>
      let by_ref := write_by_ref fuel registry in
      match type_ref with
      | TypeRef.Scalar id =>
          if id =? UUID_ID then w_fail UuidsUnsupported
          else if in_ids id PRIMITIVE_IDS then write_scalar id value
          else match registry !! id with
               | None => w_fail (NotInTheRegistry id)
               | Some nested => write_value_with by_ref nested value
               end
      | TypeRef.Array id => write_array registry by_ref id value
      | TypeRef.FixedArray id len => write_fixed_array registry by_ref id len value
      | TypeRef.Map_ _ _ => w_fail MapsUnsupported
      | TypeRef.Option id =>
          match value with
          | Value.Option None => op (begin_option false)
          | Value.Option (Some inner) => op (begin_option true) ;; by_ref (TypeRef.Scalar id) inner
          | bare => op (begin_option true) ;; by_ref (TypeRef.Scalar id) bare
          end
      end
  end.

Definition write_value (fuel : nat) (ty : low.Type_) (registry : TypeRegistry) (value : Value) : M :=
  write_value_with (write_by_ref fuel registry) ty value.
End Write.

Section Read.
Context {R E : Type} `{VR : !ValueReader R E}.
Abbreviation M A := (SE R (option E) A).

Definition r_fail {A} (e : WalkError) : M A := se_fail (Some (r_error e)).

Definition read_num_as (t : Num) : M Value := let* n := op (read_num t) in se_ret (num_value t n).
Definition read_scalar (id : Uuid) : M Value :=
  by_id id
    [(UNIT_ID, op read_unit ;; se_ret Value.Unit);
     (BOOLEAN_ID, let* b := op read_bool in se_ret (Value.Boolean b));
     (U8_ID, read_num_as NU8); (U16_ID, read_num_as NU16); (U32_ID, read_num_as NU32);
     (U64_ID, read_num_as NU64);
     (I8_ID, read_num_as NI8); (I16_ID, read_num_as NI16); (I32_ID, read_num_as NI32);
     (I64_ID, read_num_as NI64);
     (F32_ID, read_num_as NF32); (F64_ID, read_num_as NF64);
     (STRING_ID, let* s := op read_string in se_ret (Value.String s))]
    (r_fail (NotAPrimitive id)).

Definition read_num_array_as (t : Num) : M Value :=
  let* v := op (read_num_array t) in se_ret (num_array t v).
Definition read_scalar_array (element_id : Uuid) : M Value :=
  by_id element_id
    [(BOOLEAN_ID, let* v := op read_bool_array in se_ret (Value.ArrayBoolean v));
     (U8_ID, read_num_array_as NU8); (U16_ID, read_num_array_as NU16);
     (U32_ID, read_num_array_as NU32); (U64_ID, read_num_array_as NU64);
     (I8_ID, read_num_array_as NI8); (I16_ID, read_num_array_as NI16);
     (I32_ID, read_num_array_as NI32); (I64_ID, read_num_array_as NI64);
     (F32_ID, read_num_array_as NF32); (F64_ID, read_num_array_as NF64);
     (STRING_ID, let* v := op read_string_array in se_ret (Value.ArrayString v))]
    (r_fail (NotAnElement element_id)).

Definition read_num_fixed_as (t : Num) (len : nat) : M Value :=
  let* v := op (read_num_fixed_array t len) in se_ret (num_array t v).
Definition read_fixed_scalar_array (element_id : Uuid) (len : nat) : M Value :=
  by_id element_id
    [(BOOLEAN_ID, let* v := op (read_bool_fixed_array len) in se_ret (Value.ArrayBoolean v));
     (U8_ID, read_num_fixed_as NU8 len); (U16_ID, read_num_fixed_as NU16 len);
     (U32_ID, read_num_fixed_as NU32 len); (U64_ID, read_num_fixed_as NU64 len);
     (I8_ID, read_num_fixed_as NI8 len); (I16_ID, read_num_fixed_as NI16 len);
     (I32_ID, read_num_fixed_as NI32 len); (I64_ID, read_num_fixed_as NI64 len);
     (F32_ID, read_num_fixed_as NF32 len); (F64_ID, read_num_fixed_as NF64 len);
     (STRING_ID, let* v := op (read_string_fixed_array len) in se_ret (Value.ArrayString v))]
    (r_fail (NotAnElement element_id)).

Section Open.
Variable registry : TypeRegistry.
Variable by_ref : TypeRef → M Value.

Fixpoint read_fields (declared : IndexMap low.StructureField) : M (list StructureField) :=
  match declared with
  | [] => se_ret []
  | (field_id, field) :: declared =>
      op (enter_field field_id) ;;
      let* value := by_ref (low.sf_type_ref field) in
      let* fields := read_fields declared in
      se_ret (mkStructureField field_id value :: fields)
  end.

Definition read_structure_fields (id : Uuid) (structure : low.Structure) : M (list StructureField) :=
  op (enter_struct id (length (low.fields structure))) ;; read_fields (low.fields structure).

Definition read_structure (id : Uuid) (structure : low.Structure) : M Value :=
  let* fields := read_structure_fields id structure in se_ret (Value.Structure (mkStructure id fields)).

Definition read_value_with (ty : low.Type_) : M Value :=
  match low.kind ty with
  | low.KPrimitive type_ref => by_ref type_ref
  | low.KStructure structure => read_structure (low.id ty) structure
  | low.KEnumeration _ => r_fail EnumerationsUnsupported
  end.

Definition read_element (structure : low.Structure) : M StructureWithoutId :=
  op (enter_struct_element (length (low.fields structure))) ;;
  let* fields := read_fields (low.fields structure) in
  se_ret (mkStructureWithoutId fields).

Definition read_array (element_id : Uuid) : M Value :=
  match registry !! element_id with
  | Some element_ty =>
      match low.kind element_ty with
      | low.KStructure structure =>
          let* len := op (enter_struct_array element_id) in
          let* elements := se_repeat len (read_element structure) in
          se_ret (Value.ArrayStructure element_id elements)
      | _ => r_fail (ElementNotAStructure element_id)
      end
  | None => read_scalar_array element_id
  end.

Definition read_fixed_array (element_id : Uuid) (len : nat) : M Value :=
  match registry !! element_id with
  | Some element_ty =>
      match low.kind element_ty with
      | low.KStructure structure =>
          op (enter_fixed_struct_array element_id len) ;;
          let* elements := se_repeat len (read_element structure) in
          se_ret (Value.ArrayStructure element_id elements)
      | _ => r_fail (ElementNotAStructure element_id)
      end
  | None => read_fixed_scalar_array element_id len
  end.
End Open.

Fixpoint read_by_ref (fuel : nat) (registry : TypeRegistry) (type_ref : TypeRef) : M Value :=
  match fuel with
  | O => se_fail None
  | Datatypes.S fuel =>
      let by_ref := read_by_ref fuel registry in
      match type_ref with
      | TypeRef.Scalar id =>
          if id =? UUID_ID then r_fail UuidsUnsupported
          else if in_ids id PRIMITIVE_IDS then read_scalar id
          else match registry !! id with
               | None => r_fail (NotInTheRegistry id)
               | Some nested => read_value_with by_ref nested
               end
      | TypeRef.Array id => read_array registry by_ref id
      | TypeRef.FixedArray id len => read_fixed_array registry by_ref id len
      | TypeRef.Map_ _ _ => r_fail MapsUnsupported
      | TypeRef.Option id =>
          let* present := op enter_option in
          if present
          then let* inner := by_ref (TypeRef.Scalar id) in se_ret (Value.Option (Some inner))
          else se_ret (Value.Option None)
      end
  end.

Definition read_value (fuel : nat) (ty : low.Type_) (registry : TypeRegistry) : M Value :=
  read_value_with (read_by_ref fuel registry) ty.
End Read.

(** ** What a format promises

    A reader [r] tracks a writer [w] inside a longer one [F] when it has read
    what [w] wrote of [F]. What an operation writes, its counterpart reads back. *)
Definition carries {W R E E' A} (extends : W → W → Prop) (tracks : W → W → R → Prop)
    (put : SE W E unit) (get : SE R E' A) (a : A) : Prop :=
  ∀ w w', put w = Ok (tt, w') →
    extends w w' ∧ ∀ F r, extends w' F → tracks F w r → ∃ r', get r = Ok (a, r') ∧ tracks F w' r'.

Class WireLaws (W R E E' : Type) `{!ValueWriter W E} `{!ValueReader R E'} := {
  extends : W → W → Prop;
  tracks : W → W → R → Prop;
  (** The strings the format can hold. *)
  wire_string : string → bool;
  extends_preorder :: PreOrder extends;
  law_unit : carries extends tracks write_unit read_unit tt;
  law_bool b : carries extends tracks (write_bool b) read_bool b;
  law_num t n : in_num t n = true → carries extends tracks (write_num t n) (read_num t) n;
  law_string s : wf_string s = true → wire_string s = true →
    carries extends tracks (write_string s) read_string s;
  law_struct id n : wf_uuid id = true → Z.of_nat n < 2 ^ 32 →
    carries extends tracks (begin_struct id n) (enter_struct id n) tt;
  law_field id : wf_uuid id = true → carries extends tracks (begin_field id) (enter_field id) tt;
  law_option b : carries extends tracks (begin_option b) enter_option b;
  law_bool_array v : wf_len v = true → carries extends tracks (write_bool_array v) read_bool_array v;
  law_num_array t v : wf_vec (in_num t) v = true →
    carries extends tracks (write_num_array t v) (read_num_array t) v;
  law_string_array v : wf_vec (λ s, wf_string s && wire_string s) v = true →
    carries extends tracks (write_string_array v) read_string_array v;
  law_struct_array id n : wf_uuid id = true → Z.of_nat n < 2 ^ 32 →
    carries extends tracks (begin_struct_array id n) (enter_struct_array id) n;
  law_struct_element n : Z.of_nat n < 2 ^ 32 →
    carries extends tracks (begin_struct_element n) (enter_struct_element n) tt;
  law_bool_fixed v : wf_len v = true →
    carries extends tracks (write_bool_fixed_array v) (read_bool_fixed_array (length v)) v;
  law_num_fixed t v : wf_vec (in_num t) v = true →
    carries extends tracks (write_num_fixed_array t v) (read_num_fixed_array t (length v)) v;
  law_string_fixed v : wf_vec (λ s, wf_string s && wire_string s) v = true →
    carries extends tracks (write_string_fixed_array v) (read_string_fixed_array (length v)) v;
  law_fixed_struct_array id n : wf_uuid id = true → Z.of_nat n < 2 ^ 32 →
    carries extends tracks (begin_fixed_struct_array id n) (enter_fixed_struct_array id n) tt;
}.

(** ** What is read back: the value, its bare optionals made present

    A bare element of an option is written as a present one; it is read as one. *)
Section Frame.
Variable registry : TypeRegistry.
Variable frame_ref : TypeRef → Value → Value.

Definition frame_field (e : Uuid * low.StructureField) (f : StructureField) : StructureField :=
  mkStructureField (sf_id f) (frame_ref (low.sf_type_ref e.2) (sf_value f)).
Definition frame_fields (declared : IndexMap low.StructureField) (fields : list StructureField)
    : list StructureField := zip_with frame_field declared fields.
Definition frame_value_with (ty : low.Type_) (v : Value) : Value :=
  match low.kind ty, v with
  | low.KPrimitive t, v => frame_ref t v
  | low.KStructure s, Value.Structure a =>
      Value.Structure (mkStructure (st_id a) (frame_fields (low.fields s) (st_fields a)))
  | _, v => v
  end.
Definition frame_elements (id : Uuid) (v : Value) : Value :=
  match registry !! id, v with
  | Some ty, Value.ArrayStructure i els =>
      match low.kind ty with
      | low.KStructure s => Value.ArrayStructure i
          ((λ el, mkStructureWithoutId (frame_fields (low.fields s) (sw_fields el))) <$> els)
      | _ => v
      end
  | _, v => v
  end.
End Frame.

Fixpoint frame_by_ref (fuel : nat) (registry : TypeRegistry) (t : TypeRef) (v : Value) : Value :=
  match fuel with
  | O => v
  | Datatypes.S fuel =>
      let frame_ref := frame_by_ref fuel registry in
      match t with
      | TypeRef.Scalar id =>
          if in_ids id PRIMITIVE_IDS then v else
          match registry !! id with Some ty => frame_value_with frame_ref ty v | None => v end
      | TypeRef.Array id | TypeRef.FixedArray id _ => frame_elements registry frame_ref id v
      | TypeRef.Map_ _ _ => v
      | TypeRef.Option id =>
          match v with
          | Value.Option None => v
          | Value.Option (Some inner) => Value.Option (Some (frame_ref (TypeRef.Scalar id) inner))
          | bare => Value.Option (Some (frame_ref (TypeRef.Scalar id) bare))
          end
      end
  end.
Definition frame_value (fuel : nat) (registry : TypeRegistry) (ty : low.Type_) (v : Value) : Value :=
  frame_value_with (frame_by_ref fuel registry) ty v.

(** The strings of a value that the walk writes. *)
Section Strings.
Variable p : string → bool.
Fixpoint strings_all (v : Value) : bool :=
  let all_fields := forallb (λ f : StructureField, strings_all (sf_value f)) in
  match v with
  | Value.String s => p s
  | Value.ArrayString v => forallb p v
  | Value.Option (Some v) => strings_all v
  | Value.Structure s => all_fields (st_fields s)
  | Value.ArrayStructure _ els => forallb (λ el, all_fields (sw_fields el)) els
  | _ => true
  end.
End Strings.

(** ** Composing what a format carries *)
Section Compose.
Context {W R E E' : Type} {ext : W → W → Prop} {tr : W → W → R → Prop} `{!PreOrder ext}.
Abbreviation C := (carries ext tr).

Lemma carries_op {A} (put : SE W E unit) (get : SE R E' A) a :
  C put get a → C (op put) (op get) a.
Proof.
  intros H w w'. unfold op. destruct (put w) as [[[] w1]|] eqn:Hp; [|done]. intros [= ->].
  destruct (H _ _ Hp) as [He Hr]. split; [done|]. intros F r HF Ht.
  destruct (Hr F r HF Ht) as (r' & -> & ?). eauto.
Qed.

Lemma carries_bind {E1 E2 A B} (p1 p2 : SE W E1 unit) (g1 : SE R E2 A) (g2 : A → SE R E2 B) a b :
  C p1 g1 a → C p2 (g2 a) b → C (p1 ;; p2) (let* x := g1 in g2 x) b.
Proof.
  intros H1 H2 w w'. unfold se_bind. destruct (p1 w) as [[[] w1]|] eqn:Hp1; [|done]. intros Hp2.
  destruct (H1 _ _ Hp1) as [He1 Hr1], (H2 _ _ Hp2) as [He2 Hr2].
  split; [by transitivity w1|]. intros F r HF Ht.
  destruct (Hr1 F r) as (r1 & -> & Ht1); [by transitivity w'|done|]. by apply Hr2.
Qed.

Lemma carries_ret {E1 E2 A} (a : A) : C (se_ret tt : SE W E1 unit) (se_ret a : SE R E2 A) a.
Proof. intros w w' [= <-]. split; [done|]. intros F r _ Ht. by exists r. Qed.

Lemma carries_map {E1 E2 A B} (put : SE W E1 unit) (get : SE R E2 A) (f : A → B) a :
  C put get a → C put (let* x := get in se_ret (f x)) (f a).
Proof.
  intros H w w' Hp. destruct (H _ _ Hp) as [He Hr]. split; [done|]. intros F r HF Ht.
  unfold se_bind, se_ret. destruct (Hr F r HF Ht) as (r' & -> & ?). eauto.
Qed.

Lemma carries_fail {E1 E2 A} (e : E1) (get : SE R E2 A) a : C (se_fail e) get a.
Proof. intros w w' [=]. Qed.

Lemma carries_ext {E1 E2 A} (p p' : SE W E1 unit) (g g' : SE R E2 A) a :
  (∀ w, p w = p' w) → (∀ r, g r = g' r) → C p g a → C p' g' a.
Proof.
  intros Hp Hg H w w' Hw. rewrite <- Hp in Hw. destruct (H _ _ Hw) as [He Hr].
  split; [done|]. intros F r HF Ht. rewrite <- Hg. auto.
Qed.

(** A check before a write. *)
Lemma carries_check {E1 E2 A} (p : SE W E1 unit) (k : SE W E1 unit) (get : SE R E2 A) a :
  (∀ w w', p w = Ok (tt, w') → w' = w) →
  C k get a → C (p ;; k) get a.
Proof.
  intros Hp H w w'. unfold se_bind. destruct (p w) as [[[] w1]|] eqn:Hw; [|done].
  apply Hp in Hw as ->. apply H.
Qed.

Lemma carries_by_id {E1 E2 A} id (puts : list (Uuid * SE W E1 unit)) (gets : list (Uuid * SE R E2 A))
    (p0 : SE W E1 unit) (g0 : SE R E2 A) a :
  Forall2 (λ p g, p.1 = g.1 ∧ C p.2 g.2 a) puts gets → C p0 g0 a →
  C (by_id id puts p0) (by_id id gets g0) a.
Proof.
  intros H H0. induction H as [|[k p] [k' g] puts gets [Hk Hc] _ IH]; simpl in *; [done|].
  subst k'. by destruct (id =? k).
Qed.

(** Items one after the other. *)
Lemma carries_for {E1 E2 A} (put : A → SE W E1 unit) (get : SE R E2 A) v :
  Forall (λ x, C (put x) get x) v → C (se_for put v) (se_repeat (length v) get) v.
Proof.
  induction 1 as [|x v Hx _ IH]; simpl; [apply carries_ret|].
  eapply carries_bind; [done|]. by apply (carries_map _ _ (cons x)).
Qed.

(** A check after a read. *)
Lemma carries_then {E1 E2 A B} (put : SE W E1 unit) (get : SE R E2 A) (k : A → SE R E2 B) a b :
  C put get a → (∀ r, k a r = Ok (b, r)) → C put (let* x := get in k x) b.
Proof.
  intros H Hk w w' Hp. destruct (H _ _ Hp) as [He Hr]. split; [done|]. intros F r HF Ht.
  unfold se_bind. destruct (Hr F r HF Ht) as (r' & -> & ?). eauto.
Qed.
End Compose.

Section Carries.
Context `{WL : WireLaws W R E E'}.
Abbreviation C := (carries extends tracks).

(** One goal per case of two chains that name the same ids. *)
Ltac by_cases := repeat (apply Forall2_cons_2; [split; [reflexivity|]; simpl|]); [..|apply Forall2_nil_2].

(** *** Scalars and their arrays *)
Lemma as_num_Some t v n : as_num t v = Some n → v = num_value t n.
Proof. destruct t, v; simpl; congruence. Qed.
Lemma as_num_array_Some t v xs : as_num_array t v = Some xs → v = num_array t xs.
Proof. destruct t, v; simpl; congruence. Qed.
Lemma wf_num t n : wf_value (num_value t n) = in_num t n.
Proof. by destruct t. Qed.
Lemma wf_num_array t xs : wf_value (num_array t xs) = wf_vec (in_num t) xs.
Proof. by destruct t. Qed.

(** A value whose strings the format can hold. *)
Definition wire (v : Value) : Prop := wf_value v = true ∧ strings_all wire_string v = true.

Lemma carries_num t v : wire v → C (write_num_of t v) (read_num_as t) v.
Proof.
  intros [Hv _]. unfold write_num_of, read_num_as. destruct (as_num t v) as [n|] eqn:Hn; [|apply carries_fail].
  apply as_num_Some in Hn as ->. rewrite wf_num in Hv. by apply carries_map, carries_op, law_num.
Qed.

Lemma carries_num_array t v : wire v → C (write_num_array_of t v) (read_num_array_as t) v.
Proof.
  intros [Hv _]. unfold write_num_array_of, read_num_array_as.
  destruct (as_num_array t v) as [xs|] eqn:Hn; [|apply carries_fail].
  apply as_num_array_Some in Hn as ->. rewrite wf_num_array in Hv.
  by apply (carries_map _ _ (num_array t)), carries_op, law_num_array.
Qed.

Lemma carries_check_len {E2 A B} len (xs : list A) (k : list A → SE W (option E) unit)
    (get : SE R E2 B) a :
  (length xs = len → C (k xs) get a) → C (check_len len xs k) get a.
Proof.
  intros H. unfold check_len. destruct (Nat.eqb_spec (length xs) len); [by apply H|apply carries_fail].
Qed.

Lemma carries_num_fixed t len v : wire v → C (write_num_fixed_of t len v) (read_num_fixed_as t len) v.
Proof.
  intros [Hv _]. unfold write_num_fixed_of, read_num_fixed_as.
  destruct (as_num_array t v) as [xs|] eqn:Hn; [|apply carries_fail].
  apply as_num_array_Some in Hn as ->. rewrite wf_num_array in Hv.
  apply carries_check_len. intros <-.
  by apply (carries_map _ _ (num_array t)), carries_op, law_num_fixed.
Qed.

Lemma wire_strings xs : wire (Value.ArrayString xs) → wf_vec (λ s, wf_string s && wire_string s) xs = true.
Proof.
  intros [Hwf Hs]. simpl in *. unfold wf_vec in *. apply andb_prop in Hwf as [-> Hwf]; simpl.
  rewrite forallb_Forall in *. rewrite Forall_forall in *. intros s Hin.
  by rewrite (Hwf s Hin), (Hs s Hin).
Qed.

Lemma carries_scalar id v : wire v → C (write_scalar id v) (read_scalar id) v.
Proof.
  intros Hv. apply carries_by_id; [|apply carries_fail].
  by_cases; auto using carries_num.
  - destruct v; try apply carries_fail. apply (carries_map _ _ (λ _, Value.Unit) tt), carries_op, law_unit.
  - destruct v; try apply carries_fail. apply carries_map, carries_op, law_bool.
  - destruct v; try apply carries_fail. destruct Hv. by apply carries_map, carries_op, law_string.
Qed.

Lemma carries_scalar_array id v : wire v → C (write_scalar_array id v) (read_scalar_array id) v.
Proof.
  intros Hv. apply carries_by_id; [|apply carries_fail].
  by_cases; auto using carries_num_array.
  - destruct v; try apply carries_fail. destruct Hv as [Hv _].
    by apply carries_map, carries_op, law_bool_array.
  - destruct v; try apply carries_fail.
    by apply carries_map, carries_op, law_string_array, wire_strings.
Qed.

Lemma carries_fixed_scalar_array id len v :
  wire v → C (write_fixed_scalar_array id len v) (read_fixed_scalar_array id len) v.
Proof.
  intros Hv. apply carries_by_id; [|apply carries_fail].
  by_cases; auto using carries_num_fixed.
  - destruct v; try apply carries_fail. destruct Hv as [Hv _].
    apply carries_check_len. intros <-. by apply carries_map, carries_op, law_bool_fixed.
  - destruct v; try apply carries_fail.
    apply carries_check_len. intros <-.
    by apply carries_map, carries_op, law_string_fixed, wire_strings.
Qed.

(** *** Records *)
Definition wire_fields (fs : list StructureField) : Prop :=
  wf_len fs = true ∧ Forall (λ f, wf_uuid (sf_id f) = true ∧ wire (sf_value f)) fs.

Lemma wire_fields_of fs :
  wf_vec (λ f : StructureField, wf_uuid (sf_id f) && wf_value (sf_value f)) fs = true →
  forallb (λ f : StructureField, strings_all wire_string (sf_value f)) fs = true → wire_fields fs.
Proof.
  intros Hwf Hs. split; [by eapply wf_vec_len|]. apply wf_vec_Forall in Hwf.
  rewrite forallb_Forall in Hs. apply (Forall_impl2 _ _ _ _ Hwf Hs).
  intros f [? ?]%andb_prop ?. done.
Qed.

Lemma wire_structure s : wire (Value.Structure s) → wf_uuid (st_id s) = true ∧ wire_fields (st_fields s).
Proof.
  intros [[? Hwf]%andb_prop Hs]. split; [done|]. by apply wire_fields_of.
Qed.

Lemma wire_elements id els :
  wire (Value.ArrayStructure id els) →
  wf_uuid id = true ∧ wf_len els = true ∧ Forall (λ el, wire_fields (sw_fields el)) els.
Proof.
  intros [[? Hwf]%andb_prop Hs]. split; [done|]. split; [by eapply wf_vec_len|].
  apply wf_vec_Forall in Hwf. simpl in Hs. rewrite forallb_Forall in Hs.
  apply (Forall_impl2 _ _ _ _ Hwf Hs). intros el ? ?. by apply wire_fields_of.
Qed.

Section Records.
Variable put_ref : TypeRef → Value → SE W (option E) unit.
Variable get_ref : TypeRef → SE R (option E') Value.
Variable frame_ref : TypeRef → Value → Value.
Hypothesis Hrec : ∀ t v, wire v → C (put_ref t v) (get_ref t) (frame_ref t v).

Lemma carries_fields declared fs :
  length fs = length declared → Forall (λ f, wf_uuid (sf_id f) = true ∧ wire (sf_value f)) fs →
  C (write_fields put_ref declared fs) (read_fields get_ref declared) (frame_fields frame_ref declared fs).
Proof.
  revert fs. induction declared as [|[id d] declared IH]; intros [|f fs] Hlen Hfs; try done.
  { apply carries_ret. }
  apply Forall_cons in Hfs as [[Hid Hv] Hfs]. simpl in *.
  destruct (Z.eqb_spec (sf_id f) id) as [<-|]; simpl; [|apply carries_fail].
  apply (carries_bind _ _ _ _ tt); [by apply carries_op, law_field|].
  eapply carries_bind; [by apply Hrec|].
  apply (carries_map _ _ (λ fields, mkStructureField (sf_id f) _ :: fields)). auto.
Qed.

Lemma carries_checked_fields {A} (s : low.Structure) fs put (get : SE R (option E') A) a :
  wire_fields fs →
  (length fs = length (low.fields s) → Z.of_nat (length (low.fields s)) < 2 ^ 32 → C put get a) →
  C (check_field_count s fs ;; put) get a.
Proof.
  intros [Hlen _] H. unfold check_field_count.
  destruct (Nat.eqb_spec (length fs) (length (low.fields s))) as [Heq|]; simpl.
  - apply carries_check; [by intros ? ? [=]|]. apply H; [done|]. rewrite <- Heq. by apply wf_len_lt.
  - intros w w' [=].
Qed.

Lemma carries_structure id s v :
  wire v →
  C (write_structure put_ref id s v) (read_structure get_ref id s)
    (frame_value_with frame_ref (low.mkType "" id "" (low.KStructure s)) v).
Proof.
  intros Hv. unfold write_structure. destruct v as [ | | | | | | | | | | | | | | a| | | | | | | | | | | | | | | | | | ]; try apply carries_fail.
  apply wire_structure in Hv as [Hid Hfs].
  destruct (Z.eqb_spec (st_id a) id) as [<-|]; simpl; [|apply carries_fail].
  apply (carries_map _ _ (λ fields, Value.Structure (mkStructure (st_id a) fields))).
  unfold write_structure_fields, read_structure_fields.
  apply carries_checked_fields; [done|]. intros Hlen Hlt.
  apply (carries_bind _ _ _ _ tt); [by apply carries_op, law_struct|].
  apply carries_fields; [done|apply Hfs].
Qed.

Lemma carries_value_with ty v :
  wire v → C (write_value_with put_ref ty v) (read_value_with get_ref ty) (frame_value_with frame_ref ty v).
Proof.
  intros Hv. unfold write_value_with, read_value_with. destruct (low.kind ty) as [s|e|t] eqn:Hk.
  - pose proof (carries_structure (low.id ty) s v Hv) as H. unfold frame_value_with in *.
    by rewrite Hk.
  - apply carries_fail.
  - unfold frame_value_with. rewrite Hk. by apply Hrec.
Qed.

Lemma carries_elements s els :
  Forall (λ el, wire_fields (sw_fields el)) els →
  C (write_elements put_ref s els) (se_repeat (length els) (read_element get_ref s))
    ((λ el, mkStructureWithoutId (frame_fields frame_ref (low.fields s) (sw_fields el))) <$> els).
Proof.
  induction 1 as [|el els Hel _ IH]; simpl; [apply carries_ret|].
  apply carries_checked_fields; [done|]. intros Hlen Hlt. destruct Hel as [_ Hfs].
  assert (C (op (begin_struct_element (length (low.fields s))) ;;
             write_fields put_ref (low.fields s) (sw_fields el)) (read_element get_ref s)
            (mkStructureWithoutId (frame_fields frame_ref (low.fields s) (sw_fields el)))) as H.
  { apply (carries_bind _ _ _ _ tt); [by apply carries_op, law_struct_element|].
    apply (carries_map _ _ mkStructureWithoutId). by apply carries_fields. }
  refine (carries_ext _ _ _ _ _ _ _ (carries_bind _ _ _ _ _ _ H (carries_map _ _ (cons _) _ IH)));
    [intros w; unfold se_bind; by destruct (op _ w) as [[[]]|]|done].
Qed.
End Records.

Lemma carries_array registry put_ref get_ref frame_ref id v :
  (∀ t v, wire v → C (put_ref t v) (get_ref t) (frame_ref t v)) → wire v →
  C (write_array registry put_ref id v) (read_array registry get_ref id)
    (frame_elements registry frame_ref id v).
Proof.
  intros Hrec Hv. unfold write_array, read_array, frame_elements.
  destruct (registry !! id) as [ty|]; [|by apply carries_scalar_array].
  destruct (low.kind ty) as [s| |]; try apply carries_fail.
  destruct v; try apply carries_fail.
  destruct (Z.eqb_spec id0 id) as [->|]; simpl; [|apply carries_fail].
  apply wire_elements in Hv as (Hid & Hlen & Hels).
  eapply carries_bind; [by apply carries_op, law_struct_array, wf_len_lt|].
  by apply (carries_map _ _ (Value.ArrayStructure id)), carries_elements.
Qed.

Lemma carries_fixed_array registry put_ref get_ref frame_ref id len v :
  (∀ t v, wire v → C (put_ref t v) (get_ref t) (frame_ref t v)) → wire v →
  C (write_fixed_array registry put_ref id len v) (read_fixed_array registry get_ref id len)
    (frame_elements registry frame_ref id v).
Proof.
  intros Hrec Hv. unfold write_fixed_array, read_fixed_array, frame_elements.
  destruct (registry !! id) as [ty|]; [|by apply carries_fixed_scalar_array].
  destruct (low.kind ty) as [s| |]; try apply carries_fail.
  destruct v; try apply carries_fail.
  destruct (Z.eqb_spec id0 id) as [->|]; simpl; [|apply carries_fail].
  destruct (Nat.eqb_spec (length elements) len) as [<-|]; simpl; [|apply carries_fail].
  apply wire_elements in Hv as (Hid & Hlen & Hels).
  apply (carries_bind _ _ _ _ tt); [by apply carries_op, law_fixed_struct_array, wf_len_lt|].
  by apply (carries_map _ _ (Value.ArrayStructure id)), carries_elements.
Qed.

(** A present option: the flag, then the element. *)
Lemma carries_present put (get : SE R (option E') Value) v :
  C put get v →
  C (op (begin_option true) ;; put)
    (let* present := op enter_option in
     if present then let* inner := get in se_ret (Value.Option (Some inner))
     else se_ret (Value.Option None)) (Value.Option (Some v)).
Proof.
  intros H. apply (carries_bind _ _ _ _ true); [by apply carries_op, law_option|].
  by apply (carries_map _ _ (λ v, Value.Option (Some v))).
Qed.

Lemma carries_absent (get : SE R (option E') Value) :
  C (op (begin_option false))
    (let* present := op enter_option in
     if present then let* inner := get in se_ret (Value.Option (Some inner))
     else se_ret (Value.Option None)) (Value.Option None).
Proof.
  by apply (carries_then _ _ _ false); [apply carries_op, law_option|].
Qed.

Lemma carries_by_ref fuel registry t v :
  wire v →
  C (write_by_ref fuel registry t v) (read_by_ref fuel registry t) (frame_by_ref fuel registry t v).
Proof.
  revert t v. induction fuel as [|fuel IH]; intros t v Hv; [apply carries_fail|].
  destruct t as [id|id|id len|key_id value_id|id].
  - cbn -[in_ids UUID_ID]. destruct (id =? UUID_ID); [apply carries_fail|].
    destruct (in_ids id PRIMITIVE_IDS); [by apply carries_scalar|].
    destruct (registry !! id); [by apply carries_value_with|apply carries_fail].
  - by apply carries_array.
  - by apply carries_fixed_array.
  - apply carries_fail.
  - destruct v; try (by apply carries_present, IH).
    destruct o as [v|]; [by apply carries_present, IH|apply carries_absent].
Qed.

(** C5. Over any format that keeps its laws, the value a walk writes is the value a
    walk of the same type reads, its bare optionals made present, and the reader
    stops where the writer did. *)
Theorem walk_carries (fuel : nat) (ty : low.Type_) (registry : TypeRegistry) (v : Value) (w w' F : W) (r : R)
    (Hv : wire v) (Hwrite : write_value fuel ty registry v w = Ok (tt, w'))
    (Hext : extends w' F) (Hr : tracks F w r) :
  ∃ r', read_value fuel ty registry r = Ok (frame_value fuel registry ty v, r') ∧ tracks F w' r'.
Proof.
  assert (∀ t v, wire v → C (write_by_ref fuel registry t v) (read_by_ref fuel registry t)
                            (frame_by_ref fuel registry t v)) as Hrec by eauto using carries_by_ref.
  by apply (carries_value_with _ _ _ Hrec ty v Hv _ _ Hwrite).
Qed.
End Carries.

(** ** The walk ends on every registry whose types are built bottom-up *)
Definition ref_id (t : TypeRef) : Uuid :=
  match t with
  | TypeRef.Scalar id | TypeRef.Array id | TypeRef.FixedArray id _ | TypeRef.Option id => id
  | TypeRef.Map_ key_id _ => key_id
  end.
Definition kind_refs (k : low.TypeKind) : list TypeRef :=
  match k with
  | low.KPrimitive t => [t]
  | low.KStructure s => (λ e : Uuid * low.StructureField, low.sf_type_ref e.2) <$> low.fields s
  | low.KEnumeration _ => []
  end.

(** No type refers to itself, through however many others. *)
Definition ranked (rank : Uuid → nat) (registry : TypeRegistry) : Prop :=
  map_Forall (λ id ty, Forall (λ t, (rank (ref_id t) < rank id)%nat) (kind_refs (low.kind ty))) registry.

Definition enough (rank : Uuid → nat) (t : TypeRef) : nat :=
  match t with
  | TypeRef.Option id => 2 * rank id + 2
  | t => 2 * rank (ref_id t) + 1
  end.

Definition ends {S E A} (m : SE S (option E) A) : Prop := ∀ s, m s ≠ Err None.

Section Ends.
Context {S E : Type}.
Abbreviation M A := (SE S (option E) A).

Lemma ends_op {A} (m : SE S E A) : ends (op m).
Proof. intros s. unfold op. by destruct (m s). Qed.
Lemma ends_ret {A} (a : A) : ends (se_ret a : M A).
Proof. by intros s. Qed.
Lemma ends_fail {A} (e : E) : ends (se_fail (Some e) : M A).
Proof. by intros s. Qed.
Lemma ends_bind {A B} (m : M A) (k : A → M B) : ends m → (∀ a, ends (k a)) → ends (let* x := m in k x).
Proof.
  intros Hm Hk s. unfold se_bind. specialize (Hm s). destruct (m s) as [[a s']|[]]; [apply Hk|done|done].
Qed.
Lemma ends_repeat {A} n (m : M A) : ends m → ends (se_repeat n m).
Proof. intros Hm. induction n; simpl; auto using ends_ret, ends_bind. Qed.
Lemma ends_by_id {A} id (cases : list (Uuid * M A)) m :
  Forall (λ c, ends c.2) cases → ends m → ends (by_id id cases m).
Proof. intros Hc Hm. apply by_id_cases; [|done]. eapply Forall_impl; [done|]. auto. Qed.
End Ends.

Ltac ends := repeat (cbn beta; first
  [ done | apply ends_op | apply ends_ret | apply ends_fail | apply ends_repeat
  | apply ends_bind; [|intros ?] ]); eauto.

(** The cases of a chain, one by one. *)
Ltac ends_cases :=
  apply ends_by_id; [repeat apply Forall_cons_2; simpl; try apply Forall_nil_2|]; ends.

Section ReadEnds.
Context {R E : Type} `{VR : !ValueReader R E}.

Lemma read_scalar_ends id : ends (read_scalar id).
Proof. unfold read_scalar, read_num_as. ends_cases. Qed.
Lemma read_scalar_array_ends id : ends (read_scalar_array id).
Proof. unfold read_scalar_array, read_num_array_as. ends_cases. Qed.
Lemma read_fixed_scalar_array_ends id len : ends (read_fixed_scalar_array id len).
Proof. unfold read_fixed_scalar_array, read_num_fixed_as. ends_cases. Qed.

Lemma read_fields_ends (get_ref : TypeRef → SE R (option E) Value) declared :
  Forall (λ e, ends (get_ref (low.sf_type_ref e.2))) declared → ends (read_fields get_ref declared).
Proof. induction 1 as [|[id d] declared]; simpl; ends. Qed.

Lemma kind_refs_fields (P : TypeRef → Prop) s :
  Forall P (kind_refs (low.KStructure s)) ↔ Forall (λ e, P (low.sf_type_ref e.2)) (low.fields s).
Proof. simpl. by rewrite Forall_fmap. Qed.

Lemma read_element_ends (get_ref : TypeRef → SE R (option E) Value) s :
  Forall (λ t, ends (get_ref t)) (kind_refs (low.KStructure s)) → ends (read_element get_ref s).
Proof.
  intros H. unfold read_element. rewrite kind_refs_fields in H. ends. by apply read_fields_ends.
Qed.

Lemma read_value_with_ends (get_ref : TypeRef → SE R (option E) Value) ty :
  Forall (λ t, ends (get_ref t)) (kind_refs (low.kind ty)) → ends (read_value_with get_ref ty).
Proof.
  intros H. unfold read_value_with. destruct (low.kind ty) as [s|e|t].
  - rewrite kind_refs_fields in H. unfold read_structure, read_structure_fields.
    ends. by apply read_fields_ends.
  - apply ends_fail.
  - by apply Forall_inv in H.
Qed.

Lemma read_by_ref_ends rank registry fuel t :
  ranked rank registry → (enough rank t ≤ fuel)%nat → ends (read_by_ref fuel registry t).
Proof.
  intros Hrank. revert t. induction fuel as [|fuel IH]; intros t Hn; [destruct t; simpl in Hn; lia|].
  assert (∀ id ty, registry !! id = Some ty → (2 * rank id ≤ fuel)%nat →
          Forall (λ t, ends (read_by_ref fuel registry t)) (kind_refs (low.kind ty))) as Hrefs.
  { intros id ty Hty Hle. apply (Forall_impl _ _ _ (Hrank _ _ Hty)). intros t' Hlt.
    apply IH. destruct t'; simpl in *; lia. }
  destruct t as [id|id|id len|key_id value_id|id]; simpl in Hn.
  - cbn -[in_ids UUID_ID]. destruct (id =? UUID_ID); [apply ends_fail|].
    destruct (in_ids _ _); [apply read_scalar_ends|].
    destruct (registry !! id) eqn:Hty; [|apply ends_fail].
    apply read_value_with_ends. apply (Hrefs id); [done|lia].
  - simpl. unfold read_array. destruct (registry !! id) as [ty|] eqn:Hty; [|apply read_scalar_array_ends].
    specialize (Hrefs _ _ Hty ltac:(lia)). destruct (low.kind ty); try apply ends_fail.
    apply ends_bind; [apply ends_op|intros ?].
    apply ends_bind; [by apply ends_repeat, read_element_ends|intros ?; apply ends_ret].
  - simpl. unfold read_fixed_array.
    destruct (registry !! id) as [ty|] eqn:Hty; [|apply read_fixed_scalar_array_ends].
    specialize (Hrefs _ _ Hty ltac:(lia)). destruct (low.kind ty); try apply ends_fail.
    apply ends_bind; [apply ends_op|intros ?].
    apply ends_bind; [by apply ends_repeat, read_element_ends|intros ?; apply ends_ret].
  - apply ends_fail.
  - simpl. apply ends_bind; [apply ends_op|]. intros []; [|apply ends_ret].
    apply ends_bind; [apply IH; simpl; lia|intros ?; apply ends_ret].
Qed.
End ReadEnds.

Section WriteEnds.
Context {W E : Type} `{VW : !ValueWriter W E}.
Abbreviation PutRef := (TypeRef → Value → SE W (option E) unit).

Lemma write_num_ends t v : ends (write_num_of t v).
Proof. unfold write_num_of. destruct (as_num t v); ends. Qed.
Lemma write_num_array_ends t v : ends (write_num_array_of t v).
Proof. unfold write_num_array_of. destruct (as_num_array t v); ends. Qed.
Lemma check_len_ends {A} len (xs : list A) (k : list A → SE W (option E) unit) :
  ends (k xs) → ends (check_len len xs k).
Proof. intros Hk. unfold check_len. by destruct (negb _); [apply ends_fail|]. Qed.
Lemma write_num_fixed_ends t len v : ends (write_num_fixed_of t len v).
Proof.
  unfold write_num_fixed_of. destruct (as_num_array t v); [apply check_len_ends|]; ends.
Qed.
Hint Resolve write_num_ends write_num_array_ends write_num_fixed_ends check_len_ends : core.

Lemma write_scalar_ends id v : ends (write_scalar id v).
Proof. unfold write_scalar, write_bool_of, write_string_of. ends_cases; destruct v; ends. Qed.
Lemma write_scalar_array_ends id v : ends (write_scalar_array id v).
Proof. unfold write_scalar_array. ends_cases; destruct v; ends. Qed.
Lemma write_fixed_scalar_array_ends id len v : ends (write_fixed_scalar_array id len v).
Proof. unfold write_fixed_scalar_array. ends_cases; destruct v; try apply check_len_ends; ends. Qed.

Lemma write_fields_ends (put_ref : PutRef) declared fs :
  Forall (λ e, ∀ v, ends (put_ref (low.sf_type_ref e.2) v)) declared → ends (write_fields put_ref declared fs).
Proof.
  intros H. revert fs. induction H as [|[id d] declared]; intros [|f fs]; simpl; ends.
  destruct (negb _); ends.
Qed.

Lemma check_field_count_ends s fs : ends (check_field_count s fs).
Proof. unfold check_field_count. destruct (negb _); ends. Qed.

Lemma write_elements_ends (put_ref : PutRef) s els :
  Forall (λ t, ∀ v, ends (put_ref t v)) (kind_refs (low.KStructure s)) → ends (write_elements put_ref s els).
Proof.
  rewrite kind_refs_fields. intros H. induction els; simpl; [apply ends_ret|].
  apply ends_bind; [apply check_field_count_ends|intros ?]. ends. by apply write_fields_ends.
Qed.

Lemma write_value_with_ends (put_ref : PutRef) ty v :
  Forall (λ t, ∀ v, ends (put_ref t v)) (kind_refs (low.kind ty)) → ends (write_value_with put_ref ty v).
Proof.
  intros H. unfold write_value_with. destruct (low.kind ty) as [s|e|t].
  - rewrite kind_refs_fields in H. destruct v; try apply ends_fail. simpl. destruct (negb _); [ends|].
    apply ends_bind; [apply check_field_count_ends|intros ?]. ends. by apply write_fields_ends.
  - apply ends_fail.
  - by apply Forall_inv in H.
Qed.

Lemma write_by_ref_ends rank registry fuel t v :
  ranked rank registry → (enough rank t ≤ fuel)%nat → ends (write_by_ref fuel registry t v).
Proof.
  intros Hrank. revert t v. induction fuel as [|fuel IH]; intros t v Hn; [destruct t; simpl in Hn; lia|].
  assert (∀ id ty, registry !! id = Some ty → (2 * rank id ≤ fuel)%nat →
          Forall (λ t, ∀ v, ends (write_by_ref fuel registry t v)) (kind_refs (low.kind ty))) as Hrefs.
  { intros id ty Hty Hle. apply (Forall_impl _ _ _ (Hrank _ _ Hty)). intros t' Hlt v'.
    apply IH. destruct t'; simpl in *; lia. }
  destruct t as [id|id|id len|key_id value_id|id]; simpl in Hn.
  - cbn -[in_ids UUID_ID]. destruct (id =? UUID_ID); [apply ends_fail|].
    destruct (in_ids _ _); [apply write_scalar_ends|].
    destruct (registry !! id) eqn:Hty; [|apply ends_fail].
    apply write_value_with_ends. apply (Hrefs id); [done|lia].
  - simpl. unfold write_array. destruct (registry !! id) as [ty|] eqn:Hty; [|apply write_scalar_array_ends].
    specialize (Hrefs _ _ Hty ltac:(lia)). destruct (low.kind ty), v; try apply ends_fail.
    destruct (negb _); ends. by apply write_elements_ends.
  - simpl. unfold write_fixed_array.
    destruct (registry !! id) as [ty|] eqn:Hty; [|apply write_fixed_scalar_array_ends].
    specialize (Hrefs _ _ Hty ltac:(lia)). destruct (low.kind ty), v; try apply ends_fail.
    destruct (negb _); ends. destruct (negb _); ends. by apply write_elements_ends.
  - apply ends_fail.
  - simpl. assert (∀ v, ends (write_by_ref fuel registry (TypeRef.Scalar id) v)) as He
      by (intros; apply IH; simpl; lia).
    destruct v; try (apply ends_bind; [apply ends_op|auto]).
    destruct o; [apply ends_bind; [apply ends_op|auto]|apply ends_op].
Qed.
End WriteEnds.

(** Against a registry in which no type refers to itself, a walk over any format
    ends, writing or reading, on any value and any bytes: the rank of the type
    bounds its depth. *)
Theorem walk_ends {W R E E'} `{!ValueWriter W E} `{!ValueReader R E'} (rank : Uuid → nat)
    (registry : TypeRegistry) (ty : low.Type_) (fuel : nat)
    (Hrank : ranked rank registry)
    (Hfuel : Forall (λ t, (enough rank t ≤ fuel)%nat) (kind_refs (low.kind ty))) :
  (∀ (v : Value) (w : W), write_value fuel ty registry v w ≠ Err None)
  ∧ (∀ r : R, read_value fuel ty registry r ≠ Err None).
Proof.
  split.
  - intros v. apply write_value_with_ends, (Forall_impl _ _ _ Hfuel). intros t Ht v'.
    by apply (write_by_ref_ends rank).
  - apply read_value_with_ends, (Forall_impl _ _ _ Hfuel). intros t Ht. by apply (read_by_ref_ends rank).
Qed.

(** ** What is read is of the type *)

(** A format whose fixed arrays have the length asked for. *)
Class ExactFixed (R E : Type) `{!ValueReader R E} : Prop := {
  exact_bool len r v r' : read_bool_fixed_array len r = Ok (v, r') → length v = len;
  exact_num t len r v r' : read_num_fixed_array t len r = Ok (v, r') → length v = len;
  exact_string len r v r' : read_string_fixed_array len r = Ok (v, r') → length v = len;
}.

(** Structures only, each under its own id, none of the well-known ids. *)
Definition records_only (registry : TypeRegistry) : Prop :=
  map_Forall (λ id ty, low.id ty = id ∧ in_ids id WELL_KNOWN_IDS = false
                       ∧ ∃ s, low.kind ty = low.KStructure s ∧ NoDup (low.fields s).*1) registry.

Definition returns {S E A} (m : SE S E A) (P : A → Prop) : Prop := ∀ s a s', m s = Ok (a, s') → P a.

Section Returns.
Context {S E : Type}.

Lemma yields_ret {A} (a : A) (P : A → Prop) : P a → returns (se_ret a : SE S E A) P.
Proof. by intros H s a' s' [= <- _]. Qed.
Lemma yields_fail {A} (e : E) (P : A → Prop) : returns (se_fail e : SE S E A) P.
Proof. by intros s a s' [=]. Qed.
Lemma yields_bind {A B} (m : SE S E A) (k : A → SE S E B) P Q :
  returns m P → (∀ a, P a → returns (k a) Q) → returns (let* x := m in k x) Q.
Proof.
  intros Hm Hk s b s'. unfold se_bind. destruct (m s) as [[a s1]|] eqn:Hs; [|done].
  by apply Hk, (Hm _ _ _ Hs).
Qed.
Lemma yields_any {A} (m : SE S E A) : returns m (λ _, True).
Proof. done. Qed.
Lemma yields_repeat {A} n (m : SE S E A) : returns (se_repeat n m) (λ xs, length xs = n).
Proof.
  induction n; simpl; [by apply yields_ret|].
  eapply yields_bind; [apply yields_any|intros a _]. eapply yields_bind; [done|intros xs Hxs].
  apply yields_ret; simpl; by rewrite Hxs.
Qed.
Lemma yields_op {A} (m : SE S E A) P : returns m P → returns (op m) P.
Proof.
  intros H s a s'. unfold op. destruct (m s) as [[a' s1]|] eqn:Hm; [|done]. intros [= -> ->]. eauto.
Qed.
End Returns.

Ltac returns := repeat (cbn beta; first
  [ apply yields_fail | apply yields_ret; try reflexivity
  | eapply yields_bind; [apply yields_any|intros ? _] ]).

Section ReadReturns.
Context {R E : Type} `{VR : !ValueReader R E}.

(** The chains of the reader and of the check agree at each id. *)
Lemma read_scalar_returns id :
  in_ids id PRIMITIVE_IDS = true → returns (read_scalar id) (λ v, validate_scalar_type_id v id = Ok tt).
Proof.
  unfold read_scalar, read_num_as, by_id. intros _.
  repeat match goal with
  | |- context [if id =? ?k then _ else _] => destruct (Z.eqb_spec id k) as [->|?]; [returns|]
  end. returns.
Qed.

Lemma read_scalar_array_returns id :
  returns (read_scalar_array id) (λ v, validate_array_element_type_id v id = Ok tt).
Proof.
  unfold read_scalar_array, read_num_array_as, by_id.
  repeat match goal with
  | |- context [if id =? ?k then _ else _] => destruct (Z.eqb_spec id k) as [->|?]; [returns|]
  end. returns.
Qed.

Lemma read_fixed_scalar_array_returns `{!ExactFixed R E} id len :
  returns (read_fixed_scalar_array id len) (λ v, validate_fixed_array v id len = Ok tt).
Proof.
  unfold read_fixed_scalar_array, read_num_fixed_as, by_id.
  repeat match goal with
  | |- context [if id =? ?k then _ else _] => destruct (Z.eqb_spec id k) as [->|?];
      [eapply yields_bind;
        [apply yields_op; intros ? ? ? Hlen; first [apply exact_bool in Hlen | apply exact_num in Hlen | apply exact_string in Hlen]; exact Hlen
        |intros v Hlen; cbv beta in Hlen; apply yields_ret; unfold validate_fixed_array; simpl; by rewrite Hlen, Nat.eqb_refl]|]
  end. returns.
Qed.

(** Off the well-known ids, a chain gives its last arm. *)
Lemma validate_record id v :
  in_ids id WELL_KNOWN_IDS = false →
  validate_scalar_type_id v id =
    if match v with
       | Value.Structure s => st_id s =? id | Value.Enumeration e => en_id e =? id | _ => false
       end then Ok tt else Err NotTheScalar.
Proof.
  intros H. unfold validate_scalar_type_id, by_id.
  repeat match goal with
  | |- context [if id =? ?k then _ else _] => destruct (Z.eqb_spec id k) as [->|?]; [done|]
  end. done.
Qed.

Lemma validate_records id els :
  in_ids id WELL_KNOWN_IDS = false → validate_array_element_type_id (Value.ArrayStructure id els) id = Ok tt.
Proof.
  intros H. unfold validate_array_element_type_id, by_id.
  repeat match goal with
  | |- context [if id =? ?k then _ else _] => destruct (Z.eqb_spec id k) as [->|?]; [done|]
  end. by rewrite Z.eqb_refl.
Qed.

Lemma read_fields_returns (get_ref : TypeRef → SE R (option E) Value) declared (P : TypeRef → Value → Prop) :
  (∀ t, returns (get_ref t) (P t)) →
  returns (read_fields get_ref declared)
    (Forall2 (λ e f, sf_id f = e.1 ∧ P (low.sf_type_ref e.2) (sf_value f)) declared).
Proof.
  intros H. induction declared as [|[id d] declared IH]; simpl; [by apply yields_ret, Forall2_nil_2|].
  eapply yields_bind; [apply yields_any|intros _ _].
  eapply yields_bind; [apply H|intros v Hv]. eapply yields_bind; [apply IH|intros fs Hfs].
  by apply yields_ret, Forall2_cons_2.
Qed.

Lemma read_by_ref_returns `{!ExactFixed R E} fuel registry t :
  records_only registry →
  returns (read_by_ref fuel registry t) (λ v, validate_type_ref v t = Ok tt).
Proof.
  intros Hreg. revert t. induction fuel as [|fuel IH]; intros t; [apply yields_fail|].
  destruct t as [id|id|id len|key_id value_id|id].
  - cbn -[in_ids UUID_ID PRIMITIVE_IDS]. destruct (id =? UUID_ID); [apply yields_fail|].
    destruct (in_ids _ _) eqn:Hin; [by apply read_scalar_returns|].
    destruct (registry !! id) as [ty|] eqn:Hty; [|apply yields_fail].
    destruct (Hreg _ _ Hty) as (Hid & Hwk & s & Hk & _). unfold read_value_with. rewrite Hk, Hid.
    unfold read_structure. eapply yields_bind; [apply yields_any|intros fs _].
    apply yields_ret. rewrite validate_record by done. simpl. by rewrite Z.eqb_refl.
  - simpl. unfold read_array. destruct (registry !! id) as [ty|] eqn:Hty; [|apply read_scalar_array_returns].
    destruct (Hreg _ _ Hty) as (Hid & Hwk & s & Hk & _). rewrite Hk. returns. by apply validate_records.
  - simpl. unfold read_fixed_array.
    destruct (registry !! id) as [ty|] eqn:Hty; [|apply read_fixed_scalar_array_returns].
    destruct (Hreg _ _ Hty) as (Hid & Hwk & s & Hk & _). rewrite Hk.
    eapply yields_bind; [apply yields_any|intros _ _].
    eapply yields_bind; [apply yields_repeat|intros els Hels]. cbv beta in Hels. apply yields_ret.
    unfold validate_fixed_array. rewrite validate_records by done. simpl. by rewrite Hels, Nat.eqb_refl.
  - apply yields_fail.
  - simpl. eapply yields_bind; [apply yields_any|intros present _]. destruct present; [|by apply yields_ret].
    eapply yields_bind; [apply IH|intros v Hv]. by apply yields_ret.
Qed.

(** C6. What a walk reads is of the type it read against - [validate] accepts it -
    over any format whose fixed arrays are exact, which CDR is and the buffers'
    reader is not, in a registry of structures, each under its own id and none a
    well-known one, and at a well-formed type. *)
Theorem read_value_validates `{!ExactFixed R E} (fuel : nat) (ty : low.Type_) (registry : TypeRegistry)
    (r r' : R) (v : Value) (Hreg : records_only registry) (Hty : wf_type ty)
    (Hread : read_value fuel ty registry r = Ok (v, r')) : validate v ty = Ok tt.
Proof.
  unfold read_value, read_value_with in Hread. unfold wf_type in Hty.
  destruct (low.kind ty) as [s|e|t] eqn:Hk; [|done|].
  - unfold read_structure in Hread. revert Hread. unfold se_bind, se_ret.
    destruct (read_structure_fields _ _ _ r) as [[fs r1]|] eqn:Hfs; [|done]. intros [= <- _].
    assert (Forall2 (λ e f, sf_id f = e.1 ∧ validate_type_ref (sf_value f) (low.sf_type_ref e.2) = Ok tt)
              (low.fields s) fs) as HF.
    { revert Hfs. unfold read_structure_fields. eapply yields_bind; [apply yields_any|intros _ _].
      apply (read_fields_returns _ _ (λ t v, validate_type_ref v t = Ok tt)).
      intros t. by apply read_by_ref_returns. }
    rewrite (validate_structure_eq _ ty s Hk Hty). simpl. rewrite Z.eqb_refl. simpl.
    assert (sf_id <$> fs = (low.fields s).*1) as Hids by (clear -HF; induction HF as [|? ? ? ? [? _]]; simpl; [done|by f_equal]).
    rewrite Hids, bool_decide_true by done. apply validate_fields_spec.
    apply Forall_forall. intros f Hf. apply list_elem_of_lookup in Hf as [i Hi].
    destruct (Forall2_lookup_r _ _ _ _ _ HF Hi) as ([k d] & Hd & Hkf & Hv). exists d. split; [|done].
    apply im_get_elem_of; [done|]. rewrite Hkf. by eapply list_elem_of_lookup_2.
  - unfold validate. rewrite Hk. by apply (read_by_ref_returns fuel registry t Hreg _ _ _ Hread).
Qed.
End ReadReturns.
