(* ===== verification/Cdr.v ===== *)
(** * ROS 2 CDR: [crates/arora-msgs-ros2/src/cdr.rs]

    The wire format of ROS 2 messages as a format of the walk: positional, each
    primitive aligned to its size from the start of the payload. *)

From Stdlib Require Import Init.Byte Strings.Byte.
From S2P Require Import Prelude Values Types Walk.

(** The errors of the reader and of [decode]; a writer's are the walk's. *)
Inductive CdrError :=
| CdrWalk (e : WalkError)
| Underrun (need at_ have : nat)
| StringLengthZero
| StringNotUtf8
| OptionCount (count : nat)
| ShorterThanHeader
| UnsupportedEncapsulation (b0 b1 : byte).

Definition CDR_LE_HEADER : list byte := [x00; x01; x00; x00].

(** The size of a number, which is its alignment. *)
Definition num_size (t : Num) : nat :=
  match t with
  | NU8 | NI8 => 1 | NU16 | NI16 => 2 | NU32 | NI32 | NF32 => 4 | NU64 | NI64 | NF64 => 8
  end.
(** [from_le_bytes], at the number's type. *)
Definition num_of_le (t : Num) (bs : list byte) : Z :=
  match t with
  | NU8 | NU16 | NU32 | NU64 | NF32 | NF64 => le_Z bs
  | NI8 => to_signed 8 (le_Z bs) | NI16 => to_signed 16 (le_Z bs)
  | NI32 => to_signed 32 (le_Z bs) | NI64 => to_signed 64 (le_Z bs)
  end.

(** ** [CdrWriter]: the body so far *)
Section CdrWriter.
Abbreviation W := (SE (list byte) CdrError unit).

(** [while !self.body.len().is_multiple_of(n) { self.body.push(0); }]: at most [n]
    turns. *)
Fixpoint align_loop (turns n : nat) (body : list byte) : list byte :=
  match turns with
  | O => body
  | S turns => if (length body mod n =? 0)%nat then body else align_loop turns n (body ++ [x00])
  end.
Definition align (n : nat) : W := λ body, Ok (tt, align_loop n n body).
Definition put (bytes : list byte) : W := λ body, Ok (tt, body ++ bytes).

Definition put_sequence_len (len : nat) : W := align 4 ;; put (le_bytes 4 (as_u32 len)).

Definition cdr_write_bool (v : bool) : W := put [if v then x01 else x00].
Definition cdr_write_num (t : Num) (v : Z) : W :=
  match t with
  | NU8 | NI8 => put (le_bytes 1 v)
  | _ => align (num_size t) ;; put (le_bytes (num_size t) v)
  end.
Definition cdr_write_string (v : string) : W :=
  let bytes := str_bytes v in
  align 4 ;; put (le_bytes 4 (as_u32 (length bytes + 1))) ;; put bytes ;; put [x00].

Definition cdr_write_array {A} (write : A → W) (v : list A) : W :=
  put_sequence_len (length v) ;; se_for write v.
Definition cdr_write_fixed_array {A} (write : A → W) (v : list A) : W := se_for write v.
Definition cdr_begin_option (present : bool) : W := put_sequence_len (if present then 1 else 0).
End CdrWriter.

Definition CdrWriter : ValueWriter (list byte) CdrError := {|
  w_error := CdrWalk;
  write_unit := se_ret tt;
  write_bool := cdr_write_bool;
  write_num := cdr_write_num;
  write_string := cdr_write_string;
  begin_struct _ _ := se_ret tt;
  begin_field _ := se_ret tt;
  begin_option := cdr_begin_option;
  write_bool_array := cdr_write_array cdr_write_bool;
  write_num_array t := cdr_write_array (cdr_write_num t);
  write_string_array := cdr_write_array cdr_write_string;
  begin_struct_array _ len := put_sequence_len len;
  begin_struct_element _ := se_ret tt;
  write_bool_fixed_array := cdr_write_fixed_array cdr_write_bool;
  write_num_fixed_array t := cdr_write_fixed_array (cdr_write_num t);
  write_string_fixed_array := cdr_write_fixed_array cdr_write_string;
  begin_fixed_struct_array _ _ := se_ret tt;
|}.
#[export] Existing Instance CdrWriter.

(** ** [CdrReader] *)
Record CdrReader := mkCdrReader { body : list byte; pos : nat }.
Definition cdr_new (b : list byte) : CdrReader := mkCdrReader b 0.

Section CdrReader.
Abbreviation R A := (SE CdrReader CdrError A).

Fixpoint align_pos (turns n p : nat) : nat :=
  match turns with
  | O => p
  | S turns => if (p mod n =? 0)%nat then p else align_pos turns n (p + 1)
  end.
Definition cdr_align (n : nat) : R unit := λ r, Ok (tt, mkCdrReader (body r) (align_pos n n (pos r))).

Definition cdr_take (n : nat) : R (list byte) := λ r,
  if (length (body r) <? pos r + n)%nat then Err (Underrun n (pos r) (length (body r)))
  else Ok (take n (drop (pos r) (body r)), mkCdrReader (body r) (pos r + n)).

Definition take_aligned (n align : nat) : R (list byte) := cdr_align align ;; cdr_take n.

Definition take_sequence_len : R nat :=
  let* bs := take_aligned 4 4 in se_ret (Z.to_nat (le_Z bs)).

Definition cdr_read_bool : R bool :=
  let* bs := cdr_take 1 in se_ret (negb (le_Z bs =? 0)).
Definition cdr_read_num (t : Num) : R Z :=
  match t with
  | NU8 | NI8 => let* bs := cdr_take 1 in se_ret (num_of_le t bs)
  | _ => let* bs := take_aligned (num_size t) (num_size t) in se_ret (num_of_le t bs)
  end.
Definition cdr_read_string : R string :=
  let* len := cdr_read_num NU32 in
  let len := Z.to_nat len in
  if (len =? 0)%nat then se_fail StringLengthZero else
  let* bytes := cdr_take len in
  let text := take (len - 1) bytes in
  if utf8_valid text then se_ret (bytes_str text) else se_fail StringNotUtf8.

Definition cdr_read_array {A} (read : R A) : R (list A) :=
  let* len := take_sequence_len in se_repeat len read.
Definition cdr_read_fixed_array {A} (read : R A) (len : nat) : R (list A) := se_repeat len read.
Definition cdr_enter_option : R bool :=
  let* count := take_sequence_len in
  match count with O => se_ret false | 1%nat => se_ret true | count => se_fail (OptionCount count) end.
End CdrReader.

Definition CdrReader_ : ValueReader CdrReader CdrError := {|
  r_error := CdrWalk;
  read_unit := se_ret tt;
  read_bool := cdr_read_bool;
  read_num := cdr_read_num;
  read_string := cdr_read_string;
  enter_struct _ _ := se_ret tt;
  enter_field _ := se_ret tt;
  enter_option := cdr_enter_option;
  read_bool_array := cdr_read_array cdr_read_bool;
  read_num_array t := cdr_read_array (cdr_read_num t);
  read_string_array := cdr_read_array cdr_read_string;
  enter_struct_array _ := take_sequence_len;
  enter_struct_element _ := se_ret tt;
  read_bool_fixed_array := cdr_read_fixed_array cdr_read_bool;
  read_num_fixed_array t := cdr_read_fixed_array (cdr_read_num t);
  read_string_fixed_array := cdr_read_fixed_array cdr_read_string;
  enter_fixed_struct_array _ _ := se_ret tt;
|}.
#[export] Existing Instance CdrReader_.

(** ** [encode] and [decode] *)
Definition encode (fuel : nat) (ty : low.Type_) (registry : TypeRegistry) (value : Value)
    : result (option CdrError) (list byte) :=
  match write_value fuel ty registry value [] with
  | Ok (_, body) => Ok (CDR_LE_HEADER ++ body)
  | Err e => Err e
  end.

Definition decode (fuel : nat) (ty : low.Type_) (registry : TypeRegistry) (bytes : list byte)
    : result (option CdrError) Value :=
  if (length bytes <? 4)%nat then Err (Some ShorterThanHeader) else
  match bytes with
  | b0 :: b1 :: _ =>
      if negb (Byte.eqb b0 x00 && Byte.eqb b1 x01)
      then Err (Some (UnsupportedEncapsulation b0 b1))
      else match read_value fuel ty registry (cdr_new (drop 4 bytes)) with
           | Ok (v, _) => Ok v
           | Err e => Err e
           end
  | _ => Err (Some ShorterThanHeader)
  end.

(** ** Alignment *)

(** The bytes from [p] to the next multiple of [n]. *)
Definition pad (n p : nat) : nat := ((n - p mod n) mod n)%nat.

Lemma pad_aligned n p : (0 < n)%nat → ((p + pad n p) mod n = 0)%nat.
Proof.
  intros Hn. unfold pad. rewrite Nat.Div0.add_mod_idemp_r.
  pose proof (Nat.mod_upper_bound p n ltac:(lia)). pose proof (Nat.div_mod_eq p n).
  replace (p + (n - p mod n))%nat with ((p / n + 1) * n)%nat by nia. apply Nat.Div0.mod_mul.
Qed.

Lemma pad_lt n p : (0 < n)%nat → (pad n p < n)%nat.
Proof. intros. apply Nat.mod_upper_bound. lia. Qed.

Lemma pad_1 p : pad 1 p = 0%nat.
Proof. pose proof (pad_lt 1 p). lia. Qed.

(** The next multiple is the first met going up: [k] turns do when it is [k] away. *)
Lemma pad_step n p : (0 < n)%nat →
  pad n p = if (p mod n =? 0)%nat then 0%nat else S (pad n (p + 1)).
Proof.
  intros Hn. destruct (Nat.eqb_spec (p mod n) 0) as [H0|H0].
  { unfold pad. rewrite H0, Nat.sub_0_r. apply Nat.Div0.mod_same. }
  pose proof (Nat.mod_upper_bound p n ltac:(lia)).
  unfold pad. rewrite (Nat.mod_small (n - p mod n)) by lia.
  rewrite <- (Nat.Div0.add_mod_idemp_l p 1).
  destruct (decide (p mod n + 1 = n)%nat) as [He|He].
  - rewrite He, Nat.Div0.mod_same, Nat.sub_0_r, Nat.Div0.mod_same.
    clear -He. set (q := (p mod n)%nat) in *. clearbody q. lia.
  - rewrite (Nat.mod_small (p mod n + 1)) by lia.
    rewrite (Nat.mod_small (n - (p mod n + 1))) by lia. clear -He H. lia.
Qed.

Lemma align_pos_pad turns n p : (0 < n)%nat → (pad n p ≤ turns)%nat → align_pos turns n p = (p + pad n p)%nat.
Proof.
  intros Hn. revert p. induction turns as [|turns IH]; intros p Hp; simpl; [lia|].
  rewrite (pad_step n p Hn) in Hp |- *. destruct (p mod n =? 0)%nat; [lia|].
  rewrite IH by lia. lia.
Qed.

Lemma align_loop_pad turns n b :
  (0 < n)%nat → (pad n (length b) ≤ turns)%nat →
  align_loop turns n b = b ++ replicate (pad n (length b)) x00.
Proof.
  intros Hn. revert b. induction turns as [|turns IH]; intros b Hp; simpl.
  { replace (pad n (length b)) with 0%nat by lia. by rewrite app_nil_r. }
  rewrite (pad_step n _ Hn) in Hp |- *. destruct (length b mod n =? 0)%nat; [by rewrite app_nil_r|].
  rewrite IH; rewrite length_app; simpl; [|lia]. by rewrite <- app_assoc.
Qed.

(** ** The laws *)

(** The reader has read of [F] what [w] holds. *)
Definition cdr_tracks (F w : list byte) (r : CdrReader) : Prop := r = mkCdrReader F (length w).
Abbreviation CC := (carries prefix cdr_tracks).

Lemma carries_take bs : CC (put bs) (cdr_take (length bs)) bs.
Proof.
  intros w w' [= <-]. split; [by exists bs|]. intros F r [k ->] ->. unfold cdr_take; simpl.
  rewrite (proj2 (Nat.ltb_ge _ _)) by (rewrite !length_app; lia).
  rewrite <- app_assoc, drop_app_length, take_app_length.
  eexists. split; [done|]. unfold cdr_tracks. by rewrite length_app.
Qed.

Lemma carries_aligned n bs : (0 < n)%nat → CC (align n ;; put bs) (take_aligned (length bs) n) bs.
Proof.
  intros Hn. unfold take_aligned. apply (carries_bind _ _ _ _ tt); [|apply carries_take].
  intros w w' [= <-]. rewrite align_loop_pad by (pose proof (pad_lt n (length w)); lia).
  split; [by eexists|]. intros F r _ ->. unfold cdr_align; simpl.
  rewrite align_pos_pad by (pose proof (pad_lt n (length w)); lia).
  eexists. split; [done|]. unfold cdr_tracks. by rewrite length_app, length_replicate.
Qed.

Lemma num_of_le_bytes t n : in_num t n = true → num_of_le t (le_bytes (num_size t) n) = n.
Proof.
  intros H. unfold num_of_le. destruct t; simpl num_size; rewrite le_Z_bytes;
    try (unfold in_num, in_u in H; apply andb_prop in H as [?%Z.leb_le ?%Z.ltb_lt];
         apply Z.mod_small; simpl; lia);
    by apply to_signed_mod.
Qed.

Lemma carries_num_cdr t n : in_num t n = true → CC (cdr_write_num t n) (cdr_read_num t) n.
Proof.
  intros H. rewrite <- (num_of_le_bytes t n H) at 2.
  pose proof (carries_take (le_bytes (num_size t) n)) as Ht.
  pose proof (λ H, carries_aligned (num_size t) (le_bytes (num_size t) n) H) as Ha.
  rewrite length_le_bytes in Ht, Ha.
  by destruct t; apply (carries_map _ _ (num_of_le _)); first [apply Ht | apply Ha; simpl; lia].
Qed.

Lemma carries_bool_cdr b : CC (cdr_write_bool b) cdr_read_bool b.
Proof.
  set (f := λ bs, negb (le_Z bs =? 0)).
  destruct b; [exact (carries_map _ (cdr_take 1) f [x01] (carries_take [x01]))
              |exact (carries_map _ (cdr_take 1) f [x00] (carries_take [x00]))].
Qed.

Lemma carries_sequence_len n :
  Z.of_nat n < 2 ^ 32 → CC (put_sequence_len n) take_sequence_len n.
Proof.
  intros Hn. rewrite <- (Nat2Z.id n) at 2. replace (Z.of_nat n) with (le_Z (le_bytes 4 (as_u32 n))).
  - apply (carries_map _ _ (λ bs, Z.to_nat (le_Z bs))).
    pose proof (carries_aligned 4 (le_bytes 4 (as_u32 n)) ltac:(lia)) as H.
    by rewrite length_le_bytes in H.
  - unfold as_u32. rewrite Z.mod_small by lia. apply le_Z_bytes_small. simpl. lia.
Qed.

(** A string is held with its terminator: its length and one more fit 32 bits. *)
Definition cdr_string (s : string) : bool := Z.of_nat (length (str_bytes s)) + 1 <? 2 ^ 32.

Lemma carries_string_cdr s :
  wf_string s = true → cdr_string s = true → CC (cdr_write_string s) cdr_read_string s.
Proof.
  intros [Hutf _]%andb_prop Hlen%Z.ltb_lt. unfold cdr_write_string, cdr_read_string.
  set (bs := str_bytes s) in *.
  assert (CC (align 4 ;; put (le_bytes 4 (as_u32 (length bs + 1)))) (cdr_read_num NU32)
             (Z.of_nat (length bs + 1))) as Hhead.
  { pose proof (carries_num_cdr NU32 (Z.of_nat (length bs + 1))) as H. unfold cdr_write_num in H.
    unfold as_u32. rewrite Z.mod_small by lia. apply H. apply andb_true_intro; split;
      [apply Z.leb_le|apply Z.ltb_lt]; lia. }
  assert (CC (put bs ;; put [x00]) (cdr_take (length bs + 1)) (bs ++ [x00])) as Htail.
  { pose proof (carries_take (bs ++ [x00])) as H. rewrite length_app in H. simpl in H.
    refine (carries_ext _ _ _ _ _ _ _ H); [|done]. intros w. unfold put, se_bind. by rewrite <- app_assoc. }
  refine (carries_ext ((align 4 ;; put (le_bytes 4 (as_u32 (length bs + 1)))) ;; put bs ;; put [x00])
            _ _ _ _ _ (λ _, eq_refl) _); [done|].
  eapply carries_bind; [exact Hhead|]. rewrite Nat2Z.id. cbn zeta.
  rewrite (proj2 (Nat.eqb_neq (length bs + 1) 0)) by lia.
  eapply carries_then; [exact Htail|]. intros r. rewrite Nat.add_sub, take_app_length.
  rewrite Hutf. unfold bs. by rewrite bytes_str_bytes.
Qed.

Lemma carries_cdr_array {A} (write : A → SE (list byte) CdrError unit) read v :
  wf_len v = true → Forall (λ x, CC (write x) read x) v →
  CC (cdr_write_array write v) (cdr_read_array read) v.
Proof.
  intros Hlen Hv. eapply carries_bind; [by apply carries_sequence_len, Z.ltb_lt|].
  by apply carries_for.
Qed.

Lemma carries_cdr_option b : CC (cdr_begin_option b) cdr_enter_option b.
Proof.
  destruct b; (eapply carries_then; [by apply carries_sequence_len|done]).
Qed.

Lemma cdr_nums t v : wf_vec (in_num t) v = true → Forall (λ n, CC (cdr_write_num t n) (cdr_read_num t) n) v.
Proof.
  intros H%wf_vec_Forall. eapply Forall_impl; [done|]. simpl. apply carries_num_cdr.
Qed.
Lemma cdr_strings v :
  wf_vec (λ s, wf_string s && cdr_string s) v = true →
  Forall (λ s, CC (cdr_write_string s) cdr_read_string s) v.
Proof.
  intros H%wf_vec_Forall. eapply Forall_impl; [done|]. simpl.
  intros s [? ?]%andb_prop. by apply carries_string_cdr.
Qed.
Lemma cdr_bools (v : list bool) : Forall (λ b, CC (cdr_write_bool b) cdr_read_bool b) v.
Proof. apply Forall_forall. intros b _. apply carries_bool_cdr. Qed.

#[export] Instance CdrLaws : WireLaws (list byte) CdrReader CdrError CdrError := {|
  extends := prefix;
  tracks := cdr_tracks;
  wire_string := cdr_string;
  law_unit := carries_ret tt;
  law_bool := carries_bool_cdr;
  law_num := carries_num_cdr;
  law_string := carries_string_cdr;
  law_struct _ _ _ _ := carries_ret tt;
  law_field _ _ := carries_ret tt;
  law_option := carries_cdr_option;
  law_bool_array v H := carries_cdr_array _ _ _ H (cdr_bools v);
  law_num_array t v H := carries_cdr_array _ _ _ (wf_vec_len _ _ H) (cdr_nums t v H);
  law_string_array v H := carries_cdr_array _ _ _ (wf_vec_len _ _ H) (cdr_strings v H);
  law_struct_array _ n _ := carries_sequence_len n;
  law_struct_element _ _ := carries_ret tt;
  law_bool_fixed v _ := carries_for _ _ _ (cdr_bools v);
  law_num_fixed t v H := carries_for _ _ _ (cdr_nums t v H);
  law_string_fixed v H := carries_for _ _ _ (cdr_strings v H);
  law_fixed_struct_array _ _ _ _ := carries_ret tt;
|}.

#[export] Instance CdrExact : ExactFixed CdrReader CdrError.
Proof. split; intros *; apply yields_repeat. Qed.

(** C8. A ROS 2 payload decodes, whatever follows it in the buffer, to the value it
    was encoded from, framed: its bare optionals are read back as present ones. *)
Theorem decode_encode (fuel : nat) (ty : low.Type_) (registry : TypeRegistry) (v : Value)
    (bytes rest : list byte)
    (Hv : wire v) (Henc : encode fuel ty registry v = Ok bytes) :
  decode fuel ty registry (bytes ++ rest) = Ok (frame_value fuel registry ty v).
Proof.
  unfold encode in Henc. destruct (write_value fuel ty registry v []) as [[[] b]|] eqn:Hw; [|done].
  injection Henc as <-. unfold decode. cbn -[read_value]. rewrite drop_0.
  destruct (walk_carries fuel ty registry v [] b (b ++ rest) (cdr_new (b ++ rest)) Hv Hw) as (r' & -> & _);
    [by exists rest|done|done].
Qed.

Lemma cdr_write_num_eq t n b :
  cdr_write_num t n b = Ok (tt, b ++ replicate (pad (num_size t) (length b)) x00 ++ le_bytes (num_size t) n).
Proof.
  assert (∀ k bs, (0 < k)%nat → (align k ;; put bs) b = Ok (tt, b ++ replicate (pad k (length b)) x00 ++ bs))
    as H.
  { intros k bs Hk. unfold align, put, se_bind. rewrite align_loop_pad; [by rewrite <- app_assoc|done|].
    pose proof (pad_lt k (length b) Hk). lia. }
  destruct t; try (apply H; simpl; lia); unfold num_size; by rewrite pad_1.
Qed.

(** A number is written at a multiple of its size from the start of the payload,
    after fewer zero bytes than its size, in as many bytes as its size. *)
Theorem cdr_num_aligned (t : Num) (n : Z) (body body' : list byte)
    (Hw : cdr_write_num t n body = Ok (tt, body')) :
  ∃ k, body' = body ++ replicate k x00 ++ le_bytes (num_size t) n
       ∧ (k < num_size t)%nat ∧ ((length body + k) mod num_size t = 0)%nat.
Proof.
  exists (pad (num_size t) (length body)).
  assert (0 < num_size t)%nat as Hs by (destruct t; simpl; lia).
  split; [|split; [by apply pad_lt|by apply pad_aligned]].
  rewrite cdr_write_num_eq in Hw. congruence.
Qed.

(** A structure whose only field is of its own type. *)
Definition self_type : low.Type_ :=
  low.mkType "self" 0x200 "" (low.KStructure (low.mkStructure
    [(0x201, low.mkStructureField "next" (TypeRef.Scalar 0x200))])).
Definition self_registry : TypeRegistry := {[ 0x200 := self_type ]}.

Lemma read_self_stuck (by_ref : TypeRef → SE CdrReader (option CdrError) Value) r :
  (∀ r, by_ref (TypeRef.Scalar 0x200) r = Err None) → read_value_with by_ref self_type r = Err None.
Proof.
  intros H. unfold read_value_with, self_type; simpl.
  unfold read_structure, read_structure_fields, se_bind, op; simpl. unfold se_bind, op; simpl. by rewrite H.
Qed.

(** Nothing bounds the walk over a type that holds itself: CDR has no bytes for
    the framing of a structure, so reading one never ends, whatever the payload. *)
Theorem decode_self_type_diverges (fuel : nat) (payload : list byte) :
  decode fuel self_type self_registry (CDR_LE_HEADER ++ payload) = Err None.
Proof.
  assert (∀ r : CdrReader, read_by_ref fuel self_registry (TypeRef.Scalar 0x200) r = Err None) as H.
  { induction fuel as [|fuel IH]; intros r; [done|].
    change (read_value_with (read_by_ref fuel self_registry) self_type r = Err None).
    by apply read_self_stuck. }
  unfold decode. cbn -[read_value]. unfold read_value. by rewrite read_self_stuck.
Qed.

(** ** The theorems on a labelled pose *)
Definition pose_type : low.Type_ :=
  low.mkType "pose" 0x110 "" (low.KStructure (from_fields
    [(0x111, low.mkStructureField "flag" (TypeRef.Scalar BOOLEAN_ID));
     (0x112, low.mkStructureField "at" (TypeRef.Scalar 0x100));
     (0x113, low.mkStructureField "trail" (TypeRef.Array 0x100))])).
Definition pose_registry : TypeRegistry := {[ 0x100 := point_type; 0x110 := pose_type ]}.
Definition point_fields (x : Z) (label : Value) : list StructureField :=
  [mkStructureField 0x101 (Value.F64 x); mkStructureField 0x102 label;
   mkStructureField 0x103 (Value.ArrayF32 [1; 2])].
Definition pose (label : Value) : Value :=
  Value.Structure (mkStructure 0x110
    [mkStructureField 0x111 (Value.Boolean true);
     mkStructureField 0x112 (Value.Structure (mkStructure 0x100 (point_fields 7 label)));
     mkStructureField 0x113 (Value.ArrayStructure 0x100
       [mkStructureWithoutId (point_fields 8 (Value.Option None))])]).

(** A bare label is read back as a present one. *)
Lemma decode_encode_witness :
  let label := Value.String "ok" in
  let bytes := CDR_LE_HEADER ++
    bytes_of ([1; 0;0;0;0;0;0;0; 7;0;0;0;0;0;0;0; 1;0;0;0; 3;0;0;0; 111;107;0; 0; 1;0;0;0; 2;0;0;0;
               1;0;0;0; 8;0;0;0;0;0;0;0; 0;0;0;0; 1;0;0;0; 2;0;0;0]) in
  encode 5 pose_type pose_registry (pose label) = Ok bytes ∧
  decode 5 pose_type pose_registry (bytes ++ [xff]) = Ok (pose (Value.Option (Some label))).
Proof.
  intros label bytes.
  assert (encode 5 pose_type pose_registry (pose label) = Ok bytes) as He by (vm_compute; reflexivity).
  split; [exact He|].
  refine (eq_trans (decode_encode 5 pose_type pose_registry (pose label) bytes [xff] _ He) _);
    [split; reflexivity|vm_compute; reflexivity].
Defined.

Lemma walk_carries_witness :
  ∃ r' : CdrReader,
    read_value 5 point_type ∅ (cdr_new (bytes_of [7;0;0;0;0;0;0;0; 0;0;0;0; 1;0;0;0; 2;0;0;0]))
    = Ok (Value.Structure (mkStructure 0x100 (point_fields 7 (Value.Option None))), r').
Proof.
  pose (v := Value.Structure (mkStructure 0x100 (point_fields 7 (Value.Option None)))).
  pose (b := bytes_of [7;0;0;0;0;0;0;0; 0;0;0;0; 1;0;0;0; 2;0;0;0]).
  destruct (walk_carries 5 point_type ∅ v [] b b (cdr_new b)) as (r' & Hr & _).
  - split; reflexivity.
  - vm_compute. reflexivity.
  - reflexivity.
  - reflexivity.
  - exists r'. exact Hr.
Defined.

Lemma pose_registry_types id ty :
  pose_registry !! id = Some ty → (id = 0x100 ∧ ty = point_type) ∨ (id = 0x110 ∧ ty = pose_type).
Proof.
  unfold pose_registry. intros [[<- <-]|[_ [<- <-]%lookup_singleton_Some]]%lookup_insert_Some; auto.
Qed.

(** The rank of a type of [pose_registry]: how many records deep it is. *)
Definition pose_rank (id : Uuid) : nat :=
  if id =? 0x110 then 2 else if id =? 0x100 then 1 else 0.

Lemma walk_ends_witness :
  read_value (R := CdrReader) 5 pose_type pose_registry (cdr_new (bytes_of [1; 0])) ≠ Err None.
Proof.
  refine (proj2 (walk_ends (W := list byte) (R := CdrReader) pose_rank pose_registry pose_type 5 _ _) _).
  - intros id ty [[-> ->]|[-> ->]]%pose_registry_types; repeat constructor.
  - repeat constructor.
Defined.

Lemma read_value_validates_witness :
  ∃ v r', read_value 5 point_type pose_registry
            (cdr_new (bytes_of [7;0;0;0;0;0;0;0; 0;0;0;0; 1;0;0;0; 2;0;0;0])) = Ok (v, r')
          ∧ validate v point_type = Ok tt.
Proof.
  eexists _, _. split; [vm_compute; reflexivity|].
  eapply (read_value_validates (R := CdrReader) 5 point_type pose_registry
            (cdr_new (bytes_of [7;0;0;0;0;0;0;0; 0;0;0;0; 1;0;0;0; 2;0;0;0]))).
  - intros id ty [[-> ->]|[-> ->]]%pose_registry_types;
      (split; [reflexivity|split; [reflexivity|eexists; split; [reflexivity|]]]);
      apply im_collect_NoDup.
  - apply point_type_wf.
  - vm_compute. reflexivity.
Defined.

Lemma cdr_num_aligned_witness :
  ∃ k, [x01; x00; x02; x00] = [x01] ++ replicate k x00 ++ le_bytes 2 2 ∧ (k < 2)%nat.
Proof.
  destruct (cdr_num_aligned NU16 2 [x01] [x01; x00; x02; x00] eq_refl) as (k & H & Hk & _).
  exists k. split; [exact H|exact Hk].
Defined.
