(* ===== verification/CheckedBuffers.v ===== *)
(** * Arora buffers, checked against a type:
    [crates/arora-buffers/src/froto_checked_value.rs]

    The buffers as a format of the walk. They describe themselves: the reader
    consumes each tag, count and id and checks it against what the walk asks. A
    panic of the buffer reader is an error of the format here. *)

From S2P Require Import Prelude Values Extern Writer Reader Froto RoundTrip Types Walk.

Inductive BuffersError :=
| Panicked (p : panic)
| BuffersWalk (e : WalkError)
| TagIs (expected : Z) (found : option Z)
| ElementTagIs (expected found : Z)
| WireStructureId (id expected : Uuid)
| WireFieldCount (count expected : nat)
| WireFieldId (id expected : Uuid)
| WireElementId (id expected : Uuid)
| InvalidUuid.

Section CheckedBuffers.
Context `{BY : Bytes} `{UC : UuidCrate}.

(** ** [BuffersValueWriter] *)
Abbreviation W := (SE (list byte) BuffersError unit).
Definition wr (f : list byte → list byte) : W := λ w, Ok (tt, f w).

Definition num_tag (t : Num) : Z :=
  match t with
  | NU8 => TYPE_U8 | NU16 => TYPE_U16 | NU32 => TYPE_U32 | NU64 => TYPE_U64
  | NI8 => TYPE_I8 | NI16 => TYPE_I16 | NI32 => TYPE_I32 | NI64 => TYPE_I64
  | NF32 => TYPE_F32 | NF64 => TYPE_F64
  end.
Definition add_num (t : Num) : list byte → Z → list byte :=
  match t with
  | NU8 => add_u8 | NU16 => add_u16 | NU32 => add_u32 | NU64 => add_u64
  | NI8 => add_i8 | NI16 => add_i16 | NI32 => add_i32 | NI64 => add_i64
  | NF32 => add_f32 | NF64 => add_f64
  end.
Definition add_num_raw_bulk (t : Num) : list byte → list Z → list byte :=
  match t with
  | NU8 => add_u8_raw_bulk | NU16 => add_u16_raw_bulk | NU32 => add_u32_raw_bulk | NU64 => add_u64_raw_bulk
  | NI8 => add_i8_raw_bulk | NI16 => add_i16_raw_bulk | NI32 => add_i32_raw_bulk | NI64 => add_i64_raw_bulk
  | NF32 => add_f32_raw_bulk | NF64 => add_f64_raw_bulk
  end.

Definition buf_write_bool_array (v : list bool) : W := wr (λ w,
  add_boolean_raw_bulk (add_array_primitive w TYPE_BOOLEAN (as_u32 (length v))) v).
Definition buf_write_num_array (t : Num) (v : list Z) : W := wr (λ w,
  add_num_raw_bulk t (add_array_primitive w (num_tag t) (as_u32 (length v))) v).
Definition buf_write_string_array (v : list string) : W := wr (λ w,
  foldl add_string_raw (add_array_primitive w TYPE_STRING (as_u32 (length v))) v).
Definition buf_begin_struct (id : Uuid) (field_count : nat) : W := wr (λ w,
  begin_structure w (as_bytes id) (as_u32 field_count)).
Definition buf_begin_field (id : Uuid) : W := wr (λ w, add_structure_field w (as_bytes id)).
Definition buf_begin_option (present : bool) : W :=
  wr (λ w, if present then add_option_some w else add_option_none w).
Definition buf_begin_struct_array (element_id : Uuid) (len : nat) : W := wr (λ w,
  add_array_structure w (as_bytes element_id) (as_u32 len)).
Definition buf_begin_struct_element (field_count : nat) : W := wr (λ w,
  begin_structure_raw w (as_u32 field_count)).

Definition BuffersValueWriter : ValueWriter (list byte) BuffersError := {|
  w_error := BuffersWalk;
  write_unit := wr add_unit;
  write_bool v := wr (λ w, add_boolean w v);
  write_num t v := wr (λ w, add_num t w v);
  write_string v := wr (λ w, add_string w v);
  begin_struct := buf_begin_struct;
  begin_field := buf_begin_field;
  begin_option := buf_begin_option;
  write_bool_array := buf_write_bool_array;
  write_num_array := buf_write_num_array;
  write_string_array := buf_write_string_array;
  begin_struct_array := buf_begin_struct_array;
  begin_struct_element := buf_begin_struct_element;
  (* the trait's defaults *)
  write_bool_fixed_array := buf_write_bool_array;
  write_num_fixed_array := buf_write_num_array;
  write_string_fixed_array := buf_write_string_array;
  begin_fixed_struct_array := buf_begin_struct_array;
|}.
#[export] Existing Instance BuffersValueWriter.

(** [BuffersValueWriter::finish], of a writer [new] made. *)
Definition finish (w : list byte) : list byte := finalize w.

(** ** [BuffersValueReader] *)
Abbreviation R A := (SE BufferReader BuffersError A).
Definition inner {A} (m : SE BufferReader panic A) : R A := λ r,
  match m r with Ok x => Ok x | Err p => Err (Panicked p) end.

Definition expect_tag (expected : Z) : R unit :=
  let* tag := inner next_type in
  match tag with
  | Some tag => if tag =? expected then se_ret tt else se_fail (TagIs expected (Some tag))
  | None => se_fail (TagIs expected None)
  end.
Definition uuid_from (bytes : list byte) : R Uuid :=
  match from_slice bytes with Some u => se_ret u | None => se_fail InvalidUuid end.

Definition enter_scalar_array (expected_tag : Z) : R nat :=
  expect_tag TYPE_ARRAY ;;
  let* '(tag, count) := inner get_array in
  if negb (tag =? expected_tag) then se_fail (ElementTagIs expected_tag tag)
  else se_ret (Z.to_nat count).

Definition get_num (t : Num) : SE BufferReader panic Z :=
  match t with
  | NU8 => r_u8 | NU16 => r_u16 | NU32 => r_u32 | NU64 => r_u64
  | NI8 => r_i8 | NI16 => r_i16 | NI32 => r_i32 | NI64 => r_i64
  | NF32 => r_f32 | NF64 => r_f64
  end.

(** [buffers_read_arrays!] *)
Definition buf_read_array {A} (tag : Z) (get : SE BufferReader panic A) : R (list A) :=
  let* count := enter_scalar_array tag in
  inner reader_align ;; inner (se_repeat count get).
Definition buf_read_string_array : R (list string) :=
  let* count := enter_scalar_array TYPE_STRING in inner (se_repeat count get_string).

Definition buf_enter_struct (expected_id : Uuid) (field_count : nat) : R unit :=
  expect_tag TYPE_STRUCTURE ;;
  let* '(id, count) := inner get_structure in
  let* id := uuid_from id in
  if negb (id =? expected_id) then se_fail (WireStructureId id expected_id)
  else if negb (Z.to_nat count =? field_count)%nat
  then se_fail (WireFieldCount (Z.to_nat count) field_count) else se_ret tt.
Definition buf_enter_option : R bool := expect_tag TYPE_OPTION ;; inner get_option_presence.
Definition buf_enter_field (expected_id : Uuid) : R unit :=
  let* bytes := inner get_structure_field in
  let* id := uuid_from bytes in
  if negb (id =? expected_id) then se_fail (WireFieldId id expected_id) else se_ret tt.
Definition buf_enter_struct_array (element_id : Uuid) : R nat :=
  expect_tag TYPE_ARRAY ;;
  let* '(tag, count) := inner get_array in
  if negb (tag =? TYPE_STRUCTURE) then se_fail (ElementTagIs TYPE_STRUCTURE tag) else
  let* bytes := inner get_uuid in
  let* id := uuid_from bytes in
  if negb (id =? element_id) then se_fail (WireElementId id element_id)
  else se_ret (Z.to_nat count).
Definition buf_enter_struct_element (field_count : nat) : R unit :=
  let* count := inner get_structure_raw in
  if negb (Z.to_nat count =? field_count)%nat
  then se_fail (WireFieldCount (Z.to_nat count) field_count) else se_ret tt.

Definition BuffersValueReader : ValueReader BufferReader BuffersError := {|
  r_error := BuffersWalk;
  read_unit := expect_tag TYPE_UNIT;
  read_bool := expect_tag TYPE_BOOLEAN ;; inner get_boolean;
  read_num t := expect_tag (num_tag t) ;; inner (get_num t);
  read_string := expect_tag TYPE_STRING ;; inner get_string;
  enter_struct := buf_enter_struct;
  enter_field := buf_enter_field;
  enter_option := buf_enter_option;
  read_bool_array := buf_read_array TYPE_BOOLEAN get_boolean;
  read_num_array t := buf_read_array (num_tag t) (get_num t);
  read_string_array := buf_read_string_array;
  enter_struct_array := buf_enter_struct_array;
  enter_struct_element := buf_enter_struct_element;
  (* the trait's defaults *)
  read_bool_fixed_array := default_read_fixed (buf_read_array TYPE_BOOLEAN get_boolean);
  read_num_fixed_array t := default_read_fixed (buf_read_array (num_tag t) (get_num t));
  read_string_fixed_array := default_read_fixed buf_read_string_array;
  enter_fixed_struct_array := default_enter_fixed_struct_array BuffersWalk buf_enter_struct_array;
|}.
#[export] Existing Instance BuffersValueReader.
End CheckedBuffers.

Section Laws.
Context `{BL : BytesLaws} `{UL : UuidLaws}.

(** The reader is where [w] ends in [F], and knows how long [F] is. *)
Definition buf_tracks (F w : list byte) (r : BufferReader) : Prop :=
  r = mkReader (drop (length w) F) (length F).
Abbreviation BC := (carries prefix buf_tracks).

Lemma codec_carries {A} f (m : SE BufferReader panic A) a :
  codec f m (Some a) → BC (wr f) (inner m) a.
Proof.
  intros Hc w w' [= <-]. destruct (Hc w) as (enc & E & Hr). rewrite E.
  split; [by exists enc|]. intros F r [rest ->] ->. unfold inner.
  rewrite <- app_assoc, drop_app_length, Hr by (rewrite !length_app; lia).
  eexists. split; [done|]. unfold buf_tracks. rewrite app_assoc, drop_app_length. done.
Qed.

Lemma carries_wr {A B} f g (m : SE BufferReader BuffersError A) (k : A → SE BufferReader BuffersError B) a b :
  BC (wr f) m a → BC (wr g) (k a) b → BC (wr (λ w, g (f w))) (let* x := m in k x) b.
Proof. apply carries_bind. Qed.

Lemma carries_tag {A} t g (m : SE BufferReader BuffersError A) a :
  in_u 8 t = true → BC (wr g) m a → BC (wr (λ w, g (put_u8 w t))) (expect_tag t ;; m) a.
Proof.
  intros Ht Hg. apply (carries_wr (λ w, put_u8 w t) g (expect_tag t) (λ _, m) tt a); [|done].
  eapply carries_then; [apply codec_carries, (codec_tag t Ht)|]. intros r. simpl. by rewrite Z.eqb_refl.
Qed.

Lemma carries_tag_only t : in_u 8 t = true → BC (wr (λ w, put_u8 w t)) (expect_tag t) tt.
Proof.
  intros Ht. eapply carries_then; [apply codec_carries, (codec_tag t Ht)|]. intros r. simpl. by rewrite Z.eqb_refl.
Qed.

Definition add_num_raw (t : Num) : list byte → Z → list byte :=
  match t with
  | NU8 => add_u8_raw | NU16 => add_u16_raw | NU32 => add_u32_raw | NU64 => add_u64_raw
  | NI8 => add_i8_raw | NI16 => add_i16_raw | NI32 => add_i32_raw | NI64 => add_i64_raw
  | NF32 => add_f32_raw | NF64 => add_f64_raw
  end.
Lemma num_tag_u8 t : in_u 8 (num_tag t) = true.
Proof. by destruct t. Qed.
Lemma codec_num t n : in_num t n = true → codec (λ w, add_num_raw t w n) (get_num t) (Some n).
Proof.
  destruct t; [apply codec_u8|apply codec_u16|apply codec_u32|apply codec_u64|apply codec_i8
              |apply codec_i16|apply codec_i32|apply codec_i64|apply codec_f32|apply codec_f64].
Qed.

Lemma carries_buf_num t n :
  in_num t n = true → BC (wr (λ w, add_num t w n)) (expect_tag (num_tag t) ;; inner (get_num t)) n.
Proof.
  intros Hn. pose proof (codec_carries _ _ _ (codec_num t n Hn)) as Hc.
  apply (carries_tag (num_tag t)) in Hc; [|apply num_tag_u8]. by destruct t.
Qed.

Lemma carries_buf_bool b : BC (wr (λ w, add_boolean w b)) (expect_tag TYPE_BOOLEAN ;; inner get_boolean) b.
Proof. by apply (carries_tag TYPE_BOOLEAN (λ w, add_boolean_raw w b)), codec_carries, codec_boolean. Qed.

Lemma carries_buf_string s :
  wf_string s = true → BC (wr (λ w, add_string w s)) (expect_tag TYPE_STRING ;; inner get_string) s.
Proof.
  intros Hs. by apply (carries_tag TYPE_STRING (λ w, add_string_raw w s)), codec_carries, codec_string.
Qed.

Lemma carries_array_head tag n :
  in_u 8 tag = true → Z.of_nat n < 2 ^ 32 →
  BC (wr (λ w, add_array_primitive w tag (as_u32 n))) (enter_scalar_array tag) n.
Proof.
  intros Ht Hn.
  apply (carries_tag TYPE_ARRAY (λ w, put_u32_le (put_u8 w tag) (as_u32 n))); [done|].
  eapply carries_then; [apply codec_carries, codec_header; done|]. intros r. simpl.
  by rewrite Z.eqb_refl, Nat2Z.id.
Qed.

Lemma carries_buf_array {A} tag (put : list byte → A → list byte) (get : SE BufferReader panic A) v :
  in_u 8 tag = true → wf_len v = true → Forall (λ x, codec (λ w, put w x) get (Some x)) v →
  BC (wr (λ w, foldl put (align (add_array_primitive w tag (as_u32 (length v)))) v)) (buf_read_array tag get) v.
Proof.
  intros Ht Hlen Hv. unfold buf_read_array.
  apply (carries_wr (λ w, add_array_primitive w tag (as_u32 (length v))) (λ w, foldl put (align w) v)
           _ _ (length v)); [by apply carries_array_head, wf_len_lt|].
  apply (carries_wr align (λ w, foldl put w v) _ _ tt); [apply codec_carries, codec_align|].
  apply codec_carries. by apply codec_foldl_total.
Qed.

Lemma carries_buf_bools v : wf_len v = true → BC (buf_write_bool_array v) (buf_read_array TYPE_BOOLEAN get_boolean) v.
Proof.
  intros Hlen. apply carries_buf_array; [done|done|]. apply Forall_forall. intros b _. apply codec_boolean.
Qed.

Lemma carries_buf_nums t v :
  wf_vec (in_num t) v = true → BC (buf_write_num_array t v) (buf_read_array (num_tag t) (get_num t)) v.
Proof.
  intros Hv. pose proof (wf_vec_len _ _ Hv) as Hlen. apply wf_vec_Forall in Hv.
  pose proof (carries_buf_array (num_tag t) (add_num_raw t) (get_num t) v (num_tag_u8 t) Hlen) as Hc.
  destruct t; apply Hc; (eapply Forall_impl; [exact Hv|]); intros n; apply codec_num.
Qed.

Lemma carries_buf_strings v :
  wf_vec (λ s, wf_string s && true) v = true → BC (buf_write_string_array v) buf_read_string_array v.
Proof.
  intros Hv. pose proof (wf_vec_len _ _ Hv) as Hlen. apply wf_vec_Forall in Hv.
  unfold buf_write_string_array, buf_read_string_array.
  apply (carries_wr (λ w, add_array_primitive w TYPE_STRING (as_u32 (length v))) (λ w, foldl add_string_raw w v)
           _ _ (length v)); [by apply carries_array_head, wf_len_lt|].
  apply codec_carries, codec_foldl_total. eapply Forall_impl; [exact Hv|].
  intros s [? _]%andb_prop. by apply codec_string.
Qed.

(** An id on the wire, checked against the one expected. *)
Lemma carries_id {A} u (k : Uuid → SE BufferReader BuffersError A) g a :
  wf_uuid u = true → BC (wr g) (k u) a →
  BC (wr (λ w, g (put_slice w (as_bytes u)))) (let* bs := inner (take_front 16) in let* id := uuid_from bs in k id) a.
Proof.
  intros Hu Hg. eapply (carries_wr (λ w, put_slice w (as_bytes u)) g); [apply codec_carries, codec_id|].
  refine (carries_ext _ _ _ _ _ (λ _, eq_refl) _ Hg). intros r. unfold uuid_from, se_bind.
  by rewrite from_as_bytes.
Qed.

Lemma carries_buf_field u : wf_uuid u = true → BC (buf_begin_field u) (buf_enter_field u) tt.
Proof.
  intros Hu. apply (carries_id u (λ id, if negb (id =? u) then _ else _) (λ w, w)); [done|].
  rewrite Z.eqb_refl. apply carries_ret.
Qed.

Lemma carries_count n (err : nat → nat → BuffersError) :
  Z.of_nat n < 2 ^ 32 →
  BC (wr (λ w, put_u32_le w (as_u32 n)))
    (let* count := inner get_structure_raw in
     if negb (Z.to_nat count =? n)%nat then se_fail (err (Z.to_nat count) n) else se_ret tt) tt.
Proof.
  intros Hn. eapply carries_then; [apply codec_carries, (codec_len n Hn)|]. intros r. simpl.
  by rewrite Nat2Z.id, Nat.eqb_refl.
Qed.

Lemma carries_buf_struct u n :
  wf_uuid u = true → Z.of_nat n < 2 ^ 32 → BC (buf_begin_struct u n) (buf_enter_struct u n) tt.
Proof.
  intros Hu Hn.
  apply (carries_tag TYPE_STRUCTURE (λ w, put_u32_le (put_slice w (as_bytes u)) (as_u32 n))); [done|].
  assert (codec (λ w, put_u32_le (put_slice w (as_bytes u)) (as_u32 n)) get_structure
            (Some (as_bytes u, Z.of_nat n))) as Hc.
  { refine (codec_seq (λ w, put_slice w (as_bytes u)) (λ w, put_u32_le w (as_u32 n)) _ _ _ _
              (codec_id u) _).
    apply (codec_map _ _ (λ z, (as_bytes u, z)) _ (codec_len n Hn)). }
  eapply carries_then; [apply codec_carries, Hc|]. intros r. unfold se_bind, uuid_from.
  rewrite from_as_bytes by done. simpl. by rewrite Z.eqb_refl, Nat2Z.id, Nat.eqb_refl.
Qed.

Lemma carries_buf_struct_array u n :
  wf_uuid u = true → Z.of_nat n < 2 ^ 32 → BC (buf_begin_struct_array u n) (buf_enter_struct_array u) n.
Proof.
  intros Hu Hn.
  apply (carries_tag TYPE_ARRAY (λ w, put_slice (put_u32_le (put_u8 w TYPE_STRUCTURE) (as_u32 n)) (as_bytes u)));
    [done|].
  eapply (carries_wr (λ w, put_u32_le (put_u8 w TYPE_STRUCTURE) (as_u32 n)) (λ w, put_slice w (as_bytes u)));
    [by apply codec_carries, codec_header|].
  simpl. apply (carries_id u (λ id, if negb (id =? u) then _ else _) (λ w, w)); [done|].
  rewrite Z.eqb_refl, Nat2Z.id. apply carries_ret.
Qed.

Lemma carries_buf_option b : BC (buf_begin_option b) buf_enter_option b.
Proof.
  assert (∀ z, in_u 8 z = true → BC (wr (λ w, put_u8 (put_u8 w TYPE_OPTION) z)) buf_enter_option (negb (z =? 0)))
    as Ho.
  { intros z Hz. apply (carries_tag TYPE_OPTION (λ w, put_u8 w z)); [done|].
    apply codec_carries. apply (codec_map _ _ (λ v, negb (v =? 0)) _ (codec_u8 z Hz)). }
  destruct b; [by apply (Ho 1)|by apply (Ho 0)].
Qed.

Lemma carries_buf_fixed_struct_array u n :
  wf_uuid u = true → Z.of_nat n < 2 ^ 32 →
  BC (buf_begin_struct_array u n)
     (default_enter_fixed_struct_array BuffersWalk buf_enter_struct_array u n) tt.
Proof.
  intros Hu Hn. eapply carries_then; [by apply carries_buf_struct_array|]. intros r. simpl. by rewrite Nat.eqb_refl.
Qed.

#[export] Instance BuffersLaws : WireLaws (list byte) BufferReader BuffersError BuffersError := {|
  extends := prefix;
  tracks := buf_tracks;
  wire_string _ := true;
  law_unit := carries_tag_only TYPE_UNIT eq_refl;
  law_bool := carries_buf_bool;
  law_num := carries_buf_num;
  law_string s Hs _ := carries_buf_string s Hs;
  law_struct := carries_buf_struct;
  law_field := carries_buf_field;
  law_option := carries_buf_option;
  law_bool_array := carries_buf_bools;
  law_num_array := carries_buf_nums;
  law_string_array := carries_buf_strings;
  law_struct_array := carries_buf_struct_array;
  law_struct_element n Hn := carries_count n _ Hn;
  law_bool_fixed := carries_buf_bools;
  law_num_fixed := carries_buf_nums;
  law_string_fixed := carries_buf_strings;
  law_fixed_struct_array := carries_buf_fixed_struct_array;
|}.
End Laws.

(** ** The walk writes what the self-describing codec writes *)
Section Writes.
Context `{BY : Bytes} `{UC : UuidCrate}.

(** A successful write has the effect [f]. *)
Definition writes {E} (put : SE (list byte) E unit) (f : list byte → list byte) : Prop :=
  ∀ w w', put w = Ok (tt, w') → w' = f w.

Lemma writes_bind {E} (p1 p2 : SE (list byte) E unit) f1 f2 :
  writes p1 f1 → writes p2 f2 → writes (p1 ;; p2) (λ w, f2 (f1 w)).
Proof.
  intros H1 H2 w w'. unfold se_bind. destruct (p1 w) as [[[] w1]|] eqn:Hw; [|done].
  apply H1 in Hw as ->. apply H2.
Qed.
Lemma writes_op (f : list byte → list byte) : writes (op (wr f)) f.
Proof. by intros w w' [= <-]. Qed.
Lemma writes_ret {E} : writes (se_ret tt : SE (list byte) E unit) (λ w, w).
Proof. by intros w w' [= <-]. Qed.
Lemma writes_fail {E} (e : E) f : writes (se_fail e) f.
Proof. intros w w' [=]. Qed.
Lemma writes_ext {E} (put : SE (list byte) E unit) f g : (∀ w, f w = g w) → writes put f → writes put g.
Proof. intros Hfg H w w' Hw. rewrite <- Hfg. auto. Qed.
Lemma writes_by_id {E} id (cases : list (Uuid * SE (list byte) E unit)) m f :
  Forall (λ c, writes c.2 f) cases → writes m f → writes (by_id id cases m) f.
Proof. intros Hc Hm. apply by_id_cases; [|done]. eapply Forall_impl; [done|]. auto. Qed.

Abbreviation ser := serialize_to_writer.

Lemma writes_num t v : writes (write_num_of t v) (ser v).
Proof.
  unfold write_num_of. destruct (as_num t v) as [n|] eqn:Hn; [|apply writes_fail].
  apply as_num_Some in Hn as ->. intros w w' [= <-]. by destruct t.
Qed.
Lemma writes_nums t v : writes (write_num_array_of t v) (ser v).
Proof.
  unfold write_num_array_of. destruct (as_num_array t v) as [n|] eqn:Hn; [|apply writes_fail].
  apply as_num_array_Some in Hn as ->. intros w w' [= <-]. by destruct t.
Qed.
Lemma writes_check_len {A} len (xs : list A) (k : list A → SE (list byte) (option BuffersError) unit) f :
  writes (k xs) f → writes (check_len len xs k) f.
Proof. intros H. unfold check_len. by destruct (negb _); [apply writes_fail|]. Qed.
Lemma writes_nums_fixed t len v : writes (write_num_fixed_of t len v) (ser v).
Proof.
  unfold write_num_fixed_of. destruct (as_num_array t v) as [n|] eqn:Hn; [|apply writes_fail].
  apply as_num_array_Some in Hn as ->. apply writes_check_len. intros w w' [= <-]. by destruct t.
Qed.

Ltac writes_cases :=
  apply writes_by_id; [repeat apply Forall_cons_2; simpl; try apply Forall_nil_2|]; try apply writes_fail;
  auto using writes_num, writes_nums, writes_nums_fixed.

Lemma writes_scalar id v : writes (write_scalar id v) (ser v).
Proof.
  unfold write_scalar, write_bool_of, write_string_of. writes_cases;
    destruct v; try apply writes_fail; apply writes_op.
Qed.
Lemma writes_scalar_array id v : writes (write_scalar_array id v) (ser v).
Proof.
  unfold write_scalar_array. writes_cases; destruct v; try apply writes_fail; apply writes_op.
Qed.
Lemma writes_fixed_scalar_array id len v : writes (write_fixed_scalar_array id len v) (ser v).
Proof.
  unfold write_fixed_scalar_array. writes_cases; destruct v; try apply writes_fail;
    apply writes_check_len, writes_op.
Qed.

Definition ser_fields (fs : list StructureField) (w : list byte) : list byte :=
  foldl (λ w f, ser (sf_value f) (add_structure_field w (as_bytes (sf_id f)))) w fs.

Section Records.
Variable put_ref : TypeRef → Value → SE (list byte) (option BuffersError) unit.
Variable frame_ref : TypeRef → Value → Value.
Hypothesis Hrec : ∀ t v, writes (put_ref t v) (ser (frame_ref t v)).

Lemma writes_fields declared fs :
  length fs = length declared →
  writes (write_fields put_ref declared fs) (ser_fields (frame_fields frame_ref declared fs)).
Proof.
  revert fs. induction declared as [|[id d] declared IH]; intros [|f fs] Hlen; try done.
  { apply writes_ret. }
  simpl in *. destruct (Z.eqb_spec (sf_id f) id) as [<-|]; simpl; [|apply writes_fail].
  eapply writes_ext; [|eapply writes_bind; [apply writes_op|eapply writes_bind; [apply Hrec|apply IH; lia]]].
  done.
Qed.

(** The count is checked, so the frame has as many fields as the value. *)
Lemma writes_checked (s : low.Structure) fs put f :
  (length fs = length (low.fields s) → writes put f) → writes (check_field_count s fs ;; put) f.
Proof.
  intros H. unfold check_field_count.
  destruct (Nat.eqb_spec (length fs) (length (low.fields s))); simpl; [by apply H|].
  intros w w' [=].
Qed.

Lemma length_frame_fields declared fs :
  length fs = length declared → length (frame_fields frame_ref declared fs) = length declared.
Proof. intros. unfold frame_fields. rewrite length_zip_with_l; lia. Qed.

Lemma writes_value_with ty v : writes (write_value_with put_ref ty v) (ser (frame_value_with frame_ref ty v)).
Proof.
  unfold write_value_with, frame_value_with. destruct (low.kind ty) as [s|e|t]; [|apply writes_fail|apply Hrec].
  destruct v; try apply writes_fail. simpl.
  destruct (Z.eqb_spec (st_id s0) (low.id ty)) as [<-|]; simpl; [|apply writes_fail].
  apply writes_checked. intros Hlen.
  eapply writes_ext; [|eapply writes_bind; [apply writes_op|by apply writes_fields]].
  intros w. by rewrite length_frame_fields.
Qed.

Lemma writes_elements s els :
  writes (write_elements put_ref s els) (λ w,
    foldl (λ w el, ser_fields (sw_fields el) (begin_structure_raw w (as_u32 (length (sw_fields el))))) w
      ((λ el, mkStructureWithoutId (frame_fields frame_ref (low.fields s) (sw_fields el))) <$> els)).
Proof.
  induction els as [|el els IH]; simpl; [apply writes_ret|].
  apply writes_checked. intros Hlen.
  eapply writes_ext; [|eapply writes_bind; [apply writes_op|eapply writes_bind; [by apply writes_fields|apply IH]]].
  intros w. simpl. by rewrite length_frame_fields.
Qed.

Lemma writes_array registry id v :
  writes (write_array registry put_ref id v) (ser (frame_elements registry frame_ref id v)).
Proof.
  unfold write_array, frame_elements. destruct (registry !! id) as [ty|]; [|apply writes_scalar_array].
  destruct (low.kind ty) as [s| |]; try apply writes_fail.
  destruct v; try apply writes_fail.
  destruct (Z.eqb_spec id0 id) as [->|]; simpl; [|apply writes_fail].
  eapply writes_ext; [|eapply writes_bind; [apply writes_op|apply writes_elements]].
  intros w. simpl. by rewrite length_fmap.
Qed.

Lemma writes_fixed_array registry id len v :
  writes (write_fixed_array registry put_ref id len v) (ser (frame_elements registry frame_ref id v)).
Proof.
  unfold write_fixed_array, frame_elements. destruct (registry !! id) as [ty|]; [|apply writes_fixed_scalar_array].
  destruct (low.kind ty) as [s| |]; try apply writes_fail.
  destruct v; try apply writes_fail.
  destruct (Z.eqb_spec id0 id) as [->|]; simpl; [|apply writes_fail].
  destruct (Nat.eqb_spec (length elements) len) as [<-|]; simpl; [|apply writes_fail].
  eapply writes_ext; [|eapply writes_bind; [apply writes_op|apply writes_elements]].
  intros w. simpl. by rewrite length_fmap.
Qed.
End Records.

Lemma writes_by_ref fuel registry t v :
  writes (write_by_ref fuel registry t v) (ser (frame_by_ref fuel registry t v)).
Proof.
  revert t v. induction fuel as [|fuel IH]; intros t v; [apply writes_fail|].
  destruct t as [id|id|id len|key_id value_id|id].
  - cbn -[in_ids UUID_ID]. destruct (id =? UUID_ID); [apply writes_fail|].
    destruct (in_ids id PRIMITIVE_IDS); [apply writes_scalar|].
    destruct (registry !! id); [by apply writes_value_with|apply writes_fail].
  - by apply writes_array.
  - by apply writes_fixed_array.
  - apply writes_fail.
  - assert (∀ u, writes (op (begin_option true) ;; write_by_ref fuel registry (TypeRef.Scalar id) u)
              (ser (Value.Option (Some (frame_by_ref fuel registry (TypeRef.Scalar id) u))))) as Hp.
    { intros u. eapply writes_ext; [|eapply writes_bind; [apply writes_op|apply IH]]. done. }
    destruct v; try apply Hp. destruct o as [v|]; [apply Hp|apply writes_op].
Qed.

(** C7. Checked against a type, a value is written with the very bytes the
    self-describing codec gives of it framed: with its bare optionals made present,
    which that codec, given the value itself, would write bare. *)
Theorem walk_is_serialize (fuel : nat) (ty : low.Type_) (registry : TypeRegistry) (v : Value) (w w' : list byte)
    (Hwrite : write_value fuel ty registry v w = Ok (tt, w')) :
  w' = serialize_to_writer (frame_value fuel registry ty v) w.
Proof. revert Hwrite. apply writes_value_with. intros. apply writes_by_ref. Qed.
End Writes.

Section RoundTrip.
Context `{BL : BytesLaws} `{UL : UuidLaws}.

Lemma strings_all_true v : strings_all (λ _, true) v = true.
Proof.
  induction v as [v IH] using Value_ind_subs. destruct v; try done.
  - by destruct o.
  - simpl in *. by apply forallb_Forall.
  - simpl. apply forallb_Forall, Forall_forall. done.
  - simpl in *. apply forallb_Forall. eapply Forall_impl; [exact IH|]. intros el Hel.
    by apply forallb_Forall.
Qed.

Lemma length_new : length (new : list byte) = 4%nat.
Proof. unfold new. by rewrite put_u32_le_spec, length_app, length_le_bytes. Qed.

(** A value written against a type into a new buffer is read back from the
    finished buffer, to its end, its bare optionals made present. *)
Theorem checked_read_write (fuel : nat) (ty : low.Type_) (registry : TypeRegistry) (v : Value) (w : list byte)
    (Hv : wf_value v = true) (Hwrite : write_value fuel ty registry v new = Ok (tt, w)) :
  ∃ r r', reader_new (finish w) = Ok r
    ∧ read_value fuel ty registry r = Ok (frame_value fuel registry ty v, r') ∧ backing r' = [].
Proof.
  assert (wire v) as Hwire by (split; [done|apply strings_all_true]).
  assert (∀ t v, wire v → carries prefix buf_tracks (write_by_ref fuel registry t v)
    (read_by_ref fuel registry t) (frame_by_ref fuel registry t v)) as Hrec
    by (intros; by apply (carries_by_ref (WL := BuffersLaws))).
  destruct (carries_value_with (WL := BuffersLaws) _ _ _ Hrec ty v Hwire _ _ Hwrite) as [[enc Hext] Hread].
  assert (length w = 4 + length enc)%nat as Hlen by (by rewrite Hext, length_app, length_new).
  destruct (Hread w (mkReader (drop 4 w) (length w))) as (r' & Hr & Ht);
    [by exists []; rewrite app_nil_r|unfold buf_tracks, tracks; simpl; unfold buf_tracks; by rewrite length_new|].
  assert (length (finish w) = length w) as Hfin.
  { unfold finish, finalize. rewrite length_app, length_le_bytes, length_drop. lia. }
  exists (mkReader (drop 4 w) (length w)), r'. split; [|split; [exact Hr|]].
  - unfold reader_new. rewrite Hfin, (proj2 (Nat.ltb_ge _ _)) by lia. unfold finish, finalize.
    by rewrite drop_app_length' by (by rewrite length_le_bytes).
  - rewrite Ht. simpl. apply drop_all.
Qed.
End RoundTrip.

(** ** Fixed arrays of numbers keep the trait's default readers: the count on the
    wire is taken, not checked against the type's. *)
Definition pair_type : low.Type_ :=
  low.mkType "pair" 0x120 "" (low.KPrimitive (TypeRef.FixedArray U8_ID 2)).

(** Three elements pass for two. *)
Theorem fixed_count_unchecked :
  ∃ r v r', reader_new (finish (serialize_to_writer (Value.ArrayU8 [1; 2; 3]) new)) = Ok r
    ∧ read_value 1 pair_type ∅ r = Ok (v, r') ∧ validate v pair_type = Err (FixedArrayLength 2 3).
Proof. eexists _, _, _. split; [vm_compute; reflexivity|]. split; vm_compute; reflexivity. Qed.

(** ** The theorems on a point *)
Definition checked_point : Value :=
  Value.Structure (mkStructure 0x100
    [mkStructureField 0x101 (Value.F64 7); mkStructureField 0x102 (Value.String "ok");
     mkStructureField 0x103 (Value.ArrayF32 [1; 2])]).
Definition framed_point : Value :=
  Value.Structure (mkStructure 0x100
    [mkStructureField 0x101 (Value.F64 7); mkStructureField 0x102 (Value.Option (Some (Value.String "ok")));
     mkStructureField 0x103 (Value.ArrayF32 [1; 2])]).

Lemma checked_read_write_witness :
  ∃ w r r', write_value 3 point_type ∅ checked_point new = Ok (tt, w) ∧ reader_new (finish w) = Ok r
    ∧ read_value 3 point_type ∅ r = Ok (framed_point, r') ∧ backing r' = [].
Proof.
  eexists.
  edestruct (checked_read_write 3 point_type ∅ checked_point) as (r & r' & Hr & Hv & Hb);
    [vm_compute; reflexivity|vm_compute; reflexivity|].
  exists r, r'. split; [vm_compute; reflexivity|]. split; [exact Hr|]. split; [exact Hv|exact Hb].
Defined.

Lemma walk_is_serialize_witness :
  ∃ w, write_value 3 point_type ∅ checked_point new = Ok (tt, w)
       ∧ w = serialize_to_writer framed_point new.
Proof.
  assert (write_value 3 point_type ∅ checked_point new = Ok (tt, serialize_to_writer framed_point new))
    as Hw by (vm_compute; reflexivity).
  exists (serialize_to_writer framed_point new). split; [exact Hw|].
  exact (walk_is_serialize 3 point_type ∅ checked_point new _ Hw).
Defined.
