(* ===== verification/Keys.v ===== *)
(** * Keys: [Key] of [crates/arora-types/src/data/state.rs] and [prefix_covers]
    of [crates/arora-types/src/data/store.rs]

    A key is one string; its segments are divided by [/], and a convention puts
    attributes after the first [.] of the last segment. *)

From Stdlib Require Import Ascii.
From S2P Require Import Prelude Values Extern.

(** ** [str]: what the keys use of it *)

(** [s.split(c)]: always at least one part. *)
Fixpoint split_on (c : Ascii.ascii) (s : string) : list string :=
  match s with
  | EmptyString => [EmptyString]
  | String a s =>
      if Ascii.eqb a c then EmptyString :: split_on c s
      else match split_on c s with
           | p :: ps => String a p :: ps
           | [] => [String a EmptyString]
           end
  end.

(** [parts.join(sep)] *)
Definition join (sep : string) (parts : list string) : string := String.concat sep parts.

Definition slash : Ascii.ascii := "/"%char.
Definition dot : Ascii.ascii := "."%char.

(** ** [struct Key] *)
Record Key := mkKey { path : string }.

#[export] Instance Key_eq_dec : EqDecision Key.
Proof. solve_decision. Defined.
#[export] Instance Key_countable : Countable Key :=
  inj_countable path (λ p, Some (mkKey p)) (λ k, match k with mkKey p => eq_refl end).

Definition get_path (k : Key) : string := path k.

(** [parts[..parts.len() - 1]], empty where there is no [/]. *)
Definition get_namespace (k : Key) : list string :=
  let parts := split_on slash (path k) in
  if (length parts <=? 1)%nat then [] else take (length parts - 1) parts.

Definition get_entity (k : Key) : string :=
  if String.eqb (path k) EmptyString then EmptyString
  else
    let parts := split_on slash (path k) in
    List.hd EmptyString (split_on dot (List.last parts EmptyString)).

Definition get_attributes (k : Key) : list string :=
  let entity_attrs_parts := split_on dot (path k) in
  if (length entity_attrs_parts <=? 1)%nat then [] else drop 1 entity_attrs_parts.

Definition get_component (k : Key) : option string := head (get_attributes k).

Definition from_parts (namespace : list string) (entity : string) (attributes : list string) : Key :=
  let namespace_str := join "/"%string namespace in
  let attributes_str := join "."%string attributes in
  mkKey
    (if negb (String.eqb namespace_str EmptyString) then
       if negb (String.eqb attributes_str EmptyString) then
         namespace_str +:+ "/"%string +:+ entity +:+ "."%string +:+ attributes_str
       else namespace_str +:+ "/"%string +:+ entity
     else if negb (String.eqb attributes_str EmptyString) then entity +:+ "."%string +:+ attributes_str
     else entity).

Definition with_component (k : Key) (component : string) : Key :=
  let attributes :=
    match get_attributes k with
    | _ :: rest => component :: rest
    | [] => [component]
    end in
  from_parts (get_namespace k) (get_entity k) attributes.

(** ** [Key::select] *)
Inductive SelectError :=
| NotAFieldId (attribute : string)
| MissingFieldId (id : Uuid)
| MissingField (attribute : string)
| NotAnIndex (attribute : string)
| IndexOutOfBounds (index : Z)
| NotIndexable (index : Z).

Definition is_digit (a : Ascii.ascii) : bool :=
  let n := Ascii.nat_of_ascii a in (48 <=? n)%nat && (n <=? 57)%nat.

Fixpoint parse_digits (acc : Z) (s : string) : option Z :=
  match s with
  | EmptyString => Some acc
  | String a s =>
      if is_digit a then parse_digits (10 * acc + Z.of_nat (Ascii.nat_of_ascii a - 48)) s else None
  end.

Section Select.
Context `{UC : UuidCrate}.
(** [usize::MAX] of the target. *)
Variable usize_max : Z.

(** [attribute.parse::<usize>()]: digits, after a [+] if there is one, that fit. *)
Definition parse_usize (s : string) : option Z :=
  let digits := match s with String a s' => if Ascii.eqb a "+"%char then s' else s | EmptyString => s end in
  match digits with
  | EmptyString => None
  | _ => match parse_digits 0 digits with
         | Some n => if (n <=? usize_max) then Some n else None
         | None => None
         end
  end.

(** [items.get(index)], wrapped as a value. *)
Definition get_at {A} (wrap : A → Value) (items : list A) (index : Z) : result SelectError Value :=
  match items !! Z.to_nat index with
  | Some x => Ok (wrap x)
  | None => Err (IndexOutOfBounds index)
  end.

Definition select_index (value : Value) (index : Z) : result SelectError Value :=
  match value with
  | Value.ArrayValue items => get_at id items index
  | Value.ArrayF32 items => get_at Value.F32 items index
  | Value.ArrayF64 items => get_at Value.F64 items index
  | Value.ArrayI8 items => get_at Value.I8 items index
  | Value.ArrayI16 items => get_at Value.I16 items index
  | Value.ArrayI32 items => get_at Value.I32 items index
  | Value.ArrayI64 items => get_at Value.I64 items index
  | Value.ArrayU8 items => get_at Value.U8 items index
  | Value.ArrayU16 items => get_at Value.U16 items index
  | Value.ArrayU32 items => get_at Value.U32 items index
  | Value.ArrayU64 items => get_at Value.U64 items index
  | Value.ArrayBoolean items => get_at Value.Boolean items index
  | Value.ArrayString items => get_at Value.String items index
  | _ => Err (NotIndexable index)
  end.

Definition select_attribute (value : Value) (attribute : string) : result SelectError Value :=
  match value with
  | Value.Structure structure =>
      match parse_str attribute with
      | None => Err (NotAFieldId attribute)
      | Some id =>
          match List.find (λ field, sf_id field =? id) (st_fields structure) with
          | Some field => Ok (sf_value field)
          | None => Err (MissingFieldId id)
          end
      end
  | Value.KeyValue kv =>
      match get_field attribute kv with
      | Some field => match kvf_value field with Some v => Ok v | None => Err (MissingField attribute) end
      | None => Err (MissingField attribute)
      end
  | _ =>
      match parse_usize attribute with
      | None => Err (NotAnIndex attribute)
      | Some index => select_index value index
      end
  end.

(** One level down per attribute, stopping at the first error. *)
Fixpoint select_path (attributes : list string) (current : Value) : result SelectError Value :=
  match attributes with
  | [] => Ok current
  | attribute :: attributes =>
      match select_attribute current attribute with
      | Ok current => select_path attributes current
      | Err e => Err e
      end
  end.

Definition select (k : Key) (value : Value) : result SelectError Value :=
  select_path (get_attributes k) value.
End Select.

(** ** Subtrees *)

(** [path.as_bytes().get(n) == Some(&b'/')] *)
Definition slash_at (n : nat) (s : string) : bool :=
  match String.get n s with Some a => Ascii.eqb a slash | None => false end.

Definition prefix_covers (prefix path : string) : bool :=
  String.eqb prefix EmptyString
  || String.eqb path prefix
  || (String.prefix prefix path && slash_at (String.length prefix) path).

(** The segments of a path. *)
Abbreviation segments := (split_on slash).

(** ** Lemmas *)

(** *** Splitting and joining *)

(** A string that does not hold a character. *)
Fixpoint lacks (c : Ascii.ascii) (s : string) : bool :=
  match s with
  | EmptyString => true
  | String a s => negb (Ascii.eqb a c) && lacks c s
  end.

Lemma split_on_cons c s : ∃ p ps, split_on c s = p :: ps.
Proof.
  destruct s as [|a s]; simpl; [eauto|]. destruct (Ascii.eqb a c); [eauto|].
  destruct (split_on c s); eauto.
Qed.

Lemma split_on_lacks c s : lacks c s = true → split_on c s = [s].
Proof.
  induction s as [|a s IH]; simpl; [done|]. intros [Ha Hs]%andb_true_iff.
  destruct (Ascii.eqb a c); [done|]. by rewrite IH.
Qed.

Lemma split_on_app_sep c s t : lacks c s = true →
  split_on c (s +:+ String c t) = s :: split_on c t.
Proof.
  induction s as [|a s IH]; simpl.
  - intros _. by rewrite Ascii.eqb_refl.
  - intros [Ha Hs]%andb_true_iff. destruct (Ascii.eqb a c); [done|]. by rewrite IH.
Qed.

Lemma split_on_Forall c s : Forall (λ p, lacks c p = true) (split_on c s).
Proof.
  induction s as [|a s IH]; simpl; [by repeat constructor|].
  destruct (Ascii.eqb a c) eqn:Ea; [by constructor|].
  destruct (split_on c s) as [|p ps]; [by repeat constructor; simpl; rewrite Ea|].
  inversion IH; subst. constructor; [|done]. simpl. by rewrite Ea.
Qed.

Lemma join_cons sep p q ps : join sep (p :: q :: ps) = p +:+ sep +:+ join sep (q :: ps).
Proof. done. Qed.

Lemma split_join c ps : ps ≠ [] → Forall (λ p, lacks c p = true) ps →
  split_on c (join (String c EmptyString) ps) = ps.
Proof.
  intros Hne Hps. induction Hps as [|p ps Hp Hps IH]; [done|].
  destruct ps as [|q ps]; [by apply split_on_lacks|].
  rewrite join_cons. change (String c EmptyString +:+ ?x) with (String c x).
  rewrite split_on_app_sep by done. by rewrite IH.
Qed.

Lemma join_split c s : join (String c EmptyString) (split_on c s) = s.
Proof.
  induction s as [|a s IH]; [done|]. cbn [split_on].
  destruct (split_on_cons c s) as (p & ps & E). rewrite E in *.
  destruct (Ascii.eqb_spec a c) as [->|_].
  - rewrite join_cons, IH. done.
  - destruct ps as [|q ps]; [by rewrite <- IH|]. rewrite join_cons in *. by rewrite <- IH.
Qed.

Lemma split_on_inj c s t : split_on c s = split_on c t → s = t.
Proof. intros E. by rewrite <- (join_split c s), E, join_split. Qed.

Lemma append_nil s : s +:+ EmptyString = s.
Proof. induction s as [|a s IH]; [done|]. change (String a (s +:+ EmptyString) = String a s). by rewrite IH. Qed.

Lemma append_assoc s t u : (s +:+ t) +:+ u = s +:+ (t +:+ u).
Proof. induction s as [|a s IH]; [done|]. change (String a ((s +:+ t) +:+ u) = String a (s +:+ (t +:+ u))). by rewrite IH. Qed.
Lemma length_append s t : String.length (s +:+ t) = (String.length s + String.length t)%nat.
Proof. induction s as [|a s IH]; [done|]. change (S (String.length (s +:+ t)) = S (String.length s + String.length t)). by rewrite IH. Qed.

Lemma split_on_app c s t : split_on c (s +:+ String c t) = split_on c s ++ split_on c t.
Proof.
  induction s as [|a s IH].
  - change (split_on c (String c t) = [EmptyString] ++ split_on c t). simpl. by rewrite Ascii.eqb_refl.
  - change (split_on c (String a (s +:+ String c t)) = split_on c (String a s) ++ split_on c t).
    cbn [split_on]. rewrite IH. destruct (Ascii.eqb a c); [done|].
    destruct (split_on_cons c s) as (p & ps & ->). done.
Qed.

Lemma join_app sep ps qs : ps ≠ [] → qs ≠ [] → join sep (ps ++ qs) = join sep ps +:+ sep +:+ join sep qs.
Proof.
  intros Hps Hqs. induction ps as [|p ps IH]; [done|]. destruct ps as [|p' ps].
  - destruct qs; [done|]. cbn [app]. by rewrite join_cons.
  - cbn [app] in *. rewrite !join_cons, IH by done. by rewrite !append_assoc.
Qed.

(** *** Subtrees *)
Lemma prefix_spec p s : String.prefix p s = true ↔ ∃ t, s = p +:+ t.
Proof.
  revert s. induction p as [|a p IH]; intros s.
  { split; [intros _; by exists s|]. by destruct s. }
  destruct s as [|b s]; [split; [done|by intros [t Ht]]|].
  change (∃ t, String b s = String a p +:+ t) with (∃ t, String b s = String a (p +:+ t)).
  simpl. destruct (Ascii.ascii_dec a b) as [->|Hne].
  - rewrite IH. split; intros [t Ht]; exists t; [by rewrite Ht|by injection Ht].
  - split; [done|]. intros [t Ht]. injection Ht. congruence.
Qed.

Lemma slash_at_app p t : slash_at (String.length p) (p +:+ t) = slash_at 0 t.
Proof. induction p as [|a p IH]; [done|]. apply IH. Qed.

Lemma prefix_covers_spec p k :
  prefix_covers p k = true ↔ p = EmptyString ∨ k = p ∨ ∃ t, k = p +:+ String slash t.
Proof.
  unfold prefix_covers. rewrite !orb_true_iff, andb_true_iff, !String.eqb_eq, prefix_spec.
  assert ((∃ t, k = p +:+ t) ∧ slash_at (String.length p) k = true ↔ ∃ t, k = p +:+ String slash t) as ->.
  - split.
    + intros [[t ->] Ht]. rewrite slash_at_app in Ht. destruct t as [|a t]; [done|].
      apply Ascii.eqb_eq in Ht as ->. eauto.
    + intros [t ->]. rewrite slash_at_app. split; [eauto|]. by apply Ascii.eqb_eq.
  - tauto.
Qed.

(** A prefix covers a path when its segments begin the path's. *)
Lemma prefix_covers_segments_gen p k :
  prefix_covers p k = true ↔ p = EmptyString ∨ segments p `prefix_of` segments k.
Proof.
  rewrite prefix_covers_spec. f_equiv. split.
  - intros [->|[t ->]]; [done|]. rewrite split_on_app. by eexists.
  - intros [l Hl]. destruct l as [|q l].
    + rewrite app_nil_r in Hl. apply split_on_inj in Hl. by left.
    + right. exists (join (String slash EmptyString) (q :: l)).
      rewrite <- (join_split slash k), Hl, join_app; [|destruct (split_on_cons slash p) as (?&?&->); done|done].
      by rewrite join_split.
Qed.

Lemma prefix_covers_empty k : prefix_covers EmptyString k = true.
Proof. done. Qed.
Lemma prefix_covers_refl k : prefix_covers k k = true.
Proof. rewrite prefix_covers_spec. auto. Qed.

Lemma prefix_covers_trans p q k :
  prefix_covers p q = true → prefix_covers q k = true → q ≠ EmptyString → prefix_covers p k = true.
Proof.
  rewrite !prefix_covers_segments_gen. intros [->|Hpq] [->|Hqk] Hq; try done; [by left..|].
  right. by trans (segments q).
Qed.

Lemma prefix_covers_append p t : prefix_covers p (p +:+ String slash t) = true.
Proof. rewrite prefix_covers_spec. eauto. Qed.

(** Two prefixes that cover one path: one covers the other. *)
Lemma prefix_covers_comparable p q k :
  prefix_covers p k = true → prefix_covers q k = true →
  prefix_covers p q = true ∨ prefix_covers q p = true.
Proof.
  rewrite !prefix_covers_segments_gen. intros [->|Hp] [->|Hq]; [by left; left|by left; left|by right; left|].
  destruct (prefix_weak_total _ _ _ Hp Hq); auto.
Qed.

Lemma prefix_covers_length p k : prefix_covers p k = true → (String.length p ≤ String.length k)%nat.
Proof.
  intros [->|[->|[t ->]]]%prefix_covers_spec; [simpl; lia|done|]. rewrite length_append. lia.
Qed.

(** Of the prefixes covering a path, one of each length. *)
Lemma prefix_covers_length_inj p q k :
  prefix_covers p k = true → prefix_covers q k = true →
  String.length p = String.length q → p = q.
Proof.
  intros Hp Hq Hl.
  assert (∀ p q, prefix_covers p q = true → String.length p = String.length q → p = q) as Hpq.
  { clear. intros p q [->|[->|[t ->]]]%prefix_covers_spec Hl.
    - by destruct q.
    - done.
    - rewrite length_append in Hl. simpl in Hl. lia. }
  destruct (prefix_covers_comparable _ _ _ Hp Hq); [auto|]. symmetry. auto.
Qed.

(** *** The naming convention *)
Lemma lacks_app c s t : lacks c (s +:+ t) = lacks c s && lacks c t.
Proof.
  induction s as [|a s IH]; [done|].
  change (lacks c (String a (s +:+ t)) = lacks c (String a s) && lacks c t). simpl.
  by rewrite IH, andb_assoc.
Qed.

Lemma lacks_join c sep ps : lacks c sep = true → Forall (λ p, lacks c p = true) ps → lacks c (join sep ps) = true.
Proof.
  intros Hsep Hps. induction Hps as [|p ps Hp Hps IH]; [done|].
  destruct ps as [|q ps]; [done|]. rewrite join_cons, !lacks_app, Hp, Hsep. done.
Qed.

Lemma split_on_pre c s t : lacks c s = true →
  split_on c (s +:+ t) = match split_on c t with p :: ps => (s +:+ p) :: ps | [] => [] end.
Proof.
  induction s as [|a s IH]; intros Hs.
  { change (EmptyString +:+ t) with t. destruct (split_on_cons c t) as (p & ps & ->). done. }
  cbn [lacks] in Hs. apply andb_true_iff in Hs as [Ha Hs].
  change (String a s +:+ t) with (String a (s +:+ t)). cbn [split_on]. rewrite (IH Hs).
  destruct (Ascii.eqb a c); [done|]. destruct (split_on_cons c t) as (p & ps & ->). done.
Qed.

(** A path is its namespaces, then its last segment. *)
Definition path_of (namespace : list string) (tail : string) : string :=
  match namespace with
  | [] => tail
  | _ => join "/"%string namespace +:+ "/"%string +:+ tail
  end.

Lemma segments_path_of ns tail :
  Forall (λ p, lacks slash p = true) ns → lacks slash tail = true →
  segments (path_of ns tail) = ns ++ [tail].
Proof.
  intros Hns Ht. destruct ns as [|n ns]; [by apply split_on_lacks|].
  unfold path_of. change ("/"%string +:+ tail) with (String slash tail).
  rewrite split_on_app, (split_join slash), (split_on_lacks slash tail) by done. done.
Qed.

Lemma path_of_segments ns tail : join "/"%string (ns ++ [tail]) = path_of ns tail.
Proof.
  destruct ns as [|n ns]; [done|]. unfold path_of. by rewrite join_app.
Qed.

Lemma get_namespace_app k ns tail : segments (path k) = ns ++ [tail] → get_namespace k = ns.
Proof.
  intros Hk. unfold get_namespace. rewrite Hk, length_app. simpl.
  destruct (Nat.leb_spec (length ns + 1) 1) as [Hl|Hl].
  - by destruct ns; [|simpl in Hl; lia].
  - by rewrite Nat.add_sub, take_app_length.
Qed.

Lemma get_entity_app k ns tail :
  segments (path k) = ns ++ [tail] → get_entity k = List.hd EmptyString (split_on dot tail).
Proof.
  intros Hk. unfold get_entity. destruct (String.eqb_spec (path k) EmptyString) as [E|_].
  - rewrite E in Hk. destruct ns as [|? [|]]; simplify_eq. by injection Hk as <-.
  - by rewrite Hk, List.last_last.
Qed.

(** Every key has such a reading. *)
Lemma key_segments k : ∃ ns tail, segments (path k) = ns ++ [tail] ∧
  Forall (λ p, lacks slash p = true) ns ∧ lacks slash tail = true.
Proof.
  pose proof (split_on_Forall slash (path k)) as Hf.
  destruct (exists_last (l := segments (path k))) as (ns & tail & E).
  { destruct (split_on_cons slash (path k)) as (? & ? & ->). done. }
  rewrite E in *. apply Forall_app in Hf as [Hns Ht]. inversion Ht; subst. eauto.
Qed.

(** The attributes, when no namespace holds a dot: those of the last segment. *)
Lemma get_attributes_app k ns tail :
  segments (path k) = ns ++ [tail] → Forall (λ p, lacks dot p = true) ns →
  get_attributes k = List.tl (split_on dot tail).
Proof.
  intros Hk Hns. unfold get_attributes.
  assert (path k = path_of ns tail) as ->.
  { rewrite <- path_of_segments, <- Hk. symmetry. apply (join_split slash). }
  assert (∃ s, lacks dot s = true ∧ path_of ns tail = s +:+ tail) as (s & Hs & ->).
  { destruct ns as [|n ns]; [by exists EmptyString|].
    exists (join "/"%string (n :: ns) +:+ "/"%string). split; [|by unfold path_of; rewrite append_assoc].
    rewrite lacks_app, lacks_join by done. done. }
  rewrite split_on_pre by done. destruct (split_on_cons dot tail) as (p & ps & ->).
  simpl. by destruct ps.
Qed.

(** What a key built from parts must be for reading it back to give the parts:
    the namespaces, and the attributes, not written as nothing. *)
Definition not_blank (sep : string) (parts : list string) : bool :=
  match parts with [] => true | _ => negb (String.eqb (join sep parts) EmptyString) end.
Definition plain (s : string) : bool := lacks slash s && lacks dot s.

(** The last segment: the entity, then its attributes. *)
Definition tail_of (entity : string) (attributes : list string) : string :=
  match attributes with
  | [] => entity
  | _ => entity +:+ "."%string +:+ join "."%string attributes
  end.

Lemma from_parts_path ns e attrs :
  not_blank "/"%string ns = true → not_blank "."%string attrs = true →
  from_parts ns e attrs = mkKey (path_of ns (tail_of e attrs)).
Proof.
  intros Hns Hattrs. unfold from_parts.
  destruct ns as [|n ns], attrs as [|a attrs]; cbn [not_blank] in *; try rewrite Hns; try rewrite Hattrs; done.
Qed.

Lemma split_tail_of e attrs : lacks dot e = true → Forall (λ p, lacks dot p = true) attrs →
  split_on dot (tail_of e attrs) = e :: attrs.
Proof.
  intros He Ha. destruct attrs as [|a attrs]; [by apply split_on_lacks|].
  unfold tail_of. change ("."%string +:+ ?x) with (String dot x).
  rewrite split_on_app_sep by done. by rewrite (split_join dot).
Qed.

Lemma lacks_tail_of e attrs : lacks slash e = true → Forall (λ p, lacks slash p = true) attrs →
  lacks slash (tail_of e attrs) = true.
Proof.
  intros He Ha. destruct attrs as [|a attrs]; [done|].
  unfold tail_of. by rewrite !lacks_app, He, lacks_join.
Qed.

Lemma Forall_plain ps : forallb plain ps = true →
  Forall (λ p, lacks slash p = true) ps ∧ Forall (λ p, lacks dot p = true) ps.
Proof.
  rewrite forallb_Forall. unfold plain. intros Hp.
  split; (eapply Forall_impl; [exact Hp|]); simpl; by intros p [? ?]%andb_true_iff.
Qed.

Lemma from_parts_read_gen ns e attrs :
  forallb plain ns = true → plain e = true → forallb plain attrs = true →
  not_blank "/"%string ns = true → not_blank "."%string attrs = true →
  get_namespace (from_parts ns e attrs) = ns ∧ get_entity (from_parts ns e attrs) = e ∧
  get_attributes (from_parts ns e attrs) = attrs.
Proof.
  intros [Hns1 Hns2]%Forall_plain [Hes Hed]%andb_true_iff [Ha1 Ha2]%Forall_plain Hwn Hwa.
  rewrite from_parts_path by done. set (k := mkKey _).
  assert (segments (path k) = ns ++ [tail_of e attrs]) as Hk.
  { apply segments_path_of; [done|by apply lacks_tail_of]. }
  rewrite (get_namespace_app _ _ _ Hk), (get_entity_app _ _ _ Hk), (get_attributes_app _ _ _ Hk Hns2).
  by rewrite split_tail_of.
Qed.

(** A key whose namespaces hold no dot reads as plain parts. *)
Definition conventional (k : Key) : bool :=
  forallb (lacks dot) (get_namespace k) && not_blank "/"%string (get_namespace k).

Lemma lacks_split c d s : lacks c s = true → Forall (λ p, lacks c p = true) (split_on d s).
Proof.
  induction s as [|a s IH]; [by repeat constructor|]. cbn [lacks split_on].
  intros [Ha Hs]%andb_true_iff. specialize (IH Hs).
  destruct (Ascii.eqb a d); [by constructor|].
  destruct (split_on_cons d s) as (p & ps & E). rewrite E in *. inversion IH; subst.
  constructor; [|done]. cbn [lacks]. by apply andb_true_iff.
Qed.

Lemma plain_intro ps : Forall (λ p, lacks slash p = true) ps → Forall (λ p, lacks dot p = true) ps →
  forallb plain ps = true.
Proof.
  intros H1 H2. apply forallb_Forall. eapply Forall_impl2; [exact H1|exact H2|].
  intros p. unfold plain. by intros -> ->.
Qed.

Lemma key_parts_plain k : forallb (lacks dot) (get_namespace k) = true →
  forallb plain (get_namespace k) = true ∧ plain (get_entity k) = true ∧
  forallb plain (get_attributes k) = true ∧
  path k = path_of (get_namespace k) (tail_of (get_entity k) (get_attributes k)).
Proof.
  destruct (key_segments k) as (ns & tail & Hk & Hns & Ht). rewrite (get_namespace_app _ _ _ Hk).
  intros Hd%forallb_Forall. rewrite (get_entity_app _ _ _ Hk), (get_attributes_app _ _ _ Hk Hd).
  pose proof (lacks_split slash dot tail Ht) as Hs. pose proof (split_on_Forall dot tail) as Hdot.
  pose proof (join_split dot tail) as Hj.
  destruct (split_on_cons dot tail) as (e & attrs & E). rewrite E in *. simpl.
  inversion Hs; inversion Hdot; subst. split_and!.
  - by apply plain_intro.
  - unfold plain. by apply andb_true_iff.
  - by apply plain_intro.
  - rewrite <- (join_split slash (path k)), Hk. by rewrite path_of_segments.
Qed.

(** ** Properties *)

(** [from_parts] and the readings are inverse: parts without [/] and [.] read
    back from the key they make. *)
Theorem from_parts_read ns e attrs :
  forallb plain ns = true → plain e = true → forallb plain attrs = true →
  not_blank "/"%string ns = true → not_blank "."%string attrs = true →
  get_namespace (from_parts ns e attrs) = ns ∧ get_entity (from_parts ns e attrs) = e ∧
  get_attributes (from_parts ns e attrs) = attrs.
Proof. apply from_parts_read_gen. Qed.

Lemma from_parts_read_witness :
  get_attributes (from_parts ["left"; "arm"]%string "shoulder"%string ["position"; "x"]%string)
  = ["position"; "x"]%string.
Proof. apply from_parts_read; reflexivity. Defined.

(** [with_component] sets the first attribute and nothing else: on a key whose
    attributes are on its last segment, the result has that component, the same
    namespaces, entity and further attributes. *)
Theorem with_component_spec k c :
  conventional k = true → plain c = true → c ≠ EmptyString →
  let k' := with_component k c in
  get_component k' = Some c ∧ get_namespace k' = get_namespace k ∧ get_entity k' = get_entity k ∧
  List.tl (get_attributes k') = List.tl (get_attributes k).
Proof.
  intros [Hd Hw]%andb_true_iff Hc Hne. destruct (key_parts_plain k Hd) as (Hns & He & Ha & _).
  unfold with_component. set (attrs := match get_attributes k with [] => _ | _ => _ end).
  assert (forallb plain attrs = true ∧ not_blank "."%string attrs = true ∧
    head attrs = Some c ∧ List.tl attrs = List.tl (get_attributes k)) as (Ha' & Hw' & Hh & Ht).
  { unfold attrs. assert (String.eqb c EmptyString = false) as Hcb by by apply String.eqb_neq.
    destruct (get_attributes k) as [|a [|a' l]]; simpl in *; rewrite ?Hc, ?Hcb; split_and?; try done.
    all: first [by destruct (plain a) | by destruct c ]. }
  cbv zeta. destruct (from_parts_read_gen _ _ _ Hns He Ha' Hw Hw') as (Hn' & He' & Hat).
  unfold get_component. by rewrite Hn', He', Hat.
Qed.

Lemma with_component_spec_witness :
  get_component (with_component (mkKey "robot/head_yaw.target_position"%string) "position"%string)
  = Some "position"%string.
Proof. apply with_component_spec; [reflexivity..|discriminate]. Defined.

(** What a prefix covers: [prefix_covers] is exactly the prefix order on
    segments, with the empty prefix over everything; [face] covers [face/mouth]
    and not [faceplate]. *)
Theorem prefix_covers_segments p k :
  prefix_covers p k = true ↔ p = EmptyString ∨ segments p `prefix_of` segments k.
Proof. apply prefix_covers_segments_gen. Qed.

(** A selector reads one attribute per level: [select] of a key whose
    attributes are those of two others in turn is the selection of the second in
    what the first selects, errors included. *)
Theorem select_compose `{UC : UuidCrate} usize_max k1 k2 k v :
  get_attributes k = get_attributes k1 ++ get_attributes k2 →
  select usize_max k v =
  match select usize_max k1 v with Ok w => select usize_max k2 w | Err e => Err e end.
Proof.
  unfold select. intros ->. generalize (get_attributes k2) as l2.
  revert v. induction (get_attributes k1) as [|a l1 IH]; intros v l2; [done|]. simpl.
  destruct (select_attribute usize_max v a); [apply IH|done].
Qed.

Lemma select_compose_witness :
  let v := Value.KeyValue (mkKeyValue 0
    [("a"%string, mkKeyValueField 1 "a" (Some (Value.ArrayU8 [5; 6])))]) in
  select (2 ^ 64 - 1) (mkKey ".a.1"%string) v =
  match select (2 ^ 64 - 1) (mkKey ".a"%string) v with
  | Ok w => select (2 ^ 64 - 1) (mkKey ".1"%string) w
  | Err e => Err e
  end.
Proof. apply select_compose. reflexivity. Defined.
