(* ===== verification/State.v ===== *)
(** * The blackboard's vocabulary: [State] and [StateChange] of
    [crates/arora-types/src/data/state.rs]

    The maps are keyed by [Key] and are not nested in values, so they are
    stdpp's [gmap] and [gset]; a loop over one visits its entries in an order
    the source does not specify ([map_to_list]). *)

From S2P Require Import Prelude Values Extern Keys.

(** ** [struct StateChange] *)
Record StateChange := mkStateChange {
  sc_set : gmap Key (option Value);
  sc_unset : gset Key;
}.

Definition sc_new : StateChange := mkStateChange ∅ ∅.
(** [StateChange::set] *)
Definition sc_single (key : Key) (value : Value) : StateChange :=
  mkStateChange {[ key := Some value ]} ∅.
(** [From<(String, Option<Value>)>] *)
Definition sc_from_pair (key : string) (value : option Value) : StateChange :=
  mkStateChange {[ mkKey key := value ]} ∅.
(** [From<Vec<(K, V)>>]: a later entry of one key replaces an earlier one. *)
Definition sc_from_vec (v : list (Key * Value)) : StateChange :=
  mkStateChange (foldl (λ m kv, <[ kv.1 := Some kv.2 ]> m) ∅ v) ∅.
Definition sc_is_empty (c : StateChange) : bool :=
  bool_decide (sc_set c = ∅) && bool_decide (sc_unset c = ∅).
Definition sc_len (c : StateChange) : nat := (size (sc_set c) + size (sc_unset c))%nat.
Definition sc_contains (c : StateChange) (key : Key) : bool :=
  bool_decide (is_Some (sc_set c !! key)) || bool_decide (key ∈ sc_unset c).

(** ** [struct State] *)
Record State := mkState { storage : gmap Key (option Value) }.

Definition state_new : State := mkState ∅.
Definition state_set (key : Key) (value : option Value) (s : State) : State :=
  mkState (<[ key := value ]> (storage s)).
Definition state_unset (key : Key) (s : State) : State := mkState (delete key (storage s)).
Definition state_get (s : State) (key : Key) : option (option Value) := storage s !! key.
Definition evaluate_as_bool (s : State) (key : Key) : bool :=
  match state_get s key with Some (Some (Value.Boolean b)) => b | _ => false end.
Definition state_is_empty (s : State) : bool := bool_decide (storage s = ∅).

Definition apply (changes : StateChange) (s : State) : State :=
  let s := foldl (λ s kv, mkState (<[ kv.1 := kv.2 ]> (storage s))) s (map_to_list (sc_set changes)) in
  foldl (λ s key, mkState (delete key (storage s))) s (elements (sc_unset changes)).

(** [enum Change<T>] *)
Inductive Change (T : Type) := Add (t : T) | Remove (t : T).

(** ** What a state holds: its values, a key set to nothing being a key that
    holds none. *)
Definition held (s : State) : gmap Key Value := omap id (storage s).

(** ** Lemmas *)
#[export] Instance StateChange_inhabited : Inhabited StateChange := populate sc_new.

Lemma sc_ext c d : sc_set c = sc_set d → sc_unset c = sc_unset d → c = d.
Proof. destruct c, d. simpl. by intros -> ->. Qed.

Lemma sc_is_empty_spec c : sc_is_empty c = true ↔ c = sc_new.
Proof.
  unfold sc_is_empty. rewrite andb_true_iff, !bool_decide_eq_true.
  split; [intros [? ?]; by apply sc_ext|by intros ->].
Qed.

Lemma foldl_insert_lookup {V} (l : list (Key * V)) (m : gmap Key V) k :
  NoDup l.*1 →
  foldl (λ m kv, <[ kv.1 := kv.2 ]> m) m l !! k =
  match list_to_map (M := gmap Key V) l !! k with Some v => Some v | None => m !! k end.
Proof.
  revert m. induction l as [|[k' v] l IH]; intros m Hd; [done|].
  rewrite fmap_cons, NoDup_cons in Hd. destruct Hd as [Hk' Hd]. cbn [foldl fst snd].
  rewrite IH by done. rewrite list_to_map_cons. destruct (decide (k = k')) as [->|Hne].
  - rewrite lookup_insert_eq, (not_elem_of_list_to_map_1 _ _ Hk'). by rewrite lookup_insert_eq.
  - by rewrite !lookup_insert_ne by done.
Qed.

Lemma foldl_state {A} (f : A → gmap Key (option Value) → gmap Key (option Value)) l s :
  foldl (λ s a, mkState (f a (storage s))) s l = mkState (foldl (λ m a, f a m) (storage s) l).
Proof. revert s. induction l as [|a l IH]; intros s; [by destruct s|]. simpl. by rewrite IH. Qed.

Lemma foldl_delete_lookup {V} (l : list Key) (m : gmap Key V) k :
  foldl (λ m k, delete k m) m l !! k = if decide (k ∈ l) then None else m !! k.
Proof.
  revert m. induction l as [|k' l IH]; intros m; cbn [foldl].
  { by rewrite decide_False by set_solver. }
  rewrite IH. destruct (decide (k ∈ l)).
  - by rewrite decide_True by set_solver.
  - destruct (decide (k = k')) as [->|].
    + by rewrite lookup_delete_eq, decide_True by set_solver.
    + by rewrite lookup_delete_ne, decide_False by set_solver.
Qed.

(** [apply], pointwise. *)
Lemma apply_lookup c s k :
  storage (apply c s) !! k =
  if decide (k ∈ sc_unset c) then None
  else match sc_set c !! k with Some v => Some v | None => storage s !! k end.
Proof.
  unfold apply.
  rewrite (foldl_state (λ k m, delete k m)), (foldl_state (λ kv m, <[ kv.1 := kv.2 ]> m)). simpl.
  rewrite foldl_delete_lookup, foldl_insert_lookup by apply NoDup_fst_map_to_list.
  rewrite list_to_map_to_list.
  destruct (decide (k ∈ elements (sc_unset c))), (decide (k ∈ sc_unset c)); set_solver.
Qed.

Lemma held_lookup s k : held s !! k = match storage s !! k with Some v => v | None => None end.
Proof. unfold held. rewrite lookup_omap. by destruct (storage s !! k). Qed.

Lemma held_apply_lookup c s k :
  held (apply c s) !! k =
  if decide (k ∈ sc_unset c) then None
  else match sc_set c !! k with Some v => v | None => held s !! k end.
Proof.
  rewrite !held_lookup, apply_lookup. destruct (decide _); [done|]. by destruct (sc_set c !! k).
Qed.

Lemma state_ext s t : storage s = storage t → s = t.
Proof. destruct s, t. simpl. by intros ->. Qed.

Lemma apply_empty s : apply sc_new s = s.
Proof. apply state_ext, map_eq. intros k. rewrite apply_lookup, decide_False by set_solver. done. Qed.
