(* ===== verification/Store.v ===== *)
(** * The data-store interface: [crates/arora-types/src/data/store.rs]

    Subscriptions and their translations, key meta, and [DataStore], the
    interface stores implement: a class of operations, with the trait's default
    methods, and a class of laws, what the trait's documentation promises. A
    store is shared and mutated in place: its operations pass its state. *)

From S2P Require Import Prelude Values Extern Keys State.

Inductive DataError := NoSuchKey (k : string) | Other (msg : string).

(** ** [struct Subscription]

    The receiving end of a channel, named by the channel's id, and what a
    derived subscription makes of what it receives. The channel's content is
    the store's state's. *)
Record Translation := mkTranslation {
  translate : StateChange → StateChange;
  opened : bool;
}.
Record Subscription := mkSubscription {
  rx : nat;
  translation : option Translation;
}.

Definition sub_new (rx : nat) : Subscription := mkSubscription rx None.

Definition sub_map (sub : Subscription) (f : StateChange → StateChange) : Subscription :=
  let translation :=
    match translation sub with
    | None => mkTranslation f false
    | Some t => mkTranslation (λ change, f (translate t change)) (opened t)
    end in
  mkSubscription (rx sub) (Some translation).

(** [opened.replace(true)] leaves the subscription changed. *)
Definition deliver (sub : Subscription) (change : StateChange) : Subscription * option StateChange :=
  match translation sub with
  | None => (sub, Some change)
  | Some t =>
      let change := translate t change in
      (mkSubscription (rx sub) (Some (mkTranslation (translate t) true)),
       if negb (opened t) || negb (sc_is_empty change) then Some change else None)
  end.

(** [try_recv] on what the channel holds: the next change delivered, the
    subscription and the channel's content after it. *)
Fixpoint try_recv (sub : Subscription) (queue : list StateChange) :
    option StateChange * Subscription * list StateChange :=
  match queue with
  | [] => (None, sub, [])
  | change :: queue =>
      match deliver sub change with
      | (sub, Some change) => (Some change, sub, queue)
      | (sub, None) => try_recv sub queue
      end
  end.

(** [recv]: the same, but on a channel with nothing left it waits while a sender
    lives, and answers [None] once none does. *)
Inductive Received :=
| Got (change : StateChange)
| Closed
| Waiting.
Definition recv (sub : Subscription) (queue : list StateChange) (sender_alive : bool) :
    Received * Subscription * list StateChange :=
  match try_recv sub queue with
  | (Some change, sub, queue) => (Got change, sub, queue)
  | (None, sub, queue) => (if sender_alive then Waiting else Closed, sub, queue)
  end.

(** [try_iter], drained. *)
Fixpoint try_iter (sub : Subscription) (queue : list StateChange) : list StateChange * Subscription :=
  match queue with
  | [] => ([], sub)
  | change :: queue =>
      match deliver sub change with
      | (sub, Some change) => let '(changes, sub) := try_iter sub queue in (change :: changes, sub)
      | (sub, None) => try_iter sub queue
      end
  end.

(** ** [struct KeyMeta] *)
Record KeyMeta := mkKeyMeta {
  km_ty : option Ty.Type_;
  km_min : option Z;
  km_max : option Z;
  km_unit : option string;
  km_default : option Value;
  km_description : option string;
  km_editable : bool;
}.
Definition km_new : KeyMeta := mkKeyMeta None None None None None None false.
Definition editable (m : KeyMeta) : KeyMeta :=
  mkKeyMeta (km_ty m) (km_min m) (km_max m) (km_unit m) (km_default m) (km_description m) true.
Definition range (min max : Z) (m : KeyMeta) : KeyMeta :=
  mkKeyMeta (km_ty m) (Some min) (Some max) (km_unit m) (km_default m) (km_description m) (km_editable m).
Definition in_unit (unit : string) (m : KeyMeta) : KeyMeta :=
  mkKeyMeta (km_ty m) (km_min m) (km_max m) (Some unit) (km_default m) (km_description m) (km_editable m).
Definition resting_at (value : Value) (m : KeyMeta) : KeyMeta :=
  mkKeyMeta (km_ty m) (km_min m) (km_max m) (km_unit m) (Some value) (km_description m) (km_editable m).
Definition described (description : string) (m : KeyMeta) : KeyMeta :=
  mkKeyMeta (km_ty m) (km_min m) (km_max m) (km_unit m) (km_default m) (Some description) (km_editable m).
Definition of_type (ty : Ty.Type_) (m : KeyMeta) : KeyMeta :=
  mkKeyMeta (Some ty) (km_min m) (km_max m) (km_unit m) (km_default m) (km_description m) (km_editable m).

(** ** The changes under a prefix *)
Definition covered (prefix : string) (key : Key) : bool := prefix_covers prefix (path key).

(** [change.set.keys().chain(&change.unset).all(covered)] *)
Definition all_covered (prefix : string) (change : StateChange) : bool :=
  forallb (covered prefix) (map_to_list (sc_set change)).*1
  && forallb (covered prefix) (elements (sc_unset change)).

Definition keep_under (prefix : string) (change : StateChange) : StateChange :=
  if all_covered prefix change then change
  else
    mkStateChange (filter (λ kv, covered prefix kv.1 = true) (sc_set change))
                  (filter (λ key, covered prefix key = true) (sc_unset change)).

(** ** [trait DataStore]

    [S] is the state a store shares with its clones, [SlotHandle] what a [Slot]
    holds. [queue s rx] is what the channel of a subscription holds. *)
Class DataStore (S : Type) := {
  SlotHandle : Type;
  read : S → list Key → list (option Value);
  write : StateChange → S → result DataError S;
  snapshot : S → State;
  slot : Key → S → SlotHandle * S;
  slot_get : SlotHandle → S → option Value;
  slot_set : SlotHandle → option Value → S → result DataError S;
  subscribe_prefix : string → S → Subscription * S;
  queue : S → nat → list StateChange;
  dequeue : nat → list StateChange → S → S;
  meta : S → list Key → list (option KeyMeta);
  all_meta : S → gmap Key KeyMeta;
  set_meta : gmap Key KeyMeta → S → result DataError S;
  set_prefix_meta : gmap string KeyMeta → S → result DataError S;
}.

(** The default methods: a store without routing subscribes through [keep_under];
    a store without meta answers nothing and refuses it. *)
Definition default_subscribe_prefix {S} (subscribe : S → Subscription * S) (prefix : string) (s : S) :
    Subscription * S :=
  let '(sub, s) := subscribe s in (sub_map sub (keep_under prefix), s).
Definition default_meta {S} (s : S) (keys : list Key) : list (option KeyMeta) :=
  replicate (length keys) None.
Definition default_all_meta {S} (s : S) : gmap Key KeyMeta := ∅.
Definition default_set_meta {S} (m : gmap Key KeyMeta) (s : S) : result DataError S :=
  Err (Other "this store keeps no key meta").
Definition default_set_prefix_meta {S} (m : gmap string KeyMeta) (s : S) : result DataError S :=
  Err (Other "this store keeps no key meta").

(** ** What the trait promises

    Stated key by key, so that a view of a store is proved from its inner store. *)

(** What a key holds after a write of [new] over [old]: a value equal to the one
    it holds leaves it. *)
Definition keep (old new : option Value) : option Value :=
  if option_eqb value_eqb old new then old else new.

(** What a key that holds [old] holds after the batch [c]. *)
Definition write_at (c : StateChange) (key : Key) (old : option Value) : option Value :=
  if decide (key ∈ sc_unset c) then None
  else match sc_set c !! key with Some new => keep old new | None => old end.

(** What a reader of the feed knows of a key after the change [c]. *)
Definition apply_at (key : Key) (known : option Value) (c : StateChange) : option Value :=
  if decide (key ∈ sc_unset c) then None
  else match sc_set c !! key with Some new => new | None => known end.

(** What a subscription makes of a change, and the subscription once it has
    delivered one. *)
Definition tr (sub : Subscription) (c : StateChange) : StateChange :=
  match translation sub with None => c | Some t => translate t c end.
Definition sub_opened (sub : Subscription) : Subscription :=
  match translation sub with
  | None => sub
  | Some t => mkSubscription (rx sub) (Some (mkTranslation (translate t) true))
  end.

(** A channel's content left after taking some of it from the front. *)
Definition pending {S} `{DataStore S} (s : S) (sub : Subscription) : list StateChange :=
  (try_iter sub (queue s (rx sub))).1.

Class DataStoreLaws (S : Type) `{DataStore S} := {
  ok : S → Prop;
  (** the values the store holds *)
  contents : S → Key → option Value;
  (** a slot of a key; a subscription to a prefix *)
  slot_of : S → SlotHandle → Key → Prop;
  live : S → Subscription → string → Prop;

  (** one state evolves into another: handles stay valid, and a subscriber that
      the pending changes bring in step with the store stays so *)
  evolves : S → S → Prop :=
    λ s s', ok s' ∧ (∀ h k, slot_of s h k → slot_of s' h k) ∧
      (∀ sub p, live s sub p → live s' sub p) ∧
      (∀ sub p k known, live s sub p → covered p k = true →
        foldl (apply_at k) known (pending s sub) = contents s k →
        foldl (apply_at k) known (pending s' sub) = contents s' k);

  read_law s keys : ok s → read s keys = contents s <$> keys;
  snapshot_law s k : ok s → held (snapshot s) !! k = contents s k;
  write_law s c : ok s → ∃ s', write c s = Ok s' ∧ evolves s s' ∧
    ∀ k, contents s' k = write_at c k (contents s k);
  slot_law s k h s' : ok s → slot k s = (h, s') →
    evolves s s' ∧ (∀ j, contents s' j = contents s j) ∧ slot_of s' h k;
  slot_get_law s h k : ok s → slot_of s h k → slot_get h s = contents s k;
  slot_set_law s h k v : ok s → slot_of s h k → ∃ s', slot_set h v s = Ok s' ∧ evolves s s' ∧
    ∀ j, contents s' j = if decide (j = k) then keep (contents s k) v else contents s j;
  subscribe_law s p sub s' : ok s → subscribe_prefix p s = (sub, s') →
    evolves s s' ∧ (∀ k, contents s' k = contents s k) ∧ live s' sub p ∧
    ∀ k, covered p k = true → foldl (apply_at k) None (pending s' sub) = contents s' k;
  (** a subscriber is sent the keys under its prefix alone *)
  routing_law s sub p : ok s → live s sub p → Forall (λ c, all_covered p c = true) (pending s sub);
  live_opened s sub p : live s sub p → live s (sub_opened sub) p;
  dequeue_law s sub p q : ok s → live s sub p → q `suffix_of` queue s (rx sub) →
    let s' := dequeue (rx sub) q s in
    ok s' ∧ (∀ k, contents s' k = contents s k) ∧ queue s' (rx sub) = q ∧
    (∀ h k, slot_of s h k → slot_of s' h k) ∧
    ∀ sub' p', live s sub' p' → live s' sub' p' ∧
      (rx sub' ≠ rx sub → queue s' (rx sub') = queue s (rx sub'));
}.

(** ** Lemmas *)

Lemma deliver_spec sub c :
  deliver sub c = (sub_opened sub, if (match translation sub with None => true | Some t => negb (opened t) end)
                                      || negb (sc_is_empty (tr sub c))
                                   then Some (tr sub c) else None).
Proof.
  unfold deliver, sub_opened, tr. destruct sub as [r [t|]]; [|done]. simpl. done.
Qed.

Lemma rx_sub_opened sub : rx (sub_opened sub) = rx sub.
Proof. unfold sub_opened. by destruct (translation sub). Qed.
Lemma tr_sub_opened sub c : tr (sub_opened sub) c = tr sub c.
Proof. unfold tr, sub_opened. destruct sub as [r [t|]]; done. Qed.
Lemma sub_opened_idemp sub : sub_opened (sub_opened sub) = sub_opened sub.
Proof. unfold sub_opened. by destruct sub as [r [t|]]. Qed.
Lemma tr_sub_map sub f c : tr (sub_map sub f) c = f (tr sub c).
Proof. unfold tr, sub_map. destruct sub as [r [t|]]; done. Qed.
#[export] Hint Rewrite rx_sub_opened tr_sub_opened sub_opened_idemp tr_sub_map : arora.

Lemma apply_at_empty k known : apply_at k known sc_new = known.
Proof. unfold apply_at. by rewrite decide_False by set_solver. Qed.

Lemma apply_at_held k c s : held (apply c s) !! k = apply_at k (held s !! k) c.
Proof. apply held_apply_lookup. Qed.

(** Dropping the empty changes drops nothing of what they say. *)
Lemma fold_try_iter k sub q : ∀ known,
  foldl (apply_at k) known (try_iter sub q).1 = foldl (apply_at k) known (tr sub <$> q).
Proof.
  revert sub. induction q as [|c q IH]; intros sub known; [done|]. cbn [try_iter fmap list_fmap foldl].
  rewrite deliver_spec. assert (tr sub <$> q = tr (sub_opened sub) <$> q) as ->.
  { apply list_fmap_ext. intros. by rewrite tr_sub_opened. }
  destruct (_ || _) eqn:E.
  - specialize (IH (sub_opened sub) (apply_at k known (tr sub c))).
    destruct (try_iter (sub_opened sub) q). simpl in *. exact IH.
  - apply orb_false_iff in E as [_ E]. apply negb_false_iff, sc_is_empty_spec in E.
    rewrite E, apply_at_empty. apply IH.
Qed.

Lemma fold_pending {S} `{DataStore S} (s : S) sub k known :
  foldl (apply_at k) known (pending s sub) = foldl (apply_at k) known (tr sub <$> queue s (rx sub)).
Proof. apply fold_try_iter. Qed.

(** [try_recv] takes the first change [try_iter] would deliver. *)
Lemma try_recv_spec sub q :
  match try_recv sub q with
  | (Some c, sub', q') => sub' = sub_opened sub ∧ q' `suffix_of` q ∧
      (try_iter sub q).1 = c :: (try_iter sub' q').1
  | (None, sub', q') => q' = [] ∧ (try_iter sub q).1 = [] ∧ (sub' = sub ∨ sub' = sub_opened sub)
  end.
Proof.
  revert sub. induction q as [|c q IH]; intros sub; [naive_solver|]. cbn [try_recv try_iter].
  rewrite deliver_spec. destruct (_ || _).
  - split; [done|]. split; [by eexists [_]|]. by destruct (try_iter _ q).
  - specialize (IH (sub_opened sub)). destruct (try_recv _ q) as [[[c'|] sub'] q'].
    + destruct IH as (-> & [l ->] & IH). split; [apply sub_opened_idemp|].
      split; [by eexists (_ :: l)|]. exact IH.
    + destruct IH as (-> & ? & IH). rewrite sub_opened_idemp in IH. naive_solver.
Qed.

Lemma evolves_refl {S} `{DataStoreLaws S} (s : S) : ok s → evolves s s.
Proof. intros Hs. unfold evolves. naive_solver. Qed.

Lemma evolves_trans {S} `{DataStoreLaws S} (s1 s2 s3 : S) : evolves s1 s2 → evolves s2 s3 → evolves s1 s3.
Proof.
  intros (O1 & S1 & L1 & F1) (O2 & S2 & L2 & F2). unfold evolves. split_and!; eauto 8.
Qed.

(** ** A subscriber, while the store is used *)
Section Observer.
Context {S : Type} `{DSL : DataStoreLaws S}.

(** The store, a subscription, and the state its holder has built from it. *)
Record Observer := mkObserver { obs_store : S; obs_sub : Subscription; obs_state : State }.

(** The store is used by whoever holds it; the observer receives. *)
Inductive obs_step : Observer → Observer → Prop :=
| step_write s s' sub m c :
    write c s = Ok s' → obs_step (mkObserver s sub m) (mkObserver s' sub m)
| step_slot s s' sub m k h :
    slot k s = (h, s') → obs_step (mkObserver s sub m) (mkObserver s' sub m)
| step_slot_set s s' sub m h k v :
    slot_of s h k → slot_set h v s = Ok s' → obs_step (mkObserver s sub m) (mkObserver s' sub m)
| step_subscribe s s' sub m p sub' :
    subscribe_prefix p s = (sub', s') → obs_step (mkObserver s sub m) (mkObserver s' sub m)
| step_other_receive s sub m p sub' q :
    live s sub' p → rx sub' ≠ rx sub → q `suffix_of` queue s (rx sub') →
    obs_step (mkObserver s sub m) (mkObserver (dequeue (rx sub') q s) sub m)
| step_receive s sub m c sub' q :
    try_recv sub (queue s (rx sub)) = (Some c, sub', q) →
    obs_step (mkObserver s sub m) (mkObserver (dequeue (rx sub) q s) sub' (apply c m)).

Definition obs_inv (p : string) (o : Observer) : Prop :=
  ok (obs_store o) ∧ live (obs_store o) (obs_sub o) p ∧
  (∀ k, covered p k = true →
     foldl (apply_at k) (held (obs_state o) !! k) (pending (obs_store o) (obs_sub o))
     = contents (obs_store o) k) ∧
  (∀ k, covered p k = false → held (obs_state o) !! k = None).

Lemma obs_inv_evolves p s s' sub m :
  evolves s s' → obs_inv p (mkObserver s sub m) → obs_inv p (mkObserver s' sub m).
Proof.
  intros (O & _ & L & F) (_ & Hl & Hc & Hn). unfold obs_inv in *. simpl in *. split_and!; eauto.
Qed.

Lemma all_covered_apply p c k known :
  all_covered p c = true → covered p k = false → apply_at k known c = known.
Proof.
  unfold all_covered. rewrite andb_true_iff, !forallb_Forall, !Forall_forall. intros [Hs Hu] Hk.
  unfold apply_at. rewrite decide_False.
  - destruct (sc_set c !! k) as [v|] eqn:E; [|done].
    rewrite (Hs k) in Hk; [done|]. apply list_elem_of_fmap. exists (k, v).
    split; [done|by apply elem_of_map_to_list].
  - intros Hin. rewrite (Hu k) in Hk; [done|]. by apply elem_of_elements.
Qed.

Lemma obs_inv_receive p s sub m c sub' q :
  try_recv sub (queue s (rx sub)) = (Some c, sub', q) →
  obs_inv p (mkObserver s sub m) → obs_inv p (mkObserver (dequeue (rx sub) q s) sub' (apply c m)).
Proof.
  intros Hr (Ho & Hl & Hc & Hn). unfold obs_inv in *. simpl in *.
  pose proof (routing_law s sub p Ho Hl) as Hroute.
  pose proof (try_recv_spec sub (queue s (rx sub))) as Hspec. rewrite Hr in Hspec.
  destruct Hspec as (-> & Hq & Hp). unfold pending in Hc, Hroute. rewrite Hp in Hc, Hroute.
  destruct (dequeue_law s sub p q Ho Hl Hq) as (Ho' & Hc' & Hq' & _ & Hl').
  split; [done|]. split; [by apply live_opened, Hl'|]. apply Forall_cons in Hroute as [Hcc _].
  split; intros k Hk.
  - unfold pending. rewrite rx_sub_opened, Hq', Hc', apply_at_held. by apply Hc.
  - rewrite apply_at_held, (all_covered_apply p) by done. auto.
Qed.

Lemma obs_inv_other p s sub m p' sub' q :
  live s sub' p' → rx sub' ≠ rx sub → q `suffix_of` queue s (rx sub') →
  obs_inv p (mkObserver s sub m) → obs_inv p (mkObserver (dequeue (rx sub') q s) sub m).
Proof.
  intros Hl' Hne Hq (Ho & Hl & Hc & Hn). unfold obs_inv in *. simpl in *.
  destruct (dequeue_law s sub' p' q Ho Hl' Hq) as (Ho' & Hc' & _ & _ & Hl'').
  destruct (Hl'' sub p Hl) as [Hl1 Hq1]. split_and!; [done|done| |done].
  intros k Hk. unfold pending. rewrite Hq1, Hc' by done. by apply Hc.
Qed.

Lemma obs_inv_step p o o' : obs_step o o' → obs_inv p o → obs_inv p o'.
Proof.
  intros Hstep Hinv. destruct Hstep as [s s' sub m c E|s s' sub m k h E|s s' sub m h k v Hh E
    |s s' sub m p' sub' E|s sub m p' sub' q Hl Hne Hq|s sub m c sub' q E].
  - destruct (write_law s c (proj1 Hinv)) as (s1 & E1 & Hev & _).
    assert (s1 = s') as -> by congruence. by apply (obs_inv_evolves p s).
  - destruct (slot_law s k h s' (proj1 Hinv) E) as (Hev & _). by apply (obs_inv_evolves p s).
  - destruct (slot_set_law s h k v (proj1 Hinv) Hh) as (s1 & E1 & Hev & _).
    assert (s1 = s') as -> by congruence. by apply (obs_inv_evolves p s).
  - destruct (subscribe_law s p' sub' s' (proj1 Hinv) E) as (Hev & _). by apply (obs_inv_evolves p s).
  - by apply (obs_inv_other p s sub m p').
  - by apply (obs_inv_receive p s sub m c).
Qed.

Lemma obs_inv_steps p o o' : rtc obs_step o o' → obs_inv p o → obs_inv p o'.
Proof. induction 1; eauto using obs_inv_step. Qed.

Lemma obs_inv_start p s sub s' :
  ok s → subscribe_prefix p s = (sub, s') → obs_inv p (mkObserver s' sub state_new).
Proof.
  intros Ho E. destruct (subscribe_law s p sub s' Ho E) as ((Ho' & _) & _ & Hl & Hc).
  unfold obs_inv. simpl. split_and!; [done|done| |].
  - intros k Hk. rewrite held_lookup. simpl. rewrite lookup_empty. by apply Hc.
  - intros k _. rewrite held_lookup. simpl. by rewrite lookup_empty.
Qed.

(** ** Properties *)

(** C4. A subscription mirrors its store, for any store that keeps the trait's
    promises: whoever applies every change it receives to an empty state holds,
    whenever its feed is drained, exactly the values the store holds under its
    prefix, and nothing else, whatever was written, through the store or its slots,
    whoever else subscribed and received meanwhile. *)
Theorem subscriber_mirrors_store p s sub s1 s2 sub2 m :
  ok s → subscribe_prefix p s = (sub, s1) →
  rtc obs_step (mkObserver s1 sub state_new) (mkObserver s2 sub2 m) →
  pending s2 sub2 = [] →
  ∀ k, held m !! k = if covered p k then contents s2 k else None.
Proof.
  intros Ho E Hsteps Hp k. pose proof (obs_inv_start p s sub s1 Ho E) as Hinv.
  eapply obs_inv_steps in Hinv; [|exact Hsteps]. destruct Hinv as (_ & _ & Hc & Hn). simpl in *.
  rewrite Hp in Hc. destruct (covered p k) eqn:Hk; [by apply Hc|by apply Hn].
Qed.
End Observer.

Lemma try_iter_opened r f q :
  (try_iter (mkSubscription r (Some (mkTranslation f true))) q).1
  = filter (λ c, sc_is_empty c = false) (f <$> q).
Proof.
  induction q as [|c q IH]; [done|]. cbn [try_iter]. rewrite fmap_cons, filter_cons.
  unfold deliver. cbn [translation translate opened negb orb rx].
  destruct (sc_is_empty (f c)) eqn:E.
  - by rewrite decide_False.
  - rewrite decide_True by done. by destruct (try_iter _ q); simpl in *; f_equal.
Qed.

(** Reading a mapped subscription is reading the feed it is built on, change by
    change: the opening state translated, even to nothing, then every later change
    the translation leaves something of, in order. A view of a view translates
    with one function after the other. *)
Theorem sub_map_delivers r f g (opening : StateChange) rest :
  (try_iter (sub_map (sub_new r) f) (opening :: rest)).1
    = f opening :: filter (λ c, sc_is_empty c = false) (f <$> rest) ∧
  sub_map (sub_map (sub_new r) f) g = sub_map (sub_new r) (g ∘ f).
Proof.
  split; [|done]. cbn [try_iter]. unfold sub_map, deliver. cbn [translation sub_new rx translate opened negb orb].
  pose proof (try_iter_opened r f rest) as Hq.
  by destruct (try_iter _ rest); simpl in *; f_equal.
Qed.
