(* ===== verification/SimpleStore.v ===== *)
(** * The hash-map store: [crates/arora-simple-data-store/src/lib.rs]

    [SimpleDataStore]'s clones and slots share one [Inner]: the state below. A
    [Cell], an [Arc<RwLock<Option<Value>>>], is a location of its heap, which a
    slot keeps; a channel and the [Arc<()>] that tells whether its subscription is
    alive are named by the channel's id. Each operation here runs without another
    in between; [Interleaving.v] takes them apart. *)

From S2P Require Import Prelude Values Extern Keys State Store.

Abbreviation loc := nat.

Record Chan := mkChan { ch_queue : list StateChange; ch_receiver : bool }.

Record Subscriber := mkSubscriber { s_prefix : string; s_tx : nat; s_alive : nat }.

Record Inner := mkInner {
  cells : gmap Key loc;
  own_meta : gmap Key KeyMeta;
  prefix_meta : gmap string KeyMeta;
  subscribers : list Subscriber;
  heap : gmap loc (option Value);
  chans : gmap nat Chan;
  arcs : gset nat;   (* the [Arc<()>]s with a strong reference left *)
}.

Definition inner_new : Inner := mkInner ∅ ∅ ∅ [] ∅ ∅ ∅.

Definition with_cells (c : gmap Key loc) (h : gmap loc (option Value)) (s : Inner) : Inner :=
  mkInner c (own_meta s) (prefix_meta s) (subscribers s) h (chans s) (arcs s).
Definition with_heap (h : gmap loc (option Value)) (s : Inner) : Inner := with_cells (cells s) h s.
Definition with_chans (c : gmap nat Chan) (s : Inner) : Inner :=
  mkInner (cells s) (own_meta s) (prefix_meta s) (subscribers s) (heap s) c (arcs s).
Definition with_subscribers (l : list Subscriber) (c : gmap nat Chan) (s : Inner) : Inner :=
  mkInner (cells s) (own_meta s) (prefix_meta s) l (heap s) c (arcs s).
Definition with_meta (m : gmap Key KeyMeta) (p : gmap string KeyMeta) (s : Inner) : Inner :=
  mkInner (cells s) m p (subscribers s) (heap s) (chans s) (arcs s).

(** ** Cells *)

(** [cell.read().unwrap().clone()] *)
Definition cell_get (l : loc) (s : Inner) : option Value := default None (heap s !! l).
Definition cell_put (l : loc) (v : option Value) (s : Inner) : Inner := with_heap (<[ l := v ]> (heap s)) s.

(** [SimpleDataStore::cell]: get, or create, a key's cell. *)
Definition cell (key : Key) (s : Inner) : loc * Inner :=
  match cells s !! key with
  | Some l => (l, s)
  | None => let l := fresh (dom (heap s)) in
            (l, with_cells (<[ key := l ]> (cells s)) (<[ l := None ]> (heap s)) s)
  end.

(** ** Notification *)

(** [tx.send(part)], which fails once the receiver is gone. *)
Definition send (tx : nat) (part : StateChange) (c : gmap nat Chan) : gmap nat Chan * bool :=
  match c !! tx with
  | Some ch =>
      if ch_receiver ch then (<[ tx := mkChan (ch_queue ch ++ [part]) true ]> c, true) else (c, false)
  | None => (c, false)
  end.

Definition part_of (sub : Subscriber) (change : StateChange) : StateChange :=
  if all_covered (s_prefix sub) change then change
  else
    mkStateChange (filter (λ kv, covered (s_prefix sub) kv.1 = true) (sc_set change))
                  (filter (λ key, covered (s_prefix sub) key = true) (sc_unset change)).

(** Whether [retain] keeps a subscriber, once it is sent its part. *)
Definition notify_one (arcs : gset nat) (change : StateChange) (sub : Subscriber) (c : gmap nat Chan) :
    gmap nat Chan * bool :=
  if negb (bool_decide (s_alive sub ∈ arcs)) then (c, false)
  else
    let part := part_of sub change in
    if sc_is_empty part then (c, true) else send (s_tx sub) part c.

Fixpoint retain (arcs : gset nat) (change : StateChange) (subs : list Subscriber) (c : gmap nat Chan) :
    list Subscriber * gmap nat Chan :=
  match subs with
  | [] => ([], c)
  | sub :: subs =>
      let '(c, kept) := notify_one arcs change sub c in
      let '(subs, c) := retain arcs change subs c in
      (if kept then sub :: subs else subs, c)
  end.

Definition notify (change : StateChange) (s : Inner) : Inner :=
  if sc_is_empty change then s
  else let '(subs, c) := retain (arcs s) change (subscribers s) (chans s) in with_subscribers subs c s.

(** ** [impl DataStore for SimpleDataStore] *)
Definition simple_read (s : Inner) (keys : list Key) : list (option Value) :=
  (λ k, match cells s !! k with Some l => cell_get l s | None => None end) <$> keys.

(** One key of a batch: what it leaves of the store and of the effective change. *)
Definition write_set (se : Inner * StateChange) (kv : Key * option Value) : Inner * StateChange :=
  let '(s, effective) := se in
  let '(key, value) := kv in
  let '(l, s) := cell key s in
  if negb (option_eqb value_eqb (cell_get l s) value) then
    (cell_put l value s, mkStateChange (<[ key := value ]> (sc_set effective)) (sc_unset effective))
  else (s, effective).

Definition write_unset (se : Inner * StateChange) (key : Key) : Inner * StateChange :=
  let '(s, effective) := se in
  let '(l, s) := cell key s in
  match cell_get l s with
  | Some _ => (cell_put l None s, mkStateChange (sc_set effective) ({[ key ]} ∪ sc_unset effective))
  | None => (s, effective)
  end.

(** The cells written by a batch, and the changes it comes to. *)
Definition write_cells (changes : StateChange) (s : Inner) : Inner * StateChange :=
  foldl write_unset (foldl write_set (s, sc_new) (map_to_list (sc_set changes)))
    (elements (sc_unset changes)).

Definition simple_write (changes : StateChange) (s : Inner) : result DataError Inner :=
  let '(s, effective) := write_cells changes s in
  Ok (if negb (sc_is_empty effective) then notify effective s else s).

Definition simple_snapshot (s : Inner) : State := mkState ((λ l, cell_get l s) <$> cells s).

(** [struct SimpleSlot]; its [inner] is the state every operation passes. *)
Record SimpleSlot := mkSimpleSlot { sl_cell : loc; sl_key : Key }.

Definition simple_slot (key : Key) (s : Inner) : SimpleSlot * Inner :=
  let '(l, s) := cell key s in (mkSimpleSlot l key, s).

Definition simple_slot_get (h : SimpleSlot) (s : Inner) : option Value := cell_get (sl_cell h) s.

Definition simple_slot_set (h : SimpleSlot) (value : option Value) (s : Inner) : result DataError Inner :=
  if option_eqb value_eqb (cell_get (sl_cell h) s) value then Ok s
  else Ok (notify (mkStateChange {[ sl_key h := value ]} ∅) (cell_put (sl_cell h) value s)).

(** What a new subscriber first receives. *)
Definition opening_state (prefix : string) (s : Inner) : StateChange :=
  mkStateChange
    (filter (λ kv, covered prefix kv.1 = true) ((λ l, cell_get l s) <$> cells s)) ∅.

(** Pushing a subscriber, the channel holding what it first receives. *)
Definition attach (prefix : string) (opening : StateChange) (s : Inner) : Subscription * Inner :=
  let rx := fresh (dom (chans s)) in
  (* [alive] is held by the subscription's translation *)
  (sub_map (sub_new rx) id,
   mkInner (cells s) (own_meta s) (prefix_meta s)
     (subscribers s ++ [mkSubscriber prefix rx rx]) (heap s)
     (<[ rx := mkChan [opening] true ]> (chans s)) ({[ rx ]} ∪ arcs s)).

Definition simple_subscribe_prefix (prefix : string) (s : Inner) : Subscription * Inner :=
  attach prefix (opening_state prefix s) s.

(** Dropping a [Subscription]: its receiver, and the [alive] it holds. *)
Definition drop_subscription (sub : Subscription) (s : Inner) : Inner :=
  mkInner (cells s) (own_meta s) (prefix_meta s) (subscribers s) (heap s)
    (alter (λ ch, mkChan (ch_queue ch) false) (rx sub) (chans s)) (arcs s ∖ {[ rx sub ]}).

Definition simple_queue (s : Inner) (rx : nat) : list StateChange :=
  match chans s !! rx with Some ch => ch_queue ch | None => [] end.
Definition simple_dequeue (rx : nat) (q : list StateChange) (s : Inner) : Inner :=
  with_chans (alter (λ ch, mkChan q (ch_receiver ch)) rx (chans s)) s.

(** *** Meta *)

(** [max_by_key(|(prefix, _)| prefix.len())]: of several as long, the last one
    visited. *)
Fixpoint max_by_len (l : list (string * KeyMeta)) (best : option (string * KeyMeta)) :
    option (string * KeyMeta) :=
  match l with
  | [] => best
  | e :: l =>
      max_by_len l
        match best with
        | Some b => if (String.length b.1 <=? String.length e.1)%nat then Some e else Some b
        | None => Some e
        end
  end.

Definition simple_meta (s : Inner) (keys : list Key) : list (option KeyMeta) :=
  (λ key,
     match own_meta s !! key with
     | Some m => Some m
     | None =>
         snd <$> max_by_len
           (filter (λ pm, prefix_covers pm.1 (path key) = true) (map_to_list (prefix_meta s))) None
     end) <$> keys.

Definition simple_all_meta (s : Inner) : gmap Key KeyMeta := own_meta s.
Definition simple_set_meta (m : gmap Key KeyMeta) (s : Inner) : result DataError Inner :=
  Ok (with_meta (m ∪ own_meta s) (prefix_meta s) s).
Definition simple_set_prefix_meta (m : gmap string KeyMeta) (s : Inner) : result DataError Inner :=
  Ok (with_meta (own_meta s) (m ∪ prefix_meta s) s).

#[export] Instance SimpleDataStore : DataStore Inner := {|
  SlotHandle := SimpleSlot;
  read := simple_read;
  write := simple_write;
  snapshot := simple_snapshot;
  slot := simple_slot;
  slot_get := simple_slot_get;
  slot_set := simple_slot_set;
  subscribe_prefix := simple_subscribe_prefix;
  queue := simple_queue;
  dequeue := simple_dequeue;
  meta := simple_meta;
  all_meta := simple_all_meta;
  set_meta := simple_set_meta;
  set_prefix_meta := simple_set_prefix_meta;
|}.

(** ** The store's invariant, and what it holds *)
Record simple_ok (s : Inner) : Prop := {
  ok_cells : ∀ k l, cells s !! k = Some l → is_Some (heap s !! l);
  ok_inj : ∀ k k' l, cells s !! k = Some l → cells s !! k' = Some l → k = k';
  ok_tx : NoDup (s_tx <$> subscribers s);
  ok_chans : ∀ sub, sub ∈ subscribers s → is_Some (chans s !! s_tx sub) ∧ s_alive sub = s_tx sub;
}.

Definition simple_contents (s : Inner) (k : Key) : option Value :=
  match cells s !! k with Some l => cell_get l s | None => None end.

Definition simple_slot_of (s : Inner) (h : SimpleSlot) (k : Key) : Prop :=
  sl_key h = k ∧ cells s !! k = Some (sl_cell h).

(** A subscription to a prefix: in the store's list, not dropped, passing every
    change through, and sent nothing from outside its prefix. *)
Definition simple_live (s : Inner) (sub : Subscription) (p : string) : Prop :=
  ∃ entry ch, entry ∈ subscribers s ∧ s_prefix entry = p ∧ s_tx entry = rx sub ∧ s_alive entry ∈ arcs s ∧
    chans s !! rx sub = Some ch ∧ ch_receiver ch = true ∧
    Forall (λ c, all_covered p c = true) (ch_queue ch) ∧ ∀ c, tr sub c = c.

(** Nothing but the cells differs. *)
Definition same_subscribers (s s' : Inner) : Prop :=
  subscribers s' = subscribers s ∧ chans s' = chans s ∧ arcs s' = arcs s ∧
  own_meta s' = own_meta s ∧ prefix_meta s' = prefix_meta s.

(** A write to the cells: no cell is lost. *)
Definition cells_step (s s' : Inner) : Prop :=
  simple_ok s' ∧ cells s ⊆ cells s' ∧ same_subscribers s s'.

(** ** Lemmas *)
#[export] Instance same_subscribers_preorder : PreOrder same_subscribers.
Proof. split; [by intros s|]. unfold same_subscribers. intros s1 s2 s3. naive_solver congruence. Qed.

Lemma cells_step_refl s : simple_ok s → cells_step s s.
Proof. by intros. Qed.
Lemma cells_step_trans s1 s2 s3 : cells_step s1 s2 → cells_step s2 s3 → cells_step s1 s3.
Proof. intros (? & ? & ?) (? & ? & ?). split; [done|]. split; [by trans (cells s2)|by trans s2]. Qed.

(** *** Cells *)
Lemma cell_spec key s l s' :
  simple_ok s → cell key s = (l, s') →
  cells_step s s' ∧ cells s' !! key = Some l ∧
  (∀ k, simple_contents s' k = simple_contents s k) ∧ cell_get l s' = simple_contents s key.
Proof.
  intros [Hc Hi Ht Hch]. unfold cell, simple_contents. destruct (cells s !! key) as [l0|] eqn:E.
  { intros [= -> ->]. rewrite E. split; [by split|]. done. }
  intros [= <- <-]. set (l0 := fresh (dom (heap s))).
  assert (heap s !! l0 = None) as Hf by apply not_elem_of_dom, is_fresh.
  assert (∀ k l, cells s !! k = Some l → l ≠ l0) as Hne.
  { intros k l1 Hk ->. destruct (Hc _ _ Hk). congruence. }
  split; [split; [split|split]|]; simpl.
  - intros k l1. rewrite lookup_insert. case_decide; simplify_eq.
    + intros [= <-]. by rewrite lookup_insert_eq.
    + intros Hk. rewrite lookup_insert_ne by (intros ->; by eapply Hne). by eapply Hc.
  - intros k k' l1. rewrite !lookup_insert. repeat case_decide; simplify_eq; try done.
    + intros [= <-] Hk. by apply Hne in Hk.
    + intros Hk [= <-]. by apply Hne in Hk.
    + apply Hi.
  - done.
  - done.
  - by apply insert_subseteq.
  - done.
  - rewrite lookup_insert_eq. split; [done|]. split.
    + intros k. rewrite lookup_insert. case_decide; simplify_eq.
      * unfold cell_get. simpl. by rewrite lookup_insert_eq, E.
      * destruct (cells s !! k) as [l1|] eqn:Ek; [|done]. unfold cell_get. simpl.
        rewrite lookup_insert_ne; [done|]. intros ->. by eapply Hne.
    + unfold cell_get. simpl. by rewrite lookup_insert_eq.
Qed.

Lemma cell_put_spec key l v s :
  simple_ok s → cells s !! key = Some l →
  cells_step s (cell_put l v s) ∧
  ∀ k, simple_contents (cell_put l v s) k = if decide (k = key) then v else simple_contents s k.
Proof.
  intros [Hc Hi Ht Hch] Hk. split; [split; [split|]|]; simpl; try done.
  - intros k l1 Hk1. rewrite lookup_insert. case_decide; [done|by eapply Hc].
  - intros k. unfold simple_contents, cell_get. simpl. case_decide as Hd.
    + subst. by rewrite Hk, lookup_insert_eq.
    + destruct (cells s !! k) as [l1|] eqn:E; [|done]. rewrite lookup_insert_ne; [done|].
      intros ->. by eapply Hd, Hi.
Qed.

(** *** The cells a batch writes *)
Definition differs (old new : option Value) : bool := negb (option_eqb value_eqb old new).

Lemma write_set_spec s eff key value s' eff' :
  simple_ok s → write_set (s, eff) (key, value) = (s', eff') →
  cells_step s s' ∧
  (∀ k, simple_contents s' k =
        if decide (k = key) then keep (simple_contents s key) value else simple_contents s k) ∧
  eff' = if differs (simple_contents s key) value
         then mkStateChange (<[ key := value ]> (sc_set eff)) (sc_unset eff) else eff.
Proof.
  intros Hok. unfold write_set. destruct (cell key s) as [l s1] eqn:E.
  destruct (cell_spec _ _ _ _ Hok E) as (H1 & Hk & Hcon & Hg). rewrite Hg.
  unfold keep, differs. destruct (option_eqb value_eqb (simple_contents s key) value) eqn:Eq; simpl; intros [= <- <-].
  - split; [done|]. split; [|done]. intros k. case_decide; [by subst|done].
  - destruct (cell_put_spec key l value s1 (proj1 H1) Hk) as (H2 & Hp).
    split; [by eapply cells_step_trans|]. split; [|done].
    intros k. rewrite Hp. case_decide; [done|apply Hcon].
Qed.

Lemma write_unset_spec s eff key s' eff' :
  simple_ok s → write_unset (s, eff) key = (s', eff') →
  cells_step s s' ∧
  (∀ k, simple_contents s' k = if decide (k = key) then None else simple_contents s k) ∧
  eff' = match simple_contents s key with
         | Some _ => mkStateChange (sc_set eff) ({[ key ]} ∪ sc_unset eff)
         | None => eff
         end.
Proof.
  intros Hok. unfold write_unset. destruct (cell key s) as [l s1] eqn:E.
  destruct (cell_spec _ _ _ _ Hok E) as (H1 & Hk & Hcon & Hg). rewrite Hg.
  destruct (simple_contents s key) eqn:Eq; intros [= <- <-].
  - destruct (cell_put_spec key l None s1 (proj1 H1) Hk) as (H2 & Hp).
    split; [by eapply cells_step_trans|]. split; [|done].
    intros k. rewrite Hp. case_decide; [done|apply Hcon].
  - split; [done|]. split; [|done]. intros k. case_decide; [by subst; rewrite Hcon|done].
Qed.

Lemma write_sets_spec l : ∀ s eff s' eff',
  NoDup l.*1 → simple_ok s → foldl write_set (s, eff) l = (s', eff') →
  cells_step s s' ∧ sc_unset eff' = sc_unset eff ∧
  ∀ k, match list_to_map (M := gmap Key (option Value)) l !! k with
       | Some v =>
           simple_contents s' k = keep (simple_contents s k) v ∧
           sc_set eff' !! k = if differs (simple_contents s k) v then Some v else sc_set eff !! k
       | None => simple_contents s' k = simple_contents s k ∧ sc_set eff' !! k = sc_set eff !! k
       end.
Proof.
  induction l as [|[key v] l IH]; intros s eff s' eff' Hd Hok E.
  { simpl in E. simplify_eq. by split; [|split]. }
  rewrite fmap_cons, NoDup_cons in Hd. destruct Hd as [Hn Hd]. cbn [foldl] in E.
  destruct (write_set (s, eff) (key, v)) as [s1 eff1] eqn:E1.
  destruct (write_set_spec _ _ _ _ _ _ Hok E1) as (H1 & Hc1 & He1).
  destruct (IH _ _ _ _ Hd (proj1 H1) E) as (H2 & Hu & Hc2).
  split; [by eapply cells_step_trans|]. split.
  { rewrite Hu, He1. by destruct (differs _ _). }
  intros k. specialize (Hc2 k). rewrite Hc1 in Hc2. rewrite list_to_map_cons, lookup_insert.
  destruct (decide (k = key)) as [->|Hk].
  - rewrite decide_True by done. rewrite (not_elem_of_list_to_map_1 _ _ Hn) in Hc2.
    destruct Hc2 as [-> ->]. split; [done|]. rewrite He1.
    destruct (differs _ _); [by apply lookup_insert_eq|done].
  - rewrite decide_False by congruence.
    assert (sc_set eff1 !! k = sc_set eff !! k) as Heq.
    { rewrite He1. destruct (differs _ _); [by apply lookup_insert_ne|done]. }
    by rewrite Heq in Hc2.
Qed.

Lemma write_unsets_spec l : ∀ s eff s' eff',
  NoDup l → simple_ok s → foldl write_unset (s, eff) l = (s', eff') →
  cells_step s s' ∧ sc_set eff' = sc_set eff ∧
  ∀ k, simple_contents s' k = (if decide (k ∈ l) then None else simple_contents s k) ∧
       (k ∈ sc_unset eff' ↔ k ∈ sc_unset eff ∨ k ∈ l ∧ is_Some (simple_contents s k)).
Proof.
  induction l as [|key l IH]; intros s eff s' eff' Hd Hok E.
  { simpl in E. simplify_eq. split; [done|]. split; [done|]. intros k.
    rewrite decide_False by set_solver. set_solver. }
  rewrite NoDup_cons in Hd. destruct Hd as [Hn Hd]. cbn [foldl] in E.
  destruct (write_unset (s, eff) key) as [s1 eff1] eqn:E1.
  destruct (write_unset_spec _ _ _ _ _ Hok E1) as (H1 & Hc1 & He1).
  destruct (IH _ _ _ _ Hd (proj1 H1) E) as (H2 & Hs & Hc2).
  split; [by eapply cells_step_trans|]. split.
  { rewrite Hs, He1. by destruct (simple_contents s key). }
  intros k. destruct (Hc2 k) as [Hck Huk]. rewrite Hck, Huk, Hc1.
  assert (k ∈ sc_unset eff1 ↔ k ∈ sc_unset eff ∨ k = key ∧ is_Some (simple_contents s key)) as Hu1.
  { rewrite He1. clear. destruct (simple_contents s key) eqn:Eq; simpl.
    - rewrite elem_of_union, elem_of_singleton, is_Some_alt. tauto.
    - rewrite is_Some_alt. tauto. }
  rewrite Hu1. destruct (decide (k = key)) as [->|Hne].
  - rewrite (decide_False (P := key ∈ l)) by done. rewrite decide_True by by left.
    split; [done|]. rewrite elem_of_cons, !is_Some_alt. tauto.
  - split; [|rewrite elem_of_cons; tauto]. destruct (decide (k ∈ l)).
    + by rewrite decide_True by by right.
    + rewrite decide_False; [done|]. intros [?|?]%elem_of_cons; done.
Qed.

(** A batch, key by key: what it leaves, and the change it comes to. *)
Lemma write_cells_spec c s s' eff :
  simple_ok s → write_cells c s = (s', eff) →
  cells_step s s' ∧
  ∀ k, simple_contents s' k = write_at c k (simple_contents s k) ∧
    sc_set eff !! k =
      match sc_set c !! k with
      | Some v => if differs (simple_contents s k) v then Some v else None
      | None => None
      end ∧
    (k ∈ sc_unset eff ↔ k ∈ sc_unset c ∧
      is_Some match sc_set c !! k with Some v => keep (simple_contents s k) v | None => simple_contents s k end).
Proof.
  intros Hok. unfold write_cells. destruct (foldl write_set _ _) as [s1 eff1] eqn:E1. intros E2.
  destruct (write_sets_spec _ _ _ _ _ (NoDup_fst_map_to_list _) Hok E1) as (H1 & Hu1 & Hc1).
  destruct (write_unsets_spec _ _ _ _ _ (NoDup_elements _) (proj1 H1) E2) as (H2 & Hs2 & Hc2).
  split; [by eapply cells_step_trans|]. intros k. specialize (Hc1 k). destruct (Hc2 k) as [Hck Huk].
  rewrite list_to_map_to_list in Hc1. rewrite Hck, Hs2, Huk, Hu1.
  assert (simple_contents s1 k =
    match sc_set c !! k with Some v => keep (simple_contents s k) v | None => simple_contents s k end) as Hs1.
  { by destruct (sc_set c !! k); destruct Hc1. }
  rewrite Hs1. split_and!.
  - unfold write_at. destruct (decide (k ∈ elements _)), (decide (k ∈ sc_unset c)); set_solver.
  - destruct (sc_set c !! k); destruct Hc1 as [_ ->]; done.
  - set_solver.
Qed.

(** *** Notification *)
Lemma part_of_keep_under sub c : part_of sub c = keep_under (s_prefix sub) c.
Proof. done. Qed.

Lemma all_covered_keep_under p c : all_covered p (keep_under p c) = true.
Proof.
  unfold keep_under. destruct (all_covered p c) eqn:E; [done|].
  unfold all_covered. apply andb_true_iff. rewrite !forallb_Forall, !Forall_forall. simpl. split.
  - intros k Hk. apply list_elem_of_fmap in Hk as ([k' v] & -> & Hk).
    apply elem_of_map_to_list, map_lookup_filter_Some in Hk as [_ Hk]. exact Hk.
  - intros k Hk. apply elem_of_elements, elem_of_filter in Hk as [Hk _]. exact Hk.
Qed.

(** Under its prefix, a part says what the change says. *)
Lemma apply_at_keep_under p c k known :
  covered p k = true → apply_at k known (keep_under p c) = apply_at k known c.
Proof.
  intros Hk. unfold keep_under. destruct (all_covered p c); [done|]. unfold apply_at. simpl.
  assert (filter (λ kv : Key * option Value, covered p kv.1 = true) (sc_set c) !! k = sc_set c !! k) as ->.
  { apply option_eq. intros v. rewrite map_lookup_filter_Some. simpl. naive_solver. }
  destruct (decide (k ∈ sc_unset c)).
  - by rewrite decide_True by (by apply elem_of_filter).
  - by rewrite decide_False by (rewrite elem_of_filter; naive_solver).
Qed.

(** What a channel holds once its subscriber is sent its part. *)
Definition sent (p : string) (change : StateChange) : list StateChange :=
  if sc_is_empty (keep_under p change) then [] else [keep_under p change].

Definition reachable_sub (a : gset nat) (c : gmap nat Chan) (sub : Subscriber) (q : list StateChange) : Prop :=
  s_alive sub ∈ a ∧ c !! s_tx sub = Some (mkChan q true).

Lemma notify_one_spec a change sub c c' kept :
  notify_one a change sub c = (c', kept) →
  (∀ q, reachable_sub a c sub q →
     kept = true ∧ reachable_sub a c' sub (q ++ sent (s_prefix sub) change)) ∧
  (s_alive sub ∉ a → kept = false) ∧
  (∀ r, r ≠ s_tx sub → c' !! r = c !! r) ∧ dom c' = dom c.
Proof.
  unfold notify_one, reachable_sub, sent. rewrite part_of_keep_under.
  destruct (bool_decide_reflect (s_alive sub ∈ a)) as [Ha|Ha]; simpl.
  2: { intros [= <- <-]. naive_solver. }
  destruct (sc_is_empty _); [intros [= <- <-]; setoid_rewrite app_nil_r; naive_solver|].
  unfold send. destruct (c !! s_tx sub) as [[q []]|] eqn:E; simpl; intros [= <- <-].
  - split_and!; [|done| |].
    + intros q' [_ [= ->]]. by rewrite lookup_insert_eq.
    + intros r Hr. by rewrite lookup_insert_ne.
    + apply dom_insert_lookup_L. by rewrite E.
  - split_and!; [by intros q' [_ ?]|done..].
  - split_and!; [by intros q' [_ ?]|done..].
Qed.

Lemma retain_spec a change subs : ∀ c subs' c',
  NoDup (s_tx <$> subs) → retain a change subs c = (subs', c') →
  (∀ sub q, sub ∈ subs → reachable_sub a c sub q →
     sub ∈ subs' ∧ reachable_sub a c' sub (q ++ sent (s_prefix sub) change)) ∧
  (∀ sub, sub ∈ subs' → sub ∈ subs ∧ s_alive sub ∈ a) ∧ NoDup (s_tx <$> subs') ∧
  (∀ r, r ∉ s_tx <$> subs → c' !! r = c !! r) ∧ dom c' = dom c.
Proof.
  induction subs as [|sub subs IH]; intros c subs' c' Hd E.
  { simpl in E. simplify_eq. set_solver. }
  rewrite fmap_cons, NoDup_cons in Hd. destruct Hd as [Hn Hd]. cbn [retain] in E.
  destruct (notify_one a change sub c) as [c1 kept] eqn:E1.
  destruct (retain a change subs c1) as [subs1 c2] eqn:E2. injection E as <- <-.
  destruct (notify_one_spec _ _ _ _ _ _ E1) as (Hr1 & Hk1 & Ho1 & Hdom1).
  destruct (IH _ _ _ Hd E2) as (Hr2 & Hs2 & Hd2 & Ho2 & Hdom2).
  split_and!.
  - intros sub' q Hin Hr. apply elem_of_cons in Hin as [->|Hin].
    + destruct (Hr1 _ Hr) as [-> [Ha Hc1]]. split; [by left|]. split; [done|]. by rewrite Ho2.
    + assert (s_tx sub' ≠ s_tx sub) as Hne.
      { intros Heq. apply Hn. rewrite <- Heq. by apply list_elem_of_fmap_2. }
      destruct (Hr2 sub' q Hin) as [Hin' Hr'].
      { destruct Hr as [Ha Hc]. split; [done|]. by rewrite Ho1. }
      split; [destruct kept; [by right|done]|done].
  - intros sub' Hin. destruct kept eqn:Ek.
    + apply elem_of_cons in Hin as [->|Hin]; [|destruct (Hs2 _ Hin); split; [by right|done]].
      split; [by left|]. destruct (decide (s_alive sub ∈ a)); [done|]. by discriminate Hk1.
    + destruct (Hs2 _ Hin). split; [by right|done].
  - destruct kept; [|done]. rewrite fmap_cons. apply NoDup_cons. split; [|done].
    intros Hin. apply Hn. apply list_elem_of_fmap in Hin as (sub' & -> & Hin).
    apply list_elem_of_fmap_2. by apply Hs2.
  - intros r [Hr1' Hr2']%not_elem_of_cons. by rewrite Ho2, Ho1.
  - by rewrite Hdom2.
Qed.

(** A channel only grows. *)
Definition grows (c c' : gmap nat Chan) : Prop := ∀ r ch', c' !! r = Some ch' →
  ∃ ch, c !! r = Some ch ∧ ch_receiver ch = ch_receiver ch' ∧ ch_queue ch `prefix_of` ch_queue ch'.

Lemma retain_grows a change subs : ∀ c, grows c (retain a change subs c).2.
Proof.
  induction subs as [|sub subs IH]; intros c; cbn [retain]; [intros r ch' Hr; eauto|].
  destruct (notify_one a change sub c) as [c1 kept] eqn:E1.
  assert (grows c c1) as H1.
  { unfold notify_one, send in E1. intros r ch' Hr. repeat case_match; simplify_eq; eauto.
    rewrite lookup_insert in Hr. case_decide; simplify_eq; [|eauto].
    eexists; split; [done|]. split; [done|]. by eexists. }
  specialize (IH c1). destruct (retain a change subs c1) as [subs1 c2]. simpl in *.
  intros r ch' Hr. destruct (IH _ _ Hr) as (ch1 & Hr1 & Ho1 & Hp1). destruct (H1 _ _ Hr1) as (ch & Hr0 & Ho & Hp).
  exists ch. split; [done|]. split; [congruence|]. by trans (ch_queue ch1).
Qed.

Lemma notify_live_rev change s sub p :
  simple_ok s → simple_live (notify change s) sub p → simple_live s sub p.
Proof.
  intros Hok. unfold notify. destruct (sc_is_empty change); [done|].
  pose proof (retain_grows (arcs s) change (subscribers s) (chans s)) as Hg.
  destruct (retain _ _ _ _) as [subs c] eqn:E.
  destruct (retain_spec _ _ _ _ _ _ (ok_tx s Hok) E) as (_ & Hs & _).
  intros (e & ch & He & Hp & Htx & Ha & Hch & Ho & Hcov & Htr). simpl in *.
  destruct (Hg _ _ Hch) as (ch0 & Hch0 & Ho0 & [l Hl]). exists e, ch0. split_and!; try done.
  - by apply Hs.
  - by rewrite Ho0.
  - rewrite Hl in Hcov. by apply Forall_app in Hcov as [? _].
Qed.

Lemma sent_covered p c : Forall (λ c, all_covered p c = true) (sent p c).
Proof. unfold sent. destruct (sc_is_empty _); repeat constructor. apply all_covered_keep_under. Qed.

Lemma sent_empty p : sent p sc_new = [].
Proof. unfold sent, keep_under. by destruct (all_covered p sc_new). Qed.

Lemma fold_sent p c k known : covered p k = true →
  foldl (apply_at k) known (sent p c) = apply_at k known c.
Proof.
  intros Hk. rewrite <- (apply_at_keep_under p c k) by done. unfold sent.
  destruct (sc_is_empty _) eqn:E; [|done]. apply sc_is_empty_spec in E. by rewrite E, apply_at_empty.
Qed.

Lemma live_queue s sub p : simple_live s sub p →
  ∃ entry, entry ∈ subscribers s ∧ s_prefix entry = p ∧ s_tx entry = rx sub ∧
    reachable_sub (arcs s) (chans s) entry (simple_queue s (rx sub)).
Proof.
  intros (entry & [q b] & Hin & Hp & Htx & Ha & Hch & Hopen & _). exists entry. split_and!; try done.
  split; [done|]. unfold simple_queue. rewrite Htx, Hch. simpl in *. by subst.
Qed.

Lemma notify_spec s change :
  simple_ok s →
  simple_ok (notify change s) ∧ cells (notify change s) = cells s ∧ heap (notify change s) = heap s ∧
  ∀ sub p, simple_live s sub p →
    simple_live (notify change s) sub p ∧
    simple_queue (notify change s) (rx sub) = simple_queue s (rx sub) ++ sent p change.
Proof.
  intros [Hc Hi Ht Hch]. unfold notify. destruct (sc_is_empty change) eqn:Ee.
  { apply sc_is_empty_spec in Ee as ->. setoid_rewrite sent_empty. setoid_rewrite app_nil_r. done. }
  destruct (retain _ _ _ _) as [subs' c'] eqn:E.
  destruct (retain_spec _ _ _ _ _ _ Ht E) as (Hr & Hs & Hd & _ & Hdom).
  split_and!; [split; simpl|done|done|].
  - done.
  - done.
  - done.
  - intros sub [Hin _]%Hs. destruct (Hch _ Hin) as [Hsome ?]. split; [|done].
    apply elem_of_dom. rewrite Hdom. by apply elem_of_dom.
  - intros sub p Hlive. destruct (live_queue _ _ _ Hlive) as (entry & Hin & Hp & Htx & Hreach).
    destruct (Hr _ _ Hin Hreach) as [Hin' [Ha' Hch']].
    destruct Hlive as (_ & ch & _ & _ & _ & _ & Hch0 & _ & Hcov & Htr).
    rewrite Htx, Hp in Hch'. split; [|by unfold simple_queue at 1; simpl; rewrite Hch'].
    exists entry, (mkChan (simple_queue s (rx sub) ++ sent p change) true). split_and!; try done.
    simpl. apply Forall_app. split; [|apply sent_covered]. unfold simple_queue. by rewrite Hch0.
Qed.

Lemma contents_ext s s' k : cells s' = cells s → heap s' = heap s → simple_contents s' k = simple_contents s k.
Proof. unfold simple_contents, cell_get. by intros -> ->. Qed.

Lemma live_same s s' sub p : same_subscribers s s' → simple_live s sub p → simple_live s' sub p.
Proof. intros (Hs & Hc & Ha & _). unfold simple_live. by rewrite Hs, Hc, Ha. Qed.

Lemma queue_same s s' r : same_subscribers s s' → simple_queue s' r = simple_queue s r.
Proof. intros (_ & Hc & _). unfold simple_queue. by rewrite Hc. Qed.

Lemma live_tr s sub p (q : list StateChange) : simple_live s sub p → tr sub <$> q = q.
Proof.
  intros (? & ? & _ & _ & _ & _ & _ & _ & _ & Htr). rewrite <- (list_fmap_id q) at 2.
  by apply list_fmap_ext.
Qed.

Lemma fold_simple_pending s sub p k known : simple_live s sub p →
  foldl (apply_at k) known (pending s sub) = foldl (apply_at k) known (simple_queue s (rx sub)).
Proof. intros Hl. rewrite fold_pending. simpl. by rewrite (live_tr s sub p). Qed.

(** What an operation that writes cells, then notifies, leaves: [eff] says to
    whoever knew the contents before what they are after. *)
Lemma notify_evolves s s1 eff :
  simple_ok s → cells_step s s1 →
  (∀ k, apply_at k (simple_contents s k) eff = simple_contents s1 k) →
  let s' := notify eff s1 in
  simple_ok s' ∧ (∀ h k, simple_slot_of s h k → simple_slot_of s' h k) ∧
  (∀ sub p, simple_live s sub p → simple_live s' sub p) ∧
  (∀ sub p k known, simple_live s sub p → covered p k = true →
     foldl (apply_at k) known (pending s sub) = simple_contents s k →
     foldl (apply_at k) known (pending s' sub) = simple_contents s' k) ∧
  ∀ k, simple_contents s' k = simple_contents s1 k.
Proof.
  intros Hok (Hok1 & Hcells & Hsame) Heff s'.
  destruct (notify_spec s1 eff Hok1) as (Hok' & Hc' & Hh' & Hl').
  assert (∀ k, simple_contents s' k = simple_contents s1 k) as Hcon by (intros; by apply contents_ext).
  assert (∀ sub p, simple_live s sub p → simple_live s' sub p ∧
    simple_queue s' (rx sub) = simple_queue s (rx sub) ++ sent p eff) as Hlive.
  { intros sub p Hl. rewrite <- (queue_same s s1 _ Hsame). apply Hl'. by eapply live_same. }
  split_and!; [done| |by intros; apply Hlive| |done].
  - intros h k [Hk Hh]. split; [done|]. unfold s'. rewrite Hc'. by eapply lookup_weaken.
  - intros sub p k known Hl Hk Hknown. destruct (Hlive _ _ Hl) as [Hl1 Hq].
    rewrite (fold_simple_pending _ _ _ _ _ Hl1), Hq, foldl_app, <- (fold_simple_pending _ _ _ _ _ Hl), Hknown.
    rewrite (fold_sent p) by done. by rewrite Heff, Hcon.
Qed.

(** The change a batch comes to, applied to what there was, is what there is. *)
Lemma write_cells_apply c s s' eff k :
  simple_ok s → write_cells c s = (s', eff) →
  apply_at k (simple_contents s k) eff = simple_contents s' k.
Proof.
  intros Hok E. destruct (write_cells_spec _ _ _ _ Hok E) as (_ & Hk). destruct (Hk k) as (-> & Hs & Hu).
  unfold apply_at, write_at. rewrite Hs. unfold keep, differs in *.
  destruct (decide (k ∈ sc_unset eff)) as [Hin|Hin].
  - apply Hu in Hin as [Hin _]. by rewrite decide_True.
  - destruct (decide (k ∈ sc_unset c)) as [Hc|Hc].
    + assert (match sc_set c !! k with
        | Some v => if option_eqb value_eqb (simple_contents s k) v then simple_contents s k else v
        | None => simple_contents s k end = None) as Hn.
      { apply eq_None_not_Some. intros Hx. apply Hin, Hu. done. }
      destruct (sc_set c !! k) as [v|]; [|done]. by destruct (option_eqb _ _ v).
    + destruct (sc_set c !! k) as [v|]; [|done]. by destruct (option_eqb _ _ v).
Qed.

Lemma simple_write_eq c s s' eff :
  write_cells c s = (s', eff) → simple_write c s = Ok (notify eff s').
Proof.
  unfold simple_write. intros ->. unfold notify. by destruct (sc_is_empty eff).
Qed.

Lemma notify_new s : notify sc_new s = s.
Proof. done. Qed.

Lemma opening_lookup p s k :
  covered p k = true →
  apply_at k None (opening_state p s) = simple_contents s k.
Proof.
  intros Hk. unfold apply_at, opening_state, simple_contents. simpl.
  rewrite decide_False by set_solver. rewrite map_lookup_filter, lookup_fmap.
  destruct (cells s !! k) as [l|]; simpl; [|done]. by rewrite option_guard_True.
Qed.

Lemma opening_covered p s : all_covered p (opening_state p s) = true.
Proof.
  unfold all_covered. apply andb_true_iff. rewrite !forallb_Forall, !Forall_forall. simpl. split.
  - intros k Hk. apply list_elem_of_fmap in Hk as ([k' v] & -> & Hk).
    by apply elem_of_map_to_list, map_lookup_filter_Some in Hk as [_ Hk].
  - intros k Hk. apply elem_of_elements in Hk. set_solver.
Qed.

(** Adding a subscriber leaves the others' channels. *)
Lemma attach_spec p opening s sub' s' :
  simple_ok s → all_covered p opening = true → attach p opening s = (sub', s') →
  (rx sub' ∉ dom (chans s)) ∧ simple_ok s' ∧ cells s' = cells s ∧ heap s' = heap s ∧
  (∀ sub q, simple_live s sub q → simple_live s' sub q ∧ simple_queue s' (rx sub) = simple_queue s (rx sub)) ∧
  simple_live s' sub' p ∧ simple_queue s' (rx sub') = [opening].
Proof.
  intros [Hc Hi Ht Hch] Hop. unfold attach. set (r := fresh (dom (chans s))). intros [= <- <-].
  assert (r ∉ dom (chans s)) as Hfresh by apply is_fresh.
  assert (∀ e, e ∈ subscribers s → s_tx e ≠ r) as Hne.
  { intros e He <-. apply Hfresh, elem_of_dom. apply (Hch e He). }
  split; [done|]. split_and!; [split; simpl|done|done| | |]; try done.
  - rewrite fmap_app. apply NoDup_app. split; [done|]. split; [|apply NoDup_singleton].
    intros x Hx Hx'. apply list_elem_of_singleton in Hx'. subst x.
    apply list_elem_of_fmap in Hx as (e & He & Hin). by apply (Hne e).
  - intros e [He| ->%list_elem_of_singleton]%elem_of_app; [|by rewrite lookup_insert_eq].
    rewrite lookup_insert_ne by (intros Heq; by eapply Hne). by apply Hch.
  - intros sub q (e & ch & He & Hq & Htx & Ha & Hlk & Hrest).
    assert (rx sub ≠ r) as Hr by (rewrite <- Htx; by apply Hne). split.
    + exists e, ch. simpl. rewrite lookup_insert_ne by done. split_and?; set_solver.
    + unfold simple_queue. simpl. by rewrite lookup_insert_ne.
  - eexists (mkSubscriber p r r), _. simpl. split; [set_solver|]. do 2 (split; [done|]).
    split; [set_solver|]. rewrite lookup_insert_eq. do 2 (split; [done|]).
    split; [|done]. by repeat constructor.
  - unfold simple_queue. simpl. by rewrite lookup_insert_eq.
Qed.

Lemma subscribe_others p s sub' s' :
  simple_ok s → simple_subscribe_prefix p s = (sub', s') →
  (rx sub' ∉ dom (chans s)) ∧ simple_ok s' ∧ cells s' = cells s ∧ heap s' = heap s ∧
  (∀ sub q, simple_live s sub q → simple_live s' sub q ∧ simple_queue s' (rx sub) = simple_queue s (rx sub)) ∧
  simple_live s' sub' p ∧ simple_queue s' (rx sub') = [opening_state p s].
Proof. intros Hok E. apply (attach_spec _ _ _ _ _ Hok (opening_covered p s) E). Qed.

Lemma simple_dequeue_spec s sub p q :
  simple_ok s → simple_live s sub p → q `suffix_of` simple_queue s (rx sub) →
  let s' := simple_dequeue (rx sub) q s in
  simple_ok s' ∧ simple_queue s' (rx sub) = q ∧
  ∀ sub' p', simple_live s sub' p' → simple_live s' sub' p' ∧
    (rx sub' ≠ rx sub → simple_queue s' (rx sub') = simple_queue s (rx sub')).
Proof.
  intros [Hc Hi Ht Hch] Hl Hq s'. assert (∃ ch, chans s !! rx sub = Some ch) as [ch Hlk].
  { destruct Hl as (? & ch & _ & _ & _ & _ & ? & _). eauto. }
  split_and!; [split; simpl; try done| |].
  - intros e He. rewrite lookup_alter. case_decide; [|by apply Hch].
    destruct (Hch _ He) as [? ?]. simplify_eq. by rewrite Hlk.
  - unfold simple_queue. simpl. by rewrite lookup_alter_eq, Hlk.
  - intros sub' p' (e & ch' & He & Hp & Htx & Ha & Hlk' & Ho & Hcov & Htr). split.
    + destruct (decide (rx sub' = rx sub)) as [Heq|Hne].
      * exists e, (mkChan q (ch_receiver ch')). simpl. rewrite Heq, lookup_alter_eq.
        rewrite Heq in Hlk'. simplify_eq. split_and!; try done; [congruence|by rewrite Hlk|].
        unfold simple_queue in Hq. rewrite Hlk in Hq. destruct Hq as [l Hq].
        rewrite Hq in Hcov. by apply Forall_app in Hcov as [_ ?].
      * exists e, ch'. simpl. rewrite lookup_alter_ne by done. done.
    + intros Hne. unfold simple_queue. simpl. by rewrite lookup_alter_ne.
Qed.

(** ** The store keeps the trait's promises *)
#[export] Program Instance SimpleDataStoreLaws : DataStoreLaws Inner := {|
  ok := simple_ok;
  contents := simple_contents;
  slot_of := simple_slot_of;
  live := simple_live;
|}.
Next Obligation. intros s keys _. apply list_fmap_ext. done. Qed.
Next Obligation.
  intros s k Hok. rewrite held_lookup. simpl. rewrite lookup_fmap. unfold simple_contents.
  by destruct (cells s !! k).
Qed.
Next Obligation.
  intros s c Hok. simpl. destruct (write_cells c s) as [s1 eff] eqn:E.
  destruct (write_cells_spec _ _ _ _ Hok E) as (Hstep & Hk).
  eexists. split; [by apply simple_write_eq|].
  destruct (notify_evolves s s1 eff Hok Hstep) as (H1 & H2 & H3 & H4 & H5).
  { intros k. by eapply write_cells_apply. }
  split; [done|]. intros k. rewrite H5. apply Hk.
Qed.
Next Obligation.
  intros s k h s' Hok. simpl. unfold simple_slot. destruct (cell k s) as [l s1] eqn:E. intros [= <- <-].
  destruct (cell_spec _ _ _ _ Hok E) as (Hstep & Hl & Hcon & _).
  destruct (notify_evolves s s1 sc_new Hok Hstep) as (H1 & H2 & H3 & H4 & H5).
  { intros j. by rewrite apply_at_empty, Hcon. }
  rewrite notify_new in *. done.
Qed.
Next Obligation.
  intros s h k Hok [<- Hk]. simpl. unfold simple_slot_get, simple_contents. by rewrite Hk.
Qed.
Next Obligation.
  intros s h k v Hok [<- Hk]. simpl. unfold simple_slot_set.
  assert (cell_get (sl_cell h) s = simple_contents s (sl_key h)) as -> by by (unfold simple_contents; rewrite Hk).
  unfold keep. destruct (option_eqb value_eqb (simple_contents s (sl_key h)) v) eqn:Ev.
  - exists s. split; [done|]. split; [by split_and!|]. intros j. case_decide; by subst.
  - destruct (cell_put_spec _ _ v _ Hok Hk) as (Hstep & Hp). eexists. split; [done|].
    destruct (notify_evolves s _ (mkStateChange {[ sl_key h := v ]} ∅) Hok Hstep) as (H1 & H2 & H3 & H4 & H5).
    { intros j. unfold apply_at. simpl. rewrite decide_False, Hp, lookup_singleton by set_solver.
      repeat case_decide; congruence || done. }
    split; [done|]. intros j. by rewrite H5, Hp.
Qed.
Next Obligation.
  intros s p sub s' Hok E. simpl in E.
  destruct (subscribe_others _ _ _ _ Hok E) as (_ & Hok' & Hcs & Hh & Hothers & Hl & Hq).
  assert (∀ k, simple_contents s' k = simple_contents s k) as Hcon by (intros; by apply contents_ext).
  split; [|split; [done|split; [done|]]].
  - split; [done|]. split; [intros h k [? ?]; split; [done|by rewrite Hcs]|].
    split; [intros; by apply Hothers|]. intros sub0 p0 k known Hl0 Hk Hknown.
    destruct (Hothers _ _ Hl0) as [Hl1 Hq1].
    rewrite (fold_simple_pending _ _ _ _ _ Hl1), Hq1, <- (fold_simple_pending _ _ _ _ _ Hl0), Hknown.
    by rewrite Hcon.
  - intros k Hk. rewrite (fold_simple_pending _ _ _ _ _ Hl), Hq. simpl.
    by rewrite opening_lookup, Hcon.
Qed.
Next Obligation.
  intros s sub p Hok Hl. unfold pending. simpl.
  assert (∀ q (sub : Subscription), (∀ c, tr sub c = c) → Forall (λ c, all_covered p c = true) q →
    Forall (λ c, all_covered p c = true) (try_iter sub q).1) as Hgen.
  { induction q as [|c q IH]; intros sub0 Htr Hq; [done|]. cbn [try_iter]. rewrite deliver_spec, Htr.
    apply Forall_cons in Hq as [Hc Hq].
    assert (∀ c, tr (sub_opened sub0) c = c) as Htr' by (intros; by rewrite tr_sub_opened).
    specialize (IH _ Htr' Hq). destruct (_ || _); [|done].
    destruct (try_iter (sub_opened sub0) q). by constructor. }
  destruct Hl as (e & ch & _ & _ & _ & _ & Hlk & _ & Hcov & Htr).
  apply Hgen; [done|]. unfold simple_queue. by rewrite Hlk.
Qed.
Next Obligation.
  intros s sub p (e & ch & ? & ? & ? & ? & ? & ? & ? & Htr). exists e, ch.
  rewrite rx_sub_opened. split_and!; try done. intros c. by rewrite tr_sub_opened.
Qed.
Next Obligation.
  intros s sub p q Hok Hl Hq. simpl. destruct (simple_dequeue_spec s sub p q Hok Hl Hq) as (H1 & H2 & H3).
  done.
Qed.

(** *** Meta *)
Lemma max_by_len_spec l : ∀ best,
  match max_by_len l best with
  | None => l = [] ∧ best = None
  | Some e => (e ∈ l ∨ best = Some e) ∧
      (∀ e', e' ∈ l ∨ best = Some e' → (String.length e'.1 ≤ String.length e.1)%nat)
  end.
Proof.
  induction l as [|e l IH]; intros best; cbn [max_by_len].
  { destruct best; [|done]. split; [by right|]. intros e' [He|[= <-]]; [set_solver|lia]. }
  set (best' := match best with Some b => _ | None => _ end). specialize (IH best').
  assert (∃ b, best' = Some b ∧ (b = e ∨ best = Some b) ∧ (String.length e.1 ≤ String.length b.1)%nat ∧
    ∀ b0, best = Some b0 → (String.length b0.1 ≤ String.length b.1)%nat) as (b & Hb & Hor & He & Hbest).
  { unfold best'. destruct best as [b|].
    - destruct (Nat.leb_spec (String.length b.1) (String.length e.1)).
      + exists e. split_and!; auto; [intros b0 [= <-]; lia].
      + exists b. split_and!; auto; [lia|by intros b0 [= <-]].
    - exists e. split_and!; auto. done. }
  rewrite Hb in IH |- *. destruct (max_by_len l (Some b)) as [m|]; [|by destruct IH].
  destruct IH as [Hm Hmax]. split.
  - destruct Hm as [Hm|[= <-]]; [left; by right|]. destruct Hor as [->|?]; [left; by left|by right].
  - assert (String.length b.1 ≤ String.length m.1)%nat by (apply Hmax; by right).
    intros e' [He'|He']; [|specialize (Hbest _ He'); lia].
    apply elem_of_cons in He' as [->|He']; [lia|]. apply Hmax. by left.
Qed.

Lemma simple_meta_deepest s k :
  own_meta s !! k = None →
  match simple_meta s [k] with
  | [Some m] => ∃ p, prefix_meta s !! p = Some m ∧ covered p k = true ∧
      ∀ p', is_Some (prefix_meta s !! p') → covered p' k = true → prefix_covers p' p = true
  | [None] => ∀ p, is_Some (prefix_meta s !! p) → covered p k = false
  | _ => False
  end.
Proof.
  intros Hown. unfold simple_meta, covered. cbn [fmap list_fmap]. rewrite Hown.
  set (l := filter _ _). pose proof (max_by_len_spec l None) as Hmax.
  assert (∀ p m, (p, m) ∈ l ↔ prefix_meta s !! p = Some m ∧ prefix_covers p (path k) = true) as Hl.
  { intros p m. unfold l. rewrite list_elem_of_filter, elem_of_map_to_list. simpl. tauto. }
  destruct (max_by_len l None) as [[p m]|]; simpl.
  - destruct Hmax as [[Hin|?] Hle]; [|done]. apply Hl in Hin as [Hp Hc].
    exists p. split_and!; [done|done|]. intros p' [m' Hp'] Hc'.
    destruct (prefix_covers_comparable p' p (path k) Hc' Hc) as [?|Hpp]; [done|].
    assert (String.length p' ≤ String.length p)%nat by (apply (Hle (p', m')); left; by apply Hl).
    assert (p = p') as ->; [|apply prefix_covers_refl].
    apply (prefix_covers_length_inj _ _ _ Hc Hc'). by apply prefix_covers_length in Hpp; lia.
  - destruct Hmax as [Hnil _]. intros p [m Hp]. destruct (prefix_covers p (path k)) eqn:Hc; [|done].
    assert ((p, m) ∈ l) by by apply Hl. rewrite Hnil in *. set_solver.
Qed.

(** *** What a batch notifies *)
Lemma write_cells_quiet c s s' eff :
  simple_ok s → write_cells c s = (s', eff) →
  (∀ k v, sc_set c !! k = Some v → option_eqb value_eqb (simple_contents s k) v = true) →
  (∀ k, k ∈ sc_unset c → simple_contents s k = None) → eff = sc_new.
Proof.
  intros Hok E Hs Hu. destruct (write_cells_spec _ _ _ _ Hok E) as (_ & Hk).
  apply sc_ext; simpl.
  - apply map_eq. intros k. destruct (Hk k) as (_ & -> & _). rewrite lookup_empty.
    destruct (sc_set c !! k) as [v|] eqn:Ev; [|done]. unfold differs. by rewrite (Hs k v).
  - apply set_eq. intros k. destruct (Hk k) as (_ & _ & ->). split; [|set_solver].
    intros [Hin Hsome]. rewrite (Hu k Hin) in Hsome. exfalso.
    destruct (sc_set c !! k) as [v|] eqn:Ev; [|by destruct Hsome].
    specialize (Hs k v Ev). rewrite (Hu k Hin) in Hs. unfold keep in Hsome. by destruct v, Hsome.
Qed.

Lemma drop_not_kept sub change s :
  simple_ok s → sc_is_empty change = false →
  ∀ e, e ∈ subscribers (notify change (drop_subscription sub s)) → s_tx e ≠ rx sub.
Proof.
  intros Hok He e. unfold notify. rewrite He. destruct (retain _ _ _ _) as [subs c] eqn:E. simpl.
  assert (NoDup (s_tx <$> subscribers (drop_subscription sub s))) as Hd by apply (ok_tx s Hok).
  destruct (retain_spec _ _ _ _ _ _ Hd E) as (_ & Hs & _). intros [Hin Hal]%Hs Heq.
  simpl in Hin, Hal. destruct (ok_chans s Hok e Hin) as [_ Ha]. rewrite Ha, Heq in Hal. set_solver.
Qed.

(** ** Properties *)

(** Reads, writes and snapshots of the hash-map store agree: after a batch, every
    key reads as the batch leaves it (unset, set, or untouched, a value equal to the
    one held being left), and the snapshot holds the same. *)
Theorem simple_write_read c s :
  simple_ok s → ∃ s', simple_write c s = Ok s' ∧ simple_ok s' ∧
  (∀ keys, simple_read s' keys = (λ k, write_at c k (simple_contents s k)) <$> keys) ∧
  (∀ k, held (simple_snapshot s') !! k = write_at c k (simple_contents s k)).
Proof.
  intros Hok. destruct (@write_law _ _ SimpleDataStoreLaws s c Hok) as (s' & E & (Hok' & _) & Hc).
  exists s'. split; [exact E|]. split; [exact Hok'|]. split.
  - intros keys. etrans; [apply (@read_law _ _ SimpleDataStoreLaws s' keys Hok')|]. apply list_fmap_ext. intros ? k _. apply Hc.
  - intros k. etrans; [apply (@snapshot_law _ _ SimpleDataStoreLaws s' k Hok')|]. apply Hc.
Qed.

(** Notifications are the changes, exactly: a subscriber's channel gains one
    change, the batch reduced to the keys under its prefix whose value it changes
    (and nothing when there is none), and a batch that changes nothing is seen by
    nobody. *)
Theorem simple_write_notifies c s sub p :
  simple_ok s → simple_live s sub p → ∃ s' eff, simple_write c s = Ok s' ∧
  simple_queue s' (rx sub) = simple_queue s (rx sub) ++ sent p eff ∧
  (∀ k v, sc_set eff !! k = Some v ↔
     sc_set c !! k = Some v ∧ option_eqb value_eqb (simple_contents s k) v = false) ∧
  (∀ k, k ∈ sc_unset eff → k ∈ sc_unset c ∧ simple_contents s' k = None) ∧
  ((∀ k v, sc_set c !! k = Some v → option_eqb value_eqb (simple_contents s k) v = true) →
   (∀ k, k ∈ sc_unset c → simple_contents s k = None) →
   ∀ r, simple_queue s' r = simple_queue s r).
Proof.
  intros Hok Hl. destruct (write_cells c s) as [s1 eff] eqn:E.
  destruct (write_cells_spec _ _ _ _ Hok E) as ((Hok1 & _ & Hsame) & Hk).
  destruct (notify_spec s1 eff Hok1) as (_ & Hc' & Hh' & Hl').
  destruct (Hl' sub p) as (_ & Hq); [by eapply live_same|].
  exists (notify eff s1), eff. split; [by apply simple_write_eq|]. split_and!.
  - by rewrite Hq, (queue_same s s1).
  - intros k v. destruct (Hk k) as (_ & -> & _). unfold differs.
    destruct (sc_set c !! k) as [w|]; [|naive_solver].
    destruct (option_eqb value_eqb (simple_contents s k) w) eqn:Ew; naive_solver congruence.
  - intros k Hin. destruct (Hk k) as (Hc & _ & Hu). apply Hu in Hin as [Hin _]. split; [done|].
    rewrite (contents_ext s1) by done. rewrite Hc. unfold write_at. by rewrite decide_True.
  - intros Hs Hu r. rewrite (write_cells_quiet _ _ _ _ Hok E Hs Hu), notify_new. by apply queue_same.
Qed.

(** A slot and the store are the same cell: a slot resolved before any number of
    writes reads what the store reads, and what is set through it the store reads;
    the slot stays valid when its key is unset. *)
Theorem slot_coincides k c v s :
  simple_ok s →
  let '(h, s1) := simple_slot k s in
  ∃ s2 s3, simple_write c s1 = Ok s2 ∧ simple_slot_set h v s2 = Ok s3 ∧
    [simple_slot_get h s2] = simple_read s2 [k] ∧ [simple_slot_get h s3] = simple_read s3 [k] ∧
    simple_slot_get h s3 = keep (write_at c k (simple_contents s k)) v.
Proof.
  intros Hok. destruct (simple_slot k s) as [h s1] eqn:E.
  destruct (@slot_law _ _ SimpleDataStoreLaws s k h s1 Hok E) as ((Hok1 & _) & Hc1 & Hh1).
  destruct (@write_law _ _ SimpleDataStoreLaws s1 c Hok1) as (s2 & E2 & (Hok2 & Hslot2 & _) & Hc2).
  destruct (@slot_set_law _ _ SimpleDataStoreLaws s2 h k v Hok2 (Hslot2 _ _ Hh1)) as (s3 & E3 & (Hok3 & Hslot3 & _) & Hc3).
  exists s2, s3. split; [exact E2|]. split; [exact E3|].
  pose proof (@read_law _ _ SimpleDataStoreLaws s2 [k] Hok2) as R2. pose proof (@read_law _ _ SimpleDataStoreLaws s3 [k] Hok3) as R3.
  pose proof (@slot_get_law _ _ SimpleDataStoreLaws s2 h k Hok2 (Hslot2 _ _ Hh1)) as G2.
  pose proof (@slot_get_law _ _ SimpleDataStoreLaws s3 h k Hok3 (Hslot3 _ _ (Hslot2 _ _ Hh1))) as G3.
  cbn [read slot_get SimpleDataStore] in *. rewrite R2, R3, G2, G3. split_and!; [done|done|].
  rewrite Hc3, decide_True by done. by rewrite Hc2, Hc1.
Qed.

(** A dropped subscription is pruned at the next change, whatever its prefix and
    whatever the change touches. *)
Theorem dropped_subscription_pruned sub change s :
  simple_ok s → sc_is_empty change = false →
  ∀ e, e ∈ subscribers (notify change (drop_subscription sub s)) → s_tx e ≠ rx sub.
Proof. intros. by eapply drop_not_kept. Qed.

(** [meta] answers the most specific statement: the key's own, else that of the
    deepest subtree covering it, which every other covering prefix covers, whatever
    the order its prefixes are visited in, else nothing. *)
Theorem meta_most_specific s k :
  match simple_meta s [k] with
  | [Some m] =>
      own_meta s !! k = Some m ∨
      own_meta s !! k = None ∧ ∃ p, prefix_meta s !! p = Some m ∧ covered p k = true ∧
        ∀ p', is_Some (prefix_meta s !! p') → covered p' k = true → prefix_covers p' p = true
  | [None] => own_meta s !! k = None ∧ ∀ p, is_Some (prefix_meta s !! p) → covered p k = false
  | _ => False
  end.
Proof.
  destruct (own_meta s !! k) as [m|] eqn:E.
  - unfold simple_meta. cbn [fmap list_fmap]. rewrite E. by left.
  - pose proof (simple_meta_deepest s k E) as Hm.
    destruct (simple_meta s [k]) as [|[m|] [|]]; try done. by right.
Qed.

(** ** Witnesses *)
Lemma inner_new_ok : simple_ok inner_new.
Proof. split; simpl; [set_solver..|constructor|set_solver]. Qed.

Definition sample_batch : StateChange :=
  mkStateChange {[ mkKey "face/mouth" := Some (Value.U8 1) ]} {[ mkKey "arm" ]}.

Lemma simple_write_read_witness :
  ∃ s', simple_write sample_batch inner_new = Ok s' ∧ simple_ok s' ∧
  (∀ keys, simple_read s' keys = (λ k, write_at sample_batch k (simple_contents inner_new k)) <$> keys) ∧
  (∀ k, held (simple_snapshot s') !! k = write_at sample_batch k (simple_contents inner_new k)).
Proof. apply simple_write_read. apply inner_new_ok. Defined.

Lemma subscribed_live p :
  let '(sub, s) := simple_subscribe_prefix p inner_new in simple_ok s ∧ simple_live s sub p.
Proof.
  destruct (simple_subscribe_prefix p inner_new) as [sub s] eqn:E.
  by destruct (subscribe_others _ _ _ _ inner_new_ok E) as (_ & ? & _ & _ & _ & ? & _).
Qed.

Lemma simple_write_notifies_witness :
  let '(sub, s) := simple_subscribe_prefix "face"%string inner_new in
  ∃ s' eff, simple_write sample_batch s = Ok s' ∧
    simple_queue s' (rx sub) = simple_queue s (rx sub) ++ sent "face"%string eff.
Proof.
  pose proof (subscribed_live "face"%string) as Hl.
  destruct (simple_subscribe_prefix "face"%string inner_new) as [sub s]. destruct Hl as [Hok Hl].
  destruct (simple_write_notifies sample_batch s sub "face"%string Hok Hl) as (s' & eff & ? & ? & _).
  exists s', eff. by split.
Defined.

Lemma slot_coincides_witness :
  let '(h, s1) := simple_slot (mkKey "arm") inner_new in
  ∃ s2 s3, simple_write sample_batch s1 = Ok s2 ∧
    simple_slot_set h (Some (Value.Boolean true)) s2 = Ok s3 ∧
    [simple_slot_get h s2] = simple_read s2 [mkKey "arm"] ∧
    [simple_slot_get h s3] = simple_read s3 [mkKey "arm"] ∧
    simple_slot_get h s3
    = keep (write_at sample_batch (mkKey "arm") (simple_contents inner_new (mkKey "arm")))
        (Some (Value.Boolean true)).
Proof. apply (slot_coincides (mkKey "arm")). apply inner_new_ok. Defined.

Lemma dropped_subscription_pruned_witness :
  let '(sub, s) := simple_subscribe_prefix "face"%string inner_new in
  ∀ e, e ∈ subscribers (notify (sc_single (mkKey "arm") Value.Unit) (drop_subscription sub s)) →
    s_tx e ≠ rx sub.
Proof.
  pose proof (subscribed_live "face"%string) as Hl.
  destruct (simple_subscribe_prefix "face"%string inner_new) as [sub s] eqn:E.
  apply dropped_subscription_pruned; [apply Hl|vm_compute; reflexivity].
Defined.

Definition mouth : Key := mkKey "face/mouth".

(** A subscriber of [face], the batch written, its two changes received. *)
Definition run0 : Subscription * Inner := simple_subscribe_prefix "face"%string inner_new.
Definition run1 : Inner := match simple_write sample_batch run0.2 with Ok s => s | Err _ => inner_new end.
Definition receive_all (o : Observer (S := Inner)) : Observer :=
  match try_recv (obs_sub o) (simple_queue (obs_store o) (rx (obs_sub o))) with
  | (Some c, sub, q) =>
      mkObserver (simple_dequeue (rx (obs_sub o)) q (obs_store o)) sub (apply c (obs_state o))
  | _ => o
  end.
Definition run2 : Observer := receive_all (receive_all (mkObserver run1 run0.1 state_new)).

Lemma receive_all_steps (o : Observer (S := Inner)) : rtc obs_step o (receive_all o).
Proof.
  destruct o as [s sub m]. unfold receive_all. simpl.
  destruct (try_recv sub _) as [[[c|] sub'] q] eqn:E; [|done].
  apply rtc_once. exact (step_receive (DSL := SimpleDataStoreLaws) s sub m c sub' q E).
Qed.

Lemma subscriber_mirrors_store_witness :
  held (obs_state run2) !! mouth = if covered "face" mouth then simple_contents (obs_store run2) mouth else None.
Proof.
  apply (subscriber_mirrors_store (DSL := SimpleDataStoreLaws) "face"%string inner_new run0.1 run0.2
    (obs_store run2) (obs_sub run2)).
  - apply inner_new_ok.
  - reflexivity.
  - eapply rtc_l; [apply (step_write _ run1 _ _ sample_batch); vm_compute; reflexivity|].
    etrans; [apply receive_all_steps|]. replace (mkObserver (obs_store run2) (obs_sub run2) (obs_state run2)) with run2 by (by destruct run2).
    apply receive_all_steps.
  - vm_compute. reflexivity.
Defined.
