(* ===== verification/Namespaced.v ===== *)
(** * A namespaced view: [crates/arora-simple-data-store/src/namespaced.rs]

    [NamespacedStore] over any store: the interface [DataStore] of its inner
    store is all it uses, and the laws of the inner store are all its own laws
    are proved from. The inner store is shared; a view's state is the inner
    store's state and the view's namespace. *)

From S2P Require Import Prelude Values Extern Keys State Store SimpleStore.

(** [str::strip_prefix] *)
Fixpoint strip_prefix (p s : string) : option string :=
  match p, s with
  | String.EmptyString, _ => Some s
  | String.String a p, String.String b s => if Ascii.eqb a b then strip_prefix p s else None
  | _, _ => None
  end.

(** [relative(namespace, key)] *)
Definition relative (namespace : string) (key : Key) : option Key :=
  match strip_prefix namespace (path key) with
  | Some rest => mkKey <$> strip_prefix (String.String slash String.EmptyString) rest
  | None => None
  end.

(** [NamespacedStore::prefixed], [prefixed_subtree] *)
Definition prefixed (namespace : string) (key : Key) : Key :=
  mkKey (namespace +:+ "/"%string +:+ path key).
Definition prefixed_subtree (namespace prefix : string) : string :=
  if String.eqb prefix String.EmptyString then namespace else namespace +:+ "/"%string +:+ prefix.

(** [HashMap] entries kept under their relative names. *)
Definition relative_map {V} (namespace : string) (m : gmap Key V) : gmap Key V :=
  list_to_map (omap (λ kv, (λ k, (k, kv.2)) <$> relative namespace kv.1) (map_to_list m)).

Definition confine (namespace : string) (change : StateChange) : StateChange :=
  mkStateChange (relative_map namespace (sc_set change))
    (list_to_set (omap (relative namespace) (elements (sc_unset change)))).

Definition prefixed_change (namespace : string) (changes : StateChange) : StateChange :=
  mkStateChange (kmap (prefixed namespace) (sc_set changes)) (set_map (prefixed namespace) (sc_unset changes)).

Record NamespacedStore (S : Type) := mkNamespaced { ns_inner : S; ns_name : string }.
Arguments mkNamespaced {S} ns_inner ns_name.
Arguments ns_inner {S} _.
Arguments ns_name {S} _.

(** What an operation of the inner store leaves of the view. *)
Definition lift {S E} (n : NamespacedStore S) (r : result E S) : result E (NamespacedStore S) :=
  match r with Ok s => Ok (mkNamespaced s (ns_name n)) | Err e => Err e end.

Section View.
Context {S : Type} `{DS : DataStore S}.
Implicit Types n : NamespacedStore S.

Definition ns_read n (keys : list Key) : list (option Value) :=
  read (ns_inner n) (prefixed (ns_name n) <$> keys).
Definition ns_meta n (keys : list Key) : list (option KeyMeta) :=
  meta (ns_inner n) (prefixed (ns_name n) <$> keys).
Definition ns_all_meta n : gmap Key KeyMeta := relative_map (ns_name n) (all_meta (ns_inner n)).
Definition ns_set_meta (m : gmap Key KeyMeta) n : result DataError (NamespacedStore S) :=
  lift n (set_meta (kmap (prefixed (ns_name n)) m) (ns_inner n)).
Definition ns_set_prefix_meta (m : gmap string KeyMeta) n : result DataError (NamespacedStore S) :=
  lift n (set_prefix_meta (kmap (prefixed_subtree (ns_name n)) m) (ns_inner n)).
Definition ns_write (changes : StateChange) n : result DataError (NamespacedStore S) :=
  lift n (write (prefixed_change (ns_name n) changes) (ns_inner n)).
Definition ns_slot (key : Key) n : SlotHandle * NamespacedStore S :=
  let '(h, s) := slot (prefixed (ns_name n) key) (ns_inner n) in (h, mkNamespaced s (ns_name n)).
Definition ns_slot_get (h : SlotHandle) n : option Value := slot_get h (ns_inner n).
Definition ns_slot_set (h : SlotHandle) (v : option Value) n : result DataError (NamespacedStore S) :=
  lift n (slot_set h v (ns_inner n)).
Definition ns_snapshot n : State := mkState (relative_map (ns_name n) (storage (snapshot (ns_inner n)))).
Definition ns_subscribe_prefix (prefix : string) n : Subscription * NamespacedStore S :=
  let '(sub, s) := subscribe_prefix (prefixed_subtree (ns_name n) prefix) (ns_inner n) in
  (sub_map sub (confine (ns_name n)), mkNamespaced s (ns_name n)).
End View.

#[export] Instance NamespacedDataStore {S} `{DataStore S} : DataStore (NamespacedStore S) := {|
  SlotHandle := SlotHandle (S := S);
  read := ns_read;
  write := ns_write;
  snapshot := ns_snapshot;
  slot := ns_slot;
  slot_get := ns_slot_get;
  slot_set := ns_slot_set;
  subscribe_prefix := ns_subscribe_prefix;
  queue n := queue (ns_inner n);
  dequeue rx q n := mkNamespaced (dequeue rx q (ns_inner n)) (ns_name n);
  meta := ns_meta;
  all_meta := ns_all_meta;
  set_meta := ns_set_meta;
  set_prefix_meta := ns_set_prefix_meta;
|}.

(** ** Lemmas *)
Lemma strip_prefix_spec p s t : strip_prefix p s = Some t ↔ s = p +:+ t.
Proof.
  revert s. induction p as [|a p IH]; intros s.
  { change (String.EmptyString +:+ t) with t. simpl. naive_solver. }
  change (String.String a p +:+ t) with (String.String a (p +:+ t)).
  destruct s as [|b s]; simpl; [done|]. destruct (Ascii.eqb_spec a b) as [->|Hne].
  - rewrite IH. naive_solver.
  - split; [done|]. intros [= ]. congruence.
Qed.

Lemma append_inj_l p s t : p +:+ s = p +:+ t → s = t.
Proof.
  intros E. assert (strip_prefix p (p +:+ s) = Some t) as H' by by apply strip_prefix_spec.
  assert (strip_prefix p (p +:+ s) = Some s) as H'' by by apply strip_prefix_spec. congruence.
Qed.

Lemma prefixed_path ns k : path (prefixed ns k) = ns +:+ String.String slash (path k).
Proof. done. Qed.

(** The relative form and the namespaced form are inverse. *)
Lemma relative_spec ns key k : relative ns key = Some k ↔ key = prefixed ns k.
Proof.
  unfold relative, prefixed. destruct key as [p], k as [q]. cbn [path].
  destruct (strip_prefix ns p) as [rest|] eqn:E.
  - apply strip_prefix_spec in E as ->. rewrite fmap_Some. split.
    + intros (t & Ht%strip_prefix_spec & [= ->]). by rewrite Ht.
    + intros [= Hp%append_inj_l]. exists q. split; [|done]. by apply strip_prefix_spec.
  - split; [done|]. intros [= Hp]. apply strip_prefix_spec in Hp. congruence.
Qed.

Lemma relative_prefixed ns k : relative ns (prefixed ns k) = Some k.
Proof. by apply relative_spec. Qed.

#[export] Instance prefixed_inj ns : Inj (=) (=) (prefixed ns).
Proof. intros k k' E. apply (f_equal (relative ns)) in E. rewrite !relative_prefixed in E. congruence. Qed.

Lemma relative_map_lookup {V} ns (m : gmap Key V) k : relative_map ns m !! k = m !! prefixed ns k.
Proof.
  unfold relative_map. set (f := λ kv : Key * V, _).
  assert (∀ k v, (k, v) ∈ omap f (map_to_list m) ↔ m !! prefixed ns k = Some v) as Hf.
  { intros j v. rewrite list_elem_of_omap. unfold f. split.
    - intros ([j' v'] & Hin & Hj). apply elem_of_map_to_list in Hin. simpl in Hj.
      apply fmap_Some in Hj as (j0 & Hr & [= <- <-]). by apply relative_spec in Hr as ->.
    - intros Hj. exists (prefixed ns j, v). rewrite elem_of_map_to_list. split; [done|].
      simpl. by rewrite relative_prefixed. }
  apply option_eq. intros v. rewrite <- (elem_of_list_to_map' (M := gmap Key)); [apply Hf|].
  intros v' H1%Hf H2%Hf. congruence.
Qed.

Lemma confine_set ns c k : sc_set (confine ns c) !! k = sc_set c !! prefixed ns k.
Proof. apply relative_map_lookup. Qed.

Lemma confine_unset ns c k : k ∈ sc_unset (confine ns c) ↔ prefixed ns k ∈ sc_unset c.
Proof.
  simpl. rewrite elem_of_list_to_set, list_elem_of_omap. setoid_rewrite elem_of_elements.
  setoid_rewrite relative_spec. naive_solver.
Qed.

(** What a change says of a key, the confined change says of its relative form. *)
Lemma apply_at_confine ns c k known : apply_at k known (confine ns c) = apply_at (prefixed ns k) known c.
Proof.
  unfold apply_at. rewrite confine_set.
  destruct (decide (k ∈ sc_unset (confine ns c))) as [Hin|Hin]; rewrite confine_unset in Hin;
    [by rewrite decide_True|by rewrite decide_False].
Qed.

Lemma fold_apply_confine ns cs k : ∀ known,
  foldl (apply_at k) known (confine ns <$> cs) = foldl (apply_at (prefixed ns k)) known cs.
Proof. induction cs as [|c cs IH]; intros known; simpl; [done|]. by rewrite apply_at_confine, IH. Qed.

(** A batch written through a view: its keys are written, no other. *)
Lemma write_at_prefixed ns c k old : write_at (prefixed_change ns c) (prefixed ns k) old = write_at c k old.
Proof.
  unfold write_at, prefixed_change. cbn [sc_set sc_unset]. rewrite lookup_kmap by apply _.
  assert (prefixed ns k ∈ (set_map (prefixed ns) (sc_unset c) : gset Key) ↔ k ∈ sc_unset c) as Hu.
  { rewrite elem_of_map. split; [|eauto]. intros (j & Hj%(inj (prefixed ns)) & ?). by subst. }
  destruct (decide (prefixed ns k ∈ _)) as [Hin|Hin]; rewrite Hu in Hin;
    [by rewrite decide_True|by rewrite decide_False].
Qed.

Lemma write_at_outside ns c key old : relative ns key = None → write_at (prefixed_change ns c) key old = old.
Proof.
  intros Hn. assert (∀ k, key ≠ prefixed ns k) as Hne.
  { intros k ->. by rewrite relative_prefixed in Hn. }
  unfold write_at, prefixed_change. cbn [sc_set sc_unset]. rewrite decide_False.
  - destruct (kmap _ _ !! key) as [v|] eqn:E; [|done].
    apply lookup_kmap_Some in E as (k & -> & _); [|apply _]. by destruct (Hne k).
  - intros (k & -> & _)%elem_of_map. by destruct (Hne k).
Qed.

Lemma covered_prefixed ns p k : covered (prefixed_subtree ns p) (prefixed ns k) = covered p k.
Proof.
  unfold covered. apply Bool.eq_iff_eq_true. rewrite !prefix_covers_spec, prefixed_path. unfold prefixed_subtree.
  destruct (String.eqb_spec p String.EmptyString) as [->|Hp].
  - split; [by left|]. intros _. right. right. by exists (path k).
  - change ("/"%string +:+ p) with (String.String slash p). split.
    + intros [Hn|[Heq|[t Ht]]].
      * by destruct ns.
      * apply append_inj_l in Heq. injection Heq as ->. auto.
      * rewrite append_assoc in Ht. apply append_inj_l in Ht. injection Ht as ->. right. right. by exists t.
    + intros [->|[->|[t ->]]]; [done|auto|]. right. right. exists t.
      by rewrite append_assoc.
Qed.

Lemma all_covered_spec p c :
  all_covered p c = true ↔
  (∀ k, is_Some (sc_set c !! k) → covered p k = true) ∧ (∀ k, k ∈ sc_unset c → covered p k = true).
Proof.
  unfold all_covered. rewrite andb_true_iff, !forallb_Forall, !Forall_forall. f_equiv.
  - split; intros Hc k Hk.
    + destruct Hk as [v Hv]. apply Hc, list_elem_of_fmap. exists (k, v). by rewrite elem_of_map_to_list.
    + apply list_elem_of_fmap in Hk as ([k' v] & -> & Hk%elem_of_map_to_list). apply Hc. eauto.
  - by setoid_rewrite elem_of_elements.
Qed.

Lemma all_covered_confine ns p c :
  all_covered (prefixed_subtree ns p) c = true → all_covered p (confine ns c) = true.
Proof.
  rewrite !all_covered_spec. intros [Hs Hu]. split; intros k Hk; rewrite <- (covered_prefixed ns).
  - apply Hs. by rewrite <- confine_set.
  - apply Hu. by apply confine_unset.
Qed.

(** What a subscriber receives, up to the changes left empty. *)
Lemma Forall_try_iter (P : StateChange → Prop) q : P sc_new →
  ∀ sub, Forall P (try_iter sub q).1 ↔ Forall P (tr sub <$> q).
Proof.
  intros Hnew. induction q as [|c q IH]; intros sub; [done|]. cbn [try_iter]. rewrite fmap_cons, deliver_spec.
  assert (tr sub <$> q = tr (sub_opened sub) <$> q) as ->.
  { apply list_fmap_ext. intros. by rewrite tr_sub_opened. }
  specialize (IH (sub_opened sub)). destruct (_ || _) eqn:E.
  - destruct (try_iter (sub_opened sub) q). simpl in *. by rewrite !Forall_cons, IH.
  - apply orb_false_iff in E as [_ E]. apply negb_false_iff, sc_is_empty_spec in E.
    rewrite Forall_cons, E, IH. naive_solver.
Qed.

Lemma all_covered_new p : all_covered p sc_new = true.
Proof. apply all_covered_spec. simpl. split; intros k; [rewrite lookup_empty; by intros []|set_solver]. Qed.

(** ** A view keeps the trait's promises when its inner store does *)
Section Laws.
Context {S : Type} `{DSL : DataStoreLaws S}.
Implicit Types n : NamespacedStore S.

Definition ns_ok n : Prop := ok (ns_inner n).
Definition ns_contents n (k : Key) : option Value := contents (ns_inner n) (prefixed (ns_name n) k).
Definition ns_slot_of n (h : SlotHandle) (k : Key) : Prop :=
  slot_of (ns_inner n) h (prefixed (ns_name n) k).
(** A subscription of the inner store to the view's subtree, confined. *)
Definition ns_live n (sub : Subscription) (p : string) : Prop :=
  ∃ inner, live (ns_inner n) inner (prefixed_subtree (ns_name n) p) ∧ rx sub = rx inner ∧
    ∀ c, tr sub c = confine (ns_name n) (tr inner c).

Lemma ns_fold_pending n sub inner k known :
  rx sub = rx inner → (∀ c, tr sub c = confine (ns_name n) (tr inner c)) →
  foldl (apply_at k) known (pending n sub)
  = foldl (apply_at (prefixed (ns_name n) k)) known (pending (ns_inner n) inner).
Proof.
  intros Hrx Htr. rewrite !fold_pending. cbn [queue NamespacedDataStore]. rewrite Hrx, <- fold_apply_confine.
  rewrite <- list_fmap_compose. f_equal. apply list_fmap_ext. intros ? c _. apply Htr.
Qed.

(** The view evolves as its inner store does. *)
Lemma ns_evolves n s' :
  evolves (ns_inner n) s' → let n' := mkNamespaced s' (ns_name n) in
  ns_ok n' ∧ (∀ h k, ns_slot_of n h k → ns_slot_of n' h k) ∧
  (∀ sub p, ns_live n sub p → ns_live n' sub p) ∧
  (∀ sub p k known, ns_live n sub p → covered p k = true →
     foldl (apply_at k) known (pending n sub) = ns_contents n k →
     foldl (apply_at k) known (pending n' sub) = ns_contents n' k).
Proof.
  intros (O & Hs & Hl & Hf) n'. split_and!; [done|intros h k; apply Hs| |].
  - intros sub p (inner & Hin & ?). exists inner. split; [by apply Hl|done].
  - intros sub p k known (inner & Hin & Hrx & Htr) Hk Hknown.
    rewrite (ns_fold_pending n' sub inner) by done. rewrite (ns_fold_pending n sub inner) in Hknown by done.
    apply (Hf inner (prefixed_subtree (ns_name n) p)); [done| |done]. by rewrite covered_prefixed.
Qed.

Lemma ns_write_law n c : ns_ok n → ∃ s', ns_write c n = Ok (mkNamespaced s' (ns_name n)) ∧
  evolves (ns_inner n) s' ∧
  ∀ key, contents s' key = write_at (prefixed_change (ns_name n) c) key (contents (ns_inner n) key).
Proof.
  intros Hok. destruct (write_law (ns_inner n) (prefixed_change (ns_name n) c) Hok) as (s' & E & ? & ?).
  exists s'. unfold ns_write. by rewrite E.
Qed.

Lemma ns_slot_set_law n h k v : ns_ok n → ns_slot_of n h k →
  ∃ s', ns_slot_set h v n = Ok (mkNamespaced s' (ns_name n)) ∧ evolves (ns_inner n) s' ∧
  ∀ key, contents s' key = if decide (key = prefixed (ns_name n) k)
                           then keep (ns_contents n k) v else contents (ns_inner n) key.
Proof.
  intros Hok Hh. destruct (slot_set_law (ns_inner n) h _ v Hok Hh) as (s' & E & ? & ?).
  exists s'. unfold ns_slot_set. by rewrite E.
Qed.

#[export] Program Instance NamespacedDataStoreLaws : DataStoreLaws (NamespacedStore S) := {|
  ok := ns_ok;
  contents := ns_contents;
  slot_of := ns_slot_of;
  live := ns_live;
|}.
Next Obligation.
  intros n keys Hok. cbn [read NamespacedDataStore]. unfold ns_read.
  rewrite (read_law (ns_inner n) _ Hok), <- list_fmap_compose. done.
Qed.
Next Obligation.
  intros n k Hok. pose proof (snapshot_law (ns_inner n) (prefixed (ns_name n) k) Hok) as Hs.
  rewrite held_lookup in Hs |- *. cbn [snapshot NamespacedDataStore]. unfold ns_snapshot. simpl.
  by rewrite relative_map_lookup.
Qed.
Next Obligation.
  intros n c Hok. destruct (ns_write_law n c Hok) as (s' & E & Hev & Hc).
  eexists. split; [exact E|]. split; [by apply ns_evolves|].
  intros k. unfold ns_contents. simpl. by rewrite Hc, write_at_prefixed.
Qed.
Next Obligation.
  intros n k h n' Hok. cbn [slot NamespacedDataStore]. unfold ns_slot.
  destruct (slot _ _) as [h1 s1] eqn:E. intros [= <- <-].
  destruct (slot_law (ns_inner n) _ _ _ Hok E) as (Hev & Hc & Hh).
  split; [by apply ns_evolves|]. split; [intros j; apply Hc|exact Hh].
Qed.
Next Obligation. intros n h k Hok Hh. exact (slot_get_law (ns_inner n) h _ Hok Hh). Qed.
Next Obligation.
  intros n h k v Hok Hh. destruct (ns_slot_set_law n h k v Hok Hh) as (s' & E & Hev & Hc).
  eexists. split; [exact E|]. split; [by apply ns_evolves|].
  intros j. unfold ns_contents at 1. simpl. rewrite Hc.
  destruct (decide (j = k)) as [->|Hne]; [by rewrite decide_True|].
  rewrite decide_False; [done|]. by intros ?%(inj (prefixed (ns_name n))).
Qed.
Next Obligation.
  intros n p sub n' Hok. cbn [subscribe_prefix NamespacedDataStore]. unfold ns_subscribe_prefix.
  destruct (subscribe_prefix _ _) as [inner s1] eqn:E. intros [= <- <-].
  destruct (subscribe_law (ns_inner n) _ _ _ Hok E) as (Hev & Hc & Hl & Hf).
  assert (∀ c, tr (sub_map inner (confine (ns_name n))) c = confine (ns_name n) (tr inner c)) as Htr
    by (intros; apply tr_sub_map).
  split; [by apply ns_evolves|]. split; [intros k; apply Hc|]. split.
  - exists inner. done.
  - intros k Hk. rewrite (ns_fold_pending _ _ inner) by done. apply Hf. by rewrite covered_prefixed.
Qed.
Next Obligation.
  intros n sub p Hok (inner & Hl & Hrx & Htr).
  pose proof (routing_law (ns_inner n) inner _ Hok Hl) as Hr. unfold pending in *.
  rewrite Forall_try_iter in Hr |- * by apply all_covered_new.
  cbn [queue NamespacedDataStore]. rewrite Hrx. rewrite Forall_fmap in Hr |- *.
  eapply Forall_impl; [exact Hr|]. intros c Hc. simpl in *. rewrite Htr. by apply all_covered_confine.
Qed.
Next Obligation.
  intros n sub p (inner & Hl & Hrx & Htr). exists inner. rewrite rx_sub_opened.
  split; [done|]. split; [done|]. intros c. rewrite tr_sub_opened. apply Htr.
Qed.
Next Obligation.
  intros n sub p q Hok (inner & Hl & Hrx & Htr) Hq. cbn [queue dequeue NamespacedDataStore] in *.
  rewrite Hrx in *. destruct (dequeue_law (ns_inner n) inner _ q Hok Hl Hq) as (Ho & Hc & Hq' & Hs & Hl').
  split; [done|]. split; [intros; apply Hc|]. split; [done|]. split; [intros; by apply Hs|].
  intros sub' p' (inner' & Hi & Hrx' & Htr'). destruct (Hl' _ _ Hi) as [Hi1 Hi2].
  split; [by exists inner'|]. rewrite Hrx'. apply Hi2.
Qed.
End Laws.

(** *** Neighbours *)

(** Two namespaces neither of which is inside the other. *)
Definition disjoint_namespaces (a b : string) : bool := negb (prefix_covers a b) && negb (prefix_covers b a).

Lemma prefix_covers_prefixed ns k : prefix_covers ns (path (prefixed ns k)) = true.
Proof. apply prefix_covers_append. Qed.

Lemma disjoint_key a b key :
  disjoint_namespaces a b = true → prefix_covers a (path key) = true → prefix_covers b (path key) = true → False.
Proof.
  unfold disjoint_namespaces. intros [Hab Hba]%andb_true_iff Ha Hb.
  destruct (prefix_covers_comparable _ _ _ Ha Hb) as [E|E]; rewrite E in *; done.
Qed.

Lemma relative_disjoint a b k : disjoint_namespaces a b = true → relative a (prefixed b k) = None.
Proof.
  intros Hd. destruct (relative a (prefixed b k)) as [j|] eqn:E; [|done].
  apply relative_spec in E. exfalso. apply (disjoint_key a b (prefixed b k) Hd).
  - rewrite E. apply prefix_covers_prefixed.
  - apply prefix_covers_prefixed.
Qed.

Lemma subtree_covered b p key :
  prefix_covers (prefixed_subtree b p) key = true → prefix_covers b key = true.
Proof.
  unfold prefixed_subtree. destruct (String.eqb p String.EmptyString); [done|].
  intros Hk. eapply prefix_covers_trans; [|exact Hk|].
  - apply (prefix_covers_append b p).
  - by destruct b.
Qed.

Lemma keep_under_none p c :
  (∀ k, is_Some (sc_set c !! k) → covered p k = false) → (∀ k, k ∈ sc_unset c → covered p k = false) →
  keep_under p c = sc_new.
Proof.
  intros Hs Hu. unfold keep_under. destruct (all_covered p c) eqn:E.
  - apply all_covered_spec in E as [Es Eu]. apply sc_ext; simpl.
    + apply map_eq. intros k. rewrite lookup_empty. apply eq_None_not_Some. intros Hk.
      specialize (Hs k Hk). specialize (Es k Hk). congruence.
    + apply set_eq. intros k. split; [|set_solver]. intros Hk.
      specialize (Hu k Hk). specialize (Eu k Hk). congruence.
  - apply sc_ext; simpl.
    + apply map_empty. intros k. apply map_lookup_filter_None. right. intros v Hv.
      simpl. rewrite Hs by eauto. done.
    + apply set_eq. intros k. rewrite elem_of_filter. split; [|set_solver]. intros [Hk Hin].
      specialize (Hu k Hin). congruence.
Qed.

(** What a view's batch comes to is under the view's namespace. *)
Lemma ns_effective a c s s' eff key :
  simple_ok s → write_cells (prefixed_change a c) s = (s', eff) →
  is_Some (sc_set eff !! key) ∨ key ∈ sc_unset eff → prefix_covers a (path key) = true.
Proof.
  intros Hok E Hkey. destruct (write_cells_spec _ _ _ _ Hok E) as (_ & Hk).
  destruct (Hk key) as (_ & Hs & Hu).
  assert (∃ j, key = prefixed a j) as [j ->]; [|apply prefix_covers_prefixed].
  destruct Hkey as [Hkey|Hkey].
  - rewrite Hs in Hkey. cbn [sc_set prefixed_change] in Hkey.
    destruct (kmap _ _ !! key) as [v|] eqn:Ek; [|by destruct Hkey].
    apply lookup_kmap_Some in Ek as (j & -> & _); [eauto|apply _].
  - apply Hu in Hkey as [Hkey _]. cbn [sc_unset prefixed_change] in Hkey.
    apply elem_of_map in Hkey as (j & -> & _). eauto.
Qed.

Lemma ns_write_quiet a b p c s sub :
  simple_ok s → disjoint_namespaces a b = true → simple_live s sub (prefixed_subtree b p) →
  ∃ s', ns_write c (mkNamespaced s a) = Ok (mkNamespaced s' a) ∧
    simple_queue s' (rx sub) = simple_queue s (rx sub).
Proof.
  intros Hok Hd Hl. destruct (write_cells (prefixed_change a c) s) as [s1 eff] eqn:E.
  destruct (write_cells_spec _ _ _ _ Hok E) as ((Hok1 & _ & Hsame) & _).
  exists (notify eff s1). split.
  { unfold ns_write. cbn [write SimpleDataStore ns_inner ns_name]. by rewrite (simple_write_eq _ _ _ _ E). }
  destruct (notify_spec s1 eff Hok1) as (_ & _ & _ & Hl').
  destruct (Hl' sub (prefixed_subtree b p)) as (_ & ->); [by eapply live_same|].
  rewrite (queue_same s s1) by done.
  assert (∀ key, is_Some (sc_set eff !! key) ∨ key ∈ sc_unset eff → covered (prefixed_subtree b p) key = false) as Hn.
  { intros key Hkey. pose proof (ns_effective a c s s1 eff key Hok E Hkey) as Ha.
    destruct (covered (prefixed_subtree b p) key) eqn:Hc; [|done].
    apply subtree_covered in Hc. by destruct (disjoint_key a b key Hd Ha Hc). }
  unfold sent. rewrite keep_under_none by auto. by rewrite app_nil_r.
Qed.

(** *** Meta *)

(** [meta] depends only on a key's own statement and those of the prefixes
    covering it. *)
Lemma simple_meta_ext s s' k :
  own_meta s !! k = own_meta s' !! k →
  (∀ p, covered p k = true → prefix_meta s !! p = prefix_meta s' !! p) →
  simple_meta s [k] = simple_meta s' [k].
Proof.
  intros Ho Hp. destruct (own_meta s !! k) as [m|] eqn:E.
  { unfold simple_meta. cbn [fmap list_fmap]. by rewrite <- Ho, E. }
  pose proof (simple_meta_deepest s k E) as H1. symmetry in Ho.
  pose proof (simple_meta_deepest s' k Ho) as H2.
  destruct (simple_meta s [k]) as [|[m1|] [|]] eqn:M1, (simple_meta s' [k]) as [|[m2|] [|]] eqn:M2; try done.
  - destruct H1 as (p1 & Hp1 & Hc1 & Hmax1), H2 as (p2 & Hp2 & Hc2 & Hmax2).
    assert (p1 = p2) as <-; [|rewrite Hp in Hp1 by done; congruence].
    pose proof (Hmax1 p2 ltac:(rewrite Hp by done; eauto) Hc2) as L1%prefix_covers_length.
    pose proof (Hmax2 p1 ltac:(rewrite <- Hp by done; eauto) Hc1) as L2%prefix_covers_length.
    apply (prefix_covers_length_inj _ _ _ Hc1 Hc2). lia.
  - destruct H1 as (p1 & Hp1 & Hc1 & _). rewrite (H2 p1) in Hc1; [done|]. rewrite <- Hp by done. eauto.
  - destruct H2 as (p2 & Hp2 & Hc2 & _). rewrite (H1 p2) in Hc2; [done|]. rewrite Hp by done. eauto.
Qed.

#[export] Instance prefixed_subtree_inj ns : Inj (=) (=) (prefixed_subtree ns).
Proof.
  intros p q. unfold prefixed_subtree.
  assert (∀ s, ns ≠ ns +:+ "/"%string +:+ s) as Hne.
  { intros s Heq. apply (f_equal String.length) in Heq. rewrite !length_append in Heq. simpl in Heq. lia. }
  destruct (String.eqb_spec p String.EmptyString) as [->|], (String.eqb_spec q String.EmptyString) as [->|]; try done.
  - intros Heq. by destruct (Hne q).
  - intros Heq. by destruct (Hne p).
  - intros Heq%append_inj_l. by injection Heq.
Qed.

(** ** Properties *)

(** A view is a store of its own keys: a batch written through it is what its
    reads then answer, and the inner store's keys outside its namespace hold what
    they held. For any inner store that keeps the trait's promises. *)
Theorem view_write_read {S} `{DSL : DataStoreLaws S} (s : S) ns c :
  ok s → ∃ s', ns_write c (mkNamespaced s ns) = Ok (mkNamespaced s' ns) ∧ ok s' ∧
  (∀ keys, ns_read (mkNamespaced s' ns) keys
           = (λ k, write_at c k (contents s (prefixed ns k))) <$> keys) ∧
  (∀ key, relative ns key = None → contents s' key = contents s key).
Proof.
  intros Hok. destruct (ns_write_law (mkNamespaced s ns) c Hok) as (s' & E & (Hok' & _) & Hc).
  exists s'. split; [done|]. split; [done|]. split.
  - intros keys. unfold ns_read. cbn [ns_inner ns_name]. rewrite (read_law s' _ Hok'), <- list_fmap_compose.
    apply list_fmap_ext. intros ? k _. simpl. by rewrite Hc, write_at_prefixed.
  - intros key Hn. by rewrite Hc, write_at_outside.
Qed.

(** Neighbours do not collide: two views over one store, of namespaces neither of
    which is inside the other, do not see each other's writes or slot writes. *)
Theorem neighbours_isolated {S} `{DSL : DataStoreLaws S} (s : S) a b c h j v :
  ok s → disjoint_namespaces a b = true → ns_slot_of (mkNamespaced s a) h j →
  ∃ s1 s2, ns_write c (mkNamespaced s a) = Ok (mkNamespaced s1 a) ∧
    ns_slot_set h v (mkNamespaced s a) = Ok (mkNamespaced s2 a) ∧
    ∀ k, ns_contents (mkNamespaced s1 b) k = ns_contents (mkNamespaced s b) k ∧
         ns_contents (mkNamespaced s2 b) k = ns_contents (mkNamespaced s b) k.
Proof.
  intros Hok Hd Hh. destruct (ns_write_law (mkNamespaced s a) c Hok) as (s1 & E1 & _ & Hc1).
  destruct (ns_slot_set_law (mkNamespaced s a) h j v Hok Hh) as (s2 & E2 & _ & Hc2).
  exists s1, s2. split; [done|]. split; [done|]. intros k. unfold ns_contents. cbn [ns_inner ns_name] in *. split.
  - rewrite Hc1. apply write_at_outside. by apply relative_disjoint.
  - rewrite Hc2. rewrite decide_False; [done|]. intros E.
    pose proof (relative_disjoint a b k Hd) as Hn. by rewrite E, relative_prefixed in Hn.
Qed.

(** A neighbour's writes neither reach nor wake a device: over the hash-map
    store, a write through one view leaves the channel of another view's
    subscription as it is. *)
Theorem neighbours_not_woken s a b p c sub :
  simple_ok s → disjoint_namespaces a b = true → ns_live (mkNamespaced s b) sub p →
  ∃ s', ns_write c (mkNamespaced s a) = Ok (mkNamespaced s' a) ∧
    simple_queue s' (rx sub) = simple_queue s (rx sub).
Proof. intros Hok Hd (inner & Hl & -> & _). by apply (ns_write_quiet a b p). Qed.

(** What a view says of its subtrees, the empty prefix included, says nothing of
    its neighbours' keys. *)
Theorem neighbours_meta_isolated s a b m k :
  disjoint_namespaces a b = true →
  ∃ s', ns_set_prefix_meta m (mkNamespaced s a) = Ok (mkNamespaced s' a) ∧
    ns_meta (mkNamespaced s' b) [k] = ns_meta (mkNamespaced s b) [k].
Proof.
  intros Hd. eexists. split; [reflexivity|]. unfold ns_meta. cbn [ns_inner ns_name fmap list_fmap].
  apply simple_meta_ext; [done|]. intros p Hc. simpl.
  rewrite lookup_union_r; [done|]. apply eq_None_not_Some. intros [x Hx].
  apply lookup_kmap_Some in Hx as (q & -> & _); [|apply _].
  apply (disjoint_key a b (prefixed b k) Hd); [by eapply subtree_covered|apply prefix_covers_prefixed].
Qed.

(** ** Witnesses *)
Lemma view_write_read_witness :
  ∃ s', ns_write (sc_single (mkKey "yaw") (Value.U8 3)) (mkNamespaced inner_new "left")
    = Ok (mkNamespaced s' "left") ∧ simple_ok s' ∧
  (∀ keys, ns_read (mkNamespaced s' "left"%string) keys
           = (λ k, write_at (sc_single (mkKey "yaw") (Value.U8 3)) k (contents inner_new (prefixed "left" k))) <$> keys) ∧
  (∀ key, relative "left" key = None → simple_contents s' key = simple_contents inner_new key).
Proof. apply (view_write_read (DSL := SimpleDataStoreLaws)). apply inner_new_ok. Defined.

Definition left_yaw : SimpleSlot * Inner := simple_slot (prefixed "left" (mkKey "yaw")) inner_new.

Lemma neighbours_isolated_witness :
  ∃ s1 s2, ns_write (sc_single (mkKey "yaw") (Value.U8 3)) (mkNamespaced left_yaw.2 "left")
      = Ok (mkNamespaced s1 "left") ∧
    ns_slot_set left_yaw.1 (Some (Value.U8 4)) (mkNamespaced left_yaw.2 "left") = Ok (mkNamespaced s2 "left") ∧
    ∀ k, ns_contents (mkNamespaced s1 "right"%string) k = ns_contents (mkNamespaced left_yaw.2 "right"%string) k ∧
         ns_contents (mkNamespaced s2 "right"%string) k = ns_contents (mkNamespaced left_yaw.2 "right"%string) k.
Proof.
  assert (simple_ok left_yaw.2) as Hok.
  { unfold left_yaw, simple_slot. destruct (cell _ _) as [l s] eqn:E.
    by destruct (cell_spec _ _ _ _ inner_new_ok E) as ((? & _) & _). }
  apply (neighbours_isolated (DSL := SimpleDataStoreLaws) _ _ _ _ _ (mkKey "yaw") _ Hok); [reflexivity|].
  split; vm_compute; reflexivity.
Defined.

Lemma neighbours_not_woken_witness :
  let '(sub, n) := ns_subscribe_prefix String.EmptyString (mkNamespaced inner_new "right"%string) in
  ∃ s', ns_write (sc_single (mkKey "yaw") (Value.U8 3)) (mkNamespaced (ns_inner n) "left")
    = Ok (mkNamespaced s' "left") ∧ simple_queue s' (rx sub) = simple_queue (ns_inner n) (rx sub).
Proof.
  unfold ns_subscribe_prefix. cbn [subscribe_prefix SimpleDataStore ns_inner ns_name].
  destruct (simple_subscribe_prefix _ inner_new) as [inner s] eqn:E. cbn [ns_inner].
  destruct (subscribe_others _ _ _ _ inner_new_ok E) as (_ & Hok & _ & _ & _ & Hl & _).
  apply (neighbours_not_woken s "left" "right" String.EmptyString); [exact Hok|reflexivity|].
  exists inner. split; [exact Hl|]. split; [done|]. intros c. apply tr_sub_map.
Defined.

Lemma neighbours_meta_isolated_witness :
  ∃ s', ns_set_prefix_meta {[ String.EmptyString := editable km_new ]} (mkNamespaced inner_new "left")
    = Ok (mkNamespaced s' "left") ∧
    ns_meta (mkNamespaced s' "right"%string) [mkKey "yaw"] = ns_meta (mkNamespaced inner_new "right"%string) [mkKey "yaw"].
Proof. apply neighbours_meta_isolated. reflexivity. Defined.
