(* ===== verification/Interleaving.v ===== *)
(** * Concurrent holders of the hash-map store

    [SimpleStore.v] runs each operation without another in between. The source
    does not: [write] locks one cell at a time and then the subscriber list,
    [Slot::set] its cell and then the list, [subscribe_prefix] holds the list
    while it reads the cells one at a time. Here each of these critical sections
    is a step, the writers in flight and the subscription being opened are part
    of the state, and a channel keeps all it was sent (what a receiver takes is a
    beginning of it). [cell] and the lock of the cell it returns are one step:
    between the two a new cell is only absent or empty, which no read tells apart.

    A slot's [set] is a writer of its one key: its cell is the key's. *)

From S2P Require Import Prelude Values Extern Keys State Store SimpleStore.

(** A writer in flight: what it was asked to write, what it has left to do, and the
    changes it has come to. *)
Record Writer := mkWriter {
  w_batch : StateChange;
  w_set : list (Key * option Value);
  w_unset : list Key;
  w_effective : StateChange;
}.

(** A subscription being opened, the subscriber list locked: the keys still to
    read, and the opening state so far. *)
Record Opening := mkOpening {
  o_prefix : string;
  o_todo : list Key;
  o_state : gmap Key (option Value);
}.

Record Conc := mkConc {
  c_inner : Inner;
  c_writers : list Writer;
  c_opening : option Opening;
}.

Definition touches (c : StateChange) (k : Key) : Prop := is_Some (sc_set c !! k) ∨ k ∈ sc_unset c.
Abbreviation owns w k := (touches (w_batch w) k).

(** No writer in flight holds a key of the batch. *)
Definition no_race (ws : list Writer) (c : StateChange) : Prop :=
  Forall (λ w, ∀ k, owns w k → touches c k → False) ws.

(** While a subscription is being opened, the map of cells is locked too: a key
    without a cell cannot be written. *)
Definition may_lock (c : Conc) (k : Key) : Prop := c_opening c = None ∨ is_Some (cells (c_inner c) !! k).

Section Steps.
(** Which batches may start: any, in the source. *)
Variable may_start : list Writer → StateChange → Prop.

Inductive conc_step : Conc → Conc → Prop :=
| conc_start s ws o batch l l' :
    may_start ws batch → l ≡ₚ map_to_list (sc_set batch) → l' ≡ₚ elements (sc_unset batch) →
    conc_step (mkConc s ws o) (mkConc s (mkWriter batch l l' sc_new :: ws) o)
| conc_set s ws1 ws2 o batch kv l l' eff s' eff' :
    may_lock (mkConc s (ws1 ++ mkWriter batch (kv :: l) l' eff :: ws2) o) kv.1 →
    write_set (s, eff) kv = (s', eff') →
    conc_step (mkConc s (ws1 ++ mkWriter batch (kv :: l) l' eff :: ws2) o)
              (mkConc s' (ws1 ++ mkWriter batch l l' eff' :: ws2) o)
| conc_unset s ws1 ws2 o batch k l' eff s' eff' :
    may_lock (mkConc s (ws1 ++ mkWriter batch [] (k :: l') eff :: ws2) o) k →
    write_unset (s, eff) k = (s', eff') →
    conc_step (mkConc s (ws1 ++ mkWriter batch [] (k :: l') eff :: ws2) o)
              (mkConc s' (ws1 ++ mkWriter batch [] l' eff' :: ws2) o)
| conc_notify s ws1 ws2 batch eff :
    conc_step (mkConc s (ws1 ++ mkWriter batch [] [] eff :: ws2) None)
              (mkConc (notify eff s) (ws1 ++ ws2) None)
| conc_open s ws p l :
    l ≡ₚ (map_to_list (cells s)).*1 →
    conc_step (mkConc s ws None) (mkConc s ws (Some (mkOpening p l ∅)))
| conc_read s ws p k l m :
    conc_step (mkConc s ws (Some (mkOpening p (k :: l) m)))
              (mkConc s ws (Some (mkOpening p l (if covered p k then <[ k := simple_contents s k ]> m else m))))
| conc_push s ws p m sub s' :
    attach p (mkStateChange m ∅) s = (sub, s') →
    conc_step (mkConc s ws (Some (mkOpening p [] m))) (mkConc s' ws None).
End Steps.

Definition conc_new : Conc := mkConc inner_new [] None.

(** ** Lemmas *)

(** Whoever knows [F] of a key knows what it holds, once the writer that holds the
    key, if any, has notified. *)
Definition in_step (ws : list Writer) (k : Key) (F held : option Value) : Prop :=
  (∀ w, w ∈ ws → owns w k → apply_at k F (w_effective w) = held) ∧
  ((∀ w, w ∈ ws → ¬ owns w k) → F = held).

Definition told (s : Inner) (sub : Subscription) (k : Key) : option Value :=
  foldl (apply_at k) None (simple_queue s (rx sub)).

Record writer_ok (s : Inner) (w : Writer) : Prop := {
  wo_set : ∀ kv, kv ∈ w_set w → owns w kv.1;
  wo_unset : ∀ k, k ∈ w_unset w → owns w k;
  wo_eff : ∀ k x, ¬ owns w k → apply_at k x (w_effective w) = x;
  wo_order : w_set w ≠ [] → sc_unset (w_effective w) = ∅;
  wo_held : ∀ k, apply_at k (simple_contents s k) (w_effective w) = simple_contents s k;
}.

Fixpoint apart (ws : list Writer) : Prop :=
  match ws with [] => True | w :: ws => no_race ws (w_batch w) ∧ apart ws end.

Record conc_inv (c : Conc) : Prop := {
  ci_ok : simple_ok (c_inner c);
  ci_writers : Forall (writer_ok (c_inner c)) (c_writers c);
  ci_apart : apart (c_writers c);
  ci_told : ∀ sub p k, simple_live (c_inner c) sub p → covered p k = true →
    in_step (c_writers c) k (told (c_inner c) sub k) (simple_contents (c_inner c) k);
  ci_opening : ∀ o, c_opening c = Some o →
    (∀ k, is_Some (o_state o !! k) → covered (o_prefix o) k = true) ∧
    ∀ k, covered (o_prefix o) k = true → k ∉ o_todo o →
      in_step (c_writers c) k (match o_state o !! k with Some v => v | None => None end)
        (simple_contents (c_inner c) k);
}.

Lemma no_race_app ws1 ws2 c : no_race (ws1 ++ ws2) c ↔ no_race ws1 c ∧ no_race ws2 c.
Proof. apply Forall_app. Qed.

Lemma no_race_cons w ws c : no_race (w :: ws) c ↔ (∀ k, owns w k → touches c k → False) ∧ no_race ws c.
Proof. apply Forall_cons. Qed.

(** A writer apart from the others, wherever it is in the list. *)
Lemma apart_middle ws1 w ws2 :
  apart (ws1 ++ w :: ws2) ↔ no_race (ws1 ++ ws2) (w_batch w) ∧ apart (ws1 ++ ws2).
Proof.
  induction ws1 as [|w1 ws1 IH]; [done|]. cbn [app apart]. rewrite IH.
  rewrite !no_race_app, !no_race_cons, no_race_app. naive_solver.
Qed.

Lemma apart_same ws1 w w' ws2 :
  w_batch w' = w_batch w → apart (ws1 ++ w :: ws2) → apart (ws1 ++ w' :: ws2).
Proof. rewrite !apart_middle. by intros ->. Qed.

Lemma elem_of_middle {A} (x y : A) l1 l2 : x ∈ l1 ++ y :: l2 ↔ x = y ∨ x ∈ l1 ++ l2.
Proof. rewrite !elem_of_app, elem_of_cons. tauto. Qed.

Lemma apart_owner ws1 w ws2 w' k :
  apart (ws1 ++ w :: ws2) → w' ∈ ws1 ++ ws2 → owns w k → owns w' k → False.
Proof.
  rewrite apart_middle. unfold no_race. rewrite Forall_forall. intros [Hr _] Hin Ho Ho'. by eapply Hr.
Qed.

(** What a step of one writer keeps, for whoever was in step. *)
Lemma in_step_writer ws1 w w' ws2 k F x x' :
  apart (ws1 ++ w :: ws2) → w_batch w' = w_batch w →
  (¬ owns w k → x' = x) →
  (apply_at k F (w_effective w) = x → apply_at k F (w_effective w') = x') →
  in_step (ws1 ++ w :: ws2) k F x → in_step (ws1 ++ w' :: ws2) k F x'.
Proof.
  intros Ha Hb Hno Heff [H1 H2]. split.
  - intros w0 [->|Hin]%elem_of_middle Ho.
    + rewrite Hb in Ho. apply Heff, H1; [|done]. apply elem_of_middle. by left.
    + rewrite Hno; [apply H1; [|done]; apply elem_of_middle; by right|].
      intros Ho'. by eapply apart_owner.
  - intros Hnone. assert (¬ owns w k) as Hw.
    { rewrite <- Hb. apply Hnone. apply elem_of_middle. by left. }
    rewrite (Hno Hw). apply H2. intros w0 [->|Hin]%elem_of_middle; [done|].
    apply Hnone. apply elem_of_middle. by right.
Qed.

(** The writer notifies: its changes are told, and it is gone. *)
Lemma in_step_notify ws1 w ws2 k F x :
  apart (ws1 ++ w :: ws2) → (¬ owns w k → ∀ y, apply_at k y (w_effective w) = y) →
  in_step (ws1 ++ w :: ws2) k F x → in_step (ws1 ++ ws2) k (apply_at k F (w_effective w)) x.
Proof.
  intros Ha Hno [H1 H2]. split.
  - intros w0 Hin Ho. rewrite Hno; [apply H1; [|done]; apply elem_of_middle; by right|].
    intros Ho'. by eapply apart_owner.
  - intros Hnone. destruct (decide (is_Some (sc_set (w_batch w) !! k))) as [Hs|Hs];
      [apply H1; [apply elem_of_middle; by left|by left]|].
    destruct (decide (k ∈ sc_unset (w_batch w))) as [Hu|Hu];
      [apply H1; [apply elem_of_middle; by left|by right]|].
    assert (¬ owns w k) as Hw by (intros [?|?]; done).
    rewrite (Hno Hw). apply H2. intros w0 [->|Hin]%elem_of_middle; [done|by apply Hnone].
Qed.

(** A new writer has changed nothing yet. *)
Lemma in_step_start ws w k F x :
  no_race ws (w_batch w) → w_effective w = sc_new → in_step ws k F x → in_step (w :: ws) k F x.
Proof.
  intros Hr Hw [H1 H2]. split.
  - intros w0 [->|Hin]%elem_of_cons Ho; [|by apply H1]. rewrite Hw, apply_at_empty. apply H2.
    intros w0 Hin Ho'. unfold no_race in Hr. rewrite Forall_forall in Hr. by eapply Hr.
  - intros Hnone. apply H2. intros w0 Hin. apply Hnone. by right.
Qed.

(** Whoever reads the cell is in step. *)
Lemma in_step_read s ws k : Forall (writer_ok s) ws → in_step ws k (simple_contents s k) (simple_contents s k).
Proof.
  rewrite Forall_forall. intros Hw. split; [|done]. intros w Hin _. by apply wo_held, Hw.
Qed.

Lemma apply_at_idemp k x e : apply_at k (apply_at k x e) e = apply_at k x e.
Proof. unfold apply_at. destruct (decide _); [done|]. by destruct (sc_set e !! k). Qed.

Lemma live_same_rev s s' sub p : same_subscribers s s' → simple_live s' sub p → simple_live s sub p.
Proof. intros (Hs & Hc & Ha & _). unfold simple_live. by rewrite Hs, Hc, Ha. Qed.

Lemma conc_inv_writer s s' ws1 w w' ws2 o :
  conc_inv (mkConc s (ws1 ++ w :: ws2) o) → w_batch w' = w_batch w → cells_step s s' →
  (∀ k, ¬ owns w k → simple_contents s' k = simple_contents s k) →
  (∀ k F, apply_at k F (w_effective w) = simple_contents s k →
          apply_at k F (w_effective w') = simple_contents s' k) →
  (∀ kv, kv ∈ w_set w' → owns w kv.1) → (∀ k, k ∈ w_unset w' → owns w k) →
  (∀ k x, ¬ owns w k → apply_at k x (w_effective w') = x) →
  (w_set w' ≠ [] → sc_unset (w_effective w') = ∅) →
  conc_inv (mkConc s' (ws1 ++ w' :: ws2) o).
Proof.
  intros [Hok Hws Hap Htold Hopen] Hb (Hok' & _ & Hsame) Hno Heff H1 H2 H3 H4.
  cbn [c_inner c_writers c_opening] in *.
  assert (Hws' := Hws). rewrite Forall_forall in Hws'.
  assert (writer_ok s w) as Hw by (apply Hws', elem_of_middle; by left).
  split; cbn [c_inner c_writers c_opening].
  - done.
  - rewrite Forall_forall. intros w0 [->|Hin]%elem_of_middle.
    + split; try (rewrite Hb; done); [done|]. intros k.
      rewrite <- (Heff k (simple_contents s k)); [apply apply_at_idemp|]. by apply wo_held.
    + destruct (Hws' w0) as [A B C D Eh]; [apply elem_of_middle; by right|]. split; try done.
      intros k. destruct (decide (is_Some (sc_set (w_batch w0) !! k) ∨ k ∈ sc_unset (w_batch w0))) as [Ho|Ho].
      * rewrite Hno; [apply Eh|]. intros Ho'. by eapply apart_owner.
      * by apply C.
  - by eapply apart_same.
  - intros sub p k Hl Hk. unfold told. rewrite (queue_same s s' _ Hsame).
    eapply in_step_writer; [exact Hap|done|by apply Hno|by apply Heff|].
    eapply Htold; [|exact Hk]. by eapply live_same_rev.
  - intros op Hop. destruct (Hopen op Hop) as (Hc & Hi). split; [done|].
    intros k Hk Hn. eapply in_step_writer; [exact Hap|done|by apply Hno|by apply Heff|]. by apply Hi.
Qed.

Lemma conc_inv_set s s' ws1 ws2 o batch kv l l' eff eff' :
  conc_inv (mkConc s (ws1 ++ mkWriter batch (kv :: l) l' eff :: ws2) o) →
  write_set (s, eff) kv = (s', eff') →
  conc_inv (mkConc s' (ws1 ++ mkWriter batch l l' eff' :: ws2) o).
Proof.
  intros Hinv E. destruct kv as [key v]. assert (Hok := ci_ok _ Hinv). simpl in Hok.
  destruct (write_set_spec _ _ _ _ _ _ Hok E) as (Hstep & Hc & He).
  assert (Hw := ci_writers _ Hinv). simpl in Hw. rewrite Forall_app, Forall_cons in Hw.
  destruct Hw as (_ & [A B C D Eh] & _). cbn [w_batch w_set w_unset w_effective] in *.
  assert (touches batch key) as Hkey by (apply (A (key, v)); by left).
  assert (∀ k, ¬ touches batch k → k ≠ key) as Hne by (intros k Hk ->; done).
  assert (∀ k x, k ≠ key → apply_at k x eff' = apply_at k x eff) as Hother.
  { intros k x Hk. rewrite He. destruct (differs _ _); [|done]. unfold apply_at. simpl.
    by rewrite lookup_insert_ne. }
  eapply conc_inv_writer; [exact Hinv|done|done|..]; cbn [w_batch w_set w_unset w_effective].
  - intros k Hk. rewrite Hc, decide_False; [done|]. by apply Hne.
  - intros k F HF. rewrite Hc. destruct (decide (k = key)) as [->|Hk]; [|by rewrite Hother].
    rewrite He. unfold keep, differs in *.
    destruct (option_eqb value_eqb (simple_contents s key) v); simpl; [done|].
    unfold apply_at. simpl. rewrite D, decide_False, lookup_insert_eq by (done || set_solver). done.
  - intros kv Hkv. apply A. by right.
  - done.
  - intros k x Hk. rewrite Hother by (by apply Hne). by apply C.
  - intros _. rewrite He. destruct (differs _ _); by apply D.
Qed.

Lemma conc_inv_unset s s' ws1 ws2 o batch key l' eff eff' :
  conc_inv (mkConc s (ws1 ++ mkWriter batch [] (key :: l') eff :: ws2) o) →
  write_unset (s, eff) key = (s', eff') →
  conc_inv (mkConc s' (ws1 ++ mkWriter batch [] l' eff' :: ws2) o).
Proof.
  intros Hinv E. assert (Hok := ci_ok _ Hinv). simpl in Hok.
  destruct (write_unset_spec _ _ _ _ _ Hok E) as (Hstep & Hc & He).
  assert (Hw := ci_writers _ Hinv). simpl in Hw. rewrite Forall_app, Forall_cons in Hw.
  destruct Hw as (_ & [A B C D Eh] & _). cbn [w_batch w_set w_unset w_effective] in *.
  assert (touches batch key) as Hkey by (apply B; by left).
  assert (∀ k, ¬ touches batch k → k ≠ key) as Hne by (intros k Hk ->; done).
  assert (∀ k x, k ≠ key → apply_at k x eff' = apply_at k x eff) as Hother.
  { intros k x Hk. rewrite He. destruct (simple_contents s key); [|done]. unfold apply_at. simpl.
    destruct (decide (k ∈ sc_unset eff)) as [Hin|Hin].
    - by rewrite decide_True by (apply elem_of_union; by right).
    - rewrite decide_False; [done|]. intros [?%elem_of_singleton|?]%elem_of_union; done. }
  eapply conc_inv_writer; [exact Hinv|done|done|..]; cbn [w_batch w_set w_unset w_effective].
  - intros k Hk. rewrite Hc, decide_False; [done|]. by apply Hne.
  - intros k F HF. rewrite Hc. destruct (decide (k = key)) as [->|Hk]; [|by rewrite Hother].
    rewrite He. destruct (simple_contents s key) eqn:Ek; [|done]. unfold apply_at. simpl.
    rewrite decide_True; [done|]. apply elem_of_union. left. by apply elem_of_singleton.
  - intros kv Hkv. by apply elem_of_nil in Hkv.
  - intros k Hk. apply B. by right.
  - intros k x Hk. rewrite Hother by (by apply Hne). by apply C.
  - done.
Qed.

Lemma writers_ok_same s s' ws :
  (∀ k, simple_contents s' k = simple_contents s k) → Forall (writer_ok s) ws → Forall (writer_ok s') ws.
Proof.
  intros Hc Hws. eapply Forall_impl; [exact Hws|]. intros w [A B C D E]. split; try done.
  intros k. rewrite Hc. apply E.
Qed.

Lemma conc_inv_start s ws o batch l l' :
  conc_inv (mkConc s ws o) → no_race ws batch →
  l ≡ₚ map_to_list (sc_set batch) → l' ≡ₚ elements (sc_unset batch) →
  conc_inv (mkConc s (mkWriter batch l l' sc_new :: ws) o).
Proof.
  intros [Hok Hws Hap Htold Hopen] Hr Hl Hl'. cbn [c_inner c_writers c_opening] in *.
  split; cbn [c_inner c_writers c_opening].
  - done.
  - constructor; [|done]. split; cbn [w_batch w_set w_unset w_effective].
    + intros [k v] Hin. rewrite Hl in Hin. left. apply elem_of_map_to_list in Hin. simpl. eauto.
    + intros k Hin. rewrite Hl' in Hin. right. by apply elem_of_elements.
    + intros k x _. apply apply_at_empty.
    + done.
    + intros k. apply apply_at_empty.
  - split; done.
  - intros sub p k Hlv Hk. apply in_step_start; [exact Hr|done|by eapply Htold].
  - intros op Hop. destruct (Hopen op Hop) as (Hc & Hi). split; [done|].
    intros k Hk Hn. apply in_step_start; [exact Hr|done|by apply Hi].
Qed.

Lemma conc_inv_notify s ws1 ws2 batch eff :
  conc_inv (mkConc s (ws1 ++ mkWriter batch [] [] eff :: ws2) None) →
  conc_inv (mkConc (notify eff s) (ws1 ++ ws2) None).
Proof.
  intros [Hok Hws Hap Htold Hopen]. cbn [c_inner c_writers c_opening] in *.
  destruct (notify_spec s eff Hok) as (Hok' & Hc & Hh & Hlive).
  assert (∀ k, simple_contents (notify eff s) k = simple_contents s k) as Hcon
    by (intros; by apply contents_ext).
  assert (Hw := Hws). rewrite Forall_app, Forall_cons in Hw. destruct Hw as (Hw1 & [_ _ C _ _] & Hw2).
  split; cbn [c_inner c_writers c_opening]; [done| | | |done].
  - eapply writers_ok_same; [exact Hcon|]. by apply Forall_app.
  - by apply apart_middle in Hap as [_ ?].
  - intros sub p k Hl Hk. assert (simple_live s sub p) as Hl0 by (by eapply notify_live_rev).
    destruct (Hlive _ _ Hl0) as [_ Hq]. unfold told. rewrite Hq, foldl_app, (fold_sent p), Hcon by done.
    change eff with (w_effective (mkWriter batch [] [] eff)).
    eapply in_step_notify; [exact Hap|intros; by apply C|]. by eapply Htold.
Qed.

Lemma conc_inv_open s ws p l :
  conc_inv (mkConc s ws None) → l ≡ₚ (map_to_list (cells s)).*1 →
  conc_inv (mkConc s ws (Some (mkOpening p l ∅))).
Proof.
  intros [Hok Hws Hap Htold _] Hl. split; cbn [c_inner c_writers c_opening] in *; [done..|].
  intros op [= <-]. cbn [o_prefix o_todo o_state]. split; [intros k; rewrite lookup_empty; by intros []|].
  intros k _ Hk. rewrite lookup_empty.
  assert (simple_contents s k = None) as Hn.
  { unfold simple_contents. destruct (cells s !! k) as [c|] eqn:E; [|done]. contradict Hk.
    rewrite Hl. apply list_elem_of_fmap. exists (k, c). by rewrite elem_of_map_to_list. }
  rewrite <- Hn at 1. by apply in_step_read.
Qed.

Lemma conc_inv_read s ws p k l m :
  conc_inv (mkConc s ws (Some (mkOpening p (k :: l) m))) →
  conc_inv (mkConc s ws (Some (mkOpening p l (if covered p k then <[ k := simple_contents s k ]> m else m)))).
Proof.
  intros [Hok Hws Hap Htold Hopen]. split; cbn [c_inner c_writers c_opening] in *; [done..|].
  intros op [= <-]. cbn [o_prefix o_todo o_state]. destruct (Hopen _ eq_refl) as (Hc & Hi).
  cbn [o_prefix o_todo o_state] in *. split.
  - intros j. destruct (covered p k) eqn:Ek; [|apply Hc]. rewrite lookup_insert. case_decide; [by subst|apply Hc].
  - intros j Hj Hn. destruct (decide (j = k)) as [->|Hne].
    + rewrite Hj, lookup_insert_eq. by apply in_step_read.
    + assert ((if covered p k then <[ k := simple_contents s k ]> m else m) !! j = m !! j) as ->.
      { destruct (covered p k); [|done]. by rewrite lookup_insert_ne. }
      apply Hi; [done|]. by intros [?|?]%elem_of_cons.
Qed.

Lemma attach_live_rev p opening s sub s' sub0 p0 :
  simple_ok s → attach p opening s = (sub, s') → simple_live s' sub0 p0 →
  (rx sub0 = rx sub ∧ p0 = p) ∨ simple_live s sub0 p0.
Proof.
  intros Hok E (e & ch & He & Hp & Htx & Ha & Hch & Ho & Hcov & Htr).
  unfold attach in E. set (r := fresh (dom (chans s))) in E. injection E as <- <-. simpl in *.
  apply elem_of_app in He as [He| ->%list_elem_of_singleton]; [|by left].
  destruct (ok_chans s Hok e He) as [[c Hc] Hal].
  assert (s_tx e ≠ r) as Hne.
  { intros Heq. assert (r ∉ dom (chans s)) as Hf by apply is_fresh. apply Hf, elem_of_dom.
    rewrite <- Heq. eauto. }
  right. exists e, ch. rewrite lookup_insert_ne in Hch by congruence. split_and!; try done.
  apply elem_of_union in Ha as [Ha%elem_of_singleton|Ha]; [congruence|done].
Qed.

Lemma conc_inv_push s ws p m sub s' :
  conc_inv (mkConc s ws (Some (mkOpening p [] m))) → attach p (mkStateChange m ∅) s = (sub, s') →
  conc_inv (mkConc s' ws None).
Proof.
  intros [Hok Hws Hap Htold Hopen] E. cbn [c_inner c_writers c_opening] in *.
  destruct (Hopen _ eq_refl) as (Hcov & Hi). cbn [o_prefix o_todo o_state] in *.
  assert (all_covered p (mkStateChange m ∅) = true) as Hc.
  { unfold all_covered. apply andb_true_iff. rewrite !forallb_Forall, !Forall_forall. simpl. split.
    - intros k Hk. apply list_elem_of_fmap in Hk as ([k' v] & -> & Hk%elem_of_map_to_list).
      apply Hcov. simpl. eauto.
    - intros k Hk. apply elem_of_elements in Hk. set_solver. }
  destruct (attach_spec p _ s sub s' Hok Hc E) as (Hfresh & Hok' & Hcs & Hh & Hothers & Hl & Hq).
  assert (∀ k, simple_contents s' k = simple_contents s k) as Hcon by (intros; by apply contents_ext).
  split; cbn [c_inner c_writers c_opening]; [done|by eapply writers_ok_same|done| |done].
  intros sub0 p0 k Hl0 Hk. rewrite Hcon. unfold told.
  destruct (attach_live_rev _ _ _ _ _ _ _ Hok E Hl0) as [[Hrx ->]|Hold].
  - rewrite Hrx, Hq. simpl. unfold apply_at at 1. simpl. rewrite decide_False by set_solver.
    apply Hi; [done|set_solver].
  - destruct (Hothers _ _ Hold) as [_ ->]. by eapply Htold.
Qed.

Lemma conc_inv_step c c' : conc_step no_race c c' → conc_inv c → conc_inv c'.
Proof.
  destruct 1; intros Hinv.
  - by apply conc_inv_start.
  - by eapply conc_inv_set.
  - by eapply conc_inv_unset.
  - by eapply conc_inv_notify.
  - by apply conc_inv_open.
  - by apply conc_inv_read.
  - by eapply conc_inv_push.
Qed.

Lemma conc_inv_new : conc_inv conc_new.
Proof.
  split; cbn; [apply inner_new_ok|done|done| |done].
  intros sub p k (e & ch & He & _). simpl in He. by apply elem_of_nil in He.
Qed.

Lemma conc_inv_reachable c : rtc (conc_step no_race) conc_new c → conc_inv c.
Proof.
  intros Hr. assert (∀ c0, conc_inv c0 → rtc (conc_step no_race) c0 c → conc_inv c) as Hgen.
  { intros c0 H0 Hs. induction Hs; eauto using conc_inv_step. }
  apply (Hgen _ conc_inv_new Hr).
Qed.

(** ** Properties *)

(** C10. Concurrent writers that hold no key in common leave every subscriber in step:
    whatever the interleaving of their critical sections, with each other and with
    subscriptions being opened, once no write is in flight, what a subscriber was
    sent from its opening state on comes to exactly what the store holds under its
    prefix: a write lands in the opening state or in a later change, never in
    neither. *)
Theorem concurrent_subscribers_in_step c sub p k :
  rtc (conc_step no_race) conc_new c → c_writers c = [] →
  simple_live (c_inner c) sub p → covered p k = true →
  told (c_inner c) sub k = simple_contents (c_inner c) k.
Proof.
  intros Hr Hw Hl Hk. destruct (ci_told _ (conc_inv_reachable c Hr) sub p k Hl Hk) as [_ Hnone].
  apply Hnone. rewrite Hw. intros w Hin. by apply elem_of_nil in Hin.
Qed.

(** *** Two writers of one key *)
Definition yaw : Key := mkKey "yaw".
Definition set_yaw (n : Z) : StateChange := mkStateChange {[ yaw := Some (Value.U8 n) ]} ∅.
Definition race_sub : Subscription := (attach String.EmptyString (mkStateChange ∅ ∅) inner_new).1.
Definition race0 : Inner := (attach String.EmptyString (mkStateChange ∅ ∅) inner_new).2.
Definition race1 : Inner := (write_set (race0, sc_new) (yaw, Some (Value.U8 1))).1.
Definition race2 : Inner := (write_set (race1, sc_new) (yaw, Some (Value.U8 2))).1.
(** The second writer notifies first. *)
Definition race3 : Inner := notify (set_yaw 1) (notify (set_yaw 2) race2).

Definition race_writer (n : Z) (todo : bool) : Writer :=
  mkWriter (set_yaw n) (if todo then [(yaw, Some (Value.U8 n))] else []) []
    (if todo then sc_new else set_yaw n).

Lemma race_steps :
  rtc (conc_step (λ _ _, True)) conc_new (mkConc race3 [] None).
Proof.
  eapply rtc_l; [apply (conc_open _ inner_new [] String.EmptyString []); done|].
  eapply rtc_l; [by apply (conc_push _ inner_new [] String.EmptyString ∅ race_sub race0)|].
  eapply rtc_l; [apply (conc_start _ race0 [] None (set_yaw 1) [(yaw, Some (Value.U8 1))] []);
    [done|by unfold set_yaw; simpl; rewrite map_to_list_singleton|done]|].
  eapply rtc_l; [apply (conc_start _ race0 _ None (set_yaw 2) [(yaw, Some (Value.U8 2))] []);
    [done|by unfold set_yaw; simpl; rewrite map_to_list_singleton|done]|].
  eapply rtc_l; [apply (conc_set _ race0 [race_writer 2 true] [] None (set_yaw 1) (yaw, Some (Value.U8 1)) [] []
    sc_new race1 (set_yaw 1)); [by left|vm_compute; reflexivity]|].
  eapply rtc_l; [apply (conc_set _ race1 [] [race_writer 1 false] None (set_yaw 2) (yaw, Some (Value.U8 2)) [] []
    sc_new race2 (set_yaw 2)); [by left|vm_compute; reflexivity]|].
  eapply rtc_l; [apply (conc_notify _ race2 [] [race_writer 1 false] (set_yaw 2) (set_yaw 2))|].
  eapply rtc_l; [apply (conc_notify _ _ [] [] (set_yaw 1) (set_yaw 1))|].
  done.
Qed.

(** Two writers of the same key can leave every subscriber behind for good: a
    writer's cells and its notification are separate critical sections, so two
    writers may notify in the order opposite to the one they wrote in. There is a
    run of the store, from empty to no write in flight, after which the store holds
    one value and a subscriber of everything was last told another. *)
Theorem racing_writers_diverge :
  ∃ c sub k, rtc (conc_step (λ _ _, True)) conc_new c ∧ c_writers c = [] ∧
    simple_live (c_inner c) sub String.EmptyString ∧
    told (c_inner c) sub k = Some (Value.U8 1) ∧ simple_contents (c_inner c) k = Some (Value.U8 2).
Proof.
  exists (mkConc race3 [] None), race_sub, yaw. split; [exact race_steps|]. split; [done|].
  split; [|split; vm_compute; reflexivity].
  eexists (mkSubscriber String.EmptyString _ _), _. split_and!; try (vm_compute; reflexivity).
  - vm_compute. by left.
  - by apply (bool_decide_unpack _); vm_compute.
  - repeat constructor; vm_compute; reflexivity.
Qed.

(** ** Witnesses *)
Lemma race_live : simple_live race0 race_sub String.EmptyString.
Proof.
  assert (all_covered String.EmptyString (mkStateChange ∅ ∅) = true) as Hc by (vm_compute; reflexivity).
  by destruct (attach_spec String.EmptyString (mkStateChange ∅ ∅) inner_new race_sub race0 inner_new_ok
    Hc eq_refl) as (_ & _ & _ & _ & _ & ? & _).
Qed.

Lemma concurrent_subscribers_in_step_witness :
  told race0 race_sub yaw = simple_contents race0 yaw.
Proof.
  apply (concurrent_subscribers_in_step (mkConc race0 [] None) race_sub String.EmptyString).
  - eapply rtc_l; [apply (conc_open _ inner_new [] String.EmptyString []); done|].
    by eapply rtc_once, (conc_push _ inner_new [] String.EmptyString ∅ race_sub race0).
  - reflexivity.
  - apply race_live.
  - reflexivity.
Defined.
