(* ===== verification/Effects.v ===== *)
(** * Stateful code whose effects outlive its errors

    Behavior trees tick over shared cells and a store: a tick that returns an
    error leaves what it wrote. [T W E A] is such code over a world [W]: it
    returns an [A] or an error [E], and the world after it either way. [None]
    is code that does not return: it has run out of the fuel its recursion was
    given, or panics. *)

From S2P Require Import Prelude.

Definition T (W E A : Type) : Type := W → option (result E A * W).

#[export] Instance T_ret {W E} : MRet (T W E) := λ A a w, Some (Ok a, w).
#[export] Instance T_bind {W E} : MBind (T W E) := λ A B k m w,
  match m w with
  | Some (Ok a, w) => k a w
  | Some (Err e, w) => Some (Err e, w)
  | None => None
  end.

Definition t_fail {W E A} (e : E) : T W E A := λ w, Some (Err e, w).
Definition t_diverge {W E A} : T W E A := λ _, None.
Definition t_of {W E A} (r : result E A) : T W E A := λ w, Some (r, w).
Definition t_gets {W E A} (f : W → A) : T W E A := λ w, Some (Ok (f w), w).
Definition t_modify {W E} (f : W → W) : T W E unit := λ w, Some (Ok tt, f w).
Definition t_map_err {W E E' A} (f : E → E') (m : T W E A) : T W E' A := λ w,
  match m w with
  | Some (Ok a, w) => Some (Ok a, w)
  | Some (Err e, w) => Some (Err (f e), w)
  | None => None
  end.
(** [let r = m;] without [?]: the result, an error included, as a value. *)
Definition t_result {W E E' A} (m : T W E A) : T W E' (result E A) := λ w,
  match m w with Some (r, w) => Some (Ok r, w) | None => None end.
(** [x.ok_or(e)?] *)
Definition t_ok_or {W E A} (x : option A) (e : E) : T W E A :=
  match x with Some a => mret a | None => t_fail e end.

(** [for x in l { f(x)?; }] *)
Fixpoint t_for {W E A} (l : list A) (f : A → T W E unit) : T W E unit :=
  match l with
  | [] => mret tt
  | x :: l => _ ← f x; t_for l f
  end.

(** ** Lemmas *)
Section Laws.
Context {W E : Type}.
Implicit Types w : W.

Lemma bind_run {A B} (m : T W E A) (k : A → T W E B) w :
  (m ≫= k) w = match m w with
               | Some (Ok a, w) => k a w
               | Some (Err e, w) => Some (Err e, w)
               | None => None
               end.
Proof. done. Qed.

Lemma bind_ok {A B} (m : T W E A) (k : A → T W E B) w a w' :
  m w = Some (Ok a, w') → (m ≫= k) w = k a w'.
Proof. intros H. by rewrite bind_run, H. Qed.

Lemma bind_err {A B} (m : T W E A) (k : A → T W E B) w e w' :
  m w = Some (Err e, w') → (m ≫= k) w = Some (Err e, w').
Proof. intros H. by rewrite bind_run, H. Qed.

(** A bind that succeeds, taken apart. *)
Lemma bind_inv_ok {A B} (m : T W E A) (k : A → T W E B) w b w' :
  (m ≫= k) w = Some (Ok b, w') → ∃ a w1, m w = Some (Ok a, w1) ∧ k a w1 = Some (Ok b, w').
Proof. rewrite bind_run. destruct (m w) as [[[a|e] w1]|]; naive_solver. Qed.

Lemma bind_inv_err {A B} (m : T W E A) (k : A → T W E B) w e w' :
  (m ≫= k) w = Some (Err e, w') →
  m w = Some (Err e, w') ∨ ∃ a w1, m w = Some (Ok a, w1) ∧ k a w1 = Some (Err e, w').
Proof. rewrite bind_run. destruct (m w) as [[[a|e'] w1]|]; naive_solver. Qed.

(** Code that always returns. *)
Definition total {A} (m : T W E A) : Prop := ∀ w, is_Some (m w).

Lemma total_bind {A B} (m : T W E A) (k : A → T W E B) :
  total m → (∀ a, total (k a)) → total (m ≫= k).
Proof.
  intros Hm Hk w. rewrite bind_run. destruct (Hm w) as [[[a|e] w'] ->]; [apply Hk|by eexists].
Qed.
Lemma total_ret {A} (a : A) : total (mret a : T W E A).
Proof. by eexists. Qed.
Lemma total_fail {A} (e : E) : total (t_fail e : T W E A).
Proof. by eexists. Qed.
Lemma total_of {A} (r : result E A) : total (t_of r).
Proof. by eexists. Qed.
Lemma total_gets {A} (f : W → A) : total (t_gets f).
Proof. by eexists. Qed.
Lemma total_modify (f : W → W) : total (t_modify f).
Proof. by eexists. Qed.
Lemma total_ok_or {A} (x : option A) (e : E) : total (t_ok_or x e).
Proof. destruct x; [apply total_ret|apply total_fail]. Qed.
Lemma total_for {A} (l : list A) (f : A → T W E unit) : (∀ a, a ∈ l → total (f a)) → total (t_for l f).
Proof.
  induction l as [|a l IH]; intros Hf; [apply total_ret|].
  apply total_bind; [apply Hf; set_solver|intros; apply IH; set_solver].
Qed.
End Laws.

Lemma total_map_err {W E E' A} (f : E → E') (m : T W E A) : total m → total (t_map_err f m).
Proof. intros Hm w. unfold t_map_err. destruct (Hm w) as [[[]] ->]; by eexists. Qed.
Lemma total_result {W E E' A} (m : T W E A) : total m → total (E := E') (t_result m).
Proof. intros Hm w. unfold t_result. destruct (Hm w) as [[] ->]; by eexists. Qed.

#[export] Hint Resolve total_bind total_ret total_fail total_of total_gets total_modify total_ok_or
  total_for total_map_err total_result : arora.

(** Unfold the code's plumbing. *)
Ltac t_unfold :=
  cbv [mbind T_bind mret T_ret t_of t_gets t_modify t_fail t_diverge t_result t_map_err t_ok_or].
(** What returning a value says. *)
Ltac t_ret H := cbv [mret T_ret] in H; simplify_eq.
