(* ===== verification/Nodes.v ===== *)
(** * Statuses and node ids: [crates/arora-behavior/src/status.rs],
    [crates/arora-behavior-tree/src/nodes.rs] and
    [crates/arora-behavior-tree-types/src/tick_id.rs]

    The status a tick returns and the handle a child is ticked through, with the
    conversions to and from values their [derive(AroraType)] writes, and the ids
    of the nodes a behavior tree ticks natively. *)

From S2P Require Import Prelude Values.

(** ** [enum Status] *)
Inductive Status := Success | Failure | Running.
#[export] Instance Status_eq_dec : EqDecision Status.
Proof. solve_decision. Defined.

Definition STATUS_ENUMERATION_ID : Uuid := 0x325a5767e3444532860e0749bcf2e428.
Definition STATUS_SUCCESS_VARIANT_ID : Uuid := 0x766e9e9a446d4e4683e614b7ca101169.
Definition STATUS_FAILURE_VARIANT_ID : Uuid := 0x2468f46cbb60425c9a4d9ad326ccc7e2.
Definition STATUS_RUNNING_VARIANT_ID : Uuid := 0xacd79ec60c44401a82f85da5422d3eec.

(** [From<Status> for Value] *)
Definition status_value (status : Status) : Value :=
  Value.Enumeration (mkEnumeration STATUS_ENUMERATION_ID
    (match status with
     | Success => STATUS_SUCCESS_VARIANT_ID
     | Failure => STATUS_FAILURE_VARIANT_ID
     | Running => STATUS_RUNNING_VARIANT_ID
     end) Value.Unit).

(** [TryFrom<Value> for Status]; its error is the message's. *)
Inductive StatusMismatch := NotAStatus | OtherEnumeration (id : Uuid) | UnknownVariant (id : Uuid).
Definition status_try_from (v : Value) : result StatusMismatch Status :=
  match v with
  | Value.Enumeration e =>
      if negb (en_id e =? STATUS_ENUMERATION_ID) then Err (OtherEnumeration (en_id e))
      else if en_variant_id e =? STATUS_SUCCESS_VARIANT_ID then Ok Success
      else if en_variant_id e =? STATUS_FAILURE_VARIANT_ID then Ok Failure
      else if en_variant_id e =? STATUS_RUNNING_VARIANT_ID then Ok Running
      else Err (UnknownVariant (en_variant_id e))
  | _ => Err NotAStatus
  end.

(** ** [struct TickId]: the callable registered for a child, by its [u64] id *)
Record TickId := mkTickId { callable_id : Z }.
Definition TICK_ID_STRUCTURE_ID : Uuid := 0x6f49e65084ca4899a9bd1f3bf17fab51.
Definition TICK_ID_CALLABLE_ID_FIELD_RAW_ID : Uuid := 0x237992d217d1459fbca17185fa6a69d7.
Definition tick_id_value (t : TickId) : Value :=
  Value.Structure (mkStructure TICK_ID_STRUCTURE_ID
    [mkStructureField TICK_ID_CALLABLE_ID_FIELD_RAW_ID (Value.U64 (callable_id t))]).

(** ** The ids of the native nodes and of their parameters *)
Definition SUCCEED_FUNCTION_ID : Uuid := 0x6696f0bde78140cdaeb58dc616f810d2.
Definition FAIL_FUNCTION_ID : Uuid := 0x3abbbfb6d00d41eb88bb97874267eaf6.
Definition RUN_FUNCTION_ID : Uuid := 0x41ae5ed01d124b71aab802e7efedf177.
Definition SET_STR_FUNCTION_ID : Uuid := 0xc803889f47574b56908f4b2b47041eff.
Definition SET_STR_VARIABLE_PARAM_ID : Uuid := 0x8fa2f9651eb540d9baca8facef0d31a8.
Definition SET_STR_VALUE_PARAM_ID : Uuid := 0x88438955787244ad8464d636dc5fe26f.
Definition UNSET_STR_FUNCTION_ID : Uuid := 0x7dce01ed98184b7db45a2e7fdece3633.
Definition UNSET_STR_VARIABLE_PARAM_ID : Uuid := 0x2c84bf0f4ec241a483ee3f92a53be79d.
Definition IS_STR_SET_FUNCTION_ID : Uuid := 0x20ba3f0f309e4cd2adfcaca6cc432526.
Definition IS_STR_SET_VALUE_PARAM_ID : Uuid := 0xc4f1e72d30fe400ba584f08e93944026.
Definition WAIT_STR_SET_FUNCTION_ID : Uuid := 0x3180977c25a1458eab8211f36c654518.
Definition WAIT_STR_SET_VALUE_PARAM_ID : Uuid := 0x8f190079e51944d3ac363bfc322e87eb.
Definition REGEX_MATCH_FUNCTION_ID : Uuid := 0x8e3dbcc11a814cf6a4576e0c075456fd.
Definition REGEX_MATCH_VALUE_PARAM_ID : Uuid := 0x3267f0938a7f4b77b74c3bd2e7ad40f9.
Definition REGEX_MATCH_MATCHER_PARAM_ID : Uuid := 0x6702e02df6ba4c5dacab9ade0a690afa.
Definition REGEX_MATCH_FIRST_MATCH_PARAM_ID : Uuid := 0xe8b71df72bb544988bc3833c5bc8eadc.
Definition RUN_CALL_FUNCTION_ID : Uuid := 0x5d2e8a410b674c25913f6ed82b94a710.
Definition RUN_CALL_PARAM_ID : Uuid := 0x9c513b7724894eb38d0251c6e9385f21.
Definition RUN_STATUS_FUNCTION_ID : Uuid := 0x1e84d06a932c4571b64d180a73c59236.
Definition RUN_STATUS_OUT_PARAM_ID : Uuid := 0x640f2b955e134886a2793ce1076bd442.
Definition RUN_STATUS_LATCH_PARAM_ID : Uuid := 0xb738912dc0544a198fe625704ca81357.
Definition EQUAL_FUNCTION_ID : Uuid := 0xa67583f57b1f4081a210b710bd41d88a.
Definition EQUAL_A_PARAM_ID : Uuid := 0x75664d78aa4544a7b1fc0ab220b933ee.
Definition EQUAL_B_PARAM_ID : Uuid := 0x9399b82f7ace41fc873238a42a800698.
Definition UNPACK_FUNCTION_ID : Uuid := 0x72d3c3889fe04fe99b0438f9e92d6c78.
Definition UNPACK_VALUES_PARAM_ID : Uuid := 0xaa7e72c3f9794e94b11ff69014ace7cd.
Definition UNPACK_OUT_BASE : Uuid := 0xae06128422e54149909ae74a02524800.
Definition SCATTER_FUNCTION_ID : Uuid := 0xeb0a42a1659646f783c3990632bfff94.
Definition SCATTER_VALUES_PARAM_ID : Uuid := 0x40940dc927ce41b2be544203665eda66.
Definition SCATTER_KEYS_PARAM_ID : Uuid := 0x4056190cced0454790c326d6a93c30b4.
Definition SCATTER_WITHIN_PARAM_ID : Uuid := 0x4d773cff49a74b2f88c8c6af05f96673.
Definition SEQ_FUNCTION_ID : Uuid := 0x32246df6ab5d4f18922123e28731de93.
Definition SEQ_STAR_FUNCTION_ID : Uuid := 0xc2d5ed72798c417494f713378bd9bf1f.
Definition SEQ_STAR_CURRENT_INDEX_PARAM_ID : Uuid := 0x4de502df3f48454194d8dd68fe92bc8e.
Definition FALLBACK_FUNCTION_ID : Uuid := 0xbfa89a4ec369430ebe780dc07311391c.
Definition PARALLEL_FUNCTION_ID : Uuid := 0xa93402891f30411f9faa0f07d54613e8.

Definition UNPACK_PORTS : nat := 64.
Definition UNPACK_OUT_PARAM_IDS : list Uuid := (λ i, UNPACK_OUT_BASE + Z.of_nat i) <$> seq 0 UNPACK_PORTS.
Definition unpack_out_index (param : Uuid) : option nat :=
  if param <? UNPACK_OUT_BASE then None
  else if param - UNPACK_OUT_BASE <? Z.of_nat UNPACK_PORTS then Some (Z.to_nat (param - UNPACK_OUT_BASE))
  else None.

(** [schema.rs] *)
Definition _RET_PARAM_ID : Uuid := 0x5f726574000040008000000000000000.

(** The interpreter module's functions ([interpreter_module.rs]). *)
Definition EDIT : Uuid := 0x61726f72610000000000000000000002.
Definition LOAD : Uuid := 0x61726f72610000000000000000000004.
Definition SPAWN : Uuid := 0x61726f72610000000000000000000006.
Definition HALT : Uuid := 0x61726f72610000000000000000000009.
Definition SPAWN_GRAPH : Uuid := 0x61726f7261000000000000000000000b.
Definition TRACE : Uuid := 0x61726f72610000000000000000000010.
Definition READ : Uuid := 0x61726f72610000000000000000000012.
Definition is_interpreter_function_id (function : Uuid) : bool :=
  bool_decide (function ∈ [LOAD; EDIT; READ; SPAWN; SPAWN_GRAPH; TRACE; HALT]).

(** ** Lemmas *)
Lemma status_try_from_value st : status_try_from (status_value st) = Ok st.
Proof. by destruct st. Qed.

Lemma status_try_from_ok v st : status_try_from v = Ok st →
  ∃ payload, v = Value.Enumeration (mkEnumeration STATUS_ENUMERATION_ID
    (match st with
     | Success => STATUS_SUCCESS_VARIANT_ID
     | Failure => STATUS_FAILURE_VARIANT_ID
     | Running => STATUS_RUNNING_VARIANT_ID
     end) payload).
Proof.
  destruct v; try done. destruct e as [id variant payload].
  cbn. destruct (Z.eqb_spec id STATUS_ENUMERATION_ID); [|done]. subst.
  repeat case_match; intros; simplify_eq; repeat match goal with H : (_ =? _) = true |- _ =>
    apply Z.eqb_eq in H; subst end; by eexists.
Qed.

Lemma unpack_out_index_ids i : (i < UNPACK_PORTS)%nat →
  ∃ id, UNPACK_OUT_PARAM_IDS !! i = Some id ∧ unpack_out_index id = Some i.
Proof.
  intros Hi. eexists. split.
  - unfold UNPACK_OUT_PARAM_IDS. rewrite list_lookup_fmap, lookup_seq_lt by done. done.
  - unfold unpack_out_index, UNPACK_PORTS in *. simpl.
    destruct (Z.ltb_spec (UNPACK_OUT_BASE + Z.of_nat i) UNPACK_OUT_BASE); [lia|].
    destruct (Z.ltb_spec (UNPACK_OUT_BASE + Z.of_nat i - UNPACK_OUT_BASE) (Z.of_nat 64)); [|lia].
    apply f_equal. lia.
Qed.
