(* ===== verification/Schema.v ===== *)
(** * What a behavior tree is made of: [crates/arora-behavior-tree/src/]
    [schema.rs], [error.rs] and [variable.rs], the calls of
    [crates/arora-types/src/call.rs] and the signatures of
    [crates/arora-types/src/record/module.rs]

    Nodes, their argument expressions, the functions and calls they name and
    the errors a tick returns. [Slot] is the handle of a store's slot: a
    variable cell is tree-local, a place of the tree's heap shared by every cell
    cloned from it, or a slot of the store. *)

From Stdlib Require Import Ascii.
From S2P Require Import Prelude Values Extern Keys Store Nodes.

(** ** [call.rs] *)
Record Call := mkCall { call_module_id : option Uuid; call_id : Uuid; call_args : list StructureField }.
Record CallResult := mkCallResult { ret : Value; mutated : list StructureField }.

(** ** [record::ty::FrozenTy], [record::module::frozen::Function] and the
    function index of [crates/arora-behavior/src/lib.rs] *)
Record FrozenReference := mkFrozenReference { fr_id : Uuid; fr_version : string }.
Inductive FrozenTy :=
| Primitive (kind : Uuid)
| FrozenScalar (reference : FrozenReference)
| FrozenArray (reference : FrozenReference)
| FrozenOption (element : FrozenTy).
Definition ty_is_option (ty : FrozenTy) : bool := match ty with FrozenOption _ => true | _ => false end.
Definition ty_as_array (ty : FrozenTy) : option FrozenReference :=
  match ty with FrozenArray reference => Some reference | _ => None end.

Record Parameter_ := mkParameter { p_name : string; p_ty : FrozenTy; p_mutable : bool }.
Record Function_ := mkFunction {
  parameters : gmap Uuid Parameter_;
  parameter_ordering : list Uuid;
  return_ty : FrozenTy;
}.
Record ModuleFunction := mkModuleFunction {
  module_id : Uuid;
  function_id : Uuid;
  function_name : string;
  function : Function_;
}.
Abbreviation FunctionIndex := (gmap Uuid ModuleFunction).

Definition is_optional (f : Function_) (parameter : Uuid) : bool :=
  match parameters f !! parameter with Some p => ty_is_option (p_ty p) | None => false end.

(** ** [NodeParameterId] *)
Record NodeParameterId := mkNodeParameterId { np_node : Uuid; np_parameter : Uuid }.
#[export] Instance NodeParameterId_eq_dec : EqDecision NodeParameterId.
Proof. solve_decision. Defined.
#[export] Instance NodeParameterId_countable : Countable NodeParameterId.
Proof.
  refine (inj_countable' (λ p, (np_node p, np_parameter p)) (λ p, mkNodeParameterId p.1 p.2) _).
  by intros [].
Defined.

(** ** [VariableCell] *)
Inductive VariableCell (Slot : Type) := Local (l : nat) | Stored (slot : Slot).
Arguments Local {Slot} l.
Arguments Stored {Slot} slot.

Definition TREE_LOCAL_PREFIX : Ascii.ascii := "."%char.
(** [name.starts_with('.')] *)
Definition is_tree_local (name : string) : bool :=
  match name with String c _ => Ascii.eqb c TREE_LOCAL_PREFIX | EmptyString => false end.

(** ** [Expression] and [CallExpression] *)
Module Expression.
Inductive Expression (Slot : Type) : Type :=
| Value (v : Values.Value)
| Uuid (u : Values.Uuid)
| Variable_ (cell : VariableCell Slot)
| VariableId (id : Values.Uuid)
| NodeArgument (at_ : NodeParameterId)
| Select (source : Expression Slot) (path : Key)
| Call (call : CallExpression Slot)
with CallExpression (Slot : Type) : Type :=
| mkCallExpression (module function : Expression Slot)
    (arguments : list (Expression Slot * Expression Slot)).
Arguments Value {Slot} v.
Arguments Uuid {Slot} u.
Arguments Variable_ {Slot} cell.
Arguments VariableId {Slot} id.
Arguments NodeArgument {Slot} at_.
Arguments Select {Slot} source path.
Arguments Call {Slot} call.
Arguments mkCallExpression {Slot} module function arguments.
End Expression.
Abbreviation Expression := Expression.Expression.
Abbreviation CallExpression := Expression.CallExpression.

(** ** [Node] *)
Record Node (Slot : Type) := mkNode {
  n_id : Uuid;
  n_function : Uuid;
  n_arguments : gmap Uuid (Expression Slot);
  n_children : option (list Uuid);
}.
Arguments mkNode {Slot} _ _ _ _.
Arguments n_id {Slot} _.
Arguments n_function {Slot} _.
Arguments n_arguments {Slot} _.
Arguments n_children {Slot} _.

(** ** [BehaviorTreeError] and [CallError]

    A message is what its [format!] prints, not the text. *)
Inductive ScatterRefusal :=
| WithinNotLiteral
| WithinNotAPrefix (within : string)
| KeyTreeLocal (key : string)
| KeyOutside (key within : string)
| KeyTwice (key : string)
| NoStore
| NoSlot (key : string).

(** Why lowering refuses a detached node. *)
Inductive DetachedRefusal :=
| CallsInterpreterModule
| NamesParameter (parameter : Uuid)
| FeedsMutable (parameter : Uuid)
| WritesStoreFromCall
| BindsComputedInput (input : NodeParameterId)
| BindsStoreInput (input : NodeParameterId)
| ReadsItsOutput.

Inductive BehaviorTreeError :=
| ParsingError (message : Message)
| InconsistentTreeError (message : Message)
| CallErr (error : CallError)
| ConversionError (message : Message)
| VariableNotFound (variable node : Uuid)
| ChildNodeNotFound (child node : Uuid)
| MissingChildrenParameter (node function : Uuid)
| InternalError (message : Message)
with CallError :=
| Generic (message : Message)
| ModuleNotFound (id : Uuid)
| FunctionNotFound (id : Uuid)
| Trap (message : Message)
| Internal (message : Message)
| Guest (message : Message)
with Message :=
| Text (s : string)
| ToString (e : BehaviorTreeError)
| NoArgument (p : NodeParameterId)
| ParameterWasNotFound (p : NodeParameterId)
| UnpackUnbound (node : Uuid)
| ScatterUnbound (node : Uuid)
| ScatterRefused (node : Uuid) (why : ScatterRefusal)
| MalformedCall (node : Uuid)
| NeedsOneChild (node : Uuid)
| ChildNotAStatus
| NotAString (node parameter : Uuid) (value : Value)
| SelectFailed (e : SelectError)
| NotUuidBytes (variable : option Uuid)
| NotUuid (variable : option Uuid)
| CallsInterpreter (p : NodeParameterId) (function : Uuid)
| WritesBackNoCell (p : NodeParameterId) (parameter : Uuid)
| MutatedNotLocal (parameter : Uuid)
| CannotFindCallable
| CallableTaken
| RefusedInterpreter (owner : Uuid)
| RefusedParameter (owner parameter : Uuid)
| RefusedMutable (owner parameter : Uuid)
| RootNotANode (root : Uuid)
| DuplicateNode (node : Uuid)
| NodeArgumentNotFound (other p : NodeParameterId)
| NoNodes
| ArgumentNotLinked (node parameter : Uuid)
| UnpackHasNoPort (node parameter : Uuid)
| UnpackNeedsVariable (node : Uuid) (index : nat)
| UnpackPortsShare (node : Uuid) (target : string + Uuid)
| DetachedFailed (node : Uuid) (why : Message)
| OfDetached (why : Message)
| DetachedRefused (node : Uuid) (why : DetachedRefusal)
| TwoWriters (node other : Uuid)
| NotAnOutput (node parameter function : Uuid)
| ReadEachOther (nodes : list Uuid).

(** [Into<CallError> for BehaviorTreeError] *)
Definition into_call_error (e : BehaviorTreeError) : CallError :=
  match e with CallErr e => e | e => Generic (ToString e) end.
