(* ===== verification/Graphs.v ===== *)
(** * The shared behavior graph: [crates/arora-behavior/src/graph.rs]

    A graph is a list of nodes, each with a function, bindings of its ports and
    perhaps children; it is edited by applying a diff. [apply] is what an
    interpreter's edition runs, [diff] computes the edit between two graphs.

    A [BTreeMap] is a [gmap] iterated in the order of its keys ([bt_iter]); a
    [HashMap] that is never iterated is a [gmap]. [apply] changes its graph in
    place, so it returns the graph with its result; indexing out of a vector or a
    map panics, which is a result of its own. *)

From stdpp Require Import sorting.
From S2P Require Import Prelude Values Keys.

(** ** The data *)
Module graph.
Record Port := mkPort { port_node : Uuid; port_port : Uuid }.
Inductive Source :=
| Value (v : Values.Value)
| Key (k : string)
| Port_ (p : Port)
| Select (source : Source) (path : Keys.Key).
Record Node := mkNode {
  id : Uuid;
  function : Uuid;
  bind : gmap Uuid Source;
  children : option (list Uuid);
}.
Record Graph := mkGraph { root : option Uuid; nodes : list Node }.
Record Binding := mkBinding { b_node : Uuid; b_port : Uuid; b_source : Source }.
Record GraphDiff := mkGraphDiff {
  d_remove : list Uuid;
  d_set : list Node;
  d_unbind : list Port;
  d_bind : list Binding;
  d_root : option Uuid;
}.
Inductive GraphError := TargetsAbsent (node : Uuid).
End graph.
Import graph.

#[export] Instance Port_eq_dec : EqDecision Port.
Proof. solve_decision. Defined.

Definition empty : Graph := mkGraph None [].
Definition diff_default : GraphDiff := mkGraphDiff [] [] [] [] None.

(** [source_port] *)
Fixpoint source_port (source : Source) : option Port :=
  match source with
  | Port_ port => Some port
  | Select source _ => source_port source
  | Value _ | Key _ => None
  end.

(** [impl PartialEq for Source], derived: a value is compared by its own
    [PartialEq], for which a NaN is not equal to itself. *)
Fixpoint source_eqb (a b : Source) : bool :=
  match a, b with
  | Value x, Value y => value_eqb x y
  | Key x, Key y => bool_decide (x = y)
  | Port_ x, Port_ y => bool_decide (x = y)
  | Select s p, Select t q => source_eqb s t && bool_decide (p = q)
  | _, _ => false
  end.

(** [Graph::node] *)
Definition node_in (ns : list Node) (i : Uuid) : option Node := snd <$> list_find (λ n, id n = i) ns.
Definition node (g : Graph) (i : Uuid) : option Node := node_in (nodes g) i.

(** ** [GraphType], over the [semver] crate's [Version] *)
Section GraphType.
Context {Version : Type} (major minor : Version → Z).

Record GraphType := mkGraphType { gt_name : string; gt_version : Version }.

Definition reads (self graph : GraphType) : bool :=
  bool_decide (gt_name self = gt_name graph)
  && (major (gt_version self) =? major (gt_version graph))
  && (minor (gt_version graph) <=? minor (gt_version self)).
End GraphType.

(** ** [Graph::apply] *)

(** What stops an application: its error, or the panic of an indexing. *)
Inductive Stop := Refused (e : GraphError) | Panic.

Definition reads_removed (removed : gset Uuid) (source : Source) : bool :=
  match source_port source with Some read => bool_decide (port_node read ∈ removed) | None => false end.

(** The ids a binding may target: those kept and those set. *)
Definition present (removed : gset Uuid) (g : Graph) (set_ : list Node) : gset Uuid :=
  list_to_set (filter (λ i, i ∉ removed) (id <$> nodes g) ++ (id <$> set_)).

Definition map_bind (f : gmap Uuid Source → gmap Uuid Source) (n : Node) : Node :=
  mkNode (id n) (function n) (f (bind n)) (children n).
Definition drop_readers (removed : gset Uuid) : Node → Node :=
  map_bind (filter (λ kv, reads_removed removed kv.2 = false)).

Definition remove_nodes (removed : gset Uuid) (g : Graph) : Graph :=
  if bool_decide (removed = ∅) then g else
  mkGraph (match root g with Some r => if bool_decide (r ∈ removed) then None else Some r | None => None end)
          (drop_readers removed <$> filter (λ n, id n ∉ removed) (nodes g)).

(** [.enumerate().map(|(index, node)| (node.id, index)).collect()] *)
Fixpoint index_from (i : nat) (ns : list Node) (at_ : gmap Uuid nat) : gmap Uuid nat :=
  match ns with [] => at_ | n :: ns => index_from (S i) ns (<[id n := i]> at_) end.

(** [self.nodes[index]] as a place: [None] is the panic. *)
Definition alter_at (index : nat) (f : Node → Node) (ns : list Node) : option (list Node) :=
  match ns !! index with Some n => Some (<[index := f n]> ns) | None => None end.

Fixpoint set_nodes (set_ : list Node) (ns : list Node) (at_ : gmap Uuid nat)
    : option (list Node * gmap Uuid nat) :=
  match set_ with
  | [] => Some (ns, at_)
  | n :: set_ =>
      match at_ !! id n with
      | Some index =>
          match alter_at index (λ _, n) ns with Some ns => set_nodes set_ ns at_ | None => None end
      | None => set_nodes set_ (ns ++ [n]) (<[id n := length ns]> at_)
      end
  end.

Fixpoint unbind_ports (unbind : list Port) (at_ : gmap Uuid nat) (ns : list Node) : option (list Node) :=
  match unbind with
  | [] => Some ns
  | p :: unbind =>
      match at_ !! port_node p with
      | Some index =>
          match alter_at index (map_bind (delete (port_port p))) ns with
          | Some ns => unbind_ports unbind at_ ns
          | None => None
          end
      | None => unbind_ports unbind at_ ns
      end
  end.

Fixpoint bind_ports (bindings : list Binding) (at_ : gmap Uuid nat) (ns : list Node) : option (list Node) :=
  match bindings with
  | [] => Some ns
  | b :: bindings =>
      match at_ !! b_node b with
      | Some index =>
          match alter_at index (map_bind (insert (b_port b) (b_source b))) ns with
          | Some ns => bind_ports bindings at_ ns
          | None => None
          end
      | None => None
      end
  end.

Definition apply (g : Graph) (d : GraphDiff) : result Stop unit * Graph :=
  let removed : gset Uuid := list_to_set (d_remove d) in
  let refused :=
    match d_bind d with
    | [] => None
    | _ => snd <$> list_find (λ b, b_node b ∉ present removed g (d_set d)) (d_bind d)
    end in
  match refused with
  | Some b => (Err (Refused (TargetsAbsent (b_node b))), g)
  | None =>
      let g := remove_nodes removed g in
      let at_ := index_from 0 (nodes g) ∅ in
      match '(ns, at_) ← set_nodes (d_set d) (nodes g) at_;
            ns ← unbind_ports (d_unbind d) at_ ns;
            bind_ports (d_bind d) at_ ns
      with
      | Some ns => (Ok tt, mkGraph (match d_root d with Some r => Some r | None => root g end) ns)
      | None => (Err Panic, g)
      end
  end.

(** ** [Graph::diff] *)

(** A [BTreeMap]'s entries, in the order of its keys. *)
Definition bt_le {A} (a b : Uuid * A) : Prop := (a.1 <= b.1)%Z.
#[export] Instance bt_le_dec {A} : RelDecision (@bt_le A) := λ a b, Z_le_dec a.1 b.1.
Definition bt_iter {A} (m : gmap Uuid A) : list (Uuid * A) := merge_sort bt_le (map_to_list m).

(** [.map(|node| (node.id, node)).collect()] into a [HashMap]: the last of an id
    stands. *)
Definition collect (ns : list Node) : gmap Uuid Node := foldl (λ m n, <[id n := n]> m) ∅ ns.

(** [left.get(port) != Some(source)] *)
Definition bound_to (left : option Source) (source : Source) : bool :=
  match left with Some s => source_eqb s source | None => false end.

Section DiffNode.
Variable removed : gset Uuid.
Variable ours : gmap Uuid Node.

Definition rebound (old n : Node) : list Binding :=
  (λ e, mkBinding (id n) e.1 e.2) <$>
    filter (λ e, bound_to (bind old !! e.1) e.2 = false ∨ reads_removed removed e.2 = true)
           (bt_iter (bind n)).
Definition unbound (old n : Node) : list Port :=
  (λ e, mkPort (id n) e.1) <$>
    filter (λ e, bind n !! e.1 = None ∧ reads_removed removed e.2 = false) (bt_iter (bind old)).

(** What the loop pushes for a node of the target. *)
Definition diff_node (d : GraphDiff) (n : Node) : GraphDiff :=
  match (if bool_decide (id n ∈ removed) then None else ours !! id n) with
  | None => mkGraphDiff (d_remove d) (d_set d ++ [n]) (d_unbind d) (d_bind d) (d_root d)
  | Some old =>
      if negb (function old =? function n) || negb (bool_decide (children old = children n))
      then mkGraphDiff (d_remove d) (d_set d ++ [n]) (d_unbind d) (d_bind d) (d_root d)
      else mkGraphDiff (d_remove d) (d_set d) (d_unbind d ++ unbound old n)
                       (d_bind d ++ rebound old n) (d_root d)
  end.
End DiffNode.

(** The root the target drops. *)
Definition unrooted (self target : Graph) : option Uuid :=
  match root self, root target with
  | Some r, None =>
      match collect (nodes self) !! r with
      | None => Some r
      | Some _ => match collect (nodes target) !! r with Some _ => Some r | None => None end
      end
  | _, _ => None
  end.

Definition removals (self target : Graph) : list Uuid :=
  filter (λ i, collect (nodes target) !! i = None ∨ Some i = unrooted self target) (id <$> nodes self)
  ++ match unrooted self target with
     | Some r => match collect (nodes self) !! r with None => [r] | Some _ => [] end
     | None => []
     end.

Definition diff (self target : Graph) : GraphDiff :=
  let remove := removals self target in
  let removed : gset Uuid := list_to_set remove in
  let d := foldl (diff_node removed (collect (nodes self))) (mkGraphDiff remove [] [] [] None)
                 (nodes target) in
  let left := match root self with
              | Some r => if bool_decide (r ∈ removed) then None else Some r
              | None => None
              end in
  match root target with
  | Some r => if bool_decide (Some r = left) then d
              else mkGraphDiff (d_remove d) (d_set d) (d_unbind d) (d_bind d) (Some r)
  | None => d
  end.

(** ** Lookups

    [ids] lists a graph's ids in order; a graph's own ids are unique, which
    [apply] keeps. *)
Abbreviation ids ns := (id <$> ns).

Lemma filter_iff_in {A} (P Q : A → Prop) `{!∀ x, Decision (P x), !∀ x, Decision (Q x)} (l : list A) :
  (∀ x, x ∈ l → P x ↔ Q x) → filter P l = filter Q l.
Proof.
  induction l as [|x l IH]; intros Hpq; [done|]. rewrite !filter_cons, IH; [|set_solver].
  pose proof (Hpq x (list_elem_of_here _ _)). repeat case_decide; tauto.
Qed.

Lemma filter_all {A} (P : A → Prop) `{!∀ x, Decision (P x)} (l : list A) :
  (∀ x, x ∈ l → P x) → filter P l = l.
Proof. induction l as [|x l IH]; intros Hp; [done|]. rewrite filter_cons_True, IH; set_solver. Qed.

Lemma filter_none {A} (P : A → Prop) `{!∀ x, Decision (P x)} (l : list A) :
  (∀ x, x ∈ l → ¬ P x) → filter P l = [].
Proof. induction l as [|x l IH]; intros Hp; [done|]. rewrite filter_cons_False, IH; set_solver. Qed.
Lemma bind_none {A B} (f : A → list B) (l : list A) : (∀ x, x ∈ l → f x = []) → l ≫= f = [].
Proof. induction l as [|x l IH]; intros Hf; [done|]. rewrite bind_cons, Hf, IH; set_solver. Qed.

Lemma node_in_cons n ns i : node_in (n :: ns) i = if decide (id n = i) then Some n else node_in ns i.
Proof.
  unfold node_in. simpl. case_decide; [done|]. by destruct (list_find _ ns) as [[]|].
Qed.
Lemma node_in_Some ns i n : node_in ns i = Some n → n ∈ ns ∧ id n = i.
Proof.
  unfold node_in. destruct (list_find _ ns) as [[k n']|] eqn:Hf; [|done]. intros [= ->].
  apply list_find_Some in Hf as (Hk & Hid & _).
  split; [by eapply list_elem_of_lookup_2|done].
Qed.
Lemma node_in_None ns i : node_in ns i = None ↔ i ∉ ids ns.
Proof.
  induction ns as [|n ns IH]; [split; [intros _ H; inversion H|done]|].
  rewrite node_in_cons, fmap_cons, not_elem_of_cons. destruct (decide (id n = i)); naive_solver.
Qed.
Lemma node_in_elem ns i : i ∈ ids ns → ∃ n, node_in ns i = Some n ∧ id n = i.
Proof.
  intros Hi. destruct (node_in ns i) as [n|] eqn:Hn; [|by apply node_in_None in Hn].
  exists n. split; [done|]. by apply node_in_Some in Hn as [_ ?].
Qed.
Lemma node_in_app ns ms i :
  node_in (ns ++ ms) i = match node_in ns i with Some n => Some n | None => node_in ms i end.
Proof.
  induction ns as [|n ns IH]; [done|]. simpl. rewrite !node_in_cons. by destruct (decide _).
Qed.
Lemma node_in_unique ns n : NoDup (ids ns) → n ∈ ns → node_in ns (id n) = Some n.
Proof.
  induction ns as [|m ns IH]; [by inversion 2|]. rewrite fmap_cons, node_in_cons.
  intros [Hm Hd]%NoDup_cons [->|Hn]%elem_of_cons; [by rewrite decide_True|].
  destruct (decide (id m = id n)) as [He|]; [|by apply IH].
  contradict Hm. rewrite He. by apply list_elem_of_fmap_2.
Qed.
Lemma node_in_insert ns k n m i :
  NoDup (ids ns) → ns !! k = Some n → id m = id n →
  node_in (<[k := m]> ns) i = if decide (i = id n) then Some m else node_in ns i.
Proof.
  intros Hd Hk Hid. revert k Hk Hd. induction ns as [|x ns IH]; intros [|k] Hk Hn; try done;
    apply NoDup_cons in Hn as [Hx Hd]; simpl in *.
  - injection Hk as ->. rewrite !node_in_cons, Hid. by repeat case_decide; simplify_eq.
  - rewrite !node_in_cons, IH by done.
    destruct (decide (id x = i)) as [<-|]; [|done]. destruct (decide (id x = id n)) as [He|]; [|done].
    contradict Hx. rewrite He. apply list_elem_of_fmap_2, (list_elem_of_lookup_2 _ _ _ Hk).
Qed.
Lemma node_in_filter (P : Node → Prop) `{!∀ n, Decision (P n)} ns i :
  NoDup (ids ns) →
  node_in (filter P ns) i = match node_in ns i with Some n => if decide (P n) then Some n else None | None => None end.
Proof.
  induction ns as [|n ns IH]; [done|]. intros [Hn Hd]%NoDup_cons. rewrite filter_cons, node_in_cons.
  destruct (decide (P n)) as [HP|HP]; [rewrite node_in_cons|]; destruct (decide (id n = i)) as [<-|];
    try by apply IH.
  - by rewrite decide_True.
  - rewrite decide_False by done. apply node_in_None. contradict Hn.
    apply list_elem_of_fmap in Hn as (m & He & [_ Hm]%list_elem_of_filter). rewrite He. by apply list_elem_of_fmap_2.
Qed.
Lemma filter_ids_NoDup (P : Node → Prop) `{!∀ n, Decision (P n)} ns : NoDup (ids ns) → NoDup (ids (filter P ns)).
Proof.
  induction ns as [|n ns IH]; [done|]. rewrite fmap_cons. intros [Hn Hd]%NoDup_cons. rewrite filter_cons.
  destruct (decide (P n)); [|auto]. rewrite fmap_cons. apply NoDup_cons. split; [|auto]. contradict Hn.
  apply list_elem_of_fmap in Hn as (m & -> & [_ Hm]%list_elem_of_filter). by apply list_elem_of_fmap_2.
Qed.
Lemma node_in_fmap (f : Node → Node) ns i :
  (∀ n, id (f n) = id n) → node_in (f <$> ns) i = f <$> node_in ns i.
Proof.
  intros Hf. induction ns as [|n ns IH]; [done|]. rewrite fmap_cons, !node_in_cons, Hf.
  by destruct (decide _).
Qed.

(** What a list of whole nodes, of ports to unbind and of bindings does to the
    node of an id. *)
Definition set_by (i : Uuid) (o : option Node) (l : list Node) : option Node :=
  foldl (λ o n, if decide (id n = i) then Some n else o) o l.
Definition unbound_by (i : Uuid) (o : option Node) (l : list Port) : option Node :=
  foldl (λ o p, if decide (port_node p = i) then map_bind (delete (port_port p)) <$> o else o) o l.
Definition bound_by (i : Uuid) (o : option Node) (l : list Binding) : option Node :=
  foldl (λ o b, if decide (b_node b = i) then map_bind (insert (b_port b) (b_source b)) <$> o else o) o l.

(** The ids after nodes are set: a new one goes last. *)
Definition add_ids (l m : list Uuid) : list Uuid :=
  foldl (λ l i, if decide (i ∈ l) then l else l ++ [i]) l m.

Lemma set_by_unique i o l :
  NoDup (ids l) → set_by i o l = match node_in l i with Some n => Some n | None => o end.
Proof.
  revert o. induction l as [|n l IH]; intros o; [done|]. intros [Hn Hd]%NoDup_cons. simpl.
  rewrite (IH _ Hd), node_in_cons. destruct (decide (id n = i)) as [<-|]; [|done].
  by apply node_in_None in Hn as ->.
Qed.
Lemma collect_set_by ns (m : gmap Uuid Node) i : foldl (λ (m : gmap Uuid Node) n, <[id n := n]> m) m ns !! i = set_by i (m !! i) ns.
Proof.
  revert m. induction ns as [|n ns IH]; intros m; [done|]. simpl. rewrite IH. f_equal.
  destruct (decide (id n = i)) as [<-|]; [by rewrite lookup_insert_eq|by rewrite lookup_insert_ne].
Qed.
Lemma collect_lookup ns i : NoDup (ids ns) → collect ns !! i = node_in ns i.
Proof.
  intros Hd. unfold collect. rewrite collect_set_by, set_by_unique, lookup_empty by done.
  by destruct (node_in ns i).
Qed.
Lemma add_ids_elem l m i : i ∈ add_ids l m ↔ i ∈ l ∨ i ∈ m.
Proof.
  revert l. induction m as [|j m IH]; intros l; simpl.
  - split; [auto|intros [|H]; [done|inversion H]].
  - rewrite IH, elem_of_cons. destruct (decide (j ∈ l)); [naive_solver|].
    rewrite elem_of_app, list_elem_of_singleton. naive_solver.
Qed.
Lemma add_ids_NoDup l m : NoDup l → NoDup (add_ids l m).
Proof.
  revert l. induction m as [|j m IH]; intros l Hl; [done|]. simpl. apply IH.
  destruct (decide (j ∈ l)); [done|]. apply NoDup_app. split; [done|]. split; [|apply NoDup_singleton].
  by intros x Hx ->%list_elem_of_singleton.
Qed.
Lemma add_ids_fresh l m : NoDup m → add_ids l m = l ++ filter (λ i, i ∉ l) m.
Proof.
  revert l. induction m as [|j m IH]; intros l; [by rewrite app_nil_r|].
  intros [Hj Hd]%NoDup_cons. simpl. rewrite filter_cons. destruct (decide (j ∈ l)).
  - rewrite decide_False by (intros H; by apply H). by apply IH.
  - rewrite decide_True, IH by done. rewrite <- app_assoc. simpl. f_equal. f_equal.
    apply filter_iff_in. intros x Hx. rewrite elem_of_app, list_elem_of_singleton.
    split; [naive_solver|]. intros Hl [?|?]; [done|congruence].
Qed.

(** ** [apply] *)
Definition base (removed : gset Uuid) (g : Graph) (i : Uuid) : option Node :=
  if decide (i ∈ removed) then None else drop_readers removed <$> node g i.

(** The node of an id once a diff is applied. *)
Definition edited (d : GraphDiff) (g : Graph) (i : Uuid) : option Node :=
  bound_by i (unbound_by i (set_by i (base (list_to_set (d_remove d)) g i) (d_set d)) (d_unbind d)) (d_bind d).
Definition edited_ids (d : GraphDiff) (g : Graph) : list Uuid :=
  add_ids (filter (λ i, i ∉ d_remove d) (ids (nodes g))) (ids (d_set d)).

Lemma remove_nodes_ids removed g : ids (nodes (remove_nodes removed g)) = filter (λ i, i ∉ removed) (ids (nodes g)).
Proof.
  unfold remove_nodes. case_bool_decide as He; simpl.
  - symmetry. apply filter_all. intros i _. rewrite He. set_solver.
  - induction (nodes g) as [|n ns IH]; [done|].
    rewrite fmap_cons, !filter_cons. destruct (decide (id n ∉ removed)); [|done].
    rewrite !fmap_cons. by rewrite IH.
Qed.
Lemma drop_readers_none n : drop_readers ∅ n = n.
Proof.
  destruct n as [i f b c]. unfold drop_readers, map_bind; simpl. f_equal. apply map_filter_id.
  intros k s _. simpl. unfold reads_removed. by destruct (source_port s).
Qed.
Lemma remove_nodes_lookup removed g i :
  NoDup (ids (nodes g)) → node_in (nodes (remove_nodes removed g)) i = base removed g i.
Proof.
  intros Hd. unfold remove_nodes, base, node. case_bool_decide as He; simpl.
  - subst removed. rewrite decide_False by set_solver. destruct (node_in (nodes g) i); [|done].
    simpl. by rewrite drop_readers_none.
  - rewrite node_in_fmap, node_in_filter by done. destruct (node_in (nodes g) i) as [n|] eqn:Hn.
    + apply node_in_Some in Hn as [_ <-]. by repeat case_decide.
    + by case_decide.
Qed.

(** [at_] indexes [ns]. *)
Definition indexes (at_ : gmap Uuid nat) (ns : list Node) : Prop :=
  (∀ i k, at_ !! i = Some k → ∃ n, ns !! k = Some n ∧ id n = i) ∧ (∀ i, i ∈ ids ns → is_Some (at_ !! i)).

Lemma indexes_snoc at_ ns n : indexes at_ ns → indexes (<[id n := length ns]> at_) (ns ++ [n]).
Proof.
  intros [H1 H2]. split.
  - intros i k [[<- <-]|[Hne Hi]]%lookup_insert_Some.
    + exists n. by rewrite list_lookup_middle.
    + destruct (H1 i k Hi) as (m & Hm & ?). exists m. split; [by apply lookup_app_l_Some|done].
  - intros i. rewrite fmap_app, elem_of_app; simpl. rewrite list_elem_of_singleton. intros Hi.
    destruct (decide (i = id n)) as [->|]; [rewrite lookup_insert_eq; eauto|].
    rewrite lookup_insert_ne by done. apply H2. naive_solver.
Qed.
Lemma index_from_indexes ns pre at_ :
  indexes at_ pre → indexes (index_from (length pre) ns at_) (pre ++ ns).
Proof.
  revert pre at_. induction ns as [|n ns IH]; intros pre at_ H; [by rewrite app_nil_r|].
  simpl. rewrite (app_assoc pre [n] ns : pre ++ n :: ns = _).
  pose proof (IH (pre ++ [n]) _ (indexes_snoc _ _ n H)) as H'.
  rewrite length_app in H'; simpl in H'. by rewrite Nat.add_1_r in H'.
Qed.
Lemma index_indexes ns : indexes (index_from 0 ns ∅) ns.
Proof.
  apply (index_from_indexes ns []). split; [by intros ??; rewrite lookup_empty|intros i H; inversion H].
Qed.

(** An edit in place: it succeeds, keeps the ids and the index, and changes the
    nodes by [f]. *)
Definition edits_to (at_ : gmap Uuid nat) (ns ns' : list Node) (f : Uuid → option Node → option Node) : Prop :=
  indexes at_ ns' ∧ ids ns' = ids ns
  ∧ (NoDup (ids ns) → ∀ i, node_in ns' i = f i (node_in ns i)).

Lemma alter_at_spec at_ ns i k f :
  indexes at_ ns → at_ !! i = Some k → (∀ n, id n = i → id (f n) = i) →
  ∃ ns', alter_at k f ns = Some ns' ∧ edits_to at_ ns ns' (λ j o, if decide (j = i) then f <$> o else o).
Proof.
  intros [H1 H2] Hk Hf. destruct (H1 i k Hk) as (n & Hn & <-).
  exists (<[k := f n]> ns). unfold alter_at. rewrite Hn. split; [done|].
  assert (ids (<[k:=f n]> ns) = ids ns) as Hids.
  { rewrite list_fmap_insert, (Hf n eq_refl). apply list_insert_id. by rewrite list_lookup_fmap, Hn. }
  split; [split|split; [done|]].
  - intros j l Hl. destruct (H1 j l Hl) as (m & Hm & <-). destruct (decide (l = k)) as [->|].
    + exists (f n). assert (m = n) as -> by congruence.
      rewrite list_lookup_insert_eq by (by apply lookup_lt_Some in Hn). auto.
    + exists m. by rewrite list_lookup_insert_ne.
  - intros j. rewrite Hids. apply H2.
  - intros Hd j. rewrite (node_in_insert ns k n) by auto. case_decide; [|done]. subst j.
    by rewrite (node_in_unique _ n) by (try apply (list_elem_of_lookup_2 _ _ _ Hn); done).
Qed.

Lemma edits_to_trans at_ ns ns1 ns2 f h :
  edits_to at_ ns ns1 f → edits_to at_ ns1 ns2 h → edits_to at_ ns ns2 (λ i o, h i (f i o)).
Proof.
  intros (_ & Hi1 & H1) (Hx & Hi2 & H2). split; [done|]. split; [congruence|].
  intros Hd i. rewrite H2 by (by rewrite Hi1). by rewrite H1.
Qed.
Lemma edits_to_refl at_ ns : indexes at_ ns → edits_to at_ ns ns (λ _ o, o).
Proof. intros H. split; [done|]. by split. Qed.
Lemma edits_to_ext at_ ns ns' f h :
  edits_to at_ ns ns' f → (∀ i, f i (node_in ns i) = h i (node_in ns i)) → edits_to at_ ns ns' h.
Proof. intros (? & ? & H) Hfh. split; [done|]. split; [done|]. intros Hd i. by rewrite H, Hfh. Qed.

Lemma unbind_ports_spec unbind at_ ns :
  indexes at_ ns →
  ∃ ns', unbind_ports unbind at_ ns = Some ns' ∧ edits_to at_ ns ns' (λ i o, unbound_by i o unbind).
Proof.
  revert ns. induction unbind as [|p l IH]; intros ns H; simpl.
  - exists ns. split; [done|]. by apply edits_to_refl.
  - destruct (at_ !! port_node p) as [k|] eqn:Hk.
    + destruct (alter_at_spec at_ ns (port_node p) k (map_bind (delete (port_port p))) H Hk)
        as (ns1 & -> & He1); [done|].
      destruct (IH ns1 (proj1 He1)) as (ns2 & -> & He2). exists ns2. split; [done|].
      eapply edits_to_ext; [exact (edits_to_trans _ _ _ _ _ _ He1 He2)|]. intros i. simpl. f_equal.
      by repeat case_decide.
    + destruct (IH ns H) as (ns2 & -> & He2). exists ns2. split; [done|].
      eapply edits_to_ext; [exact He2|]. intros i. simpl. f_equal. case_decide; [|done]. subst i.
      destruct (node_in ns (port_node p)) as [n|] eqn:Hn; [|done].
      apply node_in_Some in Hn as [Hn Hid]. destruct (proj2 H (port_node p)) as [? ?]; [|congruence].
      rewrite <- Hid. by apply list_elem_of_fmap_2.
Qed.

Lemma bind_ports_spec bindings at_ ns :
  indexes at_ ns → Forall (λ b, b_node b ∈ ids ns) bindings →
  ∃ ns', bind_ports bindings at_ ns = Some ns' ∧ edits_to at_ ns ns' (λ i o, bound_by i o bindings).
Proof.
  revert ns. induction bindings as [|b l IH]; intros ns H Hin; simpl.
  - exists ns. split; [done|]. by apply edits_to_refl.
  - apply Forall_cons in Hin as [Hb Hl]. destruct (proj2 H _ Hb) as [k Hk]. rewrite Hk.
    destruct (alter_at_spec at_ ns (b_node b) k (map_bind (insert (b_port b) (b_source b))) H Hk)
      as (ns1 & -> & He1); [done|].
    destruct (IH ns1 (proj1 He1)) as (ns2 & -> & He2).
    { destruct He1 as (_ & -> & _). done. }
    exists ns2. split; [done|].
    eapply edits_to_ext; [exact (edits_to_trans _ _ _ _ _ _ He1 He2)|]. intros i. simpl. f_equal.
    by repeat case_decide.
Qed.

Lemma set_nodes_spec set_ ns at_ :
  indexes at_ ns →
  ∃ ns' at', set_nodes set_ ns at_ = Some (ns', at') ∧ indexes at' ns'
    ∧ ids ns' = add_ids (ids ns) (ids set_)
    ∧ (NoDup (ids ns) → ∀ i, node_in ns' i = set_by i (node_in ns i) set_).
Proof.
  revert ns at_. induction set_ as [|n l IH]; intros ns at_ H; simpl; [by eauto 10|].
  destruct (at_ !! id n) as [k|] eqn:Hk.
  - destruct (alter_at_spec at_ ns (id n) k (λ _, n) H Hk) as (ns1 & -> & H1 & Hids1 & Hl1); [done|].
    destruct (IH ns1 at_ H1) as (ns2 & at2 & -> & H2 & Hids2 & Hl2).
    assert (id n ∈ ids ns) as Hin.
    { destruct (proj1 H _ _ Hk) as (m & Hm & <-). apply list_elem_of_fmap_2, (list_elem_of_lookup_2 _ _ _ Hm). }
    exists ns2, at2. split; [done|]. split; [done|]. split; [by rewrite Hids2, Hids1; simpl; rewrite decide_True|].
    intros Hd i. rewrite Hl2, Hl1 by (done || by rewrite Hids1). f_equal. simpl.
    destruct (decide (i = id n)) as [->|]; [|by rewrite decide_False by congruence].
    rewrite decide_True by done. by destruct (node_in_elem _ _ Hin) as (m & -> & _).
  - assert (id n ∉ ids ns) as Hout by (intros [? ?]%(proj2 H); congruence).
    destruct (IH _ _ (indexes_snoc _ _ n H)) as (ns2 & at2 & -> & H2 & Hids2 & Hl2).
    exists ns2, at2. split; [done|]. split; [done|]. rewrite decide_False by done.
    rewrite fmap_app in Hids2, Hl2. split; [done|]. intros Hd i. rewrite Hl2.
    + rewrite node_in_app. f_equal. rewrite node_in_cons. case_decide as He; [|by destruct (node_in ns i)].
      subst i. by apply node_in_None in Hout as ->.
    + apply NoDup_app. split; [done|]. split; [|apply NoDup_singleton].
      by intros x Hx ->%list_elem_of_singleton.
Qed.

Lemma apply_ok d g :
  Forall (λ b, b_node b ∈ edited_ids d g) (d_bind d) →
  ∃ ns, apply g d = (Ok tt, mkGraph (match d_root d with Some r => Some r
                                     | None => root (remove_nodes (list_to_set (d_remove d)) g) end) ns)
        ∧ ids ns = edited_ids d g
        ∧ (NoDup (ids (nodes g)) → ∀ i, node_in ns i = edited d g i).
Proof.
  intros Hb. set (removed := list_to_set (d_remove d) : gset Uuid).
  assert (filter (λ i, i ∉ removed) (ids (nodes g)) = filter (λ i, i ∉ d_remove d) (ids (nodes g))) as Hf.
  { apply filter_iff_in. intros. unfold removed. by rewrite elem_of_list_to_set. }
  assert (match d_bind d with [] => None
          | _ => snd <$> list_find (λ b, b_node b ∉ present removed g (d_set d)) (d_bind d) end = None) as Hnone.
  { destruct (d_bind d) as [|b l] eqn:Hl; [done|]. rewrite <- Hl in *.
    replace (list_find _ (d_bind d)) with (@None (nat * Binding)); [done|]. symmetry.
    apply list_find_None. eapply Forall_impl; [exact Hb|]. intros x Hx. simpl. intros []. unfold present.
    rewrite elem_of_list_to_set, elem_of_app, Hf. by apply add_ids_elem. }
  unfold apply. fold removed. rewrite Hnone.
  destruct (set_nodes_spec (d_set d) _ _ (index_indexes (nodes (remove_nodes removed g))))
    as (ns1 & at1 & -> & H1 & Hids1 & Hl1). rewrite remove_nodes_ids, Hf in Hids1.
  simpl. destruct (unbind_ports_spec (d_unbind d) _ _ H1) as (ns2 & -> & H2 & Hids2 & Hl2). simpl.
  destruct (bind_ports_spec (d_bind d) _ _ H2) as (ns3 & -> & H3 & Hids3 & Hl3).
  { eapply Forall_impl; [exact Hb|]. intros b Hin. simpl. rewrite Hids2, Hids1. exact Hin. }
  exists ns3. split; [done|]. split; [by rewrite Hids3, Hids2, Hids1|]. intros Hd i.
  assert (NoDup (ids (nodes (remove_nodes removed g)))) as Hd0
    by (rewrite remove_nodes_ids; by apply NoDup_filter).
  assert (NoDup (ids ns1)) as Hd1 by (rewrite Hids1; by apply add_ids_NoDup, NoDup_filter).
  rewrite Hl3, Hl2, Hl1 by congruence. unfold edited. fold removed. by rewrite remove_nodes_lookup.
Qed.

Lemma apply_refused d g :
  ¬ Forall (λ b, b_node b ∈ edited_ids d g) (d_bind d) →
  ∃ n, apply g d = (Err (Refused (TargetsAbsent n)), g).
Proof.
  intros Hb. unfold apply.
  set (removed := list_to_set (d_remove d) : gset Uuid).
  destruct (d_bind d) as [|b l] eqn:Hl; [by destruct Hb|]. rewrite <- Hl in *.
  destruct (list_find _ (d_bind d)) as [[k x]|] eqn:Hf; [by eexists|]. destruct Hb.
  apply list_find_None in Hf. eapply Forall_impl; [exact Hf|]. simpl. intros x Hx.
  unfold edited_ids. apply add_ids_elem. destruct (decide (b_node x ∈ present removed g (d_set d))) as [Hp|]; [|done].
  unfold present in Hp. rewrite elem_of_list_to_set, elem_of_app in Hp. destruct Hp as [Hp|]; [left|by right].
  apply list_elem_of_filter in Hp as [Hr Hp]. apply list_elem_of_filter. split; [|done].
  contradict Hr. unfold removed. by rewrite elem_of_list_to_set.
Qed.

(** ** [diff] *)
Lemma source_eqb_port s t : source_eqb s t = true → source_port s = source_port t.
Proof.
  revert t. induction s as [v|k|p|s IH q]; intros [] H; try done; simpl in *.
  - by apply bool_decide_eq_true in H as ->.
  - apply andb_prop in H as [H _]. by apply IH.
Qed.

Lemma bt_iter_elem {A} (m : gmap Uuid A) k a : (k, a) ∈ bt_iter m ↔ m !! k = Some a.
Proof. unfold bt_iter. by rewrite merge_sort_Permutation, elem_of_map_to_list. Qed.

Lemma bound_by_spec i l : ∀ n, ∃ n', bound_by i (Some n) l = Some n'
  ∧ id n' = id n ∧ function n' = function n ∧ children n' = children n
  ∧ (∀ p, (∀ b, b ∈ l → b_node b = i → b_port b ≠ p) → bind n' !! p = bind n !! p)
  ∧ (∀ p s, (∃ b, b ∈ l ∧ b_node b = i ∧ b_port b = p) →
       (∀ b, b ∈ l → b_node b = i → b_port b = p → b_source b = s) → bind n' !! p = Some s).
Proof.
  induction l as [|b l IH]; intros n.
  - exists n. split; [done|]. do 4 (split; [done|]). intros p s (b & Hb & _). by inversion Hb.
  - simpl. destruct (decide (b_node b = i)) as [He|He]; simpl.
    + destruct (IH (map_bind (insert (b_port b) (b_source b)) n)) as (n' & -> & Hi & Hf & Hc & Hk & Hs).
      exists n'. split; [done|]. do 3 (split; [done|]). split.
      * intros p Hp. rewrite Hk by (intros; apply Hp; [by right|done]). simpl.
        apply lookup_insert_ne, Hp; [by left|done].
      * intros p s (y & [->|Hy]%elem_of_cons & Hyi & Hyp) Hall;
          [|apply Hs; [by eauto|intros; apply Hall; [by right|done..]]].
        destruct (decide (Exists (λ x, b_node x = i ∧ b_port x = p) l)) as [Hex|Hne].
        -- apply Hs; [|intros; apply Hall; [by right|done..]]. apply Exists_exists in Hex. naive_solver.
        -- rewrite Hk; last first.
           { intros x Hx Hxi Hxp. apply Hne, Exists_exists. eauto. }
           simpl. rewrite <- Hyp, lookup_insert_eq. f_equal. by apply Hall; [left|..].
    + destruct (IH n) as (n' & -> & Hi & Hf & Hc & Hk & Hs).
      exists n'. split; [done|]. do 3 (split; [done|]). split.
      * intros p Hp. apply Hk. intros; apply Hp; [by right|done].
      * intros p s (x & [->|Hx]%elem_of_cons & Hxi & Hxp) Hall; [done|].
        apply Hs; [by eauto|]. intros; apply Hall; [by right|done..].
Qed.

Lemma unbound_by_spec i l : ∀ n, ∃ n', unbound_by i (Some n) l = Some n'
  ∧ id n' = id n ∧ function n' = function n ∧ children n' = children n
  ∧ (∀ p, bind n' !! p = if decide (mkPort i p ∈ l) then None else bind n !! p).
Proof.
  induction l as [|q l IH]; intros n.
  - exists n. do 4 (split; [done|]). intros p. by rewrite decide_False by (intros H; inversion H).
  - simpl. destruct (decide (port_node q = i)) as [He|He]; simpl;
      [destruct (IH (map_bind (delete (port_port q)) n)) as (n' & -> & Hi & Hf & Hc & Hk)
      |destruct (IH n) as (n' & -> & Hi & Hf & Hc & Hk)];
      exists n'; do 4 (split; [done|]); intros p; rewrite Hk; clear Hk; simpl.
    + destruct (decide (mkPort i p ∈ l)); [by rewrite decide_True by by right|].
      destruct (decide (port_port q = p)) as [<-|].
      * rewrite lookup_delete_eq, decide_True; [done|]. destruct q; simpl in *; subst. by left.
      * rewrite lookup_delete_ne, decide_False; [done| |done]. by intros [<-|?]%elem_of_cons.
    + destruct (decide (mkPort i p ∈ l)); [by rewrite decide_True by by right|].
      rewrite decide_False; [done|]. by intros [<-|?]%elem_of_cons.
Qed.

Lemma bound_by_None i l : bound_by i None l = None.
Proof. induction l as [|b l IH]; [done|]. simpl. by destruct (decide _). Qed.
Lemma unbound_by_None i l : unbound_by i None l = None.
Proof. induction l as [|b l IH]; [done|]. simpl. by destruct (decide _). Qed.
Lemma bound_by_others i o l : (∀ b, b ∈ l → b_node b ≠ i) → bound_by i o l = o.
Proof.
  revert o. induction l as [|b l IH]; intros o Hl; [done|]. simpl.
  rewrite decide_False by (apply Hl; by left). apply IH. intros; apply Hl. by right.
Qed.
Lemma unbound_by_others i o l : (∀ p, p ∈ l → port_node p ≠ i) → unbound_by i o l = o.
Proof.
  revert o. induction l as [|b l IH]; intros o Hl; [done|]. simpl.
  rewrite decide_False by (apply Hl; by left). apply IH. intros; apply Hl. by right.
Qed.

Section Diff.
Variable removed : gset Uuid.
Variable ours : gmap Uuid Node.

(** The node an unset one is edited from, and whether a node is set whole. *)
Definition old_of (n : Node) : option Node := if bool_decide (id n ∈ removed) then None else ours !! id n.
Definition whole (n : Node) : bool :=
  match old_of n with
  | None => true
  | Some old => negb (function old =? function n) || negb (bool_decide (children old = children n))
  end.
Definition unbounds (n : Node) : list Port :=
  match old_of n with Some old => if whole n then [] else unbound removed old n | None => [] end.
Definition rebounds (n : Node) : list Binding :=
  match old_of n with Some old => if whole n then [] else rebound removed old n | None => [] end.

Lemma diff_nodes d ns :
  foldl (diff_node removed ours) d ns =
  mkGraphDiff (d_remove d) (d_set d ++ filter (λ n, whole n = true) ns)
    (d_unbind d ++ (ns ≫= unbounds)) (d_bind d ++ (ns ≫= rebounds)) (d_root d).
Proof.
  revert d. induction ns as [|n ns IH]; intros d; simpl.
  - rewrite !app_nil_r. by destruct d.
  - rewrite IH, filter_cons. unfold diff_node, unbounds at 2, rebounds at 2, whole at 3 5.
    fold (old_of n). unfold whole. destruct (old_of n) as [old|]; simpl.
    + destruct (negb (function old =? function n) || negb (bool_decide (children old = children n)));
        simpl; rewrite <- ?app_assoc; done.
    + by rewrite <- app_assoc.
Qed.
End Diff.

(** Equal nodes, as [PartialEq] compares them, but for a source copied from the
    target, which is the target's even where it holds a NaN. *)
Definition source_same (s t : Source) : Prop := s = t ∨ source_eqb s t = true.
Definition node_same (n m : Node) : Prop :=
  id n = id m ∧ function n = function m ∧ children n = children m
  ∧ ∀ p, option_Forall2 source_same (bind n !! p) (bind m !! p).

Section DiffApply.
Variables (a b : Graph).
Hypothesis Ha : NoDup (ids (nodes a)).
Hypothesis Hb : NoDup (ids (nodes b)).

Let removed : gset Uuid := list_to_set (removals a b).
Let ours := collect (nodes a).
Let d := diff a b.

Lemma diff_parts :
  d_remove d = removals a b ∧ d_set d = filter (λ n, whole removed ours n = true) (nodes b)
  ∧ d_unbind d = (nodes b ≫= unbounds removed ours) ∧ d_bind d = (nodes b ≫= rebounds removed ours).
Proof.
  unfold d, diff. fold removed ours. rewrite diff_nodes. simpl.
  destruct (root b) as [r|]; [|done]. by case_bool_decide.
Qed.

Lemma removed_spec i :
  i ∈ removed ↔ (i ∈ ids (nodes a) ∧ (node b i = None ∨ Some i = unrooted a b))
                ∨ (i ∉ ids (nodes a) ∧ Some i = unrooted a b).
Proof.
  unfold removed, removals. rewrite elem_of_list_to_set, elem_of_app, list_elem_of_filter.
  rewrite (collect_lookup (nodes b)) by done. fold (node b i).
  assert (i ∈ match unrooted a b with
              | Some r => match collect (nodes a) !! r with None => [r] | Some _ => [] end
              | None => [] end ↔ i ∉ ids (nodes a) ∧ Some i = unrooted a b) as Hx; [|tauto].
  destruct (unrooted a b) as [r|]; [|split; [intros H; inversion H|by intros []]].
  rewrite (collect_lookup (nodes a)) by done. destruct (node_in (nodes a) r) as [n|] eqn:Hn.
  - split; [intros H; inversion H|]. intros [Hi [= ->]]. apply node_in_None in Hi. congruence.
  - rewrite list_elem_of_singleton. apply node_in_None in Hn. naive_solver.
Qed.

Lemma old_of_spec n old : old_of removed ours n = Some old ↔ id n ∉ removed ∧ node a (id n) = Some old.
Proof.
  unfold old_of, ours. rewrite collect_lookup by done. fold (node a (id n)). case_bool_decide; naive_solver.
Qed.

Lemma rebounds_node x : x ∈ (nodes b ≫= rebounds removed ours) →
  ∃ n old, node b (b_node x) = Some n ∧ old_of removed ours n = Some old ∧ whole removed ours n = false
    ∧ bind n !! b_port x = Some (b_source x)
    ∧ (bound_to (bind old !! b_port x) (b_source x) = false ∨ reads_removed removed (b_source x) = true).
Proof.
  intros (n & Hx & Hn)%list_elem_of_bind. unfold rebounds in Hx.
  destruct (old_of removed ours n) as [old|] eqn:Ho; [|by inversion Hx].
  destruct (whole removed ours n) eqn:Hw; [by inversion Hx|].
  apply list_elem_of_fmap in Hx as ([p s] & -> & [Hc Hp%bt_iter_elem]%list_elem_of_filter).
  exists n, old. simpl. split; [by apply node_in_unique|]. auto.
Qed.
Lemma rebounds_elem n old p s : node b (id n) = Some n → old_of removed ours n = Some old →
  whole removed ours n = false → bind n !! p = Some s →
  bound_to (bind old !! p) s = false ∨ reads_removed removed s = true →
  mkBinding (id n) p s ∈ (nodes b ≫= rebounds removed ours).
Proof.
  intros Hn Ho Hw Hp Hc. apply list_elem_of_bind. exists n.
  split; [|by apply node_in_Some in Hn as [? _]]. unfold rebounds. rewrite Ho, Hw.
  apply list_elem_of_fmap. exists (p, s). split; [done|]. apply list_elem_of_filter.
  split; [done|]. by apply bt_iter_elem.
Qed.
Lemma unbounds_spec q : q ∈ (nodes b ≫= unbounds removed ours) ↔
  ∃ n old s, node b (port_node q) = Some n ∧ old_of removed ours n = Some old
    ∧ whole removed ours n = false ∧ bind old !! port_port q = Some s
    ∧ bind n !! port_port q = None ∧ reads_removed removed s = false.
Proof.
  rewrite list_elem_of_bind. split.
  - intros (n & Hq & Hn). unfold unbounds in Hq.
    destruct (old_of removed ours n) as [old|] eqn:Ho; [|by inversion Hq].
    destruct (whole removed ours n) eqn:Hw; [by inversion Hq|].
    apply list_elem_of_fmap in Hq as ([p s] & -> & [[? ?] Hp%bt_iter_elem]%list_elem_of_filter).
    exists n, old, s. simpl in *. split; [by apply node_in_unique|]. auto.
  - intros (n & old & s & [Hn Hid]%node_in_Some & Ho & Hw & Hs & Hnone & Hr).
    exists n. split; [|done]. unfold unbounds. rewrite Ho, Hw. apply list_elem_of_fmap.
    exists (port_port q, s). simpl. split; [destruct q; simpl in *; congruence|].
    apply list_elem_of_filter. split; [done|]. by apply bt_iter_elem.
Qed.

(** A node edited in place has the target's bindings. *)
Lemma kept_bindings n old n1 n2 p :
  node b (id n) = Some n → old_of removed ours n = Some old → whole removed ours n = false →
  bind n1 !! p = (if decide (mkPort (id n) p ∈ d_unbind d) then None else bind (drop_readers removed old) !! p) →
  (∀ p, (∀ x, x ∈ d_bind d → b_node x = id n → b_port x ≠ p) → bind n2 !! p = bind n1 !! p) →
  (∀ p s, (∃ x, x ∈ d_bind d ∧ b_node x = id n ∧ b_port x = p) →
     (∀ x, x ∈ d_bind d → b_node x = id n → b_port x = p → b_source x = s) → bind n2 !! p = Some s) →
  option_Forall2 source_same (bind n2 !! p) (bind n !! p).
Proof.
  destruct diff_parts as (_ & _ & Hunb & Hbd). rewrite Hunb, Hbd. intros Hn Ho Hw H1 Hk Hs.
  destruct (bind n !! p) as [s|] eqn:Hp.
  - destruct (decide (bound_to (bind old !! p) s = false ∨ reads_removed removed s = true)) as [Hc|Hc].
    + rewrite (Hs p s); [constructor; by left| |].
      * exists (mkBinding (id n) p s). split; [|done]. by apply (rebounds_elem n old).
      * intros x (n' & old' & Hn' & _ & _ & Hx & _)%rebounds_node Hi Hxp.
        rewrite Hi in Hn'. congruence.
    + rewrite Hk; last first.
      { intros x (n' & old' & Hn' & Ho' & _ & Hx & Hx')%rebounds_node Hi Hxp.
        apply Hc. rewrite Hi in Hn'. assert (n' = n) as -> by congruence.
        assert (old' = old) as -> by congruence. rewrite Hxp in Hx, Hx'.
        assert (b_source x = s) as <- by congruence. done. }
      rewrite H1, decide_False; last first.
      { intros (n' & old' & s' & Hn' & _ & _ & _ & Hnone & _)%unbounds_spec. simpl in *. congruence. }
      unfold bound_to in Hc. simpl. destruct (bind old !! p) as [s'|] eqn:Hs'; [|tauto].
      destruct (source_eqb s' s) eqn:He; [|tauto].
      rewrite (map_lookup_filter_Some_2 _ _ p s'); [constructor; by right|done|simpl].
      unfold reads_removed in *. rewrite (source_eqb_port _ _ He). by apply not_true_is_false; tauto.
  - rewrite Hk; last first.
    { intros x (n' & old' & Hn' & _ & _ & Hx & _)%rebounds_node Hi Hxp. rewrite Hi in Hn'. congruence. }
    rewrite H1. case_decide as Hin; [constructor|]. simpl.
    rewrite map_lookup_filter_None_2; [constructor|].
    destruct (bind old !! p) as [s|] eqn:Hs'; [right|by left]. intros s' [= <-] Hr. simpl in Hr.
    apply Hin, unbounds_spec. exists n, old, s. simpl. auto 10.
Qed.

Lemma edited_target i :
  option_Forall2 node_same (edited d a i) (node b i).
Proof.
  destruct diff_parts as (Hrm & Hset & Hunb & Hbd). unfold edited. rewrite Hrm, Hset. fold removed.
  rewrite set_by_unique by (by apply filter_ids_NoDup).
  rewrite node_in_filter by done. fold (node b i).
  destruct (node b i) as [n|] eqn:Hn.
  - pose proof (node_in_Some _ _ _ Hn) as [Hin <-].
    destruct (whole removed ours n) eqn:Hw; simpl.
    + rewrite Hunb, unbound_by_others, Hbd, bound_by_others.
      * constructor. repeat split; try done. intros p. destruct (bind n !! p); constructor. by left.
      * intros x (n' & old' & Hn' & _ & Hw' & _)%rebounds_node Hi. rewrite Hi in Hn'. congruence.
      * intros q (n' & old' & s & Hn' & _ & Hw' & _)%unbounds_spec Hi. rewrite Hi in Hn'. congruence.
    + destruct (old_of removed ours n) as [old|] eqn:Ho; [|unfold whole in Hw; by rewrite Ho in Hw].
      pose proof (proj1 (old_of_spec _ _) Ho) as [Hr Hold].
      unfold base. rewrite decide_False, Hold by done. simpl.
      destruct (unbound_by_spec (id n) (d_unbind d) (drop_readers removed old)) as (n1 & -> & Hi1 & Hf1 & Hc1 & Hb1).
      destruct (bound_by_spec (id n) (d_bind d) n1) as (n2 & -> & Hi2 & Hf2 & Hc2 & Hb2 & Hb2').
      unfold whole in Hw. rewrite Ho in Hw. apply orb_false_elim in Hw as [Hf Hc].
      apply negb_false_iff in Hf, Hc. apply Z.eqb_eq in Hf. apply bool_decide_eq_true in Hc.
      apply node_in_Some in Hold as [_ Hid].
      constructor. split; [|split; [|split]].
      * rewrite Hi2, Hi1. exact Hid.
      * rewrite Hf2, Hf1. exact Hf.
      * rewrite Hc2, Hc1. exact Hc.
      * intros p. apply (kept_bindings n old n1 n2 p); try done.
        unfold whole. rewrite Ho, Hf, Hc, Z.eqb_refl. by rewrite bool_decide_true.
  - assert (base removed a i = None) as ->; [|by rewrite unbound_by_None, bound_by_None; constructor].
    unfold base. case_decide as Hr; [done|]. destruct (node a i) as [n|] eqn:Hna; [|done].
    destruct Hr. apply removed_spec. left. split; [|by left].
    apply node_in_Some in Hna as [Hna <-]. by apply list_elem_of_fmap_2.
Qed.

Definition kept_ids : list Uuid := filter (λ i, i ∈ ids (nodes b) ∧ Some i ≠ unrooted a b) (ids (nodes a)).

Lemma edited_ids_target :
  edited_ids d a = kept_ids ++ filter (λ i, i ∉ kept_ids) (ids (nodes b)).
Proof.
  destruct diff_parts as (Hrm & Hset & _). unfold edited_ids. rewrite Hrm, Hset.
  assert (filter (λ i, i ∉ removals a b) (ids (nodes a)) = kept_ids) as ->.
  { apply filter_iff_in. intros i Hi. pose proof (removed_spec i) as Hr. unfold removed in Hr.
    rewrite elem_of_list_to_set in Hr. rewrite Hr. unfold node. rewrite node_in_None.
    destruct (decide (i ∈ ids (nodes b))); tauto. }
  rewrite add_ids_fresh by (by apply filter_ids_NoDup).
  f_equal.
  assert (∀ n, n ∈ nodes b → id n ∉ kept_ids → whole removed ours n = true) as Hw.
  { intros n Hn Hk. unfold whole. destruct (old_of removed ours n) as [old|] eqn:Ho; [|done].
    apply old_of_spec in Ho as [Hr [Hold Hid]%node_in_Some]. destruct Hk. apply list_elem_of_filter.
    assert (id n ∈ ids (nodes a)) by (rewrite <- Hid; by apply list_elem_of_fmap_2).
    split; [|done]. split; [by apply list_elem_of_fmap_2|]. contradict Hr. apply removed_spec. auto. }
  clear -Hw. induction (nodes b) as [|n ns IH]; [done|].
  rewrite filter_cons, fmap_cons, (filter_cons _ (id n)). destruct (decide (whole removed ours n = true)) as [|Hf].
  - rewrite fmap_cons, filter_cons. rewrite IH; [done|]. intros; apply Hw; [by right|done].
  - destruct (decide (id n ∉ kept_ids)) as [Hk|]; [destruct Hf; apply Hw; [by left|done]|].
    apply IH. intros; apply Hw; [by right|done].
Qed.
End DiffApply.

(** ** What an edition does *)

Lemma apply_edits_gen (d : GraphDiff) (g : Graph) (Hids : NoDup (ids (nodes g))) :
  match apply g d with
  | (Ok _, g') =>
      Forall (λ b, b_node b ∈ edited_ids d g) (d_bind d)
      ∧ ids (nodes g') = edited_ids d g ∧ NoDup (ids (nodes g'))
      ∧ (∀ i, node g' i = edited d g i)
      ∧ root g' = match d_root d with
                  | Some r => Some r
                  | None => r ← root g; if decide (r ∈ d_remove d) then None else Some r
                  end
  | (Err (Refused _), g') => g' = g ∧ ¬ Forall (λ b, b_node b ∈ edited_ids d g) (d_bind d)
  | (Err Panic, _) => False
  end.
Proof.
  destruct (decide (Forall (λ b, b_node b ∈ edited_ids d g) (d_bind d))) as [Hb|Hb].
  - destruct (apply_ok d g Hb) as (ns & -> & Hi & Hn). simpl. rewrite Hi.
    split; [done|]. split; [done|]. split; [by apply add_ids_NoDup, NoDup_filter|]. split; [by apply Hn|].
    destruct (d_root d); [done|]. unfold remove_nodes. case_bool_decide as He; simpl.
    + destruct (root g) as [r|]; [|done]. simpl. rewrite decide_False; [done|].
      rewrite <- (elem_of_list_to_set (C := gset Uuid)), He. set_solver.
    + destruct (root g) as [r|]; [|done]. simpl. case_bool_decide as Hr; rewrite elem_of_list_to_set in Hr.
      * by rewrite decide_True.
      * by rewrite decide_False.
  - by destruct (apply_refused d g Hb) as [n ->].
Qed.

Lemma edit_reaches (a b : Graph) (Ha : NoDup (ids (nodes a))) (Hb : NoDup (ids (nodes b))) :
  ∃ g, apply a (diff a b) = (Ok tt, g) ∧ root g = root b
       ∧ ids (nodes g) = kept_ids a b ++ filter (λ i, i ∉ kept_ids a b) (ids (nodes b))
       ∧ ∀ i, option_Forall2 node_same (node g i) (node b i).
Proof.
  pose proof (apply_edits_gen (diff a b) a Ha) as Hspec.
  assert (Forall (λ x, b_node x ∈ edited_ids (diff a b) a) (d_bind (diff a b))) as Hbinds.
  { destruct (diff_parts a b) as (_ & _ & _ & ->). apply Forall_forall.
    intros x (n & old & [Hn Hid]%node_in_Some & _)%rebounds_node; [|done..].
    rewrite edited_ids_target by done. apply elem_of_app. rewrite list_elem_of_filter.
    assert (b_node x ∈ ids (nodes b)) by (rewrite <- Hid; by apply list_elem_of_fmap_2).
    destruct (decide (b_node x ∈ kept_ids a b)); auto. }
  destruct (apply a (diff a b)) as [[[]|[]] g]; [|by destruct Hspec|done].
  destruct Hspec as (_ & Hi & _ & Hn & Hr). exists g. split; [done|]. split; [|split].
  - destruct (diff_parts a b) as (Hrm & _). rewrite Hr, Hrm. clear - Ha Hb.
    pose proof (removed_spec a b Ha Hb) as Hspec. 
    unfold diff. rewrite diff_nodes. simpl. destruct (root b) as [rb|] eqn:Hrb.
    + destruct (root a) as [ra|] eqn:Hra; simpl; [|done].
      repeat case_bool_decide; simpl; try done; rewrite elem_of_list_to_set in *; by case_decide.
    + destruct (root a) as [ra|] eqn:Hra; simpl; [|done]. rewrite decide_True; [done|].
      rewrite <- (elem_of_list_to_set (C := gset Uuid)). apply Hspec. unfold unrooted.
      rewrite Hra, Hrb, !collect_lookup by done. unfold node. rewrite <- node_in_None.
      destruct (node_in (nodes a) ra) as [n|] eqn:Hn; [left|by right].
      apply node_in_Some in Hn as [Hn <-]. split; [by apply list_elem_of_fmap_2|].
      destruct (node_in (nodes b) (id n)); auto.
  - rewrite Hi. by apply edited_ids_target.
  - intros i. rewrite Hn. by apply edited_target.
Qed.

(** Applying a diff never panics. It is refused exactly when it binds a port of
    a node neither kept nor set, and then changes nothing; else every node is its
    own edit, the ids stay unique, new nodes go last, and a removed root is no
    root unless the diff sets one. *)
Theorem apply_edits (d : GraphDiff) (g : Graph) (Hids : NoDup (ids (nodes g))) :
  match apply g d with
  | (Ok _, g') =>
      Forall (λ b, b_node b ∈ edited_ids d g) (d_bind d)
      ∧ ids (nodes g') = edited_ids d g ∧ NoDup (ids (nodes g'))
      ∧ (∀ i, node g' i = edited d g i)
      ∧ root g' = match d_root d with
                  | Some r => Some r
                  | None => r ← root g; if decide (r ∈ d_remove d) then None else Some r
                  end
  | (Err (Refused _), g') => g' = g ∧ ¬ Forall (λ b, b_node b ∈ edited_ids d g) (d_bind d)
  | (Err Panic, _) => False
  end.
Proof. exact (apply_edits_gen d g Hids). Qed.

(** C37. The diff between two graphs takes the one to the other: applied, it succeeds
    and gives the target's root, and for every id the target's node, bindings that
    read a removed node and a root the target does not root included; the nodes
    kept come first, in their order, then the others in the target's. *)
Theorem diff_takes_to_target (a b : Graph) (Ha : NoDup (ids (nodes a))) (Hb : NoDup (ids (nodes b))) :
  ∃ g, apply a (diff a b) = (Ok tt, g) ∧ root g = root b
       ∧ ids (nodes g) = kept_ids a b ++ filter (λ i, i ∉ kept_ids a b) (ids (nodes b))
       ∧ ∀ i, option_Forall2 node_same (node g i) (node b i).
Proof. exact (edit_reaches a b Ha Hb). Qed.

(** A graph is its own target: where no bound value holds a NaN, the diff to
    itself is empty. *)
Theorem diff_self (g : Graph) (Hids : NoDup (ids (nodes g)))
    (Heq : Forall (λ n, map_Forall (λ _ s, source_eqb s s = true) (bind n)) (nodes g)) :
  diff g g = diff_default.
Proof.
  assert (unrooted g g = None) as Hu by (unfold unrooted; by destruct (root g)).
  assert (removals g g = []) as Hr.
  { unfold removals. rewrite Hu, app_nil_r. apply filter_none.
    intros i Hi [Hn|]; [|done]. rewrite collect_lookup in Hn by done. by apply node_in_None in Hn. }
  unfold diff. rewrite Hr, diff_nodes. simpl.
  assert (∀ n, n ∈ nodes g → old_of ∅ (collect (nodes g)) n = Some n) as Hold.
  { intros n Hn. unfold old_of. rewrite bool_decide_false by set_solver.
    rewrite collect_lookup by done. by apply node_in_unique. }
  assert (∀ n, n ∈ nodes g → whole ∅ (collect (nodes g)) n = false) as Hw.
  { intros n Hn. unfold whole. rewrite (Hold n Hn), Z.eqb_refl. by rewrite bool_decide_true. }
  assert (filter (λ n, whole ∅ (collect (nodes g)) n = true) (nodes g) = []) as ->.
  { apply filter_none. intros n Hn. by rewrite Hw. }
  rewrite !bind_none.
  - destruct (root g); [|done]. by rewrite !bool_decide_true.
  - intros n Hn. unfold rebounds. rewrite Hold, Hw by done. unfold rebound.
    rewrite filter_none; [done|]. intros [p s] Hs%bt_iter_elem. simpl. rewrite Hs. simpl.
    rewrite Forall_forall in Heq. rewrite (Heq n Hn p s Hs). intros [?|Hr']; [done|].
    unfold reads_removed in Hr'. destruct (source_port s); [|done].
    apply bool_decide_eq_true in Hr'. set_solver.
  - intros n Hn. unfold unbounds. rewrite Hold, Hw by done. unfold unbound.
    rewrite filter_none; [done|]. intros [p s] Hs%bt_iter_elem [Hnone _]. simpl in Hnone. congruence.
Qed.

(** ** The theorems on two graphs that differ in every way a diff tells *)
Definition leaf_node (i f : Uuid) (bindings : list (Uuid * Source)) : Node :=
  mkNode i f (list_to_map bindings) None.
Definition graph_a : Graph := mkGraph (Some 1) [
  mkNode 1 0xF0 ∅ (Some [2; 3]);
  leaf_node 2 0xF1 [(0xA, Value (Value.F64 1)); (0xB, Key "in")];
  leaf_node 3 0xF1 [(0xA, Port_ (mkPort 4 0xC))];
  leaf_node 4 0xF2 [];
  leaf_node 5 0xF3 [(0xA, Key "out")]].
Definition graph_b : Graph := mkGraph None [
  mkNode 1 0xF0 ∅ (Some [3; 2]);
  leaf_node 2 0xF1 [(0xA, Value (Value.F64 2)); (0xC, Key "new")];
  leaf_node 3 0xF1 [(0xA, Select (Port_ (mkPort 1 0xC)) (mkKey ".x"))];
  leaf_node 5 0xF4 [(0xA, Key "out")];
  leaf_node 6 0xF5 []].

Example graph_a_unique : NoDup (ids (nodes graph_a)).
Proof. vm_compute. repeat constructor; set_solver. Qed.
Example graph_b_unique : NoDup (ids (nodes graph_b)).
Proof. vm_compute. repeat constructor; set_solver. Qed.

Lemma diff_takes_to_target_witness :
  ∃ g, apply graph_a (diff graph_a graph_b) = (Ok tt, g) ∧ root g = None ∧ ids (nodes g) = [2; 3; 5; 1; 6].
Proof.
  destruct (diff_takes_to_target graph_a graph_b graph_a_unique graph_b_unique) as (g & Hg & Hr & Hi & _).
  exists g. split; [exact Hg|]. split; [exact Hr|]. rewrite Hi. vm_compute. reflexivity.
Defined.

Lemma apply_edits_witness :
  ∃ n, apply graph_a (mkGraphDiff [2] [] [] [mkBinding 2 0xA (Key "out")] None) = (Err (Refused n), graph_a).
Proof.
  pose proof (apply_edits (mkGraphDiff [2] [] [] [mkBinding 2 0xA (Key "out")] None) graph_a graph_a_unique) as H.
  destruct (apply graph_a _) as [[?|[e|]] g] eqn:Ha.
  - vm_compute in Ha. discriminate Ha.
  - exists e. destruct H as [H _]. by rewrite H.
  - destruct H.
Defined.

Lemma diff_self_witness : diff graph_b graph_b = diff_default.
Proof.
  apply (diff_self graph_b graph_b_unique).
  apply Forall_forall. intros n Hn p s Hp%elem_of_map_to_list.
  repeat (apply elem_of_cons in Hn as [->|Hn]; [|]); [..|by inversion Hn]; vm_compute in Hp;
    repeat (apply elem_of_cons in Hp as [[= -> ->]|Hp]; [reflexivity|]); by inversion Hp.
Defined.
