(* ===== verification/GraphLowering.v ===== *)
(** * From a graph to a tree's nodes: [crates/arora-behavior-tree/src/graph.rs]

    A graph's nodes lower to the schema nodes a tree is loaded from, the root
    first and the others by id, a key bound by a port becoming the variable it
    names. The id of a key's variable is a version-5 [Uuid] of the key, which the
    [uuid] crate computes. *)

From S2P Require Import Prelude Values Extern Keys Store Nodes Schema Graphs.

(** [Uuid::new_v5] *)
Class UuidV5 := { new_v5 : Uuid → list byte → Uuid }.

Definition KEY_NAMESPACE : Uuid := 0xbeed0a7b1d2f4877ab4f1be522a521aa.

Section GraphLowering.
Context `{V5 : UuidV5} {Slot : Type}.
Local Abbreviation Expression := (Expression Slot).
Local Abbreviation Variables := (gmap Uuid string).

Definition key_variable (key : string) : Uuid := new_v5 KEY_NAMESPACE (str_bytes key).

(** [variables.entry(id).or_insert_with(|| key.clone())] *)
Definition add_key (vars : Variables) (key : string) : Variables :=
  match vars !! key_variable key with Some _ => vars | None => <[key_variable key := key]> vars end.

Fixpoint source_to_expression (source : graph.Source) (vars : Variables) : Expression * Variables :=
  match source with
  | graph.Value value => (Expression.Value value, vars)
  | graph.Key key => (Expression.VariableId (key_variable key), add_key vars key)
  | graph.Port_ port =>
      (Expression.NodeArgument (mkNodeParameterId (graph.port_node port) (graph.port_port port)), vars)
  | graph.Select source path =>
      let '(e, vars) := source_to_expression source vars in (Expression.Select e path, vars)
  end.

(** The binds of a node, and the nodes, one after the other: the variables found
    so far go through. *)
Fixpoint lower_binds (binds : list (Uuid * graph.Source)) (vars : Variables)
    : list (Uuid * Expression) * Variables :=
  match binds with
  | [] => ([], vars)
  | (port, source) :: binds =>
      let '(e, vars) := source_to_expression source vars in
      let '(es, vars) := lower_binds binds vars in ((port, e) :: es, vars)
  end.
Definition lower_node (n : graph.Node) (vars : Variables) : Node Slot * Variables :=
  let '(es, vars) := lower_binds (bt_iter (graph.bind n)) vars in
  (mkNode (graph.id n) (graph.function n) (list_to_map es) (graph.children n), vars).
Fixpoint lower_nodes (ns : list graph.Node) (vars : Variables) : list (Node Slot) * Variables :=
  match ns with
  | [] => ([], vars)
  | n :: ns =>
      let '(n, vars) := lower_node n vars in
      let '(ns, vars) := lower_nodes ns vars in (n :: ns, vars)
  end.

(** [ordered.sort_by_key(|node| (graph.root != Some(node.id), node.id))] *)
Definition not_root (root : option Uuid) (i : Uuid) : Z := if bool_decide (root = Some i) then 0 else 1.
Definition order_le (root : option Uuid) (i j : Uuid) : Prop :=
  not_root root i < not_root root j ∨ (not_root root i = not_root root j ∧ i <= j).
#[export] Instance order_le_dec root : RelDecision (order_le root).
Proof. intros i j. unfold order_le. apply _. Defined.
Definition node_le (root : option Uuid) (n m : graph.Node) : Prop := order_le root (graph.id n) (graph.id m).
#[export] Instance node_le_dec root : RelDecision (node_le root) := λ n m, order_le_dec root _ _.
Definition ordered_nodes (g : graph.Graph) : list graph.Node :=
  merge_sort (node_le (graph.root g)) (graph.nodes g).

Definition lower_graph (g : graph.Graph) : result BehaviorTreeError (list (Node Slot) * Variables) :=
  match (match graph.root g with
         | Some root => match node g root with None => Some root | Some _ => None end
         | None => None
         end) with
  | Some root => Err (InconsistentTreeError (RootNotANode root))
  | None => Ok (lower_nodes (ordered_nodes g) ∅)
  end.

Definition graph_to_bt_nodes (g : graph.Graph) : result BehaviorTreeError (list (Node Slot)) :=
  match lower_graph g with Ok (ns, _) => Ok ns | Err e => Err e end.

(** ** What it comes to *)
Fixpoint expression_of (source : graph.Source) : Expression :=
  match source with
  | graph.Value value => Expression.Value value
  | graph.Key key => Expression.VariableId (key_variable key)
  | graph.Port_ port =>
      Expression.NodeArgument (mkNodeParameterId (graph.port_node port) (graph.port_port port))
  | graph.Select source path => Expression.Select (expression_of source) path
  end.
Fixpoint source_keys (source : graph.Source) : list string :=
  match source with
  | graph.Key key => [key]
  | graph.Select source _ => source_keys source
  | _ => []
  end.
Definition lowered_node (n : graph.Node) : Node Slot :=
  mkNode (graph.id n) (graph.function n) (expression_of <$> graph.bind n) (graph.children n).
Definition node_keys (n : graph.Node) : list string := bt_iter (graph.bind n) ≫= λ e, source_keys e.2.

Lemma source_to_expression_eq s vars :
  source_to_expression s vars = (expression_of s, foldl add_key vars (source_keys s)).
Proof. revert vars. induction s as [| | |s IH p]; intros vars; [done..|]. simpl. by rewrite IH. Qed.
Lemma lower_binds_eq l vars :
  lower_binds l vars = (prod_map Datatypes.id expression_of <$> l,
                        foldl add_key vars (l ≫= λ e, source_keys e.2)).
Proof.
  revert vars. induction l as [|[p s] l IH]; intros vars; [done|].
  simpl. rewrite source_to_expression_eq, IH. by rewrite foldl_app.
Qed.
Lemma bt_iter_map {A} (m : gmap Uuid A) : list_to_map (bt_iter m) = m.
Proof.
  apply map_eq. intros i. unfold bt_iter. rewrite <- (list_to_map_to_list m) at 2.
  assert (merge_sort bt_le (map_to_list m) ≡ₚ map_to_list m) as Hp by apply merge_sort_Permutation.
  f_equal. apply list_to_map_proper; [|done]. rewrite Hp. apply NoDup_fst_map_to_list.
Qed.
Lemma lower_node_eq n vars : lower_node n vars = (lowered_node n, foldl add_key vars (node_keys n)).
Proof.
  unfold lower_node, lowered_node, node_keys. rewrite lower_binds_eq. f_equal. f_equal.
  rewrite <- (bt_iter_map (graph.bind n)) at 2. by rewrite list_to_map_fmap.
Qed.
Lemma lower_nodes_eq ns vars :
  lower_nodes ns vars = (lowered_node <$> ns, foldl add_key vars (ns ≫= node_keys)).
Proof.
  revert vars. induction ns as [|n ns IH]; intros vars; [done|].
  simpl. rewrite lower_node_eq, IH. by rewrite foldl_app.
Qed.

Lemma lower_graph_eq g :
  (∀ r, graph.root g = Some r → r ∈ ids (graph.nodes g)) →
  lower_graph g = Ok (lowered_node <$> ordered_nodes g, foldl add_key ∅ (ordered_nodes g ≫= node_keys)).
Proof.
  intros Hr. unfold lower_graph. rewrite lower_nodes_eq. destruct (graph.root g) as [r|]; [|done].
  destruct (node_in_elem _ _ (Hr r eq_refl)) as (n & Hn & _). unfold node. by rewrite Hn.
Qed.

(** ** The order *)
#[export] Instance order_le_trans root : Transitive (order_le root).
Proof. intros i j k. unfold order_le. lia. Qed.
#[export] Instance order_le_total root : Total (order_le root).
Proof. intros i j. unfold order_le. lia. Qed.
Lemma order_le_antisym root i j : order_le root i j → order_le root j i → i = j.
Proof. unfold order_le. lia. Qed.
#[export] Instance node_le_trans root : Transitive (node_le root).
Proof. intros n m o. unfold node_le. apply order_le_trans. Qed.
#[export] Instance node_le_total root : Total (node_le root).
Proof. intros n m. apply order_le_total. Qed.

Lemma ordered_perm g : ordered_nodes g ≡ₚ graph.nodes g.
Proof. apply merge_sort_Permutation. Qed.
Lemma ordered_sorted g : StronglySorted (node_le (graph.root g)) (ordered_nodes g).
Proof. apply StronglySorted_merge_sort; apply _. Qed.

(** Two sorted listings with the same ids, apart from what their nodes hold. *)
Lemma ids_sorted root ns : StronglySorted (node_le root) ns → StronglySorted (order_le root) (ids ns).
Proof.
  induction 1 as [|n ns Hs IH Hn]; constructor; [done|]. apply Forall_fmap. eapply Forall_impl; [exact Hn|]. done.
Qed.
Lemma ordered_ids g h :
  graph.root g = graph.root h → ids (graph.nodes g) ≡ₚ ids (graph.nodes h) →
  ids (ordered_nodes g) = ids (ordered_nodes h).
Proof.
  intros Hr Hp. apply (StronglySorted_unique_strong (order_le (graph.root g))).
  - intros i j _ _. apply order_le_antisym.
  - apply ids_sorted, ordered_sorted.
  - rewrite Hr. apply ids_sorted, ordered_sorted.
  - by rewrite !ordered_perm.
Qed.
Lemma ids_NoDup_perm g : NoDup (ids (graph.nodes g)) → NoDup (ids (ordered_nodes g)).
Proof. by rewrite ordered_perm. Qed.
Lemma ordered_node_in g i : NoDup (ids (graph.nodes g)) → node_in (ordered_nodes g) i = node g i.
Proof.
  intros Hd. unfold node. destruct (node_in (graph.nodes g) i) as [n|] eqn:Hn.
  - apply node_in_Some in Hn as [Hn <-]. apply node_in_unique; [by apply ids_NoDup_perm|by rewrite ordered_perm].
  - apply node_in_None. apply node_in_None in Hn. by rewrite ordered_perm.
Qed.

Lemma lookups_Forall2 (P : graph.Node → graph.Node → Prop) ns ms :
  ids ns = ids ms → NoDup (ids ns) →
  (∀ i, option_Forall2 P (node_in ns i) (node_in ms i)) → Forall2 P ns ms.
Proof.
  revert ms. induction ns as [|n ns IH]; intros [|m ms] Hi Hd Hp; try done.
  rewrite !fmap_cons in Hi. injection Hi as Hid Hi. rewrite fmap_cons in Hd. apply NoDup_cons in Hd as [Hn Hd].
  constructor.
  - specialize (Hp (graph.id n)). rewrite !node_in_cons, !decide_True in Hp by done. by inversion Hp.
  - apply IH; [done..|]. intros i. specialize (Hp i). rewrite !node_in_cons, <- Hid in Hp.
    destruct (decide (graph.id n = i)) as [<-|]; [|done].
    rewrite (proj2 (node_in_None _ _) Hn), (proj2 (node_in_None ms _)) by (by rewrite <- Hi). constructor.
Qed.

(** ** What lowers alike *)
Definition expression_same (e f : Expression) : Prop :=
  ∃ s t, source_same s t ∧ e = expression_of s ∧ f = expression_of t.
Definition lowered_same (n m : Node Slot) : Prop :=
  n_id n = n_id m ∧ n_function n = n_function m ∧ n_children n = n_children m
  ∧ ∀ p, option_Forall2 expression_same (n_arguments n !! p) (n_arguments m !! p).

Lemma lowered_node_same n m : node_same n m → lowered_same (lowered_node n) (lowered_node m).
Proof.
  intros (Hi & Hf & Hc & Hb). unfold lowered_same, lowered_node; simpl. split; [done|]. split; [done|]. split; [done|].
  intros p. rewrite !lookup_fmap. destruct (Hb p) as [s t Hst|]; constructor. by exists s, t.
Qed.
Lemma source_same_keys s t : source_same s t → source_keys s = source_keys t.
Proof.
  intros [->|H]; [done|]. revert t H. induction s as [v|k|p|s IH q]; intros [] H; try done; simpl in *.
  - by apply bool_decide_eq_true in H as ->.
  - apply andb_prop in H as [H _]. by apply IH.
Qed.
Lemma Forall2_by_keys {K A B} (P : A → B → Prop) (l : list (K * A)) (k : list (K * B)) :
  l.*1 = k.*1 → (∀ i a b, (i, a) ∈ l → (i, b) ∈ k → P a b) →
  Forall2 (λ a b, a.1 = b.1 ∧ P a.2 b.2) l k.
Proof.
  intros He Hp. apply Forall2_same_length_lookup_2.
  - by rewrite <- (length_fmap fst l), <- (length_fmap fst k), He.
  - intros i [x a] [y b] Ha Hb. simpl.
    assert (x = y) as <-.
    { apply (f_equal (.!! i)) in He. rewrite !list_lookup_fmap, Ha, Hb in He. by injection He. }
    split; [done|]. eapply Hp; by eapply list_elem_of_lookup_2.
Qed.

#[local] Instance bt_le_trans {A} : Transitive (@bt_le A).
Proof. intros a b c. unfold bt_le. lia. Qed.
#[local] Instance bt_le_total {A} : Total (@bt_le A).
Proof. intros a b. unfold bt_le. lia. Qed.
Lemma bt_keys_sorted {A} (m : gmap Uuid A) : StronglySorted Z.le (bt_iter m).*1.
Proof.
  assert (StronglySorted bt_le (bt_iter m)) as Hs by (apply StronglySorted_merge_sort; apply _).
  induction Hs as [|[p a] l Hs IH Hp]; constructor; [done|]. by apply Forall_fmap.
Qed.
Lemma bt_keys_NoDup {A} (m : gmap Uuid A) : NoDup (bt_iter m).*1.
Proof.
  unfold bt_iter. assert (merge_sort bt_le (map_to_list m) ≡ₚ map_to_list m) as -> by apply merge_sort_Permutation.
  apply NoDup_fst_map_to_list.
Qed.
Lemma bt_keys_elem {A} (m : gmap Uuid A) p : p ∈ (bt_iter m).*1 ↔ is_Some (m !! p).
Proof.
  rewrite list_elem_of_fmap. split.
  - intros ([q a] & -> & H%bt_iter_elem). by exists a.
  - intros [a H]. exists (p, a). split; [done|]. by apply bt_iter_elem.
Qed.
Lemma bt_iter_same (m n : gmap Uuid graph.Source) :
  (∀ p, option_Forall2 source_same (m !! p) (n !! p)) →
  Forall2 (λ a b, a.1 = b.1 ∧ source_same a.2 b.2) (bt_iter m) (bt_iter n).
Proof.
  intros H. apply Forall2_by_keys.
  - apply (StronglySorted_unique_strong Z.le); [intros; lia|apply bt_keys_sorted..|].
    apply NoDup_Permutation; [apply bt_keys_NoDup..|]. intros p. rewrite !bt_keys_elem.
    destruct (H p); [|done]. by split.
  - intros p s t Hs%bt_iter_elem Ht%bt_iter_elem. specialize (H p). rewrite Hs, Ht in H. by inversion H.
Qed.

Lemma node_same_keys n m : node_same n m → node_keys n = node_keys m.
Proof.
  intros (_ & _ & _ & Hb). unfold node_keys.
  induction (bt_iter_same _ _ Hb) as [|[p s] [q t] l k [_ Hst] _ IH]; [done|].
  rewrite !bind_cons, IH. f_equal. by apply source_same_keys.
Qed.

Lemma nodes_same_keys ns ms : Forall2 node_same ns ms → (ns ≫= node_keys) = (ms ≫= node_keys).
Proof.
  induction 1 as [|n m ns ms H _ IH]; [done|]. rewrite !bind_cons, IH. f_equal. by apply node_same_keys.
Qed.

(** ** The variables *)

(** No two of [keys] share an id. *)
Definition apart (keys : list string) : Prop :=
  ∀ k l, k ∈ keys → l ∈ keys → key_variable k = key_variable l → k = l.

Lemma add_keys_spec keys (vars : Variables) :
  (∀ i k, vars !! i = Some k → i = key_variable k) →
  ∀ i k, foldl add_key vars keys !! i = Some k →
         i = key_variable k ∧ (vars !! i = Some k ∨ k ∈ keys).
Proof.
  revert vars. induction keys as [|k0 keys IH]; intros vars Hv i k H; [auto|]. simpl in H.
  apply IH in H as [-> H].
  - split; [done|]. destruct H as [H|H]; [|set_solver]. unfold add_key in H.
    destruct (vars !! key_variable k0) eqn:Hk; [by left|].
    apply lookup_insert_Some in H as [[_ ->]|[_ H]]; [set_solver|by left].
  - intros j l. unfold add_key. destruct (vars !! key_variable k0); [apply Hv|].
    intros [[<- <-]|[_ Hj]]%lookup_insert_Some; [done|by apply Hv].
Qed.
Lemma add_keys_kept keys (vars : Variables) i : is_Some (vars !! i) → is_Some (foldl add_key vars keys !! i).
Proof.
  revert vars. induction keys as [|k keys IH]; intros vars H; [done|]. simpl. apply IH. unfold add_key.
  destruct (vars !! key_variable k); [done|]. rewrite lookup_insert_is_Some. destruct (decide (key_variable k = i)); auto.
Qed.
Lemma add_keys_found keys (vars : Variables) k :
  k ∈ keys → is_Some (foldl add_key vars keys !! key_variable k).
Proof.
  revert vars. induction keys as [|k0 keys IH]; intros vars; [by inversion 1|].
  intros [->|Hk]%elem_of_cons; simpl; [|by apply IH]. apply add_keys_kept. unfold add_key.
  destruct (vars !! key_variable k0) eqn:H; [by rewrite H|by rewrite lookup_insert_eq].
Qed.

(** ** What the lowering promises *)

(** A graph whose root is one of its nodes lowers to one schema node per node,
    the root first and the others by id; each keeps its function and children,
    every binding is the expression of its source, and the variable of every key a
    port binds has that key for name, as long as no two keys share an id. *)
Theorem lowering_keeps_nodes (g : graph.Graph) (Hids : NoDup (ids (graph.nodes g)))
    (Hroot : ∀ r, graph.root g = Some r → r ∈ ids (graph.nodes g))
    (Hapart : apart (graph.nodes g ≫= node_keys)) :
  ∃ ns vars, lower_graph g = Ok (ns, vars)
    ∧ n_id <$> ns ≡ₚ ids (graph.nodes g) ∧ StronglySorted (order_le (graph.root g)) (n_id <$> ns)
    ∧ (∀ r, graph.root g = Some r → head (n_id <$> ns) = Some r)
    ∧ (∀ n, n ∈ graph.nodes g → lowered_node n ∈ ns)
    ∧ (∀ i k, vars !! i = Some k ↔ i = key_variable k ∧ k ∈ (graph.nodes g ≫= node_keys)).
Proof.
  assert (n_id <$> (lowered_node <$> ordered_nodes g) = ids (ordered_nodes g)) as Hmap
    by (rewrite <- list_fmap_compose; done).
  assert ((ordered_nodes g ≫= node_keys) ≡ₚ (graph.nodes g ≫= node_keys)) as Hk by (by rewrite ordered_perm).
  eexists _, _. split; [by apply lower_graph_eq|]. rewrite Hmap. split; [by rewrite ordered_perm|].
  split; [apply ids_sorted, ordered_sorted|]. split; [|split].
  - intros r Hr. pose proof (ids_sorted _ _ (ordered_sorted g)) as Hs.
    assert (r ∈ ids (ordered_nodes g)) as Hin by (rewrite ordered_perm; auto).
    destruct (ids (ordered_nodes g)) as [|i l]; [by inversion Hin|]. simpl. f_equal.
    apply elem_of_cons in Hin as [?|Hin]; [done|]. apply StronglySorted_inv in Hs as [_ Hs].
    rewrite Forall_forall in Hs. specialize (Hs r Hin). unfold order_le, not_root in Hs. rewrite Hr in Hs.
    rewrite (bool_decide_true (Some r = Some r)) in Hs by done. case_bool_decide; [congruence|]. lia.
  - intros n Hn. apply list_elem_of_fmap_2. by rewrite ordered_perm.
  - intros i k. rewrite <- Hk. split.
    + intros H. destruct (add_keys_spec _ ∅ ltac:(intros ??; by rewrite lookup_empty) i k H) as [-> [Hx|Hx]];
        [by rewrite lookup_empty in Hx|done].
    + intros [-> Hin]. destruct (add_keys_found _ ∅ k Hin) as [l Hl]. rewrite Hl. f_equal.
      destruct (add_keys_spec _ ∅ ltac:(intros ??; by rewrite lookup_empty) _ _ Hl) as [He [Hx|Hx]];
        [by rewrite lookup_empty in Hx|]. apply Hapart; [by rewrite <- Hk..|done].
Qed.

(** A graph edited into another lowers as the other does: applying the diff
    between them gives the same nodes in the same order, for the same variables,
    whatever the order the edit leaves its nodes in. *)
Theorem edited_graph_lowers_alike (a b g : graph.Graph)
    (Ha : NoDup (ids (graph.nodes a))) (Hb : NoDup (ids (graph.nodes b)))
    (Hroot : ∀ r, graph.root b = Some r → r ∈ ids (graph.nodes b))
    (Hedit : apply a (diff a b) = (Ok tt, g)) :
  ∃ ns ms vars, lower_graph g = Ok (ns, vars) ∧ lower_graph b = Ok (ms, vars) ∧ Forall2 lowered_same ns ms.
Proof.
  destruct (edit_reaches a b Ha Hb) as (g' & Hg & Hr & Hi & Hn). assert (g' = g) as -> by congruence.
  assert (ids (graph.nodes g) ≡ₚ ids (graph.nodes b)) as Hp.
  { apply NoDup_Permutation; [|done|].
    - rewrite Hi. apply NoDup_app. split; [by apply NoDup_filter|]. split; [|by apply NoDup_filter].
      by intros i Hk [? _]%list_elem_of_filter.
    - intros i. specialize (Hn i). unfold node in Hn. split; intros (n & Hx & _)%node_in_elem;
        rewrite Hx in Hn; inversion Hn as [n1 n2 _ E1 E2|]; symmetry in E1, E2;
        [apply node_in_Some in E2 as [E2 <-]|apply node_in_Some in E1 as [E1 <-]];
        by apply list_elem_of_fmap_2. }
  assert (NoDup (ids (graph.nodes g))) as Hg' by (by rewrite Hp).
  assert (Forall2 node_same (ordered_nodes g) (ordered_nodes b)) as Hsame.
  { apply lookups_Forall2; [by apply ordered_ids|by apply ids_NoDup_perm|].
    intros i. rewrite !ordered_node_in by done. apply Hn. }
  exists (lowered_node <$> ordered_nodes g), (lowered_node <$> ordered_nodes b),
    (foldl add_key ∅ (ordered_nodes b ≫= node_keys)).
  split; [|split; [by apply lower_graph_eq|]].
  - rewrite lower_graph_eq by (intros r H; rewrite Hp; apply Hroot; congruence). by rewrite (nodes_same_keys _ _ Hsame).
  - apply Forall2_fmap. eapply Forall2_impl; [exact Hsame|]. intros n m. apply lowered_node_same.
Qed.
End GraphLowering.

(** ** The theorems on concrete graphs *)

(** A concrete digest, for short keys one to one. *)
Definition short_v5 : UuidV5 := {| new_v5 ns bs := (ns + le_Z bs) mod 2 ^ 128 |}.
Definition rooted_b : graph.Graph := graph.mkGraph (Some 5) (graph.nodes graph_b).

Lemma lowering_keeps_nodes_witness :
  ∃ (ns : list (Node Empty_set)) vars,
    lower_graph (V5 := short_v5) rooted_b = Ok (ns, vars) ∧ head (n_id <$> ns) = Some 5
    ∧ vars !! key_variable (V5 := short_v5) "out" = Some "out"%string.
Proof.
  destruct (lowering_keeps_nodes (V5 := short_v5) (Slot := Empty_set) rooted_b graph_b_unique)
    as (ns & vars & Hl & _ & _ & Hr & _ & Hv).
  - intros r [= <-]. vm_compute. repeat constructor.
  - assert ((graph.nodes rooted_b ≫= node_keys) = ["new"; "out"]%string) as -> by (vm_compute; reflexivity).
    intros k l [->|[->|Hk]%elem_of_cons]%elem_of_cons [->|[->|Hl]%elem_of_cons]%elem_of_cons H;
      try reflexivity; try (by inversion Hk); try (by inversion Hl); vm_compute in H; discriminate H.
  - exists ns, vars. split; [exact Hl|]. split; [exact (Hr 5 eq_refl)|].
    apply Hv. split; [reflexivity|]. vm_compute. repeat constructor.
Defined.

Lemma edited_graph_lowers_alike_witness :
  ∃ (ns ms : list (Node Empty_set)) vars,
    lower_graph (V5 := short_v5) (apply graph_a (diff graph_a rooted_b)).2 = Ok (ns, vars)
    ∧ lower_graph (V5 := short_v5) rooted_b = Ok (ms, vars) ∧ Forall2 (lowered_same (V5 := short_v5)) ns ms.
Proof.
  apply (edited_graph_lowers_alike (V5 := short_v5) graph_a rooted_b _ graph_a_unique graph_b_unique).
  - intros r [= <-]. vm_compute. repeat constructor.
  - vm_compute. reflexivity.
Defined.
