(* ===== verification/Cells.v ===== *)
(** * The world a tree ticks over: [crates/arora-behavior-tree/src/variable.rs],
    [scatter.rs] (what a [Scatter] keeps between ticks), [behavior_tree.rs] (the
    [TickFunction] a node is lowered to) and the callables of
    [crates/arora-engine/src/call.rs]

    A tick reads and writes tree-local cells, the store's slots, what the
    [Scatter] nodes keep and the callables registered; what else a module call
    may change is [outside]. The store is any [DataStore]. The cells of a world
    are seen through [place]s: the tree-local places and the store's keys. *)

From S2P Require Import Prelude Values Extern Keys State Store Effects Nodes Schema.

Section Cells.
Context {S X : Type} `{DS : DataStore S}.

Local Abbreviation Slot := (@SlotHandle S _).
Local Abbreviation Cell := (VariableCell Slot).

(** ** [struct Bound], [struct Scatter], [enum Outputs], [struct TickFunction] *)
Record Bound := mkBound { b_keys : option Value; b_slots : list Slot }.
Definition bound_default : Bound := mkBound None [].

(** [Option<Rc<VariableResolver>>]: [None] until the tree is given one. *)
Definition Resolver : Type := string → S → option Slot * S.
Record Scatter := mkScatter { scatter_node : Uuid; within : string; resolver : option Resolver }.

Inductive Outputs :=
| Ports (cells : list (option Cell))
| OutKeys (scatter : Scatter).

(** The cells and signatures a node's expressions are evaluated against. *)
Record Scope := mkScope {
  variables : gmap Uuid Cell;
  node_parameters_variables : gmap NodeParameterId Cell;
  calls : FunctionIndex;
}.

Record TickFunction := mkTickFunction {
  tf_node : Node Slot;
  tf_function : option ModuleFunction;
  tf_scope : Scope;
  tf_argument_order : list Uuid;
  tf_outputs : option Outputs;
  tf_children : list TickId;
}.

(** ** The world *)
Record World := mkWorld {
  heap : gmap nat (option Value);
  store : S;
  bound : gmap Uuid Bound;
  callables_by_id : gmap Z TickFunction;
  outside : X;
}.
Definition with_heap (h : gmap nat (option Value)) (w : World) : World :=
  mkWorld h (store w) (bound w) (callables_by_id w) (outside w).
Definition with_store (s : S) (w : World) : World :=
  mkWorld (heap w) s (bound w) (callables_by_id w) (outside w).
Definition with_bound (b : gmap Uuid Bound) (w : World) : World :=
  mkWorld (heap w) (store w) b (callables_by_id w) (outside w).
Definition with_callables (c : gmap Z TickFunction) (w : World) : World :=
  mkWorld (heap w) (store w) (bound w) c (outside w).

(** ** [impl VariableCell] *)
Definition get (c : Cell) (w : World) : option Value :=
  match c with
  | Local l => default None (heap w !! l)
  | Stored slot => slot_get slot (store w)
  end.
Definition get_or_unit (c : Cell) (w : World) : Value := default Value.Unit (get c w).
(** [let _ = slot.set(value)]: a write the store refuses is not reported. *)
Definition slot_put (slot : Slot) (value : option Value) (w : World) : World :=
  match slot_set slot value (store w) with
  | Ok s => with_store s w
  | Err _ => w
  end.
Definition set_opt (c : Cell) (value : option Value) (w : World) : World :=
  match c with
  | Local l => with_heap (<[ l := value ]> (heap w)) w
  | Stored slot => slot_put slot value w
  end.
Definition set (c : Cell) (value : Value) (w : World) : World := set_opt c (Some value) w.
(** [VariableCell::local_with(value)] *)
Definition local_with (value : Value) (w : World) : Cell * World :=
  let l := fresh (dom (heap w)) in (Local l, with_heap (<[ l := Some value ]> (heap w)) w).

(** A value that stands for nothing: [Some(value).filter(|v| *v != Value::Unit)]. *)
Definition is_unit (v : Value) : bool := value_eqb v Value.Unit.
Definition not_unit (v : Value) : option Value := if is_unit v then None else Some v.

(** ** [argument_value] and [write_back] of [behavior_tree.rs] *)
Definition argument_value (value : option Value) (optional : bool) : Value :=
  match value, optional with
  | Some (Value.Option o), _ => Value.Option o
  | Some value, true => Value.Option (Some value)
  | Some value, false => value
  | None, true => Value.Option None
  | None, false => Value.Unit
  end.
Definition write_back (c : Cell) (value : Value) (optional : bool) (w : World) : World :=
  match value, optional with
  | Value.Option (Some value), true => set c value w
  | Value.Option None, true => match get c w with Some _ => set_opt c None w | None => w end
  | value, _ => set c value w
  end.

(** [get_variable], [get_node_parameter_variable] *)
Definition get_variable (vars : gmap Uuid Cell) (variable_id node_id : Uuid) : result BehaviorTreeError Cell :=
  match vars !! variable_id with
  | Some c => Ok c
  | None => Err (VariableNotFound variable_id node_id)
  end.
Definition get_node_parameter_variable (p : NodeParameterId) (cells : gmap NodeParameterId Cell) :
    result BehaviorTreeError Cell :=
  match cells !! p with
  | Some c => Ok c
  | None => Err (InconsistentTreeError (ParameterWasNotFound p))
  end.
End Cells.

Arguments World S X {DS}.
Arguments Bound S {DS}.
Arguments Scatter S {DS}.
Arguments Outputs S {DS}.
Arguments Scope S {DS}.
Arguments TickFunction S {DS}.
Arguments Resolver S {DS}.

(** ** Places *)
Inductive place := PLocal (l : nat) | PKey (k : Key).
#[export] Instance place_eq_dec : EqDecision place.
Proof. solve_decision. Defined.

Section Places.
Context {S X : Type} `{DSL : DataStoreLaws S}.
Local Abbreviation Cell := (VariableCell (@SlotHandle S _)).
Local Abbreviation W := (World S X).
Implicit Types (w : W) (c : Cell) (p q : place).

Definition place_of (w : W) (c : Cell) (p : place) : Prop :=
  match c, p with
  | Local l, PLocal l' => l = l'
  | Stored h, PKey k => slot_of (store w) h k
  | _, _ => False
  end.

Definition value_at (w : W) (p : place) : option Value :=
  match p with
  | PLocal l => default None (heap w !! l)
  | PKey k => contents (store w) k
  end.

(** What a place that holds [old] holds once [new] is set: a store key keeps a
    value equal to the new one. *)
Definition new_at (p : place) (old new : option Value) : option Value :=
  match p with PLocal _ => new | PKey _ => keep old new end.

(** The world [w'] comes after [w]: slots and subscriptions stay valid, and
    nothing but cells has changed. *)
Definition cells_only (w w' : W) : Prop :=
  evolves (store w) (store w') ∧ bound w' = bound w ∧
  callables_by_id w' = callables_by_id w ∧ outside w' = outside w.

Definition ok_world (w : W) : Prop := ok (store w).

(** ** Lemmas *)
Lemma cells_only_refl w : ok_world w → cells_only w w.
Proof. intros Hok. split; [by apply evolves_refl|done]. Qed.

Lemma cells_only_trans w1 w2 w3 : cells_only w1 w2 → cells_only w2 w3 → cells_only w1 w3.
Proof.
  intros (E1 & B1 & C1 & O1) (E2 & B2 & C2 & O2).
  split_and!; [by eapply evolves_trans| congruence..].
Qed.

Lemma cells_only_ok w w' : cells_only w w' → ok_world w'.
Proof. by intros [[]]. Qed.

Lemma place_of_cells_only w w' c p : cells_only w w' → place_of w c p → place_of w' c p.
Proof. intros [(? & Hs & ?) _]. destruct c, p; simpl; auto. Qed.

Lemma get_place w c p : ok_world w → place_of w c p → get c w = value_at w p.
Proof.
  intros Hok Hp. destruct c as [l|h], p as [l'|k]; simpl in *; try done; [by subst|].
  by apply slot_get_law.
Qed.

Lemma set_opt_place w c p v : ok_world w → place_of w c p →
  cells_only w (set_opt c v w) ∧
  ∀ q, value_at (set_opt c v w) q = if decide (q = p) then new_at p (value_at w p) v else value_at w q.
Proof.
  intros Hok Hp. destruct c as [l|h], p as [l'|k]; simpl in Hp; try done.
  - subst l'. split; [split; [by apply evolves_refl|done]|]. intros [l'|k]; [|done].
    unfold value_at, set_opt, with_heap. cbn [heap new_at].
    destruct (decide (l' = l)) as [->|Hne]; [by rewrite lookup_insert_eq, decide_True by done|].
    rewrite lookup_insert_ne by done. rewrite decide_False by congruence. done.
  - destruct (slot_set_law (store w) h k v Hok Hp) as (s' & Hs & Hev & Hc).
    simpl. unfold slot_put. rewrite Hs. split; [by split|].
    intros [l|j]; [done|]. unfold value_at, with_store. cbn [store new_at]. rewrite Hc.
    destruct (decide (j = k)) as [->|Hne]; [by rewrite decide_True by done|].
    by rewrite decide_False by congruence.
Qed.

Lemma value_at_set w c p v : ok_world w → place_of w c p →
  value_at (set_opt c v w) p = new_at p (value_at w p) v.
Proof. intros Ho Hp. rewrite (proj2 (set_opt_place w c p v Ho Hp)). by rewrite decide_True. Qed.

Lemma keep_unset old : keep old None = None.
Proof. unfold keep. destruct old; simpl; done. Qed.

(** A place that is set to what it holds holds it still. *)
Lemma new_at_same p v : new_at p v v = v.
Proof. destruct p; simpl; [done|]. unfold keep. by case_match. Qed.

(** What a place holds after a set is the value, up to the equality of values. *)
Lemma new_at_like p old new : new_at p old new = new ∨ option_eqb value_eqb (new_at p old new) new = true.
Proof. destruct p; simpl; [by left|]. unfold keep. destruct (option_eqb _ old new) eqn:E; auto. Qed.

(** An optional parameter is its cell's presence: what [argument_value] passes
    of a value, [write_back] gives back to the cell; an absent value is passed as
    [None], which unsets the cell, and leaves an unset one as it is, store and
    all. Nothing but the cell changes. *)
Theorem optional_maps_presence w c p v : ok_world w → place_of w c p → (∀ o, v ≠ Some (Value.Option o)) →
  let w' := write_back c (argument_value v true) true w in
  (∀ q, value_at w' q = if decide (q = p) then new_at p (value_at w p) v else value_at w q) ∧
  cells_only w w' ∧ (v = None → value_at w p = None → w' = w).
Proof.
  intros Hok Hp Hv w'. destruct (set_opt_place w c p v Hok Hp) as [Hc Hq].
  destruct v as [v|].
  - assert (w' = set_opt c (Some v) w) as ->; [|naive_solver].
    subst w'. destruct v; try done. by destruct (Hv o).
  - subst w'. simpl. rewrite (get_place w c p Hok Hp). destruct (value_at w p) as [old|] eqn:Hold; [done|].
    split_and!; [|by apply cells_only_refl|done]. intros q.
    destruct (decide (q = p)) as [->|]; [|done]. by rewrite Hold, new_at_same.
Qed.
End Places.
