(* ===== verification/Expressions.v ===== *)
(** * Evaluating argument expressions: [compute_expression] and what it calls in
    [crates/arora-behavior-tree/src/behavior_tree.rs]

    A call expression is evaluated innermost call first and dispatched to the
    module it names through [arora_call], the host's: the code of a module, or of
    a guest the host runs, is not the tree's, and may change anything. *)

From S2P Require Import Prelude Values Extern Keys State Store Effects Nodes Schema Cells.

(** What the host answers a module call, a call back into the tree included. *)
Class CallBridge (S X : Type) `{DataStore S} := {
  arora_call : Call → World S X → result CallError CallResult * World S X;
}.

Section Expressions.
Context {S X : Type} `{DS : DataStore S} `{UC : UuidCrate} `{CB : !CallBridge S X} (usize_max : Z).
Local Abbreviation Slot := (@SlotHandle S _).
Local Abbreviation Cell := (VariableCell Slot).
Local Abbreviation M := (T (World S X) BehaviorTreeError).

Definition bridge_call (call : Call) : M CallResult := λ w,
  match arora_call call w with
  | (Ok r, w) => Some (Ok r, w)
  | (Err e, w) => Some (Err (CallErr e), w)
  end.

(** [Value::ArrayU8(uuid.as_bytes().to_vec())] *)
Definition uuid_value (u : Uuid) : Value := Value.ArrayU8 (byte_Z <$> as_bytes u).

Definition try_into_uuid (value : Value) (variable_id : option Uuid) : result BehaviorTreeError Uuid :=
  match value with
  | Value.ArrayU8 uuid_bytes =>
      match from_slice (Z_byte <$> uuid_bytes) with
      | Some uuid => Ok uuid
      | None => Err (ConversionError (NotUuidBytes variable_id))
      end
  | _ => Err (ConversionError (NotUuid variable_id))
  end.

Definition select_value (path : Key) (value : Value) : result BehaviorTreeError Value :=
  if is_unit value then Ok Value.Unit
  else match Keys.select usize_max path value with
       | Ok v => Ok v
       | Err message => Err (InconsistentTreeError (SelectFailed message))
       end.

(** [compute_uuid], given [compute_expression]. *)
Definition compute_uuid (scope : Scope S) (compute : Expression Slot → M Value) (e : Expression Slot)
    (node_parameter : NodeParameterId) : M Uuid :=
  match e with
  | Expression.Uuid uuid => mret uuid
  | Expression.VariableId variable_id =>
      c ← t_of (get_variable (variables scope) variable_id (np_node node_parameter));
      value ← t_gets (get_or_unit c);
      t_of (try_into_uuid value (Some variable_id))
  | e => value ← compute e; t_of (try_into_uuid value None)
  end.

Definition written_cell (scope : Scope S) (argument : Expression Slot) : option Cell :=
  match argument with
  | Expression.Variable_ c => Some c
  | Expression.VariableId id => variables scope !! id
  | Expression.NodeArgument p => node_parameters_variables scope !! p
  | _ => None
  end.

(** What the arguments of a call have been evaluated to: the fields passed, the
    cells they are written back to, the parameters that have none. *)
Record Evaluated := mkEvaluated {
  ev_args : list StructureField;
  ev_written : list (Uuid * Cell * bool);
  ev_unwritable : list Uuid;
}.
Definition add_argument (scope : Scope S) (f : option Function_) (arg_id : Uuid)
    (argument : Expression Slot) (value : Value) (ev : Evaluated) : Evaluated :=
  let optional := match f with Some f => is_optional f arg_id | None => false end in
  let args := ev_args ev ++ [mkStructureField arg_id (argument_value (not_unit value) optional)] in
  match written_cell scope argument with
  | Some c => mkEvaluated args (ev_written ev ++ [(arg_id, c, optional)]) (ev_unwritable ev)
  | None => mkEvaluated args (ev_written ev) (ev_unwritable ev ++ [arg_id])
  end.

(** The arguments of a call, in order, given [compute_expression]. *)
Definition evaluate (scope : Scope S) (compute : Expression Slot → M Value) (node_parameter : NodeParameterId)
    (f : option Function_) : list (Expression Slot * Expression Slot) → Evaluated → M Evaluated :=
  fix evaluate arguments ev :=
    match arguments with
    | [] => mret ev
    | (arg_id_expression, value_expression) :: arguments =>
        arg_id ← compute_uuid scope compute arg_id_expression node_parameter;
        value ← compute value_expression;
        evaluate arguments (add_argument scope f arg_id value_expression value ev)
    end.

(** The write-back of one mutated parameter of a call expression. *)
Definition call_write_back (node_parameter : NodeParameterId) (ev : Evaluated) (field : StructureField) :
    M unit :=
  match list_find (λ wr : Uuid * Cell * bool, wr.1.1 = sf_id field) (ev_written ev) with
  | Some (_, (_, c, optional)) => t_modify (write_back c (sf_value field) optional)
  | None =>
      if bool_decide (sf_id field ∈ ev_unwritable ev)
      then t_fail (InconsistentTreeError (WritesBackNoCell node_parameter (sf_id field)))
      else mret tt
  end.

Fixpoint compute_expression (scope : Scope S) (node_parameter : NodeParameterId)
    (e : Expression Slot) {struct e} : M Value :=
  match e with
  | Expression.Value value => mret value
  | Expression.Uuid uuid => mret (uuid_value uuid)
  | Expression.Variable_ c => t_gets (get_or_unit c)
  | Expression.VariableId variable_id =>
      c ← t_of (get_variable (variables scope) variable_id (np_node node_parameter));
      t_gets (get_or_unit c)
  | Expression.Call call => call_expression scope node_parameter call
  | Expression.NodeArgument other =>
      c ← t_of (get_node_parameter_variable other (node_parameters_variables scope));
      t_gets (get_or_unit c)
  | Expression.Select source path =>
      value ← compute_expression scope node_parameter source;
      t_of (select_value path value)
  end
with call_expression (scope : Scope S) (node_parameter : NodeParameterId)
    (call : CallExpression Slot) {struct call} : M Value :=
  match call with
  | Expression.mkCallExpression module function_ arguments =>
      module_id ← compute_uuid scope (compute_expression scope node_parameter) module node_parameter;
      function_id ← compute_uuid scope (compute_expression scope node_parameter) function_ node_parameter;
      if is_interpreter_function_id function_id
      then t_fail (InconsistentTreeError (CallsInterpreter node_parameter function_id))
      else
        let f := function <$> calls scope !! function_id in
        ev ← evaluate scope (compute_expression scope node_parameter) node_parameter f arguments
               (mkEvaluated [] [] []);
        result ← bridge_call (mkCall (Some module_id) function_id (ev_args ev));
        _ ← t_for (mutated result) (call_write_back node_parameter ev);
        mret (ret result)
  end.

(** *** Lemmas *)
Lemma call_expression_eq scope node_parameter module function_ arguments :
  call_expression scope node_parameter (Expression.mkCallExpression module function_ arguments) =
  (module_id ← compute_uuid scope (compute_expression scope node_parameter) module node_parameter;
   function_id ← compute_uuid scope (compute_expression scope node_parameter) function_ node_parameter;
   if is_interpreter_function_id function_id
   then t_fail (InconsistentTreeError (CallsInterpreter node_parameter function_id))
   else
     ev ← evaluate scope (compute_expression scope node_parameter) node_parameter
            (function <$> calls scope !! function_id) arguments (mkEvaluated [] [] []);
     result ← bridge_call (mkCall (Some module_id) function_id (ev_args ev));
     _ ← t_for (mutated result) (call_write_back node_parameter ev);
     mret (ret result)).
Proof. reflexivity. Qed.
End Expressions.
