(* ===== verification/Sorting.v ===== *)
(** * The evaluation order of detached nodes: [sorted] of
    [crates/arora-behavior-tree/src/detached.rs]

    A depth-first sort of the nodes, each after the nodes it reads, iterative:
    the path is a stack of nodes with the next read to visit, here with its top
    first. The vectors [done] and [on_path] have one flag per node; reading out of
    them panics. *)

From S2P Require Import Prelude.

(** How the sort stops before its end: the cycle it found, or a panic. *)
Inductive SortStop := ReadsInACycle (cycle : list nat) | SortPanic.

Record Sort := mkSort {
  out : list nat;
  done_ : list bool;
  on_path : list bool;
  path : list (nat * nat);
}.

Section Sorting.
Variable reads : list (list nat).

(** [path[from..]], [from] the position of [read] from the bottom of the path. *)
Fixpoint from_read (read : nat) (bottom_first : list nat) : option (list nat) :=
  match bottom_first with
  | [] => None
  | at_ :: l => if (at_ =? read)%nat then Some bottom_first else from_read read l
  end.

(** One turn of [while let Some((at, next)) = path.last_mut()]. *)
Inductive Turn := Next (s : Sort) | Stop (e : SortStop).
Definition turn (s : Sort) (at_ next : nat) (rest : list (nat * nat)) : Turn :=
  match reads !! at_ with
  | None => Stop SortPanic
  | Some rs =>
      match rs !! next with
      | Some read =>
          let path := (at_, Datatypes.S next) :: rest in
          match done_ s !! read, on_path s !! read with
          | Some true, _ => Next (mkSort (out s) (done_ s) (on_path s) path)
          | Some false, Some true =>
              Stop (match from_read read (rev path.*1) with
                    | Some cycle => ReadsInACycle cycle
                    | None => SortPanic
                    end)
          | Some false, Some false =>
              Next (mkSort (out s) (done_ s) (<[read := true]> (on_path s)) ((read, O) :: path))
          | _, _ => Stop SortPanic
          end
      | None =>
          match done_ s !! at_, on_path s !! at_ with
          | Some _, Some _ =>
              Next (mkSort (out s ++ [at_]) (<[at_ := true]> (done_ s)) (<[at_ := false]> (on_path s)) rest)
          | _, _ => Stop SortPanic
          end
      end
  end.

(** The loop, on fuel: [None] has run out of it. *)
Fixpoint visit (fuel : nat) (s : Sort) : option (result SortStop Sort) :=
  match path s with
  | [] => Some (Ok s)
  | (at_, next) :: rest =>
      match fuel with
      | O => None
      | Datatypes.S fuel =>
          match turn s at_ next rest with
          | Next s => visit fuel s
          | Stop e => Some (Err e)
          end
      end
  end.

(** [for start in 0..nodes.len()] *)
Fixpoint visit_all (fuel : nat) (starts : list nat) (s : Sort) : option (result SortStop Sort) :=
  match starts with
  | [] => Some (Ok s)
  | start :: starts =>
      match done_ s !! start with
      | None => Some (Err SortPanic)
      | Some true => visit_all fuel starts s
      | Some false =>
          match on_path s !! start with
          | None => Some (Err SortPanic)
          | Some _ =>
              match visit fuel (mkSort (out s) (done_ s) (<[start := true]> (on_path s)) [(start, O)]) with
              | Some (Ok s) => visit_all fuel starts s
              | stopped => stopped
              end
          end
      end
  end.

Definition sorted (fuel : nat) : option (result SortStop (list nat)) :=
  let n := length reads in
  match visit_all fuel (seq 0 n) (mkSort [] (replicate n false) (replicate n false) []) with
  | Some (Ok s) => Some (Ok (out s))
  | Some (Err e) => Some (Err e)
  | None => None
  end.

(** ** What it promises *)

(** Every read is a node. *)
Definition reads_ok : Prop := ∀ i rs r, reads !! i = Some rs → r ∈ rs → (r < length reads)%nat.
(** [i] reads [r]. *)
Definition reads_node (i r : nat) : Prop := ∃ rs, reads !! i = Some rs ∧ r ∈ rs.
(** Each node of [l] comes after the nodes it reads. *)
Definition after_reads (l : list nat) : Prop :=
  ∀ before i after, l = before ++ i :: after → ∀ r, reads_node i r → r ∈ before.
(** Each node reads the next one, and the last the first. *)
Fixpoint read_chain (l : list nat) (last : nat) : Prop :=
  match l with
  | [] => True
  | [i] => reads_node i last
  | i :: (j :: _) as l => reads_node i j ∧ read_chain l last
  end.
Definition is_cycle (l : list nat) : Prop :=
  match l with [] => False | i :: _ => read_chain l i end.

(** The fuel that is always enough: a turn for every node and every read. *)
Definition enough_turns : nat := sum_list_with (λ rs, Datatypes.S (length rs)) reads.

(** ** The invariant of the loop *)

(** The path, its top first: what a node has read so far is out, but for the read
    being visited, which is the node above it. *)
Fixpoint path_inv (out : list nat) (above : option nat) (p : list (nat * nat)) : Prop :=
  match p with
  | [] => True
  | (a, k) :: rest =>
      (∃ rs, reads !! a = Some rs ∧ (k <= length rs)%nat
             ∧ (∀ r, r ∈ take k rs → r ∈ out ∨ above = Some r)
             ∧ (∀ r, above = Some r → r ∈ rs))
      ∧ path_inv out (Some a) rest
  end.

Record inv (s : Sort) : Prop := {
  inv_done : length (done_ s) = length reads;
  inv_on : length (on_path s) = length reads;
  inv_done_out i : done_ s !! i = Some true ↔ i ∈ out s;
  inv_on_path i : on_path s !! i = Some true ↔ i ∈ (path s).*1;
  inv_apart : NoDup (out s ++ (path s).*1);
  inv_after : after_reads (out s);
  inv_path : path_inv (out s) None (path s);
}.

Lemma path_inv_mono out out' above above' p :
  path_inv out above p → (∀ r, r ∈ out → r ∈ out') →
  (∀ r, above = Some r → r ∈ out') → above' = None → path_inv out' above' p.
Proof.
  intros H Ho Ha ->. destruct p as [|[a k] p]; [done|]. destruct H as [(rs & Hrs & Hk & Ht & Hab) Hp].
  split.
  - exists rs. split; [done|]. split; [done|]. split; [|done]. intros r [Hr|Hr]%Ht; left; auto.
  - clear -Hp Ho. revert Hp. generalize (Some a). induction p as [|[b l] p IH]; intros o; [done|].
    intros [(rs & Hrs & Hk & Ht & Hab) Hp]. split; [|by apply IH].
    exists rs. split; [done|]. split; [done|]. split; [|done]. intros r [Hr|Hr]%Ht; auto.
Qed.

Lemma read_chain_snoc l x last : l ≠ [] → read_chain (l ++ [x]) last ↔ read_chain l x ∧ reads_node x last.
Proof.
  intros Hl. induction l as [|i l IH]; [done|]. destruct l as [|j l]; [done|].
  change (reads_node i j ∧ read_chain ((j :: l) ++ [x]) last
          ↔ (reads_node i j ∧ read_chain (j :: l) x) ∧ reads_node x last). rewrite IH by done. tauto.
Qed.
(** The path, from any of its nodes up to the top, is a chain of reads. *)
Lemma path_chain out p x rest last above :
  path_inv out above (p ++ rest) → p.*1 = x :: tail p.*1 → reads_node x last →
  read_chain (rev p.*1) last.
Proof.
  revert x last above. induction p as [|[a k] p IH]; intros x last above H Hx Hl; [done|].
  simpl in Hx. injection Hx as ->. destruct H as [_ H]. simpl. destruct p as [|[b l] p]; [done|].
  apply read_chain_snoc; [simpl; by intros []%app_nil|]. split; [|done].
  apply (IH b x (Some x)); [done|done|]. destruct H as [(rs & Hrs & _ & _ & Hab) _]. exists rs. auto.
Qed.

Lemma from_read_app read l1 l2 : read ∉ l1 → from_read read (l1 ++ read :: l2) = Some (read :: l2).
Proof.
  induction l1 as [|a l1 IH]; intros H; simpl; [by rewrite Nat.eqb_refl|].
  apply not_elem_of_cons in H as [Hne H]. destruct (Nat.eqb_spec a read); [congruence|by apply IH].
Qed.

Lemma cycle_found a k read rest out above rs :
  NoDup (a :: rest.*1) → path_inv out above ((a, k) :: rest) →
  reads !! a = Some rs → read ∈ rs → read ∈ a :: rest.*1 →
  ∃ c, from_read read (rev (a :: rest.*1)) = Some c ∧ is_cycle c.
Proof.
  intros Hd Hp Ha Hr Hin.
  change (a :: rest.*1) with ((a, k) :: rest).*1 in *. set (p := (a, k) :: rest) in *.
  apply list_elem_of_fmap in Hin as ([r l] & -> & Hin). apply list_elem_of_split in Hin as (p1 & p2 & Hp12).
  rewrite Hp12 in *. rewrite fmap_app, fmap_cons in *. simpl in *.
  rewrite rev_app_distr. simpl. rewrite <- !app_assoc. simpl. rewrite from_read_app; last first.
  { rewrite list_elem_of_In, <- in_rev, <- list_elem_of_In. apply NoDup_app in Hd as (_ & _ & Hd). by apply NoDup_cons in Hd as [? _]. }
  eexists. split; [done|]. simpl.
  assert (read_chain (rev ((p1 ++ [(r, l)]).*1)) r) as Hc.
  { apply (path_chain out _ a p2 r above).
    - by rewrite <- app_assoc.
    - destruct p1 as [|[b m] p1]; simpl in *; unfold p in Hp12; by simplify_eq.
    - by exists rs. }
  rewrite fmap_app, rev_app_distr in Hc. simpl in Hc. exact Hc.
Qed.

(** ** A turn keeps the invariant and costs one *)
Definition weight (i : nat) : nat := Datatypes.S (length (default [] (reads !! i))).
Definition unvisited (s : Sort) : list nat :=
  filter (λ i, i ∉ out s ∧ i ∉ (path s).*1) (seq 0 (length reads)).
Definition path_cost (p : list (nat * nat)) : nat := sum_list_with (λ e, (weight (fst e) - snd e)%nat) p.
Definition cost (s : Sort) : nat := (path_cost (path s) + sum_list_with weight (unvisited s))%nat.

Lemma sum_filter_out (P Q : nat → Prop) `{!∀ x, Decision (P x), !∀ x, Decision (Q x)} (l : list nat) x :
  NoDup l → x ∈ l → P x → (∀ y, Q y ↔ P y ∧ y ≠ x) →
  sum_list_with weight (filter P l) = (weight x + sum_list_with weight (filter Q l))%nat.
Proof.
  intros Hd Hx Hp Hq. induction l as [|y l IH]; [by inversion Hx|].
  apply NoDup_cons in Hd as [Hy Hd]. rewrite !filter_cons. destruct (decide (y = x)) as [->|Hne].
  - rewrite decide_True, decide_False by (done || rewrite Hq; tauto). cbn [sum_list_with]. apply (f_equal (Nat.add (weight x))). clear IH Hx Hd.
    induction l as [|z l IH]; [done|]. apply not_elem_of_cons in Hy as [Hz Hy]. rewrite !filter_cons.
    specialize (IH Hy). destruct (decide (P z)) as [HP|HP]; destruct (decide (Q z)) as [HQ|HQ];
      rewrite Hq in HQ; cbn [sum_list_with]; try tauto; [lia|]. destruct HQ. auto.
  - apply elem_of_cons in Hx as [?|Hx]; [congruence|]. specialize (IH Hd Hx).
    destruct (decide (P y)) as [HP|HP]; destruct (decide (Q y)) as [HQ|HQ];
      rewrite Hq in HQ; cbn [sum_list_with]; try tauto; lia.
Qed.
Lemma unvisited_less s s' x :
  (x < length reads)%nat → x ∉ out s → x ∉ (path s).*1 →
  (∀ y, (y ∈ out s' ∨ y ∈ (path s').*1) ↔ (y ∈ out s ∨ y ∈ (path s).*1) ∨ y = x) →
  sum_list_with weight (unvisited s) = (weight x + sum_list_with weight (unvisited s'))%nat.
Proof.
  intros Hx Ho Hp Hs. apply sum_filter_out; [apply NoDup_seq|apply elem_of_seq; lia|done|].
  intros y. specialize (Hs y). tauto.
Qed.
Lemma unvisited_same s s' :
  (∀ y, (y ∈ out s' ∨ y ∈ (path s').*1) ↔ (y ∈ out s ∨ y ∈ (path s).*1)) → unvisited s = unvisited s'.
Proof. intros Hs. apply list_filter_iff. intros y. specialize (Hs y). tauto. Qed.

Lemma after_snoc l a :
  after_reads l → (∀ r, reads_node a r → r ∈ l) → after_reads (l ++ [a]).
Proof.
  intros Hl Ha before i after He r Hr.
  destruct after as [|z after] using rev_ind.
  - apply app_inj_tail in He as [-> ->]. by apply Ha.
  - clear IHafter. rewrite app_comm_cons, app_assoc in He. apply app_inj_tail in He as [-> ->].
    by apply (Hl before i after).
Qed.

Lemma flag_insert (l : list bool) i j b :
  (i < length l)%nat → (<[i := b]> l !! j = Some true ↔ if decide (j = i) then b = true else l !! j = Some true).
Proof.
  intros Hi. destruct (decide (j = i)) as [->|]; [|by rewrite list_lookup_insert_ne].
  rewrite list_lookup_insert_eq by done. naive_solver.
Qed.

Lemma turn_spec s a k rest :
  reads_ok → inv s → path s = (a, k) :: rest →
  match turn s a k rest with
  | Next s' => inv s' ∧ cost s = Datatypes.S (cost s')
               ∧ (∀ i, i ∈ out s ∨ i ∈ (path s).*1 → i ∈ out s' ∨ i ∈ (path s').*1)
  | Stop (ReadsInACycle c) => is_cycle c
  | Stop SortPanic => False
  end.
Proof.
  intros Hok [Hd Ho Hdo Hop Hap Haf Hpi] Hp. rewrite Hp in *. unfold turn.
  pose proof Hpi as [(rs & Hrs & Hk & Ht & _) Hrest]. rewrite Hrs.
  assert (weight a = Datatypes.S (length rs)) as Hwa by (unfold weight; by rewrite Hrs).
  pose proof (lookup_lt_Some _ _ _ Hrs) as Ha.
  destruct (rs !! k) as [read|] eqn:Hk'.
  - pose proof (lookup_lt_Some _ _ _ Hk') as Hkl.
    assert (read ∈ rs) as Hin by (by eapply list_elem_of_lookup_2).
    pose proof (Hok _ _ _ Hrs Hin) as Hread.
    destruct (lookup_lt_is_Some_2 (done_ s) read) as [bd Hbd]; [lia|].
    destruct (lookup_lt_is_Some_2 (on_path s) read) as [bo Hbo]; [lia|]. rewrite Hbd, Hbo.
    assert (∀ (l : list nat) above, (read ∈ l ∨ above = Some read) → (∀ r, r ∈ take k rs → r ∈ l ∨ above = Some r) →
      ∀ r, r ∈ take (Datatypes.S k) rs → r ∈ l ∨ above = Some r) as Htake.
    { intros l above H1 H2 r. rewrite (take_S_r _ _ _ Hk'), elem_of_app, list_elem_of_singleton.
      intros [?| ->]; auto. }
    destruct bd; [|destruct bo].
    + assert (read ∈ out s) as Hro by by apply Hdo.
      split; [|split; [|done]].
      * split; simpl; try done. split; [|done]. exists rs. split; [done|]. split; [lia|].
        split; [|done]. apply Htake; [by left|done].
      * unfold cost. rewrite (unvisited_same s (mkSort (out s) (done_ s) (on_path s) ((a, Datatypes.S k) :: rest)))
          by (intros; simpl; by rewrite Hp). 
        rewrite Hp. unfold path_cost. cbn [path sum_list_with fst snd]. rewrite Hwa. lia.
    + destruct (cycle_found a (Datatypes.S k) read rest (out s) (Some read) rs) as (c & Hc & Hcyc);
        try done; [by apply NoDup_app in Hap as (_ & _ & ?)| |by apply Hop|rewrite fmap_cons; simpl fst; by rewrite Hc].
      split; [|done]. exists rs. split; [done|]. split; [lia|]. split; [|by intros r [= <-]].
      apply Htake; [by right|]. intros r Hr. left. by destruct (Ht r Hr).
    + assert (read ∉ out s) as Hro by (rewrite <- Hdo; congruence).
      assert (read ∉ ((a, k) :: rest).*1) as Hrp by (rewrite <- Hop; congruence).
      split; [|split; [|intros i; simpl; rewrite !elem_of_cons; tauto]].
      * split; simpl; try done.
        -- by rewrite length_insert.
        -- intros i. rewrite flag_insert by lia. rewrite elem_of_cons. specialize (Hop i). simpl in Hop.
           case_decide; naive_solver.
        -- apply NoDup_app in Hap as (Hn1 & Hn2 & Hn3). apply NoDup_app. split; [done|]. split.
           ++ intros x Hx [->|Hx']%elem_of_cons; [done|]. by apply (Hn2 x).
           ++ by apply NoDup_cons.
        -- destruct (lookup_lt_is_Some_2 reads read Hread) as [rs' Hrs']. split.
           ++ exists rs'. split; [done|]. split; [lia|]. split; [|done].
              intros r Hr. rewrite take_0 in Hr. by apply not_elem_of_nil in Hr.
           ++ split; [|done]. exists rs. split; [done|]. split; [lia|]. split; [|by intros r [= <-]].
              apply Htake; [by right|]. intros r Hr. left. by destruct (Ht r Hr).
      * unfold cost. rewrite (unvisited_less s (mkSort (out s) (done_ s) (<[read:=true]> (on_path s))
          ((read, 0%nat) :: (a, Datatypes.S k) :: rest)) read); [|done|done|by rewrite Hp|].
        -- rewrite Hp. unfold path_cost. cbn [path sum_list_with fst snd]. rewrite Hwa. lia.
        -- intros y. simpl. rewrite Hp. simpl. rewrite !elem_of_cons. tauto.
  - assert (k = length rs) as -> by (apply lookup_ge_None in Hk'; lia).
    destruct (lookup_lt_is_Some_2 (done_ s) a) as [bd Hbd]; [lia|].
    destruct (lookup_lt_is_Some_2 (on_path s) a) as [bo Hbo]; [lia|]. rewrite Hbd, Hbo.
    rewrite firstn_all in Ht. simpl in Hap, Hop.
    apply NoDup_app in Hap as (Hn1 & Hn2 & Hn3). apply NoDup_cons in Hn3 as [Ha1 Hn3].
    split; [|split].
    + split; simpl.
      * by rewrite length_insert.
      * by rewrite length_insert.
      * intros i. rewrite flag_insert by lia. rewrite elem_of_app, list_elem_of_singleton, <- Hdo.
        case_decide; naive_solver.
      * intros i. rewrite flag_insert by lia. specialize (Hop i). rewrite elem_of_cons in Hop.
        case_decide; [subst; naive_solver|]. rewrite Hop. naive_solver.
      * rewrite <- app_assoc. simpl. rewrite <- Permutation_middle. apply NoDup_cons. split.
        -- intros [H|H]%elem_of_app; [|done]. apply (Hn2 a H). by left.
        -- apply NoDup_app. split; [done|]. split; [|done]. intros x Hx Hx'. apply (Hn2 x Hx). by right.
      * apply after_snoc; [done|]. intros r (rs' & Hrs' & Hr). assert (rs' = rs) as -> by congruence.
        by destruct (Ht r Hr).
      * apply (path_inv_mono (out s) _ (Some a) None); [done| | |done].
        -- intros r Hr. apply elem_of_app. by left.
        -- intros r [= <-]. apply elem_of_app. right. by left.
    + unfold cost. rewrite (unvisited_same s (mkSort (out s ++ [a]) (<[a:=true]> (done_ s)) (<[a:=false]> (on_path s)) rest)).
      * rewrite Hp. unfold path_cost. cbn [path sum_list_with fst snd]. rewrite Hwa. lia.
      * intros y. simpl. rewrite Hp. simpl. rewrite elem_of_app, list_elem_of_singleton, elem_of_cons. tauto.
    + intros i. simpl. rewrite elem_of_app, list_elem_of_singleton, elem_of_cons. tauto.
Qed.

Lemma visit_spec fuel s :
  reads_ok → inv s → (cost s <= fuel)%nat →
  match visit fuel s with
  | Some (Ok s') => inv s' ∧ path s' = [] ∧ (cost s' <= cost s)%nat
                    ∧ (∀ i, i ∈ out s ∨ i ∈ (path s).*1 → i ∈ out s')
  | Some (Err (ReadsInACycle c)) => is_cycle c
  | Some (Err SortPanic) | None => False
  end.
Proof.
  intros Hok. revert s. induction fuel as [|fuel IH]; intros s Hs Hf; simpl;
    destruct (path s) as [|[a k] rest] eqn:Hp.
  1, 3: (split; [done|]; split; [done|]; split; [lia|]; intros i [|H]; [done|inversion H]).
  - unfold cost in Hf. rewrite Hp in Hf. unfold path_cost in Hf. cbn [sum_list_with fst snd] in Hf.
    pose proof (inv_path s Hs) as Hi. rewrite Hp in Hi. destruct Hi as [(rs & Hrs & Hk & _) _].
    unfold weight at 1 in Hf. rewrite Hrs in Hf. simpl in Hf. lia.
  - pose proof (turn_spec s a k rest Hok Hs Hp) as Ht. destruct (turn s a k rest) as [s'|[c|]]; try done.
    destruct Ht as (Hs' & Hc & Ho). specialize (IH s' Hs' ltac:(lia)).
    destruct (visit fuel s') as [[s''|[c|]]|]; try done. destruct IH as (? & ? & ? & Ho').
    split; [done|]. split; [done|]. split; [lia|]. intros i Hi. apply Ho', Ho. by rewrite Hp.
Qed.

Lemma start_inv s start :
  reads_ok → inv s → path s = [] → done_ s !! start = Some false → (start < length reads)%nat →
  let s' := mkSort (out s) (done_ s) (<[start := true]> (on_path s)) [(start, O)] in
  inv s' ∧ cost s' = cost s.
Proof.
  intros Hok Hs Hp Hd Hlt. assert (start ∉ out s) as Ho by (rewrite <- inv_done_out by done; congruence).
  split.
  - destruct Hs as [H1 H2 H3 H4 H5 H6 H7]. rewrite Hp in *. simpl in *. rewrite app_nil_r in H5. split; simpl; try done.
    + by rewrite length_insert.
    + intros i. rewrite flag_insert by lia. rewrite list_elem_of_singleton. specialize (H4 i).
      case_decide; [naive_solver|]. rewrite H4. split; [intros Hx; inversion Hx|done].
    + apply NoDup_app. split; [done|]. split; [|apply NoDup_singleton]. by intros x Hx ->%list_elem_of_singleton.
    + destruct (lookup_lt_is_Some_2 reads start Hlt) as [rs Hrs]. split; [|done].
      exists rs. split; [done|]. split; [lia|]. split; [|done]. intros r H. rewrite take_0 in H. inversion H.
  - unfold cost at 2. rewrite (unvisited_less s (mkSort (out s) (done_ s) (<[start:=true]> (on_path s)) [(start, O)]) start);
      [|done|done|rewrite Hp; apply not_elem_of_nil|].
    + rewrite Hp. unfold cost, path_cost. cbn [path sum_list_with fst snd]. lia.
    + intros y. simpl. rewrite Hp, list_elem_of_singleton. simpl. rewrite elem_of_nil. tauto.
Qed.

Lemma visit_all_spec fuel starts s :
  reads_ok → inv s → path s = [] → (cost s <= fuel)%nat → Forall (λ i, i < length reads)%nat starts →
  match visit_all fuel starts s with
  | Some (Ok s') => inv s' ∧ path s' = [] ∧ (∀ i, i ∈ out s ∨ i ∈ starts → i ∈ out s')
  | Some (Err (ReadsInACycle c)) => is_cycle c
  | Some (Err SortPanic) | None => False
  end.
Proof.
  intros Hok. revert s. induction starts as [|start starts IH]; intros s Hs Hp Hf Hl; simpl.
  - split; [done|]. split; [done|]. intros i [|H]; [done|inversion H].
  - apply Forall_cons in Hl as [Hlt Hl].
    destruct (lookup_lt_is_Some_2 (done_ s) start) as [bd Hbd]; [rewrite inv_done by done; lia|].
    destruct (lookup_lt_is_Some_2 (on_path s) start) as [bo Hbo]; [rewrite inv_on by done; lia|].
    rewrite Hbd, Hbo. destruct bd.
    + specialize (IH s Hs Hp Hf Hl). destruct (visit_all fuel starts s) as [[s'|[c|]]|]; try done.
      destruct IH as (? & ? & Ho). split; [done|]. split; [done|]. intros i [Hi|[->|Hi]%elem_of_cons]; auto.
      apply Ho. left. by apply inv_done_out.
    + destruct (start_inv s start Hok Hs Hp Hbd Hlt) as [Hs1 Hc1].
      pose proof (visit_spec fuel _ Hok Hs1 ltac:(lia)) as Hv.
      destruct (visit fuel _) as [[s1|[c|]]|]; try done. destruct Hv as (Hs2 & Hp2 & Hc2 & Ho2).
      specialize (IH s1 Hs2 Hp2 ltac:(lia) Hl). destruct (visit_all fuel starts s1) as [[s'|[c|]]|]; try done.
      destruct IH as (? & ? & Ho). split; [done|]. split; [done|].
      intros i [Hi|[->|Hi]%elem_of_cons]; apply Ho; [left; apply Ho2; by left|left; apply Ho2; right; by left|by right].
Qed.

(** ** Nodes in order admit no cycle *)
Lemma ordered_rank l :
  NoDup l → after_reads l → ∀ i r, i ∈ l → reads_node i r →
  ∃ n m, l !! n = Some i ∧ l !! m = Some r ∧ (m < n)%nat.
Proof.
  intros Hd Hl i r Hi Hr. apply list_elem_of_split in Hi as (before & after & ->).
  pose proof (Hl before i after eq_refl r Hr) as [m Hm]%list_elem_of_lookup_1.
  exists (length before), m. split; [by rewrite list_lookup_middle|].
  pose proof (lookup_lt_Some _ _ _ Hm). split; [by apply lookup_app_l_Some|done].
Qed.
Lemma chain_rank l : NoDup l → after_reads l →
  (∀ i, i ∈ l ∨ reads !! i = None) →
  ∀ c i last n m, read_chain (i :: c) last → l !! n = Some i → l !! m = Some last → (m < n)%nat.
Proof.
  intros Hd Hl Hall c. induction c as [|j c IH]; intros i last n m Hc Hn Hm.
  - destruct (ordered_rank l Hd Hl i last) as (n' & m' & Hn' & Hm' & Hlt); [by eapply list_elem_of_lookup_2|done|].
    rewrite (NoDup_lookup _ _ _ _ Hd Hn Hn'). by rewrite (NoDup_lookup _ _ _ _ Hd Hm Hm').
  - destruct Hc as [Hij Hc].
    destruct (ordered_rank l Hd Hl i j) as (n' & k & Hn' & Hk & Hlt); [by eapply list_elem_of_lookup_2|done|].
    rewrite (NoDup_lookup _ _ _ _ Hd Hn Hn'). specialize (IH j last k m Hc Hk Hm). lia.
Qed.
Lemma ordered_acyclic l c :
  NoDup l → after_reads l → (∀ i, i ∈ l ∨ reads !! i = None) → ¬ is_cycle c.
Proof.
  intros Hd Hl Hall. destruct c as [|i c]; [by intros []|]. intros Hc. simpl in Hc.
  assert (i ∈ l) as [n Hn]%list_elem_of_lookup_1.
  { destruct (Hall i) as [|Hi]; [done|]. exfalso.
    destruct c as [|j c]; simpl in Hc; [destruct Hc as (rs & Hrs & _)|destruct Hc as [(rs & Hrs & _) _]]; congruence. }
  pose proof (chain_rank l Hd Hl Hall c i i n n Hc Hn Hn). lia.
Qed.

(** ** The sort *)
Lemma all_unvisited :
  sum_list_with weight (filter (λ i, i ∉ ([] : list nat) ∧ i ∉ ([] : list nat)) (seq 0 (length reads)))
  = sum_list_with (λ rs, Datatypes.S (length rs)) reads.
Proof.
  assert (∀ l, filter (λ i : nat, i ∉ ([] : list nat) ∧ i ∉ ([] : list nat)) l = l) as ->.
  { induction l as [|i l IH]; [done|]. rewrite filter_cons_True, IH; [done|]. split; apply not_elem_of_nil. }
  unfold weight. assert (∀ pre l, pre ++ l = reads →
    sum_list_with (λ i, Datatypes.S (length (default [] (reads !! i)))) (seq (length pre) (length l))
    = sum_list_with (λ rs, Datatypes.S (length rs)) l) as H; [|by apply (H [])].
  intros pre l. revert pre. induction l as [|rs l IH]; intros pre He; [done|]. simpl.
  f_equal. f_equal.
  - by rewrite <- He, list_lookup_middle.
  - specialize (IH (pre ++ [rs])). rewrite length_app, Nat.add_1_r in IH. apply IH. by rewrite <- app_assoc.
Qed.

Lemma sorted_gen :
  reads_ok →
  match sorted enough_turns with
  | Some (Ok l) => l ≡ₚ seq 0 (length reads) ∧ after_reads l ∧ (∀ c, ¬ is_cycle c)
  | Some (Err (ReadsInACycle c)) => is_cycle c
  | Some (Err SortPanic) | None => False
  end.
Proof.
  intros Hok. unfold sorted.
  set (s0 := mkSort [] (replicate (length reads) false) (replicate (length reads) false) []).
  assert (inv s0) as Hs0.
  { split; simpl; try done; try (by rewrite length_replicate); try (by constructor).
    - intros i. split; [|intros H; inversion H]. by intros [? _]%lookup_replicate.
    - intros i. split; [|intros H; inversion H]. by intros [? _]%lookup_replicate.
    - intros before i after H. by apply app_cons_not_nil in H. }
  assert (cost s0 = enough_turns) as Hc0.
  { unfold cost, enough_turns, unvisited, path_cost. simpl. apply all_unvisited. }
  pose proof (visit_all_spec enough_turns (seq 0 (length reads)) s0 Hok Hs0 eq_refl ltac:(lia)) as Hv.
  destruct (visit_all _ _ _) as [[s'|[c|]]|]; try (apply Hv, Forall_forall; intros i Hi%elem_of_seq; lia).
  destruct Hv as (Hs' & Hp' & Ho); [apply Forall_forall; intros i Hi%elem_of_seq; lia|].
  pose proof (inv_apart _ Hs') as Hd. rewrite Hp', app_nil_r in Hd.
  assert (out s' ≡ₚ seq 0 (length reads)) as Hperm.
  { apply NoDup_Permutation; [done|apply NoDup_seq|]. intros i. rewrite elem_of_seq. split.
    - intros Hi%(inv_done_out _ Hs')%lookup_lt_Some. rewrite inv_done in Hi by done. lia.
    - intros Hi. apply Ho. right. apply elem_of_seq. lia. }
  split; [done|]. split; [by apply inv_after|]. intros c. apply (ordered_acyclic (out s')); [done|by apply inv_after|].
  intros i. destruct (reads !! i) as [rs|] eqn:Hi; [left|by right].
  rewrite Hperm. apply elem_of_seq. apply lookup_lt_Some in Hi. lia.
Qed.
End Sorting.

(** The sort of the detached nodes always ends and never panics: it gives every
    node once, each after the nodes it reads, precisely when no nodes read each
    other in a cycle, and otherwise it names such a cycle. *)
Theorem sorted_orders (reads : list (list nat)) (Hok : reads_ok reads) :
  match sorted reads (enough_turns reads) with
  | Some (Ok l) => l ≡ₚ seq 0 (length reads) ∧ after_reads reads l ∧ (∀ c, ¬ is_cycle reads c)
  | Some (Err (ReadsInACycle c)) => is_cycle reads c
  | Some (Err SortPanic) | None => False
  end.
Proof. exact (sorted_gen reads Hok). Qed.

Lemma sorted_orders_witness :
  sorted [[1; 2]; [2]; []; [0]]%nat (enough_turns [[1; 2]; [2]; []; [0]]%nat) = Some (Ok [2; 1; 0; 3]%nat)
  ∧ (∀ c, ¬ is_cycle [[1; 2]; [2]; []; [0]]%nat c) ∧ is_cycle [[1]; [2]; [1]]%nat [1; 2]%nat.
Proof.
  assert (reads_ok [[1; 2]; [2]; []; [0]]%nat) as H1.
  { intros [|[|[|[|i]]]] rs r [= <-] Hr; set_solver by lia. }
  assert (reads_ok [[1]; [2]; [1]]%nat) as H2.
  { intros [|[|[|i]]] rs r [= <-] Hr; set_solver by lia. }
  assert (sorted [[1; 2]; [2]; []; [0]]%nat (enough_turns [[1; 2]; [2]; []; [0]]%nat) = Some (Ok [2; 1; 0; 3]%nat)) as E1
    by (vm_compute; reflexivity).
  assert (sorted [[1]; [2]; [1]]%nat (enough_turns [[1]; [2]; [1]]%nat) = Some (Err (ReadsInACycle [1; 2]%nat))) as E2
    by (vm_compute; reflexivity).
  pose proof (sorted_orders _ H1) as S1. pose proof (sorted_orders _ H2) as S2. rewrite E1 in S1. rewrite E2 in S2.
  split; [exact E1|]. split; [exact (proj2 (proj2 S1))|exact S2].
Defined.
