(* ===== verification/Detached.v ===== *)
(** * Bringing detached nodes up to date: [crates/arora-behavior-tree/src/detached.rs]

    A detached node is evaluated when what it outputs is about to be read, once
    per tick, after the nodes it reads, and calls its function only when its
    arguments changed. [bring_up] walks the reads with a stack of its own, here
    with its top first; [pull_rec] is the recursion it stands for. What the nodes
    are evaluated over, and how, is a parameter of the walk; [evaluate] is how.

    A vector read out of its range panics: [None], as running out of fuel. A module
    call is assumed not to reach the tree's own detached nodes again. *)

From S2P Require Import Prelude Values Extern Keys State Store Effects Nodes Schema Cells Expressions Sorting.

(** [struct Cache] *)
Record Cache := mkCache {
  c_tick : Z;
  c_arguments : option (list Value);
  c_outputs : list (Uuid * Value);
  c_calls : Z;
  c_failed : option Message;
}.
Definition cache_default : Cache := mkCache 0 None [] 0 None.

(** What the detached nodes keep, and the world they are evaluated over. *)
Record Pulls (W : Type) := mkPulls { d_world : W; d_caches : list Cache; d_tick : Z }.
Arguments mkPulls {W} _ _ _.
Arguments d_world {W} _.
Arguments d_caches {W} _.
Arguments d_tick {W} _.

Section Walk.
Context {W : Type}.
Local Abbreviation M := (T (Pulls W) BehaviorTreeError).

(** The nodes, by position, and the nodes each reads. *)
Variable node_ids : list Uuid.
Variable reads : list (list nat).
Variable evaluate : nat → M unit.

(** [Detached::begin_tick]: the tick is a [u64]. *)
Definition begin_tick : M unit := t_modify (λ s, mkPulls (d_world s) (d_caches s) ((d_tick s + 1) mod 2 ^ 64)).

(** [Detached::this_tick] *)
Definition outcome_of (at_ : nat) (tick : Z) (c : Cache) : option (result BehaviorTreeError unit) :=
  if c_tick c =? tick
  then Some (match c_failed c with
             | None => Ok tt
             | Some why => Err (CallErr (Generic (DetachedFailed (default 0 (node_ids !! at_)) why)))
             end)
  else None.
Definition this_tick (at_ : nat) : M (option (result BehaviorTreeError unit)) := λ s,
  match d_caches s !! at_ with
  | Some c => Some (Ok (outcome_of at_ (d_tick s) c), s)
  | None => None
  end.

(** [Detached::mark] *)
Definition mark_cache (tick : Z) (failed : option Message) (c : Cache) : Cache :=
  mkCache tick (c_arguments c) (c_outputs c) (c_calls c) failed.
Definition mark (at_ : nat) (failed : option Message) : M unit := λ s,
  match d_caches s !! at_ with
  | Some c => Some (Ok tt, mkPulls (d_world s) (<[at_ := mark_cache (d_tick s) failed c]> (d_caches s)) (d_tick s))
  | None => None
  end.

(** A failure fails every node waiting on it. *)
Definition fail_all (stack : list (nat * nat)) (failure : BehaviorTreeError) : M unit :=
  _ ← t_for (rev stack) (λ waiting, mark waiting.1 (Some (ToString failure)));
  t_fail failure.

(** [Detached::bring_up] *)
Fixpoint bring_up (fuel : nat) (stack : list (nat * nat)) : M unit :=
  match fuel with
  | O => t_diverge
  | Datatypes.S fuel =>
      match stack with
      | [] => mret tt
      | (node, next) :: rest =>
          match reads !! node with
          | None => t_diverge
          | Some rs =>
              match rs !! next with
              | Some read =>
                  let stack := (node, Datatypes.S next) :: rest in
                  outcome ← this_tick read;
                  match outcome with
                  | None => bring_up fuel ((read, O) :: stack)
                  | Some (Ok _) => bring_up fuel stack
                  | Some (Err failure) => fail_all stack failure
                  end
              | None =>
                  outcome ← t_result (evaluate node);
                  match outcome with
                  | Ok _ => _ ← mark node None; bring_up fuel rest
                  | Err failure => fail_all stack failure
                  end
              end
          end
      end
  end.

(** [Detached::bring_up_to_date] *)
Definition bring_up_to_date (fuel : nat) (at_ : nat) : M unit :=
  outcome ← this_tick at_;
  match outcome with
  | Some outcome => t_of outcome
  | None => bring_up fuel [(at_, O)]
  end.

(** [Detached::pull] *)
Definition pull (fuel : nat) (nodes : list nat) : M unit := t_for nodes (bring_up_to_date fuel).

(** The reads asked for in a tick, one after the other, whatever their outcomes. *)
Definition request (fuel : nat) (at_ : nat) : M unit :=
  t_result (E' := BehaviorTreeError) (bring_up_to_date fuel at_) ≫= λ _, mret tt.
Definition requests_of (fuel : nat) (nodes : list nat) : M unit := t_for nodes (request fuel).

(** ** The recursion it stands for *)
Fixpoint pull_rec (height : nat) (at_ : nat) : M unit :=
  match height with
  | O => t_diverge
  | Datatypes.S height =>
      outcome ← this_tick at_;
      match outcome with
      | Some outcome => t_of outcome
      | None =>
          match reads !! at_ with
          | None => t_diverge
          | Some rs =>
              outcome ← t_result (_ ← t_for rs (pull_rec height); evaluate at_);
              match outcome with
              | Ok _ => mark at_ None
              | Err failure => _ ← mark at_ (Some (ToString failure)); t_fail failure
              end
          end
      end
  end.

(** ** The walk is the recursion *)
Implicit Types s : Pulls W.

Definition mark_at (v : option Message) (at_ : nat) (s : Pulls W) : option (Pulls W) :=
  c ← d_caches s !! at_;
  Some (mkPulls (d_world s) (<[at_ := mark_cache (d_tick s) v c]> (d_caches s)) (d_tick s)).
Fixpoint mark_all (v : option Message) (l : list nat) (s : Pulls W) : option (Pulls W) :=
  match l with [] => Some s | i :: l => mark_at v i s ≫= mark_all v l end.

Lemma mark_run v i s : mark i v s = match mark_at v i s with Some s' => Some (Ok tt, s') | None => None end.
Proof. unfold mark, mark_at. by destruct (d_caches s !! i). Qed.
Lemma mark_comm v i j s : (mark_at v i s ≫= mark_at v j) = (mark_at v j s ≫= mark_at v i).
Proof.
  destruct (decide (i = j)) as [->|Hne]; [done|]. unfold mark_at.
  destruct (d_caches s !! i) as [c|] eqn:Hi, (d_caches s !! j) as [d|] eqn:Hj; simpl;
    rewrite ?list_lookup_insert_ne, ?Hi, ?Hj by done; simpl; try done.
  by rewrite list_insert_insert_ne.
Qed.
Lemma mark_all_snoc v l i s : mark_all v (l ++ [i]) s = (mark_at v i s ≫= mark_all v l).
Proof.
  revert s. induction l as [|j l IH]; intros s; simpl; [by destruct (mark_at v i s)|].
  transitivity ((mark_at v j s ≫= mark_at v i) ≫= mark_all v l).
  - destruct (mark_at v j s) as [s1|]; simpl; [apply IH|done].
  - rewrite mark_comm. by destruct (mark_at v i s).
Qed.
Lemma mark_all_run v (l : list (nat * nat)) s :
  t_for l (λ waiting, mark waiting.1 v) s
  = match mark_all v l.*1 s with Some s' => Some (Ok tt, s') | None => None end.
Proof.
  revert s. induction l as [|[i k] l IH]; intros s; [done|]. simpl. rewrite bind_run, mark_run. simpl.
  destruct (mark_at v i s) as [s1|]; simpl; [apply IH|done].
Qed.

Lemma fail_all_run stack e s :
  fail_all stack e s
  = match mark_all (Some (ToString e)) (rev stack.*1) s with Some s' => Some (Err e, s') | None => None end.
Proof.
  unfold fail_all. rewrite bind_run, mark_all_run. unfold fmap at 1. rewrite <- map_rev.
  by destruct (mark_all _ _ _).
Qed.
Lemma fail_all_cons i k rest e s :
  fail_all ((i, k) :: rest) e s
  = match mark_at (Some (ToString e)) i s with Some s' => fail_all rest e s' | None => None end.
Proof.
  rewrite fail_all_run. simpl. rewrite mark_all_snoc.
  destruct (mark_at _ i s) as [s1|]; simpl; [by rewrite fail_all_run|done].
Qed.

(** The end of a walk that starts with [s] and [rest] of the stack left. *)
Definition ends_as (rest : list (nat * nat)) (r : result BehaviorTreeError unit) (m : nat) (s : Pulls W) :=
  match r with Ok _ => bring_up m rest s | Err e => fail_all rest e s end.
Definition walks (stack rest : list (nat * nat)) (s : Pulls W) (r : result BehaviorTreeError unit) (s' : Pulls W) : Prop :=
  ∃ f, ∀ m, bring_up (f + m) stack s = ends_as rest r m s'.

Lemma walks_reads h at_ rs rest :
  (∀ x s r s', pull_rec h x s = Some (r, s') → this_tick x s = Some (Ok None, s) →
     ∀ rest, walks ((x, O) :: rest) rest s r s') →
  reads !! at_ = Some rs →
  ∀ l k, (k <= length rs)%nat → drop k rs = l → ∀ s r s', t_for l (pull_rec h) s = Some (r, s') →
  match r with
  | Ok _ => ∃ f, ∀ m, bring_up (f + m) ((at_, k) :: rest) s = bring_up m ((at_, length rs) :: rest) s'
  | Err e => ∃ f, ∀ m, bring_up (f + m) ((at_, k) :: rest) s = fail_all ((at_, k) :: rest) e s'
  end.
Proof.
  intros IH Hrs l. induction l as [|x l IHl]; intros k Hle Hk s r s' Hrun.
  - injection Hrun as <- <-. exists O. intros m. simpl.
    apply (f_equal length) in Hk. rewrite length_drop in Hk. simpl in Hk. by replace k with (length rs) by lia.
  - assert (rs !! k = Some x ∧ drop (Datatypes.S k) rs = l) as [Hx Hl].
    { split; [|by rewrite <- Nat.add_1_r, <- drop_drop, Hk].
      by rewrite <- (Nat.add_0_r k), <- lookup_drop, Hk. }
    pose proof (lookup_lt_Some _ _ _ Hx). specialize (IHl (Datatypes.S k) ltac:(lia) Hl).
    simpl in Hrun. rewrite bind_run in Hrun.
    destruct (pull_rec h x s) as [[r1 s1]|] eqn:Hpx; [|by destruct r].
    assert (∃ o, this_tick x s = Some (Ok o, s)) as [o Ho].
    { destruct h as [|h]; [done|]. simpl in Hpx. rewrite bind_run in Hpx. unfold this_tick in *.
      destruct (d_caches s !! x); [by eexists|done]. }
    assert (∃ f1, ∀ m, bring_up (f1 + m) ((at_, k) :: rest) s
              = match r1 with Ok _ => bring_up m ((at_, Datatypes.S k) :: rest) s1
                | Err e => fail_all ((at_, Datatypes.S k) :: rest) e s1 end) as [f1 Hf1].
    { destruct o as [o|].
      - assert (r1 = o ∧ s1 = s) as [-> ->].
        { destruct h as [|h]; [done|]. simpl in Hpx. rewrite bind_run, Ho in Hpx. unfold t_of in Hpx. naive_solver. }
        exists 1%nat. intros m. simpl. rewrite Hrs, Hx, bind_run, Ho. by destruct o.
      - destruct (IH x s r1 s1 Hpx Ho ((at_, Datatypes.S k) :: rest)) as [f1 Hf1].
        exists (Datatypes.S f1). intros m. simpl. rewrite Hrs, Hx, bind_run, Ho. apply Hf1. }
    destruct r1 as [[]|e].
    + specialize (IHl s1 r s' Hrun). destruct r as [[]|e]; destruct IHl as [f2 Hf2];
        exists (f1 + f2)%nat; intros m; rewrite <- Nat.add_assoc, Hf1; [apply Hf2|].
      rewrite Hf2. by rewrite !fail_all_cons.
    + injection Hrun as <- <-. exists f1. intros m. rewrite Hf1. by rewrite !fail_all_cons.
Qed.

Lemma pull_walks h : ∀ at_ s r s', pull_rec h at_ s = Some (r, s') → this_tick at_ s = Some (Ok None, s) →
  ∀ rest, walks ((at_, O) :: rest) rest s r s'.
Proof.
  induction h as [|h IH]; intros at_ s r s' Hrun Ho rest; [done|].
  simpl in Hrun. rewrite bind_run, Ho in Hrun. destruct (reads !! at_) as [rs|] eqn:Hrs; [|done].
  rewrite bind_run in Hrun. unfold t_result in Hrun. rewrite bind_run in Hrun.
  destruct (t_for rs (pull_rec h) s) as [[r1 s1]|] eqn:Hf; [|done].
  pose proof (walks_reads h at_ rs rest IH Hrs rs O ltac:(lia) eq_refl s r1 s1 Hf) as Hw.
  destruct r1 as [[]|e].
  - destruct Hw as [f Hw]. destruct (evaluate at_ s1) as [[[[]|e] s2]|] eqn:He; [..|done].
    + rewrite mark_run in Hrun. destruct (mark_at None at_ s2) as [s3|] eqn:Hm; [|done].
      injection Hrun as <- <-. exists (f + 1)%nat. intros m. rewrite <- Nat.add_assoc, Hw. simpl.
      rewrite Hrs, lookup_ge_None_2 by lia. rewrite bind_run. unfold t_result. rewrite He.
      rewrite bind_run, mark_run, Hm. done.
    + rewrite bind_run, mark_run in Hrun. destruct (mark_at _ at_ s2) as [s3|] eqn:Hm; [|done].
      injection Hrun as <- <-. exists (f + 1)%nat. intros m. rewrite <- Nat.add_assoc, Hw. simpl.
      rewrite Hrs, lookup_ge_None_2 by lia. rewrite bind_run. unfold t_result. rewrite He.
      by rewrite fail_all_cons, Hm.
  - destruct Hw as [f Hw]. rewrite bind_run, mark_run in Hrun.
    destruct (mark_at _ at_ s1) as [s3|] eqn:Hm; [|done]. injection Hrun as <- <-.
    exists f. intros m. rewrite Hw. by rewrite fail_all_cons, Hm.
Qed.

(** ** What a pull does *)

(** The outcome of a node this tick, and the nodes evaluated so far. *)
Definition fresh (s : Pulls W) (i : nat) : option (result BehaviorTreeError unit) :=
  c ← d_caches s !! i; outcome_of i (d_tick s) c.
Variable log : W → list nat.

(** How many times a node called its function, a [u64]. *)
Definition calls_of (s : Pulls W) (i : nat) : option Z := c_calls <$> d_caches s !! i.
Definition called_once (s s' : Pulls W) (i : nat) : Prop :=
  calls_of s' i = calls_of s i ∨ calls_of s' i = (λ n, (n + 1) mod 2 ^ 64) <$> calls_of s i.

(** Evaluating a node calls its function at most once, returns, leaves the marks alone, and is logged. *)
Definition evaluates : Prop := ∀ i s, (i < length reads)%nat → length (d_caches s) = length reads →
  ∃ r s', evaluate i s = Some (r, s') ∧ d_tick s' = d_tick s ∧ length (d_caches s') = length (d_caches s)
    ∧ (∀ j, fresh s' j = fresh s j) ∧ (∀ j, j ≠ i → calls_of s' j = calls_of s j) ∧ called_once s s' i
    ∧ log (d_world s') = log (d_world s) ++ [i].

(** From [s] to [s'] the nodes [new] were evaluated, in that order: each once, none
    that was up to date, each after the nodes it reads; a node calls its function at
    most once, and only if evaluated. *)
Record pulled (s s' : Pulls W) (new : list nat) : Prop := {
  p_log : log (d_world s') = log (d_world s) ++ new;
  p_tick : d_tick s' = d_tick s;
  p_length : length (d_caches s') = length (d_caches s);
  p_once : NoDup new;
  p_new i : i ∈ new → fresh s i = None ∧ is_Some (fresh s' i);
  p_kept i o : fresh s i = Some o → fresh s' i = Some o;
  p_ok i : fresh s' i = Some (Ok tt) → fresh s i = Some (Ok tt) ∨ i ∈ new;
  p_calls i : called_once s s' i ∧ (i ∉ new → calls_of s' i = calls_of s i);
  p_order before i after : new = before ++ i :: after → ∀ r, reads_node reads i r →
    fresh s r = Some (Ok tt) ∨ r ∈ before;
}.

Lemma pulled_refl s : pulled s s [].
Proof.
  split; try done; try (by rewrite app_nil_r); try (by constructor); try (by intros; left).
  - intros i H. inversion H.
  - intros i. split; [by left|done].
  - intros before i after H. by apply app_cons_not_nil in H.
Qed.
Lemma pulled_trans s1 s2 s3 new new' : pulled s1 s2 new → pulled s2 s3 new' → pulled s1 s3 (new ++ new').
Proof.
  intros [Hl Ht Hn Hd Hnew Hk Ho Hc Hr] [Hl' Ht' Hn' Hd' Hnew' Hk' Ho' Hc' Hr'].
  assert (∀ i, i ∈ new → i ∉ new') as Hapart.
  { intros i [_ [o Hi]]%Hnew [Hi' _]%Hnew'. congruence. }
  split.
  - by rewrite Hl', Hl, app_assoc.
  - congruence.
  - congruence.
  - apply NoDup_app. split; [done|]. split; [|done]. exact Hapart.
  - intros i [Hi|Hi]%elem_of_app.
    + destruct (Hnew i Hi) as [? [o Hi']]. split; [done|]. exists o. by apply Hk'.
    + destruct (Hnew' i Hi) as [Hi' ?]. split; [|done]. destruct (fresh s1 i) as [o|] eqn:He; [|done].
      apply Hk in He. congruence.
  - auto.
  - intros i [Hi|Hi]%Ho'; [|right; apply elem_of_app; by right].
    destruct (Ho i Hi); [by left|right; apply elem_of_app; by left].
  - intros i. destruct (Hc i) as [Hc1 Hc2], (Hc' i) as [Hc1' Hc2']. split.
    + unfold called_once in *. destruct (decide (i ∈ new)) as [Hi|Hi].
      * by rewrite (Hc2' (Hapart i Hi)).
      * by rewrite <- (Hc2 Hi).
    + intros Hi. rewrite Hc2', Hc2; [done|..]; contradict Hi; apply elem_of_app; auto.
  - intros before i after He r Hir.
    assert (∀ k, new' = k ++ i :: after → before = new ++ k → fresh s1 r = Some (Ok tt) ∨ r ∈ before) as Hlate.
    { intros k Hk1 ->. destruct (Hr' k i after Hk1 r Hir) as [H|H]; [|right; apply elem_of_app; by right].
      destruct (Ho r H); [by left|right; apply elem_of_app; by left]. }
    apply app_eq_inv in He as [(k & Hk1 & He)|(k & Hk1 & He)]; [|by apply (Hlate k)].
    destruct k as [|x k]; simpl in He.
    + rewrite app_nil_r in Hk1. apply (Hlate []); [done|by rewrite app_nil_r].
    + injection He as -> ->. by apply (Hr before x k).
Qed.

Lemma mark_fresh v i s : (i < length (d_caches s))%nat →
  ∃ s', mark_at v i s = Some s' ∧ d_world s' = d_world s ∧ d_tick s' = d_tick s
    ∧ length (d_caches s') = length (d_caches s)
    ∧ fresh s' i = Some (match v with None => Ok tt
                         | Some why => Err (CallErr (Generic (DetachedFailed (default 0 (node_ids !! i)) why))) end)
    ∧ (∀ j, j ≠ i → fresh s' j = fresh s j) ∧ (∀ j, calls_of s' j = calls_of s j).
Proof.
  intros Hi. destruct (lookup_lt_is_Some_2 _ _ Hi) as [c Hc]. unfold mark_at. rewrite Hc. simpl.
  eexists. split; [done|]. simpl. split; [done|]. split; [done|]. split; [by rewrite length_insert|].
  split; [|split]; unfold fresh, calls_of; simpl.
  - rewrite list_lookup_insert_eq by done. simpl. unfold outcome_of. simpl. by rewrite Z.eqb_refl.
  - intros j Hj. by rewrite list_lookup_insert_ne.
  - intros j. destruct (decide (j = i)) as [->|]; [|by rewrite list_lookup_insert_ne].
    by rewrite list_lookup_insert_eq, Hc.
Qed.

Lemma this_tick_fresh i s : (i < length (d_caches s))%nat → this_tick i s = Some (Ok (fresh s i), s).
Proof.
  intros Hi. destruct (lookup_lt_is_Some_2 _ _ Hi) as [c Hc]. unfold this_tick, fresh. by rewrite Hc.
Qed.

(** Marking a node not yet up to date as failed. *)
Lemma pulled_failed s s' i why : (i < length (d_caches s))%nat → fresh s i = None →
  mark_at (Some why) i s = Some s' → pulled s s' [].
Proof.
  intros Hi Hf Hm. destruct (mark_fresh (Some why) i s Hi) as (s1 & Hm' & Hw & Ht & Hl & Hfi & Hfj & Hcj).
  assert (s1 = s') as -> by congruence. split; try congruence.
  - by rewrite Hw, app_nil_r.
  - constructor.
  - intros j H. inversion H.
  - intros j o Hj. rewrite Hfj; [done|]. intros ->. congruence.
  - intros j Hj. left. destruct (decide (j = i)) as [->|]; [congruence|]. by rewrite <- Hfj.
  - intros j. split; [by left|done].
  - intros before j after H. by apply app_cons_not_nil in H.
Qed.
(** Evaluating a node whose reads are up to date, and marking it. *)
Lemma pulled_evaluated s s1 s2 v i :
  (i < length (d_caches s))%nat → fresh s i = None → (∀ r, reads_node reads i r → fresh s r = Some (Ok tt)) →
  d_tick s1 = d_tick s → length (d_caches s1) = length (d_caches s) → (∀ j, fresh s1 j = fresh s j) →
  (∀ j, j ≠ i → calls_of s1 j = calls_of s j) → called_once s s1 i →
  log (d_world s1) = log (d_world s) ++ [i] → mark_at v i s1 = Some s2 → pulled s s2 [i].
Proof.
  intros Hi Hf Hr Ht Hl Hs1 Hcalls Honce Hlog Hm.
  destruct (mark_fresh v i s1 ltac:(congruence)) as (s2' & Hm' & Hw & Ht' & Hl' & Hfi & Hfj & Hcj).
  assert (s2' = s2) as -> by congruence. split; try congruence.
  - apply NoDup_singleton.
  - intros j ->%list_elem_of_singleton. by rewrite Hfi.
  - intros j o Hj. rewrite Hfj, Hs1; [done|]. intros ->. congruence.
  - intros j Hj. destruct (decide (j = i)) as [->|]; [right; by left|left]. by rewrite <- Hs1, <- Hfj.
  - intros j. destruct (decide (j = i)) as [->|Hne].
    + split; [unfold called_once in *; by rewrite Hcj|]. intros H. destruct H. by left.
    + assert (calls_of s2 j = calls_of s j) as He by (by rewrite Hcj, Hcalls). split; [by left|done].
  - intros before j after He r Hjr. destruct before as [|x before]; simpl in He; injection He.
    + intros _ ->. left. auto.
    + intros H. by apply app_cons_not_nil in H.
Qed.

Section Ranked.
Variable rank : nat → nat.
Hypothesis Hrank : ∀ i r, reads_node reads i r → (rank r < rank i)%nat.
Hypothesis Hreads : reads_ok reads.
Hypothesis Heval : evaluates.

(** Only nodes of a rank at most [k] are marked. *)
Definition marks_below (k : nat) (s s' : Pulls W) : Prop :=
  ∀ i, fresh s i = None → is_Some (fresh s' i) → (rank i <= k)%nat.

Definition pulls_node (run : M unit) (at_ : nat) (s : Pulls W) : Prop :=
  ∃ r s' new, run s = Some (r, s') ∧ pulled s s' new ∧ marks_below (rank at_) s s'
    ∧ (r = Ok tt → fresh s' at_ = Some (Ok tt)) ∧ is_Some (fresh s' at_).

Lemma pull_reads_spec h k : 
  (∀ x s, (x < length reads)%nat → (rank x < h)%nat → length (d_caches s) = length reads →
     pulls_node (pull_rec h x) x s) →
  ∀ rs, Forall (λ x, (x < length reads)%nat ∧ (rank x < k)%nat ∧ (rank x < h)%nat) rs →
  ∀ s, length (d_caches s) = length reads →
  ∃ r s' new, t_for rs (pull_rec h) s = Some (r, s') ∧ pulled s s' new
    ∧ (∀ i, fresh s i = None → is_Some (fresh s' i) → (rank i < k)%nat)
    ∧ (r = Ok tt → ∀ x, x ∈ rs → fresh s' x = Some (Ok tt)).
Proof.
  intros IH rs. induction rs as [|x rs IHrs]; intros Hall s Hs.
  - exists (Ok tt), s, []. split; [done|]. split; [apply pulled_refl|]. split.
    + intros i H [o Ho]. congruence.
    + intros _ x H. inversion H.
  - apply Forall_cons in Hall as [(Hx & Hk & Hh) Hall].
    destruct (IH x s Hx Hh Hs) as (r1 & s1 & new1 & Hrun & Hp1 & Hm1 & Hok1 & _). simpl. rewrite bind_run, Hrun.
    pose proof (p_length _ _ _ Hp1) as Hl1. destruct r1 as [[]|e].
    + destruct (IHrs Hall s1 ltac:(congruence)) as (r2 & s2 & new2 & Hrun2 & Hp2 & Hm2 & Hok2).
      exists r2, s2, (new1 ++ new2). split; [done|]. split; [by eapply pulled_trans|]. split.
      * intros i Hi Hi2. destruct (fresh s1 i) as [o|] eqn:Hi1; [|by apply Hm2].
        specialize (Hm1 i Hi ltac:(by eexists)). lia.
      * intros -> y [->|Hy]%elem_of_cons; [|by apply Hok2]. by apply (p_kept _ _ _ Hp2), Hok1.
    + exists (Err e), s1, new1. split; [done|]. split; [done|]. split; [|done].
      intros i Hi Hi1. specialize (Hm1 i Hi Hi1). lia.
Qed.

Lemma pull_rec_spec h : ∀ at_ s, (at_ < length reads)%nat → (rank at_ < h)%nat →
  length (d_caches s) = length reads → pulls_node (pull_rec h at_) at_ s.
Proof.
  induction h as [|h IH]; intros at_ s Hat Hh Hs; [lia|]. unfold pulls_node. simpl.
  rewrite bind_run, this_tick_fresh by congruence.
  destruct (fresh s at_) as [o|] eqn:Hf.
  { exists o, s, []. split; [done|]. split; [apply pulled_refl|]. split; [|split; [by intros ->|by eexists]].
    intros i H [? ?]. congruence. }
  destruct (lookup_lt_is_Some_2 _ _ Hat) as [rs Hrs]. rewrite Hrs.
  assert (∀ x, x ∈ rs → reads_node reads at_ x) as Hrn by (intros x Hx; by exists rs).
  destruct (pull_reads_spec h (rank at_) IH rs) with (s := s)
    as (r1 & s1 & new1 & Hrun & Hp1 & Hm1 & Hok1); [|done|].
  { apply Forall_forall. intros x Hx. specialize (Hrank _ _ (Hrn x Hx)). split; [|lia].
    by apply (Hreads at_ rs). }
  pose proof (p_length _ _ _ Hp1) as Hl1.
  assert (fresh s1 at_ = None) as Hf1.
  { destruct (fresh s1 at_) eqn:He; [|done]. specialize (Hm1 at_ Hf ltac:(by eexists)). lia. }
  rewrite bind_run. unfold t_result. rewrite bind_run, Hrun. destruct r1 as [[]|e].
  - destruct (Heval at_ s1 Hat ltac:(congruence)) as (r & s2 & He & Ht2 & Hl2 & Hf2 & Hc2 & Honce & Hlog). rewrite He.
    set (v := match r with Ok _ => None | Err e => Some (ToString e) end).
    destruct (mark_fresh v at_ s2 ltac:(congruence)) as (s3 & Hm & _ & _ & _ & Hfa & Hfj & _).
    assert (pulled s1 s3 [at_]) as Hp3.
    { apply (pulled_evaluated s1 s2 s3 v at_); try done; [congruence|]. intros x (rs' & Hrs' & Hx).
      apply Hok1; [done|]. congruence. }
    exists r, s3, (new1 ++ [at_]). split; [|split; [by eapply pulled_trans|split; [|split]]].
    + destruct r as [[]|e]; [by rewrite mark_run; unfold v in Hm; rewrite Hm|].
      rewrite bind_run, mark_run. unfold v in Hm. by rewrite Hm.
    + intros i Hi Hi3. destruct (decide (i = at_)) as [->|Hne]; [lia|].
      rewrite Hfj, Hf2 in Hi3 by done. specialize (Hm1 i Hi Hi3). lia.
    + intros ->. exact Hfa.
    + rewrite Hfa. by eexists.
  - destruct (mark_fresh (Some (ToString e)) at_ s1 ltac:(congruence)) as (s3 & Hm & _ & _ & _ & Hfa & Hfj & _).
    exists (Err e), s3, (new1 ++ []). split; [by rewrite bind_run, mark_run, Hm|].
    split; [|split; [|split; [done|rewrite Hfa; by eexists]]].
    + eapply pulled_trans; [done|]. eapply pulled_failed; [|done|done]. congruence.
    + intros i Hi Hi3. destruct (decide (i = at_)) as [->|Hne]; [lia|].
      rewrite Hfj in Hi3 by done. specialize (Hm1 i Hi Hi3). lia.
Qed.

(** Whatever the reads asked for in one tick, in whatever order. *)
Lemma requests_spec requests : ∀ s, Forall (λ i, i < length reads)%nat requests → length (d_caches s) = length reads →
  ∃ fuel s' new, (∀ more, requests_of (fuel + more) requests s = Some (Ok tt, s')) ∧ pulled s s' new
    ∧ Forall (λ i, is_Some (fresh s' i)) requests.
Proof.
  induction requests as [|i requests IH]; intros s Hall Hs.
  { exists O, s, []. split; [done|]. split; [apply pulled_refl|constructor]. }
  apply Forall_cons in Hall as [Hi Hall].
  destruct (pull_rec_spec (Datatypes.S (rank i)) i s Hi ltac:(lia) Hs) as (r & s1 & new & Hrun & Hp & _ & _ & [o1 Ho1]).
  pose proof (p_length _ _ _ Hp) as Hl.
  destruct (IH s1 Hall ltac:(congruence)) as (f2 & s2 & new2 & Hf2 & Hp2 & Ho2).
  assert (∃ f1, ∀ more, bring_up_to_date (f1 + more) i s = Some (r, s1)) as [f1 Hf1].
  { unfold bring_up_to_date. pose proof (this_tick_fresh i s ltac:(lia)) as Hth.
    destruct (fresh s i) as [o|] eqn:Hfr.
    - exists O. intros more. rewrite bind_run, Hth. simpl in Hrun. rewrite bind_run, Hth in Hrun. exact Hrun.
    - destruct (pull_walks _ i s r s1 Hrun Hth []) as [f Hf]. exists (Datatypes.S f). intros more.
      rewrite bind_run, Hth. replace (Datatypes.S f + more)%nat with (f + Datatypes.S more)%nat by lia.
      rewrite Hf. by destruct r as [[]|e]. }
  exists (f1 + f2)%nat, s2, (new ++ new2).
  split; [|split; [by eapply pulled_trans|constructor; [by eexists; apply (p_kept _ _ _ Hp2)|done]]].
  intros more. unfold requests_of. simpl. rewrite bind_run. unfold request at 1. rewrite bind_run. unfold t_result.
  replace (f1 + f2 + more)%nat with (f1 + (f2 + more))%nat at 1 by lia. rewrite Hf1. cbn.
  replace (f1 + f2 + more)%nat with (f2 + (f1 + more))%nat by lia. apply Hf2.
Qed.
End Ranked.
End Walk.

(** The place of a node in the order. *)
Definition position (order : list nat) (i : nat) : nat :=
  match list_find (λ j, j = i) order with Some (n, _) => n | None => O end.
Lemma position_lookup order i n : NoDup order → order !! n = Some i → position order i = n.
Proof.
  intros Hd Hn. unfold position. destruct (list_find _ order) as [[m x]|] eqn:Hf.
  - apply list_find_Some in Hf as (Hm & -> & _). by eapply NoDup_lookup.
  - apply list_find_None in Hf. rewrite Forall_lookup in Hf. by destruct (Hf n i Hn).
Qed.
Lemma order_ranks reads order : order ≡ₚ seq 0 (length reads) → after_reads reads order →
  ∀ i r, reads_node reads i r → (position order r < position order i)%nat.
Proof.
  intros Hp Ho i r Hir. assert (NoDup order) as Hd by (rewrite Hp; apply NoDup_seq).
  assert (i ∈ order) as Hi.
  { rewrite Hp. apply elem_of_seq. destruct Hir as (rs & Hrs & _). apply lookup_lt_Some in Hrs. lia. }
  destruct (ordered_rank reads order Hd Ho i r Hi Hir) as (n & m & Hn & Hm & Hlt).
  by rewrite (position_lookup _ _ _ Hd Hn), (position_lookup _ _ _ Hd Hm).
Qed.

(** ** The same walk, with a log of what it evaluates *)
Section Logged.
Context {W : Type} (node_ids : list Uuid) (reads : list (list nat)).
Variable evaluate : nat → T (Pulls W) BehaviorTreeError unit.

Definition unlogged (s : Pulls (W * list nat)) : Pulls W := mkPulls (d_world s).1 (d_caches s) (d_tick s).
Definition logged (i : nat) : T (Pulls (W * list nat)) BehaviorTreeError unit := λ s,
  match evaluate i (unlogged s) with
  | Some (r, s') => Some (r, mkPulls (d_world s', (d_world s).2 ++ [i]) (d_caches s') (d_tick s'))
  | None => None
  end.
(** What [m] does, the log aside. *)
Definition unlogs {A} (m : T (Pulls W) BehaviorTreeError A) (m' : T (Pulls (W * list nat)) BehaviorTreeError A) : Prop :=
  ∀ s r s', m' s = Some (r, s') → m (unlogged s) = Some (r, unlogged s').

Lemma unlogs_bind {A B} (m : T (Pulls W) BehaviorTreeError A) m' (k : A → T (Pulls W) BehaviorTreeError B) k' :
  unlogs m m' → (∀ a, unlogs (k a) (k' a)) → unlogs (m ≫= k) (m' ≫= k').
Proof.
  intros Hm Hk s r s'. rewrite !bind_run. destruct (m' s) as [[[a|e] s1]|] eqn:He; [..|done];
    rewrite (Hm _ _ _ He); [apply Hk|]. by intros [= <- <-].
Qed.
Lemma unlogs_ret {A} (a : A) : unlogs (mret a) (mret a).
Proof. by intros s r s' [= <- <-]. Qed.
Lemma unlogs_fail {A} e : unlogs (t_fail e : T _ _ A) (t_fail e).
Proof. by intros s r s' [= <- <-]. Qed.
Lemma unlogs_of {A} (x : result _ A) : unlogs (t_of x) (t_of x).
Proof. by intros s r s' [= <- <-]. Qed.
Lemma unlogs_diverge {A} : unlogs (t_diverge : T _ _ A) t_diverge.
Proof. by intros s r s' H. Qed.
Lemma unlogs_result {A} (m : T (Pulls W) BehaviorTreeError A) m' : unlogs m m' → unlogs (t_result m) (t_result m').
Proof.
  intros Hm s r s'. unfold t_result. destruct (m' s) as [[x s1]|] eqn:He; [|done].
  rewrite (Hm _ _ _ He). by intros [= <- <-].
Qed.
Lemma unlogs_for {A} (l : list A) f f' : (∀ a, unlogs (f a) (f' a)) → unlogs (t_for l f) (t_for l f').
Proof. intros Hf. induction l as [|a l IH]; [apply unlogs_ret|]. apply unlogs_bind; [apply Hf|by intros []]. Qed.
Lemma unlogs_this_tick i : unlogs (this_tick node_ids i) (this_tick node_ids i).
Proof. intros s r s'. unfold this_tick, unlogged. simpl. destruct (d_caches s !! i); [|done]. by intros [= <- <-]. Qed.
Lemma unlogs_mark i v : unlogs (mark i v) (mark i v).
Proof. intros s r s'. unfold mark, unlogged. simpl. destruct (d_caches s !! i); [|done]. by intros [= <- <-]. Qed.
Lemma unlogs_evaluate i : unlogs (evaluate i) (logged i).
Proof.
  intros s r s'. unfold logged. destruct (evaluate i (unlogged s)) as [[x s1]|]; [|done].
  intros [= <- <-]. by destruct s1.
Qed.
Lemma unlogs_bring_up fuel : ∀ stack,
  unlogs (bring_up node_ids reads evaluate fuel stack) (bring_up node_ids reads logged fuel stack).
Proof.
  induction fuel as [|fuel IH]; intros stack; [apply unlogs_diverge|]. simpl.
  destruct stack as [|[i k] rest]; [apply unlogs_ret|].
  assert (∀ stack e, unlogs (fail_all stack e) (fail_all stack e)) as Hfail.
  { intros. apply unlogs_bind; [apply unlogs_for; intros; apply unlogs_mark|intros; apply unlogs_fail]. }
  destruct (reads !! i) as [rs|]; [|apply unlogs_diverge]. destruct (rs !! k) as [r|].
  - apply unlogs_bind; [apply unlogs_this_tick|]. intros [[[]|e]|]; auto.
  - apply unlogs_bind; [apply unlogs_result, unlogs_evaluate|]. intros [[]|e]; [|auto].
    apply unlogs_bind; [apply unlogs_mark|]. intros []. apply IH.
Qed.
Lemma unlogs_requests fuel requests :
  unlogs (requests_of node_ids reads evaluate fuel requests) (requests_of node_ids reads logged fuel requests).
Proof.
  apply unlogs_for. intros i. apply unlogs_bind; [|intros; apply unlogs_ret]. apply unlogs_result.
  apply unlogs_bind; [apply unlogs_this_tick|]. intros [x|]; [apply unlogs_of|apply unlogs_bring_up].
Qed.
End Logged.

(** C34. Where the sort orders the detached nodes, whatever is read in a tick, and in
    whatever order, every read returns; no node is evaluated twice, none that was
    already up to date, and each only once all it reads are up to date. *)
Theorem pulled_once_per_tick {W : Type} (node_ids : list Uuid) (reads : list (list nat))
    (evaluate : nat → T (Pulls W) BehaviorTreeError unit) (log : W → list nat) (order requests : list nat)
    (s : Pulls W) (Hreads : reads_ok reads) (Horder : sorted reads (enough_turns reads) = Some (Ok order))
    (Heval : evaluates node_ids reads evaluate log)
    (Hrequests : Forall (λ i, i < length reads)%nat requests) (Hs : length (d_caches s) = length reads) :
  ∃ fuel s' new,
    (∀ more, requests_of node_ids reads evaluate (fuel + more) requests s = Some (Ok tt, s'))
    ∧ pulled node_ids reads log s s' new ∧ Forall (λ i, is_Some (fresh node_ids s' i)) requests.
Proof.
  pose proof (sorted_gen reads Hreads) as Hgen. rewrite Horder in Hgen. destruct Hgen as (Hp & Ho & _).
  exact (requests_spec node_ids reads evaluate log (position order) (order_ranks reads order Hp Ho)
           Hreads Heval requests s Hrequests Hs).
Qed.

(** The walk with its own stack does what the recursion over the reads does: it
    ends where the recursion ends, with its outcome, in its state. *)
Theorem walk_is_recursion {W : Type} (node_ids : list Uuid) (reads : list (list nat))
    (evaluate : nat → T (Pulls W) BehaviorTreeError unit) (height at_ : nat)
    (s s' : Pulls W) (r : result BehaviorTreeError unit)
    (Hrun : pull_rec node_ids reads evaluate height at_ s = Some (r, s')) :
  ∃ fuel, ∀ more, bring_up_to_date node_ids reads evaluate (fuel + more) at_ s = Some (r, s').
Proof.
  assert (∃ o, this_tick node_ids at_ s = Some (Ok o, s)) as [o Ho].
  { destruct height; [done|]. simpl in Hrun. rewrite bind_run in Hrun. unfold this_tick in *.
    destruct (d_caches s !! at_); [by eexists|done]. }
  unfold bring_up_to_date. destruct o as [o|].
  - exists O. intros more. rewrite bind_run, Ho. destruct height; [done|]. simpl in Hrun.
    by rewrite bind_run, Ho in Hrun.
  - destruct (pull_walks node_ids reads evaluate _ at_ s r s' Hrun Ho []) as [f Hf]. exists (S f). intros more.
    rewrite bind_run, Ho. replace (S f + more)%nat with (f + S more)%nat by lia. rewrite Hf. by destruct r as [[]|e].
Qed.
