(* ===== verification/Evaluation.v ===== *)
(** * Evaluating a detached node: [evaluate] and [tick_sinks] of
    [crates/arora-behavior-tree/src/detached.rs]

    A node calls its function only when its arguments differ from those of its last
    call; where every argument reads a cell they are compared in place. Its outputs
    go to its cells at once and to the store's keys after the tree ticks. What
    lowering found of the nodes ([Lowered]) is given. Traces are not modelled. *)

From S2P Require Import Prelude Values Extern Keys State Store Effects Nodes Schema Cells Expressions Sorting Detached.

Section Evaluation.
Context {S X : Type} `{DS : DataStore S} `{UC : UuidCrate} `{CB : !CallBridge S X} (usize_max : Z).
Local Abbreviation Slot := (@SlotHandle S _).
Local Abbreviation Cell := (VariableCell Slot).
Local Abbreviation W := (World S X).
Local Abbreviation M := (T (Pulls W) BehaviorTreeError).

(** ** [Output], [Source], [Argument], [Lowered] *)
Record Output := mkOutput { o_port : Uuid; o_cell : Cell; o_publish : option Cell; o_optional : bool }.
Inductive ArgumentSource := SCell (cell : option Cell) | SComputed (e : Expression Slot).
Record Argument := mkArgument { a_parameter : Uuid; a_optional : bool; a_source : ArgumentSource }.
Record Lowered := mkLowered {
  l_signatures : FunctionIndex;
  l_reads : list (list nat);
  l_arguments : list (list Argument);
  l_modules : list (option Uuid);
  l_rewrites : list bool;
  l_outputs : list (list Output);
  l_cells_only : list bool;
  l_sinks : list nat;
  l_observed : list nat;
  l_pulls : gmap Uuid (list nat);
}.

(** ** [holds_argument] *)
Definition holds_argument (cell : option Cell) (cached : Value) (optional : bool) (w : W) : bool :=
  match cell ≫= (λ c, get c w), optional with
  | Some (Value.Option o), _ => value_eqb cached (Value.Option o)
  | Some value, true => match cached with Value.Option (Some inner) => value_eqb inner value | _ => false end
  | Some value, false => value_eqb cached value
  | None, true => match cached with Value.Option None => true | _ => false end
  | None, false => match cached with Value.Unit => true | _ => false end
  end.

(** Code over the world, and over one node's cache. *)
Definition on_world {A} (m : T W BehaviorTreeError A) : M A := λ s,
  match m (d_world s) with
  | Some (r, w) => Some (r, mkPulls w (d_caches s) (d_tick s))
  | None => None
  end.
Definition cache_of (at_ : nat) : M Cache := λ s,
  match d_caches s !! at_ with Some c => Some (Ok c, s) | None => None end.
Definition update_cache (at_ : nat) (f : Cache → Cache) : M unit := λ s,
  match d_caches s !! at_ with
  | Some c => Some (Ok tt, mkPulls (d_world s) (<[at_ := f c]> (d_caches s)) (d_tick s))
  | None => None
  end.
(** [self.caches.borrow_mut()[at].calls += 1], a [u64]. *)
Definition count_call (c : Cache) : Cache :=
  mkCache (c_tick c) (c_arguments c) (c_outputs c) ((c_calls c + 1) mod 2 ^ 64) (c_failed c).
Definition keep_call (values : list Value) (results : list (Uuid * Value)) (c : Cache) : Cache :=
  mkCache (c_tick c) (Some values) results (c_calls c) (c_failed c).
(** [v[at]]: a panic out of range. *)
Definition at_index {A} (l : list A) (at_ : nat) : M A :=
  match l !! at_ with Some a => mret a | None => t_diverge end.

(** A mutable parameter bound to a key has the key's value as its state. *)
Definition seed (outputs : list Output) : T W BehaviorTreeError unit :=
  t_for outputs (λ o,
    match o_publish o with
    | Some key => if o_port o =? _RET_PARAM_ID then mret tt
                  else t_modify (λ w, set_opt (o_cell o) (get key w) w)
    | None => mret tt
    end).

(** The last call's arguments, compared with their cells in place. *)
Fixpoint hold_all (arguments : list Argument) (cached : list Value) (w : W) : bool :=
  match arguments, cached with
  | a :: arguments, v :: cached =>
      (match a_source a with SCell c => holds_argument c v (a_optional a) w | SComputed _ => false end)
      && hold_all arguments cached w
  | _, _ => true
  end.
Definition unchanged_in_place (arguments : list Argument) (cached : list Value) (w : W) : bool :=
  (length cached =? length arguments)%nat && hold_all arguments cached w.

Definition argument_now (scope : Scope S) (node : Uuid) (a : Argument) : T W BehaviorTreeError Value :=
  match a_source a with
  | SComputed e =>
      value ← compute_expression usize_max scope (mkNodeParameterId node (a_parameter a)) e;
      mret (argument_value (not_unit value) (a_optional a))
  | SCell c => t_gets (λ w, argument_value (c ≫= λ c, get c w) (a_optional a))
  end.
Fixpoint arguments_now (scope : Scope S) (node : Uuid) (arguments : list Argument) : T W BehaviorTreeError (list Value) :=
  match arguments with
  | [] => mret []
  | a :: arguments => v ← argument_now scope node a; vs ← arguments_now scope node arguments; mret (v :: vs)
  end.

(** [outputs.iter().find(|(port, _)| *port == output.port)] *)
Definition output_value (results : list (Uuid * Value)) (port : Uuid) : option Value :=
  snd <$> (snd <$> list_find (λ e, e.1 = port) results).
Definition write_outputs (outputs : list Output) (results : list (Uuid * Value)) : T W BehaviorTreeError unit :=
  t_for outputs (λ o,
    match output_value results (o_port o) with
    | Some value => t_modify (write_back (o_cell o) value (o_optional o))
    | None => mret tt
    end).

(** [Detached::rewrite] *)
Definition rewrite (at_ : nat) (outputs : list Output) : M unit :=
  c ← cache_of at_; on_world (write_outputs outputs (c_outputs c)).

(** What a call left: the mutable parameters as they were given, the return, then
    what the call reports mutated. *)
Definition given (arguments : list Argument) (values : list Value) (outputs : list Output) : list (Uuid * Value) :=
  if (1 <? length outputs)%nat
  then filter (λ e, e.1 ∈ (o_port <$> outputs)) (zip (a_parameter <$> arguments) values)
  else [].
Definition report (results : list (Uuid * Value)) (field : StructureField) : list (Uuid * Value) :=
  match list_find (λ e, e.1 = sf_id field) results with
  | Some (i, _) => <[i := (sf_id field, sf_value field)]> results
  | None => results ++ [(sf_id field, sf_value field)]
  end.
Definition results_of (arguments : list Argument) (values : list Value) (outputs : list Output)
    (result : CallResult) : list (Uuid * Value) :=
  foldl report (given arguments values outputs ++ [(_RET_PARAM_ID, ret result)]) (mutated result).

(** [self.caches.borrow()[at].arguments == Some(values)] *)
Definition same_arguments (cached : option (list Value)) (values : list Value) : bool :=
  match cached with Some cached => list_eqb value_eqb cached values | None => false end.

Section Node.
Variable l : Lowered.
Variable node_of : nat → option (Node Slot).
Variable scope0 : Scope S.

(** What an unchanged node does. *)
Definition keep (at_ : nat) (outputs : list Output) : M unit :=
  rewrites ← at_index (l_rewrites l) at_;
  if (rewrites : bool) then rewrite at_ outputs else mret tt.

(** The call of a node whose arguments changed. *)
Definition call (at_ : nat) (node : Node Slot) (arguments : list Argument) (outputs : list Output)
    (values : list Value) : M unit :=
  module_id ← at_index (l_modules l) at_;
  module_id ← t_ok_or module_id (CallErr (FunctionNotFound (n_function node)));
  _ ← update_cache at_ count_call;
  result ← on_world (bridge_call (mkCall (Some module_id) (n_function node)
                       (zip_with mkStructureField (a_parameter <$> arguments) values)));
  let results := results_of arguments values outputs result in
  _ ← on_world (write_outputs outputs results);
  update_cache at_ (keep_call values results).

(** The comparison of the values computed, and what follows. *)
Definition compare (at_ : nat) (node : Node Slot) (scope : Scope S) (arguments : list Argument)
    (outputs : list Output) (known_changed : bool) : M unit :=
  values ← on_world (arguments_now scope (n_id node) arguments);
  c ← cache_of at_;
  if known_changed || negb (same_arguments (c_arguments c) values)
  then call at_ node arguments outputs values
  else keep at_ outputs.

(** [Detached::evaluate], given whether the arguments compare in place. *)
Definition evaluate_comparing (in_place : bool) (at_ : nat) : M unit :=
  let scope := mkScope (variables scope0) (node_parameters_variables scope0) (l_signatures l) in
  node ← match node_of at_ with Some node => mret node | None => t_diverge end;
  outputs ← at_index (l_outputs l) at_;
  _ ← on_world (seed outputs);
  arguments ← at_index (l_arguments l) at_;
  if (in_place : bool)
  then
    c ← cache_of at_;
    match c_arguments c with
    | Some cached =>
        unchanged ← on_world (t_gets (unchanged_in_place arguments cached));
        if (unchanged : bool) then keep at_ outputs
        else compare at_ node scope arguments outputs true
    | None => compare at_ node scope arguments outputs false
    end
  else compare at_ node scope arguments outputs false.
Definition evaluate (at_ : nat) : M unit :=
  in_place ← at_index (l_cells_only l) at_;
  evaluate_comparing in_place at_.

(** ** [tick_sinks] *)

(** Each is brought up to date, whatever became of those before it: the first
    failure is kept. *)
Fixpoint bring_all (fuel : nat) (node_ids : list Uuid) (nodes : list nat) (failure : option BehaviorTreeError) :
    M (option BehaviorTreeError) :=
  match nodes with
  | [] => mret failure
  | at_ :: nodes =>
      outcome ← t_result (bring_up_to_date node_ids (l_reads l) evaluate fuel at_);
      bring_all fuel node_ids nodes
        (match failure, outcome with None, Err e => Some e | _, _ => failure end)
  end.

Definition publish (outputs : list Output) (results : list (Uuid * Value)) : T W BehaviorTreeError unit :=
  t_for outputs (λ o,
    match o_publish o, output_value results (o_port o) with
    | Some key, Some value => t_modify (write_back key value (o_optional o))
    | _, _ => mret tt
    end).
Definition publish_all (sinks : list nat) : M unit :=
  t_for sinks (λ at_,
    c ← cache_of at_;
    match c_failed c with
    | None => outputs ← at_index (l_outputs l) at_; on_world (publish outputs (c_outputs c))
    | Some _ => mret tt
    end).

Definition tick_sinks (fuel : nat) (node_ids : list Uuid) : M unit :=
  failure ← bring_all fuel node_ids (l_sinks l) None;
  _ ← publish_all (l_sinks l);
  failure ← bring_all fuel node_ids (l_observed l) failure;
  match failure with None => mret tt | Some e => t_fail e end.
End Node.

(** ** Comparing in place *)
Lemma holds_argument_spec cell cached optional w :
  holds_argument cell cached optional w = value_eqb cached (argument_value (cell ≫= λ c, get c w) optional).
Proof.
  unfold holds_argument. destruct (cell ≫= λ c, get c w) as [v|].
  - destruct v, optional; try done; simpl; destruct cached; try done;
      match goal with c : option Value |- _ => by destruct c end.
  - destruct optional; simpl; destruct cached; try done; by destruct o.
Qed.

Definition reads_cell (a : Argument) : bool := match a_source a with SCell _ => true | SComputed _ => false end.
Definition cell_value (w : W) (a : Argument) : Value :=
  argument_value (match a_source a with SCell c => c ≫= λ c, get c w | SComputed _ => None end) (a_optional a).

Lemma cells_now scope node arguments w :
  forallb reads_cell arguments = true →
  arguments_now scope node arguments w = Some (Ok (cell_value w <$> arguments), w).
Proof.
  induction arguments as [|a arguments IH]; intros H; [done|]. apply andb_prop in H as [Ha H].
  simpl. unfold argument_now, reads_cell in *. unfold cell_value at 1. destruct (a_source a); [|done].
  rewrite bind_run. simpl. rewrite bind_run, IH by done. done.
Qed.
Lemma unchanged_same arguments cached w :
  forallb reads_cell arguments = true →
  unchanged_in_place arguments cached w = list_eqb value_eqb cached (cell_value w <$> arguments).
Proof.
  unfold unchanged_in_place. revert cached. induction arguments as [|a arguments IH]; intros [|v cached] H; try done.
  apply andb_prop in H as [Ha H]. simpl. rewrite <- IH by done.
  unfold reads_cell in Ha. unfold cell_value. destruct (a_source a); [|done]. rewrite holds_argument_spec.
  destruct (length cached =? length arguments)%nat; simpl; [done|]. by rewrite andb_false_r.
Qed.

Lemma compare_cells l at_ node scope arguments outputs known_changed (s : Pulls W) :
  forallb reads_cell arguments = true →
  compare l at_ node scope arguments outputs known_changed s
  = match d_caches s !! at_ with
    | Some c =>
        let values := cell_value (d_world s) <$> arguments in
        if known_changed || negb (same_arguments (c_arguments c) values)
        then call l at_ node arguments outputs values s else keep l at_ outputs s
    | None => None
    end.
Proof.
  intros H. unfold compare. rewrite bind_run. unfold on_world at 1. rewrite cells_now by done.
  rewrite bind_run. unfold cache_of at 1. simpl. destruct s as [w caches tick]. simpl.
  destruct (caches !! at_) as [c|]; [|done]. by destruct (known_changed || _).
Qed.

Lemma in_place_compares (l : Lowered) (node_of : nat → option (Node Slot)) (scope : Scope S) (at_ : nat)
    (arguments : list Argument) (s : Pulls W) :
  l_arguments l !! at_ = Some arguments → forallb reads_cell arguments = true →
  evaluate_comparing l node_of scope true at_ s = evaluate_comparing l node_of scope false at_ s.
Proof.
  intros Harguments Hcells.
  unfold evaluate_comparing. rewrite !bind_run. destruct (node_of at_) as [node|]; [|done]. simpl.
  rewrite !bind_run. unfold at_index. destruct (l_outputs l !! at_) as [outputs|]; [|done]. simpl.
  rewrite !bind_run. destruct (on_world (seed outputs) s) as [[[[]|e] s1]|]; [|done..].
  rewrite !bind_run, Harguments. simpl. rewrite bind_run, (compare_cells l at_ node) by done.
  unfold cache_of at 1. destruct (d_caches s1 !! at_) as [c|] eqn:Hc; [|done].
  destruct (c_arguments c) as [cached|] eqn:Hca.
  - rewrite bind_run. unfold on_world at 1. simpl. rewrite (unchanged_same arguments cached _ Hcells).
    destruct s1 as [w caches tick]. simpl in *.
    destruct (list_eqb value_eqb cached (cell_value w <$> arguments)); simpl; [done|].
    rewrite compare_cells by done. simpl. by rewrite Hc.
  - rewrite compare_cells by done. by rewrite Hc, Hca.
Qed.

(** Comparing the arguments in place, without copying them, is comparing the
    values they have: where every argument of a node reads a cell, its evaluation
    does the same either way, in every state. *)
Theorem in_place_is_comparing (l : Lowered) (node_of : nat → option (Node Slot)) (scope : Scope S) (at_ : nat)
    (arguments : list Argument) (s : Pulls W)
    (Harguments : l_arguments l !! at_ = Some arguments) (Hcells : forallb reads_cell arguments = true) :
  evaluate_comparing l node_of scope true at_ s = evaluate_comparing l node_of scope false at_ s.
Proof. exact (in_place_compares l node_of scope at_ arguments s Harguments Hcells). Qed.

(** ** An evaluation leaves the marks alone and calls at most once *)
Definition touched (i : nat) (called : bool) (s s' : Pulls W) : Prop :=
  d_tick s' = d_tick s ∧ length (d_caches s') = length (d_caches s)
  ∧ (∀ j, j ≠ i → d_caches s' !! j = d_caches s !! j)
  ∧ ∃ c c', d_caches s !! i = Some c ∧ d_caches s' !! i = Some c' ∧ c_tick c' = c_tick c ∧ c_failed c' = c_failed c
      ∧ (c_calls c' = c_calls c ∨ (called = true ∧ c_calls c' = (c_calls c + 1) mod 2 ^ 64)).
Definition touches {A} (i : nat) (called : bool) (m : M A) : Prop := ∀ s, (i < length (d_caches s))%nat →
  ∃ r s', m s = Some (r, s') ∧ touched i called s s'.

Lemma touched_same i s s' : (i < length (d_caches s))%nat → d_caches s' = d_caches s → d_tick s' = d_tick s →
  touched i false s s'.
Proof.
  intros Hi Hcs Ht. destruct (lookup_lt_is_Some_2 _ _ Hi) as [c Hc]. unfold touched. rewrite Hcs.
  split; [done|]. split; [done|]. split; [done|]. exists c, c. auto 10.
Qed.
Lemma touched_weaken i called s s' : touched i false s s' → touched i called s s'.
Proof. intros (? & ? & ? & c & c' & ? & ? & ? & ? & [?|[? _]]); [|done]. repeat (split; [done|]). exists c, c'. auto 10. Qed.
Lemma touches_weaken {A} i called (m : M A) : touches i false m → touches i called m.
Proof. intros H s Hi. destruct (H s Hi) as (r & s' & ? & ?). exists r, s'. eauto using touched_weaken. Qed.
Lemma touches_bind_l {A B} i called (m : M A) (k : A → M B) :
  touches i called m → (∀ a, touches i false (k a)) → touches i called (m ≫= k).
Proof.
  intros Hm Hk s Hi. destruct (Hm s Hi) as (r & s1 & Hr & (Ht & Hl & Ho & c & c1 & Hc & Hc1 & Htk & Hfa & Hca)).
  rewrite bind_run, Hr. destruct r as [a|e].
  - destruct (Hk a s1 ltac:(lia)) as (r2 & s2 & -> & (Ht2 & Hl2 & Ho2 & d & c2 & Hd & Hc2 & Htk2 & Hfa2 & Hca2)).
    exists r2, s2. split; [done|]. split; [congruence|]. split; [congruence|]. split; [intros; by rewrite Ho2, Ho|].
    exists c, c2. assert (d = c1) as -> by congruence. split; [done|]. split; [done|]. split; [congruence|].
    split; [congruence|]. destruct Hca2 as [->|[? _]]; [|done]. exact Hca.
  - exists (Err e), s1. split; [done|]. split; [done|]. split; [done|]. split; [done|]. by exists c, c1.
Qed.
Lemma touches_bind_r {A B} i called (m : M A) (k : A → M B) :
  touches i false m → (∀ a, touches i called (k a)) → touches i called (m ≫= k).
Proof.
  intros Hm Hk s Hi. destruct (Hm s Hi) as (r & s1 & Hr & Hm1).
  pose proof Hm1 as (Ht & Hl & Ho & c & c1 & Hc & Hc1 & Htk & Hfa & [Hca|[? _]]); [|done].
  rewrite bind_run, Hr. destruct r as [a|e].
  - destruct (Hk a s1 ltac:(lia)) as (r2 & s2 & -> & (Ht2 & Hl2 & Ho2 & d & c2 & Hd & Hc2 & Htk2 & Hfa2 & Hca2)).
    exists r2, s2. split; [done|]. split; [congruence|]. split; [congruence|]. split; [intros; by rewrite Ho2, Ho|].
    exists c, c2. assert (d = c1) as -> by congruence. split; [done|]. split; [done|]. split; [congruence|].
    split; [congruence|]. by rewrite <- Hca.
  - exists (Err e), s1. split; [done|]. by apply touched_weaken.
Qed.
Lemma touches_ret {A} i (a : A) : touches i false (mret a : M A).
Proof. intros s Hi. eexists _, _. split; [done|]. by apply touched_same. Qed.
Lemma touches_fail {A} i e : touches i false (t_fail e : M A).
Proof. intros s Hi. eexists _, _. split; [done|]. by apply touched_same. Qed.
Lemma touches_on_world {A} i (m : T W BehaviorTreeError A) : total m → touches i false (on_world m).
Proof.
  intros Hm s Hi. unfold on_world. destruct (Hm (d_world s)) as [[r w] Hr]. rewrite Hr. eexists _, _.
  split; [done|]. by apply touched_same.
Qed.
Lemma touches_cache_of i : touches i false (cache_of i).
Proof.
  intros s Hi. destruct (lookup_lt_is_Some_2 _ _ Hi) as [c Hc]. unfold cache_of. rewrite Hc. eexists _, _.
  split; [done|]. by apply touched_same.
Qed.
Lemma touches_update i called f :
  (∀ c, c_tick (f c) = c_tick c ∧ c_failed (f c) = c_failed c
        ∧ (c_calls (f c) = c_calls c ∨ (called = true ∧ c_calls (f c) = (c_calls c + 1) mod 2 ^ 64))) →
  touches i called (update_cache i f).
Proof.
  intros Hf s Hi. destruct (lookup_lt_is_Some_2 _ _ Hi) as [c Hc]. unfold update_cache. rewrite Hc. eexists _, _.
  split; [done|]. split; [done|]. simpl. split; [by rewrite length_insert|].
  split; [intros; by rewrite list_lookup_insert_ne|]. exists c, (f c).
  rewrite list_lookup_insert_eq by done. split; [done|]. split; [done|]. apply Hf.
Qed.
Lemma touches_index {A} i (l : list A) k : is_Some (l !! k) → touches i false (at_index l k).
Proof. intros [a Ha]. unfold at_index. rewrite Ha. apply touches_ret. Qed.

Lemma total_bridge_call c : total (bridge_call (X := X) c).
Proof. intros w. unfold bridge_call. destruct (arora_call c w) as [[] ?]; by eexists. Qed.
Lemma total_compute_uuid scope compute (e : Expression Slot) np :
  total (compute e) → total (compute_uuid (X := X) scope compute e np).
Proof. intros Hc. unfold compute_uuid. destruct e; auto 10 with arora. Qed.
Lemma total_call_write_back np ev field : total (call_write_back (X := X) np ev field).
Proof. unfold call_write_back. destruct (list_find _ _) as [[? [[? ?] ?]]|]; [|case_match]; auto with arora. Qed.
Fixpoint total_compute scope np (e : Expression Slot) : total (compute_expression usize_max scope np e)
with total_call scope np (c : CallExpression Slot) : total (call_expression usize_max scope np c).
Proof.
  - destruct e; cbn [compute_expression]; auto 10 with arora.
  - destruct c as [module function_ arguments]. rewrite call_expression_eq.
    apply total_bind; [apply total_compute_uuid, total_compute|intros module_id].
    apply total_bind; [apply total_compute_uuid, total_compute|intros function_id].
    destruct (is_interpreter_function_id function_id); [apply total_fail|].
    apply total_bind.
    + generalize (@mkEvaluated S _ [] [] []). induction arguments as [|[p a] arguments IH]; intros ev.
      * apply total_ret.
      * apply total_bind; [apply total_compute_uuid, total_compute|intros arg_id].
        apply total_bind; [apply total_compute|intros value]. apply IH.
    + intros ev. apply total_bind; [apply total_bridge_call|intros result].
      apply total_bind; [apply total_for; intros; apply total_call_write_back|intros; apply total_ret].
Qed.
Lemma total_arguments_now scope node arguments : total (arguments_now scope node arguments).
Proof.
  induction arguments as [|a arguments IH]; [apply total_ret|]. simpl. apply total_bind; [|auto with arora].
  unfold argument_now. destruct (a_source a); [apply total_gets|]. apply total_bind; [apply total_compute|auto with arora].
Qed.
Lemma total_seed outputs : total (seed outputs).
Proof. apply total_for. intros o _. destruct (o_publish o); [|apply total_ret]. case_match; auto with arora. Qed.
Lemma total_write_outputs outputs results : total (write_outputs outputs results).
Proof. apply total_for. intros o _. destruct (output_value results (o_port o)); auto with arora. Qed.

(** What lowering found is of [n] nodes. *)
Record lowered_ok (l : Lowered) (node_of : nat → option (Node Slot)) (n : nat) : Prop := {
  ok_reads : length (l_reads l) = n;
  ok_arguments : length (l_arguments l) = n;
  ok_modules : length (l_modules l) = n;
  ok_rewrites : length (l_rewrites l) = n;
  ok_outputs : length (l_outputs l) = n;
  ok_cells_only : length (l_cells_only l) = n;
  ok_nodes i : (i < n)%nat → is_Some (node_of i);
}.

Lemma touches_evaluate l node_of scope n i :
  lowered_ok l node_of n → (i < n)%nat → touches i true (evaluate l node_of scope i).
Proof.
  intros [Hr Ha Hm Hw Ho Hc Hn] Hi.
  assert (∀ {A} (v : list A), length v = n → is_Some (v !! i)) as Hin by (intros; apply lookup_lt_is_Some_2; lia).
  assert (∀ outputs, touches i true (keep l i outputs)) as Hkeep.
  { intros outputs. apply touches_weaken. unfold keep. apply touches_bind_l; [apply touches_index; auto|].
    intros []; [|apply touches_ret]. apply touches_bind_l; [apply touches_cache_of|intros c].
    apply touches_on_world, total_write_outputs. }
  assert (∀ node arguments outputs values, touches i true (call l i node arguments outputs values)) as Hcall.
  { intros. unfold call. apply touches_bind_r; [apply touches_index; auto|intros module_id].
    apply touches_bind_r; [destruct module_id; [apply touches_ret|apply touches_fail]|intros module_id'].
    apply touches_bind_l; [apply touches_update; intros c; simpl; auto|intros _].
    apply touches_bind_l; [apply touches_on_world, total_bridge_call|intros result].
    apply touches_bind_l; [apply touches_on_world, total_write_outputs|intros _].
    apply touches_update. intros c. simpl. auto. }
  assert (∀ node sc arguments outputs b, touches i true (compare l i node sc arguments outputs b)) as Hcompare.
  { intros. unfold compare. apply touches_bind_r; [apply touches_on_world, total_arguments_now|intros values].
    apply touches_bind_r; [apply touches_cache_of|intros c]. destruct (b || _); auto. }
  unfold evaluate. apply touches_bind_r; [apply touches_index; auto|intros in_place].
  unfold evaluate_comparing. apply touches_bind_r.
  { destruct (Hn i Hi) as [node ->]. apply touches_ret. }
  intros node. apply touches_bind_r; [apply touches_index; auto|intros outputs].
  apply touches_bind_r; [apply touches_on_world, total_seed|intros _].
  apply touches_bind_r; [apply touches_index; auto|intros arguments]. destruct in_place; [|auto].
  apply touches_bind_r; [apply touches_cache_of|intros c]. destruct (c_arguments c) as [cached|]; [|auto].
  apply touches_bind_r; [apply touches_on_world, total_gets|intros []; auto].
Qed.

Lemma evaluate_logged l node_of scope n node_ids :
  lowered_ok l node_of n → evaluates node_ids (l_reads l) (logged (evaluate l node_of scope)) snd.
Proof.
  intros Hl i s Hi Hs. rewrite (ok_reads _ _ _ Hl) in *.
  destruct (touches_evaluate l node_of scope n i Hl Hi (unlogged s) ltac:(simpl; lia))
    as (r & s' & Hr & (Ht & Hlen & Ho & c & c' & Hc & Hc' & Htk & Hfa & Hca)).
  unfold logged. rewrite Hr. eexists _, _. split; [done|]. simpl in *. split; [done|]. split; [done|].
  unfold fresh, calls_of, called_once; simpl. split; [|split; [|split; [|done]]].
  - intros j. destruct (decide (j = i)) as [->|Hne]; [|by rewrite Ho, Ht].
    rewrite Hc, Hc'. simpl. unfold outcome_of. by rewrite Ht, Htk, Hfa.
  - intros j Hne. unfold calls_of. simpl. by rewrite Ho.
  - unfold calls_of. simpl. rewrite Hc, Hc'. simpl. destruct Hca as [->|[_ ->]]; auto.
Qed.

Lemma detached_nodes_run (l : Lowered) (node_of : nat → option (Node Slot)) (scope : Scope S) (n : nat)
    (node_ids : list Uuid) (order requests : list nat) (s : Pulls W)
    (Hl : lowered_ok l node_of n) (Hreads : reads_ok (l_reads l))
    (Horder : sorted (l_reads l) (enough_turns (l_reads l)) = Some (Ok order))
    (Hrequests : Forall (λ i, i < n)%nat requests) (Hs : length (d_caches s) = n) :
  ∃ fuel s',
    (∀ more, requests_of node_ids (l_reads l) (evaluate l node_of scope) (fuel + more) requests s = Some (Ok tt, s'))
    ∧ Forall (λ i, is_Some (fresh node_ids s' i)) requests
    ∧ length (d_caches s') = n ∧ (∀ i o, fresh node_ids s i = Some o → fresh node_ids s' i = Some o)
    ∧ (∀ i, called_once s s' i)
    ∧ (∀ i, is_Some (fresh node_ids s i) → calls_of s' i = calls_of s i).
Proof.
  pose proof (sorted_gen (l_reads l) Hreads) as Hgen. rewrite Horder in Hgen. destruct Hgen as (Hp & Ho & _).
  set (s0 := mkPulls (d_world s, [] : list nat) (d_caches s) (d_tick s)).
  destruct (requests_spec node_ids (l_reads l) (logged (evaluate l node_of scope)) snd (position order)
              (order_ranks (l_reads l) order Hp Ho) Hreads (evaluate_logged l node_of scope n node_ids Hl)
              requests s0) as (fuel & s1 & new & Hrun & Hpulled & Hfresh).
  { by rewrite (ok_reads _ _ _ Hl). }
  { simpl. by rewrite (ok_reads _ _ _ Hl). }
  exists fuel, (unlogged s1). pose proof (p_length _ _ _ _ _ _ Hpulled) as Hlen. simpl in Hlen.
  split; [|split; [exact Hfresh|split; [simpl; congruence|split; [|split]]]].
  - intros more. pose proof (unlogs_requests node_ids (l_reads l) _ _ requests _ _ _ (Hrun more)) as H.
    by destruct s.
  - exact (p_kept _ _ _ _ _ _ Hpulled).
  - intros i. apply (proj1 (p_calls _ _ _ _ _ _ Hpulled i)).
  - intros i [o Hi]. apply (proj2 (p_calls _ _ _ _ _ _ Hpulled i)).
    intros [Hnew _]%(p_new _ _ _ _ _ _ Hpulled). change (fresh node_ids s i = None) in Hnew. congruence.
Qed.

(** In a tick of a lowered tree, whichever detached nodes are read and however
    often, every read ends and leaves its node up to date, and each node calls its
    function at most once, none that was up to date already: nodes that read each
    other are evaluated in an order, since lowering sorted them. *)
Theorem detached_nodes_call_once (l : Lowered) (node_of : nat → option (Node Slot)) (scope : Scope S) (n : nat)
    (node_ids : list Uuid) (order requests : list nat) (s : Pulls W)
    (Hl : lowered_ok l node_of n) (Hreads : reads_ok (l_reads l))
    (Horder : sorted (l_reads l) (enough_turns (l_reads l)) = Some (Ok order))
    (Hrequests : Forall (λ i, i < n)%nat requests) (Hs : length (d_caches s) = n) :
  ∃ fuel s',
    (∀ more, requests_of node_ids (l_reads l) (evaluate l node_of scope) (fuel + more) requests s = Some (Ok tt, s'))
    ∧ Forall (λ i, is_Some (fresh node_ids s' i)) requests
    ∧ (∀ i, called_once s s' i)
    ∧ (∀ i, is_Some (fresh node_ids s i) → calls_of s' i = calls_of s i).
Proof.
  destruct (detached_nodes_run l node_of scope n node_ids order requests s Hl Hreads Horder Hrequests Hs)
    as (fuel & s' & H1 & H2 & _ & _ & H3 & H4). exists fuel, s'. auto.
Qed.

(** A node whose arguments are those of its last call does not call: at most it
    writes the outputs of that call back, and what is kept of it stays. *)
Theorem settled_node_calls_nothing (l : Lowered) (node_of : nat → option (Node Slot)) (scope : Scope S) (at_ : nat)
    (node : Node Slot) (outputs : list Output) (arguments : list Argument) (rewrites : bool)
    (c : Cache) (cached : list Value) (w w1 : W) (caches : list Cache) (tick : Z)
    (Hnode : node_of at_ = Some node) (Houtputs : l_outputs l !! at_ = Some outputs)
    (Harguments : l_arguments l !! at_ = Some arguments) (Hcells : l_cells_only l !! at_ = Some (forallb reads_cell arguments))
    (Hrewrites : l_rewrites l !! at_ = Some rewrites) (Hc : caches !! at_ = Some c)
    (Hcached : c_arguments c = Some cached) (Hseed : seed outputs w = Some (Ok tt, w1))
    (Hreads : forallb reads_cell arguments = true)
    (Hsame : same_arguments (Some cached) (cell_value w1 <$> arguments) = true) :
  evaluate l node_of scope at_ (mkPulls w caches tick)
  = (if rewrites then on_world (write_outputs outputs (c_outputs c)) else mret tt) (mkPulls w1 caches tick).
Proof.
  unfold evaluate. rewrite bind_run. unfold at_index at 1. rewrite Hcells, Hreads. simpl.
  rewrite in_place_compares with (arguments := arguments) by done.
  unfold evaluate_comparing. rewrite bind_run, Hnode. simpl. rewrite bind_run. unfold at_index. rewrite Houtputs. simpl.
  rewrite bind_run. unfold on_world at 1. simpl. rewrite Hseed. rewrite bind_run, Harguments. simpl.
  rewrite compare_cells by done. simpl. rewrite Hc, Hcached, Hsame. simpl.
  unfold keep. rewrite bind_run. unfold at_index. rewrite Hrewrites. simpl. destruct rewrites; [|done].
  unfold rewrite. rewrite bind_run. unfold cache_of. simpl. by rewrite Hc.
Qed.

(** ** The sinks *)
Lemma bring_all_run l node_of scope fuel node_ids nodes failure s s' :
  requests_of node_ids (l_reads l) (evaluate l node_of scope) fuel nodes s = Some (Ok tt, s') →
  ∃ failure', bring_all l node_of scope fuel node_ids nodes failure s = Some (Ok failure', s').
Proof.
  revert failure s. induction nodes as [|i nodes IH]; intros failure s H.
  - injection H as ->. by exists failure.
  - unfold requests_of in H. simpl in H. rewrite bind_run in H. unfold request at 1 in H. rewrite bind_run in H.
    unfold t_result in H. simpl. rewrite bind_run. unfold t_result.
    destruct (bring_up_to_date _ _ _ fuel i s) as [[r s1]|]; [|done]. apply IH. exact H.
Qed.

Lemma publish_outputs_ok outputs results w : ∃ w', publish outputs results w = Some (Ok tt, w').
Proof.
  revert w. induction outputs as [|o outputs IH]; intros w; [by exists w|]. unfold publish. simpl. rewrite bind_run.
  destruct (o_publish o), (output_value results (o_port o)); apply IH.
Qed.
Lemma publish_all_ok l n sinks (s : Pulls W) :
  length (l_outputs l) = n → length (d_caches s) = n → Forall (λ i, i < n)%nat sinks →
  ∃ w, publish_all l sinks s = Some (Ok tt, mkPulls w (d_caches s) (d_tick s)).
Proof.
  intros Ho Hs. revert s Hs. induction sinks as [|i sinks IH]; intros s Hs Hall.
  - exists (d_world s). by destruct s.
  - apply Forall_cons in Hall as [Hi Hall]. unfold publish_all. simpl. rewrite bind_run.
    rewrite bind_run. unfold cache_of. destruct (lookup_lt_is_Some_2 (d_caches s) i) as [c ->]; [lia|].
    destruct (c_failed c); [by apply IH|]. rewrite bind_run. unfold at_index.
    destruct (lookup_lt_is_Some_2 (l_outputs l) i) as [outputs ->]; [lia|]. simpl.
    unfold on_world at 1. destruct (publish_outputs_ok outputs (c_outputs c) (d_world s)) as [w ->].
    apply (IH (mkPulls w (d_caches s) (d_tick s)) Hs Hall).
Qed.

(** The tick of the sinks, after the tree has ticked. *)
Lemma tick_sinks_run (l : Lowered) (node_of : nat → option (Node Slot)) (scope : Scope S) (n : nat)
    (node_ids : list Uuid) (order : list nat) (s : Pulls W)
    (Hl : lowered_ok l node_of n) (Hreads : reads_ok (l_reads l))
    (Horder : sorted (l_reads l) (enough_turns (l_reads l)) = Some (Ok order))
    (Hsinks : Forall (λ i, i < n)%nat (l_sinks l)) (Hobserved : Forall (λ i, i < n)%nat (l_observed l))
    (Hs : length (d_caches s) = n) :
  ∃ fuel s', (∀ more, ∃ r, tick_sinks l node_of scope (fuel + more) node_ids s = Some (r, s'))
    ∧ Forall (λ i, is_Some (fresh node_ids s' i)) (l_sinks l ++ l_observed l).
Proof.
  destruct (detached_nodes_run l node_of scope n node_ids order (l_sinks l) s Hl Hreads Horder Hsinks Hs)
    as (f1 & s1 & Hrun1 & Hfresh1 & Hlen1 & _).
  destruct (publish_all_ok l n (l_sinks l) s1 (ok_outputs _ _ _ Hl) Hlen1 Hsinks) as [w Hpub].
  set (s2 := mkPulls w (d_caches s1) (d_tick s1)) in *.
  destruct (detached_nodes_run l node_of scope n node_ids order (l_observed l) s2 Hl Hreads Horder Hobserved Hlen1)
    as (f2 & s3 & Hrun3 & Hfresh3 & _ & Hkept3 & _).
  assert (∀ more, ∃ r, tick_sinks l node_of scope (f1 + f2 + more) node_ids s = Some (r, s3)) as Hrun.
  { intros more. unfold tick_sinks. rewrite bind_run.
    destruct (bring_all_run l node_of scope (f1 + f2 + more) node_ids (l_sinks l) None s s1) as [e ->].
    { rewrite <- Nat.add_assoc. apply Hrun1. }
    rewrite bind_run, Hpub, bind_run.
    destruct (bring_all_run l node_of scope (f1 + f2 + more) node_ids (l_observed l) e s2 s3) as [e' ->].
    { rewrite (Nat.add_comm f1 f2), <- Nat.add_assoc. apply Hrun3. }
    destruct e'; by eexists. }
  exists (f1 + f2)%nat, s3. split; [done|]. apply Forall_app. split; [|done].
  eapply Forall_impl; [exact Hfresh1|]. intros i [o Ho]. exists o. by apply Hkept3.
Qed.

(** After the tree has ticked, the tick of the sinks ends, and every sink and
    every observed node is then up to date, whichever of them failed. *)
Theorem sinks_brought_up_to_date (l : Lowered) (node_of : nat → option (Node Slot)) (scope : Scope S) (n : nat)
    (node_ids : list Uuid) (order : list nat) (s : Pulls W)
    (Hl : lowered_ok l node_of n) (Hreads : reads_ok (l_reads l))
    (Horder : sorted (l_reads l) (enough_turns (l_reads l)) = Some (Ok order))
    (Hsinks : Forall (λ i, i < n)%nat (l_sinks l)) (Hobserved : Forall (λ i, i < n)%nat (l_observed l))
    (Hs : length (d_caches s) = n) :
  ∃ fuel s', (∀ more, ∃ r, tick_sinks l node_of scope (fuel + more) node_ids s = Some (r, s'))
    ∧ Forall (λ i, is_Some (fresh node_ids s' i)) (l_sinks l ++ l_observed l).
Proof. exact (tick_sinks_run l node_of scope n node_ids order s Hl Hreads Horder Hsinks Hobserved Hs). Qed.
End Evaluation.
