(* ===== verification/DetachedExamples.v ===== *)
(** * The detached-node theorems at work on two nodes, the first reading the second

    The host is the one of the tree examples: the hash-map store, module calls
    answered with [Unit]. *)

From S2P Require Import Prelude Values Extern Keys State Store SimpleStore Effects Nodes Schema Cells Expressions Sorting Detached Evaluation.

#[local] Instance unit_host : CallBridge Inner unit := {| arora_call _ w := (Ok (mkCallResult Value.Unit []), w) |}.

Definition two_reads_graph : list (list nat) := [[1]; []]%nat.
Lemma two_reads_ok : reads_ok two_reads_graph.
Proof. intros [|[|i]] rs r [= <-] Hr; set_solver by (simpl; lia). Qed.

(** Nodes that only log their evaluation. *)
Definition log_only (i : nat) : T (Pulls (list nat)) BehaviorTreeError unit := λ s,
  Some (Ok tt, mkPulls (d_world s ++ [i]) (d_caches s) (d_tick s)).
Definition fresh_start : Pulls (list nat) := mkPulls [] [cache_default; cache_default] 1.

Lemma pulled_once_per_tick_witness :
  ∃ s', requests_of [7; 8] two_reads_graph log_only 20 [0; 1; 0]%nat fresh_start = Some (Ok tt, s')
        ∧ d_world s' = [1; 0]%nat.
Proof.
  destruct (pulled_once_per_tick [7; 8] two_reads_graph log_only id [1; 0]%nat [0; 1; 0]%nat fresh_start two_reads_ok)
    as (fuel & s' & new & Hrun & Hp & _).
  - vm_compute. reflexivity.
  - intros i s Hi Hs. eexists _, _. split; [reflexivity|]. simpl. repeat (split; [done|]). split; [by left|done].
  - repeat constructor; simpl; lia.
  - reflexivity.
  - eexists. split; [vm_compute; reflexivity|]. vm_compute. reflexivity.
Defined.

Lemma walk_is_recursion_witness :
  ∃ fuel s', bring_up_to_date [7; 8] two_reads_graph log_only fuel 0 fresh_start = Some (Ok tt, s')
             ∧ d_world s' = [1; 0]%nat.
Proof.
  destruct (walk_is_recursion [7; 8] two_reads_graph log_only 3 0 fresh_start
              (mkPulls [1; 0]%nat [mkCache 1 None [] 0 None; mkCache 1 None [] 0 None] 1) (Ok tt))
    as [fuel H]; [vm_compute; reflexivity|].
  exists (fuel + 0)%nat. eexists. split; [exact (H 0%nat)|reflexivity].
Defined.

(** ** Two nodes over cells *)
Definition far_node : Node SimpleSlot := mkNode 7 0xF1 ∅ None.
Definition near_node : Node SimpleSlot := mkNode 8 0xF2 ∅ None.
Definition node_at (i : nat) : option (Node SimpleSlot) := [far_node; near_node] !! i.
Definition no_scope : Scope Inner := mkScope ∅ ∅ ∅.
Definition reads_local (p : Uuid) (c : nat) : Argument (S := Inner) := mkArgument p false (SCell (Some (Local c))).
Definition two_lowered : Lowered (S := Inner) := mkLowered ∅ two_reads_graph
  [[reads_local 1 1]; [reads_local 1 0]] [Some 0xAA; Some 0xAA] [false; false]
  [[mkOutput _RET_PARAM_ID (Local 2) None false]; [mkOutput _RET_PARAM_ID (Local 1) None false]]
  [true; true] [0]%nat [] ∅.
Definition two_world : World Inner unit := mkWorld {[ 0%nat := Some (Value.U8 3) ]} inner_new ∅ ∅ tt.
Definition two_pulls : Pulls (World Inner unit) := mkPulls two_world [cache_default; cache_default] 1.

Lemma two_lowered_ok : lowered_ok two_lowered node_at 2.
Proof. split; try reflexivity. intros [|[|i]] Hi; [by eexists..|lia]. Qed.

Lemma detached_nodes_call_once_witness :
  ∃ fuel s', requests_of [7; 8] two_reads_graph (evaluate 0 two_lowered node_at no_scope) fuel [0; 1; 0]%nat two_pulls
             = Some (Ok tt, s') ∧ Forall (λ i, is_Some (fresh [7; 8] s' i)) [0; 1; 0]%nat ∧ called_once two_pulls s' 1.
Proof.
  destruct (detached_nodes_call_once 0 two_lowered node_at no_scope 2 [7; 8] [1; 0]%nat [0; 1; 0]%nat two_pulls
              two_lowered_ok two_reads_ok) as (fuel & s' & Hrun & Hf & Hc & _).
  - vm_compute. reflexivity.
  - repeat constructor; lia.
  - reflexivity.
  - exists (fuel + 0)%nat, s'. split; [exact (Hrun 0%nat)|]. split; [exact Hf|exact (Hc 1%nat)].
Defined.

Lemma sinks_brought_up_to_date_witness :
  ∃ fuel r s', tick_sinks 0 two_lowered node_at no_scope fuel [7; 8] two_pulls = Some (r, s')
               ∧ is_Some (fresh [7; 8] s' 0).
Proof.
  destruct (sinks_brought_up_to_date 0 two_lowered node_at no_scope 2 [7; 8] [1; 0]%nat two_pulls
              two_lowered_ok two_reads_ok) as (fuel & s' & Hrun & Hf).
  - vm_compute. reflexivity.
  - repeat constructor; lia.
  - constructor.
  - reflexivity.
  - destruct (Hrun 0%nat) as [r Hr]. exists (fuel + 0)%nat, r, s'. split; [exact Hr|].
    rewrite Forall_forall in Hf. apply Hf. apply list_elem_of_here.
Defined.

Lemma in_place_is_comparing_witness :
  evaluate_comparing 0 two_lowered node_at no_scope true 1 two_pulls
  = evaluate_comparing 0 two_lowered node_at no_scope false 1 two_pulls.
Proof. apply (in_place_is_comparing 0 two_lowered node_at no_scope 1 [reads_local 1 0]); reflexivity. Defined.

(** The second node, called with 3 already. *)
Definition called_cache : Cache := mkCache 1 (Some [Value.U8 3]) [(_RET_PARAM_ID, Value.Unit)] 1 None.
Lemma settled_node_calls_nothing_witness :
  evaluate 0 two_lowered node_at no_scope 1 (mkPulls two_world [cache_default; called_cache] 2)
  = Some (Ok tt, mkPulls two_world [cache_default; called_cache] 2).
Proof.
  exact (settled_node_calls_nothing 0 two_lowered node_at no_scope 1 near_node
           [mkOutput _RET_PARAM_ID (Local 1) None false] [reads_local 1 0] false called_cache [Value.U8 3]
           two_world two_world [cache_default; called_cache] 2
           eq_refl eq_refl eq_refl eq_refl eq_refl eq_refl eq_refl eq_refl eq_refl eq_refl).
Defined.
