(* ===== verification/CoreNodes.v ===== *)
(** * The core string nodes: [crates/arora-behavior-tree/src/core_nodes.rs]

    [SetString], [UnsetString], [IsStringSet], [WaitStringSet] and [RegexMatch],
    ticked over the cells their ports are bound to. *)

From S2P Require Import Prelude Values Extern Keys State Store Effects Nodes Schema Cells.

(** The [regex] crate, which is not part of the repository: compiling a regular
    expression ([None]: it is not one) and the text of its first match. *)
Class RegexCrate := {
  Regex : Type;
  Regex_new : string → option Regex;
  find : Regex → string → option string;
}.

(** ** The node functions: an out-parameter is its value before, and after *)
Definition set_str (variable value : option string) : option string * Status := (value, Success).
Definition unset_str (variable : option string) : option string * Status := (None, Success).
Definition is_str_set (value : option string) : Status :=
  match value with
  | Some value => if negb (String.eqb value EmptyString) then Success else Failure
  | None => Failure
  end.
Definition wait_str_set (value : option string) : Status :=
  match value with
  | Some value => if negb (String.eqb value EmptyString) then Success else Running
  | None => Running
  end.
Definition regex_match `{RegexCrate} (value matcher first_match : option string) : option string * Status :=
  match value, matcher with
  | Some value, Some matcher =>
      match Regex_new matcher with
      | None => (first_match, Failure)
      | Some re =>
          match find re value with
          | Some found => (Some found, Success)
          | None => (first_match, Failure)
          end
      end
  | _, _ => (first_match, Failure)
  end.

(** ** Their signatures *)
Record CoreParameter := mkCoreParameter { cp_name : string; cp_id : Uuid }.
Definition SET_STR_PARAMETERS : list CoreParameter :=
  [mkCoreParameter "variable" SET_STR_VARIABLE_PARAM_ID; mkCoreParameter "value" SET_STR_VALUE_PARAM_ID].
Definition UNSET_STR_PARAMETERS : list CoreParameter :=
  [mkCoreParameter "variable" UNSET_STR_VARIABLE_PARAM_ID].
Definition IS_STR_SET_PARAMETERS : list CoreParameter := [mkCoreParameter "value" IS_STR_SET_VALUE_PARAM_ID].
Definition WAIT_STR_SET_PARAMETERS : list CoreParameter :=
  [mkCoreParameter "value" WAIT_STR_SET_VALUE_PARAM_ID].
Definition REGEX_MATCH_PARAMETERS : list CoreParameter :=
  [mkCoreParameter "value" REGEX_MATCH_VALUE_PARAM_ID;
   mkCoreParameter "matcher" REGEX_MATCH_MATCHER_PARAM_ID;
   mkCoreParameter "first_match" REGEX_MATCH_FIRST_MATCH_PARAM_ID].

Definition core_node_parameters (function : Uuid) : option (list CoreParameter) :=
  if function =? SET_STR_FUNCTION_ID then Some SET_STR_PARAMETERS
  else if function =? UNSET_STR_FUNCTION_ID then Some UNSET_STR_PARAMETERS
  else if function =? IS_STR_SET_FUNCTION_ID then Some IS_STR_SET_PARAMETERS
  else if function =? WAIT_STR_SET_FUNCTION_ID then Some WAIT_STR_SET_PARAMETERS
  else if function =? REGEX_MATCH_FUNCTION_ID then Some REGEX_MATCH_PARAMETERS
  else None.

(** ** Ticking them *)
Section CoreNodes.
Context {S X : Type} `{DS : DataStore S} `{RC : RegexCrate}.
Local Abbreviation Cell := (VariableCell (@SlotHandle S _)).
Local Abbreviation M := (T (World S X) BehaviorTreeError).

(** [read_string] of what a cell holds. *)
Definition string_in (node parameter : Uuid) (held : option Value) : result BehaviorTreeError (option string) :=
  let not_a_string other := Err (ConversionError (NotAString node parameter other)) in
  match held with
  | None | Some Value.Unit | Some (Value.Option None) => Ok None
  | Some (Value.String value) => Ok (Some value)
  | Some (Value.Option (Some (Value.String value))) => Ok (Some value)
  | Some (Value.Option (Some other)) => not_a_string other
  | Some other => not_a_string other
  end.
Definition read_string (c : Cell) (node parameter : Uuid) : M (option string) :=
  held ← t_gets (get c); t_of (string_in node parameter held).

Definition write_string (c : Cell) (before after : option string) : M unit :=
  if bool_decide (before = after) then mret tt
  else t_modify (set_opt c (Value.String <$> after)).

Definition tick_core_node (function node : Uuid) (cell : Uuid → result BehaviorTreeError Cell) :
    M (option Status) :=
  let read id : M (Cell * option string) :=
    c ← t_of (cell id); value ← read_string c node id; mret (c, value) in
  if function =? SET_STR_FUNCTION_ID then
    '(variable, before) ← read SET_STR_VARIABLE_PARAM_ID;
    '(_, value) ← read SET_STR_VALUE_PARAM_ID;
    let '(current, status) := set_str before value in
    _ ← write_string variable before current;
    mret (Some status)
  else if function =? UNSET_STR_FUNCTION_ID then
    '(variable, before) ← read UNSET_STR_VARIABLE_PARAM_ID;
    let '(current, status) := unset_str before in
    _ ← write_string variable before current;
    mret (Some status)
  else if function =? IS_STR_SET_FUNCTION_ID then
    '(_, value) ← read IS_STR_SET_VALUE_PARAM_ID;
    mret (Some (is_str_set value))
  else if function =? WAIT_STR_SET_FUNCTION_ID then
    '(_, value) ← read WAIT_STR_SET_VALUE_PARAM_ID;
    mret (Some (wait_str_set value))
  else if function =? REGEX_MATCH_FUNCTION_ID then
    '(_, value) ← read REGEX_MATCH_VALUE_PARAM_ID;
    '(_, matcher) ← read REGEX_MATCH_MATCHER_PARAM_ID;
    '(first_match, before) ← read REGEX_MATCH_FIRST_MATCH_PARAM_ID;
    let '(current, status) := regex_match value matcher before in
    _ ← write_string first_match before current;
    mret (Some status)
  else mret None.
End CoreNodes.

(** ** What a core node does, apart from cells

    Given the strings its parameters read: the status, and what its
    out-parameter, if it has one, holds after it. *)
Definition core_spec `{RegexCrate} (function : Uuid) (rd : Uuid → option string) :
    option (Status * option (Uuid * option string)) :=
  if function =? SET_STR_FUNCTION_ID then
    Some (Success, Some (SET_STR_VARIABLE_PARAM_ID, rd SET_STR_VALUE_PARAM_ID))
  else if function =? UNSET_STR_FUNCTION_ID then
    Some (Success, Some (UNSET_STR_VARIABLE_PARAM_ID, None))
  else if function =? IS_STR_SET_FUNCTION_ID then
    Some (if decide (default EmptyString (rd IS_STR_SET_VALUE_PARAM_ID) = EmptyString)
          then Failure else Success, None)
  else if function =? WAIT_STR_SET_FUNCTION_ID then
    Some (if decide (default EmptyString (rd WAIT_STR_SET_VALUE_PARAM_ID) = EmptyString)
          then Running else Success, None)
  else if function =? REGEX_MATCH_FUNCTION_ID then
    match (value ← rd REGEX_MATCH_VALUE_PARAM_ID;
           re ← rd REGEX_MATCH_MATCHER_PARAM_ID ≫= Regex_new;
           find re value) with
    | Some found => Some (Success, Some (REGEX_MATCH_FIRST_MATCH_PARAM_ID, Some found))
    | None => Some (Failure, None)
    end
  else None.

Section Facts.
Context {S X : Type} `{DSL : DataStoreLaws S} `{RC : RegexCrate}.
Local Abbreviation Cell := (VariableCell (@SlotHandle S _)).
Local Abbreviation W := (World S X).
Implicit Types (w : W) (c : Cell).

(** The cells a core node is ticked over, and what they hold: the parameter [id]
    is bound to a cell of the place [pl id], and reads [rd id]. *)
Definition reads (w : W) (function node : Uuid) (cell : Uuid → result BehaviorTreeError Cell)
    (pl : Uuid → place) (rd : Uuid → option string) : Prop :=
  ∀ ps p, core_node_parameters function = Some ps → p ∈ ps →
    (∃ c, cell (cp_id p) = Ok c ∧ place_of w c (pl (cp_id p))) ∧
    string_in node (cp_id p) (value_at w (pl (cp_id p))) = Ok (rd (cp_id p)).

(** What the places hold once the out-parameter has been written, if it
    changed. *)
Definition core_after (w w' : W) (pl : Uuid → place) (rd : Uuid → option string)
    (out : option (Uuid * option string)) : Prop :=
  match out with
  | Some (id, after) =>
      if decide (rd id = after) then w' = w
      else cells_only w w' ∧ ∀ q, value_at w' q =
        if decide (q = pl id) then new_at q (value_at w q) (Value.String <$> after) else value_at w q
  | None => w' = w
  end.

Lemma write_string_spec w c pl before after : ok_world w → place_of w c pl →
  ∃ w', write_string c before after w = Some (Ok tt, w') ∧
    if decide (before = after) then w' = w
    else cells_only w w' ∧ ∀ q, value_at w' q =
      if decide (q = pl) then new_at q (value_at w q) (Value.String <$> after) else value_at w q.
Proof.
  intros Hok Hp. unfold write_string. destruct (decide (before = after)) as [Heq|Hne].
  - rewrite bool_decide_eq_true_2 by done. by eexists.
  - rewrite bool_decide_eq_false_2 by done. eexists. split; [done|].
    destruct (set_opt_place w c pl (Value.String <$> after) Hok Hp) as [Hc Hv].
    split; [done|]. intros q. rewrite Hv. by destruct (decide (q = pl)) as [->|].
Qed.

(** One parameter read. *)
Lemma read_ok w function node cell pl rd ps p : ok_world w → reads w function node cell pl rd →
  core_node_parameters function = Some ps → p ∈ ps →
  ∃ c, place_of w c (pl (cp_id p)) ∧
    (c ← t_of (cell (cp_id p)); value ← read_string c node (cp_id p); mret (c, value)) w
    = Some (Ok (c, rd (cp_id p)), w).
Proof.
  intros Hok Hr Hps Hp. destruct (Hr ps p Hps Hp) as [(c & Hc & Hpl) Hs]. exists c. split; [done|].
  rewrite Hc. unfold read_string. t_unfold. by rewrite (get_place w c _ Hok Hpl), Hs.
Qed.

(** Run the read of the parameter [name] at the head of the goal. *)
Ltac core_read Hread Hok Hr name :=
  match goal with
  | |- context [read_string _ _ ?id] =>
      let c := fresh "c" in let Hp := fresh "Hp" in let Hrun := fresh "Hrun" in
      destruct (Hread _ (mkCoreParameter name id) Hok Hr eq_refl) as (c & Hp & Hrun); [set_solver|];
      cbn [cp_id] in Hp, Hrun; rewrite (bind_ok _ _ _ _ _ Hrun)
  end.
(** Run the write of the out-parameter at the head of the goal. *)
Ltac core_write Hok :=
  match goal with
  | Hp : place_of ?w ?c _ |- context [write_string ?c ?b ?a] =>
      let w' := fresh "w'" in let Hw := fresh "Hw" in let Ha := fresh "Ha" in
      destruct (write_string_spec w c _ b a Hok Hp) as (w' & Hw & Ha);
      exists w'; rewrite (bind_ok _ _ _ _ _ Hw);
      split; [done|first [exact Ha | by rewrite decide_True in Ha by done]]
  end.

Lemma core_node_ticks w function node cell pl rd : ok_world w → reads w function node cell pl rd →
  match core_spec function rd with
  | Some (st, out) => ∃ w', tick_core_node function node cell w = Some (Ok (Some st), w') ∧
      core_after w w' pl rd out
  | None => tick_core_node function node cell w = Some (Ok None, w)
  end.
Proof.
  intros Hok Hr. pose proof (read_ok w function node cell pl rd) as Hread.
  unfold core_spec, tick_core_node. unfold core_node_parameters in Hread.
  repeat match goal with |- context [if function =? ?id then _ else _] => destruct (function =? id) end;
    [..|done].
  - core_read Hread Hok Hr "variable"%string. core_read Hread Hok Hr "value"%string. simpl. core_write Hok.
  - core_read Hread Hok Hr "variable"%string. simpl. core_write Hok.
  - core_read Hread Hok Hr "value"%string. eexists. split; [|done].
    unfold is_str_set, wait_str_set. destruct (rd _) as [v|]; [|done]. cbn [default negb].
    destruct (String.eqb_spec v EmptyString); case_decide; done.
  - core_read Hread Hok Hr "value"%string. eexists. split; [|done].
    unfold is_str_set, wait_str_set. destruct (rd _) as [v|]; [|done]. cbn [default negb].
    destruct (String.eqb_spec v EmptyString); case_decide; done.
  - core_read Hread Hok Hr "value"%string. core_read Hread Hok Hr "matcher"%string.
    core_read Hread Hok Hr "first_match"%string.
    unfold regex_match. destruct (rd REGEX_MATCH_VALUE_PARAM_ID) as [v|]; simpl; [|core_write Hok].
    destruct (rd REGEX_MATCH_MATCHER_PARAM_ID) as [m|]; simpl; [|core_write Hok].
    destruct (Regex_new m) as [re|]; simpl; [|core_write Hok].
    destruct (find re v) as [found|]; simpl; core_write Hok.
Qed.

(** One parameter read, whatever it holds. *)
Lemma read_result w node (cell : Uuid → result BehaviorTreeError Cell) pl id : ok_world w →
  (∃ c, cell id = Ok c ∧ place_of w c pl) →
  ∃ c, (c ← t_of (cell id); value ← read_string c node id; mret (c, value)) w
    = Some (match string_in node id (value_at w pl) with Ok v => Ok (c, v) | Err e => Err e end, w).
Proof.
  intros Hok (c & Hc & Hpl). exists c. rewrite Hc. unfold read_string. t_unfold.
  rewrite (get_place w c _ Hok Hpl). by destruct (string_in _ _ _).
Qed.

(** Run the read of the parameter [name], which may fail. *)
Ltac core_try Hread name :=
  match goal with
  | |- context [read_string _ _ ?id] =>
      let c := fresh "c" in let Hrun := fresh "Hrun" in let Hs := fresh "Hs" in
      destruct (Hread (mkCoreParameter name id)) as [c Hrun];
        [repeat first [apply list_elem_of_here|apply list_elem_of_further]|];
      cbn [cp_id] in Hrun; destruct (string_in _ id _) eqn:Hs;
      [rewrite (bind_ok _ _ _ _ _ Hrun)|eexists; exact (bind_err _ _ _ _ _ Hrun)]
  end.
(** Every parameter was read: none of them is the one that fails. *)
Ltac core_stop Hp He :=
  repeat (apply elem_of_cons in Hp as [->|Hp]; [cbn [cp_id] in He; congruence|]); by apply elem_of_nil in Hp.

Lemma core_node_fails w function node cell pl ps p e : ok_world w →
  core_node_parameters function = Some ps → p ∈ ps →
  (∀ p, p ∈ ps → ∃ c, cell (cp_id p) = Ok c ∧ place_of w c (pl (cp_id p))) →
  string_in node (cp_id p) (value_at w (pl (cp_id p))) = Err e →
  ∃ e', tick_core_node function node cell w = Some (Err e', w).
Proof.
  intros Hok Hps Hp Hcells He. unfold core_node_parameters, tick_core_node in *.
  pose proof (λ p Hp, read_result w node cell _ _ Hok (Hcells p Hp)) as Hread.
  repeat match type of Hps with context [if function =? ?id then _ else _] =>
    destruct (function =? id) end; simplify_eq;
  unfold SET_STR_PARAMETERS, UNSET_STR_PARAMETERS, IS_STR_SET_PARAMETERS, WAIT_STR_SET_PARAMETERS,
    REGEX_MATCH_PARAMETERS in *.
  - core_try Hread "variable"%string. core_try Hread "value"%string. core_stop Hp He.
  - core_try Hread "variable"%string. core_stop Hp He.
  - core_try Hread "value"%string. core_stop Hp He.
  - core_try Hread "value"%string. core_stop Hp He.
  - core_try Hread "value"%string. core_try Hread "matcher"%string.
    core_try Hread "first_match"%string. core_stop Hp He.
Qed.

(** The core string nodes do what their functions say, over the cells their
    ports are bound to: the status and the out-parameter are those of
    [SetString], [UnsetString], [IsStringSet], [WaitStringSet] or [RegexMatch] on
    the strings read, an out-parameter that does not change leaves the world
    untouched, one that does writes its place alone, and a port that holds
    anything but a string fails the tick before anything is written. *)
Theorem core_node_refines w function node cell pl rd : ok_world w →
  (reads w function node cell pl rd →
   match core_spec function rd with
   | Some (st, out) => ∃ w', tick_core_node function node cell w = Some (Ok (Some st), w') ∧
       core_after w w' pl rd out
   | None => tick_core_node function node cell w = Some (Ok None, w)
   end) ∧
  (∀ ps p e, core_node_parameters function = Some ps → p ∈ ps →
   (∀ p, p ∈ ps → ∃ c, cell (cp_id p) = Ok c ∧ place_of w c (pl (cp_id p))) →
   string_in node (cp_id p) (value_at w (pl (cp_id p))) = Err e →
   ∃ e', tick_core_node function node cell w = Some (Err e', w)).
Proof.
  intros Hok. split; [by apply core_node_ticks|]. intros. by eapply core_node_fails.
Qed.
End Facts.
