(* ===== verification/ScatterNode.v ===== *)
(** * The [Scatter] data node: [crates/arora-behavior-tree/src/scatter.rs]

    An array written to the store keys another array names, every check before
    the first write. What a node keeps between ticks ([RefCell<Bound>]) is the
    world's [bound], by node. *)

From S2P Require Import Prelude Values Extern Keys State Store Effects Nodes Schema Cells.

(** [within.ends_with('/')] *)
Fixpoint ends_with_slash (s : string) : bool :=
  match s with
  | EmptyString => false
  | String c EmptyString => Ascii.eqb c slash
  | String _ s => ends_with_slash s
  end.

(** The key names [keys] holds. *)
Definition key_names (keys : Value) : option (list string) :=
  match keys with
  | Value.ArrayString names => Some names
  | Value.ArrayValue elements =>
      mapM (λ element, match element with Value.String name => Some name | _ => None end) elements
  | _ => None
  end.

Section ScatterNode.
Context {S X : Type} `{DS : DataStore S}.
Local Abbreviation Slot := (@SlotHandle S _).
Local Abbreviation M := (T (World S X) BehaviorTreeError).

(** [Scatter::bind] *)
Definition scatter_bind (node : Node Slot) : result BehaviorTreeError (Scatter S) :=
  let refuse what := Err (InconsistentTreeError (ScatterRefused (n_id node) what)) in
  match (match n_arguments node !! SCATTER_WITHIN_PARAM_ID with
         | None => Some EmptyString
         | Some (Expression.Value (Value.String within)) => Some within
         | Some _ => None
         end) with
  | None => refuse WithinNotLiteral
  | Some within =>
      if negb (String.eqb within EmptyString) && (ends_with_slash within || is_tree_local within)
      then refuse (WithinNotAPrefix within)
      else Ok (mkScatter (n_id node) within None)
  end.

(** [with_key_resolver] on one node's binding, which forgets what it kept. *)
Definition scatter_with_resolver (r : Resolver S) (sc : Scatter S) : Scatter S :=
  mkScatter (scatter_node sc) (within sc) (Some r).

(** [direct_resolver] of [behavior.rs]: a key is resolved to the store's slot of
    that name. *)
Definition direct_resolver : Resolver S := λ name s, let '(slot, s) := slot (mkKey name) s in (Some slot, s).

(** The checks of [resolve], in order: the first refusal, if any. *)
Fixpoint check_names (within : string) (named : gset string) (names : list string) : option ScatterRefusal :=
  match names with
  | [] => None
  | name :: names =>
      if is_tree_local name then Some (KeyTreeLocal name)
      else if negb (prefix_covers within name) then Some (KeyOutside name within)
      else if bool_decide (name ∈ named) then Some (KeyTwice name)
      else check_names within ({[ name ]} ∪ named) names
  end.

Definition refuse {A} (sc : Scatter S) (what : ScatterRefusal) : M A :=
  t_fail (InconsistentTreeError (ScatterRefused (scatter_node sc) what)).

Definition resolve_name (sc : Scatter S) (r : Resolver S) (name : string) : M Slot := λ w,
  match r name (store w) with
  | (Some slot, s) => Some (Ok slot, with_store s w)
  | (None, s) => Some (Err (InconsistentTreeError (ScatterRefused (scatter_node sc) (NoSlot name))),
                       with_store s w)
  end.

Fixpoint resolve_names (sc : Scatter S) (r : Resolver S) (names : list string) : M (list Slot) :=
  match names with
  | [] => mret []
  | name :: names => slot ← resolve_name sc r name; slots ← resolve_names sc r names; mret (slot :: slots)
  end.

Definition resolve (sc : Scatter S) (names : list string) : M (list Slot) :=
  match check_names (within sc) ∅ names with
  | Some what => refuse sc what
  | None =>
      match resolver sc with
      | None => refuse sc NoStore
      | Some r => resolve_names sc r names
      end
  end.

Definition write_slot (sv : Slot * Value) : M unit :=
  if is_unit sv.2 then mret tt else t_modify (slot_put sv.1 (Some sv.2)).

(** Once the slots are those of [keys]. *)
Definition write_slots (slots : list Slot) (values : list Value) : M Status :=
  if negb (length slots =? length values)%nat then mret Failure
  else _ ← t_for (zip slots values) write_slot; mret Success.

Definition scatter_write (sc : Scatter S) (keys values : Value) : M Status :=
  match into_elements values with
  | Err _ => mret Failure
  | Ok values =>
      kept ← t_gets (λ w, default bound_default (bound w !! scatter_node sc));
      if option_eqb value_eqb (b_keys kept) (Some keys) then write_slots (b_slots kept) values
      else
        match key_names keys with
        | None => mret Failure
        | Some names =>
            if negb (length names =? length values)%nat then mret Failure
            else
              slots ← resolve sc names;
              _ ← t_modify (λ w, with_bound (<[ scatter_node sc := mkBound (Some keys) slots ]> (bound w)) w);
              write_slots slots values
        end
  end.
End ScatterNode.

(** ** What a tick of the node does

    The names and the values a tick writes, the status or the refusal. *)
Inductive Outcome := Writes (names : list string) (values : list Value) | Fails | Refuses.

Definition names_ok (within : string) (names : list string) : Prop :=
  NoDup names ∧ Forall (λ name, is_tree_local name = false ∧ prefix_covers within name = true) names.
#[export] Instance names_ok_dec within names : Decision (names_ok within names).
Proof. unfold names_ok. apply _. Defined.

Definition scatter_spec (within : string) (keys values : Value) : Outcome :=
  match into_elements values, key_names keys with
  | Ok vs, Some names =>
      if decide (length names = length vs) then
        if decide (names_ok within names) then Writes names vs else Refuses
      else Fails
  | _, _ => Fails
  end.

Section Facts.
Context {S X : Type} `{DSL : DataStoreLaws S}.
Local Abbreviation Slot := (@SlotHandle S _).
Local Abbreviation W := (World S X).
Implicit Types (w : W) (sc : Scatter S).

(** What the node keeps: the slots of the keys it last resolved, which were
    checked. *)
Definition kept_ok (w : W) (sc : Scatter S) : Prop :=
  ∀ kept keys, bound w !! scatter_node sc = Some kept → b_keys kept = Some keys →
    ∃ names, key_names keys = Some names ∧ names_ok (within sc) names ∧
      Forall2 (λ slot name, slot_of (store w) slot (mkKey name)) (b_slots kept) names.

(** What a place holds once the values are written to the keys of that name. *)
Fixpoint scattered (names : list string) (values : list Value) (q : place) (old : option Value) : option Value :=
  match names, values with
  | name :: names, v :: values =>
      if decide (q = PKey (mkKey name)) then (if is_unit v then old else new_at q old (Some v))
      else scattered names values q old
  | _, _ => old
  end.

(** *** Lemmas *)
Lemma list_eqb_strings l k : list_eqb String.eqb l k = true → l = k.
Proof.
  revert k. induction l as [|x l IH]; intros [|y k] He; try done. simpl in He.
  apply andb_prop in He as [Hx Hl]. apply String.eqb_eq in Hx. f_equal; auto.
Qed.

Lemma key_names_eqb a b names : value_eqb a b = true → key_names a = Some names → key_names b = Some names.
Proof.
  intros He Hn. destruct a, b; try done; simpl in *.
  - by apply list_eqb_strings in He as <-.
  - revert v0 names He Hn. induction v as [|x v IH]; intros [|y v0] names He Hn; try done.
    cbn [list_eqb] in He. apply andb_prop in He as [Hx Hl]. cbn [mapM] in *.
    destruct x; try done. simpl in Hn. destruct y; try done. cbn in Hx. apply String.eqb_eq in Hx as <-.
    destruct (mapM _ v) as [ns|] eqn:Hv; [|done]. simpl in *. by rewrite (IH v0 ns Hl eq_refl).
Qed.

Lemma check_names_ok within named names :
  check_names within named names = None ↔ names_ok within names ∧ Forall (.∉ named) names.
Proof.
  revert named. induction names as [|name names IH]; intros named; simpl.
  { split; [repeat constructor|done]. }
  unfold names_ok. rewrite NoDup_cons, !Forall_cons.
  destruct (is_tree_local name); [naive_solver|].
  destruct (prefix_covers within name); simpl; [|naive_solver].
  case_bool_decide; [naive_solver|]. rewrite IH. unfold names_ok. rewrite !Forall_forall. set_solver.
Qed.

Lemma resolve_names_direct sc w names : ok_world w →
  ∃ slots w', resolve_names sc direct_resolver names w = Some (Ok slots, w') ∧ cells_only w w' ∧
    (∀ q, value_at w' q = value_at w q) ∧
    Forall2 (λ slot name, slot_of (store w') slot (mkKey name)) slots names.
Proof.
  revert w. induction names as [|name names IH]; intros w Hok; cbn [resolve_names].
  { exists [], w. split_and!; [done|by apply cells_only_refl|done|done]. }
  destruct (slot (mkKey name) (store w)) as [h s'] eqn:Hs.
  assert (resolve_name sc direct_resolver name w = Some (Ok h, with_store s' w)) as Hrn.
  { unfold resolve_name, direct_resolver. by rewrite Hs. }
  destruct (slot_law _ _ _ _ Hok Hs) as (Hev & Hc & Hh).
  destruct (IH (with_store s' w)) as (slots & w' & Hr & Hw & Hv & Hsl); [by destruct Hev|].
  exists (h :: slots), w'. rewrite (bind_ok _ _ _ _ _ Hrn), (bind_ok _ _ _ _ _ Hr). split_and!.
  - done.
  - eapply cells_only_trans; [|done]. by split.
  - intros q. rewrite Hv. by destruct q; simpl.
  - constructor; [|done]. destruct Hw as [(_ & Hs' & _) _]. by apply Hs'.
Qed.

Lemma write_slots_loop w slots names vs : ok_world w → NoDup names → length names = length vs →
  Forall2 (λ slot name, slot_of (store w) slot (mkKey name)) slots names →
  ∃ w', t_for (zip slots vs) write_slot w = Some (Ok tt, w') ∧ cells_only w w' ∧
    ∀ q, value_at w' q = scattered names vs q (value_at w q).
Proof.
  revert w slots vs. induction names as [|name names IH]; intros w slots vs Hok Hnd Hlen Hsl.
  { apply Forall2_nil_inv_r in Hsl as ->. exists w. split_and!; [done|by apply cells_only_refl|done]. }
  destruct vs as [|v vs]; [done|]. apply Forall2_cons_inv_r in Hsl as (slot & slots' & Hslot & Hsl & ->).
  apply NoDup_cons in Hnd as [Hnin Hnd]. cbn [zip zip_with t_for].
  assert (Hout : ∀ ns (us : list Value) q old, name ∉ ns → q = PKey (mkKey name) → scattered ns us q old = old).
  { induction ns as [|n ns IHn]; intros [|u us] q old Hni Hq; try done. cbn [scattered].
    rewrite decide_False by (intros ->; simplify_eq; set_solver). apply IHn; set_solver. }
  assert (Hw0 : write_slot (slot, v) w = Some (Ok tt, if is_unit v then w else slot_put slot (Some v) w)).
  { unfold write_slot. cbn [fst snd]. by destruct (is_unit v). }
  destruct (is_unit v) eqn:Hu.
  - destruct (IH w slots' vs Hok Hnd ltac:(by injection Hlen) Hsl) as (w' & Hw & Hc & Hv). exists w'.
    split; [by rewrite (bind_ok _ _ _ _ _ Hw0)|split; [done|]]. intros q. rewrite Hv. cbn [scattered].
    rewrite Hu. destruct (decide (q = _)) as [->|]; [|done]. by apply Hout.
  - destruct (set_opt_place w (Stored slot) (PKey (mkKey name)) (Some v) Hok Hslot) as [Hc1 Hv1].
    simpl in Hc1, Hv1. set (w1 := slot_put slot (Some v) w) in *.
    destruct (IH w1 slots' vs) as (w' & Hw & Hc & Hv); [by eapply cells_only_ok|done|by injection Hlen| |].
    { eapply Forall2_impl; [exact Hsl|]. intros s n Hs.
      exact (place_of_cells_only w w1 (Stored s) (PKey (mkKey n)) Hc1 Hs). }
    exists w'. split; [by rewrite (bind_ok _ _ _ _ _ Hw0)|split; [by eapply cells_only_trans|]].
    intros q. rewrite Hv, Hv1. cbn [scattered]. rewrite Hu.
    destruct (decide (q = _)) as [->|]; [|done]. by apply Hout.
Qed.

Lemma cells_only_with_bound w w' b : cells_only w w' → ok_world (with_bound b w') ∧
  evolves (store w) (store (with_bound b w')).
Proof. intros Hc. split; [by eapply (cells_only_ok w w')|]. apply Hc. Qed.

(** Once the slots are known to be those of checked names. *)
Lemma write_slots_spec w slots names vs : ok_world w → NoDup names →
  Forall2 (λ slot name, slot_of (store w) slot (mkKey name)) slots names →
  ∃ w', cells_only w w' ∧
    if decide (length names = length vs)
    then write_slots slots vs w = Some (Ok Success, w') ∧
         ∀ q, value_at w' q = scattered names vs q (value_at w q)
    else write_slots slots vs w = Some (Ok Failure, w') ∧ w' = w.
Proof.
  intros Hok Hnd Hsl. unfold write_slots. rewrite (Forall2_length _ _ _ Hsl).
  destruct (decide (length names = length vs)) as [Hlen|Hlen].
  - rewrite (proj2 (Nat.eqb_eq _ _) Hlen). simpl.
    destruct (write_slots_loop w slots names vs Hok Hnd Hlen Hsl) as (w' & Hw & Hc & Hv).
    exists w'. split; [done|]. split; [by rewrite (bind_ok _ _ _ _ _ Hw)|done].
  - rewrite (proj2 (Nat.eqb_neq _ _) Hlen). simpl. exists w. by split; [apply cells_only_refl|].
Qed.

Lemma scatter_writes w sc keys values : ok_world w → kept_ok w sc → resolver sc = Some direct_resolver →
  ∃ r w', scatter_write sc keys values w = Some (r, w') ∧
    evolves (store w) (store w') ∧ kept_ok w' sc ∧
    match scatter_spec (within sc) keys values with
    | Writes names vs => r = Ok Success ∧ ∀ q, value_at w' q = scattered names vs q (value_at w q)
    | Fails => r = Ok Failure ∧ w' = w
    | Refuses => (∃ why, r = Err (InconsistentTreeError (ScatterRefused (scatter_node sc) why))) ∧ w' = w
    end.
Proof.
  intros Hok Hkept Hres. unfold scatter_write, scatter_spec.
  destruct (into_elements values) as [vs|]; [|by eexists _, _; split_and!; [done|by apply evolves_refl|..]].
  set (kept := default bound_default (bound w !! scatter_node sc)).
  rewrite (bind_ok _ _ w kept w) by done.
  destruct (option_eqb value_eqb (b_keys kept) (Some keys)) eqn:Heq.
  - (* the keys the node kept *)
    destruct (bound w !! scatter_node sc) as [b|] eqn:Hb; [|done]. simpl in kept. subst kept.
    destruct (b_keys b) as [keys0|] eqn:Hk; [|done]. simpl in Heq.
    destruct (Hkept b keys0 Hb Hk) as (names & Hn & Hok' & Hsl). rewrite (key_names_eqb _ _ _ Heq Hn).
    destruct (write_slots_spec w (b_slots b) names vs Hok (proj1 Hok') Hsl) as (w' & Hc & Hw).
    assert (Hk' : kept_ok w' sc).
    { intros b' keys' Hb' Hk'. destruct Hc as ((_ & Hs & _) & Hbb & _). rewrite Hbb in Hb'.
      destruct (Hkept b' keys' Hb' Hk') as (ns & ? & ? & Hs'). exists ns. split_and!; [done..|].
      eapply Forall2_impl; [exact Hs'|]. intros; by apply Hs. }
    destruct (decide (length names = length vs)); [rewrite decide_True by done|];
      destruct Hw as [Hw Hv]; eexists _, w'; split_and!; eauto; apply Hc.
  - (* other keys *)
    destruct (key_names keys) as [names|] eqn:Hn; [|by eexists _, _; split_and!; [done|by apply evolves_refl|..]].
    destruct (decide (length names = length vs)) as [Hlen|Hlen].
    2: { rewrite (proj2 (Nat.eqb_neq _ _) Hlen). by eexists _, _; split_and!; [done|by apply evolves_refl|..]. }
    rewrite (proj2 (Nat.eqb_eq _ _) Hlen). simpl. unfold resolve, refuse.
    destruct (check_names (within sc) ∅ names) as [why|] eqn:Hcheck.
    { rewrite decide_False.
      - eexists _, w. split_and!; [done|by apply evolves_refl|done|by eexists|done].
      - intros Hnames. assert (check_names (within sc) ∅ names = None); [|congruence].
        apply check_names_ok. split; [done|]. apply Forall_forall. set_solver. }
    apply check_names_ok in Hcheck as [Hnames _]. rewrite decide_True by done. rewrite Hres.
    destruct (resolve_names_direct sc w names Hok) as (slots & w1 & Hr & Hc1 & Hv1 & Hsl).
    rewrite (bind_ok _ _ _ _ _ Hr).
    set (w2 := with_bound (<[scatter_node sc:=mkBound (Some keys) slots]> (bound w1)) w1).
    destruct (cells_only_with_bound w w1 (bound w2) Hc1) as [Hok2 Hev2].
    destruct (write_slots_spec w2 slots names vs Hok2 (proj1 Hnames) Hsl) as (w' & Hc & Hw).
    rewrite decide_True in Hw by done. destruct Hw as [Hw Hv]. exists (Ok Success), w'. split_and!.
    + rewrite (bind_ok _ _ _ tt w2) by done. exact Hw.
    + eapply evolves_trans; [exact Hev2|apply Hc].
    + intros b' keys' Hb' Hk'. destruct Hc as ((_ & Hs & _) & Hbb & _). rewrite Hbb in Hb'.
      cbn [bound with_bound w2] in Hb'. rewrite lookup_insert_eq in Hb'. simplify_eq. simpl in Hk'. simplify_eq.
      exists names. split_and!; [done..|]. eapply Forall2_impl; [exact Hsl|]. intros; by apply Hs.
    + done.
    + intros q. rewrite Hv. f_equal. rewrite <-Hv1. by destruct q.
Qed.

Lemma scattered_only names vs q old : scattered names vs q old ≠ old → ∃ name, name ∈ names ∧ q = PKey (mkKey name).
Proof.
  revert vs. induction names as [|name names IH]; intros [|v vs] Hne; try done. simpl in Hne.
  destruct (decide _) as [->|]; [exists name; set_solver|].
  destruct (IH vs Hne) as (m & ? & ->). exists m. set_solver.
Qed.

(** C29. A [Scatter] tick writes all its keys or none: over any store, with keys
    resolved to the store's slots and whatever the node kept from its earlier
    ticks, it succeeds exactly when the arrays match and every key is a store
    key, under [within] and named once, and has then written each value to its
    key ([Unit] leaves it); otherwise it fails or is refused with the world as it
    was. Nothing but keys under [within] ever changes, and what it keeps stays
    the checked keys' slots. *)
Theorem scatter_all_or_nothing w sc keys values :
  ok_world w → kept_ok w sc → resolver sc = Some direct_resolver →
  ∃ r w', scatter_write sc keys values w = Some (r, w') ∧
    evolves (store w) (store w') ∧ kept_ok w' sc ∧
    match scatter_spec (within sc) keys values with
    | Writes names vs => r = Ok Success ∧ ∀ q, value_at w' q = scattered names vs q (value_at w q)
    | Fails => r = Ok Failure ∧ w' = w
    | Refuses => (∃ why, r = Err (InconsistentTreeError (ScatterRefused (scatter_node sc) why))) ∧ w' = w
    end ∧
    ∀ q, value_at w' q ≠ value_at w q → ∃ name, q = PKey (mkKey name) ∧
      prefix_covers (within sc) name = true ∧ is_tree_local name = false.
Proof.
  intros Hok Hkept Hres.
  destruct (scatter_writes w sc keys values Hok Hkept Hres) as (r & w' & Hrun & Hev & Hk & Hw).
  exists r, w'. split_and!; [done..|]. intros q Hq. unfold scatter_spec in Hw.
  destruct (into_elements values) as [vs|]; [|by destruct Hw as [_ ->]].
  destruct (key_names keys) as [names|]; [|by destruct Hw as [_ ->]].
  destruct (decide (length names = length vs)); [|by destruct Hw as [_ ->]].
  destruct (decide (names_ok (within sc) names)) as [[_ Hall]|]; [|by destruct Hw as [_ ->]].
  destruct Hw as [_ Hv]. rewrite Hv in Hq. apply scattered_only in Hq as (name & Hin & ->).
  rewrite Forall_forall in Hall. destruct (Hall name Hin). by exists name.
Qed.
End Facts.
