(* ===== verification/Ticks.v ===== *)
(** * Ticking the native nodes: [tick_builtin] of
    [crates/arora-behavior-tree/src/behavior_tree.rs]

    The control nodes, the status leaves, the task-run nodes, the data nodes and
    the core string nodes, over the ticks of their children. *)

From S2P Require Import Prelude Values Extern Keys State Store Effects Nodes Schema Cells Expressions CoreNodes ScatterNode.

(** [value_serde::from_value::<Call>]: the [Deserialize] that serde derives for
    [Call] is not part of the repository. *)
Class CallDecoder := { call_from_value : Value → option Call }.

(** [native_writes] of [detached.rs]: the parameters a native node writes. *)
Definition native_writes (function : Uuid) : list Uuid :=
  if function =? UNPACK_FUNCTION_ID then UNPACK_OUT_PARAM_IDS
  else if function =? SEQ_STAR_FUNCTION_ID then [SEQ_STAR_CURRENT_INDEX_PARAM_ID]
  else if function =? RUN_STATUS_FUNCTION_ID then [RUN_STATUS_OUT_PARAM_ID; RUN_STATUS_LATCH_PARAM_ID]
  else if function =? SET_STR_FUNCTION_ID then [SET_STR_VARIABLE_PARAM_ID]
  else if function =? UNSET_STR_FUNCTION_ID then [UNSET_STR_VARIABLE_PARAM_ID]
  else if function =? REGEX_MATCH_FUNCTION_ID then [REGEX_MATCH_FIRST_MATCH_PARAM_ID]
  else [].

Definition is_native (function : Uuid) : bool :=
  bool_decide (function ∈ [SUCCEED_FUNCTION_ID; FAIL_FUNCTION_ID; RUN_FUNCTION_ID; SEQ_FUNCTION_ID;
    SEQ_STAR_FUNCTION_ID; FALLBACK_FUNCTION_ID; PARALLEL_FUNCTION_ID; RUN_CALL_FUNCTION_ID;
    RUN_STATUS_FUNCTION_ID; EQUAL_FUNCTION_ID; UNPACK_FUNCTION_ID; SCATTER_FUNCTION_ID])
  || bool_decide (is_Some (core_node_parameters function)).

(** [current_index += 1] on a [u16], in the release profile. *)
Definition u16_succ (i : Z) : Z := (i + 1) mod 2 ^ 16.

Section Tick.
Context {S X : Type} `{DS : DataStore S} `{UC : UuidCrate} `{CB : !CallBridge S X}
  `{RC : RegexCrate} `{CD : CallDecoder} (usize_max : Z).
Local Abbreviation Slot := (@SlotHandle S _).
Local Abbreviation Cell := (VariableCell Slot).
Local Abbreviation W := (World S X).
Local Abbreviation M := (T (World S X) BehaviorTreeError).
(** [child.tick(caller)] *)
Context (tick_child : TickId → M Status).

(** ** [tick_builtin] *)

(** The closure [argument]. *)
Definition argument (scope : Scope S) (node : Node Slot) (parameter : Uuid) : M Value :=
  let node_parameter := mkNodeParameterId (n_id node) parameter in
  match n_arguments node !! parameter with
  | None => t_fail (InconsistentTreeError (NoArgument node_parameter))
  | Some expression =>
      let cell := node_parameters_variables scope !! node_parameter in
      value ← match expression, cell with
              | Expression.Call _, _ | Expression.Select _ _, _ | _, None =>
                  compute_expression usize_max scope node_parameter expression
              | _, Some c => t_gets (get_or_unit c)
              end;
      _ ← match expression, cell with
          | Expression.Call _, Some c => t_modify (set_opt c (not_unit value))
          | _, _ => mret tt
          end;
      mret value
  end.

Definition tick_equal (scope : Scope S) (node : Node Slot) : M Status :=
  a ← argument scope node EQUAL_A_PARAM_ID;
  b ← argument scope node EQUAL_B_PARAM_ID;
  mret (if value_eqb a b then Success else Failure).

Definition unpack_port (cv : option Cell * Value) : M unit :=
  match cv.1 with
  | Some c => if is_unit cv.2 then mret tt else t_modify (set c cv.2)
  | None => mret tt
  end.
Definition tick_unpack (scope : Scope S) (outputs : option (Outputs S)) (node : Node Slot) : M Status :=
  match outputs with
  | Some (Ports cells) =>
      value ← argument scope node UNPACK_VALUES_PARAM_ID;
      match into_elements value with
      | Ok values =>
          if (length cells <=? length values)%nat
          then _ ← t_for (zip cells values) unpack_port; mret Success
          else mret Failure
      | Err _ => mret Failure
      end
  | _ => t_fail (InconsistentTreeError (UnpackUnbound (n_id node)))
  end.

Definition tick_scatter (scope : Scope S) (outputs : option (Outputs S)) (node : Node Slot) : M Status :=
  match outputs with
  | Some (OutKeys scatter) =>
      keys ← argument scope node SCATTER_KEYS_PARAM_ID;
      values ← argument scope node SCATTER_VALUES_PARAM_ID;
      scatter_write scatter keys values
  | _ => t_fail (InconsistentTreeError (ScatterUnbound (n_id node)))
  end.

(** The loops of [SEQ], [FALLBACK] and [PARALLEL] over the children. *)
Fixpoint seq_loop (children : list TickId) : M Status :=
  match children with
  | [] => mret Success
  | child :: children =>
      status ← tick_child child;
      match status with
      | Success => seq_loop children
      | Failure => mret Failure
      | Running => mret Running
      end
  end.
Fixpoint fallback_loop (children : list TickId) : M Status :=
  match children with
  | [] => mret Failure
  | child :: children =>
      status ← tick_child child;
      match status with
      | Success => mret Success
      | Failure => fallback_loop children
      | Running => mret Running
      end
  end.
Fixpoint parallel_loop (children : list TickId) (success failure : bool) : M Status :=
  match children with
  | [] => mret (if success then Success else if failure then Failure else Running)
  | child :: children =>
      status ← tick_child child;
      match status with
      | Success => parallel_loop children success failure
      | Failure => parallel_loop children false true
      | Running => parallel_loop children false failure
      end
  end.
Definition tick_fallback (children : list TickId) : M Status :=
  match children with [] => mret Success | _ => fallback_loop children end.

Definition tick_run_call (scope : Scope S) (node : Node Slot) : M Status :=
  call_variable ← t_of (get_node_parameter_variable (mkNodeParameterId (n_id node) RUN_CALL_PARAM_ID)
                          (node_parameters_variables scope));
  value ← t_gets (get_or_unit call_variable);
  call ← t_ok_or (call_from_value value) (InconsistentTreeError (MalformedCall (n_id node)));
  result ← bridge_call call;
  mret (match status_try_from (ret result) with Ok status => status | Err _ => Success end).

Definition tick_run_status (scope : Scope S) (children : list TickId) (node : Node Slot) : M Status :=
  latch ← t_of (get_node_parameter_variable (mkNodeParameterId (n_id node) RUN_STATUS_LATCH_PARAM_ID)
                  (node_parameters_variables scope));
  latched ← t_gets (get_or_unit latch);
  let run : M Status :=
    child ← t_ok_or (head children) (InconsistentTreeError (NeedsOneChild (n_id node)));
    ticked ← t_result (tick_child child);
    out ← t_of (get_node_parameter_variable (mkNodeParameterId (n_id node) RUN_STATUS_OUT_PARAM_ID)
                  (node_parameters_variables scope));
    match ticked with
    | Err error =>
        _ ← t_modify (set out (status_value Failure));
        _ ← t_modify (set latch (status_value Failure));
        t_fail error
    | Ok status =>
        _ ← t_modify (set out (status_value status));
        _ ← (if decide (status = Running) then mret tt else t_modify (set latch (status_value status)));
        mret status
    end in
  match status_try_from latched with
  | Ok latched => if decide (latched = Running) then run else mret latched
  | Err _ => run
  end.

(** The loop of [SEQ_STAR]: the index is kept where a child ends it. *)
Fixpoint seq_star_loop (children : list TickId) (current_index : Z) : M (Status * Z) :=
  match children with
  | [] => mret (Success, current_index)
  | child :: children =>
      status ← tick_child child;
      match status with
      | Success => seq_star_loop children (u16_succ current_index)
      | Failure => mret (Failure, current_index)
      | Running => mret (Running, current_index)
      end
  end.
Definition tick_seq_star (scope : Scope S) (children : list TickId) (node : Node Slot) : M Status :=
  index_variable ← t_of (get_node_parameter_variable
                           (mkNodeParameterId (n_id node) SEQ_STAR_CURRENT_INDEX_PARAM_ID)
                           (node_parameters_variables scope));
  held ← t_gets (get_or_unit index_variable);
  let current_index := match held with Value.U16 index => index | _ => 0 end in
  '(status, current_index) ← seq_star_loop (drop (Z.to_nat current_index) children) current_index;
  let current_index := if decide (status = Running) then current_index else 0 in
  _ ← t_modify (set index_variable (Value.U16 current_index));
  mret status.

(** The core string nodes: calls into their arguments' cells first, selections
    into cells of their own. *)
Definition alloc (value : Value) : M Cell := λ w, let '(c, w) := local_with value w in Some (Ok c, w).
Fixpoint core_arguments (scope : Scope S) (node : Node Slot) (ps : list CoreParameter)
    (selected : gmap Uuid Cell) : M (gmap Uuid Cell) :=
  match ps with
  | [] => mret selected
  | p :: ps =>
      match n_arguments node !! cp_id p with
      | Some (Expression.Call _) =>
          _ ← argument scope node (cp_id p);
          core_arguments scope node ps selected
      | Some (Expression.Select _ _) =>
          if bool_decide (cp_id p ∈ native_writes (n_function node))
          then core_arguments scope node ps selected
          else
            value ← argument scope node (cp_id p);
            c ← alloc value;
            core_arguments scope node ps (<[ cp_id p := c ]> selected)
      | _ => core_arguments scope node ps selected
      end
  end.
Definition tick_core (scope : Scope S) (node : Node Slot) : M (option Status) :=
  selected ← core_arguments scope node (default [] (core_node_parameters (n_function node))) ∅;
  tick_core_node (n_function node) (n_id node) (λ parameter,
    match selected !! parameter with
    | Some c => Ok c
    | None => get_node_parameter_variable (mkNodeParameterId (n_id node) parameter)
                (node_parameters_variables scope)
    end).

Definition tick_builtin (scope : Scope S) (outputs : option (Outputs S)) (children : list TickId)
    (node : Node Slot) : M (option Status) :=
  let f := n_function node in
  let native (m : M Status) : M (option Status) := status ← m; mret (Some status) in
  if f =? EQUAL_FUNCTION_ID then native (tick_equal scope node)
  else if f =? UNPACK_FUNCTION_ID then native (tick_unpack scope outputs node)
  else if f =? SCATTER_FUNCTION_ID then native (tick_scatter scope outputs node)
  else if f =? SUCCEED_FUNCTION_ID then native (mret Success)
  else if f =? FAIL_FUNCTION_ID then native (mret Failure)
  else if f =? RUN_FUNCTION_ID then native (mret Running)
  else if f =? SEQ_FUNCTION_ID then native (seq_loop children)
  else if f =? FALLBACK_FUNCTION_ID then native (tick_fallback children)
  else if f =? PARALLEL_FUNCTION_ID then native (parallel_loop children true false)
  else if f =? RUN_CALL_FUNCTION_ID then native (tick_run_call scope node)
  else if f =? RUN_STATUS_FUNCTION_ID then native (tick_run_status scope children node)
  else if f =? SEQ_STAR_FUNCTION_ID then native (tick_seq_star scope children node)
  else tick_core scope node.
End Tick.

(** ** The children a node ticks *)
Section Facts.
Context {S X : Type} `{DS : DataStore S} `{UC : UuidCrate} `{CB : !CallBridge S X}
  `{RC : RegexCrate} `{CD : CallDecoder} (usize_max : Z).
Local Abbreviation W := (World S X).
Local Abbreviation M := (T (World S X) BehaviorTreeError).
Implicit Types (w : W) (tick_child : TickId → M Status).

(** [children] were ticked in order, from [w] to [w'], with these statuses. *)
Inductive ran tick_child : list TickId → list Status → W → W → Prop :=
| ran_nil w : ran tick_child [] [] w w
| ran_cons child children st sts w w1 w2 :
    tick_child child w = Some (Ok st, w1) → ran tick_child children sts w1 w2 →
    ran tick_child (child :: children) (st :: sts) w w2.

(** A loop that goes on while a child returns [go], and returns [stop] after the
    last: [done] is what it ticked. *)
Definition ends_at (go : Status) (done_ rest : list TickId) (sts : list Status) (st : Status) : Prop :=
  (rest = [] ∧ sts = replicate (length done_) go ∧ st = go) ∨
  (st ≠ go ∧ ∃ k, sts = replicate k go ++ [st]).

Definition flip (st : Status) : Status :=
  match st with Success => Failure | Failure => Success | Running => Running end.
Definition flipped (m : M Status) : M Status := st ← m; mret (flip st).

(** *** Lemmas *)
Lemma ran_app tick_child cs1 cs2 sts1 sts2 w w1 w2 :
  ran tick_child cs1 sts1 w w1 → ran tick_child cs2 sts2 w1 w2 →
  ran tick_child (cs1 ++ cs2) (sts1 ++ sts2) w w2.
Proof. induction 1; intros; [done|]. simpl. econstructor; eauto. Qed.

Lemma ran_length tick_child cs sts w w' : ran tick_child cs sts w w' → length cs = length sts.
Proof. induction 1; simpl; auto. Qed.

Lemma seq_loop_ok tick_child cs w st w' :
  seq_loop tick_child cs w = Some (Ok st, w') ↔
  ∃ done_ rest sts, cs = done_ ++ rest ∧ ran tick_child done_ sts w w' ∧ ends_at Success done_ rest sts st.
Proof.
  split.
  - revert w. induction cs as [|c cs IH]; intros w Hrun; cbn [seq_loop] in Hrun.
    { t_ret Hrun. exists [], [], []. split_and!; [done|constructor|by left]. }
    apply bind_inv_ok in Hrun as (st1 & w1 & Hc & Hrun). destruct st1.
    + destruct (IH w1 Hrun) as (done_ & rest & sts & -> & Hran & Hend).
      exists (c :: done_), rest, (Success :: sts). split_and!; [done|by econstructor|].
      destruct Hend as [(-> & -> & ->)|(? & k & ->)]; [by left|right]. split; [done|]. by exists (Datatypes.S k).
    + t_ret Hrun. exists [c], cs, [Failure]. split_and!; [done|by repeat econstructor|].
      right. split; [done|]. by exists 0%nat.
    + t_ret Hrun. exists [c], cs, [Running]. split_and!; [done|by repeat econstructor|].
      right. split; [done|]. by exists 0%nat.
  - intros (done_ & rest & sts & -> & Hran & Hend). revert Hend.
    induction Hran as [w|c cs st1 sts w w1 w2 Hc Hran IH]; intros Hend.
    { destruct Hend as [(-> & _ & ->)|(? & k & Hk)]; [done|]. by destruct k. }
    simpl. rewrite (bind_ok _ _ _ _ _ Hc).
    destruct Hend as [(-> & Hs & ->)|(Hne & k & Hk)].
    + simpl in Hs. simplify_eq. apply IH. by left.
    + destruct k as [|k]; simpl in Hk; simplify_eq.
      * inversion Hran; subst. by destruct st.
      * apply IH. right. eauto.
Qed.

Lemma fallback_flipped tick_child cs w :
  fallback_loop tick_child cs w = flipped (seq_loop (λ c, flipped (tick_child c)) cs) w.
Proof.
  revert w. induction cs as [|c cs IH]; intros w; [done|]. cbn [fallback_loop seq_loop].
  unfold flipped in *. rewrite !bind_run. destruct (tick_child c w) as [[[[]|e] w1]|]; simpl; done.
Qed.

Lemma parallel_loop_ok tick_child cs success failure w st w' :
  parallel_loop tick_child cs success failure w = Some (Ok st, w') ↔
  ∃ sts, ran tick_child cs sts w w' ∧
    st = if success && forallb (λ st, bool_decide (st = Success)) sts then Success
         else if failure || existsb (λ st, bool_decide (st = Failure)) sts then Failure else Running.
Proof.
  revert success failure w. induction cs as [|c cs IH]; intros success failure w; cbn [parallel_loop].
  - split.
    + intros Hm. t_ret Hm. exists []. split; [constructor|]. simpl. by rewrite andb_true_r, orb_false_r.
    + intros (sts & Hran & ->). inversion Hran; subst. simpl. by rewrite andb_true_r, orb_false_r.
  - split.
    + intros (st1 & w1 & Hc & Hm)%bind_inv_ok.
      destruct st1; apply IH in Hm as (sts & Hran & ->); eexists; (split; [by econstructor|]); simpl;
        by rewrite ?andb_false_r, ?orb_true_r.
    + intros (sts & Hran & ->). inversion Hran as [|? ? st1 sts' ? w1 ? Hc Hran']; subst.
      rewrite (bind_ok _ _ _ _ _ Hc).
      destruct st1; apply IH; exists sts'; (split; [done|]); simpl; by rewrite ?andb_false_r, ?orb_true_r.
Qed.

(** A native node's tick is its loop's. *)
Lemma native_ok (m : M Status) w st w' :
  (status ← m; mret (Some status)) w = Some (Ok (Some st), w') ↔ m w = Some (Ok st, w').
Proof.
  rewrite bind_run. destruct (m w) as [[[a|a] w1]|]; cbv [mret T_ret]; split; intros; simplify_eq; done.
Qed.
Lemma native_err (m : M Status) w e w' :
  (status ← m; mret (Some status)) w = Some (Err e, w') ↔ m w = Some (Err e, w').
Proof.
  rewrite bind_run. destruct (m w) as [[[a|a] w1]|]; cbv [mret T_ret]; split; intros; simplify_eq; done.
Qed.

Lemma builtin_seq tick_child scope outputs children node : n_function node = SEQ_FUNCTION_ID →
  tick_builtin usize_max tick_child scope outputs children node
  = (status ← seq_loop tick_child children; mret (Some status)).
Proof. intros Hf. unfold tick_builtin. by rewrite Hf. Qed.
Lemma builtin_fallback tick_child scope outputs children node : n_function node = FALLBACK_FUNCTION_ID →
  tick_builtin usize_max tick_child scope outputs children node
  = (status ← tick_fallback tick_child children; mret (Some status)).
Proof. intros Hf. unfold tick_builtin. by rewrite Hf. Qed.
Lemma builtin_parallel tick_child scope outputs children node : n_function node = PARALLEL_FUNCTION_ID →
  tick_builtin usize_max tick_child scope outputs children node
  = (status ← parallel_loop tick_child children true false; mret (Some status)).
Proof. intros Hf. unfold tick_builtin. by rewrite Hf. Qed.
Lemma builtin_seq_star tick_child scope outputs children node : n_function node = SEQ_STAR_FUNCTION_ID →
  tick_builtin usize_max tick_child scope outputs children node
  = (status ← tick_seq_star tick_child scope children node; mret (Some status)).
Proof. intros Hf. unfold tick_builtin. by rewrite Hf. Qed.
Lemma builtin_run_status tick_child scope outputs children node : n_function node = RUN_STATUS_FUNCTION_ID →
  tick_builtin usize_max tick_child scope outputs children node
  = (status ← tick_run_status tick_child scope children node; mret (Some status)).
Proof. intros Hf. unfold tick_builtin. by rewrite Hf. Qed.
Lemma builtin_unpack tick_child scope outputs children node : n_function node = UNPACK_FUNCTION_ID →
  tick_builtin usize_max tick_child scope outputs children node
  = (status ← tick_unpack usize_max scope outputs node; mret (Some status)).
Proof. intros Hf. unfold tick_builtin. by rewrite Hf. Qed.

Lemma seq_loop_err tick_child cs w e w' :
  seq_loop tick_child cs w = Some (Err e, w') ↔
  ∃ done_ c rest w1, cs = done_ ++ c :: rest ∧ ran tick_child done_ (replicate (length done_) Success) w w1 ∧
    tick_child c w1 = Some (Err e, w').
Proof.
  split.
  - revert w. induction cs as [|c cs IH]; intros w Hrun; cbn [seq_loop] in Hrun; [done|].
    apply bind_inv_err in Hrun as [Hc|(st1 & w1 & Hc & Hrun)].
    + exists [], c, cs, w. split_and!; [done|constructor|done].
    + destruct st1; [|done..]. destruct (IH w1 Hrun) as (done_ & c' & rest & w2 & -> & Hran & He).
      exists (c :: done_), c', rest, w2. split_and!; [done|by econstructor|done].
  - intros (done_ & c & rest & w1 & -> & Hran & He). remember (replicate _ _) as sts eqn:Hs.
    induction Hran as [w|c1 cs st1 sts w w1 w2 Hc Hran IH]; simpl.
    + by rewrite (bind_err _ _ _ _ _ He).
    + simpl in Hs. simplify_eq. rewrite (bind_ok _ _ _ _ _ Hc). by apply IH.
Qed.

(** From index [i] on: what was ticked, and the index after it. *)
Lemma seq_star_loop_ok tick_child cs i w st j w' : 0 <= i → i + Z.of_nat (length cs) < 2 ^ 16 →
  seq_star_loop tick_child cs i w = Some (Ok (st, j), w') ↔
  ∃ done_ rest sts, cs = done_ ++ rest ∧ ran tick_child done_ sts w w' ∧ ends_at Success done_ rest sts st ∧
    j = i + Z.of_nat (length (filter (.= Success) sts)).
Proof.
  intros Hi Hlen. split.
  - revert i w Hi Hlen. induction cs as [|c cs IH]; intros i w Hi Hlen Hrun; cbn [seq_star_loop] in Hrun.
    { t_ret Hrun. exists [], [], []. split_and!; [done|constructor|by left|simpl; lia]. }
    apply bind_inv_ok in Hrun as (st1 & w1 & Hc & Hrun). cbn [length] in Hlen. destruct st1.
    + unfold u16_succ in Hrun. rewrite Z.mod_small in Hrun by lia.
      destruct (IH (i + 1) w1 ltac:(lia) ltac:(lia) Hrun) as (done_ & rest & sts & -> & Hran & Hend & ->).
      exists (c :: done_), rest, (Success :: sts). split_and!; [done|by econstructor| |].
      * destruct Hend as [(-> & -> & ->)|(? & k & ->)]; [by left|right]. split; [done|].
        by exists (Datatypes.S k).
      * rewrite filter_cons_True by done. cbn [length]. lia.
    + t_ret Hrun. exists [c], cs, [Failure]. split_and!; [done|by repeat econstructor| |simpl; lia].
      right. split; [done|]. by exists 0%nat.
    + t_ret Hrun. exists [c], cs, [Running]. split_and!; [done|by repeat econstructor| |simpl; lia].
      right. split; [done|]. by exists 0%nat.
  - intros (done_ & rest & sts & -> & Hran & Hend & ->). revert i Hi Hlen Hend.
    induction Hran as [w|c cs st1 sts w w1 w2 Hc Hran IH]; intros i Hi Hlen Hend.
    { destruct Hend as [(-> & _ & ->)|(? & k & Hk)]; [|by destruct k]. simpl. by rewrite Z.add_0_r. }
    simpl in Hlen |- *. rewrite (bind_ok _ _ _ _ _ Hc).
    destruct Hend as [(-> & Hs & ->)|(Hne & k & Hk)].
    + simpl in Hs. simplify_eq. unfold u16_succ. rewrite Z.mod_small by lia.
      rewrite IH; [|lia|lia|by left]. rewrite filter_cons_True by done. cbn [length].
      by rewrite Nat2Z.inj_succ, <-Z.add_succ_comm.
    + destruct k as [|k]; simpl in Hk; simplify_eq.
      * inversion Hran; subst. destruct st; [done|..]; by rewrite filter_cons_False, filter_nil, Z.add_0_r by done.
      * unfold u16_succ. rewrite Z.mod_small by lia. rewrite IH; [|lia|lia|right; eauto].
        rewrite filter_cons_True by done. cbn [length]. by rewrite Nat2Z.inj_succ, <-Z.add_succ_comm.
Qed.

(** *** What the control nodes promise *)

(** [seq] ticks its children in order and stops at the first that does not
    succeed: it returns that child's status, or [Success] once every child has
    succeeded, and no later child is ticked; a child's error stops it there and
    is returned, with the world as that child left it. *)
Theorem seq_ticks_in_order tick_child scope outputs children node w w' : n_function node = SEQ_FUNCTION_ID →
  (∀ st, tick_builtin usize_max tick_child scope outputs children node w = Some (Ok (Some st), w') ↔
    ∃ done_ rest sts, children = done_ ++ rest ∧ ran tick_child done_ sts w w' ∧
      ends_at Success done_ rest sts st) ∧
  (∀ e, tick_builtin usize_max tick_child scope outputs children node w = Some (Err e, w') ↔
    ∃ done_ c rest w1, children = done_ ++ c :: rest ∧
      ran tick_child done_ (replicate (length done_) Success) w w1 ∧ tick_child c w1 = Some (Err e, w')).
Proof.
  intros Hf. rewrite (builtin_seq _ _ _ _ _ Hf). split; intros.
  - rewrite native_ok. apply seq_loop_ok.
  - rewrite native_err. apply seq_loop_err.
Qed.

(** [fallback] is [seq] with success and failure exchanged, of its children
    and of its result, in every world and for every outcome of the children,
    errors included; without children it succeeds. *)
Theorem fallback_is_flipped_seq tick_child scope outputs children fallback seq_ w :
  n_function fallback = FALLBACK_FUNCTION_ID → n_function seq_ = SEQ_FUNCTION_ID →
  tick_builtin usize_max tick_child scope outputs children fallback w =
  match children with
  | [] => Some (Ok (Some Success), w)
  | _ => (st ← tick_builtin usize_max (λ c, flipped (tick_child c)) scope outputs children seq_;
          mret (flip <$> st)) w
  end.
Proof.
  intros Hf Hs. rewrite (builtin_fallback _ _ _ _ _ Hf), (builtin_seq _ _ _ _ _ Hs).
  destruct children as [|c cs]; [done|]. unfold tick_fallback. rewrite !bind_run, fallback_flipped.
  unfold flipped at 1. rewrite bind_run. by destruct (seq_loop _ _ w) as [[[]]|].
Qed.

(** [parallel] ticks every child, in order, whatever they return: it succeeds
    when all of them did, fails when one failed, and runs otherwise. *)
Theorem parallel_ticks_all tick_child scope outputs children node w st w' :
  n_function node = PARALLEL_FUNCTION_ID →
  tick_builtin usize_max tick_child scope outputs children node w = Some (Ok (Some st), w') ↔
  ∃ sts, ran tick_child children sts w w' ∧
    (st = Success ↔ Forall (.= Success) sts) ∧ (st = Failure ↔ Failure ∈ sts).
Proof.
  intros Hf. rewrite (builtin_parallel _ _ _ _ _ Hf), native_ok, parallel_loop_ok. simpl.
  apply exist_proper. intros sts. apply and_iff_compat_l.
  assert (Ha : forallb (λ st, bool_decide (st = Success)) sts = true ↔ Forall (.= Success) sts).
  { rewrite forallb_forall, Forall_forall. setoid_rewrite <-list_elem_of_In.
    setoid_rewrite bool_decide_eq_true. done. }
  assert (Hb : existsb (λ st, bool_decide (st = Failure)) sts = true ↔ Failure ∈ sts).
  { rewrite existsb_exists. setoid_rewrite <-list_elem_of_In. setoid_rewrite bool_decide_eq_true. naive_solver. }
  assert (Hno : Forall (.= Success) sts → Failure ∉ sts).
  { rewrite Forall_forall. intros Hall Hin. by specialize (Hall _ Hin). }
  destruct (forallb _ sts), (existsb _ sts); destruct st; naive_solver.
Qed.

(** [seq_star] resumes: a tick starts at the child its index names, goes on
    as [seq] does over the children from there, and leaves the index at the child
    that is running, or at the first once it has succeeded or failed. *)
Theorem seq_star_resumes tick_child scope outputs children node c i w st w' :
  n_function node = SEQ_STAR_FUNCTION_ID →
  node_parameters_variables scope !! mkNodeParameterId (n_id node) SEQ_STAR_CURRENT_INDEX_PARAM_ID = Some c →
  get_or_unit c w = Value.U16 (Z.of_nat i) → (i ≤ length children)%nat → Z.of_nat (length children) < 2 ^ 16 →
  tick_builtin usize_max tick_child scope outputs children node w = Some (Ok (Some st), w') ↔
  ∃ done_ rest sts w1, children = take i children ++ done_ ++ rest ∧ ran tick_child done_ sts w w1 ∧
    ends_at Success done_ rest sts st ∧
    w' = set c (Value.U16 (if decide (st = Running) then Z.of_nat (i + (length done_ - 1)) else 0)) w1.
Proof.
  intros Hf Hc Hget Hi Hlen. rewrite (builtin_seq_star _ _ _ _ _ Hf), native_ok.
  unfold tick_seq_star, get_node_parameter_variable. rewrite Hc. rewrite !(bind_ok (t_of _) _ w c w) by done.
  rewrite (bind_ok (t_gets _) _ w (Value.U16 (Z.of_nat i)) w) by (unfold t_gets; by rewrite Hget).
  rewrite Nat2Z.id.
  assert (Hloop := λ st j w', seq_star_loop_ok tick_child (drop i children) (Z.of_nat i) w st j w'
    ltac:(lia) ltac:(rewrite length_drop; lia)).
  assert (Hpos : ∀ done_ rest sts, length done_ = length sts → ends_at Success done_ rest sts Running →
    Z.of_nat i + Z.of_nat (length (filter (.= Success) sts)) = Z.of_nat (i + (length done_ - 1))).
  { intros done_ rest sts -> [(_ & _ & ?)|(_ & k & ->)]; [done|].
    assert (length (filter (.= Success) (replicate k Success)) = k) as Hk.
    { clear. induction k; [done|]. cbn [replicate]. rewrite filter_cons_True by done. cbn [length]. lia. }
    rewrite filter_app, !length_app, Hk, length_replicate. simpl. lia. }
  split.
  - intros ([st1 j] & w1 & Hrun & Hend)%bind_inv_ok. apply Hloop in Hrun as (done_ & rest & sts & Hd & Hran & He & ->).
    rewrite bind_run in Hend. cbv [t_modify] in Hend. t_ret Hend. exists done_, rest, sts, w1.
    rewrite <-Hd, take_drop. split_and!; [done..|]. destruct (decide (st = Running)) as [->|]; [|done].
    by rewrite (Hpos done_ rest sts (ran_length _ _ _ _ _ Hran) He).
  - intros (done_ & rest & sts & w1 & Hd & Hran & He & ->).
    erewrite bind_ok; [|apply Hloop; exists done_, rest, sts; split_and!; [|done|done|done]].
    + t_unfold. destruct (decide (st = Running)) as [->|]; [|done].
      by rewrite (Hpos done_ rest sts (ran_length _ _ _ _ _ Hran) He).
    + rewrite Hd at 1. rewrite drop_app_le, drop_ge by (rewrite ?length_take; lia). done.
Qed.
End Facts.

Section Placed.
Context {S X : Type} `{DSL : DataStoreLaws S} `{UC : UuidCrate} `{CB : !CallBridge S X}
  `{RC : RegexCrate} `{CD : CallDecoder} (usize_max : Z).
Local Abbreviation Cell := (VariableCell (@SlotHandle S _)).
Local Abbreviation W := (World S X).
Local Abbreviation M := (T (World S X) BehaviorTreeError).
Implicit Types (w : W) (tick_child : TickId → M Status).

(** What a place holds after an [Unpack] tick wrote [values] to the [ports]. *)
Fixpoint unpacked (ports : list (option place)) (values : list Value) (q : place) (old : option Value) :
    option Value :=
  match ports, values with
  | port :: ports, v :: values =>
      if decide (port = Some q) then (if is_unit v then old else new_at q old (Some v))
      else unpacked ports values q old
  | _, _ => old
  end.

Definition port_place (w : W) (port : option Cell) (q : option place) : Prop :=
  match port, q with
  | Some c, Some p => place_of w c p
  | None, None => True
  | _, _ => False
  end.

(** *** Lemmas *)
Lemma unpacked_out ports vs q old : Some q ∉ ports → unpacked ports vs q old = old.
Proof.
  revert vs. induction ports as [|port ports IH]; intros [|v vs] Hq; try done. simpl.
  rewrite decide_False by set_solver. apply IH. set_solver.
Qed.

Lemma unpack_loop w cells ports vs : ok_world w → Forall2 (port_place w) cells ports →
  (length cells ≤ length vs)%nat → (∀ i j p, ports !! i = Some (Some p) → ports !! j = Some (Some p) → i = j) →
  ∃ w', t_for (zip cells vs) unpack_port w = Some (Ok tt, w') ∧ cells_only w w' ∧
    ∀ q, value_at w' q = unpacked ports vs q (value_at w q).
Proof.
  intros Hok Hports. revert w vs Hok Hports. revert ports.
  induction cells as [|c cells IH]; intros ports w vs Hok Hports Hlen Hdis.
  { apply Forall2_nil_inv_l in Hports as ->. exists w. split_and!; [done|by apply cells_only_refl|done]. }
  apply Forall2_cons_inv_l in Hports as (port & ports' & Hport & Hports & ->).
  destruct vs as [|v vs]; [simpl in Hlen; lia|]. cbn [zip zip_with t_for].
  assert (Hdis' : ∀ i j p, ports' !! i = Some (Some p) → ports' !! j = Some (Some p) → i = j).
  { intros i j p Hi Hj. specialize (Hdis (Datatypes.S i) (Datatypes.S j) p Hi Hj). lia. }
  assert (Hnin : ∀ p, port = Some p → Some p ∉ ports').
  { intros p -> [i Hi]%list_elem_of_lookup. by specialize (Hdis 0%nat (Datatypes.S i) p eq_refl Hi). }
  assert (∃ w1, unpack_port (c, v) w = Some (Ok tt, w1) ∧ cells_only w w1 ∧
    ∀ q, value_at w1 q = if decide (port = Some q)
      then (if is_unit v then value_at w q else new_at q (value_at w q) (Some v)) else value_at w q)
    as (w1 & Hw1 & Hc1 & Hv1).
  { unfold unpack_port. cbn [fst snd]. destruct c as [c|], port as [p|]; try done.
    - destruct (is_unit v); [exists w; split_and!; [done|by apply cells_only_refl|intros; by case_decide]|].
      destruct (set_opt_place w c p (Some v) Hok Hport) as [Hc Hv]. eexists. split_and!; [done..|].
      intros q. unfold set. rewrite Hv. destruct (decide (q = p)) as [->|]; [by rewrite decide_True|].
      by rewrite decide_False by congruence.
    - exists w. split_and!; [done|by apply cells_only_refl|done]. }
  destruct (IH ports' w1 vs) as (w' & Hw & Hc & Hv); [by eapply cells_only_ok| |simpl in Hlen; lia|done|].
  { eapply Forall2_impl; [exact Hports|]. intros [c'|] [p'|]; simpl; try done. by apply place_of_cells_only. }
  exists w'. rewrite (bind_ok _ _ _ _ _ Hw1). split_and!; [done|by eapply cells_only_trans|].
  intros q. rewrite Hv, Hv1. simpl. destruct (decide (port = Some q)); [|done]. apply unpacked_out. auto.
Qed.

Lemma get_or_unit_place w c p : ok_world w → place_of w c p → get_or_unit c w = default Value.Unit (value_at w p).
Proof. intros Hok Hp. unfold get_or_unit. by rewrite (get_place w c p Hok Hp). Qed.

(** A status is kept as it is: its value equals no other value. *)
Lemma new_at_status p old st : new_at p old (Some (status_value st)) = Some (status_value st).
Proof.
  destruct p; [done|]. unfold new_at, keep. destruct old as [v|]; [|done]. simpl.
  destruct (value_eqb v (status_value st)) eqn:He; [|done]. f_equal.
  destruct v; try done. destruct e as [id variant payload]. cbn in He.
  apply andb_prop in He as [[Hid Hvar]%andb_prop Hp]. apply Z.eqb_eq in Hid, Hvar. subst.
  by destruct payload.
Qed.

(** What a tick of [run_status] that ticks its child leaves. *)
Lemma run_status_ticked tick_child scope children node latch out pl po child w r w1 :
  node_parameters_variables scope !! mkNodeParameterId (n_id node) RUN_STATUS_LATCH_PARAM_ID = Some latch →
  node_parameters_variables scope !! mkNodeParameterId (n_id node) RUN_STATUS_OUT_PARAM_ID = Some out →
  head children = Some child → tick_child child w = Some (r, w1) →
  ok_world w1 → place_of w1 latch pl → place_of w1 out po → pl ≠ po →
  (∀ st, status_try_from (get_or_unit latch w) = Ok st → st = Running) →
  let st := match r with Ok st => st | Err _ => Failure end in
  ∃ w', tick_run_status tick_child scope children node w = Some (r, w') ∧ cells_only w1 w' ∧
    ∀ q, value_at w' q = if decide (q = po) then Some (status_value st)
      else if decide (q = pl ∧ st ≠ Running) then Some (status_value st) else value_at w1 q.
Proof.
  intros Hlatch Hout Hhead Hchild Hok Hpl Hpo Hne Hnot st.
  destruct (set_opt_place w1 out po (Some (status_value st)) Hok Hpo) as [Hc2 Hv2].
  set (w2 := set_opt out (Some (status_value st)) w1) in *.
  destruct (set_opt_place w2 latch pl (Some (status_value st)) (cells_only_ok _ _ Hc2)
    (place_of_cells_only _ _ _ _ Hc2 Hpl)) as [Hc3 Hv3].
  set (w3 := set_opt latch (Some (status_value st)) w2) in *.
  exists (if decide (st = Running) then w2 else w3). split_and!.
  - unfold tick_run_status, get_node_parameter_variable. rewrite Hlatch. t_unfold.
    assert (∀ A (x y : A), match status_try_from (get_or_unit latch w) with
      | Ok latched => if decide (latched = Running) then x else y | Err _ => x end = x) as Hrun.
    { intros A x y. destruct (status_try_from _) as [st'|] eqn:E; [|done].
      by rewrite decide_True by (by apply Hnot). }
    destruct (status_try_from _) as [st'|] eqn:E; [rewrite (Hnot st' eq_refl); simpl|];
      rewrite Hhead, Hchild, Hout; subst st; destruct r as [[]|]; done.
  - destruct (decide (st = Running)); [done|by eapply cells_only_trans].
  - intros q. destruct (decide (st = Running)) as [Hr|Hr].
    + rewrite Hv2, new_at_status. destruct (decide (q = po)); [done|]. by rewrite decide_False by naive_solver.
    + rewrite Hv3, new_at_status, Hv2, new_at_status.
      repeat case_decide; naive_solver.
Qed.

(** C30. A task run latches at its end: a [run_status] tick, its latch cell another
    than its output's, writes the child's
    status to the bound output, and once that is terminal, or the child's error,
    which counts as [Failure] and is returned this once, every later tick returns
    the latched status without ticking the child, whatever else than the latch cell
    has changed. *)
Theorem run_status_latches tick_child scope outputs node children latch out pl po child w r w1 :
  n_function node = RUN_STATUS_FUNCTION_ID →
  node_parameters_variables scope !! mkNodeParameterId (n_id node) RUN_STATUS_LATCH_PARAM_ID = Some latch →
  node_parameters_variables scope !! mkNodeParameterId (n_id node) RUN_STATUS_OUT_PARAM_ID = Some out →
  head children = Some child → tick_child child w = Some (r, w1) →
  ok_world w1 → place_of w1 latch pl → place_of w1 out po → pl ≠ po →
  (∀ st, status_try_from (get_or_unit latch w) = Ok st → st = Running) →
  let st := match r with Ok st => st | Err _ => Failure end in
  ∃ w', tick_builtin usize_max tick_child scope outputs children node w =
      Some (match r with Ok st => Ok (Some st) | Err e => Err e end, w') ∧
    value_at w' po = Some (status_value st) ∧ (∀ q, q ≠ po → q ≠ pl → value_at w' q = value_at w1 q) ∧
    (st = Running → value_at w' pl = value_at w1 pl) ∧
    (st ≠ Running → ∀ tick_child' w2, ok_world w2 → place_of w2 latch pl → value_at w2 pl = value_at w' pl →
      tick_builtin usize_max tick_child' scope outputs children node w2 = Some (Ok (Some st), w2)).
Proof.
  intros Hf Hlatch Hout Hhead Hchild Hok Hpl Hpo Hne Hnot st.
  destruct (run_status_ticked tick_child scope children node latch out pl po child w r w1
    Hlatch Hout Hhead Hchild Hok Hpl Hpo Hne Hnot) as (w' & Hrun & Hc & Hv). fold st in Hv.
  exists w'. split_and!.
  - rewrite (builtin_run_status _ _ _ _ _ _ Hf), bind_run, Hrun. by destruct r.
  - rewrite Hv. by rewrite decide_True.
  - intros q Hq Hq'. rewrite Hv. rewrite decide_False by done. by rewrite decide_False by naive_solver.
  - intros Hr. rewrite Hv. rewrite decide_False by done. by rewrite decide_False by naive_solver.
  - intros Hr tick_child' w2 Hok2 Hpl2 Hv2. rewrite (builtin_run_status _ _ _ _ _ _ Hf), bind_run.
    unfold tick_run_status, get_node_parameter_variable. rewrite Hlatch. t_unfold.
    rewrite (get_or_unit_place w2 latch pl Hok2 Hpl2), Hv2, Hv.
    rewrite decide_False by done. rewrite decide_True by done. change (default Value.Unit (Some (status_value st))) with (status_value st).
    rewrite status_try_from_value. by rewrite decide_False by done.
Qed.

(** [Unpack] writes each element to the variable of its port, or nothing: it
    succeeds exactly when its argument is an array that reaches the last bound
    port; each bound port then holds its element ([Unit] leaves it), and no other
    place changes. *)
Theorem unpack_all_or_nothing tick_child scope children node cells ports v w w0 :
  n_function node = UNPACK_FUNCTION_ID →
  argument usize_max scope node UNPACK_VALUES_PARAM_ID w = Some (Ok v, w0) →
  ok_world w0 → Forall2 (port_place w0) cells ports →
  (∀ i j p, ports !! i = Some (Some p) → ports !! j = Some (Some p) → i = j) →
  ∃ st w', tick_builtin usize_max tick_child scope (Some (Ports cells)) children node w = Some (Ok (Some st), w') ∧
    (st = Success ↔ ∃ vs, into_elements v = Ok vs ∧ (length cells ≤ length vs)%nat) ∧
    match into_elements v, st with
    | Ok vs, Success => ∀ q, value_at w' q = unpacked ports vs q (value_at w0 q)
    | _, _ => st = Failure ∧ w' = w0
    end.
Proof.
  intros Hf Harg Hok Hports Hdis. rewrite (builtin_unpack _ _ _ _ _ _ Hf).
  setoid_rewrite native_ok. unfold tick_unpack. rewrite (bind_ok _ _ _ _ _ Harg).
  destruct (into_elements v) as [vs|] eqn:Hv; [|exists Failure, w0; naive_solver].
  destruct (Nat.leb_spec (length cells) (length vs)) as [Hle|Hgt].
  - destruct (unpack_loop w0 cells ports vs Hok Hports Hle Hdis) as (w' & Hw & Hc & Hq).
    exists Success, w'. rewrite (bind_ok _ _ _ _ _ Hw). split; [done|]. split; [naive_solver|done].
  - exists Failure, w0. split; [done|]. split; [|done].
    split; [done|]. intros (vs' & [= <-] & ?). lia.
Qed.
End Placed.
