(* ===== verification/Lowering.v ===== *)
(** * Lowering a tree onto the host's callables: [tick], [setup_tick_function],
    [register_ticks] and [LoweredTree] of
    [crates/arora-behavior-tree/src/behavior_tree.rs], and the registry of
    [crates/arora-engine/src/call.rs]

    Every node's tick is a callable its parent ticks by id: a tick goes through
    the registry, its status through a value and its error through a
    [CallError]. A node that is not native calls its module function. The trees
    modelled hold no detached node, and no trace runs. *)

From S2P Require Import Prelude Values Extern Keys State Store Effects Nodes Schema Cells Expressions CoreNodes ScatterNode Ticks.

(** The numbers [rng.next_u64()] draws for a registry of these ids: the [rand]
    crate's. *)
Class RandCrate := { draws : gset Z → list Z }.
(** Sooner or later it draws one that is not taken. *)
Class RandLaws `{RandCrate} : Prop := {
  draws_fresh (taken : gset Z) : ∃ x, x ∈ draws taken ∧ x ∉ taken;
}.

Section Signatures.
Context `{UC : UuidCrate} {Slot : Type}.

(** ** The calls an expression states *)
Fixpoint calls_in (e : Expression Slot) : list (CallExpression Slot) :=
  match e with
  | Expression.Call call => calls_of call
  | Expression.Select source _ => calls_in source
  | _ => []
  end
with calls_of (call : CallExpression Slot) : list (CallExpression Slot) :=
  match call with
  | Expression.mkCallExpression module function_ arguments =>
      call :: calls_in module ++ calls_in function_ ++
      (fix go (arguments : list (Expression Slot * Expression Slot)) :=
         match arguments with
         | [] => []
         | (parameter, argument) :: arguments => calls_in parameter ++ calls_in argument ++ go arguments
         end) arguments
  end.

Definition stated_id (e : Expression Slot) : option Uuid :=
  match e with
  | Expression.Uuid id => Some id
  | Expression.Value (Value.ArrayU8 bytes) => from_slice (Z_byte <$> bytes)
  | Expression.Value (Value.Uuid id) => Some id
  | _ => None
  end.

Definition has_no_cell (e : Expression Slot) : bool :=
  match e with Expression.Select _ _ | Expression.Call _ => true | _ => false end.

(** The arguments of one call against the function's parameters. *)
Fixpoint check_arguments (owner : Uuid) (f : Function_) (arguments : list (Expression Slot * Expression Slot)) :
    result BehaviorTreeError unit :=
  match arguments with
  | [] => Ok tt
  | (parameter, argument) :: arguments =>
      match stated_id parameter with
      | None => check_arguments owner f arguments
      | Some parameter_id =>
          match parameters f !! parameter_id with
          | None => Err (InconsistentTreeError (RefusedParameter owner parameter_id))
          | Some declared =>
              if p_mutable declared && has_no_cell argument
              then Err (InconsistentTreeError (RefusedMutable owner parameter_id))
              else check_arguments owner f arguments
          end
      end
  end.

Fixpoint expression_call_signatures (owner : Uuid) (calls : list (CallExpression Slot))
    (functions signatures : FunctionIndex) : result BehaviorTreeError FunctionIndex :=
  match calls with
  | [] => Ok signatures
  | Expression.mkCallExpression _ function_ arguments :: calls =>
      match stated_id function_ with
      | None => expression_call_signatures owner calls functions signatures
      | Some function_id =>
          if is_interpreter_function_id function_id
          then Err (InconsistentTreeError (RefusedInterpreter owner))
          else match functions !! function_id with
               | None => expression_call_signatures owner calls functions signatures
               | Some signature =>
                   match check_arguments owner (function signature) arguments with
                   | Err e => Err e
                   | Ok _ => expression_call_signatures owner calls functions
                               (<[ function_id := signature ]> signatures)
                   end
               end
      end
  end.

(** [node.arguments.values()] comes in no order: any refusal is the first. *)
Definition call_signatures (node : Node Slot) (functions : FunctionIndex) :
    result BehaviorTreeError FunctionIndex :=
  let calls := (map_to_list (n_arguments node)).*2 ≫= calls_in in
  match expression_call_signatures (n_id node) calls functions ∅ with
  | Err e => Err e
  | Ok signatures =>
      Ok (match functions !! n_function node with
          | Some f => <[ n_function node := f ]> signatures
          | None => signatures
          end)
  end.
End Signatures.

(** ** [ordered] of [display.rs]: a node's parameters in its function's order,
    then any others by id *)
Definition order_key (usize_max : Z) (order : list Uuid) (parameter : Uuid) : Z * Z :=
  (match list_find (λ id, id = parameter) order with Some (i, _) => Z.of_nat i | None => usize_max end,
   parameter).
Definition key_before (a b : Z * Z) : Prop := a.1 < b.1 ∨ a.1 = b.1 ∧ a.2 ≤ b.2.
#[export] Instance key_before_dec : RelDecision key_before.
Proof. unfold key_before. intros a b. apply _. Defined.
Definition ordered (usize_max : Z) (parameters : list Uuid) (signature : option ModuleFunction) : list Uuid :=
  let order := match signature with Some s => parameter_ordering (function s) | None => [] end in
  merge_sort (λ a b, key_before (order_key usize_max order a) (order_key usize_max order b)) parameters.

Section Lowering.
Context {S X : Type} `{DS : DataStore S} `{UC : UuidCrate} `{CB : !CallBridge S X}
  `{RC : RegexCrate} `{CD : CallDecoder} `{RD : RandCrate} (usize_max : Z).
Local Abbreviation Slot := (@SlotHandle S _).
Local Abbreviation Cell := (VariableCell Slot).
Local Abbreviation W := (World S X).
Local Abbreviation M := (T (World S X) BehaviorTreeError).

(** ** A module leaf's tick *)

(** The [children] parameter, which must be the first one. *)
Definition children_parameter (node : Node Slot) (f : Function_) : result BehaviorTreeError Uuid :=
  let missing := Err (MissingChildrenParameter (n_id node) (n_function node)) in
  match parameter_ordering f with
  | [] => missing
  | first_parameter_id :: _ =>
      match parameters f !! first_parameter_id with
      | None => missing
      | Some first_parameter =>
          if negb (String.eqb (p_name first_parameter) "children") then missing
          else match ty_as_array (p_ty first_parameter) with
               | None => missing
               | Some reference =>
                   if negb (fr_id reference =? TICK_ID_STRUCTURE_ID) then missing
                   else Ok first_parameter_id
               end
      end
  end.

(** What the arguments were resolved to: the fields passed, the cells of the
    parameters, those read through a selection. *)
Record Resolved := mkResolved {
  r_args : list StructureField;
  r_locals : gmap Uuid Cell;
  r_selected : list Uuid;
}.

Definition resolve_argument (scope : Scope S) (node : Node Slot) (f : Function_) (param_id : Uuid)
    (value_expression : Expression Slot) (r : Resolved) : M Resolved :=
  let node_parameter := mkNodeParameterId (n_id node) param_id in
  variable ← t_of (get_node_parameter_variable node_parameter (node_parameters_variables scope));
  _ ← match value_expression with
      | Expression.Call _ =>
          value ← compute_expression usize_max scope node_parameter value_expression;
          t_modify (set_opt variable (not_unit value))
      | _ => mret tt
      end;
  if param_id =? _RET_PARAM_ID
  then mret (mkResolved (r_args r) (<[ param_id := variable ]> (r_locals r)) (r_selected r))
  else
    let pass value := mkStructureField param_id (argument_value value (is_optional f param_id)) in
    match value_expression with
    | Expression.Select _ _ =>
        value ← compute_expression usize_max scope node_parameter value_expression;
        mret (mkResolved (r_args r ++ [pass (not_unit value)]) (r_locals r) (r_selected r ++ [param_id]))
    | _ =>
        value ← t_gets (get variable);
        mret (mkResolved (r_args r ++ [pass value]) (<[ param_id := variable ]> (r_locals r)) (r_selected r))
    end.

(** [argument_order] lists the keys of [node.arguments]. *)
Fixpoint resolve_arguments (scope : Scope S) (node : Node Slot) (f : Function_) (order : list Uuid)
    (r : Resolved) : M Resolved :=
  match order with
  | [] => mret r
  | param_id :: order =>
      match n_arguments node !! param_id with
      | Some value_expression =>
          r ← resolve_argument scope node f param_id value_expression r;
          resolve_arguments scope node f order r
      | None => resolve_arguments scope node f order r
      end
  end.

Definition write_mutated (f : Function_) (r : Resolved) (field : StructureField) : M unit :=
  if bool_decide (sf_id field ∈ r_selected r) then mret tt
  else
    variable ← t_ok_or (r_locals r !! sf_id field) (InternalError (MutatedNotLocal (sf_id field)));
    t_modify (write_back variable (sf_value field) (is_optional f (sf_id field))).

Definition tick_leaf (tf : TickFunction S) : M Status :=
  let node := tf_node tf in
  module_function ← t_ok_or (tf_function tf) (CallErr (FunctionNotFound (n_function node)));
  let f := function module_function in
  args ← match n_children node with
         | None => mret []
         | Some _ =>
             first_parameter_id ← t_of (children_parameter node f);
             mret [mkStructureField first_parameter_id
                     (array_of_type TICK_ID_STRUCTURE_ID false (tick_id_value <$> tf_children tf))]
         end;
  r ← resolve_arguments (tf_scope tf) node f (tf_argument_order tf) (mkResolved args ∅ []);
  result ← bridge_call (mkCall (Some (module_id module_function)) (n_function node) (r_args r));
  _ ← t_for (mutated result) (write_mutated f r);
  match r_locals r !! _RET_PARAM_ID with
  | Some var =>
      _ ← t_modify (write_back var (ret result) (ty_is_option (return_ty f)));
      mret Success
  | None => mret (match status_try_from (ret result) with Ok status => status | Err _ => Success end)
  end.

(** ** [tick], [TickFunction] and the callables *)
Definition tick (tick_child : TickId → M Status) (tf : TickFunction S) : M Status :=
  builtin ← tick_builtin usize_max tick_child (tf_scope tf) (tf_outputs tf) (tf_children tf) (tf_node tf);
  match builtin with
  | Some status => mret status
  | None => tick_leaf tf
  end.

(** [Callable for TickFunction] *)
Definition call_tick (tick_child : TickId → M Status) (tf : TickFunction S) : T W CallError Value :=
  t_map_err into_call_error (status ← tick tick_child tf; mret (status_value status)).

Definition find_callable (id : TickId) : T W CallError (TickFunction S) := λ w,
  match callables_by_id w !! callable_id id with
  | Some tf => Some (Ok tf, w)
  | None => Some (Err (Generic CannotFindCallable), w)
  end.

(** [Tickable]: the value a callable returns, as a status. *)
Definition tick_of (call : T W CallError Value) : M Status :=
  value ← t_map_err CallErr call;
  match status_try_from value with
  | Ok status => mret status
  | Err _ => t_fail (ConversionError ChildNotAStatus)
  end.

(** The depth of the calls is bounded by the fuel: the height of the tree is
    enough. *)
Fixpoint arora_call_indirect (fuel : nat) (id : TickId) : T W CallError Value :=
  match fuel with
  | O => t_diverge
  | Datatypes.S fuel =>
      tf ← find_callable id;
      call_tick (λ child, tick_of (arora_call_indirect fuel child)) tf
  end.
Definition tick_id (fuel : nat) (id : TickId) : M Status := tick_of (arora_call_indirect fuel id).

(** ** [CallableRegistry] *)
Definition generate_unique_callable_id (taken : gset Z) : option Z :=
  head (filter (.∉ taken) (draws taken)).
Definition register_callable (tf : TickFunction S) : T W CallError TickId := λ w,
  match generate_unique_callable_id (dom (callables_by_id w)) with
  | None => None
  | Some id =>
      match callables_by_id w !! id with
      | Some _ => Some (Err (Generic CallableTaken), w)
      | None => Some (Ok (mkTickId id), with_callables (<[ id := tf ]> (callables_by_id w)) w)
      end
  end.
Definition unregister_callable (id : Z) : T W CallError unit := λ w,
  match callables_by_id w !! id with
  | Some _ => Some (Ok tt, with_callables (delete id (callables_by_id w)) w)
  | None => Some (Err (Generic CannotFindCallable), w)
  end.
(** The engine unwraps both: an error panics. *)
Definition unwrap {E A} (m : T W E A) (w : W) : option (A * W) :=
  match m w with Some (Ok a, w) => Some (a, w) | _ => None end.

(** ** [BehaviorTree], as loaded *)
Record BehaviorTree := mkBehaviorTree {
  bt_root : Node Slot;
  node_index : gmap Uuid (Node Slot);
  bt_variables : gmap Uuid Cell;
  node_arg_variables : gmap NodeParameterId Cell;
  bt_outputs : gmap Uuid (Outputs S);
}.

(** Lowering: the world and every callable registered so far. *)
Local Abbreviation L := (T (W * list Z) BehaviorTreeError).

Definition register (tf : TickFunction S) : L TickId := λ '(w, callables),
  match unwrap (register_callable tf) w with
  | Some (tick, w) => Some (Ok tick, (w, callables ++ [callable_id tick]))
  | None => None
  end.

Fixpoint setup_children (setup : Node Slot → L TickId) (tree : BehaviorTree) (node : Uuid)
    (children : list Uuid) : L (list TickId) :=
  match children with
  | [] => mret []
  | child_id :: children =>
      child_node ← t_ok_or (node_index tree !! child_id) (ChildNodeNotFound child_id node);
      tick ← setup child_node;
      ticks ← setup_children setup tree node children;
      mret (tick :: ticks)
  end.

Fixpoint setup_tick_function (fuel : nat) (tree : BehaviorTree) (functions : FunctionIndex)
    (node : Node Slot) : L TickId :=
  match fuel with
  | O => t_diverge
  | Datatypes.S fuel =>
      children_ticks ← setup_children (setup_tick_function fuel tree functions) tree (n_id node)
        (default [] (n_children node));
      calls ← t_of (call_signatures node functions);
      register (mkTickFunction node (functions !! n_function node)
        (mkScope (bt_variables tree) (node_arg_variables tree) calls)
        (ordered usize_max (map_to_list (n_arguments node)).*1 (functions !! n_function node))
        (bt_outputs tree !! n_id node) children_ticks)
  end.

(** [for callable in &callables { caller.arora_unregister_callable(callable) }] *)
Fixpoint unregister_all (callables : list Z) (w : W) : option W :=
  match callables with
  | [] => Some w
  | id :: callables =>
      match unwrap (unregister_callable id) w with
      | Some (_, w) => unregister_all callables w
      | None => None
      end
  end.

Definition register_ticks (fuel : nat) (tree : BehaviorTree) (functions : FunctionIndex) :
    M (TickId * list Z) := λ w,
  match setup_tick_function fuel tree functions (bt_root tree) (w, []) with
  | Some (Ok root, (w, callables)) => Some (Ok (root, callables), w)
  | Some (Err error, (w, callables)) =>
      match unregister_all callables w with
      | Some w => Some (Err error, w)
      | None => None
      end
  | None => None
  end.

(** [LoweredTree]: its tick, and [unregister]. *)
Record LoweredTree := mkLoweredTree { lt_root : TickId; lt_callables : list Z; lt_tree : BehaviorTree }.
Definition lower_behavior_tree (fuel : nat) (tree : BehaviorTree) (functions : FunctionIndex) : M LoweredTree :=
  '(root, callables) ← register_ticks fuel tree functions; mret (mkLoweredTree root callables tree).
Definition lowered_tick (fuel : nat) (lowered : LoweredTree) : M Status := tick_id fuel (lt_root lowered).
Definition unregister (lowered : LoweredTree) (w : W) : option W := unregister_all (lt_callables lowered) w.

(** [run_behavior_tree]: ticks back to back, [rounds] of them at most. *)
Fixpoint run_ticks (rounds fuel : nat) (root : TickId) : M Status :=
  match rounds with
  | O => t_diverge
  | Datatypes.S rounds =>
      status ← tick_id fuel root;
      match status with
      | Running => run_ticks rounds fuel root
      | status => mret status
      end
  end.
Definition run_behavior_tree (rounds fuel : nat) (tree : BehaviorTree) (functions : FunctionIndex) : M Status :=
  '(root, _) ← register_ticks fuel tree functions; run_ticks rounds fuel root.
End Lowering.

(** ** What lowering leaves in the registry *)
Section Registry.
Context {S X : Type} `{DS : DataStore S} `{UC : UuidCrate} `{CB : !CallBridge S X}
  `{RC : RegexCrate} `{CD : CallDecoder} `{RL : RandLaws} (usize_max : Z).
Local Abbreviation Slot := (@SlotHandle S _).
Local Abbreviation W := (World S X).
Implicit Types (w : W) (reg : gmap Z (TickFunction S)) (tree : BehaviorTree (S := S)).

(** [w'] is [w] with the callables [new], and only them, registered. *)
Record grown (w : W) (new : list Z) (w' : W) : Prop := {
  grown_rest : w' = with_callables (callables_by_id w') w;
  grown_new : NoDup new;
  grown_fresh : ∀ id, id ∈ new → id ∉ dom (callables_by_id w);
  grown_kept : callables_by_id w ⊆ callables_by_id w';
  grown_dom : dom (callables_by_id w') = dom (callables_by_id w) ∪ list_to_set new;
}.

(** The callable [tick] ticks the node [node], its children's ticks are those
    of the node's children, and so on down to the leaves, within [height]. *)
Fixpoint mirrors (tree : BehaviorTree) (functions : FunctionIndex) (reg : gmap Z (TickFunction S))
    (height : nat) (tick : TickId) (node : Node Slot) : Prop :=
  match height with
  | O => False
  | Datatypes.S height =>
      ∃ tf, reg !! callable_id tick = Some tf ∧ tf_node tf = node ∧
        tf_function tf = functions !! n_function node ∧ tf_outputs tf = bt_outputs tree !! n_id node ∧
        Forall2 (λ child t, ∃ n, node_index tree !! child = Some n ∧ mirrors tree functions reg height t n)
          (default [] (n_children node)) (tf_children tf)
  end.

(** A tree without a cycle: a child is lower than its parent. *)
Definition child_lower (rank : Node Slot → nat) (tree : BehaviorTree) (node : Node Slot) : Prop :=
  ∀ child n, child ∈ default [] (n_children node) → node_index tree !! child = Some n → (rank n < rank node)%nat.
Definition acyclic (rank : Node Slot → nat) (tree : BehaviorTree) : Prop :=
  child_lower rank tree (bt_root tree) ∧ ∀ id node, node_index tree !! id = Some node → child_lower rank tree node.

(** *** Lemmas *)
Lemma generate_fresh taken : ∃ id, generate_unique_callable_id taken = Some id ∧ id ∉ taken.
Proof.
  unfold generate_unique_callable_id. destruct (draws_fresh taken) as (x & Hx & Hnin).
  destruct (filter (.∉ taken) (draws taken)) as [|id ids] eqn:Hf.
  - assert (x ∈ filter (.∉ taken) (draws taken)) as Hin by (by apply list_elem_of_filter).
    rewrite Hf in Hin. by apply elem_of_nil in Hin.
  - exists id. split; [done|].
    assert (id ∈ filter (.∉ taken) (draws taken)) as Hin by (rewrite Hf; apply list_elem_of_here).
    by apply list_elem_of_filter in Hin as [? _].
Qed.

Lemma register_run tf w cs : ∃ id, (id ∉ dom (callables_by_id w)) ∧
  register tf (w, cs) = Some (Ok (mkTickId id), (with_callables (<[ id := tf ]> (callables_by_id w)) w, cs ++ [id])).
Proof.
  destruct (generate_fresh (dom (callables_by_id w))) as (id & Hid & Hnin). exists id. split; [done|].
  unfold register, register_callable, unwrap. rewrite Hid.
  by rewrite (not_elem_of_dom_1 _ _ Hnin).
Qed.

Lemma grown_refl w : grown w [] w.
Proof. split; [by destruct w|constructor|set_solver|done|set_solver]. Qed.

Lemma grown_trans w1 w2 w3 l1 l2 : grown w1 l1 w2 → grown w2 l2 w3 → grown w1 (l1 ++ l2) w3.
Proof.
  intros [R1 N1 F1 K1 D1] [R2 N2 F2 K2 D2]. split.
  - rewrite R2, R1. by destruct w1, w3.
  - apply NoDup_app. split_and!; [done| |done]. intros x Hx Hx2. apply F2 in Hx2. rewrite D1 in Hx2. set_solver.
  - intros id [Hid|Hid]%elem_of_app; [by apply F1|]. apply F2 in Hid. rewrite D1 in Hid. set_solver.
  - by etrans.
  - rewrite D2, D1, list_to_set_app_L. set_solver.
Qed.

Lemma grown_insert w id tf : id ∉ dom (callables_by_id w) →
  grown w [id] (with_callables (<[ id := tf ]> (callables_by_id w)) w).
Proof.
  intros Hid. split; [done|apply NoDup_singleton|set_solver| |].
  - by apply insert_subseteq, not_elem_of_dom_1.
  - cbn [callables_by_id with_callables]. rewrite dom_insert_L. set_solver.
Qed.

Lemma unregister_grown w new w' : grown w new w' → unregister_all new w' = Some w.
Proof.
  revert w'. induction new as [|id new IH]; intros w' [Hr Hn Hf Hk Hd]; simpl.
  - assert (callables_by_id w' = callables_by_id w) as Heq; [|rewrite Hr, Heq; by destruct w].
    symmetry. apply subseteq_dom_eq; [done|]. rewrite Hd. set_solver.
  - apply NoDup_cons in Hn as [Hnin Hn].
    assert (is_Some (callables_by_id w' !! id)) as [tf Htf] by (apply elem_of_dom; rewrite Hd; set_solver).
    unfold unwrap, unregister_callable. rewrite Htf. apply IH. split; [|done|..].
    + rewrite Hr. done.
    + intros x Hx. apply Hf. set_solver.
    + cbn [callables_by_id with_callables]. apply map_subseteq_spec. intros i x Hi.
      rewrite lookup_delete_ne; [by eapply map_subseteq_spec|]. intros ->.
      apply (Hf i); [set_solver|]. by apply elem_of_dom_2 in Hi.
    + cbn [callables_by_id with_callables]. rewrite dom_delete_L, Hd.
      assert (id ∉ dom (callables_by_id w)) by (apply Hf; set_solver).
      assert (id ∉ list_to_set (C := gset Z) new) by (by rewrite elem_of_list_to_set). set_solver.
Qed.

Lemma mirrors_mono tree functions reg reg' h h' t node : reg ⊆ reg' → (h ≤ h')%nat →
  mirrors tree functions reg h t node → mirrors tree functions reg' h' t node.
Proof.
  intros Hreg. revert h' t node. induction h as [|h IH]; intros [|h'] t node Hle Hm; try done; [lia|].
  destruct Hm as (tf & Htf & Hn & Hf & Ho & Hc). exists tf. split_and!; [by eapply lookup_weaken|done..|].
  eapply Forall2_impl; [exact Hc|]. intros child u (n & Hi & Hm). exists n. split; [done|].
  apply IH; [lia|done].
Qed.

(** A step of the lowering: what it registered, and that it mirrors what it says
    when it succeeds. *)
Definition lowers {A} (m : T (W * list Z) BehaviorTreeError A)
    (good : gmap Z (TickFunction S) → A → Prop) : Prop :=
  ∀ w cs, ∃ r new w', m (w, cs) = Some (r, (w', cs ++ new)) ∧ grown w new w' ∧
    match r with Ok a => good (callables_by_id w') a | Err _ => True end.

Lemma lowers_bind {A B} (m : T (W * list Z) BehaviorTreeError A) (k : A → T (W * list Z) BehaviorTreeError B) good good' :
  lowers m good →
  (∀ a, lowers (k a) (λ reg b, ∀ reg0, good reg0 a → reg0 ⊆ reg → good' reg b)) → lowers (m ≫= k) good'.
Proof.
  intros Hm Hk w cs. destruct (Hm w cs) as (r & new & w1 & Hr & Hg & Hgood). destruct r as [a|e].
  - destruct (Hk a w1 (cs ++ new)) as (r2 & new2 & w2 & Hr2 & Hg2 & Hgood2).
    exists r2, (new ++ new2), w2. rewrite (bind_ok _ _ _ _ _ Hr), Hr2, (assoc_L (++)).
    split_and!; [done|by eapply grown_trans|]. destruct r2; [|done]. eapply Hgood2; [done|apply Hg2].
  - exists (Err e), new, w1. by rewrite (bind_err _ _ _ _ _ Hr).
Qed.

Lemma lowers_pure {A} (r : result BehaviorTreeError A) (good : gmap Z (TickFunction S) → A → Prop) :
  (∀ reg a, r = Ok a → good reg a) → lowers (t_of r) good.
Proof.
  intros Hr w cs. exists r, [], w. rewrite app_nil_r. split_and!; [done|apply grown_refl|]. destruct r; auto.
Qed.

Lemma lowers_impl {A} (m : T (W * list Z) BehaviorTreeError A) (good good' : gmap Z (TickFunction S) → A → Prop) :
  lowers m good → (∀ reg a, good reg a → good' reg a) → lowers m good'.
Proof.
  intros Hm Hi w cs. destruct (Hm w cs) as (r & new & w' & ? & ? & Hr). exists r, new, w'.
  split_and!; [done..|]. destruct r; auto.
Qed.

Lemma lowers_register tf : lowers (register tf) (λ reg t, reg !! callable_id t = Some tf).
Proof.
  intros w cs. destruct (register_run tf w cs) as (id & Hid & Hr). eexists _, [id], _. rewrite Hr.
  split_and!; [done|by apply grown_insert|]. apply lookup_insert_eq.
Qed.

Lemma lowers_children tree functions setup node h children :
  (∀ child n, child ∈ children → node_index tree !! child = Some n →
     lowers (setup n) (λ reg t, mirrors tree functions reg h t n)) →
  lowers (setup_children setup tree node children) (λ reg ts,
    Forall2 (λ child t, ∃ n, node_index tree !! child = Some n ∧ mirrors tree functions reg h t n) children ts).
Proof.
  induction children as [|child children IH]; intros Hsetup; cbn [setup_children].
  { apply (lowers_pure (Ok [])). intros reg a [= <-]. constructor. }
  destruct (node_index tree !! child) as [n|] eqn:Hn.
  2: { by apply (lowers_pure (Err _)). }
  change (lowers (tick ← setup n; ticks ← setup_children setup tree node children; mret (tick :: ticks))
    (λ reg ts, Forall2 (λ child t, ∃ n, node_index tree !! child = Some n ∧ mirrors tree functions reg h t n)
      (child :: children) ts)).
  eapply lowers_bind; [apply (Hsetup child n); [set_solver|done]|]. intros t.
  eapply lowers_bind; [apply IH; intros; apply (Hsetup child0); [set_solver|done]|]. intros ts.
  apply (lowers_pure (Ok (t :: ts))). intros reg a [= <-] reg1 Hts Hsub1 reg0 Ht Hsub0. constructor.
  - exists n. split; [done|]. by eapply mirrors_mono; [exact Hsub0| |].
  - eapply Forall2_impl; [exact Hts|]. intros c u (n' & ? & Hm). exists n'. split; [done|].
    by eapply mirrors_mono; [exact Hsub1| |].
Qed.

Lemma lowers_setup rank tree functions : acyclic rank tree → ∀ fuel node, child_lower rank tree node →
  (rank node < fuel)%nat →
  lowers (setup_tick_function usize_max fuel tree functions node)
    (λ reg t, mirrors tree functions reg (Datatypes.S (rank node)) t node).
Proof.
  intros [_ Hindex]. induction fuel as [|fuel IH]; intros node Hnode Hfuel; [lia|].
  cbn [setup_tick_function].
  eapply lowers_bind.
  { apply (lowers_children tree functions _ _ (rank node)). intros child n Hchild Hn.
    eapply lowers_impl; [apply IH; [by eapply Hindex|specialize (Hnode child n Hchild Hn); lia]|].
    intros reg t Hm. eapply mirrors_mono; [done| |exact Hm]. specialize (Hnode child n Hchild Hn). lia. }
  intros ts. eapply lowers_bind; [by apply (lowers_pure _ (λ _ _, True))|]. intros calls.
  eapply lowers_impl; [apply lowers_register|]. intros reg t Ht reg1 _ _ reg0 Hts Hsub.
  eexists. split; [exact Ht|]. split_and!; [done..|]. cbn [tf_children].
  eapply Forall2_impl; [exact Hts|]. intros c u (n & ? & Hm). exists n. split; [done|].
  by eapply mirrors_mono; [exact Hsub| |].
Qed.

(** C31. Lowering registers the ticks of a tree without detached nodes, or nothing: with fuel beyond the height
    of the tree it always ends; a tree it refuses leaves the host as it was; one
    it accepts has one new callable per node held, no callable touched, and the
    root's callable mirrors the tree: each node's tick is its own and ticks the
    ticks of its children in their order; unregistering it leaves the host as it
    was before. *)
Theorem lowering_mirrors_tree rank tree functions fuel w : acyclic rank tree → (rank (bt_root tree) < fuel)%nat →
  ∃ r w', lower_behavior_tree usize_max fuel tree functions w = Some (r, w') ∧
    match r with
    | Err _ => w' = w
    | Ok lowered =>
        mirrors tree functions (callables_by_id w') (Datatypes.S (rank (bt_root tree))) (lt_root lowered) (bt_root tree) ∧
        grown w (lt_callables lowered) w' ∧ unregister lowered w' = Some w
    end.
Proof.
  intros Hac Hfuel.
  destruct (lowers_setup rank tree functions Hac fuel (bt_root tree) (proj1 Hac) Hfuel w []) as (r & new & w' & Hr & Hg & Hm).
  unfold lower_behavior_tree, register_ticks. rewrite bind_run, Hr. simpl. destruct r as [root|e].
  - eexists _, w'. split; [done|]. simpl. split_and!; [done..|]. by apply unregister_grown.
  - rewrite (unregister_grown _ _ _ Hg). by eexists _, _.
Qed.
End Registry.

(** ** Ticks end *)
Section Ends.
Context {S X : Type} `{DS : DataStore S} `{UC : UuidCrate} `{CB : !CallBridge S X}
  `{RC : RegexCrate} `{CD : CallDecoder} (usize_max : Z).
Local Abbreviation Slot := (@SlotHandle S _).
Local Abbreviation Cell := (VariableCell Slot).
Local Abbreviation W := (World S X).
Implicit Types (w : W).

(** A module call registers and unregisters no callable: the interface a module
    has to its host is [arora_call] and [arora_call_indirect]. *)
Definition calls_keep_callables : Prop := ∀ call w, callables_by_id (arora_call call w).2 = callables_by_id w.

(** Code that, over the registry [reg], returns and leaves it. *)
Definition returns {E A} (reg : gmap Z (TickFunction S)) (m : T W E A) : Prop :=
  ∀ w, callables_by_id w = reg → ∃ r w', m w = Some (r, w') ∧ callables_by_id w' = reg.

(** *** Lemmas *)
Section Closed.
Context (reg : gmap Z (TickFunction S)).

Lemma returns_bind {E A B} (m : T W E A) (k : A → T W E B) :
  returns reg m → (∀ a, returns reg (k a)) → returns reg (m ≫= k).
Proof.
  intros Hm Hk w Hw. destruct (Hm w Hw) as ([a|e] & w1 & Hr & Hw1).
  - rewrite (bind_ok _ _ _ _ _ Hr). by apply Hk.
  - rewrite (bind_err _ _ _ _ _ Hr). by eexists _, _.
Qed.
Lemma returns_ret {E A} (a : A) : returns reg (mret a : T W E A).
Proof. intros w Hw. by eexists _, _. Qed.
Lemma returns_fail {E A} (e : E) : returns reg (t_fail e : T W E A).
Proof. intros w Hw. by eexists _, _. Qed.
Lemma returns_of {E A} (r : result E A) : returns reg (t_of r : T W E A).
Proof. intros w Hw. by eexists _, _. Qed.
Lemma returns_gets {E A} (f : W → A) : returns reg (t_gets f : T W E A).
Proof. intros w Hw. by eexists _, _. Qed.
Lemma returns_modify {E} (f : W → W) : (∀ w, callables_by_id (f w) = callables_by_id w) →
  returns reg (t_modify f : T W E unit).
Proof. intros Hf w Hw. eexists _, _. split; [done|]. by rewrite Hf. Qed.
Lemma returns_ok_or {E A} (x : option A) (e : E) : returns reg (t_ok_or x e : T W E A).
Proof. intros w Hw. destruct x; by eexists _, _. Qed.
Lemma returns_ok_or_bind {E A B} (x : option A) (e : E) (k : A → T W E B) :
  (∀ a, x = Some a → returns reg (k a)) → returns reg (t_ok_or x e ≫= k).
Proof. intros Hk w Hw. destruct x as [a|]; [by apply Hk|by eexists _, _]. Qed.
Lemma returns_result {E E' A} (m : T W E A) : returns reg m → returns reg (t_result m : T W E' (result E A)).
Proof. intros Hm w Hw. unfold t_result. destruct (Hm w Hw) as (r & w' & -> & ?). by eexists _, _. Qed.
Lemma returns_map_err {E E' A} (f : E → E') (m : T W E A) : returns reg m → returns reg (t_map_err f m).
Proof. intros Hm w Hw. unfold t_map_err. destruct (Hm w Hw) as ([] & w' & -> & ?); by eexists _, _. Qed.
Lemma returns_for {E A} (l : list A) (f : A → T W E unit) : (∀ a, returns reg (f a)) → returns reg (t_for l f).
Proof. intros Hf. induction l; [apply returns_ret|]. by apply returns_bind. Qed.
End Closed.

Lemma callables_set_opt (c : Cell) v w : callables_by_id (set_opt c v w) = callables_by_id w.
Proof. destruct c; [done|]. simpl. unfold slot_put. by case_match. Qed.
Lemma callables_write_back (c : Cell) v optional w :
  callables_by_id (write_back c v optional w) = callables_by_id w.
Proof. unfold write_back. repeat case_match; unfold set; rewrite ?callables_set_opt; done. Qed.
Lemma callables_slot_put slot v w : callables_by_id (slot_put slot v w) = callables_by_id w.
Proof. unfold slot_put. by case_match. Qed.

(** Take the plumbing of code apart, down to the calls it makes. *)
Ltac returns_step :=
  first
    [ apply returns_ok_or_bind; intros ? ?
    | apply returns_bind; [|intros ?]
    | apply returns_ret | apply returns_fail | apply returns_of | apply returns_gets
    | apply returns_ok_or
    | apply returns_result
    | apply returns_map_err
    | apply returns_for; intros ?
    | apply returns_modify; intros ?; first
        [ apply callables_set_opt | apply callables_write_back | apply callables_slot_put | reflexivity ]
    | case_match ].
Ltac returns := repeat returns_step; auto.

Section Closed.
Context (Hcalls : calls_keep_callables) (reg : gmap Z (TickFunction S)).

Lemma returns_bridge_call call : returns reg (bridge_call call).
Proof.
  intros w Hw. unfold bridge_call. pose proof (Hcalls call w) as Hk.
  destruct (arora_call call w) as [[] w']; eexists _, _; (split; [done|]); simpl in *; congruence.
Qed.

Lemma returns_compute_uuid scope compute (e : Expression Slot) np :
  returns reg (compute e) → returns reg (compute_uuid scope compute e np).
Proof. intros Hc. unfold compute_uuid. destruct e; returns. Qed.

Lemma returns_call_write_back np ev field : returns reg (call_write_back np ev field).
Proof. unfold call_write_back. returns. Qed.

Fixpoint returns_compute scope np (e : Expression Slot) :
  returns reg (compute_expression usize_max scope np e)
with returns_call scope np (call : CallExpression Slot) :
  returns reg (call_expression usize_max scope np call).
Proof.
  - destruct e; cbn [compute_expression]; returns.
  - destruct call as [module function_ arguments]. rewrite call_expression_eq.
    apply returns_bind; [apply returns_compute_uuid, returns_compute|intros module_id].
    apply returns_bind; [apply returns_compute_uuid, returns_compute|intros function_id].
    destruct (is_interpreter_function_id function_id); [apply returns_fail|].
    apply returns_bind.
    + generalize (@mkEvaluated S _ [] [] []). induction arguments as [|[p a] arguments IH]; intros ev.
      * apply returns_ret.
      * apply returns_bind; [apply returns_compute_uuid, returns_compute|intros arg_id].
        apply returns_bind; [apply returns_compute|intros value]. apply IH.
    + intros ev. apply returns_bind; [apply returns_bridge_call|intros result].
      apply returns_bind; [apply returns_for; intros; apply returns_call_write_back|intros; apply returns_ret].
Qed.

Lemma returns_argument scope node parameter : returns reg (argument usize_max scope node parameter).
Proof.
  unfold argument. destruct (n_arguments node !! parameter) as [e|]; [|apply returns_fail].
  apply returns_bind; [|intros value; returns].
  destruct e, (node_parameters_variables scope !! mkNodeParameterId (n_id node) parameter); returns; apply returns_compute.
Qed.

Lemma returns_scatter_write sc keys values : returns reg (scatter_write (X := X) sc keys values).
Proof.
  unfold scatter_write, write_slots, resolve, refuse.
  assert (∀ r names, returns reg (resolve_names (X := X) sc r names)) as Hnames.
  { intros r names. induction names as [|name names IH]; [apply returns_ret|].
    apply returns_bind; [|intros; apply returns_bind; [exact IH|intros; apply returns_ret]].
    intros w Hw. unfold resolve_name. destruct (r name (store w)) as [[]]; by eexists _, _. }
  assert (∀ sv, returns reg (write_slot (X := X) sv)) by (intros sv; unfold write_slot; returns).
  returns.
Qed.

Lemma returns_core function node cell : returns reg (tick_core_node (X := X) function node cell).
Proof. unfold tick_core_node, read_string, write_string. returns. Qed.

Section Children.
Context (tick_child : TickId → T W BehaviorTreeError Status).

Lemma returns_loops children : (∀ c, c ∈ children → returns reg (tick_child c)) →
  returns reg (seq_loop tick_child children) ∧ returns reg (fallback_loop tick_child children) ∧
  (∀ b1 b2, returns reg (parallel_loop tick_child children b1 b2)) ∧
  (∀ i, returns reg (seq_star_loop tick_child children i)).
Proof.
  induction children as [|c children IH]; intros Hc.
  { split_and!; intros; apply returns_ret. }
  destruct IH as (I1 & I2 & I3 & I4); [intros; apply Hc; set_solver|].
  assert (returns reg (tick_child c)) by (apply Hc; set_solver).
  split_and!; intros; (apply returns_bind; [done|intros []]); auto; apply returns_ret.
Qed.

Lemma returns_builtin scope outputs children node : (∀ c, c ∈ children → returns reg (tick_child c)) →
  returns reg (tick_builtin usize_max tick_child scope outputs children node).
Proof.
  intros Hc. destruct (returns_loops children Hc) as (Hseq & Hfall & Hpar & _).
  assert (Hstar : ∀ n i, returns reg (seq_star_loop tick_child (drop n children) i)).
  { intros n i. apply returns_loops. intros c Hin. apply Hc. rewrite <-(take_drop n children). set_solver. }
  unfold tick_builtin. pose proof returns_argument as Harg. pose proof returns_bridge_call as Hbridge.
  repeat match goal with |- context [if n_function node =? ?id then _ else _] =>
    destruct (n_function node =? id) end; try (apply returns_bind; [|intros; apply returns_ret]).
  - unfold tick_equal. returns.
  - unfold tick_unpack, unpack_port, set. returns.
  - unfold tick_scatter. returns; apply returns_scatter_write.
  - apply returns_ret.
  - apply returns_ret.
  - apply returns_ret.
  - done.
  - unfold tick_fallback. destruct children; [apply returns_ret|done].
  - apply Hpar.
  - unfold tick_run_call. returns.
  - assert (∀ c, head children = Some c → returns reg (tick_child c)) as Hhead.
    { intros c Hh. apply Hc. destruct children; simplify_eq/=. apply list_elem_of_here. }
    unfold tick_run_status, set. returns.
  - unfold tick_seq_star, set. returns.
  - unfold tick_core. apply returns_bind; [|intros; apply returns_core].
    generalize (∅ : gmap Uuid Cell). induction (default [] _) as [|p ps IH]; intros sel; [apply returns_ret|].
    cbn [core_arguments]. assert (Halloc : ∀ v, returns reg (alloc (X := X) v)).
    { intros v w Hw. unfold alloc, local_with. by eexists _, _. }
    returns.
Qed.
End Children.

Lemma returns_leaf tf : returns reg (tick_leaf usize_max tf).
Proof.
  assert (Hres : ∀ scope node f order r, returns reg (resolve_arguments usize_max scope node f order r)).
  { intros scope node f order. induction order as [|p order IH]; intros r; [apply returns_ret|].
    cbn [resolve_arguments]. destruct (n_arguments node !! p) as [e|]; [|apply IH].
    apply returns_bind; [|intros; apply IH]. unfold resolve_argument.
    pose proof (returns_compute scope). returns. }
  pose proof returns_bridge_call. unfold tick_leaf, write_mutated. returns.
Qed.

Lemma returns_tick tick_child tf : (∀ c, c ∈ tf_children tf → returns reg (tick_child c)) →
  returns reg (tick usize_max tick_child tf).
Proof.
  intros Hc. unfold tick. apply returns_bind; [by apply returns_builtin|].
  intros [st|]; [apply returns_ret|apply returns_leaf].
Qed.

Lemma returns_tick_of (call : T W CallError Value) : returns reg call → returns reg (tick_of call).
Proof. intros Hc. unfold tick_of. returns. Qed.

Lemma returns_indirect tree functions h : ∀ fuel t node, mirrors tree functions reg h t node → (h ≤ fuel)%nat →
  returns reg (arora_call_indirect usize_max fuel t).
Proof.
  induction h as [|h IH]; intros [|fuel] t node Hm Hle; try done; [lia|].
  destruct Hm as (tf & Htf & _ & _ & _ & Hc). cbn [arora_call_indirect].
  intros w Hw. rewrite (bind_ok _ _ w tf w) by (unfold find_callable; by rewrite Hw, Htf). revert w Hw.
  change (returns reg (call_tick usize_max (λ child, tick_of (arora_call_indirect usize_max fuel child)) tf)).
  unfold call_tick. apply returns_map_err, returns_bind; [|intros; apply returns_ret].
  apply returns_tick. intros c Hin. apply returns_tick_of.
  apply list_elem_of_lookup in Hin as [i Hi].
  destruct (Forall2_lookup_r _ _ _ _ _ Hc Hi) as (child & _ & n & _ & Hm). apply (IH fuel c n Hm). lia.
Qed.
End Closed.

(** The root of a tree that was lowered mirrors it. *)
Lemma lowered_mirrors `{!RandCrate} `{!RandLaws} rank tree functions fuel w lowered w' :
  acyclic rank tree → (rank (bt_root tree) < fuel)%nat →
  lower_behavior_tree usize_max fuel tree functions w = Some (Ok lowered, w') →
  mirrors tree functions (callables_by_id w') (Datatypes.S (rank (bt_root tree))) (lt_root lowered) (bt_root tree).
Proof.
  intros Hac Hfuel Hl.
  destruct (lowers_setup usize_max rank tree functions Hac fuel (bt_root tree) (proj1 Hac) Hfuel w [])
    as (r & new & w1 & Hr & Hg & Hm).
  unfold lower_behavior_tree, register_ticks in Hl. rewrite bind_run, Hr in Hl. simpl in Hl.
  destruct r as [root|e]; [t_ret Hl; exact Hm|]. by rewrite (unregister_grown _ _ _ Hg) in Hl.
Qed.

(** C33. Every tick of a lowered tree without detached nodes ends: as long as module calls return and
    register no callable, a tick of a tree without a cycle returns a status or an
    error from any world the registered ticks are in, however its children,
    arguments and calls go, with fuel for its height; and it leaves them
    registered, so the next tick does too. *)
Theorem lowered_ticks_return `{!RandCrate} `{!RandLaws} rank tree functions fuel w lowered w' :
  calls_keep_callables → acyclic rank tree → (rank (bt_root tree) < fuel)%nat →
  lower_behavior_tree usize_max fuel tree functions w = Some (Ok lowered, w') →
  ∀ w2, callables_by_id w2 = callables_by_id w' →
    ∃ r w3, lowered_tick usize_max fuel lowered w2 = Some (r, w3) ∧ callables_by_id w3 = callables_by_id w'.
Proof.
  intros Hcalls Hac Hfuel Hl. pose proof (lowered_mirrors _ _ _ _ _ _ _ Hac Hfuel Hl) as Hm.
  unfold lowered_tick, tick_id. apply returns_tick_of.
  apply (returns_indirect Hcalls _ tree functions _ fuel _ _ Hm). lia.
Qed.

(** A child's tick is its node's: through the registry, the values and the
    errors of calls, a registered tick returns the status its node's tick
    returned, in the world it left; an error that is not a call's comes back as a
    generic call error, and an id nothing is registered for is refused. *)
Theorem indirect_tick_is_the_nodes fuel t w :
  tick_id usize_max (Datatypes.S fuel) t w =
  match callables_by_id w !! callable_id t with
  | None => Some (Err (CallErr (Generic CannotFindCallable)), w)
  | Some tf =>
      match tick usize_max (tick_id usize_max fuel) tf w with
      | Some (Ok status, w') => Some (Ok status, w')
      | Some (Err e, w') => Some (Err (CallErr (match e with CallErr e => e | e => Generic (ToString e) end)), w')
      | None => None
      end
  end.
Proof.
  unfold tick_id at 1, tick_of. cbn [arora_call_indirect]. unfold call_tick, find_callable. t_unfold.
  destruct (callables_by_id w !! callable_id t) as [tf|]; [|done].
  change (λ child, tick_of (arora_call_indirect usize_max fuel child)) with (tick_id usize_max fuel).
  destruct (tick usize_max (tick_id usize_max fuel) tf w) as [[[st|e] w']|]; [|done..].
  by rewrite status_try_from_value.
Qed.

(** Code that never answers [None]. *)
Definition answers (m : T W BehaviorTreeError (option Status)) : Prop := ∀ w w', m w ≠ Some (Ok None, w').
Lemma answers_bind {A} (m : T W BehaviorTreeError A) k : (∀ a, answers (k a)) → answers (m ≫= k).
Proof. intros Hk w w' (a & w1 & _ & Hr)%bind_inv_ok. by apply Hk in Hr. Qed.
Lemma answers_some st : answers (mret (Some st)).
Proof. intros w w'. by cbv [mret T_ret]. Qed.

Lemma answers_core function node cell ps : core_node_parameters function = Some ps →
  answers (tick_core_node function node cell).
Proof.
  intros Hps. unfold core_node_parameters, tick_core_node in *.
  repeat match goal with |- context [if function =? ?id then _ else _] => destruct (function =? id) end;
    [..|done]; repeat (apply answers_bind; intros ?);
    repeat match goal with |- context [match ?x with pair _ _ => _ end] => destruct x end;
    repeat (apply answers_bind; intros ?);
    repeat match goal with |- context [match ?x with pair _ _ => _ end] => destruct x end;
    repeat (apply answers_bind; intros ?);
    repeat match goal with |- context [match ?x with pair _ _ => _ end] => destruct x end;
    repeat (apply answers_bind; intros ?); apply answers_some.
Qed.

Lemma answers_builtin tick_child scope outputs children node : is_native (n_function node) = true →
  answers (tick_builtin usize_max tick_child scope outputs children node).
Proof.
  intros Hn. unfold tick_builtin.
  repeat match goal with |- context [if n_function node =? ?id then _ else _] =>
    destruct (Z.eqb_spec (n_function node) id); [apply answers_bind; intros; apply answers_some|] end.
  unfold is_native in Hn. rewrite bool_decide_eq_false_2 in Hn.
  2: { rewrite !elem_of_cons, elem_of_nil. tauto. }
  simpl in Hn. apply bool_decide_eq_true in Hn as [ps Hps].
  unfold tick_core. apply answers_bind. intros sel. by eapply answers_core.
Qed.

Lemma builtin_not_native tick_child scope outputs children node w : is_native (n_function node) = false →
  tick_builtin usize_max tick_child scope outputs children node w = Some (Ok None, w).
Proof.
  intros Hn. unfold is_native in Hn. apply orb_false_iff in Hn as [Hl Hc].
  apply bool_decide_eq_false in Hl, Hc. rewrite !not_elem_of_cons in Hl. unfold tick_builtin.
  repeat match goal with |- context [if n_function node =? ?id then _ else _] =>
    rewrite (proj2 (Z.eqb_neq (n_function node) id)) by tauto end.
  destruct (core_node_parameters (n_function node)) as [ps|] eqn:Hps; [by destruct Hc; eexists|].
  unfold tick_core. rewrite Hps. cbn [default from_option core_arguments].
  rewrite (bind_ok _ _ w ∅ w) by done. unfold core_node_parameters in Hps. unfold tick_core_node.
  repeat match goal with |- context [if n_function node =? ?id then _ else _] =>
    destruct (n_function node =? id); [done|] end. done.
Qed.

(** The nodes ticked natively are those [is_native] names: the tick of such a
    node never calls a module, whatever it returns, and any other node leaves the
    world to the call of its module function. *)
Theorem native_nodes tick_child tf w :
  (is_native (n_function (tf_node tf)) = true → ∀ w' r,
    tick_builtin usize_max tick_child (tf_scope tf) (tf_outputs tf) (tf_children tf) (tf_node tf) w = Some (r, w') →
    r ≠ Ok None ∧ tick usize_max tick_child tf w =
      Some (match r with Ok (Some st) => Ok st | Ok None => Ok Success | Err e => Err e end, w')) ∧
  (is_native (n_function (tf_node tf)) = false → tick usize_max tick_child tf w = tick_leaf usize_max tf w).
Proof.
  split.
  - intros Hn w' r Hr. pose proof (answers_builtin tick_child (tf_scope tf) (tf_outputs tf) (tf_children tf) _ Hn) as Ha.
    split; [intros ->; by apply Ha in Hr|]. unfold tick. rewrite bind_run, Hr.
    destruct r as [[st|]|e]; [done| |done]. by apply Ha in Hr.
  - intros Hn. unfold tick. by rewrite bind_run, builtin_not_native.
Qed.
End Ends.

#[export] Hint Resolve returns_bind returns_ret returns_fail returns_of returns_gets returns_modify
  returns_ok_or returns_ok_or_bind returns_result returns_map_err returns_for : arora.
