(* ===== verification/Loading.v ===== *)
(** * Loading a tree: [load_behavior_tree_nodes_with] and what it calls in
    [crates/arora-behavior-tree/src/behavior_tree.rs], [select] of [detached.rs]
    and [build_behavior_tree] of [graph.rs]

    Every variable and every argument gets its cell: a variable the resolver
    knows is a slot of the store, an argument that reads another node's shares the
    cell it has. The arguments are swept until all have theirs. A hash map's
    iteration order is a parameter, one for each map that is iterated. *)

From S2P Require Import Prelude Values Extern Keys State Store Effects Nodes Schema Graphs GraphLowering Cells Expressions CoreNodes ScatterNode Ticks Lowering.

(** ** [read_argument], [variable_ids_in] *)
Section Reads.
Context {Slot : Type}.
Fixpoint read_argument (e : Expression Slot) : option NodeParameterId :=
  match e with
  | Expression.NodeArgument source => Some source
  | Expression.Select source _ => read_argument source
  | _ => None
  end.
(** The expression a selection reads. *)
Fixpoint selected_source (e : Expression Slot) : Expression Slot :=
  match e with Expression.Select source _ => selected_source source | e => e end.

(** [is_detachable] and [Detached::select] of [detached.rs]. *)
Definition is_detachable (function : Uuid) (children : option (list Uuid)) : bool :=
  negb (is_native function) && match children with None | Some [] => true | Some _ => false end.
Definition select_detached (nodes : list (Node Slot)) (attached : gset Uuid) : list (Node Slot) :=
  filter (λ node, n_id node ∉ attached ∧ is_detachable (n_function node) (n_children node) = true) nodes.

(** [while let Some(id) = held.pop()]: the stack's top first. *)
Fixpoint held_ids (fuel : nat) (index : gmap Uuid (Node Slot)) (held : list Uuid) (attached : gset Uuid) :
    option (gset Uuid) :=
  match held with
  | [] => Some attached
  | i :: held =>
      match fuel with
      | O => None
      | Datatypes.S fuel =>
          if decide (i ∈ attached) then held_ids fuel index held attached
          else held_ids fuel index (rev (default [] (index !! i ≫= n_children)) ++ held) ({[i]} ∪ attached)
      end
  end.
(** What the stack can hold in all. *)
Definition enough_held (index : gmap Uuid (Node Slot)) : nat :=
  Datatypes.S (sum_list_with (λ e : Uuid * Node Slot, length (default [] (n_children e.2))) (map_to_list index)).

(** The next port of a chain of ports, and the port a chain ends at, no further
    than the tree has nodes. *)
Definition next_port (index : gmap Uuid (Node Slot)) (at_ : NodeParameterId) : option NodeParameterId :=
  index !! np_node at_ ≫= λ node, n_arguments node !! np_parameter at_ ≫= read_argument.
Fixpoint follow (n : nat) (index : gmap Uuid (Node Slot)) (at_ : NodeParameterId) : NodeParameterId :=
  match n with
  | O => at_
  | Datatypes.S n => match next_port index at_ with Some next => follow n index next | None => at_ end
  end.

(** The last fed input of a chain of sources. *)
Fixpoint last_fed (n : nat) (sources : gmap NodeParameterId NodeParameterId) (fed_inputs : gset NodeParameterId)
    (at_ : NodeParameterId) (fed : option NodeParameterId) : option NodeParameterId :=
  match n with
  | O => fed
  | Datatypes.S n =>
      match sources !! at_ with
      | None => fed
      | Some source =>
          last_fed n sources fed_inputs source (if decide (source ∈ fed_inputs) then Some source else fed)
      end
  end.
End Reads.

Section Loading.
Context {S X : Type} `{DS : DataStore S} `{UC : UuidCrate}.
Local Abbreviation Slot := (@SlotHandle S _).
Local Abbreviation Cell := (VariableCell Slot).
Local Abbreviation W := (World S X).

(** A loaded tree, with the nodes no node holds and the store keys their ports
    publish to. *)
Record LoadedTree := mkLoadedTree {
  lt_tree : BehaviorTree;
  lt_detached : list (Node Slot);
  lt_bindings : gmap NodeParameterId Cell;
}.

(** What loading has set up so far. *)
Record Load := mkLoad {
  ld_world : W;
  ld_variables : gmap Uuid Cell;
  ld_cells : gmap NodeParameterId Cell;
  ld_bindings : gmap NodeParameterId Cell;
  ld_fed : gset NodeParameterId;
}.
Local Abbreviation L := (T Load BehaviorTreeError).

(** [VariableCell::local()] and [local_with(value)] *)
Definition fresh_cell (value : option Value) : L Cell := λ s,
  let w := ld_world s in
  let l := fresh (dom (heap w)) in
  Some (Ok (Local l), mkLoad (with_heap (<[ l := value ]> (heap w)) w)
                        (ld_variables s) (ld_cells s) (ld_bindings s) (ld_fed s)).
Definition insert_cell (p : NodeParameterId) (c : Cell) : L unit := λ s,
  Some (Ok tt, mkLoad (ld_world s) (ld_variables s) (<[p := c]> (ld_cells s)) (ld_bindings s) (ld_fed s)).
Definition insert_variable (i : Uuid) (c : Cell) : L unit := λ s,
  Some (Ok tt, mkLoad (ld_world s) (<[i := c]> (ld_variables s)) (ld_cells s) (ld_bindings s) (ld_fed s)).
Definition insert_binding (p : NodeParameterId) (c : Cell) : L unit := λ s,
  Some (Ok tt, mkLoad (ld_world s) (ld_variables s) (ld_cells s) (<[p := c]> (ld_bindings s)) (ld_fed s)).
Definition insert_fed (p : NodeParameterId) : L unit := λ s,
  Some (Ok tt, mkLoad (ld_world s) (ld_variables s) (ld_cells s) (ld_bindings s) ({[p]} ∪ ld_fed s)).
Definition is_stored (c : Cell) : bool := match c with Stored _ => true | Local _ => false end.

Section Load.
Variable resolver : Resolver S.
Variable names : gmap Uuid string.
(** The orders of [node.arguments], of [node_index.values()] and of
    [sources.keys()]. *)
Variable arguments_order : Node Slot → list (Uuid * Expression Slot).
Variable nodes_order : gmap Uuid (Node Slot) → list (Node Slot).
Variable readers_order : gmap NodeParameterId NodeParameterId → list NodeParameterId.

Definition ask_resolver (name : string) : L (option Slot) := λ s,
  let '(slot, st) := resolver name (store (ld_world s)) in
  Some (Ok slot, mkLoad (with_store st (ld_world s)) (ld_variables s) (ld_cells s) (ld_bindings s) (ld_fed s)).

(** ** [variable_cell], [bind_variables], [setup_node_parameter_variable] *)
Definition new_variable (variable_id : Uuid) : L Cell :=
  match names !! variable_id with
  | Some name =>
      if is_tree_local name then fresh_cell None
      else
        slot ← ask_resolver name;
        match slot with Some slot => mret (Stored slot) | None => fresh_cell None end
  | None => fresh_cell None
  end.
Definition variable_cell (variable_id : Uuid) : L Cell :=
  vars ← t_gets ld_variables;
  match vars !! variable_id with
  | Some c => mret c
  | None => c ← new_variable variable_id; _ ← insert_variable variable_id c; mret c
  end.

Fixpoint bind_variables (e : Expression Slot) : L unit :=
  match e with
  | Expression.VariableId i => _ ← variable_cell i; mret tt
  | Expression.Select source _ => bind_variables source
  | Expression.Call call => bind_call call
  | _ => mret tt
  end
with bind_call (call : CallExpression Slot) : L unit :=
  match call with
  | Expression.mkCallExpression module function_ arguments =>
      _ ← bind_variables module;
      _ ← bind_variables function_;
      (fix go (arguments : list (Expression Slot * Expression Slot)) : L unit :=
         match arguments with
         | [] => mret tt
         | (parameter, argument) :: arguments =>
             _ ← bind_variables parameter; _ ← bind_variables argument; go arguments
         end) arguments
  end.

Fixpoint setup_node_parameter_variable (p : NodeParameterId) (e : Expression Slot) : L Cell :=
  variable ← match e with
             | Expression.Value value => fresh_cell (Some value)
             | Expression.Uuid uuid => fresh_cell (Some (uuid_value uuid))
             | Expression.Variable_ c => mret c
             | Expression.VariableId i => variable_cell i
             | Expression.NodeArgument other =>
                 cells ← t_gets ld_cells;
                 t_ok_or (cells !! other) (InconsistentTreeError (NodeArgumentNotFound other p))
             | Expression.Select source _ => setup_node_parameter_variable p source
             | Expression.Call call => _ ← bind_call call; fresh_cell None
             end;
  _ ← insert_cell p variable;
  mret variable.

(** ** [with_call_site_cells] *)
Definition identifier (with_cells : Expression Slot → L (Expression Slot)) (e : Expression Slot) :
    L (Expression Slot) :=
  match e with
  | Expression.Call _ | Expression.Select _ _ => with_cells e
  | e => mret e
  end.
(** The arguments of a call, given [with_call_site_cells]. *)
Definition site_argument (with_cells : Expression Slot → L (Expression Slot)) (argument : Expression Slot) :
    L (Expression Slot) :=
  match argument with
  | Expression.Value value => c ← fresh_cell (Some value); mret (Expression.Variable_ c)
  | Expression.Uuid i => c ← fresh_cell (Some (uuid_value i)); mret (Expression.Variable_ c)
  | argument => with_cells argument
  end.
Definition site_pairs (with_cells : Expression Slot → L (Expression Slot)) :
    list (Expression Slot * Expression Slot) → L (list (Expression Slot * Expression Slot)) :=
  fix go arguments :=
    match arguments with
    | [] => mret []
    | (parameter, argument) :: arguments =>
        parameter ← identifier with_cells parameter;
        argument ← site_argument with_cells argument;
        rest ← go arguments;
        mret ((parameter, argument) :: rest)
    end.
Fixpoint with_call_site_cells (e : Expression Slot) : L (Expression Slot) :=
  match e with
  | Expression.Call call => call ← call_with_cells call; mret (Expression.Call call)
  | Expression.Select source path =>
      source ← with_call_site_cells source; mret (Expression.Select source path)
  | e => mret e
  end
with call_with_cells (call : CallExpression Slot) : L (CallExpression Slot) :=
  match call with
  | Expression.mkCallExpression module function_ arguments =>
      module ← identifier with_call_site_cells module;
      function_ ← identifier with_call_site_cells function_;
      arguments ← site_pairs with_call_site_cells arguments;
      mret (Expression.mkCallExpression module function_ arguments)
  end.

(** ** The nodes *)
Fixpoint site_arguments (arguments : list (Uuid * Expression Slot)) : L (list (Uuid * Expression Slot)) :=
  match arguments with
  | [] => mret []
  | (parameter, argument) :: arguments =>
      argument ← with_call_site_cells argument;
      arguments ← site_arguments arguments;
      mret ((parameter, argument) :: arguments)
  end.
Fixpoint index_nodes (nodes : list (Node Slot)) (index : gmap Uuid (Node Slot)) (listed : list (Node Slot)) :
    L (gmap Uuid (Node Slot) * list (Node Slot)) :=
  match nodes with
  | [] => mret (index, listed)
  | node :: nodes =>
      arguments ← site_arguments (arguments_order node);
      let node := mkNode (n_id node) (n_function node) (list_to_map arguments) (n_children node) in
      match index !! n_id node with
      | Some existing_node => t_fail (InconsistentTreeError (DuplicateNode (n_id existing_node)))
      | None => index_nodes nodes (<[n_id node := node]> index) (listed ++ [node])
      end
  end.
Definition pending_arguments (listed : list (Node Slot)) : list (NodeParameterId * Expression Slot) :=
  listed ≫= λ node, (λ a, (mkNodeParameterId (n_id node) a.1, a.2)) <$> arguments_order node.

(** A detached node's return is a port whether or not it is bound. *)
Definition port_of (node : Node Slot) : L unit :=
  match n_arguments node !! _RET_PARAM_ID with
  | Some _ => mret tt
  | None => c ← fresh_cell None; insert_cell (mkNodeParameterId (n_id node) _RET_PARAM_ID) c
  end.

(** ** The sweeps *)
Section Sweep.
Variable index : gmap Uuid (Node Slot).
Variable detached_ids : gset Uuid.

(** The input a detached node's bound return feeds, when it names a store key. *)
Definition fed_input (cells : gmap NodeParameterId Cell) (p : NodeParameterId) (e : Expression Slot) :
    option NodeParameterId :=
  match read_argument e with
  | Some input =>
      if bool_decide (np_node p ∈ detached_ids) && (np_parameter p =? _RET_PARAM_ID)
      then
        let fed := follow (size index) index input in
        match cells !! fed with Some (Stored _) => Some fed | _ => None end
      else None
  | None => None
  end.

Definition set_up (p : NodeParameterId) (e : Expression Slot) : L unit :=
  cell ← setup_node_parameter_variable p e;
  cells ← t_gets ld_cells;
  match fed_input cells p e with
  | Some fed =>
      port ← fresh_cell None;
      _ ← insert_cell p port;
      _ ← insert_cell fed port;
      insert_fed fed
  | None =>
      if is_stored cell && bool_decide (np_node p ∈ detached_ids)
      then c ← fresh_cell None; _ ← insert_cell p c; insert_binding p cell
      else mret tt
  end.

Definition waits (cells : gmap NodeParameterId Cell) (e : Expression Slot) : bool :=
  match read_argument e with
  | Some source => match cells !! source with None => true | Some _ => false end
  | None => false
  end.
(** One sweep: what it leaves unresolved. *)
Fixpoint sweep (pending : list (NodeParameterId * Expression Slot)) : L (list (NodeParameterId * Expression Slot)) :=
  match pending with
  | [] => mret []
  | (p, e) :: pending =>
      cells ← t_gets ld_cells;
      if waits cells e then unresolved ← sweep pending; mret ((p, e) :: unresolved)
      else _ ← set_up p e; sweep pending
  end.
Fixpoint sweeps (fuel : nat) (pending : list (NodeParameterId * Expression Slot)) : L unit :=
  match pending with
  | [] => mret tt
  | _ :: _ =>
      match fuel with
      | O => t_diverge
      | Datatypes.S fuel =>
          unresolved ← sweep pending;
          _ ← match unresolved with
              | (p, e) :: _ =>
                  if (length unresolved =? length pending)%nat
                  then _ ← setup_node_parameter_variable p e; mret tt
                  else mret tt
              | [] => mret tt
              end;
          sweeps fuel unresolved
      end
  end.
End Sweep.

(** ** The aliases of fed inputs *)
Definition reader_sources (index : gmap Uuid (Node Slot)) : gmap NodeParameterId NodeParameterId :=
  list_to_map (map_to_list index ≫= λ n,
    omap (λ a : Uuid * Expression Slot,
            (λ source, (mkNodeParameterId (n_id n.2) a.1, source)) <$> read_argument a.2)
         (map_to_list (n_arguments n.2))).
Definition share_fed (sources : gmap NodeParameterId NodeParameterId) (reader : NodeParameterId) : L unit :=
  s ← t_gets Datatypes.id;
  match last_fed (size sources) sources (ld_fed s) reader None ≫= (ld_cells s !!.) with
  | Some cell => insert_cell reader cell
  | None => mret tt
  end.
Definition share_all (index : gmap Uuid (Node Slot)) : L unit :=
  s ← t_gets Datatypes.id;
  if decide (ld_fed s = ∅) then mret tt
  else
    let sources := reader_sources index in
    t_for (readers_order sources) (share_fed sources).

(** ** [bind_data_node] *)
Definition required_arguments (function : Uuid) : option (list Uuid) :=
  if function =? EQUAL_FUNCTION_ID then Some [EQUAL_A_PARAM_ID; EQUAL_B_PARAM_ID]
  else if function =? UNPACK_FUNCTION_ID then Some [UNPACK_VALUES_PARAM_ID]
  else if function =? SCATTER_FUNCTION_ID then Some [SCATTER_VALUES_PARAM_ID; SCATTER_KEYS_PARAM_ID]
  else None.
(** What a variable is told apart by: its name, or its id. *)
Definition target_of (variable : Uuid) : string + Uuid :=
  match names !! variable with Some name => inl name | None => inr variable end.
(** The indices of the ports bound, each to a variable of its own. *)
Fixpoint unpack_bound (node : Uuid) (arguments : list (Uuid * Expression Slot)) (seen : list (string + Uuid)) :
    result BehaviorTreeError (list nat) :=
  match arguments with
  | [] => Ok []
  | (param, e) :: arguments =>
      if param =? UNPACK_VALUES_PARAM_ID then unpack_bound node arguments seen
      else match unpack_out_index param with
           | None => Err (InconsistentTreeError (UnpackHasNoPort node param))
           | Some index =>
               match e with
               | Expression.VariableId variable =>
                   let target := target_of variable in
                   if decide (target ∈ seen)
                   then Err (InconsistentTreeError (UnpackPortsShare node target))
                   else match unpack_bound node arguments (target :: seen) with
                        | Ok bound => Ok (index :: bound)
                        | Err e => Err e
                        end
               | _ => Err (InconsistentTreeError (UnpackNeedsVariable node index))
               end
           end
  end.
Fixpoint unpack_cells (node : Uuid) (cells : gmap NodeParameterId Cell) (bound : list nat)
    (outputs : list (option Cell)) : result BehaviorTreeError (list (option Cell)) :=
  match bound with
  | [] => Ok outputs
  | index :: bound =>
      match get_node_parameter_variable
              (mkNodeParameterId node (nth index UNPACK_OUT_PARAM_IDS 0)) cells with
      | Ok c => unpack_cells node cells bound (<[index := Some c]> outputs)
      | Err e => Err e
      end
  end.
Definition bind_data_node (node : Node Slot) (cells : gmap NodeParameterId Cell) :
    result BehaviorTreeError (option (Outputs S)) :=
  match required_arguments (n_function node) with
  | None => Ok None
  | Some required =>
      match list_find (λ i, n_arguments node !! i = None) required with
      | Some (_, missing) => Err (InconsistentTreeError (ArgumentNotLinked (n_id node) missing))
      | None =>
          if n_function node =? SCATTER_FUNCTION_ID
          then match scatter_bind node with Ok sc => Ok (Some (OutKeys sc)) | Err e => Err e end
          else if negb (n_function node =? UNPACK_FUNCTION_ID) then Ok None
          else match unpack_bound (n_id node) (arguments_order node) [] with
               | Err e => Err e
               | Ok bound =>
                   match unpack_cells (n_id node) cells bound
                           (replicate (foldr (λ i n, Nat.max (Datatypes.S i) n) O bound) None) with
                   | Ok outputs => Ok (Some (Ports outputs))
                   | Err e => Err e
                   end
               end
      end
  end.
Fixpoint bind_data_nodes (nodes : list (Node Slot)) (cells : gmap NodeParameterId Cell)
    (outputs : gmap Uuid (Outputs S)) : result BehaviorTreeError (gmap Uuid (Outputs S)) :=
  match nodes with
  | [] => Ok outputs
  | node :: nodes =>
      match bind_data_node node cells with
      | Err e => Err e
      | Ok (Some bound) => bind_data_nodes nodes cells (<[n_id node := bound]> outputs)
      | Ok None => bind_data_nodes nodes cells outputs
      end
  end.

(** ** [load_behavior_tree_nodes_with] *)
Definition load_nodes (nodes : list (Node Slot)) : L LoadedTree :=
  '(index, listed) ← index_nodes nodes ∅ [];
  let root := head listed in
  attached ← match held_ids (enough_held index) index (match root with Some r => [n_id r] | None => [] end) ∅ with
             | Some attached => mret attached
             | None => t_diverge
             end;
  let detached_nodes := select_detached listed attached in
  let detached_ids : gset Uuid := list_to_set (n_id <$> detached_nodes) in
  _ ← t_for detached_nodes port_of;
  let pending := pending_arguments listed in
  _ ← sweeps index detached_ids (Datatypes.S (length pending)) pending;
  _ ← share_all index;
  s ← t_gets Datatypes.id;
  outputs ← t_of (bind_data_nodes (nodes_order index) (ld_cells s) ∅);
  root ← t_ok_or root (InconsistentTreeError NoNodes);
  mret (mkLoadedTree (mkBehaviorTree root index (ld_variables s) (ld_cells s) outputs)
          detached_nodes (ld_bindings s)).
Definition load_behavior_tree_nodes_with (nodes : list (Node Slot)) : T W BehaviorTreeError LoadedTree := λ w,
  match load_nodes nodes (mkLoad w ∅ ∅ ∅ ∅) with
  | Some (r, s) => Some (r, ld_world s)
  | None => None
  end.
End Load.

(** [build_behavior_tree] of [graph.rs] *)
Definition build_behavior_tree `{V5 : UuidV5} (resolver : Resolver S)
    (arguments_order : Node Slot → list (Uuid * Expression Slot))
    (nodes_order : gmap Uuid (Node Slot) → list (Node Slot))
    (readers_order : gmap NodeParameterId NodeParameterId → list NodeParameterId)
    (g : graph.Graph) : T W BehaviorTreeError LoadedTree :=
  '(nodes, variables) ← t_of (lower_graph (Slot := Slot) g);
  load_behavior_tree_nodes_with resolver variables arguments_order nodes_order readers_order nodes.
End Loading.
