(* ===== verification/Sweeps.v ===== *)
(** * Loading keeps to what it sets up

    What the sweeps of [Loading] add and keep: cells are only added, every swept
    argument shares the cell it reads ([swept]), the sweeps end at the arguments
    whose chain of ports ends ([sweeps_run]), and the last pass leaves the same
    cells in any order ([share_all_run]). *)

From S2P Require Import Prelude Values Extern Keys State Store Effects Nodes Schema Graphs GraphLowering Cells Expressions CoreNodes ScatterNode Ticks Lowering Loading.

(** ** What loading adds *)
Section Adds.
Context {S X : Type} `{DS : DataStore S} `{UC : UuidCrate}.
Local Abbreviation Slot := (@SlotHandle S _).
Local Abbreviation Cell := (VariableCell Slot).
Local Abbreviation Load := (Loading.Load (S := S) (X := X)).
Local Abbreviation L := (T Load BehaviorTreeError).
Variable resolver : Resolver S.
Variable names : gmap Uuid string.
Implicit Types s : Load.

(** Cells and variables are added, none is taken away; the cells of the arguments
    stay as they are. *)
Definition adds s s' : Prop :=
  heap (ld_world s) ⊆ heap (ld_world s') ∧ ld_variables s ⊆ ld_variables s'.
Definition aside s s' : Prop :=
  adds s s' ∧ ld_cells s' = ld_cells s ∧ ld_bindings s' = ld_bindings s ∧ ld_fed s' = ld_fed s.
Definition runs_aside {A} (m : L A) (Q : A → Load → Prop) : Prop :=
  ∀ s, ∃ a s', m s = Some (Ok a, s') ∧ aside s s' ∧ Q a s'.

Lemma adds_refl s : adds s s.
Proof. done. Qed.
Lemma adds_trans s1 s2 s3 : adds s1 s2 → adds s2 s3 → adds s1 s3.
Proof. intros [] []. split; by etrans. Qed.
Lemma aside_refl s : aside s s.
Proof. done. Qed.
Lemma aside_trans s1 s2 s3 : aside s1 s2 → aside s2 s3 → aside s1 s3.
Proof. intros (? & ? & ? & ?) (? & ? & ? & ?). split; [by eapply adds_trans|split_and!; congruence]. Qed.

Lemma aside_ret {A} (a : A) (Q : A → Load → Prop) : (∀ s, Q a s) → runs_aside (mret a) Q.
Proof. intros HQ s. by exists a, s. Qed.
Lemma aside_bind {A B} (m : L A) (k : A → L B) (P : A → Load → Prop) (Q : B → Load → Prop) :
  runs_aside m P →
  (∀ a s1, P a s1 → ∃ b s', k a s1 = Some (Ok b, s') ∧ aside s1 s' ∧ Q b s') →
  runs_aside (m ≫= k) Q.
Proof.
  intros Hm Hk s. destruct (Hm s) as (a & s1 & Ha & H1 & HP). destruct (Hk a s1 HP) as (b & s2 & Hb & H2 & HQ).
  exists b, s2. rewrite bind_run, Ha. split; [done|]. split; [by eapply aside_trans|done].
Qed.
Lemma aside_weaken {A} (m : L A) (P Q : A → Load → Prop) :
  runs_aside m P → (∀ a s, P a s → Q a s) → runs_aside m Q.
Proof. intros Hm HPQ s. destruct (Hm s) as (a & s' & ? & ? & ?). exists a, s'. auto. Qed.
Lemma aside_then {A B} (m : L A) (k : A → L B) (P : A → Load → Prop) (Q : B → Load → Prop) :
  runs_aside m P → (∀ a, runs_aside (k a) Q) → runs_aside (m ≫= k) Q.
Proof. intros Hm Hk. eapply aside_bind; [exact Hm|]. intros a s1 _. apply Hk. Qed.

Lemma fresh_aside v : runs_aside (fresh_cell v) (λ c s', ∃ l, c = Local l ∧ heap (ld_world s') !! l = Some v).
Proof.
  intros s. eexists _, _. split; [reflexivity|]. split.
  - split; [|done]. split; [|done]. simpl. apply insert_subseteq. apply not_elem_of_dom. apply is_fresh.
  - eexists. split; [done|]. simpl. by rewrite lookup_insert_eq.
Qed.

Lemma new_variable_aside i : runs_aside (new_variable resolver names i)
  (λ c s', is_stored c = true → ∃ name, names !! i = Some name ∧ is_tree_local name = false).
Proof.
  unfold new_variable. assert (∀ Q : Cell → Load → Prop, (∀ l s, Q (Local l) s) → runs_aside (fresh_cell None) Q) as Hf.
  { intros Q HQ. eapply aside_weaken; [apply fresh_aside|]. intros c s (l & -> & _). apply HQ. }
  destruct (names !! i) as [name|] eqn:Hn; [|by apply Hf]. destruct (is_tree_local name) eqn:Ht; [by apply Hf|].
  eapply (aside_then _ _ (λ _ _, True)).
  - intros s. unfold ask_resolver. destruct (resolver name _) as [slot st]. by eexists _, _.
  - intros [slot|]; [apply aside_ret|apply Hf]; naive_solver.
Qed.
Lemma variable_cell_aside i : runs_aside (variable_cell resolver names i) (λ c s', ld_variables s' !! i = Some c).
Proof.
  intros s. unfold variable_cell. rewrite bind_run. cbn [t_gets]. destruct (ld_variables s !! i) as [c|] eqn:Hi.
  - exists c, s. done.
  - destruct (new_variable_aside i s) as (c & s1 & Hc & (Ha & Hr) & _). rewrite bind_run, Hc.
    eexists c, _. split; [reflexivity|]. split; [|simpl; by rewrite lookup_insert_eq].
    split; [|done]. destruct Ha as [Hh Hv]. split; [done|]. simpl.
    etrans; [|apply insert_mono; exact Hv]. apply insert_subseteq. done.
Qed.

Fixpoint bind_variables_aside (e : Expression Slot) : runs_aside (bind_variables resolver names e) (λ _ _, True)
with bind_call_aside (c : CallExpression Slot) : runs_aside (bind_call resolver names c) (λ _ _, True).
Proof.
  - destruct e; simpl; try by apply aside_ret.
    + eapply aside_then; [apply variable_cell_aside|]. intros. by apply aside_ret.
    + apply bind_variables_aside.
    + apply bind_call_aside.
  - destruct c as [m f arguments]. cbn [bind_call].
    eapply aside_then; [apply bind_variables_aside|intros _].
    eapply aside_then; [apply bind_variables_aside|intros _].
    revert arguments. fix go 1. intros [|[p a] arguments]; [by apply aside_ret|].
    eapply aside_then; [apply bind_variables_aside|intros _].
    eapply aside_then; [apply bind_variables_aside|intros _]. apply go.
Qed.

(** ** Call-site cells *)

(** The expression of a node, once its calls' literals have cells. *)
Fixpoint sited (e e' : Expression Slot) : Prop :=
  match e with
  | Expression.Call _ => ∃ call', e' = Expression.Call call'
  | Expression.Select source path => ∃ source', e' = Expression.Select source' path ∧ sited source source'
  | e => e' = e
  end.
Lemma sited_read e e' : sited e e' → read_argument e' = read_argument e.
Proof. revert e'. induction e; simpl; naive_solver. Qed.
Lemma sited_selected e e' : sited e e' →
  match selected_source e with
  | Expression.Call _ => ∃ call', selected_source e' = Expression.Call call'
  | e0 => selected_source e' = e0
  end.
Proof. revert e'. induction e; simpl; naive_solver. Qed.

Lemma call_with_cells_eq module function_ arguments :
  call_with_cells (X := X) (Expression.mkCallExpression module function_ arguments)
  = (module ← identifier with_call_site_cells module;
     function_ ← identifier with_call_site_cells function_;
     arguments ← site_pairs with_call_site_cells arguments;
     mret (Expression.mkCallExpression module function_ arguments)).
Proof. done. Qed.
Lemma identifier_aside with_cells (e : Expression Slot) (P : Expression Slot → Load → Prop) :
  runs_aside (with_cells e) P → runs_aside (identifier with_cells e) (λ _ _, True).
Proof. intros H. destruct e; try (by apply aside_ret); (eapply aside_weaken; [apply H|done]). Qed.
Lemma site_argument_aside with_cells (e : Expression Slot) (P : Expression Slot → Load → Prop) :
  runs_aside (with_cells e) P → runs_aside (site_argument with_cells e) (λ _ _, True).
Proof.
  intros H. destruct e; try (eapply aside_weaken; [apply H|done]);
    (eapply aside_then; [apply fresh_aside|intros; by apply aside_ret]).
Qed.
Fixpoint with_cells_aside (e : Expression Slot) : runs_aside (with_call_site_cells e) (λ e' _, sited e e')
with call_with_cells_aside (c : CallExpression Slot) : runs_aside (call_with_cells c) (λ _ _, True).
Proof.
  - destruct e; simpl; try by apply aside_ret.
    + eapply aside_bind; [apply with_cells_aside|]. intros e' s1 He. eexists _, s1. split; [done|].
      split; [done|]. by eexists.
    + eapply aside_then; [apply call_with_cells_aside|]. intros c'. apply aside_ret. by eexists.
  - destruct c as [m f arguments]. rewrite call_with_cells_eq.
    eapply aside_then; [eapply identifier_aside, with_cells_aside|intros m']. eapply aside_then; [eapply identifier_aside, with_cells_aside|intros f'].
    eapply (aside_then _ _ (λ _ _, True)); [|intros; by apply aside_ret].
    induction arguments as [|[p a] arguments go]; [by apply aside_ret|].
    eapply aside_then; [eapply identifier_aside, with_cells_aside|intros p'].
    eapply aside_then; [eapply site_argument_aside, with_cells_aside|].
    intros a'. eapply aside_then; [exact go|intros; by apply aside_ret].
Qed.
Lemma site_arguments_aside arguments :
  runs_aside (site_arguments arguments) (λ arguments' _, Forall2 (λ a a', a'.1 = a.1 ∧ sited a.2 a'.2) arguments arguments').
Proof.
  induction arguments as [|[p e] arguments IH]; [apply aside_ret; by constructor|]. simpl.
  eapply aside_bind; [apply with_cells_aside|]. intros e' s1 He.
  destruct (IH s1) as (rest & s2 & Hr & H2 & HF). rewrite bind_run, Hr. eexists _, s2. split; [done|].
  split; [done|]. by constructor.
Qed.

(** ** The nodes, indexed *)
Definition sited_node (n n' : Node Slot) : Prop :=
  n_id n' = n_id n ∧ n_function n' = n_function n ∧ n_children n' = n_children n ∧
  ∀ p, option_Forall2 sited (n_arguments n !! p) (n_arguments n' !! p).
Definition index_of (listed : list (Node Slot)) : gmap Uuid (Node Slot) :=
  list_to_map ((λ n, (n_id n, n)) <$> listed).

Section Index.
Variable arguments_order : Node Slot → list (Uuid * Expression Slot).
Hypothesis arguments_permuted : ∀ n, arguments_order n ≡ₚ map_to_list (n_arguments n).

Lemma sited_arguments n l' :
  Forall2 (λ a a', a'.1 = a.1 ∧ sited a.2 a'.2) (arguments_order n) l' →
  sited_node n (mkNode (n_id n) (n_function n) (list_to_map l') (n_children n)).
Proof.
  intros HF. split; [done|]. split; [done|]. split; [done|]. intros p. simpl.
  assert (n_arguments n = list_to_map (arguments_order n)) as ->.
  { rewrite <- (list_to_map_to_list (n_arguments n)) at 1. symmetry. apply list_to_map_proper; [|apply arguments_permuted].
    rewrite (arguments_permuted n). apply NoDup_fst_map_to_list. }
  induction HF as [|[q e] [q' e'] l l' [Hq He] HF IH]; simpl in *; [rewrite !lookup_empty; constructor|]. subst q'.
  destruct (decide (q = p)) as [->|]; [rewrite !lookup_insert_eq; by constructor|by rewrite !lookup_insert_ne].
Qed.

Lemma index_of_snoc listed n : NoDup (n_id <$> (listed ++ [n])) → index_of (listed ++ [n]) = <[n_id n := n]> (index_of listed).
Proof.
  unfold index_of. rewrite !fmap_app. intros (_ & Hn & _)%NoDup_app. rewrite list_to_map_app. simpl.
  rewrite <- (insert_union_r _ ∅), map_union_empty; [done|]. apply not_elem_of_list_to_map_1.
  rewrite <- list_fmap_compose. intros (m & Hm & Hin)%list_elem_of_fmap. simpl in Hm.
  apply (Hn (n_id n)); [rewrite Hm; by apply list_elem_of_fmap_2|by apply list_elem_of_here].
Qed.
Lemma index_of_lookup listed i n : NoDup (n_id <$> listed) → index_of listed !! i = Some n ↔ n ∈ listed ∧ n_id n = i.
Proof.
  intros Hd. unfold index_of. assert (NoDup ((λ n, (n_id n, n)) <$> listed).*1) as Hd'.
  { by rewrite <- list_fmap_compose. }
  rewrite <- elem_of_list_to_map by done. rewrite list_elem_of_fmap. naive_solver.
Qed.
Lemma index_of_None listed i : index_of listed !! i = None ↔ i ∉ n_id <$> listed.
Proof. unfold index_of. rewrite <- not_elem_of_list_to_map, <- list_fmap_compose. done. Qed.

Lemma index_nodes_run nodes listed s :
  NoDup (n_id <$> listed) →
  ∃ s', aside s s' ∧
    match index_nodes arguments_order nodes (index_of listed) listed s with
    | Some (Ok (index, listed'), s1) => s1 = s' ∧ NoDup (n_id <$> (listed ++ nodes)) ∧ index = index_of listed' ∧
        ∃ new, listed' = listed ++ new ∧ Forall2 sited_node nodes new
    | Some (Err e, s1) => s1 = s' ∧ ¬ NoDup (n_id <$> (listed ++ nodes))
    | None => False
    end.
Proof.
  revert listed s. induction nodes as [|n nodes IH]; intros listed s Hd.
  - exists s. split; [done|]. simpl. split; [done|]. rewrite app_nil_r. split; [done|]. split; [done|].
    exists []. by rewrite app_nil_r.
  - destruct (site_arguments_aside (arguments_order n) s) as (l' & s1 & Hr & Ha & HF).
    apply sited_arguments in HF. cbn [index_nodes]. rewrite bind_run, Hr.
    set (n' := mkNode _ _ (list_to_map l') _) in *. destruct (index_of listed !! n_id n) as [m|] eqn:Hm.
    + exists s1. split; [done|]. change (n_id n') with (n_id n). rewrite Hm. split; [done|].
      apply index_of_lookup in Hm as [Hin Hid]; [|done]. rewrite fmap_app. intros (_ & Hn & _)%NoDup_app.
      apply (Hn (n_id n)); [rewrite <- Hid; by apply list_elem_of_fmap_2|by apply list_elem_of_here].
    + change (n_id n') with (n_id n). rewrite Hm. apply index_of_None in Hm.
      assert (NoDup (n_id <$> (listed ++ [n']))) as Hd'.
      { rewrite fmap_app. apply NoDup_app. split; [done|]. split; [|apply NoDup_singleton].
        intros x Hx ->%list_elem_of_singleton. done. }
      change (n_id n) with (n_id n') at 1. rewrite <- index_of_snoc by done.
      assert (n_id <$> ((listed ++ [n']) ++ nodes) = n_id <$> (listed ++ n :: nodes)) as Hids
        by (rewrite !fmap_app, <- app_assoc; done).
      destruct (IH (listed ++ [n']) s1 Hd') as (s' & Ha' & H). exists s'. split; [by eapply aside_trans|].
      destruct (index_nodes _ nodes _ _ s1) as [[[[index l]|e] s2]|]; [| |done]; rewrite Hids in H.
      * destruct H as (? & ? & ? & new & -> & Hnew). split; [done|]. split; [done|]. split; [done|].
        exists (n' :: new). split; [by rewrite <- app_assoc|]. by constructor.
      * done.
Qed.
End Index.

(** ** The nodes held *)
Lemma elem_of_rev {A} (x : A) l : x ∈ rev l ↔ x ∈ l.
Proof. rewrite !list_elem_of_In. symmetry. apply in_rev. Qed.
Inductive holds (index : gmap Uuid (Node Slot)) (root : Uuid) : Uuid → Prop :=
| holds_root : holds index root root
| holds_child i node child : holds index root i → index !! i = Some node → child ∈ default [] (n_children node) →
    holds index root child.

Definition children_in (index : gmap Uuid (Node Slot)) (i : Uuid) : list Uuid := default [] (index !! i ≫= n_children).
Definition unheld (attached : gset Uuid) (l : list (Uuid * Node Slot)) : nat :=
  sum_list_with (λ e, if decide (e.1 ∈ attached) then O else length (default [] (n_children e.2))) l.

Lemma unheld_visit attached i l : NoDup l.*1 → i ∉ attached →
  (unheld ({[i]} ∪ attached) l + sum_list_with (λ e, if decide (e.1 = i) then length (default [] (n_children e.2)) else O) l
   = unheld attached l)%nat.
Proof.
  intros Hd Hi. induction l as [|[j n] l IH]; [done|]. apply NoDup_cons in Hd as [Hj Hd]. unfold unheld in *.
  cbn [sum_list_with fst snd]. specialize (IH Hd).
  assert (j ∈ {[i]} ∪ attached ↔ j = i ∨ j ∈ attached) as Hin by (rewrite elem_of_union, elem_of_singleton; done).
  destruct (decide (j = i)), (decide (j ∈ attached)), (decide (j ∈ {[i]} ∪ attached)); subst; try tauto; lia.
Qed.
Lemma children_sum index i :
  sum_list_with (λ e : Uuid * Node Slot, if decide (e.1 = i) then length (default [] (n_children e.2)) else O) (map_to_list index)
  = length (children_in index i).
Proof.
  unfold children_in. assert (∀ l : list (Uuid * Node Slot), NoDup l.*1 →
    sum_list_with (λ e, if decide (e.1 = i) then length (default [] (n_children e.2)) else O) l
    = length (default [] ((list_to_map l : gmap _ _) !! i ≫= n_children))) as H.
  { induction l as [|[j n] l IH]; [done|]. intros [Hj Hd]%NoDup_cons. cbn [sum_list_with fst snd]. rewrite IH by done.
    simpl. destruct (decide (j = i)) as [->|]; [|by rewrite lookup_insert_ne].
    rewrite lookup_insert_eq. simpl in Hj. rewrite not_elem_of_list_to_map_1 by done. simpl. lia. }
  rewrite H, list_to_map_to_list; [done|apply NoDup_fst_map_to_list].
Qed.

Lemma held_ids_ends fuel index held attached :
  (length held + unheld attached (map_to_list index) <= fuel)%nat → is_Some (held_ids fuel index held attached).
Proof.
  revert held attached. induction fuel as [|fuel IH]; intros [|i held] attached Hf; simpl in *; try (by eexists); [lia|].
  case_decide as Hi; [apply IH; lia|]. apply IH.
  pose proof (unheld_visit attached i (map_to_list index) ltac:(apply NoDup_fst_map_to_list) Hi) as Hu.
  rewrite children_sum in Hu. rewrite length_app, length_rev. unfold children_in in Hu. lia.
Qed.
Lemma unheld_empty (l : list (Uuid * Node Slot)) :
  unheld ∅ l = sum_list_with (λ e : Uuid * Node Slot, length (default [] (n_children e.2))) l.
Proof.
  unfold unheld. induction l as [|e l IH]; [done|]. cbn [sum_list_with]. rewrite IH.
  by rewrite decide_False by set_solver.
Qed.
Lemma held_ids_start (index : gmap Uuid (Node Slot)) held : (length held <= 1)%nat → is_Some (held_ids (enough_held index) index held ∅).
Proof. intros Hh. apply held_ids_ends. rewrite unheld_empty. unfold enough_held. lia. Qed.
Lemma held_ids_sound fuel index held attached res (R : Uuid → Prop) :
  held_ids fuel index held attached = Some res →
  (∀ i, i ∈ attached → R i) → (∀ i, i ∈ held → R i) → (∀ i c, R i → c ∈ children_in index i → R c) →
  ∀ i, i ∈ res → R i.
Proof.
  revert held attached. induction fuel as [|fuel IH]; intros [|i held] attached Hr Ha Hh Hc; simpl in Hr; simplify_eq; try done.
  case_decide as Hi; [apply (IH _ _ Hr); set_solver|]. apply (IH _ _ Hr); [| |done].
  - intros j [->%elem_of_singleton|]%elem_of_union; [apply Hh; by left|by apply Ha].
  - intros j [Hj|]%elem_of_app; [|apply Hh; by right]. rewrite elem_of_rev in Hj. apply (Hc i); [apply Hh; by left|exact Hj].
Qed.
Lemma held_ids_complete fuel index held attached res :
  held_ids fuel index held attached = Some res →
  (∀ i c, i ∈ attached → c ∈ children_in index i → c ∈ attached ∨ c ∈ held) →
  (∀ i, i ∈ attached ∨ i ∈ held → i ∈ res) ∧ (∀ i c, i ∈ res → c ∈ children_in index i → c ∈ res).
Proof.
  revert held attached. induction fuel as [|fuel IH]; intros [|i held] attached Hr Hc; simpl in Hr; simplify_eq.
  1, 2: (split; [intros j [|H]; [done|inversion H]|]; intros j c Hj Hjc; destruct (Hc j c Hj Hjc) as [|H]; [done|inversion H]).
  case_decide as Hi.
  - destruct (IH _ _ Hr) as [H1 H2]; [|split; [intros j Hj|done]; apply H1; destruct Hj as [|[->|]%elem_of_cons]; auto].
    intros j c Hj Hjc. destruct (Hc j c Hj Hjc) as [|[->|]%elem_of_cons]; auto.
  - destruct (IH _ _ Hr) as [H1 H2].
    + intros j c [->%elem_of_singleton|Hj]%elem_of_union Hjc.
      * right. apply elem_of_app. left. rewrite elem_of_rev. exact Hjc.
      * destruct (Hc j c Hj Hjc) as [|[->|]%elem_of_cons]; [set_solver..|].
        right. apply elem_of_app. by right.
    + split; [intros j Hj|done]. apply H1. destruct Hj as [|[->|]%elem_of_cons]; [set_solver..|]. right. apply elem_of_app. by right.
Qed.
Lemma held_ids_spec (index : gmap Uuid (Node Slot)) root : ∃ attached,
  held_ids (enough_held index) index [root] ∅ = Some attached ∧ ∀ i, i ∈ attached ↔ holds index root i.
Proof.
  destruct (held_ids_start index [root]) as [attached Ha]; [simpl; lia|]. exists attached. split; [done|].
  intros i. split.
  - revert i. apply (held_ids_sound _ _ _ _ _ _ Ha); [set_solver| |].
    + intros i ->%list_elem_of_singleton. constructor.
    + intros i c Hi Hc. unfold children_in in Hc. destruct (index !! i) as [n|] eqn:Hn; [|inversion Hc].
      by eapply holds_child.
  - destruct (held_ids_complete _ _ _ _ _ Ha) as [H1 H2]; [set_solver|]. intros Hi. induction Hi as [|i n c Hi IH Hn Hc].
    + apply H1. right. by apply list_elem_of_singleton.
    + apply (H2 i); [done|]. unfold children_in. by rewrite Hn.
Qed.

(** ** Setting an argument up *)
Definition setup_as (e : Expression Slot) s s' (c : Cell) : Prop :=
  match selected_source e with
  | Expression.Value v => ∃ l, c = Local l ∧ heap (ld_world s') !! l = Some (Some v)
  | Expression.Uuid u => ∃ l, c = Local l ∧ heap (ld_world s') !! l = Some (Some (uuid_value u))
  | Expression.Variable_ c' => c = c'
  | Expression.VariableId i => ld_variables s' !! i = Some c
  | Expression.NodeArgument other => ld_cells s !! other = Some c
  | Expression.Call _ => ∃ l, c = Local l ∧ heap (ld_world s') !! l = Some None
  | Expression.Select _ _ => False
  end.
Definition with_cells (f : gmap NodeParameterId Cell → gmap NodeParameterId Cell) s s' : Prop :=
  adds s s' ∧ ld_cells s' = f (ld_cells s) ∧ ld_bindings s' = ld_bindings s ∧ ld_fed s' = ld_fed s.

Lemma setup_run p e s :
  match setup_node_parameter_variable resolver names p e s with
  | Some (Ok c, s') => waits (ld_cells s) e = false ∧ with_cells (<[p := c]>) s s' ∧ setup_as e s s' c
  | Some (Err _, _) => waits (ld_cells s) e = true
  | None => False
  end.
Proof.
  assert (∀ (m : L Cell) (P : Cell → Load → Prop), runs_aside m P →
    ∃ c s', (variable ← m; _ ← insert_cell p variable; mret variable) s = Some (Ok c, s')
            ∧ with_cells (<[p := c]>) s s'
            ∧ ∃ s1, ld_world s' = ld_world s1 ∧ ld_variables s' = ld_variables s1 ∧ P c s1) as Haside.
  { intros m P Hm. destruct (Hm s) as (c & s1 & Hc & (Ha & Hce & Hb & Hf) & HP).
    rewrite bind_run, Hc. eexists c, _. split; [reflexivity|]. split; [|by exists s1].
    split; [done|]. simpl. by rewrite Hce. }
  unfold setup_as, waits.
  induction e as [v|u|c0|i|other|e IH path|call]; cbn [setup_node_parameter_variable read_argument selected_source].
  - destruct (Haside _ _ (fresh_aside (Some v))) as (c & s' & -> & Hw & s1 & -> & _ & HP). done.
  - destruct (Haside _ _ (fresh_aside (Some (uuid_value u)))) as (c & s' & -> & Hw & s1 & -> & _ & HP). done.
  - destruct (Haside (mret c0) (λ c _, c = c0) ltac:(by apply aside_ret)) as (c & s' & -> & Hw & s1 & _ & _ & HP). done.
  - destruct (Haside _ _ (variable_cell_aside i)) as (c & s' & -> & Hw & s1 & _ & -> & HP). done.
  - rewrite bind_run. unfold t_gets, t_ok_or. rewrite bind_run. destruct (ld_cells s !! other) as [c|] eqn:Hc; simpl.
    + split; [done|]. split; [|done]. done.
    + done.
  - rewrite bind_run. destruct (setup_node_parameter_variable resolver names p e s) as [[[c|err] s1]|]; try done.
    destruct IH as (Hwt & (Ha & Hc & Hb & Hf) & Hs). split; [done|]. split.
    + split; [exact Ha|]. simpl. by rewrite Hc, insert_insert_eq.
    + simpl. exact Hs.
  - destruct (Haside (_ ← bind_call resolver names call; fresh_cell None) _
      (aside_then _ _ _ _ (bind_call_aside call) (λ _, fresh_aside None))) as (c & s' & -> & Hw & s1 & -> & _ & HP). done.
Qed.

(** ** The sweeps *)
Definition argument_at (index : gmap Uuid (Node Slot)) (p : NodeParameterId) : option (Expression Slot) :=
  index !! np_node p ≫= λ node, n_arguments node !! np_parameter p.
Lemma next_port_argument index p : next_port index p = argument_at index p ≫= read_argument.
Proof. unfold next_port, argument_at. by destruct (index !! np_node p). Qed.

Section Swept.
Variable index : gmap Uuid (Node Slot).
Variable detached_ids : gset Uuid.
Implicit Types p q f src : NodeParameterId.
Implicit Types todo : gset NodeParameterId.

(** The return of a detached node that binds none. *)
Definition is_port p : Prop :=
  np_node p ∈ detached_ids ∧ np_parameter p = _RET_PARAM_ID ∧ argument_at index p = None.
(** An argument's cell can be found: its chain of ports ends. *)
Inductive grounded : NodeParameterId → Prop :=
| grounded_own p e : argument_at index p = Some e → read_argument e = None → grounded p
| grounded_port p : is_port p → grounded p
| grounded_reads p src : next_port index p = Some src → grounded src → grounded p.
(** [f] is further down the chain of [p]. *)
Definition leads p f : Prop := tc (λ a b, next_port index a = Some b) p f.
Definition reaches_fed s p : Prop := ∃ f, f ∈ ld_fed s ∧ leads p f.
(** The input a detached node's bound return feeds. *)
Definition feeds f : Prop := ∃ d e input,
  np_node d ∈ detached_ids ∧ np_parameter d = _RET_PARAM_ID ∧ argument_at index d = Some e ∧
  read_argument e = Some input ∧ f = follow (size index) index input.
(** A detached node's argument with a cell of its own, apart from the key. *)
Definition bound_to s p (c : Cell) : Prop :=
  np_node p ∈ detached_ids ∧ is_stored c = true ∧ ld_bindings s !! p = Some c.

Definition shares s p src : Prop :=
  p ∈ ld_fed s ∨ reaches_fed s p ∨ ld_cells s !! p = ld_cells s !! src ∨ (∃ c, bound_to s p c ∧ ld_cells s !! src = Some c).
Definition owns s p (e : Expression Slot) : Prop :=
  match selected_source e with
  | Expression.Value v => ∃ l, ld_cells s !! p = Some (Local l) ∧ heap (ld_world s) !! l = Some (Some v)
  | Expression.Uuid u => ∃ l, ld_cells s !! p = Some (Local l) ∧ heap (ld_world s) !! l = Some (Some (uuid_value u))
  | Expression.VariableId i =>
      ∃ c, ld_variables s !! i = Some c ∧ (p ∈ ld_fed s ∨ ld_cells s !! p = Some c ∨ bound_to s p c)
  | _ => True
  end.
Record swept todo s : Prop := {
  sw_dom p : is_Some (ld_cells s !! p) ↔ is_port p ∨ (is_Some (argument_at index p) ∧ p ∉ todo);
  sw_reads p src : next_port index p = Some src → p ∉ todo → shares s p src;
  sw_owns p e : argument_at index p = Some e → p ∉ todo → owns s p e;
  sw_fed f : f ∈ ld_fed s → feeds f ∧ ∃ l, ld_cells s !! f = Some (Local l);
  sw_grounded p : is_Some (ld_cells s !! p) → grounded p;
}.

Lemma follow_leads n p src : next_port index p = Some src → leads p (follow n index src).
Proof.
  revert p src. induction n as [|n IH]; intros p src Hp; simpl; [by apply tc_once|].
  destruct (next_port index src) as [q|] eqn:Hq; [|by apply tc_once].
  eapply tc_l; [exact Hp|]. by apply IH.
Qed.
Lemma selected_read (e : Expression Slot) src : read_argument e = Some src → selected_source e = Expression.NodeArgument src.
Proof. induction e; simpl; naive_solver. Qed.
Lemma read_selected (e : Expression Slot) : read_argument e = None → ∀ src, selected_source e ≠ Expression.NodeArgument src.
Proof. induction e; simpl; naive_solver. Qed.

(** One argument set up, with what it made of the others. *)
Record set_up_as p (e : Expression Slot) s s' (c : Cell) : Prop := {
  su_adds : adds s s';
  su_as : setup_as e s s' c;
  su_cases :
    (∃ input l, let f := follow (size index) index input in
       np_node p ∈ detached_ids ∧ np_parameter p = _RET_PARAM_ID ∧ read_argument e = Some input ∧
       (∃ h, <[p := c]> (ld_cells s) !! f = Some (Stored h)) ∧
       ld_cells s' = <[f := Local l]> (<[p := Local l]> (<[p := c]> (ld_cells s))) ∧
       ld_bindings s' = ld_bindings s ∧ ld_fed s' = {[f]} ∪ ld_fed s)
    ∨ (∃ l, np_node p ∈ detached_ids ∧ is_stored c = true ∧
       ld_cells s' = <[p := Local l]> (<[p := c]> (ld_cells s)) ∧ ld_bindings s' = <[p := c]> (ld_bindings s) ∧
       ld_fed s' = ld_fed s)
    ∨ (ld_cells s' = <[p := c]> (ld_cells s) ∧ ld_bindings s' = ld_bindings s ∧ ld_fed s' = ld_fed s);
}.

Lemma set_up_run p e s : waits (ld_cells s) e = false →
  ∃ s' c, set_up resolver names index detached_ids p e s = Some (Ok tt, s') ∧ set_up_as p e s s' c.
Proof.
  intros Hw. pose proof (setup_run p e s) as Hs. unfold set_up. rewrite bind_run.
  destruct (setup_node_parameter_variable resolver names p e s) as [[[c|err] s1]|]; [| |done].
  2: { rewrite Hw in Hs. done. }
  destruct Hs as (_ & (Ha & Hc & Hb & Hf) & Has). rewrite bind_run. cbn [t_gets].
  destruct (fresh_aside None s1) as (c' & s2 & Hfr & (Ha2 & Hc2 & Hb2 & Hf2) & l & -> & Hl).
  unfold fed_input. rewrite Hc.
  assert (adds s s2) as Ha' by (by eapply adds_trans).
  assert (setup_as e s s2 c) as Has2.
  { destruct Ha2 as [Hh Hv]. unfold setup_as in *. destruct (selected_source e); try done.
    1, 2, 4: (destruct Has as (l' & -> & Hl'); exists l'; split; [done|by eapply lookup_weaken]).
    by eapply lookup_weaken. }
  assert (∀ b1 b2 : bool, b1 && b2 = true → b1 = true ∧ b2 = true) as Handb by (intros [] []; done).
  destruct (read_argument e) as [input|] eqn:Hr; [destruct (bool_decide _ && _) eqn:Hd|].
  1: destruct (<[p := c]> (ld_cells s) !! follow (size index) index input) as [[l'|h]|] eqn:Hfed.
  2: { rewrite bind_run, Hfr. eexists _, c. split; [reflexivity|]. split; [exact Ha'|exact Has2|]. left.
       apply Handb in Hd as [Hdt Hret]. apply bool_decide_eq_true in Hdt. apply Z.eqb_eq in Hret.
       exists input, l. simpl. split; [done|]. split; [done|]. split; [done|]. split; [by exists h|]. rewrite Hc2, Hc, Hb2, Hb, Hf2, Hf. done. }
  all: destruct (is_stored c && bool_decide (np_node p ∈ detached_ids)) eqn:Hsd;
    [rewrite bind_run, Hfr; eexists _, c; split; [reflexivity|]; split; [exact Ha'|exact Has2|]; right; left;
     exists l; apply Handb in Hsd as [Hsc Hdt]; apply bool_decide_eq_true in Hdt; simpl;
     rewrite Hc2, Hc, Hb2, Hb, Hf2, Hf; done
    |eexists _, c; split; [reflexivity|]; split; [exact Ha|exact Has|]; right; right; done].
Qed.

(** What setting [p] up does to the others, whichever way. *)
Record stepped p s s' : Prop := {
  st_adds : adds s s';
  st_others q : q ≠ p → ld_cells s' !! q = ld_cells s !! q
                        ∨ (q ∈ ld_fed s' ∧ (∃ h, ld_cells s !! q = Some (Stored h)) ∧ ∃ l, ld_cells s' !! q = Some (Local l));
  st_dom q : is_Some (ld_cells s' !! q) ↔ q = p ∨ is_Some (ld_cells s !! q);
  st_bindings q : q ≠ p → ld_bindings s' !! q = ld_bindings s !! q;
  st_mono : ld_fed s ⊆ ld_fed s';
  st_fed f : f ∈ ld_fed s' → f ∈ ld_fed s ∨ (feeds f ∧ ∃ l, ld_cells s' !! f = Some (Local l));
}.

Lemma stepped_once p e s s' c : ld_cells s !! p = None → argument_at index p = Some e → set_up_as p e s s' c → stepped p s s'.
Proof.
  intros Hp He [Ha _ [(input & l & Hdt & Hret & Hr & [h Hf] & Hc & Hb & Hfe)|[(l & _ & _ & Hc & Hb & Hfe)|(Hc & Hb & Hfe)]]]; split; try done.
  - intros q Hq. rewrite Hc, Hfe. set (f := follow (size index) index input) in *. destruct (decide (q = f)) as [->|Hqf].
    + right. rewrite lookup_insert_ne in Hf by done. split; [set_solver|]. split; [by exists h|].
      exists l. by rewrite lookup_insert_eq.
    + left. by rewrite !lookup_insert_ne by done.
  - intros q. rewrite Hc. set (f := follow (size index) index input) in *. destruct (decide (q = f)) as [->|Hqf].
    + rewrite lookup_insert_eq. split; [intros _|by eexists]. destruct (decide (f = p)) as [->|]; [by left|right].
      rewrite lookup_insert_ne in Hf by done. by eexists.
    + rewrite lookup_insert_ne by done. destruct (decide (q = p)) as [->|].
      * rewrite lookup_insert_eq. split; [by left|by eexists].
      * rewrite !lookup_insert_ne by done. naive_solver.
  - intros q _. by rewrite Hb.
  - rewrite Hfe. set_solver.
  - intros f. rewrite Hfe, Hc. intros [->%elem_of_singleton|Hin]%elem_of_union; [right|by left].
    split; [by exists p, e, input|]. exists l. by rewrite lookup_insert_eq.
  - intros q Hq. left. by rewrite Hc, !lookup_insert_ne.
  - intros q. rewrite Hc. destruct (decide (q = p)) as [->|].
    + rewrite lookup_insert_eq. split; [by left|by eexists].
    + rewrite !lookup_insert_ne by done. naive_solver.
  - intros q Hq. by rewrite Hb, lookup_insert_ne.
  - by rewrite Hfe.
  - intros f. rewrite Hfe. by left.
  - intros q Hq. left. by rewrite Hc, lookup_insert_ne.
  - intros q. rewrite Hc. destruct (decide (q = p)) as [->|].
    + rewrite lookup_insert_eq. split; [by left|by eexists].
    + rewrite lookup_insert_ne by done. naive_solver.
  - intros q _. by rewrite Hb.
  - by rewrite Hfe.
  - intros f. rewrite Hfe. by left.
Qed.

Lemma bound_stepped p q s s' c : q ≠ p → stepped p s s' → bound_to s q c → bound_to s' q c.
Proof. intros Hq Hst (? & ? & ?). split; [done|]. split; [done|]. by rewrite (st_bindings _ _ _ Hst). Qed.

Lemma shares_stepped p q src s s' :
  stepped p s s' → ld_cells s !! p = None → is_Some (ld_cells s !! q) → next_port index q = Some src →
  shares s q src → shares s' q src.
Proof.
  intros Hst Hp Hq Hn. assert (q ≠ p) as Hqp by (intros ->; rewrite Hp in Hq; by destruct Hq).
  assert (∀ x, x ∈ ld_fed s' → x = src → reaches_fed s' q) as Hfed.
  { intros x Hx ->. exists src. split; [done|]. by apply tc_once. }
  assert (is_Some (ld_cells s !! src) → src ≠ p) as Hsp by (intros [? H] ->; congruence).
  intros [Hin|[(f & Hf & Hl)|[He|(c & Hb & Hc)]]].
  - left. by apply (st_mono _ _ _ Hst).
  - right. left. exists f. split; [by apply (st_mono _ _ _ Hst)|done].
  - rewrite He in Hq. destruct (st_others _ _ _ Hst src (Hsp Hq)) as [Hs|[Hs _]]; [|right; left; by eapply Hfed].
    destruct (st_others _ _ _ Hst q Hqp) as [Hs'|[Hs' _]]; [|by left]. right. right. left. by rewrite Hs, Hs'.
  - destruct (st_others _ _ _ Hst src (Hsp ltac:(by eexists))) as [Hs|[Hs _]]; [|right; left; by eapply Hfed].
    right. right. right. exists c. split; [by eapply bound_stepped|]. by rewrite Hs.
Qed.

Lemma owns_stepped p q e s s' :
  stepped p s s' → ld_cells s !! p = None → is_Some (ld_cells s !! q) → owns s q e → owns s' q e.
Proof.
  intros Hst Hp Hq. assert (q ≠ p) as Hqp by (intros ->; rewrite Hp in Hq; by destruct Hq).
  pose proof (st_adds _ _ _ Hst) as [Hh Hv]. unfold owns. destruct (selected_source e); try done.
  1, 2: (intros (l & Hl & Hhl); exists l; destruct (st_others _ _ _ Hst q Hqp) as [->|(_ & (h & Hst') & _)];
         [split; [done|by eapply lookup_weaken]|congruence]).
  intros (c & Hc & Hor). exists c. split; [by eapply lookup_weaken|].
  destruct (st_others _ _ _ Hst q Hqp) as [Hs|[Hs _]]; [|by left].
  destruct Hor as [Hin|[Hor|Hor]]; [left; by apply (st_mono _ _ _ Hst)|right; left; by rewrite Hs|right; right; by eapply bound_stepped].
Qed.

Lemma waits_source s e src : read_argument e = Some src → waits (ld_cells s) e = false → is_Some (ld_cells s !! src).
Proof. intros Hr. unfold waits. rewrite Hr. by destruct (ld_cells s !! src). Qed.

(** What setting [p] up makes of [p] itself. *)
Lemma shares_set_up p e src s s' c :
  ld_cells s !! p = None → argument_at index p = Some e → waits (ld_cells s) e = false →
  set_up_as p e s s' c → next_port index p = Some src → shares s' p src.
Proof.
  intros Hp He Hw Hsu Hn. rewrite next_port_argument, He in Hn. simpl in Hn.
  destruct (waits_source s e src Hn Hw) as [cs Hcs].
  assert (src ≠ p) as Hsp by (intros ->; congruence).
  pose proof (su_as _ _ _ _ _ Hsu) as Has. unfold setup_as in Has. rewrite (selected_read e src Hn), Hcs in Has.
  injection Has as ->.
  destruct (su_cases _ _ _ _ _ Hsu) as [(input & l & _ & _ & Hr & _ & Hc & _ & Hf)|[(l & Hd & Hst & Hc & Hb & Hf)|(Hc & Hb & Hf)]].
  - right. left. eexists. split; [rewrite Hf; apply elem_of_union_l; by apply elem_of_singleton|].
    rewrite Hr in Hn. injection Hn as ->. apply follow_leads. by rewrite next_port_argument, He.
  - right. right. right. exists c. split; [split; [done|]; split; [done|]; by rewrite Hb, lookup_insert_eq|].
    by rewrite Hc, !lookup_insert_ne.
  - right. right. left. by rewrite Hc, lookup_insert_eq, lookup_insert_ne.
Qed.
Lemma owns_set_up p e s s' c :
  set_up_as p e s s' c → owns s' p e.
Proof.
  intros [Ha Has Hcases]. unfold owns, setup_as in *.
  destruct (selected_source e) as [v|u|c0|i|other|e0 path|call] eqn:Hsel; try done.
  - destruct Has as (l & -> & Hl). exists l.
    destruct Hcases as [(input & l' & _ & _ & Hr & _)|[(l' & _ & Hst & _)|(Hc & _)]]; [|done|by rewrite Hc, lookup_insert_eq].
    apply selected_read in Hr. congruence.
  - destruct Has as (l & -> & Hl). exists l.
    destruct Hcases as [(input & l' & _ & _ & Hr & _)|[(l' & _ & Hst & _)|(Hc & _)]]; [|done|by rewrite Hc, lookup_insert_eq].
    apply selected_read in Hr. congruence.
  - exists c. split; [done|]. right.
    destruct Hcases as [(input & l' & _ & _ & Hr & _)|[(l' & Hd & Hst & Hc & Hb & _)|(Hc & _)]].
    + apply selected_read in Hr. congruence.
    + right. split; [done|]. split; [done|]. by rewrite Hb, lookup_insert_eq.
    + left. by rewrite Hc, lookup_insert_eq.
Qed.

Lemma swept_set_up todo p e s s' c :
  swept todo s → p ∈ todo → argument_at index p = Some e → waits (ld_cells s) e = false →
  set_up_as p e s s' c → swept (todo ∖ {[p]}) s'.
Proof.
  intros Hsw Hp He Hw Hsu.
  assert (ld_cells s !! p = None) as Hnone.
  { destruct (ld_cells s !! p) eqn:Hc; [|done]. exfalso.
    destruct (proj1 (sw_dom _ _ Hsw p)) as [(_ & _ & Hport)|[_ Hport]]; [by eexists|congruence|done]. }
  pose proof (stepped_once _ _ _ _ _ Hnone He Hsu) as Hst.
  assert (∀ q, is_Some (argument_at index q) → q ∉ todo ∖ {[p]} → q = p ∨ (q ∉ todo ∧ is_Some (ld_cells s !! q))) as Hold.
  { intros q Hq Hin. destruct (decide (q = p)) as [->|]; [by left|]. right.
    assert (q ∉ todo) as Hqt by set_solver. split; [done|]. apply (sw_dom _ _ Hsw). by right. }
  split.
  - intros q. rewrite (st_dom _ _ _ Hst), (sw_dom _ _ Hsw). split.
    + intros [->|[?|[? ?]]]; [right|by left|right]; (split; [first [done|by eexists]|set_solver]).
    + intros [?|[Hq Hin]]; [right; by left|]. destruct (Hold q Hq Hin) as [->|[? _]]; [by left|right; by right].
  - intros q src Hn Hin. assert (is_Some (argument_at index q)) as Ha.
    { rewrite next_port_argument in Hn. by destruct (argument_at index q). }
    destruct (Hold q Ha Hin) as [->|[Hqt Hq]].
    + eapply (shares_set_up p e src); try done.
    + eapply shares_stepped; try done. by apply (sw_reads _ _ Hsw).
  - intros q e' Hq Hin. destruct (Hold q ltac:(by eexists) Hin) as [->|[Hqt Hq']].
    + rewrite Hq in He. injection He as ->. by eapply owns_set_up.
    + eapply owns_stepped; try done. by apply (sw_owns _ _ Hsw).
  - intros f [Hf|Hf]%(st_fed _ _ _ Hst); [|done]. destruct (sw_fed _ _ Hsw f Hf) as [? (l & Hl)]. split; [done|].
    exists l. destruct (st_others _ _ _ Hst f) as [->|(_ & (h & Hh) & _)]; [intros ->; congruence|done|congruence].
  - intros q [->|Hq]%(st_dom _ _ _ Hst); [|by apply (sw_grounded _ _ Hsw)].
    destruct (read_argument e) as [src|] eqn:Hr; [|by eapply grounded_own].
    apply (grounded_reads p src); [by rewrite next_port_argument, He|].
    apply (sw_grounded _ _ Hsw). by eapply waits_source.
Qed.

Definition pending_ok todo (pending : list (NodeParameterId * Expression Slot)) : Prop :=
  NoDup pending.*1 ∧ ∀ p e, (p, e) ∈ pending → p ∈ todo ∧ argument_at index p = Some e.
Lemma pending_ok_tail todo p e pending :
  pending_ok todo ((p, e) :: pending) →
  p ∈ todo ∧ argument_at index p = Some e ∧ p ∉ pending.*1 ∧ pending_ok todo pending ∧ pending_ok (todo ∖ {[p]}) pending.
Proof.
  intros [Hd Hp]. apply NoDup_cons in Hd as [Hn Hd]. destruct (Hp p e) as [Ht Ha]; [by left|].
  assert (pending_ok todo pending) as Hok by (split; [done|]; intros q e' Hq; apply Hp; by right).
  do 3 (split; [done|]). split; [done|]. split; [done|]. intros q e' Hq. destruct (proj2 Hok q e' Hq) as [Hqt ?].
  split; [|done]. assert (q ∈ pending.*1) by (apply list_elem_of_fmap; by exists (q, e')).
  apply elem_of_difference. split; [done|]. by intros ->%elem_of_singleton.
Qed.

Lemma sweep_run pending : ∀ todo s, swept todo s → pending_ok todo pending →
  ∃ un s' todo', sweep resolver names index detached_ids pending s = Some (Ok un, s') ∧
    sublist un pending ∧ swept todo' s' ∧ adds s s' ∧
    (∀ p, p ∈ todo' ↔ p ∈ todo ∧ (p ∉ pending.*1 ∨ p ∈ un.*1)) ∧
    (length un = length pending → s' = s ∧ ∀ p e, (p, e) ∈ pending → waits (ld_cells s) e = true).
Proof.
  induction pending as [|[p e] pending IH]; intros todo s Hsw Hok.
  - exists [], s, todo. split; [done|]. split; [constructor|]. split; [done|]. split; [done|].
    split; [|intros _; split; [done|]; intros p e H; inversion H].
    intros p. split; [intros ?; split; [done|left; by apply not_elem_of_nil]|by intros []].
  - apply pending_ok_tail in Hok as (Hpt & Ha & Hn & Hok & Hok'). cbn [sweep]. rewrite bind_run. cbn [t_gets].
    destruct (waits (ld_cells s) e) eqn:Hw.
    + destruct (IH todo s Hsw Hok) as (un & s' & todo' & Hr & Hsub & Hsw' & Had & Hto & Hlen).
      exists ((p, e) :: un), s', todo'. rewrite bind_run, Hr. split; [done|]. split; [by constructor|].
      split; [done|]. split; [done|]. split.
      * intros q. rewrite Hto, !fmap_cons, not_elem_of_cons, elem_of_cons. simpl. destruct (decide (q = p)) as [->|]; naive_solver.
      * intros [= Hl]. destruct (Hlen Hl) as [-> Hwait]. split; [done|].
        intros q e' [[= -> ->]|Hq]%elem_of_cons; [done|by eapply Hwait].
    + destruct (set_up_run p e s Hw) as (s1 & c & Hs1 & Hsu). rewrite bind_run, Hs1.
      destruct (IH (todo ∖ {[p]}) s1) as (un & s' & todo' & Hr & Hsub & Hsw' & Had & Hto & Hlen);
        [by eapply swept_set_up|done|].
      exists un, s', todo'. split; [done|]. split; [by constructor|]. split; [done|].
      split; [eapply adds_trans; [apply (su_adds _ _ _ _ _ Hsu)|done]|]. split.
      * intros q. rewrite Hto, elem_of_difference, elem_of_singleton, fmap_cons, not_elem_of_cons. simpl.
        assert (p ∉ un.*1) as Hpu.
        { contradict Hn. apply list_elem_of_fmap in Hn as (a & -> & Hin). apply list_elem_of_fmap_2.
          eapply elem_of_sublist; [exact Hin|done]. }
        destruct (decide (q = p)) as [->|]; naive_solver.
      * intros Hl. apply sublist_length in Hsub. simpl in Hl. lia.
Qed.

(** Where every pending argument waits, none of them is grounded. *)
Lemma stuck todo pending s :
  swept todo s → pending_ok todo pending → (∀ p, p ∈ todo → p ∈ pending.*1) →
  (∀ p e, (p, e) ∈ pending → waits (ld_cells s) e = true) →
  ∀ p, grounded p → p ∉ todo.
Proof.
  intros Hsw Hok Hall Hw. assert (∀ p, p ∈ todo → ∃ e, (p, e) ∈ pending ∧ argument_at index p = Some e) as Hin.
  { intros p Hp. apply Hall in Hp. apply list_elem_of_fmap in Hp as ([q e] & -> & Hin). exists e.
    split; [done|]. by apply (proj2 Hok q e). }
  intros p Hg. induction Hg as [p e Ha Hr|p Hport|p src Hn Hg IH]; intros Hp.
  - destruct (Hin p Hp) as (e' & He & Ha'). rewrite Ha in Ha'. injection Ha' as <-. apply Hw in He.
    unfold waits in He. by rewrite Hr in He.
  - destruct (Hin p Hp) as (e' & He & Ha'). destruct Hport as (_ & _ & Hport). congruence.
  - destruct (Hin p Hp) as (e' & He & Ha'). apply Hw in He.
    rewrite next_port_argument, Ha' in Hn. simpl in Hn. unfold waits in He. rewrite Hn in He.
    destruct (ld_cells s !! src) eqn:Hc; [done|]. apply eq_None_not_Some in Hc. apply Hc. apply (sw_dom _ _ Hsw).
    destruct Hg as [q e Ha Hr|q Hport|q src' Hn' Hg]; [right|by left|right]; (split; [|done]); [by eexists|].
    rewrite next_port_argument in Hn'. by destruct (argument_at index q).
Qed.

Lemma sweeps_run fuel : ∀ pending todo s,
  swept todo s → pending_ok todo pending → (∀ p, p ∈ todo → p ∈ pending.*1) → (length pending <= fuel)%nat →
  match sweeps resolver names index detached_ids fuel pending s with
  | Some (Ok _, s') => swept ∅ s' ∧ adds s s'
  | Some (Err _, _) => ∃ p, is_Some (argument_at index p) ∧ ¬ grounded p
  | None => False
  end.
Proof.
  induction fuel as [|fuel IH]; intros [|[p e] pending] todo s Hsw Hok Hall Hf; simpl in Hf; try lia.
  1, 2: (cbn; split; [|done]; assert (todo = ∅) as -> by set_solver; done).
  cbn [sweeps]. rewrite bind_run.
  destruct (sweep_run ((p, e) :: pending) todo s Hsw Hok) as (un & s' & todo' & -> & Hsub & Hsw' & Had & Hto & Hlen).
  assert (pending_ok todo' un) as Hok'.
  { split.
    - eapply sublist_NoDup; [apply Hok|by apply fmap_sublist].
    - intros q e' Hin. destruct (proj2 Hok q e') as [? ?]; [by eapply elem_of_sublist|].
      split; [|done]. apply Hto. split; [done|]. right. apply list_elem_of_fmap. by exists (q, e'). }
  assert (∀ q, q ∈ todo' → q ∈ un.*1) as Hall'.
  { intros q [Hq [Hn|Hin]]%Hto; [|done]. by destruct Hn; apply Hall. }
  destruct un as [|[q eq] un].
  - rewrite bind_run. cbn [mret T_ret]. specialize (IH [] todo' s' Hsw' Hok' Hall' ltac:(simpl; lia)).
    destruct (sweeps _ _ _ _ fuel [] s') as [[[] s2]|]; try done.
    destruct IH. split; [done|by eapply adds_trans].
  - destruct (length ((q, eq) :: un) =? length ((p, e) :: pending))%nat eqn:Hl.
    + apply Nat.eqb_eq in Hl. destruct (Hlen Hl) as [-> Hwait].
      assert (∀ a b, (a, b) ∈ (q, eq) :: un → waits (ld_cells s) b = true) as Hwait'.
      { intros a b Hin. eapply Hwait, elem_of_sublist; done. }
      rewrite bind_run, bind_run. pose proof (setup_run q eq s) as Hs.
      destruct (setup_node_parameter_variable resolver names q eq s) as [[[c|err] s2]|]; try done.
      * destruct Hs as [Hs _]. rewrite (Hwait' q eq) in Hs by (by left). done.
      * exists q. destruct (proj2 Hok' q eq) as [Hq Ha]; [by left|]. split; [by eexists|].
        intros Hg. by eapply (stuck todo' ((q, eq) :: un) s).
    + apply Nat.eqb_neq in Hl. rewrite bind_run. cbn [mret T_ret].
      pose proof (sublist_length _ _ Hsub). specialize (IH ((q, eq) :: un) todo' s' Hsw' Hok' Hall' ltac:(simpl in *; lia)).
      destruct (sweeps _ _ _ _ fuel _ s') as [[[] s2]|]; try done.
      destruct IH. split; [done|by eapply adds_trans].
Qed.

(** ** Sharing the fed inputs' cells *)
Hypothesis index_ids : ∀ i n, index !! i = Some n → n_id n = i.

Lemma reader_sources_lookup p : reader_sources index !! p = next_port index p.
Proof.
  assert (∀ src, (p, src) ∈ (map_to_list index ≫= λ n, omap (λ a : Uuid * Expression Slot,
      (λ source, (mkNodeParameterId (n_id n.2) a.1, source)) <$> read_argument a.2) (map_to_list (n_arguments n.2)))
    ↔ next_port index p = Some src) as Hin.
  { intros src. rewrite list_elem_of_bind. unfold next_port. split.
    - intros ([i n] & Hs & Hn%elem_of_map_to_list). apply list_elem_of_omap in Hs as ([q e] & He%elem_of_map_to_list & Hs).
      simpl in *. destruct (read_argument e) as [src'|] eqn:Hr; [|done]. injection Hs as <- <-.
      rewrite (index_ids i n Hn). simpl. rewrite Hn. simpl. by rewrite He.
    - intros H. apply bind_Some in H as (n & Hn & H). apply bind_Some in H as (e & He & Hr).
      exists (np_node p, n). split; [|by apply elem_of_map_to_list]. apply list_elem_of_omap.
      exists (np_parameter p, e). split; [by apply elem_of_map_to_list|]. simpl. rewrite Hr, (index_ids _ n Hn). by destruct p. }
  unfold reader_sources. destruct (next_port index p) as [src|] eqn:Hn.
  - apply elem_of_list_to_map_1'; [|by apply Hin]. intros y Hy%Hin. congruence.
  - destruct (list_to_map _ !! p) as [src|] eqn:Hl; [|done]. apply elem_of_list_to_map_2 in Hl.
    apply Hin in Hl. congruence.
Qed.

(** The length of a chain of ports. *)
Inductive runs : NodeParameterId → nat → Prop :=
| runs_end p : next_port index p = None → runs p O
| runs_on p src n : next_port index p = Some src → runs src n → runs p (Datatypes.S n).
Lemma grounded_runs p : grounded p → ∃ n, runs p n.
Proof.
  induction 1 as [p e Ha Hr|p (_ & _ & Ha)|p src Hn _ [n IH]].
  - exists O. apply runs_end. by rewrite next_port_argument, Ha.
  - exists O. apply runs_end. by rewrite next_port_argument, Ha.
  - exists (Datatypes.S n). by eapply runs_on.
Qed.
Lemma runs_unique p n m : runs p n → runs p m → n = m.
Proof. intros H. revert m. induction H as [p Hp|p src n Hp H IH]; intros m Hm; inversion Hm; simplify_eq; auto. Qed.
Lemma runs_bound p n : runs p n → (n <= size (reader_sources index))%nat.
Proof.
  intros Hr. assert (∃ l : list NodeParameterId, length l = n ∧ NoDup l ∧
    ∀ q, q ∈ l → is_Some (next_port index q) ∧ ∃ m, runs q m ∧ (m <= n)%nat) as (l & <- & Hd & Hl).
  { induction Hr as [p Hp|p src n Hp Hr (l & Hl & Hd & Hin)]; [exists []; split; [done|]; split; [constructor|intros q Hq; inversion Hq]|].
    assert (runs p (Datatypes.S n)) as Hrp by (by eapply runs_on).
    exists (p :: l). split; [simpl; lia|]. split.
    - apply NoDup_cons. split; [|done]. intros (_ & m & Hm & Hle)%Hin. pose proof (runs_unique _ _ _ Hrp Hm). lia.
    - intros q [->|Hq]%elem_of_cons; [split; [by eexists|exists (Datatypes.S n); split; [done|lia]]|].
      destruct (Hin q Hq) as (? & m & ? & ?). split; [done|]. exists m. split; [done|lia]. }
  rewrite <- (size_dom (D := gset NodeParameterId)).
  transitivity (size (list_to_set l : gset NodeParameterId)); [by rewrite size_list_to_set|].
  apply subseteq_size. intros q Hq%elem_of_list_to_set. apply elem_of_dom. rewrite reader_sources_lookup. by apply Hl.
Qed.

Section Share.
Variable fed : gset NodeParameterId.
Local Abbreviation lf k p acc := (last_fed k (reader_sources index) fed p acc).
Definition fed_by p : option NodeParameterId := lf (size (reader_sources index)) p None.

Lemma last_fed_acc k : ∀ p acc, lf k p acc = match lf k p None with Some f => Some f | None => acc end.
Proof.
  induction k as [|k IH]; intros p acc; [done|]. simpl. destruct (_ !! p) as [src|]; [|done].
  case_decide; [|apply IH]. rewrite (IH src (Some src)). by destruct (lf k src None).
Qed.
Lemma last_fed_enough p n : runs p n → ∀ k acc, (n <= k)%nat → lf k p acc = lf n p acc.
Proof.
  induction 1 as [p Hp|p src n Hp Hr IH]; intros [|k] acc Hk; try done; try lia.
  - simpl. by rewrite reader_sources_lookup, Hp.
  - simpl. rewrite reader_sources_lookup, Hp. apply IH. lia.
Qed.
Lemma fed_by_end p : next_port index p = None → fed_by p = None.
Proof. intros Hp. unfold fed_by. destruct (size _); [done|]. simpl. by rewrite reader_sources_lookup, Hp. Qed.
Lemma fed_by_step p src n : next_port index p = Some src → runs src n →
  fed_by p = match fed_by src with Some f => Some f | None => if decide (src ∈ fed) then Some src else None end.
Proof.
  intros Hp Hr. unfold fed_by.
  assert (runs p (Datatypes.S n)) as Hrp by (by eapply runs_on). pose proof (runs_bound _ _ Hrp) as Hb.
  rewrite (last_fed_enough _ _ Hrp) by done. rewrite (last_fed_enough _ _ Hr) by lia.
  simpl. rewrite reader_sources_lookup, Hp. apply last_fed_acc.
Qed.
Lemma fed_by_last p n : runs p n → ∀ f, fed_by p = Some f → f ∈ fed ∧ fed_by f = None.
Proof.
  induction 1 as [p Hp|p src n Hp Hr IH]; intros f Hf; [by rewrite fed_by_end in Hf|].
  rewrite (fed_by_step p src n) in Hf by done. destruct (fed_by src) as [f'|] eqn:Hs; [by apply IH|].
  case_decide; naive_solver.
Qed.
Lemma fed_by_leads p n f : runs p n → leads p f → f ∈ fed → is_Some (fed_by p).
Proof.
  intros Hr Hl Hf. revert n Hr. induction Hl as [p q Hp|p q f Hp Hl IH]; intros n Hr;
    inversion Hr as [|? ? ? Hp' Hr']; simplify_eq.
  - erewrite fed_by_step by done. destruct (fed_by q); [by eexists|]. rewrite decide_True by done. by eexists.
  - erewrite fed_by_step by done. destruct (IH Hf _ Hr') as [? ->]. by eexists.
Qed.

Definition shared_cell (cells : gmap NodeParameterId Cell) p : option Cell :=
  match fed_by p with Some f => cells !! f | None => cells !! p end.
Lemma share_loop l : ∀ s0 s (visited : gset NodeParameterId),
  (∀ p, p ∈ l → is_Some (next_port index p)) → (∀ p, is_Some (next_port index p) → grounded p) →
  (∀ f, f ∈ fed → is_Some (ld_cells s0 !! f)) → ld_fed s = fed →
  (∀ p, ld_cells s !! p = if decide (p ∈ visited) then shared_cell (ld_cells s0) p else ld_cells s0 !! p) →
  ∃ s', t_for l (share_fed (reader_sources index)) s = Some (Ok tt, s') ∧
    ld_world s' = ld_world s ∧ ld_variables s' = ld_variables s ∧ ld_bindings s' = ld_bindings s ∧ ld_fed s' = fed ∧
    ∀ p, ld_cells s' !! p = if decide (p ∈ visited ∪ list_to_set l) then shared_cell (ld_cells s0) p else ld_cells s0 !! p.
Proof.
  induction l as [|r l IH]; intros s0 s visited Hl Hg Hfed Hf Hc.
  - exists s. split; [done|]. do 3 (split; [done|]). split; [done|]. intros p. rewrite Hc. simpl.
    repeat case_decide; set_solver.
  - destruct (grounded_runs r) as [n Hr]; [apply Hg, Hl; by left|].
    assert (∃ s1, share_fed (reader_sources index) r s = Some (Ok tt, s1) ∧ ld_world s1 = ld_world s ∧
      ld_variables s1 = ld_variables s ∧ ld_bindings s1 = ld_bindings s ∧ ld_fed s1 = fed ∧
      ∀ p, ld_cells s1 !! p = if decide (p ∈ visited ∪ {[r]}) then shared_cell (ld_cells s0) p else ld_cells s0 !! p)
      as (s1 & Hs1 & Hw & Hv & Hb & Hf1 & Hc1).
    { unfold share_fed. rewrite bind_run. unfold t_gets, Datatypes.id. rewrite Hf. change (last_fed _ _ _ r None) with (fed_by r).
      destruct (fed_by r) as [f|] eqn:Hfr; simpl.
      - destruct (fed_by_last r n Hr f Hfr) as [Hin Hnone]. destruct (Hfed f Hin) as [c Hcf].
        assert (ld_cells s !! f = Some c) as ->.
        { rewrite Hc. unfold shared_cell. rewrite Hnone. by case_decide. }
        eexists. split; [reflexivity|]. simpl. do 3 (split; [done|]). split; [done|]. intros p.
        destruct (decide (p = r)) as [->|].
        + rewrite lookup_insert_eq, decide_True by set_solver. unfold shared_cell. by rewrite Hfr, Hcf.
        + rewrite lookup_insert_ne, Hc by done. apply decide_ext. set_solver.
      - eexists. split; [reflexivity|]. do 3 (split; [done|]). split; [done|]. intros p. rewrite Hc.
        destruct (decide (p = r)) as [->|].
        + rewrite (decide_True (P := r ∈ visited ∪ {[r]})) by set_solver. unfold shared_cell. rewrite Hfr. by case_decide.
        + repeat case_decide; set_solver. }
    destruct (IH s0 s1 (visited ∪ {[r]})) as (s' & Hs' & Hw' & Hv' & Hb' & Hf' & Hc'); try done.
    { intros p Hp. apply Hl. by right. }
    exists s'. cbn [t_for]. rewrite bind_run, Hs1. split; [exact Hs'|]. split; [congruence|]. split; [congruence|].
    split; [congruence|]. split; [done|]. intros p. rewrite Hc'. apply decide_ext. simpl. set_solver.
Qed.
End Share.

Section ShareAll.
Variable readers_order : gmap NodeParameterId NodeParameterId → list NodeParameterId.
Hypothesis readers_permuted : ∀ m, readers_order m ≡ₚ (map_to_list m).*1.

Lemma elem_readers p : p ∈ readers_order (reader_sources index) ↔ is_Some (next_port index p).
Proof.
  rewrite readers_permuted, <- reader_sources_lookup, list_elem_of_fmap. split.
  - intros ([q src] & -> & H%elem_of_map_to_list). by eexists.
  - intros [src H]. exists (p, src). split; [done|]. by apply elem_of_map_to_list.
Qed.
Lemma share_all_run s :
  (∀ p, is_Some (next_port index p) → grounded p) → (∀ f, f ∈ ld_fed s → is_Some (ld_cells s !! f)) →
  ∃ s', share_all readers_order index s = Some (Ok tt, s') ∧
    ld_world s' = ld_world s ∧ ld_variables s' = ld_variables s ∧ ld_bindings s' = ld_bindings s ∧ ld_fed s' = ld_fed s ∧
    ∀ p, ld_cells s' !! p = shared_cell (ld_fed s) (ld_cells s) p.
Proof.
  intros Hg Hfed. unfold share_all. rewrite bind_run. unfold t_gets, Datatypes.id. case_decide as He.
  - exists s. split; [done|]. do 4 (split; [done|]). intros p. unfold shared_cell.
    destruct (fed_by (ld_fed s) p) as [f|] eqn:Hf; [|done]. exfalso.
    destruct (next_port index p) as [src|] eqn:Hn; [|by rewrite fed_by_end in Hf].
    destruct (grounded_runs p) as [n Hr]; [apply Hg; by eexists|].
    destruct (fed_by_last _ p n Hr f Hf) as [Hin _]. set_solver.
  - destruct (share_loop (ld_fed s) (readers_order (reader_sources index)) s s ∅) as (s' & Hs' & ? & ? & ? & ? & Hc); try done.
    { intros p. by rewrite elem_readers. }
    exists s'. split; [done|]. do 4 (split; [done|]). intros p. rewrite Hc. case_decide as Hp; [done|].
    unfold shared_cell. rewrite fed_by_end; [done|]. apply eq_None_not_Some. intros Hn. apply Hp.
    apply elem_of_union_r, elem_of_list_to_set. by apply elem_readers.
Qed.

(** After the sharing, every argument that reads another's has its cell, unless
    it is a detached node's with a cell of its own apart from the key. *)
Lemma share_all_shares s s' :
  swept ∅ s → (∀ q, next_port index (follow (size index) index q) = None) →
  (∀ p, is_Some (next_port index p) → grounded p) →
  share_all readers_order index s = Some (Ok tt, s') →
  ∀ p src, next_port index p = Some src →
    ld_cells s' !! p = ld_cells s' !! src ∨ ∃ c, bound_to s' p c ∧ ld_cells s' !! src = Some c.
Proof.
  intros Hsw Hshort Hg Hrun p src Hn.
  destruct (share_all_run s Hg) as (s1 & Hs1 & _ & _ & Hb & _ & Hc).
  { intros f Hf. destruct (sw_fed _ _ Hsw f Hf) as [_ [l Hl]]. by eexists. }
  rewrite Hrun in Hs1. injection Hs1 as <-. rewrite !Hc. unfold shared_cell.
  destruct (grounded_runs p) as [n Hr]; [apply Hg; by eexists|]. inversion Hr as [|? ? m Hn' Hrs]; simplify_eq.
  rewrite (fed_by_step _ p src m) by done. destruct (fed_by (ld_fed s) src) as [f|] eqn:Hf; [by left|].
  destruct (decide (src ∈ ld_fed s)) as [|Hin]; [by left|].
  destruct (sw_reads _ _ Hsw p src Hn ltac:(set_solver)) as [Hp|[(f & Hin' & Hl)|[?|(c & Hbo & Hcs)]]].
  - destruct (sw_fed _ _ Hsw p Hp) as [(d & e & input & _ & _ & _ & _ & ->) _]. rewrite Hshort in Hn. done.
  - destruct (fed_by_leads (ld_fed s) p _ f Hr Hl Hin') as [f' Hf'].
    rewrite (fed_by_step _ p src m), Hf, decide_False in Hf' by done. done.
  - by left.
  - right. exists c. split; [|done]. destruct Hbo as (? & ? & ?). split; [done|]. split; [done|]. by rewrite Hb.
Qed.
End ShareAll.
End Swept.
End Adds.
