(* ===== verification/Loaded.v ===== *)
(** * What loading a tree makes of it

    Which nodes load ([loadable]), and what the cells of a loaded tree are
    ([loaded]). *)

From S2P Require Import Prelude Values Extern Keys State Store Effects Nodes Schema Graphs GraphLowering Cells Expressions CoreNodes ScatterNode Ticks Lowering Loading Sweeps.

(** ** The data nodes *)
Section DataNodes.
Context {S X : Type} `{DS : DataStore S} `{UC : UuidCrate}.
Local Abbreviation Slot := (@SlotHandle S _).
Local Abbreviation Cell := (VariableCell Slot).
Variable names : gmap Uuid string.
Variable arguments_order : Node Slot → list (Uuid * Expression Slot).
Hypothesis arguments_permuted : ∀ n, arguments_order n ≡ₚ map_to_list (n_arguments n).

(** What a data node's arguments must be: those it needs are linked, a
    [Scatter]'s prefix is a literal one, and an [Unpack]'s ports bind variables of
    their own. *)
Definition port_variable (node : Node Slot) (param variable : Uuid) : Prop :=
  param ≠ UNPACK_VALUES_PARAM_ID ∧ n_arguments node !! param = Some (Expression.VariableId variable).
Record unpack_ok (node : Node Slot) : Prop := {
  uo_ports param e : n_arguments node !! param = Some e → param ≠ UNPACK_VALUES_PARAM_ID →
    is_Some (unpack_out_index param) ∧ ∃ variable, e = Expression.VariableId variable;
  uo_apart p1 p2 v1 v2 : port_variable node p1 v1 → port_variable node p2 v2 →
    target_of names v1 = target_of names v2 → p1 = p2;
}.
Definition data_node_ok (node : Node Slot) : Prop :=
  match required_arguments (n_function node) with
  | None => True
  | Some required =>
      (∀ i, i ∈ required → is_Some (n_arguments node !! i)) ∧
      (n_function node = SCATTER_FUNCTION_ID → ∃ sc, scatter_bind node = Ok sc) ∧
      (n_function node = UNPACK_FUNCTION_ID → unpack_ok node)
  end.

Lemma unpack_bound_ok node l : ∀ seen, NoDup l.*1 →
  (∃ bound, unpack_bound names node l seen = Ok bound) ↔
  (∀ param e, (param, e) ∈ l → param ≠ UNPACK_VALUES_PARAM_ID →
     is_Some (unpack_out_index param) ∧ ∃ variable, e = Expression.VariableId variable ∧ target_of names variable ∉ seen) ∧
  (∀ p1 p2 v1 v2, p1 ≠ UNPACK_VALUES_PARAM_ID → p2 ≠ UNPACK_VALUES_PARAM_ID →
     (p1, Expression.VariableId v1) ∈ l → (p2, Expression.VariableId v2) ∈ l →
     target_of names v1 = target_of names v2 → p1 = p2).
Proof.
  induction l as [|[param e] l IH]; intros seen Hd.
  - split; [|intros _; by eexists]. intros _. split; [intros ? ? H|intros ? ? ? ? _ _ H]; inversion H.
  - apply NoDup_cons in Hd as [Hn Hd]. cbn [unpack_bound]. destruct (Z.eqb_spec param UNPACK_VALUES_PARAM_ID) as [->|Hv].
    { rewrite IH by done. setoid_rewrite elem_of_cons. naive_solver. }
    destruct (unpack_out_index param) as [index|] eqn:Hi.
    2: { split; [by intros []|]. intros [H _]. destruct (H param e) as [[? ?] _]; [by left|done|congruence]. }
    destruct e as [| | |variable| | |];
      try (split; [by intros []|]; intros [H _];
           destruct (H param _ (list_elem_of_here _ _) Hv) as (_ & v0 & ? & _); congruence).
    case_decide as Hs.
    { split; [by intros []|]. intros [H _].
      destruct (H param _ (list_elem_of_here _ _) Hv) as (_ & v & [= <-] & ?). done. }
    specialize (IH (target_of names variable :: seen) Hd).
    assert ((∃ bound, match unpack_bound names node l (target_of names variable :: seen) with
                      | Ok bound => Ok (index :: bound) | Err e => Err e end = Ok bound)
            ↔ ∃ bound, unpack_bound names node l (target_of names variable :: seen) = Ok bound) as ->.
    { destruct (unpack_bound _ _ _ _); split; intros [b Hb]; by eexists. }
    rewrite IH. split.
    + intros [H1 H2]. split.
      * intros p e [[= -> ->]|Hin]%elem_of_cons Hp; [split; [by eexists|by exists variable]|].
        destruct (H1 p e Hin Hp) as (? & v & -> & Hv'). split; [done|]. exists v. set_solver.
      * intros p1 p2 v1 v2 Hp1 Hp2 [[= -> ->]|Hin1]%elem_of_cons [[= -> ->]|Hin2]%elem_of_cons Ht; try done.
        -- destruct (H1 _ _ Hin2 Hp2) as (_ & v & [= <-] & Hv'). set_solver.
        -- destruct (H1 _ _ Hin1 Hp1) as (_ & v & [= <-] & Hv'). set_solver.
        -- by eapply H2.
    + intros [H1 H2]. split.
      * intros p e Hin Hp. destruct (H1 p e (list_elem_of_further _ _ _ Hin) Hp) as (? & v & -> & Hv'). split; [done|]. exists v.
        split; [done|]. intros [Ht|]%elem_of_cons; [|done]. apply Hn.
        rewrite (H2 param p variable v) by (done || by left || by right).
        apply list_elem_of_fmap. by exists (p, Expression.VariableId v).
      * intros p1 p2 v1 v2 Hp1 Hp2 Hin1 Hin2. apply H2; try done; by right.
Qed.

Lemma elem_arguments (node : Node Slot) p e : (p, e) ∈ arguments_order node ↔ n_arguments node !! p = Some e.
Proof. rewrite arguments_permuted. apply elem_of_map_to_list. Qed.
Lemma NoDup_arguments (node : Node Slot) : NoDup (arguments_order node).*1.
Proof. rewrite (arguments_permuted node). apply NoDup_fst_map_to_list. Qed.

Lemma unpack_bound_indices node (l : list (Uuid * Expression Slot)) : ∀ seen bound, unpack_bound names node l seen = Ok bound →
  ∀ index, index ∈ bound → ∃ param e, (param, e) ∈ l ∧ unpack_out_index param = Some index.
Proof.
  induction l as [|[param e] l IH]; intros seen bound Hb index Hin; simpl in Hb; [injection Hb as <-; inversion Hin|].
  destruct (param =? UNPACK_VALUES_PARAM_ID).
  { destruct (IH _ _ Hb index Hin) as (p & e' & ? & ?). exists p, e'. split; [by right|done]. }
  destruct (unpack_out_index param) as [i|] eqn:Hi; [|done]. destruct e as [| | |v| | |]; try done. case_decide; [done|].
  destruct (unpack_bound names node l _) as [b|] eqn:Hbs; [|done]. injection Hb as <-.
  apply elem_of_cons in Hin as [->|Hin]; [eexists _, _; split; [by left|done]|].
  destruct (IH _ _ Hbs index Hin) as (p & e' & ? & ?). exists p, e'. split; [by right|done].
Qed.
Lemma unpack_out_nth param index : unpack_out_index param = Some index → nth index UNPACK_OUT_PARAM_IDS 0 = param.
Proof.
  unfold unpack_out_index. destruct (Z.ltb_spec param UNPACK_OUT_BASE); [done|].
  destruct (Z.ltb_spec (param - UNPACK_OUT_BASE) (Z.of_nat UNPACK_PORTS)) as [Hlt|]; [|done]. intros [= <-].
  unfold UNPACK_OUT_PARAM_IDS. rewrite nth_lookup, list_lookup_fmap, lookup_seq_lt by lia. simpl. lia.
Qed.

Lemma unpack_cells_ok node (cells : gmap NodeParameterId Cell) bound outputs :
  (∀ index, index ∈ bound → is_Some (cells !! mkNodeParameterId node (nth index UNPACK_OUT_PARAM_IDS 0))) →
  ∃ outputs', unpack_cells node cells bound outputs = Ok outputs'.
Proof.
  revert outputs. induction bound as [|i bound IH]; intros outputs Hb; [by eexists|]. cbn [unpack_cells].
  destruct (Hb i) as [c Hc]; [by left|]. unfold get_node_parameter_variable. rewrite Hc. apply IH. intros j Hj. apply Hb. by right.
Qed.

Lemma bind_data_node_ok node (cells : gmap NodeParameterId Cell) :
  (∀ p, is_Some (n_arguments node !! p) → is_Some (cells !! mkNodeParameterId (n_id node) p)) →
  (∃ o, bind_data_node names arguments_order node cells = Ok o) ↔ data_node_ok node.
Proof.
  intros Hcells. unfold bind_data_node, data_node_ok. destruct (required_arguments (n_function node)) as [required|] eqn:Hreq.
  2: { split; [done|]. intros _. by eexists. }
  destruct (list_find _ required) as [[i missing]|] eqn:Hf.
  { apply list_find_Some in Hf as (Hi & Hm & _). split; [by intros []|]. intros [H _].
    destruct (H missing) as [? ?]; [by eapply list_elem_of_lookup_2|congruence]. }
  assert (∀ i, i ∈ required → is_Some (n_arguments node !! i)) as Hl.
  { intros i Hi. apply list_find_None in Hf. rewrite Forall_forall in Hf. apply not_eq_None_Some. by apply Hf. }
  assert (SCATTER_FUNCTION_ID ≠ UNPACK_FUNCTION_ID) as Hne by done.
  destruct (Z.eqb_spec (n_function node) SCATTER_FUNCTION_ID) as [Hs|Hs].
  { rewrite Hs. destruct (scatter_bind node) as [sc|e]; split.
    - intros _. split; [done|]. split; [by eexists|done].
    - intros _. by eexists.
    - by intros [].
    - intros (_ & H & _). destruct (H eq_refl). done. }
  destruct (Z.eqb_spec (n_function node) UNPACK_FUNCTION_ID) as [Hu|Hu]; simpl.
  2: { split; [done|]. intros _. by eexists. }
  pose proof (unpack_bound_ok (n_id node) (arguments_order node) [] (NoDup_arguments node)) as Hb.
  assert ((∃ bound, unpack_bound names (n_id node) (arguments_order node) [] = Ok bound) ↔ unpack_ok node) as Hb'.
  { rewrite Hb. split.
    - intros [H1 H2]. split.
      + intros param e He Hp. apply elem_arguments in He. destruct (H1 _ _ He Hp) as (? & v & ? & _). naive_solver.
      + intros p1 p2 v1 v2 [? H3%elem_arguments] [? H4%elem_arguments] Ht. by eapply H2.
    - intros [H1 H2]. split.
      + intros param e He%elem_arguments Hp. destruct (H1 _ _ He Hp) as (? & v & ->). split; [done|]. exists v. set_solver.
      + intros p1 p2 v1 v2 Hp1 Hp2 H3%elem_arguments H4%elem_arguments Ht. by eapply H2. }
  destruct (unpack_bound names (n_id node) (arguments_order node) []) as [bound|e] eqn:Hub.
  - split; [intros _; split; [done|]; split; [done|]; intros _; apply Hb'; by eexists|]. intros _.
    destruct (unpack_cells_ok (n_id node) cells bound
      (replicate (foldr (λ i n, Nat.max (Datatypes.S i) n) O bound) None)) as [o Ho].
    { intros i Hi. destruct (unpack_bound_indices _ _ _ _ Hub i Hi) as (param & e & He%elem_arguments & Hp).
      rewrite (unpack_out_nth _ _ Hp). apply Hcells. by eexists. }
    rewrite Ho. by eexists.
  - split; [by intros []|]. intros (_ & _ & H). destruct (proj2 Hb' (H Hu)). done.
Qed.
Lemma bind_data_nodes_ok nodes cells : ∀ outputs,
  (∀ node p, node ∈ nodes → is_Some (n_arguments node !! p) → is_Some (cells !! mkNodeParameterId (n_id node) p)) →
  match bind_data_nodes names arguments_order nodes cells outputs with
  | Ok _ => Forall data_node_ok nodes
  | Err _ => ¬ Forall data_node_ok nodes
  end.
Proof.
  induction nodes as [|node nodes IH]; intros outputs Hc; [by constructor|]. cbn [bind_data_nodes].
  pose proof (bind_data_node_ok node cells (λ p, Hc node p (list_elem_of_here _ _))) as Hb.
  assert (∀ outputs, match bind_data_nodes names arguments_order nodes cells outputs with
    Ok _ => Forall data_node_ok nodes | Err _ => ¬ Forall data_node_ok nodes end) as IH'.
  { intros o. apply IH. intros n p Hn. apply Hc. by right. }
  destruct (bind_data_node names arguments_order node cells) as [o|e].
  - assert (data_node_ok node) as Hn by (apply Hb; by eexists).
    destruct o as [bound|]; [specialize (IH' (<[n_id node := bound]> outputs))|specialize (IH' outputs)];
      (destruct (bind_data_nodes _ _ _ _ _); [by constructor|]); intros H; apply IH'; by inversion H.
  - intros H. inversion H as [|? ? Hn]; subst. apply Hb in Hn as [? ?]. done.
Qed.
End DataNodes.

(** ** Loading *)
Section Loaded.
Context {S X : Type} `{DS : DataStore S} `{UC : UuidCrate}.
Local Abbreviation Slot := (@SlotHandle S _).
Local Abbreviation Cell := (VariableCell Slot).
Local Abbreviation W := (World S X).
Implicit Types n : Node Slot.
Implicit Types nodes listed : list (Node Slot).
Variable names : gmap Uuid string.

(** The nodes no node holds, and the arguments whose cell can be found. *)
Definition is_detached nodes n : Prop :=
  n ∈ nodes ∧ is_detachable (n_function n) (n_children n) = true ∧
  ∀ r, head nodes = Some r → ¬ holds (index_of nodes) (n_id r) (n_id n).
Inductive resolvable nodes : NodeParameterId → Prop :=
| resolvable_own p e : argument_at (index_of nodes) p = Some e → read_argument e = None → resolvable nodes p
| resolvable_port n : is_detached nodes n → n_arguments n !! _RET_PARAM_ID = None →
    resolvable nodes (mkNodeParameterId (n_id n) _RET_PARAM_ID)
| resolvable_reads p src : next_port (index_of nodes) p = Some src → resolvable nodes src → resolvable nodes p.
Definition loadable nodes : Prop :=
  nodes ≠ [] ∧ NoDup (n_id <$> nodes) ∧ (∀ p, is_Some (argument_at (index_of nodes) p) → resolvable nodes p) ∧
  Forall (data_node_ok names) nodes.

(** *** The nodes with their call-site cells *)
Section Sited.
Context {nodes listed : list (Node Slot)}.
Hypothesis HF : Forall2 sited_node nodes listed.
Hypothesis Hd : NoDup (n_id <$> nodes).

Lemma sited_ids : n_id <$> listed = n_id <$> nodes.
Proof. clear Hd. revert HF. induction 1 as [|n n' l l' (Hi & _) _ IH]; [done|]. by rewrite !fmap_cons, Hi, IH. Qed.
Lemma sited_index i : option_Forall2 sited_node (index_of nodes !! i) (index_of listed !! i).
Proof.
  clear Hd. unfold index_of. revert HF. induction 1 as [|n n' l l' Hn _ IH]; [constructor|]. simpl.
  destruct Hn as (Hi & Hn). rewrite Hi. destruct (decide (n_id n = i)) as [->|].
  - rewrite !lookup_insert_eq. constructor. by split.
  - by rewrite !lookup_insert_ne.
Qed.
Lemma sited_argument_at p : option_Forall2 sited (argument_at (index_of nodes) p) (argument_at (index_of listed) p).
Proof.
  unfold argument_at. destruct (sited_index (np_node p)) as [n n' (_ & _ & _ & Ha)|]; [apply Ha|constructor].
Qed.
Lemma sited_next_port p : next_port (index_of listed) p = next_port (index_of nodes) p.
Proof.
  rewrite !next_port_argument. destruct (sited_argument_at p) as [e e' He|]; [by apply sited_read|done].
Qed.
Lemma sited_holds root i : holds (index_of listed) root i ↔ holds (index_of nodes) root i.
Proof.
  split; induction 1 as [|i n c Hi IH Hn Hc]; try constructor; pose proof (sited_index i) as Hs; rewrite Hn in Hs; inversion Hs as [n1 n2 (_ & _ & Hch & _)|]; subst.
  - eapply holds_child; [done|by symmetry|by rewrite <- Hch].
  - eapply holds_child; [done|by symmetry|by rewrite Hch].
Qed.
Lemma sited_head : n_id <$> head listed = n_id <$> head nodes.
Proof. destruct HF as [|n n' l l' (Hi & _)]; [done|]. simpl. by rewrite Hi. Qed.

Lemma sited_data_node n n' : sited_node n n' → data_node_ok names n' ↔ data_node_ok names n.
Proof.
  intros (Hi & Hf & _ & Ha). unfold data_node_ok. rewrite Hf. destruct (required_arguments (n_function n)); [|done].
  assert (∀ p, is_Some (n_arguments n' !! p) ↔ is_Some (n_arguments n !! p)) as H1.
  { intros p. destruct (Ha p); [|done]. split; by eexists. }
  assert ((∃ sc, scatter_bind n' = Ok sc) ↔ ∃ sc, scatter_bind n = Ok sc) as H2.
  { unfold scatter_bind. rewrite Hi. destruct (Ha SCATTER_WITHIN_PARAM_ID) as [e e' He|]; [|done].
    destruct e; simpl in He; try (by subst e'); (destruct He as (? & -> & _) || destruct He as (? & ->)); split; by intros []. }
  assert (∀ p v, n_arguments n' !! p = Some (Expression.VariableId v) ↔ n_arguments n !! p = Some (Expression.VariableId v)) as H3.
  { intros p v. destruct (Ha p) as [e e' He|]; [|done]. destruct e; simpl in He; naive_solver. }
  assert (unpack_ok names n' ↔ unpack_ok names n) as H4.
  { split; intros [U1 U2]; split.
    - intros param e He Hp. destruct (proj2 (H1 param)) as [e' He']; [by eexists|].
      destruct (U1 _ _ He' Hp) as (? & v & ->). split; [done|]. exists v. apply H3 in He'. congruence.
    - intros p1 p2 v1 v2 [? Hp1%H3] [? Hp2%H3]. by apply U2.
    - intros param e He Hp. destruct (proj1 (H1 param)) as [e' He']; [by eexists|].
      destruct (U1 _ _ He' Hp) as (? & v & ->). split; [done|]. exists v. apply H3 in He'. congruence.
    - intros p1 p2 v1 v2 [? Hp1%H3] [? Hp2%H3]. by apply U2. }
  setoid_rewrite H1. by rewrite H2, H4.
Qed.
Lemma sited_data_nodes : Forall (data_node_ok names) listed ↔ Forall (data_node_ok names) nodes.
Proof.
  clear Hd. revert HF. induction 1 as [|n n' l l' Hn _ IH]; [done|]. rewrite !Forall_cons, IH. by rewrite (sited_data_node n n').
Qed.

(** *** The detached nodes *)
Variable attached : gset Uuid.
Hypothesis Hattached : ∀ i, i ∈ attached ↔ ∃ r, head listed = Some r ∧ holds (index_of listed) (n_id r) i.
Local Abbreviation detached_ids := (list_to_set (n_id <$> select_detached listed attached) : gset Uuid).

Lemma listed_lookup i n : index_of listed !! i = Some n ↔ n ∈ listed ∧ n_id n = i.
Proof. apply index_of_lookup. by rewrite sited_ids. Qed.
Lemma elem_select n : n ∈ select_detached listed attached ↔
  n ∈ listed ∧ n_id n ∉ attached ∧ is_detachable (n_function n) (n_children n) = true.
Proof. clear HF Hd Hattached. unfold select_detached. rewrite list_elem_of_filter. naive_solver. Qed.
Lemma attached_head i : i ∈ attached ↔ ∃ r, head nodes = Some r ∧ holds (index_of nodes) (n_id r) i.
Proof.
  rewrite Hattached. pose proof sited_head as Hh.
  destruct (head listed) as [r'|], (head nodes) as [r|]; try done; [|naive_solver]. injection Hh as Hh.
  split; intros (r0 & [= <-] & H); eexists; (split; [done|]).
  - rewrite <- Hh. by apply sited_holds.
  - rewrite Hh. by apply sited_holds.
Qed.
Lemma port_iff p : is_port (index_of listed) detached_ids p ↔
  ∃ n, is_detached nodes n ∧ n_arguments n !! _RET_PARAM_ID = None ∧ p = mkNodeParameterId (n_id n) _RET_PARAM_ID.
Proof.
  assert (∀ n n', sited_node n n' → n ∈ nodes → n' ∈ listed →
    n' ∈ select_detached listed attached ↔ is_detached nodes n) as Hsel.
  { intros n n' (Hi & Hf & Hc & _) Hn Hn'. rewrite elem_select, Hi, Hf, Hc, attached_head. unfold is_detached. naive_solver. }
  unfold is_port. rewrite elem_of_list_to_set, list_elem_of_fmap. split.
  - intros ((n' & Hid & Hin') & Hp & Ha). pose proof (proj1 (elem_select n') Hin') as (Hin & _ & _).
    pose proof (sited_index (np_node p)) as Hs.
    rewrite (proj2 (listed_lookup (np_node p) n')) in Hs by done. inversion Hs as [n n2 Hsn Hn|]; subst.
    symmetry in Hn. apply index_of_lookup in Hn as [Hn Hni]; [|done]. exists n. split; [by eapply Hsel|].
    destruct p as [pn pp]. simpl in *. subst pp. split; [|by rewrite Hni].
    unfold argument_at in Ha. cbn [np_node np_parameter] in Ha. rewrite (proj2 (listed_lookup pn n')) in Ha by done. simpl in Ha.
    pose proof (proj2 (proj2 (proj2 Hsn)) _RET_PARAM_ID) as Hret. rewrite Ha in Hret. by inversion Hret.
  - intros (n & Hdet & Hret & ->). pose proof (proj1 Hdet) as Hn. pose proof (sited_index (n_id n)) as Hs.
    rewrite (proj2 (index_of_lookup nodes (n_id n) n Hd)) in Hs by done. inversion Hs as [n1 n' Hsn Hn'|]; subst.
    match goal with H : Some n' = _ |- _ => symmetry in H; rename H into Hl end.
    pose proof Hl as Hl'. apply listed_lookup in Hl' as [Hin Hid]. simpl. split.
    + exists n'. split; [by rewrite Hid|]. by eapply (Hsel n).
    + split; [done|]. unfold argument_at. simpl. rewrite Hl. simpl.
      pose proof (proj2 (proj2 (proj2 Hsn)) _RET_PARAM_ID) as Hr. rewrite Hret in Hr. by inversion Hr.
Qed.
Lemma grounded_iff p : grounded (index_of listed) detached_ids p ↔ resolvable nodes p.
Proof.
  split.
  - induction 1 as [p e Ha Hr|p Hp|p src Hn _ IH].
    + pose proof (sited_argument_at p) as Hs. rewrite Ha in Hs. inversion Hs as [e0 e1 He He0|]; subst.
      eapply resolvable_own; [by symmetry|]. by rewrite <- (sited_read _ _ He).
    + apply port_iff in Hp as (n & Hdet & Hret & ->). by apply resolvable_port.
    + rewrite sited_next_port in Hn. by eapply resolvable_reads.
  - induction 1 as [p e Ha Hr|n Hdet Hret|p src Hn _ IH].
    + pose proof (sited_argument_at p) as Hs. rewrite Ha in Hs. inversion Hs as [e0 e1 He He0|]; subst.
      match goal with H : Some e1 = _ |- _ => eapply grounded_own; [symmetry; exact H|] end. by rewrite (sited_read _ _ He).
    + apply grounded_port, port_iff. by exists n.
    + rewrite <- sited_next_port in Hn. by eapply grounded_reads.
Qed.
End Sited.
End Loaded.

Section Theorems.
Context {S X : Type} `{DS : DataStore S} `{UC : UuidCrate}.
Local Abbreviation Slot := (@SlotHandle S _).
Local Abbreviation Cell := (VariableCell Slot).
Local Abbreviation W := (World S X).
Variable resolver : Resolver S.
Variable names : gmap Uuid string.
Variable arguments_order : Node Slot → list (Uuid * Expression Slot).
Variable nodes_order : gmap Uuid (Node Slot) → list (Node Slot).
Variable readers_order : gmap NodeParameterId NodeParameterId → list NodeParameterId.
Hypothesis arguments_permuted : ∀ n, arguments_order n ≡ₚ map_to_list (n_arguments n).
Hypothesis nodes_permuted : ∀ m, nodes_order m ≡ₚ (map_to_list m).*2.
Hypothesis readers_permuted : ∀ m, readers_order m ≡ₚ (map_to_list m).*1.
Local Abbreviation load := (load_behavior_tree_nodes_with (X := X) resolver names arguments_order nodes_order readers_order).
Local Abbreviation Load := (Loading.Load (S := S) (X := X)).
Implicit Types nodes listed : list (Node Slot).

Lemma ports_run detached : ∀ s : Load, ∃ s', t_for detached port_of s = Some (Ok tt, s') ∧ adds s s' ∧
  ld_bindings s' = ld_bindings s ∧ ld_fed s' = ld_fed s ∧
  ∀ p, is_Some (ld_cells s' !! p) ↔ is_Some (ld_cells s !! p) ∨
    ∃ n, n ∈ detached ∧ n_arguments n !! _RET_PARAM_ID = None ∧ p = mkNodeParameterId (n_id n) _RET_PARAM_ID.
Proof.
  induction detached as [|n detached IH]; intros s.
  - exists s. do 4 (split; [done|]). intros p. split; [by left|]. intros [|(n & Hn & _)]; [done|inversion Hn].
  - cbn [t_for]. rewrite bind_run. destruct (n_arguments n !! _RET_PARAM_ID) as [e|] eqn:Hr.
    + assert (port_of n s = Some (Ok tt, s)) as -> by (unfold port_of; by rewrite Hr).
      destruct (IH s) as (s' & Hs' & Ha & Hb & Hf & Hc). exists s'. split; [exact Hs'|]. do 3 (split; [done|]).
      intros p. rewrite Hc. setoid_rewrite elem_of_cons. naive_solver.
    + destruct (fresh_aside None s) as (c & s1 & Hs1 & (Ha1 & Hc1 & Hb1 & Hf1) & _).
      set (s2 := mkLoad (ld_world s1) (ld_variables s1) (<[mkNodeParameterId (n_id n) _RET_PARAM_ID := c]> (ld_cells s1))
                   (ld_bindings s1) (ld_fed s1)).
      assert (port_of n s = Some (Ok tt, s2)) as -> by (unfold port_of; by rewrite Hr, bind_run, Hs1).
      destruct (IH s2) as (s' & Hs' & Ha & Hb & Hf & Hc).
      exists s'. split; [exact Hs'|]. split; [by eapply adds_trans|]. split; [by rewrite Hb|]. split; [by rewrite Hf|].
      intros p. rewrite Hc. simpl. rewrite Hc1. destruct (decide (p = mkNodeParameterId (n_id n) _RET_PARAM_ID)) as [->|Hp].
      * rewrite lookup_insert_eq. split; [intros _|intros _; left; by eexists]. right. exists n. split; [by left|done].
      * rewrite lookup_insert_ne by done. setoid_rewrite elem_of_cons. naive_solver.
Qed.

Lemma elem_pending listed p e : NoDup (n_id <$> listed) →
  (p, e) ∈ pending_arguments arguments_order listed ↔ argument_at (index_of listed) p = Some e.
Proof.
  intros Hd. unfold pending_arguments, argument_at. rewrite list_elem_of_bind. split.
  - intros (n & Hin & Hn). apply list_elem_of_fmap in Hin as ([q e'] & [= -> ->] & Hq).
    rewrite arguments_permuted in Hq. apply elem_of_map_to_list in Hq. simpl.
    rewrite (proj2 (index_of_lookup listed (n_id n) n Hd)) by done. done.
  - intros H. apply bind_Some in H as (n & Hn & He). apply index_of_lookup in Hn as [Hn Hi]; [|done].
    exists n. split; [|done]. apply list_elem_of_fmap. exists (np_parameter p, e). split; [by destruct p; simpl in *; subst|].
    rewrite arguments_permuted. by apply elem_of_map_to_list.
Qed.
Lemma NoDup_pending listed : NoDup (n_id <$> listed) → NoDup (pending_arguments arguments_order listed).*1.
Proof.
  unfold pending_arguments. induction listed as [|n listed IH]; [constructor|]. rewrite fmap_cons. intros [Hn Hd]%NoDup_cons.
  rewrite bind_cons, fmap_app, <- list_fmap_compose. apply NoDup_app. split; [|split; [|by apply IH]].
  - apply (NoDup_fmap_2_strong (λ a : Uuid * Expression Slot, mkNodeParameterId (n_id n) a.1)).
    + intros [q e] [q' e'] Hq Hq' [= <-]. f_equal. apply (elem_arguments _ arguments_permuted) in Hq, Hq'. congruence.
    + rewrite (arguments_permuted n). apply NoDup_map_to_list.
  - intros p Hp Hp'. apply Hn. apply list_elem_of_fmap in Hp as (a & -> & _).
    apply list_elem_of_fmap in Hp' as ([p' e] & Hpe & Hin). apply list_elem_of_bind in Hin as (n' & Hin & Hn').
    apply list_elem_of_fmap in Hin as (a' & [= -> ->] & _). simpl in Hpe. injection Hpe as ->. by apply list_elem_of_fmap_2.
Qed.

(** What a loaded tree is. *)
Definition has_own_cell (t : LoadedTree) (p : NodeParameterId) (c : Cell) : Prop :=
  np_node p ∈ n_id <$> lt_detached t ∧ is_stored c = true ∧ lt_bindings t !! p = Some c.
Definition tree_index (t : LoadedTree (S := S)) : gmap Uuid (Node Slot) := node_index (lt_tree t).
Definition cell_of (t : LoadedTree) (p : NodeParameterId) : option Cell := node_arg_variables (lt_tree t) !! p.
Definition chains_end (t : LoadedTree (S := S)) : Prop :=
  ∀ q, next_port (tree_index t) (follow (size (tree_index t)) (tree_index t) q) = None.
Definition detached_ids_of (t : LoadedTree (S := S)) : gset Uuid := list_to_set (n_id <$> lt_detached t).
(** Its nodes are told apart by their ids, and the root holds no detached one. *)
Record placed (t : LoadedTree (S := S)) : Prop := {
  pl_ids i n : tree_index t !! i = Some n → n_id n = i;
  pl_root : tree_index t !! n_id (bt_root (lt_tree t)) = Some (bt_root (lt_tree t));
  pl_distinct : NoDup (n_id <$> lt_detached t);
  pl_apart n : n ∈ lt_detached t → ¬ holds (tree_index t) (n_id (bt_root (lt_tree t))) (n_id n);
}.
Record loaded (nodes : list (Node Slot)) (t : LoadedTree) (w : W) : Prop := {
  lo_placed : placed t;
  lo_index : ∃ listed, Forall2 sited_node nodes listed ∧ tree_index t = index_of listed ∧ head listed = Some (bt_root (lt_tree t));
  lo_detached n : n ∈ lt_detached t → ∃ n0, is_detached nodes n0 ∧ sited_node n0 n;
  lo_cells p : is_Some (argument_at (tree_index t) p) → is_Some (cell_of t p);
  lo_shares : chains_end t → ∀ p src, next_port (tree_index t) p = Some src →
    cell_of t p = cell_of t src ∨ ∃ c, has_own_cell t p c ∧ cell_of t src = Some c;
  lo_owns p e : argument_at (tree_index t) p = Some e →
    match selected_source e with
    | Expression.Value v => ∃ l, cell_of t p = Some (Local l) ∧ heap w !! l = Some (Some v)
    | Expression.VariableId i => ∃ c, bt_variables (lt_tree t) !! i = Some c ∧
        (cell_of t p = Some c ∨ has_own_cell t p c
         ∨ (feeds (tree_index t) (detached_ids_of t) p ∧ ∃ l, cell_of t p = Some (Local l)))
    | _ => True
    end;
}.

Lemma held_start listed : ∃ attached,
  held_ids (enough_held (index_of listed)) (index_of listed) (match head listed with Some r => [n_id r] | None => [] end) ∅
    = Some attached ∧
  ∀ i, i ∈ attached ↔ ∃ r, head listed = Some r ∧ holds (index_of listed) (n_id r) i.
Proof.
  destruct (head listed) as [r|].
  - destruct (held_ids_spec (index_of listed) (n_id r)) as (attached & ? & Hs). exists attached. split; [done|].
    intros i. rewrite Hs. naive_solver.
  - exists ∅. split; [by destruct (enough_held _)|]. set_solver.
Qed.

(** From the nodes indexed to the tree. *)
Section Steps.
Context {nodes listed : list (Node Slot)} {attached : gset Uuid}.
Hypothesis HF : Forall2 sited_node nodes listed.
Hypothesis Hd : NoDup (n_id <$> nodes).
Hypothesis Hattached : ∀ i, i ∈ attached ↔ ∃ r, head listed = Some r ∧ holds (index_of listed) (n_id r) i.
Local Abbreviation index := (index_of listed).
Local Abbreviation detached := (select_detached listed attached).
Local Abbreviation ids := (list_to_set (n_id <$> detached) : gset Uuid).
Local Abbreviation pending := (pending_arguments arguments_order listed).

Lemma listed_NoDup : NoDup (n_id <$> listed).
Proof. by rewrite (sited_ids HF). Qed.
Lemma listed_index n : n ∈ listed → index !! n_id n = Some n.
Proof. intros Hn. by apply index_of_lookup; [apply listed_NoDup|]. Qed.
Lemma index_ids_listed i n : index !! i = Some n → n_id n = i.
Proof. intros H. by apply index_of_lookup in H as [_ ?]; [|apply listed_NoDup]. Qed.
Lemma elem_todo p : p ∈ (list_to_set pending.*1 : gset NodeParameterId) ↔ is_Some (argument_at index p).
Proof.
  rewrite elem_of_list_to_set, list_elem_of_fmap. split.
  - intros ([q e] & -> & Hin). eexists. by apply elem_pending; [apply listed_NoDup|].
  - intros [e He]. exists (p, e). split; [done|]. by apply elem_pending; [apply listed_NoDup|].
Qed.
Lemma todo_pending_ok : pending_ok index (list_to_set pending.*1) pending.
Proof.
  split; [apply NoDup_pending, listed_NoDup|]. intros p e Hin. split; [|by apply elem_pending; [apply listed_NoDup|]].
  apply elem_of_list_to_set. apply list_elem_of_fmap. by exists (p, e).
Qed.
Lemma port_argument n : n ∈ detached → n_arguments n !! _RET_PARAM_ID = None →
  is_port index ids (mkNodeParameterId (n_id n) _RET_PARAM_ID).
Proof.
  intros Hn Hr. split; [simpl; apply elem_of_list_to_set; by apply list_elem_of_fmap_2|]. split; [done|].
  apply (elem_select attached) in Hn as (Hin & _). unfold argument_at. simpl. by rewrite (listed_index n).
Qed.

(** Once the detached nodes' returns have their ports, all arguments are to do. *)
Lemma ports_swept (s1 s2 : Load) :
  ld_cells s1 = ∅ → ld_fed s2 = ∅ →
  (∀ p, is_Some (ld_cells s2 !! p) ↔ is_Some (ld_cells s1 !! p) ∨
    ∃ n, n ∈ detached ∧ n_arguments n !! _RET_PARAM_ID = None ∧ p = mkNodeParameterId (n_id n) _RET_PARAM_ID) →
  swept index ids (list_to_set pending.*1) s2.
Proof.
  intros Hc1 Hf2 Hc2. assert (∀ p e, argument_at index p = Some e → p ∉ (list_to_set pending.*1 : gset _) → False) as Hall.
  { intros p e He Hp. apply Hp, elem_todo. by eexists. }
  split.
  - intros p. rewrite Hc2, Hc1, elem_todo. split.
    + intros [[? H]|(n & Hn & Hr & ->)]; [done|left]. by apply port_argument.
    + intros [(Hin & Hp & Harg)|[? ?]]; [right|done]. apply elem_of_list_to_set, list_elem_of_fmap in Hin as (n & Hid & Hn).
      exists n. split; [done|]. destruct p as [pn pp]. simpl in *. subst. split; [|done].
      apply (elem_select attached) in Hn as (Hin & _). unfold argument_at in Harg. simpl in Harg.
      by rewrite (listed_index n Hin) in Harg.
  - intros p src Hn Hp. exfalso. rewrite next_port_argument in Hn. destruct (argument_at index p) eqn:He; [by eapply Hall|done].
  - intros p e He Hp. exfalso. by eapply Hall.
  - intros f Hf. rewrite Hf2 in Hf. by apply not_elem_of_empty in Hf.
  - intros p Hp. apply grounded_port. apply Hc2 in Hp as [[? H]|(n & Hn & Hr & ->)]; [by rewrite Hc1 in H|].
    by apply port_argument.
Qed.

Section Done.
Variables s3 s4 : Load.
Hypothesis Hsw : swept index ids ∅ s3.
Lemma all_grounded p : is_Some (argument_at index p) → grounded index ids p.
Proof. intros Hp. apply (sw_grounded _ _ _ _ Hsw), (sw_dom _ _ _ _ Hsw). right. split; [exact Hp|apply not_elem_of_empty]. Qed.
Lemma readers_grounded p : is_Some (next_port index p) → grounded index ids p.
Proof.
  intros [src Hp]. apply all_grounded. rewrite next_port_argument in Hp. destruct (argument_at index p); [by eexists|done].
Qed.
Lemma all_resolvable p : is_Some (argument_at (index_of nodes) p) → resolvable nodes p.
Proof.
  intros Hp. apply (grounded_iff HF Hd attached Hattached). apply all_grounded.
  destruct (sited_argument_at HF p); [by eexists|by destruct Hp].
Qed.
Lemma fed_has_cell f : f ∈ ld_fed s3 → is_Some (ld_cells s3 !! f).
Proof. clear HF Hd Hattached. intros Hf. destruct (sw_fed _ _ _ _ Hsw f Hf) as [_ [l Hl]]. by eexists. Qed.

Hypothesis Hc4 : ∀ p, ld_cells s4 !! p = shared_cell index (ld_fed s3) (ld_cells s3) p.
Lemma all_have_cells p : is_Some (argument_at index p) → is_Some (ld_cells s4 !! p).
Proof.
  intros Hp. rewrite Hc4. unfold shared_cell. destruct (fed_by _ _ p) as [f|] eqn:Hf.
  - destruct (grounded_runs _ _ p (all_grounded p Hp)) as [n Hr].
    apply fed_has_cell. by apply (fed_by_last index index_ids_listed (ld_fed s3) p n Hr f Hf).
  - apply (sw_dom _ _ _ _ Hsw). right. split; [exact Hp|apply not_elem_of_empty].
Qed.
Lemma unread_cell p e : argument_at index p = Some e → (∀ src, selected_source e ≠ Expression.NodeArgument src) →
  ld_cells s4 !! p = ld_cells s3 !! p.
Proof.
  intros He Hns. rewrite Hc4. unfold shared_cell. rewrite fed_by_end; [done|apply index_ids_listed|].
  rewrite next_port_argument, He. simpl. destruct (read_argument e) as [src|] eqn:Hr; [|done].
  by destruct (Hns src), (selected_read e src Hr).
Qed.

Lemma is_loaded (w : W) root outputs :
  ld_world s4 = ld_world s3 → ld_variables s4 = ld_variables s3 → ld_bindings s4 = ld_bindings s3 →
  share_all readers_order index s3 = Some (Ok tt, s4) → head listed = Some root →
  loaded nodes (mkLoadedTree (mkBehaviorTree root index (ld_variables s4) (ld_cells s4) outputs) detached (ld_bindings s4)) (ld_world s4).
Proof.
  intros Hw4 Hv4 Hb4 Hs4 Hroot. set (t := mkLoadedTree _ _ _).
  assert (∀ p c, bound_to ids s4 p c → has_own_cell t p c) as Hown.
  { intros p c (Hin & Hst & Hb). split; [by apply elem_of_list_to_set in Hin|done]. }
  split.
  - split.
    + exact index_ids_listed.
    + apply listed_index. destruct listed; [done|]. injection Hroot as ->. by left.
    + eapply sublist_NoDup; [apply listed_NoDup|]. apply fmap_sublist. apply sublist_filter.
    + intros n Hn. pose proof (proj1 (elem_select attached n) Hn) as (_ & Hna & _).
      intros Hh. apply Hna, Hattached. by exists root.
  - by exists listed.
  - intros n Hn. pose proof (proj1 (elem_select attached n) Hn) as (Hin & Hna & Hdt).
    apply list_elem_of_lookup in Hin as [k Hk]. destruct (Forall2_lookup_r _ _ _ _ _ HF Hk) as (n0 & Hn0 & Hsn).
    exists n0. split; [|done]. destruct Hsn as (Hi & Hfn & Hch & _). rewrite Hi, Hfn, Hch in *.
    split; [by eapply list_elem_of_lookup_2|]. split; [done|].
    intros r Hr Hh. apply Hna. apply (attached_head HF Hd attached Hattached). by exists r.
  - exact all_have_cells.
  - intros Hshort p src Hn.
    destruct (share_all_shares _ ids index_ids_listed readers_order readers_permuted s3 s4 Hsw Hshort readers_grounded Hs4 p src Hn)
      as [?|(c & Hc & Hcs)]; [by left|right]. exists c. split; [by apply Hown|done].
  - intros p e He. pose proof (sw_owns _ _ _ _ Hsw p e He ltac:(set_solver)) as Ho. unfold owns in Ho.
    pose proof (unread_cell p e He) as Hsame. unfold cell_of, t. cbn [lt_tree node_arg_variables bt_variables].
    destruct (selected_source e) as [v| | |i| | |]; try done.
    + destruct Ho as (l & Hl & Hh). exists l. rewrite Hsame, Hw4 by done. done.
    + destruct Ho as (c & Hc & Hor). exists c. rewrite Hsame, Hv4 by done. split; [done|].
      destruct Hor as [Hfed|[Hor|(Hdt & Hst & Hb)]]; [right; right; by apply (sw_fed _ _ _ _ Hsw)|by left|right; left].
      apply Hown. split; [done|]. split; [done|]. by rewrite Hb4.
Qed.
End Done.

Lemma listed_nodes n : n ∈ nodes_order index ↔ n ∈ listed.
Proof.
  rewrite nodes_permuted, list_elem_of_fmap. split.
  - intros ([i m] & -> & Hm%elem_of_map_to_list). by apply index_of_lookup in Hm as [? _]; [|apply listed_NoDup].
  - intros Hn. exists (n_id n, n). split; [done|]. apply elem_of_map_to_list. by apply listed_index.
Qed.
Lemma data_nodes_listed : Forall (data_node_ok names) (nodes_order index) ↔ Forall (data_node_ok names) nodes.
Proof. rewrite <- (sited_data_nodes names HF). rewrite !Forall_forall. by setoid_rewrite listed_nodes. Qed.
End Steps.

Lemma load_run nodes w : ∃ r w', load nodes w = Some (r, w') ∧
  match r with Err _ => ¬ loadable names nodes | Ok t => loadable names nodes ∧ loaded nodes t w' end.
Proof.
  unfold load_behavior_tree_nodes_with.
  assert (∃ r s', load_nodes resolver names arguments_order nodes_order readers_order nodes (mkLoad w ∅ ∅ ∅ ∅) = Some (r, s') ∧
    match r with Err _ => ¬ loadable names nodes | Ok t => loadable names nodes ∧ loaded nodes t (ld_world s') end)
    as (r & s' & -> & H); [|by exists r, (ld_world s')].
  unfold load_nodes. rewrite bind_run.
  destruct (index_nodes_run arguments_order arguments_permuted nodes [] (mkLoad w ∅ ∅ ∅ ∅)) as (s1 & (_ & Hc1 & _ & Hf1) & Hi); [constructor|].
  change (index_of []) with (∅ : gmap Uuid (Node Slot)) in Hi.
  destruct (index_nodes arguments_order nodes ∅ [] _) as [[[[index listed]|e] s1']|]; [| |done].
  2: { destruct Hi as [-> Hdup]. eexists _, _. split; [done|]. intros (_ & Hd & _). done. }
  destruct Hi as (-> & Hd & -> & new & Hnew & HF). simpl in Hnew, Hd, Hc1, Hf1. subst listed. rename new into listed.
  destruct (held_start listed) as (attached & Hatt & Hattached). rewrite bind_run, Hatt. cbn [mret T_ret].
  destruct (ports_run (select_detached listed attached) s1) as (s2 & Hs2 & _ & _ & Hf2 & Hc2). rewrite bind_run, Hs2.
  pose proof (ports_swept HF Hd s1 s2 Hc1 ltac:(by rewrite Hf2) Hc2) as Hsw.
  pose proof (sweeps_run resolver names (index_of listed) _ (Datatypes.S (length (pending_arguments arguments_order listed)))
    _ _ s2 Hsw (todo_pending_ok HF Hd) ltac:(intros p; by rewrite elem_of_list_to_set) ltac:(lia)) as Hsweeps.
  rewrite bind_run. destruct (sweeps _ _ _ _ _ _ s2) as [[[[]|e] s3]|]; [| |done].
  2: { eexists _, _. split; [done|]. intros (_ & _ & Hres & _). destruct Hsweeps as (p & Hp & Hg). apply Hg.
       apply (grounded_iff HF Hd attached Hattached). apply Hres.
       destruct (sited_argument_at HF p); [by eexists|by destruct Hp]. }
  destruct Hsweeps as [Hsw3 _].
  destruct (share_all_run (index_of listed) _ (index_ids_listed HF Hd) readers_order readers_permuted s3
              (readers_grounded s3 Hsw3) (fed_has_cell s3 Hsw3)) as (s4 & Hs4 & Hw4 & Hv4 & Hb4 & _ & Hc4).
  rewrite bind_run, Hs4. cbn beta iota. rewrite bind_run. unfold t_gets at 1, Datatypes.id at 1. cbn beta iota.
  rewrite bind_run. unfold t_of at 1.
  pose proof (bind_data_nodes_ok names arguments_order arguments_permuted (nodes_order (index_of listed)) (ld_cells s4) ∅) as Hbind.
  assert (∀ n p, n ∈ nodes_order (index_of listed) → is_Some (n_arguments n !! p) →
    is_Some (ld_cells s4 !! mkNodeParameterId (n_id n) p)) as Hcells.
  { intros n p Hn%(listed_nodes HF Hd) Hp. apply (all_have_cells HF Hd s3 s4 Hsw3 Hc4). unfold argument_at. simpl.
    by rewrite (listed_index HF Hd n Hn). }
  specialize (Hbind Hcells). destruct (bind_data_nodes _ _ _ _ ∅) as [outputs|e]; cbn beta iota.
  2: { eexists _, _. split; [done|]. intros (_ & _ & _ & Hall). by apply Hbind, (data_nodes_listed HF Hd). }
  rewrite bind_run. destruct (head listed) as [root|] eqn:Hroot in |- *; cbn beta iota.
  2: { eexists _, _. split; [done|]. intros (Hne & _). apply Hne. destruct listed; [by inversion HF|done]. }
  eexists _, _. split; [reflexivity|]. split; [|by eapply is_loaded].
  split; [intros ->; by inversion HF; subst|]. split; [done|]. split; [|by apply (data_nodes_listed HF Hd)].
  by apply (all_resolvable HF Hd Hattached s3).
Qed.

Lemma load_placed nodes (t : LoadedTree) (w w' : W) : load nodes w = Some (Ok t, w') → placed t.
Proof.
  destruct (load_run nodes w) as (r & w1 & Hr & H). intros Hload. rewrite Hload in Hr. injection Hr as <- <-.
  destruct H as [_ H]. apply (lo_placed _ _ _ H).
Qed.

(** C32. Loading always ends, whatever the nodes, the store and the orders of the
    hash maps: it succeeds exactly when there is a root, no two nodes share an id,
    every argument that reads another node's leads, in the end, to an argument that
    reads none or to a detached node's return, and every data node's arguments are
    what they must be. *)
Theorem load_accepts nodes (w : W) :
  ∃ r w', load nodes w = Some (r, w')
          ∧ ((∃ t, r = Ok t) ↔ loadable names nodes).
Proof.
  destruct (load_run nodes w) as (r & w' & Hr & H).
  exists r, w'. split; [done|]. destruct r as [t|e]; [destruct H; split; [done|by eexists]|].
  split; [by intros []|done].
Qed.

(** In a loaded tree, an argument that reads another node's argument has that
    argument's cell, through any selections and any number of arguments between
    them, whichever cells detached nodes feed; but for a detached node's argument
    that reads a store key, which has a cell of its own that publishes to the key. *)
Theorem loaded_arguments_share nodes (t : LoadedTree) (w w' : W) (p src : NodeParameterId)
    (Hload : load nodes w = Some (Ok t, w'))
    (Hends : chains_end t) (Hreads : next_port (tree_index t) p = Some src) :
  is_Some (cell_of t p) ∧
  (cell_of t p = cell_of t src ∨ ∃ c, has_own_cell t p c ∧ cell_of t src = Some c).
Proof.
  destruct (load_run nodes w) as (r & w1 & Hr & H).
  rewrite Hload in Hr. injection Hr as <- <-. destruct H as [_ H]. split; [|by apply (lo_shares _ _ _ H)].
  apply (lo_cells _ _ _ H). rewrite next_port_argument in Hreads. by destruct (argument_at _ p).
Qed.

(** In a loaded tree, a literal argument's cell holds the literal, and an
    argument bound to a variable has the cell of the variable, which every argument
    bound to it has; but for a detached node's argument bound to a store key, whose
    own cell publishes to it, and an input that a detached node's return feeds. *)
Theorem loaded_cells_hold nodes (t : LoadedTree) (w w' : W) (p : NodeParameterId) (e : Expression Slot)
    (Hload : load nodes w = Some (Ok t, w'))
    (He : argument_at (tree_index t) p = Some e) :
  match selected_source e with
  | Expression.Value v => ∃ l, cell_of t p = Some (Local l) ∧ heap w' !! l = Some (Some v)
  | Expression.VariableId i => ∃ c, bt_variables (lt_tree t) !! i = Some c ∧
      (cell_of t p = Some c ∨ has_own_cell t p c
       ∨ (feeds (tree_index t) (detached_ids_of t) p ∧ ∃ l, cell_of t p = Some (Local l)))
  | _ => is_Some (cell_of t p)
  end.
Proof.
  destruct (load_run nodes w) as (r & w1 & Hr & H).
  rewrite Hload in Hr. injection Hr as <- <-. destruct H as [_ H].
  pose proof (lo_owns _ _ _ H p e He) as Ho. pose proof (lo_cells _ _ _ H p ltac:(by eexists)) as Hc.
  by destruct (selected_source e).
Qed.

End Theorems.

(** What an input fed by a detached node's return shares its cell with does not
    depend on the order the arguments are visited in: where every chain of ports
    ends and every fed input has a cell, any two orders leave the same cells. *)
Theorem fed_aliases_order_free {S X : Type} `{DS : DataStore S} (index : gmap Uuid (Node (@SlotHandle S _)))
    (detached_ids : gset Uuid) (order order' : gmap NodeParameterId NodeParameterId → list NodeParameterId)
    (s : Load (S := S) (X := X))
    (Hids : ∀ i n, index !! i = Some n → n_id n = i)
    (Horder : ∀ m, order m ≡ₚ (map_to_list m).*1) (Horder' : ∀ m, order' m ≡ₚ (map_to_list m).*1)
    (Hends : ∀ p, is_Some (next_port index p) → grounded index detached_ids p)
    (Hfed : ∀ f, f ∈ ld_fed s → is_Some (ld_cells s !! f)) :
  share_all order index s = share_all order' index s.
Proof.
  destruct (share_all_run index detached_ids Hids order Horder s Hends Hfed) as (s1 & -> & Hw1 & Hv1 & Hb1 & Hf1 & Hc1).
  destruct (share_all_run index detached_ids Hids order' Horder' s Hends Hfed) as (s2 & -> & Hw2 & Hv2 & Hb2 & Hf2 & Hc2).
  assert (ld_cells s1 = ld_cells s2) as Hc by (apply map_eq; intros p; by rewrite Hc1, Hc2).
  destruct s1, s2. simpl in *. by subst.
Qed.
