(* ===== verification/LoadingExamples.v ===== *)
(** * The loading theorems at work on small trees

    The store is the hash-map store and a variable's name is the key it is bound
    to; the hash maps are iterated in the order of their keys. *)

From S2P Require Import Prelude Values Extern Keys State Store SimpleStore Effects Nodes Schema Graphs GraphLowering Cells Expressions CoreNodes ScatterNode Ticks Lowering Loading Sweeps Loaded.

Local Abbreviation Slot := (@SlotHandle Inner _).
Definition arguments_in_order (n : Node Slot) : list (Uuid * Expression Slot) := map_to_list (n_arguments n).
Definition nodes_in_order (m : gmap Uuid (Node Slot)) : list (Node Slot) := (map_to_list m).*2.
Definition readers_in_order (m : gmap NodeParameterId NodeParameterId) : list NodeParameterId := (map_to_list m).*1.
Lemma arguments_in_order_ok n : arguments_in_order n ≡ₚ map_to_list (n_arguments n).
Proof. unfold arguments_in_order. apply Permutation_refl. Qed.
Lemma nodes_in_order_ok m : nodes_in_order m ≡ₚ (map_to_list m).*2.
Proof. unfold nodes_in_order. apply Permutation_refl. Qed.
Lemma readers_in_order_ok m : readers_in_order m ≡ₚ (map_to_list m).*1.
Proof. unfold readers_in_order. apply Permutation_refl. Qed.
Definition empty_world : World Inner unit := mkWorld ∅ inner_new ∅ ∅ tt.
Definition load_example (names : gmap Uuid string) (nodes : list (Node Slot)) :
    option (result BehaviorTreeError LoadedTree * World Inner unit) :=
  load_behavior_tree_nodes_with direct_resolver names arguments_in_order nodes_in_order readers_in_order nodes empty_world.
Definition no_tree : LoadedTree (S := Inner) := mkLoadedTree (mkBehaviorTree (mkNode 0 0 ∅ None) ∅ ∅ ∅ ∅) [] ∅.
Definition tree_and_world (names : gmap Uuid string) (nodes : list (Node Slot)) : LoadedTree * World Inner unit :=
  match load_example names nodes with Some (Ok t, w) => (t, w) | _ => (no_tree, empty_world) end.

Definition loads (names : gmap Uuid string) (nodes : list (Node Slot)) : bool :=
  match load_example names nodes with Some (Ok _, _) => true | _ => false end.
Lemma loaded_as names nodes : loads names nodes = true →
  load_example names nodes = Some (Ok (tree_and_world names nodes).1, (tree_and_world names nodes).2).
Proof. unfold loads, tree_and_world. by destruct (load_example names nodes) as [[[t|e] w]|]. Qed.

(** Where every argument's chain ends, all chains do. *)
Lemma chains_end_check (t : LoadedTree (S := Inner)) :
  forallb (λ q, bool_decide (next_port (tree_index t) (follow (size (tree_index t)) (tree_index t) q) = None))
    (map_to_list (tree_index t) ≫= λ n, (λ a, mkNodeParameterId n.1 a.1) <$> map_to_list (n_arguments n.2)) = true →
  chains_end t.
Proof.
  intros H q. destruct (next_port (tree_index t) q) as [next|] eqn:Hq.
  - pose proof (proj1 (forallb_forall _ _) H q) as Hq'. apply bool_decide_eq_true in Hq'; [done|].
    apply list_elem_of_In, list_elem_of_bind.
    unfold next_port in Hq. apply bind_Some in Hq as (n & Hn & Hq). apply bind_Some in Hq as (e & He & _).
    exists (np_node q, n). split; [|by apply elem_of_map_to_list]. apply list_elem_of_fmap.
    exists (np_parameter q, e). split; [by destruct q|by apply elem_of_map_to_list].
  - assert (∀ k, follow k (tree_index t) q = q) as Hf by (intros [|k]; [done|cbn [follow]; by rewrite Hq]).
    rewrite Hf. exact Hq.
Qed.

(** ** A root that reads, through another argument, what a detached node returns

    The detached node's input is bound to the key of the variable 9. *)
Definition root_node : Node Slot := mkNode 1 0xF1
  (list_to_map [(11, Expression.NodeArgument (mkNodeParameterId 1 12)); (12, Expression.NodeArgument (mkNodeParameterId 2 _RET_PARAM_ID));
                (13, Expression.Value (Value.U8 7))]) None.
Definition feeding_node : Node Slot := mkNode 2 0xF2 (list_to_map [(21, Expression.VariableId 9)]) None.
Definition two_nodes : list (Node Slot) := [root_node; feeding_node].
Definition key_names : gmap Uuid string := {[ 9 := "speed"%string ]}.
Definition two_tree : LoadedTree := (tree_and_world key_names two_nodes).1.
Definition two_after : World Inner unit := (tree_and_world key_names two_nodes).2.
Lemma two_loads : loads key_names two_nodes = true.
Proof. vm_compute. reflexivity. Qed.
Lemma two_load :
  load_behavior_tree_nodes_with direct_resolver key_names arguments_in_order nodes_in_order readers_in_order two_nodes empty_world
  = Some (Ok two_tree, two_after).
Proof. pose proof (loaded_as _ _ two_loads) as H. unfold load_example in H. exact H. Qed.

Lemma load_accepts_witness :
  ∃ r w', load_example key_names two_nodes = Some (r, w') ∧ ((∃ t, r = Ok t) ↔ loadable key_names two_nodes).
Proof.
  exact (load_accepts direct_resolver key_names arguments_in_order nodes_in_order readers_in_order
           arguments_in_order_ok nodes_in_order_ok readers_in_order_ok two_nodes empty_world).
Defined.

Lemma loaded_arguments_share_witness :
  let cell := cell_of two_tree (mkNodeParameterId 1 11) in
  is_Some cell ∧ (cell = cell_of two_tree (mkNodeParameterId 1 12) ∨
                  ∃ c, has_own_cell two_tree (mkNodeParameterId 1 11) c ∧ cell_of two_tree (mkNodeParameterId 1 12) = Some c).
Proof.
  apply (loaded_arguments_share direct_resolver key_names arguments_in_order nodes_in_order readers_in_order
           arguments_in_order_ok nodes_in_order_ok readers_in_order_ok two_nodes two_tree
           empty_world two_after (mkNodeParameterId 1 11) (mkNodeParameterId 1 12) two_load).
  - apply chains_end_check. vm_compute. reflexivity.
  - vm_compute. reflexivity.
Defined.

Lemma loaded_cells_hold_witness :
  ∃ l, cell_of two_tree (mkNodeParameterId 1 13) = Some (Local l) ∧ heap two_after !! l = Some (Some (Value.U8 7)).
Proof.
  apply (loaded_cells_hold direct_resolver key_names arguments_in_order nodes_in_order readers_in_order
           arguments_in_order_ok nodes_in_order_ok readers_in_order_ok two_nodes two_tree
           empty_world two_after (mkNodeParameterId 1 13) (Expression.Value (Value.U8 7)) two_load).
  vm_compute. reflexivity.
Defined.

(** ** Feeding an input

    The detached node 2 returns into the root's argument 11, whose chain of
    arguments ends at a key. *)
Definition arg (p : Uuid) : NodeParameterId := mkNodeParameterId 1 p.
Definition chain_root : Node Slot := mkNode 1 0xF1
  (list_to_map [(11, Expression.NodeArgument (arg 12)); (12, Expression.NodeArgument (arg 13));
                (13, Expression.NodeArgument (arg 14)); (14, Expression.VariableId 9)]) None.
Definition returning_node : Node Slot := mkNode 2 0xF2 (list_to_map [(_RET_PARAM_ID, Expression.NodeArgument (arg 11))]) None.
Definition inert_node : Node Slot := mkNode 3 SUCCEED_FUNCTION_ID ∅ None.
Definition end_of_chain (nodes : list (Node Slot)) : option (VariableCell Slot) :=
  cell_of (tree_and_world key_names nodes).1 (arg 14).

(** The chain is followed no further than the tree has nodes: a chain longer than
    that is cut, and the input it ends at keeps its key. A node that nothing holds
    and that does nothing, added to the tree, makes the return feed it. *)
Lemma fed_chain_cut :
  (∃ h, end_of_chain [chain_root; returning_node] = Some (Stored h)) ∧
  ∃ l, end_of_chain [chain_root; returning_node; inert_node] = Some (Local l).
Proof. split; eexists; vm_compute; reflexivity. Qed.

Definition fed_tree : LoadedTree := (tree_and_world key_names [chain_root; returning_node; inert_node]).1.
Definition fed_state : Load (S := Inner) (X := unit) :=
  mkLoad empty_world ∅ (list_to_map [(arg 11, Local 1%nat); (arg 12, Local 2%nat); (arg 13, Local 3%nat); (arg 14, Local 4%nat)])
    ∅ {[ arg 14 ]}.
Lemma fed_grounded p : is_Some (next_port (tree_index fed_tree) p) → grounded (tree_index fed_tree) ∅ p.
Proof.
  assert (grounded (tree_index fed_tree) ∅ (arg 14)) as G14
    by (eapply grounded_own; [vm_compute; reflexivity|reflexivity]).
  assert (grounded (tree_index fed_tree) ∅ (arg 13)) as G13 by (eapply grounded_reads; [vm_compute; reflexivity|exact G14]).
  assert (grounded (tree_index fed_tree) ∅ (arg 12)) as G12 by (eapply grounded_reads; [vm_compute; reflexivity|exact G13]).
  assert (grounded (tree_index fed_tree) ∅ (arg 11)) as G11 by (eapply grounded_reads; [vm_compute; reflexivity|exact G12]).
  assert (grounded (tree_index fed_tree) ∅ (mkNodeParameterId 2 _RET_PARAM_ID)) as G2
    by (eapply grounded_reads; [vm_compute; reflexivity|exact G11]).
  intros [src Hp]. unfold next_port in Hp. apply bind_Some in Hp as (n & Hn & Hp). apply bind_Some in Hp as (e & He & _).
  assert (p ∈ [arg 11; arg 12; arg 13; arg 14; mkNodeParameterId 2 _RET_PARAM_ID]) as Hin.
  { assert ((np_node p, n) ∈ map_to_list (tree_index fed_tree)) as Hn' by by apply elem_of_map_to_list.
    assert ((np_parameter p, e) ∈ map_to_list (n_arguments n)) as He' by by apply elem_of_map_to_list.
    destruct p as [pn pp]. simpl in *. clear Hn He G14 G13 G12 G11 G2.
    vm_compute in Hn'. repeat (apply elem_of_cons in Hn' as [Hn'|Hn']; [injection Hn' as -> ->; vm_compute in He';
      repeat (apply elem_of_cons in He' as [He'|He']; [injection He' as -> _; vm_compute; set_solver|]); by inversion He'|]).
    by inversion Hn'. }
  repeat (apply elem_of_cons in Hin as [Hin|Hin]; [rewrite Hin; assumption|]). by inversion Hin.
Qed.
Lemma fed_aliases_order_free_witness :
  share_all readers_in_order (tree_index fed_tree) fed_state
  = share_all (λ m, rev (readers_in_order m)) (tree_index fed_tree) fed_state.
Proof.
  apply (fed_aliases_order_free (tree_index fed_tree) ∅).
  - intros i n Hn. apply elem_of_map_to_list in Hn. vm_compute in Hn.
    repeat (apply elem_of_cons in Hn as [Hn|Hn]; [injection Hn as -> ->; reflexivity|]). by inversion Hn.
  - exact readers_in_order_ok.
  - intros m. rewrite <- readers_in_order_ok. symmetry. apply Permutation_rev.
  - exact fed_grounded.
  - intros f Hf. change (ld_fed fed_state) with ({[arg 14]} : gset NodeParameterId) in Hf.
    apply elem_of_singleton in Hf as ->. exists (Local 4%nat). vm_compute. reflexivity.
Defined.
