(* ===== verification/Planning.v ===== *)
(** * What reads and writes the detached nodes: [Detached::lower] of
    [crates/arora-behavior-tree/src/detached.rs]

    When a tree is lowered, each detached node's outputs are found, and who reads
    them: the nodes to bring up to date before each node ticks, the order among the
    detached nodes, the sinks. A tree-local cell a detached node writes has that one
    writer. A cell is told by its place in the heap, which a slot has none of. *)

From S2P Require Import Prelude Values Extern Keys State Store Effects Nodes Schema Graphs GraphLowering Cells Expressions Sorting Detached Evaluation CoreNodes ScatterNode Ticks Lowering Loading.

(** [DetachedPlan] *)
Record DetachedPlan := mkDetachedPlan { every_tick : list Uuid; on_demand : list Uuid; unused : list Uuid }.

Section Planning.
Context {S X : Type} `{DS : DataStore S} `{UC : UuidCrate} (usize_max : Z).
Local Abbreviation Slot := (@SlotHandle S _).
Local Abbreviation Cell := (VariableCell Slot).
Local Abbreviation E := BehaviorTreeError.

(** [cell_id], [None] for a slot: only tree-local cells are written here. *)
Definition cell_id (c : Cell) : option nat := match c with Local l => Some l | Stored _ => None end.

Definition refuse {A} (node : Uuid) (why : DetachedRefusal) : result E A :=
  Err (InconsistentTreeError (DetachedRefused node why)).

(** ** The cells an expression names *)
Section Named.
Variable variables : gmap Uuid Cell.
Variable cells : gmap NodeParameterId Cell.

Definition named_cell (e : Expression Slot) : list Cell :=
  match e with
  | Expression.Variable_ c => [c]
  | Expression.VariableId i => option_list (variables !! i)
  | Expression.NodeArgument source => option_list (cells !! source)
  | _ => []
  end.
Definition in_pairs {A} (f : Expression Slot → list A) : list (Expression Slot * Expression Slot) → list A :=
  fix go arguments :=
    match arguments with
    | [] => []
    | (parameter, argument) :: arguments => f parameter ++ f argument ++ go arguments
    end.
(** [cells_read] *)
Fixpoint cells_read (e : Expression Slot) : list Cell :=
  match e with
  | Expression.Select source _ => cells_read source
  | Expression.Call call => cells_read_call call
  | e => named_cell e
  end
with cells_read_call (call : CallExpression Slot) : list Cell :=
  match call with
  | Expression.mkCallExpression module function_ arguments =>
      cells_read module ++ cells_read function_ ++ in_pairs cells_read arguments
  end.
(** [ports_named] *)
Fixpoint ports_named (e : Expression Slot) : list NodeParameterId :=
  match e with
  | Expression.NodeArgument port => [port]
  | Expression.Select source _ => ports_named source
  | Expression.Call call => ports_named_call call
  | _ => []
  end
with ports_named_call (call : CallExpression Slot) : list NodeParameterId :=
  match call with
  | Expression.mkCallExpression module function_ arguments =>
      ports_named module ++ ports_named function_ ++ in_pairs ports_named arguments
  end.

(** [call_writes]'s walk: a parameter that is not known to be immutable counts. *)
Variable functions : FunctionIndex.
Definition may_write (signature : option ModuleFunction) (parameter : Expression Slot) : bool :=
  match signature, stated_id parameter with
  | Some signature, Some i =>
      match parameters (function signature) !! i with Some p => p_mutable p | None => false end
  | _, _ => true
  end.
Definition argument_writes (walk : Expression Slot → list Cell) (signature : option ModuleFunction) :
    list (Expression Slot * Expression Slot) → list Cell :=
  fix go arguments :=
    match arguments with
    | [] => []
    | (parameter, argument) :: arguments =>
        walk parameter ++ (if may_write signature parameter then named_cell argument else []) ++ walk argument ++ go arguments
    end.
Fixpoint walk_writes (e : Expression Slot) : list Cell :=
  match e with
  | Expression.Select source _ => walk_writes source
  | Expression.Call call => walk_call_writes call
  | _ => []
  end
with walk_call_writes (call : CallExpression Slot) : list Cell :=
  match call with
  | Expression.mkCallExpression module function_ arguments =>
      let signature := stated_id function_ ≫= λ i, functions !! i in
      walk_writes module ++ walk_writes function_ ++ argument_writes walk_writes signature arguments
  end.
End Named.

(** ** The writers of the tree-local cells *)

(** By cell: a detached node's position, [None] for an attached one, and its id. *)
Local Abbreviation Writers := (gmap nat (option nat * Uuid)).
Definition claim (node : Uuid) (writer : option nat) (c : Cell) (writers : Writers) : result E Writers :=
  match c with
  | Stored _ => Ok writers
  | Local l =>
      match writers !! l with
      | Some (previous, other) =>
          if negb (other =? node) && (bool_decide (is_Some previous) || bool_decide (is_Some writer))
          then Err (InconsistentTreeError (TwoWriters node other))
          else Ok (<[l := (writer, node)]> writers)
      | None => Ok (<[l := (writer, node)]> writers)
      end
  end.

(** [output_optional] *)
Definition output_optional (signature : option ModuleFunction) (port : Uuid) : bool :=
  match signature with
  | Some signature =>
      if port =? _RET_PARAM_ID then ty_is_option (return_ty (function signature))
      else is_optional (function signature) port
  | None => false
  end.

Section Lower.
Variable arguments_order : Node Slot → list (Uuid * Expression Slot).
Variable functions : FunctionIndex.
Variable variables : gmap Uuid Cell.
Variable cells : gmap NodeParameterId Cell.
Variable nodes : list (Node Slot).
Variable bindings : gmap NodeParameterId Cell.
Variable attached : list (Node Slot).

Definition output_cell (node port : Uuid) : option Cell := cells !! mkNodeParameterId node port.
Definition call_writes (node : Node Slot) : list Cell :=
  arguments_order node ≫= λ a, walk_writes variables cells functions a.2.

(** ** A detached node's ports, outputs and arguments *)
Definition ordered_arguments (node : Node Slot) (signature : option ModuleFunction) : list (Uuid * Expression Slot) :=
  omap (λ p, pair p <$> n_arguments node !! p) (ordered usize_max (map_to_list (n_arguments node)).*1 signature).
Fixpoint mutable_ports (node : Uuid) (f : Function_) (arguments : list (Uuid * Expression Slot)) : result E (list Uuid) :=
  match arguments with
  | [] => mret []
  | (parameter, argument) :: arguments =>
      if parameter =? _RET_PARAM_ID then mutable_ports node f arguments
      else match parameters f !! parameter with
           | None => refuse node (NamesParameter parameter)
           | Some declared =>
               if p_mutable declared
               then if has_no_cell argument then refuse node (FeedsMutable parameter)
                    else ports ← mutable_ports node f arguments; mret (parameter :: ports)
               else mutable_ports node f arguments
           end
  end.

(** What is found node by node: the lists by position, the state of each node. *)
Record Found := mkFound {
  f_writers : Writers;
  f_signatures : FunctionIndex;
  f_outputs : list (list (Output (S := S)));
  f_states : list (gset nat);
  f_rewrites : list bool;
  f_arguments : list (list (Argument (S := S)));
  f_modules : list (option Uuid);
}.
Definition found_none : Found := mkFound ∅ ∅ [] [] [] [] [].

Definition state_with (port : Uuid) (c : Cell) (state : gset nat) : gset nat :=
  if port =? _RET_PARAM_ID then state else list_to_set (option_list (cell_id c)) ∪ state.
Definition claim_port (at_ : nat) (node : Uuid) (signature : option ModuleFunction) (port : Uuid)
    (found : Writers * list Output * gset nat) : result E (Writers * list Output * gset nat) :=
  let '(writers, outputs, state) := found in
  match output_cell node port with
  | None => mret found
  | Some c =>
      writers ← claim node (Some at_) c writers;
      mret (writers,
            outputs ++ [mkOutput port c (bindings !! mkNodeParameterId node port) (output_optional signature port)],
            state_with port c state)
  end.
Definition claim_nested (at_ : nat) (node : Uuid) (c : Cell) (found : Writers * gset nat) : result E (Writers * gset nat) :=
  let '(writers, state) := found in
  if is_stored c then refuse node WritesStoreFromCall
  else
    writers ← claim node (Some at_) c writers;
    mret (writers, list_to_set (option_list (cell_id c)) ∪ state).
Definition argument_of (node : Node Slot) (signature : option ModuleFunction) (a : Uuid * Expression Slot) : Argument :=
  let p := mkNodeParameterId (n_id node) a.1 in
  mkArgument a.1 (match signature with Some f => is_optional (function f) a.1 | None => false end)
    (match a.2 with
     | Expression.Call _ | Expression.Select _ _ => SComputed a.2
     | _ => SCell (match bindings !! p with Some c => Some c | None => cells !! p end)
     end).

Definition of_detached {A} (r : result E A) : result E A :=
  match r with Err (InconsistentTreeError m) => Err (InconsistentTreeError (OfDetached m)) | r => r end.
Definition find_node (at_ : nat) (node : Node Slot) (found : Found) : result E Found :=
  called ← of_detached (expression_call_signatures (n_id node) (arguments_order node ≫= λ a, calls_in a.2) functions ∅);
  if is_interpreter_function_id (n_function node) then refuse (n_id node) CallsInterpreterModule
  else
    let signature := functions !! n_function node in
    let ordered := ordered_arguments node signature in
    ports ← match signature with Some f => mutable_ports (n_id node) (function f) ordered | None => mret [] end;
    let signatures := called ∪ f_signatures found in
    let signatures := match signature with
                      | Some f => match signatures !! n_function node with
                                  | Some _ => signatures
                                  | None => <[n_function node := f]> signatures
                                  end
                      | None => signatures
                      end in
    '(writers, outputs, state) ← fold_results (claim_port at_ (n_id node) signature) (_RET_PARAM_ID :: ports)
                                   (f_writers found, [], ∅);
    '(writers, state) ← fold_results (claim_nested at_ (n_id node)) (call_writes node) (writers, state);
    let rewrites := bool_decide (call_writes node ≠ [])
                    || existsb (λ o, negb (o_port o =? _RET_PARAM_ID) && bool_decide (is_Some (o_publish o))) outputs in
    mret (mkFound writers signatures (f_outputs found ++ [outputs]) (f_states found ++ [state])
            (f_rewrites found ++ [rewrites])
            (f_arguments found ++ [argument_of node signature <$> filter (λ a, a.1 ≠ _RET_PARAM_ID) ordered])
            (f_modules found ++ [module_id <$> signature])).
Fixpoint find_nodes (at_ : nat) (l : list (Node Slot)) (found : Found) : result E Found :=
  match l with
  | [] => mret found
  | node :: l => found ← find_node at_ node found; find_nodes (Datatypes.S at_) l found
  end.

Definition is_call (e : Expression Slot) : bool := match e with Expression.Call _ => true | _ => false end.
(** [claim_attached] *)
Definition is_mutable (signature : option ModuleFunction) (parameter : Uuid) : bool :=
  match signature with
  | Some f => match parameters (function f) !! parameter with Some p => p_mutable p | None => false end
  | None => false
  end.
Definition attached_ports (node : Node Slot) : list Uuid :=
  (match n_arguments node !! _RET_PARAM_ID with Some _ => [_RET_PARAM_ID] | None => [] end)
  ++ native_writes (n_function node)
  ++ (filter (λ a, is_call a.2 = true) (arguments_order node)).*1
  ++ filter (λ p, is_mutable (functions !! n_function node) p = true) (arguments_order node).*1.
Definition claim_attached (node : Node Slot) (writers : Writers) : result E Writers :=
  writers ← fold_results (claim (n_id node) None) (omap (output_cell (n_id node)) (attached_ports node)) writers;
  fold_results (claim (n_id node) None) (call_writes node) writers.

(** ** An output bound to another node's input *)

(** The argument of an input, and the input an input's chain of aliases ends at,
    with whether a call or a selection computes it. *)
Definition reader_argument (port : NodeParameterId) : option (Expression Slot) :=
  (snd <$> list_find (λ reader, n_id reader = np_node port) (nodes ++ attached))
    ≫= λ reader, n_arguments reader !! np_parameter port.
Fixpoint aliased (steps : nat) (target : NodeParameterId) : NodeParameterId * bool :=
  match steps with
  | O => (target, false)
  | Datatypes.S steps =>
      match reader_argument target with
      | Some (Expression.NodeArgument aliased_) => aliased steps aliased_
      | Some (Expression.Call _) | Some (Expression.Select _ _) => (target, true)
      | _ => (target, false)
      end
  end.
Definition check_output (node : Node Slot) (o : Output (S := S)) : result E unit :=
  match n_arguments node !! o_port o with
  | Some (Expression.NodeArgument input) =>
      let '(target, computed) := aliased (Datatypes.S (length nodes + length attached)) input in
      if computed then refuse (n_id node) (BindsComputedInput input)
      else
        let store_bound := existsb (λ bound, bool_decide (is_Some (bindings !! bound)))
                             [mkNodeParameterId (n_id node) (o_port o); input; target] in
        if negb (o_port o =? _RET_PARAM_ID) && store_bound
        then refuse (n_id node) (BindsStoreInput input)
        else Ok tt
  | _ => Ok tt
  end.
Definition check_outputs (outputs : list (list (Output (S := S)))) : result E unit :=
  fold_results (λ e _, fold_results (λ o _, check_output e.1 o) e.2 tt) (zip nodes outputs) tt.

(** ** A port that is read is an output *)

(** [self.ids]: a node's position. *)
Definition node_positions : gmap Uuid nat := list_to_map (rev (imap (λ at_ node, (n_id node, at_)) nodes)).
Definition node_at (at_ : nat) : option (Node Slot) := nodes !! at_.
Definition check_port (node : Uuid) (parameter : Uuid) (port : NodeParameterId) : result E unit :=
  match node_positions !! np_node port ≫= node_at with
  | None => Ok tt
  | Some source =>
      match functions !! n_function source with
      | None => Ok tt
      | Some signature =>
          if (np_parameter port =? _RET_PARAM_ID) || is_mutable (Some signature) (np_parameter port)
          then Ok tt
          else Err (InconsistentTreeError (NotAnOutput node parameter (n_function source)))
      end
  end.
Definition is_node_argument (e : Expression Slot) : bool :=
  match e with Expression.NodeArgument _ => true | _ => false end.
Definition check_read (node : Node Slot) (a : Uuid * Expression Slot) : result E unit :=
  let writes := (a.1 =? _RET_PARAM_ID)
                || (is_mutable (functions !! n_function node) a.1 && is_node_argument a.2) in
  if writes then Ok tt else fold_results (λ port _, check_port (n_id node) a.1 port) (ports_named a.2) tt.
Definition check_reads : result E unit :=
  fold_results (λ node _, fold_results (λ a _, check_read node a) (arguments_order node) tt) (nodes ++ attached) tt.

(** ** Who reads whom *)

(** The cells a node's arguments read and the cells its parameters have. *)
Definition argument_cells (node : Node Slot) : list Cell :=
  arguments_order node ≫= λ a,
    if a.1 =? _RET_PARAM_ID then []
    else cells_read variables cells a.2 ++ option_list (cells !! mkNodeParameterId (n_id node) a.1).
(** The detached node that writes a cell; a slot has none. *)
Definition writer_of (writers : Writers) (c : Cell) : option nat :=
  match cell_id c with Some l => writers !! l ≫= fst | None => None end.
Definition holds_state (states : list (gset nat)) (writer : nat) (c : Cell) : bool :=
  match cell_id c with Some l => bool_decide (l ∈ default ∅ (states !! writer)) | None => false end.
(** A node reads its own state; any other output of its own is feedback. *)
Fixpoint reads_among (writers : Writers) (states : list (gset nat)) (node : Uuid) (own : option nat) (l : list Cell) :
    result E (list nat) :=
  match l with
  | [] => mret []
  | c :: l =>
      match writer_of writers c with
      | None => reads_among writers states node own l
      | Some writer =>
          if bool_decide (Some writer = own)
          then if holds_state states writer c then reads_among writers states node own l
               else refuse node ReadsItsOutput
          else read ← reads_among writers states node own l; mret (writer :: read)
      end
  end.
(** [dedup] of a vector: the runs of equal elements. *)
Fixpoint dedup (l : list nat) : list nat :=
  match l with
  | [] => []
  | x :: l => match dedup l with y :: r => if decide (x = y) then y :: r else x :: y :: r | [] => [x] end
  end.
Definition reads_of (writers : Writers) (states : list (gset nat)) (node : Node Slot) (own : option nat) :
    result E (list nat) :=
  read ← reads_among writers states (n_id node) own (argument_cells node);
  mret (dedup (merge_sort (≤)%nat read)).
Definition find_pull (writers : Writers) (states : list (gset nat)) (node : Node Slot)
    (found : gmap Uuid (list nat) * list nat) : result E (gmap Uuid (list nat) * list nat) :=
  read ← reads_of writers states node None;
  mret (match read with
        | [] => found
        | _ => (<[n_id node := read]> found.1, found.2 ++ read)
        end).

(** ** The inputs another node's output feeds: they read the cell it writes *)
Definition is_fed (writers : Writers) (at_ : nat) (p : NodeParameterId) : bool :=
  match cells !! p ≫= writer_of writers with Some writer => negb (writer =? at_)%nat | None => false end.
Definition fed (writers : Writers) : gset NodeParameterId :=
  list_to_set (mjoin (imap (λ at_ node,
    filter (λ p, is_fed writers at_ p = true)
      ((λ parameter, mkNodeParameterId (n_id node) parameter)
         <$> filter (λ parameter, parameter ≠ _RET_PARAM_ID) (arguments_order node).*1)) nodes)).
Definition feed (fed : gset NodeParameterId) (node : Node Slot) (a : Argument (S := S)) : Argument (S := S) :=
  let p := mkNodeParameterId (n_id node) (a_parameter a) in
  match a_source a with
  | SCell _ => if decide (p ∈ fed) then mkArgument (a_parameter a) (a_optional a) (SCell (cells !! p)) else a
  | SComputed _ => a
  end.

(** ** What is evaluated when *)
Fixpoint closure (fuel : nat) (reads : list (list nat)) (stack : list nat) (reached : gset nat) : option (gset nat) :=
  match stack with
  | [] => Some reached
  | at_ :: stack =>
      match fuel with
      | O => None
      | Datatypes.S fuel =>
          if decide (at_ ∈ reached) then closure fuel reads stack reached
          else rs ← reads !! at_; closure fuel reads (rev rs ++ stack) ({[at_]} ∪ reached)
      end
  end.
(** What the stack can hold in all. *)
Definition enough_closed (reads : list (list nat)) (starts : list nat) : nat :=
  length starts + sum_list_with length reads.
Definition is_sink (outputs : list (list (Output (S := S)))) (at_ : nat) : bool :=
  existsb (λ o, bool_decide (is_Some (o_publish o))) (default [] (outputs !! at_)).
Definition plan_node (every_ demanded : gset nat) (plan : DetachedPlan) (at_ : nat) : DetachedPlan :=
  match node_at at_ with
  | None => plan
  | Some node =>
      if decide (at_ ∈ every_)
      then mkDetachedPlan (every_tick plan ++ [n_id node]) (on_demand plan) (unused plan)
      else if decide (at_ ∈ demanded)
           then mkDetachedPlan (every_tick plan) (on_demand plan ++ [n_id node]) (unused plan)
           else mkDetachedPlan (every_tick plan) (on_demand plan) (unused plan ++ [n_id node])
  end.
Definition sort_reads (reads : list (list nat)) : option (result E (list nat)) :=
  match sorted reads (enough_turns reads) with
  | Some (Ok order) => Some (Ok order)
  | Some (Err (ReadsInACycle cycle)) =>
      Some (Err (InconsistentTreeError (ReadEachOther (omap (λ at_, n_id <$> node_at at_) cycle))))
  | Some (Err SortPanic) | None => None
  end.

(** ** [Detached::lower] *)

(** What is found before the order: what the nodes do, and their reads. *)
Definition find_reads :
    result E (Found * list (list nat) * (gmap Uuid (list nat) * list nat) * gset NodeParameterId) :=
  found ← find_nodes 0 nodes found_none;
  writers ← fold_results claim_attached attached (f_writers found);
  _ ← check_outputs (f_outputs found);
  _ ← check_reads;
  reads ← collect_results (λ e, reads_of writers (f_states found) e.2 (Some e.1)) (imap pair nodes);
  pulls ← fold_results (find_pull writers (f_states found)) attached (∅, []);
  mret (found, reads, pulls, fed writers).
Definition lower (observed_ids : gset Uuid) : option (result E (Lowered (S := S) * DetachedPlan)) :=
  match find_reads with
  | Err e => Some (Err e)
  | Ok (found, reads, (pulls, tree_reads), fed) =>
      order ← sort_reads reads;
      match order with
      | Err e => Some (Err e)
      | Ok order =>
          let arguments := zip_with (λ node arguments, feed fed node <$> arguments) nodes (f_arguments found) in
          let sink := is_sink (f_outputs found) in
          let observed_at at_ := match node_at at_ with
                                 | Some node => bool_decide (n_id node ∈ observed_ids)
                                 | None => false
                                 end in
          let starts := filter (λ at_, sink at_ || observed_at at_ = true) (seq 0 (length nodes)) in
          every_ ← closure (enough_closed reads starts) reads (rev starts) ∅;
          demanded ← closure (enough_closed reads tree_reads) reads (rev tree_reads) ∅;
          let plan := foldl (plan_node every_ demanded) (mkDetachedPlan [] [] []) order in
          let sinks := filter (λ at_, sink at_ = true) (seq 0 (length nodes)) in
          let observed := filter (λ at_, observed_at at_ && negb (sink at_) = true) order in
          Some (Ok (mkLowered (f_signatures found) reads arguments (f_modules found) (f_rewrites found)
                      (f_outputs found)
                      (forallb (λ a, match a_source a with SCell _ => true | SComputed _ => false end) <$> arguments)
                      sinks observed pulls, plan))
      end
  end.
End Lower.

(** ** [BehaviorTree::lower_detached] *)

(** The root and the nodes it holds, the stack's top first. *)
Fixpoint attached_nodes (fuel : nat) (index : gmap Uuid (Node Slot)) (held : list (Node Slot)) (seen : gset Uuid) :
    option (list (Node Slot)) :=
  match held with
  | [] => Some []
  | node :: held =>
      match fuel with
      | O => None
      | Datatypes.S fuel =>
          if decide (n_id node ∈ seen) then attached_nodes fuel index held seen
          else attached ← attached_nodes fuel index
                            (rev (omap (λ child, index !! child) (default [] (n_children node))) ++ held)
                            ({[n_id node]} ∪ seen);
               Some (node :: attached)
      end
  end.
Definition lower_detached (arguments_order : Node Slot → list (Uuid * Expression Slot)) (t : LoadedTree)
    (functions : FunctionIndex) (observed_ids : gset Uuid) : option (result E (Lowered (S := S) * DetachedPlan)) :=
  let tree := lt_tree t in
  attached ← attached_nodes (enough_held (node_index tree)) (node_index tree) [bt_root tree] ∅;
  lower arguments_order functions (bt_variables tree) (node_arg_variables tree) (lt_detached t) (lt_bindings t)
    attached observed_ids.
End Planning.
