(* ===== verification/GraphWalks.v ===== *)
(** * The walks over a behavior graph: the checks of
    [crates/arora-behavior-tree/src/behavior.rs]

    What nodes reach through their children, whether a graph is one tree, and
    whether what hangs under a node is free of cycles: worklists and an explicit
    stack, each on fuel that is always enough. *)

From S2P Require Import Prelude Values Extern Keys State Store Effects Nodes Schema Graphs Loading.
Import graph.

(** [behavior_error]: the texts of the refusals, by what they are printed from. *)
Inductive BehaviorError :=
| ListedTwice (node : Uuid)
| ChildOutside (node child : Uuid)
| RootHeld (node root : Uuid)
| TwoParents (child first second : Uuid)
| NotUnderRoot (node root : Uuid)
| ChildrenCycle
| NoSuchChild (node child : Uuid)
| OwnDescendant (node : Uuid)
| SelectionWritten (node port : Uuid)
| DiffRefused (e : GraphError)
| DoesNotLower (e : BehaviorTreeError)
| DetachedDoNotLower (e : BehaviorTreeError)
| CallNotAValue (why : string)
| WrongType
| NoRoot
| RootNotANode_ (root : Uuid)
| CallsInterpreter (node function : Uuid)
| ReadsOutside (node port : Uuid)
| PartOfTheDevice (node : Uuid)
| HeldElsewhere (node : Uuid)
| PlacesScaffold (node : Uuid)
| ChangesDecorator (node task : Uuid)
| RemovesRunRoot (root task : Uuid)
| BelongsToARun (node : Uuid)
| NotWritten (key : Keys.Key) (e : DataError).

(** [Index] and [by_id] *)
Abbreviation Index := (gmap Uuid Node).
Definition by_id (g : Graph) : Index := collect (nodes g).
Definition children_of (index : Index) (i : Uuid) : list Uuid := default [] (index !! i ≫= children).

(** ** [reach], the stack's top first *)
Fixpoint reach_from (fuel : nat) (index : Index) (pending : list Uuid) (found : gset Uuid) : option (gset Uuid) :=
  match pending with
  | [] => Some found
  | i :: pending =>
      match fuel with
      | O => None
      | Datatypes.S fuel =>
          if decide (i ∈ found) then reach_from fuel index pending found
          else reach_from fuel index (rev (children_of index i) ++ pending) ({[i]} ∪ found)
      end
  end.
(** What the worklist can hold in all. *)
Definition held_children (index : Index) : nat := sum_list_with (λ e : Uuid * Node, length (default [] (children e.2))) (map_to_list index).
Definition enough_reach (index : Index) (starts : list Uuid) : nat := (length starts + held_children index)%nat.
Definition reach (index : Index) (starts : list Uuid) : gset Uuid :=
  default ∅ (reach_from (enough_reach index starts) index (rev starts) ∅).
Definition subtree (index : Index) (from : Uuid) : gset Uuid := reach index [from].

(** ** [check_tree] *)

(** [listed_twice] *)
Fixpoint listed_twice (ns : list Node) (seen : gset Uuid) : BehaviorError :=
  match ns with
  | [] => ListedTwice 0
  | n :: ns => if decide (id n ∈ seen) then ListedTwice (id n) else listed_twice ns ({[id n]} ∪ seen)
  end.
(** A node's children, each its own parent's alone. *)
Fixpoint adopt (index : Index) (root node : Uuid) (cs : list Uuid) (parent : gmap Uuid Uuid) :
    result BehaviorError (gmap Uuid Uuid) :=
  match cs with
  | [] => Ok parent
  | child :: cs =>
      match index !! child with
      | None => Err (ChildOutside node child)
      | Some _ =>
          if decide (child = root) then Err (RootHeld node root)
          else match parent !! child with
               | Some other => Err (TwoParents child other node)
               | None => adopt index root node cs (<[child := node]> parent)
               end
      end
  end.
Fixpoint adopt_all (index : Index) (root : Uuid) (ns : list Node) (parent : gmap Uuid Uuid) :
    result BehaviorError (gmap Uuid Uuid) :=
  match ns with
  | [] => Ok parent
  | n :: ns =>
      match adopt index root (id n) (default [] (children n)) parent with
      | Ok parent => adopt_all index root ns parent
      | Err e => Err e
      end
  end.
Fixpoint loose (root : Uuid) (parent : gmap Uuid Uuid) (ns : list Node) : result BehaviorError (list Uuid) :=
  match ns with
  | [] => Ok []
  | n :: ns =>
      if decide (id n = root ∨ is_Some (parent !! id n)) then loose root parent ns
      else if negb (is_detachable (function n) (children n)) then Err (NotUnderRoot (id n) root)
      else match loose root parent ns with Ok l => Ok (id n :: l) | Err e => Err e end
  end.
Definition check_tree (g : Graph) (root : Uuid) : result BehaviorError (list Uuid) :=
  let index := by_id g in
  if negb (size index =? length (nodes g))%nat then Err (listed_twice (nodes g) ∅)
  else match adopt_all index root (nodes g) ∅ with
       | Err e => Err e
       | Ok parent =>
           match loose root parent (nodes g) with
           | Err e => Err e
           | Ok detached =>
               if negb (size (subtree index root) + length detached =? length (nodes g))%nat then Err ChildrenCycle
               else Ok (merge_sort Z.le detached)
           end
       end.

(** ** [check_acyclic]: [None] is the panic of a node that is not there *)
Fixpoint acyclic_from (fuel : nat) (index : Index) (done open : gset Uuid) (stack : list (Uuid * nat)) :
    option (result BehaviorError unit) :=
  match stack with
  | [] => Some (Ok tt)
  | (i, next) :: stack =>
      match fuel with
      | O => None
      | Datatypes.S fuel =>
          n ← index !! i;
          match default [] (children n) !! next with
          | None => acyclic_from fuel index ({[i]} ∪ done) (open ∖ {[i]}) stack
          | Some child =>
              match index !! child with
              | None => Some (Err (NoSuchChild i child))
              | Some _ =>
                  if decide (child ∈ open) then Some (Err (OwnDescendant child))
                  else if decide (child ∈ done) then acyclic_from fuel index done open ((i, Datatypes.S next) :: stack)
                  else acyclic_from fuel index done ({[child]} ∪ open) ((child, O) :: (i, Datatypes.S next) :: stack)
              end
          end
      end
  end.
Definition enough_acyclic (index : Index) : nat := Datatypes.S (size index + held_children index).
Definition check_acyclic (g : Graph) (root : Uuid) : option (result BehaviorError unit) :=
  acyclic_from (enough_acyclic (by_id g)) (by_id g) ∅ {[root]} [(root, O)].

(** ** [check_selections] *)
Definition is_select (source : Source) : bool := match source with Select _ _ => true | _ => false end.
Definition writes_port (index : FunctionIndex) (function port : Uuid) : bool :=
  bool_decide (port = _RET_PARAM_ID)
  || match index !! function with
     | Some f => match parameters (Schema.function f) !! port with Some p => p_mutable p | None => false end
     | None => false
     end.
Definition check_selections (g : Graph) (index : FunctionIndex) : result BehaviorError unit :=
  match head (nodes g ≫= λ n, (λ e, (id n, e.1)) <$>
          filter (λ e, is_select e.2 && writes_port index (function n) e.1 = true) (bt_iter (bind n))) with
  | Some (node, port) => Err (SelectionWritten node port)
  | None => Ok tt
  end.

(** ** What a diff touches: [changed_nodes], [unbound_by_removal] *)
Definition changed_nodes (d : GraphDiff) : list Uuid :=
  (id <$> d_set d) ++ (port_node <$> d_unbind d) ++ (b_node <$> d_bind d).
Definition unbound_by_removal (g : Graph) (remove : list Uuid) : list Uuid :=
  id <$> filter (λ n, id n ∉ remove ∧ (existsb (λ e, reads_removed (list_to_set remove) e.2) (map_to_list (bind n))) = true)
           (nodes g).

(** ** What nodes reach *)
Section Reach.
Variable index : Index.

(** [c] is a child of [i]. *)
Definition child_of (i c : Uuid) : Prop := c ∈ children_of index i.
Definition reached (starts : list Uuid) (i : Uuid) : Prop := ∃ start, start ∈ starts ∧ rtc child_of start i.

(** What is left to find. *)
Definition unfound (found : gset Uuid) : Index := filter (λ e, e.1 ∉ found) index.
Lemma unfound_delete i found : unfound ({[i]} ∪ found) = delete i (unfound found).
Proof.
  apply map_eq. intros j. destruct (decide (j = i)) as [->|Hne].
  - rewrite lookup_delete_eq. apply map_lookup_filter_None. right. set_solver.
  - rewrite lookup_delete_ne by done. unfold unfound. rewrite !map_lookup_filter.
    destruct (index !! j); [|done]. simpl. do 2 case_guard; set_solver.
Qed.
Lemma held_children_delete (m : Index) i n : m !! i = Some n →
  held_children m = (length (default [] (children n)) + held_children (delete i m))%nat.
Proof. intros Hn. unfold held_children. by rewrite <- (map_to_list_delete _ _ _ Hn). Qed.
Lemma unfound_lookup i n found : index !! i = Some n → i ∉ found → unfound found !! i = Some n.
Proof. intros. by apply map_lookup_filter_Some. Qed.
Lemma unfound_visit i found : i ∉ found →
  (held_children (unfound ({[i]} ∪ found)) + length (children_of index i) = held_children (unfound found))%nat.
Proof.
  intros Hi. rewrite unfound_delete. unfold children_of. destruct (index !! i) as [n|] eqn:En; simpl.
  - rewrite (held_children_delete (unfound found) i n) by (by apply unfound_lookup). lia.
  - rewrite delete_id; [lia|]. apply map_lookup_filter_None. by left.
Qed.
Lemma reach_ends fuel pending found :
  (length pending + held_children (unfound found) <= fuel)%nat → is_Some (reach_from fuel index pending found).
Proof.
  revert pending found. induction fuel as [|fuel IH]; intros [|i pending] found Hf; simpl in *; try (by eexists); [lia|].
  case_decide as Hi; apply IH; [lia|]. pose proof (unfound_visit i found Hi). rewrite length_app, length_rev. lia.
Qed.
Lemma reach_sound fuel pending found res (R : Uuid → Prop) :
  reach_from fuel index pending found = Some res →
  (∀ i, i ∈ found ∨ i ∈ pending → R i) → (∀ i c, R i → child_of i c → R c) → ∀ i, i ∈ res → R i.
Proof.
  revert pending found. induction fuel as [|fuel IH]; intros [|i pending] found Hc H0 Hr; simpl in Hc; simplify_eq; auto.
  case_decide as Hi; (apply (IH _ _ Hc); [|done]).
  - intros j [|]; apply H0; [by left|right; by right].
  - assert (R i) as HRi by (apply H0; right; by left).
    intros j [[->%elem_of_singleton|]%elem_of_union|[Hj|]%elem_of_app]; [done|by apply H0; left| |by apply H0; right; right].
    apply (Hr i); [done|]. unfold child_of. by rewrite list_elem_of_In, in_rev, <- list_elem_of_In.
Qed.
Lemma reach_complete fuel pending found res :
  reach_from fuel index pending found = Some res →
  (∀ i c, i ∈ found → child_of i c → c ∈ found ∨ c ∈ pending) →
  (∀ i, i ∈ found ∨ i ∈ pending → i ∈ res) ∧ (∀ i c, i ∈ res → child_of i c → c ∈ res).
Proof.
  revert pending found. induction fuel as [|fuel IH]; intros [|i pending] found Hc H0; simpl in Hc; simplify_eq.
  1,2: split; [by intros i [|?%not_elem_of_nil]|]; intros i c Hi Hr;
    destruct (H0 i c Hi Hr) as [|Hr']; [done|by apply not_elem_of_nil in Hr'].
  case_decide as Hi; destruct (IH _ _ Hc) as [H1 H2].
  - intros j c Hj Hr. destruct (H0 j c Hj Hr) as [|[->|]%elem_of_cons]; auto.
  - split; [|done]. intros j [|[->|]%elem_of_cons]; auto.
  - intros j c [->%elem_of_singleton|Hj]%elem_of_union Hr.
    + right. apply elem_of_app. left. by rewrite list_elem_of_In, <- in_rev, <- list_elem_of_In.
    + destruct (H0 j c Hj Hr) as [|[->|]%elem_of_cons]; [set_solver..|]. right. apply elem_of_app. by right.
  - split; [|done]. intros j [|[->|]%elem_of_cons]; apply H1; [set_solver..|]. right. apply elem_of_app. by right.
Qed.

(** [reach] ends, with what its starts reach through the children. *)
Lemma reach_spec starts i : i ∈ reach index starts ↔ reached starts i.
Proof.
  assert (∀ i, i ∈ rev starts ↔ i ∈ starts) as Hrev by (intros; by rewrite !list_elem_of_In, <- in_rev).
  assert (unfound ∅ = index) as Hu by (apply map_filter_id; set_solver).
  destruct (reach_ends (enough_reach index starts) (rev starts) ∅) as [res Hres].
  { rewrite length_rev, Hu. done. }
  unfold reach. rewrite Hres. simpl. split.
  - revert i. apply (reach_sound _ _ _ _ _ Hres).
    + intros i [Hi|Hi]; [set_solver|]. exists i. rewrite <- Hrev. split; [done|reflexivity].
    + intros i r (st & Hst & Hr) Hir. exists st. split; [done|]. by eapply rtc_r.
  - destruct (reach_complete _ _ _ _ Hres) as [H1 H2]; [set_solver|]. intros (st & Hst & Hr).
    assert (st ∈ res) as Hin by (apply H1; right; by rewrite Hrev). clear Hst.
    induction Hr as [|x y z Hxy _ IH]; [done|]. by apply IH, (H2 x).
Qed.
Lemma subtree_spec from i : i ∈ subtree index from ↔ rtc child_of from i.
Proof.
  unfold subtree. rewrite reach_spec. split; [intros (st & ->%list_elem_of_singleton & Hr); done|].
  intros Hr. exists from. by rewrite list_elem_of_singleton.
Qed.
End Reach.

(** ** One tree, and what is loose beside it *)
Definition all_children (ns : list Node) : list Uuid := ns ≫= λ n, default [] (children n).
Definition loose_ids (g : Graph) (root : Uuid) : list Uuid :=
  filter (λ i, i ≠ root ∧ i ∉ all_children (nodes g)) (ids (nodes g)).
(** Every node listed once, every child a node and one node's only, the root no
    child, and every node under the root or a loose call to a module function. *)
Record is_tree (g : Graph) (root : Uuid) : Prop := {
  tree_ids : NoDup (ids (nodes g));
  tree_children : NoDup (all_children (nodes g));
  tree_root : root ∉ all_children (nodes g);
  tree_closed : ∀ c, c ∈ all_children (nodes g) → c ∈ ids (nodes g);
  tree_under : ∀ n, n ∈ nodes g → rtc (child_of (by_id g)) root (id n) ∨
    (id n ∉ all_children (nodes g) ∧ is_detachable (function n) (children n) = true);
}.

Lemma by_id_lookup g i : NoDup (ids (nodes g)) → by_id g !! i = node g i.
Proof. apply collect_lookup. Qed.
Lemma by_id_Some g i : is_Some (by_id g !! i) ↔ i ∈ ids (nodes g).
Proof.
  unfold by_id, collect. assert (∀ ns (m : Index),
    is_Some (foldl (λ (m : Index) n, <[id n := n]> m) m ns !! i) ↔ is_Some (m !! i) ∨ i ∈ ids ns) as H.
  { intros ns. induction ns as [|n ns IH]; intros m; simpl; [set_solver|]. rewrite IH, lookup_insert_is_Some, elem_of_cons.
    destruct (decide (id n = i)) as [->|]; naive_solver. }
  rewrite H, lookup_empty. split; [intros [[]|]; done|by right].
Qed.
Lemma size_list_le (l : list Uuid) : (size (list_to_set l : gset Uuid) <= length l)%nat.
Proof.
  induction l as [|x l IH]; [done|]. cbn [list_to_set length]. pose proof (size_union_alt {[x]} (list_to_set l : gset Uuid)) as Hs.
  assert (size ((list_to_set l : gset Uuid) ∖ {[x]}) <= size (list_to_set l : gset Uuid))%nat
    by (apply subseteq_size; set_solver). rewrite size_singleton in Hs. lia.
Qed.
Lemma size_list_NoDup (l : list Uuid) : size (list_to_set l : gset Uuid) = length l ↔ NoDup l.
Proof.
  split; [|by apply size_list_to_set]. induction l as [|x l IH]; [constructor|]. cbn [list_to_set length]. intros Hs.
  pose proof (size_list_le l). destruct (decide (x ∈ l)) as [Hx|Hx].
  - rewrite (subseteq_union_1_L {[x]} (list_to_set l)) in Hs by set_solver. lia.
  - constructor; [done|]. apply IH. rewrite size_union, size_singleton in Hs by set_solver. lia.
Qed.
Lemma size_by_id g : size (by_id g) = length (nodes g) ↔ NoDup (ids (nodes g)).
Proof.
  assert (dom (by_id g) = list_to_set (C := gset Uuid) (ids (nodes g))) as Hd.
  { apply set_eq. intros i. by rewrite elem_of_dom, by_id_Some, elem_of_list_to_set. }
  by rewrite <- size_dom, Hd, <- size_list_NoDup, length_fmap.
Qed.

Lemma adopt_spec index root node cs : ∀ parent,
  match adopt index root node cs parent with
  | Ok parent' => NoDup cs ∧ (∀ c, c ∈ cs → is_Some (index !! c) ∧ c ≠ root ∧ parent !! c = None) ∧
      ∀ c, is_Some (parent' !! c) ↔ is_Some (parent !! c) ∨ c ∈ cs
  | Err _ => ¬ (NoDup cs ∧ ∀ c, c ∈ cs → is_Some (index !! c) ∧ c ≠ root ∧ parent !! c = None)
  end.
Proof.
  induction cs as [|c cs IH]; intros parent; cbn [adopt].
  { split; [constructor|]. split; [by intros c ?%not_elem_of_nil|]. intros c. split; [by left|].
    by intros [?|?%not_elem_of_nil]. }
  destruct (index !! c) as [n|] eqn:En; [|intros [_ Hc]; destruct (Hc c) as [[? ?] _]; [by left|congruence]].
  destruct (decide (c = root)) as [->|Hr]; [intros [_ Hc]; destruct (Hc root) as (_ & ? & _); [by left|done]|].
  destruct (parent !! c) as [other|] eqn:Ep; [intros [_ Hc]; destruct (Hc c) as (_ & _ & ?); [by left|congruence]|].
  specialize (IH (<[c := node]> parent)). destruct (adopt _ _ _ _ _) as [parent'|e].
  - destruct IH as (Hd & Hc & Hp). split; [|split].
    + constructor; [|done]. intros Hin. destruct (Hc c Hin) as (_ & _ & Hx). by rewrite lookup_insert_eq in Hx.
    + intros j [->|Hj]%elem_of_cons; [split_and!; [by eexists|done|done]|]. destruct (Hc j Hj) as (? & ? & Hx).
      apply lookup_insert_None in Hx as [? _]. done.
    + intros j. rewrite Hp, lookup_insert_is_Some, elem_of_cons. destruct (decide (c = j)) as [->|]; naive_solver.
  - intros [Hd Hc]. apply IH. apply NoDup_cons in Hd as [Hx Hd]. split; [done|]. intros j Hj.
    destruct (Hc j) as (? & ? & ?); [by right|]. split_and!; [done..|]. rewrite lookup_insert_ne; [done|]. by intros ->.
Qed.
Lemma adopt_all_spec index root ns : ∀ parent,
  match adopt_all index root ns parent with
  | Ok parent' => NoDup (all_children ns) ∧
      (∀ c, c ∈ all_children ns → is_Some (index !! c) ∧ c ≠ root ∧ parent !! c = None) ∧
      ∀ c, is_Some (parent' !! c) ↔ is_Some (parent !! c) ∨ c ∈ all_children ns
  | Err _ => ¬ (NoDup (all_children ns) ∧
      ∀ c, c ∈ all_children ns → is_Some (index !! c) ∧ c ≠ root ∧ parent !! c = None)
  end.
Proof.
  induction ns as [|n ns IH]; intros parent; cbn [adopt_all].
  { split; [constructor|]. split; [by intros c ?%not_elem_of_nil|]. intros c. split; [by left|].
    by intros [?|?%not_elem_of_nil]. }
  unfold all_children in *. cbn [mbind list_bind]. pose proof (adopt_spec index root (id n) (default [] (children n)) parent) as Ha.
  destruct (adopt _ _ _ _ _) as [parent1|e].
  - destruct Ha as (Hd1 & Hc1 & Hp1). specialize (IH parent1). destruct (adopt_all _ _ _ _) as [parent'|e].
    + destruct IH as (Hd & Hc & Hp). split; [|split].
      * apply NoDup_app. split_and!; [done| |done]. intros j Hj Hj'. destruct (Hc j Hj') as (_ & _ & Hx).
        assert (is_Some (parent1 !! j)) as [? ?] by (apply Hp1; by right). congruence.
      * intros j [Hj|Hj]%elem_of_app; [by apply Hc1|]. destruct (Hc j Hj) as (? & ? & Hx). split_and!; [done..|].
        apply eq_None_not_Some. intros Hs. assert (is_Some (parent1 !! j)) as [? ?] by (apply Hp1; by left). congruence.
      * intros j. rewrite Hp, Hp1, elem_of_app. tauto.
    + intros [Hd Hc]. apply IH. apply NoDup_app in Hd as (_ & Hx & Hd). split; [done|]. intros j Hj.
      destruct (Hc j) as (? & ? & Hn); [apply elem_of_app; by right|]. split_and!; [done..|]. apply eq_None_not_Some.
      intros [Hs|Hs]%Hp1; [rewrite Hn in Hs; by destruct Hs|by apply (Hx j)].
  - intros [Hd Hc]. apply Ha. apply NoDup_app in Hd as (Hd & _ & _). split; [done|]. intros j Hj. apply Hc.
    apply elem_of_app. by left.
Qed.
Lemma loose_spec root (parent : gmap Uuid Uuid) ns :
  let free := filter (λ n, id n ≠ root ∧ parent !! id n = None) ns in
  match loose root parent ns with
  | Ok l => l = ids free ∧ ∀ n, n ∈ free → is_detachable (function n) (children n) = true
  | Err _ => ∃ n, n ∈ free ∧ is_detachable (function n) (children n) = false
  end.
Proof.
  induction ns as [|n ns IH]; cbn [loose]; [split; [done|by intros n ?%not_elem_of_nil]|]. cbv zeta. rewrite filter_cons.
  case_decide as Hr.
  - rewrite decide_False by (intros [? Hx]; rewrite Hx in Hr; naive_solver). exact IH.
  - assert (id n ≠ root ∧ parent !! id n = None) as Hf by (split; [naive_solver|apply eq_None_not_Some; naive_solver]).
    rewrite decide_True by done. destruct (is_detachable _ _) eqn:Ed; simpl; [|exists n; split; [by left|done]].
    destruct (loose root parent ns) as [l|e].
    + destruct IH as [-> Hall]. split; [done|]. intros m [->|Hm]%elem_of_cons; [done|by apply Hall].
    + destruct IH as (m & Hm & Hd). exists m. split; [by right|done].
Qed.

Section CheckTree.
Variables (g : Graph) (root : Uuid).
Local Abbreviation all_ids := (ids (nodes g)).
Hypothesis Hroot : root ∈ all_ids.

Lemma child_in_all i c : NoDup all_ids → child_of (by_id g) i c → c ∈ all_children (nodes g).
Proof.
  intros Hd. unfold child_of, children_of. rewrite by_id_lookup by done. unfold node. destruct (node_in (nodes g) i) as [n|] eqn:En;
    simpl; [|by intros ?%not_elem_of_nil]. apply node_in_Some in En as [Hn _]. intros Hc. apply list_elem_of_bind. by exists n.
Qed.
Lemma reached_in i : NoDup all_ids → (∀ c, c ∈ all_children (nodes g) → c ∈ all_ids) → rtc (child_of (by_id g)) root i → i ∈ all_ids.
Proof.
  intros Hd Hc Hr. apply rtc_inv_r in Hr as [->|(j & _ & Hj)]; [done|]. by eapply Hc, child_in_all.
Qed.
Lemma loose_not_reached i : NoDup all_ids → i ∈ loose_ids g root → ¬ rtc (child_of (by_id g)) root i.
Proof.
  intros Hd [[Hne Hc] _]%list_elem_of_filter Hr. apply rtc_inv_r in Hr as [->|(j & _ & Hj)]; [done|].
  by apply Hc, (child_in_all j).
Qed.
(** All are counted once where each is under the root or loose. *)
Lemma count_tree : NoDup all_ids → (∀ c, c ∈ all_children (nodes g) → c ∈ all_ids) →
  (size (subtree (by_id g) root) + length (loose_ids g root))%nat = length (nodes g) ↔
  ∀ i, i ∈ all_ids → rtc (child_of (by_id g)) root i ∨ i ∈ loose_ids g root.
Proof.
  intros Hd Hc. set (sub := subtree (by_id g) root). set (lo := list_to_set (loose_ids g root) : gset Uuid).
  assert (NoDup (loose_ids g root)) as Hl by (by apply NoDup_filter).
  assert (sub ## lo) as Hdis.
  { intros i Hi Hi'. apply elem_of_list_to_set in Hi'. apply (loose_not_reached i Hd Hi'), subtree_spec. done. }
  assert (length (nodes g) = size (list_to_set all_ids : gset Uuid)) as -> by (by rewrite size_list_to_set, length_fmap).
  assert (length (loose_ids g root) = size lo) as -> by (by unfold lo; rewrite size_list_to_set).
  rewrite <- size_union by done.
  assert (sub ∪ lo ⊆ list_to_set all_ids) as Hsub.
  { intros i [Hi|Hi]%elem_of_union; apply elem_of_list_to_set.
    - apply reached_in; [done..|]. by apply subtree_spec.
    - apply elem_of_list_to_set, list_elem_of_filter in Hi as [_ Hi]. done. }
  split.
  - intros Hs i Hi. assert (i ∈ sub ∪ lo) as [Hi'|Hi']%elem_of_union.
    { rewrite (set_subseteq_size_eq _ _ Hsub) by lia. by apply elem_of_list_to_set. }
    + left. by apply subtree_spec.
    + right. by apply elem_of_list_to_set in Hi'.
  - intros Hall. f_equal. apply set_eq. intros i. split; [apply Hsub|]. intros Hi%elem_of_list_to_set.
    destruct (Hall i Hi) as [Hr|Hr]; apply elem_of_union; [left; by apply subtree_spec|right; by apply elem_of_list_to_set].
Qed.

(** [check_tree] takes exactly the trees with loose calls beside them, and answers
    those, in order. *)
Lemma check_tree_spec :
  match check_tree g root with
  | Ok detached => is_tree g root ∧ detached = merge_sort Z.le (loose_ids g root)
  | Err _ => ¬ is_tree g root
  end.
Proof.
  unfold check_tree. destruct (Nat.eqb_spec (size (by_id g)) (length (nodes g))) as [Hs|Hs]; simpl;
    [|intros Ht; apply Hs, size_by_id, Ht]. apply size_by_id in Hs.
  pose proof (adopt_all_spec (by_id g) root (nodes g) ∅) as Ha. destruct (adopt_all _ _ _ _) as [parent|e].
  2: { intros Ht. apply Ha. split; [apply Ht|]. intros c Hc. split_and!; [apply by_id_Some; by apply Ht| |done].
       intros ->. by apply (tree_root _ _ Ht). }
  destruct Ha as (Hd & Hc & Hp). pose proof (loose_spec root parent (nodes g)) as Hl.
  assert (∀ i, parent !! i = None ↔ i ∉ all_children (nodes g)) as Hp'.
  { intros i. rewrite eq_None_not_Some, Hp, lookup_empty. split; [intros H1 H2; apply H1; by right|intros H1 [[]|]; done]. }
  assert (ids (filter (λ n, id n ≠ root ∧ parent !! id n = None) (nodes g)) = loose_ids g root) as Hfree.
  { unfold loose_ids. clear - Hp'. generalize (all_children (nodes g)) Hp'. clear Hp'. intros cs Hp'.
    induction (nodes g) as [|n ns IH]; [done|]. rewrite fmap_cons, !filter_cons, <- IH.
    destruct (decide (id n ≠ root ∧ id n ∉ cs)) as [Hx|Hx]; [rewrite decide_True|rewrite decide_False]; rewrite ?Hp'; done. }
  destruct (loose root parent (nodes g)) as [l|e].
  2: { destruct Hl as (n & [[Hr Hn] Hin]%list_elem_of_filter & Hdet). intros Ht.
       destruct (tree_under _ _ Ht n Hin) as [Hr'|[_ Hx]]; [|congruence].
       apply (loose_not_reached (id n) Hs); [|done]. apply list_elem_of_filter. rewrite <- Hp'. split; [done|]. by apply list_elem_of_fmap_2. }
  destruct Hl as [-> Hdet]. rewrite Hfree. assert (∀ c, c ∈ all_children (nodes g) → c ∈ all_ids) as Hcl.
  { intros c Hin. apply by_id_Some. by destruct (Hc c Hin) as (? & _). }
  destruct (Nat.eqb_spec (size (subtree (by_id g) root) + length (loose_ids g root)) (length (nodes g))) as [Hn|Hn]; simpl.
  - pose proof (proj1 (count_tree Hs Hcl) Hn) as Hall. split; [|done]. split; [done|done| |done|].
    + intros Hr. by destruct (Hc root Hr) as (_ & ? & _).
    + intros n Hin. destruct (Hall (id n)) as [|Hlo]; [by apply list_elem_of_fmap_2|by left|]. right.
      apply list_elem_of_filter in Hlo as [[Hr Hx] _]. split; [done|]. apply Hdet, list_elem_of_filter. by rewrite Hp'.
  - intros Ht. apply Hn. apply (proj2 (count_tree Hs Hcl)). intros i (n & -> & Hin)%list_elem_of_fmap.
    destruct (tree_under _ _ Ht n Hin) as [|[Hx _]]; [by left|]. destruct (decide (id n = root)) as [->|Hr]; [by left|].
    right. apply list_elem_of_filter. split; [done|]. by apply list_elem_of_fmap_2.
Qed.
End CheckTree.

(** ** No node its own descendant *)
Section Acyclic.
Variables (index : Index) (root : Uuid).
Local Abbreviation Child := (child_of index).
Local Abbreviation Done := (λ c p, Child p c).

(** The children of [i] before the [k]th are done. *)
Definition done_before (done : gset Uuid) (i : Uuid) (k : nat) : Prop :=
  ∀ j c, (j < k)%nat → children_of index i !! j = Some c → c ∈ done.
(** The rest of the stack is the path the walk came to [i] by. *)
Fixpoint came_by (done : gset Uuid) (i : Uuid) (rest : list (Uuid * nat)) : Prop :=
  match rest with
  | [] => i = root
  | (p, k) :: rest => ∃ m, k = Datatypes.S m ∧ children_of index p !! m = Some i ∧ done_before done p m ∧
      is_Some (index !! p) ∧ came_by done p rest
  end.
Record walked (done open : gset Uuid) (stack : list (Uuid * nat)) : Prop := {
  w_done : ∀ i, i ∈ done → is_Some (index !! i) ∧ (∀ c, Child i c → c ∈ done) ∧ Acc Done i;
  w_open : open = list_to_set stack.*1;
  w_apart : NoDup stack.*1 ∧ ∀ i, i ∈ stack.*1 → i ∉ done;
  w_stack : match stack with
            | [] => root ∈ done
            | (i, k) :: rest => is_Some (index !! i) ∧ done_before done i k ∧ (k <= length (children_of index i))%nat ∧ came_by done i rest
            end;
}.

Lemma done_before_mono (done done' : gset Uuid) i k : done ⊆ done' → done_before done i k → done_before done' i k.
Proof. intros Hd H j c Hj Hc. by eapply Hd, H. Qed.
Lemma came_by_mono (done done' : gset Uuid) i rest : done ⊆ done' → came_by done i rest → came_by done' i rest.
Proof.
  intros Hd. revert i. induction rest as [|[p k] rest IH]; intros i; [done|]. intros (m & -> & Hc & Hb & Hp & Hr).
  exists m. split_and!; [done..|by eapply done_before_mono|done|by apply IH].
Qed.
Lemma came_by_reaches done i rest : came_by done i rest →
  rtc Child root i ∧ ∀ j, j ∈ rest.*1 → rtc Child root j ∧ rtc Child j i.
Proof.
  revert i. induction rest as [|[p k] rest IH]; intros i.
  - intros ->. split; [done|]. by intros j ?%not_elem_of_nil.
  - intros (m & _ & Hc & _ & _ & Hr). destruct (IH p Hr) as [Hp Hj].
    assert (Child p i) as Hpi by (by eapply list_elem_of_lookup_2). split; [by eapply rtc_r|].
    intros j [->|Hin]%elem_of_cons; [split; [done|by apply rtc_once]|]. destruct (Hj j Hin). split; [done|by eapply rtc_r].
Qed.
Lemma Acc_no_cycle i : Acc Done i → ¬ tc Child i i.
Proof.
  induction 1 as [i _ IH]. intros Ht. inversion Ht as [?? Hii|? j ? Hij Hji]; subst.
  - by apply (IH i Hii), tc_once.
  - apply (IH j Hij). by eapply tc_r.
Qed.

Definition left_to_walk (done open : gset Uuid) (stack : list (Uuid * nat)) : nat :=
  (held_children (unfound index (done ∪ open)) + size (unfound index (done ∪ open))
   + sum_list_with (λ e, Datatypes.S (length (children_of index e.1)) - e.2) stack)%nat.

(** What the walk is for: every node under the root is there, and none is under
    itself. *)
Definition acyclic : Prop := ∀ i, rtc Child root i → is_Some (index !! i) ∧ ¬ tc Child i i.

Lemma walked_end fuel done open : walked done open [] → acyclic_from fuel index done open [] = Some (Ok tt) ∧ acyclic.
Proof.
  intros [Hdone _ _ Hroot]. split; [by destruct fuel|]. intros i Hi.
  assert (i ∈ done) as Hin by (induction Hi as [|x y z Hxy _ IH]; [done|]; apply IH; by apply (Hdone x Hroot)).
  split; [by apply Hdone|]. by apply Acc_no_cycle, Hdone.
Qed.
(** A node all of whose children are done. *)
Lemma walked_pop done open i k rest : walked done open ((i, k) :: rest) → children_of index i !! k = None →
  walked ({[i]} ∪ done) (open ∖ {[i]}) rest.
Proof.
  intros [Hdone -> [Hnd Hap] (Hi & Hb & Hk & Hc)] Hn. rewrite fmap_cons in Hnd, Hap. apply NoDup_cons in Hnd as [Hx Hnd].
  assert (∀ c, Child i c → c ∈ done) as Hall.
  { intros c (j & Hj)%list_elem_of_lookup_1. apply (Hb j); [|done]. apply lookup_ge_None in Hn. apply lookup_lt_Some in Hj. lia. }
  split.
  - intros j [->%elem_of_singleton|Hj]%elem_of_union.
    + split; [done|]. split; [set_solver|]. constructor. intros c Hic. by apply Hdone, Hall.
    + destruct (Hdone j Hj) as (? & ? & ?). split; [done|]. split; [set_solver|done].
  - apply set_eq. intros j. rewrite fmap_cons. cbn [list_to_set fst]. set_solver.
  - split; [done|]. intros j Hj. specialize (Hap j). set_solver.
  - destruct rest as [|[p m] rest]; [simpl in Hc; subst i; set_solver|]. destruct Hc as (m' & -> & Hpi & Hbp & Hp & Hc).
    split_and!; [done| |by apply lookup_lt_Some in Hpi|by eapply came_by_mono; [|exact Hc]; set_solver].
    intros j c Hj Hpc. destruct (decide (j = m')) as [->|]; [assert (c = i) as -> by congruence; set_solver|].
    apply elem_of_union_r. apply (Hbp j); [lia|done].
Qed.
Lemma walked_skip done open i k rest c : walked done open ((i, k) :: rest) → children_of index i !! k = Some c → c ∈ done →
  walked done open ((i, Datatypes.S k) :: rest).
Proof.
  intros [Hdone Ho Hap (Hi & Hb & Hk & Hc)] Hn Hin. split; [done|done|done|].
  split_and!; [done| |by apply lookup_lt_Some in Hn|done].
  intros j x Hj Hx. destruct (decide (j = k)) as [->|]; [congruence|]. apply (Hb j); [lia|done].
Qed.
Lemma walked_push done open i k rest c : walked done open ((i, k) :: rest) → children_of index i !! k = Some c →
  is_Some (index !! c) → c ∉ open → c ∉ done → walked done ({[c]} ∪ open) ((c, O) :: (i, Datatypes.S k) :: rest).
Proof.
  intros [Hdone -> [Hnd Hap] (Hi & Hb & Hk & Hc)] Hn Hic Ho Hd.
  assert (c ∉ ((i, k) :: rest).*1) as Hno by (intros Hx; by apply Ho, elem_of_list_to_set).
  split; [done|done| |].
  - split; [by constructor|]. intros j [->|Hj]%elem_of_cons; [done|by apply Hap].
  - split_and!; [done|intros j x ?; lia|lia|]. exists k. done.
Qed.

Lemma left_pop done i k rest n : index !! i = Some n → i ∉ done → i ∉ rest.*1 → (k <= length (children_of index i))%nat →
  (left_to_walk ({[i]} ∪ done) (list_to_set ((i, k) :: rest).*1 ∖ {[i]}) rest
   < left_to_walk done (list_to_set ((i, k) :: rest).*1) ((i, k) :: rest))%nat.
Proof.
  intros Hn Hd Hr Hk. unfold left_to_walk. cbn [sum_list_with fst snd].
  replace ({[i]} ∪ done ∪ (list_to_set ((i, k) :: rest).*1 ∖ {[i]})) with (done ∪ list_to_set ((i, k) :: rest).*1); [lia|].
  apply set_eq. intros j. rewrite fmap_cons. cbn [list_to_set fst]. rewrite !elem_of_union, elem_of_difference, elem_of_union, elem_of_singleton.
  destruct (decide (j = i)); tauto.
Qed.
Lemma left_push done open i k rest c n : index !! c = Some n → c ∉ open → c ∉ done → (k < length (children_of index i))%nat →
  (left_to_walk done ({[c]} ∪ open) ((c, O) :: (i, Datatypes.S k) :: rest)
   < left_to_walk done open ((i, k) :: rest))%nat.
Proof.
  intros Hn Ho Hd Hk. unfold left_to_walk. cbn [sum_list_with fst snd].
  replace (done ∪ ({[c]} ∪ open)) with ({[c]} ∪ (done ∪ open)) by set_solver. rewrite unfound_delete.
  assert (unfound index (done ∪ open) !! c = Some n) as Hc by (apply unfound_lookup; set_solver).
  rewrite (held_children_delete (unfound index (done ∪ open)) c n Hc), map_size_delete, Hc.
  assert (size (unfound index (done ∪ open)) ≠ 0%nat) by (intros Hz; apply map_size_empty_inv in Hz; rewrite Hz in Hc; done).
  unfold children_of at 1. rewrite Hn. simpl. lia.
Qed.

Lemma acyclic_from_spec fuel done open stack :
  walked done open stack → (left_to_walk done open stack <= fuel)%nat →
  ∃ r, acyclic_from fuel index done open stack = Some r ∧ (r = Ok tt ↔ acyclic).
Proof.
  revert done open stack. induction fuel as [|fuel IH]; intros done open [|[i k] rest] Hw Hf.
  - destruct (walked_end 0 done open Hw). eexists. split; [done|]. by split.
  - destruct Hw as [_ _ _ (_ & _ & Hk & _)]. unfold left_to_walk in Hf. simpl in Hf. lia.
  - destruct (walked_end (Datatypes.S fuel) done open Hw). eexists. split; [done|]. by split.
  - pose proof Hw as [Hdone Ho [Hnd Hap] (Hi & Hb & Hk & Hc)]. destruct Hi as [n Hn]. cbn [acyclic_from].
    rewrite Hn. cbn [mbind option_bind]. assert (default [] (children n) = children_of index i) as -> by (unfold children_of; by rewrite Hn).
    rewrite fmap_cons in Hnd, Hap. apply NoDup_cons in Hnd as [Hx Hnd]. destruct (came_by_reaches done i rest Hc) as [Hri Hpath].
    destruct (children_of index i !! k) as [c|] eqn:Ec.
    2: { apply IH; [by eapply walked_pop|]. subst open.
         pose proof (left_pop done i k rest n Hn (Hap i (list_elem_of_here _ _)) Hx Hk). lia. }
    assert (Child i c) as Hic by (by eapply list_elem_of_lookup_2). assert (rtc Child root c) as Hrc by (by eapply rtc_r).
    destruct (index !! c) as [nc|] eqn:Enc.
    2: { eexists. split; [done|]. split; [done|]. intros Hg. destruct (Hg c Hrc) as [[? ?] _]. congruence. }
    destruct (decide (c ∈ open)) as [Hco|Hco].
    { eexists. split; [done|]. split; [done|]. intros Hg. destruct (Hg c Hrc) as [_ []]. subst open.
      apply elem_of_list_to_set in Hco. rewrite fmap_cons in Hco. apply elem_of_cons in Hco as [->|Hco]; [by apply tc_once|].
      destruct (Hpath c Hco) as [_ Hci]. eapply tc_rtc_l; [exact Hci|]. by apply tc_once. }
    apply lookup_lt_Some in Ec as Hlt. destruct (decide (c ∈ done)) as [Hcd|Hcd]; apply IH.
    + by eapply walked_skip.
    + unfold left_to_walk in *. cbn [sum_list_with fst snd] in *. lia.
    + by eapply walked_push.
    + pose proof (left_push done open i k rest c nc Enc Hco Hcd Hlt). lia.
Qed.
End Acyclic.

Lemma check_acyclic_spec (g : Graph) (root : Uuid) :
  root ∈ ids (nodes g) →
  ∃ r, check_acyclic g root = Some r ∧ (r = Ok tt ↔ acyclic (by_id g) root).
Proof.
  intros [n Hn]%by_id_Some. unfold check_acyclic. apply acyclic_from_spec.
  - split; [by intros i ?%not_elem_of_empty|set_solver|split; [by apply NoDup_singleton|set_solver]|].
    split_and!; [by eexists|intros j c ?; lia|lia|done].
  - unfold left_to_walk, enough_acyclic. cbn [sum_list_with fst snd]. rewrite union_empty_l_L.
    replace ({[root]} : gset Uuid) with ({[root]} ∪ (∅ : gset Uuid)) by set_solver. rewrite unfound_delete.
    assert (unfound (by_id g) ∅ = by_id g) as -> by (apply map_filter_id; set_solver).
    rewrite (held_children_delete (by_id g) root n Hn), map_size_delete, Hn. unfold children_of. rewrite Hn. simpl.
    assert (size (by_id g) ≠ 0%nat) by (intros Hz; apply map_size_empty_inv in Hz; rewrite Hz in Hn; done). lia.
Qed.

(** The walk that looks for a cycle always ends, and passes a graph exactly when
    every node under the root is one of its nodes and none is its own descendant;
    a node may sit under several parents. *)
Theorem check_acyclic_exact (g : Graph) (root : Uuid) :
  root ∈ ids (nodes g) →
  ∃ r, check_acyclic g root = Some r ∧ (r = Ok tt ↔ acyclic (by_id g) root).
Proof. apply check_acyclic_spec. Qed.

(** C28. [check_tree], one of the checks a graph goes through to be spawned, is exact:
    of a root among its nodes, a graph passes when it is one tree, each of its nodes
    listed once and under one parent at most, with beside it only calls to module
    functions that no node holds: those are answered, in order. Any other graph is
    refused. *)
Theorem check_tree_exact (g : Graph) (root : Uuid) :
  root ∈ ids (nodes g) →
  match check_tree g root with
  | Ok detached => is_tree g root ∧ detached = merge_sort Z.le (loose_ids g root)
  | Err _ => ¬ is_tree g root
  end.
Proof. apply check_tree_spec. Qed.
