(* ===== verification/Planned.v ===== *)
(** * What lowering the detached nodes promises: their one writer, their reads and
    their plan

    [lower] finds what the evaluation of the nodes relies on: the theorems on the
    evaluation apply to every tree that loads and lowers. *)

From S2P Require Import Prelude Values Extern Keys State Store Effects Nodes Schema Graphs GraphLowering Cells Expressions Sorting Detached Evaluation CoreNodes ScatterNode Ticks Lowering Loading Sweeps Loaded Planning.

Lemma fold_results_app {E A B} (f : A → B → result E B) l1 l2 b :
  fold_results f (l1 ++ l2) b = (b ← fold_results f l1 b; fold_results f l2 b).
Proof. revert b. induction l1 as [|x l1 IH]; intros b; [done|]. simpl. destruct (f x b); simpl; [apply IH|done]. Qed.
Lemma result_bind_ok {E A B} (m : result E A) (k : A → result E B) b :
  m ≫= k = Ok b → ∃ a, m = Ok a ∧ k a = Ok b.
Proof. destruct m as [a|e]; [by exists a|done]. Qed.
Lemma collect_results_ok {E A B} (f : A → result E B) l l' :
  collect_results f l = Ok l' → Forall2 (λ a b, f a = Ok b) l l'.
Proof.
  revert l'. induction l as [|a l IH]; intros l' H; [injection H as <-; constructor|].
  apply result_bind_ok in H as (b & Hb & H). apply result_bind_ok in H as (bs & Hbs & [= <-]). constructor; auto.
Qed.

(** ** [sort_unstable] and [dedup] keep the elements *)
Lemma elem_of_dedup x l : x ∈ dedup l ↔ x ∈ l.
Proof.
  induction l as [|y l IH]; [done|]. rewrite elem_of_cons, <- IH. simpl. destruct (dedup l) as [|z r].
  - rewrite list_elem_of_singleton. split; [by left|]. intros [?|H]; [done|inversion H].
  - case_decide; [subst|]; rewrite !elem_of_cons; naive_solver.
Qed.
Lemma elem_of_sorted_dedup x l : x ∈ dedup (merge_sort (≤)%nat l) ↔ x ∈ l.
Proof. by rewrite elem_of_dedup, merge_sort_Permutation. Qed.

Lemma filter_splits {A} (P Q : A → Prop) `{!∀ x, Decision (P x), !∀ x, Decision (Q x)} (l : list A) :
  filter P l ++ filter (λ x, ¬ P x ∧ Q x) l ++ filter (λ x, ¬ P x ∧ ¬ Q x) l ≡ₚ l.
Proof.
  induction l as [|x l IH]; [done|]. rewrite !filter_cons.
  destruct (decide (P x)); [|destruct (decide (Q x))]; repeat first [rewrite decide_True by tauto|rewrite decide_False by tauto].
  - simpl. by rewrite IH.
  - rewrite <- IH at 4. solve_Permutation.
  - rewrite <- IH at 4. solve_Permutation.
Qed.
Lemma reached_in_range (reads : list (list nat)) : reads_ok reads → ∀ start i, (start < length reads)%nat →
  rtc (reads_node reads) start i → (i < length reads)%nat.
Proof. intros Hr start i Hs H. induction H as [|x y z (rs & Hrs & Hy) _ IH]; [done|]. apply IH. by apply (Hr x rs). Qed.

(** ** The nodes a node reads, and those they read *)
Section Closure.
Variable reads : list (list nat).
Hypothesis Hreads : reads_ok reads.

Definition read_by (i : nat) : list nat := default [] (reads !! i).
Definition unreached (reached : gset nat) : nat :=
  sum_list_with (λ i, if decide (i ∈ reached) then O else length (read_by i)) (seq 0 (length reads)).

Lemma unreached_visit i reached : (i < length reads)%nat → i ∉ reached →
  (unreached ({[i]} ∪ reached) + length (read_by i) = unreached reached)%nat.
Proof.
  intros Hi Hr. unfold unreached.
  assert (∀ l, NoDup l →
    (sum_list_with (λ j, if decide (j ∈ {[i]} ∪ reached) then O else length (read_by j)) l
     + (if decide (i ∈ l) then length (read_by i) else O)
     = sum_list_with (λ j, if decide (j ∈ reached) then O else length (read_by j)) l)%nat) as H.
  { induction l as [|j l IH]; intros Hd; [done|]. apply NoDup_cons in Hd as [Hj Hd]. specialize (IH Hd).
    cbn [sum_list_with].
    assert (j ∈ {[i]} ∪ reached ↔ j = i ∨ j ∈ reached) as H1 by set_solver.
    destruct (decide (j = i)) as [->|Hne].
    - rewrite (decide_True (P := i ∈ {[i]} ∪ reached)), (decide_False (P := i ∈ reached)),
        (decide_True (P := i ∈ i :: l)) by set_solver. rewrite decide_False in IH by done. lia.
    - rewrite (decide_ext (i ∈ j :: l) (i ∈ l)) by (rewrite elem_of_cons; naive_solver).
      rewrite (decide_ext (j ∈ {[i]} ∪ reached) (j ∈ reached)) by tauto. lia. }
  specialize (H (seq 0 (length reads)) (NoDup_seq _ _)). rewrite decide_True in H; [done|]. apply elem_of_seq. lia.
Qed.
Lemma closure_ends fuel stack reached :
  Forall (λ i, i < length reads)%nat stack → (length stack + unreached reached <= fuel)%nat →
  is_Some (closure fuel reads stack reached).
Proof.
  revert stack reached. induction fuel as [|fuel IH]; intros [|i stack] reached Hs Hf; simpl in *; try (by eexists); [lia|].
  apply Forall_cons in Hs as [Hi Hs]. case_decide as Hr; [apply IH; [done|lia]|].
  destruct (lookup_lt_is_Some_2 _ _ Hi) as [rs Hrs]. rewrite Hrs. cbn. apply IH.
  - apply Forall_app. split; [|done]. apply Forall_forall. intros r Hr'. apply (Hreads i rs); [done|].
    by rewrite list_elem_of_In, in_rev, <- list_elem_of_In.
  - pose proof (unreached_visit i reached Hi Hr) as H. unfold read_by in H. rewrite Hrs in H. simpl in H.
    rewrite length_app, length_rev. lia.
Qed.
Lemma closure_sound fuel stack reached res (R : nat → Prop) :
  closure fuel reads stack reached = Some res →
  (∀ i, i ∈ reached ∨ i ∈ stack → R i) → (∀ i r, R i → reads_node reads i r → R r) → ∀ i, i ∈ res → R i.
Proof.
  revert stack reached. induction fuel as [|fuel IH]; intros [|i stack] reached Hc H0 Hr; simpl in Hc; simplify_eq; auto.
  case_decide as Hi; [apply (IH _ _ Hc); [|done]; intros j [|]; apply H0; [by left|right; by right]|].
  destruct (reads !! i) as [rs|] eqn:Hrs; [|done]. apply (IH _ _ Hc); [|done].
  assert (R i) as HRi by (apply H0; right; by left).
  intros j [[->%elem_of_singleton|]%elem_of_union|[Hj|]%elem_of_app]; [done|by apply H0; left| |by apply H0; right; right].
  apply (Hr i); [done|]. exists rs. split; [done|]. by rewrite list_elem_of_In, in_rev, <- list_elem_of_In.
Qed.
Lemma closure_complete fuel stack reached res :
  closure fuel reads stack reached = Some res →
  (∀ i r, i ∈ reached → reads_node reads i r → r ∈ reached ∨ r ∈ stack) →
  (∀ i, i ∈ reached ∨ i ∈ stack → i ∈ res) ∧ (∀ i r, i ∈ res → reads_node reads i r → r ∈ res).
Proof.
  assert (∀ res : gset nat, (∀ i r, i ∈ res → reads_node reads i r → r ∈ res ∨ r ∈ []) →
    (∀ i, i ∈ res ∨ i ∈ [] → i ∈ res) ∧ (∀ i r, i ∈ res → reads_node reads i r → r ∈ res)) as Hend.
  { intros re H. split; [intros i [|Hi]; [done|inversion Hi]|]. intros i r Hi Hr.
    destruct (H i r Hi Hr) as [|Hr']; [done|inversion Hr']. }
  revert stack reached. induction fuel as [|fuel IH]; intros [|i stack] reached Hc H0; simpl in Hc; simplify_eq; auto.
  case_decide as Hi.
  - destruct (IH _ _ Hc) as [H1 H2].
    { intros j r Hj Hr. destruct (H0 j r Hj Hr) as [|[->|]%elem_of_cons]; auto. }
    split; [|done]. intros j [|[->|]%elem_of_cons]; auto.
  - destruct (reads !! i) as [rs|] eqn:Hrs; [|done]. destruct (IH _ _ Hc) as [H1 H2].
    { intros j r [->%elem_of_singleton|Hj]%elem_of_union Hr.
      - right. apply elem_of_app. left. destruct Hr as (rs' & Hrs' & Hr). assert (rs' = rs) as -> by congruence.
        by rewrite list_elem_of_In, <- in_rev, <- list_elem_of_In.
      - destruct (H0 j r Hj Hr) as [|[->|]%elem_of_cons]; [set_solver..|]. right. apply elem_of_app. by right. }
    split; [|done]. intros j [|[->|]%elem_of_cons]; apply H1; [set_solver..|]. right. apply elem_of_app. by right.
Qed.

Lemma unreached_none : unreached ∅ = sum_list_with length reads.
Proof.
  unfold unreached, read_by. clear. assert (∀ (l : list (list nat)) k,
    (∀ i, l !! i = reads !! (k + i)%nat) →
    sum_list_with (λ i, if decide (i ∈ (∅ : gset nat)) then O else length (default [] (reads !! i))) (seq k (length l))
    = sum_list_with length l) as H; [|by apply (H reads O)].
  induction l as [|rs l IH]; intros k Hk; [done|]. cbn [length seq sum_list_with].
  rewrite (IH (Datatypes.S k)) by (intros i; rewrite Nat.add_succ_comm; apply (Hk (Datatypes.S i))).
  rewrite decide_False by set_solver. specialize (Hk O). rewrite Nat.add_0_r in Hk. simpl in Hk. by rewrite <- Hk.
Qed.

(** The nodes reached are those read, at any depth, by one of the first. *)
Lemma closure_spec starts : Forall (λ i, i < length reads)%nat starts →
  ∃ res, closure (enough_closed reads starts) reads (rev starts) ∅ = Some res
         ∧ ∀ i, i ∈ res ↔ ∃ start, start ∈ starts ∧ rtc (reads_node reads) start i.
Proof.
  intros Hs. assert (∀ i, i ∈ rev starts ↔ i ∈ starts) as Hrev
    by (intros; by rewrite !list_elem_of_In, <- in_rev).
  destruct (closure_ends (enough_closed reads starts) (rev starts) ∅) as [res Hres].
  { apply Forall_forall. intros i Hi. rewrite Hrev in Hi. by eapply Forall_forall in Hs. }
  { rewrite length_rev. unfold enough_closed. rewrite unreached_none. done. }
  exists res. split; [done|]. intros i. split.
  - revert i. apply (closure_sound _ _ _ _ _ Hres).
    + intros i [Hi|Hi]; [set_solver|]. exists i. rewrite <- Hrev. split; [done|reflexivity].
    + intros i r (st & Hst & Hr) Hir. exists st. split; [done|]. by eapply rtc_r.
  - destruct (closure_complete _ _ _ _ Hres) as [H1 H2]; [set_solver|]. intros (st & Hst & Hr).
    assert (st ∈ res) as Hin by (apply H1; right; by rewrite Hrev). clear Hst.
    induction Hr as [|x y z Hxy _ IH]; [done|]. by apply IH, (H2 x).
Qed.
End Closure.

Section Planned.
Context {S X : Type} `{DS : DataStore S} `{UC : UuidCrate} (usize_max : Z).
Local Abbreviation Slot := (@SlotHandle S _).
Local Abbreviation Cell := (VariableCell Slot).
Local Abbreviation E := BehaviorTreeError.
Local Abbreviation Writers := (gmap nat (option nat * Uuid)).

(** ** Claiming cells *)

#[local] Instance local_in_dec (l : nat) (cs : list Cell) : Decision (Local l ∈ cs).
Proof.
  assert (Local l ∈ cs ↔ l ∈ omap cell_id cs) as H.
  { rewrite list_elem_of_omap. split; [intros Hl; by exists (Local l)|].
    intros ([l'|s] & Hc & Hl); [by injection Hl as ->|done]. }
  destruct (decide (l ∈ omap cell_id cs)); [left|right]; by rewrite H.
Defined.

(** [cs] claimed by one node: they have that writer, the others the one they had;
    what had another writer is attached nodes' in turn. *)
Record claimed (node : Uuid) (writer : option nat) (cs : list Cell) (ws ws' : Writers) : Prop := {
  cl_in l : Local l ∈ cs → ws' !! l = Some (writer, node);
  cl_out l : Local l ∉ cs → ws' !! l = ws !! l;
  cl_before l w other : Local l ∈ cs → ws !! l = Some (w, other) → other = node ∨ (w = None ∧ writer = None);
}.

Lemma claim_ok node writer (c : Cell) ws ws' : claim node writer c ws = Ok ws' → claimed node writer [c] ws ws'.
Proof.
  assert (∀ l (c' : Cell), Local l ∈ [c'] ↔ c' = Local l) as Hs.
  { intros l c'. rewrite list_elem_of_singleton. naive_solver. }
  destruct c as [l|s]; simpl.
  2: { intros [= <-]. split; intros l; try intros w other; by rewrite Hs. }
  intros H. assert (ws' = <[l:=(writer, node)]> ws
    ∧ (∀ w other, ws !! l = Some (w, other) → other = node ∨ (w = None ∧ writer = None))) as [-> Hb].
  { destruct (ws !! l) as [[previous other]|]; [|by injection H as <-].
    destruct (other =? node) eqn:He; simpl in H.
    - injection H as <-. split; [done|]. intros w o [= <- <-]. left. by apply Z.eqb_eq.
    - destruct previous, writer; simpl in H; try done. injection H as <-. split; [done|]. intros w o [= <- <-]. by right. }
  split; intros l'; try intros w other; rewrite Hs; intros Hl; simplify_eq.
  - by rewrite lookup_insert_eq.
  - rewrite lookup_insert_ne; [done|]. congruence.
  - by apply Hb.
Qed.
Lemma claims_ok node writer (cs : list Cell) ws ws' :
  fold_results (claim node writer) cs ws = Ok ws' → claimed node writer cs ws ws'.
Proof.
  revert ws. induction cs as [|c cs IH]; intros ws H.
  - injection H as <-. split; [intros l H; inversion H|done|intros l w other H; inversion H].
  - simpl in H. apply result_bind_ok in H as (ws1 & H1 & H). apply claim_ok in H1 as [I1 O1 B1].
    apply IH in H as [I2 O2 B2]. split; intros l.
    + destruct (decide (Local l ∈ cs)) as [|Hn]; [auto|]. intros [Hl|]%elem_of_cons; [|done].
      rewrite O2 by done. apply I1. rewrite Hl. by left.
    + intros Hl. rewrite elem_of_cons in Hl. rewrite O2, O1; [done|..]; [|tauto].
      rewrite list_elem_of_singleton. tauto.
    + intros w other Hl Hw. destruct (decide (Local l ∈ [c])) as [Hc|Hc]; [by eapply B1|].
      apply elem_of_cons in Hl as [Hl|Hl]; [destruct Hc; rewrite Hl; by left|].
      apply (B2 l w other Hl). by rewrite O1.
Qed.

Section Lower.
Variable arguments_order : Node Slot → list (Uuid * Expression Slot).
Variable functions : FunctionIndex.
Variable variables : gmap Uuid Cell.
Variable cells : gmap NodeParameterId Cell.
Variable nodes : list (Node Slot).
Variable bindings : gmap NodeParameterId Cell.
Variable attached : list (Node Slot).
Local Abbreviation call_writes := (call_writes arguments_order functions variables cells).
Local Abbreviation output_cell := (output_cell cells).
Local Abbreviation argument_cells := (argument_cells arguments_order variables cells).

(** ** A detached node's outputs and state *)
Definition made (node : Uuid) (signature : option ModuleFunction) (ports : list Uuid) : list (Output (S := S)) :=
  omap (λ port, (λ c, mkOutput port c (bindings !! mkNodeParameterId node port) (output_optional signature port))
                  <$> output_cell node port) ports.
Lemma claim_ports_ok at_ node signature ports ws outs st ws' outs' st' :
  fold_results (claim_port cells bindings at_ node signature) ports (ws, outs, st) = Ok (ws', outs', st') →
  fold_results (claim node (Some at_)) (omap (output_cell node) ports) ws = Ok ws'
  ∧ outs' = outs ++ made node signature ports
  ∧ (∀ l, l ∈ st' ↔ l ∈ st ∨ ∃ port, port ∈ ports ∧ port ≠ _RET_PARAM_ID ∧ output_cell node port = Some (Local l)).
Proof.
  revert ws outs st. induction ports as [|port ports IH]; intros ws outs st H.
  - injection H as <- <- <-. split; [done|]. split; [by rewrite app_nil_r|]. intros l. split; [by left|].
    intros [|(p & Hp & _)]; [done|inversion Hp].
  - simpl in H. unfold claim_port at 1 in H. unfold made. simpl. destruct (output_cell node port) as [c|] eqn:Hc; simpl.
    + apply result_bind_ok in H as (fd & H1 & H). apply result_bind_ok in H1 as (ws1 & H1 & [= <-]).
      apply IH in H as (Hf & -> & Hst). rewrite H1. split; [done|]. split; [by rewrite <- app_assoc|].
      intros l. rewrite Hst. unfold state_with. destruct (port =? _RET_PARAM_ID) eqn:Hp.
      * apply Z.eqb_eq in Hp. setoid_rewrite elem_of_cons. naive_solver.
      * apply Z.eqb_neq in Hp. rewrite elem_of_union. setoid_rewrite elem_of_cons.
        assert (l ∈ (list_to_set (option_list (cell_id c)) : gset nat) ↔ c = Local l) as ->; [|naive_solver].
        rewrite elem_of_list_to_set. destruct c as [l'|s]; simpl; [rewrite list_elem_of_singleton; naive_solver|].
        split; [intros Hl; inversion Hl|done].
    + cbn in H. apply IH in H as (Hf & -> & Hst). split; [done|]. split; [done|].
      intros l. rewrite Hst. setoid_rewrite elem_of_cons. naive_solver.
Qed.
Lemma claim_nesteds_ok at_ node (cs : list Cell) ws st ws' st' :
  fold_results (claim_nested at_ node) cs (ws, st) = Ok (ws', st') →
  fold_results (claim node (Some at_)) cs ws = Ok ws'
  ∧ Forall (λ c, is_stored c = false) cs ∧ (∀ l, l ∈ st' ↔ l ∈ st ∨ Local l ∈ cs).
Proof.
  revert ws st. induction cs as [|c cs IH]; intros ws st H.
  - injection H as <- <-. split; [done|]. split; [constructor|]. intros l. split; [by left|].
    intros [|Hl]; [done|inversion Hl].
  - simpl in H. apply result_bind_ok in H as (fd & H1 & H). destruct (is_stored c) eqn:Hc; [done|].
    apply result_bind_ok in H1 as (ws1 & H1 & [= <-]). apply IH in H as (Hf & Hst' & Hst). simpl. rewrite H1.
    split; [done|]. split; [by constructor|]. intros l. rewrite Hst, elem_of_union, elem_of_list_to_set, elem_of_cons.
    destruct c as [l'|s]; [|done]. simpl. rewrite list_elem_of_singleton. naive_solver.
Qed.

(** The cells a detached node writes, and those among them that are its state. *)
Definition writes_cell (outputs : list (list (Output (S := S)))) (i l : nat) : Prop :=
  (∃ os o, outputs !! i = Some os ∧ o ∈ os ∧ o_cell o = Local l)
  ∨ ∃ node, nodes !! i = Some node ∧ Local l ∈ call_writes node.
Definition keeps_state (outputs : list (list (Output (S := S)))) (i l : nat) : Prop :=
  (∃ os o, outputs !! i = Some os ∧ o ∈ os ∧ o_port o ≠ _RET_PARAM_ID ∧ o_cell o = Local l)
  ∨ ∃ node, nodes !! i = Some node ∧ Local l ∈ call_writes node.

(** What is found of the first [k] nodes. *)
Record found_ok (k : nat) (found : Found (S := S)) : Prop := {
  fo_outputs : length (f_outputs found) = k;
  fo_states : length (f_states found) = k;
  fo_rewrites : length (f_rewrites found) = k;
  fo_arguments : length (f_arguments found) = k;
  fo_modules : length (f_modules found) = k;
  fo_own i l node : (i < k)%nat → nodes !! i = Some node → writes_cell (f_outputs found) i l →
    f_writers found !! l = Some (Some i, n_id node);
  fo_sound l w other : f_writers found !! l = Some (w, other) →
    ∃ i, w = Some i ∧ (i < k)%nat ∧ writes_cell (f_outputs found) i l;
  fo_state i st l : f_states found !! i = Some st → (l ∈ st ↔ keeps_state (f_outputs found) i l);
}.

Lemma made_cell node signature ports l :
  Local l ∈ omap (output_cell node) ports ↔ ∃ o, o ∈ made node signature ports ∧ o_cell o = Local l.
Proof.
  unfold made. setoid_rewrite list_elem_of_omap. split.
  - intros (port & Hp & Hc). eexists. split; [exists port; split; [done|by rewrite Hc]|done].
  - intros (o & (port & Hp & Ho) & Hl). exists port. split; [done|].
    destruct (output_cell node port); simpl in Ho; [|done]. injection Ho as <-. simpl in Hl. by rewrite Hl.
Qed.
Lemma made_state node signature ports l :
  (∃ port, port ∈ ports ∧ port ≠ _RET_PARAM_ID ∧ output_cell node port = Some (Local l))
  ↔ ∃ o, o ∈ made node signature ports ∧ o_port o ≠ _RET_PARAM_ID ∧ o_cell o = Local l.
Proof.
  unfold made. setoid_rewrite list_elem_of_omap. split.
  - intros (port & Hp & Hr & Hc). eexists. split; [exists port; split; [done|by rewrite Hc]|done].
  - intros (o & (port & Hp & Ho) & Hr & Hl). exists port.
    destruct (output_cell node port); simpl in Ho; [|done]. injection Ho as <-. simpl in *. by rewrite Hl.
Qed.
Lemma writes_snoc outputs os i l :
  writes_cell (outputs ++ [os]) i l ↔
  writes_cell outputs i l ∨ (i = length outputs ∧ ∃ o, o ∈ os ∧ o_cell o = Local l).
Proof.
  unfold writes_cell. setoid_rewrite lookup_snoc_Some. split.
  - intros [(os' & o & [[_ H]|[-> ->]] & Ho & Hc)|H]; [left; left; by exists os', o|right; by eauto|left; by right].
  - intros [[(os' & o & H & Ho & Hc)|H]|[-> (o & Ho & Hc)]]; [left|by right|left].
    + exists os', o. split; [left; split; [by eapply lookup_lt_Some|done]|done].
    + exists os, o. split; [by right|done].
Qed.
Lemma state_snoc outputs os i l :
  keeps_state (outputs ++ [os]) i l ↔
  keeps_state outputs i l ∨ (i = length outputs ∧ ∃ o, o ∈ os ∧ o_port o ≠ _RET_PARAM_ID ∧ o_cell o = Local l).
Proof.
  unfold keeps_state. setoid_rewrite lookup_snoc_Some. split.
  - intros [(os' & o & [[_ H]|[-> ->]] & Ho & Hc)|H]; [left; left; by exists os', o|right; by eauto|left; by right].
  - intros [[(os' & o & H & Ho & Hc)|H]|[-> (o & Ho & Hc)]]; [left|by right|left].
    + exists os', o. split; [left; split; [by eapply lookup_lt_Some|done]|done].
    + exists os, o. split; [by right|done].
Qed.

Local Abbreviation find_node := (find_node usize_max arguments_order functions variables cells bindings).
Local Abbreviation find_nodes := (find_nodes usize_max arguments_order functions variables cells bindings).

(** What finding one node adds. *)
Lemma find_node_adds k node found found' : find_node k node found = Ok found' →
  ∃ ports st,
    fold_results (claim (n_id node) (Some k)) (omap (output_cell (n_id node)) ports ++ call_writes node) (f_writers found)
      = Ok (f_writers found')
    ∧ f_outputs found' = f_outputs found ++ [made (n_id node) (functions !! n_function node) ports]
    ∧ f_states found' = f_states found ++ [st]
    ∧ (∀ l, l ∈ st ↔ (∃ o, o ∈ made (n_id node) (functions !! n_function node) ports
                           ∧ o_port o ≠ _RET_PARAM_ID ∧ o_cell o = Local l) ∨ Local l ∈ call_writes node)
    ∧ length (f_rewrites found') = Datatypes.S (length (f_rewrites found))
    ∧ length (f_arguments found') = Datatypes.S (length (f_arguments found))
    ∧ length (f_modules found') = Datatypes.S (length (f_modules found)).
Proof.
  unfold find_node. intros H. apply result_bind_ok in H as (called & _ & H).
  destruct (is_interpreter_function_id (n_function node)); [done|].
  apply result_bind_ok in H as (ports & _ & H). apply result_bind_ok in H as ([[ws1 outs] st1] & H1 & H).
  apply result_bind_ok in H as ([ws2 st2] & H2 & [= <-]).
  apply claim_ports_ok in H1 as (Hf1 & -> & Hs1). apply claim_nesteds_ok in H2 as (Hf2 & _ & Hs2).
  exists (_RET_PARAM_ID :: ports), st2. cbn [f_writers f_outputs f_states f_rewrites f_arguments f_modules].
  rewrite fold_results_app, Hf1. split; [done|]. split; [done|]. split; [done|].
  split; [|rewrite !length_app; simpl; lia]. intros l. rewrite Hs2, Hs1, <- made_state. set_solver.
Qed.

Section Distinct.
Hypothesis Hids : NoDup (n_id <$> nodes).

Lemma found_step k node found found' : nodes !! k = Some node →
  found_ok k found → find_node k node found = Ok found' → found_ok (Datatypes.S k) found'.
Proof.
  intros Hk [Ho Hs Hr Ha Hm Hown Hsound Hstate] H.
  apply find_node_adds in H as (ports & st & Hc & Houts & Hsts & Hst & Hr' & Ha' & Hm').
  apply claims_ok in Hc as [Cin Cout Cbefore]. set (cs := omap _ _ ++ _) in *.
  assert (∀ l, Local l ∈ cs ↔ writes_cell (f_outputs found') k l) as Hcs.
  { intros l. unfold cs. rewrite elem_of_app, Houts, writes_snoc, made_cell, Ho. unfold writes_cell. split.
    - intros [|]; [by right|left; right; by exists node].
    - intros [[(os & o & Hos & _)|(n & Hn & Hl)]|[_ ?]]; [apply lookup_lt_Some in Hos; lia|right; by simplify_eq|by left]. }
  assert (∀ i l, (i < k)%nat → writes_cell (f_outputs found') i l ↔ writes_cell (f_outputs found) i l) as Hold.
  { intros i l Hi. rewrite Houts, writes_snoc, Ho. split; [intros [|[-> _]]; [done|lia]|by left]. }
  split; try lia.
  - by rewrite Houts, length_app, Ho, Nat.add_1_r.
  - by rewrite Hsts, length_app, Hs, Nat.add_1_r.
  - intros i l n Hi Hn Hw. destruct (decide (i = k)) as [->|Hne].
    { rewrite Hk in Hn. injection Hn as <-. by apply Cin, Hcs. }
    pose proof Hw as Hw'. rewrite Hold in Hw' by lia. specialize (Hown i l n ltac:(lia) Hn Hw').
    destruct (decide (Local l ∈ cs)) as [Hl|Hl]; [|by rewrite Cout].
    destruct (Cbefore l _ _ Hl Hown) as [He|[He _]]; [|done]. destruct Hne.
    apply (NoDup_lookup _ i k (n_id node) Hids); rewrite list_lookup_fmap; [rewrite Hn|rewrite Hk]; simpl; by rewrite ?He.
  - intros l w other Hl. destruct (decide (Local l ∈ cs)) as [Hin|Hn].
    + rewrite (Cin l Hin) in Hl. injection Hl as <- <-. exists k. split; [done|]. split; [lia|]. by apply Hcs.
    + rewrite (Cout l Hn) in Hl. destruct (Hsound l w other Hl) as (i & -> & Hi & Hw).
      exists i. split; [done|]. split; [lia|]. by apply Hold.
  - intros i st' l. rewrite Hsts, lookup_snoc_Some, Houts, state_snoc, Ho, Hs. intros [[Hi Hst']|[-> <-]].
    + rewrite (Hstate i st' l Hst'). split; [by left|]. intros [|[-> _]]; [done|lia].
    + rewrite Hst. unfold keeps_state. split.
      * intros [|]; [by right|left; right; by exists node].
      * intros [[(os & o & Hos & _)|(n & Hn & Hl)]|[_ ?]]; [apply lookup_lt_Some in Hos; lia|right; by simplify_eq|by left].
Qed.
Lemma find_nodes_ok k l found found' : drop k nodes = l → (k <= length nodes)%nat →
  found_ok k found → find_nodes k l found = Ok found' → found_ok (length nodes) found'.
Proof.
  revert k found. induction l as [|node l IH]; intros k found Hd Hk Hf H.
  - injection H as <-. apply (f_equal length) in Hd. rewrite length_drop in Hd. simpl in Hd.
    by replace (length nodes) with k by lia.
  - simpl in H. apply result_bind_ok in H as (f1 & H1 & H).
    assert (nodes !! k = Some node) as Hn by (rewrite <- (Nat.add_0_r k), <- lookup_drop, Hd; done).
    pose proof (lookup_lt_Some _ _ _ Hn). apply (IH (Datatypes.S k) f1); [|lia| |done].
    + rewrite <- Nat.add_1_r, <- drop_drop, Hd. done.
    + by eapply found_step.
Qed.
End Distinct.
Lemma found_none_ok : found_ok 0 found_none.
Proof. split; try done; intros; try lia; try done. Qed.

(** ** The attached nodes' cells *)
Definition attached_cells (node : Node Slot) : list Cell :=
  omap (output_cell (n_id node)) (attached_ports arguments_order functions node) ++ call_writes node.
Local Abbreviation claim_attached := (claim_attached arguments_order functions variables cells).

Lemma claim_attached_ok a ws ws' : claim_attached a ws = Ok ws' → claimed (n_id a) None (attached_cells a) ws ws'.
Proof. unfold claim_attached, attached_cells. intros H. apply claims_ok. by rewrite fold_results_app. Qed.

Record claimed_all (l : list (Node Slot)) (ws ws' : Writers) : Prop := {
  ca_kept c i other : ws !! c = Some (Some i, other) → other ∉ n_id <$> l → ws' !! c = Some (Some i, other);
  ca_sound c i other : ws' !! c = Some (Some i, other) → ws !! c = Some (Some i, other);
  ca_dom c : is_Some (ws !! c) → is_Some (ws' !! c);
  ca_in a c : a ∈ l → Local c ∈ attached_cells a → ∃ other, ws' !! c = Some (None, other);
}.
Lemma claim_all_ok l ws ws' : fold_results claim_attached l ws = Ok ws' → claimed_all l ws ws'.
Proof.
  revert ws. induction l as [|a l IH]; intros ws H.
  - injection H as <-. split; [done..|]. intros a c Ha. inversion Ha.
  - simpl in H. apply result_bind_ok in H as (ws1 & H1 & H). apply claim_attached_ok in H1 as [I1 O1 B1].
    apply IH in H as [K S1 D I]. split.
    + intros c i other Hc Hn. rewrite fmap_cons, not_elem_of_cons in Hn. destruct Hn as [Hne Hn]. apply K; [|done].
      destruct (decide (Local c ∈ attached_cells a)) as [Hin|Hout]; [|by rewrite O1].
      by destruct (B1 c _ _ Hin Hc) as [?|[? _]].
    + intros c i other Hc. apply S1 in Hc. destruct (decide (Local c ∈ attached_cells a)) as [Hin|Hout].
      * rewrite (I1 c Hin) in Hc. done.
      * by rewrite <- (O1 c Hout).
    + intros c Hc. apply D. destruct (decide (Local c ∈ attached_cells a)) as [Hin|Hout]; [|by rewrite O1].
      rewrite (I1 c Hin). by eexists.
    + intros b c [->|Hb]%elem_of_cons Hc; [|by eapply I]. destruct (D c) as [[[i|] other] Hw].
      { rewrite (I1 c Hc). by eexists. }
      * apply S1 in Hw. rewrite (I1 c Hc) in Hw. done.
      * by eexists.
Qed.

(** ** The writers, once every node has claimed its cells *)
Record written (outputs : list (list (Output (S := S)))) (ws : Writers) : Prop := {
  wr_own i l node : nodes !! i = Some node → writes_cell outputs i l → ws !! l = Some (Some i, n_id node);
  wr_sound l i other : ws !! l = Some (Some i, other) → (i < length nodes)%nat ∧ writes_cell outputs i l;
  wr_attached a l : a ∈ attached → Local l ∈ attached_cells a → ∃ other, ws !! l = Some (None, other);
}.
Lemma written_ok found ws :
  NoDup (n_id <$> nodes ++ attached) → found_ok (length nodes) found →
  fold_results claim_attached attached (f_writers found) = Ok ws → written (f_outputs found) ws.
Proof.
  intros Hids' Hf Hc. rewrite fmap_app in Hids'. apply NoDup_app in Hids' as (_ & Hapart & _).
  apply claim_all_ok in Hc as [K S1 D I]. split.
  - intros i l node Hn Hw. apply K.
    + apply (fo_own _ _ Hf); [by eapply lookup_lt_Some|done..].
    + apply Hapart. by eapply list_elem_of_fmap_2, list_elem_of_lookup_2.
  - intros l i other Hl. apply S1 in Hl. destruct (fo_sound _ _ Hf l _ other Hl) as (j & [= <-] & Hi & Hw). done.
  - done.
Qed.

Section Written.
Variable outputs : list (list (Output (S := S))).
Variable states : list (gset nat).
Variable ws : Writers.
Hypothesis Hws : written outputs ws.

Lemma writes_in_range i l : writes_cell outputs i l → length outputs = length nodes → ∃ node, nodes !! i = Some node.
Proof.
  intros [(os & o & Hos & _)|(node & Hn & _)] Hlen; [|by exists node].
  apply lookup_lt_is_Some_2. rewrite <- Hlen. by eapply lookup_lt_Some.
Qed.
Lemma writer_of_cell c i : length outputs = length nodes →
  writer_of ws c = Some i ↔ ∃ l, c = Local l ∧ writes_cell outputs i l.
Proof.
  intros Hlen. unfold writer_of. destruct c as [l|s]; simpl; [|split; [done|by intros (? & ? & _)]]. split.
  - destruct (ws !! l) as [[[j|] other]|] eqn:Hl; simpl; [|done..]. intros [= <-]. exists l. split; [done|].
    by eapply wr_sound.
  - intros (l' & [= <-] & Hw). destruct (writes_in_range i l Hw Hlen) as [node Hn].
    by rewrite (wr_own _ _ Hws i l node Hn Hw).
Qed.

(** A cell has one writer, if a detached node writes it. *)
Lemma one_writer_of i j l : length outputs = length nodes →
  writes_cell outputs i l → writes_cell outputs j l → i = j.
Proof.
  intros Hlen Hi Hj. destruct (writes_in_range i l Hi Hlen) as [n Hn], (writes_in_range j l Hj Hlen) as [m Hm].
  pose proof (wr_own _ _ Hws i l n Hn Hi). pose proof (wr_own _ _ Hws j l m Hm Hj). congruence.
Qed.
Lemma no_attached_writer i l a : length outputs = length nodes →
  writes_cell outputs i l → a ∈ attached → Local l ∉ attached_cells a.
Proof.
  intros Hlen Hi Ha Hl. destruct (writes_in_range i l Hi Hlen) as [n Hn].
  pose proof (wr_own _ _ Hws i l n Hn Hi). destruct (wr_attached _ _ Hws a l Ha Hl). congruence.
Qed.

(** ** The reads *)
Lemma reads_among_ok node own (l : list Cell) rs : reads_among ws states node own l = Ok rs →
  (∀ r, r ∈ rs ↔ Some r ≠ own ∧ ∃ c, c ∈ l ∧ writer_of ws c = Some r)
  ∧ (∀ c r, c ∈ l → writer_of ws c = Some r → Some r = own → holds_state states r c = true).
Proof.
  revert rs. induction l as [|c l IH]; intros rs H; simpl in H.
  - injection H as <-. split; [|intros c r Hc; inversion Hc].
    intros r. split; [intros Hr; inversion Hr|intros (_ & c & Hc & _); inversion Hc].
  - setoid_rewrite elem_of_cons. destruct (writer_of ws c) as [w|] eqn:Hw; [case_bool_decide as Ho|].
    + destruct (holds_state states w c) eqn:Hh; [|done]. apply IH in H as [H1 H2]. split.
      * intros r. rewrite H1. split; [naive_solver|]. intros (Hr & c' & [->|Hc'] & Hwc); [|by eauto]. congruence.
      * intros c' r [->|Hc'] Hwc; [|by eapply H2]. rewrite Hw in Hwc. by injection Hwc as <-.
    + apply result_bind_ok in H as (rs' & H & [= <-]). apply IH in H as [H1 H2]. split.
      * intros r. rewrite elem_of_cons, H1. split; [naive_solver|]. intros (Hr & c' & [->|Hc'] & Hwc); [left; congruence|].
        right. eauto.
      * intros c' r [->|Hc'] Hwc; [|by eapply H2]. intros <-. congruence.
    + apply IH in H as [H1 H2]. split.
      * intros r. rewrite H1. split; [naive_solver|]. intros (Hr & c' & [->|Hc'] & Hwc); [congruence|by eauto].
      * intros c' r [->|Hc'] Hwc; [congruence|by eapply H2].
Qed.

Local Abbreviation reads_of := (reads_of arguments_order variables cells ws states).

Lemma reads_of_ok node own rs : length outputs = length nodes → reads_of node own = Ok rs →
  (∀ r, r ∈ rs ↔ Some r ≠ own ∧ ∃ l, Local l ∈ argument_cells node ∧ writes_cell outputs r l)
  ∧ (∀ r l, Local l ∈ argument_cells node → writes_cell outputs r l → Some r = own →
       holds_state states r (Local l) = true).
Proof.
  intros Hlen H. unfold Planning.reads_of in H. apply result_bind_ok in H as (read & H & [= <-]).
  apply reads_among_ok in H as [H1 H2]. split.
  - intros r. rewrite elem_of_sorted_dedup, H1. split; intros [Ho Hr]; (split; [done|]).
    + destruct Hr as (c & Hc & Hw). apply writer_of_cell in Hw as (l & -> & Hw); [by exists l|done].
    + destruct Hr as (l & Hl & Hw). exists (Local l). split; [done|]. apply writer_of_cell; [done|by exists l].
  - intros r l Hl Hw Ho. apply (H2 (Local l) r Hl); [|done]. apply writer_of_cell; [done|by exists l].
Qed.

Local Abbreviation find_pull := (find_pull arguments_order variables cells ws states).
(** The nodes an attached node's tick brings up to date. *)
Definition pulled_by (pulls : gmap Uuid (list nat)) (a : Node Slot) : list nat := default [] (pulls !! n_id a).

Lemma find_pulls_ok (l : list (Node Slot)) p0 t0 p t : length outputs = length nodes → NoDup (n_id <$> l) →
  (∀ a, a ∈ l → p0 !! n_id a = None) → fold_results find_pull l (p0, t0) = Ok (p, t) →
  (∀ i, i ∉ n_id <$> l → p !! i = p0 !! i)
  ∧ (∀ a r, a ∈ l → (r ∈ pulled_by p a ↔ ∃ c, Local c ∈ argument_cells a ∧ writes_cell outputs r c))
  ∧ (∀ r, r ∈ t ↔ r ∈ t0 ∨ ∃ a, a ∈ l ∧ r ∈ pulled_by p a).
Proof.
  intros Hlen. revert p0 t0. induction l as [|a l IH]; intros p0 t0 Hd Hfree H.
  - injection H as <- <-. split; [done|]. split; [intros a r Ha; inversion Ha|].
    intros r. split; [by left|]. intros [|(a & Ha & _)]; [done|inversion Ha].
  - apply NoDup_cons in Hd as [Ha Hd]. simpl in H. apply result_bind_ok in H as ([p1 t1] & H1 & H).
    unfold find_pull in H1. apply result_bind_ok in H1 as (rs & H1 & Hp1).
    apply reads_of_ok in H1 as [Hrs _]; [|done].
    assert ((∀ i, i ≠ n_id a → p1 !! i = p0 !! i) ∧ pulled_by p1 a = rs ∧ t1 = t0 ++ rs) as (Hother & Hown & ->).
    { unfold pulled_by. destruct rs as [|r rs]; injection Hp1 as <- <-.
      - split; [done|]. split; [by rewrite Hfree by (by left)|by rewrite app_nil_r].
      - split; [intros; by rewrite lookup_insert_ne|]. by rewrite lookup_insert_eq. }
    destruct (IH p1 (t0 ++ rs) Hd) as (Hk & Hin & Ht); [|done|].
    { intros b Hb. rewrite Hother; [apply Hfree; by right|]. intros He. apply Ha. rewrite <- He. by apply list_elem_of_fmap_2. }
    assert (pulled_by p a = rs) as Hpa by (unfold pulled_by; by rewrite Hk).
    split; [|split].
    + intros i Hi. rewrite fmap_cons, not_elem_of_cons in Hi. destruct Hi. by rewrite Hk, Hother.
    + intros b r [->|Hb]%elem_of_cons; [|by apply Hin]. rewrite Hpa, Hrs. naive_solver.
    + intros r. rewrite Ht, elem_of_app. setoid_rewrite elem_of_cons. rewrite <- Hpa. naive_solver.
Qed.
End Written.

(** ** What lowering promises *)
Local Abbreviation lower := (lower usize_max arguments_order functions variables cells nodes bindings attached).
Definition ids_of (l : list nat) : list Uuid := omap (λ at_, n_id <$> node_at nodes at_) l.
Definition observed_node (observed_ids : gset Uuid) (i : nat) : Prop :=
  ∃ node, nodes !! i = Some node ∧ n_id node ∈ observed_ids.

Record lowered_as (observed_ids : gset Uuid) (l : Lowered (S := S)) (plan : DetachedPlan) (order : list nat) : Prop := {
  lw_ok : lowered_ok l (node_at nodes) (length nodes);
  lw_reads_ok : reads_ok (l_reads l);
  lw_order : sorted (l_reads l) (enough_turns (l_reads l)) = Some (Ok order);
  lw_written : ∃ ws, written (l_outputs l) ws;
  lw_reads i r node : nodes !! i = Some node →
    (reads_node (l_reads l) i r ↔ r ≠ i ∧ ∃ c, Local c ∈ argument_cells node ∧ writes_cell (l_outputs l) r c);
  lw_own i c node : nodes !! i = Some node → Local c ∈ argument_cells node → writes_cell (l_outputs l) i c →
    keeps_state (l_outputs l) i c;
  lw_pulls a r : a ∈ attached →
    (r ∈ pulled_by (l_pulls l) a ↔ ∃ c, Local c ∈ argument_cells a ∧ writes_cell (l_outputs l) r c);
  lw_sinks i : i ∈ l_sinks l ↔ (i < length nodes)%nat ∧ is_sink (l_outputs l) i = true;
  lw_observed i : i ∈ l_observed l ↔ observed_node observed_ids i ∧ i ∉ l_sinks l;
  lw_plan : ∃ every_ demanded : gset nat,
    every_tick plan = ids_of (filter (λ i, i ∈ every_) order)
    ∧ on_demand plan = ids_of (filter (λ i, i ∉ every_ ∧ i ∈ demanded) order)
    ∧ unused plan = ids_of (filter (λ i, i ∉ every_ ∧ i ∉ demanded) order)
    ∧ (∀ i, i ∈ every_ ↔ ∃ start, (start ∈ l_sinks l ∨ start ∈ l_observed l) ∧ rtc (reads_node (l_reads l)) start i)
    ∧ (∀ i, i ∈ demanded ↔ ∃ a start, a ∈ attached ∧ start ∈ pulled_by (l_pulls l) a
                                      ∧ rtc (reads_node (l_reads l)) start i);
}.

Lemma plan_nodes (every_ demanded : gset nat) order p :
  Forall (λ i, i < length nodes)%nat order →
  let plan := foldl (plan_node nodes every_ demanded) p order in
  every_tick plan = every_tick p ++ ids_of (filter (λ i, i ∈ every_) order)
  ∧ on_demand plan = on_demand p ++ ids_of (filter (λ i, i ∉ every_ ∧ i ∈ demanded) order)
  ∧ unused plan = unused p ++ ids_of (filter (λ i, i ∉ every_ ∧ i ∉ demanded) order).
Proof.
  revert p. induction order as [|i order IH]; intros p Ho; cbn zeta; simpl; [by rewrite !app_nil_r|].
  apply Forall_cons in Ho as [Hi Ho]. destruct (IH (plan_node nodes every_ demanded p i) Ho) as (-> & -> & ->).
  unfold plan_node, ids_of, node_at. destruct (lookup_lt_is_Some_2 _ _ Hi) as [n Hn]. rewrite Hn.
  rewrite !filter_cons. destruct (decide (i ∈ every_)) as [He|He]; [|destruct (decide (i ∈ demanded)) as [Hd|Hd]];
    repeat first [rewrite decide_True by tauto|rewrite decide_False by tauto]; simpl; rewrite ?Hn; simpl;
    by rewrite <- ?app_assoc.
Qed.

Local Abbreviation find_reads := (find_reads usize_max arguments_order functions variables cells nodes bindings attached).

(** What is found before the order. *)
Record found_as (found : Found (S := S)) (reads : list (list nat)) (pulls : gmap Uuid (list nat)) (tree_reads : list nat) : Prop := {
  fa_found : found_ok (length nodes) found;
  fa_written : ∃ ws, written (f_outputs found) ws;
  fa_length : length reads = length nodes;
  fa_reads i r node : nodes !! i = Some node →
    (reads_node reads i r ↔ r ≠ i ∧ ∃ c, Local c ∈ argument_cells node ∧ writes_cell (f_outputs found) r c);
  fa_own i c node : nodes !! i = Some node → Local c ∈ argument_cells node → writes_cell (f_outputs found) i c →
    keeps_state (f_outputs found) i c;
  fa_pulls a r : a ∈ attached →
    (r ∈ pulled_by pulls a ↔ ∃ c, Local c ∈ argument_cells a ∧ writes_cell (f_outputs found) r c);
  fa_tree r : r ∈ tree_reads ↔ ∃ a, a ∈ attached ∧ r ∈ pulled_by pulls a;
}.
Lemma find_reads_ok found reads pulls tree_reads fed : NoDup (n_id <$> nodes ++ attached) →
  find_reads = Ok (found, reads, (pulls, tree_reads), fed) → found_as found reads pulls tree_reads.
Proof.
  intros Hids' H. unfold find_reads in H. apply result_bind_ok in H as (fd & Hf & H).
  apply result_bind_ok in H as (ws & Hw & H). apply result_bind_ok in H as ([] & _ & H).
  apply result_bind_ok in H as ([] & _ & H). apply result_bind_ok in H as (rs & Hr & H).
  apply result_bind_ok in H as ([p t] & Hp & [= <- <- <- <- _]).
  assert (NoDup (n_id <$> nodes) ∧ NoDup (n_id <$> attached)) as [Hd Hda].
  { rewrite fmap_app in Hids'. by apply NoDup_app in Hids' as (? & _ & ?). }
  pose proof (find_nodes_ok Hd 0 nodes found_none fd (drop_0 _) ltac:(lia) found_none_ok Hf) as Hok.
  pose proof (written_ok fd ws Hids' Hok Hw) as Hws. pose proof (fo_outputs _ _ Hok) as Hlen.
  apply collect_results_ok in Hr. pose proof (Forall2_length _ _ _ Hr) as Hl. rewrite length_imap in Hl.
  assert (∀ i node, nodes !! i = Some node → ∃ l, rs !! i = Some l
    ∧ reads_of arguments_order variables cells ws (f_states fd) node (Some i) = Ok l) as Hat.
  { intros i node Hn. destruct (Forall2_lookup_l _ _ _ i (i, node) Hr) as (l & Hrl & Ho).
    - by rewrite list_lookup_imap, Hn.
    - by exists l. }
  destruct (find_pulls_ok _ (f_states fd) ws Hws attached ∅ [] p t Hlen Hda ltac:(done) Hp) as (_ & Hpull & Htree).
  split; [done|by exists ws|done| | |by apply Hpull|].
  - intros i r node Hn. destruct (Hat i node Hn) as (l & Hl' & Ho).
    apply reads_of_ok with (outputs := f_outputs fd) in Ho as [Ho _]; [|done..]. split.
    + intros (l' & Hl2 & Hr'). assert (l' = l) as -> by congruence. apply Ho in Hr' as [? ?]. split; [congruence|done].
    + intros [Hne Hc]. exists l. split; [done|]. apply Ho. split; [congruence|done].
  - intros i c node Hn Hc Hwc. destruct (Hat i node Hn) as (l & Hl' & Ho).
    apply reads_of_ok with (outputs := f_outputs fd) in Ho as [_ Ho]; [|done..].
    specialize (Ho i c Hc Hwc eq_refl). unfold holds_state in Ho. simpl in Ho. apply bool_decide_eq_true in Ho.
    destruct (f_states fd !! i) as [st|] eqn:Hst; simpl in Ho; [|set_solver]. by apply (fo_state _ _ Hok i st c Hst).
  - intros r. rewrite Htree. split; [intros [Hr'|?]; [inversion Hr'|done]|by right].
Qed.

Lemma reads_in_range found reads pulls tree_reads : found_as found reads pulls tree_reads →
  reads_ok reads ∧ Forall (λ i, i < length reads)%nat tree_reads.
Proof.
  intros Hf. pose proof (fo_outputs _ _ (fa_found _ _ _ _ Hf)) as Hlen. pose proof (fa_length _ _ _ _ Hf) as Hl.
  assert (∀ r c, writes_cell (f_outputs found) r c → (r < length reads)%nat) as Hin.
  { intros r c Hw. destruct (writes_in_range _ r c Hw Hlen) as [n Hn]. rewrite Hl. by eapply lookup_lt_Some. }
  split.
  - intros i rs r Hrs Hr. destruct (lookup_lt_is_Some_2 nodes i) as [n Hn].
    { rewrite <- Hl. by eapply lookup_lt_Some. }
    destruct (proj1 (fa_reads _ _ _ _ Hf i r n Hn)) as (_ & c & _ & Hc); [by exists rs|by eapply Hin].
  - apply Forall_forall. intros r (a & Ha & Hr)%(fa_tree _ _ _ _ Hf).
    apply (fa_pulls _ _ _ _ Hf a r Ha) in Hr as (c & _ & Hc). by eapply Hin.
Qed.

Lemma lower_as observed_ids : NoDup (n_id <$> nodes ++ attached) →
  ∃ r, lower observed_ids = Some r ∧ match r with Ok (l, plan) => ∃ order, lowered_as observed_ids l plan order | Err _ => True end.
Proof.
  intros Hids'. unfold lower. destruct find_reads as [[[[found reads] [pulls tree_reads]] fed]|e] eqn:Hfound; [|by eexists].
  apply find_reads_ok in Hfound as Hf; [|done]. clear Hfound.
  destruct (reads_in_range _ _ _ _ Hf) as [Hreads Htree]. pose proof (fa_length _ _ _ _ Hf) as Hl.
  pose proof (sorted_gen reads Hreads) as Hgen. unfold sort_reads.
  destruct (sorted reads (enough_turns reads)) as [[order|[cycle|]]|] eqn:Hsort; [|by eexists|done..]. simpl.
  destruct Hgen as (Hperm & Hafter & _).
  match goal with |- context [enough_closed reads (filter ?P ?l)] => set (starts := filter P l) end.
  destruct (closure_spec reads Hreads starts) as (every_ & Hc1 & Hevery).
  { apply Forall_forall. intros i Hi. unfold starts in Hi. apply list_elem_of_filter in Hi as [_ Hi].
    apply elem_of_seq in Hi. lia. }
  destruct (closure_spec reads Hreads tree_reads Htree) as (demanded & Hc2 & Hdem).
  rewrite Hc1. simpl. rewrite Hc2. simpl. eexists. split; [done|]. exists order.
  assert (Forall (λ i, i < length nodes)%nat order) as Hrange.
  { apply Forall_forall. intros i Hi. rewrite Hperm in Hi. apply elem_of_seq in Hi. lia. }
  pose proof (fa_found _ _ _ _ Hf) as Hok.
  assert (∀ i, i ∈ order ↔ (i < length nodes)%nat) as Hin by (intros i; rewrite Hperm, elem_of_seq, Hl; lia).
  assert (∀ i, (match node_at nodes i with Some node => bool_decide (n_id node ∈ observed_ids) | None => false end) = true
             ↔ observed_node observed_ids i) as Hobs.
  { intros i. unfold observed_node, node_at. destruct (nodes !! i) as [n|]; [rewrite bool_decide_eq_true|]; naive_solver. }
  split; cbn [l_reads l_outputs l_sinks l_observed l_pulls l_arguments l_modules l_rewrites l_cells_only].
  - destruct Hok. split; cbn; try done; rewrite ?length_fmap, ?length_zip_with; try lia.
    intros i Hi. by apply lookup_lt_is_Some_2.
  - done.
  - done.
  - apply (fa_written _ _ _ _ Hf).
  - apply (fa_reads _ _ _ _ Hf).
  - apply (fa_own _ _ _ _ Hf).
  - intros a r Ha. by apply (fa_pulls _ _ _ _ Hf).
  - intros i. rewrite list_elem_of_filter, elem_of_seq. split; [intros [? ?]; split; [lia|done]|intros [? ?]; split; [done|lia]].
  - intros i. rewrite !list_elem_of_filter, elem_of_seq, Hin, andb_true_iff, negb_true_iff, Hobs. split.
    + intros [[H1 H2] H3]. split; [done|]. rewrite H2. by intros [? _].
    + intros [H1 H2]. assert (i < length nodes)%nat as Hi.
      { destruct H1 as (n & Hn & _). by eapply lookup_lt_Some. }
      split; [split; [done|]|done]. destruct (is_sink (f_outputs found) i) eqn:He; [|done].
      destruct H2. split; [done|lia].
  - exists every_, demanded. destruct (plan_nodes every_ demanded order (mkDetachedPlan [] [] []) Hrange) as (-> & -> & ->).
    do 3 (split; [done|]). split.
    + intros i. rewrite Hevery. apply exist_proper. intros st. unfold starts.
      rewrite !list_elem_of_filter, elem_of_seq, Hin, orb_true_iff, andb_true_iff, negb_true_iff, Hobs.
      destruct (is_sink (f_outputs found) st); intuition (try done; try lia).
    + intros i. rewrite Hdem. setoid_rewrite (fa_tree _ _ _ _ Hf). naive_solver.
Qed.
End Lower.

(** ** The nodes of a tree, and those it holds *)
Section Attached.
Variable index : gmap Uuid (Node Slot).
Hypothesis Hindex : ∀ i n, index !! i = Some n → n_id n = i.
Variable R : Uuid → Prop.
Hypothesis HR : ∀ i n c, R i → index !! i = Some n → c ∈ default [] (n_children n) → R c.

Lemma omap_children_length l : (length (omap (λ child, index !! child) l) <= length l)%nat.
Proof. unfold omap. induction l as [|c l IH]; simpl; [lia|]. destruct (index !! c); simpl; lia. Qed.
Lemma attached_nodes_ok fuel (held : list (Node Slot)) (seen : gset Uuid) :
  (∀ n, n ∈ held → index !! n_id n = Some n ∧ R (n_id n)) →
  (length held + unheld seen (map_to_list index) <= fuel)%nat →
  ∃ l, attached_nodes fuel index held seen = Some l ∧ NoDup (n_id <$> l)
       ∧ (∀ n, n ∈ l → index !! n_id n = Some n ∧ n_id n ∉ seen ∧ R (n_id n))
       ∧ (∀ n, n ∈ held → n_id n ∈ seen ∨ n ∈ l)
       ∧ (∀ n c m, n ∈ l → c ∈ default [] (n_children n) → index !! c = Some m → n_id m ∈ seen ∨ m ∈ l).
Proof.
  revert held seen. induction fuel as [|fuel IH]; intros [|n held] seen Hheld Hf; simpl in Hf; try lia;
    try (exists []; split; [done|]; split; [constructor|]; split; [|split];
         [intros m Hm|intros m Hm|intros m c x Hm]; inversion Hm).
  simpl. destruct (Hheld n ltac:(by left)) as [Hn HRn]. case_decide as Hs.
  { destruct (IH held seen) as (l & Hl & Hd & Hin & Hh & Hc); [intros m Hm; apply Hheld; by right|lia|].
    exists l. do 3 (split; [done|]). split; [|done]. intros m [->|Hm]%elem_of_cons; [by left|by apply Hh]. }
  destruct (IH (rev (omap (λ child, index !! child) (default [] (n_children n))) ++ held) ({[n_id n]} ∪ seen))
    as (l & Hl & Hd & Hin & Hh & Hc).
  - intros m [Hm|Hm]%elem_of_app; [|apply Hheld; by right]. rewrite elem_of_rev in Hm.
    apply list_elem_of_omap in Hm as (c & Hc & Hm). pose proof (Hindex c m Hm) as <-. split; [done|]. by eapply HR.
  - pose proof (unheld_visit seen (n_id n) (map_to_list index) ltac:(apply NoDup_fst_map_to_list) Hs) as Hu.
    rewrite children_sum in Hu. unfold children_in in Hu. rewrite Hn in Hu. simpl in Hu.
    rewrite length_app, length_rev. pose proof (omap_children_length (default [] (n_children n))). lia.
  - assert (∀ m, index !! n_id m = Some m → n_id m ∈ {[n_id n]} ∪ seen ∨ m ∈ l → n_id m ∈ seen ∨ m ∈ n :: l) as Hnow.
    { intros m Hm [[Hi%elem_of_singleton|]%elem_of_union|]; [|by left|right; by right].
      right. rewrite Hi, Hn in Hm. injection Hm as <-. by left. }
    rewrite Hl. simpl. exists (n :: l). split; [done|]. split; [|split; [|split]].
    + rewrite fmap_cons. constructor; [|done]. intros (m & He & Hm)%list_elem_of_fmap.
      destruct (Hin m Hm) as (_ & Hm' & _). apply Hm'. rewrite <- He. set_solver.
    + intros m [->|Hm]%elem_of_cons; [done|]. destruct (Hin m Hm) as (? & ? & ?). split; [done|]. split; [set_solver|done].
    + intros m Hm. apply Hnow; [by apply Hheld|]. apply elem_of_cons in Hm as [->|Hm]; [left; set_solver|].
      apply Hh, elem_of_app. by right.
    + intros m c x Hm Hmc Hx. pose proof (Hindex c x Hx) as <-. apply Hnow; [done|].
      apply elem_of_cons in Hm as [->|Hm]; [|by eapply Hc]. apply Hh, elem_of_app. left. rewrite elem_of_rev.
      apply list_elem_of_omap. by exists (n_id x).
Qed.
End Attached.

(** The root of a tree and the nodes it holds. *)
Definition attached_to (t : LoadedTree (S := S)) (n : Node Slot) : Prop :=
  tree_index t !! n_id n = Some n ∧ holds (tree_index t) (n_id (bt_root (lt_tree t))) (n_id n).
Lemma placed_attached (t : LoadedTree) : placed t →
  ∃ attached, attached_nodes (enough_held (node_index (lt_tree t))) (node_index (lt_tree t)) [bt_root (lt_tree t)] ∅ = Some attached
              ∧ NoDup (n_id <$> lt_detached t ++ attached) ∧ ∀ n, n ∈ attached ↔ attached_to t n.
Proof.
  intros [Hi Hroot Hd Hap]. unfold attached_to, tree_index in *. set (index := node_index (lt_tree t)) in *.
  destruct (attached_nodes_ok index Hi (holds index (n_id (bt_root (lt_tree t)))))
    with (fuel := enough_held index) (held := [bt_root (lt_tree t)]) (seen := ∅ : gset Uuid) as (l & Hl & Hdl & Hin & Hh & Hc).
  - intros i n c Hhd Hn Hc. by eapply holds_child.
  - intros n ->%list_elem_of_singleton. split; [done|constructor].
  - rewrite unheld_empty. unfold enough_held. simpl. lia.
  - exists l. split; [done|]. split.
    + rewrite fmap_app. apply NoDup_app. split; [done|]. split; [|done].
      intros i (n & -> & Hn)%list_elem_of_fmap (m & He & Hm)%list_elem_of_fmap.
      apply (Hap n Hn). rewrite He. by apply Hin.
    + intros n. split; [intros Hn; by destruct (Hin n Hn) as (? & _ & ?)|]. intros [Hn Hhd].
      assert (∀ i, holds index (n_id (bt_root (lt_tree t))) i → ∀ m, index !! i = Some m → m ∈ l) as H; [|by apply (H _ Hhd)].
      induction 1 as [|i m c _ IH Hm Hmc]; intros x Hx.
      * rewrite Hroot in Hx. injection Hx as <-. destruct (Hh (bt_root (lt_tree t))); [by left|set_solver|done].
      * destruct (Hc m c x (IH m Hm) Hmc Hx); [set_solver|done].
Qed.
End Planned.

(** ** The theorems: of the trees that load and lower *)
Section Theorems.
Context {S X : Type} `{DS : DataStore S} `{UC : UuidCrate} `{CB : !CallBridge S X} (usize_max : Z).
Local Abbreviation Slot := (@SlotHandle S _).
Local Abbreviation W := (World S X).
Variable resolver : Resolver S.
Variable names : gmap Uuid string.
Variable arguments_order : Node Slot → list (Uuid * Expression Slot).
Variable nodes_order : gmap Uuid (Node Slot) → list (Node Slot).
Variable readers_order : gmap NodeParameterId NodeParameterId → list NodeParameterId.
Hypothesis arguments_permuted : ∀ n, arguments_order n ≡ₚ map_to_list (n_arguments n).
Hypothesis nodes_permuted : ∀ m, nodes_order m ≡ₚ (map_to_list m).*2.
Hypothesis readers_permuted : ∀ m, readers_order m ≡ₚ (map_to_list m).*1.
Local Abbreviation load := (load_behavior_tree_nodes_with (X := X) resolver names arguments_order nodes_order readers_order).
Variable functions : FunctionIndex.
Variable observed_ids : gset Uuid.
Local Abbreviation lower t := (lower_detached usize_max arguments_order t functions observed_ids).

(** Of a loaded tree: its detached nodes, the cells one reads, the cells one
    writes, the cells an attached node writes. *)
Definition detached_at (t : LoadedTree (S := S)) (i : nat) (n : Node Slot) : Prop := lt_detached t !! i = Some n.
Definition node_reads (t : LoadedTree) (n : Node Slot) (c : nat) : Prop :=
  Local c ∈ argument_cells arguments_order (bt_variables (lt_tree t)) (node_arg_variables (lt_tree t)) n.
Definition node_writes (t : LoadedTree) (l : Lowered (S := S)) (i c : nat) : Prop :=
  writes_cell arguments_order functions (bt_variables (lt_tree t)) (node_arg_variables (lt_tree t)) (lt_detached t)
    (l_outputs l) i c.
Definition attached_writes (t : LoadedTree) (n : Node Slot) (c : nat) : Prop :=
  Local c ∈ attached_cells arguments_order functions (bt_variables (lt_tree t)) (node_arg_variables (lt_tree t)) n.

Lemma lowered_tree (t : LoadedTree) (nodes : list (Node Slot)) (w w' : W) : load nodes w = Some (Ok t, w') →
  ∃ attached r, (∀ n, n ∈ attached ↔ attached_to t n) ∧ NoDup (n_id <$> lt_detached t) ∧ lower t = Some r ∧
    match r with
    | Err _ => True
    | Ok (l, plan) => ∃ order, lowered_as arguments_order functions (bt_variables (lt_tree t)) (node_arg_variables (lt_tree t))
                                 (lt_detached t) attached observed_ids l plan order
    end.
Proof.
  intros Hload%load_placed; [|done..]. pose proof (pl_distinct _ Hload) as Hd.
  destruct (placed_attached t Hload) as (attached & Ha & Hids & Hin).
  destruct (lower_as usize_max arguments_order functions (bt_variables (lt_tree t)) (node_arg_variables (lt_tree t))
              (lt_detached t) (lt_bindings t) attached observed_ids Hids) as (r & Hr & Hok).
  exists attached, r. unfold lower_detached. rewrite Ha. done.
Qed.
(** The same, of a tree that lowers. *)
Lemma tree_lowered_as (t : LoadedTree) (nodes : list (Node Slot)) (w w' : W) l plan :
  load nodes w = Some (Ok t, w') → lower t = Some (Ok (l, plan)) →
  ∃ attached order, (∀ n, n ∈ attached ↔ attached_to t n)
    ∧ lowered_as arguments_order functions (bt_variables (lt_tree t)) (node_arg_variables (lt_tree t))
        (lt_detached t) attached observed_ids l plan order.
Proof.
  intros Hload Hlower. destruct (lowered_tree t nodes w w' Hload) as (attached & r & Ha & _ & Hr & Hok).
  rewrite Hlower in Hr. injection Hr as <-. destruct Hok as [order Hok]. by exists attached, order.
Qed.

Variable nodes : list (Node Slot).
Variables w w' : W.
Variable t : LoadedTree (S := S).
Hypothesis Hload : load nodes w = Some (Ok t, w').

(** C35. Lowering the detached nodes of a loaded tree always ends, and where it
    accepts them a tick always ends with everything it reads up to date: whichever
    attached nodes tick, in whichever order, what they pull brought up to date one
    after the other, each detached node they read is brought
    up to date and calls its function at most once, and the tick of the sinks after
    them brings every sink and every observed node up to date. *)
Theorem loaded_tree_settles :
  ∃ r, lower t = Some r ∧
  match r with
  | Err _ => True
  | Ok (l, plan) => ∀ (scope : Scope S) (ticked : list (Node Slot)) (s : Pulls W),
      Forall (attached_to t) ticked → length (d_caches s) = length (lt_detached t) →
      let ids := n_id <$> lt_detached t in
      let run := evaluate usize_max l (node_at (lt_detached t)) scope in
      let pulls := ticked ≫= pulled_by (l_pulls l) in
      ∃ fuel s1 s2,
        (∀ more, requests_of ids (l_reads l) run (fuel + more) pulls s = Some (Ok tt, s1))
        ∧ Forall (λ i, is_Some (fresh ids s1 i)) pulls ∧ (∀ i, called_once s s1 i)
        ∧ (∀ more, ∃ outcome, tick_sinks usize_max l (node_at (lt_detached t)) scope (fuel + more) ids s1 = Some (outcome, s2))
        ∧ Forall (λ i, is_Some (fresh ids s2 i)) (l_sinks l ++ l_observed l)
  end.
Proof.
  destruct (lowered_tree t nodes w w' Hload) as (attached & r & Ha & _ & Hr & Hok).
  exists r. split; [done|]. destruct r as [[l plan]|]; [|done]. destruct Hok as [order Hok].
  intros scope ticked s Hticked Hs ids run pulls.
  assert (Forall (λ i, i < length (lt_detached t))%nat pulls) as Hpulls.
  { apply Forall_forall. intros i (a & Hi & Hin)%list_elem_of_bind. rewrite Forall_forall in Hticked.
    apply (lw_pulls _ _ _ _ _ _ _ _ _ _ Hok a i) in Hi as (c & _ & Hc); [|by apply Ha, Hticked].
    destruct (lw_ok _ _ _ _ _ _ _ _ _ _ Hok) as [_ _ _ _ Hlen _ _].
    destruct (writes_in_range _ _ _ _ _ _ _ _ Hc Hlen) as [n Hn]. by eapply lookup_lt_Some. }
  destruct (detached_nodes_run usize_max l (node_at (lt_detached t)) scope _ ids order pulls s
              (lw_ok _ _ _ _ _ _ _ _ _ _ Hok) (lw_reads_ok _ _ _ _ _ _ _ _ _ _ Hok) (lw_order _ _ _ _ _ _ _ _ _ _ Hok) Hpulls Hs)
    as (f1 & s1 & Hrun1 & Hf1 & Hl1 & _ & Hc1 & _).
  destruct (tick_sinks_run usize_max l (node_at (lt_detached t)) scope _ ids order s1
              (lw_ok _ _ _ _ _ _ _ _ _ _ Hok) (lw_reads_ok _ _ _ _ _ _ _ _ _ _ Hok) (lw_order _ _ _ _ _ _ _ _ _ _ Hok))
    as (f2 & s2 & Hrun2 & Hf2); [| |done|].
  - apply Forall_forall. intros i Hi. by apply (lw_sinks _ _ _ _ _ _ _ _ _ _ Hok).
  - apply Forall_forall. intros i [(n & Hn & _) _]%(lw_observed _ _ _ _ _ _ _ _ _ _ Hok). by eapply lookup_lt_Some.
  - exists (f1 + f2)%nat, s1, s2. split; [intros more; rewrite <- Nat.add_assoc; apply Hrun1|]. split; [done|].
    split; [done|]. split; [|done]. intros more. rewrite (Nat.add_comm f1), <- Nat.add_assoc. apply Hrun2.
Qed.

Variable l : Lowered (S := S).
Variable plan : DetachedPlan.
Hypothesis Hlower : lower t = Some (Ok (l, plan)).

(** In a tree that lowers, a tree-local cell a detached node writes by the account
    the lowering keeps, as an output or from a call in its arguments, no other node
    writes by that account: neither another detached node nor the root or a node it
    holds. *)
Theorem detached_cell_one_writer (i c : nat) (Hw : node_writes t l i c) :
  (∀ j, node_writes t l j c → j = i) ∧ (∀ a, attached_to t a → ¬ attached_writes t a c).
Proof.
  destruct (tree_lowered_as t nodes w w' l plan Hload Hlower) as (attached & order & Ha & Hok).
  destruct (lw_written _ _ _ _ _ _ _ _ _ _ Hok) as [ws Hws].
  pose proof (ok_outputs _ _ _ (lw_ok _ _ _ _ _ _ _ _ _ _ Hok)) as Hlen. split.
  - intros j Hj. by eapply one_writer_of.
  - intros a Hat. eapply no_attached_writer; [done..|]. by apply Ha.
Qed.

(** In a tree that lowers, what a node's tick brings up to date is exact: a
    detached node is found to read another precisely when a cell its arguments read
    is one the other writes, and a node the tree holds likewise; what a detached node
    reads of its own writes is its state. *)
Theorem reads_are_exact :
  (∀ i r n, detached_at t i n →
     (reads_node (l_reads l) i r ↔ r ≠ i ∧ ∃ c, node_reads t n c ∧ node_writes t l r c))
  ∧ (∀ a r, attached_to t a → (r ∈ pulled_by (l_pulls l) a ↔ ∃ c, node_reads t a c ∧ node_writes t l r c))
  ∧ (∀ i n c, detached_at t i n → node_reads t n c → node_writes t l i c →
       keeps_state arguments_order functions (bt_variables (lt_tree t)) (node_arg_variables (lt_tree t)) (lt_detached t)
         (l_outputs l) i c).
Proof.
  destruct (tree_lowered_as t nodes w w' l plan Hload Hlower) as (attached & order & Ha & Hok).
  split; [|split].
  - intros i r n Hn. by apply (lw_reads _ _ _ _ _ _ _ _ _ _ Hok).
  - intros a r Hat. by apply (lw_pulls _ _ _ _ _ _ _ _ _ _ Hok), Ha.
  - intros i n c Hn. by apply (lw_own _ _ _ _ _ _ _ _ _ _ Hok).
Qed.

(** The plan of a tree that lowers has each detached node once: at every tick the
    sinks, the observed nodes and the nodes they read at any depth; on demand the
    others the tree reads, at any depth; unused the rest; each list in an order that
    puts a node after those that write what it reads. *)
Theorem plan_partitions :
  ∃ order (always demanded unused_ : list nat),
    order ≡ₚ seq 0 (length (lt_detached t)) ∧ after_reads (l_reads l) order
    ∧ always `sublist_of` order ∧ demanded `sublist_of` order ∧ unused_ `sublist_of` order
    ∧ always ++ demanded ++ unused_ ≡ₚ order
    ∧ every_tick plan = ids_of (lt_detached t) always ∧ on_demand plan = ids_of (lt_detached t) demanded
    ∧ unused plan = ids_of (lt_detached t) unused_
    ∧ (∀ i, i ∈ always ↔ ∃ start, (start ∈ l_sinks l ∨ start ∈ l_observed l) ∧ rtc (reads_node (l_reads l)) start i)
    ∧ (∀ i, i ∈ demanded ↔ i ∉ always ∧ ∃ a start, attached_to t a ∧ start ∈ pulled_by (l_pulls l) a
                                                  ∧ rtc (reads_node (l_reads l)) start i).
Proof.
  destruct (tree_lowered_as t nodes w w' l plan Hload Hlower) as (attached & order & Ha & Hok).
  pose proof (lw_reads_ok _ _ _ _ _ _ _ _ _ _ Hok) as Hreads.
  pose proof (sorted_gen (l_reads l) Hreads) as Hgen. rewrite (lw_order _ _ _ _ _ _ _ _ _ _ Hok) in Hgen.
  destruct Hgen as (Hp & Hafter & _). rewrite (ok_reads _ _ _ (lw_ok _ _ _ _ _ _ _ _ _ _ Hok)) in Hp.
  destruct (lw_plan _ _ _ _ _ _ _ _ _ _ Hok) as (every_ & dem & He & Hd & Hu & Hevery & Hdem).
  exists order, (filter (λ i, i ∈ every_) order), (filter (λ i, i ∉ every_ ∧ i ∈ dem) order),
    (filter (λ i, i ∉ every_ ∧ i ∉ dem) order).
  split; [done|]. split; [done|]. do 3 (split; [apply sublist_filter|]).
  split; [apply filter_splits|]. do 3 (split; [done|]).
  assert (∀ start i, (start < length (l_reads l))%nat → rtc (reads_node (l_reads l)) start i → i ∈ order) as Hin.
  { intros start i Hs Hr. rewrite Hp, elem_of_seq, <- (ok_reads _ _ _ (lw_ok _ _ _ _ _ _ _ _ _ _ Hok)).
    split; [lia|]. by apply (reached_in_range (l_reads l) Hreads start i). }
  pose proof (ok_reads _ _ _ (lw_ok _ _ _ _ _ _ _ _ _ _ Hok)) as Hlen. split.
  - intros i. rewrite list_elem_of_filter, Hevery. split; [by intros [? _]|]. intros H. split; [done|].
    destruct H as (start & Hs & Hr). apply (Hin start); [|done]. rewrite Hlen.
    destruct Hs as [Hs|Hs]; [by apply (lw_sinks _ _ _ _ _ _ _ _ _ _ Hok)|].
    apply (lw_observed _ _ _ _ _ _ _ _ _ _ Hok) in Hs as [(n & Hn & _) _]. by eapply lookup_lt_Some.
  - intros i. rewrite !list_elem_of_filter, Hdem. setoid_rewrite Ha. split.
    + intros [[Hne H] _]. split; [|done]. by intros [? _].
    + intros [Hne (a & start & Hat & Hs & Hr)]. assert (i ∈ order) as Hi.
      { apply (Hin start); [|done]. apply (lw_pulls _ _ _ _ _ _ _ _ _ _ Hok a start) in Hs as (c & _ & Hc); [|by apply Ha].
        destruct (writes_in_range _ _ _ _ _ _ _ _ Hc (ok_outputs _ _ _ (lw_ok _ _ _ _ _ _ _ _ _ _ Hok))) as [n Hn].
        rewrite Hlen. by eapply lookup_lt_Some. }
      split; [|done]. split; [|by eauto]. intros Hev. by apply Hne.
Qed.
End Theorems.
