(* ===== verification/PlannedExamples.v ===== *)
(** * The theorems on lowered detached nodes at work on a tree of four nodes

    The root reads what the second node returns, which reads what the third
    returns; the fourth returns to a store key, and nothing reads the fifth. *)

From S2P Require Import Prelude Values Extern Keys State Store SimpleStore Effects Nodes Schema Graphs GraphLowering Cells Expressions Sorting Detached Evaluation CoreNodes ScatterNode Ticks Lowering Loading Sweeps Loaded Planning Planned LoadingExamples.

Local Abbreviation Slot := (@SlotHandle Inner _).
#[local] Instance unit_answers : CallBridge Inner unit := {| arora_call _ w := (Ok (mkCallResult Value.Unit []), w) |}.

Definition returned_by (i : Uuid) : Expression Slot := Expression.NodeArgument (mkNodeParameterId i _RET_PARAM_ID).
Definition planned_nodes : list (Node Slot) :=
  [mkNode 1 0xF1 (list_to_map [(11, returned_by 2)]) None;
   mkNode 2 0xF2 (list_to_map [(21, returned_by 3)]) None;
   mkNode 3 0xF3 (list_to_map [(31, Expression.Value (Value.U8 7))]) None;
   mkNode 4 0xF4 (list_to_map [(_RET_PARAM_ID, Expression.VariableId 9)]) None;
   mkNode 5 0xF5 ∅ None].
Definition planned_tree : LoadedTree := (tree_and_world key_names planned_nodes).1.
Definition planned_after : World Inner unit := (tree_and_world key_names planned_nodes).2.
Lemma planned_loads : loads key_names planned_nodes = true.
Proof. vm_compute. reflexivity. Qed.
Lemma planned_load :
  load_behavior_tree_nodes_with direct_resolver key_names arguments_in_order nodes_in_order readers_in_order planned_nodes empty_world
  = Some (Ok planned_tree, planned_after).
Proof. pose proof (loaded_as _ _ planned_loads) as H. unfold load_example in H. exact H. Qed.

Definition planned_lower : option (result BehaviorTreeError (Lowered * DetachedPlan)) :=
  lower_detached 0 arguments_in_order planned_tree ∅ ∅.
Definition nothing_found : Lowered (S := Inner) := mkLowered ∅ [] [] [] [] [] [] [] [] ∅.
Definition planned_found : Lowered * DetachedPlan :=
  match planned_lower with Some (Ok found) => found | _ => (nothing_found, mkDetachedPlan [] [] []) end.
Definition lowers : bool := match planned_lower with Some (Ok _) => true | _ => false end.
Lemma planned_lowers : lowers = true.
Proof. vm_compute. reflexivity. Qed.
Lemma planned_lowered :
  lower_detached 0 arguments_in_order planned_tree ∅ ∅ = Some (Ok (planned_found.1, planned_found.2)).
Proof.
  pose proof planned_lowers as H. unfold lowers, planned_found, planned_lower in *.
  by destruct (lower_detached 0 arguments_in_order planned_tree ∅ ∅) as [[[? ?]|]|].
Qed.
Example plan_computed : planned_found.2 = mkDetachedPlan [4] [3; 2] [5].
Proof. vm_compute. reflexivity. Qed.
Example sinks_computed : l_sinks planned_found.1 = [2]%nat ∧ l_reads planned_found.1 = [[1]; []; []; []]%nat.
Proof. vm_compute. done. Qed.

Lemma planned_placed : placed planned_tree.
Proof.
  exact (load_placed direct_resolver key_names arguments_in_order nodes_in_order readers_in_order
           arguments_in_order_ok nodes_in_order_ok readers_in_order_ok planned_nodes planned_tree empty_world planned_after planned_load).
Qed.
Definition planned_root : Node Slot := bt_root (lt_tree planned_tree).
Lemma root_attached : attached_to planned_tree planned_root.
Proof. split; [exact (pl_root _ planned_placed)|constructor]. Qed.
Definition planned_start : Pulls (World Inner unit) := mkPulls planned_after (replicate 4 cache_default) 1.
Local Abbreviation planned_ids := (n_id <$> lt_detached planned_tree).

Definition planned_scope : Scope Inner := mkScope ∅ ∅ ∅.
Lemma loaded_tree_settles_witness :
  ∃ fuel s1 s2 outcome,
    requests_of planned_ids (l_reads planned_found.1) (evaluate 0 planned_found.1 (node_at (lt_detached planned_tree)) planned_scope)
      fuel (pulled_by (l_pulls planned_found.1) planned_root) planned_start = Some (Ok tt, s1)
    ∧ tick_sinks 0 planned_found.1 (node_at (lt_detached planned_tree)) planned_scope fuel planned_ids s1 = Some (outcome, s2)
    ∧ Forall (λ i, is_Some (fresh planned_ids s2 i)) (l_sinks planned_found.1).
Proof.
  destruct (loaded_tree_settles 0 direct_resolver key_names arguments_in_order nodes_in_order readers_in_order
              arguments_in_order_ok nodes_in_order_ok readers_in_order_ok ∅ ∅ planned_nodes empty_world planned_after
              planned_tree planned_load) as (r & Hr & H).
  rewrite planned_lowered in Hr. injection Hr as <-.
  destruct (H planned_scope [planned_root] planned_start) as (fuel & s1 & s2 & H1 & _ & _ & H2 & H3).
  - constructor; [exact root_attached|constructor].
  - vm_compute. reflexivity.
  - destruct (H2 0%nat) as [outcome Ho]. exists (fuel + 0)%nat, s1, s2, outcome. specialize (H1 0%nat).
    unfold mbind at 1 in H1. cbn [list_bind] in H1. rewrite app_nil_r in H1. split; [exact H1|].
    split; [exact Ho|]. by apply Forall_app in H3 as [H3 _].
Defined.

(** The third node's return is a cell of its own, which the second reads. *)
Definition first_output (i : nat) : option nat :=
  match l_outputs planned_found.1 !! i with Some (o :: _) => cell_id (o_cell o) | _ => None end.
Lemma first_output_writes i c : first_output i = Some c → node_writes arguments_in_order ∅ planned_tree planned_found.1 i c.
Proof.
  unfold first_output. destruct (l_outputs planned_found.1 !! i) as [[|o os]|] eqn:Hi; [done| |done].
  intros Hc. left. exists (o :: os), o. split; [exact Hi|]. split; [apply list_elem_of_here|].
  destruct (o_cell o); [by injection Hc as ->|done].
Qed.
Lemma third_writes : node_writes arguments_in_order ∅ planned_tree planned_found.1 1 1.
Proof. apply first_output_writes. vm_compute. reflexivity. Qed.

Lemma detached_cell_one_writer_witness :
  (∀ j, node_writes arguments_in_order ∅ planned_tree planned_found.1 j 1 → j = 1%nat)
  ∧ ¬ attached_writes arguments_in_order ∅ planned_tree planned_root 1.
Proof.
  destruct (detached_cell_one_writer 0 direct_resolver key_names arguments_in_order nodes_in_order readers_in_order
              arguments_in_order_ok nodes_in_order_ok readers_in_order_ok ∅ ∅ planned_nodes empty_world planned_after
              planned_tree planned_load planned_found.1 planned_found.2 planned_lowered 1 1 third_writes) as [H1 H2].
  split; [exact H1|exact (H2 planned_root root_attached)].
Defined.

Lemma second_detached : is_Some (lt_detached planned_tree !! 0%nat).
Proof. apply lookup_lt_is_Some_2. vm_compute. lia. Qed.
Lemma reads_are_exact_witness : ∃ n, detached_at planned_tree 0 n ∧
  (reads_node (l_reads planned_found.1) 0 1
   ↔ 1%nat ≠ 0%nat ∧ ∃ c, node_reads arguments_in_order planned_tree n c
                          ∧ node_writes arguments_in_order ∅ planned_tree planned_found.1 1 c).
Proof.
  destruct second_detached as [n Hn]. exists n. split; [exact Hn|].
  exact (proj1 (reads_are_exact 0 direct_resolver key_names arguments_in_order nodes_in_order readers_in_order
              arguments_in_order_ok nodes_in_order_ok readers_in_order_ok ∅ ∅ planned_nodes empty_world planned_after
              planned_tree planned_load planned_found.1 planned_found.2 planned_lowered) 0%nat 1%nat n Hn).
Defined.

Lemma plan_partitions_witness : ∃ always,
  every_tick planned_found.2 = ids_of (lt_detached planned_tree) always
  ∧ ∀ i, i ∈ always ↔ ∃ start, (start ∈ l_sinks planned_found.1 ∨ start ∈ l_observed planned_found.1)
                                 ∧ rtc (reads_node (l_reads planned_found.1)) start i.
Proof.
  destruct (plan_partitions 0 direct_resolver key_names arguments_in_order nodes_in_order readers_in_order
              arguments_in_order_ok nodes_in_order_ok readers_in_order_ok ∅ ∅ planned_nodes empty_world planned_after
              planned_tree planned_load planned_found.1 planned_found.2 planned_lowered)
    as (order & always & demanded & rest & _ & _ & _ & _ & _ & _ & He & _ & _ & Ha & _).
  exists always. split; [exact He|exact Ha].
Defined.
