(* ===== verification/TreeExamples.v ===== *)
(** * The behavior-tree theorems at work on concrete trees

    A small host over the hash-map store, with stand-ins for the crates the
    repository does not hold, and each theorem applied to a tree, a node or a cell
    of it. *)

From S2P Require Import Prelude Values Extern Keys State Store SimpleStore Effects Nodes Schema Cells Expressions CoreNodes ScatterNode Ticks Lowering.

(** ** The host: one that answers every module call with [Unit] *)
Abbreviation EW := (World Inner unit).

(** A regular expression is a literal text. *)
#[local] Instance regex_literal : RegexCrate := {|
  Regex := string;
  Regex_new := Some;
  find re value := match String.index 0 re value with Some _ => Some re | None => None end;
|}.
#[local] Instance no_calls : CallDecoder := {| call_from_value _ := None |}.
#[local] Instance draw_fresh : RandCrate := {| draws taken := [fresh taken] |}.
#[local] Instance draw_fresh_laws : RandLaws.
Proof. constructor. intros taken. exists (fresh taken). split; [apply list_elem_of_here|apply is_fresh]. Qed.
#[local] Instance unit_host : CallBridge Inner unit := {| arora_call _ w := (Ok (mkCallResult Value.Unit []), w) |}.

Definition usize : Z := 2 ^ 64 - 1.
Definition world0 (h : gmap nat (option Value)) : EW := mkWorld h inner_new ∅ ∅ tt.
Lemma world0_ok h : ok_world (world0 h).
Proof. apply inner_new_ok. Qed.

Definition node0 (f : Uuid) : Node SimpleSlot := mkNode 7 f ∅ None.
Definition scope0 (cells : gmap NodeParameterId (VariableCell SimpleSlot)) : Scope Inner := mkScope ∅ cells ∅.
(** Children that return a status by their id. *)
Definition child_status (t : TickId) : T EW BehaviorTreeError Status :=
  mret (if callable_id t =? 1 then Success else if callable_id t =? 2 then Running else Failure).

(** ** Cells and string nodes *)
Lemma optional_maps_presence_witness :
  value_at (write_back (Local 0) (argument_value None true) true
    (world0 {[ 0%nat := Some (Value.U8 1) ]})) (PLocal 0) = None.
Proof.
  destruct (optional_maps_presence (DSL := SimpleDataStoreLaws) (world0 {[ 0%nat := Some (Value.U8 1) ]})
    (Local 0) (PLocal 0) None (world0_ok _) eq_refl) as [Hq _]; [discriminate|].
  exact (Hq (PLocal 0)).
Defined.

Definition two_strings : EW :=
  world0 (<[ 0%nat := Some (Value.String "a") ]> {[ 1%nat := Some (Value.String "b") ]}).
Definition two_cells (p : Uuid) : result BehaviorTreeError (VariableCell SimpleSlot) :=
  Ok (Local (if p =? SET_STR_VARIABLE_PARAM_ID then 0%nat else 1%nat)).
Definition two_places (p : Uuid) : place := PLocal (if p =? SET_STR_VARIABLE_PARAM_ID then 0 else 1).
Definition two_reads (p : Uuid) : option string :=
  Some (if p =? SET_STR_VARIABLE_PARAM_ID then "a"%string else "b"%string).

Lemma core_node_refines_witness :
  ∃ w', tick_core_node SET_STR_FUNCTION_ID 7 two_cells two_strings = Some (Ok (Some Success), w') ∧
    value_at w' (PLocal 0) = Some (Value.String "b").
Proof.
  destruct (core_node_refines (DSL := SimpleDataStoreLaws) two_strings SET_STR_FUNCTION_ID 7 two_cells
    two_places two_reads (world0_ok _)) as [Href _].
  destruct Href as (w' & Hw & Ha).
  - intros ps p Hps Hp. injection Hps as <-.
    apply elem_of_cons in Hp as [->|Hp]; [|apply elem_of_cons in Hp as [->|Hp]; [|by apply elem_of_nil in Hp]];
      (split; [by eexists|reflexivity]).
  - exists w'. split; [exact Hw|]. destruct Ha as [_ Hv]. exact (Hv (PLocal 0)).
Defined.

Definition scatter0 : Scatter Inner := mkScatter 7 "face" (Some direct_resolver).
Lemma scatter_all_or_nothing_witness :
  ∃ r w', scatter_write scatter0 (Value.ArrayString ["face/a"; "face/b"]%string) (Value.ArrayU8 [1; 2]) (world0 ∅)
      = Some (r, w') ∧ r = Ok Success ∧ value_at w' (PKey (mkKey "face/b")) = Some (Value.U8 2).
Proof.
  destruct (scatter_all_or_nothing (DSL := SimpleDataStoreLaws) (world0 ∅) scatter0
    (Value.ArrayString ["face/a"; "face/b"]%string) (Value.ArrayU8 [1; 2]) (world0_ok _))
    as (r & w' & Hrun & _ & _ & Hw & _).
  - intros kept keys Hk. discriminate.
  - reflexivity.
  - exists r, w'. split; [exact Hrun|]. destruct Hw as [Hr Hv]. split; [exact Hr|].
    exact (Hv (PKey (mkKey "face/b"))).
Defined.

(** ** Control nodes *)
Lemma seq_ticks_in_order_witness :
  tick_builtin usize child_status (scope0 ∅) None [mkTickId 1; mkTickId 2; mkTickId 1] (node0 SEQ_FUNCTION_ID)
    (world0 ∅) = Some (Ok (Some Running), world0 ∅).
Proof.
  apply (proj1 (seq_ticks_in_order usize child_status (scope0 ∅) None [mkTickId 1; mkTickId 2; mkTickId 1]
    (node0 SEQ_FUNCTION_ID) (world0 ∅) (world0 ∅) eq_refl)).
  exists [mkTickId 1; mkTickId 2], [mkTickId 1], [Success; Running]. split; [reflexivity|]. split.
  - repeat econstructor.
  - right. split; [discriminate|]. by exists 1%nat.
Defined.

Lemma fallback_is_flipped_seq_witness :
  tick_builtin usize child_status (scope0 ∅) None [mkTickId 3; mkTickId 1] (node0 FALLBACK_FUNCTION_ID) (world0 ∅)
  = Some (Ok (Some Success), world0 ∅).
Proof.
  rewrite (fallback_is_flipped_seq usize child_status (scope0 ∅) None [mkTickId 3; mkTickId 1]
    (node0 FALLBACK_FUNCTION_ID) (node0 SEQ_FUNCTION_ID) (world0 ∅) eq_refl eq_refl).
  reflexivity.
Defined.

Lemma parallel_ticks_all_witness :
  tick_builtin usize child_status (scope0 ∅) None [mkTickId 3; mkTickId 2; mkTickId 1] (node0 PARALLEL_FUNCTION_ID)
    (world0 ∅) = Some (Ok (Some Failure), world0 ∅).
Proof.
  apply (parallel_ticks_all usize child_status (scope0 ∅) None [mkTickId 3; mkTickId 2; mkTickId 1]
    (node0 PARALLEL_FUNCTION_ID) (world0 ∅) Failure (world0 ∅) eq_refl).
  exists [Failure; Running; Success]. split; [repeat econstructor|]. split.
  - split; [discriminate|]. intros Hall. apply Forall_cons in Hall as [He _]. discriminate.
  - split; [intros _; apply list_elem_of_here|reflexivity].
Defined.

(** The index is 1: the first child is not ticked again. *)
Definition index_world (i : Z) : EW := world0 {[ 0%nat := Some (Value.U16 i) ]}.
Definition index_scope : Scope Inner :=
  scope0 {[ mkNodeParameterId 7 SEQ_STAR_CURRENT_INDEX_PARAM_ID := Local 0 ]}.
Lemma seq_star_resumes_witness :
  tick_builtin usize child_status index_scope None [mkTickId 3; mkTickId 1; mkTickId 2; mkTickId 3]
    (node0 SEQ_STAR_FUNCTION_ID) (index_world 1)
  = Some (Ok (Some Running), set (Local 0) (Value.U16 2) (index_world 1)).
Proof.
  apply (seq_star_resumes usize child_status index_scope None
    [mkTickId 3; mkTickId 1; mkTickId 2; mkTickId 3] (node0 SEQ_STAR_FUNCTION_ID) (Local 0) 1 (index_world 1)
    Running _ eq_refl eq_refl eq_refl); [simpl; lia|simpl; lia|].
  exists [mkTickId 1; mkTickId 2], [mkTickId 3], [Success; Running], (index_world 1).
  split; [reflexivity|]. split; [repeat econstructor|]. split; [|reflexivity].
  right. split; [discriminate|]. by exists 1%nat.
Defined.

(** The latch in cell 0, the status output in cell 1; the child fails. *)
Definition run_scope : Scope Inner :=
  scope0 (<[ mkNodeParameterId 7 RUN_STATUS_LATCH_PARAM_ID := Local 0 ]>
         {[ mkNodeParameterId 7 RUN_STATUS_OUT_PARAM_ID := Local 1 ]}).
Lemma run_status_latches_witness :
  ∃ w', tick_builtin usize child_status run_scope None [mkTickId 3] (node0 RUN_STATUS_FUNCTION_ID) (world0 ∅)
      = Some (Ok (Some Failure), w') ∧ value_at w' (PLocal 1) = Some (status_value Failure).
Proof.
  destruct (run_status_latches (DSL := SimpleDataStoreLaws) usize child_status run_scope None
    (node0 RUN_STATUS_FUNCTION_ID) [mkTickId 3] (Local 0) (Local 1) (PLocal 0) (PLocal 1) (mkTickId 3)
    (world0 ∅) (Ok Failure) (world0 ∅) eq_refl eq_refl eq_refl eq_refl eq_refl (world0_ok _) eq_refl eq_refl)
    as (w' & Hw & Ho & _).
  - discriminate.
  - intros st Hst. discriminate.
  - by exists w'.
Defined.

Definition unpack_node : Node SimpleSlot :=
  mkNode 7 UNPACK_FUNCTION_ID {[ UNPACK_VALUES_PARAM_ID := Expression.Value (Value.ArrayU8 [4; 5]) ]} None.
Lemma unpack_all_or_nothing_witness :
  ∃ st w', tick_builtin usize child_status (scope0 ∅) (Some (Ports [None; Some (Local 0)])) [] unpack_node (world0 ∅)
      = Some (Ok (Some st), w') ∧ st = Success ∧ value_at w' (PLocal 0) = Some (Value.U8 5).
Proof.
  destruct (unpack_all_or_nothing (DSL := SimpleDataStoreLaws) usize child_status (scope0 ∅) [] unpack_node
    [None; Some (Local 0)] [None; Some (PLocal 0)] (Value.ArrayU8 [4; 5]) (world0 ∅) (world0 ∅) eq_refl)
    as (st & w' & Hrun & Hst & Hw).
  - unfold argument. cbn [n_arguments unpack_node]. rewrite lookup_singleton_eq.
    cbn [node_parameters_variables scope0]. rewrite lookup_empty. reflexivity.
  - apply world0_ok.
  - repeat constructor.
  - intros [|[|i]] [|[|j]] p Hi Hj; try discriminate; reflexivity.
  - assert (st = Success) as -> by (apply Hst; eexists; split; [reflexivity|simpl; lia]).
    exists Success, w'. split; [exact Hrun|]. split; [reflexivity|]. exact (Hw (PLocal 0)).
Defined.

(** ** Lowering: [seq] over [succeed] and [run] *)
Definition succeed_node : Node SimpleSlot := mkNode 1 SUCCEED_FUNCTION_ID ∅ None.
Definition run_node : Node SimpleSlot := mkNode 2 RUN_FUNCTION_ID ∅ None.
Definition root_node : Node SimpleSlot := mkNode 3 SEQ_FUNCTION_ID ∅ (Some [1; 2]).
Definition small_tree : BehaviorTree (S := Inner) :=
  mkBehaviorTree root_node (<[ 1 := succeed_node ]> (<[ 2 := run_node ]> {[ 3 := root_node ]})) ∅ ∅ ∅.
Definition small_rank (n : Node SimpleSlot) : nat := if n_id n =? 3 then 1 else 0.
Lemma small_acyclic : acyclic small_rank small_tree.
Proof.
  assert (Hroot : child_lower small_rank small_tree root_node).
  { intros child n Hc Hn. cbn [n_children root_node default from_option id] in Hc.
    apply elem_of_cons in Hc as [->|Hc]; [|apply elem_of_cons in Hc as [->|Hc]; [|by apply elem_of_nil in Hc]];
      vm_compute in Hn; injection Hn as <-; vm_compute; lia. }
  split; [exact Hroot|]. intros id node Hn. cbn [small_tree node_index] in Hn.
  apply lookup_insert_Some in Hn as [[_ <-]|[_ Hn]]; [intros c n Hc; by apply elem_of_nil in Hc|].
  apply lookup_insert_Some in Hn as [[_ <-]|[_ Hn]]; [intros c n Hc; by apply elem_of_nil in Hc|].
  by apply lookup_singleton_Some in Hn as [_ <-].
Qed.

Lemma lowering_mirrors_tree_witness :
  ∃ r w', lower_behavior_tree usize 2 small_tree ∅ (world0 ∅) = Some (r, w') ∧
    match r with Err _ => w' = world0 ∅ | Ok lowered => unregister lowered w' = Some (world0 ∅) end.
Proof.
  destruct (lowering_mirrors_tree (DS := SimpleDataStore) usize small_rank small_tree ∅ 2 (world0 ∅) small_acyclic) as (r & w' & Hr & Hw);
    [vm_compute; lia|].
  exists r, w'. split; [exact Hr|]. destruct r; [apply Hw|exact Hw].
Defined.

Definition small_lowered : LoweredTree (S := Inner) * EW :=
  match lower_behavior_tree usize 2 small_tree ∅ (world0 ∅) with
  | Some (Ok lowered, w) => (lowered, w)
  | _ => (mkLoweredTree (mkTickId 0) [] small_tree, world0 ∅)
  end.
Lemma lowered_ticks_return_witness :
  ∃ r w3, lowered_tick usize 2 small_lowered.1 small_lowered.2 = Some (r, w3) ∧
    callables_by_id w3 = callables_by_id small_lowered.2.
Proof.
  apply (lowered_ticks_return (DS := SimpleDataStore) usize small_rank small_tree ∅ 2 (world0 ∅) small_lowered.1 small_lowered.2).
  - intros call w. reflexivity.
  - apply small_acyclic.
  - vm_compute. lia.
  - reflexivity.
  - reflexivity.
Defined.

(** [seq] of a node that succeeds and one that runs is running. *)
Example small_tree_runs :
  match lowered_tick usize 2 small_lowered.1 small_lowered.2 with
  | Some (r, _) => r = Ok Running
  | None => False
  end.
Proof. vm_compute. reflexivity. Qed.

Definition run_function : TickFunction Inner :=
  mkTickFunction (DS := SimpleDataStore) (node0 RUN_FUNCTION_ID) None (scope0 ∅) [] None [].
Lemma native_nodes_witness :
  tick usize child_status run_function (world0 ∅) = Some (Ok Running, world0 ∅).
Proof.
  apply (proj1 (native_nodes (DS := SimpleDataStore) usize child_status run_function (world0 ∅)) eq_refl
    (world0 ∅) (Ok (Some Running)) eq_refl).
Defined.
