(* ===== verification/StoreMeta.v ===== *)
(** * What a store says of its keys: the meta half of [DataStore]'s promises

    [MetaLaws] is what a device relies on of a store's key meta; the hash-map
    store keeps it, and a namespaced view of any store that does. *)

From S2P Require Import Prelude Values Extern Keys State Store SimpleStore Namespaced.

(** No write changes what is said of a key, and saying it writes no value. *)
Class MetaLaws (S : Type) `{DataStoreLaws S} := {
  meta_of : S → Key → option KeyMeta;
  meta_law s keys : meta s keys = meta_of s <$> keys;
  write_meta_law s c s' : ok s → write c s = Ok s' → ∀ k, meta_of s' k = meta_of s k;
  set_meta_law s m s' : ok s → set_meta m s = Ok s' → evolves s s' ∧ ∀ k, contents s' k = contents s k;
}.

Lemma notify_meta eff s : own_meta (notify eff s) = own_meta s ∧ prefix_meta (notify eff s) = prefix_meta s.
Proof. unfold notify. destruct (sc_is_empty eff); [done|]. by destruct (retain _ _ _ _). Qed.

Definition simple_meta_of (s : Inner) (key : Key) : option KeyMeta := default None (head (simple_meta s [key])).
#[export] Program Instance SimpleMetaLaws : MetaLaws Inner := {| meta_of := simple_meta_of |}.
Next Obligation. intros s keys. by apply list_fmap_ext. Qed.
Next Obligation.
  intros s c s' Hok E k. simpl in E. destruct (write_cells c s) as [s1 eff] eqn:Ew.
  destruct (write_cells_spec _ _ _ _ Hok Ew) as ((_ & _ & _ & _ & _ & Ho & Hp) & _).
  rewrite (simple_write_eq _ _ _ _ Ew) in E. injection E as <-. unfold simple_meta_of, simple_meta. destruct (notify_meta eff s1) as [-> ->].
  by rewrite Ho, Hp.
Qed.
Next Obligation.
  intros s m s' Hok [= <-]. split; [|done]. split; [by destruct Hok; split|]. split; [done|]. split; done.
Qed.

Section View.
Context {S : Type} `{ML : MetaLaws S}.

#[export] Program Instance NamespacedMetaLaws : MetaLaws (NamespacedStore S) := {|
  meta_of n key := meta_of (ns_inner n) (prefixed (ns_name n) key);
|}.
Next Obligation. intros n keys. simpl. unfold ns_meta. by rewrite meta_law, <- list_fmap_compose. Qed.
Next Obligation.
  intros n c n' Hok E k. simpl in E. unfold ns_write, lift in E.
  destruct (write _ _) as [s'|] eqn:Ew; [|done]. injection E as <-. simpl. by eapply (write_meta_law (ns_inner n)).
Qed.
Next Obligation.
  intros n m n' Hok E. simpl in E. unfold ns_set_meta, lift in E.
  destruct (set_meta _ _) as [s'|] eqn:Es; [|done]. injection E as <-.
  destruct (set_meta_law (ns_inner n) _ _ Hok Es) as [Hev Hc]. split; [exact (ns_evolves n s' Hev)|]. intros k. exact (Hc (prefixed (ns_name n) k)).
Qed.
End View.
