(* ===== verification/Runtime.v ===== *)
(** * The device's step: [crates/arora/src/runtime.rs]

    A device owns a data store, a clock, a behavior interpreter, its hardware and
    its bridges. A step publishes the clock, applies what the hardware and the
    bridges delivered, ticks the behavior, and sends what changed to all of them,
    as one change. Here the device is one state, a step code over it; what the
    streams deliver is what they hold when the step sweeps them. The engine and
    the interpreter are parameters: what they may do to what they share with the
    device ([Shared]) is theirs. Sends, replies and log lines are recorded in
    order. *)

From S2P Require Import Prelude Values Extern Keys State Store Effects Nodes Schema.

(** ** [arora-behavior]'s tasks and ticks *)

(** [RunPolicy] *)
Inductive RunPolicy := Concurrent.
(** [BehaviorStatus] *)
Inductive BehaviorStatus := StillRunning | Done (r : result string unit).

(** ** [struct TaskRun], [enum RunCalls] *)
Inductive RunCalls :=
| CallsOf (module : option Uuid) (function : Uuid)
| GraphOf (functions : list Uuid)
| TraceOf.
(** How the log names a run: what its label is made of. *)
Inductive RunLabel := LabelFunction (name : option string) (id : Uuid) | LabelGraph (n : nat) | LabelTrace.
Record TaskRun := mkTaskRun {
  run_id : Uuid;
  run_calls : RunCalls;
  run_policy : RunPolicy;
  run_label : option RunLabel;
  run_status : Key;
  run_halted : bool;
  run_interrupted : option string;
}.
(** [TaskRun::started], of the run a [TaskHandle] follows. *)
Definition started (id : Uuid) (status : Key) (calls : RunCalls) (policy : RunPolicy) : TaskRun :=
  mkTaskRun id calls policy None status false None.
(** [TaskRun::calls_module] *)
Definition calls_module (run : TaskRun) (module : Uuid) (exports : list Uuid) : bool :=
  match run_calls run with
  | CallsOf called function => bool_decide (called = Some module) && bool_decide (function ∈ exports)
  | GraphOf functions => existsb (λ f, bool_decide (f ∈ exports)) functions
  | TraceOf => false
  end.
Definition label_run (label : RunLabel) (run : TaskRun) : TaskRun :=
  mkTaskRun (run_id run) (run_calls run) (run_policy run) (Some label) (run_status run) (run_halted run) (run_interrupted run).

(** [function_label] *)
Definition function_label (index : FunctionIndex) (id : Uuid) : RunLabel :=
  LabelFunction (function_name <$> index !! id) id.

(** ** What the bridges bring: [arora-bridge] *)

(** [MethodSignature] *)
Record MethodSignature := mkMethodSignature {
  ms_module_id : Uuid;
  ms_id : Uuid;
  ms_name : string;
  ms_function : Function_;
}.
(** [BridgeOp] *)
Inductive BridgeOp :=
| OpGet (keys : list Key)
| OpUpdate (change : StateChange)
| OpCall (call : Call)
| OpListKeys (prefix : option string)
| OpListMethods (prefix : option string)
| OpDescribeMethods (prefix : option string).
(** [BridgeCommand]: its reply channel by its number. *)
Record BridgeCommand := mkBridgeCommand { cmd_op : BridgeOp; cmd_reply : nat }.
(** [Inbound]: a device-info update changes nothing. *)
Inductive Inbound :=
| InCommand (cmd : BridgeCommand)
| InDeviceInfo
| InDataRequested (requested : bool).

(** The texts of the refusals: what they are printed from. *)
Inductive Refusal :=
| NotInputs (keys : list string)
| NotOfType (keys : list (string * Ty.Type_ * Ty.Type_))
| StoreRefused (e : DataError)
| CallFailed (e : CallError)
| EncodeFailed (what why : string).

(** [RuntimeError] *)
Inductive RuntimeError := StoreError (e : DataError) | BehaviorTreeFailed (message : string).

(** [arora-behavior]'s built-in keys *)
Definition TIME : Key := mkKey "arora/time".
Definition DT : Key := mkKey "arora/dt".

(** ** [Clock] *)
Definition U64_MAX : Z := 2 ^ 64 - 1.
Definition starting_at (start_ns : Z) : Z := if start_ns <=? U64_MAX then start_ns else U64_MAX.
Definition saturating_add (a b : Z) : Z := Z.min (a + b) U64_MAX.
Record ClockValues := mkClockValues { time_ns : Z; dt_ns : Z }.
(** [tick_clock]: [dt] in nanoseconds, cast to a [u64]. *)
Definition tick_clock (clock dt : Z) : Z * ClockValues :=
  let dt_ns := dt mod 2 ^ 64 in
  let time_ns := saturating_add clock dt_ns in
  (time_ns, mkClockValues time_ns dt_ns).

(** ** [Metronome]

    [tick] at [now]: the instant it completes at, no earlier, and the cadence
    after it. *)
Record Metronome := mkMetronome { period : Z; next_due : option Z }.
Definition metronome_tick (now : Z) (m : Metronome) : Z * Metronome :=
  match next_due m with
  | None => (now, mkMetronome (period m) (Some (now + period m)))
  | Some due =>
      if now <? due then (due, mkMetronome (period m) (Some (due + period m)))
      else (now, mkMetronome (period m) (Some (now + period m)))
  end.

(** ** The device *)

(** [InterpreterCell]: a [RefCell]. *)
Inductive InterpreterCell (I : Type) := Free (interpreter : option I) | Borrowed.
Arguments Free {I} interpreter.
Arguments Borrowed {I}.

(** What the engine and the behavior reach besides the device's own state. *)
Record Shared (S X I : Type) := mkShared {
  sh_store : S;
  sh_cell : InterpreterCell I;
  sh_runs : list TaskRun;
  sh_outside : X;
}.
Arguments mkShared {S X I} _ _ _ _.
Arguments sh_store {S X I} _.
Arguments sh_cell {S X I} _.
Arguments sh_runs {S X I} _.
Arguments sh_outside {S X I} _.

(** The engine's [arora_call] and the interpreter's [tick]: they return. *)
Class Host (S X I : Type) := {
  engine_call : Call → Shared S X I → result CallError CallResult * Shared S X I;
  interpreter_tick : FunctionIndex → I → Shared S X I → result string BehaviorStatus * I * Shared S X I;
}.
(** [value_serde::to_value] of what is listed, over the derived serializers. *)
Class ReplyEncoding := {
  keys_to_value : list (string * KeyMeta) → result string Value;
  methods_to_value : list MethodSignature → result string Value;
}.

Inductive LogLine :=
| TaskStarted (id : Uuid) (label : RunLabel) (policy : RunPolicy)
| TaskEnded (id : Uuid) (label : option RunLabel) (outcome : string * option string)
| BehaviorRecovered
| BehaviorFinished
| BehaviorFailed (retried : bool) (message : string)
| DescriptionsRefused (e : DataError).

Record Device (S X I : Type) := mkDevice {
  shared : Shared S X I;
  clock : Z;
  sensors : list StateChange;
  events : list (option nat * Inbound);
  hal_feed : list StateChange;
  inbound : list (option nat * Inbound);
  hal_keys : list (gmap Key KeyMeta);
  hal_stated : gmap Key KeyMeta;
  data_requested : list bool;
  store_changes : Subscription;
  function_index : FunctionIndex;
  behavior_error : option string;
  error_sends : list (option string);
  hal_sent : list StateChange;
  bridge_sent : list (list StateChange);
  replies : list (nat * result Refusal CallResult);
  log : list LogLine;
}.
Arguments mkDevice {S X I} _ _ _ _ _ _ _ _ _ _ _ _ _ _ _ _ _.
Arguments shared {S X I} _.
Arguments clock {S X I} _.
Arguments sensors {S X I} _.
Arguments events {S X I} _.
Arguments hal_feed {S X I} _.
Arguments inbound {S X I} _.
Arguments hal_keys {S X I} _.
Arguments hal_stated {S X I} _.
Arguments data_requested {S X I} _.
Arguments store_changes {S X I} _.
Arguments function_index {S X I} _.
Arguments behavior_error {S X I} _.
Arguments error_sends {S X I} _.
Arguments hal_sent {S X I} _.
Arguments bridge_sent {S X I} _.
Arguments replies {S X I} _.
Arguments log {S X I} _.

Section Runtime.
Context {S X I : Type} `{DS : DataStore S} `{HO : !Host S X I} `{RE : ReplyEncoding}.
Local Abbreviation Shared := (Shared S X I).
Local Abbreviation Device := (Device S X I).

Definition with_shared_store (s : S) (sh : Shared) : Shared :=
  mkShared s (sh_cell sh) (sh_runs sh) (sh_outside sh).

(** ** Phase 0: the streams, and the HAL's key descriptions *)

(** [sweep_now] *)
Definition sweep_now (d : Device) : Device :=
  mkDevice (shared d) (clock d) (sensors d ++ hal_feed d) (events d ++ inbound d) [] [] (hal_keys d) (hal_stated d)
    (data_requested d) (store_changes d) (function_index d) (behavior_error d) (error_sends d) (hal_sent d)
    (bridge_sent d) (replies d) (log d).

(** What a description may state: the keys with no meta of their own, or with the
    meta the HAL stated. A meta is compared as floats are. *)
Definition meta_eqb (a b : KeyMeta) : bool :=
  bool_decide (km_ty a = km_ty b) && option_eqb f64_eqb (km_min a) (km_min b) && option_eqb f64_eqb (km_max a) (km_max b)
  && bool_decide (km_unit a = km_unit b) && option_eqb value_eqb (km_default a) (km_default b)
  && bool_decide (km_description a = km_description b) && bool_decide (km_editable a = km_editable b).
Definition may_state (own stated : gmap Key KeyMeta) (key : Key) : bool :=
  match own !! key with
  | None => true
  | Some m => match stated !! key with Some m' => meta_eqb m' m | None => false end
  end.
Definition describe_key (own stated description : gmap Key KeyMeta) : gmap Key KeyMeta :=
  filter (λ km, may_state own stated km.1 = true) description.
(** [describe_hal_keys] *)
Fixpoint describe_hal_keys (s : S) (descriptions : list (gmap Key KeyMeta)) (stated : gmap Key KeyMeta)
    (lines : list LogLine) : S * gmap Key KeyMeta * list LogLine :=
  match descriptions with
  | [] => (s, stated, lines)
  | description :: descriptions =>
      if decide (description = ∅) then describe_hal_keys s descriptions stated lines
      else
        let description := describe_key (all_meta s) stated description in
        if decide (description = ∅) then describe_hal_keys s descriptions stated lines
        else match set_meta description s with
             | Ok s => describe_hal_keys s descriptions (description ∪ stated) lines
             | Err e => describe_hal_keys s descriptions stated (lines ++ [DescriptionsRefused e])
             end
  end.

(** ** Phase 1: the clock's keys; phase 2: the readings

    A write that fails leaves the store as it is. *)
Definition write_store (c : StateChange) : T S RuntimeError unit := λ s,
  match write c s with
  | Ok s => Some (Ok tt, s)
  | Err e => Some (Err (StoreError e), s)
  end.
Definition clock_change (c : ClockValues) : StateChange :=
  mkStateChange (<[TIME := Some (Value.U64 (time_ns c))]> {[DT := Some (Value.U64 (dt_ns c))]}) ∅.
Definition publish_clock (c : ClockValues) : T S RuntimeError unit := write_store (clock_change c).

(** A change merged into those before it: the later wins, key by key. *)
Definition merge_set (merged : StateChange) (kv : Key * option Value) : StateChange :=
  mkStateChange (<[kv.1 := kv.2]> (sc_set merged)) (sc_unset merged ∖ {[kv.1]}).
Definition merge_unset (merged : StateChange) (key : Key) : StateChange :=
  mkStateChange (delete key (sc_set merged)) ({[key]} ∪ sc_unset merged).
Definition merge_change (merged change : StateChange) : StateChange :=
  foldl merge_unset (foldl merge_set merged (map_to_list (sc_set change))) (elements (sc_unset change)).
(** [apply_sensors] *)
Fixpoint apply_readings (changes : list StateChange) (applied : StateChange) : T S RuntimeError StateChange :=
  match changes with
  | [] => mret applied
  | change :: changes => _ ← write_store change; apply_readings changes (merge_change applied change)
  end.
Definition apply_sensors (changes : list StateChange) : T S RuntimeError StateChange := apply_readings changes sc_new.

(** ** Phase 3: the bridges' events *)

(** The keys of an update, each once. *)
Definition update_keys (change : StateChange) : list Key :=
  (map_to_list (sc_set change)).*1
  ++ filter (λ key, sc_set change !! key = None) (elements (sc_unset change)).
Definition closed (meta : option KeyMeta) : bool :=
  negb (match meta with Some m => km_editable m | None => false end).
(** What is wrong with the value a key is set to. *)
Definition ill_typed (change : StateChange) (meta : option KeyMeta) (key : Key) : option (string * Ty.Type_ * Ty.Type_) :=
  expected ← meta ≫= km_ty;
  value ← sc_set change !! key ≫= id;
  if conforms_to value expected then None else Some (path key, expected, kind value).
Definition unit_result : CallResult := mkCallResult Value.Unit [].
Definition apply_update (change : StateChange) (s : S) : result Refusal CallResult * S :=
  let keys := update_keys change in
  let metas := zip (meta s keys) keys in
  let refused := (λ mk, path mk.2) <$> filter (λ mk, closed mk.1 = true) metas in
  let wrong := omap (λ mk, ill_typed change mk.1 mk.2) metas in
  if bool_decide (refused ≠ []) then (Err (NotInputs refused), s)
  else if bool_decide (wrong ≠ []) then (Err (NotOfType wrong), s)
  else match write change s with
       | Ok s => (Ok unit_result, s)
       | Err e => (Err (StoreRefused e), s)
       end.

Definition starts_with (prefix : option string) (name : string) : bool :=
  match prefix with Some p => String.prefix p name | None => true end.
(** [sort_by] and [sort], over the paths' bytes; [dedup]. *)
Definition list_key (key : Key) (value : option Value) (m : option KeyMeta) : string * KeyMeta :=
  let m := default km_new m in
  (path key, match km_ty m with
             | Some _ => m
             | None => mkKeyMeta (kind <$> value) (km_min m) (km_max m) (km_unit m) (km_default m) (km_description m) (km_editable m)
             end).
(** The keys that hold a value, then the keys only described. *)
Definition listed_keys (s : S) (prefix : option string) : list (Key * option Value) :=
  let holding := omap (λ kv : Key * option Value, (λ v, (kv.1, Some v)) <$> kv.2) (map_to_list (storage (snapshot s))) in
  let held : gset Key := list_to_set holding.*1 in
  filter (λ kv, starts_with prefix (path kv.1) = true)
    (holding ++ ((λ key, (key, None)) <$> filter (λ key, key ∉ held) (map_to_list (all_meta s)).*1)).
Definition list_keys (s : S) (prefix : option string) : list (string * KeyMeta) :=
  let listed := listed_keys s prefix in
  merge_sort (λ a b, String.le a.1 b.1)
    (zip_with (λ kv m, list_key kv.1 kv.2 m) listed (meta s listed.*1)).
(** [describe_methods] *)
Definition signature_of (f : ModuleFunction) : MethodSignature :=
  mkMethodSignature (module_id f) (function_id f) (function_name f) (function f).
Definition method_le (a b : MethodSignature) : Prop :=
  match String.compare (ms_name a) (ms_name b) with Lt => True | Eq => ms_id a <= ms_id b | Gt => False end.
#[export] Instance method_le_dec a b : Decision (method_le a b).
Proof. unfold method_le. destruct (String.compare _ _); apply _. Defined.
Definition describe_methods (index : FunctionIndex) (prefix : option string) : list MethodSignature :=
  merge_sort method_le
    (signature_of <$> filter (λ f, starts_with prefix (function_name f) = true) (map_to_list index).*2).
(** The names [ListMethods] answers. *)
Fixpoint dedup_names (l : list string) : list string :=
  match l with
  | [] => []
  | x :: l => match dedup_names l with y :: r => if decide (x = y) then y :: r else x :: y :: r | [] => [x] end
  end.
Definition list_methods (index : FunctionIndex) (prefix : option string) : list string :=
  dedup_names (merge_sort String.le
    (filter (λ name, starts_with prefix name = true) (function_name <$> (map_to_list index).*2))).

Definition encoded (what : string) (r : result string Value) : result Refusal CallResult :=
  match r with Ok v => Ok (mkCallResult v []) | Err e => Err (EncodeFailed what e) end.
(** [apply_command]: the result, and what the engine or the write leaves. *)
Definition apply_command (index : FunctionIndex) (op : BridgeOp) (sh : Shared) : result Refusal CallResult * Shared :=
  let s := sh_store sh in
  match op with
  | OpGet keys => (Ok (mkCallResult (Value.ArrayValue (Value.Option <$> read s keys)) []), sh)
  | OpUpdate change => let '(r, s) := apply_update change s in (r, with_shared_store s sh)
  | OpCall call =>
      match engine_call call sh with
      | (Ok r, sh) => (Ok r, sh)
      | (Err e, sh) => (Err (CallFailed e), sh)
      end
  | OpListKeys prefix => (encoded "list_keys" (keys_to_value (list_keys s prefix)), sh)
  | OpListMethods prefix =>
      (Ok (mkCallResult (Value.ArrayValue (Value.String <$> list_methods index prefix)) []), sh)
  | OpDescribeMethods prefix => (encoded "describe_methods" (methods_to_value (describe_methods index prefix)), sh)
  end.
(** [apply_events]: the results go out on the commands' channels. *)
Fixpoint apply_events (index : FunctionIndex) (l : list (option nat * Inbound)) (sh : Shared) (requested : list bool)
    (sent : list (nat * result Refusal CallResult)) : Shared * list bool * list (nat * result Refusal CallResult) :=
  match l with
  | [] => (sh, requested, sent)
  | (endpoint, event) :: l =>
      match event with
      | InCommand cmd =>
          let '(r, sh) := apply_command index (cmd_op cmd) sh in
          apply_events index l sh requested (sent ++ [(cmd_reply cmd, r)])
      | InDeviceInfo => apply_events index l sh requested sent
      | InDataRequested asked =>
          apply_events index l sh
            (match endpoint with Some e => if decide (e < length requested)%nat then <[e := asked]> requested else requested
                            | None => requested end) sent
      end
  end.

(** [with_interpreter_value]: the interpreter module's way to the interpreter. *)
Definition with_interpreter_value (operation : I → result string Value * I) (cell : InterpreterCell I) :
    result CallError CallResult * InterpreterCell I :=
  match cell with
  | Borrowed => (Err (Generic (Text "the behavior is being ticked; call between steps")), cell)
  | Free None => (Err (Generic (Text "no behavior interpreter is installed")), cell)
  | Free (Some i) =>
      match operation i with
      | (Ok v, i) => (Ok (mkCallResult v []), Free (Some i))
      | (Err e, i) => (Err (Guest (Text e)), Free (Some i))
      end
  end.

(** [with_interpreter] *)
Definition with_interpreter (operation : I → result string unit * I) (cell : InterpreterCell I) :
    result CallError CallResult * InterpreterCell I :=
  with_interpreter_value (λ i, match operation i with (Ok tt, i) => (Ok Value.Unit, i) | (Err e, i) => (Err e, i) end) cell.

(** ** Phase 4: the behavior, and the runs *)
Definition with_cell (cell : InterpreterCell I) (sh : Shared) : Shared :=
  mkShared (sh_store sh) cell (sh_runs sh) (sh_outside sh).
Definition with_runs (runs : list TaskRun) (sh : Shared) : Shared :=
  mkShared (sh_store sh) (sh_cell sh) runs (sh_outside sh).

(** The standing error's watch: what it holds, and what it was sent. *)
Record Standing := mkStanding { st_error : option string; st_sends : list (option string); st_lines : list LogLine }.
Definition raise (message : string) (retried : bool) (st : Standing) : Standing :=
  if decide (st_error st = Some message) then st
  else mkStanding (Some message) (st_sends st ++ [Some message]) (st_lines st ++ [BehaviorFailed retried message]).
(** [clear], and whether there was an error to clear. *)
Definition clear (st : Standing) : bool * Standing :=
  match st_error st with
  | Some _ => (true, mkStanding None (st_sends st ++ [None]) (st_lines st))
  | None => (false, st)
  end.
Definition say (line : LogLine) (st : Standing) : Standing := mkStanding (st_error st) (st_sends st) (st_lines st ++ [line]).
(** [tick_behavior]: [None] is the panic of a cell already borrowed. *)
Definition tick_behavior (index : FunctionIndex) (sh : Shared) (st : Standing) : option (Shared * Standing) :=
  match sh_cell sh with
  | Borrowed => None
  | Free None => Some (sh, st)
  | Free (Some i) =>
      let '(r, i, sh) := interpreter_tick index i (with_cell Borrowed sh) in
      let kept := with_cell (Free (Some i)) sh in
      let dropped := with_cell (Free None) sh in
      Some (match r with
            | Ok StillRunning =>
                (kept, match clear st with (true, st) => say BehaviorRecovered st | (false, st) => st end)
            | Ok (Done (Ok tt)) => (dropped, say BehaviorFinished (clear st).2)
            | Ok (Done (Err error)) => (dropped, raise error false st)
            | Err error => (kept, raise error true st)
            end)
  end.

(** [report_task_runs]: how a run ended, if it has. *)
Definition run_outcome (s : S) (run : TaskRun) : option (string * option string) :=
  let status := match read s [run_status run] with
                | Some v :: _ => match status_try_from v with Ok st => Some st | Err _ => None end
                | _ => None
                end in
  match status, run_interrupted run with
  | Some Success, _ => Some ("succeeded"%string, None)
  | Some Failure, Some why => Some ("interrupted"%string, Some why)
  | Some Failure, None => Some ((if run_halted run then "halted" else "failed")%string, None)
  | Some Running, _ | None, _ => None
  end.
Definition label_of (functions : FunctionIndex) (run : TaskRun) : RunLabel :=
  match run_calls run with
  | CallsOf _ function => function_label functions function
  | GraphOf functions => LabelGraph (length functions)
  | TraceOf => LabelTrace
  end.
Definition name_run (functions : FunctionIndex) (run : TaskRun) : TaskRun * list LogLine :=
  match run_label run with
  | Some _ => (run, [])
  | None => let label := label_of functions run in
            (label_run label run, [TaskStarted (run_id run) label (run_policy run)])
  end.
Definition end_run (s : S) (run : TaskRun) : list LogLine :=
  match run_outcome s run with Some outcome => [TaskEnded (run_id run) (run_label run) outcome] | None => [] end.
Definition report_task_runs (s : S) (runs : list TaskRun) (functions : FunctionIndex) : list TaskRun * list LogLine :=
  let named := name_run functions <$> runs in
  let runs := named.*1 in
  (filter (λ run, run_outcome s run = None) runs, mjoin named.*2 ++ (runs ≫= end_run s)).

(** ** Phase 5: the changes of the step, as one *)

(** [flush]: the feed drained, the last change of a key winning. *)
Fixpoint merge_all (changes : list StateChange) (merged : StateChange) : StateChange :=
  match changes with [] => merged | change :: changes => merge_all changes (merge_change merged change) end.
Definition flush (sub : Subscription) (s : S) : StateChange * Subscription * S :=
  let '(changes, sub') := try_iter sub (queue s (rx sub)) in
  (merge_all changes sc_new, sub', dequeue (rx sub) [] s).

(** ** Phase 6: out *)
Definition same_value (a b : option (option Value)) : bool := option_eqb (option_eqb value_eqb) a b.
(** [write_hal]: what the HAL is sent, its own readings left out. *)
Definition for_hal (out applied : StateChange) : StateChange :=
  mkStateChange
    (filter (λ kv, same_value (sc_set applied !! kv.1) (Some kv.2) = false) (sc_set out))
    (filter (λ key, key ∉ sc_unset applied) (sc_unset out)).
Definition reported_back (out applied : StateChange) : bool :=
  existsb (λ kv, same_value (sc_set out !! kv.1) (Some kv.2)) (map_to_list (sc_set applied))
  || existsb (λ key, bool_decide (key ∈ sc_unset out)) (elements (sc_unset applied)).
Definition write_hal (out applied : StateChange) : list StateChange :=
  if negb (reported_back out applied) then [out]
  else if sc_is_empty (for_hal out applied) then [] else [for_hal out applied].
(** [write_bridges]: to each endpoint that asked. *)
Definition write_bridges (asked : list bool) (out : StateChange) (sent : list (list StateChange)) : list (list StateChange) :=
  imap (λ endpoint sends, if default false (asked !! endpoint) then sends ++ [out] else sends) sent.

(** ** [Arora::step] *)

(** The device after the phases so far. *)
Definition after (d : Device) (sh : Shared) (clock : Z) (sensors : list StateChange) (events : list (option nat * Inbound))
    (requested : list bool) (replies : list (nat * result Refusal CallResult)) : Device :=
  mkDevice sh clock sensors events (hal_feed d) (inbound d) (hal_keys d) (hal_stated d) requested (store_changes d)
    (function_index d) (behavior_error d) (error_sends d) (hal_sent d) (bridge_sent d) replies (log d).
Definition describe (d : Device) : Device :=
  let '(s, stated, lines) := describe_hal_keys (sh_store (shared d)) (hal_keys d) (hal_stated d) [] in
  mkDevice (with_shared_store s (shared d)) (clock d) (sensors d) (events d) (hal_feed d) (inbound d) [] stated
    (data_requested d) (store_changes d) (function_index d) (behavior_error d) (error_sends d) (hal_sent d)
    (bridge_sent d) (replies d) (log d ++ lines).
(** Phases 4 to 6, given the readings applied. *)
Definition tick_and_send (applied : StateChange) (d : Device) : option (result RuntimeError unit * Device) :=
  '(sh, st) ← tick_behavior (function_index d) (shared d) (mkStanding (behavior_error d) (error_sends d) (log d));
  let '(runs, lines) := report_task_runs (sh_store sh) (sh_runs sh) (function_index d) in
  let '(out, sub, s) := flush (store_changes d) (sh_store sh) in
  Some (Ok tt, mkDevice (with_shared_store s (with_runs runs sh)) (clock d) (sensors d) (events d) (hal_feed d) (inbound d)
    (hal_keys d) (hal_stated d) (data_requested d) sub (function_index d) (st_error st) (st_sends st)
    (if sc_is_empty out then hal_sent d else hal_sent d ++ write_hal out applied)
    (if sc_is_empty out then bridge_sent d else write_bridges (data_requested d) out (bridge_sent d))
    (replies d) (st_lines st ++ lines)).
Definition step (dt : Z) (d : Device) : option (result RuntimeError unit * Device) :=
  let d := describe (sweep_now d) in
  let '(clock, values) := tick_clock (clock d) dt in
  match publish_clock values (sh_store (shared d)) with
  | None => None
  | Some (Err e, s) =>
      Some (Err e, after d (with_shared_store s (shared d)) clock (sensors d) (events d) (data_requested d) (replies d))
  | Some (Ok _, s) =>
      match apply_sensors (sensors d) s with
      | None => None
      | Some (Err e, s) =>
          Some (Err e, after d (with_shared_store s (shared d)) clock [] (events d) (data_requested d) (replies d))
      | Some (Ok applied, s) =>
          let '(sh, requested, sent) :=
            apply_events (function_index d) (events d) (with_shared_store s (shared d)) (data_requested d) (replies d) in
          tick_and_send applied (after d sh clock [] [] requested sent)
      end
  end.
End Runtime.
