(* ===== verification/Commands.v ===== *)
(** * What a bridge asks of a device: the commands of [Runtime.v]

    A remote's write is taken whole or refused whole; what a device lists of its
    keys and methods is what its store and index hold, sorted. Over any store
    whose meta keeps [MetaLaws]. *)

From S2P Require Import Prelude Values Extern Keys State Store StoreMeta Effects Nodes Schema Runtime.

(** ** Lists, filtered and sorted *)
Section Lists.
Context {A B : Type}.

Lemma zip_fmap_l (f : A → B) l : zip (f <$> l) l = (λ x, (f x, x)) <$> l.
Proof. induction l as [|x l IH]; [done|]. by rewrite !fmap_cons, <- IH. Qed.

Lemma omap_nil_iff (f : A → option B) l : omap f l = [] ↔ ∀ x, x ∈ l → f x = None.
Proof.
  split.
  - intros Hl x Hx. destruct (f x) as [y|] eqn:E; [|done].
    assert (y ∈ omap f l) as Hy by (apply list_elem_of_omap; eauto). rewrite Hl in Hy. by apply not_elem_of_nil in Hy.
  - intros Hl. destruct (omap f l) as [|y r] eqn:E; [done|].
    assert (y ∈ omap f l) as (x & Hx & Hy)%list_elem_of_omap by (rewrite E; by left). by rewrite Hl in Hy.
Qed.
End Lists.

Lemma filter_fmap {A B} (P : B → Prop) `{!∀ x, Decision (P x)} (f : A → B) (l : list A) :
  filter P (f <$> l) = f <$> filter (λ x, P (f x)) l.
Proof.
  induction l as [|x l IH]; [done|]. rewrite fmap_cons, !filter_cons. by case_decide; rewrite IH.
Qed.

#[export] Instance path_inj : Inj (=) (=) path.
Proof. intros [p] [q]. simpl. by intros ->. Qed.
#[export] Instance by_key_total {A B} (R : A → A → Prop) `{!Total R} : Total (λ x y : A * B, R x.1 y.1).
Proof. intros x y. apply (base.total R). Qed.
#[export] Instance by_key_transitive {A B} (R : A → A → Prop) `{!Transitive R} : Transitive (λ x y : A * B, R x.1 y.1).
Proof. intros x y z. apply (transitivity (R := R)). Qed.

Lemma string_compare_refl s : String.compare s s = Eq.
Proof. induction s as [|c s IH]; [done|]. simpl. unfold Ascii.compare. by rewrite N.compare_refl. Qed.
Lemma method_le_alt a b :
  method_le a b ↔ String.le (ms_name a) (ms_name b) ∧ (ms_name a = ms_name b → ms_id a <= ms_id b).
Proof.
  unfold method_le, String.le, String.leb.
  destruct (String.compare _ _) eqn:E; [apply String.compare_eq_iff in E|..]; simpl; [naive_solver| |naive_solver].
  split; [|done]. intros _. split; [done|]. intros Heq. rewrite Heq in E.
  by rewrite string_compare_refl in E.
Qed.
#[export] Instance method_le_total : Total method_le.
Proof.
  intros a b. rewrite !method_le_alt. destruct (decide (ms_name a = ms_name b)) as [->|Hne].
  - destruct (Z.le_ge_cases (ms_id a) (ms_id b)); [left|right]; done.
  - destruct (base.total String.le (ms_name a) (ms_name b)); [left|right]; naive_solver.
Qed.
#[export] Instance method_le_transitive : Transitive method_le.
Proof.
  intros a b c. rewrite !method_le_alt. intros [Hab Iab] [Hbc Ibc]. split; [by etrans|].
  intros Hac. rewrite <- Hac in Hbc. assert (ms_name a = ms_name b) as E by (by apply (anti_symm String.le)).
  trans (ms_id b); [by apply Iab|apply Ibc; congruence].
Qed.

Lemma dedup_names_head x l : head (dedup_names (x :: l)) = Some x.
Proof. cbn [dedup_names]. destruct (dedup_names l); [done|]. by case_decide; [subst|]. Qed.
Lemma elem_of_dedup_names x l : x ∈ dedup_names l ↔ x ∈ l.
Proof.
  induction l as [|y l IH]; [done|]. cbn [dedup_names].
  destruct (dedup_names l) as [|z r] eqn:E; [set_solver|]. case_decide; set_solver.
Qed.
Lemma dedup_names_sorted l : StronglySorted String.le l → StronglySorted String.le (dedup_names l) ∧ NoDup (dedup_names l).
Proof.
  induction 1 as [|x l Hl [IHs IHd] Hx]; [by repeat constructor|].
  assert (Forall (String.le x) (dedup_names l)) as Hx'.
  { rewrite Forall_forall in *. intros y Hy. apply Hx. by apply elem_of_dedup_names. }
  cbn [dedup_names]. destruct (dedup_names l) as [|y r] eqn:E; [by repeat constructor; apply not_elem_of_nil|].
  case_decide as Hxy; [done|]. split; [by constructor|]. constructor; [|done]. intros Hin. apply Hxy.
  apply (anti_symm String.le); [by inversion Hx'|]. apply elem_of_cons in Hin as [->|Hin]; [done|].
  apply StronglySorted_inv in IHs as [_ Hy]. rewrite Forall_forall in Hy. by apply Hy.
Qed.

Section Commands.
Context {S X I : Type} `{ML : MetaLaws S} `{HO : !Host S X I} `{RE : ReplyEncoding}.

(** ** Updates *)

(** What a remote may write: keys that are inputs, to values of their type. *)
Definition accepts (m : option KeyMeta) (value : option (option Value)) : Prop :=
  closed m = false ∧ ∀ ty v, m ≫= km_ty = Some ty → value = Some (Some v) → conforms_to v ty = true.
Definition allowed (s : S) (change : StateChange) : Prop :=
  ∀ key, sc_contains change key = true → accepts (meta_of s key) (sc_set change !! key).

Lemma elem_of_update_keys change key : key ∈ update_keys change ↔ sc_contains change key = true.
Proof.
  unfold update_keys, sc_contains. rewrite elem_of_app, list_elem_of_filter, elem_of_elements.
  rewrite orb_true_iff, !bool_decide_eq_true, list_elem_of_fmap, <- not_eq_None_Some.
  split.
  - intros [([k v] & -> & Hk%elem_of_map_to_list)|[? ?]]; [left; simpl; congruence|by right].
  - intros [Hk|Hk].
    + apply not_eq_None_Some in Hk as [v Hk]. left. exists (key, v). by rewrite elem_of_map_to_list.
    + destruct (sc_set change !! key) as [v|] eqn:E; [|by right]. left. exists (key, v). by rewrite elem_of_map_to_list.
Qed.
Lemma update_keys_NoDup change : NoDup (update_keys change).
Proof.
  unfold update_keys. apply NoDup_app. split_and!; [apply NoDup_fst_map_to_list| |apply NoDup_filter, NoDup_elements].
  intros k ([k' v] & -> & Hk%elem_of_map_to_list)%list_elem_of_fmap [Hn _]%list_elem_of_filter. simpl in *. congruence.
Qed.

Lemma ill_typed_spec change m key :
  ill_typed change m key = None ↔
  ∀ ty v, m ≫= km_ty = Some ty → sc_set change !! key = Some (Some v) → conforms_to v ty = true.
Proof.
  unfold ill_typed. destruct (m ≫= km_ty) as [ty|]; simpl; [|naive_solver].
  destruct (sc_set change !! key) as [[v|]|]; simpl; [|naive_solver..].
  destruct (conforms_to v ty) eqn:E; naive_solver congruence.
Qed.

(** The keys an update is refused for, and those refused for their value. *)
Lemma update_metas s change : zip (meta s (update_keys change)) (update_keys change) =
  (λ key, (meta_of s key, key)) <$> update_keys change.
Proof. by rewrite meta_law, zip_fmap_l. Qed.
Lemma refused_paths s change :
  (λ mk : option KeyMeta * Key, path mk.2) <$>
    filter (λ mk, closed mk.1 = true) ((λ key, (meta_of s key, key)) <$> update_keys change) =
  path <$> filter (λ key, closed (meta_of s key) = true) (update_keys change).
Proof. by rewrite filter_fmap, <- list_fmap_compose. Qed.
Lemma elem_of_refused s change key :
  path key ∈ path <$> filter (λ key, closed (meta_of s key) = true) (update_keys change) ↔
  sc_contains change key = true ∧ closed (meta_of s key) = true.
Proof.
  rewrite list_elem_of_fmap, <- elem_of_update_keys. setoid_rewrite list_elem_of_filter.
  split; [|naive_solver]. intros ([q] & Hq & ? & ?). destruct key as [p]. simpl in Hq. by subst p.
Qed.
Lemma no_refused s change key :
  path <$> filter (λ key, closed (meta_of s key) = true) (update_keys change) = [] →
  sc_contains change key = true → closed (meta_of s key) = false.
Proof.
  intros Hr Hk. destruct (closed (meta_of s key)) eqn:E; [|done].
  pose proof (proj2 (elem_of_refused s change key) (conj Hk E)) as Hin. rewrite Hr in Hin. by apply not_elem_of_nil in Hin.
Qed.
Lemma elem_of_wrong s change p expected got :
  (p, expected, got) ∈ omap (λ mk : option KeyMeta * Key, ill_typed change mk.1 mk.2)
    ((λ key, (meta_of s key, key)) <$> update_keys change) ↔
  ∃ v, sc_set change !! mkKey p = Some (Some v) ∧ meta_of s (mkKey p) ≫= km_ty = Some expected ∧
    got = kind v ∧ conforms_to v expected = false.
Proof.
  rewrite list_elem_of_omap. split.
  - intros ([m k] & (k' & [= -> ->] & _)%list_elem_of_fmap & Hx). unfold ill_typed in Hx. cbn [fst snd] in Hx.
    destruct (meta_of s k' ≫= km_ty) as [ty'|] eqn:Hty; [|done]. cbn [mbind option_bind] in Hx.
    destruct (sc_set change !! k') as [[v|]|] eqn:Hv; try done. cbn [mbind option_bind id] in Hx.
    destruct (conforms_to v ty') eqn:Hc; [done|]. destruct k' as [q]. simplify_eq/=. by exists v.
  - intros (v & Hv & Hty & -> & Hc). exists (meta_of s (mkKey p), mkKey p). split.
    + apply list_elem_of_fmap. exists (mkKey p). split; [done|]. apply elem_of_update_keys. unfold sc_contains. by rewrite Hv.
    + unfold ill_typed. cbn [fst snd]. rewrite Hty, Hv. simpl. by rewrite Hc.
Qed.

(** The same, of what the store says alone. *)
Definition allows (metas : Key → option KeyMeta) (change : StateChange) : bool :=
  forallb (λ key, negb (closed (metas key)) && bool_decide (ill_typed change (metas key) key = None)) (update_keys change).
Lemma allows_spec s change : allows (meta_of s) change = true ↔ allowed s change.
Proof.
  unfold allows, allowed, accepts. rewrite forallb_Forall, Forall_forall.
  setoid_rewrite andb_true_iff. setoid_rewrite negb_true_iff.
  setoid_rewrite elem_of_update_keys. split; intros Ha key Hk; destruct (Ha key Hk) as [Hc Ht]; (split; [done|]).
  - exact (proj1 (ill_typed_spec change (meta_of s key) key) (bool_decide_eq_true_1 _ Ht)).
  - apply bool_decide_eq_true. exact (proj2 (ill_typed_spec change (meta_of s key) key) Ht).
Qed.
Lemma allows_lists s change : allows (meta_of s) change = true ↔
  path <$> filter (λ key, closed (meta_of s key) = true) (update_keys change) = [] ∧
  omap (λ mk : option KeyMeta * Key, ill_typed change mk.1 mk.2) ((λ key, (meta_of s key, key)) <$> update_keys change) = [].
Proof.
  unfold allows. rewrite forallb_Forall, Forall_forall. split.
  - intros Hall. split.
    + destruct (filter _ _) as [|key r] eqn:E; [done|]. assert (key ∈ key :: r) as Hin by left.
      rewrite <- E in Hin. apply list_elem_of_filter in Hin as [Hc Hin]. apply Hall in Hin. by rewrite Hc in Hin.
    + apply (omap_nil_iff _ _). intros mk (key & -> & Hin)%list_elem_of_fmap. apply Hall, andb_true_iff in Hin as [_ Hin].
      by apply bool_decide_eq_true in Hin.
  - intros [Hr Hw] key Hin. rewrite (no_refused s change key Hr) by (by apply elem_of_update_keys). apply bool_decide_eq_true.
    eapply (omap_nil_iff _ _) with (x := (meta_of s key, key)) in Hw; [done|]. apply list_elem_of_fmap. by exists key.
Qed.
Lemma apply_update_written s change : ok s →
  let s' := (apply_update change s).2 in
  evolves s s' ∧ (∀ k, meta_of s' k = meta_of s k) ∧
  ∀ k, contents s' k = if allows (meta_of s) change then write_at change k (contents s k) else contents s k.
Proof.
  intros Hs. unfold apply_update. rewrite update_metas, refused_paths. pose proof (allows_lists s change) as Hl.
  destruct (allows (meta_of s) change).
  - destruct (proj1 Hl eq_refl) as [-> ->]. destruct (write_law s change Hs) as (s' & E & Hev & Hc). rewrite E.
    split_and!; [done|by eapply (write_meta_law s)|done].
  - case_bool_decide as Hr; [|case_bool_decide as Hw].
    1-2: split_and!; [by apply evolves_refl|done..].
    destruct Hl as [_ Hl]. discriminate Hl. done.
Qed.

(** C13. A remote's update is written whole, as any batch is, exactly when every key
    it sets or unsets is an input and every value it sets is of its key's declared
    type; else nothing is written, and the answer names each key that is no input,
    once, or where all are inputs each key set to a value of another type, with
    both types. *)
Theorem update_whole_or_nothing (s : S) (change : StateChange) :
  ok s →
  match apply_update change s with
  | (Ok r, s') => r = unit_result ∧ allowed s change ∧ evolves s s' ∧
      (∀ k, contents s' k = write_at change k (contents s k)) ∧ ∀ k, meta_of s' k = meta_of s k
  | (Err (NotInputs paths), s') => s' = s ∧ paths ≠ [] ∧ NoDup paths ∧
      ∀ key, path key ∈ paths ↔ sc_contains change key = true ∧ closed (meta_of s key) = true
  | (Err (NotOfType wrong), s') => s' = s ∧ wrong ≠ [] ∧
      (∀ key, sc_contains change key = true → closed (meta_of s key) = false) ∧
      ∀ p expected got, (p, expected, got) ∈ wrong ↔ ∃ v, sc_set change !! mkKey p = Some (Some v) ∧
        meta_of s (mkKey p) ≫= km_ty = Some expected ∧ got = kind v ∧ conforms_to v expected = false
  | (Err _, _) => False
  end.
Proof.
  intros Hs. unfold apply_update. rewrite update_metas, refused_paths.
  case_bool_decide as Hr; [|case_bool_decide as Hw].
  - split_and!; [done|done| |apply elem_of_refused]. apply (NoDup_fmap_2 path), NoDup_filter, update_keys_NoDup.
  - split; [done|]. split; [done|]. split; [intros key Hk; by apply (no_refused s change)|]. exact (elem_of_wrong s change).
  - destruct (write_law s change Hs) as (s' & Hwr & Hev & Hcon). rewrite Hwr.
    split_and!; [done| |done|done|by eapply (write_meta_law s)]. intros key Hk. split; [by apply (no_refused s change)|].
    apply ill_typed_spec. eapply (omap_nil_iff _ _) with (x := (meta_of s key, key)) in Hw; [done|].
    apply list_elem_of_fmap. exists key. by rewrite elem_of_update_keys.
Qed.

(** ** What a device lists *)

Lemma elem_of_holding (m : gmap Key (option Value)) kv :
  kv ∈ omap (λ kv : Key * option Value, (λ v, (kv.1, Some v)) <$> kv.2) (map_to_list m) ↔
  ∃ v, kv.2 = Some v ∧ m !! kv.1 = Some (Some v).
Proof.
  rewrite list_elem_of_omap. split.
  - intros ([k [v|]] & Hk%elem_of_map_to_list & [= <-]). by exists v.
  - destruct kv as [k v']. simpl. intros (v & -> & Hk). exists (k, Some v). by rewrite elem_of_map_to_list.
Qed.
Lemma holding_keys (m : gmap Key (option Value)) :
  NoDup (omap (λ kv : Key * option Value, (λ v, (kv.1, Some v)) <$> kv.2) (map_to_list m)).*1.
Proof.
  pose proof (NoDup_fst_map_to_list m) as Hd. revert Hd. generalize (map_to_list m) as l.
  induction l as [|[k v] l IH]; [constructor|]. rewrite fmap_cons, NoDup_cons. intros [Hk Hd]. simpl.
  destruct v as [v|]; simpl; [|by apply IH]. constructor; [|by apply IH]. contradict Hk.
  apply list_elem_of_fmap in Hk as ([k' v'] & Hk' & ([k'' [v''|]] & Hin & [= <- <-])%list_elem_of_omap).
  simpl in Hk'. subst k''. apply list_elem_of_fmap. by exists (k, Some v'').
Qed.

Lemma elem_of_listed s prefix key value :
  ok s →
  (key, value) ∈ listed_keys s prefix ↔
  starts_with prefix (path key) = true ∧ value = contents s key ∧
  (is_Some (contents s key) ∨ is_Some (all_meta s !! key)).
Proof.
  intros Hs. rewrite <- (snapshot_law s key Hs), held_lookup. unfold listed_keys.
  rewrite list_elem_of_filter, elem_of_app, elem_of_holding, list_elem_of_fmap. cbn [fst snd].
  setoid_rewrite list_elem_of_filter. setoid_rewrite elem_of_list_to_set. setoid_rewrite list_elem_of_fmap.
  setoid_rewrite elem_of_holding.
  f_equiv. split.
  - intros [(v & -> & Hv)|(k & [= <- ->] & Hn & ([k' m] & -> & Hm%elem_of_map_to_list))]; [rewrite Hv; naive_solver|].
    simpl in *. split; [|by right; eexists]. destruct (storage (snapshot s) !! k') as [[v|]|] eqn:E; [|done..].
    destruct Hn. exists (k', Some v). naive_solver.
  - destruct (storage (snapshot s) !! key) as [[v|]|] eqn:E; [intros [-> _]; left; by exists v|..];
      intros (-> & [[? [=]]|[m Hm]]); right; exists key; (split; [done|]); (split; [|exists (key, m); by rewrite elem_of_map_to_list]);
      intros ([k' v'] & -> & v & ? & ?); simpl in *; congruence.
Qed.
Lemma listed_keys_NoDup s prefix : NoDup (listed_keys s prefix).*1.
Proof.
  eapply (sublist_NoDup _ (omap (λ kv : Key * option Value, (λ v, (kv.1, Some v)) <$> kv.2) (map_to_list (storage (snapshot s))) ++ _).*1);
    [|apply fmap_sublist, sublist_filter].
  rewrite fmap_app. apply NoDup_app. split_and!; [apply holding_keys| |].
  - intros k Hk ([k' v'] & -> & (k'' & [= -> ->] & [Hn _]%list_elem_of_filter)%list_elem_of_fmap)%list_elem_of_fmap.
    apply Hn. by apply elem_of_list_to_set.
  - rewrite <- list_fmap_compose. rewrite (list_fmap_ext _ id) by done. rewrite list_fmap_id.
    apply NoDup_filter, NoDup_fst_map_to_list.
Qed.

Lemma list_keys_perm s prefix :
  list_keys s prefix ≡ₚ (λ kv, list_key kv.1 kv.2 (meta_of s kv.1)) <$> listed_keys s prefix.
Proof.
  unfold list_keys. rewrite merge_sort_Permutation, meta_law. generalize (listed_keys s prefix) as l.
  induction l as [|kv l IH]; [done|]. rewrite !fmap_cons. cbn [zip_with]. by rewrite IH.
Qed.

(** What a device lists of its keys is sorted by path, each key once, and exactly
    the keys under the prefix that hold a value or are described: each with the
    store's meta, or where that states no type with the shape of the value held. *)
Theorem list_keys_exact (s : S) (prefix : option string) :
  ok s →
  StronglySorted (λ a b, String.le a.1 b.1) (list_keys s prefix) ∧
  NoDup (list_keys s prefix).*1 ∧
  ∀ p m, (p, m) ∈ list_keys s prefix ↔
    starts_with prefix p = true ∧
    (is_Some (contents s (mkKey p)) ∨ is_Some (all_meta s !! mkKey p)) ∧
    (p, m) = list_key (mkKey p) (contents s (mkKey p)) (meta_of s (mkKey p)).
Proof.
  intros Hs. split_and!.
  - unfold list_keys. apply StronglySorted_merge_sort.
    + exact (by_key_transitive String.le).
    + exact (by_key_total String.le).
  - rewrite list_keys_perm, <- list_fmap_compose. simpl.
    change (NoDup ((path ∘ fst) <$> listed_keys s prefix)). rewrite list_fmap_compose.
    apply (NoDup_fmap_2 path), listed_keys_NoDup.
  - intros p m. rewrite list_keys_perm, list_elem_of_fmap. split.
    + intros ([[q] v] & Heq & (Hp & -> & Hex)%elem_of_listed); [|done]. simpl in Heq.
      injection Heq as <- ->. done.
    + intros (Hp & Hex & Heq). exists (mkKey p, contents s (mkKey p)). split; [done|]. by apply elem_of_listed.
Qed.

(** [DescribeMethods] lists the signature of each method under the prefix, once,
    sorted by name then id, and [ListMethods], which it replaces, answers those
    methods' names, each once, sorted. *)
Theorem methods_listed (index : FunctionIndex) (prefix : option string) :
  StronglySorted method_le (describe_methods index prefix) ∧
  describe_methods index prefix ≡ₚ
    signature_of <$> filter (λ f, starts_with prefix (function_name f) = true) (map_to_list index).*2 ∧
  list_methods index prefix = dedup_names (ms_name <$> describe_methods index prefix) ∧
  StronglySorted String.le (list_methods index prefix) ∧ NoDup (list_methods index prefix).
Proof.
  assert (StronglySorted method_le (describe_methods index prefix)) as Hsort
    by (apply StronglySorted_merge_sort; apply _).
  assert (describe_methods index prefix ≡ₚ _) as Hperm by apply merge_sort_Permutation.
  split; [done|]. split; [done|].
  split; [|apply dedup_names_sorted, StronglySorted_merge_sort; apply _].
  unfold list_methods. f_equal. apply (StronglySorted_unique String.le).
  - apply StronglySorted_merge_sort; apply _.
  - clear Hperm. induction Hsort as [|x l Hl IH Hx]; [constructor|]. rewrite fmap_cons. constructor; [done|].
    rewrite Forall_fmap. eapply Forall_impl; [exact Hx|]. intros y. simpl. rewrite method_le_alt. naive_solver.
  - rewrite merge_sort_Permutation, Hperm, filter_fmap, <- list_fmap_compose. done.
Qed.
End Commands.
