(* ===== verification/Stepping.v ===== *)
(** * What a device's steps keep: the pipeline of [Runtime.v]

    A step never fails over a store that keeps the trait's promises; what it
    sends is what changed since the step before, so a remote that applies it
    mirrors the store; the writers of a frame apply in their order; the HAL is
    not told its own readings; a standing fault is told once. The engine and the
    interpreter may do anything to the store but take from the device's own
    feed, and leave the interpreter's cell as they found it ([HostLaws]). *)

From S2P Require Import Prelude Values Extern Keys State Store StoreMeta Effects Nodes Schema Runtime Commands.

(** ** Changes, merged *)
Lemma lookup_merge_set a (c : gmap Key (option Value)) (l : list (Key * option Value)) k :
  NoDup l.*1 → (∀ k v, (k, v) ∈ l → c !! k = Some v) → (∀ k v, c !! k = Some v → (k, v) ∈ l) →
  sc_set (foldl merge_set a l) !! k = (match c !! k with Some v => Some v | None => sc_set a !! k end) ∧
  (k ∈ sc_unset (foldl merge_set a l) ↔ k ∈ sc_unset a ∧ c !! k = None).
Proof.
  revert a c. induction l as [|[k' v'] l IH]; intros a c Hd Hl Hc.
  { assert (c !! k = None) as ->; [|by split; [|naive_solver]].
    destruct (c !! k) as [v|] eqn:E; [|done]. apply Hc in E. by apply not_elem_of_nil in E. }
  rewrite fmap_cons, NoDup_cons in Hd. destruct Hd as [Hk' Hd]. cbn [foldl].
  assert (c !! k' = Some v') as Hck' by (apply Hl; by left).
  destruct (IH (merge_set a (k', v')) (delete k' c)) as [-> ->]; [done|..].
  - intros j v Hj. rewrite lookup_delete_ne; [apply Hl; by right|]. intros <-. apply Hk', list_elem_of_fmap. by exists (k', v).
  - intros j v [Hne Hj]%lookup_delete_Some. apply Hc in Hj as [?|?]%elem_of_cons; [simplify_eq|done].
  - unfold merge_set. cbn [sc_set sc_unset fst snd]. destruct (decide (k = k')) as [->|Hne].
    + rewrite lookup_delete_eq, lookup_insert_eq, Hck'. split; [done|]. set_solver.
    + rewrite lookup_delete_ne, lookup_insert_ne by done. split; [done|]. set_solver.
Qed.
Lemma lookup_merge_unset a l k :
  sc_set (foldl merge_unset a l) !! k = (if decide (k ∈ l) then None else sc_set a !! k) ∧
  (k ∈ sc_unset (foldl merge_unset a l) ↔ k ∈ l ∨ k ∈ sc_unset a).
Proof.
  revert a. induction l as [|k' l IH]; intros a; cbn [foldl].
  { rewrite decide_False by set_solver. split; [done|set_solver]. }
  destruct (IH (merge_unset a k')) as [-> ->]. unfold merge_unset. cbn [sc_set sc_unset]. split; [|set_solver].
  destruct (decide (k ∈ l)), (decide (k ∈ k' :: l)); [done|set_solver| |].
  - assert (k = k') as -> by set_solver. by rewrite lookup_delete_eq.
  - rewrite lookup_delete_ne; [done|set_solver].
Qed.
(** What a merged change says of a key: what the later says, or else the earlier. *)
Lemma lookup_merge a b k :
  sc_set (merge_change a b) !! k =
    (if decide (k ∈ sc_unset b) then None
     else match sc_set b !! k with Some v => Some v | None => sc_set a !! k end) ∧
  (k ∈ sc_unset (merge_change a b) ↔ k ∈ sc_unset b ∨ k ∈ sc_unset a ∧ sc_set b !! k = None).
Proof.
  unfold merge_change. pose proof (lookup_merge_unset (foldl merge_set a (map_to_list (sc_set b))) (elements (sc_unset b)) k) as [-> Hu].
  rewrite Hu. clear Hu.
  destruct (lookup_merge_set a (sc_set b) (map_to_list (sc_set b)) k) as [-> Hu]; [apply NoDup_fst_map_to_list|by intros ?? ?%elem_of_map_to_list|
    by intros ?? ?%elem_of_map_to_list|]. split; [|by rewrite Hu, elem_of_elements].
  destruct (decide (k ∈ elements (sc_unset b))), (decide (k ∈ sc_unset b)); set_solver.
Qed.
Lemma apply_at_merge a b k known : apply_at k known (merge_change a b) = apply_at k (apply_at k known a) b.
Proof.
  unfold apply_at. destruct (lookup_merge a b k) as [-> Hu].
  destruct (decide (k ∈ sc_unset (merge_change a b))) as [Hin|Hin]; rewrite Hu in Hin.
  - destruct (decide (k ∈ sc_unset b)); [done|]. destruct Hin as [?|[Ha Hb]]; [done|]. by rewrite Hb, decide_True.
  - rewrite !decide_False by naive_solver. destruct (sc_set b !! k) eqn:E; [done|]. rewrite decide_False by naive_solver. done.
Qed.
Lemma apply_at_merge_all changes merged k known :
  apply_at k known (merge_all changes merged) = foldl (apply_at k) (apply_at k known merged) changes.
Proof. revert merged. induction changes as [|c l IH]; intros merged; [done|]. cbn. by rewrite IH, apply_at_merge. Qed.

(** ** A device whose store keeps its promises *)
Section Steps.
Context {S X I : Type} `{ML : MetaLaws S} `{HO : !Host S X I} `{RE : ReplyEncoding}.
Local Abbreviation Shared := (Shared S X I).
Local Abbreviation Device := (Device S X I).

(** The store is used by others than the holder of the feed [r]: the feed's
    pending changes bring whoever follows it up to date as before. *)
Definition keeps (r : nat) (s s' : S) : Prop :=
  ok s' ∧ ∀ sub, rx sub = r → live s sub "" → live s' sub "" ∧
    ∀ k known, foldl (apply_at k) known (pending s sub) = contents s k →
      foldl (apply_at k) known (pending s' sub) = contents s' k.

Class HostLaws (r : nat) : Prop := {
  engine_call_keeps call sh : ok (sh_store sh) → sh_cell sh ≠ Borrowed →
    keeps r (sh_store sh) (sh_store (engine_call call sh).2) ∧ sh_cell (engine_call call sh).2 ≠ Borrowed;
  interpreter_tick_keeps index i sh : ok (sh_store sh) →
    keeps r (sh_store sh) (sh_store (interpreter_tick index i sh).2);
}.

Lemma keeps_refl r s : ok s → keeps r s s.
Proof. by intros Hs. Qed.
Lemma keeps_trans r s1 s2 s3 : keeps r s1 s2 → keeps r s2 s3 → keeps r s1 s3.
Proof.
  intros [_ K1] [O K2]. split; [done|]. intros sub Hr Hl. destruct (K1 sub Hr Hl) as [Hl2 F1].
  destruct (K2 sub Hr Hl2) as [Hl3 F2]. split; [done|]. intros k known Hk. by apply F2, F1.
Qed.
Lemma evolves_keeps r s s' : evolves s s' → keeps r s s'.
Proof.
  intros (O & _ & L & F). split; [done|]. intros sub _ Hl. split; [by apply L|]. intros k known.
  apply (F sub EmptyString); [done|]. apply prefix_covers_empty.
Qed.

(** ** Phases 0 to 2 *)
Lemma describe_hal_keys_keeps r descriptions : ∀ (s : S) stated lines, ok s →
  let s' := (describe_hal_keys s descriptions stated lines).1.1 in keeps r s s' ∧ ∀ k, contents s' k = contents s k.
Proof.
  induction descriptions as [|description l IH]; intros s stated lines Hs; cbn [describe_hal_keys].
  { split; [by apply keeps_refl|done]. }
  case_decide; [by apply IH|]. case_decide; [by apply IH|].
  destruct (set_meta _ s) as [s1|e] eqn:E; [|by apply IH].
  destruct (set_meta_law _ _ _ Hs E) as [Hev Hc].
  destruct (IH s1 (describe_key (all_meta s) stated description ∪ stated) lines) as [K Hc']; [apply Hev|].
  split; [eapply keeps_trans; [by apply evolves_keeps|exact K]|]. intros k. by rewrite Hc', Hc.
Qed.

Lemma write_store_spec c (s : S) : ok s → ∃ s', write_store c s = Some (Ok tt, s') ∧ evolves s s' ∧
  (∀ k, contents s' k = write_at c k (contents s k)) ∧ ∀ k, meta_of s' k = meta_of s k.
Proof.
  intros Hs. destruct (write_law s c Hs) as (s' & E & Hev & Hc). exists s'. unfold write_store. rewrite E.
  split_and!; [done..|]. by eapply (write_meta_law s).
Qed.

(** What a key holds once changes were written in order. *)
Definition written (k : Key) (old : option Value) (changes : list StateChange) : option Value :=
  foldl (λ old c, write_at c k old) old changes.

Lemma apply_readings_spec changes : ∀ applied (s : S), ok s →
  ∃ s', apply_readings changes applied s = Some (Ok (merge_all changes applied), s') ∧ evolves s s' ∧
    (∀ k, contents s' k = written k (contents s k) changes) ∧ ∀ k, meta_of s' k = meta_of s k.
Proof.
  induction changes as [|c changes IH]; intros applied s Hs.
  { exists s. split_and!; [done|by apply evolves_refl|done..]. }
  destruct (write_store_spec c s Hs) as (s1 & E & Hev & Hc & Hm).
  destruct (IH (merge_change applied c) s1) as (s2 & E2 & Hev2 & Hc2 & Hm2); [apply Hev|].
  exists s2. cbn [apply_readings]. unfold mbind, T_bind. rewrite E. split_and!; [done|by eapply evolves_trans|..].
  - intros k. by rewrite Hc2, Hc.
  - intros k. by rewrite Hm2, Hm.
Qed.

(** ** Phase 3 *)
Lemma apply_update_evolves change (s : S) : ok s → evolves s (apply_update change s).2.
Proof.
  intros Hs. unfold apply_update. repeat case_match; simplify_eq/=; try by apply evolves_refl.
  destruct (write_law s change Hs) as (s' & E & Hev & _). congruence.
Qed.
Lemma apply_command_keeps r `{!HostLaws r} index op sh : ok (sh_store sh) → sh_cell sh ≠ Borrowed →
  keeps r (sh_store sh) (sh_store (apply_command index op sh).2) ∧ sh_cell (apply_command index op sh).2 ≠ Borrowed.
Proof.
  intros Hs Hb. destruct op as [keys|change|call|p|p|p]; cbn [apply_command]; try by split; [apply keeps_refl|].
  - pose proof (apply_update_evolves change (sh_store sh) Hs) as Hev.
    destruct (apply_update change (sh_store sh)) as [q s]. simpl in *. split; [by apply evolves_keeps|done].
  - pose proof (engine_call_keeps call sh Hs Hb) as HK. by destruct (engine_call call sh) as [[q|e] sh'].
Qed.
Lemma apply_events_keeps r `{!HostLaws r} index l : ∀ sh requested sent, ok (sh_store sh) → sh_cell sh ≠ Borrowed →
  let sh' := (apply_events index l sh requested sent).1.1 in
  keeps r (sh_store sh) (sh_store sh') ∧ sh_cell sh' ≠ Borrowed.
Proof.
  induction l as [|[endpoint event] l IH]; intros sh requested sent Hs Hb; cbn [apply_events].
  { split; [by apply keeps_refl|done]. }
  destruct event as [cmd| |asked]; [|by apply IH..].
  destruct (apply_command_keeps r index (cmd_op cmd) sh Hs Hb) as [K Hb'].
  destruct (apply_command index (cmd_op cmd) sh) as [q sh1]. simpl in K, Hb'.
  destruct (IH sh1 requested (sent ++ [(cmd_reply cmd, q)])) as [K' Hb'']; [apply K|done|].
  split; [by eapply keeps_trans|done].
Qed.

(** ** Phases 4 to 6 *)
Lemma tick_behavior_keeps r `{!HostLaws r} index sh st : ok (sh_store sh) → sh_cell sh ≠ Borrowed →
  ∃ sh' st', tick_behavior index sh st = Some (sh', st') ∧ keeps r (sh_store sh) (sh_store sh') ∧ sh_cell sh' ≠ Borrowed ∧
    ∀ k, contents (sh_store sh') k =
      match sh_cell sh with
      | Free (Some i) => contents (sh_store (interpreter_tick index i (with_cell Borrowed sh)).2) k
      | _ => contents (sh_store sh) k
      end.
Proof.
  intros Hs Hb. unfold tick_behavior. destruct (sh_cell sh) as [[i|]|] eqn:E; [| |done].
  - pose proof (interpreter_tick_keeps index i (with_cell Borrowed sh) Hs) as K.
    destruct (interpreter_tick index i (with_cell Borrowed sh)) as [[q i'] sh1]. simpl in K.
    destruct q as [[|[[]|e]]|e]; eexists _, _; (split; [done|]); split; done.
  - exists sh, st. split; [done|]. split; [by apply keeps_refl|]. split; [congruence|done].
Qed.

Lemma try_iter_sub sub q : (try_iter sub q).2 = sub ∨ (try_iter sub q).2 = sub_opened sub.
Proof.
  revert sub. induction q as [|c q IH]; intros sub; [by left|]. cbn [try_iter]. rewrite deliver_spec.
  right. destruct (IH (sub_opened sub)) as [E|E]; autorewrite with arora in E.
  all: case_match; [destruct (try_iter (sub_opened sub) q); exact E|exact E].
Qed.
Lemma flush_spec sub (s : S) : ok s → live s sub "" →
  let '(out, sub', s') := flush sub s in
  ok s' ∧ live s' sub' "" ∧ rx sub' = rx sub ∧ pending s' sub' = [] ∧ (∀ k, contents s' k = contents s k) ∧
  ∀ k known, apply_at k known out = foldl (apply_at k) known (pending s sub).
Proof.
  intros Hs Hl. unfold flush, pending. pose proof (try_iter_sub sub (queue s (rx sub))) as Hsub.
  destruct (try_iter sub (queue s (rx sub))) as [changes sub'] eqn:E. simpl in Hsub |- *.
  destruct (dequeue_law s sub "" [] Hs Hl (suffix_nil _)) as (Hs' & Hc & Hq & _ & Hl').
  assert (rx sub' = rx sub) as Hr by (destruct Hsub as [->| ->]; by autorewrite with arora).
  split_and!; [done| |done| |done|].
  - destruct Hsub as [->| ->]; [|apply live_opened]; by apply Hl'.
  - by rewrite Hr, Hq.
  - intros k known. by rewrite apply_at_merge_all, apply_at_empty.
Qed.

(** ** The step *)

Definition store_of (d : Device) : S := sh_store (shared d).
(** What the device's feed still holds. *)
Definition due (d : Device) : list StateChange := pending (store_of d) (store_changes d).
(** A device between its steps. *)
Definition ready (d : Device) : Prop :=
  ok (store_of d) ∧ live (store_of d) (store_changes d) "" ∧ sh_cell (shared d) ≠ Borrowed.
(** Whoever holds [m] holds what the store does, once told what is due. *)
Definition follows (d : Device) (m : State) : Prop :=
  ∀ k, foldl (apply_at k) (held m !! k) (due d) = contents (store_of d) k.

(** Phases 0 to 3 come to a device whose store has gone on, and the last phases
    to this: *)
Definition frame_begun (dt : Z) (d d3 : Device) (applied : StateChange) : Prop :=
  ready d3 ∧ keeps (rx (store_changes d)) (store_of d) (store_of d3) ∧ store_changes d3 = store_changes d ∧
  bridge_sent d3 = bridge_sent d ∧ hal_sent d3 = hal_sent d ∧ behavior_error d3 = behavior_error d ∧
  error_sends d3 = error_sends d ∧ function_index d3 = function_index d ∧ hal_feed d3 = [] ∧ inbound d3 = [] ∧
  sensors d3 = [] ∧ events d3 = [] ∧ applied = merge_all (sensors d ++ hal_feed d) sc_new ∧
  clock d3 = (tick_clock (clock d) dt).1.
(** Phases 0 to 2, and what is left of the step. *)
Lemma step_phases dt d : ready d → ∃ s0 s2 stated lines,
  let '(sh, requested, sent) :=
    apply_events (function_index d) (events d ++ inbound d) (with_shared_store s2 (shared d)) (data_requested d) (replies d) in
  step dt d = tick_and_send (merge_all (sensors d ++ hal_feed d) sc_new)
    (mkDevice sh (tick_clock (clock d) dt).1 [] [] [] [] [] stated requested (store_changes d) (function_index d)
       (behavior_error d) (error_sends d) (hal_sent d) (bridge_sent d) sent (log d ++ lines)) ∧
  (s0, stated, lines) = describe_hal_keys (store_of d) (hal_keys d) (hal_stated d) [] ∧
  (∀ r, keeps r (store_of d) s2) ∧ (∀ k, meta_of s2 k = meta_of s0 k) ∧
  ∀ k, contents s2 k = written k (contents (store_of d) k)
    (clock_change (tick_clock (clock d) dt).2 :: sensors d ++ hal_feed d).
Proof.
  intros (Hs & _ & _). unfold step, describe, store_of in *. cbn [sweep_now shared sh_store].
  pose proof (λ r, describe_hal_keys_keeps r (hal_keys d) (sh_store (shared d)) (hal_stated d) [] Hs) as K0.
  change (sh_store (shared (sweep_now d))) with (sh_store (shared d)).
  change (hal_keys (sweep_now d)) with (hal_keys d). change (hal_stated (sweep_now d)) with (hal_stated d).
  destruct (describe_hal_keys _ _ _ _) as [[s0 stated] lines]. simpl in K0. cbn [clock].
  change (clock (sweep_now d)) with (clock d). destruct (tick_clock (clock d) dt) as [now values].
  cbn [sweep_now shared with_shared_store sh_store sensors events function_index data_requested replies].
  unfold publish_clock. destruct (write_store_spec (clock_change values) s0) as (s1 & E1 & Ev1 & C1 & M1); [apply (K0 0%nat)|].
  rewrite E1. destruct (apply_readings_spec (sensors d ++ hal_feed d) sc_new s1) as (s2 & E2 & Ev2 & C2 & M2); [apply Ev1|].
  unfold apply_sensors. rewrite E2. exists s0, s2, stated, lines.
  change (with_shared_store s2 (with_shared_store s0 (shared d))) with (with_shared_store s2 (shared d)).
  destruct (apply_events _ _ _ _ _) as [[sh3 q3] r3]. split_and!; [done|done| |..].
  - intros r. eapply keeps_trans; [apply K0|]. eapply keeps_trans; apply evolves_keeps; [exact Ev1|exact Ev2].
  - intros k. by rewrite M2, M1.
  - intros k. rewrite C2, C1, (proj2 (K0 0%nat)). done.
Qed.

Lemma step_begins dt d `{!HostLaws (rx (store_changes d))} : ready d →
  ∃ d3 applied, step dt d = tick_and_send applied d3 ∧ frame_begun dt d d3 applied.
Proof.
  intros Hd. destruct (step_phases dt d Hd) as (s0 & s2 & stated & lines & Hp). destruct Hd as (Hs & Hl & Hb).
  match type of Hp with context [apply_events ?i ?l ?sh ?q ?r] =>
    pose proof (apply_events_keeps (rx (store_changes d)) i l sh q r) as K3; destruct (apply_events i l sh q r) as [[sh3 q3] r3] end.
  destruct Hp as (-> & _ & K2 & _). destruct K3 as [K3 Hb3]; [apply (K2 0%nat)|exact Hb|].
  assert (keeps (rx (store_changes d)) (store_of d) (sh_store sh3)) as K by (eapply keeps_trans; [apply K2|exact K3]).
  eexists _, _. split; [reflexivity|]. unfold frame_begun, ready, store_of in *. simpl. split_and!; try done.
  - apply K.
  - by apply K.
Qed.

(** What a step leaves and sends, over a store that keeps its promises. *)
Definition step_sent (d d' : Device) (applied out : StateChange) : Prop :=
  ready d' ∧ due d' = [] ∧ rx (store_changes d') = rx (store_changes d) ∧ function_index d' = function_index d ∧
  bridge_sent d' = (if sc_is_empty out then bridge_sent d else write_bridges (data_requested d') out (bridge_sent d)) ∧
  hal_sent d' = (if sc_is_empty out then hal_sent d else hal_sent d ++ write_hal out applied) ∧
  ∀ m, follows d m → follows d' (apply out m).
Lemma follows_keeps d d' m : store_changes d' = store_changes d → keeps (rx (store_changes d)) (store_of d) (store_of d') →
  live (store_of d) (store_changes d) "" → follows d m → follows d' m.
Proof. intros Hsub [_ K] Hl Hm k. destruct (K _ eq_refl Hl) as [_ F]. unfold due. rewrite Hsub. apply F, Hm. Qed.

(** The last phases: the tick, and what it leaves drained and sent. *)
Lemma tick_and_send_spec applied d3 `{!HostLaws (rx (store_changes d3))} : ready d3 → ∃ d' out,
  tick_and_send applied d3 = Some (Ok tt, d') ∧ step_sent d3 d' applied out ∧
  ∀ k, contents (store_of d') k =
    match sh_cell (shared d3) with
    | Free (Some i) => contents (sh_store (interpreter_tick (function_index d3) i (with_cell Borrowed (shared d3))).2) k
    | _ => contents (store_of d3) k
    end.
Proof.
  intros (Hs3 & Hl3 & Hb3). unfold tick_and_send.
  destruct (tick_behavior_keeps (rx (store_changes d3)) (function_index d3) (shared d3)
    (mkStanding (behavior_error d3) (error_sends d3) (log d3)) Hs3 Hb3) as (sh4 & st & -> & K4 & Hb4 & C4). simpl.
  destruct (report_task_runs (sh_store sh4) (sh_runs sh4) (function_index d3)) as [runs lines].
  destruct (proj2 K4 (store_changes d3) eq_refl Hl3) as [Hl4 F4].
  pose proof (flush_spec (store_changes d3) (sh_store sh4) (proj1 K4) Hl4) as Hf.
  destruct (flush (store_changes d3) (sh_store sh4)) as [[out sub'] s']. destruct Hf as (Hs' & Hl' & Hr & Hp & Hc & Hout).
  eexists _, out. split; [reflexivity|]. split.
  - unfold step_sent, ready, due, store_of. simpl. split_and!; try done.
    intros m Hm k. unfold due, store_of. simpl. rewrite Hp, Hc. cbn [foldl]. rewrite apply_at_held, Hout. apply F4, Hm.
  - intros k. unfold store_of. simpl. rewrite Hc. apply C4.
Qed.
Lemma step_spec dt d `{!HostLaws (rx (store_changes d))} : ready d →
  ∃ d' applied out, step dt d = Some (Ok tt, d') ∧ step_sent d d' applied out ∧
    applied = merge_all (sensors d ++ hal_feed d) sc_new.
Proof.
  intros Hd. destruct (step_begins dt d Hd) as (d3 & applied & -> & Hd3 & K & Hsub & Hbr & Hhal & _ & _ & Hix & _ & _ & _ & _ & Ha & _).
  assert (HostLaws (rx (store_changes d3))) by (by rewrite Hsub).
  destruct (tick_and_send_spec applied d3 Hd3) as (d' & out & E & (? & ? & Hr & Hix' & Hb & Hh & Hf) & _).
  exists d', applied, out. split; [done|]. split; [|done]. unfold step_sent. rewrite Hr, Hix', Hsub, <- Hbr, <- Hhal.
  split_and!; try done. intros m Hm. apply Hf. eapply follows_keeps; [done|done|apply Hd|done].
Qed.

(** ** A remote that asks throughout *)

(** Between steps, whatever happens to the store but for the device's feed, and to
    the streams; a step whose events leave the endpoint [e] asking. *)
Inductive turn (e : nat) : Device → Device → Prop :=
| turn_step dt d d' : step dt d = Some (Ok tt, d') → data_requested d' !! e = Some true → turn e d d'
| turn_outside d d' :
    keeps (rx (store_changes d)) (store_of d) (store_of d') → sh_cell (shared d') ≠ Borrowed →
    store_changes d' = store_changes d → bridge_sent d' = bridge_sent d → turn e d d'.

Lemma write_bridges_lookup asked out sent e : asked !! e = Some true →
  write_bridges asked out sent !! e = (λ l, l ++ [out]) <$> sent !! e.
Proof. intros Ha. unfold write_bridges. rewrite list_lookup_imap, Ha. by destruct (sent !! e). Qed.

(** What the endpoint [e] was sent since it held [m] brings [m] up to date. *)
Definition told (e : nat) (m : State) (before : list StateChange) (r : nat) (d : Device) : Prop :=
  ready d ∧ rx (store_changes d) = r ∧
  ∃ since, bridge_sent d !! e = Some (before ++ since) ∧ follows d (foldl (λ m c, apply c m) m since).

Lemma told_step e m before r dt d d' `{!HostLaws r} :
  step dt d = Some (Ok tt, d') → data_requested d' !! e = Some true → told e m before r d → told e m before r d'.
Proof.
  intros E Ha (Hd & <- & since & Hb & Hm). destruct (step_spec dt d Hd) as (d1 & applied & out & E1 & Hsent & _).
  simplify_eq. destruct Hsent as (Hd1 & _ & Hr & _ & Hbr & _ & Hf). split; [done|]. split; [done|]. rewrite Hbr.
  destruct (sc_is_empty out) eqn:Ho.
  - exists since. split; [done|]. apply sc_is_empty_spec in Ho as ->. apply Hf in Hm. by rewrite apply_empty in Hm.
  - exists (since ++ [out]). rewrite write_bridges_lookup, Hb by done. simpl. rewrite <- app_assoc, foldl_app.
    split; [done|by apply Hf].
Qed.
Lemma told_turns e m before r d d' `{!HostLaws r} : rtc (turn e) d d' → told e m before r d → told e m before r d'.
Proof.
  induction 1 as [|d d1 d2 Ht _ IH]; [done|]. intros Hd. apply IH. destruct Ht as [dt d d' E Ha|d d' K Hc Hsub Hb].
  - by eapply told_step.
  - destruct Hd as (Hd & <- & since & Hs & Hm). destruct (proj2 K (store_changes d) eq_refl (proj1 (proj2 Hd))) as [Hl _].
    split; [|split; [by rewrite Hsub|exists since; split; [by rewrite Hb|by eapply follows_keeps; [..|apply Hd|]]]].
    split_and!; [apply K|by rewrite Hsub|done].
Qed.

(** C11. A remote mirrors its device, for as long as it asks for data. Over a store
    that keeps the trait's promises no step fails or panics, whatever the host
    functions and the behavior do to it; and whoever held what the store did, was
    asking at the end of every step since - a step that ends with it not asking
    sends it nothing, and nothing makes up for it - and has applied every change the
    device sent the endpoint, holds after each step exactly what the store holds:
    what was read, written, called or ticked meanwhile, within steps or between. *)
Theorem remote_mirrors_device e m before r dt (d d1 : Device) `{!HostLaws r} :
  ready d → rx (store_changes d) = r → follows d m → bridge_sent d !! e = Some before →
  rtc (turn e) d d1 →
  ∃ d2, step dt d1 = Some (Ok tt, d2) ∧
    (data_requested d2 !! e = Some true →
     ∃ since, bridge_sent d2 !! e = Some (before ++ since) ∧
       ∀ k, held (foldl (λ m c, apply c m) m since) !! k = contents (store_of d2) k).
Proof.
  intros Hd Hr Hm Hb Hturns.
  assert (told e m before r d) as Ht by (split_and!; [done..|]; exists []; by rewrite app_nil_r).
  apply (told_turns e m before r d d1 Hturns) in Ht. pose proof Ht as (Hd1 & Hr1 & _). subst r. rewrite <- Hr1 in *.
  destruct (step_spec dt d1 Hd1) as (d2 & applied & out & E & (_ & Hdue & _) & _).
  exists d2. split; [done|]. intros Ha. destruct (told_step _ _ _ _ _ _ _ E Ha Ht) as (_ & _ & since & Hs & Hf).
  exists since. split; [done|]. intros k. specialize (Hf k). by rewrite Hdue in Hf.
Qed.

(** ** The order of a frame's writers *)

(** The update a bridge's event writes, where [metas] allow it. *)
Definition accepted (metas : Key → option KeyMeta) (event : option nat * Inbound) : option StateChange :=
  match event.2 with
  | InCommand (mkBridgeCommand (OpUpdate change) _) => if allows metas change then Some change else None
  | _ => None
  end.
Definition no_call (event : option nat * Inbound) : Prop :=
  match event.2 with InCommand (mkBridgeCommand (OpCall _) _) => False | _ => True end.

Lemma apply_events_written index l : ∀ metas sh requested sent, Forall no_call l → ok (sh_store sh) →
  (∀ k, meta_of (sh_store sh) k = metas k) →
  let sh' := (apply_events index l sh requested sent).1.1 in
  sh' = with_shared_store (sh_store sh') sh ∧
  ∀ k, contents (sh_store sh') k = written k (contents (sh_store sh) k) (omap (accepted metas) l).
Proof.
  induction l as [|[endpoint event] l IH]; intros metas sh requested sent Hl Hs Hm; cbn [apply_events].
  { by destruct sh. }
  apply Forall_cons in Hl as [He Hl]. destruct event as [[op reply]| |asked]; [|by apply IH..].
  destruct op as [keys|change|call|p|p|p]; [by apply IH| |destruct He|by apply IH..]. cbn [cmd_op cmd_reply apply_command].
  destruct (apply_update_written (sh_store sh) change Hs) as (Hev & Hmeta & Hc).
  destruct (apply_update change (sh_store sh)) as [q s1]. cbn [snd] in Hev, Hmeta, Hc.
  destruct (IH metas (with_shared_store s1 sh) requested (sent ++ [(reply, q)]) Hl) as [Hsh Hw];
    [apply Hev|intros k; simpl; by rewrite Hmeta|].
  split; [exact Hsh|]. intros k. rewrite Hw. simpl. unfold accepted at 2. simpl. rewrite Hc.
  assert (allows (meta_of (sh_store sh)) change = allows metas change) as ->.
  { unfold allows. induction (update_keys change) as [|key r IHr]; [done|]. simpl. by rewrite Hm, IHr. }
  by destruct (allows metas change).
Qed.

(** C12. The writers of a frame apply in their order. Where no bridge calls a function,
    each key holds, when the behavior ticks, what it held before the step written
    with the clock, the readings in the order they arrived, then the updates the
    store's meta allows, in theirs: a later writer wins. The behavior ticks over
    exactly that, its cell held, and what it leaves is what the step leaves. *)
Theorem frame_order dt (d : Device) `{!HostLaws (rx (store_changes d))} :
  ready d → Forall no_call (events d ++ inbound d) →
  let s0 := (describe_hal_keys (store_of d) (hal_keys d) (hal_stated d) []).1.1 in
  ∃ s3 d', step dt d = Some (Ok tt, d') ∧
    (∀ k, contents s3 k = written k (contents (store_of d) k)
      (clock_change (tick_clock (clock d) dt).2
       :: (sensors d ++ hal_feed d) ++ omap (accepted (meta_of s0)) (events d ++ inbound d))) ∧
    ∀ k, contents (store_of d') k =
      match sh_cell (shared d) with
      | Free (Some i) =>
          contents (sh_store (interpreter_tick (function_index d) i
            (mkShared s3 Borrowed (sh_runs (shared d)) (sh_outside (shared d)))).2) k
      | _ => contents s3 k
      end.
Proof.
  intros Hd Hno s0. destruct (step_phases dt d Hd) as (s0' & s2 & stated & lines & Hp).
  pose proof (apply_events_written (function_index d) (events d ++ inbound d) (meta_of s0')
    (with_shared_store s2 (shared d)) (data_requested d) (replies d) Hno) as Hw.
  pose proof (apply_events_keeps (rx (store_changes d)) (function_index d) (events d ++ inbound d)
    (with_shared_store s2 (shared d)) (data_requested d) (replies d)) as K3.
  destruct (apply_events _ _ _ _ _) as [[sh3 q3] r3]. destruct Hp as (-> & E0 & K2 & M2 & C2). cbn [fst] in Hw, K3.
  assert (s0' = s0) as -> by (unfold s0; by rewrite <- E0).
  destruct K3 as [K3 Hb3]; [apply (K2 0%nat)|apply Hd|].
  destruct Hw as [Hsh Hw]; [apply (K2 0%nat)|exact M2|]. cbn [sh_store with_shared_store] in Hw, K3.
  exists (sh_store sh3). set (d3 := mkDevice sh3 _ _ _ _ _ _ _ _ _ _ _ _ _ _ _ _).
  destruct (proj2 (keeps_trans _ _ _ _ (K2 (rx (store_changes d))) K3) _ eq_refl (proj1 (proj2 Hd))) as [Hl3 _].
  destruct (tick_and_send_spec (merge_all (sensors d ++ hal_feed d) sc_new) d3) as (d' & out & E & _ & Hd');
    [split_and!; [apply K3|exact Hl3|exact Hb3]|].
  exists d'. split; [exact E|]. split.
  - intros k. rewrite Hw, C2. unfold written. by rewrite <- foldl_app.
  - intros k. rewrite Hd'. unfold d3, store_of. cbn [shared function_index]. clear - Hsh.
    destruct sh3 as [s3 cell runs outside]. cbn in Hsh |- *. injection Hsh as -> -> ->. done.
Qed.
End Steps.
