(* ===== verification/Outbound.v ===== *)
(** * What a step sends: the HAL's part of the change, in [Runtime.v]

    The HAL is lent the step's change, or sent a copy without its own readings:
    the two are one definition, and leaving the readings out loses it nothing. *)

From S2P Require Import Prelude Values Extern Keys State Store StoreMeta Runtime Stepping.

(** ** Equality of values is symmetric: [a == b] and [b == a] *)
Lemma list_eqb_sym {A} (eqb : A → A → bool) l k :
  Forall (λ x, ∀ y, y ∈ k → eqb x y = true → eqb y x = true) l → list_eqb eqb l k = true → list_eqb eqb k l = true.
Proof.
  revert k. induction l as [|x l IH]; intros [|y k]; simpl; [done..|].
  intros [Hx Hl]%Forall_cons [E El]%andb_true_iff. rewrite (Hx y) by (done || by left). simpl.
  apply IH; [|done]. eapply Forall_impl; [exact Hl|]. intros z Hz w Hw. apply Hz. by right.
Qed.
Lemma f32_eqb_sym x y : f32_eqb x y = true → f32_eqb y x = true.
Proof. unfold f32_eqb. rewrite (Z.eqb_sym x y). destruct (f32_is_nan x), (f32_is_nan y), (y =? x), (float_abs 32 x =? 0), (float_abs 32 y =? 0); done. Qed.
Lemma f64_eqb_sym x y : f64_eqb x y = true → f64_eqb y x = true.
Proof. unfold f64_eqb. rewrite (Z.eqb_sym x y). destruct (f64_is_nan x), (f64_is_nan y), (y =? x), (float_abs 64 x =? 0), (float_abs 64 y =? 0); done. Qed.
Lemma hm_eqb_sym {A} (eqb : A → A → bool) (m1 m2 : list (string * A)) :
  NoDup m1.*1 → NoDup m2.*1 →
  (∀ k x y, (k, x) ∈ m1 → (k, y) ∈ m2 → eqb x y = true → eqb y x = true) →
  hm_eqb eqb m1 m2 = true → hm_eqb eqb m2 m1 = true.
Proof.
  intros H1 H2 Hs. unfold hm_eqb. rewrite !andb_true_iff, !Nat.eqb_eq, !forallb_Forall, !Forall_forall.
  intros [Hl Hm]. split; [done|].
  assert (m1.*1 ≡ₚ m2.*1) as Hp.
  { apply submseteq_length_Permutation; [|rewrite !length_fmap; lia]. apply NoDup_submseteq; [done|].
    intros k ([k' x] & -> & Hin)%list_elem_of_fmap. specialize (Hm _ Hin). simpl in Hm.
    destruct (hm_get k' m2) as [y|] eqn:E; [|done]. apply hm_get_elem_of in E; [|done].
    apply list_elem_of_fmap. by exists (k', y). }
  intros [k y] Hin. simpl. assert (k ∈ m1.*1) as ([k' x] & -> & Hx)%list_elem_of_fmap.
  { rewrite Hp. apply list_elem_of_fmap. by exists (k, y). }
  simpl in *. pose proof (proj2 (hm_get_elem_of k' x m1 H1) Hx) as ->. specialize (Hm _ Hx). simpl in Hm.
  rewrite (proj2 (hm_get_elem_of k' y m2 H2) Hin) in Hm. by eapply Hs.
Qed.
Definition sym_ok (a : Value) : Prop :=
  wf_value a = true → ∀ b, wf_value b = true → value_eqb a b = true → value_eqb b a = true.
Lemma fields_eqb_sym fs gs :
  Forall (λ f : StructureField, sym_ok (sf_value f)) fs →
  wf_vec (λ f : StructureField, wf_uuid (sf_id f) && wf_value (sf_value f)) fs = true →
  wf_vec (λ f : StructureField, wf_uuid (sf_id f) && wf_value (sf_value f)) gs = true →
  list_eqb (λ f g : StructureField, (sf_id f =? sf_id g) && value_eqb (sf_value f) (sf_value g)) fs gs = true →
  list_eqb (λ f g : StructureField, (sf_id f =? sf_id g) && value_eqb (sf_value f) (sf_value g)) gs fs = true.
Proof.
  intros IH Hf%wf_vec_Forall Hg%wf_vec_Forall. apply list_eqb_sym. rewrite Forall_forall in *.
  intros f Hin g Hin'. specialize (Hf f Hin). specialize (Hg g Hin'). specialize (IH f Hin). split_wf.
  rewrite !andb_true_iff, (Z.eqb_sym (sf_id g)). intros [-> E]. split; [done|]. by apply IH.
Qed.
Lemma value_eqb_sym a : sym_ok a.
Proof.
  induction a as [a IH] using Value_ind_subs. intros Ha b Hb.
  destruct a as [| | | | | | | | | | | | |[v|]|[i fs]|[i vi v]| | | | | | | | | | | | |vs|i es|i es|[i fs]|];
    destruct b as [| | | | | | | | | | | | |[w|]|[j gs]|[j wi w]| | | | | | | | | | | | |ws|j ws|j ws|[j gs]|];
    cbn [value_eqb st_id st_fields en_id en_variant_id en_value kv_id kv_fields option_eqb];
    try discriminate; try done; cbn [wf_value st_id st_fields en_id en_variant_id en_value kv_id kv_fields] in Ha, Hb;
    cbn [subs_ok st_fields en_value kv_fields] in IH;
    try (rewrite Z.eqb_sym; done);
    try (intros E; apply list_eqb_sym; [|exact E]; apply Forall_forall; intros x _ y _;
         rewrite ?(Z.eqb_sym y), ?(String.eqb_sym y); first [done|apply f32_eqb_sym|apply f64_eqb_sym|by destruct x, y]);
    try (apply f32_eqb_sym || apply f64_eqb_sym);
    try (rewrite String.eqb_sym; done).
  - by destruct b0, b.
  - by apply IH.
  - split_wf. rewrite !andb_true_iff, (Z.eqb_sym j). intros [-> E]. split; [done|]. by apply fields_eqb_sym.
  - split_wf. rewrite !andb_true_iff, (Z.eqb_sym j), (Z.eqb_sym wi). intros [[-> ->] E]. split; [done|]. by apply IH.
  - apply wf_vec_Forall in Ha, Hb. apply list_eqb_sym. rewrite Forall_forall in *. intros x Hx y Hy. by apply IH; auto.
  - split_wf. repeat match goal with H : wf_vec _ _ = true |- _ => apply wf_vec_Forall in H end.
    rewrite !andb_true_iff, (Z.eqb_sym j). intros [-> E]. split; [done|]. revert E. apply list_eqb_sym.
    rewrite Forall_forall in *. intros x Hx y Hy. by apply fields_eqb_sym; auto.
  - split_wf. repeat match goal with H : wf_vec _ _ = true |- _ => apply wf_vec_Forall in H end.
    rewrite !andb_true_iff, (Z.eqb_sym j). intros [-> E]. split; [done|]. revert E. apply list_eqb_sym.
    rewrite Forall_forall in *. intros x Hx y Hy. specialize (IH x Hx).
    repeat match goal with H : ∀ z, z ∈ _ → (_ && _) = true |- _ => first [specialize (H x Hx)|specialize (H y Hy)] end.
    simpl in *. split_wf. rewrite !andb_true_iff, (Z.eqb_sym (ew_variant_id y)). intros [-> E]. split; [done|]. by apply IH.
  - split_wf. repeat match goal with H : wf_vec _ _ = true |- _ => apply wf_vec_Forall in H end.
    rewrite !andb_true_iff, (Z.eqb_sym j). intros [-> E]. split; [done|]. revert E. apply hm_eqb_sym; [done..|].
    rewrite Forall_forall in *. intros k x y Hx Hy. specialize (IH _ Hx).
    repeat match goal with H : ∀ z, z ∈ _ → (_ && _) = true |- _ => first [specialize (H _ Hx)|specialize (H _ Hy)] end.
    simpl in *. split_wf. rewrite !andb_true_iff, (Z.eqb_sym (kvf_id y)), (String.eqb_sym (kvf_name y)).
    intros [[-> ->] E]. split; [done|]. destruct (kvf_value x), (kvf_value y); try done. by apply IH.
Qed.

(** ** The HAL's change *)
Definition wf_change (c : StateChange) : Prop := ∀ k v, sc_set c !! k = Some (Some v) → wf_value v = true.
(** A change says one thing of a key, as every merged one does. *)
Definition disjoint_change (c : StateChange) : Prop := ∀ k, k ∈ sc_unset c → sc_set c !! k = None.

Lemma merge_change_disjoint a b : disjoint_change a → disjoint_change (merge_change a b).
Proof.
  intros Ha k. destruct (lookup_merge a b k) as [-> ->]. specialize (Ha k).
  destruct (decide (k ∈ sc_unset b)); [done|]. intros [?|[Hk ->]]; [done|auto].
Qed.
Lemma merge_all_disjoint changes merged : disjoint_change merged → disjoint_change (merge_all changes merged).
Proof. revert merged. induction changes as [|c l IH]; intros merged Hm; [done|]. by apply IH, merge_change_disjoint. Qed.

Lemma same_value_sym a b v : (∀ w, a = Some (Some w) → wf_value w = true) → (∀ w, b = Some (Some w) → wf_value w = true) →
  same_value a b = v → same_value b a = v.
Proof.
  intros Ha Hb <-. unfold same_value. destruct a as [[x|]|], b as [[y|]|]; try done. simpl.
  specialize (Ha x eq_refl). specialize (Hb y eq_refl). apply eq_true_iff_eq. split; by apply value_eqb_sym.
Qed.

Section Hal.
Variables (out applied : StateChange).
Hypotheses (Hout : wf_change out) (Hread : wf_change applied).

Lemma lookup_for_hal k : sc_set (for_hal out applied) !! k =
  if same_value (sc_set applied !! k) (sc_set out !! k) then None else sc_set out !! k.
Proof.
  simpl. destruct (sc_set out !! k) as [v|] eqn:E.
  - destruct (same_value (sc_set applied !! k) (Some v)) eqn:Hs.
    + apply map_lookup_filter_None. right. intros v' Hv. simplify_eq. simpl. by rewrite Hs.
    + by apply map_lookup_filter_Some.
  - assert (filter (λ kv : Key * option Value, same_value (sc_set applied !! kv.1) (Some kv.2) = false) (sc_set out) !! k = None) as ->
      by (apply map_lookup_filter_None; by left). by destruct (same_value _ _).
Qed.

(** Nothing is left out exactly when no reading is what the frame ends with. *)
Lemma not_reported_back : reported_back out applied = false → for_hal out applied = out.
Proof.
  unfold reported_back. rewrite orb_false_iff. intros [Hs Hu]. apply sc_ext.
  - apply map_eq. intros k. rewrite lookup_for_hal. destruct (same_value _ _) eqn:E; [|done].
    destruct (sc_set applied !! k) as [v|] eqn:Ha; [|by destruct (sc_set out !! k)].
    exfalso. apply not_true_iff_false in Hs. apply Hs. apply existsb_exists. exists (k, v).
    split; [by apply list_elem_of_In, elem_of_map_to_list|]. simpl. eapply same_value_sym; [| |exact E].
    + intros w [= ->]. by eapply Hread.
    + intros w Hw. by eapply Hout.
  - apply set_eq. intros k. simpl. rewrite elem_of_filter. split; [by intros [_ ?]|]. intros Hk. split; [|done].
    intros Hk'. apply not_true_iff_false in Hu. apply Hu. apply existsb_exists. exists k.
    split; [by apply list_elem_of_In, elem_of_elements|]. by apply bool_decide_eq_true.
Qed.
Lemma reported_back_left_out : reported_back out applied = true → for_hal out applied ≠ out.
Proof.
  unfold reported_back. rewrite orb_true_iff. intros [Hs|Hu] Heq.
  - apply existsb_exists in Hs as ([k v] & Hk%list_elem_of_In%elem_of_map_to_list & Hs). simpl in Hs.
    assert (same_value (sc_set applied !! k) (sc_set out !! k) = true) as Hs'.
    { eapply same_value_sym; [| |rewrite Hk; exact Hs]; [intros w Hw; by eapply Hout|].
      intros w Hw. eapply Hread. exact Hw. }
    pose proof (lookup_for_hal k) as Hl. rewrite Hs', Heq in Hl. rewrite Hl in Hs. done.
  - apply existsb_exists in Hu as (k & Hk%list_elem_of_In%elem_of_elements & Hu). apply bool_decide_eq_true in Hu.
    assert (k ∈ sc_unset (for_hal out applied)) as Hk' by (by rewrite Heq). simpl in Hk'.
    apply elem_of_filter in Hk' as [? _]. done.
Qed.
End Hal.

(** As [==] has it, or the same. *)
Definition agree (a b : option Value) : Prop := a = b ∨ option_eqb value_eqb a b = true.

(** The HAL is told all but its own readings. Lending it the step's change where
    no reading stands at the frame's end is sending it that change without the
    readings that stand; and a HAL that holds what it reported and applies what it
    is sent holds, of each key the step changed, what the store says. *)
Theorem hal_told_all_but_readings (out applied : StateChange) :
  wf_change out → wf_change applied → disjoint_change out → disjoint_change applied → sc_is_empty out = false →
  write_hal out applied = (if sc_is_empty (for_hal out applied) then [] else [for_hal out applied]) ∧
  (reported_back out applied = true ↔ for_hal out applied ≠ out) ∧
  ∀ k known, sc_contains out k = true →
    agree (foldl (apply_at k) (apply_at k known applied) (write_hal out applied)) (apply_at k known out).
Proof.
  intros Ho Ha Do Da He.
  assert (write_hal out applied = if sc_is_empty (for_hal out applied) then [] else [for_hal out applied]) as Hw.
  { unfold write_hal. destruct (reported_back out applied) eqn:Hr; [done|]. simpl.
    by rewrite (not_reported_back out applied Ho Ha Hr), He. }
  split; [done|]. split.
  { split; [by apply reported_back_left_out|]. intros Hne. destruct (reported_back out applied) eqn:Hr; [done|].
    by destruct Hne; apply not_reported_back. }
  intros k known Hk.
  assert (foldl (apply_at k) (apply_at k known applied) (write_hal out applied) =
    apply_at k (apply_at k known applied) (for_hal out applied)) as ->.
  { rewrite Hw. destruct (sc_is_empty (for_hal out applied)) eqn:E; [|done].
    apply sc_is_empty_spec in E as ->. by rewrite apply_at_empty. }
  unfold apply_at. rewrite (lookup_for_hal out applied k).
  apply orb_true_iff in Hk. rewrite !bool_decide_eq_true in Hk.
  destruct (decide (k ∈ sc_unset out)) as [Hu|Hu].
  - rewrite (Do k Hu). left. destruct (decide (k ∈ sc_unset (for_hal out applied))) as [Hf|Hf]; [done|].
    simpl in Hf. rewrite elem_of_filter in Hf. destruct (decide (k ∈ sc_unset applied)) as [Hap|Hap]; [|naive_solver].
    by destruct (same_value _ None).
  - destruct Hk as [[v Hv]|]; [|done]. rewrite Hv. rewrite decide_False by (simpl; rewrite elem_of_filter; naive_solver).
    destruct (same_value (sc_set applied !! k) (Some v)) eqn:Hs; [|by left].
    destruct (sc_set applied !! k) as [w|] eqn:Hap; [|done]. rewrite decide_False by (intros Hin; rewrite (Da k Hin) in Hap; done).
    by right.
Qed.
