(* ===== verification/Lifecycles.v ===== *)
(** * What a device says and when: faults, the clock and the cadence
    of [Runtime.v] *)

From S2P Require Import Prelude Values Extern Keys State Store Effects Nodes Schema Runtime Commands.

(** ** The standing fault *)

(** A watch that was sent [sends], each another than what stood, and stands at
    [standing]; it starts at nothing. *)
Fixpoint watched (standing : option string) (sends : list (option string)) (now : option string) : Prop :=
  match sends with
  | [] => standing = now
  | sent :: sends => sent ≠ standing ∧ watched sent sends now
  end.
Lemma watched_app start sends now sends' now' :
  watched start sends now → watched now sends' now' → watched start (sends ++ sends') now'.
Proof. revert start. induction sends as [|x l IH]; intros start; simpl; [by intros ->|]. intros [? ?] ?. split; auto. Qed.

Section Faults.
Context {S X I : Type} `{DS : DataStore S} `{HO : !Host S X I} `{RE : ReplyEncoding}.

(** What stands after a tick. *)
Definition fault_of (r : result string BehaviorStatus) : option string :=
  match r with Ok StillRunning | Ok (Done (Ok _)) => None | Ok (Done (Err e)) | Err e => Some e end.
Definition ends (r : result string BehaviorStatus) : bool := match r with Ok (Done _) => true | _ => false end.

(** What the watch is sent as [new] comes to stand over [old]. *)
Definition sent_if_new (old new : option string) : list (option string) := if decide (old = new) then [] else [new].

Lemma raise_spec message retried st : ∃ lines,
  raise message retried st = mkStanding (Some message)
    (st_sends st ++ sent_if_new (st_error st) (Some message)) (st_lines st ++ lines).
Proof.
  unfold raise, sent_if_new. case_decide as E; [exists []|eexists; reflexivity]. rewrite !app_nil_r. destruct st. simpl in *. by rewrite E.
Qed.
Lemma clear_spec st :
  (clear st).2 = mkStanding None (st_sends st ++ sent_if_new (st_error st) None) (st_lines st).
Proof. unfold clear. destruct st as [[e|] sends lines]; simpl; [done|by rewrite app_nil_r]. Qed.

(** A tick, by what the interpreter answers: the interpreter is dropped if it is
    done, and what stands is sent if it changed. *)
Lemma tick_behavior_spec index sh st i : sh_cell sh = Free (Some i) →
  let '(r, i', sh') := interpreter_tick index i (with_cell Borrowed sh) in
  ∃ lines, tick_behavior index sh st = Some (with_cell (Free (if ends r then None else Some i')) sh',
    mkStanding (fault_of r) (st_sends st ++ sent_if_new (st_error st) (fault_of r)) (st_lines st ++ lines)).
Proof.
  intros E. unfold tick_behavior. rewrite E. destruct (interpreter_tick _ _ _) as [[r i'] sh'].
  pose proof (clear_spec st) as Hc.
  destruct r as [[|[[]|e]]|e]; cbn [fault_of ends].
  - destruct (clear st) as [[] st']; simpl in Hc; subst st'; [by exists [BehaviorRecovered]|exists []; by rewrite app_nil_r].
  - rewrite Hc. by exists [BehaviorFinished].
  - destruct (raise_spec e false st) as [lines ->]. by eexists.
  - destruct (raise_spec e true st) as [lines ->]. by eexists.
Qed.
Lemma tick_behavior_watched index sh st sh' st' start :
  tick_behavior index sh st = Some (sh', st') →
  watched start (st_sends st) (st_error st) → watched start (st_sends st') (st_error st').
Proof.
  intros E Hw. destruct (sh_cell sh) as [[i|]|] eqn:Ec.
  - pose proof (tick_behavior_spec index sh st i Ec) as Ht. destruct (interpreter_tick _ _ _) as [[r i'] sh1].
    destruct Ht as (lines & Ht). rewrite E in Ht. simplify_eq. simpl. eapply watched_app; [exact Hw|].
    unfold sent_if_new. case_decide; simpl; auto.
  - unfold tick_behavior in E. rewrite Ec in E. by simplify_eq.
  - unfold tick_behavior in E. by rewrite Ec in E.
Qed.

(** C14. A standing fault is told once. Whatever a step does and however it ends, the
    watch for the behavior's fault is sent only what differs from what stands, so
    no message is sent twice in a row, and stands at the last it was sent. *)
Theorem fault_told_once dt (d d' : Device S X I) r :
  step dt d = Some (r, d') →
  watched None (error_sends d) (behavior_error d) → watched None (error_sends d') (behavior_error d').
Proof.
  intros E Hw. unfold step, describe in E. destruct (describe_hal_keys _ _ _ _) as [[s0 stated] lines].
  destruct (tick_clock _ dt) as [now values]. destruct (publish_clock _ _) as [[[u|e] s1]|]; [|by simplify_eq|done].
  destruct (apply_sensors _ _) as [[[applied|e] s2]|]; [|by simplify_eq|done].
  destruct (apply_events _ _ _ _ _) as [[sh3 q3] r3]. unfold tick_and_send in E.
  match type of E with context [tick_behavior ?i ?sh ?st] => destruct (tick_behavior i sh st) as [[sh4 st4]|] eqn:Et end; [|done].
  cbn [mbind option_bind] in E. destruct (report_task_runs (sh_store sh4) (sh_runs sh4) _) as [runs rl].
  destruct (flush _ (sh_store sh4)) as [[out sub] s5]. simplify_eq. simpl.
  eapply tick_behavior_watched; [exact Et|exact Hw].
Qed.
End Faults.

(** ** The clock *)

Lemma saturating_add_range a b : 0 <= a <= U64_MAX → 0 <= b → a <= saturating_add a b <= U64_MAX.
Proof. unfold saturating_add. lia. Qed.

(** C16. The clock adds up. A device started at [start] that stepped by [dts], each under
    2^64 nanoseconds, reads the sum of them all, in nanoseconds, or the last instant a [u64] holds: it never
    goes back, wraps, or depends on how the time was cut into steps; its last step's
    delta is what it publishes. *)
Theorem clock_adds_up (start dt : Z) (dts : list Z) :
  0 <= start → Forall (λ d, 0 <= d < 2 ^ 64) (dts ++ [dt]) →
  let before := foldl (λ c d, (tick_clock c d).1) (starting_at start) dts in
  before = Z.min (start + foldr Z.add 0 dts) U64_MAX ∧
  before <= (tick_clock before dt).1 <= U64_MAX ∧
  (tick_clock before dt).2 = mkClockValues (Z.min (start + foldr Z.add 0 dts + dt) U64_MAX) dt.
Proof.
  intros Hs [Hds Hd]%Forall_app before.
  assert (∀ c, 0 <= c <= U64_MAX → foldl (λ c d, (tick_clock c d).1) c dts = Z.min (c + foldr Z.add 0 dts) U64_MAX ∧
    0 <= foldr Z.add 0 dts) as Hsum.
  { clear before. induction Hds as [|d l Hd' _ IH]; intros c Hc; [simpl; lia|]. cbn [foldl foldr].
    assert ((tick_clock c d).1 = saturating_add c d) as -> by (unfold tick_clock; by rewrite Z.mod_small).
    pose proof (saturating_add_range c d). destruct (IH (saturating_add c d)) as [-> Hn]; [lia|].
    unfold saturating_add. lia. }
  assert (0 <= starting_at start <= U64_MAX ∧ starting_at start = Z.min start U64_MAX) as [Hr Hst].
  { unfold starting_at. destruct (Z.leb_spec start U64_MAX); unfold U64_MAX in *; lia. }
  destruct (Hsum _ Hr) as [Hb Hn]. fold before in Hb. rewrite Forall_singleton in Hd.
  assert (before = Z.min (start + foldr Z.add 0 dts) U64_MAX) as Hbf by (rewrite Hb, Hst; unfold U64_MAX in *; lia).
  split; [done|]. unfold tick_clock. rewrite Z.mod_small by done. cbn [fst snd]. split.
  - apply saturating_add_range; unfold U64_MAX in *; lia.
  - f_equal. unfold saturating_add. rewrite Hbf. unfold U64_MAX in *. lia.
Qed.

(** ** The cadence *)

(** The instants a metronome's ticks wait for, asked for at [asked]. *)
Fixpoint ticks (m : Metronome) (asked : list Z) : list Z :=
  match asked with
  | [] => []
  | now :: asked => let '(at_, m) := metronome_tick now m in at_ :: ticks m asked
  end.

Lemma metronome_due now m : next_due (metronome_tick now m).2 = Some ((metronome_tick now m).1 + period m) ∧
  period (metronome_tick now m).2 = period m.
Proof. unfold metronome_tick. destruct (next_due m) as [due|]; [|done]. by destruct (now <? due). Qed.

(** The cadence keeps. Whenever its ticks are asked for, the first is immediate,
    and each after waits for one period past the one before or, where that is over
    when it is asked for, for nothing: no two are closer than a period, and asked
    for in time they stay on the first one's beat, however late each completed. *)
Theorem cadence_keeps (p : Z) (first : Z) (asked : list Z) (i : nat) (now t t' : Z) :
  0 <= p →
  let fired := ticks (mkMetronome p None) (first :: asked) in
  fired !! 0%nat = Some first ∧ length fired = S (length asked) ∧
  (asked !! i = Some now → fired !! i = Some t → fired !! S i = Some t' → t' = Z.max now (t + p)) ∧
  (Forall2 (λ now t, now <= t + p) asked (take (length asked) fired) →
   fired !! i = Some t → t = first + Z.of_nat i * p).
Proof.
  intros Hp fired.
  assert (∀ m d l, period m = p → next_due m = Some d →
    length (ticks m l) = length l ∧
    (∀ j now, l !! j = Some now → ∃ t, (d - p :: ticks m l) !! j = Some t ∧ ticks m l !! j = Some (Z.max now (t + p))) ∧
    (Forall2 (λ now t, now <= t + p) l (take (length l) (d - p :: ticks m l)) →
     ∀ j t, ticks m l !! j = Some t → t = d + Z.of_nat j * p)) as Hgen.
  { intros m d l. revert m d. induction l as [|n l IH]; intros m d Hm Hd; [done|]. cbn [ticks].
    destruct (metronome_due n m) as [Hd' Hm'].
    assert ((metronome_tick n m).1 = Z.max n d) as Hat.
    { unfold metronome_tick. rewrite Hd. destruct (Z.ltb_spec n d); simpl; lia. }
    destruct (metronome_tick n m) as [at_ m']. simpl in Hd', Hm', Hat. subst at_.
    destruct (IH m' (Z.max n d + period m)) as (Hlen & Hmax & Hbeat); [congruence|done|].
    rewrite Hm in *. replace (Z.max n d + p - p) with (Z.max n d) in * by lia.
    split; [simpl; by rewrite Hlen|]. split.
    - intros [|j] now' Hj; simpl in Hj |- *; [injection Hj as <-; exists (d - p); split; [done|f_equal; lia]|]. by apply Hmax.
    - intros [Hn Hl]%Forall2_cons. intros [|j] t0 Hj; simpl in Hj; [injection Hj as <-; lia|].
      rewrite (Hbeat Hl j t0 Hj). lia. }
  destruct (metronome_due first (mkMetronome p None)) as [Hd Hm]. cbn [period] in Hd, Hm.
  destruct (Hgen (metronome_tick first (mkMetronome p None)).2 (first + p) asked) as (Hlen & Hmax & Hbeat); [done|done|].
  replace (first + p - p) with first in * by lia. subst fired. cbn [ticks metronome_tick next_due] in *. simpl in Hlen, Hmax, Hbeat.
  split; [done|]. split; [simpl; by rewrite Hlen|]. split.
  - intros Hi Ht Ht'. destruct (Hmax i now Hi) as (t0 & Ht0 & Hx). simpl in Ht, Ht', Ht0, Hx. 
    assert (Some t = Some t0) as [= <-] by (rewrite <- Ht; exact Ht0).
    assert (Some t' = Some (Z.max now (t + p))) as [= ->] by (rewrite <- Ht'; exact Hx). done.
  - intros Hf Ht. destruct i as [|j]; [simpl in Ht; simplify_eq; lia|]. simpl in Ht. rewrite (Hbeat Hf j t Ht). lia.
Qed.
