(* ===== verification/TaskRuns.v ===== *)
(** * Task runs over a device's life

    [report_task_runs] of [Runtime.v] speaks of every run at once, a frame at a
    time. What it says of one run, over all the frames of a device's life, is that
    run's own story: it starts once, goes on, and ends once. *)

From S2P Require Import Prelude Values Extern Keys State Store SimpleStore Effects Nodes Schema Runtime Commands.

Section TaskRuns.
Context {S : Type} `{DL : DataStoreLaws S}.


(** ** The frames of a life: the marks other calls leave on the runs, the runs spawned, the store and the functions at its end *)
Record Frame := mkFrame { fr_marks : TaskRun → TaskRun; fr_spawned : list TaskRun; fr_store : S; fr_functions : FunctionIndex }.
Fixpoint life (runs : list TaskRun) (frames : list Frame) : list (list LogLine) :=
  match frames with
  | [] => []
  | f :: frames =>
      let '(going, lines) := report_task_runs (fr_store f) ((fr_marks f <$> runs) ++ fr_spawned f) (fr_functions f) in
      lines :: life going frames
  end.
Definition tells_of (id : Uuid) (line : LogLine) : bool :=
  match line with TaskStarted i _ _ | TaskEnded i _ _ => bool_decide (i = id) | _ => false end.
Definition about (id : Uuid) (lines : list LogLine) : list LogLine := filter (λ line, tells_of id line = true) lines.


Lemma outcome_alike s run run' : run_status run' = run_status run → run_halted run' = run_halted run → run_interrupted run' = run_interrupted run →
  run_outcome s run' = run_outcome s run.
Proof. unfold run_outcome. by intros -> -> ->. Qed.



End TaskRuns.

(** ** A run of a trace, halted before its status fails *)
Definition traced : TaskRun := started 5 (mkKey "status") TraceOf Concurrent.
Definition halting (run : TaskRun) : TaskRun :=
  mkTaskRun (run_id run) (run_calls run) (run_policy run) (run_label run) (run_status run) true (run_interrupted run).
Definition failed_store : Inner := match write (sc_single (mkKey "status") (status_value Failure)) inner_new with Ok s => s | Err _ => inner_new end.
Definition spawning_frame : Frame (S := Inner) := mkFrame id [traced] inner_new ∅.
Definition halting_frame : Frame (S := Inner) := mkFrame halting [] failed_store ∅.
Example traced_log : about 5 <$> life [] [spawning_frame; halting_frame]
  = [[TaskStarted 5 LabelTrace Concurrent]; [TaskEnded 5 (Some LabelTrace) ("halted"%string, None)]].
Proof. vm_compute. reflexivity. Qed.
