(* ===== verification/RuntimeExamples.v ===== *)
(** * A small device at work, over the hash-map store

    It has one bridge, which asks, and one input, [speed], a [u8]. Its behavior
    writes [arm] each tick; its one function writes [called]. *)

From S2P Require Import Prelude Values Extern Keys State Store SimpleStore Namespaced StoreMeta Effects Nodes Schema Runtime Commands Stepping Outbound Lifecycles.

Local Abbreviation Shared := (Shared Inner unit Z).
Local Abbreviation Device := (Device Inner unit Z).
Definition stored (c : StateChange) (sh : Shared) : Shared :=
  match write c (sh_store sh) with Ok s => with_shared_store s sh | Err _ => sh end.
#[local] Instance example_host : Host Inner unit Z := {|
  engine_call call sh := (Ok unit_result, stored (sc_single (mkKey "called") (Value.Boolean true)) sh);
  interpreter_tick index i sh :=
    ((if i <? 3 then Ok StillRunning else Err "stuck"%string), i + 1, stored (sc_single (mkKey "arm") (Value.U8 i)) sh);
|}.
#[local] Instance example_encoding : ReplyEncoding := {|
  keys_to_value l := Ok (Value.ArrayString l.*1);
  methods_to_value l := Ok (Value.ArrayString (ms_name <$> l));
|}.

Lemma stored_keeps r c sh : ok (sh_store sh) → keeps r (sh_store sh) (sh_store (stored c sh)).
Proof.
  intros Hs. unfold stored. destruct (write_law (sh_store sh) c Hs) as (s' & -> & Hev & _). by apply evolves_keeps.
Qed.
#[local] Instance example_host_laws r : HostLaws (S := Inner) (X := unit) (I := Z) r.
Proof.
  split.
  - intros call sh Hs Hb. split; [by apply stored_keeps|]. simpl. unfold stored. by destruct (write _ _).
  - intros index i sh Hs. by apply stored_keeps.
Qed.

Definition SPEED : Key := mkKey "speed".
Definition example_meta : gmap Key KeyMeta := {[SPEED := of_type Ty.U8 (editable km_new)]}.
Definition described_store : Inner := with_meta example_meta ∅ inner_new.
Lemma described_ok : ok described_store.
Proof. destruct inner_new_ok. by split. Qed.
Definition opened_store : Subscription * Inner := subscribe_prefix "" described_store.
Definition set_speed (v : Value) : option nat * Inbound :=
  (Some 0%nat, InCommand (mkBridgeCommand (OpUpdate (sc_single SPEED v)) 7)).
Definition device_over (s : Inner) (sub : Subscription) (events : list (option nat * Inbound)) : Device :=
  mkDevice (mkShared s (Free (Some 1)) [] tt) 0 [] [] [sc_single SPEED (Value.U8 2)] events [] ∅ [true] sub ∅ None [] [] [[]] [] [].
Definition example_device : Device := device_over opened_store.2 opened_store.1 [set_speed (Value.U8 5)].

Lemma example_ready : ready example_device ∧ follows example_device state_new.
Proof.
  destruct (subscribe_law described_store "" opened_store.1 opened_store.2 described_ok) as ((Hok & _) & Hc & Hl & Hf);
    [unfold opened_store; by destruct (subscribe_prefix _ _)|].
  split; [by split_and!|]. intros k. unfold due, store_of. simpl. rewrite held_lookup. simpl. rewrite lookup_empty.
  apply Hf, prefix_covers_empty.
Qed.

(** The step's answer, and what the bridge is sent. *)
Definition stepped (d : Device) : option Device := match step 16 d with Some (Ok _, d) => Some d | _ => None end.
Example stepped_device :
  (λ d, (read (sh_store (shared d)) [SPEED; mkKey "arm"; TIME], replies d)) <$> stepped example_device =
  Some ([Some (Value.U8 5); Some (Value.U8 1); Some (Value.U64 16)], [(7%nat, Ok unit_result)]).
Proof. vm_compute. reflexivity. Qed.
Example refused_update :
  (λ d, (read (sh_store (shared d)) [SPEED], replies d)) <$>
    stepped (device_over opened_store.2 opened_store.1 [set_speed (Value.Boolean true)]) =
  Some ([Some (Value.U8 2)], [(7%nat, Err (NotOfType [("speed"%string, Ty.U8, Ty.Boolean)]))]).
Proof. vm_compute. reflexivity. Qed.

Lemma remote_mirrors_device_witness :
  ∃ d2, step 16 example_device = Some (Ok tt, d2) ∧
    (data_requested d2 !! 0%nat = Some true →
     ∃ since, bridge_sent d2 !! 0%nat = Some ([] ++ since) ∧
       ∀ k, held (foldl (λ m c, apply c m) state_new since) !! k = contents (store_of d2) k).
Proof.
  destruct example_ready as [Hr Hf].
  exact (remote_mirrors_device 0 state_new [] (rx (store_changes example_device)) 16 example_device example_device Hr eq_refl Hf
           eq_refl (rtc_refl _ _)).
Defined.

Lemma frame_order_witness :
  ∃ s3 d', step 16 example_device = Some (Ok tt, d') ∧
    (∀ k, contents s3 k = written k (contents (store_of example_device) k)
      [clock_change (mkClockValues 16 16); sc_single SPEED (Value.U8 2); sc_single SPEED (Value.U8 5)]) ∧
    ∀ k, contents (store_of d') k = contents (sh_store (stored (sc_single (mkKey "arm") (Value.U8 1)) (mkShared s3 Borrowed [] tt))) k.
Proof.
  destruct example_ready as [Hr _].
  destruct (frame_order 16 example_device Hr) as (s3 & d' & E & H1 & H2); [by repeat constructor|].
  exists s3, d'. split; [exact E|]. split; [exact H1|exact H2].
Defined.

Lemma update_whole_or_nothing_witness :
  (apply_update (sc_single SPEED (Value.U8 5)) described_store).1 = Ok unit_result ∧
  ∃ s', apply_update (sc_single SPEED (Value.U8 5)) described_store = (Ok unit_result, s') ∧ contents s' SPEED = Some (Value.U8 5).
Proof.
  assert ((apply_update (sc_single SPEED (Value.U8 5)) described_store).1 = Ok unit_result) as E by (vm_compute; reflexivity).
  split; [exact E|]. pose proof (update_whole_or_nothing described_store (sc_single SPEED (Value.U8 5)) described_ok) as H.
  destruct (apply_update (sc_single SPEED (Value.U8 5)) described_store) as [[q|e] s']; [|discriminate E].
  simpl in E. exists s'. split; [by rewrite E|]. destruct H as (_ & _ & _ & Hc & _). rewrite Hc. vm_compute. reflexivity.
Defined.

Lemma list_keys_exact_witness :
  NoDup (list_keys described_store None).*1 ∧
  ("speed"%string, of_type Ty.U8 (editable km_new)) ∈ list_keys described_store None.
Proof.
  destruct (list_keys_exact described_store None described_ok) as (_ & Hd & Hin). split; [exact Hd|].
  apply Hin. split; [reflexivity|]. split; [right; exists (of_type Ty.U8 (editable km_new)); vm_compute; reflexivity|].
  vm_compute. reflexivity.
Defined.

Definition read_change : StateChange := sc_single SPEED (Value.U8 2).
Definition out_change : StateChange := mkStateChange {[SPEED := Some (Value.U8 2); mkKey "arm" := Some (Value.U8 1)]} ∅.
Lemma hal_told_all_but_readings_witness :
  write_hal out_change read_change = [for_hal out_change read_change] ∧
  agree (foldl (apply_at SPEED) (apply_at SPEED None read_change) (write_hal out_change read_change)) (Some (Value.U8 2)).
Proof.
  destruct (hal_told_all_but_readings out_change read_change) as (Hw & _ & Hk).
  - intros k v Hk. cbn [sc_set out_change] in Hk. apply lookup_insert_Some in Hk as [[_ [= <-]]|[_ Hk]]; [reflexivity|].
    apply lookup_singleton_Some in Hk as [_ [= <-]]. reflexivity.
  - intros k v Hk. cbn [sc_set read_change sc_single] in Hk. apply lookup_singleton_Some in Hk as [_ [= <-]]. reflexivity.
  - intros k Hk. apply not_elem_of_empty in Hk. contradiction.
  - intros k Hk. apply not_elem_of_empty in Hk. contradiction.
  - vm_compute. reflexivity.
  - split; [rewrite Hw; vm_compute; reflexivity|]. exact (Hk SPEED None eq_refl).
Defined.

(** A NaN read is no value's equal, so it goes back to the HAL that read it. *)
Definition nan_reading : StateChange := sc_single SPEED (Value.F64 0x7FF8000000000000).
Example nan_reading_echoed : write_hal nan_reading nan_reading = [nan_reading].
Proof. vm_compute. reflexivity. Qed.

Definition faulty_device : Device :=
  mkDevice (mkShared opened_store.2 (Free (Some 3)) [] tt) 0 [] [] [] [] [] ∅ [true] opened_store.1 ∅ None [] [] [[]] [] [].
Definition faulted : Device := match step 16 faulty_device with Some (_, d) => d | None => faulty_device end.
Lemma fault_told_once_witness :
  watched None (error_sends faulted) (behavior_error faulted) ∧ error_sends faulted = [Some "stuck"%string].
Proof.
  split; [|vm_compute; reflexivity].
  destruct (step 16 faulty_device) as [[r d']|] eqn:E.
  - unfold faulted. rewrite E. exact (fault_told_once 16 faulty_device d' r E eq_refl).
  - exfalso. revert E. vm_compute. discriminate.
Defined.

Lemma clock_adds_up_witness :
  0 <= 5 ∧ foldl (λ c d, (tick_clock c d).1) (starting_at 5) [16; 20] = 41.
Proof.
  split; [lia|]. destruct (clock_adds_up 5 3 [16; 20]) as [H _]; [lia|repeat constructor; lia|]. exact H.
Defined.

Lemma cadence_keeps_witness : 0 <= 10 ∧ ticks (mkMetronome 10 None) [100; 103; 115; 127] !! 3%nat = Some 130.
Proof.
  split; [lia|]. assert (ticks (mkMetronome 10 None) [100; 103; 115; 127] !! 3%nat = Some 130) as E by reflexivity.
  destruct (cadence_keeps 10 100 [103; 115; 127] 3 0 130 0) as (_ & _ & _ & H); [lia|].
  assert (130 = 100 + Z.of_nat 3 * 10) as Hn; [|rewrite Hn; exact E]. apply H; [|exact E].
  cbn. constructor; [lia|]. constructor; [lia|]. constructor; [lia|constructor].
Defined.
