(* ===== verification/Interpreter.v ===== *)
(** * The interpreter of behavior trees: [crates/arora-behavior-tree/src/behavior.rs]

    One graph, the scaffold: a runner over the main behavior and, beside it, the
    runs' fragments, each under its decorator. Every operation that changes it
    does so by a diff that applies whole or not at all; a new [Uuid] is an
    argument of the operation that draws it. Lowering an edited graph is
    [Loading]'s and [Planning]'s, over the orders Rust's hash maps happen to
    have; [None] is code that does not return.

    The tick's own phases over the store are here; the lowering it keeps between
    ticks, and the traces' reports, are not. *)

From S2P Require Import Prelude Values Extern Keys State Store Effects Nodes Schema Graphs GraphLowering Cells Loading Planning GraphWalks Runtime.
Import graph.

(** [Uuid]'s text *)
Class UuidText := { uuid_text : Uuid → string }.
(** [value_serde::to_value] of a [Call], over its derived serializer. *)
Class CallEncoder := { call_to_value : Call → result string Values.Value }.
(** The [semver] crate *)
Class SemVer := { Version : Type; v_major : Version → Z; v_minor : Version → Z; version_new : Z → Z → Z → Version }.

Definition HALT_ARG : Uuid := 0x61726f7261000000000000000000000a.
Definition INTERPRETER_ID : Uuid := 0x61726f72610000000000000000000001.
Definition BEHAVIOR_REVISION : Keys.Key := mkKey "arora/behavior/revision".

(** [TaskHandle], [TaskId] *)
Record TaskHandle := mkTaskHandle {
  th_id : Uuid;
  th_stop : Call;
  th_status : Keys.Key;
  th_feedback : list Keys.Key;
  th_result : list Keys.Key;
  th_update : list Keys.Key;
}.
(** [interpreter_module::encode_halt] *)
Definition encode_halt (task : Uuid) : Call :=
  mkCall (Some INTERPRETER_ID) HALT [mkStructureField HALT_ARG (Values.Value.Uuid task)].

(** [struct Run] *)
Record Run := mkRun { handle : TaskHandle; decorator : Uuid; detached : list Uuid }.

(** [BehaviorTreeInterpreter], but for the lowering it keeps and what its traces
    report. *)
Record Interpreter := mkInterpreter {
  scaffold : Graph;
  runner : Uuid;
  main_root : option Uuid;
  runs : list Run;
  finished : list Run;
  halted : list Keys.Key;
  dirty : bool;
  fresh_nodes : gset Uuid;
  functions : FunctionIndex;
  traces : list TaskHandle;
  revision : Z;
  written_revision : option Z;
}.
Definition with_scaffold (g : Graph) (fresh : gset Uuid) (i : Interpreter) : Interpreter :=
  mkInterpreter g (runner i) (main_root i) (runs i) (finished i) (halted i) true fresh (functions i) (traces i) (revision i) (written_revision i).
Definition with_main_root (r : option Uuid) (i : Interpreter) : Interpreter :=
  mkInterpreter (scaffold i) (runner i) r (runs i) (finished i) (halted i) (dirty i) (fresh_nodes i) (functions i) (traces i) (revision i) (written_revision i).
Definition with_runs (l f : list Run) (i : Interpreter) : Interpreter :=
  mkInterpreter (scaffold i) (runner i) (main_root i) l f (halted i) (dirty i) (fresh_nodes i) (functions i) (traces i) (revision i) (written_revision i).
Definition with_halted (h : list Keys.Key) (i : Interpreter) : Interpreter :=
  mkInterpreter (scaffold i) (runner i) (main_root i) (runs i) (finished i) h (dirty i) (fresh_nodes i) (functions i) (traces i) (revision i) (written_revision i).
Definition with_traces (l : list TaskHandle) (i : Interpreter) : Interpreter :=
  mkInterpreter (scaffold i) (runner i) (main_root i) (runs i) (finished i) (halted i) (dirty i) (fresh_nodes i) (functions i) l (revision i) (written_revision i).
Definition with_revision (r : Z) (w : option Z) (i : Interpreter) : Interpreter :=
  mkInterpreter (scaffold i) (runner i) (main_root i) (runs i) (finished i) (halted i) (dirty i) (fresh_nodes i) (functions i) (traces i) r w.

(** [#[derive(PartialEq)]] of [Graph] and [Node]. *)
Definition bind_eqb (a b : gmap Uuid Source) : bool :=
  list_eqb (λ x y : Uuid * Source, (x.1 =? y.1) && source_eqb x.2 y.2) (bt_iter a) (bt_iter b).
Definition node_eqb (a b : Node) : bool :=
  (id a =? id b) && (function a =? function b) && bind_eqb (bind a) (bind b) && bool_decide (children a = children b).
Definition graph_eqb (a b : Graph) : bool := bool_decide (root a = root b) && list_eqb node_eqb (nodes a) (nodes b).
(** [diff != GraphDiff::default()], negated *)
Definition is_default (d : GraphDiff) : bool :=
  match d with mkGraphDiff [] [] [] [] None => true | _ => false end.

(** ** Who holds what *)

(** [BehaviorTreeInterpreter::new] *)
Definition new_interpreter (runner : Uuid) : Interpreter :=
  mkInterpreter (mkGraph (Some runner) [mkNode runner PARALLEL_FUNCTION_ID ∅ (Some [])]) runner None [] [] [] true ∅ ∅ [] 0 None.

Definition all_runs (i : Interpreter) : list Run := runs i ++ finished i.
Definition runner_node (i : Interpreter) : Node :=
  mkNode (runner i) PARALLEL_FUNCTION_ID ∅
    (Some (option_list (main_root i) ++ (decorator <$> runs i) ++ (decorator <$> finished i))).
Definition root_of (index : Index) (run : Run) : option Uuid :=
  n ← index !! decorator run; cs ← children n; head cs.
Definition decorated_by (i : Interpreter) (node : Uuid) : option Run :=
  snd <$> list_find (λ run, decorator run = node) (all_runs i).
Definition nodes_of (index : Index) (run : Run) : gset Uuid :=
  subtree index (decorator run) ∪ list_to_set (detached run).
Definition not_main_beside (i : Interpreter) (others : list Run) : gset Uuid :=
  let index := by_id (scaffold i) in
  let held := ⋃ (nodes_of index <$> all_runs i ++ others) in
  {[runner i]} ∪ (match main_root i with Some root => held ∖ reach index [root] | None => held end).
Definition not_main (i : Interpreter) : gset Uuid := not_main_beside i [].
Definition main_graph_beside (i : Interpreter) (others : list Run) : Graph :=
  mkGraph (main_root i) (filter (λ n, id n ∉ not_main_beside i others) (nodes (scaffold i))).
Definition main_graph (i : Interpreter) : Graph := main_graph_beside i [].
Definition held_outside (i : Interpreter) (leaving : gset Uuid) : gset Uuid :=
  reach (by_id (scaffold i))
    (filter (λ n, n ≠ runner i ∧ n ∉ leaving) (ids (nodes (scaffold i))) ++ option_list (main_root i)).

(** [self.revision += 1], a [u64] *)
Definition revise (i : Interpreter) : Interpreter := with_revision ((revision i + 1) mod 2 ^ 64) (written_revision i) i.
Definition revise_since (before : Graph) (i : Interpreter) : Interpreter :=
  if graph_eqb (main_graph i) before then i else revise i.

Section Interpreter.
Context {S X : Type} `{DS : DataStore S} `{UC : UuidCrate} `{V5 : UuidV5} `{UT : UuidText} `{CE : CallEncoder} `{SV : SemVer}.
Local Abbreviation Slot := (@SlotHandle S _).
(** The orders of the hash maps the loading visits, and a world to load in. *)
Variable arguments_order : Schema.Node Slot → list (Uuid * Expression Slot).
Variable nodes_order : gmap Uuid (Schema.Node Slot) → list (Schema.Node Slot).
Variable readers_order : gmap NodeParameterId NodeParameterId → list NodeParameterId.
Variable world : World S X.
Variable usize_max : Z.
Local Abbreviation M := (T Interpreter BehaviorError).

(** ** Editing *)

(** [build_behavior_tree(&graph, &|_| None)] *)
Definition builds (g : Graph) : option (result BehaviorTreeError LoadedTree) :=
  fst <$> build_behavior_tree (λ _ s, (None, s)) arguments_order nodes_order readers_order g world.

(** [r.inspect_err(|_| f)] *)
Definition t_inspect_err {W E A} (m : T W E A) (f : W → W) : T W E A := λ w,
  match m w with Some (Err e, w) => Some (Err e, f w) | r => r end.

(** What an edited graph is refused for. *)
Definition accepts (i : Interpreter) (g : Graph) (detached_too : bool) : option (result BehaviorError unit) :=
  match check_acyclic g (runner i) with
  | Some (Ok _) =>
      match check_selections g ∅ with
      | Err e => Some (Err e)
      | Ok _ =>
          match builds g with
          | None => None
          | Some (Err e) => Some (Err (DoesNotLower e))
          | Some (Ok tree) =>
              if detached_too then
                match lower_detached usize_max arguments_order tree (functions i) ∅ with
                | None => None
                | Some (Err e) => Some (Err (DetachedDoNotLower e))
                | Some (Ok _) => Some (Ok tt)
                end
              else Some (Ok tt)
          end
      end
  | r => r
  end.
Definition edit_of (i : Interpreter) (d : GraphDiff) (detached_too : bool) : option (result BehaviorError Graph) :=
  match Graphs.apply (scaffold i) d with
  | (Err Panic, _) => None
  | (Err (Refused e), _) => Some (Err (DiffRefused e))
  | (Ok _, g) =>
      match accepts i g detached_too with
      | None => None
      | Some (Err e) => Some (Err e)
      | Some (Ok _) => Some (Ok g)
      end
  end.
Definition edit_lowering (d : GraphDiff) (detached_too : bool) : M unit := λ i,
  let changed := changed_nodes d ++ unbound_by_removal (scaffold i) (d_remove d) in
  match edit_of i d detached_too with
  | None => None
  | Some (Err e) => Some (Err e, i)
  | Some (Ok g) => Some (Ok tt, with_scaffold g (list_to_set changed ∪ fresh_nodes i) i)
  end.
Definition edit (d : GraphDiff) : M unit := edit_lowering d false.

(** ** Runs *)

(** [graft]: [task] and [new_decorator] are the ids it draws. *)
Definition run_prefix (module : string) (function task : Uuid) : string :=
  ("arora/tasks/" +:+ module +:+ "/" +:+ uuid_text function +:+ "/" +:+ uuid_text task)%string.
Definition task_handle (prefix : string) (task : Uuid) : TaskHandle :=
  mkTaskHandle task (encode_halt task) (mkKey (prefix +:+ "/status")) [mkKey (prefix +:+ "/feedback")]
    [mkKey (prefix +:+ "/result")] [mkKey (prefix +:+ "/update")].
Definition decorator_node (new_decorator root : Uuid) (status_key : Keys.Key) : Node :=
  mkNode new_decorator RUN_STATUS_FUNCTION_ID
    (<[RUN_STATUS_OUT_PARAM_ID := Key (Keys.path status_key)]> {[RUN_STATUS_LATCH_PARAM_ID := Value Values.Value.Unit]})
    (Some [root]).
Definition graft (module : string) (function root : Uuid) (detached_nodes : list Uuid) (fragment : list Node)
    (task new_decorator : Uuid) : M TaskHandle :=
  let h := task_handle (run_prefix module function task) task in
  _ ← t_modify (λ i, with_runs (runs i ++ [mkRun h new_decorator detached_nodes]) (finished i) i);
  set ← t_gets (λ i, fragment ++ [decorator_node new_decorator root (th_status h)] ++ [runner_node i]);
  _ ← t_inspect_err (edit_lowering (mkGraphDiff [] set [] [] None) true)
        (λ i, with_runs (removelast (runs i)) (finished i) i);
  mret h.

(** [runs[at].detached = detached]; [None] is the indexing's panic. *)
Definition set_detached (at_ : nat) (detached_nodes : list Uuid) (i : Interpreter) : Interpreter :=
  with_runs (alter (λ r, mkRun (handle r) (decorator r) detached_nodes) at_ (runs i)) (finished i) i.
Definition respawn (at_ : nat) (g : Graph) (detached_nodes : list Uuid) : M TaskHandle :=
  i ← t_gets Datatypes.id;
  match runs i !! at_ with
  | None => t_diverge
  | Some run =>
      let device := by_id (scaffold i) in
      let held := nodes_of device run ∖ {[decorator run]} in
      let staying := held_outside i ({[decorator run]} ∪ held) in
      match list_find (λ n, is_Some (device !! id n) ∧ id n ∉ held) (nodes g) with
      | Some (_, n) => t_fail (PartOfTheDevice (id n))
      | None =>
          match list_find (λ n, id n ∈ staying) (nodes g) with
          | Some (_, n) => t_fail (HeldElsewhere (id n))
          | None =>
              let own := mkGraph (root g) (filter (λ n, id n ∈ held ∧ id n ∉ staying) (nodes (scaffold i))) in
              let d := diff own g in
              if is_default d then _ ← t_modify (set_detached at_ detached_nodes); mret (handle run)
              else
                let before := main_graph i in
                _ ← edit_lowering d true;
                _ ← t_modify (set_detached at_ detached_nodes);
                _ ← t_modify (revise_since before);
                mret (handle run)
          end
      end
  end.

Definition leaving_of (index : Index) (gone : list Run) : gset Uuid :=
  reach index (decorator <$> gone) ∪ list_to_set (gone ≫= detached).
Definition prune (gone : list Run) : M unit :=
  match gone with
  | [] => mret tt
  | _ =>
      i ← t_gets Datatypes.id;
      let leaving := leaving_of (by_id (scaffold i)) gone in
      let staying := held_outside i leaving in
      let before := main_graph_beside i gone in
      _ ← edit (mkGraphDiff (elements (leaving ∖ staying)) [runner_node i] [] [] None);
      t_modify (revise_since before)
  end.
Definition prune_finished : M unit :=
  gone ← t_gets finished;
  _ ← t_modify (λ i, with_runs (runs i) [] i);
  prune gone.

(** ** [impl BehaviorInterpreter for BehaviorTreeInterpreter] *)

Definition is_scaffold (i : Interpreter) (node : Uuid) : bool :=
  bool_decide (node = runner i) || match decorated_by i node with Some _ => true | None => false end.
(** A run whose root an edit removes without setting it again. *)
Definition removed_root (i : Interpreter) (d : GraphDiff) (run : Run) : option (Uuid * Run) :=
  match root_of (by_id (scaffold i)) run with
  | Some root => if decide (root ∈ d_remove d ∧ root ∉ ids (d_set d)) then Some (root, run) else None
  | None => None
  end.
Definition apply (d : GraphDiff) : M unit :=
  _ ← prune_finished;
  i ← t_gets Datatypes.id;
  match list_find (λ node, is_scaffold i node = true)
          (option_list (d_root d) ++ (d_set d ≫= λ n, default [] (children n))) with
  | Some (_, node) => t_fail (PlacesScaffold node)
  | None =>
      match head (omap (λ node, (λ run, (node, run)) <$> decorated_by i node) (changed_nodes d ++ d_remove d)) with
      | Some (node, run) => t_fail (ChangesDecorator node (th_id (handle run)))
      | None =>
          match head (omap (removed_root i d) (all_runs i)) with
          | Some (root, run) => t_fail (RemovesRunRoot root (th_id (handle run)))
          | None =>
              let remove := filter (λ j, j ≠ runner i) (d_remove d) in
              let before := main_graph i in
              let previous := main_root i in
              let unrooted := match previous with
                              | Some root => if decide (root ∈ remove) then None else Some root
                              | None => None
                              end in
              _ ← t_modify (with_main_root (match d_root d with Some root => Some root | None => unrooted end));
              set ← t_gets (λ i, d_set d ++ [runner_node i]);
              _ ← t_inspect_err (edit (mkGraphDiff remove set (d_unbind d) (d_bind d) None)) (with_main_root previous);
              t_modify (revise_since before)
          end
      end
  end.

(** The nodes the runs hold once [set] is set; [None] is the panic. *)
Definition held_after (i : Interpreter) (set : list Node) : option (result BehaviorError (gset Uuid)) :=
  match Graphs.apply (scaffold i) (mkGraphDiff [] set [] [] None) with
  | (Err Panic, _) => None
  | (Err (Refused e), _) => Some (Err (DiffRefused e))
  | (Ok _, after) => Some (Ok (⋃ (nodes_of (by_id after) <$> all_runs i)))
  end.
Definition load (g : Graph) : M unit :=
  _ ← prune_finished;
  i ← t_gets Datatypes.id;
  if negb (size (by_id g) =? length (nodes g))%nat then t_fail (listed_twice (nodes g) ∅)
  else match list_find (λ n, id n ∈ not_main i) (nodes g) with
  | Some (_, n) => t_fail (BelongsToARun (id n))
  | None =>
      match held_after i (nodes g) with
      | None => t_diverge
      | Some (Err e) => t_fail e
      | Some (Ok held) =>
          let remove := filter (λ j, j ≠ runner i ∧ j ∉ held) (ids (nodes (scaffold i))) in
          let previous := main_root i in
          _ ← t_modify (with_main_root (root g));
          set ← t_gets (λ i, nodes g ++ [runner_node i]);
          _ ← t_inspect_err (edit (mkGraphDiff remove set [] [] None)) (with_main_root previous);
          t_modify revise
      end
  end.

(** [LoadedBehavior] *)
Record LoadedBehavior := mkLoadedBehavior { lb_revision : Z; lb_graph : Graph }.
Definition read (i : Interpreter) : LoadedBehavior := mkLoadedBehavior (revision i) (main_graph i).

(** [spawn]: [call_node], [task] and [new_decorator] are the ids it draws. *)
Definition spawn (call : Call) (policy : RunPolicy) (call_node task new_decorator : Uuid) : M TaskHandle :=
  let module := match call_module_id call with Some m => uuid_text m | None => "none"%string end in
  match call_to_value call with
  | Err why => t_fail (CallNotAValue why)
  | Ok call_value =>
      _ ← prune_finished;
      graft module (call_id call) call_node []
        [mkNode call_node RUN_CALL_FUNCTION_ID {[RUN_CALL_PARAM_ID := Value call_value]} None] task new_decorator
  end.

Definition graph_type : GraphType (Version := Version) := mkGraphType "behavior-tree" (version_new 2 0 0).
Definition reads_beyond (inside : gset Uuid) (source : Source) : bool :=
  match source_port source with Some read => bool_decide (port_node read ∉ inside) | None => false end.
(** The first binding that reads a node not among [inside]. *)
Definition reads_outside (g : Graph) (inside : gset Uuid) : option (Uuid * Uuid) :=
  head (nodes g ≫= λ n, (λ e, (id n, e.1)) <$> filter (λ e, reads_beyond inside e.2 = true) (bt_iter (bind n))).
Definition spawn_graph (written : GraphType (Version := Version)) (g : Graph) (policy : RunPolicy) (task new_decorator : Uuid) :
    M TaskHandle :=
  if negb (reads v_major v_minor graph_type written) then t_fail WrongType
  else match root g with
  | None => t_fail NoRoot
  | Some root =>
  match node g root with
  | None => t_fail (RootNotANode_ root)
  | Some _ =>
  match check_tree g root with
  | Err e => t_fail e
  | Ok detached_nodes =>
  match list_find (λ n, is_interpreter_function_id (function n) = true) (nodes g) with
  | Some (_, n) => t_fail (CallsInterpreter (id n) (function n))
  | None =>
  match reads_outside g (list_to_set (ids (nodes g))) with
  | Some (n, port) => t_fail (ReadsOutside n port)
  | None =>
  match builds g with
  | None => t_diverge
  | Some (Err e) => t_fail (DoesNotLower e)
  | Some (Ok _) =>
      _ ← prune_finished;
      i ← t_gets Datatypes.id;
      match list_find (λ run, root_of (by_id (scaffold i)) run = Some root) (runs i) with
      | Some (at_, _) => respawn at_ g detached_nodes
      | None =>
          match list_find (λ n, is_Some (by_id (scaffold i) !! id n)) (nodes g) with
          | Some (_, n) => t_fail (PartOfTheDevice (id n))
          | None => graft (uuid_text INTERPRETER_ID) SPAWN_GRAPH root detached_nodes (nodes g) task new_decorator
          end
      end
  end end end end end end.

(** [trace], but for what the trace follows: [task] is the id it draws. *)
Definition trace (task : Uuid) : M TaskHandle :=
  let h := task_handle (run_prefix (uuid_text INTERPRETER_ID) TRACE task) task in
  _ ← t_modify (λ i, with_traces (traces i ++ [h]) i);
  mret h.

Definition halt (task : Uuid) : M unit :=
  i ← t_gets Datatypes.id;
  match list_find (λ h, th_id h = task) (traces i) with
  | Some (at_, h) => t_modify (λ i, with_halted (halted i ++ [th_status h]) (with_traces (delete at_ (traces i)) i))
  | None =>
      match list_find (λ run, th_id (handle run) = task) (runs i) with
      | None => mret tt
      | Some (at_, run) =>
          _ ← t_modify (λ i, with_runs (delete at_ (runs i)) (finished i) i);
          _ ← prune [run];
          t_modify (λ i, with_halted (halted i ++ [th_status (handle run)]) i)
      end
  end.

(** ** The tick's phases over the store *)

(** The halted keys still to write, after those written. *)
Fixpoint write_failures (keys : list Keys.Key) (s : S) : result BehaviorError unit * list Keys.Key * S :=
  match keys with
  | [] => (Ok tt, [], s)
  | key :: rest =>
      match write (sc_single key (status_value Failure)) s with
      | Err e => (Err (NotWritten key e), key :: rest, s)
      | Ok s => write_failures rest s
      end
  end.
Definition write_halts (i : Interpreter) (s : S) : result BehaviorError unit * Interpreter * S :=
  let '(r, left_over, s) := write_failures (halted i) s in (r, with_halted left_over i, s).
Definition write_revision (i : Interpreter) (s : S) : result BehaviorError unit * Interpreter * S :=
  if decide (written_revision i = Some (revision i)) then (Ok tt, i, s)
  else match write (sc_single BEHAVIOR_REVISION (Values.Value.U64 (revision i))) s with
       | Err e => (Err (NotWritten BEHAVIOR_REVISION e), i, s)
       | Ok s => (Ok tt, with_revision (revision i) (Some (revision i)) i, s)
       end.
Definition terminal (s : S) (run : Run) : bool :=
  match head (Store.read s [th_status (handle run)]) with
  | Some (Some v) => match status_try_from v with Ok Success | Ok Failure => true | _ => false end
  | _ => false
  end.
Definition sweep_terminal_runs (s : S) (i : Interpreter) : Interpreter :=
  let gone := filter (λ run, terminal s run = true) (runs i) in
  let i' := with_runs (filter (λ run, terminal s run = false) (runs i)) (finished i ++ gone) i in
  if bool_decide (length gone = 0%nat) then i' else with_scaffold (scaffold i) (fresh_nodes i) i'.
End Interpreter.
