(* ===== verification/Scaffold.v ===== *)
(** * What the interpreter's operations keep of the scaffold

    Over [Interpreter]: a refused operation changes nothing, every operation
    returns, and the scaffold's shape is an invariant of them all. *)

From S2P Require Import Prelude Values Extern Keys State Store Effects Nodes Schema Graphs GraphLowering Cells Loading Sweeps Loaded Planning Planned GraphWalks Runtime Interpreter.
Import graph.

(** ** Graphs under a diff *)

Lemma nodes_ext (ns ms : list Node) : NoDup (ids ns) → ids ns = ids ms → (∀ i, node_in ns i = node_in ms i) → ns = ms.
Proof.
  intros Hd Hi Hn. apply list_eq. intros k.
  assert (ids ns !! k = ids ms !! k) as Hk by (by rewrite Hi). rewrite !list_lookup_fmap in Hk.
  destruct (ns !! k) as [n|] eqn:En, (ms !! k) as [m|] eqn:Em; simpl in Hk; try done. injection Hk as Hk.
  apply list_elem_of_lookup_2 in En as Hn', Em as Hm'. f_equal. specialize (Hn (id n)).
  rewrite node_in_unique in Hn by done. rewrite Hk, node_in_unique in Hn by (by rewrite <- ?Hi). by injection Hn.
Qed.

Lemma node_listed g i : (∃ n, node g i = Some n) → i ∈ ids (nodes g).
Proof. intros [n [Hn <-]%node_in_Some]. by apply list_elem_of_fmap_2. Qed.

(** The same node, its bindings apart. *)
Definition like (n m : Node) : Prop := id n = id m ∧ function n = function m ∧ children n = children m.
Lemma like_drop removed n : like (drop_readers removed n) n.
Proof. done. Qed.
Lemma like_trans n m o : like n m → like m o → like n o.
Proof. unfold like. naive_solver congruence. Qed.

Lemma edited_same d g i :
  match set_by i (Graphs.base (list_to_set (d_remove d)) g i) (d_set d) with
  | Some m => ∃ n, edited d g i = Some n ∧ like n m
  | None => edited d g i = None
  end.
Proof.
  unfold edited. destruct (set_by _ _ _) as [m|]; [|by rewrite unbound_by_None, bound_by_None].
  destruct (unbound_by_spec i (d_unbind d) m) as (n1 & -> & ? & ? & ? & _).
  destruct (bound_by_spec i (d_bind d) n1) as (n2 & -> & ? & ? & ? & _). exists n2. unfold like. split; [done|]. split_and!; congruence.
Qed.
Lemma set_by_in i o l n : set_by i o l = Some n → (n ∈ l ∧ id n = i) ∨ (i ∉ ids l ∧ o = Some n).
Proof.
  revert o. induction l as [|m l IH]; intros o; simpl; [intros ->; right; split; [by intros ?%not_elem_of_nil|done]|].
  intros [[Hn <-]|[Hi Ho]]%IH; [left; split; [by right|done]|]. case_decide as Hm.
  - injection Ho as ->. left. split; [by left|done].
  - right. split; [|done]. by intros [->|?]%elem_of_cons.
Qed.
Lemma set_by_others i o l : i ∉ ids l → set_by i o l = o.
Proof.
  revert o. induction l as [|m l IH]; intros o Hi; [done|]. simpl. rewrite fmap_cons in Hi. apply not_elem_of_cons in Hi as [Hm Hi].
  rewrite decide_False by done. by apply IH.
Qed.
Lemma set_by_snoc i o l n : set_by i o (l ++ [n]) = if decide (id n = i) then Some n else set_by i o l.
Proof. unfold set_by. rewrite foldl_app. simpl. done. Qed.

(** Where the node of an id comes from. *)
Lemma edited_like d g i n : edited d g i = Some n →
  (∃ m, m ∈ d_set d ∧ id m = i ∧ like n m) ∨
  (i ∉ d_remove d ∧ i ∉ ids (d_set d) ∧ ∃ m, node g i = Some m ∧ like n m).
Proof.
  pose proof (edited_same d g i) as H. intros He. destruct (set_by _ _ _) as [m|] eqn:Es; [|congruence].
  destruct H as (n' & Hn & Hl). assert (n' = n) as -> by congruence.
  apply set_by_in in Es as [[Hm Hi]|[Hi Hb]]; [left; by exists m|right]. unfold Graphs.base in Hb. case_decide as Hr; [done|].
  rewrite elem_of_list_to_set in Hr. apply fmap_Some in Hb as (o & Ho & ->). split_and!; [done..|]. exists o. split; [done|].
  eapply like_trans; [done|]. apply like_drop.
Qed.
(** A node the diff does not touch keeps what it does not read of the removed. *)
Lemma edited_kept d g i : i ∉ d_remove d → i ∉ ids (d_set d) → (∀ p, p ∈ d_unbind d → port_node p ≠ i) →
  (∀ b, b ∈ d_bind d → b_node b ≠ i) → edited d g i = drop_readers (list_to_set (d_remove d)) <$> node g i.
Proof.
  intros Hr Hs Hu Hb. unfold edited. rewrite bound_by_others, unbound_by_others, set_by_others by done. unfold Graphs.base.
  rewrite decide_False; [done|]. by rewrite elem_of_list_to_set.
Qed.
Lemma edited_last d g set_ n : d_set d = set_ ++ [n] → ∃ m, edited d g (id n) = Some m ∧ like m n.
Proof. intros Hs. pose proof (edited_same d g (id n)) as H. by rewrite Hs, set_by_snoc, decide_True in H. Qed.

Lemma apply_nodes g d g' : NoDup (ids (nodes g)) → Graphs.apply g d = (Ok tt, g') →
  NoDup (ids (nodes g')) ∧ ids (nodes g') = edited_ids d g ∧ ∀ j, node g' j = edited d g j.
Proof.
  intros Hd Hg. pose proof (apply_edits_gen d g Hd) as He. rewrite Hg in He. naive_solver.
Qed.

(** ** Editing *)
Section Editing.
Context {S X : Type} `{DS : DataStore S} `{UC : UuidCrate} `{V5 : UuidV5} `{UT : UuidText} `{CE : CallEncoder} `{SV : SemVer}.
Local Abbreviation Slot := (@SlotHandle S _).
Variable arguments_order : Schema.Node Slot → list (Uuid * Expression Slot).
Variable nodes_order : gmap Uuid (Schema.Node Slot) → list (Schema.Node Slot).
Variable readers_order : gmap NodeParameterId NodeParameterId → list NodeParameterId.
Variable world : World S X.
Variable usize_max : Z.
Local Abbreviation accepts := (accepts arguments_order nodes_order readers_order world usize_max).
Local Abbreviation edit_lowering := (edit_lowering arguments_order nodes_order readers_order world usize_max).
Local Abbreviation edit := (edit arguments_order nodes_order readers_order world usize_max).
Local Abbreviation prune := (prune arguments_order nodes_order readers_order world usize_max).
Local Abbreviation prune_finished := (prune_finished arguments_order nodes_order readers_order world usize_max).
Local Abbreviation graft := (graft arguments_order nodes_order readers_order world usize_max).
Local Abbreviation respawn := (respawn arguments_order nodes_order readers_order world usize_max).
Local Abbreviation apply := (Interpreter.apply arguments_order nodes_order readers_order world usize_max).
Local Abbreviation load := (Interpreter.load arguments_order nodes_order readers_order world usize_max).
Local Abbreviation spawn := (spawn arguments_order nodes_order readers_order world usize_max).
Local Abbreviation spawn_graph := (spawn_graph arguments_order nodes_order readers_order world usize_max).
Local Abbreviation halt := (halt arguments_order nodes_order readers_order world usize_max).

(** An edit is refused and changes nothing, or the interpreter has the graph it
    gives. *)
Lemma edit_ran d b i r i' : edit_lowering d b i = Some (r, i') →
  match r with
  | Err _ => i' = i
  | Ok _ => ∃ g, Graphs.apply (scaffold i) d = (Ok tt, g) ∧ accepts i g b = Some (Ok tt) ∧
      ∃ changed, i' = with_scaffold g (list_to_set changed ∪ fresh_nodes i) i
  end.
Proof.
  unfold Interpreter.edit_lowering, edit_of. destruct (Graphs.apply _ _) as [[[]|[]] g]; [|by intros [= <- <-]|done].
  destruct (accepts i g b) as [[[]|e]|] eqn:Ea; [|by intros [= <- <-]|done]. intros [= <- <-].
  exists g. split; [done|]. split; [done|]. by eexists.
Qed.

Lemma prune_finished_none i : finished i = [] → prune_finished i = Some (Ok tt, i).
Proof. destruct i. simpl. by intros ->. Qed.

(** What a client asks of the interpreter; the ids drawn are the request's. *)
Inductive Request :=
| Edit (d : GraphDiff)
| Load (g : Graph)
| Spawn (call : Call) (policy : RunPolicy) (call_node task new_decorator : Uuid)
| SpawnGraph (written : GraphType (Version := Version)) (g : Graph) (policy : RunPolicy) (task new_decorator : Uuid)
| Trace (task : Uuid)
| Halt (task : Uuid).
Definition serve (request : Request) : T Interpreter BehaviorError (option TaskHandle) :=
  match request with
  | Edit d => _ ← apply d; mret None
  | Load g => _ ← load g; mret None
  | Spawn call policy n t d => h ← spawn call policy n t d; mret (Some h)
  | SpawnGraph written g policy t d => h ← spawn_graph written g policy t d; mret (Some h)
  | Trace t => h ← trace t; mret (Some h)
  | Halt t => _ ← halt t; mret None
  end.

(** A grafted run is the last of the live ones. *)
Lemma graft_ran module function root det fragment t dec i r i' :
  graft module function root det fragment t dec i = Some (r, i') →
  match r with
  | Err _ => i' = i
  | Ok h =>
      let run := mkRun h dec det in
      let j := with_runs (runs i ++ [run]) (finished i) i in
      h = task_handle (run_prefix module function t) t ∧
      ∃ g fresh, Graphs.apply (scaffold i) (mkGraphDiff [] (fragment ++ [decorator_node dec root (th_status h)] ++ [runner_node j]) [] [] None) = (Ok tt, g)
        ∧ accepts i g true = Some (Ok tt) ∧ i' = with_scaffold g fresh j
  end.
Proof.
  unfold Interpreter.graft. t_unfold. unfold t_inspect_err.
  set (h := task_handle (run_prefix module function t) t). set (j := with_runs (runs i ++ [mkRun h dec det]) (finished i) i).
  destruct (edit_lowering _ true j) as [[[[]|e] i1]|] eqn:He; [| |done]; intros [= <- <-]; apply edit_ran in He.
  - destruct He as (g & Hg & Ha & changed & ->). split; [done|]. by exists g, (list_to_set changed ∪ fresh_nodes j).
  - subst i1. unfold j, with_runs. simpl. rewrite removelast_last. by destruct i.
Qed.

(** ** What is refused changes nothing *)
Lemma inspect_edit_run d (j : Interpreter) (f : Interpreter → Interpreter) r i' :
  t_inspect_err (edit d) f j = Some (r, i') →
  match r with
  | Err _ => i' = f j
  | Ok _ => ∃ g fresh, Graphs.apply (scaffold j) d = (Ok tt, g) ∧ accepts j g false = Some (Ok tt) ∧ i' = with_scaffold g fresh j
  end.
Proof.
  unfold t_inspect_err, Interpreter.edit. destruct (edit_lowering d false j) as [[[[]|e] i1]|] eqn:He; [| |done];
    intros [= <- <-]; apply edit_ran in He; [|by subst].
  destruct He as (g & Hg & Ha & changed & ->). by exists g, (list_to_set changed ∪ fresh_nodes j).
Qed.

(** An edit: refused with nothing changed, or the new graph under the new root. *)
Lemma apply_ran d i r i' : finished i = [] → apply d i = Some (r, i') →
  match r with
  | Err _ => i' = i
  | Ok _ =>
      let remove := filter (λ j, j ≠ runner i) (d_remove d) in
      let left_root := match main_root i with Some root => if decide (root ∈ remove) then None else Some root | None => None end in
      let j := with_main_root (match d_root d with Some root => Some root | None => left_root end) i in
      (∀ c, c ∈ option_list (d_root d) ++ (d_set d ≫= λ n, default [] (children n)) → is_scaffold i c = false) ∧
      (∀ c, c ∈ changed_nodes d ++ d_remove d → decorated_by i c = None) ∧
      ∃ g fresh, Graphs.apply (scaffold i) (mkGraphDiff remove (d_set d ++ [runner_node j]) (d_unbind d) (d_bind d) None) = (Ok tt, g)
        ∧ accepts i g false = Some (Ok tt) ∧ i' = revise_since (main_graph i) (with_scaffold g fresh j)
  end.
Proof.
  intros Hf. unfold Interpreter.apply. rewrite bind_run, (prune_finished_none i Hf). t_unfold. unfold Datatypes.id.
  destruct (list_find _ _) as [[k c]|] eqn:Hs; [by intros [= <- <-]|].
  destruct (head (omap _ (changed_nodes d ++ _))) as [[c run]|] eqn:Hd; [by intros [= <- <-]|].
  destruct (head (omap _ (all_runs i))) as [[c run]|]; [by intros [= <- <-]|].
  set (remove := filter _ _). set (left_root := match main_root i with Some _ => _ | None => _ end).
  set (j := with_main_root _ i).
  destruct (t_inspect_err _ _ j) as [[[[]|e] i1]|] eqn:He; [| |done]; intros [= <- <-]; apply inspect_edit_run in He; [|subst; by destruct i].
  destruct He as (g & fresh & Hg & Ha & ->). cbv zeta. split; [|split; [|by exists g, fresh]].
  - intros c Hc. apply list_find_None in Hs. rewrite Forall_forall in Hs. specialize (Hs c Hc). by destruct (is_scaffold i c).
  - intros c Hc. apply eq_None_not_Some. intros [run Hr].
    assert ((c, run) ∈ omap (λ node, (λ run, (node, run)) <$> decorated_by i node) (changed_nodes d ++ d_remove d)) as Hin
      by (apply list_elem_of_omap; exists c; by rewrite Hr).
    destruct (omap _ (changed_nodes d ++ _)); [by apply not_elem_of_nil in Hin|done].
Qed.

(** A load, the same. *)
Lemma load_ran g i r i' : finished i = [] → load g i = Some (r, i') →
  match r with
  | Err _ => i' = i
  | Ok _ => ∃ held g' fresh,
      let remove := filter (λ j, j ≠ runner i ∧ j ∉ held) (ids (nodes (scaffold i))) in
      let j := with_main_root (root g) i in
      NoDup (ids (nodes g)) ∧ (∀ c, c ∈ ids (nodes g) → c ∉ not_main i) ∧ held_after i (nodes g) = Some (Ok held) ∧
      Graphs.apply (scaffold i) (mkGraphDiff remove (nodes g ++ [runner_node j]) [] [] None) = (Ok tt, g') ∧
      accepts i g' false = Some (Ok tt) ∧ i' = revise (with_scaffold g' fresh j)
  end.
Proof.
  intros Hf. unfold Interpreter.load. rewrite bind_run, (prune_finished_none i Hf). t_unfold. unfold Datatypes.id.
  destruct (Nat.eqb_spec (size (by_id g)) (length (nodes g))) as [Hids|]; simpl; [|by intros [= <- <-]]. apply size_by_id in Hids.
  destruct (list_find _ _) as [[k n]|] eqn:Hs; [by intros [= <- <-]|].
  destruct (held_after i (nodes g)) as [[held|e]|] eqn:Hh; [|by intros [= <- <-]|done].
  set (remove := filter _ _). set (j := with_main_root _ i).
  destruct (t_inspect_err _ _ j) as [[[[]|e] i1]|] eqn:He; [| |done]; intros [= <- <-]; apply inspect_edit_run in He; [|subst; by destruct i].
  destruct He as (g' & fresh & Hg & Ha & ->). exists held, g', fresh. cbv zeta. split_and!; [done| |done..].
  intros c (n & -> & Hn)%list_elem_of_fmap. apply list_find_None in Hs. rewrite Forall_forall in Hs. exact (Hs n Hn).
Qed.

Definition call_node_of (call_node : Uuid) (v : Values.Value) : Node :=
  mkNode call_node RUN_CALL_FUNCTION_ID {[RUN_CALL_PARAM_ID := Value v]} None.
Lemma spawn_ran call policy n t dec i r i' : finished i = [] → spawn call policy n t dec i = Some (r, i') →
  match r with
  | Err _ => i' = i
  | Ok _ => ∃ module v, graft module (call_id call) n [] [call_node_of n v] t dec i = Some (r, i')
  end.
Proof.
  intros Hf. unfold Interpreter.spawn. destruct (call_to_value call) as [v|why]; [|by intros [= <- <-]].
  rewrite bind_run, (prune_finished_none i Hf). set (module := match call_module_id call with Some _ => _ | None => _ end).
  intros Hg. destruct r as [h|e]; [by exists module, v|]. by apply graft_ran in Hg.
Qed.

(** A spawn onto a live run: its own part of the graph is brought to the new one. *)
Definition own_part (i : Interpreter) (run : Run) (root : option Uuid) : Graph :=
  let held := nodes_of (by_id (scaffold i)) run ∖ {[decorator run]} in
  mkGraph root (filter (λ n, id n ∈ held ∧ id n ∉ held_outside i ({[decorator run]} ∪ held)) (nodes (scaffold i))).
Lemma respawn_ran at_ g det i r i' : respawn at_ g det i = Some (r, i') →
  match r with
  | Err _ => i' = i
  | Ok h => ∃ run, runs i !! at_ = Some run ∧ h = handle run ∧
      (∀ n, n ∈ nodes g → is_Some (by_id (scaffold i) !! id n) → id n ∈ nodes_of (by_id (scaffold i)) run ∖ {[decorator run]}) ∧
      let d := diff (own_part i run (root g)) g in
      (is_default d = true ∧ i' = set_detached at_ det i) ∨
      (is_default d = false ∧ ∃ g' fresh, Graphs.apply (scaffold i) d = (Ok tt, g') ∧ accepts i g' true = Some (Ok tt) ∧
         i' = revise_since (main_graph i) (set_detached at_ det (with_scaffold g' fresh i)))
  end.
Proof.
  unfold Interpreter.respawn. t_unfold. unfold Datatypes.id. destruct (runs i !! at_) as [run|] eqn:Er; [|done].
  destruct (list_find _ (nodes g)) as [[k n]|] eqn:Hs; [by intros [= <- <-]|].
  destruct (list_find (λ n, id n ∈ _) (nodes g)) as [[k n]|]; [by intros [= <- <-]|].
  fold (own_part i run (root g)). apply list_find_None in Hs. rewrite Forall_forall in Hs.
  assert (∀ n, n ∈ nodes g → is_Some (by_id (scaffold i) !! id n) → id n ∈ nodes_of (by_id (scaffold i)) run ∖ {[decorator run]}) as Hown.
  { intros n Hn Hi. destruct (decide (id n ∈ nodes_of (by_id (scaffold i)) run ∖ {[decorator run]})); [done|]. exfalso. by apply (Hs n Hn). }
  destruct (is_default _) eqn:Ed; [intros [= <- <-]; exists run; split_and!; [done..|by left]|].
  destruct (edit_lowering _ true i) as [[[[]|e] i1]|] eqn:He; [| |done]; intros [= <- <-]; apply edit_ran in He; [|done].
  destruct He as (g' & Hg & Ha & changed & ->). exists run. split_and!; [done..|]. right. split; [done|].
  by exists g', (list_to_set changed ∪ fresh_nodes i).
Qed.

Lemma spawn_graph_ran written g policy t dec i r i' : finished i = [] → spawn_graph written g policy t dec i = Some (r, i') →
  match r with
  | Err _ => i' = i
  | Ok _ => ∃ top det, root g = Some top ∧ check_tree g top = Ok det ∧ top ∈ ids (nodes g) ∧
      reads_outside g (list_to_set (ids (nodes g))) = None ∧
      ((∃ at_ run, runs i !! at_ = Some run ∧ root_of (by_id (scaffold i)) run = Some top ∧ respawn at_ g det i = Some (r, i')) ∨
       ((∀ run, run ∈ runs i → root_of (by_id (scaffold i)) run ≠ Some top) ∧
        (∀ n, n ∈ nodes g → by_id (scaffold i) !! id n = None) ∧
        graft (uuid_text INTERPRETER_ID) SPAWN_GRAPH top det (nodes g) t dec i = Some (r, i')))
  end.
Proof.
  intros Hf. unfold Interpreter.spawn_graph. destruct (reads _ _ _ _); simpl; [|by intros [= <- <-]].
  destruct (root g) as [top|] eqn:Et; [|by intros [= <- <-]]. destruct (node g top) as [n|] eqn:En; [|by intros [= <- <-]].
  destruct (check_tree g top) as [det|e] eqn:Ec; [|by intros [= <- <-]].
  destruct (list_find _ (nodes g)) as [[]|]; [by intros [= <- <-]|]. destruct (reads_outside _ _) as [[]|] eqn:Eo; [by intros [= <- <-]|].
  destruct (builds _ _ _ _ g) as [[tree|e]|]; [|by intros [= <- <-]|done].
  rewrite bind_run, (prune_finished_none i Hf), bind_run. unfold t_gets, Datatypes.id.
  assert (top ∈ ids (nodes g)) as Htop by (apply node_in_Some in En as [Hn <-]; by apply list_elem_of_fmap_2).
  destruct (list_find _ (runs i)) as [[at_ run]|] eqn:Ef.
  - apply list_find_Some in Ef as (Hat & Hroot & _). intros Hr. destruct r as [h|e]; [|by apply respawn_ran in Hr].
    exists top, det. split_and!; [done..|]. left. by exists at_, run.
  - destruct (list_find _ (nodes g)) as [[]|] eqn:Ed; [by intros [= <- <-]|]. intros Hg. destruct r as [h|e]; [|by apply graft_ran in Hg].
    exists top, det. split_and!; [done..|]. right. apply list_find_None in Ef. apply list_find_None in Ed. rewrite Forall_forall in Ef. rewrite Forall_forall in Ed.
    split; [exact Ef|]. split; [|done]. intros m Hm. apply eq_None_not_Some. exact (Ed m Hm).
Qed.

(** C26. What the interpreter refuses changes nothing: with no ended run left to
    prune, an edit, a load or a spawn that is refused leaves the graph, the main
    behavior's root, the runs, the revision and everything else as they were. *)
Theorem refused_changes_nothing (request : Request) (i : Interpreter) (e : BehaviorError) (i' : Interpreter) :
  finished i = [] → (∀ task, request ≠ Halt task) → serve request i = Some (Err e, i') → i' = i.
Proof.
  intros Hf Hh. destruct request as [d|g|call policy n t dec|written g policy t dec|t|t]; cbn [serve];
    rewrite ?bind_run; [| | | |done|by destruct (Hh t)].
  - destruct (apply d i) as [[[]]|] eqn:He; [done| |done]. intros [= <- <-]. exact (apply_ran d i _ _ Hf He).
  - destruct (load g i) as [[[]]|] eqn:He; [done| |done]. intros [= <- <-]. exact (load_ran g i _ _ Hf He).
  - destruct (spawn call policy n t dec i) as [[[]]|] eqn:He; [done| |done]. intros [= <- <-]. exact (spawn_ran _ _ _ _ _ i _ _ Hf He).
  - destruct (spawn_graph written g policy t dec i) as [[[]]|] eqn:He; [done| |done]. intros [= <- <-].
    exact (spawn_graph_ran _ _ _ _ _ i _ _ Hf He).
Qed.
(** ** The scaffold's shape *)
Definition decs (i : Interpreter) : list Uuid := decorator <$> all_runs i.
Definition node_children (n : Node) : list Uuid := default [] (children n).
(** A run's decorator: over the run's root, it publishes to the run's status key. *)
Definition decorated (g : Graph) (run : Run) : Prop := ∃ n top, node g (decorator run) = Some n ∧
  function n = RUN_STATUS_FUNCTION_ID ∧ children n = Some [top] ∧
  bind n !! RUN_STATUS_OUT_PARAM_ID = Some (Key (Keys.path (th_status (handle run)))).
(** The root is the runner, which holds the main behavior first, then the runs, the
    live ones in the order they were spawned; each run hangs from its decorator;
    and nothing else holds the runner or a decorator. *)
Record wf (i : Interpreter) : Prop := {
  wf_ids : NoDup (ids (nodes (scaffold i)));
  wf_root : root (scaffold i) = Some (runner i);
  wf_runner : ∃ n l, node (scaffold i) (runner i) = Some n ∧ function n = PARALLEL_FUNCTION_ID ∧
    children n = Some (option_list (main_root i) ++ l) ∧ l ≡ₚ decs i ∧ sublist (decorator <$> runs i) l;
  wf_decs : NoDup (decs i);
  wf_apart : runner i ∉ decs i ∧ ∀ r, main_root i = Some r → r ≠ runner i ∧ r ∉ decs i;
  wf_decorated : ∀ run, run ∈ all_runs i → decorated (scaffold i) run;
  wf_held : ∀ j n c, node (scaffold i) j = Some n → j ≠ runner i → c ∈ node_children n → c ≠ runner i ∧ c ∉ decs i;
  wf_loose : ∀ run c, run ∈ all_runs i → c ∈ detached run → c ≠ runner i ∧ c ∉ decs i;
}.

Lemma is_scaffold_spec i c : is_scaffold i c = false ↔ c ≠ runner i ∧ c ∉ decs i.
Proof.
  unfold is_scaffold, decorated_by. rewrite orb_false_iff, bool_decide_eq_false.
  assert (match snd <$> list_find (λ run, decorator run = c) (all_runs i) with Some _ => true | None => false end = false ↔ c ∉ decs i) as ->; [|done].
  destruct (list_find _ _) as [[k run]|] eqn:Ef; simpl.
  - apply list_find_Some in Ef as (Hk & Hc & _). split; [done|]. intros []. rewrite <- Hc. apply list_elem_of_fmap_2. by eapply list_elem_of_lookup_2.
  - apply list_find_None in Ef. rewrite Forall_forall in Ef. split; [|done]. intros _ (run & -> & Hr)%list_elem_of_fmap. by apply (Ef run).
Qed.
Lemma decorated_by_None i c : decorated_by i c = None → c ∉ decs i.
Proof.
  unfold decorated_by. destruct (list_find _ _) as [[]|] eqn:Ef; [done|]. intros _.
  apply list_find_None in Ef. rewrite Forall_forall in Ef. intros (run & -> & Hr)%list_elem_of_fmap. by apply (Ef run).
Qed.

(** A decorator a diff does not touch stays one. *)
Lemma decorated_kept d g g' run : (∀ j, node g' j = edited d g j) → decorated g run → decorator run ∉ d_remove d →
  decorator run ∉ changed_nodes d → decorated g' run.
Proof.
  intros Hg (n & top & Hn & Hf & Hc & Hb) Hr Hch. unfold changed_nodes in Hch. rewrite !elem_of_app in Hch.
  exists (drop_readers (list_to_set (d_remove d)) n), top. rewrite Hg, edited_kept, Hn.
  - split_and!; [done..|]. cbn [bind drop_readers map_bind]. apply map_lookup_filter_Some. done.
  - done.
  - tauto.
  - intros p Hp He. apply Hch. right. left. rewrite <- He. by apply list_elem_of_fmap_2.
  - intros b Hb' He. apply Hch. right. right. rewrite <- He. by apply list_elem_of_fmap_2.
Qed.

(** What an edit of the scaffold must be for its shape to be kept. *)
Lemma wf_edit i i' d : wf i → runner i' = runner i → Graphs.apply (scaffold i) d = (Ok tt, scaffold i') → d_root d = None →
  runner i ∉ d_remove d →
  (∃ set_, d_set d = set_ ++ [runner_node i']) ∨
    (runner i ∉ ids (d_set d) ∧ main_root i' = main_root i ∧ decs i' = decs i ∧ (decorator <$> runs i') = (decorator <$> runs i)) →
  NoDup (decs i') → runner i ∉ decs i' → (∀ r, main_root i' = Some r → r ≠ runner i ∧ r ∉ decs i') →
  (∀ run, run ∈ all_runs i' → decorated (scaffold i') run) →
  (∀ n c, n ∈ d_set d → id n ≠ runner i → c ∈ node_children n → c ≠ runner i ∧ c ∉ decs i') →
  (∀ j n c, node (scaffold i) j = Some n → j ≠ runner i → c ∈ node_children n → c ∉ decs i → c ∉ decs i') →
  (∀ run c, run ∈ all_runs i' → c ∈ detached run → c ≠ runner i ∧ c ∉ decs i') →
  wf i'.
Proof.
  intros [Hids Hroot Hrun Hnd [Hra Hma] Hdec Hheld _] Hrn Hg Hdr Hrm Hset Hnd' Hra' Hma' Hdec' Hset' Hold Hloose.
  pose proof (apply_edits_gen d (scaffold i) Hids) as He. rewrite Hg in He. destruct He as (_ & _ & Hids' & Hn & Hr).
  split; rewrite ?Hrn; [done| | |done|done|done| |done].
  - rewrite Hr, Hdr, Hroot. simpl. by rewrite decide_False.
  - rewrite Hn. destruct Hset as [[set_ Hset]|(Hni & Hm & Hds & Hl)].
    + destruct (edited_last d (scaffold i) set_ _ Hset) as (m & Hm & _ & Hf & Hc). cbn [id runner_node] in Hm. rewrite Hrn in Hm.
      exists m. eexists. split; [done|]. split; [done|]. split; [exact Hc|]. unfold decs, all_runs. rewrite fmap_app. split; [done|].
      apply sublist_inserts_r. done.
    + destruct Hrun as (n & l & Hnn & Hf & Hc & Hp & Hs). pose proof (edited_same d (scaffold i) (runner i)) as H.
      rewrite set_by_others in H by done. unfold Graphs.base in H. rewrite decide_False, Hnn in H by (by rewrite elem_of_list_to_set).
      destruct H as (m & Hem & _ & Hmf & Hmc). exists m, l. rewrite Hmf, Hmc, Hm, Hds, Hl. done.
  - intros j n c Hj Hne Hc. rewrite Hn in Hj. apply edited_like in Hj as [(m & Hm & Hmj & _ & _ & Hch)|(_ & _ & m & Hm & _ & _ & Hch)].
    + unfold node_children in Hc. rewrite Hch in Hc. apply (Hset' m); [done|congruence|done].
    + unfold node_children in Hc. rewrite Hch in Hc. destruct (Hheld j m c Hm Hne Hc). split; [done|]. by apply (Hold j m).
Qed.

Lemma wf_revise i : wf (revise i) ↔ wf i.
Proof. split; intros []; by constructor. Qed.
Lemma wf_revise_since before i : wf (revise_since before i) ↔ wf i.
Proof. unfold revise_since. destruct (graph_eqb _ _); [done|apply wf_revise]. Qed.
Lemma own_in_nodes index run : decorator run ∈ nodes_of index run.
Proof. unfold nodes_of. apply elem_of_union_l, subtree_spec. reflexivity. Qed.

(** Nothing of the scaffold is under a node that is not. *)
Lemma scaffold_not_reached i from j : wf i → from ≠ runner i → from ∉ decs i → rtc (child_of (by_id (scaffold i))) from j →
  j ≠ runner i ∧ j ∉ decs i.
Proof.
  intros Hw H1 H2 Hr. induction Hr as [|x y z Hxy _ IH]; [done|]. apply IH; clear IH; unfold child_of, children_of in Hxy;
    rewrite by_id_lookup in Hxy by apply Hw; destruct (node (scaffold i) x) as [n|] eqn:En; simpl in Hxy; try by apply not_elem_of_nil in Hxy.
  all: by apply (wf_held i Hw x n).
Qed.
Lemma scaffold_not_main i c : wf i → c = runner i ∨ c ∈ decs i → c ∈ not_main i.
Proof.
  intros Hw Hc. unfold not_main, not_main_beside. destruct Hc as [->|Hc]; [by apply elem_of_union_l, elem_of_singleton|]. apply elem_of_union_r.
  pose proof Hc as (run & -> & Hrun)%list_elem_of_fmap.
  assert (decorator run ∈ ⋃ (nodes_of (by_id (scaffold i)) <$> all_runs i ++ [])) as Hin.
  { apply elem_of_union_list. eexists. split; [apply list_elem_of_fmap_2, elem_of_app; by left|]. apply own_in_nodes. }
  destruct (main_root i) as [r|] eqn:Er; [|done]. apply elem_of_difference. split; [done|]. intros Hr.
  apply reach_spec in Hr as (st & ->%list_elem_of_singleton & Hr). destruct (wf_apart i Hw) as [_ Hm]. destruct (Hm r Er).
  by destruct (scaffold_not_reached i r (decorator run) Hw).
Qed.

Lemma wf_apply d i u i' : finished i = [] → wf i → apply d i = Some (Ok u, i') → wf i'.
Proof.
  intros Hf Hw Ha. apply apply_ran in Ha as (Hsc & Hdec & g & fresh & Hg & _ & ->); [|done]. apply wf_revise_since.
  set (remove := filter _ _) in *. set (j := with_main_root _ i) in *.
  destruct (apply_nodes _ _ _ (wf_ids i Hw) Hg) as (_ & _ & Hn).
  assert (∀ c, c ∈ changed_nodes d ++ d_remove d → c ∉ decs i) as Hch by (intros c Hc; by apply decorated_by_None, Hdec).
  refine (wf_edit i (with_scaffold g fresh j) _ Hw eq_refl Hg eq_refl _ (or_introl (ex_intro _ (d_set d) eq_refl)) _ _ _ _ _ _ _).
  - by intros [? _]%list_elem_of_filter.
  - exact (wf_decs i Hw).
  - exact (proj1 (wf_apart i Hw)).
  - intros r Hr. unfold j in Hr. cbn in Hr. clear Hn Hg. subst j. change (r ≠ runner i ∧ r ∉ decs i). destruct (d_root d) as [x|].
    + injection Hr as ->. apply is_scaffold_spec, Hsc. by left.
    + destruct (main_root i) as [x|] eqn:Ex; [|done]. case_decide; [done|]. injection Hr as <-. by apply (wf_apart i Hw).
  - intros run Hrun. refine (decorated_kept _ (scaffold i) g run Hn (wf_decorated i Hw run Hrun) _ _).
    + cbn. intros [_ Hr]%list_elem_of_filter. apply (Hch (decorator run)); [apply elem_of_app; by right|by apply list_elem_of_fmap_2].
    + intros Hc. assert (decorator run ∈ changed_nodes d ∨ decorator run = runner i) as [Hx|Hx].
      { unfold changed_nodes in *. cbn in Hc. rewrite fmap_app in Hc. rewrite !elem_of_app in *. cbn in Hc. rewrite list_elem_of_singleton in Hc. tauto. }
      * apply (Hch (decorator run)); [apply elem_of_app; by left|by apply list_elem_of_fmap_2].
      * apply (wf_apart i Hw). rewrite <- Hx. by apply list_elem_of_fmap_2.
  - cbn. intros n c [Hn'|Heq%list_elem_of_singleton]%elem_of_app Hne Hc; [|by subst n]. change (c ≠ runner i ∧ c ∉ decs i). apply is_scaffold_spec, Hsc, elem_of_app.
    right. apply list_elem_of_bind. by exists n.
  - done.
  - intros run c Hrun. by apply (wf_loose i Hw run).
Qed.

Lemma wf_load g i u i' : finished i = [] → wf i →
  (∀ c, c ∈ all_children (nodes g) ++ option_list (root g) → is_scaffold i c = false) → load g i = Some (Ok u, i') → wf i'.
Proof.
  intros Hf Hw Hpl Ha. apply load_ran in Ha as (held & g' & fresh & Hids & Hnm & Hh & Hg & _ & ->); [|done]. apply wf_revise.
  set (remove := filter _ _) in *. set (j := with_main_root _ i) in *.
  destruct (apply_nodes _ _ _ (wf_ids i Hw) Hg) as (_ & _ & Hn).
  assert (∀ c, c ∈ decs i → c ∈ held) as Hdh.
  { intros c (run & -> & Hrun)%list_elem_of_fmap. unfold held_after in Hh. destruct (Graphs.apply _ _) as [[[]|[]] after]; try done.
    injection Hh as <-. apply elem_of_union_list. eexists. split; [by apply list_elem_of_fmap_2|]. apply own_in_nodes. }
  assert (∀ c, c ∈ ids (nodes g) → c ∉ decs i) as Hgd by (intros c Hc Hd; apply (Hnm c Hc), scaffold_not_main; [done|by right]).
  refine (wf_edit i (with_scaffold g' fresh j) _ Hw eq_refl Hg eq_refl _ (or_introl (ex_intro _ (nodes g) eq_refl)) _ _ _ _ _ _ _).
  - by intros [[? _] _]%list_elem_of_filter.
  - exact (wf_decs i Hw).
  - exact (proj1 (wf_apart i Hw)).
  - intros r Hr. change (r ≠ runner i ∧ r ∉ decs i). apply is_scaffold_spec, Hpl. cbn in Hr. rewrite Hr. apply elem_of_app. right. by left.
  - intros run Hrun. assert (decorator run ∈ decs i) as Hd by (by apply list_elem_of_fmap_2).
    refine (decorated_kept _ (scaffold i) g' run Hn (wf_decorated i Hw run Hrun) _ _).
    + cbn. intros [[_ Hx] _]%list_elem_of_filter. by apply Hx, Hdh.
    + unfold changed_nodes. cbn. rewrite app_nil_r, fmap_app. intros [Hc|Hc]%elem_of_app; [by apply (Hgd _ Hc)|].
      apply list_elem_of_singleton in Hc. change (decorator run = runner i) in Hc. apply (wf_apart i Hw). by rewrite <- Hc.
  - cbn. intros n c [Hn'|Heq%list_elem_of_singleton]%elem_of_app Hne Hc; [|by subst n]. change (c ≠ runner i ∧ c ∉ decs i). apply is_scaffold_spec, Hpl, elem_of_app.
    left. apply list_elem_of_bind. by exists n.
  - done.
  - intros run c Hrun. by apply (wf_loose i Hw run).
Qed.

(** Every id something of the interpreter names. *)
Definition named (i : Interpreter) : list Uuid :=
  ids (nodes (scaffold i)) ++ all_children (nodes (scaffold i)) ++ (all_runs i ≫= detached) ++ option_list (main_root i).
Lemma node_named i j n : node (scaffold i) j = Some n → j ∈ ids (nodes (scaffold i)) ∧ ∀ c, c ∈ node_children n → c ∈ all_children (nodes (scaffold i)).
Proof.
  intros Hn. apply node_in_Some in Hn as [Hn <-]. split; [by apply list_elem_of_fmap_2|]. intros c Hc. apply list_elem_of_bind. by exists n.
Qed.
Lemma scaffold_listed i c : wf i → c = runner i ∨ c ∈ decs i → c ∈ ids (nodes (scaffold i)).
Proof.
  intros Hw [->|(run & -> & Hr)%list_elem_of_fmap].
  - destruct (wf_runner i Hw) as (n & _ & Hn & _). by apply (node_named i _ n).
  - destruct (wf_decorated i Hw run Hr) as (n & _ & Hn & _). by apply (node_named i _ n).
Qed.
Lemma wf_graft module function top det fragment t dec i h i' : wf i → dec ∉ named i → dec ∉ ids fragment →
  (∀ n, n ∈ fragment → id n ∉ ids (nodes (scaffold i))) →
  (∀ c, c ∈ all_children fragment ++ det ++ [top] → c ≠ runner i ∧ c ∉ decs i ∧ c ≠ dec) →
  graft module function top det fragment t dec i = Some (Ok h, i') → wf i'.
Proof.
  intros Hw Hdec Hfr Hnew Hch Hg. apply graft_ran in Hg as (-> & g & fresh & Hg & _ & ->).
  set (h := task_handle _ t) in *. set (run := mkRun h dec det) in *. set (j := with_runs (runs i ++ [run]) (finished i) i) in *.
  rewrite app_assoc in Hg. destruct (apply_nodes _ _ _ (wf_ids i Hw) Hg) as (_ & _ & Hn).
  unfold named in Hdec. rewrite !not_elem_of_app in Hdec. destruct Hdec as (Hd1 & Hd2 & Hd3 & Hd4).
  assert (∀ run', run' ∈ all_runs j ↔ run' = run ∨ run' ∈ all_runs i) as Hall.
  { intros run'. unfold all_runs, j. cbn. rewrite !elem_of_app, list_elem_of_singleton. tauto. }
  assert (∀ c, c ∈ decs j ↔ c = dec ∨ c ∈ decs i) as Hds.
  { intros c. unfold decs. rewrite !list_elem_of_fmap. setoid_rewrite Hall. naive_solver. }
  assert (runner i ≠ dec) as Hrd by (intros He; apply Hd1; rewrite <- He; apply (scaffold_listed i _ Hw); by left).
  refine (wf_edit i (with_scaffold g fresh j) _ Hw eq_refl Hg eq_refl _ (or_introl (ex_intro _ _ eq_refl)) _ _ _ _ _ _ _).
  - by intros ?%not_elem_of_nil.
  - change (NoDup (decs j)). unfold decs, all_runs, j. cbn. rewrite <- app_assoc, (Permutation_app_comm [run]), app_assoc, fmap_app.
    apply NoDup_app. split_and!; [exact (wf_decs i Hw)| |by apply NoDup_singleton].
    intros c Hc ->%list_elem_of_singleton. apply Hd1, (scaffold_listed i _ Hw). by right.
  - change (runner i ∉ decs j). rewrite Hds. intros [|]; [done|]. by apply (wf_apart i Hw).
  - intros r Hr. change (r ≠ runner i ∧ r ∉ decs j). rewrite Hds. destruct (proj2 (wf_apart i Hw) r Hr). split; [done|].
    intros [->|]; [|done]. apply Hd4. change (main_root i = Some dec) in Hr. rewrite Hr. by left.
  - intros run' [->|Hr']%Hall.
    + exists (decorator_node dec top (th_status h)), top. change (decorator run) with dec. split_and!; [|done..|unfold decorator_node; cbn [bind]; by rewrite lookup_insert_eq].
      change (node g dec = Some (decorator_node dec top (th_status h))). rewrite Hn. unfold edited, unbound_by, bound_by. cbn [foldl d_unbind d_bind d_set]. by rewrite set_by_snoc, decide_False, set_by_snoc, decide_True by done.
    + assert (decorator run' ∈ decs i) as Hin by (by apply list_elem_of_fmap_2).
      refine (decorated_kept _ (scaffold i) g run' Hn (wf_decorated i Hw run' Hr') (not_elem_of_nil _) _).
      unfold changed_nodes. cbn. rewrite app_nil_r, !fmap_app, !elem_of_app.
      intros [[(n & Hnid & Hin')%list_elem_of_fmap|(n & Hx & ->%list_elem_of_singleton)%list_elem_of_fmap]
             |(n & Hx & ->%list_elem_of_singleton)%list_elem_of_fmap].
      * apply (Hnew n Hin'). rewrite <- Hnid. apply (scaffold_listed i _ Hw). by right.
      * cbn in Hx. apply Hd1. rewrite <- Hx. apply (scaffold_listed i _ Hw). by right.
      * change (decorator run' = runner i) in Hx. apply (wf_apart i Hw). by rewrite <- Hx.
  - cbn. intros n c [[Hn'|Heq%list_elem_of_singleton]%elem_of_app|Heq%list_elem_of_singleton]%elem_of_app Hne Hc; [| |by subst n];
      change (c ≠ runner i ∧ c ∉ decs j); rewrite Hds; destruct (Hch c) as (? & ? & ?); [|naive_solver| |naive_solver].
    + apply elem_of_app. left. apply list_elem_of_bind. by exists n.
    + subst n. cbn in Hc. rewrite !elem_of_app. auto.
  - intros k n c Hk _ Hc Hc'. change (c ∉ decs j). rewrite Hds. intros [->|]; [|done]. apply Hd2. by apply (node_named i k n).
  - intros run' c [->|Hr']%Hall Hc; change (c ≠ runner i ∧ c ∉ decs j); rewrite Hds.
    + destruct (Hch c) as (? & ? & ?); [rewrite !elem_of_app; auto|]. naive_solver.
    + destruct (wf_loose i Hw run' c Hr' Hc). split; [done|]. intros [->|]; [|done]. apply Hd3, list_elem_of_bind. by exists run'.
Qed.

(** What a run holds besides its decorator is not the scaffold's. *)
Lemma under_not_scaffold i from j : wf i → from ∈ decs i → rtc (child_of (by_id (scaffold i))) from j → j ≠ from →
  j ≠ runner i ∧ j ∉ decs i.
Proof.
  intros Hw Hd Hr Hne. inversion Hr as [|? x ? Hx Hr']; subst; [done|].
  assert (from ≠ runner i) as Hfr by (intros ->; by apply (wf_apart i Hw)).
  pose proof Hx as Hc. unfold child_of, children_of in Hc. rewrite by_id_lookup in Hc by apply Hw.
  destruct (node (scaffold i) from) as [n|] eqn:En; simpl in Hc; [|by apply not_elem_of_nil in Hc].
  destruct (wf_held i Hw from n x En Hfr Hc). by apply (scaffold_not_reached i x j).
Qed.
Lemma nodes_of_not_scaffold i run j : wf i → run ∈ all_runs i → j ∈ nodes_of (by_id (scaffold i)) run → j ≠ decorator run →
  j ≠ runner i ∧ j ∉ decs i.
Proof.
  intros Hw Hr Hj Hne. unfold nodes_of in Hj. apply elem_of_union in Hj as [Hj%subtree_spec|Hj%elem_of_list_to_set].
  - apply (under_not_scaffold i (decorator run)); [done|by apply list_elem_of_fmap_2|done..].
  - by apply (wf_loose i Hw run).
Qed.
Lemma leaving_not_scaffold i gone j : wf i → (∀ run, run ∈ gone → run ∈ all_runs i) → j ∈ leaving_of (by_id (scaffold i)) gone →
  j ∈ decorator <$> gone ∨ (j ≠ runner i ∧ j ∉ decs i).
Proof.
  intros Hw Hg Hj. unfold leaving_of in Hj. apply elem_of_union in Hj as [(st & Hst & Hr)%reach_spec|Hj%elem_of_list_to_set].
  - pose proof Hst as (run & -> & Hrun)%list_elem_of_fmap. destruct (decide (j = decorator run)) as [->|Hne]; [by left|].
    right. apply (under_not_scaffold i (decorator run)); [done|apply list_elem_of_fmap_2; by apply Hg|done..].
  - apply list_elem_of_bind in Hj as (run & Hj & Hrun). right. apply (wf_loose i Hw run); [by apply Hg|done].
Qed.

(** Pruning runs out of the lists: what is left is a scaffold without them. *)
Lemma prune_ran gone j r i' : gone ≠ [] → prune gone j = Some (r, i') →
  match r with
  | Err _ => i' = j
  | Ok _ => let leaving := leaving_of (by_id (scaffold j)) gone in
      ∃ g fresh, Graphs.apply (scaffold j) (mkGraphDiff (elements (leaving ∖ held_outside j leaving)) [runner_node j] [] [] None) = (Ok tt, g)
        ∧ accepts j g false = Some (Ok tt) ∧ i' = revise_since (main_graph_beside j gone) (with_scaffold g fresh j)
  end.
Proof.
  unfold Interpreter.prune. destruct gone as [|run gone]; [done|]. intros _. t_unfold. unfold Datatypes.id, Interpreter.edit.
  set (d := mkGraphDiff _ _ _ _ _). destruct (edit_lowering d false j) as [[[[]|e] i1]|] eqn:He; [| |done]; intros [= <- <-];
    apply edit_ran in He; [|done]. destruct He as (g & Hg & Ha & changed & ->). cbv zeta.
  by exists g, (list_to_set changed ∪ fresh_nodes j).
Qed.
Lemma wf_prune i l f gone u i' : wf i → all_runs i ≡ₚ gone ++ l ++ f → gone ≠ [] →
  prune gone (with_runs l f i) = Some (Ok u, i') → wf i'.
Proof.
  intros Hw Hall Hne Hp. set (j := with_runs l f i) in *. apply prune_ran in Hp as (g & fresh & Hg & _ & ->); [|done].
  apply wf_revise_since. change (scaffold j) with (scaffold i) in Hg. destruct (apply_nodes _ _ _ (wf_ids i Hw) Hg) as (_ & _ & Hn).
  assert (∀ run, run ∈ gone → run ∈ all_runs i) as Hgone by (intros run Hr; rewrite Hall; apply elem_of_app; by left).
  assert (∀ run, run ∈ all_runs j → run ∈ all_runs i) as Hkept by (intros run Hr; rewrite Hall; apply elem_of_app; by right).
  assert (NoDup ((decorator <$> gone) ++ decs j)) as Hnd.
  { unfold decs at 1. rewrite <- fmap_app. change (all_runs j) with (l ++ f). rewrite <- Hall. exact (wf_decs i Hw). }
  apply NoDup_app in Hnd as (_ & Hap & Hnd).
  assert (∀ c, c ∈ decs j → c ∈ decs i) as Hdj.
  { intros c (run & -> & Hr)%list_elem_of_fmap. apply list_elem_of_fmap_2. by apply Hkept. }
  assert (∀ c, c = runner i ∨ c ∈ decs j → c ∉ elements (leaving_of (by_id (scaffold i)) gone ∖ held_outside j (leaving_of (by_id (scaffold i)) gone))) as Hrm.
  { intros c Hc [Hl _]%elem_of_elements%elem_of_difference. apply (leaving_not_scaffold i gone c Hw Hgone) in Hl as [Hl|[Hl1 Hl2]].
    - destruct Hc as [->|Hc]; [|by apply (Hap c)]. apply (wf_apart i Hw). apply list_elem_of_fmap in Hl as (run & -> & Hr).
      apply list_elem_of_fmap_2. by apply Hgone.
    - destruct Hc as [->|Hc]; [done|]. by apply Hl2, Hdj. }
  refine (wf_edit i (with_scaffold g fresh j) _ Hw eq_refl Hg eq_refl _ (or_introl (ex_intro _ [] eq_refl)) _ _ _ _ _ _ _).
  - apply Hrm. by left.
  - exact Hnd.
  - change (runner i ∉ decs j). intros Hr. by apply (wf_apart i Hw), Hdj.
  - intros r Hr. change (r ≠ runner i ∧ r ∉ decs j). destruct (proj2 (wf_apart i Hw) r Hr). split; [done|]. intros Hd. by apply Hdj in Hd.
  - intros run Hr. change (run ∈ all_runs j) in Hr. assert (decorator run ∈ decs j) as Hin by (by apply list_elem_of_fmap_2).
    refine (decorated_kept _ (scaffold i) g run Hn (wf_decorated i Hw run (Hkept run Hr)) _ _).
    + apply Hrm. by right.
    + unfold changed_nodes. cbn. intros Hx%list_elem_of_singleton. change (decorator run = runner i) in Hx.
      apply (wf_apart i Hw). rewrite <- Hx. by apply Hdj.
  - intros n c Hn' Hne' _. apply list_elem_of_singleton in Hn' as ->. done.
  - intros k n c _ _ _ Hc. change (c ∉ decs j). intros Hd. by apply Hc, Hdj.
  - intros run c Hr Hc. change (c ≠ runner i ∧ c ∉ decs j). destruct (wf_loose i Hw run c (Hkept run Hr) Hc). split; [done|].
    intros Hd. by apply Hdj in Hd.
Qed.
Lemma wf_prune_finished i u i' : wf i → prune_finished i = Some (Ok u, i') → wf i'.
Proof.
  intros Hw. unfold Interpreter.prune_finished. t_unfold. destruct (finished i) as [|run gone] eqn:Ef.
  - intros [= _ <-]. by destruct i; simpl in *; subst.
  - apply wf_prune; [done| |done]. unfold all_runs. rewrite Ef, app_nil_r. apply Permutation_app_comm.
Qed.
Lemma wf_halt t i u i' : wf i → halt t i = Some (Ok u, i') → wf i'.
Proof.
  intros Hw. unfold Interpreter.halt. t_unfold. unfold Datatypes.id.
  destruct (list_find _ (traces i)) as [[]|]; [intros [= _ <-]; destruct Hw; by constructor|].
  destruct (list_find _ (runs i)) as [[at_ run]|] eqn:Ef; [|by intros [= _ <-]].
  destruct (prune _ _) as [[[]]|] eqn:Hp; [|done|done]. intros [= _ <-]. apply list_find_Some in Ef as (Hat & _).
  assert (wf i0) as Hw0; [|destruct Hw0; by constructor].
  refine (wf_prune i _ _ _ _ _ Hw _ _ Hp); [|done]. exact (Permutation_app_tail (finished i) (delete_Permutation _ _ _ Hat)).
Qed.
Lemma wf_sweep (s : S) i : wf i → wf (sweep_terminal_runs s i).
Proof.
  intros [Hids Hroot Hrun Hnd Hap Hdec Hheld Hloose]. unfold sweep_terminal_runs. set (gone := filter _ _). set (l := filter _ _).
  set (j := with_runs l (finished i ++ gone) i).
  assert (runs i ≡ₚ l ++ gone) as Hsplit.
  { unfold l, gone. clear. induction (runs i) as [|r rs IH]; [done|]. rewrite !filter_cons. destruct (terminal s r); simpl;
      [by rewrite <- Permutation_middle, <- IH|by rewrite <- IH]. }
  assert (all_runs j ≡ₚ all_runs i) as Hall.
  { unfold all_runs, j. cbn. rewrite Hsplit, <- (app_assoc l). apply Permutation_app_head, Permutation_app_comm. }
  assert (decs j ≡ₚ decs i) as Hds by (unfold decs; by rewrite Hall).
  assert (wf j) as Hj; [|case_bool_decide; [done|]; destruct Hj; by constructor].
  split; [done|done| | | | | |].
  - destruct Hrun as (n & k & Hn & Hf & Hc & Hp & Hs). exists n, k. split_and!; [done..|by rewrite Hds|].
    etransitivity; [|exact Hs]. apply fmap_sublist, sublist_filter.
  - by rewrite Hds.
  - rewrite Hds. destruct Hap as [? Hm]. split; [done|]. intros r Hr. rewrite Hds. by apply Hm.
  - intros run. rewrite Hall. apply Hdec.
  - intros k n c. rewrite Hds. apply Hheld.
  - intros run c. rewrite Hall, Hds. apply Hloose.
Qed.

(** A diff between graphs of one root touches their nodes only. *)
Lemma diff_touches (a b : Graph) top : NoDup (ids (nodes a)) → NoDup (ids (nodes b)) → root a = Some top → root b = Some top →
  top ∈ ids (nodes b) →
  (∀ n, n ∈ d_set (diff a b) → n ∈ nodes b) ∧ (∀ c, c ∈ d_remove (diff a b) → c ∈ ids (nodes a) ∧ c ∉ ids (nodes b)) ∧
  (∀ c, c ∈ changed_nodes (diff a b) → c ∈ ids (nodes b)) ∧ d_root (diff a b) = None.
Proof.
  intros Ha Hb Hra Hrb Htop. destruct (diff_parts a b) as (Hr & Hs & Hu & Hbd).
  assert (unrooted a b = None) as Hun by (unfold unrooted; by rewrite Hra, Hrb).
  assert (∀ c, c ∈ removals a b → c ∈ ids (nodes a) ∧ c ∉ ids (nodes b)) as Hrem.
  { intros c Hc. rewrite <- (elem_of_list_to_set (C := gset Uuid)) in Hc. apply removed_spec in Hc; [|done..]. rewrite Hun in Hc.
    destruct Hc as [[Hc [Hn|]]|[_ ?]]; [|done..]. split; [done|]. by apply node_in_None. }
  assert (∀ n, n ∈ d_set (diff a b) → n ∈ nodes b) as Hset by (intros n; rewrite Hs; by intros [_ ?]%list_elem_of_filter).
  split; [done|]. split; [intros c; rewrite Hr; apply Hrem|]. split.
  - intros c. unfold changed_nodes. rewrite Hu, Hbd, !elem_of_app.
    intros [(n & -> & Hn)%list_elem_of_fmap|[(p & -> & Hp)%list_elem_of_fmap|(x & -> & Hx)%list_elem_of_fmap]].
    + apply list_elem_of_fmap_2. by apply Hset.
    + apply unbounds_spec in Hp as (n & _ & _ & Hn & _); [|done..]. apply node_listed. by exists n.
    + apply rebounds_node in Hx as (n & _ & Hn & _); [|done..]. apply node_listed. by exists n.
  - unfold diff. rewrite diff_nodes, Hrb, Hra.
    rewrite (bool_decide_false (top ∈ (list_to_set (removals a b) : gset Uuid))).
    + by rewrite bool_decide_true.
    + rewrite elem_of_list_to_set. intros Hc%Hrem. by destruct Hc.
Qed.
Lemma decs_set_detached at_ det i : decs (set_detached at_ det i) = decs i ∧ decorator <$> runs (set_detached at_ det i) = decorator <$> runs i.
Proof.
  assert (decorator <$> runs (set_detached at_ det i) = decorator <$> runs i) as H.
  { unfold set_detached. cbn. generalize (runs i) at_. clear. intros l. induction l as [|r l IH]; intros [|k]; [done..|].
    cbn. f_equal. apply (IH k). }
  split; [|done]. unfold decs, all_runs. by rewrite !fmap_app, H.
Qed.
Lemma set_detached_run at_ det i run : run ∈ all_runs (set_detached at_ det i) →
  ∃ old, old ∈ all_runs i ∧ decorator run = decorator old ∧ handle run = handle old ∧ (run = old ∨ detached run = det).
Proof.
  unfold all_runs, set_detached. cbn. intros [(k & Hk)%list_elem_of_lookup_1|Hr]%elem_of_app.
  - destruct (decide (k = at_)) as [->|Hne].
    + rewrite list_lookup_alter_eq in Hk. apply fmap_Some in Hk as (old & Ho & ->). exists old. split_and!; [|done..|by right].
      apply elem_of_app. left. by eapply list_elem_of_lookup_2.
    + rewrite list_lookup_alter_ne in Hk by done. exists run. split_and!; [|done..|by left]. apply elem_of_app. left. by eapply list_elem_of_lookup_2.
  - exists run. split_and!; [|done..|by left]. apply elem_of_app. by right.
Qed.

Lemma wf_respawn at_ g det top i h i' : wf i → root g = Some top → top ∈ ids (nodes g) → is_tree g top →
  (∀ c, c ∈ det → c ∈ ids (nodes g)) → respawn at_ g det i = Some (Ok h, i') → wf i'.
Proof.
  intros Hw Hroot Htop Ht Hdet Hr. apply respawn_ran in Hr as (run & Hat & -> & Hown & Hr). set (a := own_part i run (root g)) in *.
  assert (run ∈ all_runs i) as Hrun by (apply elem_of_app; left; by eapply list_elem_of_lookup_2).
  assert (∀ j, j ∈ nodes_of (by_id (scaffold i)) run ∖ {[decorator run]} → j ≠ runner i ∧ j ∉ decs i) as Hheld.
  { intros j [Hj Hne]%elem_of_difference. apply (nodes_of_not_scaffold i run); [done..|]. intros ->. by apply Hne, elem_of_singleton. }
  assert (∀ c, c ∈ ids (nodes g) → c ≠ runner i ∧ c ∉ decs i) as Hg.
  { intros c (n & -> & Hn)%list_elem_of_fmap. destruct (by_id (scaffold i) !! id n) as [m|] eqn:Em; [apply Hheld, Hown; [done|by eexists]|].
    assert (id n ∉ ids (nodes (scaffold i))) as Hx by (intros [? ?]%by_id_Some; congruence).
    split; [intros He|intros He]; apply Hx, (scaffold_listed i _ Hw); auto. }
  destruct (decs_set_detached at_ det i) as [Hds Hdl].
  assert (∀ run' c, run' ∈ all_runs (set_detached at_ det i) → c ∈ detached run' → c ≠ runner i ∧ c ∉ decs i) as Hloose.
  { intros run' c (old & Ho & _ & _ & Hd)%set_detached_run Hc. destruct Hd as [->|Hd]; [by apply (wf_loose i Hw old)|].
    rewrite Hd in Hc. by apply Hg, Hdet. }
  destruct Hr as [[_ ->]|(_ & g' & fresh & Hap & _ & ->)].
  - destruct Hw as [Hi1 Hi2 (n & l & Hn & Hf & Hc & Hp & Hs) Hi4 Hi5 Hi6 Hi7 _].
    split; rewrite ?Hds; [done|done| |done|done| |exact Hi7|exact Hloose].
    + exists n, l. rewrite Hdl. done.
    + intros run' (old & Ho & Hd & Hh & _)%set_detached_run. destruct (Hi6 old Ho) as (m & x & Hm). exists m, x. by rewrite Hd, Hh.
  - apply wf_revise_since. destruct (diff_touches a g top) as (Hs & Hrm & Hch & Hdr); [|apply Ht|done..|].
    { apply filter_ids_NoDup, Hw. } destruct (apply_nodes _ _ _ (wf_ids i Hw) Hap) as (_ & _ & Hn).
    assert (∀ c, c ∈ ids (nodes a) → c ≠ runner i ∧ c ∉ decs i) as Ha.
    { intros c (n & -> & [[Hc _] _]%list_elem_of_filter)%list_elem_of_fmap. by apply Hheld. }
    refine (wf_edit i (set_detached at_ det (with_scaffold g' fresh i)) _ Hw eq_refl Hap Hdr _ (or_intror _) _ _ _ _ _ _ _).
    + intros [Hc _]%Hrm. by destruct (Ha _ Hc).
    + split_and!; [|done|exact Hds|exact Hdl]. intros (n & Hc & Hn')%list_elem_of_fmap.
      apply Hs in Hn'. destruct (Hg (id n)) as [? _]; [by apply list_elem_of_fmap_2|]. congruence.
    + change (NoDup (decs (set_detached at_ det i))). rewrite Hds. exact (wf_decs i Hw).
    + change (runner i ∉ decs (set_detached at_ det i)). rewrite Hds. exact (proj1 (wf_apart i Hw)).
    + intros r Hr. change (r ≠ runner i ∧ r ∉ decs (set_detached at_ det i)). rewrite Hds. by apply (wf_apart i Hw).
    + intros run' (old & Ho & Hd & Hh & _)%(set_detached_run at_ det i).
      assert (decorator old ∈ decs i) as Hin by (by apply list_elem_of_fmap_2).
      assert (decorated g' old) as (m & x & Hm).
      { refine (decorated_kept _ (scaffold i) g' old Hn (wf_decorated i Hw old Ho) _ _).
        - intros [Hc _]%Hrm. by destruct (Ha _ Hc).
        - intros Hc%Hch. by destruct (Hg _ Hc). }
      exists m, x. rewrite Hd, Hh. exact Hm.
    + intros n c Hn' _ Hc. change (c ≠ runner i ∧ c ∉ decs (set_detached at_ det i)). rewrite Hds. apply Hg, (tree_closed _ _ Ht).
      apply list_elem_of_bind. exists n. split; [done|by apply Hs].
    + intros j n c _ _ _ Hc. change (c ∉ decs (set_detached at_ det i)). by rewrite Hds.
    + intros run' c Hr Hc. change (c ≠ runner i ∧ c ∉ decs (set_detached at_ det i)). rewrite Hds. by apply (Hloose run').
Qed.

(** ** Operations, after the pruning they start with *)
Lemma prune_finished_names i u i1 : wf i → prune_finished i = Some (Ok u, i1) →
  finished i1 = [] ∧ runner i1 = runner i ∧ runs i1 = runs i ∧ main_root i1 = main_root i ∧
  (∀ c, c ∈ named i1 → c ∈ named i) ∧ ∀ c, is_scaffold i c = false → is_scaffold i1 c = false.
Proof.
  intros Hw Hp. assert (wf i1) as Hw1 by (by eapply wf_prune_finished). revert Hp.
  assert (∀ c, c = runner i ∨ c ∈ decs i → c ∈ named i) as Hsn by (intros c Hc; apply elem_of_app; left; by apply scaffold_listed).
  unfold Interpreter.prune_finished. t_unfold. destruct (finished i) as [|run gone] eqn:Ef.
  { intros [= _ <-]. destruct i; simpl in *; subst. done. }
  set (j := with_runs (runs i) [] i). intros Hp%prune_ran; [|done]. destruct Hp as (g & fresh & Hg & _ & Hi1).
  assert (∀ b k, finished (revise_since b k) = finished k ∧ runner (revise_since b k) = runner k ∧ runs (revise_since b k) = runs k ∧
    main_root (revise_since b k) = main_root k ∧ scaffold (revise_since b k) = scaffold k) as Hrev
    by (intros b k; unfold revise_since; by destruct (graph_eqb _ _)).
  destruct (Hrev (main_graph_beside j (run :: gone)) (with_scaffold g fresh j)) as (H1 & H2 & H3 & H4 & H5). rewrite <- Hi1 in *.
  change (scaffold j) with (scaffold i) in *. destruct (apply_nodes _ _ _ (wf_ids i Hw) Hg) as (Hnd & Hids & Hn).
  split_and!; [done..| |].
  - intros c. unfold named. rewrite H4, H5, !elem_of_app. unfold all_runs. rewrite H1, H3. cbn [finished with_scaffold j with_runs].
    rewrite app_nil_r. change (runs (with_scaffold g fresh j)) with (runs i). change (main_root (with_scaffold g fresh j)) with (main_root i).
    intros [Hc|[(n & Hc & Hin)%list_elem_of_bind|[Hc|Hc]]]; [| |right; right; left; rewrite bind_app; apply elem_of_app; by left|by auto].
    + change (c ∈ ids (nodes g)) in Hc. rewrite Hids in Hc. apply add_ids_elem in Hc as [[_ Hc]%list_elem_of_filter|Hc]; [by left|].
      apply list_elem_of_singleton in Hc. left. apply (scaffold_listed i _ Hw). by left.
    + change (n ∈ nodes g) in Hin. assert (node g (id n) = Some n) as Hgn by (by apply node_in_unique). rewrite Hn in Hgn.
      apply edited_like in Hgn as [(m & Hm & _ & _ & _ & Hch)|(_ & _ & m & Hm & _ & _ & Hch)]; unfold node_children in *; rewrite Hch in Hc.
      * apply list_elem_of_singleton in Hm as ->. cbn in Hc. rewrite app_nil_r in Hc.
        apply elem_of_app in Hc as [Hc|Hc]; [by auto|]. left. apply (scaffold_listed i _ Hw). right.
        unfold decs, all_runs. rewrite fmap_app. apply elem_of_app. by left.
      * right. left. by apply (node_named i (id n) m).
  - intros c [Hr Hd]%is_scaffold_spec. apply is_scaffold_spec. rewrite H2. split; [done|].
    unfold decs, all_runs in *. rewrite H1, H3. cbn. rewrite app_nil_r. intros Hc. apply Hd. rewrite fmap_app. apply elem_of_app. by left.
Qed.

Lemma after_prune {A} (m : T Interpreter BehaviorError A) i a i' :
  (prune_finished ≫= λ _, m) i = Some (Ok a, i') →
  ∃ i1, prune_finished i = Some (Ok tt, i1) ∧ m i1 = Some (Ok a, i').
Proof.
  rewrite bind_run. destruct (prune_finished i) as [[[[]|e] i1]|]; [|done|done]. intros Hm. by exists i1.
Qed.
(** An operation that prunes before anything it keeps may as well find no ended run. *)
Definition prunes_first {A} (m : T Interpreter BehaviorError A) : Prop :=
  (∃ m', m = (prune_finished ≫= λ _, m')) ∨ ∃ e, m = t_fail e.
Lemma pruned_first {A} (m : T Interpreter BehaviorError A) i a i' : wf i → prunes_first m → m i = Some (Ok a, i') →
  ∃ i1, prune_finished i = Some (Ok tt, i1) ∧ wf i1 ∧ finished i1 = [] ∧ m i1 = Some (Ok a, i').
Proof.
  intros Hw [[m' ->]|[e ->]] Ha; [|done]. apply after_prune in Ha as (i1 & Hp & Ha). exists i1.
  assert (finished i1 = []) as Hf by (by apply (prune_finished_names i) in Hp as (? & _)).
  split_and!; [done|by eapply wf_prune_finished|done|]. by rewrite bind_run, (prune_finished_none i1 Hf).
Qed.
Lemma spawn_prunes call policy n t dec : prunes_first (spawn call policy n t dec).
Proof. unfold prunes_first, Interpreter.spawn. destruct (call_to_value call); [left|right]; by eexists. Qed.
Lemma spawn_graph_prunes written g policy t dec : prunes_first (spawn_graph written g policy t dec) ∨
  spawn_graph written g policy t dec = t_diverge.
Proof.
  unfold prunes_first, Interpreter.spawn_graph. destruct (negb _); [left; right; by eexists|].
  destruct (root g) as [top|]; [|left; right; by eexists]. destruct (node g top); [|left; right; by eexists].
  destruct (check_tree g top) as [det|]; [|left; right; by eexists].
  destruct (list_find _ (nodes g)) as [[]|]; [left; right; by eexists|].
  destruct (reads_outside _ _) as [[]|]; [left; right; by eexists|].
  destruct (builds _ _ _ _ g) as [[]|]; [left; left; by eexists|left; right; by eexists|by right].
Qed.

(** What a request must be for the scaffold to keep its shape: the ids drawn are
    new, and a load does not name the scaffold's own nodes, which the code does not
    look at. *)
Definition request_ok (i : Interpreter) (request : Request) : Prop :=
  match request with
  | Load g => ∀ c, c ∈ all_children (nodes g) ++ option_list (root g) → is_scaffold i c = false
  | Spawn _ _ n _ d => n ∉ named i ∧ d ∉ named i ∧ n ≠ d
  | SpawnGraph _ g _ _ d => d ∉ named i ∧ d ∉ ids (nodes g)
  | Edit _ | Trace _ | Halt _ => True
  end.

Lemma wf_serve request i h i' : wf i → request_ok i request → serve request i = Some (Ok h, i') → wf i'.
Proof.
  intros Hw Hok. destruct request as [d|g|call policy n t dec|written g policy t dec|t|t]; cbn [serve]; rewrite ?bind_run.
  - destruct (apply d i) as [[[u|]]|] eqn:He; [|done|done]. intros [= _ <-].
    apply (pruned_first (apply d)) in He as (i1 & _ & Hw1 & Hf & He); [by apply (wf_apply d i1 u)|done|left; by eexists].
  - destruct (load g i) as [[[u|]]|] eqn:He; [|done|done]. intros [= _ <-].
    apply (pruned_first (load g)) in He as (i1 & Hp & Hw1 & Hf & He); [|done|left; by eexists].
    apply (wf_load g i1 u); [done..| |done]. intros c Hc. apply (prune_finished_names i) in Hp as (_ & _ & _ & _ & _ & Hs); [|done].
    by apply Hs, Hok.
  - destruct (spawn call policy n t dec i) as [[[u|]]|] eqn:He; [|done|done]. intros [= _ <-].
    apply pruned_first in He as (i1 & Hp & Hw1 & Hf & He); [|done|apply spawn_prunes].
    apply (prune_finished_names i) in Hp as (_ & _ & _ & _ & Hs & _); [|done]. destruct Hok as (Hn & Hd & Hnd).
    apply spawn_ran in He as (module & v & He); [|done].
    assert (n ∉ ids (nodes (scaffold i1))) as Hni by (intros Hx; apply Hn, Hs, elem_of_app; by left).
    refine (wf_graft _ _ _ _ _ _ _ _ _ _ Hw1 _ _ _ _ He).
    + intros Hx. by apply Hd, Hs.
    + intros Hx%list_elem_of_singleton. done.
    + intros m ->%list_elem_of_singleton. done.
    + intros c [Hc%not_elem_of_nil|Hc%list_elem_of_singleton]%elem_of_app; [done|]. subst c.
      split_and!; [| |done]; intros Hx; apply Hni, (scaffold_listed i1 _ Hw1); auto.
  - destruct (spawn_graph written g policy t dec i) as [[[u|]]|] eqn:He; [|done|done]. intros [= _ <-].
    destruct (spawn_graph_prunes written g policy t dec) as [Hpf|Hx]; [|rewrite Hx in He; done].
    apply pruned_first in He as (i1 & Hp & Hw1 & Hf & He); [|done|done].
    apply (prune_finished_names i) in Hp as (_ & _ & _ & _ & Hs & _); [|done]. destruct Hok as (Hd & Hdg).
    apply spawn_graph_ran in He as (top & det & Hroot & Htree & Htop & _ & He); [|done].
    pose proof (check_tree_spec g top Htop) as Hct. rewrite Htree in Hct. destruct Hct as [Ht Hdet].
    assert (∀ c, c ∈ det → c ∈ ids (nodes g)) as Hdi.
    { intros c Hc. subst det. rewrite merge_sort_Permutation in Hc. by apply list_elem_of_filter in Hc as [_ ?]. }
    destruct He as [(at_ & run & _ & _ & He)|(_ & Hnew & He)].
    + exact (wf_respawn at_ g det top i1 _ _ Hw1 Hroot Htop Ht Hdi He).
    + assert (∀ c, c ∈ ids (nodes g) → c ∉ ids (nodes (scaffold i1))) as Hnews.
      { intros c (n & -> & Hn)%list_elem_of_fmap [? Hx]%by_id_Some. rewrite Hnew in Hx by done. done. }
      refine (wf_graft _ _ _ _ _ _ _ _ _ _ Hw1 _ Hdg _ _ He).
      * intros Hx. by apply Hd, Hs.
      * intros n Hn. apply Hnews. by apply list_elem_of_fmap_2.
      * intros c Hc. assert (c ∈ ids (nodes g)) as Hcg.
        { rewrite !elem_of_app, list_elem_of_singleton in Hc. destruct Hc as [Hc|[Hc| ->]]; [by apply (tree_closed _ _ Ht)|by apply Hdi|done]. }
        specialize (Hnews c Hcg). split_and!; [| |by intros ->]; intros Hx; apply Hnews, (scaffold_listed i1 _ Hw1); auto.
  - intros [= _ <-]. destruct Hw. by constructor.
  - destruct (halt t i) as [[[u|]]|] eqn:He; [|done|done]. intros [= _ <-]. by apply (wf_halt t i u).
Qed.

(** ** Every state it comes to *)
Inductive reachable : Interpreter → Prop :=
| reach_new r : reachable (new_interpreter r)
| reach_served i request h i' : reachable i → request_ok i request → serve request i = Some (Ok h, i') → reachable i'
| reach_pruned i u i' : reachable i → prune_finished i = Some (Ok u, i') → reachable i'
| reach_swept (s : S) i : reachable i → reachable (sweep_terminal_runs s i).

Lemma reachable_wf (i : Interpreter) : reachable i → wf i.
Proof.
  induction 1 as [r|i request h i' _ IH Hok Hs|i u i' _ IH Hp|s i _ IH].
  - split; cbn; try done.
    + by apply NoDup_singleton.
    + exists (mkNode r PARALLEL_FUNCTION_ID ∅ (Some [])), []. split_and!; [by apply (node_in_unique [mkNode r PARALLEL_FUNCTION_ID ∅ (Some [])] _ (NoDup_singleton r) (list_elem_of_here _ _))|done..].
    + constructor.
    + split; [by intros ?%not_elem_of_nil|done].
    + by intros run ?%not_elem_of_nil.
    + intros j n c Hj Hne _. case_decide as He; [by destruct Hne|done].
    + by intros run c ?%not_elem_of_nil.
  - by eapply wf_serve.
  - by eapply wf_prune_finished.
  - by apply wf_sweep.
Qed.
(** C23. Whatever is edited, spawned, halted and ended, and loaded so long as no load
    names a node of the scaffold's own, which the code does not check, in whatever
    order, requests refused left aside: the scaffold keeps its shape. Its root is
    the runner, which holds the main behavior first and then each run's decorator,
    the live runs in the order they were spawned; each decorator is over the run's
    root alone and publishes to the run's status key; and no other node holds the
    runner or a decorator. *)
Theorem scaffold_kept (i : Interpreter) : reachable i → wf i.
Proof. exact (reachable_wf i). Qed.
End Editing.
