(* ===== verification/Runs.v ===== *)
(** * What loads, spawns and halts come to

    Over [Scaffold]'s invariant: every operation returns; what is loaded is what is
    read back; a run spawned and halted leaves the graph as it was; and what a halt
    takes out. *)

From S2P Require Import Prelude Values Extern Keys State Store Effects Nodes Schema Graphs GraphLowering Cells Expressions Loading Sweeps Loaded Planning Planned GraphWalks Runtime Interpreter Scaffold.
Import graph.

Section Runs.
Context {S X : Type} `{DS : DataStore S} `{UC : UuidCrate} `{CB : !CallBridge S X} `{V5 : UuidV5} `{UT : UuidText} `{CE : CallEncoder} `{SV : SemVer}.
Local Abbreviation Slot := (@SlotHandle S _).
Variable arguments_order : Schema.Node Slot → list (Uuid * Expression Slot).
Variable nodes_order : gmap Uuid (Schema.Node Slot) → list (Schema.Node Slot).
Variable readers_order : gmap NodeParameterId NodeParameterId → list NodeParameterId.
Variable world : World S X.
Variable usize_max : Z.
Local Abbreviation accepts := (accepts arguments_order nodes_order readers_order world usize_max).
Local Abbreviation edit_lowering := (edit_lowering arguments_order nodes_order readers_order world usize_max).
Local Abbreviation edit := (edit arguments_order nodes_order readers_order world usize_max).
Local Abbreviation prune := (prune arguments_order nodes_order readers_order world usize_max).
Local Abbreviation prune_finished := (prune_finished arguments_order nodes_order readers_order world usize_max).
Local Abbreviation graft := (graft arguments_order nodes_order readers_order world usize_max).
Local Abbreviation respawn := (respawn arguments_order nodes_order readers_order world usize_max).
Local Abbreviation apply := (Interpreter.apply arguments_order nodes_order readers_order world usize_max).
Local Abbreviation load := (Interpreter.load arguments_order nodes_order readers_order world usize_max).
Local Abbreviation spawn := (spawn arguments_order nodes_order readers_order world usize_max).
Local Abbreviation spawn_graph := (spawn_graph arguments_order nodes_order readers_order world usize_max).
Local Abbreviation halt := (halt arguments_order nodes_order readers_order world usize_max).
Local Abbreviation serve := (serve arguments_order nodes_order readers_order world usize_max).

(** ** Every operation returns *)
Section Returns.
Hypothesis arguments_permuted : ∀ n, arguments_order n ≡ₚ map_to_list (n_arguments n).
Hypothesis nodes_permuted : ∀ m, nodes_order m ≡ₚ (map_to_list m).*2.
Hypothesis readers_permuted : ∀ m, readers_order m ≡ₚ (map_to_list m).*1.

Lemma builds_returns g : ∃ r, builds arguments_order nodes_order readers_order world g = Some r ∧
  ∀ tree, r = Ok tree → ∀ fs, is_Some (lower_detached usize_max arguments_order tree fs ∅).
Proof.
  unfold builds, build_behavior_tree. rewrite bind_run. unfold t_of. destruct (lower_graph g) as [[ns vars]|e]; [|by eexists].
  destruct (load_run (λ _ s, (None, s)) vars arguments_order nodes_order readers_order arguments_permuted nodes_permuted readers_permuted
              ns world) as (r & w' & Hl & _). rewrite Hl. exists r. split; [done|]. intros tree -> fs.
  destruct (lowered_tree usize_max (λ _ s, (None, s)) vars arguments_order nodes_order readers_order arguments_permuted nodes_permuted
              readers_permuted fs ∅ tree ns world w' Hl) as (att & r & _ & _ & -> & _). by eexists.
Qed.
Lemma accepts_returns i g b : runner i ∈ ids (nodes g) → is_Some (accepts i g b).
Proof.
  intros Hr. unfold Interpreter.accepts. destruct (check_acyclic_spec g (runner i) Hr) as (r & -> & _).
  destruct r as [u|e]; [|by eexists]. destruct (check_selections g ∅); [|by eexists].
  destruct (builds_returns g) as (r & -> & Hl). destruct r as [tree|e]; [|by eexists]. destruct b; [|by eexists].
  destruct (Hl tree eq_refl (functions i)) as [[] ->]; by eexists.
Qed.
Lemma edit_returns d b i : NoDup (ids (nodes (scaffold i))) → runner i ∈ edited_ids d (scaffold i) → is_Some (edit_lowering d b i).
Proof.
  intros Hd Hr. unfold Interpreter.edit_lowering, edit_of. pose proof (apply_edits_gen d (scaffold i) Hd) as He.
  destruct (Graphs.apply _ _) as [[[]|[]] g]; [|by eexists|done]. destruct He as (_ & Hids & _).
  destruct (accepts_returns i g b) as [[[]|] ->]; [by rewrite Hids|by eexists..].
Qed.
Lemma edits_runner d i : runner i ∈ ids (d_set d) → runner i ∈ edited_ids d (scaffold i).
Proof. intros H. apply add_ids_elem. by right. Qed.
Lemma inspect_returns {A} (m : T Interpreter BehaviorError A) f i : is_Some (m i) → is_Some (t_inspect_err m f i).
Proof. intros [[[]] Hm]; unfold t_inspect_err; rewrite Hm; by eexists. Qed.

Lemma prune_returns gone i : NoDup (ids (nodes (scaffold i))) → is_Some (prune gone i).
Proof.
  intros Hd. unfold Interpreter.prune. destruct gone as [|run gone]; [by eexists|]. t_unfold. unfold Datatypes.id, Interpreter.edit.
  match goal with |- context [edit_lowering ?d false i] => destruct (edit_returns d false i) as [[[[]|]] ->] end;
    [done|apply edits_runner; by left|by eexists..].
Qed.
Lemma pruned_returns {A} (m : T Interpreter BehaviorError A) i : wf i →
  (∀ i1, wf i1 → finished i1 = [] → is_Some (m i1)) → is_Some ((prune_finished ≫= λ _, m) i).
Proof.
  intros Hw Hm. rewrite bind_run. destruct (prune_finished i) as [[[u|e] i1]|] eqn:Hp.
  - apply Hm; [by eapply wf_prune_finished|]. by apply (prune_finished_names _ _ _ _ _ i) in Hp as (? & _).
  - by eexists.
  - revert Hp. unfold Interpreter.prune_finished. t_unfold. intros Hp.
    destruct (prune_returns (finished i) (with_runs (runs i) [] i)) as [? Hx]; [apply Hw|congruence].
Qed.
Lemma graft_returns module function top det fragment t dec i : wf i → is_Some (graft module function top det fragment t dec i).
Proof.
  intros Hw. unfold Interpreter.graft. t_unfold. set (j := with_runs _ _ i).
  match goal with |- context [edit_lowering ?d true] =>
    destruct (inspect_returns (edit_lowering d true) (λ i, with_runs (removelast (runs i)) (finished i) i) j) as [[[[]|]] ->] end;
    [|by eexists..].
  apply edit_returns; [apply Hw|]. apply edits_runner. cbn. rewrite !fmap_app, !elem_of_app. right. right. by left.
Qed.

Lemma respawn_returns at_ g det top i run : wf i → runs i !! at_ = Some run → root g = Some top → top ∈ ids (nodes g) → is_tree g top →
  is_Some (respawn at_ g det i).
Proof.
  intros Hw Hat Hroot Htop Ht. unfold Interpreter.respawn. t_unfold. unfold Datatypes.id. rewrite Hat.
  destruct (list_find _ (nodes g)) as [[]|]; [by eexists|]. destruct (list_find (λ n, id n ∈ _) (nodes g)) as [[]|]; [by eexists|].
  fold (own_part i run (root g)). destruct (is_default _); [by eexists|].
  destruct (edit_returns (diff (own_part i run (root g)) g) true i) as [[[[]|]] ->]; [apply Hw| |by eexists..].
  destruct (diff_touches (own_part i run (root g)) g top) as (_ & Hrm & _); [apply filter_ids_NoDup, Hw|apply Ht|done..|].
  apply add_ids_elem. left. apply list_elem_of_filter. split; [|apply (scaffold_listed i _ Hw); by left].
  intros Hc. apply Hrm in Hc as [(n & Hn & [[Hh _] _]%list_elem_of_filter)%list_elem_of_fmap _]. apply elem_of_difference in Hh as [Hh Hne].
  destruct (nodes_of_not_scaffold i run (id n)) as [Hx _]; [done| |done| |by apply Hx].
  - apply elem_of_app. left. by eapply list_elem_of_lookup_2.
  - intros He. by apply Hne, elem_of_singleton.
Qed.

(** C27. Every operation of the interpreter returns, whatever it is asked and in
    whatever order the hash maps are visited, on any scaffold in shape: none of its
    walks runs forever, and it indexes nothing that is not there. *)
Theorem operations_return (request : Request) (i : Interpreter) : wf i → is_Some (serve request i).
Proof.
  intros Hw. assert (∀ {A B} (m : T Interpreter BehaviorError A) (f : A → B), is_Some (m i) → is_Some ((x ← m; mret (f x)) i)) as Hret.
  { intros A B m f [[[a|e] k] Hm]; rewrite bind_run, Hm; by eexists. }
  destruct request as [d|g|call policy n t dec|written g policy t dec|t|t]; cbn [Scaffold.serve]; [| | | |by eexists|]; apply Hret; clear Hret.
  - unfold Interpreter.apply. apply pruned_returns; [done|]. intros i1 Hw1 _. t_unfold. unfold Datatypes.id.
    destruct (list_find _ _) as [[]|]; [by eexists|]. destruct (head _) as [[]|]; [by eexists|]. destruct (head _) as [[]|]; [by eexists|].
    match goal with |- context [t_inspect_err (edit ?d) ?f ?j] => destruct (inspect_returns (edit d) f j) as [[[[]|]] ->] end; [|by eexists..].
    apply edit_returns; [apply Hw1|]. apply edits_runner. cbn. rewrite fmap_app, elem_of_app. right. by left.
  - unfold Interpreter.load. apply pruned_returns; [done|]. intros i1 Hw1 _. t_unfold. unfold Datatypes.id.
    destruct (negb _); [by eexists|]. destruct (list_find _ _) as [[]|]; [by eexists|].
    unfold held_after. pose proof (apply_edits_gen (mkGraphDiff [] (nodes g) [] [] None) (scaffold i1) (wf_ids i1 Hw1)) as He.
    destruct (Graphs.apply (scaffold i1) (mkGraphDiff [] (nodes g) [] [] None)) as [[[]|[]] after]; [|by eexists|done].
    match goal with |- context [t_inspect_err (edit ?d) ?f ?j] => destruct (inspect_returns (edit d) f j) as [[[[]|]] ->] end; [|by eexists..].
    apply edit_returns; [apply Hw1|]. apply edits_runner. cbn. rewrite fmap_app, elem_of_app. right. by left.
  - unfold Interpreter.spawn. destruct (call_to_value call); [|by eexists]. apply pruned_returns; [done|]. intros i1 Hw1 _. by apply graft_returns.
  - unfold Interpreter.spawn_graph. destruct (negb _); [by eexists|]. destruct (root g) as [top|] eqn:Hroot; [|by eexists].
    destruct (node g top) as [n|] eqn:Hn; [|by eexists].
    assert (top ∈ ids (nodes g)) as Htop by (apply node_listed; by eexists). pose proof (check_tree_spec g top Htop) as Ht.
    destruct (check_tree g top) as [det|]; [|by eexists]. destruct Ht as [Ht _].
    destruct (list_find _ (nodes g)) as [[]|]; [by eexists|]. destruct (reads_outside _ _) as [[]|]; [by eexists|].
    destruct (builds_returns g) as (r & -> & _). destruct r; [|by eexists]. apply pruned_returns; [done|]. intros i1 Hw1 _.
    rewrite bind_run. unfold t_gets, Datatypes.id. destruct (list_find _ (runs i1)) as [[at_ run]|] eqn:Ef.
    + apply list_find_Some in Ef as (Hat & _). by apply (respawn_returns at_ g det top i1 run).
    + destruct (list_find _ (nodes g)) as [[]|]; [by eexists|]. by apply graft_returns.
  - unfold Interpreter.halt. t_unfold. unfold Datatypes.id. destruct (list_find _ (traces i)) as [[]|]; [by eexists|].
    destruct (list_find _ (runs i)) as [[at_ run]|]; [|by eexists].
    destruct (prune_returns [run] (with_runs (delete at_ (runs i)) (finished i) i)) as [[[[]|]] ->]; [apply Hw|by eexists..].
Qed.
End Returns.

(** ** What is loaded is read back *)
Lemma subtree_agrees (index index' : Index) from :
  (∀ j, j ∈ subtree index from → children_of index' j = children_of index j) → subtree index' from = subtree index from.
Proof.
  intros Hag. apply set_eq. intros j. rewrite !subtree_spec. split; revert j.
  - apply rtc_ind_r; [reflexivity|]. intros x y _ Hxy IH. eapply rtc_r; [exact IH|]. unfold child_of in *.
    rewrite <- Hag; [done|]. by apply subtree_spec.
  - apply rtc_ind_r; [reflexivity|]. intros x y Hx Hxy IH. eapply rtc_r; [exact IH|]. unfold child_of in *.
    rewrite Hag; [done|]. by apply subtree_spec.
Qed.
Lemma nodes_of_agrees (index index' : Index) run :
  (∀ j, j ∈ nodes_of index run → children_of index' j = children_of index j) → nodes_of index' run = nodes_of index run.
Proof.
  intros Hag. unfold nodes_of in *. rewrite (subtree_agrees index index'); [done|]. intros j Hj. apply Hag, elem_of_union. by left.
Qed.
Lemma children_by_id g j : NoDup (ids (nodes g)) → children_of (by_id g) j = default [] (node g j ≫= children).
Proof. intros Hd. unfold children_of. by rewrite by_id_lookup. Qed.
(** A diff keeps the children of a node it neither sets nor removes. *)
Lemma children_kept g g' d j : NoDup (ids (nodes g)) → Graphs.apply g d = (Ok tt, g') → j ∉ d_remove d → j ∉ ids (d_set d) →
  children_of (by_id g') j = children_of (by_id g) j.
Proof.
  intros Hd Hg Hr Hs. destruct (apply_nodes g d g' Hd Hg) as (Hd' & _ & Hn). rewrite !children_by_id, Hn by done.
  pose proof (edited_same d g j) as He. rewrite set_by_others in He by done. unfold Graphs.base in He.
  rewrite decide_False in He by (by rewrite elem_of_list_to_set). destruct (node g j) as [n|]; cbn in He.
  - destruct He as (n' & -> & _ & _ & Hc). cbn. by rewrite Hc.
  - by rewrite He.
Qed.
(** What is reached through a graph's own nodes is its own. *)
Lemma closed_reach (index : Index) (l : list Uuid) r j : r ∈ l → (∀ i c, i ∈ l → child_of index i c → c ∈ l) → j ∈ reach index [r] → j ∈ l.
Proof.
  intros Hr Hc (st & ->%list_elem_of_singleton & Hrt)%reach_spec. induction Hrt as [|x y z Hxy _ IH]; [done|]. by apply IH, (Hc x).
Qed.
Lemma elem_of_held i index j : j ∈ (⋃ (nodes_of index <$> all_runs i) : gset Uuid) ↔ ∃ run, run ∈ all_runs i ∧ j ∈ nodes_of index run.
Proof.
  rewrite elem_of_union_list. split.
  - intros (X' & (run & -> & Hr)%list_elem_of_fmap & Hj). by exists run.
  - intros (run & Hr & Hj). exists (nodes_of index run). split; [by apply list_elem_of_fmap_2|done].
Qed.
Lemma filter_ids (out : gset Uuid) (ns : list Node) : ids (filter (λ n, id n ∉ out) ns) = filter (λ c, c ∉ out) (ids ns).
Proof. induction ns as [|n ns IH]; [done|]. rewrite fmap_cons, !filter_cons. case_decide; by rewrite ?fmap_cons, IH. Qed.
(** A graph that names its own nodes only, and none a run holds. *)
Record apart_from_runs (i : Interpreter) (g : Graph) : Prop := {
  ap_children : ∀ c, c ∈ all_children (nodes g) → c ∈ ids (nodes g);
  ap_root : ∀ r, root g = Some r → r ∈ ids (nodes g);
  ap_runs : ∀ run c, run ∈ all_runs i → c ∈ ids (nodes g) → c ∉ nodes_of (by_id (scaffold i)) run;
}.

(** The graph after a load of it: what the runs hold, then what is loaded. *)
Lemma loaded_graph g i i' : wf i → finished i = [] → apart_from_runs i g → load g i = Some (Ok tt, i') →
  (∀ run, run ∈ all_runs i → nodes_of (by_id (scaffold i')) run = nodes_of (by_id (scaffold i)) run) ∧
  (∃ kept, ids (nodes (scaffold i')) = kept ++ ids (nodes g) ∧
     ∀ c, c ∈ kept → c = runner i ∨ ∃ run, run ∈ all_runs i ∧ c ∈ nodes_of (by_id (scaffold i)) run) ∧
  (∀ c n, node g c = Some n → node (scaffold i') c = Some n) ∧
  NoDup (ids (nodes (scaffold i'))) ∧ (∀ c, c ∈ ids (nodes g) → c ≠ runner i) ∧ NoDup (ids (nodes g)) ∧
  runner i' = runner i ∧ runs i' = runs i ∧ finished i' = [] ∧ main_root i' = root g ∧ revision i' = (revision i + 1) mod 2 ^ 64.
Proof.
  intros Hw Hf [Hch Hrt Hap] (held & g' & fresh & Hids & Hnm & Hh & Hg & _ & ->)%load_ran; [|done].
  set (remove := filter _ _) in *. set (j := with_main_root (root g) i) in *.
  assert (∀ c, c ∈ ids (nodes g) → c ≠ runner i) as Hrn.
  { intros c Hc ->. apply (Hnm _ Hc), scaffold_not_main; [done|by left]. }
  assert (held = ⋃ (nodes_of (by_id (scaffold i)) <$> all_runs i)) as Hheld.
  { unfold held_after in Hh. destruct (Graphs.apply (scaffold i) (mkGraphDiff [] (nodes g) [] [] None)) as [[[]|[]] after] eqn:Ha; [|done..].
    injection Hh as <-. f_equal. apply list_fmap_ext. intros k run Hk%list_elem_of_lookup_2. apply nodes_of_agrees.
    intros c Hc. apply (children_kept _ _ _ c (wf_ids i Hw) Ha); [by apply not_elem_of_nil|]. intros Hx. by apply (Hap run c). }
  assert (∀ run c, run ∈ all_runs i → c ∈ nodes_of (by_id (scaffold i)) run → c ≠ runner i) as Hrr.
  { intros run c Hr Hc. destruct (decide (c = decorator run)) as [->|Hne]; [|by apply (nodes_of_not_scaffold i run)].
    intros He. apply (wf_apart i Hw). rewrite <- He. by apply list_elem_of_fmap_2. }
  assert (∀ run c, run ∈ all_runs i → c ∈ nodes_of (by_id (scaffold i)) run → c ∉ remove ∧ c ∉ ids (nodes g ++ [runner_node j])) as Hkeep.
  { intros run c Hr Hc. split.
    - intros [[_ Hx] _]%list_elem_of_filter. apply Hx. subst held. apply elem_of_held. by exists run.
    - rewrite fmap_app. intros [Hx|Hx%list_elem_of_singleton]%elem_of_app; [by apply (Hap run c)|]. by apply (Hrr run c). }
  destruct (apply_nodes _ _ _ (wf_ids i Hw) Hg) as (Hnd & Hi & Hn). split_and!; try done.
  - intros run Hr. apply nodes_of_agrees. intros c Hc. destruct (Hkeep run c Hr Hc). by apply (children_kept _ _ _ c (wf_ids i Hw) Hg).
  - set (kept := filter (λ c, c ∉ remove) (ids (nodes (scaffold i)))).
    assert (∀ c, c ∈ kept → c = runner i ∨ c ∈ held) as Hk.
    { intros c [Hx Hc]%list_elem_of_filter. destruct (decide (c = runner i)); [by left|]. right.
      destruct (decide (c ∈ held)); [done|]. destruct Hx. by apply list_elem_of_filter. }
    exists kept. split.
    + change (ids (nodes g') = kept ++ ids (nodes g)). rewrite Hi. unfold edited_ids. cbn [d_remove d_set].
      fold kept. rewrite add_ids_fresh, fmap_app, filter_app.
      * rewrite filter_all, filter_none, app_nil_r; [done| |].
        -- intros c Hc Hx. apply list_elem_of_singleton in Hc. apply Hx. subst c. apply list_elem_of_filter.
           split; [by intros [[? _] _]%list_elem_of_filter|]. apply (scaffold_listed i _ Hw). by left.
        -- intros c Hc Hx. destruct (Hk c Hx) as [->|Hx']; [by apply (Hrn (runner i))|]. subst held. apply elem_of_held in Hx' as (run & Hr & Hx').
           by apply (Hap run c).
      * rewrite fmap_app. apply NoDup_app. split_and!; [done| |by apply NoDup_singleton]. intros c Hc Hx%list_elem_of_singleton. by apply (Hrn c).
    + intros c Hc. destruct (Hk c Hc) as [|Hx]; [by left|right]. subst held. by apply elem_of_held in Hx.
  - intros c n Hc. change (node g' c = Some n). rewrite Hn. unfold edited, unbound_by, bound_by. cbn [foldl d_unbind d_bind d_set].
    rewrite set_by_snoc, set_by_unique by done. fold (node g c). rewrite Hc. rewrite decide_False; [done|].
    intros He. apply (Hrn c); [apply node_listed; by exists n|done].
Qed.

(** C25. What is loaded is what is read back: with no ended run left to prune, a graph that names its own nodes only and
    none a run holds, once loaded, is the very graph a read answers, one revision
    on, and every live run keeps the nodes it holds. *)
Theorem load_then_read (g : Graph) (i i' : Interpreter) :
  wf i → finished i = [] → apart_from_runs i g → load g i = Some (Ok tt, i') →
  read i' = mkLoadedBehavior ((revision i + 1) mod 2 ^ 64) g ∧ runs i' = runs i ∧
  ∀ run, run ∈ runs i → nodes_of (by_id (scaffold i')) run = nodes_of (by_id (scaffold i)) run.
Proof.
  intros Hw Hf Ha Hl. destruct (loaded_graph g i i' Hw Hf Ha Hl) as (Hno & (kept & Hids & Hk) & Hn & Hnd & Hrn & Hndg & Hr' & Hruns & Hfin & Hmr & Hrev).
  assert (all_runs i' = all_runs i) as Hall by (unfold all_runs; by rewrite Hruns, Hfin, Hf).
  split; [|split; [done|]]; [|intros run Hr; apply Hno, elem_of_app; by left]. unfold read. rewrite Hrev. f_equal.
  assert (∀ c, c ∈ not_main i' ↔ c = runner i ∨ (∃ run, run ∈ all_runs i ∧ c ∈ nodes_of (by_id (scaffold i)) run)) as Hnm.
  { intros c. unfold not_main, not_main_beside. rewrite app_nil_r, elem_of_union, elem_of_singleton, Hr', Hmr.
    assert (∀ c, c ∈ (⋃ (nodes_of (by_id (scaffold i')) <$> all_runs i') : gset Uuid) ↔ ∃ run, run ∈ all_runs i ∧ c ∈ nodes_of (by_id (scaffold i)) run) as Hh.
    { intros x. rewrite elem_of_held, Hall. split; intros (run & Hr & Hx); exists run; (split; [done|]); by rewrite Hno in *. }
    destruct (root g) as [r|] eqn:Er; [|by rewrite Hh]. rewrite elem_of_difference, Hh.
    assert ((∃ run, run ∈ all_runs i ∧ c ∈ nodes_of (by_id (scaffold i)) run) → c ∉ reach (by_id (scaffold i')) [r]) as Hx; [|tauto].
    intros (run & Hr & Hc) Hre. apply (ap_runs i g Ha run c Hr); [|done]. refine (closed_reach _ _ r c _ _ Hre); [by apply (ap_root i g Ha)|].
    intros x y Hx Hxy. apply (ap_children i g Ha). unfold child_of in Hxy. rewrite children_by_id in Hxy by done.
    apply node_in_elem in Hx as (n & Hx & _). rewrite (Hn x n Hx) in Hxy. apply node_in_Some in Hx as [Hx _].
    apply list_elem_of_bind. exists n. by split. }
  unfold main_graph, main_graph_beside. fold (not_main i'). rewrite Hmr. destruct g as [rg ng]. cbn [root nodes] in *. f_equal.
  assert (∀ c, c ∈ ids ng → c ∉ not_main i') as Hgm.
  { intros c Hc. rewrite Hnm. intros [|(run & Hr & Hx)]; [by apply (Hrn c)|]. by apply (ap_runs i _ Ha run c). }
  apply nodes_ext.
  - by apply filter_ids_NoDup.
  - rewrite filter_ids, Hids, filter_app, filter_none, filter_all; [done|exact Hgm|]. intros c Hc Hx. by apply Hx, Hnm, Hk.
  - intros c. rewrite node_in_filter by done. change (node_in (nodes (scaffold i')) c) with (node (scaffold i') c).
    destruct (node_in ng c) as [n|] eqn:Ec.
    + rewrite (Hn c n Ec). rewrite decide_True; [done|]. apply node_in_Some in Ec as [Hin Hidn]. rewrite Hidn. apply Hgm. rewrite <- Hidn. by apply list_elem_of_fmap_2.
    + destruct (node (scaffold i') c) as [n|] eqn:En; [|done]. rewrite decide_False; [done|]. intros Hx. apply node_in_None in Ec.
      apply node_in_Some in En as [Hin Hid]. apply (list_elem_of_fmap_2 id) in Hin. rewrite Hids, Hid in Hin. rewrite Hid in Hx.
      apply elem_of_app in Hin as [Hc|]; [|done]. by apply Hx, Hnm, Hk.
Qed.

(** ** A run spawned and halted *)

(** Where a new run is grafted, what was there is as it was. *)
Lemma children_apart i j c : wf i → c ∈ children_of (by_id (scaffold i)) j → c ∈ named i.
Proof.
  intros Hw Hc. rewrite children_by_id in Hc by apply Hw. destruct (node (scaffold i) j) as [n|] eqn:En; [|by apply not_elem_of_nil in Hc].
  unfold named. rewrite !elem_of_app. right. left. by apply (node_named i j n).
Qed.
Lemma reached_named i from j : wf i → from ∈ named i → rtc (child_of (by_id (scaffold i))) from j → j ∈ named i.
Proof. intros Hw Hf Hr. induction Hr as [|x y z Hxy _ IH]; [done|]. by apply IH, (children_apart i x). Qed.
Lemma nodes_of_named i run j : wf i → run ∈ all_runs i → j ∈ nodes_of (by_id (scaffold i)) run → j ∈ named i.
Proof.
  intros Hw Hr Hj. unfold nodes_of in Hj. apply elem_of_union in Hj as [Hj%subtree_spec|Hj%elem_of_list_to_set].
  - apply (reached_named i (decorator run)); [done| |done]. apply elem_of_app. left. apply (scaffold_listed i _ Hw). right. by apply list_elem_of_fmap_2.
  - unfold named. rewrite !elem_of_app. right. right. left. apply list_elem_of_bind. by exists run.
Qed.

Section Grafted.
Variables (i j : Interpreter) (ns : list Node) (dec_node : Node) (g1 : Graph).
Hypothesis Hw : wf i.
Hypothesis Hnew : ∀ c, c ∈ ids (ns ++ [dec_node]) → c ∉ named i.
Hypothesis Hids : NoDup (ids (ns ++ [dec_node])).
Hypothesis Hrunner : runner j = runner i.
Hypothesis Hg : Graphs.apply (scaffold i) (mkGraphDiff [] ((ns ++ [dec_node]) ++ [runner_node j]) [] [] None) = (Ok tt, g1).
Local Abbreviation new := (ids (ns ++ [dec_node])).

Lemma new_not_listed c : c ∈ new → c ∉ ids (nodes (scaffold i)).
Proof. intros Hc Hx. apply (Hnew c Hc). unfold named. apply elem_of_app. by left. Qed.
Lemma grafted_ids : NoDup (ids (nodes g1)) ∧ ids (nodes g1) = ids (nodes (scaffold i)) ++ new.
Proof.
  destruct (apply_nodes _ _ _ (wf_ids i Hw) Hg) as (Hnd & Hi & _). split; [done|]. rewrite Hi. unfold edited_ids. cbn [d_remove d_set].
  rewrite (filter_all (λ c, c ∉ [])) by (intros; apply not_elem_of_nil).
  assert (runner i ∈ ids (nodes (scaffold i))) as Hr by (apply (scaffold_listed i _ Hw); by left).
  rewrite fmap_app, add_ids_fresh, filter_app, filter_all, filter_none, app_nil_r; [done| | |].
  - intros c Hc%list_elem_of_singleton Hx. apply Hx. subst c. cbn. by rewrite Hrunner.
  - intros c. apply new_not_listed.
  - apply NoDup_app. split_and!; [done| |by apply NoDup_singleton]. intros c Hc Hx%list_elem_of_singleton. apply (new_not_listed c Hc).
    subst c. cbn. by rewrite Hrunner.
Qed.
Lemma grafted_node c : node g1 c = if decide (c = runner i) then Some (runner_node j)
  else match node_in (ns ++ [dec_node]) c with Some n => Some n | None => node (scaffold i) c end.
Proof.
  destruct (apply_nodes _ _ _ (wf_ids i Hw) Hg) as (_ & _ & Hn). rewrite Hn. unfold edited, unbound_by, bound_by. cbn [foldl d_unbind d_bind d_set d_remove].
  rewrite set_by_snoc. cbn [runner_node id]. rewrite Hrunner. destruct (decide (runner i = c)) as [<-|Hne]; [by rewrite decide_True|].
  rewrite (decide_False (P := c = runner i)) by congruence. rewrite set_by_unique by done. destruct (node_in _ c); [done|].
  unfold Graphs.base. rewrite decide_False by (cbn; set_solver). destruct (node (scaffold i) c) as [n|]; [|done]. cbn. by rewrite drop_readers_none.
Qed.
Lemma grafted_old c : c ∉ new → c ≠ runner i → node g1 c = node (scaffold i) c.
Proof. intros Hc Hr. rewrite grafted_node, decide_False by done. apply node_in_None in Hc. by rewrite Hc. Qed.
Lemma grafted_new n : n ∈ ns ++ [dec_node] → node g1 (id n) = Some n.
Proof.
  intros Hn. rewrite grafted_node, decide_False.
  - by rewrite (node_in_unique _ n).
  - intros Hr. apply (new_not_listed (id n)); [by apply list_elem_of_fmap_2|]. rewrite Hr. apply (scaffold_listed i _ Hw). by left.
Qed.
Lemma grafted_children c : c ∈ named i → c ≠ runner i → children_of (by_id g1) c = children_of (by_id (scaffold i)) c.
Proof.
  intros Hc Hr. rewrite !children_by_id; [|apply Hw|apply grafted_ids]. rewrite grafted_old; [done| |done]. intros Hx. by apply (Hnew c).
Qed.
Lemma grafted_nodes_of run : run ∈ all_runs i → nodes_of (by_id g1) run = nodes_of (by_id (scaffold i)) run.
Proof.
  intros Hr. apply nodes_of_agrees. intros c Hc. apply grafted_children; [by apply (nodes_of_named i run)|].
  destruct (decide (c = decorator run)) as [->|Hne]; [|by apply (nodes_of_not_scaffold i run)].
  intros He. apply (wf_apart i Hw). rewrite <- He. by apply list_elem_of_fmap_2.
Qed.
Lemma grafted_main r : main_root i = Some r → reach (by_id g1) [r] = reach (by_id (scaffold i)) [r].
Proof.
  intros Hr. apply subtree_agrees. intros c Hc%subtree_spec. destruct (proj2 (wf_apart i Hw) r Hr).
  apply grafted_children; [|by apply (scaffold_not_reached i r c)]. apply (reached_named i r); [done| |done].
  unfold named. rewrite Hr, !elem_of_app. right. right. right. by left.
Qed.
(** What was there never leads to what is new. *)
Lemma grafted_apart from c : from ∈ named i → from ≠ runner i → rtc (child_of (by_id g1)) from c → c ∉ new.
Proof.
  intros Hf Hr Hrt Hc. apply (Hnew c Hc), (reached_named i from); [done..|]. clear Hc.
  induction Hrt as [|x y z Hxy _ IH]; [reflexivity|]. unfold child_of in Hxy. rewrite grafted_children in Hxy by done.
  eapply rtc_l; [exact Hxy|]. apply IH; [by apply (children_apart i x)|]. rewrite children_by_id in Hxy by apply Hw.
  destruct (node (scaffold i) x) as [n|] eqn:En; [|by apply not_elem_of_nil in Hxy]. by apply (wf_held i Hw x n y).
Qed.
End Grafted.

Lemma graph_ext (a b : Graph) : root a = root b → nodes a = nodes b → a = b.
Proof. destruct a, b. cbn. by intros -> ->. Qed.

Section SpawnHalt.
Variables (i : Interpreter) (g : Graph) (top dec : Uuid) (h : TaskHandle) (det : list Uuid) (g1 : Graph) (fresh : gset Uuid).
Let run : Run := mkRun h dec det.
Let dec_node : Node := decorator_node dec top (th_status h).
Let j : Interpreter := with_runs (runs i ++ [run]) (finished i) i.
Let k : Interpreter := with_runs (runs i) [] (with_scaffold g1 fresh j).
Hypothesis Hw : wf i.
Hypothesis Hf : finished i = [].
Hypothesis Hnew : ∀ c, c ∈ ids (nodes g ++ [dec_node]) → c ∉ named i.
Hypothesis Hdec : dec ∉ ids (nodes g).
Hypothesis Htop : top ∈ ids (nodes g).
Hypothesis Ht : is_tree g top.
Hypothesis Hdet : det = merge_sort Z.le (loose_ids g top).
Hypothesis Hg : Graphs.apply (scaffold i) (mkGraphDiff [] ((nodes g ++ [dec_node]) ++ [runner_node j]) [] [] None) = (Ok tt, g1).
Local Abbreviation new := (ids (nodes g ++ [dec_node])).

Lemma new_ids : NoDup new.
Proof.
  rewrite fmap_app. apply NoDup_app. split_and!; [apply Ht| |by apply NoDup_singleton].
  by intros c Hc ->%list_elem_of_singleton.
Qed.
Lemma new_elem c : c ∈ new ↔ c ∈ ids (nodes g) ∨ c = dec.
Proof.
  rewrite fmap_app, elem_of_app. change (ids [dec_node]) with [dec]. by rewrite list_elem_of_singleton.
Qed.
Lemma new_closed x y : x ∈ new → child_of (by_id g1) x y → y ∈ ids (nodes g).
Proof.
  intros (n & -> & Hn)%list_elem_of_fmap Hy. destruct (grafted_ids i j _ _ g1 Hw Hnew new_ids eq_refl Hg) as [Hd _].
  unfold child_of in Hy. rewrite children_by_id, (grafted_new i j _ _ g1 Hw Hnew new_ids eq_refl Hg n Hn) in Hy by done. cbn in Hy.
  apply elem_of_app in Hn as [Hn|Hn%list_elem_of_singleton].
  - apply (tree_closed _ _ Ht), list_elem_of_bind. by exists n.
  - subst n. apply list_elem_of_singleton in Hy. by subst y.
Qed.
Lemma det_elem c : c ∈ det ↔ c ∈ loose_ids g top.
Proof. rewrite Hdet. by rewrite merge_sort_Permutation. Qed.
Lemma spawned_leaving : leaving_of (by_id g1) [run] = list_to_set new.
Proof.
  destruct (grafted_ids i j _ _ g1 Hw Hnew new_ids eq_refl Hg) as [Hd _].
  apply set_eq. intros c. unfold leaving_of. rewrite elem_of_union, !elem_of_list_to_set. cbn [fmap list_fmap]. fold (subtree (by_id g1) dec).
  cbn [mbind list_bind]. rewrite app_nil_r. change (detached run) with det. change (decorator run) with dec. fold (subtree (by_id g1) dec).
  rewrite subtree_spec, det_elem. split.
  - intros [Hr|[_ Hc]%list_elem_of_filter]; [|apply new_elem; by left]. apply rtc_inv_r in Hr as [<-|(x & Hx & Hxc)]; [apply new_elem; by right|].
    assert (x ∈ new) as Hxn; [|apply new_elem; left; by apply (new_closed x)]. revert x Hx Hxc. clear - Ht Hg Hw Hnew Htop Hdec.
    intros x Hx _. revert x Hx. apply rtc_ind_r; [apply new_elem; by right|]. intros x y _ Hxy IH. apply new_elem. left. by apply (new_closed x).
  - intros [Hc| ->]%new_elem; [|left; reflexivity]. pose proof Hc as (n & -> & Hn)%list_elem_of_fmap.
    assert (∀ x, rtc (child_of (by_id g)) top x → rtc (child_of (by_id g1)) dec x) as Hin.
    { apply rtc_ind_r.
      - apply rtc_once. unfold child_of. rewrite children_by_id by done.
        assert (node g1 dec = Some dec_node) as ->; [|by left].
        apply (grafted_new i j _ _ g1 Hw Hnew new_ids eq_refl Hg dec_node). apply elem_of_app. right. by left.
      - intros x y _ Hxy IH. eapply rtc_r; [exact IH|]. unfold child_of in *. rewrite children_by_id in * by (done || apply Ht).
        destruct (node g x) as [m|] eqn:Em; [|by apply not_elem_of_nil in Hxy]. apply node_in_Some in Em as [Hm <-].
        rewrite (grafted_new i j _ _ g1 Hw Hnew new_ids eq_refl Hg m); [done|]. apply elem_of_app. by left. }
    destruct (tree_under _ _ Ht n Hn) as [Hr|[Hx _]]; [left; by apply Hin|]. destruct (decide (id n = top)) as [->|Hne]; [left; by apply Hin|].
    right. apply list_elem_of_filter. done.
Qed.
Lemma spawned_staying c : c ∈ held_outside k (list_to_set new) → c ∉ new.
Proof.
  unfold held_outside. change (scaffold k) with g1. change (runner k) with (runner i). change (main_root k) with (main_root i).
  destruct (grafted_ids i j _ _ g1 Hw Hnew new_ids eq_refl Hg) as [_ Hi]. intros (st & Hst & Hr)%reach_spec.
  assert (st ∈ named i ∧ st ≠ runner i) as [H1 H2].
  { apply elem_of_app in Hst as [[[Hx Hl] Hst]%list_elem_of_filter|Hst].
    - rewrite Hi in Hst. rewrite elem_of_list_to_set in Hl. apply elem_of_app in Hst as [Hst|Hst]; [|done]. split; [|done].
      unfold named. apply elem_of_app. by left.
    - destruct (main_root i) as [r|] eqn:Er; [|by apply not_elem_of_nil in Hst]. apply list_elem_of_singleton in Hst. subst st.
      split; [|by apply (wf_apart i Hw)]. unfold named. rewrite Er, !elem_of_app. right. right. right. by left. }
  by apply (grafted_apart i j _ _ g1 Hw Hnew new_ids eq_refl Hg st).
Qed.

(** The main behavior is the same beside the run. *)
Lemma spawned_main : main_graph_beside k [run] = main_graph i.
Proof.
  destruct (grafted_ids i j _ _ g1 Hw Hnew new_ids eq_refl Hg) as [Hd Hi].
  assert (∀ c, c ∈ not_main_beside k [run] ↔ c ∈ not_main i ∨ c ∈ new) as Hnm.
  { intros c. unfold not_main, not_main_beside. change (scaffold k) with g1. change (runner k) with (runner i). change (main_root k) with (main_root i).
    rewrite app_nil_r, !elem_of_union, !elem_of_singleton. change (all_runs k) with (runs i ++ []). rewrite app_nil_r.
    assert (all_runs i = runs i) as Hall by (unfold all_runs; by rewrite Hf, app_nil_r).
    assert (∀ c, c ∈ nodes_of (by_id g1) run ↔ c ∈ new) as Hrun.
    { intros x. pose proof spawned_leaving as Hl. unfold leaving_of in Hl. cbn [fmap list_fmap mbind list_bind] in Hl. rewrite app_nil_r in Hl.
      unfold nodes_of, subtree. by rewrite Hl, elem_of_list_to_set. }
    assert (∀ c, c ∈ (⋃ (nodes_of (by_id g1) <$> runs i ++ [run]) : gset Uuid) ↔
      c ∈ (⋃ (nodes_of (by_id (scaffold i)) <$> all_runs i) : gset Uuid) ∨ c ∈ new) as Hheld.
    { intros x. rewrite elem_of_held, elem_of_union_list. split.
      - intros (Y & (r & -> & Hr)%list_elem_of_fmap & Hx). apply elem_of_app in Hr as [Hr|Hr%list_elem_of_singleton].
        + left. exists r. rewrite Hall. split; [done|]. rewrite (grafted_nodes_of i j _ _ g1 Hw Hnew new_ids eq_refl Hg) in Hx; [done|by rewrite Hall].
        + right. subst r. by apply Hrun.
      - intros [(r & Hr & Hx)|Hx].
        + exists (nodes_of (by_id g1) r). split; [apply list_elem_of_fmap_2, elem_of_app; left; by rewrite <- Hall|].
          by rewrite (grafted_nodes_of i j _ _ g1 Hw Hnew new_ids eq_refl Hg).
        + exists (nodes_of (by_id g1) run). split; [apply list_elem_of_fmap_2, elem_of_app; right; by left|by apply Hrun]. }
    destruct (main_root i) as [r|] eqn:Er; [|rewrite Hheld; tauto]. rewrite !elem_of_difference, Hheld.
    rewrite (grafted_main i j _ _ g1 Hw Hnew new_ids eq_refl Hg r Er).
    assert (c ∈ new → c ∉ reach (by_id (scaffold i)) [r]) as Hx; [|tauto].
    intros Hc Hr%subtree_spec. apply (Hnew c Hc), (reached_named i r); [done| |done]. unfold named. rewrite Er, !elem_of_app. right. right. right. by left. }
  unfold main_graph, main_graph_beside. fold (not_main i). f_equal. change (scaffold k) with g1.
  apply nodes_ext.
  - by apply filter_ids_NoDup.
  - rewrite !filter_ids, Hi, filter_app, (filter_none _ new), app_nil_r.
    + apply filter_iff_in. intros c Hc. rewrite Hnm. split; [tauto|]. intros Hx [|Hn]; [done|]. apply (Hnew c Hn), elem_of_app. by left.
    + intros c Hc Hx. apply Hx, Hnm. by right.
  - intros c. rewrite !node_in_filter by (done || apply Hw). change (node_in (nodes g1) c) with (node g1 c). change (node_in (nodes (scaffold i)) c) with (node (scaffold i) c).
    destruct (decide (c ∈ new)) as [Hc|Hc].
    + assert (node (scaffold i) c = None) as ->.
      { apply node_in_None. intros Hx. apply (Hnew c Hc), elem_of_app. by left. }
      destruct (node g1 c) as [n|] eqn:En; [|done]. apply node_in_Some in En as [_ <-]. rewrite decide_False; [done|]. intros Hx. apply Hx, Hnm. by right.
    + destruct (decide (c = runner i)) as [->|Hr].
      * assert (runner i ∈ not_main i) as Hx by (apply scaffold_not_main; auto).
        destruct (node g1 (runner i)) as [n|] eqn:E1, (node (scaffold i) (runner i)) as [m|] eqn:E2; try done;
          rewrite ?(proj2 (node_in_Some _ _ _ E1)), ?(proj2 (node_in_Some _ _ _ E2)), ?decide_False; try done;
          intros Hy; apply Hy; rewrite ?Hnm; auto.
      * rewrite (grafted_old i j _ _ g1 Hw Hnew new_ids eq_refl Hg c Hc Hr). destruct (node (scaffold i) c) as [n|] eqn:En; [|done].
        apply node_in_Some in En as [_ <-]. repeat case_decide; try done; exfalso; rewrite Hnm in *; tauto.
Qed.

(** Taking the new nodes out gives back the graph, where it read none of them. *)
Hypothesis Hunread : ∀ n p source port, n ∈ nodes (scaffold i) → bind n !! p = Some source → source_port source = Some port → port_node port ∉ new.
Hypothesis Hset : node (scaffold i) (runner i) = Some (runner_node i).
Let taken : list Uuid := elements ((list_to_set new : gset Uuid) ∖ held_outside k (list_to_set new)).
Lemma taken_elem c : c ∈ taken ↔ c ∈ new.
Proof.
  unfold taken. rewrite elem_of_elements, elem_of_difference, elem_of_list_to_set. split; [by intros [? _]|]. intros Hc.
  split; [done|]. intros Hs. by apply (spawned_staying c).
Qed.
Lemma runner_node_k : runner_node k = runner_node i.
Proof. unfold runner_node, k. cbn. by rewrite Hf. Qed.
Lemma unspawned : Graphs.apply g1 (mkGraphDiff taken [runner_node k] [] [] None) = (Ok tt, scaffold i).
Proof.
  destruct (grafted_ids i j _ _ g1 Hw Hnew new_ids eq_refl Hg) as [Hd Hi].
  set (d := mkGraphDiff taken [runner_node k] [] [] None).
  destruct (apply_ok d g1 (List.Forall_nil _)) as (ns & -> & Hids2 & Hn2). f_equal. specialize (Hn2 Hd).
  assert (root (remove_nodes (list_to_set (d_remove d)) g1) = root (scaffold i)) as Hroot.
  { pose proof (apply_edits_gen (mkGraphDiff [] ((nodes g ++ [dec_node]) ++ [runner_node j]) [] [] None) _ (wf_ids i Hw)) as He.
    rewrite Hg in He. destruct He as (_ & _ & _ & _ & Hr). rewrite (wf_root i Hw) in Hr. cbn [d_root d_remove mbind option_bind] in Hr.
    rewrite decide_False in Hr by apply not_elem_of_nil. unfold remove_nodes. rewrite (wf_root i Hw). case_bool_decide; cbn; [done|]. rewrite Hr.
    rewrite bool_decide_false; [done|]. rewrite elem_of_list_to_set, taken_elem. intros Hx. apply (Hnew _ Hx), elem_of_app. left.
    apply (scaffold_listed i _ Hw). by left. }
  assert (∀ c, c ∈ ids (nodes (scaffold i)) → c ∉ new) as Hold by (intros c Hc Hx; apply (Hnew c Hx), elem_of_app; by left).
  assert (ids ns = ids (nodes (scaffold i))) as Hns.
  { rewrite Hids2. unfold edited_ids. cbn [d d_remove d_set]. rewrite Hi, filter_app, filter_all, filter_none, app_nil_r.
    - rewrite add_ids_fresh by (by apply NoDup_singleton). rewrite filter_none, app_nil_r; [done|]. intros c Hc%list_elem_of_singleton Hx. apply Hx.
      subst c. apply (scaffold_listed i _ Hw). by left.
    - intros c Hc Hx. by apply Hx, taken_elem.
    - intros c Hc Hx%taken_elem. by apply (Hold c). }
  apply graph_ext; cbn [root nodes d_root d]; [done|]. apply nodes_ext; [rewrite Hns; apply Hw|done|]. intros c. rewrite Hn2.
  change (node_in (nodes (scaffold i)) c) with (node (scaffold i) c).
  unfold edited, unbound_by, bound_by. cbn [foldl d d_unbind d_bind d_set d_remove set_by]. rewrite runner_node_k. cbn [runner_node id].
  destruct (decide (runner i = c)) as [<-|Hne]; [by rewrite Hset|]. unfold Graphs.base.
  destruct (decide (c ∈ new)) as [Hc|Hc].
  - rewrite decide_True by (by rewrite elem_of_list_to_set, taken_elem). symmetry. apply node_in_None. intros Hx. by apply (Hold c).
  - rewrite decide_False by (by rewrite elem_of_list_to_set, taken_elem).
    rewrite (grafted_old i j _ _ g1 Hw Hnew new_ids eq_refl Hg c Hc) by done. destruct (node (scaffold i) c) as [n|] eqn:En; [|done].
    cbn. f_equal. apply node_in_Some in En as [Hn _]. destruct n as [ni nf nb nc]. unfold drop_readers, map_bind. cbn. f_equal.
    apply map_filter_id. intros p source Hp. unfold reads_removed. cbn. destruct (source_port source) as [port|] eqn:Ep; [|done].
    apply bool_decide_eq_false. rewrite elem_of_list_to_set, taken_elem. by apply (Hunread (mkNode ni nf nb nc) p source port).
Qed.

End SpawnHalt.

Lemma list_eqb_self {A} (f : A → A → bool) l : (∀ x, x ∈ l → f x x = true) → list_eqb f l l = true.
Proof. intros H. induction l as [|x l IH]; [done|]. cbn. rewrite H by by left. apply IH. intros y Hy. apply H. by right. Qed.
(** A graph is equal to itself, as [PartialEq] has it, where no bound value is a NaN. *)
Definition no_nan (g : Graph) : Prop := Forall (λ n, map_Forall (λ _ s, source_eqb s s = true) (bind n)) (nodes g).
Lemma graph_eqb_refl g : no_nan g → graph_eqb g g = true.
Proof.
  intros Hn. unfold graph_eqb. rewrite bool_decide_true by done. apply list_eqb_self. intros n Hin. unfold node_eqb.
  rewrite !Z.eqb_refl, (bool_decide_true (children n = children n)), andb_true_r by done. apply list_eqb_self.
  intros [p source] Hp%bt_iter_elem. cbn. rewrite Z.eqb_refl. cbn. unfold no_nan in Hn. rewrite Forall_forall in Hn. exact (Hn n Hin p source Hp).
Qed.
Lemma edit_ok d b i g : Graphs.apply (scaffold i) d = (Ok tt, g) → accepts i g b = Some (Ok tt) →
  ∃ fresh, edit_lowering d b i = Some (Ok tt, with_scaffold g fresh i).
Proof. intros Hg Ha. unfold Interpreter.edit_lowering, edit_of. rewrite Hg, Ha. by eexists. Qed.

(** An interpreter with no ended run to prune, whose graph stands as it was last set
    and would be accepted again. *)
Record settled (i : Interpreter) : Prop := {
  st_wf : wf i;
  st_finished : finished i = [];
  st_runner : node (scaffold i) (runner i) = Some (runner_node i);
  st_accepted : accepts i (scaffold i) false = Some (Ok tt);
  st_no_nan : no_nan (main_graph i);
}.
(** A graph, a task and a decorator the interpreter knows nothing of. *)
Record unknown (i : Interpreter) (g : Graph) (task dec : Uuid) : Prop := {
  un_ids : ∀ c, c ∈ ids (nodes g) ∨ c = dec → c ∉ named i;
  un_decorator : dec ∉ ids (nodes g);
  un_read : ∀ n p source port, n ∈ nodes (scaffold i) → bind n !! p = Some source → source_port source = Some port →
    port_node port ∉ ids (nodes g) ∧ port_node port ≠ dec;
  un_trace : ∀ h, h ∈ traces i → th_id h ≠ task;
  un_run : ∀ run, run ∈ runs i → th_id (handle run) ≠ task;
}.

(** C24. A run leaves nothing behind: in an interpreter with no ended run left to
    prune, whose graph would be accepted again as it stands and whose main behavior
    holds no NaN, a graph the device knows nothing of, spawned and then halted,
    leaves the whole scaffold as it was, with the same runs, the same main behavior
    to read at the same revision, and its status key to be written at the next tick. *)
Theorem spawn_then_halt written (g : Graph) policy (task dec : Uuid) (i i1 : Interpreter) (h : TaskHandle) :
  settled i → unknown i g task dec → spawn_graph written g policy task dec i = Some (Ok h, i1) →
  ∃ i2, halt (th_id h) i1 = Some (Ok tt, i2) ∧ scaffold i2 = scaffold i ∧ runs i2 = runs i ∧ read i2 = read i ∧
    halted i2 = halted i ++ [th_status h].
Proof.
  intros [Hw Hf Hset Hacc Hnan] [Hids Hdec Hread Htr Hrun] Hs.
  apply spawn_graph_ran in Hs as (top & det & Hroot & Htree & Htop & _ & Hs); [|done].
  destruct Hs as [(at_ & run & Hat & Hroot' & _)|(_ & _ & Hs)].
  { exfalso. apply (Hids top); [by left|]. apply (children_apart i (decorator run)); [done|]. unfold root_of in Hroot'.
    apply bind_Some in Hroot' as (n & Hn & Hroot'). apply bind_Some in Hroot' as (cs & Hcs & Hroot'). unfold children_of. rewrite Hn. cbn. rewrite Hcs.
    destruct cs; [done|]. injection Hroot' as ->. by left. }
  pose proof (check_tree_spec g top Htop) as Ht. rewrite Htree in Ht. destruct Ht as [Ht Hdet].
  apply graft_ran in Hs as (Hh & g1 & fresh & Hg & _ & ->). rewrite app_assoc in Hg.
  assert (th_id h = task) as -> by (by rewrite Hh). set (run := mkRun h dec det) in *.
  set (j := with_runs (runs i ++ [run]) (finished i) i) in *.
  assert (∀ c, c ∈ ids (nodes g ++ [decorator_node dec top (th_status h)]) → c ∉ named i) as Hnew.
  { intros c Hc. apply Hids. rewrite fmap_app, elem_of_app in Hc. destruct Hc as [|Hc%list_elem_of_singleton]; [by left|by right]. }
  unfold Interpreter.halt. t_unfold. unfold Datatypes.id.
  assert (list_find (λ x, th_id x = task) (traces (with_scaffold g1 fresh j)) = None) as -> by (apply list_find_None, Forall_forall; exact Htr).
  assert (list_find (λ run, th_id (handle run) = task) (runs (with_scaffold g1 fresh j)) = Some (length (runs i), run)) as ->.
  { apply list_find_Some. cbn. split_and!; [by rewrite lookup_app_r, Nat.sub_diag by done|by rewrite Hh|].
    intros x y Hx Hlt. rewrite lookup_app_l in Hx by done. apply Hrun. by eapply list_elem_of_lookup_2. }
  set (k := with_runs (runs i) [] (with_scaffold g1 fresh j)).
  assert (with_runs (delete (length (runs i)) (runs (with_scaffold g1 fresh j))) (finished (with_scaffold g1 fresh j)) (with_scaffold g1 fresh j) = k) as ->.
  { unfold k. cbn. rewrite Hf. f_equal. rewrite delete_middle. by rewrite app_nil_r. }
  unfold Interpreter.prune. t_unfold. unfold Datatypes.id, Interpreter.edit. change (scaffold k) with g1.
  pose proof (spawned_leaving i g top dec h det g1 Hw Hnew Hdec Htop Ht Hdet Hg) as Hl. fold run in Hl. rewrite Hl.
  assert (∀ n p source port, n ∈ nodes (scaffold i) → bind n !! p = Some source → source_port source = Some port →
    port_node port ∉ ids (nodes g ++ [decorator_node dec top (th_status h)])) as Hunread.
  { intros n p source port Hn Hp Hport. destruct (Hread n p source port Hn Hp Hport). rewrite fmap_app, elem_of_app.
    intros [|Hx%list_elem_of_singleton]; done. }
  pose proof (unspawned i g top dec h det g1 fresh Hw Hf Hnew Hdec Ht Hg Hunread Hset) as Hback. fold run j k in Hback.
  destruct (edit_ok _ false k (scaffold i) Hback Hacc) as [fresh' ->].
  pose proof (spawned_main i g top dec h det g1 fresh Hw Hf Hnew Hdec Htop Ht Hdet Hg) as Hm. fold run j k in Hm. rewrite Hm.
  set (i2 := with_scaffold (scaffold i) fresh' k). assert (main_graph i2 = main_graph i) as Hmain.
  { unfold main_graph, main_graph_beside, not_main_beside. change (scaffold i2) with (scaffold i). change (main_root i2) with (main_root i).
    change (runner i2) with (runner i). assert (all_runs i2 = all_runs i) as -> by (unfold all_runs; cbn; by rewrite Hf). done. }
  unfold revise_since. rewrite Hmain, (graph_eqb_refl _ Hnan). eexists. split; [done|]. split_and!; [done|done| |done].
  change (mkLoadedBehavior (revision i) (main_graph i2) = read i). by rewrite Hmain.
Qed.

(** ** What a halt takes out *)

(** Something other than the run holds a node: the main behavior, or a node that is
    neither the runner nor the run's. *)
Definition held_elsewhere (i : Interpreter) (run : Run) (c : Uuid) : Prop := ∃ from,
  (main_root i = Some from ∨
   (from ∈ ids (nodes (scaffold i)) ∧ from ≠ runner i ∧ from ∉ nodes_of (by_id (scaffold i)) run)) ∧
  rtc (child_of (by_id (scaffold i))) from c.
Lemma leaving_one index run : leaving_of index [run] = nodes_of index run.
Proof. unfold leaving_of, nodes_of, subtree. cbn [fmap list_fmap mbind list_bind]. by rewrite app_nil_r. Qed.
Lemma held_outside_spec i k run c : scaffold k = scaffold i → runner k = runner i → main_root k = main_root i →
  c ∈ held_outside k (nodes_of (by_id (scaffold i)) run) ↔ held_elsewhere i run c.
Proof.
  intros Hs Hr Hm. unfold held_outside, held_elsewhere. rewrite Hs, Hr, Hm, reach_spec. unfold reached.
  apply exist_proper. intros from. apply and_iff_compat_r. rewrite elem_of_app, list_elem_of_filter.
  assert (from ∈ option_list (main_root i) ↔ main_root i = Some from) as ->; [|tauto].
  destruct (main_root i); cbn; rewrite ?list_elem_of_singleton; split; [by intros ->|by intros [= ->]|by intros ?%not_elem_of_nil|done].
Qed.
(** Nothing else holds a run's decorator. *)
Lemma decorator_held i run : wf i → run ∈ all_runs i → ¬ held_elsewhere i run (decorator run).
Proof.
  intros Hw Hrun (from & Hfrom & Hr). assert (decorator run ∈ decs i) as Hd by (by apply list_elem_of_fmap_2).
  destruct Hfrom as [Hm|(_ & Hne & Hout)].
  - destruct (proj2 (wf_apart i Hw) from Hm). by destruct (scaffold_not_reached i from (decorator run) Hw).
  - inversion Hr as [|? x ? Hx Hr']; subst; [by apply Hout, own_in_nodes|].
    unfold child_of in Hx. rewrite children_by_id in Hx by apply Hw.
    destruct (node (scaffold i) from) as [n|] eqn:En; [|by apply not_elem_of_nil in Hx].
    destruct (wf_held i Hw from n x En Hne Hx). by destruct (scaffold_not_reached i x (decorator run) Hw).
Qed.

(** Halting a run takes out its decorator and exactly the nodes it holds that
    neither the main behavior nor anything else holds; every other node stays, with
    its function and its children, and the other runs with their handles. *)
Theorem halt_takes_out (task : Uuid) (i i' : Interpreter) (at_ : nat) (run : Run) :
  wf i → (∀ h, h ∈ traces i → th_id h ≠ task) → list_find (λ run, th_id (handle run) = task) (runs i) = Some (at_, run) →
  halt task i = Some (Ok tt, i') →
  decorator run ∉ ids (nodes (scaffold i')) ∧
  (∀ c, c ∈ ids (nodes (scaffold i')) ↔ c ∈ ids (nodes (scaffold i)) ∧
     ¬ (c ∈ nodes_of (by_id (scaffold i)) run ∧ ¬ held_elsewhere i run c)) ∧
  (∀ c n, c ≠ runner i → node (scaffold i') c = Some n → ∃ m, node (scaffold i) c = Some m ∧ like n m) ∧
  runs i' = delete at_ (runs i) ∧ finished i' = finished i ∧ halted i' = halted i ++ [th_status (handle run)].
Proof.
  intros Hw Htr Hfind. unfold Interpreter.halt. t_unfold. unfold Datatypes.id.
  assert (list_find (λ x, th_id x = task) (traces i) = None) as -> by (apply list_find_None, Forall_forall; exact Htr).
  rewrite Hfind. apply list_find_Some in Hfind as (Hat & _). set (k := with_runs (delete at_ (runs i)) (finished i) i).
  destruct (prune [run] k) as [[[[]|]]|] eqn:Hp; [|done..]. intros [= <-]. apply prune_ran in Hp as (g & fresh & Hg & _ & ->); [|done].
  change (scaffold k) with (scaffold i) in Hg. rewrite leaving_one in Hg. set (gone := nodes_of (by_id (scaffold i)) run ∖ _) in Hg.
  destruct (apply_nodes _ _ _ (wf_ids i Hw) Hg) as (Hnd & Hi & Hn).
  assert (run ∈ all_runs i) as Hrun by (apply elem_of_app; left; by eapply list_elem_of_lookup_2).
  assert (∀ c, c ∈ gone ↔ c ∈ nodes_of (by_id (scaffold i)) run ∧ ¬ held_elsewhere i run c) as Hgone.
  { intros c. unfold gone. rewrite elem_of_difference. by rewrite (held_outside_spec i k). }
  set (j := with_scaffold g fresh k).
  assert (∀ b, scaffold (revise_since b j) = g ∧ runs (revise_since b j) = runs j ∧ finished (revise_since b j) = finished j ∧
    halted (revise_since b j) = halted j) as Hrev by (intros b; unfold revise_since; by destruct (graph_eqb _ _)).
  cbn [scaffold with_halted runs finished halted]. destruct (Hrev (main_graph_beside k [run])) as (-> & -> & -> & ->).
  assert (runner i ∈ ids (nodes (scaffold i)) ∧ runner i ∉ nodes_of (by_id (scaffold i)) run) as [Hri Hro].
  { split; [apply (scaffold_listed i _ Hw); by left|]. intros Hx. destruct (decide (runner i = decorator run)) as [He|Hne].
    - apply (wf_apart i Hw). rewrite He. by apply list_elem_of_fmap_2.
    - by destruct (nodes_of_not_scaffold i run (runner i) Hw Hrun Hx Hne). }
  assert (∀ c, c ∈ ids (nodes g) ↔ c ∈ ids (nodes (scaffold i)) ∧ c ∉ gone) as Hids.
  { intros c. rewrite Hi. unfold edited_ids. rewrite add_ids_elem, list_elem_of_filter. cbn [d_remove d_set]. rewrite elem_of_elements.
    assert (c ∈ ids [runner_node k] ↔ c = runner i) as -> by (change (ids [runner_node k]) with [runner i]; apply list_elem_of_singleton).
    split; [intros [[? ?]| ->]; [done|]|tauto]. split; [done|]. rewrite Hgone. tauto. }
  split_and!; [| | |done..].
  - rewrite Hids, Hgone. intros [_ Hx]. apply Hx. split; [apply own_in_nodes|by apply decorator_held].
  - intros c. by rewrite Hids, Hgone.
  - intros c n Hne Hc. rewrite Hn in Hc. apply edited_like in Hc as [(m & Hm%list_elem_of_singleton & Hmc & _)|(_ & _ & Hx)]; [|done].
    exfalso. apply Hne. by rewrite <- Hmc, Hm.
Qed.
End Runs.
