(* ===== verification/ScaffoldExamples.v ===== *)
(** * The interpreter's theorems at work on a small scaffold

    The runner is 1; a run of a graph of two nodes, one of them detached, is under
    the decorator 20; the main behavior is a sequence over a comparison. *)

From stdpp Require Import pretty.
From S2P Require Import Prelude Values Extern Keys State Store SimpleStore Effects Nodes Schema Graphs GraphLowering Cells Expressions DetachedExamples Loading Sweeps Loaded LoadingExamples Planning Planned GraphWalks Runtime Interpreter Scaffold Runs.
Import graph.

#[local] Existing Instance short_v5.
#[local] Existing Instance unit_host.
#[local] Instance decimal_text : UuidText := {| uuid_text u := pretty u |}.
#[local] Instance unit_calls : CallEncoder := {| call_to_value _ := Ok Values.Value.Unit |}.
#[local] Instance triples : SemVer :=
  {| Version := Z * Z * Z; v_major v := v.1.1; v_minor v := v.1.2; version_new a b c := (a, b, c) |}.

Definition usize : Z := 2 ^ 64 - 1.
Definition ask : Request → T Interpreter BehaviorError (option TaskHandle) :=
  serve arguments_in_order nodes_in_order readers_in_order empty_world usize.
Definition accepted (request : Request) (i : Interpreter) : bool := match ask request i with Some (Ok _, _) => true | _ => false end.
(** What a request comes to, where it is accepted. *)
Definition next (request : Request) (i : Interpreter) : Interpreter :=
  match ask request i with Some (Ok _, i) => i | _ => i end.
Lemma asked request i : accepted request i = true → ∃ h, ask request i = Some (Ok h, next request i).
Proof. unfold accepted, next. destruct (ask request i) as [[[h|e] i']|]; [|done..]. intros _. by exists h. Qed.
Local Abbreviation reached i := (reachable arguments_in_order nodes_in_order readers_in_order empty_world usize i).
Lemma next_reached request i : reached i → request_ok i request → accepted request i = true → reached (next request i).
Proof. intros Hr Hok (h & Ha)%asked. exact (reach_served _ _ _ _ _ i request h _ Hr Hok Ha). Qed.

(** ** What is asked *)
Definition run_graph : Graph := mkGraph (Some 10) [mkNode 10 SUCCEED_FUNCTION_ID ∅ None; mkNode 11 0xF1 ∅ None].
Definition main_behavior : Graph := mkGraph (Some 30) [
  mkNode 30 SEQ_FUNCTION_ID ∅ (Some [31]);
  mkNode 31 EQUAL_FUNCTION_ID (list_to_map [(EQUAL_A_PARAM_ID, Value (Values.Value.U8 1)); (EQUAL_B_PARAM_ID, Key "speed")]) None].
Definition load_main : Request := Scaffold.Load main_behavior.
Definition spawn_run : Request := SpawnGraph (mkGraphType "behavior-tree" (2, 0, 0)) run_graph Concurrent 5 20.

Definition empty_scaffold : Interpreter := new_interpreter 1.
Definition with_main : Interpreter := next load_main empty_scaffold.
Definition with_both : Interpreter := next spawn_run with_main.
Definition with_run : Interpreter := next spawn_run empty_scaffold.

Lemma main_accepted : accepted load_main empty_scaffold = true. Proof. vm_compute. reflexivity. Qed.
Lemma both_accepted : accepted spawn_run with_main = true. Proof. vm_compute. reflexivity. Qed.
Lemma run_accepted : accepted spawn_run empty_scaffold = true. Proof. vm_compute. reflexivity. Qed.
Lemma loads_beside : accepted load_main with_run = true. Proof. vm_compute. reflexivity. Qed.
Lemma halts : accepted (Halt 5) with_both = true. Proof. vm_compute. reflexivity. Qed.

Lemma main_ok : request_ok empty_scaffold load_main.
Proof. cbn. intros c Hc. repeat (apply elem_of_cons in Hc as [->|Hc]; [reflexivity|]). by apply not_elem_of_nil in Hc. Qed.
Lemma named_main : named with_main = [1; 30; 31; 30; 31; 30]. Proof. vm_compute. reflexivity. Qed.
Lemma with_main_reached : reached with_main.
Proof. apply next_reached; [apply reach_new|exact main_ok|exact main_accepted]. Qed.
Lemma spawn_main_ok : request_ok with_main spawn_run.
Proof. split; [rewrite named_main|]; apply (bool_decide_unpack _); vm_compute; exact Logic.I. Qed.
Lemma with_both_reached : reached with_both.
Proof. apply next_reached; [exact with_main_reached|exact spawn_main_ok|exact both_accepted]. Qed.
Lemma with_run_reached : reached with_run.
Proof.
  apply next_reached; [apply reach_new| |exact run_accepted]. split; apply (bool_decide_unpack _); vm_compute; exact Logic.I.
Qed.

(** ** The witnesses *)
Lemma check_acyclic_exact_witness :
  ∃ r, check_acyclic main_behavior 30 = Some r ∧ (r = Ok tt ↔ acyclic (by_id main_behavior) 30).
Proof. apply (check_acyclic_exact main_behavior 30). apply (bool_decide_unpack _). vm_compute. exact Logic.I. Defined.
Lemma check_tree_exact_witness :
  check_tree run_graph 10 = Ok [11] ∧
  match check_tree run_graph 10 with
  | Ok detached => is_tree run_graph 10 ∧ detached = merge_sort Z.le (loose_ids run_graph 10)
  | Err _ => ¬ is_tree run_graph 10
  end.
Proof.
  split; [vm_compute; reflexivity|]. apply (check_tree_exact run_graph 10). apply (bool_decide_unpack _). vm_compute. exact Logic.I.
Defined.
(** An edit may not place the runner. *)
Definition placing_runner : Request := Edit (mkGraphDiff [] [mkNode 40 SEQ_FUNCTION_ID ∅ (Some [1])] [] [] None).
Lemma refused_changes_nothing_witness : ask placing_runner with_main = Some (Err (PlacesScaffold 1), with_main) ∧
  ∀ i', ask placing_runner with_main = Some (Err (PlacesScaffold 1), i') → i' = with_main.
Proof.
  split; [vm_compute; reflexivity|]. intros i'.
  apply (refused_changes_nothing arguments_in_order nodes_in_order readers_in_order empty_world usize placing_runner).
  - vm_compute. reflexivity.
  - done.
Defined.
Lemma scaffold_kept_witness : wf with_both.
Proof. apply (scaffold_kept arguments_in_order nodes_in_order readers_in_order empty_world usize). exact with_both_reached. Defined.
Lemma operations_return_witness : is_Some (ask spawn_run with_both).
Proof.
  apply (operations_return arguments_in_order nodes_in_order readers_in_order empty_world usize
           arguments_in_order_ok nodes_in_order_ok readers_in_order_ok spawn_run).
  exact (reachable_wf _ _ _ _ _ _ with_both_reached).
Defined.
Lemma ran_load g i : accepted (Scaffold.Load g) i = true →
  Interpreter.load arguments_in_order nodes_in_order readers_in_order empty_world usize g i = Some (Ok tt, next (Scaffold.Load g) i).
Proof.
  intros (h & Ha)%asked. unfold ask in Ha. cbn [serve] in Ha. rewrite bind_run in Ha.
  destruct (Interpreter.load _ _ _ _ _ g i) as [[[[]|e] k]|]; [|done..]. injection Ha as _ Hk. by rewrite <- Hk.
Qed.
Lemma ran_halt t i : accepted (Halt t) i = true →
  Interpreter.halt arguments_in_order nodes_in_order readers_in_order empty_world usize t i = Some (Ok tt, next (Halt t) i).
Proof.
  intros (h & Ha)%asked. unfold ask in Ha. cbn [serve] in Ha. rewrite bind_run in Ha.
  destruct (Interpreter.halt _ _ _ _ _ t i) as [[[[]|e] k]|]; [|done..]. injection Ha as _ Hk. by rewrite <- Hk.
Qed.
Lemma ran_spawn i : accepted spawn_run i = true → ∃ h,
  Interpreter.spawn_graph arguments_in_order nodes_in_order readers_in_order empty_world usize (mkGraphType "behavior-tree" (2, 0, 0))
    run_graph Concurrent 5 20 i = Some (Ok h, next spawn_run i).
Proof.
  intros (h & Ha)%asked. unfold ask in Ha. cbn [serve spawn_run] in Ha. rewrite bind_run in Ha.
  destruct (Interpreter.spawn_graph _ _ _ _ _ _ _ _ _ _ i) as [[[k|e] j]|]; [|done..]. injection Ha as _ Hk. exists k. by rewrite <- Hk.
Qed.
Lemma main_apart : apart_from_runs with_run main_behavior.
Proof.
  split.
  - apply Forall_forall, (bool_decide_unpack _). vm_compute. exact Logic.I.
  - intros r [= <-]. by left.
  - intros run c Hr Hc. assert (Forall (λ run, Forall (λ c, c ∉ nodes_of (by_id (scaffold with_run)) run) [30; 31]) (all_runs with_run)) as Hall.
    { apply (bool_decide_unpack _). vm_compute. exact Logic.I. }
    rewrite Forall_forall in Hall. specialize (Hall run Hr). rewrite Forall_forall in Hall. by apply Hall.
Qed.
Lemma load_then_read_witness :
  read (next load_main with_run) = mkLoadedBehavior 1 main_behavior ∧ length (runs (next load_main with_run)) = 1%nat.
Proof.
  destruct (load_then_read arguments_in_order nodes_in_order readers_in_order empty_world usize main_behavior with_run (next load_main with_run))
    as (Hread & -> & _).
  - exact (reachable_wf _ _ _ _ _ _ with_run_reached).
  - vm_compute. reflexivity.
  - exact main_apart.
  - exact (ran_load main_behavior with_run loads_beside).
  - split; [|vm_compute; reflexivity]. rewrite Hread. f_equal.
Defined.
Lemma main_settled : settled arguments_in_order nodes_in_order readers_in_order empty_world usize with_main.
Proof.
  split.
  - exact (reachable_wf _ _ _ _ _ _ with_main_reached).
  - vm_compute. reflexivity.
  - vm_compute. reflexivity.
  - vm_compute. reflexivity.
  - apply (bool_decide_unpack _). vm_compute. exact Logic.I.
Qed.
Lemma run_unknown : unknown with_main run_graph 5 20.
Proof.
  split.
  - rewrite named_main. intros c Hc. assert (c ∈ [10; 11; 20]) as Hin by (destruct Hc as [Hc| ->]; [|by right; right; left];
      repeat (apply elem_of_cons in Hc as [->|Hc]; [set_solver|]); by apply not_elem_of_nil in Hc).
    clear Hc. revert c Hin. apply Forall_forall, (bool_decide_unpack _). vm_compute. exact Logic.I.
  - apply (bool_decide_unpack _). vm_compute. exact Logic.I.
  - intros n p source port Hn Hp Hport. exfalso.
    assert (Forall (λ n, map_Forall (λ _ s, source_port s = None) (bind n)) (nodes (scaffold with_main))) as Hall.
    { apply (bool_decide_unpack _). vm_compute. exact Logic.I. }
    rewrite Forall_forall in Hall. specialize (Hall n Hn p source Hp). cbn in Hall. congruence.
  - intros h Hh. apply not_elem_of_nil in Hh. done.
  - intros run Hr. apply not_elem_of_nil in Hr. done.
Qed.
Lemma spawn_then_halt_witness : ∃ h i2,
  Interpreter.halt arguments_in_order nodes_in_order readers_in_order empty_world usize (th_id h) with_both = Some (Ok tt, i2) ∧
  scaffold i2 = scaffold with_main ∧ read i2 = read with_main.
Proof.
  destruct (ran_spawn with_main both_accepted) as [h Hs].
  destruct (spawn_then_halt arguments_in_order nodes_in_order readers_in_order empty_world usize _ run_graph Concurrent 5 20 with_main with_both h
              main_settled run_unknown Hs) as (i2 & Hh & Hsc & _ & Hr & _).
  exact (ex_intro _ h (ex_intro _ i2 (conj Hh (conj Hsc Hr)))).
Defined.
Lemma no_traces : traces with_both = []. Proof. vm_compute. reflexivity. Qed.
Lemma halted_runs : runs (next (Halt 5) with_both) = []. Proof. vm_compute. reflexivity. Qed.
Lemma one_run : length (runs with_both) = 1%nat. Proof. vm_compute. reflexivity. Qed.
Lemma only_head (l : list Run) at_ run : length l = 1%nat → l !! at_ = Some run → head l = Some run.
Proof. destruct l as [|r [|]]; [done| |done]. by destruct at_. Qed.
Lemma halt_takes_out_witness : ∃ run, head (runs with_both) = Some run ∧
  decorator run ∉ ids (nodes (scaffold (next (Halt 5) with_both))) ∧ runs (next (Halt 5) with_both) = [].
Proof.
  destruct (list_find (λ run, th_id (handle run) = 5) (runs with_both)) as [[at_ run]|] eqn:Hf; [|exfalso; vm_compute in Hf; done].
  exists run. destruct (halt_takes_out arguments_in_order nodes_in_order readers_in_order empty_world usize 5 with_both (next (Halt 5) with_both) at_ run)
    as (Hd & _ & _ & Hr & _).
  - exact (reachable_wf _ _ _ _ _ _ with_both_reached).
  - intros h Hh. rewrite no_traces in Hh. destruct (not_elem_of_nil _ Hh).
  - exact Hf.
  - exact (ran_halt 5 with_both halts).
  - split_and!; [|exact Hd|exact halted_runs].
    apply list_find_Some in Hf as (Hat & _). exact (only_head _ _ _ one_run Hat).
Defined.

(** ** What goes wrong *)

(** A load is not kept from naming a run's decorator, as an edit is: the run it
    names is not taken out when it is halted, and is no run any more. *)
Definition naming_decorator : Request := Scaffold.Load (mkGraph (Some 40) [mkNode 40 SEQ_FUNCTION_ID ∅ (Some [20])]).
Example loaded_decorator_outlives_halt :
  let i := next naming_decorator with_run in
  accepted naming_decorator with_run = true ∧ accepted (Halt 5) i = true ∧
  runs (next (Halt 5) i) = [] ∧ ids (nodes (scaffold (next (Halt 5) i))) = [1; 10; 20; 40].
Proof. vm_compute. done. Qed.
(** A binding of the main behavior that reads a run's node goes with it: a comparison
    left with nothing to compare refuses the halt, and the run, no run any more,
    stays under the runner; its status is never written, and halting it again does
    nothing. *)
Definition reading_run : Request :=
  Edit (mkGraphDiff [] [] [] [mkBinding 31 EQUAL_B_PARAM_ID (Port_ (mkPort 11 _RET_PARAM_ID))] None).
Definition with_reader : Interpreter := next reading_run with_both.
Definition refused_halt : Interpreter := match ask (Halt 5) with_reader with Some (_, i) => i | None => with_reader end.
Example refused_halt_forgets_run :
  accepted reading_run with_both = true ∧ accepted (Halt 5) with_reader = false ∧
  runs refused_halt = [] ∧ ids (nodes (scaffold refused_halt)) = [1; 30; 31; 10; 11; 20] ∧
  accepted (Halt 5) refused_halt = true ∧ halted (next (Halt 5) refused_halt) = [].
Proof. vm_compute. done. Qed.
