(* ===== verification/Reports.v ===== *)
(** * The reports of a trace: [crates/arora-behavior/src/trace.rs]

    What a report states, the key-value of flat arrays it travels as, and the
    reader of that key-value. *)

From S2P Require Import Prelude Values Extern Nodes.

(** ** The report *)
Module NodeStatus.
Inductive NodeStatus := Success | Failure | Running | NotReached.
End NodeStatus.
Abbreviation NodeStatus := NodeStatus.NodeStatus.
Module Activity.
Inductive Activity := Called | Cached | Idle.
End Activity.
Abbreviation Activity := Activity.Activity.
#[export] Instance NodeStatus_eq_dec : EqDecision NodeStatus.
Proof. solve_decision. Defined.
#[export] Instance Activity_eq_dec : EqDecision Activity.
Proof. solve_decision. Defined.

Definition ns_code (s : NodeStatus) : Z :=
  match s with NodeStatus.Success => 0 | NodeStatus.Failure => 1 | NodeStatus.Running => 2 | NodeStatus.NotReached => 3 end.
Definition ns_from_code (code : Z) : option NodeStatus :=
  [NodeStatus.Success; NodeStatus.Failure; NodeStatus.Running; NodeStatus.NotReached] !! Z.to_nat code.
(** [From<Status> for NodeStatus] *)
Definition ns_of (s : Status) : NodeStatus :=
  match s with Success => NodeStatus.Success | Failure => NodeStatus.Failure | Running => NodeStatus.Running end.
Definition act_code (a : Activity) : Z := match a with Activity.Called => 0 | Activity.Cached => 1 | Activity.Idle => 2 end.
Definition act_from_code (code : Z) : option Activity := [Activity.Called; Activity.Cached; Activity.Idle] !! Z.to_nat code.

Record TraceOptions := mkTraceOptions { watched_values : list Uuid; min_interval_ns : option Z }.
Record PortValue := mkPortValue { pv_node : Uuid; pv_port : Uuid; pv_value : Value }.
Record TraceReport := mkTraceReport {
  r_tick : Z;
  r_since : option Z;
  r_status : list (Uuid * NodeStatus);
  r_activity : list (Uuid * Activity);
  r_values : list PortValue;
  r_restarted : list Uuid;
  r_revision : option Z;
}.
Definition nil_list {A} (l : list A) : bool := match l with [] => true | _ => false end.
Definition report_is_empty (r : TraceReport) : bool :=
  nil_list (r_status r) && nil_list (r_activity r) && nil_list (r_values r) && nil_list (r_restarted r)
  && match r_revision r with None => true | Some _ => false end.

(** ** [gen_uuid_from_str] of [arora-types/src/lib.rs]

    The standard library's [DefaultHasher] is not specified: what a string hashes
    to, a [u64], is a parameter. *)
Class DefaultHasher := { hash_str : string → Z }.
Definition with_bits (keep put : Z) (b : byte) : byte := Z_byte (Z.lor (Z.land (byte_Z b) keep) put).
Definition from_bytes (bs : list byte) : Uuid := foldl (λ u b, u * 256 + byte_Z b) 0 bs.
Definition gen_uuid_from_str `{UC : UuidCrate} `{DH : DefaultHasher} (key : string) : Uuid :=
  match parse_str key with
  | Some uuid => uuid
  | None =>
      let hash := hash_str key in
      let bytes := le_bytes 8 hash ++ le_bytes 8 ((hash * 31) mod 2 ^ 64) in
      from_bytes (alter (with_bits 0x3F 0x80) 8%nat (alter (with_bits 0x0F 0x40) 6%nat bytes))
  end.

(** ** [encode_report] *)
Definition NAMES : list string :=
  ["tick"; "since"; "status_nodes"; "status"; "activity_nodes"; "activity"; "value_nodes"; "value_ports"; "values";
   "restarted"; "revision"]%string.
Definition name_at (at_ : nat) : string := default EmptyString (NAMES !! at_).
Definition ids_value (l : list Uuid) : Value := Value.ArrayValue (Value.Uuid <$> l).

Section Codec.
Context `{UC : UuidCrate} `{DH : DefaultHasher}.
Definition set_at (at_ : nat) (value : Value) (fields : list (string * KeyValueField)) : list (string * KeyValueField) :=
  hm_insert (name_at at_) (mkKeyValueField (gen_uuid_from_str (name_at at_)) (name_at at_) (Some value)) fields.
Definition encode_report (r : TraceReport) : Value :=
  let fields := set_at 0 (Value.U64 (r_tick r)) [] in
  let fields := match r_since r with Some since => set_at 1 (Value.U64 since) fields | None => fields end in
  let fields :=
    if nil_list (r_status r) then fields
    else set_at 3 (Value.ArrayU8 (ns_code <$> (r_status r).*2)) (set_at 2 (ids_value (r_status r).*1) fields) in
  let fields :=
    if nil_list (r_activity r) then fields
    else set_at 5 (Value.ArrayU8 (act_code <$> (r_activity r).*2)) (set_at 4 (ids_value (r_activity r).*1) fields) in
  let fields :=
    if nil_list (r_values r) then fields
    else set_at 8 (Value.ArrayValue (pv_value <$> r_values r))
           (set_at 7 (ids_value (pv_port <$> r_values r)) (set_at 6 (ids_value (pv_node <$> r_values r)) fields)) in
  let fields := if nil_list (r_restarted r) then fields else set_at 9 (ids_value (r_restarted r)) fields in
  let fields := match r_revision r with Some revision => set_at 10 (Value.U64 revision) fields | None => fields end in
  Value.KeyValue (mkKeyValue (gen_uuid_from_str "TraceReport"%string) fields).

(** ** [decode_report]: the texts of its refusals, by what they are printed from *)
Inductive ReportError :=
| NotAKeyValue (v : Value)
| NotAU64 (at_ : nat) (v : Value)
| NotAUuid (at_ : nat) (v : Value)
| NotUuids (at_ : nat) (v : Value)
| NotBytes (at_ : nat) (v : Value)
| LengthsDiffer (nodes codes : nat)
| NoStatus (code : Z)
| NoActivity (code : Z)
| NotAnArray (v : Value)
| ValueLengthsDiffer
| TickMissing.

Definition field_at (kv : KeyValue) (at_ : nat) : option Value := hm_get (name_at at_) (kv_fields kv) ≫= kvf_value.
Definition u64_at (kv : KeyValue) (at_ : nat) : result ReportError (option Z) :=
  match field_at kv at_ with
  | Some (Value.U64 n) => Ok (Some n)
  | None => Ok None
  | Some other => Err (NotAU64 at_ other)
  end.
Fixpoint uuids_of (at_ : nat) (l : list Value) : result ReportError (list Uuid) :=
  match l with
  | [] => Ok []
  | Value.Uuid i :: l => match uuids_of at_ l with Ok ids => Ok (i :: ids) | Err e => Err e end
  | other :: _ => Err (NotAUuid at_ other)
  end.
Definition ids_at (kv : KeyValue) (at_ : nat) : result ReportError (list Uuid) :=
  match field_at kv at_ with
  | None => Ok []
  | Some (Value.ArrayValue values) => uuids_of at_ values
  | Some other => Err (NotUuids at_ other)
  end.
Definition bytes_at (kv : KeyValue) (at_ : nat) : result ReportError (list Z) :=
  match field_at kv at_ with
  | None => Ok []
  | Some (Value.ArrayU8 bytes) => Ok bytes
  | Some other => Err (NotBytes at_ other)
  end.
Definition paired (kv : KeyValue) (nodes codes : nat) : result ReportError (list (Uuid * Z)) :=
  match ids_at kv nodes with
  | Err e => Err e
  | Ok nodes_of =>
      match bytes_at kv codes with
      | Err e => Err e
      | Ok codes_of =>
          if negb (length nodes_of =? length codes_of)%nat then Err (LengthsDiffer nodes codes)
          else Ok (zip nodes_of codes_of)
      end
  end.
Fixpoint coded {A} (from_code : Z → option A) (none : Z → ReportError) (l : list (Uuid * Z)) : result ReportError (list (Uuid * A)) :=
  match l with
  | [] => Ok []
  | (node, code) :: l =>
      match from_code code with
      | None => Err (none code)
      | Some a => match coded from_code none l with Ok l => Ok ((node, a) :: l) | Err e => Err e end
      end
  end.
Definition decode_report (value : Value) : result ReportError TraceReport :=
  match value with
  | Value.KeyValue kv =>
      status ← (match paired kv 2 3 with Ok l => coded ns_from_code NoStatus l | Err e => Err e end);
      activity ← (match paired kv 4 5 with Ok l => coded act_from_code NoActivity l | Err e => Err e end);
      nodes ← ids_at kv 6;
      ports ← ids_at kv 7;
      values ← (match field_at kv 8 with
                | None => Ok []
                | Some (Value.ArrayValue values) => Ok values
                | Some other => Err (NotAnArray other)
                end);
      if negb (length nodes =? length values)%nat || negb (length ports =? length values)%nat then Err ValueLengthsDiffer
      else
        tick ← (match u64_at kv 0 with Ok (Some tick) => Ok tick | Ok None => Err TickMissing | Err e => Err e end);
        since ← u64_at kv 1;
        restarted ← ids_at kv 9;
        revision ← u64_at kv 10;
        Ok (mkTraceReport tick since status activity
              (zip_with (λ e value, mkPortValue e.1 e.2 value) (zip nodes ports) values) restarted revision)
  | other => Err (NotAKeyValue other)
  end.

(** ** The round trip *)
Definition value_of (at_ : nat) (fields : list (string * KeyValueField)) : option Value := hm_get (name_at at_) fields ≫= kvf_value.
Lemma value_of_set at_ k v fields : (at_ < 11)%nat → (k < 11)%nat →
  value_of at_ (set_at k v fields) = if (at_ =? k)%nat then Some v else value_of at_ fields.
Proof.
  intros Ha Hk. unfold value_of, set_at. rewrite hm_get_insert.
  assert (String.eqb (name_at at_) (name_at k) = (at_ =? k)%nat) as ->; [|by destruct (at_ =? k)%nat].
  do 11 (destruct at_ as [|at_]; [do 11 (destruct k as [|k]; [reflexivity|]); lia|]). lia.
Qed.
Lemma value_of_unless at_ k v (b : bool) fields : (at_ < 11)%nat → (k < 11)%nat →
  value_of at_ (if b then fields else set_at k v fields) = if negb b && (at_ =? k)%nat then Some v else value_of at_ fields.
Proof. intros Ha Hk. destruct b; [done|]. by rewrite value_of_set. Qed.
Lemma uuids_of_ids at_ l : uuids_of at_ (Value.Uuid <$> l) = Ok l.
Proof. induction l as [|i l IH]; [done|]. cbn. by rewrite IH. Qed.
Lemma coded_codes {A} (code : A → Z) from_code none (l : list (Uuid * A)) :
  (∀ a, from_code (code a) = Some a) → coded from_code none (zip l.*1 (code <$> l.*2)) = Ok l.
Proof. intros H. induction l as [|[i a] l IH]; [done|]. cbn. by rewrite H, IH. Qed.
Lemma ns_code_back s : ns_from_code (ns_code s) = Some s.
Proof. by destruct s. Qed.
Lemma act_code_back a : act_from_code (act_code a) = Some a.
Proof. by destruct a. Qed.

(** What each field of the encoded report holds. *)
Definition encoded_field (r : TraceReport) (at_ : nat) : option Value :=
  let listed {A} (l : list A) (v : Value) := if nil_list l then None else Some v in
  match at_ with
  | 0 => Some (Value.U64 (r_tick r))
  | 1 => Value.U64 <$> r_since r
  | 2 => listed (r_status r) (ids_value (r_status r).*1)
  | 3 => listed (r_status r) (Value.ArrayU8 (ns_code <$> (r_status r).*2))
  | 4 => listed (r_activity r) (ids_value (r_activity r).*1)
  | 5 => listed (r_activity r) (Value.ArrayU8 (act_code <$> (r_activity r).*2))
  | 6 => listed (r_values r) (ids_value (pv_node <$> r_values r))
  | 7 => listed (r_values r) (ids_value (pv_port <$> r_values r))
  | 8 => listed (r_values r) (Value.ArrayValue (pv_value <$> r_values r))
  | 9 => listed (r_restarted r) (ids_value (r_restarted r))
  | _ => Value.U64 <$> r_revision r
  end%nat.
Lemma encoded_fields r : ∃ kv, encode_report r = Value.KeyValue kv ∧
  ∀ at_, (at_ < 11)%nat → field_at kv at_ = encoded_field r at_.
Proof.
  eexists. split; [reflexivity|]. intros at_ Ha. unfold field_at. cbn [kv_fields].
  match goal with |- hm_get _ ?fields ≫= _ = _ => change (value_of at_ fields = encoded_field r at_) end.
  assert (∀ k (v : Z → Value) (o : option Z) fields, (k < 11)%nat → value_of at_ (match o with Some x => set_at k (v x) fields | None => fields end)
    = if (at_ =? k)%nat then (match o with Some x => Some (v x) | None => value_of at_ fields end) else value_of at_ fields) as Hopt.
  { intros k v [x|] fields Hk; [by rewrite value_of_set|by destruct (at_ =? k)%nat]. }
  assert (∀ (b : bool) f g, value_of at_ (if b then f else g) = if b then value_of at_ f else value_of at_ g) as Hif by by intros [].
  rewrite Hopt by lia. do 4 (rewrite Hif, !value_of_set by lia). rewrite Hopt, value_of_set by lia.
  do 11 (destruct at_ as [|at_]; [cbn; by repeat case_match|]). lia.
Qed.
Lemma ids_listed {A} kv at_ (f : A → Uuid) (l : list A) :
  field_at kv at_ = (if nil_list l then None else Some (ids_value (f <$> l))) → ids_at kv at_ = Ok (f <$> l).
Proof. intros Hf. unfold ids_at. rewrite Hf. destruct l as [|a l]; [done|]. apply uuids_of_ids. Qed.
Lemma bytes_listed {A} kv at_ (f : A → Z) (l : list A) :
  field_at kv at_ = (if nil_list l then None else Some (Value.ArrayU8 (f <$> l))) → bytes_at kv at_ = Ok (f <$> l).
Proof. intros Hf. unfold bytes_at. rewrite Hf. by destruct l. Qed.
Lemma pairs_listed {A} kv i j (code : A → Z) from_code none (l : list (Uuid * A)) : (∀ a, from_code (code a) = Some a) →
  field_at kv i = (if nil_list l then None else Some (ids_value l.*1)) →
  field_at kv j = (if nil_list l then None else Some (Value.ArrayU8 (code <$> l.*2))) →
  match paired kv i j with Ok p => coded from_code none p | Err e => Err e end = Ok l.
Proof.
  intros Hc Hi Hj. unfold paired. rewrite (ids_listed kv i fst l Hi).
  assert ((λ e : Uuid * A, code e.2) <$> l = code <$> l.*2) as Hl by (by rewrite <- list_fmap_compose).
  rewrite (bytes_listed kv j (λ e, code e.2) l) by (by rewrite Hl). rewrite Hl, !length_fmap, Nat.eqb_refl. by apply coded_codes.
Qed.
Lemma values_zip (l : list PortValue) :
  zip_with (λ e value, mkPortValue e.1 e.2 value) (zip (pv_node <$> l) (pv_port <$> l)) (pv_value <$> l) = l.
Proof. induction l as [|[n p v] l IH]; [done|]. cbn. by rewrite IH. Qed.

(** What a trace writes, a client reads back: every report decodes from its
    encoding. *)
Theorem decode_encode_report (r : TraceReport) : decode_report (encode_report r) = Ok r.
Proof.
  destruct (encoded_fields r) as (kv & -> & Hf). unfold decode_report.
  rewrite (pairs_listed kv 2 3 ns_code ns_from_code NoStatus (r_status r)) by (apply ns_code_back || (by rewrite Hf by lia)).
  rewrite (pairs_listed kv 4 5 act_code act_from_code NoActivity (r_activity r)) by (apply act_code_back || (by rewrite Hf by lia)).
  cbn [mbind result_bind].
  rewrite (ids_listed kv 6 pv_node (r_values r)), (ids_listed kv 7 pv_port (r_values r)) by (by rewrite Hf by lia). cbn [mbind result_bind].
  assert (match field_at kv 8 with None => Ok [] | Some (Value.ArrayValue values) => Ok values | Some other => Err (NotAnArray other) end
    = Ok (pv_value <$> r_values r)) as -> by (rewrite Hf by lia; cbn; by destruct (r_values r)).
  cbn [mbind result_bind]. rewrite !length_fmap, Nat.eqb_refl. cbn [negb orb].
  rewrite (ids_listed kv 9 Datatypes.id (r_restarted r)) by (rewrite Hf by lia; cbn; by rewrite list_fmap_id).
  unfold u64_at. rewrite !Hf by lia. cbn. rewrite values_zip, list_fmap_id. by destruct r as [? [] ? ? ? ? []].
Qed.
End Codec.
