(* ===== verification/Traces.v ===== *)
(** * Traces: [crates/arora-behavior-tree/src/trace.rs]

    What a tick records, and what each running trace makes of it: its reports,
    written to its feedback keys, and the state the next report is told from. A
    hash map is a [gmap] and a hash set a [gset]: what they are iterated for is
    sorted, or goes into another.

    A tree's own outputs are read from its cells as they stand. *)

From stdpp Require Import sorting.
From S2P Require Import Prelude Values Extern Keys State Store Effects Nodes Schema Cells Ticks Lowering Reports Interpreter.

(** ** [struct TickRecord] *)
Record TickRecord := mkTickRecord {
  on : bool;
  rec_statuses : list (Uuid * Status);
  rec_activity : list (Uuid * Activity);
  watched : gset Uuid;
  rec_returns : list (Uuid * option Value);
}.
Definition set_on (b : bool) (r : TickRecord) : TickRecord :=
  if b then mkTickRecord true (rec_statuses r) (rec_activity r) (watched r) (rec_returns r)
  else mkTickRecord false [] [] (watched r) [].
Definition watches (r : TickRecord) (node : Uuid) : bool := bool_decide (node ∈ watched r).
(** [returned]: a status is no value, and an optional return is what it holds. *)
Definition kept_return (value : Value) (optional : bool) : option Value :=
  match value with
  | Value.Enumeration e => if decide (en_id e = STATUS_ENUMERATION_ID) then None else Some value
  | Value.Option held => if optional then held else Some value
  | _ => Some value
  end.
Definition returned (node : Uuid) (value : Value) (optional : bool) (r : TickRecord) : TickRecord :=
  mkTickRecord (on r) (rec_statuses r) (rec_activity r) (watched r) (rec_returns r ++ [(node, kept_return value optional)]).
Definition record_status (node : Uuid) (st : Status) (r : TickRecord) : TickRecord :=
  mkTickRecord (on r) (rec_statuses r ++ [(node, st)]) (rec_activity r) (watched r) (rec_returns r).
Definition record_activity (node : Uuid) (a : Activity) (r : TickRecord) : TickRecord :=
  mkTickRecord (on r) (rec_statuses r) (rec_activity r ++ [(node, a)]) (watched r) (rec_returns r).

(** ** [struct Trace] *)
Record Trace := mkTrace {
  t_handle : TaskHandle;
  t_options : TraceOptions;
  t_started : bool;
  t_reported_at : option Z;
  t_status : gmap Uuid NodeStatus;
  t_activity : gmap Uuid Activity;
  t_values : gmap Uuid (gmap Uuid Value);
  t_status_changed : gset Uuid;
  t_activity_changed : gset Uuid;
  t_restarted : list Uuid;
  t_last_tick : option Z;
  t_revision : option Z;
}.
(** A trace as it starts; [start_over] goes back to it. *)
Definition new_trace (handle : TaskHandle) (options : TraceOptions) : Trace :=
  mkTrace handle options false None ∅ ∅ ∅ ∅ ∅ [] None None.
Definition start_over (t : Trace) : Trace := new_trace (t_handle t) (t_options t).

(** [struct Traces], but for the buffers it keeps from one tick to the next. *)
Record Traces := mkTraces {
  running : list Trace;
  prev_statuses : gmap Uuid Status;
  prev_activity : gmap Uuid Activity;
  last_returns : gmap Uuid Value;
}.
Definition no_traces : Traces := mkTraces [] ∅ ∅ ∅.
Definition traces_is_empty (ts : Traces) : bool := nil_list (running ts).
Definition start (handle : TaskHandle) (options : TraceOptions) (ts : Traces) : Traces :=
  mkTraces (running ts ++ [new_trace handle options]) (prev_statuses ts) (prev_activity ts) (last_returns ts).
Definition arm (ts : Traces) (r : TickRecord) : Traces * TickRecord :=
  let r := set_on (negb (traces_is_empty ts)) r in
  let watched : gset Uuid := list_to_set (running ts ≫= λ t, watched_values (t_options t)) in
  (mkTraces (running ts) (prev_statuses ts) (prev_activity ts) (filter (λ e, e.1 ∈ watched) (last_returns ts)),
   mkTickRecord (on r) (rec_statuses r) (rec_activity r) watched (rec_returns r)).
Definition halt_trace (task : Uuid) (ts : Traces) : option Keys.Key * Traces :=
  match list_find (λ t, th_id (t_handle t) = task) (running ts) with
  | None => (None, ts)
  | Some (at_, t) =>
      let left_over := delete at_ (running ts) in
      (Some (th_status (t_handle t)),
       if nil_list left_over then no_traces else mkTraces left_over (prev_statuses ts) (prev_activity ts) (last_returns ts))
  end.
(** What a trace that has reported forgets of the nodes restarted. *)
Definition restart_trace (restarted : list Uuid) (t : Trace) : Trace :=
  if t_started t then
    mkTrace (t_handle t) (t_options t) true (t_reported_at t)
      (filter (λ e, e.1 ∉ restarted) (t_status t)) (filter (λ e, e.1 ∉ restarted) (t_activity t))
      (filter (λ e, e.1 ∉ restarted) (t_values t))
      (list_to_set restarted ∪ t_status_changed t) (list_to_set restarted ∪ t_activity_changed t)
      (t_restarted t ++ restarted) (t_last_tick t) (t_revision t)
  else t.
Definition restart (restarted : list Uuid) (ts : Traces) : Traces :=
  mkTraces (restart_trace restarted <$> running ts) (prev_statuses ts) (prev_activity ts)
    (filter (λ e, e.1 ∉ restarted) (last_returns ts)).

(** [changes] *)
Definition changes {T} `{EqDecision T} (before after : gmap Uuid T) : list Uuid :=
  (filter (λ e : Uuid * T, before !! e.1 ≠ Some e.2) (map_to_list after)).*1
  ++ filter (λ node, after !! node = None) (map_to_list before).*1.
(** [differs] *)
Definition differs {T} `{EqDecision T} (reported : gmap Uuid T) (node : Uuid) (now absent : T) : bool * gmap Uuid T :=
  (negb (bool_decide (default absent (reported !! node) = now)),
   if decide (now = absent) then delete node reported else <[node := now]> reported).
(** The nodes among those that may have changed that did, and what was reported of
    all of them after. *)
Fixpoint told {T} `{EqDecision T} (now : Uuid → T) (absent : T) (nodes : list Uuid) (reported : gmap Uuid T) :
    list (Uuid * T) * gmap Uuid T :=
  match nodes with
  | [] => ([], reported)
  | node :: nodes =>
      let '(changed, reported) := differs reported node (now node) absent in
      let '(l, reported) := told now absent nodes reported in
      (if changed then (node, now node) :: l else l, reported)
  end.

Definition by_node {T} (a b : Uuid * T) : Prop := (a.1 <= b.1)%Z.
#[export] Instance by_node_dec {T} : RelDecision (@by_node T) := λ a b, Z_le_dec a.1 b.1.
Definition by_port (a b : PortValue) : Prop := (pv_node a < pv_node b)%Z ∨ (pv_node a = pv_node b ∧ pv_port a <= pv_port b)%Z.
#[export] Instance by_port_dec : RelDecision by_port.
Proof. intros a b. unfold by_port. apply _. Defined.
(** [dedup], of a sorted list *)
Fixpoint dedup_next (l : list Uuid) : list Uuid :=
  match l with
  | x :: ((y :: _) as rest) => if decide (x = y) then dedup_next rest else x :: dedup_next rest
  | l => l
  end.

Section Traces.
Context {S X : Type} `{DS : DataStore S}.
Local Abbreviation W := (World S X).

(** [BehaviorTree::argument_value], [outputs_of] *)
Definition argument_held (tree : BehaviorTree (S := S)) (w : W) (node parameter : Uuid) : option Value :=
  cell ← node_arg_variables tree !! mkNodeParameterId node parameter; get cell w.
Definition outputs_of (tree : BehaviorTree (S := S)) (w : W) (functions : FunctionIndex) (i : Uuid) (last : option Value) :
    list (Uuid * Value) :=
  match node_index tree !! i with
  | None => []
  | Some node =>
      let written := match functions !! n_function node with
                     | None => native_writes (n_function node)
                     | Some f => (filter (λ e, p_mutable e.2 = true) (map_to_list (parameters (Schema.function f)))).*1
                     end in
      let held := omap (λ port, (λ value, (port, value)) <$> argument_held tree w i port) (_RET_PARAM_ID :: written) in
      match node_arg_variables tree !! mkNodeParameterId i _RET_PARAM_ID, last with
      | None, Some value => held ++ [(_RET_PARAM_ID, value)]
      | _, _ => held
      end
  end.
(** [keep_returns_of] *)
Definition keep_returns_of (tree : BehaviorTree (S := S)) (ts : Traces) : Traces :=
  mkTraces (running ts) (prev_statuses ts) (prev_activity ts)
    (filter (λ e, is_Some (node_index tree !! e.1) ∧ node_arg_variables tree !! mkNodeParameterId e.1 _RET_PARAM_ID = None)
       (last_returns ts)).

(** ** [Trace::report] *)

(** The outputs of one node that changed, then those that became unset. *)
Fixpoint told_outputs (node : Uuid) (outputs : list (Uuid * Value)) (reported : gmap Uuid Value) : list PortValue * gmap Uuid Value :=
  match outputs with
  | [] => ([], reported)
  | (port, value) :: outputs =>
      let same := match reported !! port with Some held => value_eqb held value | None => false end in
      if same then told_outputs node outputs reported
      else let '(l, reported) := told_outputs node outputs (<[port := value]> reported) in
           (mkPortValue node port value :: l, reported)
  end.
Definition told_node (node : Uuid) (outputs : list (Uuid * Value)) (reported : gmap Uuid Value) : list PortValue * gmap Uuid Value :=
  let '(l, reported) := told_outputs node outputs reported in
  let gone := filter (λ port, port ∉ outputs.*1) (map_to_list reported).*1 in
  (l ++ ((λ port, mkPortValue node port Value.Unit) <$> gone), filter (λ e, e.1 ∈ outputs.*1) reported).
Fixpoint told_values (outputs : Uuid → list (Uuid * Value)) (nodes : list Uuid) (reported : gmap Uuid (gmap Uuid Value)) :
    list PortValue * gmap Uuid (gmap Uuid Value) :=
  match nodes with
  | [] => ([], reported)
  | node :: nodes =>
      let '(l, held) := told_node node (outputs node) (default ∅ (reported !! node)) in
      let '(rest, reported) := told_values outputs nodes (<[node := held]> reported) in
      (l ++ rest, reported)
  end.
Definition status_now (statuses : gmap Uuid Status) (node : Uuid) : NodeStatus :=
  match statuses !! node with Some st => ns_of st | None => NodeStatus.NotReached end.
Definition activity_now (activity : gmap Uuid Activity) (node : Uuid) : Activity := default Activity.Idle (activity !! node).
(** The report of what changed since the last one, and the trace it leaves. *)
Definition trace_report (tick : Z) (statuses : gmap Uuid Status) (activity : gmap Uuid Activity)
    (outputs : option (Uuid → list (Uuid * Value))) (t : Trace) : TraceReport * Trace :=
  let '(status, told_status) := told (status_now statuses) NodeStatus.NotReached (elements (t_status_changed t)) (t_status t) in
  let '(acts, told_activity) := told (activity_now activity) Activity.Idle (elements (t_activity_changed t)) (t_activity t) in
  let '(values, told_vals) := match outputs with
                              | Some outputs => told_values outputs (watched_values (t_options t)) (t_values t)
                              | None => ([], t_values t)
                              end in
  (mkTraceReport tick (t_last_tick t) (merge_sort by_node status) (merge_sort by_node acts) (merge_sort by_port values)
     (dedup_next (merge_sort Z.le (t_restarted t))) None,
   mkTrace (t_handle t) (t_options t) (t_started t) (t_reported_at t) told_status told_activity told_vals ∅ ∅ [] (t_last_tick t) (t_revision t)).

(** ** [Traces::report] *)
Inductive TraceError := StatusNotWritten (key : Keys.Key) (e : DataError) | ReportNotWritten (key : Keys.Key) (e : DataError).
Context `{UC : UuidCrate} `{DH : DefaultHasher}.
Fixpoint write_reports (keys : list Keys.Key) (r : TraceReport) (w : W) : result TraceError unit * W :=
  match keys with
  | [] => (Ok tt, w)
  | key :: keys =>
      match write (sc_single key (encode_report r)) (store w) with
      | Ok s => write_reports keys r (with_store s w)
      | Err e => (Err (ReportNotWritten key e), w)
      end
  end.
Definition publish (t : Trace) (r : TraceReport) (first : bool) (w : W) : result TraceError unit * W :=
  if first then
    match write (sc_single (th_status (t_handle t)) (status_value Running)) (store w) with
    | Ok s => write_reports (th_feedback (t_handle t)) r (with_store s w)
    | Err e => (Err (StatusNotWritten (th_status (t_handle t)) e), w)
    end
  else write_reports (th_feedback (t_handle t)) r w.
(** [device_time] *)
Definition TIME : Keys.Key := mkKey "arora/time".
Definition device_time (s : S) : option Z :=
  match mjoin (last (Store.read s [TIME])) with Some (Value.U64 time) => Some time | _ => None end.
Definition due (now : option Z) (t : Trace) : bool :=
  match min_interval_ns (t_options t), t_reported_at t, now with
  | Some interval, Some last, Some now => interval <=? Z.max 0 (now - last)
  | _, _, _ => true
  end.
(** One trace's part of a tick: the changes it is to tell, and its report when due. *)
Definition to_tell (status_delta activity_delta : list Uuid) (statuses : gmap Uuid Status) (activity : gmap Uuid Activity) (t : Trace) : Trace :=
  let more := if t_started t then status_delta else (map_to_list statuses).*1 in
  let more_activity := if t_started t then activity_delta else (map_to_list activity).*1 in
  mkTrace (t_handle t) (t_options t) (t_started t) (t_reported_at t) (t_status t) (t_activity t) (t_values t)
    (list_to_set more ∪ t_status_changed t) (list_to_set more_activity ∪ t_activity_changed t) (t_restarted t) (t_last_tick t) (t_revision t).
Definition with_revision_of (revision : Z) (t : Trace) (r : TraceReport) : TraceReport :=
  mkTraceReport (r_tick r) (r_since r) (r_status r) (r_activity r) (r_values r) (r_restarted r)
    (if decide (t_revision t = Some revision) then None else Some revision).
Definition reported (tick revision : Z) (now : option Z) (t : Trace) : Trace :=
  mkTrace (t_handle t) (t_options t) true now (t_status t) (t_activity t) (t_values t) (t_status_changed t) (t_activity_changed t)
    (t_restarted t) (Some tick) (Some revision).
Definition report_one (tick revision : Z) (now : option Z) (statuses : gmap Uuid Status) (activity : gmap Uuid Activity)
    (outputs : W → option (Uuid → list (Uuid * Value))) (t : Trace) (w : W) : Trace * option TraceError * W :=
  if negb (due now t) then (t, None, w)
  else
    let first := negb (t_started t) in
    let '(r, t) := trace_report tick statuses activity (outputs w) t in
    let r := with_revision_of revision t r in
    if negb first && report_is_empty r then (t, None, w)
    else match publish t r first w with
         | (Err e, w) => (start_over t, Some e, w)
         | (Ok _, w) => (reported tick revision now t, None, w)
         end.
Definition first_error (a b : option TraceError) : option TraceError := match a with Some e => Some e | None => b end.
Fixpoint report_each (one : Trace → W → Trace * option TraceError * W) (l : list Trace) (failure : option TraceError) (w : W) :
    list Trace * option TraceError * W :=
  match l with
  | [] => ([], failure, w)
  | t :: l =>
      let '(t, e, w) := one t w in
      let '(l, failure, w) := report_each one l (first_error failure e) w in
      (t :: l, failure, w)
  end.
(** The returns of the tick over those kept. *)
Definition take_return (returns : gmap Uuid Value) (e : Uuid * option Value) : gmap Uuid Value :=
  match e.2 with Some value => <[e.1 := value]> returns | None => delete e.1 returns end.
Definition drained (r : TickRecord) : TickRecord := mkTickRecord (on r) [] [] (watched r) [].
Definition collected {T} (l : list (Uuid * T)) : gmap Uuid T := foldl (λ m e, <[e.1 := e.2]> m) ∅ l.
Definition report (tick revision : Z) (record : TickRecord) (tree : option (BehaviorTree (S := S))) (functions : FunctionIndex)
    (ts : Traces) (w : W) : result TraceError unit * Traces * TickRecord * W :=
  let statuses := collected (rec_statuses record) in
  let activity := collected (rec_activity record) in
  let returns := foldl take_return (last_returns ts) (rec_returns record) in
  let status_delta := changes (prev_statuses ts) statuses in
  let activity_delta := changes (prev_activity ts) activity in
  let now := if existsb (λ t, match min_interval_ns (t_options t) with Some _ => true | None => false end) (running ts)
             then device_time (store w) else None in
  let outputs w := (λ tree i, outputs_of tree w functions i (returns !! i)) <$> tree in
  let one t := report_one tick revision now statuses activity outputs (to_tell status_delta activity_delta statuses activity t) in
  let '(l, failure, w) := report_each one (running ts) None w in
  (match failure with Some e => Err e | None => Ok tt end, mkTraces l statuses activity returns, drained record, w).
End Traces.
