(* ===== verification/Following.v ===== *)
(** * Following a trace: [crates/arora-behavior/docs/trace.md], "How an editor uses it"

    A client that follows a trace's feedback key keeps a view of the behavior:
    it clears what it shows of each restarted node, then sets each listed node
    to its new status and activity; a report with no [since] gives the whole
    picture. The theorems are about every sequence of the operations the
    interpreter runs on its traces: after each written report, the view is what
    the tick did, and the key holds what the view was brought up with. *)

From stdpp Require Import sorting.
From S2P Require Import Prelude Values Extern Keys State Store Effects Nodes Schema Cells Ticks Lowering Reports Interpreter Traces.

(** ** The view *)
Record View := mkView { v_status : gmap Uuid NodeStatus; v_activity : gmap Uuid Activity }.
Definition no_view : View := mkView ∅ ∅.
Definition forget {T} (nodes : list Uuid) (m : gmap Uuid T) : gmap Uuid T := filter (λ e, e.1 ∉ nodes) m.
Definition set_listed {T} `{EqDecision T} (absent : T) (l : list (Uuid * T)) (m : gmap Uuid T) : gmap Uuid T :=
  foldl (λ m e, if decide (e.2 = absent) then delete e.1 m else <[e.1 := e.2]> m) m l.
Definition apply_report (r : TraceReport) (v : View) : View :=
  let v := match r_since r with
           | None => no_view
           | Some _ => mkView (forget (r_restarted r) (v_status v)) (forget (r_restarted r) (v_activity v))
           end in
  mkView (set_listed NodeStatus.NotReached (r_status r) (v_status v)) (set_listed Activity.Idle (r_activity r) (v_activity v)).
(** What a client shows of a node. *)
Definition shown {T} (absent : T) (m : gmap Uuid T) (node : Uuid) : T := default absent (m !! node).
Definition shows (v : View) (statuses : gmap Uuid Status) (activity : gmap Uuid Activity) : Prop :=
  (∀ node, shown NodeStatus.NotReached (v_status v) node = status_now statuses node) ∧
  ∀ node, shown Activity.Idle (v_activity v) node = activity_now activity node.

(** ** What a report tells, of statuses and of activity alike *)
Section Told.
Context {T : Type} `{EqDecision T} (absent : T).

Lemma shown_set (m : gmap Uuid T) i x node :
  shown absent (if decide (x = absent) then delete i m else <[i := x]> m) node = if decide (i = node) then x else shown absent m node.
Proof.
  unfold shown. destruct (decide (x = absent)) as [->|], (decide (i = node)) as [->|].
  - by rewrite lookup_delete_eq.
  - by rewrite lookup_delete_ne.
  - by rewrite lookup_insert_eq.
  - by rewrite lookup_insert_ne.
Qed.
Lemma shown_forget (nodes : list Uuid) (m : gmap Uuid T) node :
  shown absent (forget nodes m) node = if decide (node ∈ nodes) then absent else shown absent m node.
Proof.
  unfold shown, forget. rewrite map_lookup_filter. destruct (m !! node) as [x|] eqn:Em; cbn; [|by case_decide].
  case_decide as E; case_guard; naive_solver.
Qed.
Lemma shown_forget_ext (l l' : list Uuid) (m : gmap Uuid T) node : (∀ i, i ∈ l ↔ i ∈ l') →
  shown absent (forget l m) node = shown absent (forget l' m) node.
Proof.
  intros Hl. rewrite !shown_forget. specialize (Hl node).
  destruct (decide (node ∈ l)) as [p|p], (decide (node ∈ l')) as [q|q]; [done|destruct q; by apply Hl|destruct p; by apply Hl|done].
Qed.
Lemma shown_forget_app (l l' : list Uuid) (m : gmap Uuid T) node :
  shown absent (forget l' (forget l m)) node = shown absent (forget (l ++ l') m) node.
Proof. rewrite !shown_forget. destruct (decide (node ∈ l)), (decide (node ∈ l')), (decide (node ∈ l ++ l')); set_solver. Qed.
Context (now : Uuid → T).
Lemma shown_listed (l : list (Uuid * T)) m node : Forall (λ e, e.2 = now e.1) l →
  shown absent (set_listed absent l m) node = if decide (node ∈ l.*1) then now node else shown absent m node.
Proof.
  intros Hl. revert m. induction Hl as [|[i x] l Hx Hl IH]; intros m; [by case_decide; [set_solver|]|].
  change (set_listed absent ((i, x) :: l) m) with (set_listed absent l (if decide (x = absent) then delete i m else <[i := x]> m)).
  rewrite IH, shown_set, fmap_cons. cbn in *. subst x. repeat case_decide; subst; set_solver.
Qed.
Lemma differs_spec (m : gmap Uuid T) node x b m' : differs m node x absent = (b, m') →
  b = negb (bool_decide (shown absent m node = x)) ∧ ∀ j, shown absent m' j = if decide (node = j) then x else shown absent m j.
Proof. intros [= <- <-]. split; [done|]. intros j. apply shown_set. Qed.
(** What is told of the nodes: each with what it is now, the others as reported. *)
Lemma told_spec nodes (m : gmap Uuid T) l m' : told now absent nodes m = (l, m') →
  Forall (λ e, e.2 = now e.1) l ∧ (∀ j, j ∈ l.*1 → j ∈ nodes)
  ∧ (∀ j, j ∈ nodes → j ∈ l.*1 ∨ shown absent m j = now j)
  ∧ ∀ j, shown absent m' j = if decide (j ∈ nodes) then now j else shown absent m j.
Proof.
  revert m l m'. induction nodes as [|node nodes IH]; intros m l m'; cbn [told].
  { intros [= <- <-]. split_and!; [constructor|set_solver..|]. intros j. by destruct (decide (j ∈ [])); [set_solver|]. }
  destruct (differs m node (now node) absent) as [b m1] eqn:Ed. destruct (differs_spec _ _ _ _ _ Ed) as [-> Hm1].
  destruct (told now absent nodes m1) as [l1 m2] eqn:Et. destruct (IH _ _ _ Et) as (Hf & Hin & Hout & Hm2).
  intros [= <- <-]. case_bool_decide as Hs; cbn [negb].
  - split_and!; [done|set_solver| |].
    + intros j [->|Hj]%elem_of_cons; [by right|]. destruct (Hout j Hj) as [?|Hj']; [by left|]. right.
      rewrite Hm1 in Hj'. by destruct (decide (node = j)) as [<-|].
    + intros j. rewrite Hm2, Hm1. repeat case_decide; subst; set_solver.
  - split_and!; [by constructor|set_solver| |].
    + intros j [->|Hj]%elem_of_cons; [left; cbn; set_solver|]. destruct (decide (j = node)) as [->|]; [left; cbn; set_solver|].
      destruct (Hout j Hj) as [?|Hj']; [left; cbn; set_solver|]. right. rewrite Hm1 in Hj'. by case_decide.
    + intros j. rewrite Hm2, Hm1. repeat case_decide; subst; set_solver.
Qed.
(** A client that showed what was reported shows, brought up, what is now. *)
Lemma told_brings_up nodes (m base : gmap Uuid T) l m' : told now absent nodes m = (l, m') →
  (∀ j, shown absent m j = shown absent base j) → (∀ j, j ∉ nodes → shown absent m j = now j) →
  ∀ j, shown absent (set_listed absent (merge_sort by_node l) base) j = now j ∧ shown absent m' j = now j.
Proof.
  intros Ht Hb Hn j. destruct (told_spec _ _ _ _ Ht) as (Hf & Hin & Hout & Hm').
  assert (merge_sort by_node l ≡ₚ l) as Hp by apply merge_sort_Permutation.
  assert (j ∈ (merge_sort by_node l).*1 ↔ j ∈ l.*1) as Hj by (by rewrite Hp).
  rewrite (shown_listed (merge_sort by_node l)) by (by rewrite Hp). rewrite Hm', <- Hb. specialize (Hin j). specialize (Hout j). specialize (Hn j).
  destruct (decide (j ∈ nodes)) as [E|E].
  - split; [|done]. destruct (decide (j ∈ (merge_sort by_node l).*1)) as [_|E']; [done|]. destruct (Hout E) as [?|<-]; [tauto|done].
  - rewrite decide_False by tauto. split; exact (Hn E) || (rewrite <- Hb; exact (Hn E)).
Qed.
End Told.

Lemma dedup_next_elem (l : list Uuid) i : i ∈ dedup_next l ↔ i ∈ l.
Proof.
  induction l as [|x l IH]; [done|]. destruct l as [|y l]; [done|]. cbn [dedup_next] in *.
  case_decide as E; [subst y; rewrite IH; set_solver|]. rewrite !elem_of_cons, IH. set_solver.
Qed.
Lemma restarted_elem (l : list Uuid) i : i ∈ dedup_next (merge_sort Z.le l) ↔ i ∈ l.
Proof. rewrite dedup_next_elem. by rewrite (merge_sort_Permutation Z.le l). Qed.

(** ** One trace *)
(** What a client will show once it has cleared the nodes restarted. *)
Definition base_of (t : Trace) (v : View) : View :=
  if t_started t then mkView (forget (t_restarted t) (v_status v)) (forget (t_restarted t) (v_activity v)) else no_view.
(** What the trace remembers it reported is what its client shows. *)
Definition agrees (t : Trace) (v : View) : Prop :=
  (∀ node, shown NodeStatus.NotReached (t_status t) node = shown NodeStatus.NotReached (v_status (base_of t v)) node) ∧
  ∀ node, shown Activity.Idle (t_activity t) node = shown Activity.Idle (v_activity (base_of t v)) node.
(** What may differ from what was reported is listed. *)
Definition settled (statuses : gmap Uuid Status) (activity : gmap Uuid Activity) (t : Trace) : Prop :=
  (∀ node, node ∉ t_status_changed t → shown NodeStatus.NotReached (t_status t) node = status_now statuses node) ∧
  ∀ node, node ∉ t_activity_changed t → shown Activity.Idle (t_activity t) node = activity_now activity node.
Definition in_step (statuses : gmap Uuid Status) (activity : gmap Uuid Activity) (t : Trace) (v : View) : Prop :=
  t = new_trace (t_handle t) (t_options t) ∨
  (t_started t = true ∧ is_Some (t_last_tick t) ∧ agrees t v ∧ settled statuses activity t).
(** The report [report_one] is to write. *)
Definition sent (tick revision : Z) (now : option Z) (statuses : gmap Uuid Status) (activity : gmap Uuid Activity)
    (outputs : option (Uuid → list (Uuid * Value))) (t : Trace) : option TraceReport :=
  let '(r, t') := trace_report tick statuses activity outputs t in
  let r := with_revision_of revision t' r in
  if negb (due now t) || (t_started t && report_is_empty r) then None else Some r.

Lemma changes_spec {T} `{EqDecision T} (before after : gmap Uuid T) node : node ∉ changes before after → before !! node = after !! node.
Proof.
  unfold changes. rewrite not_elem_of_app. intros [Ha Hb]. destruct (after !! node) as [x|] eqn:Ea.
  - destruct (decide (before !! node = Some x)) as [|E]; [done|]. destruct Ha. apply list_elem_of_fmap. exists (node, x).
    split; [done|]. apply list_elem_of_filter. split; [done|]. by apply elem_of_map_to_list.
  - destruct (before !! node) as [y|] eqn:Eb; [|done]. destruct Hb. apply list_elem_of_filter. split; [done|].
    apply list_elem_of_fmap. exists (node, y). split; [done|]. by apply elem_of_map_to_list.
Qed.
Lemma not_a_key {T} (m : gmap Uuid T) node : node ∉ (map_to_list m).*1 → m !! node = None.
Proof.
  intros Hn. destruct (m !! node) as [x|] eqn:Em; [|done]. destruct Hn. apply list_elem_of_fmap. exists (node, x).
  split; [done|]. by apply elem_of_map_to_list.
Qed.
Lemma status_now_same (m m' : gmap Uuid Status) node : m !! node = m' !! node → status_now m node = status_now m' node.
Proof. unfold status_now. by intros ->. Qed.

Lemma to_tell_ready prev pact statuses activity t v : in_step prev pact t v →
  let t1 := to_tell (changes prev statuses) (changes pact activity) statuses activity t in
  agrees t1 v ∧ settled statuses activity t1 ∧ (t_started t1 = true ↔ is_Some (t_last_tick t1)) ∧ (t_reported_at t1 = None ∨ t_started t1 = true).
Proof.
  intros [Ht|(Hs & Hl & Ha & Hst & Hac)]; cbv zeta; split_and!.
  - rewrite Ht. by split.
  - rewrite Ht. split; cbn; intros node Hn; unfold shown, status_now, activity_now; rewrite lookup_empty;
      rewrite (not_a_key _ node); [done|set_solver|done|set_solver].
  - rewrite Ht. cbn. split; [done|]. by intros [? ?].
  - left. by rewrite Ht.
  - exact Ha.
  - unfold to_tell. rewrite Hs. split; cbn; intros node [Hn Hc]%not_elem_of_union; rewrite not_elem_of_list_to_set in Hn.
    + rewrite Hst by done. apply status_now_same. by apply changes_spec.
    + rewrite Hac by done. unfold activity_now. f_equal. by apply changes_spec.
  - done.
  - by right.
Qed.

(** A report made brings a view in step up, and leaves the trace saying so. *)
Lemma trace_report_shows tick statuses activity outputs t v r t' :
  agrees t v → settled statuses activity t → (t_started t = true ↔ is_Some (t_last_tick t)) →
  trace_report tick statuses activity outputs t = (r, t') →
  shows (apply_report r v) statuses activity ∧ shows (mkView (t_status t') (t_activity t')) statuses activity ∧
  t_started t' = t_started t ∧ t_last_tick t' = t_last_tick t ∧ t_restarted t' = [] ∧ t_reported_at t' = t_reported_at t ∧
  r_since r = t_last_tick t ∧ (r_restarted r = [] → t_restarted t = []) ∧ t_handle t' = t_handle t.
Proof.
  intros [Hs Ha] [Hst Hac] Hl Hr. unfold trace_report in Hr.
  destruct (told (status_now statuses) _ _ _) as [ls ms] eqn:Es. destruct (told (activity_now activity) _ _ _) as [la ma] eqn:Ea.
  destruct (match outputs with Some _ => _ | None => _ end) as [lv mv]. injection Hr as <- <-. cbn.
  pose (base := match t_last_tick t with None => no_view
    | Some _ => mkView (forget (dedup_next (merge_sort Z.le (t_restarted t))) (v_status v)) (forget (dedup_next (merge_sort Z.le (t_restarted t))) (v_activity v)) end).
  assert ((∀ node, shown NodeStatus.NotReached (v_status (base_of t v)) node = shown NodeStatus.NotReached (v_status base) node) ∧
    ∀ node, shown Activity.Idle (v_activity (base_of t v)) node = shown Activity.Idle (v_activity base) node) as [Hb1 Hb2].
  { unfold base_of, base. destruct (t_started t) eqn:Et.
    - destruct (proj1 Hl eq_refl) as [x ->]. cbn. split; intros node;
        apply (shown_forget_ext _ (t_restarted t) (dedup_next (merge_sort Z.le (t_restarted t))));
        intros i; symmetry; apply restarted_elem.
    - destruct (t_last_tick t); [|done]. destruct Hl as [_ Hl]. by discriminate Hl. }
  pose proof (told_brings_up _ _ _ (t_status t) (v_status base) _ _ Es ltac:(intros j; rewrite Hs; apply Hb1)
    ltac:(intros j Hj; apply Hst; by rewrite elem_of_elements in Hj)) as Hus.
  pose proof (told_brings_up _ _ _ (t_activity t) (v_activity base) _ _ Ea ltac:(intros j; rewrite Ha; apply Hb2)
    ltac:(intros j Hj; apply Hac; by rewrite elem_of_elements in Hj)) as Hua.
  split_and!; [split; intros node; [apply Hus|apply Hua]|split; intros node; [apply Hus|apply Hua]|done..| |done].
  intros Hn. destruct (t_restarted t) as [|x l]; [done|]. exfalso.
  apply (not_elem_of_nil x). rewrite <- Hn. apply restarted_elem. set_solver.
Qed.

Lemma forget_nil {T} (m : gmap Uuid T) : forget [] m = m.
Proof. apply map_filter_id. intros. set_solver. Qed.
(** A trace that states a tick, and a view that shows it. *)
Lemma told_agrees statuses activity t v : t_started t = true → t_restarted t = [] →
  shows (mkView (t_status t) (t_activity t)) statuses activity → shows v statuses activity → agrees t v.
Proof.
  intros Hs Hr [Ht1 Ht2] [Hv1 Hv2]. unfold agrees, base_of. rewrite Hs, Hr, !forget_nil. cbn in *.
  split; intros node; [by rewrite Ht1, Hv1|by rewrite Ht2, Hv2].
Qed.
Lemma told_settled statuses activity t : shows (mkView (t_status t) (t_activity t)) statuses activity → settled statuses activity t.
Proof. intros [H1 H2]. by split; intros node _; [apply H1|apply H2]. Qed.

(** What a client makes of the value its feedback key holds. *)
Section Clients.
Context {S X : Type} `{DS : DataStore S} `{UC : UuidCrate} `{DH : DefaultHasher}.
Local Abbreviation W := (World S X).
Definition read_value (value : Value) (v : View) : View :=
  match decode_report value with Ok r => apply_report r v | Err _ => v end.
Definition follow (s : option TraceReport) (e : option TraceError) (v : View) : View :=
  match s, e with Some r, None => read_value (encode_report r) v | _, _ => v end.

Lemma follow_sent r v : follow (Some r) None v = apply_report r v.
Proof. unfold follow, read_value. by rewrite decode_encode_report. Qed.
Lemma nothing_told r v : is_Some (r_since r) → report_is_empty r = true → shows (apply_report r v) = shows v.
Proof.
  intros [x Hx] He. unfold report_is_empty in He. rewrite !andb_true_iff in He. destruct He as [[[[Hs Ha] _] Hr] _].
  destruct (r_status r) eqn:Es, (r_activity r) eqn:Ea, (r_restarted r) eqn:Er; try done.
  unfold apply_report, shows. rewrite Hx, Es, Ea, Er. cbn.
  by rewrite !forget_nil.
Qed.

(** What a trace's part of a tick leaves the trace and its client with. *)
Lemma report_one_step tick revision now prev pact statuses activity (outputs : W → option (Uuid → list (Uuid * Value))) t v w t' e w' :
  in_step prev pact t v →
  let t1 := to_tell (changes prev statuses) (changes pact activity) statuses activity t in
  report_one tick revision now statuses activity outputs t1 w = (t', e, w') →
  let v' := follow (sent tick revision now statuses activity (outputs w) t1) e v in
  in_step statuses activity t' v' ∧ (due now t = true → e = None ∨ t_started t' = true → shows v' statuses activity).
Proof.
  intros Hin t1 Hone v'. destruct (to_tell_ready prev pact statuses activity t v Hin) as (Ha & Hs & Hl & Hd). fold t1 in Ha, Hs, Hl, Hd.
  unfold report_one in Hone. subst v'. unfold sent. assert (due now t = due now t1) as -> by done.
  destruct (due now t1) eqn:Ed; cbn [negb orb] in *.
  2:{ injection Hone as <- <- <-. destruct (trace_report _ _ _ _ _). split; [|done]. right.
      assert (t_started t1 = true) as Hst. { destruct Hd as [Hd|]; [|done]. unfold due in Ed. rewrite Hd in Ed. by destruct (min_interval_ns _). }
      split_and!; [done|by apply Hl|done..]. }
  destruct (trace_report tick statuses activity (outputs w) t1) as [r t2] eqn:Er.
  destruct (trace_report_shows _ _ _ _ _ v _ _ Ha Hs Hl Er) as (Hv & Ht & Hst & Hlt & Hre & _ & Hsi & Hrn & Hh).
  set (r' := with_revision_of revision t2 r) in *.
  assert (apply_report r' v = apply_report r v) as Hrr by done. rewrite negb_involutive in Hone.
  destruct (t_started t1 && report_is_empty r') eqn:Ee.
  - injection Hone as <- <- <-. cbn [follow]. apply andb_true_iff in Ee as [Es Ee].
    assert (shows v statuses activity) as Hv'. { rewrite <- Hrr, nothing_told in Hv; [done| |done]. cbn. rewrite Hsi. by apply Hl. }
    split; [|done]. right. split_and!; [congruence|rewrite Hlt; by apply Hl|..].
    + by apply (told_agrees statuses activity); [congruence|..].
    + by apply told_settled.
  - destruct (publish t2 r' (negb (t_started t1)) w) as [[?|err] w1]; injection Hone as <- <- <-.
    + rewrite follow_sent, Hrr. split; [|done]. right. split_and!; [done|done|..].
      * by apply (told_agrees statuses activity).
      * by apply told_settled.
    + split; [by left|]. intros _ [?|?]; discriminate.
Qed.


(** ** Every trace *)
Fixpoint follow_each (one : Trace → W → Trace * option TraceError * W) (send : Trace → W → option TraceReport)
    (l : list Trace) (vs : list View) (w : W) : list View :=
  match l, vs with
  | t :: l, v :: vs => let '(_, e, w') := one t w in follow (send t w) e v :: follow_each one send l vs w'
  | _, _ => []
  end.
Section Tick.
Context (tick revision : Z) (record : TickRecord) (tree : option (BehaviorTree (S := S))) (functions : FunctionIndex) (ts : Traces).
Definition tick_statuses : gmap Uuid Status := collected (rec_statuses record).
Definition tick_activity : gmap Uuid Activity := collected (rec_activity record).
Definition clock (w : W) : option Z :=
  if existsb (λ t, match min_interval_ns (t_options t) with Some _ => true | None => false end) (running ts)
  then device_time (store w) else None.
Definition outputs_at (w : W) : option (Uuid → list (Uuid * Value)) :=
  (λ tree i, outputs_of tree w functions i (foldl take_return (last_returns ts) (rec_returns record) !! i)) <$> tree.
Definition told_tick (t : Trace) : Trace :=
  to_tell (changes (prev_statuses ts) tick_statuses) (changes (prev_activity ts) tick_activity) tick_statuses tick_activity t.
Definition part (now : option Z) (t : Trace) (w : W) : Trace * option TraceError * W :=
  report_one tick revision now tick_statuses tick_activity outputs_at (told_tick t) w.
Definition sends (now : option Z) (t : Trace) (w : W) : option TraceReport :=
  sent tick revision now tick_statuses tick_activity (outputs_at w) (told_tick t).
(** The clients' views after the tick's reports. *)
Definition views_after (vs : list View) (w : W) : list View :=
  follow_each (part (clock w)) (sends (clock w)) (running ts) vs w.

Lemma report_parts (w : W) : report tick revision record tree functions ts w =
  let '(l, failure, w') := report_each (part (clock w)) (running ts) None w in
  (match failure with Some e => Err e | None => Ok tt end,
   mkTraces l tick_statuses tick_activity (foldl take_return (last_returns ts) (rec_returns record)), drained record, w').
Proof. reflexivity. Qed.
Lemma failure_kept (one : Trace → W → Trace * option TraceError * W) l e w : ∃ e', (report_each one l (Some e) w).1.2 = Some e'.
Proof.
  revert e w. induction l as [|t l IH]; intros e w; cbn; [by exists e|].
  destruct (one t w) as [[t' e'] w']. specialize (IH e w'). by destruct (report_each one l (Some e) w') as [[l' f'] w2].
Qed.
Lemma report_each_step now l vs f (w : W) l' f' w' :
  Forall2 (in_step (prev_statuses ts) (prev_activity ts)) l vs →
  report_each (part now) l f w = (l', f', w') →
  let vs' := follow_each (part now) (sends now) l vs w in
  Forall2 (in_step tick_statuses tick_activity) l' vs' ∧
  ∀ i t t' v', l !! i = Some t → l' !! i = Some t' → vs' !! i = Some v' → due now t = true →
    f' = None ∨ t_started t' = true → shows v' tick_statuses tick_activity.
Proof.
  intros Hl. revert f w l' f' w'. induction Hl as [|t v l vs Ht Hl IH]; intros f w l' f' w'; cbn.
  { intros [= <- <- <-]. split; [constructor|]. by intros i t t' v' ?. }
  destruct (part now t w) as [[t1 e] w1] eqn:Ep. destruct (report_each (part now) l (first_error f e) w1) as [[l1 f1] w2] eqn:Er.
  intros [= <- <- <-]. destruct (IH _ _ _ _ _ Er) as [Hf Hi]. unfold part, told_tick in Ep.
  destruct (report_one_step _ _ _ _ _ _ _ _ _ _ _ _ _ _ Ht Ep) as [Hin Hsh]. split; [by constructor|].
  intros [|i] t0 t' v' H1 H2 H3 Hd Hor; cbn in H1, H2, H3; [|by eapply Hi].
  injection H1 as ->. injection H2 as ->. injection H3 as <-. apply Hsh; [done|].
  destruct Hor as [->|?]; [left|by right]. destruct e as [e|]; [|done]. exfalso.
  assert (∃ e0, first_error f (Some e) = Some e0) as [e0 He0] by (destruct f; cbn; eauto).
  rewrite He0 in Er. destruct (failure_kept (part now) l e0 w1) as [e1 He1]. by rewrite Er in He1.
Qed.
End Tick.

(** The operations the interpreter runs on its traces, and the views of their clients. *)
Inductive playing : Traces → list View → Prop :=
| play_none : playing no_traces []
| play_start ts vs handle options v : playing ts vs → playing (start handle options ts) (vs ++ [v])
| play_arm ts vs r : playing ts vs → playing (arm ts r).1 vs
| play_keep ts vs (tree : BehaviorTree (S := S)) : playing ts vs → playing (keep_returns_of tree ts) vs
| play_restart ts vs restarted : playing ts vs → playing (restart restarted ts) vs
| play_halt ts vs task at_ t : playing ts vs → list_find (λ t, th_id (t_handle t) = task) (running ts) = Some (at_, t) →
    playing (halt_trace task ts).2 (delete at_ vs)
| play_report ts vs tick revision record tree functions (w : W) : playing ts vs →
    playing (report tick revision record tree functions ts w).1.1.2 (views_after tick revision record tree functions ts vs w).

Lemma restart_in_step statuses activity restarted t v : in_step statuses activity t v → in_step statuses activity (restart_trace restarted t) v.
Proof.
  unfold restart_trace. intros [Ht|(Hs & Hl & [Ha1 Ha2] & [Hs1 Hs2])].
  { assert (t_started t = false) as -> by by rewrite Ht. by left. }
  rewrite Hs. right. unfold agrees, base_of in Ha1, Ha2. rewrite Hs in Ha1, Ha2. cbn in Ha1, Ha2. split_and!; [done|done|split|split].
  - intros node. cbn. change (filter _ (t_status t)) with (forget restarted (t_status t)).
    by rewrite <- shown_forget_app, !(shown_forget _ restarted), Ha1.
  - intros node. cbn. change (filter _ (t_activity t)) with (forget restarted (t_activity t)).
    by rewrite <- shown_forget_app, !(shown_forget _ restarted), Ha2.
  - intros node [Hn Hc]%not_elem_of_union. rewrite not_elem_of_list_to_set in Hn. rewrite <- (Hs1 _ Hc).
    cbn. change (filter _ (t_status t)) with (forget restarted (t_status t)). by rewrite shown_forget, decide_False.
  - intros node [Hn Hc]%not_elem_of_union. rewrite not_elem_of_list_to_set in Hn. rewrite <- (Hs2 _ Hc).
    cbn. change (filter _ (t_activity t)) with (forget restarted (t_activity t)). by rewrite shown_forget, decide_False.
Qed.
Lemma playing_in_step ts vs : playing ts vs → Forall2 (in_step (prev_statuses ts) (prev_activity ts)) (running ts) vs.
Proof.
  induction 1 as [|ts vs handle options v _ IH|ts vs r _ IH|ts vs tree _ IH|ts vs restarted _ IH|ts vs task at_ t _ IH Hf|ts vs tick revision record tree functions w _ IH];
    try exact IH.
  - constructor.
  - cbn. apply Forall2_app; [exact IH|]. constructor; [by left|constructor].
  - cbn. apply Forall2_fmap_l. eapply Forall2_impl; [exact IH|]. intros t v. apply restart_in_step.
  - unfold halt_trace. rewrite Hf. cbn.
    assert (Forall2 (in_step (prev_statuses ts) (prev_activity ts)) (delete at_ (running ts)) (delete at_ vs)) as Hd by by apply Forall2_delete.
    destruct (delete at_ (running ts)) as [|t' l]; cbn in *; [inversion Hd; constructor|exact Hd].
  - rewrite report_parts. destruct (report_each _ (running ts) None w) as [[l' f'] w'] eqn:Er. cbn.
    by apply (report_each_step _ _ _ _ _ _ _ _ _ _ _ _ _ _ IH Er).
Qed.

(** C9. Clients see what ticks do: over every sequence of traces started and
    halted, edits that restart nodes and reports, a client that reads each report
    of its trace, once a tick has reported to every due trace, shows exactly the
    tick's statuses and activities; where another trace's report failed, so does
    the client of each due trace whose own was written. *)
Theorem clients_show_the_tick ts vs tick revision record (tree : option (BehaviorTree (S := S))) functions (w : W) res ts' record' w' :
  playing ts vs → report tick revision record tree functions ts w = (res, ts', record', w') →
  ∀ i t t' v', running ts !! i = Some t → running ts' !! i = Some t' →
    views_after tick revision record tree functions ts vs w !! i = Some v' →
    due (clock ts w) t = true → res = Ok tt ∨ t_started t' = true →
    shows v' (collected (rec_statuses record)) (collected (rec_activity record)).
Proof.
  intros Hp Hr i t t' v' Ht Ht' Hv Hd Hor. apply playing_in_step in Hp. rewrite report_parts in Hr.
  destruct (report_each _ (running ts) None w) as [[l' f'] w1] eqn:Er. injection Hr as <- <- _ _.
  destruct (report_each_step _ _ _ _ _ _ _ _ _ _ _ _ _ _ Hp Er) as [_ Hs]. apply (Hs i t t' v' Ht Ht' Hv Hd).
  destruct Hor as [Hor|?]; [left; by destruct f'|by right].
Qed.
End Clients.

(** ** The feedback key *)
Section Feedback.
Context {S X : Type} `{DSL : DataStoreLaws S} `{UC : UuidCrate} `{DH : DefaultHasher}.
Local Abbreviation W := (World S X).
Lemma hm_get_in {V} k (v : V) m : hm_get k m = Some v → (k, v) ∈ m.
Proof.
  induction m as [|[k' v'] m IH]; [done|]. cbn. destruct (String.eqb_spec k k') as [->|]; [intros [= ->]; set_solver|].
  intros Hg. apply elem_of_cons. right. by apply IH.
Qed.
(** Reports of two ticks differ, as the store compares values. *)
Lemma reports_differ r0 r : r_tick r0 ≠ r_tick r → value_eqb (encode_report r0) (encode_report r) = false.
Proof.
  intros Hne. apply not_true_is_false. intros He. destruct (encoded_fields r0) as (kv0 & E0 & F0). destruct (encoded_fields r) as (kv & E & F).
  rewrite E0, E in He. cbn in He. apply andb_true_iff in He as [_ He]. unfold hm_eqb in He. apply andb_true_iff in He as [_ He].
  specialize (F0 0%nat ltac:(lia)). specialize (F 0%nat ltac:(lia)). unfold field_at in F0, F.
  change (encoded_field r0 0) with (Some (Value.U64 (r_tick r0))) in F0. change (encoded_field r 0) with (Some (Value.U64 (r_tick r))) in F.
  destruct (hm_get (name_at 0) (kv_fields kv0)) as [f0|] eqn:E1; [|discriminate F0]. cbn in F0. apply hm_get_in in E1.
  rewrite forallb_Forall, Forall_forall in He. specialize (He (name_at 0, f0) E1). cbn in He.
  change (hm_get "tick"%string (kv_fields kv)) with (hm_get (name_at 0) (kv_fields kv)) in *.
  destruct (hm_get (name_at 0) (kv_fields kv)) as [f|]; [|discriminate F]. cbn in F. rewrite F0, F, !andb_true_iff in He.
  destruct He as [_ He]. cbn in He. apply Hne. by apply Z.eqb_eq.
Qed.
(** What a key holds that a report of tick [tick] replaces. *)
Definition before_report (tick : Z) (old : option Value) : Prop :=
  old = None ∨ ∃ r0, old = Some (encode_report r0) ∧ r_tick r0 ≠ tick.
Lemma report_replaces old r : before_report (r_tick r) old → Store.keep old (Some (encode_report r)) = Some (encode_report r).
Proof. unfold Store.keep. intros [->|(r0 & -> & Hne)]; [done|]. cbn -[encode_report value_eqb]. by rewrite reports_differ. Qed.
Lemma write_single (s : S) key value : ok s →
  ∃ s', write (sc_single key value) s = Ok s' ∧ ok s' ∧ contents s' key = Store.keep (contents s key) (Some value) ∧
    ∀ k, k ≠ key → contents s' k = contents s k.
Proof.
  intros Hok. destruct (write_law s (sc_single key value) Hok) as (s' & Hw & [Hok' _] & Hc). exists s'. split_and!; [done|done|..].
  - rewrite Hc. unfold write_at. cbn. by rewrite decide_False, lookup_singleton_eq by set_solver.
  - intros k Hk. rewrite Hc. unfold write_at. cbn. by rewrite decide_False, lookup_singleton_ne by set_solver.
Qed.
Lemma reports_written keys r (w : W) : ok (store w) → NoDup keys → Forall (λ k, before_report (r_tick r) (contents (store w) k)) keys →
  ∃ w', write_reports keys r w = (Ok tt, w') ∧ ok (store w') ∧ (∀ k, k ∈ keys → contents (store w') k = Some (encode_report r)) ∧
    ∀ k, k ∉ keys → contents (store w') k = contents (store w) k.
Proof.
  intros Hok Hd Hb. revert w Hok Hb. induction Hd as [|key keys Hn Hd IH]; intros w Hok Hb; cbn [write_reports]; [exists w; set_solver|].
  apply Forall_cons in Hb as [Hk Hb]. destruct (write_single (store w) key (encode_report r) Hok) as (s' & -> & Hok' & Hc & Ho).
  destruct (IH (with_store s' w)) as (w' & Hw & Hok2 & Hin & Hout); [done| |].
  { rewrite Forall_forall in *. intros k Hin. cbn. rewrite Ho by (by intros ->). by apply Hb. }
  exists w'. split_and!; [done|done|..].
  - intros k [->|Hk']%elem_of_cons; [|by apply Hin]. rewrite Hout by done. cbn. by rewrite Hc, report_replaces.
  - intros k [Hne Hk']%not_elem_of_cons. rewrite Hout by done. by apply Ho.
Qed.

(** In a store that keeps its promises a report is always written, and every
    feedback key that held nothing or another tick's report then reads as a value
    that decodes to it; the status key turns [Running] at the first report, and no
    other key is touched. *)
Theorem published_reads_back t r first (w : W) :
  ok (store w) → NoDup (th_feedback (t_handle t)) → th_status (t_handle t) ∉ th_feedback (t_handle t) →
  (∀ k, k ∈ th_feedback (t_handle t) → before_report (r_tick r) (contents (store w) k)) →
  ∃ w', publish t r first w = (Ok tt, w') ∧ ok (store w') ∧
    (∀ k, k ∈ th_feedback (t_handle t) → ∃ value, Store.read (store w') [k] = [Some value] ∧ decode_report value = Ok r) ∧
    (first = true → contents (store w) (th_status (t_handle t)) = None → Store.read (store w') [th_status (t_handle t)] = [Some (status_value Running)]) ∧
    ∀ k, k ∉ th_feedback (t_handle t) → k ≠ th_status (t_handle t) ∨ first = false → contents (store w') k = contents (store w) k.
Proof.
  intros Hok Hd Hs Hb.
  assert (∃ w1, publish t r first w = write_reports (th_feedback (t_handle t)) r w1 ∧ ok (store w1) ∧
    (first = true → contents (store w) (th_status (t_handle t)) = None → contents (store w1) (th_status (t_handle t)) = Some (status_value Running)) ∧
    ∀ k, k ≠ th_status (t_handle t) ∨ first = false → contents (store w1) k = contents (store w) k) as (w1 & -> & Hok1 & Hst & Ho).
  { unfold publish. destruct first; [|by exists w].
    destruct (write_single (store w) (th_status (t_handle t)) (status_value Running) Hok) as (s' & -> & Hok' & Hc & Ho).
    exists (with_store s' w). split_and!; [done|done| |].
    - intros _ Hn. cbn. by rewrite Hc, Hn.
    - intros k [Hk|?]; [by apply Ho|done]. }
  destruct (reports_written (th_feedback (t_handle t)) r w1 Hok1 Hd) as (w' & -> & Hok' & Hin & Hout).
  { apply Forall_forall. intros k Hk. rewrite Ho by (left; by intros ->). by apply Hb. }
  exists w'. split_and!; [done|done| | |].
  - intros k Hk. exists (encode_report r). split; [|apply decode_encode_report]. rewrite read_law by done. cbn. by rewrite Hin.
  - intros Hf Hn. rewrite read_law by done. cbn. rewrite Hout by done. by rewrite Hst.
  - intros k Hk Hor. rewrite Hout by done. by apply Ho.
Qed.
End Feedback.
