(* ===== verification/FollowingExamples.v ===== *)
(** * A paced trace followed over two ticks, in the hash-map store *)

From S2P Require Import Prelude Values Extern Keys State Store SimpleStore Effects Nodes Schema Cells Ticks Lowering Reports Interpreter Traces Following.

#[local] Instance length_hasher : DefaultHasher := {| hash_str := λ s, Z.of_nat (String.length s) |}.
Definition one_handle : TaskHandle :=
  mkTaskHandle 7 (mkCall None 0 []) (mkKey "t/status") [mkKey "t/feedback"] [] [].
Definition one_trace : Traces := start one_handle (mkTraceOptions [] (Some 5)) no_traces.
Definition first_record : TickRecord := mkTickRecord true [(3, Failure); (4, Running)] [(9, Activity.Cached)] ∅ [].
Definition second_record : TickRecord := mkTickRecord true [(3, Failure)] [] ∅ [].
Definition no_tree : option (BehaviorTree (S := Inner)) := None.
Definition quiet_world : World Inner unit := mkWorld ∅ inner_new ∅ ∅ tt.
Definition after_first : result TraceError unit * Traces * TickRecord * World Inner unit :=
  report 1 1 first_record no_tree ∅ one_trace quiet_world.
Definition first_views : list View := views_after 1 1 first_record no_tree ∅ one_trace [no_view] quiet_world.
Definition edited : Traces := restart [3] after_first.1.1.2.
Definition after_second : result TraceError unit * Traces * TickRecord * World Inner unit :=
  report 2 1 second_record no_tree ∅ edited after_first.2.
Definition second_views : list View := views_after 2 1 second_record no_tree ∅ edited first_views after_first.2.

Lemma edited_playing : playing (X := unit) (S := Inner) edited first_views.
Proof.
  apply play_restart. unfold after_first, first_views. apply play_report.
  apply (play_start no_traces [] one_handle _ no_view). constructor.
Qed.
Lemma four {A B C D} (p : A * B * C * D) : p = (p.1.1.1, p.1.1.2, p.1.2, p.2).
Proof. by destruct p as [[[? ?] ?] ?]. Qed.
Lemma there {A} (o : option A) d : match o with Some _ => true | None => false end = true → o = Some (default d o).
Proof. by destruct o. Qed.
Definition the_trace (ts : Traces) : Trace := default (new_trace one_handle (mkTraceOptions [] None)) (running ts !! 0%nat).
(** The client shows the second tick: node 4 not reached, the restarted node 3 anew. *)
Lemma clients_show_the_tick_witness :
  shows (default no_view (second_views !! 0%nat)) (collected (rec_statuses second_record)) (collected (rec_activity second_record)).
Proof.
  apply (clients_show_the_tick edited first_views 2 1 second_record no_tree ∅ after_first.2
    after_second.1.1.1 after_second.1.1.2 after_second.1.2 after_second.2 edited_playing (four after_second)
    0 (the_trace edited) (the_trace after_second.1.1.2)).
  - apply there. vm_compute. reflexivity.
  - apply there. vm_compute. reflexivity.
  - apply there. vm_compute. reflexivity.
  - vm_compute. reflexivity.
  - right. vm_compute. reflexivity.
Defined.
Example second_view_shown : map (shown NodeStatus.NotReached (v_status (default no_view (second_views !! 0%nat)))) [3; 4] = [NodeStatus.Failure; NodeStatus.NotReached].
Proof. vm_compute. reflexivity. Qed.

Definition a_report : TraceReport := mkTraceReport 2 (Some 1) [(3, NodeStatus.Failure)] [] [] [3] None.
Lemma published_reads_back_witness :
  ∃ w', publish (X := unit) (new_trace one_handle (mkTraceOptions [] None)) a_report true quiet_world = (Ok tt, w') ∧
    ∃ value, Store.read (store w') [mkKey "t/feedback"] = [Some value] ∧ decode_report value = Ok a_report.
Proof.
  destruct (published_reads_back (DSL := SimpleDataStoreLaws) (X := unit) (new_trace one_handle (mkTraceOptions [] None)) a_report true quiet_world)
    as (w' & Hp & _ & Hr & _).
  - apply inner_new_ok.
  - apply NoDup_singleton.
  - intros H%list_elem_of_singleton. discriminate H.
  - intros k ->%list_elem_of_singleton. left. reflexivity.
  - exists w'. split; [exact Hp|]. apply Hr. apply list_elem_of_here.
Defined.
