(* ===== verification/Regexes.v ===== *)
(** * Regular expressions over text, and the longest match

    Text is a list of [char]s, a char its code point; positions in it are bytes
    of its UTF-8 form, as the source's. A regular expression is matched by
    derivatives; [lang] is what it means. *)

From S2P Require Import Prelude.

(** ** Text *)
Abbreviation char := Z.
Abbreviation Str := (list Z).
Definition len_utf8 (c : char) : nat := if c <? 0x80 then 1 else if c <? 0x800 then 2 else if c <? 0x10000 then 3 else 4.
(** [str::len] *)
Definition str_len (s : Str) : nat := sum_list_with len_utf8 s.
(** [str::split_at]: a panic off a char boundary. *)
Fixpoint split_bytes (n : nat) (s : Str) : option (Str * Str) :=
  match n, s with
  | O, _ => Some ([], s)
  | _, [] => None
  | _, c :: s' => if (len_utf8 c <=? n)%nat then '(a, b) ← split_bytes (n - len_utf8 c) s'; Some (c :: a, b) else None
  end.
(** [&text[a..b]] *)
Definition slice (s : Str) (a b : nat) : option Str :=
  if (a <=? b)%nat then '(_, r) ← split_bytes a s; '(x, _) ← split_bytes (b - a) r; Some x else None.
(** [char::is_whitespace]: Unicode's [White_Space]. *)
Definition is_whitespace (c : char) : bool :=
  ((9 <=? c) && (c <=? 13)) || (c =? 32) || (c =? 0x85) || (c =? 0xA0) || (c =? 0x1680)
  || ((0x2000 <=? c) && (c <=? 0x200A)) || (c =? 0x2028) || (c =? 0x2029) || (c =? 0x202F) || (c =? 0x205F) || (c =? 0x3000).
Fixpoint trim_start (s : Str) : Str :=
  match s with c :: s' => if is_whitespace c then trim_start s' else s | [] => [] end.
Definition trim_end (s : Str) : Str := rev (trim_start (rev s)).
Definition trim (s : Str) : Str := trim_end (trim_start s).
(** A literal of the source, as text. *)
Fixpoint lit (s : string) : Str :=
  match s with String.EmptyString => [] | String.String a s => Z.of_nat (Ascii.nat_of_ascii a) :: lit s end.

(** ** Regular expressions *)
Inductive Regex :=
| Never
| Empty
| One (p : char → bool)
| Seq (a b : Regex)
| Or (a b : Regex)
| Many (a : Regex).
(** [Seq] and [Or], simplified *)
Definition seq (a b : Regex) : Regex := match a with Never => Never | Empty => b | _ => Seq a b end.
Definition or (a b : Regex) : Regex := match a, b with Never, _ => b | _, Never => a | _, _ => Or a b end.
Fixpoint nullable (r : Regex) : bool :=
  match r with
  | Never | One _ => false
  | Empty | Many _ => true
  | Seq a b => nullable a && nullable b
  | Or a b => nullable a || nullable b
  end.
Fixpoint deriv (c : char) (r : Regex) : Regex :=
  match r with
  | Never | Empty => Never
  | One p => if p c then Empty else Never
  | Seq a b => if nullable a then or (seq (deriv c a) b) (deriv c b) else seq (deriv c a) b
  | Or a b => or (deriv c a) (deriv c b)
  | Many a => seq (deriv c a) (Many a)
  end.
Definition is_never (r : Regex) : bool := match r with Never => true | _ => false end.
Fixpoint longest_from (r : Regex) (s : Str) (n : nat) (best : option nat) : option nat :=
  let best := if nullable r then Some n else best in
  if is_never r then best else match s with [] => best | c :: s => longest_from (deriv c r) s (S n) best end.
(** How many chars the longest prefix of [s] matching [r] has. *)
Definition longest (r : Regex) (s : Str) : option nat := longest_from r s 0 None.

(** The notations of the source's patterns *)
Definition chr (a : Ascii.ascii) : Regex := One (λ c, c =? Z.of_nat (Ascii.nat_of_ascii a)).
Fixpoint word (s : string) : Regex :=
  match s with String.EmptyString => Empty | String.String a s => seq (chr a) (word s) end.
Definition opt (r : Regex) : Regex := or r Empty.
Definition plus (r : Regex) : Regex := Seq r (Many r).
Fixpoint times (n : nat) (r : Regex) : Regex := match n with O => Empty | 1%nat => r | S n => Seq r (times n r) end.
Definition any_of (l : list Regex) : Regex := foldr or Never l.

(** ** What they match *)
Inductive lang : Regex → Str → Prop :=
| l_empty : lang Empty []
| l_one p c : p c = true → lang (One p) [c]
| l_seq a b s t : lang a s → lang b t → lang (Seq a b) (s ++ t)
| l_left a b s : lang a s → lang (Or a b) s
| l_right a b s : lang b s → lang (Or a b) s
| l_stop a : lang (Many a) []
| l_more a s t : lang a s → lang (Many a) t → lang (Many a) (s ++ t).

Lemma lang_seq a b s : lang (seq a b) s → lang (Seq a b) s.
Proof.
  destruct a; cbn; intros H; try done; try by inversion H.
  rewrite <- (app_nil_l s). by repeat constructor.
Qed.
Lemma lang_or a b s : lang (or a b) s → lang (Or a b) s.
Proof. destruct a, b; cbn; intros H; try done; (by apply l_left) || (by apply l_right). Qed.
Lemma nullable_lang r : nullable r = true → lang r [].
Proof.
  induction r as [| |p|a IHa b IHb|a IHa b IHb|a IHa]; cbn; intros H; try done; [constructor|..|constructor].
  - apply andb_true_iff in H as [Ha Hb]. rewrite <- (app_nil_l []). constructor; [by apply IHa|by apply IHb].
  - apply orb_true_iff in H as [H|H]; [by apply l_left, IHa|by apply l_right, IHb].
Qed.
Lemma deriv_lang c r s : lang (deriv c r) s → lang r (c :: s).
Proof.
  revert s. induction r as [| |p|a IHa b IHb|a IHa b IHb|a IHa]; cbn; intros s H; try by inversion H.
  - destruct (p c) eqn:E; inversion H; subst. by constructor.
  - assert (∀ s, lang (seq (deriv c a) b) s → lang (Seq a b) (c :: s)) as Hs.
    { intros s' H'%lang_seq. inversion H'; subst. rewrite app_comm_cons. constructor; [by apply IHa|done]. }
    destruct (nullable a) eqn:E; [|by apply Hs]. apply lang_or in H. inversion H; subst; [by apply Hs|].
    rewrite <- (app_nil_l (c :: s)). constructor; [by apply nullable_lang|by apply IHb].
  - apply lang_or in H. inversion H; subst; [by apply l_left, IHa|by apply l_right, IHb].
  - apply lang_seq in H. inversion H; subst. rewrite app_comm_cons. constructor; [by apply IHa|done].
Qed.
Lemma longest_from_spec r s n best k : longest_from r s n best = Some k →
  best = Some k ∨ ∃ m, k = (n + m)%nat ∧ (m ≤ length s)%nat ∧ lang r (take m s).
Proof.
  revert r n best. induction s as [|c s IH]; intros r n best; cbn [longest_from].
  - destruct (nullable r) eqn:E, (is_never r); intros H; try (by left); right; injection H as <-; exists 0%nat; rewrite Nat.add_0_r;
      (split_and!; [done|cbn; lia|by apply nullable_lang]).
  - assert (∀ b : option nat, b = Some k → b = (if nullable r then Some n else best) →
      best = Some k ∨ ∃ m, k = (n + m)%nat ∧ (m ≤ length (c :: s))%nat ∧ lang r (take m (c :: s))) as Hb.
    { intros b -> Hb. destruct (nullable r) eqn:E; [|by left]. right. injection Hb as ->. exists 0%nat.
      rewrite Nat.add_0_r. split_and!; [done|lia|]. cbn. by apply nullable_lang. }
    destruct (is_never r); [intros H; by apply (Hb _ H)|]. intros H. destruct (IH _ _ _ H) as [H'|(m & -> & Hm & Hl)]; [by apply (Hb _ H')|].
    right. exists (S m). split_and!; [lia|cbn; lia|]. cbn. by apply deriv_lang.
Qed.
(** The longest match is a prefix that matches. *)
Lemma longest_matches r s k : longest r s = Some k → (k ≤ length s)%nat ∧ lang r (take k s).
Proof. intros H. destruct (longest_from_spec _ _ _ _ _ H) as [?|(m & -> & ? & ?)]; [done|]. by split. Qed.
