(* ===== verification/Tokens.v ===== *)
(** * The lexer of the behavior text language: [arora-behavior-tree/src/text/lexer.rs]

    Raw tokens, cut by the [logos] crate from the patterns the source declares,
    and the layout that turns indentation into structure. A message is what it is
    printed from. *)

From Stdlib Require Import Ascii.
From S2P Require Import Prelude Regexes.

(** ** Spans and diagnostics: [text/ast.rs], [text/mod.rs] *)
Record Span := mkSpan { sp_start : nat; sp_end : nat }.
(** [Span::to] *)
Definition span_to (a b : Span) : Span := mkSpan (sp_start a) (Nat.max (sp_end b) (sp_start a)).
Inductive Severity := SevError | SevWarning.
Inductive Message :=
| PathUnclosed
| NotClosed (bracket : Str)
| TabIndents
| NoEnclosingBlock
| UnderNoNode
| BlocksTooDeep
| PastNode (found : Str)
| ExpectedEquals
| ComputedFunction
| ExpectedFunction (found : Str)
| ExpectedCall (function : Str)
| ExpectedFunctionName
| ExpectedComma (close : Str) (found : Str)
| ComputedParameter
| ExpectedParameter (found : Str)
| ExpectedColon
| ExpressionsTooDeep
| NoPath
| NotOfLanguage (found : Str)
| ExpectedValue (found : Str)
| AnonymousCell
| NotAKey
| NoPort (node : Str)
| ExpectedNodeName
| ExpectedParameterName
| ExpectedUnitClose
| ExpectedSomeClose
| ExpectedId
| ExpectedUuidClose
| ExpectedString
| ExpectedJsonClose
| BadUnicode
| UnknownEscape
| NestsTooDeep.
Record Diagnostic := mkDiagnostic { d_severity : Severity; d_message : Message; d_span : Span }.
(** [Diagnostic::error] *)
Definition diag_error (m : Message) (s : Span) : Diagnostic := mkDiagnostic SevError m s.

(** ** [enum Raw], with its patterns *)
Inductive Raw :=
| RNewline | RComment | RIdent | RUuid | RNumber | RString | RVariable | RQuotedVariable
| RAt | RDot | RPathSep | RColon | REquals | RComma | RLParen | RRParen | RLBracket | RRBracket.
#[export] Instance Raw_eq_dec : EqDecision Raw.
Proof. solve_decision. Defined.

Definition between (a b : Ascii.ascii) (c : char) : bool := (Z.of_nat (Ascii.nat_of_ascii a) <=? c) && (c <=? Z.of_nat (Ascii.nat_of_ascii b)).
Definition is_char (a : Ascii.ascii) (c : char) : bool := c =? Z.of_nat (Ascii.nat_of_ascii a).
Definition is_digit (c : char) : bool := between "0"%char "9"%char c.
Definition is_hexdigit (c : char) : bool := is_digit c || between "a"%char "f"%char c || between "A"%char "F"%char c.
Definition is_alpha (c : char) : bool := between "A"%char "Z"%char c || between "a"%char "z"%char c || is_char "_"%char c.
Definition is_break (c : char) : bool := (c =? 13) || (c =? 10).
Definition BOM : char := 0xFEFF.
Definition is_skipped (c : char) : bool := (c =? 32) || (c =? 9) || (c =? 12) || (c =? BOM).
Definition digits : Regex := plus (One is_digit).
Definition hexes (n : nat) : Regex := times n (One is_hexdigit).
Definition number_regex : Regex :=
  Seq (opt (chr "-"%char))
    (Seq (or (or (Seq digits (Seq (opt (Seq (chr "."%char) digits)) (opt (Seq (One (λ c, is_char "e"%char c || is_char "E"%char c)) (Seq (opt (or (chr "+"%char) (chr "-"%char))) digits)))))
                 (word "NaN"))
             (word "inf"))
       (opt (any_of (word <$> ["u8"; "u16"; "u32"; "u64"; "i8"; "i16"; "i32"; "i64"; "f32"; "f64"]%string)))).
(** What a string's quotes hold. *)
Definition quoted_char : Regex :=
  Or (One (λ c, negb (is_char (Ascii.ascii_of_nat 34) c || is_char "\"%char c || is_break c))) (Seq (chr "\"%char) (One (λ c, negb (is_break c)))).
Definition dquote : Regex := One (λ c, c =? 34).
Definition raw_regex (r : Raw) : Regex :=
  match r with
  | RNewline => any_of [Seq (One (λ c, c =? 13)) (One (λ c, c =? 10)); One (λ c, c =? 13); One (λ c, c =? 10)]
  | RComment => Seq (chr "#"%char) (Many (One (λ c, negb (is_break c))))
  | RIdent => Seq (One is_alpha) (Many (One (λ c, is_alpha c || is_digit c)))
  | RUuid => Seq (hexes 8) (Seq (chr "-"%char) (Seq (hexes 4) (Seq (chr "-"%char) (Seq (hexes 4) (Seq (chr "-"%char) (Seq (hexes 4) (Seq (chr "-"%char) (hexes 12))))))))
  | RNumber => number_regex
  | RString => Seq dquote (Seq (Many quoted_char) dquote)
  | RVariable => Seq (chr "{"%char) (Seq (Many (One (λ c, negb (is_char "}"%char c || (c =? 34) || is_break c)))) (chr "}"%char))
  | RQuotedVariable => Seq (chr "{"%char) (Seq dquote (Seq (Many quoted_char) (Seq dquote (chr "}"%char))))
  | RAt => chr "@"%char
  | RDot => chr "."%char
  | RPathSep => word "::"
  | RColon => chr ":"%char
  | REquals => chr "="%char
  | RComma => chr ","%char
  | RLParen => chr "("%char
  | RRParen => chr ")"%char
  | RLBracket => chr "["%char
  | RRBracket => chr "]"%char
  end.
Definition all_raws : list Raw :=
  [RNewline; RComment; RIdent; RUuid; RNumber; RString; RVariable; RQuotedVariable; RAt; RDot; RPathSep; RColon; REquals;
   RComma; RLParen; RRParen; RLBracket; RRBracket].
(** The one priority stated is above the others. *)
Definition priority (r : Raw) : nat := match r with RNumber => 4 | _ => 2 end.

(** ** [Raw::lexer]

    [logos] takes the longest match of the patterns, of the highest priority;
    where none matches, how much it leaves out is its own. *)
Class LogosCrate := { error_chars : Str → nat }.
Class LogosLaws `{LogosCrate} : Prop := { error_chars_law s : s ≠ [] → (0 < error_chars s ≤ length s)%nat }.
Inductive Lexeme := Skip | Cut (r : Raw) | NoToken.
Definition longer (a b : Lexeme * nat * nat) : Lexeme * nat * nat :=
  let '(_, na, pa) := a in let '(_, nb, pb) := b in
  if (na <? nb)%nat || (na =? nb)%nat && (pa <? pb)%nat then b else a.
Definition candidates (s : Str) : list (Lexeme * nat * nat) :=
  match longest (plus (One is_skipped)) s with Some n => [(Skip, n, 2%nat)] | None => [] end
  ++ omap (λ r, (λ n, (Cut r, n, priority r)) <$> longest (raw_regex r) s) all_raws.
Definition lexeme `{LogosCrate} (s : Str) : Lexeme * nat :=
  match candidates s with
  | [] => (NoToken, error_chars s)
  | c :: l => (foldl longer c l).1
  end.

(** ** [enum Kind], [struct Token] *)
Inductive Kind :=
| Comment | Ident | Uuid | Number | String | Variable_ | QuotedVariable | Path | At | Dot | PathSep | Colon | Equals | Comma
| LParen | RParen | LBracket | RBracket | Newline | Indent | Dedent | Error | Eof.
#[export] Instance Kind_eq_dec : EqDecision Kind.
Proof. solve_decision. Defined.
Definition kind_of (r : Raw) : Kind :=
  match r with
  | RNewline => Newline | RComment => Comment | RIdent => Ident | RUuid => Uuid | RNumber => Number | RString => String
  | RVariable => Variable_ | RQuotedVariable => QuotedVariable | RAt => At | RDot => Dot | RPathSep => PathSep | RColon => Colon
  | REquals => Equals | RComma => Comma | RLParen => LParen | RRParen => RParen | RLBracket => LBracket | RRBracket => RBracket
  end.
Record Token := mkToken { kind : Kind; tspan : Span }.

(** [selects] *)
Definition selects (before : option Kind * option Kind) : bool :=
  match before with
  | (_, Some (Variable_ | QuotedVariable | RParen | RBracket | Path)) => true
  | (Some (At | Dot), Some (Ident | Uuid)) => true
  | _ => false
  end.
(** [rest.find([']', '\r', '\n'])], with what it finds *)
Fixpoint path_end (s : Str) : nat * bool :=
  match s with
  | [] => (0%nat, false)
  | c :: s' => if is_char "]"%char c then (0%nat, true) else if is_break c then (0%nat, false) else let '(n, b) := path_end s' in (S n, b)
  end.

Section Lexer.
Context `{LC : LogosCrate}.
(** The first lexeme of what is left of the text, at [at_]: its token, what is
    wrong with it, and where the next one is. *)
Record Cutting := mkCutting {
  cut_token : option Token; cut_diags : list Diagnostic; next_at : nat; next_before : option Kind * option Kind; next_text : Str }.
Definition cut (at_ : nat) (before : option Kind * option Kind) (s : Str) : Cutting :=
  let '(l, n) := lexeme s in
  let stop := (at_ + str_len (take n s))%nat in
  let rest := drop n s in
  match l with
  | Skip => mkCutting None [] stop before rest
  | _ =>
      let k := match l with Cut r => kind_of r | _ => Error end in
      if bool_decide (k = LBracket) && selects before then
        let '(m, closed) := path_end rest in
        let length := if closed : bool then S m else m in
        let stop := (stop + str_len (take length rest))%nat in
        mkCutting (Some (mkToken Path (mkSpan at_ stop)))
          (if closed then [] else [diag_error PathUnclosed (mkSpan at_ stop)])
          stop (before.2, Some Path) (drop length rest)
      else
        mkCutting (Some (mkToken k (mkSpan at_ stop))) [] stop
          (if decide (k = Comment) then before else (before.2, Some k)) rest
  end.
Fixpoint raw_tokens (fuel at_ : nat) (before : option Kind * option Kind) (s : Str) : list Token * list Diagnostic :=
  match fuel, s with
  | O, _ | _, [] => ([], [])
  | S fuel, _ =>
      let c := cut at_ before s in
      let '(toks, ds) := raw_tokens fuel (next_at c) (next_before c) (next_text c) in
      (option_list (cut_token c) ++ toks, cut_diags c ++ ds)
  end.

(** [RESERVED], [is_name], [is_parameter_name] *)
Definition RESERVED : list Str := lit <$> ["true"; "false"; "none"; "some"; "uuid"; "json"]%string.
Definition is_name (text : Str) : bool :=
  match (raw_tokens (S (length text)) 0 (None, None) text).1 with
  | [t] => bool_decide (kind t = Ident) && (sp_start (tspan t) =? 0)%nat && (sp_end (tspan t) =? str_len text)%nat
           && negb (bool_decide (text ∈ RESERVED))
  | _ => false
  end.
Fixpoint split_dots (s : Str) (cur : Str) : list Str :=
  match s with
  | [] => [rev cur]
  | c :: s => if is_char "."%char c then rev cur :: split_dots s [] else split_dots s (c :: cur)
  end.
Definition is_parameter_name (text : Str) : bool := forallb is_name (split_dots text []).
End Lexer.

(** ** [struct Layout]

    [None] is a panic: a slice off a char boundary, or an [expect] that fails. *)
Record Layout := mkLayout {
  out : list Token;
  indents : list nat;
  depth : nat;
  open : option (Span * nat);
  line_has_content : bool;
  ldiags : list Diagnostic;
}.
Section Layout.
Context (text : Str) (origin : nat).
(** [line_start] *)
Fixpoint last_break (s : Str) (at_ : nat) (found : option nat) : option nat :=
  match s with
  | [] => found
  | c :: s => last_break s (at_ + len_utf8 c) (if is_break c then Some (at_ + len_utf8 c)%nat else found)
  end.
Definition line_start (offset : nat) : option nat :=
  before ← slice text 0 offset; Some (default origin (last_break before 0 None)).
(** [column]: an offset before its line overflows. *)
Definition column (offset : nat) : option nat :=
  start ← line_start offset; if (start <=? offset)%nat then Some (offset - start)%nat else None.
Definition push_out (t : Token) (l : Layout) : Layout :=
  mkLayout (out l ++ [t]) (indents l) (depth l) (open l) (line_has_content l) (ldiags l).
Definition push_diag (d : Diagnostic) (l : Layout) : Layout :=
  mkLayout (out l) (indents l) (depth l) (open l) (line_has_content l) (ldiags l ++ [d]).
Definition with_open (n : nat) (o : option (Span * nat)) (l : Layout) : Layout :=
  mkLayout (out l) (indents l) n o (line_has_content l) (ldiags l).
Definition with_content (b : bool) (l : Layout) : Layout :=
  mkLayout (out l) (indents l) (depth l) (open l) b (ldiags l).
Definition with_indents (i : list nat) (l : Layout) : Layout :=
  mkLayout (out l) i (depth l) (open l) (line_has_content l) (ldiags l).
Definition not_closed (s : Span) (l : Layout) : option Layout :=
  bracket ← slice text (sp_start s) (sp_end s); Some (push_diag (diag_error (NotClosed bracket) s) l).
(** [continues] *)
Definition continues (rest : list Token) (l : Layout) : option (bool * Layout) :=
  let next := List.find (λ t, negb (bool_decide (kind t ∈ [Newline; Comment]))) rest in
  '(span, line_indent) ← open l;
  goes_on ← match next with
            | None => Some false
            | Some t => if bool_decide (kind t ∈ [RParen; RBracket]) then Some true
                        else c ← column (sp_start (tspan t)); Some (line_indent <? c)%nat
            end;
  if goes_on : bool then Some (true, l) else l ← not_closed span l; Some (false, with_open 0 None l).
(** [end_line] *)
Definition end_line (span : Span) (l : Layout) : option Layout :=
  l ← (if (0 <? depth l)%nat then
         match open l with
         | Some (o, _) => l ← not_closed o l; Some (with_open 0 None l)
         | None => Some (with_open 0 None l)
         end
       else Some l);
  Some (if line_has_content l then with_content false (push_out (mkToken Newline span) l) else l).
(** [indent]: the blocks a line closes *)
Fixpoint dedents (at_ column start : nat) (blocks : list nat) (l : Layout) : Layout :=
  match blocks with
  | top :: outer =>
      if (column <? top)%nat then
        let enclosing := default 0%nat (head outer) in
        if (enclosing <? column)%nat then push_diag (diag_error NoEnclosingBlock (mkSpan start at_)) (with_indents blocks l)
        else dedents at_ column start outer (push_out (mkToken Dedent (mkSpan at_ at_)) l)
      else with_indents blocks l
  | [] => with_indents [] l
  end.
Definition indent (offset : nat) (l : Layout) : option Layout :=
  start ← line_start offset;
  indentation ← slice text start offset;
  let l := if existsb (λ c, c =? 9) indentation then push_diag (diag_error TabIndents (mkSpan start offset)) l else l in
  let column := (offset - start)%nat in
  let top := default 0%nat (head (indents l)) in
  Some (if (top <? column)%nat then push_out (mkToken Indent (mkSpan offset offset)) (with_indents (column :: indents l) l)
        else dedents offset column start (indents l) l).
(** A token's effect on the open brackets *)
Definition brackets (t : Token) (l : Layout) : Layout :=
  match kind t with
  | LParen | LBracket =>
      with_open (S (depth l)) (if (depth l =? 0)%nat then Some (tspan t, default 0%nat (head (indents l))) else open l) l
  | RParen | RBracket => with_open (depth l - 1) (open l) l
  | _ => l
  end.
(** [run] *)
Fixpoint lay_out (raw : list Token) (at_line_start : bool) (l : Layout) : option Layout :=
  match raw with
  | [] => Some l
  | t :: raw =>
      match kind t with
      | Newline =>
          '(goes_on, l) ← (if (0 <? depth l)%nat then continues raw l else Some (false, l));
          if goes_on : bool then lay_out raw at_line_start l else l ← end_line (tspan t) l; lay_out raw true l
      | Comment => lay_out raw at_line_start (push_out t l)
      | _ =>
          l ← (if at_line_start then l ← indent (sp_start (tspan t)) l; Some (with_content true l) else Some l);
          lay_out raw false (push_out t (brackets t l))
      end
  end.
Definition run (raw : list Token) (ds : list Diagnostic) : option (list Token * list Diagnostic) :=
  let stop := mkSpan (str_len text) (str_len text) in
  l ← lay_out raw true (mkLayout [] [0%nat] 0 None false ds);
  l ← end_line stop l;
  Some (out l ++ replicate (length (indents l) - 1) (mkToken Dedent stop) ++ [mkToken Eof stop], ldiags l).
End Layout.

(** [tokens] *)
Definition tokens `{LC : LogosCrate} (text : Str) : option (list Token * list Diagnostic) :=
  let origin := match text with c :: _ => if c =? BOM then len_utf8 BOM else 0%nat | [] => 0%nat end in
  let '(raw, ds) := raw_tokens (length text) 0 (None, None) text in
  run text origin raw ds.
