(* ===== verification/Lexing.v ===== *)
(** * What the lexer makes of a text

    The raw tokens are slices of the text, in order, each of its pattern's shape;
    the layout never panics, and the blocks it opens it closes. *)

From Stdlib Require Import Ascii.
From S2P Require Import Prelude Regexes Tokens.

(** ** Slices *)
Lemma len_utf8_pos c : (1 ≤ len_utf8 c)%nat.
Proof. unfold len_utf8. repeat case_match; lia. Qed.
Lemma str_len_app a b : str_len (a ++ b) = (str_len a + str_len b)%nat.
Proof. unfold str_len. by rewrite sum_list_with_app. Qed.
Lemma str_len_cons c a : str_len (c :: a) = (len_utf8 c + str_len a)%nat.
Proof. done. Qed.
Lemma str_len_nil a : str_len a = 0%nat → a = [].
Proof. destruct a as [|c a]; [done|]. rewrite str_len_cons. pose proof (len_utf8_pos c). lia. Qed.
Lemma split_bytes_app a b : split_bytes (str_len a) (a ++ b) = Some (a, b).
Proof.
  induction a as [|c a IH]; [by destruct b|]. rewrite str_len_cons. pose proof (len_utf8_pos c).
  destruct (len_utf8 c + str_len a)%nat as [|n] eqn:E; [lia|]. cbn [split_bytes app]. rewrite <- E.
  rewrite (proj2 (Nat.leb_le _ _)) by lia. replace (len_utf8 c + str_len a - len_utf8 c)%nat with (str_len a) by lia. by rewrite IH.
Qed.
(** A position between two chars *)
Definition bnd (text : Str) (n : nat) : Prop := ∃ a b, text = a ++ b ∧ str_len a = n.
Lemma slice_app a x b : slice (a ++ x ++ b) (str_len a) (str_len a + str_len x) = Some x.
Proof.
  unfold slice. rewrite (proj2 (Nat.leb_le _ _)) by lia. rewrite split_bytes_app. cbn.
  replace (str_len a + str_len x - str_len a)%nat with (str_len x) by lia. by rewrite split_bytes_app.
Qed.
Lemma slice_between text a b : bnd text a → bnd text b → (a ≤ b)%nat →
  ∃ p x q, text = p ++ x ++ q ∧ a = str_len p ∧ b = (str_len p + str_len x)%nat ∧ slice text a b = Some x.
Proof.
  intros (p & r & -> & <-) (p' & r' & E & <-) Hle.
  assert (∃ x, p' = p ++ x) as [x ->].
  { destruct (prefix_weak_total p p' (p ++ r)) as [[x ->]|[x ->]]; [by exists r|by exists r'|by exists x|].
    rewrite str_len_app in Hle. rewrite (str_len_nil x) by lia. exists []. by rewrite !app_nil_r. }
  rewrite <- app_assoc in E. apply app_inv_head in E. subst r. rewrite str_len_app. exists p, x, r'. split_and!; [done..|]. apply slice_app.
Qed.
Lemma bnd_0 text : bnd text 0.
Proof. by exists [], text. Qed.
Lemma bnd_end text : bnd text (str_len text).
Proof. exists text, []. by rewrite app_nil_r. Qed.
(** A slice leaving out ends of one byte each *)
Lemma slice_inner c x d : len_utf8 c = 1%nat → len_utf8 d = 1%nat → slice (c :: x ++ [d]) 1 (str_len (c :: x ++ [d]) - 1) = Some x.
Proof.
  intros Hc Hd. rewrite str_len_cons, str_len_app, Hc. cbn [str_len sum_list_with]. rewrite Hd.
  replace (1 + (str_len x + (1 + 0)) - 1)%nat with (str_len [c] + str_len x)%nat by (rewrite str_len_cons, Hc; cbn; lia).
  replace 1%nat with (str_len [c]) at 1 by (rewrite str_len_cons, Hc; done). apply (slice_app [c] x [d]).
Qed.
Lemma slice_tail c x : len_utf8 c = 1%nat → slice (c :: x) 1 (str_len (c :: x)) = Some x.
Proof.
  intros Hc. rewrite str_len_cons, Hc. replace 1%nat with (str_len [c]) at 1 2 by (rewrite str_len_cons, Hc; done).
  pose proof (slice_app [c] x []) as H. by rewrite app_nil_r in H.
Qed.

(** ** Shapes: what a token's text is *)
Definition shape (k : Kind) (x : Str) : Prop :=
  match k with
  | Comment => ∃ y, x = 35 :: y
  | Path => ∃ y, x = 91 :: y
  | String => ∃ y, x = 34 :: y ++ [34]
  | Variable_ => ∃ y, x = 123 :: y ++ [125]
  | QuotedVariable => ∃ y, x = 123 :: 34 :: y ++ [34; 125]
  | Uuid => lang (raw_regex RUuid) x
  | _ => True
  end.
Definition token_at (text : Str) (t : Token) : Prop :=
  ∃ a x b, text = a ++ x ++ b ∧ sp_start (tspan t) = str_len a ∧ sp_end (tspan t) = (str_len a + str_len x)%nat ∧ shape (kind t) x.
Lemma lang_one p x : lang (One p) x → ∃ c, x = [c] ∧ p c = true.
Proof. inversion 1. eauto. Qed.
Lemma lang_chr a x : lang (chr a) x → x = [Z.of_nat (nat_of_ascii a)].
Proof. intros (c & -> & H%Z.eqb_eq)%lang_one. by subst c. Qed.
Lemma lang_Seq a b x : lang (Seq a b) x → ∃ y z, x = y ++ z ∧ lang a y ∧ lang b z.
Proof. inversion 1. eauto. Qed.
Lemma raw_shape r x : lang (raw_regex r) x → shape (kind_of r) x.
Proof.
  destruct r; cbn [raw_regex kind_of shape]; intros H; try done.
  - apply lang_Seq in H as (y & z & -> & ->%lang_chr & _). by eexists.
  - apply lang_Seq in H as (y & z & -> & (c & -> & ->%Z.eqb_eq)%lang_one & (u & v & -> & _ & (d & -> & ->%Z.eqb_eq)%lang_one)%lang_Seq). by exists u.
  - apply lang_Seq in H as (y & z & -> & ->%lang_chr & (u & v & -> & _ & ->%lang_chr)%lang_Seq). by exists u.
  - apply lang_Seq in H as (y & z & -> & ->%lang_chr & (u & v & -> & (c & -> & ->%Z.eqb_eq)%lang_one
      & (w & q & -> & _ & (e & f & -> & (d & -> & ->%Z.eqb_eq)%lang_one & ->%lang_chr)%lang_Seq)%lang_Seq)%lang_Seq). by exists w.
Qed.

(** ** What [logos] cuts *)
Lemma lang_nil r : lang r [] → nullable r = true.
Proof.
  intros H. remember [] as x eqn:E. induction H as [|p c|a b s t _ IHa _ IHb|a b s _ IH|a b s _ IH| |a s t]; cbn; try done.
  - apply app_nil in E as [-> ->]. by rewrite IHa, IHb.
  - by rewrite IH.
  - rewrite IH by done. apply orb_true_r.
Qed.
Lemma raw_not_nullable r : nullable (raw_regex r) = false.
Proof. by destruct r. Qed.
Definition candidate_ok (s : Str) (c : Lexeme * nat * nat) : Prop :=
  (1 ≤ c.1.2 ≤ length s)%nat ∧ match c.1.1 with Cut r => lang (raw_regex r) (take c.1.2 s) | Skip => True | NoToken => False end.
Lemma longest_ok r s n : nullable r = false → longest r s = Some n → (1 ≤ n ≤ length s)%nat ∧ lang r (take n s).
Proof.
  intros Hn H. destruct (longest_matches _ _ _ H) as [Hl Hm]. split; [|done]. split; [|done].
  destruct n as [|n]; [|lia]. apply lang_nil in Hm. congruence.
Qed.
Lemma candidates_ok s c : c ∈ candidates s → candidate_ok s c.
Proof.
  unfold candidates. rewrite elem_of_app. intros [H|(r & _ & Hr)%list_elem_of_omap].
  - destruct (longest (plus (One is_skipped)) s) as [n|] eqn:E; [|by destruct (not_elem_of_nil c H)].
    apply list_elem_of_singleton in H as ->. split; [|done]. by apply (longest_ok (plus (One is_skipped)) s n).
  - destruct (longest (raw_regex r) s) as [n|] eqn:E; [|discriminate Hr]. injection Hr as <-.
    apply longest_ok in E; [|apply raw_not_nullable]. exact E.
Qed.
Lemma longer_either a b : longer a b = a ∨ longer a b = b.
Proof. unfold longer. destruct a as [[? ?] ?], b as [[? ?] ?]. case_match; auto. Qed.
Lemma longest_candidate c l : foldl longer c l ∈ c :: l.
Proof.
  revert c. induction l as [|d l IH]; intros c; cbn; [set_solver|].
  specialize (IH (longer c d)). destruct (longer_either c d) as [E|E]; rewrite E in *; set_solver.
Qed.
Lemma lexeme_ok `{LogosLaws} s l n : s ≠ [] → lexeme s = (l, n) →
  (1 ≤ n ≤ length s)%nat ∧ match l with Cut r => lang (raw_regex r) (take n s) | _ => True end.
Proof.
  intros Hs Hl. unfold lexeme in Hl. destruct (candidates s) as [|c cs] eqn:E.
  - injection Hl as <- <-. pose proof (error_chars_law s Hs). split; [lia|done].
  - assert (candidate_ok s (foldl longer c cs)) as [Hn Hm] by (apply candidates_ok; rewrite E; apply longest_candidate).
    rewrite Hl in Hn, Hm. cbn in *. split; [done|]. by destruct l.
Qed.

(** In order, from [lo] on *)
Fixpoint ascending (lo : nat) (l : list Token) : Prop :=
  match l with
  | [] => True
  | t :: l => (lo ≤ sp_start (tspan t))%nat ∧ ascending (sp_end (tspan t)) l
  end.
Lemma ascending_from lo hi l : (lo ≤ hi)%nat → ascending hi l → ascending lo l.
Proof. destruct l as [|t l]; cbn; [done|]. intros ? [? ?]. split; [lia|done]. Qed.
Lemma path_end_len s n b : path_end s = (n, b) → (n ≤ length s)%nat ∧ (b = true → ∃ y z, s = y ++ 93 :: z ∧ length y = n).
Proof.
  revert n b. induction s as [|c s IH]; intros n b; cbn; [by intros [= <- <-]|].
  destruct (is_char "]" c) eqn:E; [intros [= <- <-]; apply Z.eqb_eq in E as ->; split; [lia|]; intros _; by exists [], s|].
  destruct (is_break c); [intros [= <- <-]; split; [lia|done]|]. destruct (path_end s) as [m b'].
  intros [= <- <-]. destruct (IH _ _ eq_refl) as [Hm Hb]. split; [lia|]. intros ->. destruct (Hb eq_refl) as (y & z & -> & <-). by exists (c :: y), z.
Qed.

(** The kinds the layout adds *)
Definition is_layout (k : Kind) : bool := match k with Indent | Dedent | Eof => true | _ => false end.
(** A lexeme is the next slice of the text, and never empty. *)
Lemma cut_ok `{LogosLaws} text pre before s : text = pre ++ s → s ≠ [] →
  let c := cut (str_len pre) before s in
  ∃ x, x ≠ [] ∧ s = x ++ next_text c ∧ next_at c = str_len (pre ++ x) ∧
    match cut_token c with
    | Some t => token_at text t ∧ tspan t = mkSpan (str_len pre) (str_len (pre ++ x)) ∧ is_layout (kind t) = false
    | None => True
    end.
Proof.
  intros Ht Hs. unfold cut. destruct (lexeme s) as [l n] eqn:El. destruct (lexeme_ok s l n Hs El) as [Hn Hl].
  assert (take n s ≠ []) as Hne by (intros E%(f_equal length); rewrite length_take in E; cbn in E; lia).
  assert (∀ k x y, shape k x → s = x ++ y → token_at text (mkToken k (mkSpan (str_len pre) (str_len (pre ++ x))))) as Hat.
  { intros k x y Hk ->. exists pre, x, y. split_and!; [done|done|by rewrite str_len_app|done]. }
  assert (∀ k, shape k (take n s) → (k = LBracket → take n s = [91]) → is_layout k = false →
    let c := if bool_decide (k = LBracket) && selects before then
        let '(m, closed) := path_end (drop n s) in
        let length := if closed : bool then S m else m in
        let stop := (str_len pre + str_len (take n s) + str_len (take length (drop n s)))%nat in
        mkCutting (Some (mkToken Path (mkSpan (str_len pre) stop)))
          (if closed then [] else [diag_error PathUnclosed (mkSpan (str_len pre) stop)]) stop (before.2, Some Path) (drop length (drop n s))
      else mkCutting (Some (mkToken k (mkSpan (str_len pre) (str_len pre + str_len (take n s))))) []
          (str_len pre + str_len (take n s)) (if decide (k = Comment) then before else (before.2, Some k)) (drop n s) in
    ∃ x, x ≠ [] ∧ s = x ++ next_text c ∧ next_at c = str_len (pre ++ x) ∧
      match cut_token c with Some t => token_at text t ∧ tspan t = mkSpan (str_len pre) (str_len (pre ++ x)) ∧ is_layout (kind t) = false | None => True end) as Hk.
  { intros k Hk Hb Hlay. case_bool_decide as Ek; [destruct (selects before)|]; cbn [andb].
    - destruct (path_end (drop n s)) as [m closed]. set (q := if closed then S m else m). cbv zeta. cbn.
      assert (s = (take n s ++ take q (drop n s)) ++ drop q (drop n s)) as E by (by rewrite <- app_assoc, !take_drop).
      exists (take n s ++ take q (drop n s)). rewrite <- Nat.add_assoc, <- (str_len_app (take n s)), <- (str_len_app pre).
      split_and!; [by intros [??]%app_nil|done|done| |done|done]. eapply Hat; [|exact E]. cbn. rewrite (Hb Ek). by eexists.
    - cbn. exists (take n s). rewrite take_drop, <- str_len_app. split_and!; [done..|eapply Hat; [done|by rewrite take_drop]|done|done].
    - cbn. exists (take n s). rewrite take_drop, <- str_len_app. split_and!; [done..|eapply Hat; [done|by rewrite take_drop]|done|done]. }
  destruct l as [|r|].
  - cbn. exists (take n s). by rewrite take_drop, str_len_app.
  - apply (Hk (kind_of r)); [by apply raw_shape| |by destruct r]. intros E. destruct r; try discriminate E. by apply lang_chr in Hl.
  - by apply (Hk Error).
Qed.
(** The raw tokens of a text are slices of it, in order. *)
Lemma raw_tokens_at `{LogosLaws} text fuel pre before s toks ds : text = pre ++ s →
  raw_tokens fuel (str_len pre) before s = (toks, ds) →
  Forall (λ t, token_at text t ∧ is_layout (kind t) = false) toks ∧ ascending (str_len pre) toks.
Proof.
  revert pre before s toks ds. induction fuel as [|fuel IH]; intros pre before s toks ds Ht; cbn [raw_tokens]; [by intros [= <- <-]|].
  destruct s as [|c s']; [by intros [= <- <-]|]. destruct (cut_ok text pre before (c :: s') Ht ltac:(done)) as (x & Hx & Hs & Hn & Hc).
  destruct (cut (str_len pre) before (c :: s')) as [t d stop before' rest]. cbn in *. subst stop.
  destruct (raw_tokens fuel (str_len (pre ++ x)) before' rest) as [toks' ds'] eqn:E.
  apply IH in E as [Hf Ha]; [|by rewrite <- app_assoc, <- Hs]. intros [= <- <-].
  destruct t as [t|]; cbn; [|split; [done|]; eapply ascending_from; [|exact Ha]; rewrite str_len_app; lia].
  destruct Hc as (Ht' & Hsp & Hlay). split; [by constructor|]. rewrite Hsp. by cbn.
Qed.

(** ** A byte order mark is skipped *)
Definition origin_of (text : Str) : nat := match text with c :: _ => if c =? BOM then len_utf8 BOM else 0%nat | [] => 0%nat end.
Lemma longest_dead r c s : nullable r = false → deriv c r = Never → longest r (c :: s) = None.
Proof. intros Hn Hd. unfold longest. cbn [longest_from]. rewrite Hn, Hd. destruct (is_never r); [done|]. by destruct s. Qed.
Lemma longest_alive r c s : nullable r = false → is_never r = false → nullable (deriv c r) = true → is_Some (longest r (c :: s)).
Proof.
  intros Hn Hv Hd. unfold longest. cbn [longest_from]. rewrite Hn, Hv.
  assert (∀ r s n b, is_Some b → is_Some (longest_from r s n b)) as Hb.
  { clear. intros r s. revert r. induction s as [|c s IH]; intros r n b Hb; cbn [longest_from]; destruct (nullable r), (is_never r); try done; by apply IH. }
  destruct s as [|d s]; cbn [longest_from]; rewrite Hd; destruct (is_never (deriv c r)); try (by eexists). apply Hb. by eexists.
Qed.
Lemma bom_skipped `{LogosLaws} s : ∃ n, lexeme (BOM :: s) = (Skip, n).
Proof.
  unfold lexeme, candidates. destruct (longest_alive (plus (One is_skipped)) BOM s ltac:(reflexivity) ltac:(reflexivity) ltac:(reflexivity)) as [n ->].
  replace (omap _ all_raws) with (@nil (Lexeme * nat * nat)); [by exists n|].
  assert (∀ r, longest (raw_regex r) (BOM :: s) = None) as Hr.
  { intros r. apply longest_dead; [apply raw_not_nullable|]. destruct r; vm_compute; reflexivity. }
  symmetry. induction all_raws as [|r l IH]; [done|]. cbn -[longest BOM raw_regex]. by rewrite Hr.
Qed.
Lemma origin_le `{LogosLaws} text : bnd text (origin_of text) ∧
  ascending (origin_of text) (raw_tokens (length text) 0 (None, None) text).1.
Proof.
  assert (∀ fuel before, ascending 0 (raw_tokens fuel 0 before text).1) as Hz.
  { intros fuel before. destruct (raw_tokens fuel 0 before text) as [toks ds] eqn:E. by apply (raw_tokens_at text fuel [] before text toks ds) in E as [_ ?]. }
  destruct text as [|c s]; [split; [apply bnd_0|done]|]. cbn [origin_of]. destruct (c =? BOM) eqn:Ec; [|split; [apply bnd_0|apply Hz]].
  apply Z.eqb_eq in Ec as ->. split; [by exists [BOM], s|]. cbn [length raw_tokens].
  destruct (cut_ok (BOM :: s) [] (None, None) (BOM :: s) eq_refl ltac:(done)) as (x & Hx & Hs & Hn & _).
  change (str_len []) with 0%nat in Hs, Hn. destruct (cut 0 (None, None) (BOM :: s)) as [t d stop before' rest] eqn:Ec. cbn in Hs, Hn |- *.
  assert (t = None) as ->. { unfold cut in Ec. destruct (bom_skipped s) as [n Hl]. rewrite Hl in Ec. by injection Ec as <- _ _ _ _. }
  destruct x as [|c x]; [done|]. injection Hs as <- Hs. destruct (raw_tokens (length s) stop before' rest) as [toks ds] eqn:E. subst stop. cbn.
  apply (raw_tokens_at (BOM :: s) (length s) (BOM :: x)) in E as [_ Ha]; [|by rewrite Hs]. eapply ascending_from; [|exact Ha]. change (len_utf8 BOM ≤ len_utf8 BOM + str_len x)%nat. lia.
Qed.

(** ** The layout *)
(** In order between two positions *)
Fixpoint ascends (lo : nat) (l : list Token) (hi : nat) : Prop :=
  match l with
  | [] => (lo ≤ hi)%nat
  | t :: l => (lo ≤ sp_start (tspan t))%nat ∧ (sp_start (tspan t) ≤ sp_end (tspan t))%nat ∧ ascends (sp_end (tspan t)) l hi
  end.
Lemma ascends_app lo l mid k hi : ascends lo l mid → ascends mid k hi → ascends lo (l ++ k) hi.
Proof.
  revert lo. induction l as [|t l IH]; intros lo; cbn.
  - intros Hle. destruct k as [|t k]; cbn; [lia|]. intros (? & ? & ?). split_and!; [lia|done..].
  - intros (? & ? & Hl) Hk. split_and!; [done..|by apply IH].
Qed.
Lemma token_bnd text t : token_at text t →
  bnd text (sp_start (tspan t)) ∧ bnd text (sp_end (tspan t)) ∧ (sp_start (tspan t) ≤ sp_end (tspan t))%nat.
Proof.
  intros (a & x & b & -> & -> & -> & _). split_and!; [by exists a, (x ++ b)| |lia]. exists (a ++ x), b. by rewrite <- app_assoc, str_len_app.
Qed.
Lemma slice_bnd text a b : bnd text a → bnd text b → (a ≤ b)%nat → is_Some (slice text a b).
Proof. intros Ha Hb Hle. destruct (slice_between text a b Ha Hb Hle) as (? & x & ? & _ & _ & _ & ->). by exists x. Qed.
(** How deep the blocks are after these tokens; [None] where one is closed that is not open *)
Definition block_step (n : option nat) (t : Token) : option nat :=
  match n, kind t with
  | Some n, Indent => Some (S n)
  | Some (S n), Dedent => Some n
  | Some O, Dedent => None
  | _, _ => n
  end.
Definition blocks_after (l : list Token) : option nat := foldl block_step (Some 0%nat) l.

Section Layout.
Context (text : Str) (origin : nat) (Ho : bnd text origin).
Record lay_ok (lo : nat) (l : Layout) : Prop := {
  lo_tokens : Forall (token_at text) (out l);
  lo_order : ascends 0 (out l) lo;
  lo_open : (0 < depth l)%nat → ∃ s n, open l = Some (s, n) ∧ is_Some (slice text (sp_start s) (sp_end s));
  lo_bottom : ∃ i, indents l = i ++ [0%nat];
  lo_blocks : blocks_after (out l) = Some (length (indents l) - 1)%nat;
}.
Lemma last_break_at s at_ found n : last_break s at_ found = Some n → found = Some n ∨ ∃ a b, s = a ++ b ∧ n = (at_ + str_len a)%nat.
Proof.
  revert at_ found. induction s as [|c s IH]; intros at_ found; cbn; [auto|]. intros H. destruct (IH _ _ H) as [Hf|(a & b & -> & ->)].
  - destruct (is_break c); [|by left]. right. exists [c], s. split; [done|]. injection Hf as <-. cbn. lia.
  - right. exists (c :: a), b. split; [done|]. rewrite str_len_cons. lia.
Qed.
Lemma line_start_ok offset : bnd text offset → (origin ≤ offset)%nat →
  ∃ st, line_start text origin offset = Some st ∧ (st ≤ offset)%nat ∧ bnd text st.
Proof.
  intros Hb Hle. unfold line_start. destruct (slice_between text 0 offset (bnd_0 text) Hb ltac:(lia)) as (p & x & q & Ht & Hp & Hx & ->).
  cbn. eexists. split; [done|]. symmetry in Hp. apply str_len_nil in Hp as ->. cbn in Hx, Ht. subst offset.
  destruct (last_break x 0 None) as [n|] eqn:E; [|done]. apply last_break_at in E as [?|(a & b & -> & ->)]; [done|]. cbn.
  rewrite str_len_app. split; [lia|]. exists a, (b ++ q). by rewrite Ht, <- app_assoc.
Qed.
Lemma column_ok offset : bnd text offset → (origin ≤ offset)%nat → is_Some (column text origin offset).
Proof. intros Hb Hle. unfold column. destruct (line_start_ok offset Hb Hle) as (st & -> & Hs & _). cbn. rewrite (proj2 (Nat.leb_le _ _)) by done. by eexists. Qed.
Lemma lay_ok_mono lo hi l : (lo ≤ hi)%nat → lay_ok lo l → lay_ok hi l.
Proof.
  intros Hle [Ht Hor Hop Hbt Hbl]. split; [done| |done..]. clear -Hor Hle. revert Hor. generalize 0%nat.
  induction (out l) as [|t ts IH]; intros n; cbn; [lia|]. intros (? & ? & ?). split_and!; [done..|by apply IH].
Qed.
Lemma lay_ok_push lo l t : lay_ok lo l → token_at text t → (lo ≤ sp_start (tspan t))%nat → is_layout (kind t) = false →
  lay_ok (sp_end (tspan t)) (push_out t l).
Proof.
  intros [Ht Hor Hop Hbt Hbl] Hat Hlo Hk. split; cbn; [|..|done|done|].
  - apply Forall_app. split; [done|]. by constructor.
  - eapply ascends_app; [exact Hor|]. cbn. destruct (token_bnd _ _ Hat) as (_ & _ & ?). split_and!; [done|done|lia].
  - unfold blocks_after in *. rewrite foldl_app, Hbl. cbn. by destruct (kind t), (length (indents l) - 1)%nat.
Qed.
Lemma virtual_at k n : bnd text n → shape k [] → token_at text (mkToken k (mkSpan n n)).
Proof. intros (a & b & -> & <-) Hk. exists a, [], b. split_and!; [done|done|cbn; lia|done]. Qed.
(** A block opened or closed at the start of a line *)
Lemma lay_ok_block lo l k n i : lay_ok lo l → bnd text n → (lo ≤ n)%nat → (k = Indent ∨ k = Dedent) → (∃ j, i = j ++ [0%nat]) →
  length i = (if decide (k = Indent) then S (length (indents l)) else (length (indents l) - 1)%nat) →
  lay_ok n (push_out (mkToken k (mkSpan n n)) (with_indents i l)).
Proof.
  intros [Ht Hor Hop Hbt Hbl] Hn Hlo Hk Hi Hlen. split; cbn; [| |done|done|].
  - apply Forall_app. split; [done|]. constructor; [|done]. apply virtual_at; [done|]. by destruct Hk as [->| ->].
  - eapply ascends_app; [exact Hor|]. cbn. lia.
  - unfold blocks_after in *. rewrite foldl_app, Hbl. cbn. assert (length i ≠ 0%nat) by (destruct Hi as [j ->]; rewrite length_app; cbn; lia).
    assert (length (indents l) ≠ 0%nat) by (destruct Hbt as [j ->]; rewrite length_app; cbn; lia).
    destruct Hk as [-> | ->]; cbn [kind block_step].
    + rewrite decide_True in Hlen by done. rewrite Hlen. destruct (length (indents l) - 1)%nat eqn:Em; apply f_equal; lia.
    + rewrite decide_False in Hlen by done. destruct (length (indents l) - 1)%nat as [|m] eqn:Em; [lia|]. apply f_equal. lia.
Qed.
Lemma dedents_ok lo n column start bs l : lay_ok lo (with_indents bs l) → bnd text n → (lo ≤ n)%nat → lay_ok n (dedents n column start bs l).
Proof.
  intros Hl Hn. revert lo l Hl. induction bs as [|top outer IH]; intros lo l Hl Hlo; cbn [dedents]; [by apply (lay_ok_mono lo)|].
  destruct (column <? top)%nat eqn:Ec; [|by apply (lay_ok_mono lo)]. apply Nat.ltb_lt in Ec.
  destruct (default 0%nat (head outer) <? column)%nat.
  { apply (lay_ok_mono lo n) in Hl; [|done]. destruct Hl as [Ht Hor Hop Hbt Hbl]. by split. }
  apply (IH n); [|done]. destruct (lo_bottom _ _ Hl) as [i Hi]. cbn in Hi.
  destruct i as [|a i]; [injection Hi as -> ->; lia|]. injection Hi as <- ->.
  apply (lay_ok_block lo (with_indents (top :: i ++ [0%nat]) l) Dedent n (i ++ [0%nat])); try done; [by right|by eexists|].
  cbn. rewrite decide_False by done. rewrite length_app. cbn. lia.
Qed.
Lemma indent_ok lo n l : lay_ok lo l → bnd text n → (lo ≤ n)%nat → (origin ≤ n)%nat → ∃ l', indent text origin n l = Some l' ∧ lay_ok n l'.
Proof.
  intros Hl Hn Hlo Hon. unfold indent. destruct (line_start_ok n Hn Hon) as (st & -> & Hle & Hb). cbn.
  destruct (slice_bnd text st n Hb Hn Hle) as [x ->]. cbn. eexists. split; [done|].
  set (l' := if existsb _ x then _ else l). assert (lay_ok lo l' ∧ indents l' = indents l) as [Hl' Hil].
  { unfold l'. destruct (existsb _ x); [|done]. split; [|done]. destruct Hl as [Ht Hor Hop Hbt Hbl]. by split. }
  match goal with |- lay_ok _ (if ?b then _ else _) => destruct b end.
  - apply (lay_ok_block lo l' Indent n ((n - st)%nat :: indents l')); try done; [by left|]. destruct (lo_bottom _ _ Hl') as [i ->]. by eexists (_ :: i).
  - apply (dedents_ok lo); [|done|done]. by destruct l'.
Qed.
Lemma not_closed_ok lo s l : lay_ok lo l → is_Some (slice text (sp_start s) (sp_end s)) →
  ∃ l', not_closed text s l = Some l' ∧ lay_ok lo l' ∧ depth l' = depth l ∧ open l' = open l ∧ line_has_content l' = line_has_content l.
Proof. intros Hl [x Hx]. unfold not_closed. rewrite Hx. cbn. eexists. split; [done|]. destruct Hl as [Ht Hor Hop Hbt Hbl]. split_and!; by try split. Qed.
Lemma unopened_ok lo l : lay_ok lo l → lay_ok lo (with_open 0 None l).
Proof. intros [Ht Hor Hop Hbt Hbl]. split; cbn; try done. lia. Qed.
Lemma continues_ok lo rest l : lay_ok lo l → (0 < depth l)%nat → Forall (token_at text) rest → ascending lo rest → (origin ≤ lo)%nat →
  ∃ b l', continues text origin rest l = Some (b, l') ∧ lay_ok lo l'.
Proof.
  intros Hl Hd Hr Ha Hon. unfold continues. destruct (lo_open _ _ Hl Hd) as (s & n & -> & Hs). cbn [mbind option_bind].
  assert (∀ t, t ∈ rest → is_Some (column text origin (sp_start (tspan t)))) as Hc.
  { intros t Ht. apply column_ok; [by apply token_bnd, (proj1 (Forall_forall _ _) Hr)|]. clear -Ht Ha Hon Hr. revert lo Ha Hon.
    induction rest as [|u rest IH]; intros lo Ha Hon; [set_solver|]. destruct Ha as [Hlo Ha]. apply Forall_cons in Hr as [Hu Hr]. destruct (token_bnd _ _ Hu) as (_ & _ & ?).
    apply elem_of_cons in Ht as [->|Ht]; [lia|]. apply (IH Hr Ht _ Ha). lia. }
  destruct (not_closed_ok lo s l Hl Hs) as (l1 & E1 & Hl1 & _).
  destruct (List.find _ rest) as [t|] eqn:Ef; cbn [mbind option_bind].
  - apply find_some in Ef as [Hin%list_elem_of_In _]. destruct (bool_decide _); cbn [mbind option_bind]; [by eauto|]. destruct (Hc t Hin) as [c ->]. cbn [mbind option_bind].
    destruct (n <? c)%nat; [by eauto|]. rewrite E1. cbn [mbind option_bind]. eexists _, _. split; [done|]. by apply unopened_ok.
  - rewrite E1. cbn. eexists _, _. split; [done|]. by apply unopened_ok.
Qed.
Lemma end_line_ok lo s l : lay_ok lo l → token_at text (mkToken Newline s) → (lo ≤ sp_start s)%nat →
  ∃ l', end_line text s l = Some l' ∧ lay_ok (sp_end s) l' ∧ depth l' = 0%nat.
Proof.
  intros Hl Hat Hlo. unfold end_line. destruct (token_bnd _ _ Hat) as (_ & _ & Hse). cbn in Hse.
  assert (∃ l1, (if (0 <? depth l)%nat then match open l with
      | Some (o, _) => l ← not_closed text o l; Some (with_open 0 None l) | None => Some (with_open 0 None l) end else Some l) = Some l1
      ∧ lay_ok lo l1 ∧ depth l1 = 0%nat) as (l1 & -> & Hl1 & Hd).
  { destruct (0 <? depth l)%nat eqn:Ed; [|apply Nat.ltb_ge in Ed; exists l; split_and!; [done..|lia]]. apply Nat.ltb_lt in Ed.
    destruct (lo_open _ _ Hl Ed) as (o & n & -> & Hs). destruct (not_closed_ok lo o l Hl Hs) as (l1 & -> & Hl1 & _).
    cbn. eexists. split_and!; [done|by apply unopened_ok|done]. }
  cbn. eexists. split; [done|]. destruct (line_has_content l1); (split; [|done]); [|by apply (lay_ok_mono lo); [lia|]].
  pose proof (lay_ok_push lo l1 (mkToken Newline s) Hl1 Hat Hlo eq_refl) as [Ht Hor Hop Hbt Hbl]. by split.
Qed.
Lemma brackets_ok lo t l : lay_ok lo l → token_at text t → lay_ok lo (brackets t l).
Proof.
  intros [Ht Hor Hop Hbt Hbl] Hat. destruct (token_bnd _ _ Hat) as (Hb & He & Hle).
  unfold brackets. destruct (kind t); split; cbn; try done.
  1,3: intros _; destruct (depth l =? 0)%nat eqn:Ed; [eexists _, _; split; [done|]; by apply slice_bnd|apply Nat.eqb_neq in Ed; apply Hop; lia].
  all: intros ?; apply Hop; lia.
Qed.
Lemma with_content_ok lo b l : lay_ok lo l → lay_ok lo (with_content b l).
Proof. intros [Ht Hor Hop Hbt Hbl]. by split. Qed.
Lemma bnd_le n : bnd text n → (n ≤ str_len text)%nat.
Proof. intros (a & b & -> & <-). rewrite str_len_app. lia. Qed.
(** The layout of the tokens of a text never panics. *)
Lemma lay_out_ok raw b lo l : Forall (λ t, token_at text t ∧ is_layout (kind t) = false) raw → ascending lo raw → (origin ≤ lo)%nat →
  bnd text lo → lay_ok lo l → ∃ hi l', lay_out text origin raw b l = Some l' ∧ lay_ok hi l' ∧ bnd text hi.
Proof.
  intros Hr. revert b lo l. induction Hr as [|t raw [Ht Hk] Hr IH]; intros b lo l; cbn [lay_out ascending]; [by eauto|].
  intros [Hlo Ha] Hon Hbl Hl. destruct (token_bnd _ _ Ht) as (Hb & He & Hle).
  assert (∀ b l, lay_ok (sp_end (tspan t)) l → ∃ hi l', lay_out text origin raw b l = Some l' ∧ lay_ok hi l' ∧ bnd text hi) as Hgo.
  { intros b' l' Hl'. apply (IH b' (sp_end (tspan t))); [done|lia|done|done]. }
  assert (Forall (token_at text) raw) as Hr' by (eapply Forall_impl; [exact Hr|]; by intros ? [? _]).
  assert (∀ l, lay_ok lo l → ∃ hi l', (l ← end_line text (tspan t) l; lay_out text origin raw true l) = Some l' ∧ lay_ok hi l' ∧ bnd text hi) as Hend.
  { intros l' Hl'. destruct (end_line_ok lo (tspan t) l' Hl') as (l2 & -> & Hl2 & _); [|done|by apply Hgo].
    destruct Ht as (a & x & c & Ht & ? & ? & _). by exists a, x, c. }
  assert (∃ hi l', (l ← (if b then l ← indent text origin (sp_start (tspan t)) l; Some (with_content true l) else Some l);
    lay_out text origin raw false (push_out t (brackets t l))) = Some l' ∧ lay_ok hi l' ∧ bnd text hi) as Htok.
  { assert (∃ l1, (if b then l ← indent text origin (sp_start (tspan t)) l; Some (with_content true l) else Some l) = Some l1 ∧ lay_ok (sp_start (tspan t)) l1) as (l1 & -> & Hl1).
    { destruct b; [|exists l; split; [done|by apply (lay_ok_mono lo)]].
      destruct (indent_ok lo (sp_start (tspan t)) l Hl Hb Hlo ltac:(lia)) as (l1 & -> & Hl1). cbn. eexists. split; [done|by apply with_content_ok]. }
    cbn [mbind option_bind]. apply Hgo. apply (lay_ok_push (sp_start (tspan t))); [by apply brackets_ok|done|done|done]. }
  destruct (kind t) eqn:Ek; try exact Htok.
  - apply Hgo. apply (lay_ok_push lo); [done|done|done|by rewrite Ek].
  - destruct (0 <? depth l)%nat eqn:Ed; [|by apply Hend]. apply Nat.ltb_lt in Ed.
    destruct (continues_ok lo raw l Hl Ed Hr') as (goes_on & l1 & -> & Hl1); [eapply ascending_from; [|exact Ha]; lia|done|].
    cbn [mbind option_bind]. destruct goes_on; [|by apply Hend]. apply (IH b (sp_end (tspan t))); [done|lia|done|]. apply (lay_ok_mono lo); [lia|done].
Qed.
Lemma run_ok raw ds : Forall (λ t, token_at text t ∧ is_layout (kind t) = false) raw → ascending origin raw →
  ∃ toks ds', run text origin raw ds = Some (toks ++ [mkToken Eof (mkSpan (str_len text) (str_len text))], ds') ∧
    Forall (token_at text) toks ∧ ascends 0 toks (str_len text) ∧ blocks_after toks = Some 0%nat.
Proof.
  intros Hr Ha. unfold run. set (n := str_len text). set (stop := mkSpan n n).
  destruct (lay_out_ok raw true origin (mkLayout [] [0%nat] 0 None false ds) Hr Ha ltac:(done) Ho) as (hi & l & -> & Hl & Hhi).
  { split; cbn; [done|lia|lia|by exists []|done]. }
  cbn [mbind option_bind]. destruct (end_line_ok hi stop l Hl) as (l1 & -> & Hl1 & _); [apply virtual_at; [apply bnd_end|done]|by apply bnd_le|].
  cbn [mbind option_bind]. exists (out l1 ++ replicate (length (indents l1) - 1) (mkToken Dedent stop)), (ldiags l1). rewrite app_assoc.
  destruct Hl1 as [Ht Hor Hop Hbt Hbl]. split_and!; [done|..].
  - apply Forall_app. split; [done|]. apply Forall_replicate, virtual_at; [apply bnd_end|done].
  - eapply ascends_app; [exact Hor|]. clear. induction (length (indents l1) - 1)%nat as [|k IH]; cbn; [lia|]. by split_and!.
  - unfold blocks_after in *. rewrite foldl_app, Hbl. clear. induction (length (indents l1) - 1)%nat as [|k IH]; cbn; [done|]. done.
Qed.
End Layout.

(** The tokens of any text: they come without a panic, are slices of the text in
    order, and every block opened is closed, none that is not open. *)
Lemma tokens_ok `{LogosLaws} text :
  ∃ toks ds, tokens text = Some (toks ++ [mkToken Eof (mkSpan (str_len text) (str_len text))], ds) ∧
    Forall (token_at text) toks ∧ ascends 0 toks (str_len text) ∧ blocks_after toks = Some 0%nat.
Proof.
  unfold tokens. destruct (origin_le text) as [Hb Ha]. fold (origin_of text).
  destruct (raw_tokens (length text) 0 (None, None) text) as [raw ds] eqn:E.
  destruct (raw_tokens_at text (length text) [] (None, None) text raw ds eq_refl E) as [Hr _]. by apply run_ok.
Qed.

(** C39. The tokens of any text come without a panic: each is a slice of the text, in
    order, a token's text is of its kind's shape, every block opened is closed and
    none that is not open, and the end of the text is the last. *)
Theorem layout_balances `{LL : LogosLaws} (text : Str) :
  ∃ toks ds, tokens text = Some (toks ++ [mkToken Eof (mkSpan (str_len text) (str_len text))], ds) ∧
    Forall (token_at text) toks ∧ ascends 0 toks (str_len text) ∧ blocks_after toks = Some 0%nat.
Proof. apply tokens_ok. Qed.
