(* ===== verification/Parser.v ===== *)
(** * The parser of the behavior text language: [arora-behavior-tree/src/text/parser.rs]

    Recursive descent over the tokens, to the syntax tree of [text/ast.rs]. The
    code is a state monad whose [None] is a panic, or fuel run out: enough fuel is
    never [None]. [Parse<T>] is an [option] within. *)

From Stdlib Require Import Ascii.
From S2P Require Import Prelude Extern Regexes Tokens.

(** ** [text/ast.rs] *)
Record Name := mkName { n_span : Span; n_text : Str }.
Record CommentText := mkComment { c_span : Span; c_text : Str }.
Record FunctionName := mkFunctionName { fn_span : Span; fn_module : option Name; fn_name : Name }.
Inductive ExprKind :=
| ENumber (text : Str) (suffix : option Str)
| EString (value : Str)
| EBool (value : bool)
| EUnit
| ENone
| ESome (value : Expr)
| EArray (element : option Str) (elements : list Expr)
| EUuid (value : Z)
| EJson (text : Str)
| EVariable (name : Str)
| EVariableId (value : Z)
| EPort (node parameter : Name)
| ESelect (source : Expr) (path : Str)
| ECall (call : Call)
with Expr := mkExpr (span : Span) (kind : ExprKind)
with Call := mkCall (span : Span) (function : FunctionName) (arguments : list Argument)
with Argument := mkArgument (span : Span) (name : Name) (value : Expr) (comments : list CommentText).
Definition e_span (e : Expr) : Span := let '(mkExpr s _) := e in s.
Definition call_span (c : Call) : Span := let '(mkCall s _ _) := c in s.
Definition call_args (c : Call) : list Argument := let '(mkCall _ _ l) := c in l.
Definition with_args (l : list Argument) (c : Call) : Call := let '(mkCall s f _) := c in mkCall s f l.
Definition arg_span (a : Argument) : Span := let '(mkArgument s _ _ _) := a in s.
Definition add_comment (c : CommentText) (a : Argument) : Argument := let '(mkArgument s n v l) := a in mkArgument s n v (l ++ [c]).
Inductive Node :=
  mkNode (span : Span) (name : option Name) (target : option Expr) (call : Call) (children : list Node)
    (comments : list CommentText) (comment : option CommentText) (blank_before : bool).
Record Document := mkDocument { nodes : list Node; doc_comments : list CommentText }.
Record Parsed := mkParsed { document : Document; diagnostics : list Diagnostic }.

Definition MAX_DEPTH : nat := 128.
Definition ARRAY_TYPES : list Str :=
  lit <$> ["bool"; "u8"; "u16"; "u32"; "u64"; "i8"; "i16"; "i32"; "i64"; "f32"; "f64"; "str"]%string.
Definition SUFFIXES : list Str := lit <$> ["u16"; "u32"; "u64"; "i16"; "i32"; "i64"; "f32"; "f64"; "u8"; "i8"]%string.
Definition starts_with (p s : Str) : bool := bool_decide (take (length p) s = p).
Definition ends_with (p s : Str) : bool := bool_decide (drop (length s - length p) s = p).
(** A text as the bytes of its UTF-8 form, as the [uuid] crate reads it *)
Definition utf8_bytes (c : char) : list Z :=
  if c <? 0x80 then [c]
  else if c <? 0x800 then [0xC0 + Z.shiftr c 6; 0x80 + Z.land c 0x3F]
  else if c <? 0x10000 then [0xE0 + Z.shiftr c 12; 0x80 + Z.land (Z.shiftr c 6) 0x3F; 0x80 + Z.land c 0x3F]
  else [0xF0 + Z.shiftr c 18; 0x80 + Z.land (Z.shiftr c 12) 0x3F; 0x80 + Z.land (Z.shiftr c 6) 0x3F; 0x80 + Z.land c 0x3F].
Definition utf8_string (s : Str) : string :=
  foldr (λ b s, String.String (Ascii.ascii_of_N (Z.to_N b)) s) String.EmptyString (s ≫= utf8_bytes).

(** ** [unescape], [line_breaks] *)
Definition escaped (c : char) : option char :=
  if is_char "n"%char c then Some 10 else if is_char "r"%char c then Some 13 else if is_char "t"%char c then Some 9
  else if is_char "\"%char c then Some 92 else if c =? 34 then Some 34 else if is_char "'"%char c then Some 39
  else if is_char "0"%char c then Some 0 else None.
Definition hex_digit (c : char) : Z :=
  if is_digit c then c - 48 else if between "a"%char "f"%char c then c - 87 else c - 55.
Fixpoint split_once (close : char) (s : Str) : option (Str * Str) :=
  match s with
  | [] => None
  | c :: s => if c =? close then Some ([], s) else '(a, b) ← split_once close s; Some (c :: a, b)
  end.
(** The digits of a [\u{…}] and its char, of what follows the [u] *)
Definition code_point (rest : Str) : option (Str * char) :=
  match rest with
  | c :: rest =>
      if is_char "{"%char c then
        '(hex, _) ← split_once 125 rest;
        if (1 <=? length hex)%nat && (length hex <=? 6)%nat && forallb is_hexdigit hex then
          let code := foldl (λ n d, n * 16 + hex_digit d) 0 hex in
          if (code <? 0xD800) || (0xDFFF <? code) && (code <=? 0x10FFFF) then Some (hex, code) else None
        else None
      else None
  | [] => None
  end.
Fixpoint unescape (fuel at_ : nat) (value : Str) (s : Str) : result (nat * nat * Message) Str :=
  match fuel with
  | O => Ok value
  | S fuel =>
      match s with
      | [] => Ok value
      | c :: s =>
          if negb (is_char "\"%char c) then unescape fuel (at_ + len_utf8 c) (value ++ [c]) s
          else match s with
               | [] => Err (at_, 1%nat, UnknownEscape)
               | e :: s =>
                   if is_char "u"%char e then
                     match code_point s with
                     | Some (hex, c) => unescape fuel (at_ + 4 + length hex) (value ++ [c]) (drop (length hex + 2) s)
                     | None => Err (at_, 2%nat, BadUnicode)
                     end
                   else match escaped e with
                        | Some c => unescape fuel (at_ + 2) (value ++ [c]) s
                        | None => Err (at_, (1 + len_utf8 e)%nat, UnknownEscape)
                        end
               end
      end
  end.
Fixpoint line_breaks (s : Str) : nat :=
  match s with
  | [] => 0%nat
  | c :: s => if c =? 13 then ((match s with d :: _ => if (d =? 10)%Z then 0 else 1 | [] => 1 end) + line_breaks s)%nat
              else ((if (c =? 10)%Z then 1 else 0) + line_breaks s)%nat
  end.

(** ** [struct Parser]: the text and the tokens stay *)
Record Parser := mkParser {
  pos : nat;
  pdiags : list Diagnostic;
  pending : list CommentText;
  line_end : nat;
  previous : Span;
  pdepth : nat;
  blocks : nat;
}.
Definition P (A : Type) : Type := Parser → option (A * Parser).
#[export] Instance P_ret : MRet P := λ A a st, Some (a, st).
#[export] Instance P_bind : MBind P := λ A B f m st, '(a, st) ← m st; f a st.
(** [?] *)
Definition and_then {A B} (m : P (option A)) (f : A → P (option B)) : P (option B) :=
  r ← m; match r with Some a => f a | None => mret None end.
Notation "x ←? m ; k" := (and_then m (λ x : _, k)) (at level 20, m at level 100, k at level 200, only parsing).
Definition get : P Parser := λ st, Some (st, st).
Definition put (f : Parser → Parser) : P unit := λ st, Some (tt, f st).
Definition lift {A} (o : option A) : P A := λ st, a ← o; Some (a, st).
Definition stuck {A} : P A := λ _, None.
Definition with_pos (p : nat) (st : Parser) : Parser := mkParser p (pdiags st) (pending st) (line_end st) (previous st) (pdepth st) (blocks st).
Definition with_pending (l : list CommentText) (st : Parser) : Parser := mkParser (pos st) (pdiags st) l (line_end st) (previous st) (pdepth st) (blocks st).
Definition with_previous (s : Span) (st : Parser) : Parser := mkParser (pos st) (pdiags st) (pending st) (line_end st) s (pdepth st) (blocks st).
Definition with_line_end (n : nat) (st : Parser) : Parser := mkParser (pos st) (pdiags st) (pending st) n (previous st) (pdepth st) (blocks st).
Definition with_depth (n : nat) (st : Parser) : Parser := mkParser (pos st) (pdiags st) (pending st) (line_end st) (previous st) n (blocks st).
Definition with_blocks (n : nat) (st : Parser) : Parser := mkParser (pos st) (pdiags st) (pending st) (line_end st) (previous st) (pdepth st) n.
Definition add_diag (d : Diagnostic) (st : Parser) : Parser :=
  mkParser (pos st) (pdiags st ++ [d]) (pending st) (line_end st) (previous st) (pdepth st) (blocks st).

Section Parser.
Context `{UC : UuidCrate} (source : Str) (toks : list Token).

(** ** Reading tokens *)
(** The comments at the head of what is left, and the token after them. *)
Fixpoint take_comments (rest : list Token) : option (list CommentText * nat * Token) :=
  match rest with
  | [] => None
  | t :: rest =>
      if decide (kind t = Comment) then
        body ← slice source (S (sp_start (tspan t))) (sp_end (tspan t));
        '(l, n, next) ← take_comments rest;
        Some (mkComment (tspan t) (trim_end body) :: l, S n, next)
      else Some ([], 0%nat, t)
  end.
Definition peek : P Token := λ st,
  '(l, n, t) ← take_comments (drop (pos st) toks);
  Some (t, with_pending (pending st ++ l) (with_pos (pos st + n) st)).
Definition peek_second : P Kind :=
  _ ← peek;
  st ← get;
  mret (match List.find (λ t, negb (bool_decide (kind t = Comment))) (drop (S (pos st)) toks) with
        | Some t => kind t
        | None => Eof
        end).
Definition bump : P Token :=
  t ← peek;
  if decide (kind t = Eof) then mret t
  else put (λ st, with_previous (tspan t) (with_pos (S (pos st)) st)) ≫= λ _, mret t.
Definition at_kind (k : Kind) : P bool := t ← peek; mret (bool_decide (kind t = k)).
Definition eat (k : Kind) : P (option Token) := b ← at_kind k; if b : bool then t ← bump; mret (Some t) else mret None.
Definition text_of (s : Span) : P Str := lift (slice source (sp_start s) (sp_end s)).
Definition name_of (t : Token) : P Name := text ← text_of (tspan t); mret (mkName (tspan t) text).
Definition error (m : Message) (s : Span) : P unit := put (add_diag (diag_error m s)).
Definition fail {A} (m : Message) (s : Span) : P (option A) := _ ← error m s; mret None.
Definition expect (k : Kind) (m : Message) : P (option Token) :=
  r ← eat k; match r with Some t => mret (Some t) | None => t ← peek; fail m (tspan t) end.
Definition is_line_end (k : Kind) : bool := bool_decide (k ∈ [Newline; Eof; Indent; Dedent]).
Definition at_line_end : P bool := t ← peek; mret (is_line_end (kind t)).
Definition is_word (k : Kind) : bool := bool_decide (k ∈ [Ident; Uuid]).
Fixpoint skip_line (fuel : nat) : P unit :=
  match fuel with
  | O => stuck
  | S fuel => e ← at_line_end; if e : bool then mret tt else _ ← bump; skip_line fuel
  end.
Fixpoint skip_element (fuel depth : nat) : P unit :=
  match fuel with
  | O => stuck
  | S fuel =>
      e ← at_line_end;
      if e : bool then mret tt
      else
        t ← peek;
        match kind t with
        | LParen | LBracket => _ ← bump; skip_element fuel (S depth)
        | Comma => if (depth =? 0)%nat then mret tt else _ ← bump; skip_element fuel depth
        | RParen | RBracket => if (depth =? 0)%nat then mret tt else _ ← bump; skip_element fuel (depth - 1)
        | _ => _ ← bump; skip_element fuel depth
        end
  end.
Fixpoint skip_block (fuel depth : nat) : P unit :=
  match fuel with
  | O => stuck
  | S fuel =>
      t ← bump;
      match kind t with
      | Indent => skip_block fuel (S depth)
      | Dedent => if (depth =? 1)%nat then mret tt else skip_block fuel (depth - 1)
      | Eof => mret tt
      | _ => skip_block fuel depth
      end
  end.
Definition all_tokens : nat := S (length toks).

(** ** Values that hold no other *)
Definition number (t : Token) : P Expr :=
  _ ← bump;
  text ← text_of (tspan t);
  let suffix := List.find (λ s, ends_with s text) SUFFIXES in
  mret (mkExpr (tspan t) (ENumber (match suffix with Some s => take (length text - length s) text | None => text end) suffix)).
(** [string]: the value of a string token, at a span *)
Definition string_at (s : Span) : P (option Str) :=
  quoted ← text_of s;
  inner ← lift (slice quoted 1 (str_len quoted - 1));
  match unescape (S (length inner)) 0 [] inner with
  | Ok value => mret (Some value)
  | Err (offset, len, m) => let at_ := (sp_start s + 1 + offset)%nat in fail m (mkSpan at_ (at_ + len))
  end.
Definition string_value (t : Token) : P (option Expr) :=
  _ ← bump; value ←? string_at (tspan t); mret (Some (mkExpr (tspan t) (EString value))).
Definition variable (t : Token) : P (option Expr) :=
  _ ← bump;
  text ← text_of (tspan t);
  inner ← lift (slice text 1 (str_len text - 1));
  let name := trim inner in
  if starts_with (lit "=") name then fail AnonymousCell (tspan t)
  else if match name with [] => true | _ => existsb is_whitespace name end then fail NotAKey (tspan t)
  else mret (Some (mkExpr (tspan t) (match parse_str (utf8_string name) with Some u => EVariableId u | None => EVariable name end))).
Definition quoted_variable (t : Token) : P (option Expr) :=
  _ ← bump;
  name ←? string_at (mkSpan (S (sp_start (tspan t))) (sp_end (tspan t) - 1));
  mret (Some (mkExpr (tspan t) (EVariable name))).
Fixpoint words_after (fuel : nat) (name : Name) : P Name :=
  match fuel with
  | O => stuck
  | S fuel =>
      dot ← at_kind Dot;
      second ← (if dot : bool then k ← peek_second; mret (bool_decide (k = Ident)) else mret false);
      if second : bool then
        _ ← bump;
        w ← bump;
        text ← text_of (tspan w);
        words_after fuel (mkName (span_to (n_span name) (tspan w)) (n_text name ++ lit "." ++ text))
      else mret name
  end.
Definition parameter_name : P Name := first ← bump; name ← name_of first; words_after all_tokens name.
Definition reference (m : Message) : P (option Name) :=
  t ← peek;
  if negb (is_word (kind t)) then fail m (tspan t)
  else _ ← bump; name ← name_of t; mret (Some name).
Definition port (t : Token) : P (option Expr) :=
  _ ← bump;
  node ←? reference ExpectedNodeName;
  dot ← eat Dot;
  match dot with
  | None => fail (NoPort (n_text node)) (span_to (tspan t) (n_span node))
  | Some _ =>
      next ← peek;
      if negb (is_word (kind next)) then fail ExpectedParameterName (tspan next)
      else parameter ← parameter_name; mret (Some (mkExpr (span_to (tspan t) (n_span parameter)) (EPort node parameter)))
  end.
Definition unit_value (t : Token) : P (option Expr) :=
  _ ← bump; close ←? expect RParen ExpectedUnitClose; mret (Some (mkExpr (span_to (tspan t) (tspan close)) EUnit)).
Definition uuid_value (t : Token) : P (option Expr) :=
  _ ← bump;
  _ ← bump;
  id ←? expect Uuid ExpectedId;
  text ← text_of (tspan id);
  value ← lift (parse_str (utf8_string text));
  close ←? expect RParen ExpectedUuidClose;
  mret (Some (mkExpr (span_to (tspan t) (tspan close)) (EUuid value))).
Definition json_value (t : Token) : P (option Expr) :=
  _ ← bump;
  _ ← bump;
  s ←? expect String ExpectedString;
  text ←? string_at (tspan s);
  close ←? expect RParen ExpectedJsonClose;
  mret (Some (mkExpr (span_to (tspan t) (tspan close)) (EJson text))).
(** [function_name] *)
Definition function_name : P (option FunctionName) :=
  first ← bump;
  first ← name_of first;
  sep ← eat PathSep;
  match sep with
  | None => mret (Some (mkFunctionName (n_span first) None first))
  | Some _ =>
      t ← peek;
      if negb (is_word (kind t)) then fail ExpectedFunctionName (tspan t)
      else _ ← bump; name ← name_of t; mret (Some (mkFunctionName (span_to (n_span first) (n_span name)) (Some first) name))
  end.
(** A selection's path, of its token's text *)
Definition path_of (text : Str) : Str :=
  let inner := drop 1 text in
  trim (if ends_with (lit "]") inner then take (length inner - 1) inner else inner).
(** The selections out of a value *)
Fixpoint selections (fuel levels : nat) (expression : option Expr) : P (option Expr) :=
  match fuel with
  | O => stuck
  | S fuel =>
      is_path ← at_kind Path;
      match expression, (is_path : bool) with
      | Some src, true =>
          t ← bump;
          st ← get;
          if (MAX_DEPTH <? pdepth st + levels)%nat then fail ExpressionsTooDeep (tspan t)
          else
            text ← text_of (tspan t);
            _ ← lift (slice text 1 (str_len text));
            let path := path_of text in
            _ ← (match path with [] => error NoPath (tspan t) | _ => mret tt end);
            selections fuel (S levels) (Some (mkExpr (span_to (e_span src) (tspan t)) (ESelect src path)))
      | _, _ => mret expression
      end
  end.
(** After an element that parsed or [failed]: on to the next *)
Definition after_element (close : Kind) (closes : Str) (failed : bool) : P unit :=
  t ← peek;
  if decide (kind t = Comma) then _ ← bump; mret tt
  else if decide (kind t = close) then mret tt
  else
    e ← at_line_end;
    if e : bool then mret tt
    else if failed then _ ← bump; mret tt
    else
      text ← text_of (tspan t);
      _ ← error (ExpectedComma closes text) (tspan t);
      _ ← bump;
      _ ← skip_element all_tokens 0;
      _ ← eat Comma;
      mret tt.
Definition max_end (a fallback : Span) : Span := if (sp_end fallback <=? sp_end a)%nat then a else fallback.

(** ** Values *)
Fixpoint expression (fuel : nat) : P (option Expr) :=
  match fuel with
  | O => stuck
  | S fuel =>
      st ← get;
      if (MAX_DEPTH <=? pdepth st)%nat then t ← peek; fail ExpressionsTooDeep (tspan t)
      else
        _ ← put (with_depth (S (pdepth st)));
        e ← primary fuel;
        e ← selections all_tokens 1 e;
        _ ← put (λ st, with_depth (pdepth st - 1) st);
        mret e
  end
with primary (fuel : nat) : P (option Expr) :=
  match fuel with
  | O => stuck
  | S fuel =>
      t ← peek;
      match kind t with
      | Number => e ← number t; mret (Some e)
      | String => string_value t
      | Variable_ => variable t
      | QuotedVariable => quoted_variable t
      | At => port t
      | LParen => unit_value t
      | LBracket => array fuel t None
      | Ident => word_value fuel t
      | Uuid => call_value fuel
      | Error => _ ← bump; text ← text_of (tspan t); fail (NotOfLanguage text) (tspan t)
      | _ => text ← text_of (tspan t); fail (ExpectedValue text) (tspan t)
      end
  end
with array (fuel : nat) (t : Token) (element : option Str) : P (option Expr) :=
  match fuel with
  | O => stuck
  | S fuel =>
      _ ← (match element with Some _ => _ ← bump; mret tt | None => mret tt end);
      _ ← bump;
      r ←? elements fuel [];
      mret (Some (mkExpr (span_to (tspan t) r.2) (EArray element r.1)))
  end
with word_value (fuel : nat) (t : Token) : P (option Expr) :=
  match fuel with
  | O => stuck
  | S fuel =>
      second ← peek_second;
      text ← text_of (tspan t);
      if decide (text = lit "true" ∨ text = lit "false") then _ ← bump; mret (Some (mkExpr (tspan t) (EBool (bool_decide (text = lit "true")))))
      else if decide (text = lit "none") then _ ← bump; mret (Some (mkExpr (tspan t) ENone))
      else if decide (text = lit "some" ∧ second = LParen) then
        _ ← bump;
        _ ← bump;
        value ←? expression fuel;
        close ←? expect RParen ExpectedSomeClose;
        mret (Some (mkExpr (span_to (tspan t) (tspan close)) (ESome value)))
      else if decide (text = lit "uuid" ∧ second = LParen) then uuid_value t
      else if decide (text = lit "json" ∧ second = LParen) then json_value t
      else if decide (text ∈ ARRAY_TYPES ∧ second = LBracket) then array fuel t (Some text)
      else call_value fuel
  end
with call_value (fuel : nat) : P (option Expr) :=
  match fuel with
  | O => stuck
  | S fuel => c ←? call fuel false; mret (Some (mkExpr (call_span c) (ECall c)))
  end
with call (fuel : nat) (bare : bool) : P (option Call) :=
  match fuel with
  | O => stuck
  | S fuel =>
      t ← peek;
      if is_word (kind t) then
        function ←? function_name;
        open_ ← eat LParen;
        match open_ with
        | Some o => r ← arguments fuel [] o; mret (Some (mkCall (span_to (fn_span function) r.2) function r.1))
        | None =>
            if bare then mret (Some (mkCall (span_to (fn_span function) (fn_span function)) function []))
            else text ← text_of (fn_span function); fail (ExpectedCall text) (fn_span function)
        end
      else if decide (kind t = LParen) then fail ComputedFunction (tspan t)
      else text ← text_of (tspan t); fail (ExpectedFunction text) (tspan t)
  end
with arguments (fuel : nat) (acc : list Argument) (open_ : Token) : P (list Argument * Span) :=
  match fuel with
  | O => stuck
  | S fuel =>
      close ← eat RParen;
      match close with
      | Some c => mret (acc, tspan c)
      | None =>
          e ← at_line_end;
          if e : bool then st ← get; mret (acc, max_end (previous st) (tspan open_))
          else
            r ← argument fuel;
            match r with
            | Some a => _ ← after_element RParen (lit ")") false; arguments fuel (acc ++ [a]) open_
            | None =>
                _ ← skip_element all_tokens 0;
                _ ← after_element RParen (lit ")") true;
                arguments fuel acc open_
            end
      end
  end
with argument (fuel : nat) : P (option Argument) :=
  match fuel with
  | O => stuck
  | S fuel =>
      t ← peek;
      if is_word (kind t) then
        name ← parameter_name;
        _ ←? expect Colon ExpectedColon;
        value ←? expression fuel;
        mret (Some (mkArgument (span_to (n_span name) (e_span value)) name value []))
      else if decide (kind t = LParen) then fail ComputedParameter (tspan t)
      else text ← text_of (tspan t); fail (ExpectedParameter text) (tspan t)
  end
with elements (fuel : nat) (acc : list Expr) : P (option (list Expr * Span)) :=
  match fuel with
  | O => stuck
  | S fuel =>
      close ← eat RBracket;
      match close with
      | Some c => mret (Some (acc, tspan c))
      | None =>
          e ← at_line_end;
          if e : bool then mret None
          else
            r ← expression fuel;
            match r with
            | Some a => _ ← after_element RBracket (lit "]") false; elements fuel (acc ++ [a])
            | None =>
                _ ← skip_element all_tokens 0;
                _ ← after_element RBracket (lit "]") true;
                elements fuel acc
            end
      end
  end.

(** ** Lines and blocks *)
Record Head := mkHead { h_span : Span; h_name : option Name; h_target : option Expr; h_call : Call }.
Inductive Line := LNode (n : Node) | Orphans (l : list Node).
Definition head (fuel : nat) : P (option Head) :=
  start ← peek;
  named ← (if is_word (kind start) then second ← peek_second; mret (bool_decide (second = Colon)) else mret false);
  name ← (if named : bool then t ← bump; _ ← bump; n ← name_of t; mret (Some n) else mret None);
  t ← peek;
  target ←? (if bool_decide (kind t ∈ [Variable_; QuotedVariable; At]) then
               target ←? expression fuel;
               _ ←? expect Equals ExpectedEquals;
               mret (Some (Some target))
             else mret (Some None));
  c ←? call fuel true;
  mret (Some (mkHead (span_to (tspan start) (call_span c)) name target c)).
(** Where a comment of a line goes: at its end, after an argument, or above the node *)
Fixpoint rposition (l : list Argument) (start : nat) : option nat :=
  match l with
  | [] => None
  | a :: l =>
      match rposition l start with
      | Some i => Some (S i)
      | None => if (sp_start (arg_span a) <=? start)%nat then Some 0%nat else None
      end
  end.
Definition place_comment (s : Span) (st : Call * list CommentText * option CommentText) (found : CommentText) :
    Call * list CommentText * option CommentText :=
  let '(c, comments, comment) := st in
  let start := sp_start (c_span found) in
  if (sp_end s <=? start)%nat && match comment with None => true | Some _ => false end then (c, comments, Some found)
  else
    let after := match rposition (call_args c) start with
                 | Some i => Some i
                 | None => if negb (match call_args c with [] => true | _ => false end) && (sp_start (call_span c) <? start)%nat
                           then Some 0%nat else None
                 end in
    match after with
    | Some i => (with_args (alter (add_comment found) i (call_args c)) c, comments, comment)
    | None => (c, comments ++ [found], comment)
    end.
Definition take_pending : P (list CommentText) := st ← get; _ ← put (with_pending []); mret (pending st).

Fixpoint block (fuel : nat) (top : bool) (acc : list Node) : P (list Node) :=
  match fuel with
  | O => stuck
  | S fuel =>
      t ← peek;
      match kind t with
      | Eof => mret acc
      | Dedent => if top then _ ← bump; block fuel top acc else mret acc
      | Newline => _ ← bump; block fuel top acc
      | Indent =>
          _ ← bump;
          t ← peek;
          _ ← error UnderNoNode (tspan t);
          l ← children fuel;
          block fuel top (acc ++ l)
      | _ =>
          l ← line fuel;
          block fuel top (acc ++ match l with LNode n => [n] | Orphans l => l end)
      end
  end
with children (fuel : nat) : P (list Node) :=
  match fuel with
  | O => stuck
  | S fuel =>
      st ← get;
      if (MAX_DEPTH <=? blocks st)%nat then
        t ← peek;
        _ ← error BlocksTooDeep (tspan t);
        _ ← skip_block all_tokens 1;
        mret []
      else
        _ ← put (with_blocks (S (blocks st)));
        l ← block fuel false [];
        _ ← put (λ st, with_blocks (blocks st - 1) st);
        _ ← eat Dedent;
        mret l
  end
with line (fuel : nat) : P Line :=
  match fuel with
  | O => stuck
  | S fuel =>
      comments ← take_pending;
      start ← (match comments with c :: _ => mret (sp_start (c_span c)) | [] => t ← peek; mret (sp_start (tspan t)) end);
      st ← get;
      above ← lift (slice source (Nat.min (line_end st) start) start);
      let blank_before := (2 <=? line_breaks above)%nat in
      h ← head fuel;
      e ← at_line_end;
      _ ← (match h, (e : bool) with
           | Some _, false => t ← peek; text ← text_of (tspan t); error (PastNode text) (tspan t)
           | _, _ => mret tt
           end);
      _ ← skip_line all_tokens;
      t ← peek;
      _ ← eat Newline;
      _ ← put (with_line_end (sp_start (tspan t)));
      match h with
      | None =>
          _ ← put (λ st, with_pending (comments ++ pending st) st);
          i ← eat Indent;
          l ← (match i with Some _ => children fuel | None => mret [] end);
          mret (Orphans l)
      | Some h =>
          found ← take_pending;
          let '(c, comments, comment) := foldl (place_comment (h_span h)) (h_call h, comments, None) found in
          i ← eat Indent;
          l ← (match i with Some _ => children fuel | None => mret [] end);
          mret (LNode (mkNode (h_span h) (h_name h) (h_target h) c l comments comment blank_before))
      end
  end.
Definition parse_tokens (fuel : nat) : P Document :=
  l ← block fuel true [];
  _ ← peek;
  comments ← take_pending;
  mret (mkDocument l comments).
End Parser.

Definition by_start (a b : Diagnostic) : Prop := (sp_start (d_span a) <= sp_start (d_span b))%nat.
#[export] Instance by_start_dec : RelDecision by_start := λ a b, Nat.le_dec _ _.
(** [parse] *)
Definition parse `{LC : LogosCrate} `{UC : UuidCrate} (fuel : nat) (text : Str) : option Parsed :=
  '(toks, ds) ← tokens text;
  '(d, st) ← parse_tokens text toks fuel (mkParser 0 ds [] 0 (mkSpan 0 0) 0 0);
  Some (mkParsed d (merge_sort by_start (pdiags st))).
