(* ===== verification/Parsing.v ===== *)
(** * The parser always ends, and never panics

    On the tokens of any text, and fuel in proportion to them, every function of
    the parser answers: an index, a slice and an [expect] never fail, no depth
    goes below zero, and every loop reads on. *)

From Stdlib Require Import Ascii.
From S2P Require Import Prelude Extern Regexes Tokens Parser Lexing.

(** What the parser relies on of the [uuid] crate: an id in its hyphenated form is read. *)
Class UuidTextLaws `{UuidCrate} : Prop :=
  { parse_hyphenated s : lang (raw_regex RUuid) s → is_Some (parse_str (utf8_string s)) }.

(** ** Code that answers *)
Definition runs {A} (m : P A) (st : Parser) (Q : A → Parser → Prop) : Prop := ∃ a st', m st = Some (a, st') ∧ Q a st'.
Lemma runs_ret {A} (a : A) st (Q : A → Parser → Prop) : Q a st → runs (mret a) st Q.
Proof. intros H. by exists a, st. Qed.
Lemma runs_then {A B} (m : P A) (f : A → P B) st Q (Q' : B → Parser → Prop) :
  runs m st Q → (∀ a st', Q a st' → runs (f a) st' Q') → runs (m ≫= f) st Q'.
Proof.
  intros (a & st' & E & HQ) Hf. destruct (Hf a st' HQ) as (b & st2 & E2 & H2). exists b, st2.
  split; [|done]. unfold mbind, P_bind. by rewrite E.
Qed.
Lemma runs_try {A B} (m : P (option A)) (f : A → P (option B)) st Q (Q' : option B → Parser → Prop) :
  runs m st Q → (∀ st', Q None st' → Q' None st') → (∀ a st', Q (Some a) st' → runs (f a) st' Q') → runs (and_then m f) st Q'.
Proof. intros Hm Hn Hs. unfold and_then. eapply runs_then; [exact Hm|]. intros [a|] st' HQ; [by apply Hs|by apply runs_ret, Hn]. Qed.
Lemma runs_mono {A} (m : P A) st (Q Q' : A → Parser → Prop) : runs m st Q → (∀ a st', Q a st' → Q' a st') → runs m st Q'.
Proof. intros (a & st' & E & HQ) H. exists a, st'. split; [done|by apply H]. Qed.
Lemma runs_get st (Q : Parser → Parser → Prop) : Q st st → runs get st Q.
Proof. intros H. by exists st, st. Qed.
Lemma runs_put f st (Q : unit → Parser → Prop) : Q tt (f st) → runs (put f) st Q.
Proof. intros H. by exists tt, (f st). Qed.
Lemma runs_lift {A} (o : option A) st (Q : A → Parser → Prop) a : o = Some a → Q a st → runs (lift o) st Q.
Proof. intros -> H. by exists a, st. Qed.

Section Parsing.
Context `{UC : UuidCrate} `{UL : !UuidTextLaws} (source : Str) (front : list Token).
Definition eof : Token := mkToken Eof (mkSpan (str_len source) (str_len source)).
Context (Hfront : Forall (token_at source) front) (Horder : ascends 0 front (str_len source)).
Local Abbreviation toks := (front ++ [eof]).

Lemma eof_at : token_at source eof.
Proof. exists source, [], []. split_and!; [by rewrite !app_nil_r|done|cbn; lia|done]. Qed.
Lemma toks_at : Forall (token_at source) toks.
Proof. apply Forall_app. split; [done|]. constructor; [apply eof_at|done]. Qed.
Lemma tok_at i t : toks !! i = Some t → token_at source t.
Proof. apply Forall_lookup_1, toks_at. Qed.
Lemma ascends_lookup lo l hi i j t u : ascends lo l hi → l !! i = Some t → l !! j = Some u → (i < j)%nat → (sp_end (tspan t) ≤ sp_start (tspan u))%nat.
Proof.
  intros Ha Hi Hj Hlt. revert lo i j Ha Hi Hj Hlt. induction l as [|v l IH]; intros lo i j Ha Hi Hj Hlt; [done|]. destruct Ha as (Hlo & Hle & Ha).
  destruct i as [|i], j as [|j]; try lia; cbn in Hi, Hj; [|by apply (IH _ i j Ha); [..|lia]]. injection Hi as <-. clear IH Hle Hlo Hlt.
  revert j Hj Ha. generalize (sp_end (tspan v)). induction l as [|v' l IH]; intros n j Hj Ha; [done|]. destruct Ha as (Hlo & Hle & Ha).
  destruct j as [|j]; [by injection Hj as <-|]. pose proof (IH _ j Hj Ha). lia.
Qed.
Lemma toks_order i j t u : toks !! i = Some t → toks !! j = Some u → (i < j)%nat → (sp_end (tspan t) ≤ sp_start (tspan u))%nat.
Proof.
  apply (ascends_lookup 0 toks (str_len source)). eapply ascends_app; [exact Horder|]. cbn. lia.
Qed.

(** The state between two reads *)
Record fine (st : Parser) : Prop := {
  fine_pos : (pos st < length toks)%nat;
  fine_line : bnd source (line_end st);
  fine_pending : Forall (λ c, bnd source (sp_start (c_span c))) (pending st);
}.
(** On by [n] tokens at least, at the same depths *)
Record goes (n : nat) (st st' : Parser) : Prop := {
  goes_fine : fine st';
  goes_pos : (pos st + n ≤ pos st')%nat;
  goes_depth : pdepth st' = pdepth st;
  goes_blocks : blocks st' = blocks st;
}.
Definition next (st : Parser) (t : Token) : Prop := toks !! pos st = Some t ∧ kind t ≠ Comment.
Definition rem (st : Parser) : nat := length toks - pos st.

Lemma goes_refl st : fine st → goes 0 st st.
Proof. intros H. split; [done|lia|done|done]. Qed.
Lemma goes_trans n m k st st1 st2 : goes n st st1 → goes m st1 st2 → (k ≤ n + m)%nat → goes k st st2.
Proof. intros [? ? ? ?] [? ? ? ?] ?. split; [done|lia|congruence|congruence]. Qed.
Lemma goes_then n m st st1 st2 : goes n st st1 → goes m st1 st2 → goes (n + m) st st2.
Proof. intros H1 H2. by eapply goes_trans. Qed.
Lemma goes_le n k st st' : goes n st st' → (k ≤ n)%nat → goes k st st'.
Proof. intros [? ? ? ?] ?. split; [done|lia|done|done]. Qed.
Lemma goes_rem n st st' : goes n st st' → (rem st' + n ≤ rem st)%nat.
Proof. intros [[Hp _ _] ? _ _]. unfold rem in *. lia. Qed.

(** On and on, through the states in between *)
Ltac chain :=
  lazymatch goal with
  | |- goes _ ?a ?c => first [eassumption | multimatch goal with H : goes _ a ?b |- _ => eapply (goes_then _ _ a b c H); chain end]
  end.
Ltac going := cbv beta iota in *; eapply goes_le; [chain|lia].

Lemma take_comments_ok i : (i < length toks)%nat → ∃ l n t, take_comments source (drop i toks) = Some (l, n, t) ∧
  toks !! (i + n)%nat = Some t ∧ kind t ≠ Comment ∧ Forall (λ c, bnd source (sp_start (c_span c))) l.
Proof.
  intros Hi. remember (length toks - i)%nat as k eqn:Ek. revert i Hi Ek. induction k as [|k IH]; intros i Hi Ek; [lia|].
  destruct (lookup_lt_is_Some_2 toks i Hi) as [t Ht]. rewrite (drop_S _ _ _ Ht). cbn [take_comments].
  destruct (decide (kind t = Comment)) as [Ec|Ec]; [|exists [], 0%nat, t; rewrite Nat.add_0_r; split_and!; done].
  assert (S i < length toks)%nat.
  { destruct (decide (S i = length toks)) as [E|]; [|lia]. exfalso. rewrite length_app in E. cbn in E.
    rewrite (list_lookup_middle front [] eof i) in Ht by lia. injection Ht as <-. done. }
  destruct (tok_at i t Ht) as (a & x & b & Hs & Ha & Hb & Hx). rewrite Ec in Hx. destruct Hx as [y ->].
  assert (slice source (S (sp_start (tspan t))) (sp_end (tspan t)) = Some y) as ->.
  { rewrite Ha, Hb, Hs. replace (a ++ (35%Z :: y) ++ b) with ((a ++ [35%Z]) ++ y ++ b) by (by rewrite <- app_assoc).
    assert (str_len [35%Z] = 1%nat) as E1 by reflexivity.
    replace (S (str_len a)) with (str_len (a ++ [35%Z])) by (rewrite str_len_app; lia).
    replace (str_len a + str_len (35%Z :: y))%nat with (str_len (a ++ [35%Z]) + str_len y)%nat by (rewrite str_len_app, E1, str_len_cons; change (len_utf8 35) with 1%nat; lia). apply slice_app. }
  destruct (IH (S i) ltac:(done) ltac:(lia)) as (l & n & u & -> & Hu & Hk & Hl). cbn [mbind option_bind].
  exists (mkComment (tspan t) (trim_end y) :: l), (S n), u. split_and!; [done|by rewrite <- Nat.add_succ_comm|done|].
  constructor; [|done]. cbn. rewrite Ha. by exists a, ((35%Z :: y) ++ b).
Qed.
Lemma peek_ok st : fine st → runs (peek source toks) st (λ t st', goes 0 st st' ∧ next st' t).
Proof.
  intros [Hp Hl Hc]. unfold peek. destruct (take_comments_ok (pos st) Hp) as (l & n & t & E & Ht & Hk & Hf).
  eexists _, _. split; [by rewrite E|]. split; [|done]. split; cbn; [|lia|done|done]. split; cbn; [|done|by apply Forall_app].
  by apply lookup_lt_Some in Ht.
Qed.
Lemma peek_again st t : next st t → peek source toks st = Some (t, st).
Proof.
  intros [Ht Hk]. unfold peek. rewrite (drop_S _ _ _ Ht). cbn [take_comments]. rewrite decide_False by done. cbn [mbind option_bind].
  rewrite app_nil_r, Nat.add_0_r. by destruct st.
Qed.
Lemma next_unique st t u : next st t → next st u → t = u.
Proof. intros [H _] [H' _]. congruence. Qed.
Lemma not_last st t : next st t → kind t ≠ Eof → (S (pos st) < length toks)%nat.
Proof.
  intros [Ht _] Hk. pose proof (lookup_lt_Some _ _ _ Ht). destruct (decide (S (pos st) = length toks)) as [E|]; [|lia].
  exfalso. apply Hk. rewrite length_app in E. cbn in E. rewrite (list_lookup_middle front [] eof (pos st)) in Ht by lia. by injection Ht as <-.
Qed.
(** A token is read past, but the last. *)
Lemma bump_next st t : fine st → next st t →
  runs (bump source toks) st (λ u st', u = t ∧ goes (if decide (kind t = Eof) then 0 else 1) st st').
Proof.
  intros Hf Hn. unfold bump. eapply runs_then; [exists t, st; split; [by apply peek_again|]; by instantiate (1 := λ u st', u = t ∧ st' = st)|].
  intros u st' [-> ->]. destruct (decide (kind t = Eof)) as [E|E]; [apply runs_ret; split; [done|by apply goes_refl]|].
  eapply runs_then; [apply runs_put; by instantiate (1 := λ _ st', st' = with_previous (tspan t) (with_pos (S (pos st)) st))|].
  intros ? st' ->. apply runs_ret. split; [done|]. destruct Hf as [Hp Hl Hc]. split; cbn; [|lia|done|done]. split; cbn; [|done|done]. by apply (not_last st t).
Qed.

(** ** Reading *)
Definition taken (st : Parser) (k : Kind) (t : Token) (st' : Parser) : Prop :=
  goes 1 st st' ∧ kind t = k ∧ ∃ i, (pos st ≤ i < pos st')%nat ∧ toks !! i = Some t.
Definition gained {A} (r : option A) : nat := match r with Some _ => 1 | None => 0 end.
Lemma at_kind_ok k st : fine st → runs (at_kind source toks k) st (λ b st', goes 0 st st' ∧ ∃ t, next st' t ∧ b = bool_decide (kind t = k)).
Proof.
  intros Hf. unfold at_kind. eapply runs_then; [by apply peek_ok|]. intros t st' [Hg Hn]. apply runs_ret. eauto.
Qed.
Lemma bump_ok st : fine st → runs (bump source toks) st (λ t st', goes 0 st st' ∧ (kind t = Eof ∨ goes 1 st st') ∧ ∃ i, (pos st ≤ i)%nat ∧ toks !! i = Some t).
Proof.
  intros Hf. destruct (peek_ok st Hf) as (t & st1 & E & Hg & Hn).
  assert (bump source toks st = bump source toks st1) as Eb.
  { unfold bump, mbind, P_bind. by rewrite E, (peek_again st1 t Hn). }
  destruct (bump_next st1 t (goes_fine _ _ _ Hg) Hn) as (u & st2 & Eu & -> & Hg2). exists t, st2. rewrite Eb. split; [done|].
  split_and!; [going| |exists (pos st1); destruct Hn, Hg; split; [lia|done]].
  destruct (decide (kind t = Eof)); [by left|]. right. going.
Qed.
Lemma eat_ok k st : fine st → k ≠ Eof → runs (eat source toks k) st (λ r st',
  match r with Some t => taken st k t st' | None => goes 0 st st' ∧ ∃ t, next st' t ∧ kind t ≠ k end).
Proof.
  intros Hf Hk. unfold eat. eapply runs_then; [by apply at_kind_ok|]. intros b st1 (Hg & t & Hn & ->).
  case_bool_decide as E; [|apply runs_ret; eauto]. eapply runs_then; [apply (bump_next st1 t (goes_fine _ _ _ Hg) Hn)|].
  intros u st2 [-> Hg2]. apply runs_ret. rewrite decide_False in Hg2 by congruence. split_and!; [going|done|].
  exists (pos st1). destruct Hn, Hg, Hg2. split; [lia|done].
Qed.
Lemma error_ok m s st : fine st → runs (error m s) st (λ _ st', goes 0 st st' ∧ pos st' = pos st).
Proof. intros [? ? ?]. apply runs_put. split; [|done]. split; cbn; [by split|lia|done|done]. Qed.
Lemma fail_ok {A} m s st : fine st → runs (fail (A := A) m s) st (λ r st', r = None ∧ goes 0 st st').
Proof. intros Hf. unfold fail. eapply runs_then; [by apply error_ok|]. intros ? st' [Hg _]. by apply runs_ret. Qed.
Lemma expect_ok k m st : fine st → k ≠ Eof → runs (expect source toks k m) st (λ r st',
  match r with Some t => taken st k t st' | None => goes 0 st st' end).
Proof.
  intros Hf Hk. unfold expect. eapply runs_then; [by apply eat_ok|]. intros [t|] st1; [intros H; by apply runs_ret|].
  intros [Hg _]. eapply runs_then; [apply peek_ok, Hg|]. intros t st2 [Hg2 _]. eapply runs_mono; [apply fail_ok, Hg2|].
  intros r st3 [-> Hg3]. going.
Qed.
Lemma text_of_ok s st : bnd source (sp_start s) → bnd source (sp_end s) → (sp_start s ≤ sp_end s)%nat →
  runs (text_of source s) st (λ x st', st' = st ∧ slice source (sp_start s) (sp_end s) = Some x).
Proof. intros Ha Hb Hle. destruct (slice_bnd source _ _ Ha Hb Hle) as [x Hx]. by apply (runs_lift _ _ _ x). Qed.
Lemma text_of_token t st i : toks !! i = Some t → runs (text_of source (tspan t)) st (λ x st', st' = st ∧ shape (kind t) x).
Proof.
  intros Ht. destruct (tok_at i t Ht) as (a & x & b & Hs & Ha & Hb & Hx). apply (runs_lift _ _ _ x); [|done].
  rewrite Ha, Hb, Hs. apply slice_app.
Qed.
Lemma name_of_ok t st i : toks !! i = Some t → runs (name_of source t) st (λ n st', st' = st ∧ n_span n = tspan t).
Proof. intros Ht. unfold name_of. eapply runs_then; [by eapply text_of_token|]. intros x st' [-> _]. by apply runs_ret. Qed.
Lemma line_end_ok st : fine st → runs (at_line_end source toks) st (λ b st', goes 0 st st' ∧ ∃ t, next st' t ∧ b = is_line_end (kind t)).
Proof. intros Hf. unfold at_line_end. eapply runs_then; [by apply peek_ok|]. intros t st' [Hg Hn]. apply runs_ret. eauto. Qed.
Lemma line_end_again st t : next st t → runs (at_line_end source toks) st (λ b st', st' = st ∧ b = is_line_end (kind t)).
Proof.
  intros Hn. unfold at_line_end. eapply runs_then; [exists t, st; split; [by apply peek_again|]; by instantiate (1 := λ u st', u = t ∧ st' = st)|].
  intros u st' [-> ->]. by apply runs_ret.
Qed.
Lemma peek_second_again st t : next st t → runs (peek_second source toks) st (λ _ st', st' = st).
Proof.
  intros Hn. unfold peek_second. eapply runs_then; [exists t, st; split; [by apply peek_again|]; by instantiate (1 := λ _ st', st' = st)|].
  intros u st' ->. eapply runs_then; [by apply runs_get; instantiate (1 := λ _ st2, st2 = st)|]. intros a st2 ->. by apply runs_ret.
Qed.
Lemma peek_second_ok st : fine st → runs (peek_second source toks) st (λ k st', goes 0 st st' ∧ ∃ t, next st' t).
Proof.
  intros Hf. unfold peek_second. eapply runs_then; [by apply peek_ok|]. intros t st' [Hg Hn].
  eapply runs_then; [by apply runs_get; instantiate (1 := λ a st2, a = st' ∧ st2 = st')|]. intros a st2 [-> ->]. apply runs_ret. eauto.
Qed.

Lemma skip_line_ok fuel st : fine st → (rem st < fuel)%nat → runs (skip_line source toks fuel) st (λ _ st', goes 0 st st').
Proof.
  revert st. induction fuel as [|fuel IH]; intros st Hf Hr; [lia|]. cbn [skip_line]. eapply runs_then; [by apply line_end_ok|].
  intros b st1 (Hg & t & Hn & ->). destruct (is_line_end (kind t)) eqn:E; [by apply runs_ret|].
  eapply runs_then; [apply (bump_next st1 t (goes_fine _ _ _ Hg) Hn)|]. intros u st2 [-> Hg2].
  rewrite decide_False in Hg2 by (intros E2; by rewrite E2 in E). eapply runs_mono; [apply IH; [apply Hg2|]|].
  - apply goes_rem in Hg, Hg2. lia.
  - intros ? st3 Hg3. going.
Qed.
Lemma skip_element_ok fuel depth st : fine st → (rem st < fuel)%nat → runs (skip_element source toks fuel depth) st (λ _ st', goes 0 st st').
Proof.
  revert depth st. induction fuel as [|fuel IH]; intros depth st Hf Hr; [lia|]. cbn [skip_element]. eapply runs_then; [by apply line_end_ok|].
  intros b st1 (Hg & t & Hn & ->). destruct (is_line_end (kind t)) eqn:E; [by apply runs_ret|].
  eapply runs_then; [exists t, st1; split; [by apply peek_again|]; by instantiate (1 := λ u st', u = t ∧ st' = st1)|]. intros u st2 [-> ->].
  assert (∀ d, runs (bump source toks ≫= λ _, skip_element source toks fuel d) st1 (λ _ st', goes 0 st st')) as Hgo.
  { intros d. eapply runs_then; [apply (bump_next st1 t (goes_fine _ _ _ Hg) Hn)|]. intros u st2 [-> Hg2].
    rewrite decide_False in Hg2 by (intros E2; by rewrite E2 in E). eapply runs_mono; [apply IH; [apply Hg2|]|].
    - apply goes_rem in Hg, Hg2. lia.
    - intros ? st3 Hg3. going. }
  destruct (kind t); try apply Hgo; (destruct (depth =? 0)%nat; [by apply runs_ret|apply Hgo]).
Qed.
Lemma skip_block_ok fuel depth st : fine st → (rem st < fuel)%nat → runs (skip_block source toks fuel depth) st (λ _ st', goes 0 st st').
Proof.
  revert depth st. induction fuel as [|fuel IH]; intros depth st Hf Hr; [lia|]. cbn [skip_block]. eapply runs_then; [by apply bump_ok|].
  intros t st1 (Hg & Hor & _).
  assert (∀ d, kind t ≠ Eof → runs (skip_block source toks fuel d) st1 (λ _ st', goes 0 st st')) as Hgo.
  { intros d Hk. destruct Hor as [?|Hg1]; [done|]. eapply runs_mono; [apply IH; [apply Hg|]|].
    - apply goes_rem in Hg1. lia.
    - intros ? st3 Hg3. going. }
  destruct (kind t) eqn:E; try (by apply Hgo); [|by apply runs_ret]. destruct (depth =? 1)%nat; [by apply runs_ret|by apply Hgo].
Qed.

(** ** Values that hold no other *)
(** A value that starts with the next token *)
Definition leaf {A} (m : P A) (st : Parser) : Prop := runs m st (λ _ st', goes 1 st st').
Lemma bump_then {A} (f : Token → P A) st t Q : fine st → next st t → kind t ≠ Eof →
  (∀ st', goes 1 st st' → runs (f t) st' Q) → runs (bump source toks ≫= f) st Q.
Proof.
  intros Hf Hn Hk H. eapply runs_then; [by apply (bump_next st t)|]. intros u st' [-> Hg]. rewrite decide_False in Hg by done. by apply H.
Qed.
Lemma bumped_text {A} (f : Str → P A) st t Q : toks !! pos st = Some t →
  ∀ st', (∀ x, shape (kind t) x → runs (f x) st' Q) → runs (text_of source (tspan t) ≫= f) st' Q.
Proof. intros Ht st' H. eapply runs_then; [by eapply text_of_token|]. intros x st2 [-> Hx]. by apply H. Qed.
Lemma number_ok st t : fine st → next st t → kind t ≠ Eof → leaf (number source toks t) st.
Proof.
  intros Hf Hn Hk. unfold leaf, number. apply (bump_then _ _ t); [done..|]. intros st' Hg.
  apply (bumped_text _ st); [apply Hn|]. intros x _. by apply runs_ret.
Qed.
(** The text between a string's quotes is read, or refused. *)
Lemma string_at_ok a x b st s : source = a ++ x ++ b → sp_start s = str_len a → sp_end s = (str_len a + str_len x)%nat →
  (∃ y, x = 34 :: y ++ [34]) → fine st → runs (string_at source s) st (λ _ st', goes 0 st st').
Proof.
  intros Hs Ha Hb [y Hx] Hf. unfold string_at. eapply runs_then.
  { apply (runs_lift _ _ (λ z st', z = x ∧ st' = st) x); [|done]. rewrite Ha, Hb, Hs. apply slice_app. }
  intros z st' [-> ->]. eapply runs_then; [apply (runs_lift _ _ (λ z st', st' = st) y); [|done]; rewrite Hx; by apply slice_inner|].
  intros z st' ->. destruct (unescape _ _ _ _) as [value|[[offset len] m]]; [apply runs_ret; by apply goes_refl|].
  eapply runs_mono; [by apply fail_ok|]. by intros r st' [_ Hg].
Qed.
Lemma string_token_ok i t st : toks !! i = Some t → kind t = String → fine st → runs (string_at source (tspan t)) st (λ _ st', goes 0 st st').
Proof.
  intros Ht Hk Hf. destruct (tok_at i t Ht) as (a & x & b & Hs & Ha & Hb & Hx). rewrite Hk in Hx. by apply (string_at_ok a x b).
Qed.
(** Failing keeps what was read. *)
Lemma try_leaf {A B} (m : P (option A)) (f : A → P (option B)) st st1 (Q : option A → Parser → Prop) :
  goes 1 st st1 → runs m st1 Q → (∀ a st', Q a st' → goes 0 st1 st') → (∀ a st', Q (Some a) st' → goes 0 st1 st' → runs (f a) st' (λ _ st2, goes 1 st st2)) →
  runs (and_then m f) st1 (λ _ st2, goes 1 st st2).
Proof.
  intros Hg Hm H0 H. eapply runs_try; [exact Hm| |].
  - intros st' HQ. apply H0 in HQ. going.
  - intros a st' HQ. apply H; [done|by eapply H0].
Qed.
Lemma fail_leaf {A} m s st st1 : goes 1 st st1 → runs (fail (A := A) m s) st1 (λ _ st2, goes 1 st st2).
Proof. intros Hg. eapply runs_mono; [apply fail_ok, Hg|]. intros r st2 [_ Hg2]. going. Qed.
Lemma expect_leaf {B} k m (f : Token → P (option B)) st st1 : goes 1 st st1 → k ≠ Eof →
  (∀ t st', taken st1 k t st' → runs (f t) st' (λ _ st2, goes 1 st st2)) →
  runs (and_then (expect source toks k m) f) st1 (λ _ st2, goes 1 st st2).
Proof.
  intros Hg Hk H. eapply runs_try; [apply expect_ok; [apply Hg|done]| |].
  - intros st' Hg'. going.
  - intros t st' Ht. by apply H.
Qed.
Lemma string_value_ok st t : fine st → next st t → kind t = String → leaf (string_value source toks t) st.
Proof.
  intros Hf Hn Hk. apply (bump_then _ _ t); [done|done|by rewrite Hk|]. intros st' Hg.
  eapply (try_leaf _ _ _ _ _ Hg); [apply (string_token_ok (pos st)); [apply Hn|done|apply Hg]|done|]. intros v st2 _ Hg2. apply runs_ret. going.
Qed.
Lemma variable_ok st t : fine st → next st t → kind t = Variable_ → leaf (variable source toks t) st.
Proof.
  intros Hf Hn Hk. apply (bump_then _ _ t); [done|done|by rewrite Hk|]. intros st' Hg.
  apply (bumped_text _ st); [apply Hn|]. intros x Hx. rewrite Hk in Hx. destruct Hx as [y ->].
  eapply runs_then; [apply (runs_lift _ _ (λ z st2, z = y ∧ st2 = st') y); [by apply slice_inner|done]|]. intros z st2 [-> ->].
  cbv zeta. match goal with |- runs (if ?b then _ else _) _ _ => destruct b end; [by apply fail_leaf|]. match goal with |- runs (if ?b then _ else _) _ _ => destruct b end; [by apply fail_leaf|by apply runs_ret].
Qed.
Ltac lens :=
  rewrite ?str_len_app, ?str_len_cons, ?str_len_app, ?str_len_cons; change (str_len []) with 0%nat;
  change (len_utf8 34) with 1%nat; change (len_utf8 123) with 1%nat; change (len_utf8 125) with 1%nat; lia.
Lemma quoted_variable_ok st t : fine st → next st t → kind t = QuotedVariable → leaf (quoted_variable source toks t) st.
Proof.
  intros Hf Hn Hk. apply (bump_then _ _ t); [done|done|by rewrite Hk|]. intros st' Hg.
  destruct (tok_at _ t (proj1 Hn)) as (a & x & b & Hs & Ha & Hb & Hx). rewrite Hk in Hx. destruct Hx as [y ->].
  eapply (try_leaf _ _ _ _ (λ _ st2, goes 0 st' st2) Hg); [|done|intros v st2 _ Hg2; apply runs_ret; going].
  apply (string_at_ok (a ++ [123]) (34 :: y ++ [34]) (125 :: b)); [| | |by exists y|apply Hg].
  - rewrite Hs. by rewrite <- app_assoc; cbn; rewrite <- !app_assoc.
  - cbn [sp_start]. rewrite Ha. lens.
  - cbn [sp_start sp_end]. rewrite Hb. lens.
Qed.
Lemma words_after_ok fuel name st : fine st → (rem st < fuel)%nat → runs (words_after source toks fuel name) st (λ _ st', goes 0 st st').
Proof.
  revert name st. induction fuel as [|fuel IH]; intros name st Hf Hr; [lia|]. cbn [words_after].
  eapply runs_then; [by apply at_kind_ok|]. intros dot st1 (Hg & t & Hn & Hdot).
  eapply (runs_then _ _ _ (λ b st2, st2 = st1 ∧ (b = true → dot = true))).
  { destruct dot; [|by apply runs_ret]. eapply runs_then; [by apply (peek_second_again st1 t)|]. intros k st2 ->. by apply runs_ret. }
  intros second st2 [-> Hs]. destruct second; [|apply runs_ret; going]. specialize (Hs eq_refl). subst dot.
  apply bool_decide_eq_true in Hs.
  apply (bump_then _ st1 t); [apply Hg|done|by rewrite Hs|]. intros st2 Hg2.
  eapply runs_then; [apply bump_ok, Hg2|]. intros w st3 (Hg3 & _ & i & _ & Hi).
  eapply runs_then; [by eapply text_of_token|]. intros x st4 [-> _]. eapply runs_mono; [apply IH; [apply Hg3|]|].
  - apply goes_rem in Hg, Hg2, Hg3. lia.
  - intros ? st5 Hg5. going.
Qed.
Lemma all_tokens_enough st : fine st → (rem st < all_tokens toks)%nat.
Proof. intros _. unfold rem, all_tokens. lia. Qed.
Lemma parameter_name_ok st t : fine st → next st t → kind t ≠ Eof → runs (parameter_name source toks) st (λ _ st', goes 1 st st').
Proof.
  intros Hf Hn Hk. unfold parameter_name. apply (bump_then _ _ t); [done..|]. intros st1 Hg.
  eapply runs_then; [eapply name_of_ok, Hn|]. intros n st2 [-> _]. eapply runs_mono; [apply words_after_ok; [apply Hg|apply all_tokens_enough, Hg]|].
  intros ? st3 Hg3. going.
Qed.
Lemma is_word_spec k : is_word k = true → k = Ident ∨ k = Uuid.
Proof. intros H%bool_decide_eq_true. set_solver. Qed.
Lemma is_word_not_eof k : is_word k = true → k ≠ Eof.
Proof. intros H ->. discriminate H. Qed.
Lemma reference_ok m st : fine st → runs (reference source toks m) st (λ r st', goes (gained r) st st').
Proof.
  intros Hf. unfold reference. eapply runs_then; [by apply peek_ok|]. intros t st1 [Hg Hn].
  destruct (is_word (kind t)) eqn:Ew; cbn [negb].
  - apply (bump_then _ _ t); [apply Hg|done|by apply is_word_not_eof|]. intros st2 Hg2.
    eapply runs_then; [eapply name_of_ok, Hn|]. intros n st3 [-> _]. apply runs_ret. cbn. going.
  - eapply runs_mono; [apply fail_ok, Hg|]. intros r st2 [-> Hg2]. cbn. going.
Qed.
Lemma port_ok st t : fine st → next st t → kind t ≠ Eof → leaf (port source toks t) st.
Proof.
  intros Hf Hn Hk. apply (bump_then _ _ t); [done..|]. intros st1 Hg.
  eapply (try_leaf _ _ _ _ _ Hg); [apply reference_ok, Hg|intros [a|] st2; cbn; intros ?; going|]. intros node st2 _ Hg2.
  eapply runs_then; [apply eat_ok; [apply Hg2|done]|]. intros [dot|] st3 Hd; [|apply fail_leaf; destruct Hd; going].
  destruct Hd as [Hg3 _]. eapply runs_then; [apply peek_ok, Hg3|]. intros w st4 [Hg4 Hw].
  destruct (is_word (kind w)) eqn:Ew; cbn [negb]; [|apply fail_leaf; going].
  eapply runs_then; [apply (parameter_name_ok st4 w); [apply Hg4|done|by apply is_word_not_eof]|]. intros n st5 Hg5. apply runs_ret. going.
Qed.
Lemma unit_value_ok st t : fine st → next st t → kind t ≠ Eof → leaf (unit_value source toks t) st.
Proof.
  intros Hf Hn Hk. apply (bump_then _ _ t); [done..|]. intros st1 Hg. apply (expect_leaf _ _ _ _ _ Hg); [done|].
  intros c st2 [Hg2 _]. apply runs_ret. going.
Qed.
(** A word, with the bracket after it *)
Lemma bump_two {A} (f : P A) st t Q : fine st → next st t → kind t ≠ Eof → (∀ st', goes 1 st st' → runs f st' Q) →
  runs (bump source toks ≫= λ _, bump source toks ≫= λ _, f) st Q.
Proof.
  intros Hf Hn Hk H. apply (bump_then _ _ t); [done..|]. intros st1 Hg. eapply runs_then; [apply bump_ok, Hg|].
  intros u st2 (Hg2 & _). apply H. going.
Qed.
Lemma uuid_value_ok st t : fine st → next st t → kind t ≠ Eof → leaf (uuid_value source toks t) st.
Proof.
  intros Hf Hn Hk. apply (bump_two _ _ t); [done..|]. intros st1 Hg. apply (expect_leaf _ _ _ _ _ Hg); [done|].
  intros id st2 (Hg2 & Hid & i & _ & Hi). eapply runs_then; [by eapply text_of_token|]. intros x st3 [-> Hx]. rewrite Hid in Hx.
  destruct (parse_hyphenated x Hx) as [u Hu]. eapply runs_then; [by apply (runs_lift _ _ (λ _ st', st' = st2) u)|]. intros ? st3 ->.
  apply (expect_leaf _ _ _ st); [going|done|]. intros c st4 [Hg4 _]. apply runs_ret. going.
Qed.
Lemma json_value_ok st t : fine st → next st t → kind t ≠ Eof → leaf (json_value source toks t) st.
Proof.
  intros Hf Hn Hk. apply (bump_two _ _ t); [done..|]. intros st1 Hg. apply (expect_leaf _ _ _ _ _ Hg); [done|].
  intros s st2 (Hg2 & Hsk & i & _ & Hi).
  assert (goes 1 st st2) as Hg2' by going.
  eapply (try_leaf _ _ _ _ _ Hg2'); [apply (string_token_ok i); [done|done|apply Hg2]|done|]. intros x st3 _ Hg3.
  apply (expect_leaf _ _ _ st); [going|done|]. intros c st4 [Hg4 _]. apply runs_ret. going.
Qed.
Lemma function_name_ok st t : fine st → next st t → kind t ≠ Eof → runs (function_name source toks) st
  (λ r st', goes 1 st st' ∧ match r with Some f => ∃ x, slice source (sp_start (fn_span f)) (sp_end (fn_span f)) = Some x | None => True end).
Proof.
  intros Hf Hn Hk. unfold function_name. apply (bump_then _ _ t); [done..|]. intros st1 Hg.
  destruct (token_bnd _ _ (tok_at _ _ (proj1 Hn))) as (Hb & He & Hle).
  eapply runs_then; [eapply name_of_ok, Hn|]. intros n st2 [-> Hsp]. eapply runs_then; [apply eat_ok; [apply Hg|done]|].
  intros [sep|] st2 Hsep.
  - destruct Hsep as [Hg2 _]. eapply runs_then; [apply peek_ok, Hg2|]. intros u st3 [Hg3 Hu].
    destruct (is_word (kind u)) eqn:Ew; cbn [negb]; [|eapply runs_mono; [apply fail_ok, Hg3|]; intros r st4 [-> Hg4]; split; [going|done]].
    apply (bump_then _ _ u); [apply Hg3|done|by apply is_word_not_eof|]. intros st4 Hg4. eapply runs_then; [eapply name_of_ok, Hu|].
    intros m st5 [-> Hm]. apply runs_ret. split; [going|]. cbn. rewrite Hsp, Hm.
    destruct (token_bnd _ _ (tok_at _ _ (proj1 Hu))) as (Hb' & He' & Hle').
    assert (sp_end (tspan t) ≤ sp_start (tspan u))%nat.
    { apply (toks_order (pos st) (pos st3)); [apply Hn|apply Hu|]. destruct Hg, Hg2, Hg3. lia. }
    rewrite Nat.max_l by lia. apply slice_bnd; [done|done|lia].
  - destruct Hsep as [Hg2 _]. apply runs_ret. split; [going|]. cbn. rewrite Hsp. by apply slice_bnd.
Qed.
(** After an element: on, or at what ends the list *)
Definition at_end (close : Kind) (st : Parser) : Prop := ∃ t, next st t ∧ (kind t = close ∨ is_line_end (kind t) = true).
Lemma after_element_ok close closes failed st : fine st → runs (after_element source toks close closes failed) st
  (λ _ st', goes 1 st st' ∨ (goes 0 st st' ∧ at_end close st')).
Proof.
  intros Hf. unfold after_element. eapply runs_then; [by apply peek_ok|]. intros t st1 [Hg Hn].
  destruct (decide (kind t = Comma)) as [Ec|Ec].
  { apply (bump_then _ _ t); [apply Hg|done|by rewrite Ec|]. intros st2 Hg2. apply runs_ret. left. going. }
  destruct (decide (kind t = close)) as [Ek|Ek]; [apply runs_ret; right; split; [going|exists t; auto]|].
  eapply runs_then; [by apply (line_end_again st1 t)|]. intros e st2 [-> ->].
  destruct (is_line_end (kind t)) eqn:Ee; [apply runs_ret; right; split; [going|exists t; auto]|].
  assert (kind t ≠ Eof) as Hk by (intros E; by rewrite E in Ee).
  destruct failed; [apply (bump_then _ _ t); [apply Hg|done|done|]; intros st2 Hg2; apply runs_ret; left; going|].
  eapply runs_then; [eapply text_of_token, Hn|]. intros x st2 [-> _]. eapply runs_then; [apply error_ok, Hg|]. intros ? st2 [Hg2 Hp].
  apply (bump_then _ _ t); [apply Hg2| |done|]. { split; [rewrite Hp|]; apply Hn. } intros st3 Hg3.
  eapply runs_then; [apply skip_element_ok; [apply Hg3|apply all_tokens_enough, Hg3]|]. intros ? st4 Hg4.
  eapply runs_then; [apply eat_ok; [apply Hg4|done]|]. intros r st5 Hr. apply runs_ret. left. destruct r; destruct Hr as [Hg5 _]; going.
Qed.

(** ** Values *)
Lemma selections_ok fuel levels e st : fine st → (rem st < fuel)%nat →
  runs (selections source toks fuel levels e) st (λ r st', goes 0 st st' ∧ (e = None → r = None)).
Proof.
  revert levels e st. induction fuel as [|fuel IH]; intros levels e st Hf Hr; [lia|]. cbn [selections].
  eapply runs_then; [by apply at_kind_ok|]. intros is_path st1 (Hg & t & Hn & Hp). destruct e as [src|]; [|by apply runs_ret].
  destruct is_path; [|by apply runs_ret]. symmetry in Hp. apply bool_decide_eq_true in Hp.
  apply (bump_then _ st1 t); [apply Hg|done|by rewrite Hp|]. intros st2 Hg2.
  eapply runs_then; [by apply runs_get; instantiate (1 := λ a st', a = st2 ∧ st' = st2)|]. intros a st3 [-> ->].
  match goal with |- runs (if ?b then _ else _) _ _ => destruct b end; [eapply runs_mono; [apply fail_ok, Hg2|]; intros r st3 [-> Hg3]; split; [going|done]|].
  apply (bumped_text _ st1); [apply Hn|]. intros x Hx. rewrite Hp in Hx. destruct Hx as [y ->].
  eapply runs_then; [apply (runs_lift _ _ (λ _ st', st' = st2) y); [by apply slice_tail|done]|]. intros ? st3 ->. cbv zeta.
  eapply (runs_then _ _ _ (λ _ st', goes 0 st2 st')).
  { destruct (path_of _); [eapply runs_mono; [apply error_ok, Hg2|]; by intros ? st3 [? _]|apply runs_ret, goes_refl, Hg2]. }
  intros ? st3 Hg3. eapply runs_mono; [apply IH; [apply Hg3|]|].
  - apply goes_rem in Hg, Hg2, Hg3. lia.
  - intros r st4 [Hg4 Hr4]. split; [going|done].
Qed.
Definition value_ok {A} (m : P (option A)) (st : Parser) : Prop := runs m st (λ r st', goes (gained r) st st').
Lemma leaf_value {A} (m : P (option A)) st : leaf m st → value_ok m st.
Proof. intros H. eapply runs_mono; [exact H|]. intros r st' Hg. eapply goes_le; [exact Hg|]. destruct r; cbn; lia. Qed.
Lemma fail_value {A} m s st st1 : goes 0 st st1 → runs (fail (A := A) m s) st1 (λ r st', goes (gained r) st st').
Proof. intros Hg. eapply runs_mono; [apply fail_ok, Hg|]. intros r st2 [-> Hg2]. cbn. going. Qed.
Record values_ok (fuel : nat) : Prop := {
  expression_ok st : fine st → (8 * rem st + 6 < fuel)%nat → value_ok (expression source toks fuel) st;
  primary_ok st : fine st → (8 * rem st + 5 < fuel)%nat → value_ok (primary source toks fuel) st;
  array_ok st t el : fine st → next st t → kind t ≠ Eof → (8 * rem st < fuel)%nat → leaf (array source toks fuel t el) st;
  word_value_ok st t : fine st → next st t → is_word (kind t) = true → (8 * rem st + 4 < fuel)%nat → leaf (word_value source toks fuel t) st;
  call_value_ok st t : fine st → next st t → is_word (kind t) = true → (8 * rem st + 3 < fuel)%nat → leaf (call_value source toks fuel) st;
  call_ok st bare : fine st → (8 * rem st + 2 < fuel)%nat →
    runs (call source toks fuel bare) st (λ r st', goes (gained r) st st' ∧ ((∃ t, next st t ∧ is_word (kind t) = true) → goes 1 st st'));
  arguments_ok st acc o : fine st → (8 * rem st + 1 < fuel)%nat → runs (arguments source toks fuel acc o) st (λ _ st', goes 0 st st');
  argument_ok st : fine st → (8 * rem st < fuel)%nat → value_ok (argument source toks fuel) st;
  elements_ok st acc : fine st → (8 * rem st + 7 < fuel)%nat → runs (elements source toks fuel acc) st (λ _ st', goes 0 st st');
}.
Lemma at_end_next close st t : at_end close st → next st t → kind t = close ∨ is_line_end (kind t) = true.
Proof. intros (u & Hu & H) Hn. by rewrite (next_unique st t u Hn Hu). Qed.
Lemma eat_again k st t : fine st → next st t → k ≠ Eof → runs (eat source toks k) st (λ r st', match r with Some _ => goes 1 st st' ∧ kind t = k | None => st' = st ∧ kind t ≠ k end).
Proof.
  intros Hf Hn Hk. unfold eat. eapply (runs_then _ _ _ (λ b st', st' = st ∧ b = bool_decide (kind t = k))).
  { unfold at_kind. eapply runs_then; [exists t, st; split; [by apply peek_again|]; by instantiate (1 := λ u st', u = t ∧ st' = st)|].
    intros u st' [-> ->]. by apply runs_ret. }
  intros b st' [-> ->]. case_bool_decide as E; [|by apply runs_ret]. apply (bump_then _ _ t); [done|done|congruence|].
  intros st' Hg. by apply runs_ret.
Qed.
(** A list of arguments or elements that is at its end takes no more fuel. *)
Lemma arguments_end fuel acc o st : fine st → at_end RParen st → runs (arguments source toks (S fuel) acc o) st (λ _ st', goes 0 st st').
Proof.
  intros Hf He. destruct He as (t & Hn & Hor). cbn [arguments]. eapply runs_then; [by apply (eat_again RParen st t)|]. intros [c|] st1.
  - intros [Hg _]. apply runs_ret. going.
  - intros [-> Hk]. destruct Hor as [?|Hor]; [done|]. eapply runs_then; [by apply (line_end_again st t)|]. intros e st1 [-> ->]. rewrite Hor.
    eapply runs_then; [by apply runs_get; instantiate (1 := λ _ st', st' = st)|]. intros ? st1 ->. by apply runs_ret, goes_refl.
Qed.
Lemma elements_end fuel acc st : fine st → at_end RBracket st → runs (elements source toks (S fuel) acc) st (λ _ st', goes 0 st st').
Proof.
  intros Hf He. destruct He as (t & Hn & Hor). cbn [elements]. eapply runs_then; [by apply (eat_again RBracket st t)|]. intros [c|] st1.
  - intros [Hg _]. apply runs_ret. going.
  - intros [-> Hk]. destruct Hor as [?|Hor]; [done|]. eapply runs_then; [by apply (line_end_again st t)|]. intros e st1 [-> ->]. rewrite Hor.
    by apply runs_ret, goes_refl.
Qed.
(** The rest of a list, after an element *)
Lemma rest_ok {A} close closes failed (m : P A) st st1 : goes 0 st st1 →
  (∀ st', goes 1 st st' → runs m st' (λ _ st2, goes 0 st' st2)) →
  (∀ st', goes 0 st st' → at_end close st' → runs m st' (λ _ st2, goes 0 st' st2)) →
  runs (after_element source toks close closes failed ≫= λ _, m) st1 (λ _ st2, goes 0 st st2).
Proof.
  intros Hg Hgo Hend. eapply runs_then; [apply after_element_ok, Hg|]. intros ? st2 [Hg2|[Hg2 He]].
  - eapply runs_mono; [apply Hgo; going|]. intros ? st3 Hg3. going.
  - eapply runs_mono; [apply Hend; [going|done]|]. intros ? st3 Hg3. going.
Qed.
Ltac rems := cbv beta iota in *; repeat match goal with H : goes _ _ _ |- _ => apply goes_rem in H end; lia.
Lemma call_next fuel bare st t : values_ok fuel → fine st → next st t → (8 * rem st + 2 < S fuel)%nat →
  runs (call source toks (S fuel) bare) st (λ r st', goes (gained r) st st' ∧ (is_word (kind t) = true → goes 1 st st')).
Proof.
  intros IH Hf Hn Hr. cbn [call]. eapply runs_then; [exists t, st; split; [by apply peek_again|]; by instantiate (1 := λ u st', u = t ∧ st' = st)|].
  intros u st1 [-> ->]. destruct (is_word (kind t)) eqn:Ew.
  - eapply (runs_mono _ _ (λ _ st', goes 1 st st')); [|intros [c|] st' Hg; cbn; (split; [going|done])].
    eapply runs_try; [apply (function_name_ok st t); [done|done|by apply is_word_not_eof]|by intros st1 [Hg _]|]. intros f st1 [Hg [x Hx]].
    eapply runs_then; [apply eat_ok; [apply Hg|done]|]. intros [o|] st2.
    + intros [Hg2 _]. eapply runs_then; [apply (arguments_ok _ IH); [apply Hg2|rems]|]. intros a st3 Hg3. apply runs_ret. going.
    + intros [Hg2 _]. destruct bare; [apply runs_ret; going|]. eapply runs_then; [by apply (runs_lift _ _ (λ _ st', st' = st2) x)|].
      intros ? st3 ->. apply fail_leaf. going.
  - destruct (decide (kind t = LParen)).
    + eapply runs_mono; [by apply fail_ok|]. intros r st1 [-> Hg]. split; [cbn; going|done].
    + eapply runs_then; [eapply text_of_token, Hn|]. intros x st1 [-> _]. eapply runs_mono; [by apply fail_ok|]. intros r st1 [-> Hg]. split; [cbn; going|done].
Qed.
Lemma values_all fuel : values_ok fuel.
Proof.
  induction fuel as [|fuel IH]; [split; intros; lia|]. split.
  - intros st Hf Hr. unfold value_ok. cbn [expression]. eapply runs_then; [by apply runs_get; instantiate (1 := λ a st', a = st ∧ st' = st)|].
    intros a st1 [-> ->]. match goal with |- runs (if ?b then _ else _) _ _ => destruct b end.
    { eapply runs_then; [by apply peek_ok|]. intros t st1 [Hg _]. by apply fail_value. }
    eapply runs_then; [by apply runs_put; instantiate (1 := λ _ st', st' = with_depth (S (pdepth st)) st)|]. intros ? st1 ->.
    assert (fine (with_depth (S (pdepth st)) st)) as Hf1 by (destruct Hf; by split).
    eapply runs_then; [apply (primary_ok _ IH); [done|unfold rem in *; cbn; lia]|]. intros e st1 Hg.
    eapply runs_then; [apply selections_ok; [apply Hg|apply all_tokens_enough, Hg]|]. intros e' st2 [Hg2 He].
    eapply runs_then; [by apply runs_put; instantiate (1 := λ _ st', st' = with_depth (pdepth st2 - 1) st2)|]. intros ? st3 ->. apply runs_ret.
    destruct Hg as [Hf2 Hp Hd Hb], Hg2 as [Hf3 Hp2 Hd2 Hb2]. cbn in Hd, Hb, Hp. split; cbn.
    + destruct Hf3; by split.
    + destruct e; [destruct e'|rewrite He by done]; cbn in *; lia.
    + lia.
    + congruence.
  - intros st Hf Hr. unfold value_ok. cbn [primary]. eapply runs_then; [by apply peek_ok|]. intros t st1 [Hg Hn].
    assert (∀ m, leaf m st1 → runs m st1 (λ r st', goes (gained (A := Expr) r) st st')) as Hleaf.
    { intros m Hm. eapply runs_mono; [exact Hm|]. intros r st2 Hg2. eapply goes_le; [eapply goes_then; [exact Hg|exact Hg2]|]. destruct r; cbn; lia. }
    assert (runs (text ← text_of source (tspan t); fail (ExpectedValue text) (tspan t)) st1 (λ r st', goes (gained (A := Expr) r) st st')) as Hno.
    { eapply runs_then; [eapply text_of_token, Hn|]. intros x st2 [-> _]. by apply fail_value. }
    destruct (kind t) eqn:Ek; try exact Hno.
    + apply Hleaf, (word_value_ok _ IH); [apply Hg|done|by rewrite Ek|rems].
    + apply Hleaf, (call_value_ok _ IH _ t); [apply Hg|done|by rewrite Ek|rems].
    + apply Hleaf. eapply runs_then; [apply (number_ok st1 t); [apply Hg|done|by rewrite Ek]|]. intros e st2 Hg2. by apply runs_ret.
    + apply Hleaf, (string_value_ok st1 t); [apply Hg|done|done].
    + apply Hleaf, (variable_ok st1 t); [apply Hg|done|done].
    + apply Hleaf, (quoted_variable_ok st1 t); [apply Hg|done|done].
    + apply Hleaf, (port_ok st1 t); [apply Hg|done|by rewrite Ek].
    + apply Hleaf, (unit_value_ok st1 t); [apply Hg|done|by rewrite Ek].
    + apply Hleaf, (array_ok _ IH); [apply Hg|done|by rewrite Ek|rems].
    + apply (bump_then _ _ t); [apply Hg|done|by rewrite Ek|]. intros st2 Hg2. eapply runs_then; [eapply text_of_token, Hn|].
      intros x st3 [-> _]. apply fail_value. going.
  - intros st t el Hf Hn Hk Hr. unfold leaf. cbn [array].
    eapply (runs_then _ _ _ (λ _ st', match el with Some _ => goes 1 st st' | None => st' = st end)).
    { destruct el; [|by apply runs_ret]. apply (bump_then _ _ t); [done..|]. intros st1 Hg. by apply runs_ret. }
    intros ? st1 H1.
    eapply (runs_then _ _ _ (λ _ st', goes 1 st st')).
    { destruct el; [|subst st1; eapply runs_mono; [by apply (bump_next st t)|]; intros u st2 [-> Hg2]; by rewrite decide_False in Hg2].
      eapply runs_mono; [apply bump_ok, H1|]. intros u st2 [Hg2 _]. going. }
    intros ? st2 Hg2. eapply runs_try; [apply (elements_ok _ IH); [apply Hg2|rems]| |].
    + intros st3 Hg3. going.
    + intros ? st3 Hg3. apply runs_ret. going.
  - intros st t Hf Hn Hw Hr. unfold leaf. cbn [word_value]. eapply runs_then; [by apply (peek_second_again st t)|]. intros second st1 ->.
    eapply runs_then; [eapply text_of_token, Hn|]. intros x st1 [-> _]. pose proof (is_word_not_eof _ Hw) as Hk.
    assert (∀ e : Expr, runs (bump source toks ≫= λ _, mret (Some e)) st (λ _ st', goes 1 st st')) as Hone.
    { intros e. apply (bump_then _ _ t); [done..|]. intros st1 Hg. by apply runs_ret. }
    destruct (decide (x = lit "true" ∨ x = lit "false")); [apply Hone|]. destruct (decide (x = lit "none")); [apply Hone|].
    destruct (decide (x = lit "some" ∧ second = LParen)).
    { apply (bump_two _ _ t); [done..|]. intros st1 Hg. eapply (try_leaf _ _ _ _ _ Hg); [apply (expression_ok _ IH); [apply Hg|rems]| |].
      - intros [?|] st2 Hg2; cbn in *; going.
      - intros v st2 _ Hg2. apply (expect_leaf _ _ _ st); [going|done|]. intros c st3 [Hg3 _]. apply runs_ret. going. }
    destruct (decide (x = lit "uuid" ∧ second = LParen)); [by apply (uuid_value_ok st t)|].
    destruct (decide (x = lit "json" ∧ second = LParen)); [by apply (json_value_ok st t)|].
    destruct (decide (x ∈ ARRAY_TYPES ∧ second = LBracket)); [apply (array_ok _ IH); [done..|lia]|apply (call_value_ok _ IH st t); [done..|lia]].
  - intros st t Hf Hn Hw Hr. unfold leaf. cbn [call_value]. eapply runs_try; [apply (call_ok _ IH); [done|lia]| |].
    + intros st1 [_ Hg]. apply Hg. eauto.
    + intros c st1 [_ Hg]. apply runs_ret, Hg. eauto.
  - intros st bare Hf Hr. destruct (peek_ok st Hf) as (t & st1 & E & Hg & Hn).
    assert (call source toks (S fuel) bare st = call source toks (S fuel) bare st1) as Ec.
    { cbn [call]. unfold mbind, P_bind. by rewrite E, (peek_again st1 t Hn). }
    destruct (call_next fuel bare st1 t IH (goes_fine _ _ _ Hg) Hn ltac:(rems)) as (r & st2 & E2 & Hg2 & Hw).
    exists r, st2. rewrite Ec. split_and!; [done|going|]. intros (u & Hu & Hk). rewrite (peek_again st u Hu) in E. injection E as <- <-. by apply Hw.
  - intros st acc o Hf Hr. cbn [arguments]. eapply runs_then; [by apply eat_ok|]. intros [c|] st1.
    { intros [Hg _]. apply runs_ret. going. }
    intros (Hg & t & Hn & Hk). eapply runs_then; [by apply (line_end_again st1 t)|]. intros e st2 [-> ->].
    destruct (is_line_end (kind t)) eqn:Ee.
    { eapply runs_then; [by apply runs_get; instantiate (1 := λ _ st', st' = st1)|]. intros ? st2 ->. by apply runs_ret. }
    eapply runs_then; [apply (argument_ok _ IH); [apply Hg|rems]|]. intros r st2 Hg2.
    assert (∀ acc st', goes 1 st st' → runs (arguments source toks fuel acc o) st' (λ _ st3, goes 0 st' st3)) as Hgo.
    { intros acc' st' Hg'. apply (arguments_ok _ IH); [apply Hg'|rems]. }
    assert (∀ acc st', goes 0 st st' → at_end RParen st' → runs (arguments source toks fuel acc o) st' (λ _ st3, goes 0 st' st3)) as Hend.
    { intros acc' st' Hg' He. destruct fuel as [|fuel]; [lia|]. apply arguments_end; [apply Hg'|done]. }
    destruct r as [?|].
    + apply rest_ok; [going|by apply Hgo|by apply Hend].
    + eapply runs_then; [apply skip_element_ok; [apply Hg2|apply all_tokens_enough, Hg2]|]. intros ? st3 Hg3.
      apply rest_ok; [cbn in *; going|by apply Hgo|by apply Hend].
  - intros st Hf Hr. unfold value_ok. cbn [argument]. eapply runs_then; [by apply peek_ok|]. intros t st1 [Hg Hn].
    destruct (is_word (kind t)) eqn:Ew.
    + eapply runs_then; [apply (parameter_name_ok st1 t); [apply Hg|done|by apply is_word_not_eof]|]. intros n st2 Hg2.
      eapply runs_try; [apply expect_ok; [apply Hg2|done]|intros st3 Hg3; cbn in *; going|]. intros c st3 [Hg3 _].
      eapply runs_try; [apply (expression_ok _ IH); [apply Hg3|rems]|intros st4 Hg4; cbn in *; going|]. intros v st4 Hg4. cbn in *. apply runs_ret. cbn. going.
    + destruct (decide (kind t = LParen)); [by apply fail_value|]. eapply runs_then; [eapply text_of_token, Hn|]. intros x st2 [-> _]. by apply fail_value.
  - intros st acc Hf Hr. cbn [elements]. eapply runs_then; [by apply eat_ok|]. intros [c|] st1.
    { intros [Hg _]. apply runs_ret. going. }
    intros (Hg & t & Hn & Hk). eapply runs_then; [by apply (line_end_again st1 t)|]. intros e st2 [-> ->].
    destruct (is_line_end (kind t)) eqn:Ee; [by apply runs_ret|].
    eapply runs_then; [apply (expression_ok _ IH); [apply Hg|rems]|]. intros r st2 Hg2.
    assert (∀ acc st', goes 1 st st' → runs (elements source toks fuel acc) st' (λ _ st3, goes 0 st' st3)) as Hgo.
    { intros acc' st' Hg'. apply (elements_ok _ IH); [apply Hg'|rems]. }
    assert (∀ acc st', goes 0 st st' → at_end RBracket st' → runs (elements source toks fuel acc) st' (λ _ st3, goes 0 st' st3)) as Hend.
    { intros acc' st' Hg' He. destruct fuel as [|fuel]; [lia|]. apply elements_end; [apply Hg'|done]. }
    destruct r as [?|].
    + apply rest_ok; [cbn in *; going|by apply Hgo|by apply Hend].
    + eapply runs_then; [apply skip_element_ok; [apply Hg2|apply all_tokens_enough, Hg2]|]. intros ? st3 Hg3.
      apply rest_ok; [cbn in *; going|by apply Hgo|by apply Hend].
Qed.

(** ** Lines and blocks *)
Lemma peek_then {A} (f : Token → P A) st t Q : next st t → runs (f t) st Q → runs (peek source toks ≫= f) st Q.
Proof. intros Hn (a & st' & E & HQ). exists a, st'. split; [|done]. unfold mbind, P_bind. by rewrite (peek_again st t Hn). Qed.
Lemma get_then {A} (f : Parser → P A) st Q : runs (f st) st Q → runs (get ≫= f) st Q.
Proof. intros (a & st' & E & HQ). by exists a, st'. Qed.
Lemma put_then {A} (f : unit → P A) g st Q : runs (f tt) (g st) Q → runs (put g ≫= f) st Q.
Proof. intros (a & st' & E & HQ). by exists a, st'. Qed.
Lemma head_ok fuel st : fine st → (8 * rem st + 6 < fuel)%nat → value_ok (head source toks fuel) st.
Proof.
  intros Hf Hr. unfold value_ok, head. eapply runs_then; [by apply peek_ok|]. intros start st1 [Hg Hn].
  eapply (runs_then _ _ _ (λ b st', st' = st1 ∧ (b = true → is_word (kind start) = true))).
  { destruct (is_word (kind start)); [|by apply runs_ret]. eapply runs_then; [by apply (peek_second_again st1 start)|]. intros k st2 ->. by apply runs_ret. }
  intros named st2 [-> Hnamed]. eapply (runs_then _ _ _ (λ _ st', goes 0 st1 st')).
  { destruct named; [|apply runs_ret, goes_refl, Hg]. apply (bump_then _ _ start); [apply Hg|done|by apply is_word_not_eof, Hnamed|]. intros st2 Hg2.
    eapply runs_then; [apply bump_ok, Hg2|]. intros ? st3 [Hg3 _]. eapply runs_then; [eapply name_of_ok, Hn|]. intros n st4 [-> _]. apply runs_ret. going. }
  intros name st2 Hg2. eapply runs_then; [apply peek_ok, Hg2|]. intros t st3 [Hg3 Hn3].
  eapply (runs_try _ _ _ (λ _ st', goes 0 st3 st')); [|intros st4 Hg4; cbn; going|].
  { destruct (bool_decide _); [|apply runs_ret, goes_refl, Hg3]. eapply runs_try; [apply (expression_ok _ (values_all fuel)); [apply Hg3|rems]| |].
    - intros st4 Hg4. cbn in *. going.
    - intros target st4 Hg4. eapply runs_try; [apply expect_ok; [apply Hg4|done]|intros st5 Hg5; cbn in *; going|]. intros ? st5 [Hg5 _]. apply runs_ret. cbn in *. going. }
  intros target st4 Hg4. eapply runs_try; [apply (call_ok _ (values_all fuel)); [apply Hg4|rems]|intros st5 [Hg5 _]; cbn in *; going|].
  intros c st5 [Hg5 _]. apply runs_ret. cbn in *. going.
Qed.
Lemma take_pending_then {A} (f : list CommentText → P A) st Q : fine st →
  (∀ st', goes 0 st st' → pos st' = pos st → pending st' = [] → line_end st' = line_end st → Forall (λ c, bnd source (sp_start (c_span c))) (pending st) → runs (f (pending st)) st' Q) →
  runs (take_pending ≫= f) st Q.
Proof.
  intros [Hp Hl Hc] H. destruct (H (with_pending [] st)) as (a & st' & E & HQ); [|done..|].
  - split; cbn; [|lia|done|done]. by split.
  - by exists a, st'.
Qed.
Lemma next_at_pos st st' t : next st t → pos st' = pos st → next st' t.
Proof. intros [Ht Hk] E. unfold next. by rewrite E. Qed.
Lemma skip_line_on fuel st t : fine st → next st t → is_line_end (kind t) = false → (rem st < fuel)%nat →
  runs (skip_line source toks fuel) st (λ _ st', goes 1 st st').
Proof.
  intros Hf Hn Hk Hr. destruct fuel as [|fuel]; [lia|]. cbn [skip_line]. eapply runs_then; [by apply (line_end_again st t)|]. intros e st1 [-> ->]. rewrite Hk.
  apply (bump_then _ _ t); [done|done|intros E; by rewrite E in Hk|]. intros st1 Hg. eapply runs_mono; [apply skip_line_ok; [apply Hg|rems]|]. intros ? st2 Hg2. going.
Qed.
Definition at_block_end (top : bool) (st : Parser) : Prop := ∃ t, next st t ∧ (kind t = Eof ∨ top = false ∧ kind t = Dedent).
Record lines_ok (fuel : nat) : Prop := {
  block_ok st top acc : fine st → (8 * rem st + 8 < fuel)%nat →
    runs (block source toks fuel top acc) st (λ _ st', goes 0 st st' ∧ at_block_end top st');
  children_ok st : fine st → (8 * rem st + 9 < fuel)%nat → runs (children source toks fuel) st (λ _ st', goes 0 st st');
  line_ok st t : fine st → next st t → is_line_end (kind t) = false → (8 * rem st + 7 < fuel)%nat → runs (line source toks fuel) st (λ _ st', goes 1 st st');
}.
Lemma bnd_min a b : bnd source a → bnd source b → bnd source (Nat.min a b).
Proof. intros. by destruct (Nat.min_spec a b) as [[_ ->]|[_ ->]]. Qed.
(** The children after a line, when an [Indent] follows *)
Lemma children_after fuel st : lines_ok fuel → fine st → (8 * rem st + 2 < S fuel)%nat →
  runs (i ← eat source toks Indent; match i with Some _ => children source toks fuel | None => mret [] end) st (λ _ st', goes 0 st st').
Proof.
  intros IH Hf Hr. eapply runs_then; [by apply eat_ok|]. intros [i|] st1.
  - intros [Hg _]. eapply runs_mono; [apply (children_ok _ IH); [apply Hg|rems]|]. intros ? st2 Hg2. going.
  - intros [Hg _]. by apply runs_ret.
Qed.
Lemma runs_assoc {A B C} (m : P A) (f : A → P B) (g : B → P C) st Q :
  runs ((a ← m; f a) ≫= g) st Q → runs (a ← m; f a ≫= g) st Q.
Proof. intros (c & st' & E & HQ). exists c, st'. split; [|done]. revert E. unfold mbind, P_bind. by destruct (m st) as [[a st1]|]. Qed.
Lemma lines_all fuel : lines_ok fuel.
Proof.
  induction fuel as [|fuel IH]; [split; intros; lia|]. split.
  - intros st top acc Hf Hr. cbn [block]. eapply runs_then; [by apply peek_ok|]. intros t st1 [Hg Hn].
    assert (∀ acc st', goes 1 st st' → runs (block source toks fuel top acc) st' (λ _ st2, goes 0 st st2 ∧ at_block_end top st2)) as Hgo.
    { intros acc' st' Hg'. eapply runs_mono; [apply (block_ok _ IH); [apply Hg'|rems]|]. intros ? st2 [Hg2 He]. split; [going|done]. }
    assert (is_line_end (kind t) = false → runs (l ← line source toks fuel; block source toks fuel top (acc ++ match l with LNode n => [n] | Orphans l => l end)) st1
      (λ _ st2, goes 0 st st2 ∧ at_block_end top st2)) as Hline.
    { intros Hk. eapply runs_then; [apply (line_ok _ IH st1 t); [apply Hg|done|done|rems]|]. intros l st2 Hg2. apply Hgo. going. }
    destruct (kind t) eqn:Ek; try (by apply Hline).
    + apply (bump_then _ _ t); [apply Hg|done|by rewrite Ek|]. intros st2 Hg2. apply Hgo. going.
    + apply (bump_then _ _ t); [apply Hg|done|by rewrite Ek|]. intros st2 Hg2. eapply runs_then; [apply peek_ok, Hg2|]. intros u st3 [Hg3 _].
      eapply runs_then; [apply error_ok, Hg3|]. intros ? st4 [Hg4 _]. eapply runs_then; [apply (children_ok _ IH); [apply Hg4|rems]|]. intros l st5 Hg5. apply Hgo. going.
    + destruct top; [|apply runs_ret; split; [done|exists t; auto]]. apply (bump_then _ _ t); [apply Hg|done|by rewrite Ek|]. intros st2 Hg2. apply Hgo. going.
    + apply runs_ret. split; [done|]. exists t. auto.
  - intros st Hf Hr. cbn [children]. apply get_then. match goal with |- runs (if ?b then _ else _) _ _ => destruct b end.
    + eapply runs_then; [by apply peek_ok|]. intros t st1 [Hg Hn]. eapply runs_then; [apply error_ok, Hg|]. intros ? st2 [Hg2 _].
      eapply runs_then; [apply skip_block_ok; [apply Hg2|apply all_tokens_enough, Hg2]|]. intros ? st3 Hg3. apply runs_ret. going.
    + apply put_then. set (st0 := with_blocks (S (Parser.blocks st)) st). assert (fine st0) as Hf0 by (destruct Hf; by split).
      eapply runs_then; [apply (block_ok _ IH); [done|unfold rem, st0 in *; cbn; lia]|]. intros l st1 [[Hf1 Hp Hd Hb] _]. apply put_then.
      set (st2 := with_blocks (Parser.blocks st1 - 1) st1). assert (goes 0 st st2) as Hg2.
      { split; [destruct Hf1; by split|exact Hp|exact Hd|]. unfold st2, st0 in *. cbn in *. lia. }
      eapply runs_then; [apply eat_ok; [apply Hg2|done]|]. intros r st3 Hr3. apply runs_ret. destruct r; destruct Hr3 as [Hg3 _]; going.
  - intros st t Hf Hn Hk Hr. cbn [line]. apply take_pending_then; [done|]. intros st1 Hg Hp Hpend Hle Hc. pose proof (next_at_pos _ _ _ Hn Hp) as Hn1.
    destruct (token_bnd _ _ (tok_at _ _ (proj1 Hn))) as (Hbt & _ & _).
    eapply (runs_then _ _ _ (λ start st', bnd source start ∧ st' = st1)).
    { destruct (pending st) as [|c l]; [apply (peek_then _ _ t _ Hn1); by apply runs_ret|]. apply runs_ret. split; [|done]. by apply Forall_cons in Hc as [Hc _]. }
    intros start st2 [Hb ->]. apply get_then.
    destruct (slice_bnd source (Nat.min (line_end st1) start) start) as [above Ha]; [apply bnd_min; [apply Hg|done]|done|lia|].
    eapply runs_then; [by apply (runs_lift _ _ (λ _ st', st' = st1) above)|]. intros ? st2 ->. cbv zeta.
    eapply runs_then; [apply (head_ok fuel st1); [apply Hg|rems]|]. intros h st2 Hg2.
    eapply runs_then; [apply line_end_ok, Hg2|]. intros e st3 (Hg3 & u & Hu & _).
    eapply (runs_then _ _ _ (λ _ st', goes 0 st3 st' ∧ pos st' = pos st3)).
    { destruct h as [h|]; [destruct e|]; try (apply runs_ret; split; [apply goes_refl, Hg3|done]).
      apply (peek_then _ _ u _ Hu). eapply runs_then; [eapply text_of_token, Hu|]. intros x st4 [-> _]. apply error_ok, Hg3. }
    intros ? st4 [Hg4 Hp4]. eapply (runs_then _ _ _ (λ _ st', goes 1 st st')).
    { assert (goes 0 st1 st4) as Hg14. { destruct h; cbn in Hg2; going. }
      destruct (decide (pos st4 = pos st1)) as [E|E].
      - eapply runs_mono; [apply (skip_line_on _ _ t); [apply Hg14|by apply (next_at_pos st1)|done|apply all_tokens_enough, Hg14]|]. intros ? st5 Hg5. going.
      - assert (goes 1 st1 st4) as Hm by (destruct Hg14; split; [done|lia|done|done]).
        eapply runs_mono; [apply skip_line_ok; [apply Hm|apply all_tokens_enough, Hm]|]. intros ? st5 Hg5. going. }
    intros ? st5 Hg5. eapply runs_then; [apply peek_ok, Hg5|]. intros v st6 [Hg6 Hv]. destruct (token_bnd _ _ (tok_at _ _ (proj1 Hv))) as (Hbv & _ & _).
    eapply (runs_then _ _ _ (λ _ st', goes 1 st st')).
    { eapply runs_mono; [apply eat_ok; [apply Hg6|done]|]. intros [r|] st7; intros [Hg7 _]; going. }
    intros ? st7 Hg7. apply put_then. set (st8 := with_line_end (sp_start (tspan v)) st7).
    assert (goes 1 st st8) as Hg8. { destruct Hg7 as [[? ? ?] ? ? ?]. split; [by split|done..]. }
    destruct h as [h|].
    + apply take_pending_then; [apply Hg8|]. intros st9 Hg9 _ _ _ _. destruct (foldl _ _ _) as [[c comments] comment].
      apply runs_assoc. eapply runs_then; [apply children_after; [done|apply Hg9|rems]|]. intros l st10 Hg10. apply runs_ret. going.
    + apply put_then. set (st9 := with_pending (pending st ++ pending st8) st8).
      assert (goes 1 st st9) as Hg9. { destruct Hg8 as [[? ? ?] ? ? ?]. split; [split; cbn; [done|done|by apply Forall_app]|done..]. }
      apply runs_assoc. eapply runs_then; [apply children_after; [done|apply Hg9|rems]|]. intros l st10 Hg10. apply runs_ret. going.
Qed.
Lemma parse_tokens_ok fuel st : fine st → (8 * rem st + 8 < fuel)%nat →
  runs (parse_tokens source toks fuel) st (λ _ st', goes 0 st st' ∧ ∃ t, next st' t ∧ kind t = Eof).
Proof.
  intros Hf Hr. unfold parse_tokens. eapply runs_then; [by apply (block_ok _ (lines_all fuel))|]. intros l st1 [Hg (t & Hn & Hk)].
  destruct Hk as [Hk|[? _]]; [|done]. apply (peek_then _ _ t _ Hn). apply take_pending_then; [apply Hg|]. intros st2 Hg2 Hp _ _ _.
  apply runs_ret. split; [going|]. exists t. split; [by apply (next_at_pos st1)|done].
Qed.
End Parsing.

(** C38. Every text is parsed: over any text, fuel in proportion to its tokens is
    enough for the parser to return, with no index, slice or [expect] of the lexer,
    the layout or the parser failing, and no loop going on for ever. *)
Theorem parse_returns `{LL : LogosLaws} `{UL : UuidTextLaws} (text : Str) :
  ∃ toks ds, tokens text = Some (toks, ds) ∧
    ∀ fuel, (8 * length toks + 8 < fuel)%nat → is_Some (parse fuel text).
Proof.
  destruct (tokens_ok text) as (toks & ds & E & Ht & Ho & _). exists (toks ++ [eof text]), ds. split; [exact E|]. intros fuel Hf.
  unfold parse. rewrite E. cbn [mbind option_bind].
  destruct (parse_tokens_ok text toks Ht Ho fuel (mkParser 0 ds [] 0 (mkSpan 0 0) 0 0)) as (d & st & Ep & _).
  - split; cbn; [rewrite length_app; cbn; lia|apply bnd_0|done].
  - unfold rem. cbn [pos]. fold (eof text) in Hf. rewrite Nat.sub_0_r. exact Hf.
  - fold (eof text). rewrite Ep. by eexists.
Qed.

