(* ===== verification/Formatter.v ===== *)
(** * The formatter of the behavior text language: [arora-behavior-tree/src/text/format.rs]

    A parsed text as text again. What it does not decide is a parameter: how the
    standard library quotes a string and the [uuid] crate prints an id, and what
    the resolver knows of a function's parameters ([Functions::find]). *)

From Stdlib Require Import Ascii.
From stdpp Require Import sorting.
From S2P Require Import Prelude Extern Regexes Tokens Parser.

(** [{:?}] of a string, [{}] of a [Uuid] *)
Class Printing := { debug_str : Str → Str; show_uuid : Z → Str }.
(** A function's parameters in their order: each by its name, when it has one, and its id's text *)
Definition Signature : Type := list (option Str * Str).

Section Formatter.
Context `{PR : Printing} `{UC : UuidCrate} (find : FunctionName → option Signature).
(** [variable] *)
Definition is_plain (key : Str) : bool :=
  negb (match key with [] => true | _ => false end) && negb (starts_with (lit "=") key)
  && negb (existsb (λ c, is_whitespace c || is_char "{"%char c || is_char "}"%char c || (c =? 34)) key)
  && match parse_str (utf8_string key) with None => true | Some _ => false end.
Definition written_variable (key : Str) : Str :=
  if is_plain key then lit "{" ++ key ++ lit "}" else lit "{" ++ debug_str key ++ lit "}".
Definition function_text (f : FunctionName) : Str :=
  match fn_module f with Some module => n_text module ++ lit "::" | None => [] end ++ n_text (fn_name f).
(** [ordered]: where an argument is among its function's parameters *)
Fixpoint position (text : Str) (parameters : Signature) (at_ : Z) : Z :=
  match parameters with
  | [] => 2 ^ 64 - 1
  | (name, id) :: parameters =>
      if decide (name = Some text ∨ id = text) then at_ else position text parameters (at_ + 1)
  end.
Definition by_position {A} (parameters : Signature) (a b : Name * A) : Prop :=
  (position (n_text a.1) parameters 0 <= position (n_text b.1) parameters 0)%Z.
#[export] Instance by_position_dec {A} parameters : RelDecision (@by_position A parameters) := λ a b, Z_le_dec _ _.
Definition ordered {A} (f : FunctionName) (arguments : list (Name * A)) : list (Name * A) :=
  match find f with Some parameters => merge_sort (by_position parameters) arguments | None => arguments end.

(** [Written]: the text, or where a document nests too deep *)
Definition Written : Type := result Span Str.
Fixpoint all_written {A} (l : list (A * Written)) : result Span (list (A * Str)) :=
  match l with
  | [] => Ok []
  | (a, w) :: l => x ← w; l ← all_written l; Ok ((a, x) :: l)
  end.
Fixpoint commas (l : list Str) : Str :=
  match l with
  | [] => []
  | x :: l => x ++ match l with [] => [] | _ => lit ", " ++ commas l end
  end.
Definition written_call (f : FunctionName) (bare : bool) (arguments : list (Name * Written)) : Written :=
  if bare && match arguments with [] => true | _ => false end then Ok (function_text f)
  else
    l ← all_written (ordered f arguments);
    Ok (function_text f ++ lit "(" ++ commas ((λ a, n_text a.1 ++ lit ": " ++ a.2) <$> l) ++ lit ")").
Fixpoint expression_text (e : Expr) (depth : nat) : Written :=
  match e with mkExpr span kind => if (MAX_DEPTH <=? depth)%nat then Err span else kind_text kind depth end
with kind_text (k : ExprKind) (depth : nat) : Written :=
  match k with
  | ENumber text suffix => Ok (text ++ default [] suffix)
  | EString value => Ok (debug_str value)
  | EBool value => Ok (lit (if value then "true" else "false"))
  | EUnit => Ok (lit "()")
  | ENone => Ok (lit "none")
  | ESome value => x ← expression_text value (S depth); Ok (lit "some(" ++ x ++ lit ")")
  | EArray element elements =>
      l ← all_written ((fix go (l : list Expr) := match l with [] => [] | e :: l => (tt, expression_text e (S depth)) :: go l end) elements);
      Ok (default [] element ++ lit "[" ++ commas l.*2 ++ lit "]")
  | EUuid value => Ok (lit "uuid(" ++ show_uuid value ++ lit ")")
  | EJson text => Ok (lit "json(" ++ debug_str text ++ lit ")")
  | EVariable name => Ok (written_variable name)
  | EVariableId value => Ok (lit "{" ++ show_uuid value ++ lit "}")
  | EPort node parameter => Ok (lit "@" ++ n_text node ++ lit "." ++ n_text parameter)
  | ESelect source path => x ← expression_text source (S depth); Ok (x ++ lit "[" ++ path ++ lit "]")
  | ECall c => call_text c false depth
  end
with call_text (c : Call) (bare : bool) (depth : nat) : Written :=
  match c with
  | mkCall _ f arguments =>
      written_call f bare
        ((fix go (l : list Argument) := match l with [] => [] | mkArgument _ name value _ :: l => (name, expression_text value (S depth)) :: go l end) arguments)
  end.
Definition newline : Str := [10].
Fixpoint repeated (n : nat) (s : Str) : Str := match n with O => [] | S n => s ++ repeated n s end.
(** [broken_call]: an argument's comments, and one argument per line *)
Fixpoint comments_after (indent : Str) (first : bool) (l : list CommentText) : Str :=
  match l with
  | [] => []
  | c :: l => (if first then lit "  #" ++ c_text c else newline ++ indent ++ lit "    #" ++ c_text c) ++ comments_after indent false l
  end.
Definition broken_call_text (c : Call) (indent : Str) : Written :=
  match c with
  | mkCall _ f arguments =>
      l ← all_written ((λ a, (a.2.2, a.2.1)) <$> ordered f ((λ a, let '(mkArgument _ name value comments) := a in (name, (expression_text value 1, (name, comments)))) <$> arguments));
      Ok (function_text f ++ lit "(" ++ newline
          ++ (l ≫= λ a, indent ++ lit "    " ++ n_text a.1.1 ++ lit ": " ++ a.2 ++ lit "," ++ comments_after indent true a.1.2 ++ newline)
          ++ indent ++ lit ")")
  end.
(** A block's nodes, a blank line kept between two *)
Fixpoint joined (first : bool) (l : list (bool * Written)) : Written :=
  match l with
  | [] => Ok []
  | (blank, w) :: l => x ← w; y ← joined false l; Ok ((if negb first && blank then newline else []) ++ x ++ y)
  end.
Definition blank_above (n : Node) : bool := let '(mkNode _ _ _ _ _ _ _ b) := n in b.
Fixpoint node_text (n : Node) (depth : nat) : Written :=
  match n with
  | mkNode span name target c children comments comment _ =>
      if (MAX_DEPTH <=? depth)%nat then Err span
      else
        let indent := repeated depth (lit "  ") in
        target_text ← (match target with Some e => x ← expression_text e 0; Ok (x ++ lit " = ") | None => Ok [] end);
        body ← (if existsb (λ a, let '(mkArgument _ _ _ l) := a in negb (match l with [] => true | _ => false end)) (call_args c)
                then broken_call_text c indent else call_text c true 0);
        below ← joined true ((fix go (l : list Node) := match l with [] => [] | n :: l => (blank_above n, node_text n (S depth)) :: go l end) children);
        Ok ((comments ≫= λ c, indent ++ lit "#" ++ c_text c ++ newline) ++ indent
            ++ match name with Some name => n_text name ++ lit ": " | None => [] end ++ target_text ++ body
            ++ match comment with Some c => lit "  #" ++ c_text c | None => [] end ++ newline ++ below)
  end.
(** The top-level nodes from [index] on *)
Fixpoint nodes_text (index : nat) (l : list Node) : Written :=
  match l with
  | [] => Ok []
  | n :: l =>
      let blank := (index =? 1)%nat || (1 <? index)%nat && blank_above n in
      x ← node_text n 0;
      y ← nodes_text (S index) l;
      Ok ((if blank then newline else []) ++ x ++ y)
  end.
Definition is_error (d : Diagnostic) : bool := match d_severity d with SevError => true | SevWarning => false end.
(** [format] *)
Definition format (p : Parsed) : result (list Diagnostic) Str :=
  match List.filter is_error (diagnostics p) with
  | [] =>
      match nodes_text 0 (nodes (document p)) with
      | Err span => Err [diag_error NestsTooDeep span]
      | Ok text =>
          Ok (text ++ (match doc_comments (document p), nodes (document p) with _ :: _, _ :: _ => newline | _, _ => [] end)
              ++ (doc_comments (document p) ≫= λ c, lit "#" ++ c_text c ++ newline))
      end
  | errors => Err errors
  end.
End Formatter.
