(* ===== verification/Formatting.v ===== *)
(** * What the formatter refuses

    A parsed text is written exactly when nothing in it is an error and nothing in
    it nests past the limit, whatever order its arguments are written in. *)

From Stdlib Require Import Ascii.
From stdpp Require Import sorting.
From S2P Require Import Prelude Extern Regexes Tokens Parser Formatter.

(** ** How many levels a value nests, and a node *)
Definition highest {A} (f : A → nat) (l : list A) : nat := foldr (λ a n, Nat.max (f a) n) 0%nat l.
Fixpoint height (e : Expr) : nat := match e with mkExpr _ k => S (kind_height k) end
with kind_height (k : ExprKind) : nat :=
  match k with
  | ESome value => height value
  | EArray _ elements => (fix go (l : list Expr) := match l with [] => 0%nat | e :: l => Nat.max (height e) (go l) end) elements
  | ESelect source _ => height source
  | ECall c => call_height c
  | _ => 0
  end
with call_height (c : Call) : nat :=
  match c with
  | mkCall _ _ l => (fix go (l : list Argument) := match l with [] => 0%nat | mkArgument _ _ value _ :: l => Nat.max (height value) (go l) end) l
  end.
Definition arg_height (a : Argument) : nat := let '(mkArgument _ _ value _) := a in height value.
Fixpoint levels (n : Node) : nat :=
  match n with mkNode _ _ _ _ children _ _ _ => S ((fix go (l : list Node) := match l with [] => 0%nat | c :: l => Nat.max (levels c) (go l) end) children) end.
(** The values of a node and of the nodes under it nest at most [MAX_DEPTH] levels,
    an argument of the node itself one of them. *)
Fixpoint values_fit (n : Node) : bool :=
  match n with
  | mkNode _ _ target c children _ _ _ =>
      match target with Some e => (height e <=? MAX_DEPTH)%nat | None => true end && (call_height c <? MAX_DEPTH)%nat
      && (fix go (l : list Node) := match l with [] => true | c :: l => values_fit c && go l end) children
  end.

Lemma array_height el l : kind_height (EArray el l) = highest height l.
Proof. cbn. by induction l as [|e l IH]; [|cbn; rewrite IH]. Qed.
Lemma call_height_args s f l : call_height (mkCall s f l) = highest arg_height l.
Proof. cbn. induction l as [|[? ? v ?] l IH]; [done|]. cbn. by rewrite IH. Qed.
Lemma levels_children s n t c l k m b : levels (mkNode s n t c l k m b) = S (highest levels l).
Proof. reflexivity. Qed.

(** ** Writing *)
Section Formatting.
Context `{PR : Printing} `{UC : UuidCrate} (find : FunctionName → option Signature).
Lemma is_ok_bind {A B E} (m : result E A) (f : A → result E B) : (∀ a, is_ok (f a) = true) → is_ok (m ≫= f) = is_ok m.
Proof. intros H. destruct m as [a|e]; [apply H|done]. Qed.
Lemma is_ok_all {A} (l : list (A * Written)) : is_ok (all_written l) = forallb (λ a, is_ok a.2) l.
Proof.
  induction l as [|[a w] l IH]; [done|]. cbn. destruct w as [x|s]; [|done]. cbn. rewrite <- IH. by destruct (all_written l).
Qed.
Lemma ordered_arguments_perm {A} f (l : list (Name * A)) : ordered find f l ≡ₚ l.
Proof. unfold ordered. destruct (find f); [apply merge_sort_Permutation|done]. Qed.
Lemma forallb_perm {A} (p : A → bool) l k : l ≡ₚ k → forallb p l = forallb p k.
Proof. intros H. apply eq_bool_prop_intro. rewrite !forallb_True. by rewrite H. Qed.
Lemma forallb_le {A} (p : A → bool) (f : A → nat) l k m : (k ≤ m)%nat → (∀ a, a ∈ l → p a = (k + f a <=? m)%nat) →
  forallb p l = (k + highest f l <=? m)%nat.
Proof.
  intros Hk. induction l as [|a l IH]; intros H; [symmetry; apply Nat.leb_le; unfold highest; cbn; lia|].
  change (highest f (a :: l)) with (Nat.max (f a) (highest f l)). cbn [forallb]. rewrite IH, H by set_solver. apply eq_true_iff_eq.
  rewrite andb_true_iff, !Nat.leb_le. lia.
Qed.
Lemma highest_elem {A} (f : A → nat) l a : a ∈ l → (f a ≤ highest f l)%nat.
Proof.
  induction l as [|b l IH]; [by intros ?%not_elem_of_nil|]. change (highest f (b :: l)) with (Nat.max (f b) (highest f l)).
  intros [->|H]%elem_of_cons; [lia|]. specialize (IH H). lia.
Qed.
(** The equations of the writer, over the lists it walks *)
Lemma expression_text_eq s k d : expression_text find (mkExpr s k) d = if (MAX_DEPTH <=? d)%nat then Err s else kind_text find k d.
Proof. done. Qed.
Lemma some_text_eq v d : kind_text find (ESome v) d = x ← expression_text find v (S d); Ok (lit "some(" ++ x ++ lit ")").
Proof. done. Qed.
Lemma select_text_eq v p d : kind_text find (ESelect v p) d = x ← expression_text find v (S d); Ok (x ++ lit "[" ++ p ++ lit "]").
Proof. done. Qed.
Lemma array_text_eq el l d : kind_text find (EArray el l) d =
  l ← all_written ((λ e, (tt, expression_text find e (S d))) <$> l); Ok (default [] el ++ lit "[" ++ commas l.*2 ++ lit "]").
Proof. done. Qed.
Definition arg_text (d : nat) (a : Argument) : Name * Written := let '(mkArgument _ name value _) := a in (name, expression_text find value d).
Lemma call_text_eq s f l bare d : call_text find (mkCall s f l) bare d = written_call find f bare (arg_text (S d) <$> l).
Proof.
  cbn [call_text]. f_equal. induction l as [|[? ? ? ?] l IH]; [done|]. cbn. by rewrite <- IH.
Qed.
Lemma broken_text_eq s f l indent : broken_call_text find (mkCall s f l) indent =
  l ← all_written ((λ a, (a.2.2, a.2.1)) <$> ordered find f ((λ a, let '(mkArgument _ name value comments) := a in (name, (expression_text find value 1, (name, comments)))) <$> l));
  Ok (function_text f ++ lit "(" ++ newline
      ++ (l ≫= λ a, indent ++ lit "    " ++ n_text a.1.1 ++ lit ": " ++ a.2 ++ lit "," ++ comments_after indent true a.1.2 ++ newline)
      ++ indent ++ lit ")").
Proof. done. Qed.

Lemma forallb_fmap {A B} (f : A → B) (p : B → bool) l : forallb p (f <$> l) = forallb (λ a, p (f a)) l.
Proof. induction l as [|a l IH]; [done|]. cbn. by rewrite IH. Qed.
Lemma forallb_same {A} (p q : A → bool) l : (∀ a, a ∈ l → p a = q a) → forallb p l = forallb q l.
Proof. induction l as [|a l IH]; intros H; [done|]. cbn. rewrite H, IH; set_solver. Qed.
Lemma call_written s f l bare d :
  is_ok (call_text find (mkCall s f l) bare d) = forallb (λ a, is_ok (arg_text (S d) a).2) l.
Proof.
  rewrite call_text_eq. unfold written_call. match goal with |- is_ok (if ?b then _ else _) = _ => destruct b eqn:E end.
  - apply andb_true_iff in E as [_ E]. destruct l as [|a l]; [done|discriminate E].
  - rewrite is_ok_bind by done. by rewrite is_ok_all, (forallb_perm _ _ _ (ordered_arguments_perm f _)), forallb_fmap.
Qed.
Lemma broken_written s f l indent : is_ok (broken_call_text find (mkCall s f l) indent) = forallb (λ a, is_ok (arg_text 1 a).2) l.
Proof.
  rewrite broken_text_eq, is_ok_bind by done. rewrite is_ok_all, forallb_fmap, (forallb_perm _ _ _ (ordered_arguments_perm f _)), forallb_fmap.
  apply forallb_same. by intros [? ? ? ?] _.
Qed.
(** A value is written exactly when it ends within the limit. *)
Lemma expression_written e d : is_ok (expression_text find e d) = (d + height e <=? MAX_DEPTH)%nat.
Proof.
  assert (∀ n e d, (height e ≤ n)%nat → is_ok (expression_text find e d) = (d + height e <=? MAX_DEPTH)%nat) as H; [|by apply (H (height e))].
  clear e d. induction n as [|n IH]; intros [s k] d Hn; [cbn in Hn; lia|].
  rewrite expression_text_eq. change (height (mkExpr s k)) with (S (kind_height k)) in *.
  destruct (Nat.leb_spec MAX_DEPTH d) as [Hd|Hd]; [symmetry; apply Nat.leb_gt; lia|].
  assert (is_ok (kind_text find k d) = (S d + kind_height k <=? MAX_DEPTH)%nat) as ->; [|f_equal; lia].
  assert (∀ x : Str, is_ok (Ok x : Written) = (S d + 0 <=? MAX_DEPTH)%nat) as H0 by (intros x; symmetry; apply Nat.leb_le; lia).
  destruct k as [| | | | |v|el l| | | | | |v p|[s' f l]]; try (by apply H0).
  - rewrite some_text_eq, is_ok_bind by done. apply IH. cbn in Hn. lia.
  - rewrite array_text_eq, is_ok_bind by done. rewrite is_ok_all, forallb_fmap, array_height in *. apply forallb_le; [lia|].
    intros e He. apply IH. apply (highest_elem height) in He. lia.
  - rewrite select_text_eq, is_ok_bind by done. apply IH. cbn in Hn. lia.
  - change (kind_text find (ECall (mkCall s' f l)) d) with (call_text find (mkCall s' f l) false d).
    change (kind_height (ECall (mkCall s' f l))) with (call_height (mkCall s' f l)) in *. rewrite call_written, call_height_args in *.
    apply forallb_le; [lia|]. intros [? ? v ?] Ha. apply (highest_elem arg_height) in Ha. apply IH. cbn in Ha. lia.
Qed.

Lemma args_written l : forallb (λ a, is_ok (arg_text 1 a).2) l = (highest arg_height l <? MAX_DEPTH)%nat.
Proof.
  change (forallb (λ a, is_ok (arg_text 1 a).2) l = (1 + highest arg_height l <=? MAX_DEPTH)%nat).
  apply forallb_le; [unfold MAX_DEPTH; lia|]. intros [? ? v ?] _. apply expression_written.
Qed.
Lemma values_fit_eq s n t c l k m b : values_fit (mkNode s n t c l k m b) =
  match t with Some e => (height e <=? MAX_DEPTH)%nat | None => true end && (call_height c <? MAX_DEPTH)%nat && forallb values_fit l.
Proof. done. Qed.
Lemma is_ok_then {A B E} (m : result E A) (f : A → result E B) b : (∀ a, is_ok (f a) = b) → is_ok (m ≫= f) = is_ok m && b.
Proof. intros H. destruct m as [a|e]; [apply H|done]. Qed.
Lemma joined_written first l : is_ok (joined first l) = forallb (λ a, is_ok a.2) l.
Proof.
  revert first. induction l as [|[b w] l IH]; intros first; [done|]. cbn [joined forallb].
  rewrite (is_ok_then _ _ (is_ok (joined false l))) by (intros x; by rewrite is_ok_bind). by rewrite IH.
Qed.
Lemma forallb_and {A} (p q : A → bool) l : forallb (λ a, p a && q a) l = forallb p l && forallb q l.
Proof. induction l as [|a l IH]; [done|]. cbn. rewrite IH. destruct (p a), (q a), (forallb p l); done. Qed.
Lemma node_written n d : is_ok (node_text find n d) = (d + levels n <=? MAX_DEPTH)%nat && values_fit n.
Proof.
  assert (∀ k n d, (levels n ≤ k)%nat → is_ok (node_text find n d) = (d + levels n <=? MAX_DEPTH)%nat && values_fit n) as H; [|by apply (H (levels n))].
  clear n d. induction k as [|k IH]; intros [span name target c l comments comment b] d Hn; [cbn in Hn; lia|].
  rewrite levels_children in *. rewrite values_fit_eq. cbn [node_text].
  destruct (Nat.leb_spec MAX_DEPTH d) as [Hd|Hd]; [symmetry; apply andb_false_iff; left; apply Nat.leb_gt; lia|]. cbv zeta.
  set (below := joined true _).
  assert (is_ok below = (S d + highest levels l <=? MAX_DEPTH)%nat && forallb values_fit l) as Hbelow.
  { subst below. change (is_ok (joined true ((λ n, (blank_above n, node_text find n (S d))) <$> l)) = (S d + highest levels l <=? MAX_DEPTH)%nat && forallb values_fit l).
    rewrite joined_written, forallb_fmap. rewrite <- (forallb_le (λ n, (S d + levels n <=? MAX_DEPTH)%nat) levels) by (lia || done).
    rewrite <- forallb_and. apply forallb_same. intros c' Hc'. apply IH. apply (highest_elem levels) in Hc'. lia. }
  destruct c as [s' f args]. cbn [call_args]. rewrite call_height_args.
  rewrite (is_ok_then _ _ ((highest arg_height args <? MAX_DEPTH)%nat && ((S d + highest levels l <=? MAX_DEPTH)%nat && forallb values_fit l))).
  - replace (d + S (highest levels l))%nat with (S d + highest levels l)%nat by lia.
    match goal with |- is_ok ?m && _ = _ => assert (is_ok m = match target with Some e => (height e <=? MAX_DEPTH)%nat | None => true end) as -> end.
    { destruct target as [e|]; [|done]. etrans; [|apply (expression_written e 0)]. by destruct (expression_text find e 0). }
    destruct (match target with Some _ => _ | None => _ end), (_ <=? _)%nat, (_ <? _)%nat; cbn; try done; by rewrite ?andb_false_r.
  - intros x. rewrite (is_ok_then _ _ (is_ok below)) by (intros y; by rewrite is_ok_bind). rewrite Hbelow. f_equal.
    destruct (existsb _ args); [by rewrite broken_written, args_written|by rewrite call_written, args_written].
Qed.
Lemma nodes_written i l : is_ok (nodes_text find i l) = forallb (λ n, (levels n <=? MAX_DEPTH)%nat && values_fit n) l.
Proof.
  revert i. induction l as [|n l IH]; intros i; [done|]. cbn [nodes_text forallb].
  rewrite (is_ok_then _ _ (is_ok (nodes_text find (S i) l))) by (intros x; by rewrite is_ok_bind). by rewrite IH, node_written.
Qed.

(** C40. A parsed text is written exactly when none of its diagnostics is an error
    and every node of it, and every value of theirs, ends within [MAX_DEPTH]
    levels; a text with errors is refused with exactly those. *)
Theorem format_exact (p : Parsed) :
  is_ok (format find p) =
    forallb (λ d, negb (is_error d)) (diagnostics p)
    && forallb (λ n, (levels n <=? MAX_DEPTH)%nat && values_fit n) (nodes (document p)).
Proof.
  unfold format. rewrite <- (nodes_written 0).
  assert (List.filter is_error (diagnostics p) = [] ↔ forallb (λ d, negb (is_error d)) (diagnostics p) = true) as Hd.
  { induction (diagnostics p) as [|d l IH]; [done|]. cbn. by destruct (is_error d). }
  destruct (List.filter is_error (diagnostics p)) as [|d l].
  - rewrite (proj1 Hd) by done. cbn. by destruct (nodes_text find 0 _).
  - destruct (forallb _ (diagnostics p)); [|done]. discriminate (proj2 Hd eq_refl).
Qed.
End Formatting.
