(* ===== verification/ParsingExamples.v ===== *)
(** * Texts lexed, parsed and written *)

From Stdlib Require Import Ascii.
From S2P Require Import Prelude Extern Regexes Tokens Lexing Parser Parsing Formatter Formatting.

(** ** Instances of what the lexer and the parser rely on *)
#[local] Instance one_char : LogosCrate := {| error_chars s := 1%nat |}.
#[local] Instance one_char_laws : LogosLaws.
Proof. split. intros [|c s] Hs; [done|]. cbn. lia. Qed.
Lemma hexdigit_cases c : is_hexdigit c = true → 48 <= c <= 57 ∨ 97 <= c <= 102 ∨ 65 <= c <= 70.
Proof.
  unfold is_hexdigit, is_digit, between. rewrite !orb_true_iff, !andb_true_iff, !Z.leb_le.
  change (Z.of_nat (nat_of_ascii "0")) with 48. change (Z.of_nat (nat_of_ascii "9")) with 57. change (Z.of_nat (nat_of_ascii "a")) with 97.
  change (Z.of_nat (nat_of_ascii "f")) with 102. change (Z.of_nat (nat_of_ascii "A")) with 65. change (Z.of_nat (nat_of_ascii "F")) with 70. lia.
Qed.
Lemma hexdigit_range c : is_hexdigit c = true → 48 <= c < 128.
Proof. intros H%hexdigit_cases. lia. Qed.
Definition hex_code (n : Z) : option Z :=
  if (48 <=? n) && (n <=? 57) then Some (n - 48) else if (97 <=? n) && (n <=? 102) then Some (n - 87)
  else if (65 <=? n) && (n <=? 70) then Some (n - 55) else None.
Lemma hexdigit_code c : is_hexdigit c = true → is_Some (hex_code c) ∧ (c =? 45) = false.
Proof.
  intros H%hexdigit_cases. unfold hex_code. split; [|apply Z.eqb_neq; lia].
  destruct ((48 <=? c) && (c <=? 57)) eqn:E1; [by eexists|]. destruct ((97 <=? c) && (c <=? 102)) eqn:E2; [by eexists|].
  destruct ((65 <=? c) && (c <=? 70)) eqn:E3; [by eexists|]. lia.
Qed.
Lemma utf8_string_cons c s : 0 <= c < 128 → utf8_string (c :: s) = String.String (ascii_of_N (Z.to_N c)) (utf8_string s).
Proof. intros Hc. unfold utf8_string. cbn. unfold utf8_bytes at 1. by rewrite (proj2 (Z.ltb_lt c 128)) by lia. Qed.
Lemma ascii_code c : 0 <= c < 128 → Z.of_nat (nat_of_ascii (ascii_of_N (Z.to_N c))) = c.
Proof. intros Hc. unfold nat_of_ascii. rewrite N_ascii_embedding by lia. lia. Qed.
Lemma hex_value_digits n x y : lang (hexes n) x →
  ∀ acc k, ∃ acc', hex_value acc (n + k) (utf8_string (x ++ y)) = hex_value acc' k (utf8_string y).
Proof.
  assert (∀ n x, lang (times n (One is_hexdigit)) x → length x = n ∧ Forall (λ c, is_hexdigit c = true) x) as Htimes.
  { clear. induction n as [|n IH]; intros x H; [by inversion H|]. destruct n as [|n].
    - apply lang_one in H as (c & -> & Hc). split; [done|]. by constructor.
    - apply lang_Seq in H as (u & v & -> & (c & -> & Hc)%lang_one & Hv). destruct (IH v Hv) as [Hl Hf]. split; [cbn in *; lia|by constructor]. }
  intros Hx. destruct (Htimes n x Hx) as [Hl Hf]. clear Hx Htimes. revert n Hl. induction Hf as [|c x Hc Hf IH]; intros n Hl acc k; cbn in Hl; subst n.
  - by exists acc.
  - pose proof (hexdigit_range c Hc). destruct (hexdigit_code c Hc) as [[d Hd] Hne]. cbn [app length Nat.add].
    rewrite utf8_string_cons by lia. cbn [hex_value]. rewrite ascii_code, Hne by lia.
    unfold hex_code in Hd. repeat case_match; try done; apply (IH _ eq_refl).
Qed.
Lemma hex_value_hyphen k acc y : hex_value acc k (utf8_string (45 :: y)) = hex_value acc k (utf8_string y).
Proof. rewrite utf8_string_cons by lia. by destruct k. Qed.
#[local] Instance reference_ids : UuidTextLaws.
Proof.
  split. intros s Hs. cbn [raw_regex] in Hs.
  apply lang_Seq in Hs as (a & s1 & -> & Ha & (h1 & s2 & -> & ->%lang_chr & (b & s3 & -> & Hb & (h2 & s4 & -> & ->%lang_chr &
    (c & s5 & -> & Hc & (h3 & s6 & -> & ->%lang_chr & (d & s7 & -> & Hd & (h4 & e & -> & ->%lang_chr & He)%lang_Seq)%lang_Seq)%lang_Seq)%lang_Seq)%lang_Seq)%lang_Seq)%lang_Seq).
  cbn [parse_str UuidCrate_ref]. change (nat_of_ascii "-") with 45%nat. cbn [app Z.of_nat].
  destruct (hex_value_digits 8 a (45 :: b ++ 45 :: c ++ 45 :: d ++ 45 :: e) Ha 0 24) as [n1 E1].
  destruct (hex_value_digits 4 b (45 :: c ++ 45 :: d ++ 45 :: e) Hb n1 20) as [n2 E2].
  destruct (hex_value_digits 4 c (45 :: d ++ 45 :: e) Hc n2 16) as [n3 E3].
  destruct (hex_value_digits 4 d (45 :: e) Hd n3 12) as [n4 E4].
  destruct (hex_value_digits 12 e [] He n4 0) as [n5 E5]. rewrite app_nil_r in E5.
  exists n5. etrans; [exact E1|]. rewrite hex_value_hyphen. etrans; [exact E2|]. rewrite hex_value_hyphen. etrans; [exact E3|].
  rewrite hex_value_hyphen. etrans; [exact E4|]. rewrite hex_value_hyphen. exact E5.
Qed.

(** ** A text with what does not parse in it *)
Definition nl : string := String.String (ascii_of_nat 10) String.EmptyString.
Definition quote : string := String.String (ascii_of_nat 34) String.EmptyString.
Definition a_text : Str := lit ("fallback # c" +:+ nl +:+ "  seq(a: {p/v}[x.y], b: 1.5f64)" +:+ nl +:+ nl +:+ "x: {" +:+ quote +:+ "k" +:+ quote +:+ "} = f(a: 1 1, c: ), [").
Lemma layout_balances_witness : ∃ toks ds, tokens a_text = Some (toks ++ [mkToken Eof (mkSpan (str_len a_text) (str_len a_text))], ds) ∧ blocks_after toks = Some 0%nat.
Proof. destruct (layout_balances a_text) as (toks & ds & E & _ & _ & Hb). exists toks, ds. exact (conj E Hb). Defined.
Lemma parse_returns_witness : ∃ toks ds, tokens a_text = Some (toks, ds) ∧ is_Some (parse (8 * length toks + 9) a_text).
Proof. destruct (parse_returns a_text) as (toks & ds & E & H). exists toks, ds. split; [exact E|]. apply H. clear. lia. Defined.

(** ** The parser takes what the formatter refuses

    A text of [MAX_DEPTH] nested values, and one whose selections are as deep as the
    value they are out of, parse with no error; written back they nest too deep. *)
#[local] Instance plain_printing : Printing := {| debug_str s := [34] ++ s ++ [34]; show_uuid _ := [] |}.
Definition deep_value : Str := lit "f(a: " ++ repeated 127 (lit "some(") ++ lit "1" ++ repeated 127 (lit ")") ++ lit ")".
Definition deep_selected : Str := lit "f(a: " ++ repeated 100 (lit "some(") ++ lit "1" ++ repeated 100 (lit ")") ++ repeated 100 (lit "[a]") ++ lit ")".
Definition taken_not_written (text : Str) : bool :=
  match parse 4500 text with
  | Some p => match diagnostics p with [] => negb (is_ok (format (λ _, None) p)) | _ => false end
  | None => false
  end.
Example taken_not_written_value : taken_not_written deep_value = true.
Proof. vm_compute. reflexivity. Qed.
Example taken_not_written_selected : taken_not_written deep_selected = true.
Proof. vm_compute. reflexivity. Qed.
