(* ===== verification/GuestArguments.v ===== *)
(** * The arguments of a guest call: [arora-engine/src/arguments.rs]

    A call's buffer checked against the parameters its guest's header declares,
    in place: the tags and ids are read where they lie, and [value_end] steps
    over the values. An index, a slice or an [expect] that fails is the error
    [Panics]. A message is the constructor that carries what it names. *)

From S2P Require Import Prelude Values Extern Writer Types WellFormed.

(** ** [arora-types/src/module/low.rs] *)
Record Param := mkParam { pa_id : Uuid; pa_name : string; pa_ty : TypeRef; pa_mutable : bool; pa_default : option Value }.
Record ExportFunction := mkExport { ef_id : Uuid; ef_name : string; ef_parameters : list Param; ef_ret : TypeRef }.
(** What the engine reads of a [Header]: its id, its executor's name and its exports *)
Record Header := mkHeader { h_id : Uuid; h_executor : string; h_exports : list ExportFunction }.

Record Signature := mkSignature { sg_name : string; sg_parameters : gmap Uuid Param }.
Definition Signatures : Type := gmap Uuid Signature.
Definition parameters_of (l : list Param) : gmap Uuid Param :=
  foldl (λ m p, match m !! pa_id p with Some _ => m | None => <[pa_id p := p]> m end) ∅ l.
(** [Signatures::of] *)
Definition signatures_of (h : Header) : Signatures :=
  foldl (λ m f, <[ef_id f := mkSignature (ef_name f) (parameters_of (ef_parameters f))]> m) ∅ (h_exports h).

(** ** Names and tags *)
Fixpoint find_id {A} (id : Uuid) (l : list (Uuid * A)) : option A :=
  match l with
  | [] => None
  | (i, a) :: l => if decide (i = id) then Some a else find_id id l
  end.
Definition dynamic (id : Uuid) : bool := bool_decide (id = KEY_VALUE_ID) || bool_decide (id = ARRAY_VALUE_ID).
Definition primitive (id : Uuid) : option (Z * string) :=
  find_id id
    [(UNIT_ID, (TYPE_UNIT, "a unit")); (BOOLEAN_ID, (TYPE_BOOLEAN, "a bool"));
     (I8_ID, (TYPE_I8, "an i8")); (I16_ID, (TYPE_I16, "an i16")); (I32_ID, (TYPE_I32, "an i32")); (I64_ID, (TYPE_I64, "an i64"));
     (U8_ID, (TYPE_U8, "a u8")); (U16_ID, (TYPE_U16, "a u16")); (U32_ID, (TYPE_U32, "a u32")); (U64_ID, (TYPE_U64, "a u64"));
     (F32_ID, (TYPE_F32, "an f32")); (F64_ID, (TYPE_F64, "an f64"));
     (STRING_ID, (TYPE_STRING, "a string")); (UUID_ID, (TYPE_UUID, "a uuid"))]%string.
Definition typed_array_element (id : Uuid) : option Z :=
  find_id id
    [(ARRAY_BOOLEAN_ID, TYPE_BOOLEAN);
     (ARRAY_U8_ID, TYPE_U8); (ARRAY_U16_ID, TYPE_U16); (ARRAY_U32_ID, TYPE_U32); (ARRAY_U64_ID, TYPE_U64);
     (ARRAY_I8_ID, TYPE_I8); (ARRAY_I16_ID, TYPE_I16); (ARRAY_I32_ID, TYPE_I32); (ARRAY_I64_ID, TYPE_I64);
     (ARRAY_F32_ID, TYPE_F32); (ARRAY_F64_ID, TYPE_F64); (ARRAY_STRING_ID, TYPE_STRING)].
Definition tag_name (tag : Z) : string :=
  default "a value of an unknown type"%string (find_id tag
    [(TYPE_UNIT, "a unit"); (TYPE_BOOLEAN, "a bool"); (TYPE_I8, "an i8"); (TYPE_I16, "an i16"); (TYPE_I32, "an i32");
     (TYPE_I64, "an i64"); (TYPE_U8, "a u8"); (TYPE_U16, "a u16"); (TYPE_U32, "a u32"); (TYPE_U64, "a u64");
     (TYPE_F32, "an f32"); (TYPE_F64, "an f64"); (TYPE_STRING, "a string"); (TYPE_UUID, "a uuid");
     (TYPE_STRUCTURE, "a structure"); (TYPE_ENUMERATION, "an enumeration"); (TYPE_ARRAY, "an array"); (TYPE_MAP, "a map");
     (TYPE_OPTION, "an option"); (TYPE_VALUE, "a value")]%string).
Definition names_a_record (id : Uuid) : bool := negb (in_ids id WELL_KNOWN_IDS).

(** What is wrong with an argument; [describe] names a type in a message. *)
Inductive Description := Primitive_ (name : string) | TheRecord (id : Uuid).
Definition describe (id : Uuid) : Description :=
  match primitive id with Some (_, name) => Primitive_ name | None => TheRecord id end.
Inductive Reason :=
| Panics
| ExpectedKind (name found : string)
| ExpectedArrayOf (wanted found : string)
| ExpectedRecord (id found : Uuid)
| ExpectedRecordNot (id : Uuid) (found : string)
| ExpectedElements (len count : nat)
| ExpectedNotRecords (wanted : Description) (found : Uuid)
| ExpectedRecords (id : Uuid) (found : string).
Inductive ArgumentError :=
| NoParameter (function : string) (field : Uuid)
| NotOfType (parameter function : string) (reason : Reason)
| CheckPanics.

Section Arguments.
Context `{BY : Bytes} `{UC : UuidCrate} (usize_max : Z) (arg : list byte).

(** ** [struct Buffer] *)
Definition tag (at_ : nat) : result Reason Z :=
  match arg !! at_ with Some b => Ok (byte_Z b) | None => Err Panics end.
Definition range (at_ n : nat) : result Reason (list byte) :=
  if (at_ + n <=? length arg)%nat then Ok (take n (drop at_ arg)) else Err Panics.
Definition u32_at (at_ : nat) : result Reason nat := bs ← range at_ 4; Ok (Z.to_nat (le_Z bs)).
Definition id_at (at_ : nat) : result Reason Uuid :=
  bs ← range at_ 16; match from_slice bs with Some u => Ok u | None => Err Panics end.
Definition end_of (at_ : nat) : result Reason nat :=
  match value_end usize_max arg at_ with Ok n => Ok n | Err _ => Err Panics end.
Definition expect (at_ : nat) (wanted : Z) (name : string) : result Reason unit :=
  found ← tag at_; if found =? wanted then Ok tt else Err (ExpectedKind name (tag_name found)).
(** [scalar] *)
Definition scalar (at_ : nat) (id : Uuid) : result Reason unit :=
  if dynamic id then Ok tt
  else match primitive id with
  | Some (wanted, name) => expect at_ wanted name
  | None =>
      if bool_decide (id = OPTION_ID) then expect at_ TYPE_OPTION "an option"
      else match typed_array_element id with
      | Some element =>
          _ ← expect at_ TYPE_ARRAY "an array";
          found ← tag (at_ + 1);
          if found =? element then Ok tt else Err (ExpectedArrayOf (tag_name element) (tag_name found))
      | None =>
          found ← tag at_;
          if (found =? TYPE_STRUCTURE) || (found =? TYPE_ENUMERATION) then
            record ← id_at (at_ + 1);
            if bool_decide (record = id) then Ok tt else Err (ExpectedRecord id record)
          else Err (ExpectedRecordNot id (tag_name found))
      end
  end.
Fixpoint elements (count at_ : nat) (id : Uuid) : result Reason unit :=
  match count with
  | O => Ok tt
  | S count => _ ← scalar at_ id; next ← end_of at_; elements count next id
  end.
(** [array] *)
Definition array (at_ : nat) (id : Uuid) (len : option nat) : result Reason unit :=
  _ ← expect at_ TYPE_ARRAY "an array";
  element ← tag (at_ + 1);
  count ← u32_at (at_ + 2);
  match match len with Some len => if decide (len = count) then None else Some len | None => None end with
  | Some len => Err (ExpectedElements len count)
  | None =>
      if dynamic id then Ok tt
      else if element =? TYPE_VALUE then elements count (at_ + 6) id
      else if (element =? TYPE_STRUCTURE) || (element =? TYPE_ENUMERATION) then
        record ← id_at (at_ + 6);
        if names_a_record id && bool_decide (record = id) then Ok tt
        else Err (ExpectedNotRecords (describe id) record)
      else match primitive id with
      | Some (wanted, _) =>
          if wanted =? element then Ok tt else Err (ExpectedArrayOf (tag_name wanted) (tag_name element))
      | None => Err (ExpectedRecords id (tag_name element))
      end
  end.
(** [argument] *)
Definition argument (at_ : nat) (ty : TypeRef) : result Reason unit :=
  match ty with
  | TypeRef.Scalar id => scalar at_ id
  | TypeRef.Array id => array at_ id None
  | TypeRef.FixedArray id len => array at_ id (Some len)
  | TypeRef.Map_ _ _ => expect at_ TYPE_MAP "a map"
  | TypeRef.Option id =>
      found ← tag at_;
      if found =? TYPE_OPTION then
        present ← tag (at_ + 1);
        if present =? 0 then Ok tt else scalar (at_ + 2) id
      else scalar at_ id
  end.

Definition panicking {A} (r : result Reason A) : result ArgumentError A :=
  match r with Ok a => Ok a | Err _ => Err CheckPanics end.
Fixpoint check_fields (signature : Signature) (count at_ : nat) : result ArgumentError unit :=
  match count with
  | O => Ok tt
  | S count =>
      field ← panicking (id_at at_);
      match sg_parameters signature !! field with
      | None => Err (NoParameter (sg_name signature) field)
      | Some parameter =>
          found ← panicking (tag (at_ + 16));
          _ ← (if found =? TYPE_UNIT then Ok tt
               else match argument (at_ + 16) (pa_ty parameter) with
               | Ok _ => Ok tt
               | Err Panics => Err CheckPanics
               | Err reason => Err (NotOfType (pa_name parameter) (sg_name signature) reason)
               end);
          next ← panicking (end_of (at_ + 16));
          check_fields signature count next
      end
  end.
(** [Signatures::check] *)
Definition check (signatures : Signatures) (function : Uuid) : result ArgumentError unit :=
  match signatures !! function with
  | None => Ok tt
  | Some signature =>
      match well_formed usize_max arg with
      | Err _ => Ok tt
      | Ok _ =>
          found ← panicking (tag BUFFER_SIZE_SIZE);
          if negb (found =? TYPE_STRUCTURE) then Ok tt
          else
            count ← panicking (u32_at (BUFFER_SIZE_SIZE + 17));
            check_fields signature count (BUFFER_SIZE_SIZE + 21)
      end
  end.
End Arguments.

(** ** What the check promises, of the values the buffer holds *)
Definition value_tag (v : Value) : Z :=
  match v with
  | Value.Unit => TYPE_UNIT
  | Value.Boolean _ => TYPE_BOOLEAN
  | Value.U8 _ => TYPE_U8 | Value.U16 _ => TYPE_U16 | Value.U32 _ => TYPE_U32 | Value.U64 _ => TYPE_U64
  | Value.I8 _ => TYPE_I8 | Value.I16 _ => TYPE_I16 | Value.I32 _ => TYPE_I32 | Value.I64 _ => TYPE_I64
  | Value.F32 _ => TYPE_F32 | Value.F64 _ => TYPE_F64
  | Value.String _ => TYPE_STRING
  | Value.Option _ => TYPE_OPTION
  | Value.Structure _ => TYPE_STRUCTURE
  | Value.Enumeration _ => TYPE_ENUMERATION
  | Value.KeyValue _ => TYPE_MAP
  | Value.Uuid _ => TYPE_UUID
  | _ => TYPE_ARRAY
  end.
(** An array's elements: their tag and how many they are *)
Definition array_shape (v : Value) : option (Z * nat) :=
  match v with
  | Value.ArrayBoolean l => Some (TYPE_BOOLEAN, length l)
  | Value.ArrayU8 l => Some (TYPE_U8, length l) | Value.ArrayU16 l => Some (TYPE_U16, length l)
  | Value.ArrayU32 l => Some (TYPE_U32, length l) | Value.ArrayU64 l => Some (TYPE_U64, length l)
  | Value.ArrayI8 l => Some (TYPE_I8, length l) | Value.ArrayI16 l => Some (TYPE_I16, length l)
  | Value.ArrayI32 l => Some (TYPE_I32, length l) | Value.ArrayI64 l => Some (TYPE_I64, length l)
  | Value.ArrayF32 l => Some (TYPE_F32, length l) | Value.ArrayF64 l => Some (TYPE_F64, length l)
  | Value.ArrayString l => Some (TYPE_STRING, length l)
  | Value.ArrayValue l => Some (TYPE_VALUE, length l)
  | Value.ArrayStructure _ l => Some (TYPE_STRUCTURE, length l)
  | Value.ArrayEnumeration _ l => Some (TYPE_ENUMERATION, length l)
  | _ => None
  end.
(** A value of the type an id names: of any value for the dynamic types, of its
    kind for the well-known ones, of its record for any other *)
Definition is_of (id : Uuid) (v : Value) : bool :=
  dynamic id ||
  match primitive id with
  | Some (wanted, _) => value_tag v =? wanted
  | None =>
      if bool_decide (id = OPTION_ID) then value_tag v =? TYPE_OPTION
      else match typed_array_element id with
      | Some element => match array_shape v with Some (t, _) => t =? element | None => false end
      | None =>
          match v with
          | Value.Structure s => bool_decide (st_id s = id)
          | Value.Enumeration e => bool_decide (en_id e = id)
          | _ => false
          end
      end
  end.
Definition is_array_of (id : Uuid) (len : option nat) (v : Value) : bool :=
  match array_shape v with
  | None => false
  | Some (element, count) =>
      match len with Some len => (len =? count)%nat | None => true end
      && (dynamic id
          || match v with
             | Value.ArrayValue l => forallb (is_of id) l
             | Value.ArrayStructure record _ | Value.ArrayEnumeration record _ => names_a_record id && bool_decide (record = id)
             | _ => match primitive id with Some (wanted, _) => wanted =? element | None => false end
             end)
  end.
Definition is_argument (ty : TypeRef) (v : Value) : bool :=
  match ty with
  | TypeRef.Scalar id => is_of id v
  | TypeRef.Array id => is_array_of id None v
  | TypeRef.FixedArray id len => is_array_of id (Some len) v
  | TypeRef.Map_ _ _ => value_tag v =? TYPE_MAP
  | TypeRef.Option id =>
      match v with
      | Value.Option None => true
      | Value.Option (Some v) => is_of id v
      | _ => is_of id v
      end
  end.
(** A call's first field that no parameter, or its parameter's type, takes; [unit] passes for any. *)
Inductive Wrong := Undeclared (field : Uuid) | Mistyped (parameter : Param).
Fixpoint first_wrong (signature : Signature) (fields : list StructureField) : option Wrong :=
  match fields with
  | [] => None
  | f :: fields =>
      match sg_parameters signature !! sf_id f with
      | None => Some (Undeclared (sf_id f))
      | Some p =>
          if (value_tag (sf_value f) =? TYPE_UNIT) || is_argument (pa_ty p) (sf_value f) then first_wrong signature fields
          else Some (Mistyped p)
      end
  end.
Definition reports (signature : Signature) (r : result ArgumentError unit) (w : option Wrong) : Prop :=
  match r, w with
  | Ok _, None => True
  | Err (NoParameter name field), Some (Undeclared field') => name = sg_name signature ∧ field = field'
  | Err (NotOfType parameter name _), Some (Mistyped p) => name = sg_name signature ∧ parameter = pa_name p
  | _, _ => False
  end.
