(* ===== verification/ArgumentChecks.v ===== *)
(** * The in-place check of a call's arguments is a check of their values

    [check] reads tags where they lie; here it answers as the values the decoder
    reads out of the same bytes are of their parameters' types, and no read of
    its ever leaves the buffer. *)

From S2P Require Import Prelude Values Extern Writer Reader Froto Types WellFormed GuestArguments.

Section Checks.
Context `{BL : BytesLaws} `{UL : UuidLaws} (usize_max : Z).
Abbreviation W A := (SE Walk walk_error A).
Abbreviation R A := (SE BufferReader panic A).

(** ** A walk of a part of a buffer is a walk of the whole *)
Definition extends {A} (wa wb : W A) : Prop := ∀ b rest at_ a w,
  wa (mkWalk b at_) = Ok (a, w) → walk_buffer w = b ∧ wb (mkWalk (b ++ rest) at_) = Ok (a, mkWalk (b ++ rest) (walk_at w)).
Lemma check_bind_ok {S E A B} (m : SE S E A) (k : A → SE S E B) s b s' :
  se_bind m k s = Ok (b, s') → ∃ a s1, m s = Ok (a, s1) ∧ k a s1 = Ok (b, s').
Proof. unfold se_bind. destruct (m s) as [[a s1]|]; [eauto|done]. Qed.
Lemma extends_ret {A} (a : A) : extends (se_ret a) (se_ret a).
Proof. by intros b rest at_ a' w [= <- <-]. Qed.
Lemma extends_fail {A} e (wb : W A) : extends (se_fail e) wb.
Proof. by intros b rest at_ a w ?. Qed.
Lemma extends_bind {A B} (wa wb : W A) (ka kb : A → W B) :
  extends wa wb → (∀ a, extends (ka a) (kb a)) → extends (se_bind wa ka) (se_bind wb kb).
Proof.
  intros Hm Hk b rest at_ a w (x & [b1 at1] & E & Ek)%check_bind_ok. destruct (Hm _ rest _ _ _ E) as [Hb E']. cbn in Hb. subst b1.
  destruct (Hk x _ rest _ _ _ Ek) as [Hw Ek']. split; [done|]. unfold se_bind. by rewrite E'.
Qed.
Lemma extends_take n : extends (take_ usize_max n) (take_ usize_max n).
Proof.
  intros b rest at_ a w. rewrite !take_spec. cbn [walk_at walk_buffer]. rewrite length_app.
  destruct (bool_decide_reflect (at_ + n ≤ length b)%nat) as [Hn|]; [|done]. rewrite bool_decide_true by lia. cbn.
  destruct (_ <=? usize_max); [|done]. intros [= <- <-]. split; [done|]. cbn. do 2 f_equal.
  rewrite drop_app_le by lia. rewrite take_app_le; [done|]. rewrite length_drop. lia.
Qed.
Lemma extends_loop n (wa wb : W unit) : extends wa wb → extends (se_loop n wa) (se_loop n wb).
Proof. intros Hm. induction n as [|n IH]; cbn [se_loop]; [apply extends_ret|]. by apply extends_bind. Qed.
Create HintDb walks.
#[local] Hint Resolve extends_ret extends_fail extends_take extends_loop : walks.
Ltac walks := repeat first [solve [auto with walks] | apply extends_bind; [|intros] | case_match].
Lemma extends_skip n : extends (skip usize_max n) (skip usize_max n).
Proof. unfold skip. walks. Qed.
Lemma extends_u8 : extends (walk_u8 usize_max) (walk_u8 usize_max).
Proof. unfold walk_u8. walks. Qed.
Lemma extends_u32 : extends (walk_u32 usize_max) (walk_u32 usize_max).
Proof. unfold walk_u32. walks. Qed.
Lemma extends_align : extends (walk_align usize_max) (walk_align usize_max).
Proof. intros b rest at_. apply extends_skip. Qed.
#[local] Hint Resolve extends_skip extends_u8 extends_u32 extends_align : walks.
Lemma extends_string : extends (walk_string usize_max) (walk_string usize_max).
Proof. unfold walk_string. apply extends_bind; [walks|]. intros n b rest at_. apply extends_bind; [walks|]. intros bs. destruct (utf8_valid bs); walks. Qed.
#[local] Hint Resolve extends_string : walks.
Section Nested.
Context (wa wb : W unit) (Hn : extends wa wb).
#[local] Hint Resolve Hn : walks.
Lemma extends_fields : extends (walk_fields usize_max wa) (walk_fields usize_max wb).
Proof. unfold walk_fields. apply extends_bind; [walks|]. intros n. apply extends_loop. walks. Qed.
#[local] Hint Resolve extends_fields : walks.
Lemma extends_array : extends (walk_array usize_max wa) (walk_array usize_max wb).
Proof.
  unfold walk_array. apply extends_bind; [walks|]. intros ty. apply extends_bind; [walks|]. intros n.
  walks; apply extends_loop; walks.
Qed.
#[local] Hint Resolve extends_array : walks.
Lemma extends_kind at_ k : extends (walk_kind usize_max wa at_ k) (walk_kind usize_max wb at_ k).
Proof. unfold walk_kind. walks. apply extends_loop. walks. Qed.
End Nested.
Lemma extends_value n m : (n ≤ m)%nat → extends (walk_value usize_max n) (walk_value usize_max m).
Proof.
  revert m. induction n as [|n IH]; intros [|m] Hm; try lia; [apply extends_fail..|].
  intros b rest at_. cbn [walk_value]. apply extends_bind; [walks|]. intros k. apply extends_kind, IH. lia.
Qed.

(** ** Reads in place *)
Context (whole : list byte).
Lemma bytes_at n at_ r' bs : take_front n (reader_at whole at_) = Ok (bs, r') →
  (n ≤ length (drop at_ whole))%nat ∧ bs = take n (drop at_ whole) ∧ r' = reader_at whole (at_ + n).
Proof.
  rewrite take_front_spec. cbn [reader_at backing buffer_len]. destruct (Nat.ltb_spec (length (drop at_ whole)) n); [done|].
  intros [= <- <-]. split; [done|]. split; [done|]. unfold reader_at. by rewrite drop_drop.
Qed.
Lemma get_at n decode get at_ z r' : (∀ b, get b = get_spec n decode b) → buf_get get (reader_at whole at_) = Ok (z, r') →
  (n ≤ length (drop at_ whole))%nat ∧ z = decode (le_Z (take n (drop at_ whole))) ∧ r' = reader_at whole (at_ + n).
Proof.
  intros Hget. rewrite (buf_get_spec n decode) by done. cbn [reader_at backing buffer_len].
  destruct (Nat.ltb_spec (length (drop at_ whole)) n); [done|]. intros [= <- <-]. split; [done|]. split; [done|].
  unfold reader_at. by rewrite drop_drop.
Qed.
Lemma range_at at_ n : (n ≤ length (drop at_ whole))%nat → n ≠ 0%nat → range whole at_ n = Ok (take n (drop at_ whole)).
Proof. rewrite length_drop. intros Hn ?. unfold range. by rewrite (proj2 (Nat.leb_le _ _)) by lia. Qed.
Lemma le_byte b l : le_Z (take 1 (b :: l)) = byte_Z b.
Proof. change (byte_Z b + 256 * 0 = byte_Z b). lia. Qed.
Lemma tag_at at_ : (1 ≤ length (drop at_ whole))%nat → tag whole at_ = Ok (le_Z (take 1 (drop at_ whole))).
Proof.
  intros Hn. unfold tag. destruct (drop at_ whole) as [|b l] eqn:E; [cbn in Hn; lia|].
  assert (whole !! at_ = Some b) as -> by (by rewrite <- (Nat.add_0_r at_), <- lookup_drop, E).
  by rewrite le_byte.
Qed.
Lemma u8_read at_ z r' : r_u8 (reader_at whole at_) = Ok (z, r') → tag whole at_ = Ok z ∧ r' = reader_at whole (at_ + 1).
Proof. intros (Hn & -> & ->)%(get_at 1 id); [|apply get_u8_spec]. split; [by apply tag_at|done]. Qed.
Lemma u32_read at_ z r' : buf_get get_u32_le (reader_at whole at_) = Ok (z, r') → u32_at whole at_ = Ok (Z.to_nat z) ∧ r' = reader_at whole (at_ + 4).
Proof.
  intros (Hn & -> & ->)%(get_at 4 id); [|apply get_u32_le_spec]. split; [|done]. unfold u32_at. by rewrite range_at by lia || done.
Qed.
Lemma id_read at_ bs r1 r2 u r' : take_front 16 (reader_at whole at_) = Ok (bs, r1) → uuid_unwrap bs r2 = Ok (u, r') →
  id_at whole at_ = Ok u ∧ r1 = reader_at whole (at_ + 16) ∧ r' = r2.
Proof.
  intros (Hn & -> & ->)%bytes_at Hu. unfold uuid_unwrap in Hu. unfold id_at. rewrite range_at by lia || done. cbn [mbind result_bind].
  destruct (from_slice _); [|done]. by injection Hu as <- <-.
Qed.
Lemma next_read at_ k r' : next_type (reader_at whole at_) = Ok (Some k, r') → tag whole at_ = Ok k ∧ r' = reader_at whole (at_ + 1).
Proof.
  rewrite next_type_spec. cbn [reader_at backing buffer_len]. destruct (drop at_ whole) as [|b l] eqn:E; [done|]. intros [= <- <-].
  split; [|unfold reader_at; by rewrite <- drop_drop, E]. rewrite tag_at; rewrite E; [by rewrite le_byte|cbn; lia].
Qed.
Lemma repeat_length {S E A} n (m : SE S E A) s l s' : se_repeat n m s = Ok (l, s') → length l = n.
Proof.
  revert s l. induction n as [|n IH]; intros s l; cbn [se_repeat]; [by intros [= <- _]|].
  intros (a & s1 & _ & (l1 & s2 & El & [= <- <-])%check_bind_ok)%check_bind_ok. cbn. f_equal. by eapply IH.
Qed.

(** ** What lies at an offset *)
Definition decodes (at_ : nat) (v : Value) (end_ : nat) : Prop := ∃ n size, (n ≤ MAX_DEPTH)%nat ∧ (size ≤ length whole)%nat ∧
  walk_value usize_max n (mkWalk (take size whole) at_) = Ok (tt, mkWalk (take size whole) end_) ∧
  deserialize_fuel n (reader_at whole at_) = Ok (v, reader_at whole end_).
Fixpoint fields_at (at_ : nat) (l : list StructureField) : Prop :=
  match l with
  | [] => True
  | f :: l => id_at whole at_ = Ok (sf_id f) ∧ ∃ next, decodes (at_ + 16) (sf_value f) next ∧ fields_at next l
  end.
Fixpoint values_at (at_ : nat) (l : list Value) : Prop :=
  match l with
  | [] => True
  | v :: l => ∃ next, decodes at_ v next ∧ values_at next l
  end.
Lemma decodes_end at_ v end_ : decodes at_ v end_ → end_of usize_max whole at_ = Ok end_.
Proof.
  intros (n & size & Hn & Hs & Hw & _). destruct (extends_value n MAX_DEPTH Hn _ (drop size whole) _ _ _ Hw) as [_ E].
  rewrite take_drop in E. unfold end_of, value_end. by rewrite E.
Qed.
(** A walk's step over a value, and the value decoded there *)
Lemma walk_decodes n size at_ w : (n ≤ MAX_DEPTH)%nat → (size ≤ length whole)%nat →
  walk_value usize_max n (mkWalk (take size whole) at_) = Ok (tt, w) →
  ∃ v end_, w = mkWalk (take size whole) end_ ∧ decodes at_ v end_ ∧ deserialize_fuel n (reader_at whole at_) = Ok (v, reader_at whole end_).
Proof.
  intros Hn Hs Hw. destruct (extends_value n n ltac:(lia) _ [] _ _ _ Hw) as [Hb _]. destruct w as [b end_]. cbn in Hb. subst b.
  pose proof (walk_value_within usize_max _ _ _ Hw) as Hin. cbn in Hin. rewrite length_take in Hin.
  pose proof (sim_value usize_max n false whole _ _ (at_same_start usize_max false size at_ whole ltac:(lia) Hs ltac:(done))) as Hm.
  rewrite Hw in Hm. destruct Hm as (v & [bk bl] & Hr & _ & [_ _ Hb Hl _]). cbn in Hb, Hl. subst bk bl. fold (reader_at whole end_) in Hr.
  exists v, end_. split_and!; [done| |done]. by exists n, size.
Qed.

Section Loops.
Context (n size : nat) (Hn : (n ≤ MAX_DEPTH)%nat) (Hsize : (size ≤ length whole)%nat).
Lemma values_steps count at_ w l r : se_loop count (walk_value usize_max n) (mkWalk (take size whole) at_) = Ok (tt, w) →
  se_repeat count (deserialize_fuel n) (reader_at whole at_) = Ok (l, r) → values_at at_ l.
Proof.
  revert at_ l r. induction count as [|count IH]; intros at_ l r; cbn [se_loop se_repeat]; [by intros _ [= <- _]|].
  intros ([] & w1 & Hw & Hl)%check_bind_ok. destruct (walk_decodes n size at_ w1) as (v & end_ & -> & Hd & Ev); [done..|].
  intros (v' & r1 & Ev' & (l1 & r2 & El & [= <- _])%check_bind_ok)%check_bind_ok. rewrite Ev in Ev'. injection Ev' as <- <-.
  exists end_. split; [done|]. by apply (IH end_ _ r2).
Qed.
Lemma skip_at at_ k w : skip usize_max k (mkWalk (take size whole) at_) = Ok (tt, w) → w = mkWalk (take size whole) (at_ + k).
Proof. unfold skip, se_bind. rewrite take_spec. cbn. by destruct (_ && _); [intros [= <-]|]. Qed.
Lemma field_read at_ f r : read_structure_field (deserialize_fuel n) (reader_at whole at_) = Ok (f, r) →
  id_at whole at_ = Ok (sf_id f) ∧ deserialize_fuel n (reader_at whole (at_ + 16)) = Ok (sf_value f, r).
Proof.
  intros (bs & r1 & Ebs & (u & r2 & Eu & (v & r3 & Ev & [= <- <-])%check_bind_ok)%check_bind_ok)%check_bind_ok.
  destruct (id_read _ _ _ _ _ _ Ebs Eu) as (Hid & -> & ->). done.
Qed.
Lemma fields_steps count at_ w l r : se_loop count (skip usize_max 16 ;; walk_value usize_max n) (mkWalk (take size whole) at_) = Ok (tt, w) →
  se_repeat count (read_structure_field (deserialize_fuel n)) (reader_at whole at_) = Ok (l, r) → fields_at at_ l.
Proof.
  revert at_ l r. induction count as [|count IH]; intros at_ l r; cbn [se_loop se_repeat]; [by intros _ [= <- _]|].
  intros ([] & w1 & ([] & w2 & ->%skip_at & Hw)%check_bind_ok & Hl)%check_bind_ok.
  destruct (walk_decodes n size (at_ + 16) w1) as (v & end_ & -> & Hd & Ev); [done..|].
  intros (f & r1 & [Hid Ef]%field_read & (l1 & r2 & El & [= <- _])%check_bind_ok)%check_bind_ok. rewrite Ev in Ef. injection Ef as -> <-.
  split; [done|]. exists end_. split; [done|]. by apply (IH end_ _ r2).
Qed.
End Loops.

(** What is read where a value's tag is, and after it *)
Definition laid_out (at_ : nat) (v : Value) : Prop :=
  match v with
  | Value.Structure s => id_at whole (at_ + 1) = Ok (st_id s) ∧ u32_at whole (at_ + 17) = Ok (length (st_fields s)) ∧ fields_at (at_ + 21) (st_fields s)
  | Value.Enumeration e => id_at whole (at_ + 1) = Ok (en_id e)
  | Value.Option None => tag whole (at_ + 1) = Ok 0
  | Value.Option (Some v) => ∃ p end_, tag whole (at_ + 1) = Ok p ∧ p ≠ 0 ∧ decodes (at_ + 2) v end_
  | Value.ArrayValue l => values_at (at_ + 6) l
  | Value.ArrayStructure id _ | Value.ArrayEnumeration id _ => id_at whole (at_ + 6) = Ok id
  | _ => True
  end ∧
  match array_shape v with
  | Some (element, count) => value_tag v = TYPE_ARRAY ∧ tag whole (at_ + 1) = Ok element ∧ u32_at whole (at_ + 2) = Ok count
  | None => value_tag v ≠ TYPE_ARRAY
  end.

Section Kinds.
Context (n size : nat) (Hn : (n ≤ MAX_DEPTH)%nat) (Hsize : (size ≤ length whole)%nat).
Abbreviation nested := (walk_value usize_max n).
Abbreviation walk_from at_ := (mkWalk (take size whole) at_).

(** A primitive's bytes say nothing of where it lies but its tag. *)
Ltac plain := let H := fresh in intros H; apply check_bind_ok in H as (? & ? & ? & [= <- _]); by split_and!.
Lemma walk_u32_at at_ c w : walk_u32 usize_max (walk_from at_) = Ok (c, w) → w = walk_from (at_ + 4) ∧ u32_at whole at_ = Ok c.
Proof.
  clear Hn. intros (bs & w1 & Et & [= <- <-])%check_bind_ok. destruct (extends_take 4 _ (drop size whole) _ _ _ Et) as [Hb Et']. rewrite take_drop in Et'.
  rewrite take_spec in Et, Et'. cbn [walk_at walk_buffer] in *. destruct (_ && _) in Et; [|done]. injection Et as _ <-. split; [done|].
  destruct (bool_decide_reflect (at_ + 4 ≤ length whole)%nat); [|done]. destruct (_ <=? usize_max) in Et'; [|done]. injection Et' as <-.
  unfold u32_at. rewrite range_at; [done|rewrite length_drop; lia|done].
Qed.
Lemma walk_u8_at at_ k w : walk_u8 usize_max (walk_from at_) = Ok (k, w) → w = walk_from (at_ + 1) ∧ tag whole at_ = Ok k.
Proof.
  clear Hn. intros (bs & w1 & Et & [= <- <-])%check_bind_ok. destruct (extends_take 1 _ (drop size whole) _ _ _ Et) as [Hb Et']. rewrite take_drop in Et'.
  rewrite take_spec in Et, Et'. cbn [walk_at walk_buffer] in *. destruct (_ && _) in Et; [|done]. injection Et as _ <-. split; [done|].
  destruct (bool_decide_reflect (at_ + 1 ≤ length whole)%nat); [|done]. destruct (_ <=? usize_max) in Et'; [|done]. injection Et' as <-.
  apply tag_at. rewrite length_drop. lia.
Qed.
Lemma array_laid_out at_ v w r : walk_array usize_max nested (walk_from (at_ + 1)) = Ok (tt, w) →
  read_array (deserialize_fuel n) (reader_at whole (at_ + 1)) = Ok (v, r) → TYPE_ARRAY = value_tag v ∧ laid_out at_ v.
Proof.
  intros (ty & w1 & Ety & Hw)%check_bind_ok. apply walk_u8_at in Ety as [-> Ety].
  apply check_bind_ok in Hw as (count & w2 & Ec & Hw). apply walk_u32_at in Ec as [-> Ec].
  unfold read_array. intros ([ty' z] & r1 & Hr & (? & r2 & Ha & Hv)%check_bind_ok)%check_bind_ok.
  apply check_bind_ok in Hr as (t & r3 & Et & (c & r4 & Ec' & [= <- <- <-])%check_bind_ok).
  apply u8_read in Et as [Et ->]. apply u32_read in Ec' as [Ec' ->]. rewrite Ety in Et. injection Et as <-.
  replace (at_ + 1 + 1)%nat with (at_ + 2)%nat in * by lia. rewrite Ec in Ec'. injection Ec' as ->. cbv zeta in Hv.
  assert (∀ v, value_tag v = TYPE_ARRAY → array_shape v = Some (ty, Z.to_nat c) →
    match v with Value.ArrayValue l => values_at (at_ + 6) l | Value.ArrayStructure id _ | Value.ArrayEnumeration id _ => id_at whole (at_ + 6) = Ok id | _ => True end →
    TYPE_ARRAY = value_tag v ∧ laid_out at_ v) as Hfin.
  { intros v' Htag Hshape Hrest. split; [done|]. unfold laid_out. rewrite Hshape. split; [by destruct v'|done]. }
  assert (∀ A (m : R A) (f : list A → Value), (∀ l, value_tag (f l) = TYPE_ARRAY ∧ array_shape (f l) = Some (ty, length l)) →
    (∀ l, match f l with Value.ArrayValue _ | Value.ArrayStructure _ _ | Value.ArrayEnumeration _ _ => False | _ => True end) →
    (let* v := se_repeat (Z.to_nat c) m in se_ret (f v)) r2 = Ok (v, r) → TYPE_ARRAY = value_tag v ∧ laid_out at_ v) as Hprim.
  { intros A m f Hf Hno (l & r5 & El & [= <- _])%check_bind_ok. destruct (Hf l) as [Htag Hshape]. apply Hfin; [done| |].
    - by rewrite Hshape, (repeat_length _ _ _ _ _ El).
    - specialize (Hno l). by destruct (f l). }
  repeat match type of Hv with (if ty =? ?T then (let* v := se_repeat _ ?m in se_ret (?f v)) else _) _ = _ =>
    lazymatch T with TYPE_VALUE => fail | _ => idtac end;
    destruct (Z.eqb_spec ty T) as [->|?]; [revert Hv; apply (Hprim _ m f); by intros|] end.
  assert (is_primitive_array ty = false) as Hpa.
  { unfold is_primitive_array. apply bool_decide_eq_false. rewrite !elem_of_cons, elem_of_nil. intuition congruence. }
  rewrite Hpa in Ha. injection Ha as Ha. subst r2. unfold get_structure_field in Hv.
  destruct (Z.eqb_spec ty TYPE_STRUCTURE) as [->|?]; [|destruct (Z.eqb_spec ty TYPE_ENUMERATION) as [->|?]].
  1,2: apply check_bind_ok in Hv as (bs & r5 & Ebs & (l & r6 & El & (u & r7 & Eu & [= <- _])%check_bind_ok)%check_bind_ok);
    destruct (id_read _ _ _ _ _ _ Ebs Eu) as (Hid & _ & _); apply Hfin; [done|cbn; by rewrite (repeat_length _ _ _ _ _ El)|];
    by replace (at_ + 6)%nat with (at_ + 2 + 4)%nat by lia.
  destruct (Z.eqb_spec ty TYPE_VALUE) as [->|?]; [|done].
  apply check_bind_ok in Hv as (l & r5 & El & [= <- _]). apply Hfin; [done|cbn; by rewrite (repeat_length _ _ _ _ _ El)|].
  change (se_loop (Z.to_nat c) nested (walk_from (at_ + 2 + 4)) = Ok (tt, w)) in Hw. replace (at_ + 2 + 4)%nat with (at_ + 6)%nat in * by lia.
  by eapply values_steps.
Qed.
(** A value's kind, its nested values and what lies where *)
Lemma kind_laid_out at_ k v w r : walk_kind usize_max nested at_ k (walk_from (at_ + 1)) = Ok (tt, w) →
  read_kind (deserialize_fuel n) (Some k) (reader_at whole (at_ + 1)) = Ok (v, r) → k = value_tag v ∧ laid_out at_ v.
Proof.
  intros Hw. unfold read_kind.
  destruct (Z.eqb_spec k TYPE_UNIT) as [->|?]; [by intros [= <- _]|].
  repeat match goal with |- (if k =? ?T then (let* v := _ in se_ret (_ v)) else _) _ = _ → _ =>
    destruct (Z.eqb_spec k T) as [->|?]; [plain|] end.
  destruct (Z.eqb_spec k TYPE_STRUCTURE) as [->|?].
  { change ((skip usize_max 16 ;; walk_fields usize_max nested) (walk_from (at_ + 1)) = Ok (tt, w)) in Hw.
    apply check_bind_ok in Hw as ([] & w1 & ->%skip_at & (count & w2 & Ec & Hw)%check_bind_ok). apply walk_u32_at in Ec as [-> Ec].
    intros ([id z] & r1 & (bs & r2 & Ebs & (c & r3 & Ez & [= <- <- <-])%check_bind_ok)%check_bind_ok & (l & r4 & El & (u & r5 & Eu & [= <- _])%check_bind_ok)%check_bind_ok)%check_bind_ok.
    destruct (id_read _ _ _ _ _ _ Ebs Eu) as (Hid & -> & _). apply u32_read in Ez as [Ez ->].
    rewrite Ez in Ec. injection Ec as <-. pose proof (repeat_length _ _ _ _ _ El) as Hlen. pose proof (fields_steps _ _ Hn Hsize _ _ _ _ _ Hw El) as Hf.
    replace (at_ + 1 + 16 + 4)%nat with (at_ + 21)%nat in Hf by lia. replace (at_ + 1 + 16)%nat with (at_ + 17)%nat in Ez by lia.
    split; [done|]. split; [|done]. cbn. by rewrite Hlen. }
  destruct (Z.eqb_spec k TYPE_ENUMERATION) as [->|?].
  { unfold get_structure_field.
    intros (bs & r1 & Ebs & (bs' & r2 & Ebs' & (u & r3 & Eu & (u' & r4 & Eu' & (x & r5 & Ex & [= <- _])%check_bind_ok)%check_bind_ok)%check_bind_ok)%check_bind_ok)%check_bind_ok.
    destruct (id_read _ _ _ _ _ _ Ebs Eu) as (Hid & _ & _). by split_and!. }
  destruct (Z.eqb_spec k TYPE_ARRAY) as [->|?]; [intros Hr; by apply (array_laid_out _ _ w r)|].
  destruct (Z.eqb_spec k TYPE_OPTION) as [->|?].
  { change ((let* present := walk_u8 usize_max in if present =? 0 then se_ret tt else nested) (walk_from (at_ + 1)) = Ok (tt, w)) in Hw.
    apply check_bind_ok in Hw as (p & w1 & Ep & Hw). apply walk_u8_at in Ep as [-> Ep].
    intros (present & r1 & (p' & r2 & Ep' & [= <- <-])%check_bind_ok & Hv)%check_bind_ok. apply u8_read in Ep' as [Ep' ->].
    rewrite Ep in Ep'. injection Ep' as <-. replace (at_ + 1 + 1)%nat with (at_ + 2)%nat in * by lia. destruct (Z.eqb_spec p 0) as [->|?]; cbn [negb] in Hv.
    - injection Hv as <- _. by split_and!.
    - apply check_bind_ok in Hv as (x & r3 & Ex & [= <- _]). destruct (walk_decodes n size (at_ + 2) w) as (x' & end_ & _ & Hd & Ex'); [done..|].
      rewrite Ex in Ex'. injection Ex' as <- _. split; [done|]. split; [|done]. by exists p, end_. }
  destruct (Z.eqb_spec k TYPE_UUID) as [->|?].
  { intros (bs & r1 & _ & (u & r2 & _ & [= <- _])%check_bind_ok)%check_bind_ok. by split_and!. }
  destruct (Z.eqb_spec k TYPE_MAP) as [->|?]; [|done].
  intros ([id z] & r1 & _ & (u & r2 & _ & (kv & r3 & _ & [= <- _])%check_bind_ok)%check_bind_ok)%check_bind_ok. by split_and!.
Qed.
End Kinds.

Lemma decodes_laid_out at_ v end_ : decodes at_ v end_ → tag whole at_ = Ok (value_tag v) ∧ laid_out at_ v.
Proof.
  intros (n & size & Hn & Hsize & Hw & Hr). destruct n as [|n]; [done|]. cbn [walk_value deserialize_fuel] in Hw, Hr.
  apply check_bind_ok in Hw as (k & w1 & Ek & Hw). apply walk_u8_at in Ek as [-> Ek]; [|done].
  apply check_bind_ok in Hr as (k' & r1 & Ek' & Hr). destruct k' as [k'|]; [|done].
  apply next_read in Ek' as [Ek' ->]. rewrite Ek in Ek'. injection Ek' as <-.
  destruct (kind_laid_out n size ltac:(lia) Hsize at_ k v _ _ Hw Hr) as [-> Hl]. done.
Qed.

(** ** The check, value by value *)
Definition decides (r : result Reason unit) (b : bool) : Prop :=
  match r with Ok _ => b = true | Err Panics => False | Err _ => b = false end.
Lemma expect_decides at_ v end_ wanted name : decodes at_ v end_ → decides (expect whole at_ wanted name) (value_tag v =? wanted).
Proof. intros [Ht _]%decodes_laid_out. unfold expect. rewrite Ht. cbn. by destruct (_ =? _). Qed.
Lemma tag_array v : value_tag v = TYPE_ARRAY ↔ is_Some (array_shape v).
Proof. split; destruct v; try done; try (intros [? ?]; done); by eexists. Qed.
Lemma scalar_decides at_ v end_ id : decodes at_ v end_ → decides (scalar whole at_ id) (is_of id v).
Proof.
  intros Hd. pose proof (decodes_laid_out _ _ _ Hd) as (Ht & Hl & Ha). unfold scalar, is_of. destruct (dynamic id); [done|].
  destruct (primitive id) as [[wanted name]|]; [by eapply expect_decides|]. destruct (bool_decide (id = OPTION_ID)); [by eapply expect_decides|].
  destruct (typed_array_element id) as [element|].
  - unfold expect. rewrite Ht. cbn [mbind result_bind]. destruct (array_shape v) as [[t count]|] eqn:Es.
    + destruct Ha as (-> & -> & _). cbn. by destruct (t =? element).
    + destruct (Z.eqb_spec (value_tag v) TYPE_ARRAY); [done|]. by cbn.
  - rewrite Ht. cbn [mbind result_bind]. destruct v; try done; cbn in *.
    + destruct Hl as (-> & _). cbn. by destruct (bool_decide _).
    + rewrite Hl. cbn. by destruct (bool_decide _).
Qed.
Lemma elements_decides l at_ id : values_at at_ l → decides (elements usize_max whole (length l) at_ id) (forallb (is_of id) l).
Proof.
  revert at_. induction l as [|v l IH]; intros at_; [done|]. intros (next & Hd & Hl). cbn [length elements forallb].
  pose proof (scalar_decides _ _ _ id Hd) as Hs. destruct (scalar whole at_ id) as [[]|reason]; cbn [mbind result_bind].
  - cbn in Hs. rewrite Hs, (decodes_end _ _ _ Hd). cbn. by apply IH.
  - destruct reason; cbn in *; by rewrite ?Hs.
Qed.
Lemma array_decides at_ v end_ id len : decodes at_ v end_ → decides (array usize_max whole at_ id len) (is_array_of id len v).
Proof.
  intros Hd. pose proof (decodes_laid_out _ _ _ Hd) as (Ht & Hl & Ha). unfold array, is_array_of, expect. rewrite Ht. cbn [mbind result_bind].
  destruct (array_shape v) as [[element count]|] eqn:Es; [|by destruct (Z.eqb_spec (value_tag v) TYPE_ARRAY)].
  destruct Ha as (-> & -> & ->). cbn [mbind result_bind].
  change (TYPE_ARRAY =? TYPE_ARRAY) with true. cbn [mbind result_bind].
  assert (decides (if dynamic id then Ok tt
      else if element =? TYPE_VALUE then elements usize_max whole count (at_ + 6) id
      else if (element =? TYPE_STRUCTURE) || (element =? TYPE_ENUMERATION) then
        record ← id_at whole (at_ + 6);
        if names_a_record id && bool_decide (record = id) then Ok tt else Err (ExpectedNotRecords (describe id) record)
      else match primitive id with
      | Some (wanted, _) => if wanted =? element then Ok tt else Err (ExpectedArrayOf (tag_name wanted) (tag_name element))
      | None => Err (ExpectedRecords id (tag_name element))
      end)
    (dynamic id || match v with
             | Value.ArrayValue l => forallb (is_of id) l
             | Value.ArrayStructure record _ | Value.ArrayEnumeration record _ => names_a_record id && bool_decide (record = id)
             | _ => match primitive id with Some (wanted, _) => wanted =? element | None => false end
             end)) as Hrest.
  { destruct (dynamic id); [done|]. cbn [orb].
    destruct v; try done; injection Es as <- <-; cbn [Z.eqb orb TYPE_VALUE TYPE_STRUCTURE TYPE_ENUMERATION TYPE_BOOLEAN];
    try (by apply elements_decides);
    try (rewrite Hl; cbn; by destruct (names_a_record id && bool_decide _));
    destruct (primitive id) as [[wanted name]|]; try done; cbn; by destruct (wanted =? _). }
  destruct len as [len|]; [|exact Hrest]. destruct (decide (len = count)) as [->|Hne].
  - by rewrite Nat.eqb_refl.
  - by rewrite (proj2 (Nat.eqb_neq _ _)).
Qed.
Lemma argument_decides at_ v end_ ty : decodes at_ v end_ → decides (argument usize_max whole at_ ty) (is_argument ty v).
Proof.
  intros Hd. destruct ty as [id|id|id len|k x|id]; cbn [argument is_argument];
    [by eapply scalar_decides|by eapply array_decides..|by eapply expect_decides|].
  pose proof (decodes_laid_out _ _ _ Hd) as (Ht & Hl & Ha). rewrite Ht. cbn [mbind result_bind].
  destruct (Z.eqb_spec (value_tag v) TYPE_OPTION) as [E|E]; [|destruct v; try done; by eapply scalar_decides].
  destruct v; try done. destruct o as [x|]; cbn in Hl.
  - destruct Hl as (p & end' & -> & Hp & Hx). cbn [mbind result_bind]. rewrite (proj2 (Z.eqb_neq _ _)) by done. by eapply scalar_decides.
  - by rewrite Hl.
Qed.
Lemma fields_reports signature l at_ : fields_at at_ l → reports signature (check_fields usize_max whole signature (length l) at_) (first_wrong signature l).
Proof.
  revert at_. induction l as [|f l IH]; intros at_; [done|]. intros (Hid & next & Hd & Hl). cbn [length check_fields first_wrong].
  rewrite Hid. cbn [panicking mbind result_bind]. destruct (sg_parameters signature !! sf_id f) as [p|]; [|done].
  pose proof (decodes_laid_out _ _ _ Hd) as (Ht & _). rewrite Ht. cbn [panicking mbind result_bind].
  pose proof (argument_decides _ _ _ (pa_ty p) Hd) as Ha.
  destruct (value_tag (sf_value f) =? TYPE_UNIT); cbn [orb mbind result_bind].
  { rewrite (decodes_end _ _ _ Hd). by apply IH. }
  destruct (argument _ _ _ _) as [[]|reason]; cbn [mbind result_bind].
  - cbn in Ha. rewrite Ha, (decodes_end _ _ _ Hd). by apply IH.
  - destruct reason; cbn in Ha |- *; by rewrite ?Ha.
Qed.
End Checks.

(** C21. A call's arguments checked in place, against what its guest's header
    declares, are checked as the values they decode to: the check never reads
    out of the buffer; it passes a function the header does not declare, a
    buffer that is no call, and a call precisely when each of its fields is of
    its parameter's type or [unit], and else names the first that is not. *)
Theorem check_is_of_values `{BL : BytesLaws} `{UL : UuidLaws} usize_max (arg : list byte) (signatures : Signatures) (function : Uuid) :
  match signatures !! function, well_formed usize_max arg with
  | Some signature, Ok _ => ∃ v, deserialize arg = Ok v ∧
      match v with
      | Value.Structure s => reports signature (check usize_max arg signatures function) (first_wrong signature (st_fields s))
      | _ => check usize_max arg signatures function = Ok tt
      end
  | _, _ => check usize_max arg signatures function = Ok tt
  end.
Proof.
  unfold check. destruct (signatures !! function) as [signature|]; [|done]. destruct (well_formed usize_max arg) as [[]|] eqn:Ew; [|done].
  apply well_formed_prefix in Ew as (size & w & Hsz & Hw). pose proof (prefix_size_bounds _ _ Hsz) as Hle.
  destruct (walk_decodes usize_max arg MAX_DEPTH size _ w ltac:(done) ltac:(lia) Hw) as (v & end_ & _ & Hd & Ev).
  exists v. split; [eapply deserialize_of_fuel; [lia|exact Ev]|].
  pose proof (decodes_laid_out _ _ _ _ _ Hd) as (Ht & Hl & _). rewrite Ht. cbn [panicking mbind result_bind].
  destruct (Z.eqb_spec (value_tag v) TYPE_STRUCTURE) as [E|E]; cbn [negb]; [|by destruct v].
  destruct v; try done. destruct Hl as (_ & Hc & Hf). rewrite Hc. cbn [panicking mbind result_bind]. by apply fields_reports.
Qed.

(** ** A guest that says a text some times, and calls to it *)
Definition say : ExportFunction := mkExport 0x70 "say"
  [mkParam 0x71 "text" (TypeRef.Scalar STRING_ID) false None; mkParam 0x72 "times" (TypeRef.Option U32_ID) false None;
   mkParam 0x73 "gains" (TypeRef.FixedArray F32_ID 2) false None] (TypeRef.Scalar UNIT_ID).
Definition speaker : Signatures := signatures_of (mkHeader 0x7 "wasm" [say]).
Definition call_of (fields : list StructureField) : list byte := serialize (Value.Structure (mkStructure 0x70 fields)).
Definition said : list byte :=
  call_of [mkStructureField 0x72 (Value.U32 3); mkStructureField 0x71 (Value.String "hi");
           mkStructureField 0x73 (Value.ArrayValue [Value.F32 0; Value.F32 0])].
Definition unsaid : list byte := call_of [mkStructureField 0x71 Value.Unit; mkStructureField 0x73 (Value.ArrayF32 [0])].

Example said_passes : check (2 ^ 64 - 1) said speaker 0x70 = Ok tt.
Proof. vm_compute. reflexivity. Qed.
Example unsaid_refused : check (2 ^ 64 - 1) unsaid speaker 0x70 = Err (NotOfType "gains" "say" (ExpectedElements 2 1)).
Proof. vm_compute. reflexivity. Qed.

Lemma check_is_of_values_witness :
  match speaker !! 0x70, well_formed (2 ^ 64 - 1) unsaid with
  | Some signature, Ok _ => ∃ v, deserialize unsaid = Ok v ∧
      match v with
      | Value.Structure s => reports signature (check (2 ^ 64 - 1) unsaid speaker 0x70) (first_wrong signature (st_fields s))
      | _ => check (2 ^ 64 - 1) unsaid speaker 0x70 = Ok tt
      end
  | _, _ => check (2 ^ 64 - 1) unsaid speaker 0x70 = Ok tt
  end.
Proof. exact (check_is_of_values (2 ^ 64 - 1) unsaid speaker 0x70). Defined.
