(* ===== verification/ComponentLayout.v ===== *)
(** * A guest's component: [arora-engine/src/component_layout.rs]

    What a component binary is made of, and what it may import. The [wasmparser]
    crate reads the binary: what it yields is data, of the variants the code
    tells apart, and how it reads bytes is a parameter. An index is a [u32] of
    one of the component's index spaces, whose lengths the parser keeps within a
    [u32]: a [nat]. A message is the constructor that carries what it names. *)

From Stdlib Require Import Ascii.
From S2P Require Import Prelude.

(** ** [wasmparser]'s data *)
Inductive ExternalKind := KFunc | KTable | KMemory | KGlobal | KTag | KOther.
Inductive ComponentExternalKind := EFunc | EType | EInstance | EModule | EComponent | EValue.
Inductive ComponentOuterAliasKind := OType | OCoreModule | OCoreType | OComponent.
#[export] Instance ExternalKind_eq_dec : EqDecision ExternalKind.
Proof. solve_decision. Defined.
#[export] Instance ComponentExternalKind_eq_dec : EqDecision ComponentExternalKind.
Proof. solve_decision. Defined.
(** [PrimitiveValType]: those the world has, and any other by its number *)
Inductive PrimitiveValType := PU8 | PU64 | PString | POther (n : nat).
#[export] Instance PrimitiveValType_eq_dec : EqDecision PrimitiveValType.
Proof. solve_decision. Defined.
Inductive ComponentValType := VPrimitive (p : PrimitiveValType) | VType (index : nat).
Inductive ComponentDefinedType :=
| DPrimitive (p : PrimitiveValType)
| DRecord (fields : list (string * ComponentValType))
| DList (ty : ComponentValType)
| DResult (ok err : option ComponentValType)
| DOther.
Record ComponentFuncType := mkFuncType { async_ : bool; params : list (string * ComponentValType); fresult : option ComponentValType }.
Inductive TypeBounds := BEq (ty : nat) | BSubResource.
Inductive ComponentTypeRef := RInstance (ty : nat) | RType (bounds : TypeBounds) | ROther.
Inductive ComponentAlias :=
| ACoreInstanceExport (kind : ExternalKind) (instance_index : nat) (name : string)
| AInstanceExport (kind : ComponentExternalKind) (instance_index : nat) (name : string)
| AOuter (kind : ComponentOuterAliasKind) (count index : nat).
Inductive ComponentType :=
| CDefined (d : ComponentDefinedType)
| CFunc (f : ComponentFuncType)
| CInstance (declarations : list InstanceTypeDeclaration)
| COther
with InstanceTypeDeclaration :=
| IType (ty : ComponentType)
| IAlias (alias : ComponentAlias)
| IExport (name : string) (ty : ComponentTypeRef)
| IOther.
Inductive CanonicalOption := UTF8 | OMemory (m : nat) | ORealloc (f : nat) | OPostReturn (f : nat) | OOther.
Inductive CanonicalFunction := CLift (core_func type_index : nat) (options : list CanonicalOption) | CCore.
Inductive Instance_ := IInstantiate (module_index : nat) (args : list (string * nat)) | IFromExports (exports : list (string * ExternalKind * nat)).
Record ComponentImport := mkImport { im_full_name : string; im_implements : bool; im_ty : ComponentTypeRef }.
Record ComponentExport := mkCExport { ex_name : string; ex_kind : ComponentExternalKind; ex_index : nat }.
(** A section's items, each of which may not read *)
Inductive Payload :=
| End_
| ModuleSection (start end_ : nat)
| ComponentSection
| ComponentStartSection
| ComponentInstanceSection
| InstanceSection (l : list (option Instance_))
| ComponentAliasSection (l : list (option ComponentAlias))
| ComponentCanonicalSection (l : list (option CanonicalFunction))
| ComponentTypeSection (l : list (option ComponentType))
| ComponentImportSection (l : list (option ComponentImport))
| ComponentExportSection (l : list (option ComponentExport))
| ExportSection (l : list (option string))
| ImportSection (l : list (option (string * string * ExternalKind)))
| StartSection (func : nat)
| OtherPayload.
(** [Parser::new(0).parse_all] *)
Class WasmParser := parse_all : list byte → list (option Payload).
(** A module section's range is of the bytes read. *)
Class WasmParserLaws `{WasmParser} : Prop :=
  module_range bytes start end_ : Some (ModuleSection start end_) ∈ parse_all bytes → (start ≤ end_ ∧ end_ ≤ length bytes)%nat.

(** ** Interfaces *)
Definition HOST_INTERFACES : list string :=
  ["arora:module/types"; "arora:module/host"; "wasi:cli/environment"; "wasi:cli/exit"; "wasi:cli/stdin"; "wasi:cli/stdout";
   "wasi:cli/stderr"; "wasi:cli/terminal-input"; "wasi:cli/terminal-output"; "wasi:cli/terminal-stdin"; "wasi:cli/terminal-stdout";
   "wasi:cli/terminal-stderr"; "wasi:clocks/monotonic-clock"; "wasi:clocks/wall-clock"; "wasi:filesystem/types";
   "wasi:filesystem/preopens"; "wasi:io/error"; "wasi:io/poll"; "wasi:io/streams"; "wasi:random/random"; "wasi:random/insecure";
   "wasi:random/insecure-seed"]%string.
Fixpoint split_at_sign (s : string) : option (string * string) :=
  match s with
  | EmptyString => None
  | String c s => if decide (c = "@"%char) then Some (EmptyString, s) else '(a, b) ← split_at_sign s; Some (String c a, b)
  end.
(** [provided] *)
Definition provided (name : string) : bool :=
  match split_at_sign name with
  | None => false
  | Some (interface, version) => String.prefix "0.2." version && bool_decide (interface ∈ HOST_INTERFACES)
  end.

(** ** The component as read *)
Inductive CoreRole := Guest | Shim | Fixups | Initializer.
#[export] Instance CoreRole_eq_dec : EqDecision CoreRole.
Proof. solve_decision. Defined.
Record CoreModule := mkModule {
  m_bytes : list byte; m_role : CoreRole; m_exports : list string;
  m_imports : list (string * string * ExternalKind); m_start : option nat }.
Inductive CoreInstance := Instantiate (module : nat) (args : list (string * nat)) | FromExports (l : list (string * ExternalKind * nat)).
Inductive CoreItem := Export (instance : nat) (name : string) | OtherItem.
#[export] Instance CoreItem_eq_dec : EqDecision CoreItem.
Proof. solve_decision. Defined.
Inductive Func := Lift (core_func ty : nat) (options : list CanonicalOption) | OtherFunc.
Inductive Ty :=
| TDefined (d : ComponentDefinedType)
| TFunc (f : ComponentFuncType)
| TInstance (declarations : list InstanceTypeDeclaration)
| TSame (earlier : nat)
| TOuter (outer : nat)
| TInstanceExport (instance : nat) (name : string)
| TOther.
Definition ty_from (ty : ComponentType) : Ty :=
  match ty with CDefined d => TDefined d | CFunc f => TFunc f | CInstance l => TInstance l | COther => TOther end.
Inductive Val :=
| WPrimitive (p : PrimitiveValType)
| WRecord (fields : list (string * Val))
| WList (v : Val)
| WResult (ok err : option Val).
Record CSignature := mkCSignature { cs_params : list Val; cs_result : option Val }.
(** [world_signature] *)
Definition world_id : Val := WRecord [("hi"%string, WPrimitive PU64); ("lo"%string, WPrimitive PU64)].
Definition world_bytes : Val := WList (WPrimitive PU8).
Definition world_signature (export : string) : CSignature :=
  if decide (export = "functions"%string) then mkCSignature [] (Some (WList world_id))
  else mkCSignature [world_id; world_bytes] (Some (WResult (Some world_bytes) (Some (WPrimitive PString)))).
(** [Val]'s derived equality *)
Fixpoint val_eqb (a b : Val) : bool :=
  match a, b with
  | WPrimitive p, WPrimitive q => bool_decide (p = q)
  | WRecord l, WRecord k =>
      (fix go (l k : list (string * Val)) := match l, k with
       | [], [] => true
       | x :: l, y :: k => bool_decide (x.1 = y.1) && val_eqb x.2 y.2 && go l k
       | _, _ => false end) l k
  | WList x, WList y => val_eqb x y
  | WResult x x', WResult y y' =>
      match x, y with Some x, Some y => val_eqb x y | None, None => true | _, _ => false end
      && match x', y' with Some x, Some y => val_eqb x y | None, None => true | _, _ => false end
  | _, _ => false
  end.
Fixpoint vals_eqb (l k : list Val) : bool :=
  match l, k with [], [] => true | x :: l, y :: k => val_eqb x y && vals_eqb l k | _, _ => false end.
Definition signature_eqb (a b : CSignature) : bool :=
  vals_eqb (cs_params a) (cs_params b)
  && match cs_result a, cs_result b with Some x, Some y => val_eqb x y | None, None => true | _, _ => false end.

Definition TYPE_DEPTH : nat := 16.
Definition TYPE_BUDGET : Z := 10000.

Inductive Refusal :=
| NotAComponent | DoesNotRead | ModuleDoesNotRead | OutOfRange
| NestsAComponent | HasAStartFunction | DefinesAnInstance | AliasesAModule
| NotProvided (name : string) | ExportsNoFunction (name : string) | NamesNoFunction (name : string)
| Holds (guests shims fixups initializers : nat)
| InstantiatesGuest (times : nat) | ExportsNames (names : list string)
| LiftsNothing (name : string) | LiftsAnother (name : string) | LiftedWith (name : string) (option : CanonicalOption)
| LiftedWithout (name : string) | AnotherPostReturn (name : string) | AnotherType (name : string) (found : CSignature)
| NoWorldFunction | UnsupportedType (index : nat)
| ShimDoesMore | InitializerDoesMore.

Record Outer := mkOuter {
  modules : list CoreModule; core_instances : list CoreInstance; core_funcs : list CoreItem; core_memories : list CoreItem;
  core_tables : list CoreItem; funcs : list Func; types : list Ty; instances : list (option nat); exports : list (string * nat) }.
Record GuestModule := mkGuest { g_bytes : list byte; g_initialize : bool }.

Definition with_modules l (o : Outer) := mkOuter l (core_instances o) (core_funcs o) (core_memories o) (core_tables o) (funcs o) (types o) (instances o) (exports o).
Definition with_core_instances l (o : Outer) := mkOuter (modules o) l (core_funcs o) (core_memories o) (core_tables o) (funcs o) (types o) (instances o) (exports o).
Definition with_core_funcs l (o : Outer) := mkOuter (modules o) (core_instances o) l (core_memories o) (core_tables o) (funcs o) (types o) (instances o) (exports o).
Definition with_core_memories l (o : Outer) := mkOuter (modules o) (core_instances o) (core_funcs o) l (core_tables o) (funcs o) (types o) (instances o) (exports o).
Definition with_core_tables l (o : Outer) := mkOuter (modules o) (core_instances o) (core_funcs o) (core_memories o) l (funcs o) (types o) (instances o) (exports o).
Definition with_funcs l (o : Outer) := mkOuter (modules o) (core_instances o) (core_funcs o) (core_memories o) (core_tables o) l (types o) (instances o) (exports o).
Definition with_types l (o : Outer) := mkOuter (modules o) (core_instances o) (core_funcs o) (core_memories o) (core_tables o) (funcs o) l (instances o) (exports o).
Definition with_instances l (o : Outer) := mkOuter (modules o) (core_instances o) (core_funcs o) (core_memories o) (core_tables o) (funcs o) (types o) l (exports o).
Definition with_exports l (o : Outer) := mkOuter (modules o) (core_instances o) (core_funcs o) (core_memories o) (core_tables o) (funcs o) (types o) (instances o) l.
Definition empty_outer : Outer := mkOuter [] [] [] [] [] [] [] [] [].

(** ** Reading *)
(** [for item in section]: each read, then taken in *)
Fixpoint each {S A} (e : Refusal) (f : A → S → result Refusal S) (l : list (option A)) (s : S) : result Refusal S :=
  match l with
  | [] => Ok s
  | None :: _ => Err e
  | Some a :: l => s ← f a s; each e f l s
  end.
Definition push_export (name : string) (m : CoreModule) : result Refusal CoreModule :=
  Ok (mkModule (m_bytes m) (m_role m) (m_exports m ++ [name]) (m_imports m) (m_start m)).
Definition push_import (i : string * string * ExternalKind) (m : CoreModule) : result Refusal CoreModule :=
  Ok (mkModule (m_bytes m) (m_role m) (m_exports m) (m_imports m ++ [i]) (m_start m)).
Definition module_payload (p : Payload) (m : CoreModule) : result Refusal CoreModule :=
  match p with
  | ExportSection l => each ModuleDoesNotRead push_export l m
  | ImportSection l => each ModuleDoesNotRead push_import l m
  | StartSection f => Ok (mkModule (m_bytes m) (m_role m) (m_exports m) (m_imports m) (Some f))
  | _ => Ok m
  end.
Definition role_of (m : CoreModule) : CoreRole :=
  if bool_decide ("$imports"%string ∈ m_exports m) then Shim
  else match m_exports m with
  | _ :: _ => Guest
  | [] => match m_start m with Some _ => Initializer | None => Fixups end
  end.
(** [alias] *)
Definition alias (a : ComponentAlias) (o : Outer) : result Refusal Outer :=
  match a with
  | ACoreInstanceExport kind i name =>
      match kind with
      | KFunc => Ok (with_core_funcs (core_funcs o ++ [Export i name]) o)
      | KMemory => Ok (with_core_memories (core_memories o ++ [Export i name]) o)
      | KTable => Ok (with_core_tables (core_tables o ++ [Export i name]) o)
      | _ => Ok o
      end
  | AInstanceExport kind i name =>
      match kind with
      | EFunc => Ok (with_funcs (funcs o ++ [OtherFunc]) o)
      | EType => Ok (with_types (types o ++ [TInstanceExport i name]) o)
      | EInstance => Ok (with_instances (instances o ++ [None]) o)
      | EModule => Err AliasesAModule
      | EComponent | EValue => Ok o
      end
  | AOuter kind _ _ =>
      match kind with
      | OType => Ok (with_types (types o ++ [TOther]) o)
      | OCoreModule => Err AliasesAModule
      | OCoreType | OComponent => Ok o
      end
  end.
(** [import] *)
Definition import (i : ComponentImport) (o : Outer) : result Refusal Outer :=
  match im_ty i with
  | RInstance ty =>
      if negb (im_implements i) && provided (im_full_name i) then Ok (with_instances (instances o ++ [Some ty]) o)
      else Err (NotProvided (im_full_name i))
  | RType (BEq ty) => Ok (with_types (types o ++ [TSame ty]) o)
  | _ => Err (NotProvided (im_full_name i))
  end.
(** [export] *)
Definition export (e : ComponentExport) (o : Outer) : result Refusal Outer :=
  if negb (bool_decide (ex_kind e = EFunc)) then Err (ExportsNoFunction (ex_name e))
  else match funcs o !! ex_index e with
  | None => Err (NamesNoFunction (ex_name e))
  | Some func => Ok (with_exports (exports o ++ [(ex_name e, ex_index e)]) (with_funcs (funcs o ++ [func]) o))
  end.
Definition core_instance (i : Instance_) (o : Outer) : result Refusal Outer :=
  Ok (with_core_instances (core_instances o ++
    [match i with IInstantiate m args => Instantiate m args | IFromExports l => FromExports l end]) o).
Definition canonical (f : CanonicalFunction) (o : Outer) : result Refusal Outer :=
  match f with
  | CLift core_func ty options => Ok (with_funcs (funcs o ++ [Lift core_func ty options]) o)
  | CCore => Ok (with_core_funcs (core_funcs o ++ [OtherItem]) o)
  end.
Definition component_type (ty : ComponentType) (o : Outer) : result Refusal Outer := Ok (with_types (types o ++ [ty_from ty]) o).

Section Read.
Context `{WP : WasmParser}.
(** [core_module] *)
Definition core_module (bytes : list byte) : result Refusal CoreModule :=
  m ← each ModuleDoesNotRead module_payload (parse_all bytes) (mkModule bytes Fixups [] [] None);
  Ok (mkModule bytes (role_of m) (m_exports m) (m_imports m) (m_start m)).
(** The payload of the component's own, and whether a core module's follow *)
Definition payload (component : list byte) (p : Payload) (o : Outer) : result Refusal (Outer * bool) :=
  let own := λ r : result Refusal Outer, match r with Ok o => Ok (o, false) | Err e => Err e end in
  match p with
  | ModuleSection start end_ =>
      if (start <=? end_)%nat && (end_ <=? length component)%nat then
        m ← core_module (take (end_ - start) (drop start component));
        Ok (with_modules (modules o ++ [m]) o, true)
      else Err OutOfRange
  | ComponentSection => Err NestsAComponent
  | ComponentStartSection => Err HasAStartFunction
  | ComponentInstanceSection => Err DefinesAnInstance
  | InstanceSection l => own (each DoesNotRead core_instance l o)
  | ComponentAliasSection l => own (each DoesNotRead alias l o)
  | ComponentCanonicalSection l => own (each DoesNotRead canonical l o)
  | ComponentTypeSection l => own (each DoesNotRead component_type l o)
  | ComponentImportSection l => own (each DoesNotRead import l o)
  | ComponentExportSection l => own (each DoesNotRead export l o)
  | _ => Ok (o, false)
  end.
Fixpoint read_payloads (component : list byte) (l : list (option Payload)) (in_module : bool) (o : Outer) : result Refusal Outer :=
  match l with
  | [] => Ok o
  | None :: _ => Err DoesNotRead
  | Some p :: l =>
      if in_module then read_payloads component l (match p with End_ => false | _ => true end) o
      else '(o, in_module) ← payload component p o; read_payloads component l in_module o
  end.
(** [Outer::read] *)
Definition read (component : list byte) : result Refusal Outer := read_payloads component (parse_all component) false empty_outer.
End Read.

(** ** Resolving types *)
Inductive Scope := mkScope (s_types : list Ty) (s_parent : option Scope).
Definition s_types (s : Scope) : list Ty := let '(mkScope l _) := s in l.
Definition s_parent (s : Scope) : option Scope := let '(mkScope _ p) := s in p.
(** [instance_types] *)
Fixpoint instance_types (l : list InstanceTypeDeclaration) (types : list Ty) (exports : list (string * nat)) : list Ty * list (string * nat) :=
  match l with
  | [] => (types, exports)
  | d :: l =>
      match d with
      | IType ty => instance_types l (types ++ [ty_from ty]) exports
      | IAlias (AOuter OType count index) => instance_types l (types ++ [if decide (count = 1%nat) then TOuter index else TOther]) exports
      | IAlias (AInstanceExport EType _ _) => instance_types l (types ++ [TOther]) exports
      | IExport name (RType bounds) =>
          instance_types l (types ++ [match bounds with BEq ty => TSame ty | BSubResource => TOther end]) (exports ++ [(name, length types)])
      | _ => instance_types l types exports
      end
  end.
Fixpoint find_export (name : string) (l : list (string * nat)) : option nat :=
  match l with
  | [] => None
  | (n, i) :: l => if decide (n = name) then Some i else find_export name l
  end.
(** Code over the budget of types left to visit *)
Abbreviation B A := (SE Z Refusal A).
Definition visit (index : nat) : B unit := λ budget, if budget =? 0 then Err (UnsupportedType index) else Ok (tt, budget - 1).
Section Resolve.
Variable o : Outer.
Section Vals.
Variable resolve : nat → B Val.
Definition val_of (ty : ComponentValType) : B Val :=
  match ty with VPrimitive p => se_ret (WPrimitive p) | VType index => resolve index end.
Fixpoint fields_of (l : list (string * ComponentValType)) : B (list (string * Val)) :=
  match l with
  | [] => se_ret []
  | (name, t) :: l => let* v := val_of t in let* l := fields_of l in se_ret ((name, v) :: l)
  end.
Definition case_of (ty : option ComponentValType) : B (option Val) :=
  match ty with None => se_ret None | Some t => let* v := val_of t in se_ret (Some v) end.
Definition defined_of (index : nat) (d : ComponentDefinedType) : B Val :=
  match d with
  | DPrimitive p => se_ret (WPrimitive p)
  | DRecord l => let* l := fields_of l in se_ret (WRecord l)
  | DList t => let* v := val_of t in se_ret (WList v)
  | DResult ok err => let* a := case_of ok in let* b := case_of err in se_ret (WResult a b)
  | DOther => se_fail (UnsupportedType index)
  end.
End Vals.
(** [ty], with [deeper = TYPE_DEPTH + 1 - depth] *)
Fixpoint ty (deeper : nat) (scope : Scope) (index : nat) : B Val :=
  match deeper with
  | O => se_fail (UnsupportedType index)
  | S deeper =>
      visit index ;;
      match s_types scope !! index with
      | None => se_fail (UnsupportedType index)
      | Some (TDefined d) => defined_of (ty deeper scope) index d
      | Some (TSame earlier) => if (earlier <? index)%nat then ty deeper scope earlier else se_fail (UnsupportedType index)
      | Some (TOuter outer) =>
          match s_parent scope with Some parent => ty deeper parent outer | None => se_fail (UnsupportedType index) end
      | Some (TInstanceExport instance name) =>
          match s_parent scope with
          | Some _ => se_fail (UnsupportedType index)
          | None =>
              match instances o !! instance with
              | Some (Some t) =>
                  match types o !! t with
                  | Some (TInstance declarations) =>
                      let '(types, exports) := instance_types declarations [] [] in
                      match find_export name exports with
                      | Some exported => ty deeper (mkScope types (Some scope)) exported
                      | None => se_fail (UnsupportedType index)
                      end
                  | _ => se_fail (UnsupportedType index)
                  end
              | _ => se_fail (UnsupportedType index)
              end
          end
      | Some _ => se_fail (UnsupportedType index)
      end
  end.
Definition resolve (index : nat) : B Val := ty (S TYPE_DEPTH) (mkScope (types o) None) index.
Fixpoint vals_of (l : list (string * ComponentValType)) : B (list Val) :=
  match l with
  | [] => se_ret []
  | (_, t) :: l => let* v := val_of resolve t in let* l := vals_of l in se_ret (v :: l)
  end.
(** [signature] *)
Fixpoint signature (turns : nat) (index : nat) : B CSignature :=
  match turns with
  | O => se_fail NoWorldFunction
  | S turns =>
      match types o !! index with
      | Some (TFunc f) =>
          if async_ f then se_fail NoWorldFunction
          else let* ps := vals_of (params f) in let* r := case_of resolve (fresult f) in se_ret (mkCSignature ps r)
      | Some (TSame earlier) => if (earlier <? index)%nat then signature turns earlier else se_fail NoWorldFunction
      | _ => se_fail NoWorldFunction
      end
  end.
End Resolve.

(** ** The layout *)
Section Layout.
Variable o : Outer.
Definition is_role (r : CoreRole) (m : CoreModule) : bool := bool_decide (m_role m = r).
Definition count (r : CoreRole) : nat := length (List.filter (is_role r) (modules o)).
Fixpoint find_from (at_ : nat) (r : CoreRole) (l : list CoreModule) : option (nat * CoreModule) :=
  match l with
  | [] => None
  | m :: l => if is_role r m then Some (at_, m) else find_from (S at_) r l
  end.
Definition find_role (r : CoreRole) : option (nat * CoreModule) := find_from 0 r (modules o).
(** [instantiations] *)
Fixpoint instantiations_from (at_ module : nat) (l : list CoreInstance) : list (nat * list (string * nat)) :=
  match l with
  | [] => []
  | Instantiate m args :: l =>
      (if decide (m = module) then [(at_, args)] else []) ++ instantiations_from (S at_) module l
  | _ :: l => instantiations_from (S at_) module l
  end.
Definition instantiations (module : nat) : list (nat * list (string * nat)) := instantiations_from 0 module (core_instances o).
Fixpoint find_item (name : string) (l : list (string * ExternalKind * nat)) : option (ExternalKind * nat) :=
  match l with
  | [] => None
  | (n, kind, index) :: l => if decide (n = name) then Some (kind, index) else find_item name l
  end.
(** [given] *)
Definition given (args : list (string * nat)) (module name : string) (kind : ExternalKind) : option CoreItem :=
  instance ← find_export module args;
  i ← core_instances o !! instance;
  match i with
  | Instantiate _ _ => Some (Export instance name)
  | FromExports l =>
      '(found, index) ← find_item name l;
      match match kind with KFunc => Some (core_funcs o) | KTable => Some (core_tables o) | KMemory => Some (core_memories o) | _ => None end with
      | Some space => if decide (found = kind) then space !! index else None
      | None => None
      end
  end.
(** [check_shim] *)
Definition wired (table : CoreItem) (args : list (string * nat)) (i : string * string * ExternalKind) : bool :=
  match i.2 with
  | KFunc => true
  | KTable => bool_decide (given args i.1.1 i.1.2 KTable = Some table)
  | _ => false
  end.
Definition check_shim (shim fixups : nat * CoreModule) : result Refusal unit :=
  match m_imports shim.2, m_start shim.2 with
  | [], None =>
      match instantiations shim.1, instantiations fixups.1 with
      | [(shim_instance, _)], [(_, args)] =>
          if forallb (wired (Export shim_instance "$imports") args) (m_imports fixups.2) then Ok tt else Err ShimDoesMore
      | _, _ => Err ShimDoesMore
      end
  | _, _ => Err ShimDoesMore
  end.
(** [check_initializer] *)
Definition check_initializer (index : nat) (initializer : CoreModule) (instance : nat) (guest : CoreModule) : result Refusal unit :=
  match m_imports initializer with
  | [(module, name, KFunc)] =>
      if negb (bool_decide (m_start initializer = Some 0%nat)) || negb (bool_decide ("_initialize"%string ∈ m_exports guest))
      then Err InitializerDoesMore
      else match instantiations index with
      | [(_, args)] =>
          if decide (given args module name KFunc = Some (Export instance "_initialize")) then Ok tt else Err InitializerDoesMore
      | _ => Err InitializerDoesMore
      end
  | _ => Err InitializerDoesMore
  end.
Definition guest_s (instance : nat) (item : option CoreItem) (export : string) : bool := bool_decide (item = Some (Export instance export)).
(** An export's options, one by one: whether they name the memory and the allocator, and the post-return *)
Fixpoint check_options (name : string) (instance : nat) (l : list CanonicalOption) (memory realloc : bool) (post_return : option nat) :
    result Refusal (bool * bool * option nat) :=
  match l with
  | [] => Ok (memory, realloc, post_return)
  | UTF8 :: l => check_options name instance l memory realloc post_return
  | OMemory m :: l =>
      if guest_s instance (core_memories o !! m) "memory" then check_options name instance l true realloc post_return
      else Err (LiftedWith name (OMemory m))
  | ORealloc f :: l =>
      if guest_s instance (core_funcs o !! f) "cabi_realloc" then check_options name instance l memory true post_return
      else Err (LiftedWith name (ORealloc f))
  | OPostReturn f :: l => check_options name instance l memory realloc (Some f)
  | OOther :: _ => Err (LiftedWith name OOther)
  end.
Definition post_name (name : string) : string := String.append "cabi_post_" name.
(** [check_export] *)
Definition check_export (name : string) (func instance : nat) (guest : CoreModule) : B unit :=
  match funcs o !! func with
  | Some (Lift core_func ty options) =>
      if negb (guest_s instance (core_funcs o !! core_func) name) then se_fail (LiftsAnother name)
      else match check_options name instance options false false None with
      | Err e => se_fail e
      | Ok (memory, realloc, post_return) =>
          if negb memory || bool_decide (name = "dispatch"%string) && negb realloc then se_fail (LiftedWithout name)
          else if negb (match post_return with
                        | Some f => guest_s instance (core_funcs o !! f) (post_name name)
                        | None => negb (bool_decide (post_name name ∈ m_exports guest))
                        end) then se_fail (AnotherPostReturn name)
          else
            let* found := signature o TYPE_DEPTH ty in
            if signature_eqb found (world_signature name) then se_ret tt else se_fail (AnotherType name found)
      end
  | _ => se_fail (LiftsNothing name)
  end.
Fixpoint check_exports (l : list (string * nat)) (instance : nat) (guest : CoreModule) : B unit :=
  match l with
  | [] => se_ret tt
  | (name, func) :: l => check_export name func instance guest ;; check_exports l instance guest
  end.
(** Whether the names, sorted, are [dispatch] and [functions] *)
Definition world_names (l : list (string * nat)) : bool :=
  bool_decide (l.*1 = ["dispatch"; "functions"]%string) || bool_decide (l.*1 = ["functions"; "dispatch"]%string).
(** [guest] *)
Definition guest : result Refusal GuestModule :=
  let '(guests, shims, fixups, initializers) := (count Guest, count Shim, count Fixups, count Initializer) in
  if negb (guests =? 1)%nat || (1 <? shims)%nat || (1 <? fixups)%nat || negb (shims =? fixups)%nat || (1 <? initializers)%nat
  then Err (Holds guests shims fixups initializers)
  else match find_role Guest with
  | None => Err OutOfRange
  | Some (index, guest) =>
      match instantiations index with
      | [(instance, _)] =>
          if negb (world_names (exports o)) then Err (ExportsNames (exports o).*1)
          else
            '(_, _) ← check_exports (exports o) instance guest TYPE_BUDGET;
            _ ← (match find_role Shim, find_role Fixups with
                 | Some shim, Some fixups => check_shim shim fixups
                 | _, _ => Ok tt
                 end);
            _ ← (match find_role Initializer with
                 | Some (index, initializer) => check_initializer index initializer instance guest
                 | None => Ok tt
                 end);
            Ok (mkGuest (m_bytes guest) (match find_role Initializer with Some _ => true | None => false end))
      | l => Err (InstantiatesGuest (length l))
      end
  end.
End Layout.

Section Guest.
Context `{WP : WasmParser}.
(** [is_component]: the layer field of the preamble is 1. *)
Definition is_component (bytes : list byte) : bool :=
  (8 <=? length bytes)%nat && bool_decide (map byte_Z (take 4 bytes) = [0; 0x61; 0x73; 0x6D]) && bool_decide (map byte_Z (take 2 (drop 6 bytes)) = [1; 0]).
(** [guest_module] *)
Definition guest_module (component : list byte) : result Refusal GuestModule :=
  if negb (is_component component) then Err NotAComponent
  else o ← read component; guest o.
End Guest.
