(* ===== verification/Admission.v ===== *)
(** * What an admitted component is

    The types of a component resolve as a relation says, within a depth and a
    budget; the checks of [guest] pass exactly the components laid out as the
    browser runs them; and of the bytes of an admitted component, the module that
    is run is the one guest module it defines, among sections that only import
    what every host provides. *)

From S2P Require Import Prelude ComponentLayout.

(** ** Types *)
Section Resolves.
Variable o : Outer.
(** What an index of a scope resolves to within a depth, and the types visited *)
Inductive Resolves : nat → Scope → nat → nat → Val → Prop :=
| resolves_defined d scope index t k v :
    s_types scope !! index = Some (TDefined t) → Defines d scope t k v → Resolves (S d) scope index (S k) v
| resolves_same d scope index earlier k v :
    s_types scope !! index = Some (TSame earlier) → (earlier < index)%nat → Resolves d scope earlier k v →
    Resolves (S d) scope index (S k) v
| resolves_outer d scope parent index outer k v :
    s_types scope !! index = Some (TOuter outer) → s_parent scope = Some parent → Resolves d parent outer k v →
    Resolves (S d) scope index (S k) v
| resolves_export d scope index instance name t declarations exported k v :
    s_types scope !! index = Some (TInstanceExport instance name) → s_parent scope = None →
    instances o !! instance = Some (Some t) → types o !! t = Some (TInstance declarations) →
    find_export name (instance_types declarations [] []).2 = Some exported →
    Resolves d (mkScope (instance_types declarations [] []).1 (Some scope)) exported k v →
    Resolves (S d) scope index (S k) v
with Defines : nat → Scope → ComponentDefinedType → nat → Val → Prop :=
| defines_primitive d scope p : Defines d scope (DPrimitive p) 0 (WPrimitive p)
| defines_record d scope l k vs : Fields d scope l k vs → Defines d scope (DRecord l) k (WRecord vs)
| defines_list d scope t k v : Types d scope t k v → Defines d scope (DList t) k (WList v)
| defines_result d scope ok err k k' a b :
    Case d scope ok k a → Case d scope err k' b → Defines d scope (DResult ok err) (k + k') (WResult a b)
with Types : nat → Scope → ComponentValType → nat → Val → Prop :=
| types_primitive d scope p : Types d scope (VPrimitive p) 0 (WPrimitive p)
| types_index d scope index k v : Resolves d scope index k v → Types d scope (VType index) k v
with Fields : nat → Scope → list (string * ComponentValType) → nat → list (string * Val) → Prop :=
| fields_nil d scope : Fields d scope [] 0 []
| fields_cons d scope name t l k k' v vs :
    Types d scope t k v → Fields d scope l k' vs → Fields d scope ((name, t) :: l) (k + k') ((name, v) :: vs)
with Case : nat → Scope → option ComponentValType → nat → option Val → Prop :=
| case_none d scope : Case d scope None 0 None
| case_some d scope t k v : Types d scope t k v → Case d scope (Some t) k (Some v).

(** Code that succeeds exactly as a relation says, at the cost it says *)
Definition exact {A} (m : B A) (P : nat → A → Prop) : Prop := ∀ budget a rest, 0 ≤ budget →
  m budget = Ok (a, rest) ↔ ∃ k, P k a ∧ rest = budget - Z.of_nat k ∧ Z.of_nat k ≤ budget.
Lemma exact_ret {A} (a : A) : exact (se_ret a) (λ k x, k = 0%nat ∧ x = a).
Proof.
  intros budget x rest Hb. split; [intros [= -> ->]; exists 0%nat; split_and!; [done..|lia|lia]|].
  intros (k & [-> ->] & -> & _). unfold se_ret. do 2 f_equal. lia.
Qed.
Lemma exact_fail {A} e (P : nat → A → Prop) : (∀ k a, ¬ P k a) → exact (se_fail e) P.
Proof. intros HP budget a rest _. split; [done|]. intros (k & Hk & _). by destruct (HP k a). Qed.
Lemma exact_bind {A C} (m : B A) (f : A → B C) P Q :
  exact m P → (∀ a, exact (f a) (Q a)) → exact (se_bind m f) (λ k c, ∃ k1 k2 a, P k1 a ∧ Q a k2 c ∧ k = (k1 + k2)%nat).
Proof.
  intros Hm Hf budget c rest Hb. unfold se_bind. split.
  - destruct (m budget) as [[a b1]|] eqn:E; [|done]. apply Hm in E as (k1 & H1 & -> & Hk1); [|done].
    intros (k2 & H2 & -> & Hk2)%Hf; [|lia]. exists (k1 + k2)%nat. split_and!; [by exists k1, k2, a|lia|lia].
  - intros (k & (k1 & k2 & a & H1 & H2 & ->) & -> & Hk).
    assert (m budget = Ok (a, budget - Z.of_nat k1)) as -> by (apply Hm; [done|]; exists k1; split_and!; [done..|lia]).
    apply Hf; [lia|]. exists k2. split_and!; [done|lia|lia].
Qed.
Lemma exact_iff {A} (m : B A) (P Q : nat → A → Prop) : (∀ k a, P k a ↔ Q k a) → exact m P → exact m Q.
Proof. intros HPQ Hm budget a rest Hb. specialize (Hm budget a rest Hb). etrans; [exact Hm|]. by setoid_rewrite HPQ. Qed.
Lemma exact_visit index : exact (visit index) (λ k _, k = 1%nat).
Proof.
  intros budget [] rest Hb. unfold visit. destruct (Z.eqb_spec budget 0) as [->|]; split.
  - done.
  - intros (k & -> & _ & Hk). lia.
  - intros [= <-]. exists 1%nat. split_and!; [done|lia|lia].
  - intros (k & -> & -> & _). do 2 f_equal.
Qed.

Section Values.
Context (d : nat) (scope : Scope) (resolve : nat → B Val) (Hr : ∀ index, exact (resolve index) (Resolves d scope index)).
Lemma val_exact t : exact (val_of resolve t) (Types d scope t).
Proof.
  destruct t as [p|index]; cbn [val_of].
  - eapply exact_iff; [|apply exact_ret]. intros k v. split; [intros [-> ->]; constructor|]. by inversion 1.
  - eapply exact_iff; [|apply Hr]. intros k v. split; [by constructor|]. by inversion 1.
Qed.
Lemma fields_exact l : exact (fields_of resolve l) (Fields d scope l).
Proof.
  induction l as [|[name t] l IH]; cbn [fields_of].
  - eapply exact_iff; [|apply exact_ret]. intros k v. split; [intros [-> ->]; constructor|]. by inversion 1.
  - eapply exact_iff; [|apply exact_bind; [apply val_exact|intros v; apply exact_bind; [exact IH|intros vs; apply exact_ret]]].
    intros k x. split.
    + intros (k1 & k2 & v & Hv & (k3 & k4 & vs & Hvs & [-> ->] & ->) & ->). rewrite Nat.add_0_r. by constructor.
    + inversion 1; subst. eexists _, _, _. split_and!; [done| |done]. eexists _, 0%nat, _. split_and!; [done..|lia].
Qed.
Lemma case_exact t : exact (case_of resolve t) (Case d scope t).
Proof.
  destruct t as [t|]; cbn [case_of].
  - eapply exact_iff; [|apply exact_bind; [apply val_exact|intros v; apply exact_ret]]. intros k x. split.
    + intros (k1 & k2 & v & Hv & [-> ->] & ->). rewrite Nat.add_0_r. by constructor.
    + inversion 1; subst. eexists _, 0%nat, _. split_and!; [done..|lia].
  - eapply exact_iff; [|apply exact_ret]. intros k v. split; [intros [-> ->]; constructor|]. by inversion 1.
Qed.
Lemma defined_exact index t : exact (defined_of resolve index t) (Defines d scope t).
Proof.
  destruct t as [p|l|t|ok err|]; cbn [defined_of].
  - eapply exact_iff; [|apply exact_ret]. intros k v. split; [intros [-> ->]; constructor|]. by inversion 1.
  - eapply exact_iff; [|apply exact_bind; [apply fields_exact|intros v; apply exact_ret]]. intros k x. split.
    + intros (k1 & k2 & v & Hv & [-> ->] & ->). rewrite Nat.add_0_r. by constructor.
    + inversion 1; subst. eexists _, 0%nat, _. split_and!; [done..|lia].
  - eapply exact_iff; [|apply exact_bind; [apply val_exact|intros v; apply exact_ret]]. intros k x. split.
    + intros (k1 & k2 & v & Hv & [-> ->] & ->). rewrite Nat.add_0_r. by constructor.
    + inversion 1; subst. eexists _, 0%nat, _. split_and!; [done..|lia].
  - eapply exact_iff; [|apply exact_bind; [apply case_exact|intros a; apply exact_bind; [apply case_exact|intros b; apply exact_ret]]].
    intros k x. split.
    + intros (k1 & k2 & v & Hv & (k3 & k4 & vs & Hvs & [-> ->] & ->) & ->). rewrite Nat.add_0_r. by constructor.
    + inversion 1; subst. eexists _, _, _. split_and!; [done| |done]. eexists _, 0%nat, _. split_and!; [done..|lia].
  - apply exact_fail. by inversion 1.
Qed.
End Values.
Lemma ty_exact d scope index : exact (ty o d scope index) (Resolves d scope index).
Proof.
  revert scope index. induction d as [|d IH]; intros scope index; cbn [ty]; [apply exact_fail; by inversion 1|].
  assert (∀ m (Q : nat → Val → Prop), exact m Q → (∀ k v, Resolves (S d) scope index k v ↔ ∃ k', k = S k' ∧ Q k' v) →
    exact (visit index ;; m) (Resolves (S d) scope index)) as Hv.
  { intros m Q Hm HQ. eapply exact_iff; [|apply exact_bind; [apply exact_visit|intros ?; exact Hm]]. intros k v. rewrite HQ. split.
    - intros (k1 & k2 & _ & -> & H2 & ->). by exists k2.
    - intros (k' & -> & H2). by exists 1%nat, k', tt. }
  assert (∀ e, (∀ k v, ¬ Resolves (S d) scope index k v) → exact (visit index ;; se_fail e) (Resolves (S d) scope index)) as Hf.
  { intros e Hno. apply (Hv _ (λ _ _, False)); [by apply exact_fail; intros ? ? []|]. intros k v. split; [by intros ?%Hno|by intros (? & _ & [])]. }
  destruct (s_types scope !! index) as [[t|f|l|earlier|outer|instance name|]|] eqn:E; try (apply Hf; intros k v Hk; inversion Hk; congruence).
  - apply (Hv _ (Defines d scope t)); [by apply defined_exact|]. intros k v. split; [inversion 1; simplify_eq; eauto|intros (k' & -> & ?); by econstructor].
  - destruct (Nat.ltb_spec earlier index); [|apply Hf; intros k v Hk; inversion Hk; simplify_eq; lia].
    apply (Hv _ (Resolves d scope earlier)); [by apply IH|]. intros k v. split; [inversion 1; simplify_eq; eauto|intros (k' & -> & ?); by eapply resolves_same].
  - destruct (s_parent scope) as [parent|] eqn:Ep; [|apply Hf; intros k v Hk; inversion Hk; simplify_eq].
    apply (Hv _ (Resolves d parent outer)); [by apply IH|]. intros k v. split; [inversion 1; simplify_eq; eauto|intros (k' & -> & ?); by eapply resolves_outer].
  - destruct (s_parent scope) as [parent|] eqn:Ep; [apply Hf; intros k v Hk; inversion Hk; simplify_eq|].
    destruct (instances o !! instance) as [[t|]|] eqn:Ei; try (apply Hf; intros k v Hk; inversion Hk; simplify_eq).
    destruct (types o !! t) as [[| |declarations| | | |]|] eqn:Et; try (apply Hf; intros k v Hk; inversion Hk; simplify_eq).
    destruct (instance_types declarations [] []) as [ts es] eqn:El.
    destruct (find_export name es) as [exported|] eqn:Ee; [|apply Hf; intros k v Hk; inversion Hk; simplify_eq; rewrite El in *; cbn in *; congruence].
    apply (Hv _ (Resolves d (mkScope ts (Some scope)) exported)); [by apply IH|]. intros k v. split.
    + inversion 1; simplify_eq. rewrite El in *. cbn in *. simplify_eq. eauto.
    + intros (k' & -> & Hk). eapply resolves_export; [done..| |]; by rewrite El.
Qed.
End Resolves.

(** ** The equality of types *)
Lemma Val_nested_ind (P : Val → Prop) :
  (∀ p, P (WPrimitive p)) → (∀ l, Forall (λ x, P x.2) l → P (WRecord l)) → (∀ v, P v → P (WList v)) →
  (∀ x y, (∀ v, x = Some v → P v) → (∀ v, y = Some v → P v) → P (WResult x y)) → ∀ v, P v.
Proof.
  intros Hp Hrec Hl Hres. fix IH 1. intros [p|l|v|x y].
  - exact (Hp p).
  - apply Hrec. induction l as [|[n v] l IHl]; constructor; [exact (IH v)|exact IHl].
  - exact (Hl v (IH v)).
  - apply Hres; intros v E; [destruct x as [w|]|destruct y as [w|]]; [|discriminate| |discriminate]; injection E as <-; exact (IH w).
Qed.
Lemma val_eqb_eq a b : val_eqb a b = true ↔ a = b.
Proof.
  assert (∀ x y : option Val, (∀ v, x = Some v → ∀ w, val_eqb v w = true ↔ v = w) →
    match x, y with Some x, Some y => val_eqb x y | None, None => true | _, _ => false end = true ↔ x = y) as Hopt.
  { intros [x|] [y|] Hx; try done. rewrite Hx by done. naive_solver. }
  revert b. induction a as [p|l IH|v IH|x x' IH IH'] using Val_nested_ind; intros [q|k|w|y y']; cbn [val_eqb]; try done.
  - rewrite bool_decide_eq_true. naive_solver.
  - revert k. induction IH as [|[n v] l IHv _ IHl]; intros [|[n' w] k]; try done. cbn [fst snd] in *.
    rewrite !andb_true_iff, bool_decide_eq_true, IHv. specialize (IHl k). destruct IHl as [H1 H2]. split.
    + intros [[-> ->] Hk]. specialize (H1 Hk). by injection H1 as ->.
    + intros [= -> -> ->]. split; [done|]. by apply H2.
  - rewrite IH. naive_solver.
  - rewrite andb_true_iff, !Hopt by done. naive_solver.
Qed.
Lemma vals_eqb_eq l k : vals_eqb l k = true ↔ l = k.
Proof.
  revert k. induction l as [|v l IH]; intros [|w k]; try done. cbn [vals_eqb]. rewrite andb_true_iff, val_eqb_eq, IH. naive_solver.
Qed.
Lemma signature_eqb_eq a b : signature_eqb a b = true ↔ a = b.
Proof.
  unfold signature_eqb. destruct a as [ps r], b as [qs r']. cbn [cs_params cs_result]. rewrite andb_true_iff, vals_eqb_eq.
  destruct r as [v|], r' as [w|]; rewrite ?val_eqb_eq; naive_solver.
Qed.

(** ** The layout *)
Section Layout.
Variable o : Outer.
(** The function type at an index, past the types it is the same as *)
Inductive HasSignature : nat → nat → nat → CSignature → Prop :=
| has_func turns index f k k' ps r :
    types o !! index = Some (TFunc f) → async_ f = false →
    Values (params f) k ps → Case o (S TYPE_DEPTH) (mkScope (types o) None) (fresult f) k' r →
    HasSignature (S turns) index (k + k') (mkCSignature ps r)
| has_same turns index earlier k s :
    types o !! index = Some (TSame earlier) → (earlier < index)%nat → HasSignature turns earlier k s → HasSignature (S turns) index k s
with Values : list (string * ComponentValType) → nat → list Val → Prop :=
| values_nil : Values [] 0 []
| values_cons name t l k k' v vs : Types o (S TYPE_DEPTH) (mkScope (types o) None) t k v → Values l k' vs → Values ((name, t) :: l) (k + k') (v :: vs).
Lemma resolve_exact index : exact (resolve o index) (Resolves o (S TYPE_DEPTH) (mkScope (types o) None) index).
Proof. apply ty_exact. Qed.
Lemma values_exact l : exact (vals_of o l) (Values l).
Proof.
  induction l as [|[name t] l IH]; cbn [vals_of].
  - eapply exact_iff; [|apply exact_ret]. intros k v. split; [intros [-> ->]; constructor|]. by inversion 1.
  - eapply exact_iff; [|apply exact_bind; [apply val_exact, resolve_exact|intros v; apply exact_bind; [exact IH|intros vs; apply exact_ret]]].
    intros k x. split.
    + intros (k1 & k2 & v & Hv & (k3 & k4 & vs & Hvs & [-> ->] & ->) & ->). rewrite Nat.add_0_r. by constructor.
    + inversion 1; subst. eexists _, _, _. split_and!; [done| |done]. eexists _, 0%nat, _. split_and!; [done..|lia].
Qed.
Lemma signature_exact turns index : exact (signature o turns index) (HasSignature turns index).
Proof.
  revert index. induction turns as [|turns IH]; intros index; cbn [signature]; [apply exact_fail; by inversion 1|].
  destruct (types o !! index) as [[t|f|l|earlier|outer|instance name|]|] eqn:E; try (apply exact_fail; intros k v Hk; inversion Hk; congruence).
  - destruct (async_ f) eqn:Ea; [apply exact_fail; intros k v Hk; inversion Hk; congruence|].
    eapply exact_iff; [|apply exact_bind; [apply values_exact|intros ps; apply exact_bind; [apply case_exact, resolve_exact|intros r; apply exact_ret]]].
    intros k x. split.
    + intros (k1 & k2 & v & Hv & (k3 & k4 & vs & Hvs & [-> ->] & ->) & ->). rewrite Nat.add_0_r. by econstructor.
    + inversion 1; simplify_eq. eexists _, _, _. split_and!; [done| |done]. eexists _, 0%nat, _. split_and!; [done..|lia].
  - destruct (Nat.ltb_spec earlier index); [|apply exact_fail; intros k v Hk; inversion Hk; simplify_eq; lia].
    eapply exact_iff; [|apply IH]. intros k v. split; [by intros; eapply has_same|]. by inversion 1; simplify_eq.
Qed.

(** An option of a lift, as the browser lifts *)
Definition option_ok (instance : nat) (c : CanonicalOption) : Prop :=
  match c with
  | UTF8 | OPostReturn _ => True
  | OMemory m => core_memories o !! m = Some (Export instance "memory")
  | ORealloc f => core_funcs o !! f = Some (Export instance "cabi_realloc")
  | OOther => False
  end.
Fixpoint post_returns (l : list CanonicalOption) : list nat :=
  match l with [] => [] | OPostReturn f :: l => f :: post_returns l | _ :: l => post_returns l end.
(** The export [name] lifts the guest instance's own function of that name, over
    its memory, with its allocator and its post-return, at the world's type *)
Record Lifts (instance : nat) (guest : CoreModule) (name : string) (func : nat) (k : nat) : Prop := {
  lifts_core : ∃ core_func ty options, funcs o !! func = Some (Lift core_func ty options) ∧
    core_funcs o !! core_func = Some (Export instance name) ∧
    Forall (option_ok instance) options ∧ (∃ m, OMemory m ∈ options) ∧ (name = "dispatch"%string → ∃ f, ORealloc f ∈ options) ∧
    match last (post_returns options) with
    | Some f => core_funcs o !! f = Some (Export instance (post_name name))
    | None => post_name name ∉ m_exports guest
    end ∧
    HasSignature TYPE_DEPTH ty k (world_signature name) }.
Definition names_memory (l : list CanonicalOption) : bool := existsb (λ c, match c with OMemory _ => true | _ => false end) l.
Definition names_realloc (l : list CanonicalOption) : bool := existsb (λ c, match c with ORealloc _ => true | _ => false end) l.
Lemma options_checked name instance l memory realloc post r :
  check_options o name instance l memory realloc post = Ok r ↔
  Forall (option_ok instance) l ∧ r = (memory || names_memory l, realloc || names_realloc l, match last (post_returns l) with Some f => Some f | None => post end).
Proof.
  revert memory realloc post. induction l as [|c l IH]; intros memory realloc post; cbn [check_options].
  - cbn. rewrite !orb_false_r. split; [by intros [= <-]|by intros [_ ->]].
  - rewrite Forall_cons. unfold guest_s. destruct c as [|m|f|f|]; cbn [option_ok post_returns].
    + rewrite IH. naive_solver.
    + case_bool_decide as Hm; [|naive_solver]. rewrite IH. cbn. rewrite orb_true_r. naive_solver.
    + case_bool_decide as Hm; [|naive_solver]. rewrite IH. cbn. rewrite orb_true_r. naive_solver.
    + rewrite IH. rewrite last_cons. destruct (last (post_returns l)); naive_solver.
    + naive_solver.
Qed.
Lemma names_memory_elem l : names_memory l = true ↔ ∃ m, OMemory m ∈ l.
Proof.
  unfold names_memory. rewrite existsb_exists. split; [intros (c & Hc & ?)|intros [m Hm]].
  - destruct c as [|m| | |]; try done. exists m. by apply list_elem_of_In.
  - exists (OMemory m). by rewrite <- list_elem_of_In.
Qed.
Lemma names_realloc_elem l : names_realloc l = true ↔ ∃ f, ORealloc f ∈ l.
Proof.
  unfold names_realloc. rewrite existsb_exists. split; [intros (c & Hc & ?)|intros [f Hf]].
  - destruct c as [| |f| |]; try done. exists f. by apply list_elem_of_In.
  - exists (ORealloc f). by rewrite <- list_elem_of_In.
Qed.
Lemma export_exact name func instance guest : exact (check_export o name func instance guest) (λ k _, Lifts instance guest name func k).
Proof.
  unfold check_export.
  destruct (funcs o !! func) as [[core_func ty options|]|] eqn:E; [|apply exact_fail; intros k [] [(? & ? & ? & ? & _)]; congruence..].
  assert (∀ k, Lifts instance guest name func k → core_funcs o !! core_func = Some (Export instance name) ∧
    Forall (option_ok instance) options ∧ (∃ m, OMemory m ∈ options) ∧ (name = "dispatch"%string → ∃ f, ORealloc f ∈ options) ∧
    match last (post_returns options) with
    | Some f => core_funcs o !! f = Some (Export instance (post_name name))
    | None => post_name name ∉ m_exports guest
    end ∧ HasSignature TYPE_DEPTH ty k (world_signature name)) as Hl.
  { intros k [(core_func' & ty' & options' & E' & Hrest)]. rewrite E in E'. by injection E' as <- <- <-. }
  unfold guest_s. case_bool_decide as Hc; cbn [negb]; [|apply exact_fail; intros k [] (? & _)%Hl; congruence].
  destruct (check_options o name instance options false false None) as [[[memory realloc] post]|e] eqn:Eo.
  2:{ apply exact_fail. intros k [] (_ & Ho & _)%Hl.
      assert (∃ r, check_options o name instance options false false None = Ok r) as [r ?] by (eexists; by apply options_checked). congruence. }
  apply options_checked in Eo as [Ho [= -> -> ->]]. cbn [orb].
  destruct (names_memory options) eqn:Hm; cbn [negb orb].
  2:{ apply exact_fail. intros k [] (_ & _ & Hm'%names_memory_elem & _)%Hl. congruence. }
  destruct (bool_decide (name = "dispatch"%string) && negb (names_realloc options)) eqn:Hr.
  { apply andb_true_iff in Hr as [Hd%bool_decide_eq_true Hr]. apply exact_fail. intros k [] (_ & _ & _ & Hr' & _)%Hl.
    specialize (Hr' Hd). apply names_realloc_elem in Hr'. by rewrite Hr' in Hr. }
  match goal with |- exact (if negb ?p then _ else _) _ => destruct p eqn:Hp end; cbn [negb].
  2:{ apply exact_fail. intros k [] (_ & _ & _ & _ & Hp' & _)%Hl. destruct (last _); by case_bool_decide. }
  eapply exact_iff; [|apply exact_bind; [apply signature_exact|]].
  2:{ intros s. instantiate (1 := λ s k _, k = 0%nat ∧ s = world_signature name). destruct (signature_eqb s (world_signature name)) eqn:Es.
      - apply signature_eqb_eq in Es. eapply exact_iff; [|apply exact_ret]. intros k []. naive_solver.
      - apply exact_fail. intros k [] [_ Hs%signature_eqb_eq]. congruence. }
  intros k []. split.
  - intros (k1 & k2 & s & Hs & [-> ->] & ->). rewrite Nat.add_0_r. split. exists core_func, ty, options. split_and!; [done..| | | |done].
    + by apply names_memory_elem.
    + intros Hd. apply names_realloc_elem. destruct (names_realloc options); [done|]. by rewrite (bool_decide_true _ Hd) in Hr.
    + destruct (last _); by case_bool_decide.
  - intros (_ & _ & _ & _ & _ & Hs)%Hl. eexists k, 0%nat, _. split_and!; [done..|lia].
Qed.

Lemma exports_exact l instance guest :
  exact (check_exports o l instance guest) (λ k _, ∃ ks, Forall2 (λ e k, Lifts instance guest e.1 e.2 k) l ks ∧ k = sum_list ks).
Proof.
  induction l as [|[name func] l IH]; cbn [check_exports].
  - eapply exact_iff; [|apply exact_ret]. intros k []. split; [intros [-> _]; by exists []|]. intros (ks & Hk%Forall2_nil_inv_l & ->). by subst ks.
  - eapply exact_iff; [|apply exact_bind; [apply export_exact|intros ?; exact IH]]. intros k []. split.
    + intros (k1 & k2 & _ & H1 & (ks & H2 & ->) & ->). exists (k1 :: ks). split; [by constructor|done].
    + intros (ks & Hk & ->). apply Forall2_cons_inv_l in Hk as (k1 & ks' & H1 & H2 & ->). exists k1, (sum_list ks'), tt. eauto.
Qed.

(** Instantiated once, and with what *)
Definition instantiated_once (module instance : nat) (args : list (string * nat)) : Prop :=
  core_instances o !! instance = Some (Instantiate module args) ∧
  ∀ i args', core_instances o !! i = Some (Instantiate module args') → i = instance.
Lemma instantiations_none at_ module l : instantiations_from at_ module l = [] ↔ ∀ i args, l !! i ≠ Some (Instantiate module args).
Proof.
  revert at_. induction l as [|c l IH]; intros at_; [done|]. split.
  - intros E i args. destruct c as [m a|items]; cbn [instantiations_from] in E.
    + case_decide; [done|]. destruct i as [|i]; [by intros [= ? ?]|]. by apply (IH (S at_)).
    + destruct i as [|i]; [done|]. by apply (IH (S at_)).
  - intros Hn. destruct c as [m a|items]; cbn [instantiations_from].
    + rewrite decide_False by (intros ->; by apply (Hn 0%nat a)). apply IH. intros i args. apply (Hn (S i)).
    + apply IH. intros i args. apply (Hn (S i)).
Qed.
Lemma instantiations_one at_ module l i args : instantiations_from at_ module l = [(i, args)] ↔
  ∃ j, i = (at_ + j)%nat ∧ l !! j = Some (Instantiate module args) ∧ ∀ j' args', l !! j' = Some (Instantiate module args') → j' = j.
Proof.
  revert at_. induction l as [|c l IH]; intros at_; [split; [done|intros (j & _ & ? & _); done]|].
  assert (∀ c l, (∀ a, c ≠ Instantiate module a) →
    (∃ j, i = (S at_ + j)%nat ∧ l !! j = Some (Instantiate module args) ∧ ∀ j' args', l !! j' = Some (Instantiate module args') → j' = j) ↔
    ∃ j, i = (at_ + j)%nat ∧ (c :: l) !! j = Some (Instantiate module args) ∧ ∀ j' args', (c :: l) !! j' = Some (Instantiate module args') → j' = j) as Hskip.
  { clear. intros c l Hc. split.
    - intros (j & -> & Hj & Hu). exists (S j). split_and!; [lia|done|]. intros [|j'] args' Hj'; [injection Hj' as ->; by destruct (Hc args')|]. f_equal. by eapply Hu.
    - intros ([|j] & -> & Hj & Hu); [injection Hj as ->; by destruct (Hc args)|]. exists j. split_and!; [lia|done|].
      intros j' args' Hj'. specialize (Hu (S j') args' Hj'). by injection Hu. }
  destruct c as [m a|items]; cbn [instantiations_from]; [|rewrite IH; by apply Hskip].
  case_decide as E; cbn [app]; [subst m|rewrite IH; apply Hskip; congruence]. split.
  - intros [= <- <- Hn]. pose proof (proj1 (instantiations_none _ _ _) Hn) as Hno. clear Hn. rename Hno into Hn. exists 0%nat. split_and!; [lia|done|]. intros [|j'] args' Hj'; [done|]. by destruct (Hn j' args').
  - intros ([|j] & -> & Hj & Hu); [|by specialize (Hu 0%nat a eq_refl)]. injection Hj as <-. rewrite Nat.add_0_r. f_equal. apply instantiations_none.
    intros j args' Hj. by specialize (Hu (S j) args' Hj).
Qed.
Lemma instantiations_once module i args : instantiations o module = [(i, args)] ↔ instantiated_once module i args.
Proof. unfold instantiations. rewrite instantiations_one. split; [by intros (j & -> & ?)|]. intros H. by exists i. Qed.

(** The one module of a role, or none *)
Definition the_module (r : CoreRole) (x : option (nat * CoreModule)) : Prop :=
  match x with
  | Some (i, m) => modules o !! i = Some m ∧ m_role m = r ∧ ∀ j m', modules o !! j = Some m' → m_role m' = r → j = i
  | None => ∀ j m, modules o !! j = Some m → m_role m ≠ r
  end.
Lemma count_find r : match find_role o r with
  | Some x => (1 ≤ count o r)%nat ∧ (count o r = 1%nat ↔ the_module r (Some x)) ∧ (the_module r None → False)
  | None => count o r = 0%nat ∧ the_module r None
  end.
Proof.
  unfold find_role, count, the_module. assert (∀ at_ l, match find_from at_ r l with
    | Some (i, m) => (1 ≤ length (List.filter (is_role r) l))%nat ∧ (∃ j, i = (at_ + j)%nat ∧ l !! j = Some m ∧ m_role m = r ∧
        (length (List.filter (is_role r) l) = 1%nat ↔ ∀ j' m', l !! j' = Some m' → m_role m' = r → j' = j))
    | None => length (List.filter (is_role r) l) = 0%nat ∧ ∀ j m, l !! j = Some m → m_role m ≠ r
    end) as H.
  { intros at_ l. revert at_. induction l as [|m l IH]; intros at_; cbn [find_from List.filter]; [done|].
    destruct (is_role r m) eqn:Er; unfold is_role in Er; [apply bool_decide_eq_true in Er|apply bool_decide_eq_false in Er].
    - split; [cbn; lia|]. exists 0%nat. split_and!; [lia|done..|]. cbn [length]. split.
      + intros [= El] [|j] m' Hj Hm; [done|]. specialize (IH at_). destruct (find_from at_ r l) as [[i mi]|].
        * destruct IH as [? _]. change (length (List.filter (is_role r) l) = 0%nat) in El. lia.
        * destruct IH as [_ Hn]. by destruct (Hn _ _ Hj).
      + intros Hu. f_equal. specialize (IH at_). destruct (find_from at_ r l) as [[i mi]|]; [|by destruct IH].
        destruct IH as (_ & j & _ & Hj & Hm & _). by specialize (Hu (S j) mi Hj Hm).
    - specialize (IH (S at_)). destruct (find_from (S at_) r l) as [[i mi]|].
      + destruct IH as (Hc & j & -> & Hj & Hm & Hu). split; [done|]. exists (S j). split_and!; [lia|done..|]. rewrite Hu. split.
        * intros Hn [|j'] m' Hj' Hm'; [by injection Hj' as ->|]. f_equal. by eapply Hn.
        * intros Hn j' m' Hj' Hm'. specialize (Hn (S j') m' Hj' Hm'). by injection Hn.
      + destruct IH as [Hc Hn]. split; [done|]. intros [|j] m' Hj; [by injection Hj as <-|]. by apply Hn in Hj. }
  specialize (H 0%nat (modules o)). destruct (find_from 0 r (modules o)) as [[i m]|]; [|done].
  destruct H as (Hc & j & -> & Hj & Hm & Hu). split_and!; [done| |intros Hn; by destruct (Hn _ _ Hj)]. rewrite Hu. cbn. naive_solver.
Qed.

(** The shim imports and starts nothing; the fixups, instantiated once, import
    functions and the one shim instance's table. *)
Definition Fills (shim fixups : nat * CoreModule) : Prop :=
  m_imports shim.2 = [] ∧ m_start shim.2 = None ∧
  ∃ shim_instance a fixups_instance args,
    instantiated_once shim.1 shim_instance a ∧ instantiated_once fixups.1 fixups_instance args ∧
    Forall (λ i, i.2 = KFunc ∨ i.2 = KTable ∧ given o args i.1.1 i.1.2 KTable = Some (Export shim_instance "$imports")) (m_imports fixups.2).
(** The initializer, instantiated once, starts its one import, the guest instance's [_initialize]. *)
Definition Initializes (index : nat) (m : CoreModule) (instance : nat) (guest : CoreModule) : Prop :=
  m_start m = Some 0%nat ∧ "_initialize"%string ∈ m_exports guest ∧
  ∃ module name i args, m_imports m = [(module, name, KFunc)] ∧ instantiated_once index i args ∧
    given o args module name KFunc = Some (Export instance "_initialize").
Lemma shim_exact shim fixups : check_shim o shim fixups = Ok tt ↔ Fills shim fixups.
Proof.
  unfold check_shim, Fills. destruct (m_imports shim.2); [|split; [done|by intros []]]. destruct (m_start shim.2); [split; [done|by intros (_ & ? & _)]|].
  split.
  - destruct (instantiations o shim.1) as [|[si a] []] eqn:Es; try done. destruct (instantiations o fixups.1) as [|[fi args] []] eqn:Ef; try done.
    apply instantiations_once in Es, Ef. destruct (forallb _ _) eqn:Ew; [|done]. intros _. split_and!; [done..|]. exists si, a, fi, args. split_and!; [done..|].
    apply Forall_forall. intros i Hi. rewrite forallb_forall in Ew. apply list_elem_of_In, Ew in Hi. unfold wired in Hi.
    destruct (i.2); try done; [by left|right]. by case_bool_decide.
  - intros (_ & _ & si & a & fi & args & Es & Ef & Hw). apply instantiations_once in Es, Ef. rewrite Es, Ef.
    assert (forallb (wired o (Export si "$imports") args) (m_imports fixups.2) = true) as ->; [|done]. apply forallb_forall.
    intros i Hi%list_elem_of_In. rewrite Forall_forall in Hw. destruct (Hw i Hi) as [E|[E Hg]]; unfold wired; rewrite E; [done|]. by apply bool_decide_eq_true.
Qed.
Lemma initializer_exact index m instance guest : check_initializer o index m instance guest = Ok tt ↔ Initializes index m instance guest.
Proof.
  unfold check_initializer, Initializes.
  destruct (m_imports m) as [|[[module name] kind] rest] eqn:Ei; [split; [done|intros (_ & _ & ? & ? & ? & ? & ? & _); done]|].
  destruct (decide (kind = KFunc ∧ rest = [])) as [[-> ->]|Hne]; [|split; [destruct kind, rest; try done; naive_solver|intros (_ & _ & ? & ? & ? & ? & [=] & _); naive_solver]].
  case_bool_decide as Hs; cbn [negb orb]; [|split; [done|by intros (? & _)]].
  case_bool_decide as He; cbn [negb orb]; [|split; [done|by intros (_ & ? & _)]]. split.
  - destruct (instantiations o index) as [|[i args] []] eqn:E; try done. apply instantiations_once in E. case_decide; [|done]. intros _. split_and!; [done..|].
    by exists module, name, i, args.
  - intros (_ & _ & module' & name' & i & args & [= <- <-] & E & Hg). apply instantiations_once in E. rewrite E. by rewrite decide_True.
Qed.
Lemma world_names_perm : world_names (exports o) = true ↔ (exports o).*1 ≡ₚ ["dispatch"; "functions"]%string.
Proof.
  unfold world_names. rewrite orb_true_iff, !bool_decide_eq_true. generalize (exports o).*1 as l. intros l. split; [intros [-> | ->]; [done|apply Permutation_swap]|].
  intros Hp. pose proof (Permutation_length Hp) as Hlen. destruct l as [|a [|b []]]; try done.
  apply Permutation_length_2_inv in Hp. naive_solver.
Qed.

(** What an admitted component's layer is *)
Record Laid_out (g : GuestModule) : Prop := {
  laid_guest : ∃ index guest instance args shim fixups initializer ks,
    the_module Guest (Some (index, guest)) ∧ instantiated_once index instance args ∧
    (exports o).*1 ≡ₚ ["dispatch"; "functions"]%string ∧
    Forall2 (λ e k, Lifts instance guest e.1 e.2 k) (exports o) ks ∧ Z.of_nat (sum_list ks) ≤ TYPE_BUDGET ∧
    the_module Shim shim ∧ the_module Fixups fixups ∧ the_module Initializer initializer ∧
    match shim, fixups with Some shim, Some fixups => Fills shim fixups | None, None => True | _, _ => False end ∧
    match initializer with Some (i, m) => Initializes i m instance guest | None => True end ∧
    g = mkGuest (m_bytes guest) (match initializer with Some _ => true | None => false end) }.

(** The count of a role's modules tells whether there is one, and which. *)
Lemma role_one r : (count o r <= 1)%nat → the_module r (find_role o r) ∧ count o r = match find_role o r with Some _ => 1%nat | None => 0%nat end.
Proof.
  intros Hc. pose proof (count_find r) as H. destruct (find_role o r) as [x|]; [|by destruct H]. destruct H as (H1 & H2 & _).
  assert (count o r = 1%nat) by lia. split; [by apply H2|done].
Qed.
Lemma the_role r x : the_module r x → find_role o r = x ∧ count o r = match x with Some _ => 1%nat | None => 0%nat end.
Proof.
  intros Hx. pose proof (count_find r) as H. destruct (find_role o r) as [[i m]|] eqn:E.
  - destruct H as (H1 & H2 & H3). destruct x as [[j m']|]; [|by destruct H3].
    assert (j = i ∧ m' = m) as [-> ->].
    { assert (∃ m0, modules o !! i = Some m0 ∧ m_role m0 = r ∧ m0 = m) as (m0 & Hm0 & Hr0 & ->).
      { exists m. revert E. unfold find_role. intros E. assert (∀ at_ l i m, find_from at_ r l = Some (i, m) → ∃ j, i = (at_ + j)%nat ∧ l !! j = Some m ∧ m_role m = r) as Hf.
        { clear. intros at_ l. revert at_. induction l as [|m0 l IH]; intros at_ i m; cbn [find_from]; [done|]. unfold is_role. case_bool_decide.
          - intros [= <- <-]. exists 0%nat. split_and!; [lia|done..].
          - intros (j & -> & Hj)%IH. exists (S j). split; [lia|done]. }
        destruct (Hf _ _ _ _ E) as (j' & -> & Hj & Hr). done. }
      destruct Hx as (Hj & Hr & Hu). specialize (Hu _ _ Hm0 Hr0). subst i. split; [done|congruence]. }
    split; [done|]. by apply H2.
  - destruct H as [H1 H2]. destruct x as [[j m']|]; [|done]. destruct Hx as (Hj & Hr & _). by destruct (H2 _ _ Hj).
Qed.
Lemma result_then {E A B} (m : result E A) (f : A → result E B) b : m ≫= f = Ok b → ∃ a, m = Ok a ∧ f a = Ok b.
Proof. destruct m as [a|]; [|done]. by exists a. Qed.
Lemma guest_laid_out g : guest o = Ok g ↔ Laid_out g.
Proof.
  unfold guest. split.
  - destruct (negb _ || _ || _ || _ || _) eqn:Ec; [done|]. rewrite !orb_false_iff, !negb_false_iff, !Nat.eqb_eq, !Nat.ltb_ge in Ec.
    destruct Ec as ((((Hg & Hs) & Hf) & Hsf) & Hi).
    destruct (role_one Guest ltac:(lia)) as [Hgm Hgc], (role_one Shim Hs) as [Hsm Hsc], (role_one Fixups Hf) as [Hfm Hfc], (role_one Initializer Hi) as [Him _].
    destruct (find_role o Guest) as [[index gm]|]; [|done].
    destruct (instantiations o index) as [|[instance args] []] eqn:Ei; try done. apply instantiations_once in Ei.
    destruct (world_names (exports o)) eqn:Ew; [|done]. cbn [negb]. apply world_names_perm in Ew.
    destruct (check_exports o (exports o) instance gm TYPE_BUDGET) as [[[] rest]|] eqn:Ee; [|done]. cbn [mbind result_bind].
    apply exports_exact in Ee as (k & (ks & Hks & ->) & _ & Hk); [|done]. intros Hrest.
    apply result_then in Hrest as ([] & Hsh & ([] & Hini & [= <-])%result_then).
    split. exists index, gm, instance, args, (find_role o Shim), (find_role o Fixups), (find_role o Initializer), ks. split_and!; [done..| | |done].
    + rewrite Hsc, Hfc in Hsf. destruct (find_role o Shim), (find_role o Fixups); try done. by apply shim_exact.
    + destruct (find_role o Initializer) as [[i m]|]; [|done]. by apply initializer_exact.
  - intros [(index & gm & instance & args & shim & fixups & initializer & ks & Hg & Hi & Hn & Hks & Hk & Hs & Hf & Hin & Hsf & Hini & ->)].
    apply the_role in Hg as [-> ->], Hs as [-> ->], Hf as [-> ->], Hin as [-> ->].
    assert (negb (1 =? 1)%nat || (1 <? match shim with Some _ => 1 | None => 0 end)%nat || (1 <? match fixups with Some _ => 1 | None => 0 end)%nat
      || negb (match shim with Some _ => 1 | None => 0 end =? match fixups with Some _ => 1 | None => 0 end)%nat
      || (1 <? match initializer with Some _ => 1 | None => 0 end)%nat = false) as ->.
    { destruct shim, fixups, initializer; done. }
    apply instantiations_once in Hi. rewrite Hi. apply world_names_perm in Hn. rewrite Hn. cbn [negb].
    assert (check_exports o (exports o) instance gm TYPE_BUDGET = Ok (tt, TYPE_BUDGET - Z.of_nat (sum_list ks))) as ->.
    { apply exports_exact; [done|]. exists (sum_list ks). split_and!; [by exists ks|done..]. }
    cbn [mbind result_bind].
    assert (match shim with Some s => match fixups with Some f => check_shim o s f | None => Ok tt end | None => Ok tt end = Ok tt) as ->.
    { destruct shim, fixups; try done. by apply shim_exact. }
    cbn [mbind result_bind]. destruct initializer as [[i m]|]; [|done]. by rewrite (proj2 (initializer_exact i m instance gm) Hini).
Qed.
Lemma guest_layout g : guest o = Ok g → ∃ index m, modules o !! index = Some m ∧ m_role m = Guest ∧
  (∀ j m', modules o !! j = Some m' → m_role m' = Guest → j = index) ∧ g_bytes g = m_bytes m.
Proof. intros [(index & m & ? & ? & ? & ? & ? & ? & (Hi & Hr & Hu) & _ & _ & _ & _ & _ & _ & _ & _ & _ & ->)]%guest_laid_out. by exists index, m. Qed.

(** The checks pass exactly the components laid out as the browser runs them:
    one guest module instantiated once, [functions] and [dispatch] lifting its
    own functions over its memory at the world's types, a shim and fixups that
    touch no more than the shim's table, an initializer that runs the guest's
    [_initialize]; and they answer that module's bytes. *)
Theorem guest_exact g : guest o = Ok g ↔ Laid_out g.
Proof. apply guest_laid_out. Qed.
End Layout.

(** ** The component's sections *)
Section Read.
Context `{WP : WasmParser}.
(** The payloads of the component's own, past those of its core modules *)
Fixpoint own (in_module : bool) (l : list (option Payload)) : list Payload :=
  match l with
  | Some p :: l =>
      if in_module then own (match p with End_ => false | _ => true end) l
      else p :: own (match p with ModuleSection _ _ => true | _ => false end) l
  | _ => []
  end.
Definition sections (l : list Payload) : list (nat * nat) := l ≫= λ p, match p with ModuleSection s e => [(s, e)] | _ => [] end.
Definition slice_of (component : list byte) (r : nat * nat) : list byte := take (r.2 - r.1) (drop r.1 component).
(** No nested component, start function or instance of a component, no module
    from elsewhere; imports of interfaces every host provides, or of a type the
    component has; exports of functions *)
Definition admitted (p : Payload) : Prop :=
  match p with
  | ComponentSection | ComponentStartSection | ComponentInstanceSection => False
  | ComponentAliasSection l => ∀ a, Some a ∈ l → match a with AInstanceExport EModule _ _ | AOuter OCoreModule _ _ => False | _ => True end
  | ComponentImportSection l => ∀ i, Some i ∈ l →
      match im_ty i with RInstance _ => im_implements i = false ∧ provided (im_full_name i) = true | RType (BEq _) => True | _ => False end
  | ComponentExportSection l => ∀ e, Some e ∈ l → ex_kind e = EFunc
  | _ => True
  end.
Lemma each_ok {S A} e (f : A → S → result Refusal S) (P : A → Prop) (R : S → S → Prop) l s s' :
  (∀ s, R s s) → (∀ s1 s2 s3, R s1 s2 → R s2 s3 → R s1 s3) → (∀ a s s', f a s = Ok s' → P a ∧ R s s') →
  each e f l s = Ok s' → (∀ a, Some a ∈ l → P a) ∧ R s s'.
Proof.
  intros Hr Ht Hf. revert s. induction l as [|[a|] l IH]; intros s; cbn [each]; [intros [= <-]; split; [|done]; by intros a ?%elem_of_nil| |done].
  intros (s1 & [Ha H1]%Hf & [Hl H2]%IH)%result_then. split; [|by eapply Ht]. intros a' [[= ->]|Hin]%elem_of_cons; [done|by apply Hl].
Qed.
Lemma payload_ok component p o o' b : payload component p o = Ok (o', b) →
  admitted p ∧ b = (match p with ModuleSection _ _ => true | _ => false end) ∧
  ∃ ms, modules o' = modules o ++ ms ∧ Forall2 (λ r m, core_module (slice_of component r) = Ok m) (sections [p]) ms.
Proof.
  assert (∀ {A} (f : A → Outer → result Refusal Outer) (P : A → Prop) l, (∀ a s s', f a s = Ok s' → P a ∧ modules s' = modules s) →
    match each DoesNotRead f l o with Ok o => Ok (o, false) | Err e => Err e end = Ok (o', b) →
    (∀ a, Some a ∈ l → P a) ∧ b = false ∧ ∃ ms, modules o' = modules o ++ ms ∧ Forall2 (λ r m, core_module (slice_of component r) = Ok m) [] ms) as Heach.
  { intros A f P l Hf He. destruct (each DoesNotRead f l o) as [o1|] eqn:E; [|done]. injection He as <- <-.
    apply (each_ok _ _ P (λ s s', modules s' = modules s)) in E as [HP Hm]; [|done|congruence|done].
    split_and!; [done..|]. exists []. by rewrite app_nil_r. }
  assert (∀ P, P → (Ok (o, false) : result Refusal (Outer * bool)) = Ok (o', b) → P ∧ b = false ∧ ∃ ms, modules o' = modules o ++ ms ∧ Forall2 (λ r m, core_module (slice_of component r) = Ok m) [] ms) as Hskip.
  { intros P HP [= <- <-]. split_and!; [done..|]. exists []. by rewrite app_nil_r. }
  destruct p; cbn [payload admitted]; try done; try (by apply Hskip).
  - destruct (_ && _) eqn:Hb; [|done]. intros (m & Hm & [= <- <-])%result_then. split_and!; [done..|]. exists [m]. split; [done|]. by repeat constructor.
  - intros [_ ?]%(Heach _ _ (λ _, True)); [done|]. by intros a s s' [= <-].
  - apply Heach. intros a s s'. destruct a as [[]|[]|[]]; cbn [alias]; try done; by intros [= <-].
  - intros [_ ?]%(Heach _ _ (λ _, True)); [done|]. intros [] s s'; by intros [= <-].
  - intros [_ ?]%(Heach _ _ (λ _, True)); [done|]. by intros a s s' [= <-].
  - apply Heach. intros i s s'. unfold import. destruct (im_ty i) as [t|[t|]|]; try done; [|by intros [= <-]].
    destruct (im_implements i); cbn [negb andb]; [done|]. destruct (provided _); [|done]. by intros [= <-].
  - apply Heach. intros x s s'. unfold export. case_bool_decide; cbn [negb]; [|done]. destruct (funcs s !! ex_index x); [|done]. by intros [= <-].
Qed.
Lemma payloads_ok component l b o o' : read_payloads component l b o = Ok o' →
  (∀ p, p ∈ own b l → admitted p) ∧
  ∃ ms, modules o' = modules o ++ ms ∧ Forall2 (λ r m, core_module (slice_of component r) = Ok m) (sections (own b l)) ms.
Proof.
  revert b o. induction l as [|[p|] l IH]; intros b o; cbn [read_payloads own]; [intros [= <-]; split; [by intros p ?%elem_of_nil|exists []; by rewrite app_nil_r]| |done].
  destruct b; [by intros ?%IH|]. intros ([o1 b] & (Ha & -> & ms & Hm & Hms)%payload_ok & (Hl & ms' & Hm' & Hms')%IH)%result_then. split.
  - intros p' [->|Hp]%elem_of_cons; [done|by apply Hl].
  - exists (ms ++ ms'). split; [by rewrite Hm', Hm, app_assoc|]. unfold sections in *. cbn [mbind list_bind] in *. rewrite app_nil_r in Hms. by apply Forall2_app.
Qed.
(** *** No index is out of range *)
Definition in_range {A} (r : result Refusal A) : Prop := r ≠ Err OutOfRange.
Lemma in_range_bind {A C} (m : result Refusal A) (f : A → result Refusal C) : in_range m → (∀ a, m = Ok a → in_range (f a)) → in_range (m ≫= f).
Proof. intros Hm Hf. destruct m as [a|e]; [by apply Hf|]. intros [= ->]. by apply Hm. Qed.
Lemma in_range_each {S A} e (f : A → S → result Refusal S) l s : e ≠ OutOfRange → (∀ a s, in_range (f a s)) → in_range (each e f l s).
Proof.
  intros He Hf. revert s. induction l as [|[a|] l IH]; intros s; cbn [each]; [done| |by intros [= ->]].
  apply in_range_bind; [apply Hf|intros; apply IH].
Qed.
Definition in_range_se {A} (m : B A) : Prop := ∀ b, in_range (m b).
Lemma in_range_se_bind {A C} (m : B A) (f : A → B C) : in_range_se m → (∀ a, in_range_se (f a)) → in_range_se (se_bind m f).
Proof. intros Hm Hf b. unfold se_bind. specialize (Hm b). destruct (m b) as [[a b']|]; [apply Hf|]. intros [= ->]. by apply Hm. Qed.
Create HintDb ranges.
Lemma in_range_ret {A} (a : A) : in_range_se (se_ret a).
Proof. done. Qed.
Lemma in_range_visit i : in_range_se (visit i).
Proof. intros n. unfold visit. by destruct (n =? 0). Qed.
#[local] Hint Resolve in_range_ret in_range_visit : ranges.
Ltac ranges := repeat first
  [solve [auto with ranges] | apply in_range_se_bind; [|intros] | progress intros | lazymatch goal with |- in_range_se (se_fail _) => by intros ? end | case_match].
Section Resolving.
Context (o : Outer) (resolve : nat → B Val) (Hr : ∀ i, in_range_se (resolve i)).
Lemma in_range_val t : in_range_se (val_of resolve t).
Proof. destruct t; cbn; ranges. Qed.
#[local] Hint Resolve in_range_val : ranges.
Lemma in_range_fields l : in_range_se (fields_of resolve l).
Proof. induction l as [|[n t] l IH]; cbn; ranges. Qed.
Lemma in_range_case t : in_range_se (case_of resolve t).
Proof. destruct t; cbn; ranges. Qed.
#[local] Hint Resolve in_range_fields in_range_case : ranges.
Lemma in_range_defined i t : in_range_se (defined_of resolve i t).
Proof. destruct t; cbn; ranges. Qed.
End Resolving.
Lemma in_range_ty o d scope i : in_range_se (ty o d scope i).
Proof.
  revert scope i. induction d as [|d IH]; intros scope i; cbn [ty]; [by intros ?|].
  apply in_range_se_bind; [apply in_range_visit|]. intros _. pose proof in_range_defined. ranges.
Qed.
Lemma in_range_signature o turns i : in_range_se (signature o turns i).
Proof.
  assert (∀ i, in_range_se (resolve o i)) as Hr by (intros j; apply in_range_ty).
  assert (∀ l, in_range_se (vals_of o l)) as Hv by (induction l as [|[n t] l IH]; cbn; pose proof in_range_val; ranges).
  revert i. induction turns as [|turns IH]; intros i; cbn [signature]; [by intros ?|]. pose proof in_range_case. ranges.
Qed.
Lemma in_range_options o name instance l m r p : in_range (check_options o name instance l m r p).
Proof. revert m r p. induction l as [|[] l IH]; intros; cbn [check_options]; try done; try case_match; try apply IH; done. Qed.
Lemma in_range_exports o l instance guest : in_range_se (check_exports o l instance guest).
Proof.
  induction l as [|[name func] l IH]; cbn [check_exports]; [apply in_range_ret|]. apply in_range_se_bind; [|done].
  unfold check_export. destruct (funcs o !! func) as [[core ty options|]|]; try by intros ?. destruct (negb _); [by intros ?|].
  pose proof (in_range_options o name instance options false false None) as Ho. destruct (check_options _ _ _ _ _ _ _) as [[[? ?] ?]|e]; [|intros ? [= ->]; by apply Ho].
  destruct (_ || _); [by intros ?|]. destruct (negb _); [by intros ?|]. apply in_range_se_bind; [apply in_range_signature|]. intros s ?. by destruct (signature_eqb _ _).
Qed.
Lemma in_range_guest o : in_range (guest o).
Proof.
  unfold guest. destruct (_ || _) eqn:Ec; [done|]. rewrite !orb_false_iff, !negb_false_iff, !Nat.eqb_eq in Ec.
  pose proof (count_find o Guest) as Hg. destruct (find_role o Guest) as [[i m]|]; [|lia]. destruct (instantiations o i) as [|[? ?] []]; try done.
  destruct (negb _); [done|]. apply in_range_bind; [apply in_range_exports|]. intros [] _. apply in_range_bind; [|intros _ _; apply in_range_bind; [|done]].
  - destruct (find_role o Shim), (find_role o Fixups); try done. unfold check_shim. by repeat case_match.
  - destruct (find_role o Initializer) as [[? ?]|]; [|done]. unfold check_initializer. by repeat case_match.
Qed.
Lemma in_range_module bytes : in_range (core_module bytes).
Proof.
  apply in_range_bind; [|done]. apply in_range_each; [done|]. intros [] m; cbn [module_payload]; try done; by apply in_range_each.
Qed.
(** Reading a component, and checking it, index within it, at any bytes. *)
Theorem guest_module_in_range `{!WasmParserLaws} component : guest_module component ≠ Err OutOfRange.
Proof.
  unfold guest_module. destruct (negb _); [done|]. apply in_range_bind; [|intros; apply in_range_guest]. unfold read.
  assert (∀ s e, Some (ModuleSection s e) ∈ parse_all component → (s ≤ e ∧ e ≤ length component)%nat) as Hr by apply module_range.
  revert Hr. generalize (parse_all component) as l, false as b, empty_outer as o. intros l.
  induction l as [|[p|] l IH]; intros b o Hr; cbn [read_payloads]; [done| |done].
  assert (∀ b o, in_range (read_payloads component l b o)) as Hl. { intros b' o'. apply IH. intros s e Hin. apply Hr. by right. }
  destruct b; [apply Hl|]. apply in_range_bind; [|intros [] _; apply Hl].
  assert (∀ A (f : A → Outer → result Refusal Outer) k, (∀ a s, in_range (f a s)) →
    in_range (match each DoesNotRead f k o with Ok o => Ok (o, false) | Err e => Err e end)) as Heach.
  { intros A f k Hf. pose proof (in_range_each DoesNotRead f k o ltac:(done) Hf) as He. destruct (each _ _ _ _); [done|]. intros [= ->]. by apply He. }
  destruct p as [|s e| | | |k|k|k|k|k|k|k|k|f|]; cbn [payload]; try done; try apply Heach.
  - destruct (Hr s e) as [H1 H2]; [by left|]. rewrite !(proj2 (Nat.leb_le _ _)) by done. cbn [andb]. apply in_range_bind; [apply in_range_module|done].
  - done.
  - intros [[]|[]|[]] s; done.
  - intros [] s; done.
  - done.
  - intros i s. unfold import. by repeat case_match.
  - intros x s. unfold export. by repeat case_match.
Qed.
Lemma core_module_bytes bytes m : core_module bytes = Ok m → m_bytes m = bytes.
Proof. unfold core_module. by intros (m1 & _ & [= <-])%result_then. Qed.

(** C22. Of a component that is admitted, what is run is the one guest module it
    defines, its bytes taken where the component holds them: every other module
    of its own is no guest, no section nests, starts or instantiates a
    component, none takes a module from elsewhere, and all it imports is
    interfaces every host provides, and types it has. *)
Theorem component_admitted component g : guest_module component = Ok g →
  is_component component = true ∧
  (∀ p, p ∈ own false (parse_all component) → admitted p) ∧
  ∃ before r after m,
    sections (own false (parse_all component)) = before ++ r :: after ∧
    g_bytes g = slice_of component r ∧ core_module (g_bytes g) = Ok m ∧ m_role m = Guest ∧
    ∀ r', r' ∈ before ++ after → ∃ m', core_module (slice_of component r') = Ok m' ∧ m_role m' ≠ Guest.
Proof.
  unfold guest_module. destruct (is_component component); [|done]. cbn [negb]. intros (o & Hr & Hg)%result_then. split; [done|].
  apply payloads_ok in Hr as (Ha & ms & Hm & Hms). cbn in Hm. split; [exact Ha|].
  apply guest_layout in Hg as (index & m & Hi & Hrole & Hu & ->). rewrite Hm in Hi, Hu. clear Hm o Ha.
  apply (Forall2_lookup_r _ _ _ _ _ Hms) in Hi as (r & Hr & Hcm). pose proof (core_module_bytes _ _ Hcm) as Hb.
  exists (take index (sections (own false (parse_all component)))), r, (drop (S index) (sections (own false (parse_all component)))), m.
  split_and!; [by rewrite take_drop_middle|done|by rewrite Hb|done|].
  intros r' Hr'. assert (∃ j, j ≠ index ∧ sections (own false (parse_all component)) !! j = Some r') as (j & Hj & Hrj).
  { apply elem_of_app in Hr' as [Hr'|Hr']; apply list_elem_of_lookup in Hr' as [j Hj].
    - apply lookup_take_Some in Hj as [Hj ?]. exists j. split; [lia|done].
    - rewrite lookup_drop in Hj. exists (S index + j)%nat. split; [lia|done]. }
  destruct (Forall2_lookup_l _ _ _ _ _ Hms Hrj) as (m' & Hm' & Hc). exists m'. split; [done|]. intros Hrole'. apply Hj. by apply (Hu j m').
Qed.
End Read.

(** * A component as [wit-component] lays one out: a guest with a shim, fixups and an initializer *)
From Stdlib Require Import Ascii.

Open Scope string_scope.
Definition guest_payloads : list (option Payload) :=
  [Some (ExportSection (Some <$> ["memory"; "_initialize"; "cabi_realloc"; "functions"; "cabi_post_functions"; "dispatch"; "cabi_post_dispatch"])); Some End_].
Definition shim_payloads : list (option Payload) := [Some (ExportSection [Some "$imports"]); Some End_].
Definition fixups_payloads : list (option Payload) := [Some (ImportSection [Some ("", "$imports", KTable)]); Some End_].
Definition initializer_payloads : list (option Payload) := [Some (ImportSection [Some ("", "", KFunc)]); Some (StartSection 0); Some End_].
(** The component's own sections, its modules being the bytes 8 to 12; [id_fields] are the world's id's *)
Definition component_payloads (id_fields : list (string * ComponentValType)) (interface : string) : list (option Payload) := Some <$>
  [ComponentTypeSection [Some (CInstance [IType (CDefined (DRecord id_fields)); IExport "id" (RType (BEq 0))])];
   ComponentImportSection [Some (mkImport interface false (RInstance 0))];
   ComponentAliasSection [Some (AInstanceExport EType 0 "id")];
   ComponentImportSection [Some (mkImport "id" false (RType (BEq 1)))];
   ModuleSection 8 9; OtherPayload; End_; ModuleSection 9 10; OtherPayload; End_; ModuleSection 10 11; OtherPayload; End_; ModuleSection 11 12; OtherPayload; End_;
   InstanceSection [Some (IInstantiate 0 []); Some (IInstantiate 1 [])];
   ComponentAliasSection (Some <$> [ACoreInstanceExport KTable 1 "$imports"; ACoreInstanceExport KMemory 0 "memory"; ACoreInstanceExport KFunc 0 "functions";
     ACoreInstanceExport KFunc 0 "cabi_post_functions"; ACoreInstanceExport KFunc 0 "dispatch"; ACoreInstanceExport KFunc 0 "cabi_post_dispatch";
     ACoreInstanceExport KFunc 0 "cabi_realloc"; ACoreInstanceExport KFunc 0 "_initialize"]);
   InstanceSection (Some <$> [IFromExports [("$imports", KTable, 0)]; IInstantiate 2 [("", 2)]; IFromExports [("", KFunc, 5)]; IInstantiate 3 [("", 4)]])%nat;
   ComponentTypeSection (Some <$> [CDefined (DList (VType 2)); CFunc (mkFuncType false [] (Some (VType 3))); CDefined (DList (VPrimitive PU8));
     CDefined (DResult (Some (VType 5)) (Some (VPrimitive PString))); CFunc (mkFuncType false [("method", VType 2); ("arg", VType 5)] (Some (VType 6)))]);
   ComponentCanonicalSection [Some (CLift 0 4 [OMemory 0; OPostReturn 1])];
   ComponentExportSection [Some (mkCExport "functions" EFunc 0)];
   ComponentCanonicalSection [Some (CLift 2 7 [OMemory 0; ORealloc 4; UTF8; OPostReturn 3])];
   ComponentExportSection [Some (mkCExport "dispatch" EFunc 2)];
   End_].
Definition id_of (low : string) : list (string * ComponentValType) := [("hi", VPrimitive PU64); (low, VPrimitive PU64)].
Definition types_interface : string := "arora:module/types@0.2.0".
(** A binary by its last byte: the world's component, one whose id has another
    field, one that imports sockets *)
Definition binary (last : Z) : list byte := bytes_of [0; 0x61; 0x73; 0x6D; 0x0D; 0; 1; 0; 1; 2; 3; 4; last].
#[export] Instance sample_parser : WasmParser := λ bytes,
  match map byte_Z bytes with
  | [1] => guest_payloads
  | [2] => shim_payloads
  | [3] => fixups_payloads
  | [4] => initializer_payloads
  | [_; _; _; _; _; _; _; _; _; _; _; _; 0] => component_payloads (id_of "lo") types_interface
  | [_; _; _; _; _; _; _; _; _; _; _; _; 1] => component_payloads (id_of "low") types_interface
  | [_; _; _; _; _; _; _; _; _; _; _; _; 2] => component_payloads (id_of "lo") "wasi:sockets/tcp@0.2.0"
  | _ => [None]
  end.
Close Scope string_scope.

Example world_admitted : guest_module (binary 0) = Ok (mkGuest (bytes_of [1]) true).
Proof. vm_compute. reflexivity. Qed.
Example another_id_refused : match guest_module (binary 1) with Err (AnotherType name _) => name = "functions"%string | _ => False end.
Proof. vm_compute. reflexivity. Qed.
Example sockets_refused : guest_module (binary 2) = Err (NotProvided "wasi:sockets/tcp@0.2.0").
Proof. vm_compute. reflexivity. Qed.

Lemma component_admitted_witness :
  is_component (binary 0) = true ∧
  (∀ p, p ∈ own false (parse_all (binary 0)) → admitted p) ∧
  ∃ before r after m,
    sections (own false (parse_all (binary 0))) = before ++ r :: after ∧
    bytes_of [1] = slice_of (binary 0) r ∧ core_module (bytes_of [1]) = Ok m ∧ m_role m = Guest ∧
    ∀ r', r' ∈ before ++ after → ∃ m', core_module (slice_of (binary 0) r') = Ok m' ∧ m_role m' ≠ Guest.
Proof. apply (component_admitted (binary 0) (mkGuest (bytes_of [1]) true)). vm_compute. reflexivity. Defined.
