(* ===== verification/Engine.v ===== *)
(** * The engine: [arora-engine/src/]

    [engine.rs], [call.rs], [module.rs], [limits.rs] and the module of the
    component executor, [executor/component/mod.rs]. A call is dispatched to its
    module; a guest may call back through its host, and what it calls must end by
    the deadlines of the calls under way. What a guest's code does is a parameter:
    a [Program] computes on its instance's memory, may trap, may dispatch calls of
    its own, and may loop, for ever too. The wall clock and the ticks of the epoch
    are parameters, read one after the other. Guests call each other to any depth
    and loop any number of times: [dispatch] runs on fuel, which bounds both, and to
    be out of it is an outcome of its own, apart from a panic. *)

From S2P Require Import Prelude Values Extern Writer Reader Froto Types WellFormed GuestArguments Schema.

(** ** Errors: a message is the constructor that carries what it names *)
Inductive TrapMessage :=
| NoTimeLeft (module function : Uuid)
| Overran (module : string) (function : Uuid) (budget : Z)
| DispatchTrapped (message : string)
| StillInUse (trap : TrapMessage)
| FailedAfresh (trap : TrapMessage) (error : LoadModuleError)
with LoadModuleError :=
| ExecutorNotFound
| MalformedExecutable
| LInternal (message : LoadMessage)
with LoadMessage :=
| Instantiating (error : TrapMessage)
| FunctionsTrapped (error : TrapMessage)
| NotServed (function : Uuid)
| CannotInstantiate (executor : string).
(** A guest's error: the text it answers, or what the bytes of its error buffer read as *)
Inductive GuestMessage := GuestText (s : string) | Lossy (bytes : list byte) | NoMessage | OfCallError (e : CallFailure)
with CallFailure :=
| CGeneric (message : ArgumentError + string)
| CModuleNotFound (id : Uuid)
| CFunctionNotFound (id : Uuid)
| CTrap (message : TrapMessage)
| CInternal (message : string)
| CGuest (message : GuestMessage).
Inductive DispatchError :=
| DModuleNotFound (id : Uuid)
| DFunctionNotFound (id : Uuid)
| DTrap (message : TrapMessage)
| DInternal (message : string)
| DGuest (message : GuestMessage)
| DArgument (message : ArgumentError).
(** [From<DispatchError> for CallError] *)
Definition into_call_failure (e : DispatchError) : CallFailure :=
  match e with
  | DModuleNotFound id => CModuleNotFound id
  | DFunctionNotFound id => CFunctionNotFound id
  | DTrap message => CTrap message
  | DInternal message => CInternal message
  | DGuest message => CGuest message
  | DArgument message => CGeneric (inl message)
  end.

(** ** [limits.rs]: instants and durations, in nanoseconds *)
Definition DEFAULT_CALL_BUDGET : Z := 1000000000.
Definition DEFAULT_MEMORY : Z := Z.shiftl 256 20.
Record GuestLimits := mkLimits { memory : Z; call_budget : option Z }.
Definition default_limits : GuestLimits := mkLimits DEFAULT_MEMORY None.
Inductive UpdateDeadline := Interrupt | Continue.
Definition on_epoch (deadline now : Z) : UpdateDeadline := if now >=? deadline then Interrupt else Continue.

(** [guest_error] *)
Definition guest_error (buffer : list byte) : option GuestMessage :=
  match buffer !! BUFFER_SIZE_SIZE with
  | Some tag =>
      if byte_Z tag =? TYPE_ERROR then
        let start := (BUFFER_SIZE_SIZE + 1 + 4)%nat in
        Some (if (start <=? length buffer)%nat then
                let len := Z.to_nat (le_Z (take 4 (drop (BUFFER_SIZE_SIZE + 1) buffer))) in
                Lossy (take (Nat.min (length buffer) (start + len) - start) (drop start buffer))
              else NoMessage)
      else None
  | None => None
  end.

Section Engine.
Context `{BY : Bytes} `{UC : UuidCrate} (usize_max : Z).
(** What a guest's instance holds, and what the host's functions share *)
Context {Mem X : Type}.

(** ** A guest's code *)
Inductive Program :=
| Return (r : result string (list byte))
| TrapNow (message : string)
| Step (f : Mem → Mem * Program)
| HostDispatch (module function : Uuid) (arg : list byte) (k : result DispatchError (list byte) → Program)
| Again (label : nat).
(** A compiled component: what its instance starts from, the code its back edges go
    to, a number naming the place with its locals, its initializer, its [functions]
    with the ids they answer, and its [dispatch] *)
Record Component := mkComponent {
  initial : Mem;
  loops : nat → Program;
  initializer : Program;
  functions : Program;
  served : result string (list byte) → list Uuid;
  code : Uuid → list byte → Program }.
(** An instance: its memory, and the deadline its store holds *)
Record Instance := mkInstance { i_memory : Mem; i_deadline : Z }.
Inductive State := Ready | Trapped (trap : TrapMessage) | Lost (message : TrapMessage).
Record ComponentModule := mkCM {
  cm_id : Uuid; cm_name : string; cm_budget : Z; cm_pre : Component; cm_deadline : Z;
  cm_instance : option Instance; cm_function_ids : list Uuid; cm_state : State; cm_entered : nat }.
(** [HostModule], whose functions share what [X] holds, and its builder *)
Definition ModuleFn : Type := Call → X → result CallFailure CallResult * X.
Record FunctionDescription := mkDescription { fd_id : Uuid; fd_name : string; fd_function : Function_ }.
Record HostModule := mkHostModule { hm_id : Uuid; hm_functions : gmap Uuid ModuleFn; hm_descriptions : list FunctionDescription }.
Record ModuleBuilder := mkBuilder { mb_id : Uuid; mb_functions : gmap Uuid ModuleFn; mb_descriptions : list FunctionDescription }.
Definition new_builder (id : Uuid) : ModuleBuilder := mkBuilder id ∅ [].
Definition function_ (function_id : Uuid) (f : ModuleFn) (b : ModuleBuilder) : ModuleBuilder :=
  mkBuilder (mb_id b) (<[function_id := f]> (mb_functions b)) (mb_descriptions b).
Definition described_function (function_id : Uuid) (name : string) (signature : Function_) (f : ModuleFn) (b : ModuleBuilder) : ModuleBuilder :=
  function_ function_id f (mkBuilder (mb_id b) (mb_functions b) (mb_descriptions b ++ [mkDescription function_id name signature])).
Definition build (b : ModuleBuilder) : HostModule := mkHostModule (mb_id b) (mb_functions b) (mb_descriptions b).
Record AroraFunction := mkAroraFunction { af_id : Uuid; af_name : string; af_signature : Function_; invoke : ModuleFn }.
Definition from_exports (id : Uuid) (exports : list AroraFunction) : HostModule :=
  build (foldl (λ b f, described_function (af_id f) (af_name f) (af_signature f) (invoke f) b) (new_builder id) exports).
Inductive Module_ := ComponentM (c : ComponentModule) | HostM (h : HostModule).
Record Loaded := mkLoaded { l_executor : option string; l_module : Module_; l_signatures : option Signatures }.
Record GuestCall := mkGuestCall { gc_module : Uuid; gc_deadline : Z; gc_budget : Z; gc_loading : bool }.
Record Engine_ := mkEngine {
  e_modules : gmap Uuid Loaded;
  e_guest_limits : GuestLimits;
  e_module_limits : gmap Uuid GuestLimits;
  e_step_deadline : option Z;
  (* outermost first *)
  e_guest_calls : list GuestCall }.
(** A tick of the epoch a guest's store checked: when, by which deadline, in which step and the calls under way *)
Record Check_ := mkCheck { ck_now : Z; ck_deadline : Z; ck_step : option Z; ck_calls : list GuestCall }.
(** The engine, the instances being made, innermost first, what the host's
    functions share, how often the clock and the epoch were read, and the ticks
    checked, latest first *)
Record St := mkSt { engine : Engine_; fresh : list Instance; shared : X; reads : nat; ticks_read : nat; checks : list Check_ }.

(** ** Code that may panic, or run out of fuel *)
Inductive PanicAt := Decoding | NoReturnValue | AnotherField | Missing.
Inductive Outcome (A : Type) := Done (a : A) | Panics_ (why : PanicAt) | OutOfFuel_.
#[global] Arguments Done {A} a.
#[global] Arguments Panics_ {A} why.
#[global] Arguments OutOfFuel_ {A}.
Definition E (A : Type) : Type := St → Outcome (A * St).
#[export] Instance E_ret : MRet E := λ A a s, Done (a, s).
#[export] Instance E_bind : MBind E := λ A B f m s,
  match m s with Done (a, s) => f a s | Panics_ why => Panics_ why | OutOfFuel_ => OutOfFuel_ end.
Definition get : E St := λ s, Done (s, s).
Definition put (f : St → St) : E unit := λ s, Done (tt, f s).
Definition panic_ {A} (why : PanicAt) : E A := λ _, Panics_ why.
Definition unwrap {A} (o : option A) : E A := match o with Some a => mret a | None => panic_ Missing end.
(** [?], of a [Result] within *)
Definition try_ {A B Er} (m : E (result Er A)) (f : A → E (result Er B)) : E (result Er B) :=
  r ← m; match r with Ok a => f a | Err e => mret (Err e) end.
Notation "x ←! m ; k" := (try_ m (λ x : _, k)) (at level 20, m at level 100, k at level 200, only parsing).

Definition with_engine (f : Engine_ → Engine_) (s : St) : St := mkSt (f (engine s)) (fresh s) (shared s) (reads s) (ticks_read s) (checks s).
Definition with_fresh (l : list Instance) (s : St) : St := mkSt (engine s) l (shared s) (reads s) (ticks_read s) (checks s).
Definition with_shared (x : X) (s : St) : St := mkSt (engine s) (fresh s) x (reads s) (ticks_read s) (checks s).
Definition with_modules (m : gmap Uuid Loaded) (e : Engine_) : Engine_ :=
  mkEngine m (e_guest_limits e) (e_module_limits e) (e_step_deadline e) (e_guest_calls e).
Definition with_calls (l : list GuestCall) (e : Engine_) : Engine_ :=
  mkEngine (e_modules e) (e_guest_limits e) (e_module_limits e) (e_step_deadline e) l.
Definition push_call (c : GuestCall) : E unit := put (with_engine (λ e, with_calls (e_guest_calls e ++ [c]) e)).
Definition pop_call : E unit := put (with_engine (λ e, with_calls (removelast (e_guest_calls e)) e)).
(** The module under an id, as the executor's own [self] *)
Definition component_of (id : Uuid) (e : Engine_) : option ComponentModule :=
  match e_modules e !! id with Some l => match l_module l with ComponentM c => Some c | HostM _ => None end | None => None end.
Definition set_component (id : Uuid) (c : ComponentModule) (e : Engine_) : Engine_ :=
  with_modules (alter (λ l, mkLoaded (l_executor l) (ComponentM c) (l_signatures l)) id (e_modules e)) e.
Definition self (id : Uuid) : E ComponentModule := s ← get; unwrap (component_of id (engine s)).
Definition set_self (id : Uuid) (f : ComponentModule → ComponentModule) : E unit :=
  c ← self id; put (with_engine (set_component id (f c))).
Definition with_state (x : State) (c : ComponentModule) : ComponentModule :=
  mkCM (cm_id c) (cm_name c) (cm_budget c) (cm_pre c) (cm_deadline c) (cm_instance c) (cm_function_ids c) x (cm_entered c).
Definition with_instance (x : option Instance) (c : ComponentModule) : ComponentModule :=
  mkCM (cm_id c) (cm_name c) (cm_budget c) (cm_pre c) (cm_deadline c) x (cm_function_ids c) (cm_state c) (cm_entered c).
Definition with_entered (n : nat) (c : ComponentModule) : ComponentModule :=
  mkCM (cm_id c) (cm_name c) (cm_budget c) (cm_pre c) (cm_deadline c) (cm_instance c) (cm_function_ids c) (cm_state c) n.

(** ** The clock *)
Context (instants : nat → Z) (epoch : nat → bool).
Definition now : E Z := s ← get; _ ← put (λ s, mkSt (engine s) (fresh s) (shared s) (S (reads s)) (ticks_read s) (checks s)); mret (instants (reads s)).
Definition saturating_since (deadline now : Z) : Z := Z.max 0 (deadline - now).

(** ** [engine.rs] *)
Definition guest_limits (e : Engine_) (module : Uuid) : GuestLimits := default (e_guest_limits e) (e_module_limits e !! module).
Definition set_guest_limits (module : Uuid) (limits : GuestLimits) (e : Engine_) : Engine_ :=
  mkEngine (e_modules e) (e_guest_limits e) (<[module := limits]> (e_module_limits e)) (e_step_deadline e) (e_guest_calls e).
Definition set_step_budget (budget : option Z) : E unit :=
  match budget with
  | Some budget => t ← now; put (with_engine (λ e, mkEngine (e_modules e) (e_guest_limits e) (e_module_limits e) (Some (t + budget)) (e_guest_calls e)))
  | None => put (with_engine (λ e, mkEngine (e_modules e) (e_guest_limits e) (e_module_limits e) None (e_guest_calls e)))
  end.
(** [call_deadline] *)
Definition call_deadline (module : Uuid) : E (Z * Z) :=
  now ← now;
  s ← get;
  let e := engine s in
  let own := (λ budget, now + budget) <$> call_budget (guest_limits e module) in
  let deadline := match e_step_deadline e, own with
                  | Some step, Some own => Z.min step own
                  | Some step, None => step
                  | None, Some own => own
                  | None, None => now + DEFAULT_CALL_BUDGET
                  end in
  let deadline := match last (e_guest_calls e) with Some caller => Z.min deadline (gc_deadline caller) | None => deadline end in
  mret (deadline, saturating_since deadline now).
(** [loading] *)
Definition loading (module : Uuid) (caller : option GuestCall) : E GuestCall :=
  now ← now;
  let deadline := now + DEFAULT_CALL_BUDGET in
  let deadline := match caller with Some caller => Z.min deadline (gc_deadline caller) | None => deadline end in
  mret (mkGuestCall module deadline (saturating_since deadline now) true).
Definition begin_load (module : Uuid) : E Z :=
  s ← get;
  load ← loading module (last (e_guest_calls (engine s)));
  _ ← push_call load;
  mret (gc_deadline load).
Definition end_load : E unit := pop_call.

(** ** [executor/component/mod.rs] *)
Definition set_call_deadline (deadline budget : Z) (c : ComponentModule) : ComponentModule :=
  mkCM (cm_id c) (cm_name c) budget (cm_pre c) deadline
    ((λ i, mkInstance (i_memory i) deadline) <$> cm_instance c) (cm_function_ids c) (cm_state c) (cm_entered c).
(** How a guest's code ended *)
Inductive Ran := Returned (r : result string (list byte)) | TrappedAt (message : string) | InterruptedAt.

Section Guests.
(** [Engine::dispatch], which a guest reaches through its host *)
Variable dispatch_ : Uuid → Uuid → list byte → E (result DispatchError (list byte)).
(** Where code runs: in a module's instance, or in the one being made *)
Definition instance_at (place : option Uuid) : E Instance :=
  match place with
  | Some id => c ← self id; unwrap (cm_instance c)
  | None => s ← get; unwrap (head (fresh s))
  end.
Definition set_memory (place : option Uuid) (m : Mem) : E unit :=
  i ← instance_at place;
  match place with
  | Some id => set_self id (with_instance (Some (mkInstance m (i_deadline i))))
  | None => put (λ s, with_fresh (mkInstance m (i_deadline i) :: tail (fresh s)) s)
  end.
(** A tick of the epoch, when there is one: whether the store interrupts its call *)
Definition interrupted (place : option Uuid) : E bool :=
  s ← get;
  _ ← put (λ s, mkSt (engine s) (fresh s) (shared s) (reads s) (S (ticks_read s)) (checks s));
  if epoch (ticks_read s) then
    i ← instance_at place;
    t ← now;
    _ ← put (λ s, mkSt (engine s) (fresh s) (shared s) (reads s) (ticks_read s) (mkCheck t (i_deadline i) (e_step_deadline (engine s)) (e_guest_calls (engine s)) :: checks s));
    mret (match on_epoch (i_deadline i) t with Interrupt => true | Continue => false end)
  else mret false.
(** Code up to its end or to the back edge of a loop, which checks the epoch and
    goes on: without end, where the guest loops and no deadline passes *)
Fixpoint run_to (again : nat → E Ran) (place : option Uuid) (p : Program) : E Ran :=
  match p with
  | Return r => mret (Returned r)
  | TrapNow message => mret (TrappedAt message)
  | Step f =>
      stop ← interrupted place;
      if stop : bool then mret InterruptedAt
      else
        i ← instance_at place;
        _ ← set_memory place (f (i_memory i)).1;
        run_to again place (f (i_memory i)).2
  | HostDispatch module function arg k => r ← dispatch_ module function arg; run_to again place (k r)
  | Again label => again label
  end.
Fixpoint run (turns : nat) (loops : nat → Program) (place : option Uuid) (p : Program) : E Ran :=
  match turns with
  | O => λ _, OutOfFuel_
  | S turns =>
      run_to (λ label, stop ← interrupted place; if stop : bool then mret InterruptedAt else run turns loops place (loops label)) place p
  end.
Variable turns : nat.
Inductive Failure := FInterrupted (e : LoadModuleError) | FFailed (e : LoadModuleError).
Definition failure_error (f : Failure) : LoadModuleError := match f with FInterrupted e | FFailed e => e end.
(** [instance]: an instance of its own, initialized, serving the functions declared *)
Definition instance (pre : Component) (function_ids : list Uuid) (deadline : Z) : E (result Failure Instance) :=
  _ ← put (λ s, with_fresh (mkInstance (initial pre) deadline :: fresh s) s);
  let drop_ := λ r : result Failure Instance, (_ ← put (λ s, with_fresh (tail (fresh s)) s); mret r) : E _ in
  ran ← run turns (loops pre) None (initializer pre);
  match ran with
  | TrappedAt message => drop_ (Err (FFailed (LInternal (Instantiating (DispatchTrapped message)))))
  | InterruptedAt => drop_ (Err (FInterrupted (LInternal (Instantiating (DispatchTrapped "interrupted")))))
  | Returned _ =>
      ran ← run turns (loops pre) None (functions pre);
      match ran with
      | TrappedAt message => drop_ (Err (FFailed (LInternal (FunctionsTrapped (DispatchTrapped message)))))
      | InterruptedAt => drop_ (Err (FInterrupted (LInternal (FunctionsTrapped (DispatchTrapped "interrupted")))))
      | Returned r =>
          match List.find (λ id, negb (bool_decide (id ∈ served pre r))) function_ids with
          | Some missing => drop_ (Err (FFailed (LInternal (NotServed missing))))
          | None => i ← instance_at None; drop_ (Ok i)
          end
      end
  end.
(** [recover] *)
Definition recover (id function : Uuid) : E (result DispatchError unit) :=
  c ← self id;
  match cm_state c with
  | Ready => mret (Ok tt)
  | Lost message => mret (Err (DTrap message))
  | Trapped trap =>
      if (0 <? cm_entered c)%nat then mret (Err (DTrap (StillInUse trap)))
      else
        let no_time_left := DTrap (NoTimeLeft (cm_id c) function) in
        _ ← set_self id (with_instance None);
        let call_deadline := cm_deadline c in
        deadline ← begin_load (cm_id c);
        t ← now;
        made ← (if t <? deadline then
                  _ ← set_self id (λ c, with_entered (S (cm_entered c)) c);
                  r ← instance (cm_pre c) (cm_function_ids c) deadline;
                  _ ← set_self id (λ c, with_entered (cm_entered c - 1) c);
                  mret (Some r)
                else mret None);
        _ ← end_load;
        match made with
        | Some (Ok i) =>
            _ ← set_self id (λ c, with_state Ready (with_instance (Some (mkInstance (i_memory i) call_deadline)) c));
            t ← now;
            if call_deadline <=? t then mret (Err no_time_left) else mret (Ok tt)
        | None | Some (Err (FInterrupted _)) => mret (Err no_time_left)
        | Some (Err (FFailed error)) =>
            _ ← set_self id (with_state (Lost (FailedAfresh trap error)));
            mret (Err (DTrap (FailedAfresh trap error)))
        end
  end.
(** [ComponentModule::dispatch] *)
Definition component_dispatch (id function : Uuid) (arg : list byte) : E (result DispatchError (list byte)) :=
  c ← self id;
  if negb (bool_decide (function ∈ cm_function_ids c)) then mret (Err (DFunctionNotFound function))
  else
    _ ←! recover id function;
    c ← self id;
    _ ← unwrap (cm_instance c);
    _ ← set_self id (λ c, with_entered (S (cm_entered c)) c);
    ran ← run turns (loops (cm_pre c)) (Some id) (code (cm_pre c) function arg);
    _ ← set_self id (λ c, with_entered (cm_entered c - 1) c);
    c ← self id;
    let trapped := λ message, (_ ← set_self id (with_state (Trapped message)); mret (Err (DTrap message))) : E (result DispatchError (result string (list byte))) in
    r ← (match ran with
         | Returned r => mret (Ok r)
         | InterruptedAt => trapped (Overran (cm_name c) function (cm_budget c))
         | TrappedAt message => trapped (DispatchTrapped message)
         end);
    c ← self id;
    _ ← (if (cm_entered c =? 0)%nat && negb (match cm_state c with Ready => true | _ => false end)
         then set_self id (with_instance None) else mret tt);
    match r with
    | Err e => mret (Err e)
    | Ok (Ok bytes) => mret (match guest_error bytes with Some message => Err (DGuest message) | None => Ok bytes end)
    | Ok (Err message) => mret (Err (DGuest (GuestText message)))
    end.

(** ** [module.rs], [call.rs] *)
Definition serialize_to_arg (call : Call) : list byte := serialize (Value.Structure (mkStructure (call_id call) (call_args call))).
Definition decode (data : list byte) : E Value := match deserialize data with Ok v => mret v | Err _ => panic_ Decoding end.
Definition decode_arg (function : Uuid) (arg : list byte) : E (result string Call) :=
  v ← decode arg;
  match v with
  | Value.Structure structure =>
      if decide (st_id structure = function) then mret (Ok (mkCall None (st_id structure) (st_fields structure)))
      else mret (Err "argument structure id differs from function id"%string)
  | _ => mret (Err "argument buffer is not a structure"%string)
  end.
Definition encode_call_result (function : Uuid) (r : CallResult) : list byte :=
  serialize (Value.Structure (mkStructure function (mkStructureField function (ret r) :: mutated r))).
(** [HostModule::dispatch]: of the function found, the call it makes of its argument and what it answers *)
Definition host_answer (f : ModuleFn) (function : Uuid) (arg : list byte) : E (result DispatchError (list byte)) :=
  call ← decode_arg function arg;
  match call with
  | Err message => mret (Err (DInternal message))
  | Ok call =>
      s ← get;
      let '(r, x) := f call (shared s) in
      _ ← put (with_shared x);
      mret (match r with
            | Ok r => Ok (encode_call_result function r)
            | Err (CGuest message) => Err (DGuest message)
            | Err other => Err (DGuest (OfCallError other))
            end)
  end.
Definition host_dispatch (h : HostModule) (function : Uuid) (arg : list byte) : E (result DispatchError (list byte)) :=
  match hm_functions h !! function with
  | None => mret (Err (DFunctionNotFound function))
  | Some f => host_answer f function arg
  end.
Definition module_dispatch (id : Uuid) (m : Module_) (function : Uuid) (arg : list byte) : E (result DispatchError (list byte)) :=
  match m with ComponentM _ => component_dispatch id function arg | HostM h => host_dispatch h function arg end.
(** The call to [module] under way, innermost first *)
Definition under_way (module : Uuid) (calls : list GuestCall) : option GuestCall :=
  List.find (λ c, bool_decide (gc_module c = module) && negb (gc_loading c)) (rev calls).
(** [Engine::dispatch] *)
Definition dispatch_with (module function : Uuid) (arg : list byte) : E (result DispatchError (list byte)) :=
  '(deadline, budget) ← call_deadline module;
  s ← get;
  match e_modules (engine s) !! module with
  | None => mret (Err (DModuleNotFound module))
  | Some l =>
      match l_signatures l with
      | None => module_dispatch module (l_module l) function arg
      | Some signatures =>
          match check usize_max arg signatures function with
          | Err message => mret (Err (DArgument message))
          | Ok _ =>
              let '(deadline, budget, restore, set) :=
                match under_way module (e_guest_calls (engine s)) with
                | None => (deadline, budget, None, true)
                | Some outer =>
                    if deadline <? gc_deadline outer then (deadline, budget, Some (gc_deadline outer, gc_budget outer), true)
                    else (gc_deadline outer, gc_budget outer, None, false)
                end in
              t ← now;
              if deadline <=? t then mret (Err (DTrap (NoTimeLeft module function)))
              else
                let tell := λ d b, match l_module l with ComponentM _ => set_self module (set_call_deadline d b) | HostM _ => mret tt end in
                _ ← (if set : bool then tell deadline budget else mret tt);
                _ ← push_call (mkGuestCall module deadline budget false);
                r ← module_dispatch module (l_module l) function arg;
                _ ← pop_call;
                _ ← (match restore with Some (d, b) => tell d b | None => mret tt end);
                mret r
          end
      end
  end.
End Guests.
Fixpoint dispatch (fuel : nat) : Uuid → Uuid → list byte → E (result DispatchError (list byte)) :=
  match fuel with
  | O => λ _ _ _ _, OutOfFuel_
  | S fuel => dispatch_with (dispatch fuel) fuel
  end.

(** ** Calls *)
(** What a structure answers a call: its first field the return value; the room
    for the rest is [len - 1] of a [usize], which no field underflows to *)
Definition result_of (call : Uuid) (data : Value) : E (result CallFailure CallResult) :=
  match data with
  | Value.Structure structure =>
      if decide (call = st_id structure) then
        match st_fields structure with
        | [] => panic_ NoReturnValue
        | f :: mutated => if decide (sf_id f = call) then mret (Ok (mkCallResult (sf_value f) mutated)) else panic_ AnotherField
        end
      else mret (Err (CInternal "result id differs from function id"))
  | _ => mret (Err (CInternal "returned data was not a structure"))
  end.
(** [arora_call] *)
Definition arora_call (fuel : nat) (call : Call) : E (result CallFailure CallResult) :=
  match call_module_id call with
  | None => mret (Err (CGeneric (inr "call is missing its module id"%string)))
  | Some module =>
      r ← dispatch fuel module (call_id call) (serialize_to_arg call);
      match r with
      | Err e => mret (Err (into_call_failure e))
      | Ok data => v ← decode data; result_of (call_id call) v
      end
  end.

(** ** Loading *)
(** [CompiledModule]: a component compiled, or the bytes of any other executable *)
Inductive Code := CodeComponent (c : Component) | CodeExecutable (bytes : list byte).
Record CompiledModule := mkCompiled { cp_header : Header; cp_code : Code }.
(** The [Executor] trait *)
Record Executor := mkExecutor {
  x_loads_compiled_modules : bool;
  x_can_unload : bool;
  x_load_module : Header → list byte → GuestLimits → E (result LoadModuleError Module_);
  x_load_compiled_module : CompiledModule → GuestLimits → E (result LoadModuleError Module_) }.
(** [Executor::load_compiled_module], where an executor leaves it as it is *)
Definition default_load_compiled_module (name : string) (load_module : Header → list byte → GuestLimits → E (result LoadModuleError Module_))
    (m : CompiledModule) (limits : GuestLimits) : E (result LoadModuleError Module_) :=
  match cp_code m with
  | CodeExecutable executable => load_module (cp_header m) executable limits
  | CodeComponent _ => mret (Err (LInternal (CannotInstantiate name)))
  end.
(** [ComponentExecutor::instantiate], over the engine's dispatch; [header_name] is the header's name, which errors name *)
Definition instantiate (fuel : nat) (header_name : Header → string) (header : Header) (c : Component) : E (result LoadModuleError Module_) :=
  t ← now;
  let deadline := t + DEFAULT_CALL_BUDGET in
  let function_ids := ef_id <$> h_exports header in
  i ← instance (dispatch fuel) fuel c function_ids deadline;
  mret (match i with
        | Err f => Err (failure_error f)
        | Ok i => Ok (ComponentM (mkCM (h_id header) (header_name header) DEFAULT_CALL_BUDGET c deadline (Some i) function_ids Ready 0))
        end).
Section Loads.
Variable executors : gmap string Executor.
(** [executor::component::compile] *)
Variable compile : list byte → result LoadModuleError Component.
(** [CompiledModule::new] *)
Definition COMPONENT_EXECUTOR : string := "wasm-component".
Definition compile_component (executable : list byte) : result LoadModuleError Code :=
  match compile executable with Ok c => Ok (CodeComponent c) | Err e => Err e end.
Definition compiled_new (header : Header) (executable : list byte) : result LoadModuleError CompiledModule :=
  match (if decide (h_executor header = COMPONENT_EXECUTOR) then compile_component executable else Ok (CodeExecutable executable)) with
  | Ok code => Ok (mkCompiled header code)
  | Err e => Err e
  end.
(** [ComponentExecutor]; the memory its limits cap is the guest's runtime's *)
Definition component_executor (fuel : nat) (header_name : Header → string) : Executor :=
  let load_module := λ header executable (limits : GuestLimits),
    match compile executable with Ok c => instantiate fuel header_name header c | Err e => mret (Err e) end in
  mkExecutor true true load_module
    (λ m limits, match cp_code m with
                 | CodeComponent c => instantiate fuel header_name (cp_header m) c
                 | CodeExecutable executable => load_module (cp_header m) executable limits
                 end).
Definition insert_module (id : Uuid) (l : Loaded) : E unit := put (with_engine (λ e, with_modules (<[id := l]> (e_modules e)) e)).
(** An instance made within the load of its module *)
Definition within_load (id : Uuid) (m : E (result LoadModuleError Module_)) : E (result LoadModuleError Module_) :=
  _ ← begin_load id; r ← m; _ ← end_load; mret r.
Definition contains_module (id : Uuid) (e : Engine_) : bool := bool_decide (is_Some (e_modules e !! id)).
Definition load_compiled_module (m : CompiledModule) : E (result LoadModuleError unit) :=
  let id := h_id (cp_header m) in
  s ← get;
  if contains_module id (engine s) then mret (Ok tt)
  else
    let limits := guest_limits (engine s) id in
    match executors !! h_executor (cp_header m) with
    | None => mret (Err ExecutorNotFound)
    | Some x =>
        made ←! within_load id (x_load_compiled_module x m limits);
        _ ← insert_module id (mkLoaded (Some (h_executor (cp_header m))) made (Some (signatures_of (cp_header m))));
        mret (Ok tt)
    end.
Definition load_module (header : Header) (executable : list byte) : E (result LoadModuleError unit) :=
  s ← get;
  if contains_module (h_id header) (engine s) then mret (Ok tt)
  else
    match executors !! h_executor header with
    | None => mret (Err ExecutorNotFound)
    | Some x =>
        if x_loads_compiled_modules x then
          match compiled_new header executable with Err e => mret (Err e) | Ok compiled => load_compiled_module compiled end
        else
          let limits := guest_limits (engine s) (h_id header) in
          made ←! within_load (h_id header) (x_load_module x header executable limits);
          _ ← insert_module (h_id header) (mkLoaded (Some (h_executor header)) made (Some (signatures_of header)));
          mret (Ok tt)
    end.
(** [refusing_unload] *)
Definition refusing_unload (l : Loaded) : option string :=
  executor ← l_executor l;
  if match executors !! executor with Some x => x_can_unload x | None => true end then None else Some executor.
Inductive ReloadModuleError := RModuleNotFound | RUnsupported (executor : string) | RLoad (e : LoadModuleError).
Definition reload_module (m : CompiledModule) : E (result ReloadModuleError unit) :=
  let id := h_id (cp_header m) in
  s ← get;
  match e_modules (engine s) !! id with
  | None => mret (Err RModuleNotFound)
  | Some l =>
      match refusing_unload l with
      | Some executor => mret (Err (RUnsupported executor))
      | None =>
          let limits := guest_limits (engine s) id in
          match executors !! h_executor (cp_header m) with
          | None => mret (Err (RLoad ExecutorNotFound))
          | Some x =>
              made ← within_load id (x_load_compiled_module x m limits);
              match made with
              | Err e => mret (Err (RLoad e))
              | Ok made =>
                  _ ← insert_module id (mkLoaded (Some (h_executor (cp_header m))) made (Some (signatures_of (cp_header m))));
                  mret (Ok tt)
              end
          end
      end
  end.
Inductive UnloadModuleError := UModuleNotFound | UInternal (message : string) | UUnsupported (executor : string).
Definition unload_module (id : Uuid) : E (result UnloadModuleError unit) :=
  s ← get;
  match e_modules (engine s) !! id with
  | None => mret (Err UModuleNotFound)
  | Some l =>
      match refusing_unload l with
      | Some executor => mret (Err (UUnsupported executor))
      | None => _ ← put (with_engine (λ e, with_modules (delete id (e_modules e)) e)); mret (Ok tt)
      end
  end.
Definition register_module (id : Uuid) (h : HostModule) : E unit := insert_module id (mkLoaded None (HostM h) None).
End Loads.
End Engine.
