(* ===== verification/Dispatching.v ===== *)
(** * Calls within calls

    What holds of the engine whatever its guests do: the calls under way nest,
    each ending by its callers' deadlines, a guest is checked by the deadline of
    the call it runs, a call leaves the calls under way and the modules as it
    found them, and nothing but the decoding of a buffer panics. *)

From S2P Require Import Prelude Values Extern Writer Reader Froto Types WellFormed GuestArguments Schema Engine.

Section Dispatching.
Context `{BY : Bytes} `{UC : UuidCrate} (usize_max : Z) {Mem X : Type} (instants : nat → Z) (epoch : nat → bool).
Abbreviation St := (@St Mem X).
Abbreviation E := (@E Mem X).
Abbreviation Engine_ := (@Engine_ Mem X).
Abbreviation ComponentModule := (@ComponentModule Mem).
Abbreviation Module_ := (@Module_ Mem X).
Abbreviation Loaded := (@Loaded Mem X).
Abbreviation Instance_ := (@Instance Mem).

(** ** The invariant *)
Definition by_step (step : option Z) (deadline : Z) : Prop := match step with Some t => deadline ≤ t | None => True end.
(** The innermost call is last: every call ends by the deadlines of those it is made within. *)
Fixpoint nested (l : list GuestCall) : Prop :=
  match l with
  | [] => True
  | c :: l => Forall (λ d, gc_deadline d ≤ gc_deadline c) l ∧ nested l
  end.
(** A load outside every call *)
Definition only_load (calls : list GuestCall) : Prop := ∃ load, calls = [load] ∧ gc_loading load = true.
(** A guest is checked by the deadline of the innermost call; the instance of a
    module loading outside every call times a second of its own. *)
Record timed_check (ck : Check_) : Prop := {
  check_innermost : ∃ c, last (ck_calls ck) = Some c ∧ ck_deadline ck = gc_deadline c;
  check_callers : Forall (λ c, ck_deadline ck ≤ gc_deadline c) (ck_calls ck);
  check_step : by_step (ck_step ck) (ck_deadline ck) }.
Definition good_check (ck : Check_) : Prop := only_load (ck_calls ck) ∨ timed_check ck.
Record component_ok (calls : list GuestCall) (id : Uuid) (c : ComponentModule) : Prop := {
  ok_ready : cm_state c = Ready → is_Some (cm_instance c);
  ok_deadline : match under_way id calls with
    | Some g => cm_deadline c = gc_deadline g ∧ ∀ i, cm_instance c = Some i → i_deadline i = gc_deadline g
    | None => cm_entered c = 0%nat
    end }.
Record Inv (s : St) : Prop := {
  inv_nested : nested (e_guest_calls (engine s));
  inv_step : Forall (λ c, gc_loading c = false → by_step (e_step_deadline (engine s)) (gc_deadline c)) (e_guest_calls (engine s));
  inv_components : ∀ id c, component_of id (engine s) = Some c → component_ok (e_guest_calls (engine s)) id c;
  inv_signatures : ∀ id l c, e_modules (engine s) !! id = Some l → l_module l = ComponentM c → is_Some (l_signatures l);
  inv_checks : Forall good_check (checks s) }.

(** ** What a call leaves as it was *)
Definition same_component (c c' : ComponentModule) : Prop :=
  cm_id c = cm_id c' ∧ cm_name c = cm_name c' ∧ cm_pre c = cm_pre c' ∧ cm_function_ids c = cm_function_ids c' ∧
  cm_entered c = cm_entered c' ∧ ((0 < cm_entered c)%nat → is_Some (cm_instance c) → is_Some (cm_instance c')).
(** Modules alike: one under an id stays of its kind, and is the same when [strict] *)
Definition like (strict : Prop) (l l' : option Loaded) : Prop :=
  match l, l' with
  | None, None => True
  | Some l, Some l' => l_executor l = l_executor l' ∧ l_signatures l = l_signatures l' ∧
      match l_module l, l_module l' with
      | HostM h, HostM h' => h = h'
      | ComponentM c, ComponentM c' => strict → same_component c c'
      | _, _ => False
      end
  | _, _ => False
  end.
(** All as it was but the component under [x] *)
Record kept_but (x : option Uuid) (s s' : St) : Prop := {
  kept_calls : e_guest_calls (engine s') = e_guest_calls (engine s);
  kept_fresh : i_deadline <$> fresh s' = i_deadline <$> fresh s;
  kept_step : e_step_deadline (engine s') = e_step_deadline (engine s);
  kept_limits : e_guest_limits (engine s') = e_guest_limits (engine s);
  kept_module_limits : e_module_limits (engine s') = e_module_limits (engine s);
  kept_modules : ∀ id, like (x ≠ Some id) (e_modules (engine s) !! id) (e_modules (engine s') !! id) }.
Abbreviation kept := (kept_but None).
Lemma same_component_refl c : same_component c c.
Proof. by split_and!. Qed.
Lemma same_component_trans c1 c2 c3 : same_component c1 c2 → same_component c2 c3 → same_component c1 c3.
Proof.
  intros (? & ? & ? & ? & E1 & F1) (? & ? & ? & ? & E2 & F2). split_and!; try congruence. intros Hn Hi. apply F2; [by rewrite <- E1|by apply F1].
Qed.
Lemma module_like_refl P l : like P l l.
Proof. destruct l as [[ex [c|h] sg]|]; [| |done]; split_and!; [done..| |done|done|done]. intros _. apply same_component_refl. Qed.
Lemma module_like_trans P l1 l2 l3 : like P l1 l2 → like P l2 l3 → like P l1 l3.
Proof.
  destruct l1 as [[e1 [c1|h1] s1]|], l2 as [[e2 [c2|h2] s2]|], l3 as [[e3 [c3|h3] s3]|]; cbn; try done; try naive_solver.
  intros (? & ? & F1) (? & ? & F2). split_and!; [congruence..|]. intros HP. by eapply same_component_trans; [apply F1|apply F2].
Qed.
Lemma module_like_weaken (P Q : Prop) l l' : (Q → P) → like P l l' → like Q l l'.
Proof. intros HQ. destruct l as [[e1 [c1|h1] s1]|], l' as [[e2 [c2|h2] s2]|]; cbn; try done. naive_solver. Qed.
Lemma kept_refl x s : kept_but x s s.
Proof. split; try done. intros id. apply module_like_refl. Qed.
Lemma kept_trans x s1 s2 s3 : kept_but x s1 s2 → kept_but x s2 s3 → kept_but x s1 s3.
Proof. intros [] []. split; try congruence. intros id. by eapply module_like_trans. Qed.
Lemma kept_weaken x s s' : kept s s' → kept_but x s s'.
Proof. intros []. split; try done. intros id. eapply module_like_weaken; [|done]. done. Qed.
Lemma kept_then x s1 s2 s3 : kept_but x s1 s2 → kept s2 s3 → kept_but x s1 s3.
Proof. intros H1 H2. eapply kept_trans; [exact H1|by apply kept_weaken]. Qed.
Lemma component_of_lookup id (e : Engine_) c : component_of id e = Some c ↔ ∃ l, e_modules e !! id = Some l ∧ l_module l = ComponentM c.
Proof. unfold component_of. destruct (e_modules e !! id) as [[ex [c'|h] sg]|]; naive_solver. Qed.
(** A component alike at both ends closes what was let go of it. *)
Lemma kept_close id s s' c c' : kept_but (Some id) s s' → component_of id (engine s) = Some c → component_of id (engine s') = Some c' →
  same_component c c' → kept s s'.
Proof.
  intros [K1 K2 K3 K4 K5 K6] Hc Hc' Hs. split; try done. intros j. specialize (K6 j). destruct (decide (j = id)) as [->|Hne].
  - apply component_of_lookup in Hc as (l & El & Em), Hc' as (l' & El' & Em'). rewrite El, El' in *. cbn in *. rewrite Em, Em' in *. naive_solver.
  - eapply module_like_weaken; [|exact K6]. congruence.
Qed.
Lemma kept_component x id s s' c : kept_but x s s' → component_of id (engine s) = Some c →
  ∃ c', component_of id (engine s') = Some c' ∧ (x ≠ Some id → same_component c c').
Proof.
  intros K (l & El & Em)%component_of_lookup. pose proof (kept_modules _ _ _ K id) as M. rewrite El in M. cbn in M.
  destruct (e_modules (engine s') !! id) as [l'|] eqn:El'; [|done]. rewrite Em in M. destruct (l_module l') as [c'|] eqn:Em'; [|by destruct M as (_ & _ & [])].
  exists c'. split; [apply component_of_lookup; eauto|naive_solver].
Qed.

(** ** Code that holds the invariant *)
Definition fin {A} (x : option Uuid) (Q : A → St → Prop) (s : St) (r : Outcome (A * St)) : Prop :=
  match r with Done (a, s') => Inv s' ∧ kept_but x s s' ∧ Q a s' | Panics_ why => why = Decoding | OutOfFuel_ => True end.
Abbreviation any := (λ _ _, True).
Lemma fin_bind {A B} x y (Q : A → St → Prop) (Q' : B → St → Prop) (m : E A) (f : A → E B) s s1 :
  fin y Q s1 (m s1) → (∀ a s2, Inv s2 → kept_but y s1 s2 → Q a s2 → fin x Q' s (f a s2)) → fin x Q' s ((m ≫= f) s1).
Proof. intros Hm Hf. unfold mbind, E_bind. destruct (m s1) as [[a s2]| |]; [|done..]. destruct Hm as (? & ? & ?). by apply Hf. Qed.
Lemma fin_ret {A} x (Q : A → St → Prop) a s s1 : Inv s1 → kept_but x s s1 → Q a s1 → fin x Q s ((mret a : E A) s1).
Proof. by intros. Qed.
Lemma bind_done {A B} (m : E A) (f : A → E B) s a s1 : m s = Done (a, s1) → (m ≫= f) s = f a s1.
Proof. intros Hm. unfold mbind, E_bind. by rewrite Hm. Qed.
Lemma fin_conseq {A} x (Q Q' : A → St → Prop) s r : fin x Q s r → (∀ a s', Q a s' → Q' a s') → fin x Q' s r.
Proof. intros Hr HQ. destruct r as [[a s']| |]; [|done..]. destruct Hr as (? & ? & ?). split_and!; auto. Qed.
Lemma fin_from {A} x (Q : A → St → Prop) s s1 r : kept_but x s s1 → fin x Q s1 r → fin x Q s r.
Proof. intros K Hr. destruct r as [[a s']| |]; [|done..]. destruct Hr as (? & ? & ?). split_and!; [done| |done]. by eapply kept_trans. Qed.

(** *** The component under an id *)
Lemma self_done id (s : St) c : component_of id (engine s) = Some c → self id s = Done (c, s).
Proof. intros Hc. unfold self. rewrite (bind_done _ _ s s s) by done. by rewrite Hc. Qed.
Lemma set_self_done id f (s : St) c : component_of id (engine s) = Some c → set_self id f s = Done (tt, with_engine (set_component id (f c)) s).
Proof. intros Hc. unfold set_self. by rewrite (bind_done _ _ s c s) by (by apply self_done). Qed.
Lemma component_set id j c c' (e : Engine_) : component_of id e = Some c →
  component_of j (set_component id c' e) = if decide (j = id) then Some c' else component_of j e.
Proof.
  intros (l & El & Em)%component_of_lookup. unfold component_of, set_component. cbn [e_modules with_modules]. case_decide as Hj; [subst j|].
  - by rewrite lookup_alter_eq, El.
  - by rewrite lookup_alter_ne.
Qed.
Lemma inv_set id c c' (s : St) : Inv s → component_of id (engine s) = Some c → component_ok (e_guest_calls (engine s)) id c' →
  Inv (with_engine (set_component id c') s) ∧ kept_but (Some id) s (with_engine (set_component id c') s) ∧
  component_of id (engine (with_engine (set_component id c') s)) = Some c'.
Proof.
  intros [I1 I2 I3 I4 I5] Hc Hok. split_and!.
  - split; try done.
    + intros j cj. cbn [engine with_engine]. rewrite (component_set _ _ _ _ _ Hc). case_decide; [intros [= <-]; by subst|apply I3].
    + intros j l cj. cbn [engine with_engine set_component e_modules with_modules]. destruct (decide (j = id)) as [->|Hj].
      * apply component_of_lookup in Hc as (l0 & El & Em). rewrite lookup_alter_eq, El. intros [= <-] [= <-]. cbn. by eapply I4.
      * rewrite lookup_alter_ne by done. apply I4.
  - split; try done. intros j. cbn [engine with_engine set_component e_modules with_modules]. destruct (decide (j = id)) as [->|Hj].
    + apply component_of_lookup in Hc as (l0 & El & Em). rewrite lookup_alter_eq, El. cbn. rewrite Em. by split_and!.
    + rewrite lookup_alter_ne by done. apply module_like_refl.
  - cbn [engine with_engine]. rewrite (component_set _ _ _ _ _ Hc). by rewrite decide_True.
Qed.

(** *** The calls under way *)
Lemma nested_last l g : nested l → last l = Some g → Forall (λ c, gc_deadline g ≤ gc_deadline c) l.
Proof.
  induction l as [|c l IH]; [done|]. intros [Hc Hl] Hg. destruct l as [|d l]; [injection Hg as ->; by repeat constructor|].
  specialize (IH Hl Hg). constructor; [|done]. rewrite Forall_forall in Hc. apply Hc. by apply last_Some_elem_of.
Qed.
Lemma nested_app l g : nested l → Forall (λ c, gc_deadline g ≤ gc_deadline c) l → nested (l ++ [g]).
Proof.
  induction l as [|c l IH]; [done|]. intros [Hc Hl] Hg. apply Forall_cons in Hg as [Hgc Hg]. split; [|by apply IH].
  apply Forall_app. split; [done|]. by repeat constructor.
Qed.
Lemma nested_push l g : nested l → match last l with Some c => gc_deadline g ≤ gc_deadline c | None => True end → nested (l ++ [g]).
Proof.
  intros Hl Hg. apply nested_app; [done|]. destruct (last l) as [c|] eqn:El.
  - eapply Forall_impl; [by apply (nested_last l c)|]. cbn. lia.
  - apply last_None in El. by subst l.
Qed.
Lemma under_way_push id l g : under_way id (l ++ [g]) = if bool_decide (gc_module g = id) && negb (gc_loading g) then Some g else under_way id l.
Proof. unfold under_way. rewrite rev_app_distr. cbn. by destruct (_ && _). Qed.
Lemma under_way_elem id l g : under_way id l = Some g → g ∈ l ∧ gc_module g = id ∧ gc_loading g = false.
Proof.
  unfold under_way. intros Hf. pose proof (find_some _ _ Hf) as [Hin Hb]. apply in_rev, list_elem_of_In in Hin.
  apply andb_true_iff in Hb as [Hm%bool_decide_eq_true Hl%negb_true_iff]. done.
Qed.

(** *** The clock and the epoch *)
Definition counted (r t : nat) (s : St) : St := mkSt (engine s) (fresh s) (shared s) r t (checks s).
Lemma inv_counted r t s : Inv s → Inv (counted r t s).
Proof. by intros []. Qed.
Lemma kept_counted x r t s s' : kept_but x s s' → kept_but x s (counted r t s').
Proof. by intros []. Qed.
Lemma now_done (s : St) : now instants s = Done (instants (reads s), counted (S (reads s)) (ticks_read s) s).
Proof. done. Qed.

Lemma kept_same x s s' : engine s' = engine s → i_deadline <$> fresh s' = i_deadline <$> fresh s → kept_but x s s'.
Proof. intros He Hf. split; rewrite ?He; try done. intros id. apply module_like_refl. Qed.

(** *** A guest's code *)
Definition timed (deadline : Z) (s : St) : Prop :=
  only_load (e_guest_calls (engine s)) ∨
  ∃ g, last (e_guest_calls (engine s)) = Some g ∧ deadline = gc_deadline g ∧ by_step (e_step_deadline (engine s)) deadline.
Lemma timed_kept d s s' : timed d s → kept s s' → timed d s'.
Proof. unfold timed. intros Ht K. by rewrite (kept_calls _ _ _ K), (kept_step _ _ _ K). Qed.
Definition at_place (place : option Uuid) (s : St) : Prop :=
  match place with
  | Some id => ∃ c g, component_of id (engine s) = Some c ∧ (0 < cm_entered c)%nat ∧ is_Some (cm_instance c) ∧
      last (e_guest_calls (engine s)) = Some g ∧ gc_module g = id ∧ gc_loading g = false
  | None => ∃ d, head (i_deadline <$> fresh s) = Some d ∧ timed d s
  end.
Lemma at_place_kept place s s' : at_place place s → kept s s' → at_place place s'.
Proof.
  destruct place as [id|]; cbn.
  - intros (c & g & Hc & Hn & Hi & Hg & Hm & Hl) K. destruct (kept_component _ _ _ _ _ K Hc) as (c' & Hc' & Hs). specialize (Hs ltac:(done)) as (_ & _ & _ & _ & He & Hin).
    exists c', g. rewrite (kept_calls _ _ _ K). split_and!; try done; [by rewrite <- He|by apply Hin].
  - intros (d & Hd & Ht) K. exists d. rewrite (kept_fresh _ _ _ K). split; [done|]. by eapply timed_kept.
Qed.
Lemma last_under_way l g : last l = Some g → gc_loading g = false → under_way (gc_module g) l = Some g.
Proof. intros (l' & ->)%last_Some Hl. rewrite under_way_push, bool_decide_true by done. by rewrite Hl. Qed.
Lemma instance_here place s : Inv s → at_place place s → ∃ i, instance_at place s = Done (i, s) ∧ timed (i_deadline i) s.
Proof.
  intros [I1 I2 I3 I4 I5]. destruct place as [id|]; cbn [at_place].
  - intros (c & g & Hc & Hn & [i Hi] & Hg & Hm & Hl). exists i. unfold instance_at. rewrite (bind_done _ _ _ _ _ (self_done _ _ _ Hc)), Hi. split; [done|]. right.
    assert (i_deadline i = gc_deadline g) as Ed. { destruct (I3 _ _ Hc) as [_ Hd]. rewrite <- Hm, (last_under_way _ _ Hg Hl) in Hd. by apply Hd. }
    exists g. split_and!; [done..|]. rewrite Ed. rewrite Forall_forall in I2. apply I2; [by apply last_Some_elem_of|done].
  - intros (d & Hd & Ht). unfold instance_at. rewrite (bind_done get _ s s s) by done. destruct (fresh s) as [|i l]; [done|].
    cbn in Hd. injection Hd as <-. by exists i.
Qed.
Lemma interrupted_fin place s : Inv s → at_place place s → fin None any s (interrupted instants epoch place s).
Proof.
  intros HI Hp. unfold interrupted. rewrite (bind_done get _ s s s) by done. rewrite (bind_done (put _) _ s tt (counted (reads s) (S (ticks_read s)) s)) by done.
  destruct (epoch (ticks_read s)); [|apply fin_ret; [by apply inv_counted|by apply kept_counted, kept_refl|done]].
  set (s1 := counted _ _ s). destruct (instance_here place s1) as (i & Hi & Ht); [by apply inv_counted|by eapply at_place_kept, kept_counted, kept_refl|].
  rewrite (bind_done _ _ _ _ _ Hi), (bind_done _ _ _ _ _ (now_done s1)). rewrite (bind_done (put _) _ _ _ _ eq_refl).
  pose proof (inv_nested _ HI) as Hn. apply fin_ret; [|by apply kept_same|done].
  destruct HI as [I1 I2 I3 I4 I5]. split; try done. cbn. constructor; [|done]. destruct Ht as [Ht|(g & Hg & Hd & Hs)]; [by left|right]. split; cbn.
  - by exists g.
  - rewrite Hd. by apply nested_last.
  - done.
Qed.
Lemma set_memory_fin place m s : Inv s → at_place place s → fin None any s (set_memory place m s).
Proof.
  intros HI Hp. destruct (instance_here place s HI Hp) as (i & Hi & _). unfold set_memory. rewrite (bind_done _ _ _ _ _ Hi).
  destruct place as [id|]; cbn in Hp.
  - destruct Hp as (c & g' & Hc & Hn & Hin & Hg' & Hm & Hl). rewrite (set_self_done _ _ _ _ Hc). cbn.
    assert (cm_instance c = Some i) as Hci. { unfold instance_at in Hi. rewrite (bind_done _ _ _ _ _ (self_done _ _ _ Hc)) in Hi. destruct (cm_instance c); [by injection Hi as ->|done]. }
    destruct (inv_set id c (with_instance (Some (mkInstance m (i_deadline i))) c) s HI Hc) as (HI' & K & Hc').
    { destruct (inv_components _ HI _ _ Hc) as [H1 H2]. split; [done|]. cbn. destruct (under_way id _); [|done]. split; [by apply H2|]. intros j [= <-]. cbn. by apply H2. }
    split; [done|]. split; [|done]. eapply kept_close; [exact K|exact Hc|exact Hc'|]. by split_and!.
  - unfold instance_at in Hi. rewrite (bind_done get _ s s s) in Hi by done. destruct (fresh s) as [|i' l] eqn:Ef; [done|]. injection Hi as ->.
    cbn. rewrite Ef. cbn. split; [by destruct HI|]. split; [|done]. split; try done; [by rewrite Ef|]. intros id. apply module_like_refl.
Qed.
Lemma Program_nested_ind (P : Program (Mem := Mem) → Prop) :
  (∀ r, P (Return r)) → (∀ m, P (TrapNow m)) → (∀ f, (∀ m, P (f m).2) → P (Step f)) →
  (∀ module function arg k, (∀ r, P (k r)) → P (HostDispatch module function arg k)) → (∀ label, P (Again label)) → ∀ p, P p.
Proof.
  intros Hr Ht Hs Hd Ha. fix IH 1. intros [r|m|f|module function arg k|label]; [apply Hr|apply Ht| | |apply Ha].
  - apply Hs. intros m. destruct (f m) as [m' p] eqn:E0. cbn. revert E0. intros _. exact (IH p).
  - apply Hd. intros r. apply IH.
Qed.

(** *** Setting a component and the stack of calls *)
Lemma set_fin {B} x id (f : ComponentModule → ComponentModule) (Q : B → St → Prop) (k : unit → E B) s s1 c :
  Inv s1 → component_of id (engine s1) = Some c → component_ok (e_guest_calls (engine s1)) id (f c) →
  (∀ s2, Inv s2 → kept_but (Some id) s1 s2 → component_of id (engine s2) = Some (f c) →
    e_guest_calls (engine s2) = e_guest_calls (engine s1) → fin x Q s (k tt s2)) →
  fin x Q s ((set_self id f ≫= k) s1).
Proof.
  intros HI Hc Hok Hk. rewrite (bind_done _ _ _ _ _ (set_self_done _ _ _ _ Hc)).
  destruct (inv_set id c (f c) s1 HI Hc Hok) as (HI' & K & Hc'). by apply Hk.
Qed.
Definition pushed (g : GuestCall) (s : St) : St := with_engine (λ e, with_calls (e_guest_calls e ++ [g]) e) s.
Definition popped (s : St) : St := with_engine (λ e, with_calls (removelast (e_guest_calls e)) e) s.
Lemma inv_push_load g s : Inv s → gc_loading g = true → match last (e_guest_calls (engine s)) with Some c => gc_deadline g ≤ gc_deadline c | None => True end → Inv (pushed g s).
Proof.
  intros [I1 I2 I3 I4 I5] Hl Hg. split; try done; cbn.
  - by apply nested_push.
  - apply Forall_app. split; [done|]. constructor; [|done]. congruence.
  - intros id c Hc. destruct (I3 _ _ Hc) as [H1 H2']. split; [done|]. rewrite under_way_push, Hl. by rewrite andb_false_r.
Qed.
Lemma nested_removelast l g : nested (l ++ [g]) → nested l.
Proof. induction l as [|c l IH]; [done|]. intros [Hc Hl]. split; [|by apply IH]. by apply Forall_app in Hc as [Hc _]. Qed.
Lemma inv_pop_load g l s : Inv s → e_guest_calls (engine s) = l ++ [g] → gc_loading g = true → Inv (popped s).
Proof.
  intros [I1 I2 I3 I4 I5] E0 Hl. split; try done; cbn; rewrite E0, removelast_last.
  - rewrite E0 in I1. by eapply nested_removelast.
  - rewrite E0 in I2. by apply Forall_app in I2 as [? _].
  - intros id c Hc. destruct (I3 _ _ Hc) as [H1 H2']. split; [done|]. rewrite E0, under_way_push, Hl, andb_false_r in H2'. done.
Qed.
Lemma kept_pop x g s s' : kept_but x (pushed g s) s' → kept_but x s (popped s').
Proof. intros [K1 K2 K3 K4 K5 K6]. split; try done. cbn. rewrite K1. cbn. apply removelast_last. Qed.
Lemma pop_calls x g s s' : kept_but x (pushed g s) s' → e_guest_calls (engine s') = e_guest_calls (engine s) ++ [g].
Proof. intros K. by rewrite (kept_calls _ _ _ K). Qed.

Lemma ok_under_way calls id g c : under_way id calls = Some g →
  component_ok calls id c ↔ (cm_state c = Ready → is_Some (cm_instance c)) ∧ cm_deadline c = gc_deadline g ∧ ∀ i, cm_instance c = Some i → i_deadline i = gc_deadline g.
Proof. intros Hu. split; [intros [? Hd']|intros (? & ?); split; [done|]]; rewrite Hu in *; done. Qed.

(** *** Entering and leaving a call *)
Definition told (module : Uuid) (deadline budget : Z) (s : St) : St :=
  match component_of module (engine s) with Some c => with_engine (set_component module (set_call_deadline deadline budget c)) s | None => s end.
Definition tell (l : Loaded) (module : Uuid) (deadline budget : Z) : E unit :=
  match l_module l with ComponentM _ => set_self module (set_call_deadline deadline budget) | HostM _ => mret tt end.
Lemma tell_done l module d b (s : St) : match l_module l with ComponentM _ => is_Some (component_of module (engine s)) | HostM _ => component_of module (engine s) = None end →
  tell l module d b s = Done (tt, told module d b s).
Proof.
  unfold tell, told. destruct (l_module l) as [c|h]; [intros [c0 Hc]; rewrite Hc; by apply set_self_done|by intros ->].
Qed.
Lemma told_kept module d b (s : St) : kept s (told module d b s).
Proof.
  unfold told. destruct (component_of module (engine s)) as [c|] eqn:Hc; [|apply kept_refl].
  split; try done. intros j. cbn [engine with_engine set_component e_modules with_modules]. destruct (decide (j = module)) as [->|Hj]; [|rewrite lookup_alter_ne by done; apply module_like_refl].
  apply component_of_lookup in Hc as (l & El & Em). rewrite lookup_alter_eq, El. cbn. rewrite Em. split_and!; [done..|]. intros _. split_and!; try done. intros _ [i Hi]. cbn. rewrite Hi. by eexists.
Qed.
Lemma told_other module d b id (s : St) : id ≠ module → component_of id (engine (told module d b s)) = component_of id (engine s).
Proof.
  intros Hne. unfold told. destruct (component_of module (engine s)) as [c|] eqn:Hc; [|done]. cbn [engine with_engine]. rewrite (component_set _ _ _ _ _ Hc). by rewrite decide_False.
Qed.
Lemma told_self module d b (s : St) c : component_of module (engine (told module d b s)) = Some c →
  ∃ c0, component_of module (engine s) = Some c0 ∧ c = set_call_deadline d b c0.
Proof.
  unfold told. destruct (component_of module (engine s)) as [c0|] eqn:Hc; [|congruence]. cbn [engine with_engine]. rewrite (component_set _ _ _ _ _ Hc), decide_True by done.
  intros [= <-]. eauto.
Qed.
Lemma inv_recall module (s s1 : St) : Inv s → checks s1 = checks s → e_step_deadline (engine s1) = e_step_deadline (engine s) →
  (∀ id, like True (e_modules (engine s) !! id) (e_modules (engine s1) !! id)) →
  nested (e_guest_calls (engine s1)) → Forall (λ c, gc_loading c = false → by_step (e_step_deadline (engine s)) (gc_deadline c)) (e_guest_calls (engine s1)) →
  (∀ id, id ≠ module → component_of id (engine s1) = component_of id (engine s) ∧ under_way id (e_guest_calls (engine s1)) = under_way id (e_guest_calls (engine s))) →
  (∀ c, component_of module (engine s1) = Some c → component_ok (e_guest_calls (engine s1)) module c) → Inv s1.
Proof.
  intros [I1 I2 I3 I4 I5] Hck Hst Hm Hn Hf Ho Hc. split; [done|by rewrite Hst| | |by rewrite Hck].
  - intros id c Hid. destruct (decide (id = module)) as [->|Hne]; [by apply Hc|]. destruct (Ho _ Hne) as [E1 E2]. rewrite E1 in Hid.
    destruct (I3 _ _ Hid) as [O1 O2]. split; [done|]. by rewrite E2.
  - intros id l c El Em. specialize (Hm id). rewrite El in Hm. destruct (e_modules (engine s) !! id) as [l0|] eqn:E0; [|done]. cbn in Hm. rewrite Em in Hm.
    destruct Hm as (_ & <- & Hk). destruct (l_module l0) as [c0|h0] eqn:Em0; [|done]. by eapply I4.
Qed.
Definition entered_by (g : GuestCall) (s : St) : Prop := gc_loading g = false ∧ by_step (e_step_deadline (engine s)) (gc_deadline g) ∧
  match last (e_guest_calls (engine s)) with Some c => gc_deadline g ≤ gc_deadline c | None => True end.
Lemma module_like_True (s s' : St) : kept s s' → ∀ id, like True (e_modules (engine s) !! id) (e_modules (engine s') !! id).
Proof. intros K id. eapply module_like_weaken; [|apply K]. done. Qed.
(** A call whose deadline is told, or the one the component already has *)
Lemma inv_enter g b s s1 : Inv s → entered_by g s →
  s1 = told (gc_module g) (gc_deadline g) b s ∨ s1 = s ∧ (∃ outer, under_way (gc_module g) (e_guest_calls (engine s)) = Some outer ∧ gc_deadline outer = gc_deadline g) →
  Inv (pushed g s1).
Proof.
  intros HI (Hl & Hs & Hn) Hcase. assert (kept s s1) as K by (destruct Hcase as [->|[-> _]]; [apply told_kept|apply kept_refl]).
  assert (checks s1 = checks s) as Ec by (destruct Hcase as [->|[-> _]]; [unfold told; by destruct (component_of _ _)|done]).
  assert (e_guest_calls (engine (pushed g s1)) = e_guest_calls (engine s) ++ [g]) as Eg by (cbn; by rewrite (kept_calls _ _ _ K)).
  apply (inv_recall (gc_module g) s); rewrite ?Eg; try done.
  - apply K.
  - exact (module_like_True _ _ K).
  - by apply nested_push; [apply inv_nested|].
  - apply Forall_app. split; [apply (inv_step _ HI)|]. by constructor.
  - intros id Hne. split; [|by rewrite under_way_push, bool_decide_false by done]. destruct Hcase as [->|[-> _]]; [by apply (told_other _ _ _ id)|done].
  - intros c Hc. assert (under_way (gc_module g) (e_guest_calls (engine s) ++ [g]) = Some g) as Hu by (apply last_under_way; [apply last_snoc|done]).
    apply (ok_under_way _ _ _ _ Hu). destruct Hcase as [->|[-> (outer & Ho & Ed)]].
    + apply told_self in Hc as (c0 & Hc0 & ->). destruct (inv_components _ HI _ _ Hc0) as [O1 _]. split_and!; [|done|].
      * intros Hr. destruct (O1 Hr) as [i Hi]. cbn. rewrite Hi. by eexists.
      * cbn. intros i Hi. destruct (cm_instance c0); [|done]. by injection Hi as <-.
    + rewrite <- Ed. apply (ok_under_way _ _ _ _ Ho). by apply inv_components.
Qed.

Lemma kept_component_back x id s s' c' : kept_but x s s' → component_of id (engine s') = Some c' →
  ∃ c, component_of id (engine s) = Some c ∧ (x ≠ Some id → same_component c c').
Proof.
  intros K (l & El & Em)%component_of_lookup. pose proof (kept_modules _ _ _ K id) as M. rewrite El in M.
  destruct (e_modules (engine s) !! id) as [l'|] eqn:El'; [|done]. cbn in M. rewrite Em in M. destruct (l_module l') as [c|] eqn:Em'; [|by destruct M as (_ & _ & [])].
  exists c. split; [apply component_of_lookup; eauto|naive_solver].
Qed.
(** What the component was told, it is told again: [restore], of a call that was already under way *)
Definition restored (restore : option (Z * Z)) (module : Uuid) (s : St) : St :=
  match restore with Some (d, b) => told module d b s | None => s end.
Lemma inv_leave g restore s s2 s4 : Inv s → Inv s4 → kept s s2 → kept (pushed g s2) s4 →
  match under_way (gc_module g) (e_guest_calls (engine s)) with
  | None => restore = None
  | Some outer => restore = Some (gc_deadline outer, gc_budget outer) ∨ restore = None ∧ gc_deadline outer = gc_deadline g
  end → gc_loading g = false →
  Inv (restored restore (gc_module g) (popped s4)) ∧ kept s (restored restore (gc_module g) (popped s4)).
Proof.
  intros HI HI4 K2 K4 Hr Hl. set (s5 := restored _ _ _). pose proof (kept_trans _ _ _ _ K2 (kept_pop _ _ _ _ K4)) as Kp.
  assert (kept (popped s4) s5) as K5 by (unfold s5, restored; destruct restore as [[d b]|]; [apply told_kept|apply kept_refl]).
  pose proof (kept_trans _ _ _ _ Kp K5) as K. split; [|done].
  pose proof (pop_calls _ _ _ _ K4) as E4. rewrite (kept_calls _ _ _ K2) in E4.
  assert (e_step_deadline (engine s4) = e_step_deadline (engine s)) as Es by (rewrite (kept_step _ _ _ K4); apply K2).
  apply (inv_recall (gc_module g) s4); rewrite ?(kept_calls _ _ _ K); try done.
  - unfold s5, restored. destruct restore as [[d b]|]; [|done]. unfold told. by destruct (component_of _ _).
  - rewrite (kept_step _ _ _ K5). done.
  - exact (module_like_True _ _ K5).
  - apply HI.
  - rewrite Es. apply HI.
  - intros id Hne. split; [|by rewrite E4, under_way_push, bool_decide_false by done].
    unfold s5, restored. destruct restore as [[d b]|]; [|done]. by rewrite told_other.
  - intros c Hc. destruct (under_way (gc_module g) (e_guest_calls (engine s))) as [outer|] eqn:Eu.
    + apply (ok_under_way _ _ _ _ Eu). destruct Hr as [->|[-> Ed]].
      * apply told_self in Hc as (c0 & Hc0 & ->). destruct (inv_components _ HI4 _ _ Hc0) as [O1 _]. split_and!; [|done|].
        -- intros Hr. destruct (O1 Hr) as [i Hi]. cbn. rewrite Hi. by eexists.
        -- cbn. intros i Hi. destruct (cm_instance c0); [|done]. by injection Hi as <-.
      * rewrite Ed. apply (ok_under_way (e_guest_calls (engine s4)) (gc_module g)); [|by apply inv_components]. rewrite E4. apply last_under_way; [apply last_snoc|done].
    + subst restore. destruct (kept_component_back _ _ _ _ _ K Hc) as (c0 & Hc0 & Hs). specialize (Hs ltac:(done)). destruct Hs as (_ & _ & _ & _ & He & _).
      split; [exact (ok_ready _ _ _ (inv_components _ HI4 _ _ Hc))|]. rewrite Eu, <- He. pose proof (ok_deadline _ _ _ (inv_components _ HI _ _ Hc0)) as Hz. by rewrite Eu in Hz.
Qed.
Lemma call_deadline_done module (s : St) : ∃ d b, call_deadline instants module s = Done ((d, b), counted (S (reads s)) (ticks_read s) s) ∧
  by_step (e_step_deadline (engine s)) d ∧ match last (e_guest_calls (engine s)) with Some c => d ≤ gc_deadline c | None => True end.
Proof.
  unfold call_deadline. rewrite (bind_done _ _ _ _ _ (now_done s)). set (s1 := counted _ _ s). rewrite (bind_done get _ s1 s1 s1) by done. cbv zeta.
  eexists _, _. split; [reflexivity|]. cbn. destruct (e_step_deadline _), (call_budget _), (last _); cbn; split; try done; lia.
Qed.

Section Guests.
Context (dispatch_ : Uuid → Uuid → list byte → E (result DispatchError (list byte))).
Context (Hd : ∀ module function arg s, Inv s → fin None any s (dispatch_ module function arg s)).

Lemma run_to_fin again place p s : (∀ label s, Inv s → at_place place s → fin None any s (again label s)) →
  Inv s → at_place place s → fin None any s (run_to instants epoch dispatch_ again place p s).
Proof.
  intros Ha. revert s. induction p as [r|m|f IH|module function arg k IH|label] using Program_nested_ind; intros s HI Hp; cbn [run_to].
  - by apply fin_ret; [|apply kept_refl|].
  - by apply fin_ret; [|apply kept_refl|].
  - eapply fin_bind; [by apply interrupted_fin|]. intros stop s1 HI1 K1 _. pose proof (at_place_kept _ _ _ Hp K1) as Hp1.
    destruct stop; [by apply fin_ret|]. destruct (instance_here _ _ HI1 Hp1) as (i & Hi & _). rewrite (bind_done _ _ _ _ _ Hi).
    eapply fin_bind; [by apply set_memory_fin|]. intros _ s2 HI2 K2 _. apply (fin_from _ _ _ s2); [by eapply kept_trans|]. apply IH; [done|]. by eapply at_place_kept.
  - eapply fin_bind; [by apply Hd|]. intros r s1 HI1 K1 _. apply (fin_from _ _ _ s1); [done|]. apply IH; [done|]. by eapply at_place_kept.
  - by apply Ha.
Qed.
Lemma run_fin n body place p s : Inv s → at_place place s → fin None any s (run instants epoch dispatch_ n body place p s).
Proof.
  revert p s. induction n as [|n IH]; intros p s HI Hp; [done|]. cbn [run]. apply run_to_fin; [|done..]. intros label s0 HI0 Hp0.
  eapply fin_bind; [by apply interrupted_fin|]. intros stop s1 HI1 K1 _. destruct stop; [by apply fin_ret|].
  apply (fin_from _ _ _ s1); [done|]. apply IH; [done|]. by eapply at_place_kept.
Qed.
Context (turns : nat).
Lemma instance_fin pre ids deadline s : Inv s → timed deadline s →
  fin None any s (instance instants epoch dispatch_ turns pre ids deadline s).
Proof.
  intros HI Ht. unfold instance. rewrite (bind_done (put _) _ _ _ _ eq_refl).
  set (s1 := with_fresh _ s). assert (Inv s1) as HI1 by (by destruct HI).
  assert (∀ s', kept s1 s' → at_place None s') as Hplace.
  { intros s' K. apply (at_place_kept None s1); [|done]. by exists deadline. }
  assert (∀ (r : result Failure Instance_) s', Inv s' → kept s1 s' →
    fin None any s
      ((put (λ s, with_fresh (tail (fresh s)) s) ≫= λ _, mret r : E (result Failure Instance_)) s')) as Hdrop.
  { intros r s' HI' K. cbn. split; [by destruct HI'|]. split; [|done]. destruct K as [K1 K2 K3 K4 K5 K6]. split; try done. cbn in K2 |- *. destruct (fresh s') as [|? ?]; [done|]. by injection K2. }
  eapply fin_bind; [by apply run_fin; [|apply Hplace, kept_refl]|]. intros ran s2 HI2 K2 _. destruct ran as [r|message|]; [|by apply Hdrop|by apply Hdrop].
  eapply fin_bind; [by apply run_fin; [|apply Hplace]|]. intros ran s3 HI3 K3 _. pose proof (kept_trans _ _ _ _ K2 K3) as K.
  destruct ran as [r'|message|]; [|by apply Hdrop|by apply Hdrop]. destruct (List.find _ ids); [by apply Hdrop|].
  destruct (Hplace _ K) as (d & Hd' & _). destruct (fresh s3) as [|i l] eqn:Ef; [done|].
  assert (instance_at None s3 = Done (i, s3)) as Hi. { unfold instance_at. rewrite (bind_done get _ s3 s3 s3) by done. by rewrite Ef. }
  rewrite (bind_done _ _ _ _ _ Hi). by apply Hdrop.
Qed.

(** *** A module that trapped *)
Lemma begin_load_done module (s : St) : ∃ g s1, begin_load instants module s = Done (gc_deadline g, pushed g s1) ∧ s1 = counted (S (reads s)) (ticks_read s) s ∧
  gc_loading g = true ∧ match last (e_guest_calls (engine s)) with Some c => gc_deadline g ≤ gc_deadline c | None => True end.
Proof.
  eexists (mkGuestCall _ _ _ _), _. split; [reflexivity|]. split; [done|]. split; [done|]. cbn. destruct (last _); [|done]. lia.
Qed.
(** A component with the same identity, entered as often *)
Definition alike (c c' : ComponentModule) : Prop :=
  cm_id c = cm_id c' ∧ cm_name c = cm_name c' ∧ cm_pre c = cm_pre c' ∧ cm_function_ids c = cm_function_ids c' ∧ cm_entered c = cm_entered c'.
Lemma alike_same c c' : alike c c' → ((0 < cm_entered c)%nat → is_Some (cm_instance c) → is_Some (cm_instance c')) → same_component c c'.
Proof. intros (? & ? & ? & ? & ?) ?. by split_and!. Qed.
Lemma same_alike c c' : same_component c c' → alike c c'.
Proof. intros (? & ? & ? & ? & ? & _). by split_and!. Qed.
Lemma fin_close {A} id c (Q : A → St → Prop) s r : component_of id (engine s) = Some c →
  fin (Some id) (λ a s', Q a s' ∧ ∃ c', component_of id (engine s') = Some c' ∧ same_component c c') s r → fin None Q s r.
Proof.
  intros Hc. destruct r as [[a s']| |]; [|done..]. intros (HI & K & HQ & c' & Hc' & Hs). split; [done|]. split; [|done]. by eapply kept_close.
Qed.
(** The call to [id] under way is [g], the innermost. *)
Definition running (id : Uuid) (g : GuestCall) (s : St) : Prop :=
  last (e_guest_calls (engine s)) = Some g ∧ gc_module g = id ∧ gc_loading g = false.
Lemma running_under_way id g s : running id g s → under_way id (e_guest_calls (engine s)) = Some g.
Proof. intros (Hg & <- & Hl). by apply last_under_way. Qed.
Lemma ok_entered calls id g n c : under_way id calls = Some g → component_ok calls id c → component_ok calls id (with_entered n c).
Proof. intros Hu Hok. apply (ok_under_way _ _ _ _ Hu). by apply (ok_under_way _ _ _ _ Hu) in Hok. Qed.
Lemma make_fin id c deadline s : Inv s → timed deadline s → component_of id (engine s) = Some c → cm_entered c = 0%nat →
  is_Some (under_way id (e_guest_calls (engine s))) →
  fin (Some id) (λ _ s', ∃ c', component_of id (engine s') = Some c' ∧ alike c c') s
    ((_ ← set_self id (λ c, with_entered (S (cm_entered c)) c);
      r ← instance instants epoch dispatch_ turns (cm_pre c) (cm_function_ids c) deadline;
      _ ← set_self id (λ c, with_entered (cm_entered c - 1) c);
      mret (Some r)) s).
Proof.
  intros HI Hm Hc H0' [g Hu].
  apply set_fin with c; [done..|by eapply ok_entered, inv_components|].
  intros s1 HI1 K1 Hc1 E1. apply (fin_from _ _ _ s1); [done|].
  eapply fin_bind; [apply instance_fin; [done|]|].
  { unfold timed. by rewrite E1, (kept_step _ _ _ K1). }
  intros r s2 HI2 K2 _. destruct (kept_component _ _ _ _ _ K2 Hc1) as (c2 & Hc2 & Hs2). specialize (Hs2 ltac:(done)).
  assert (under_way id (e_guest_calls (engine s2)) = Some g) as Hu2 by (by rewrite (kept_calls _ _ _ K2), E1).
  apply set_fin with c2; [done..|by eapply ok_entered, inv_components|].
  intros s3 HI3 K3 Hc3 E3. apply fin_ret; [done|by eapply kept_trans; [apply kept_weaken|]|].
  eexists; split; [exact Hc3|]. destruct Hs2 as (? & ? & ? & ? & Hen & _). split_and!; cbn in *; try done. lia.
Qed.
Definition ready_after (id : Uuid) (r : result DispatchError unit) (s : St) : Prop :=
  match r with Ok _ => ∃ c, component_of id (engine s) = Some c ∧ cm_state c = Ready | Err _ => True end.
Lemma recover_fin id function g s : Inv s → running id g s → is_Some (component_of id (engine s)) →
  fin None (ready_after id) s (recover instants epoch dispatch_ turns id function s).
Proof.
  intros HI Hg [c Hc]. pose proof (running_under_way _ _ _ Hg) as Hu.
  pose proof (proj1 (ok_under_way _ _ _ _ Hu) (inv_components _ HI _ _ Hc)) as (O1 & O2 & O3).
  unfold recover. rewrite (bind_done _ _ _ _ _ (self_done _ _ _ Hc)). destruct (cm_state c) as [|trap|message] eqn:Es.
  1,3: apply fin_ret; [done|apply kept_refl|]; cbn; eauto.
  destruct (Nat.ltb_spec 0 (cm_entered c)) as [Hn|Hn]; [apply fin_ret; [done|apply kept_refl|done]|].
  apply (fin_close id c); [done|]. apply set_fin with c; [done..|apply (ok_under_way _ _ _ _ Hu); split_and!; cbn; by rewrite ?Es|].
  intros s1 HI1 K1 Hc1 E1. destruct (begin_load_done (cm_id c) s1) as (load & s2 & Hb & -> & Hl & Hd1). rewrite (bind_done _ _ _ _ _ Hb).
  set (s2 := counted _ _ s1). set (s3 := pushed load s2). assert (Inv s3) as HI3 by (by apply inv_push_load; [apply inv_counted| |]).
  rewrite (bind_done _ _ _ _ _ (now_done s3)). set (s4 := counted _ _ s3). assert (Inv s4) as HI4 by (by apply inv_counted).
  eapply (fin_bind _ (Some id) (λ _ s', ∃ c', component_of id (engine s') = Some c' ∧ alike c c')).
  { destruct (_ <? _); [|apply fin_ret; [done|apply kept_refl|by exists (with_instance None c)]].
    apply (fin_conseq _ (λ _ s', ∃ c', component_of id (engine s') = Some c' ∧ alike (with_instance None c) c')); [|done].
    apply (make_fin id (with_instance None c)); try done.
    - right. exists load. cbn. rewrite last_snoc. split_and!; [done..|]. rewrite E1, (proj1 Hg) in Hd1. rewrite (kept_step _ _ _ K1).
      pose proof (inv_step _ HI) as I2. rewrite Forall_forall in I2. specialize (I2 g (last_Some_elem_of _ _ (proj1 Hg)) (proj2 (proj2 Hg))).
      destruct (e_step_deadline (engine s)); [cbn in *; lia|done].
    - cbn. lia.
    - change (e_guest_calls (engine s4)) with (e_guest_calls (engine s1) ++ [load]). rewrite under_way_push, Hl, andb_false_r, E1. by exists g. }
  intros made s5 HI5 K4 (c5 & Hc5 & Ha). assert (kept_but (Some id) s3 s5) as K5 by (eapply kept_trans; [by apply kept_counted, kept_refl|exact K4]). rewrite (bind_done end_load _ s5 tt (popped s5)) by done.
  assert (e_guest_calls (engine s5) = e_guest_calls (engine s1) ++ [load]) as E5 by exact (pop_calls _ _ _ _ K5).
  pose proof (inv_pop_load _ _ _ HI5 E5 Hl) as HI6. pose proof (kept_pop (Some id) load s2 s5 K5) as K6.
  assert (kept_but (Some id) s (popped s5)) as K by (eapply kept_trans; [apply (kept_counted _ (S (reads s1)) (ticks_read s1) _ _ K1)|exact K6]).
  assert (under_way id (e_guest_calls (engine (popped s5))) = Some g) as Hu6 by (by rewrite (kept_calls _ _ _ K)).
  assert (component_of id (engine (popped s5)) = Some c5) as Hc6 by done.
  pose proof (proj1 (ok_under_way _ _ _ _ Hu6) (inv_components _ HI6 _ _ Hc6)) as (P1 & P2 & P3).
  destruct Ha as (A1 & A2 & A3 & A4 & A5).
  assert (∀ i, same_component c (with_state Ready (with_instance (Some i) c5))) as S1 by (intros; by split_and!).
  assert (∀ x, same_component c (with_state x c5)) as S2 by (intros; split_and!; try done; cbn; lia).
  destruct made as [[i|[e|e]]|].
  - apply set_fin with c5; [done..|apply (ok_under_way _ _ _ _ Hu6); split_and!; [done..|]; intros j [= <-]; done|].
    intros s7 HI7 K7 Hc7 E7. rewrite (bind_done _ _ _ _ _ (now_done s7)).
    pose proof (kept_trans _ _ _ _ K K7). destruct (_ <=? _); apply fin_ret; try (by apply inv_counted); try (by apply kept_counted); cbn; eauto 10.
  - apply fin_ret; [done..|]. split; [done|]. exists c5. split; [done|]. split_and!; try done. lia.
  - apply set_fin with c5; [done..|apply (ok_under_way _ _ _ _ Hu6); by split_and!|].
    intros s7 HI7 K7 Hc7 E7. apply fin_ret; [done|by eapply kept_trans|]. cbn; eauto 10.
  - apply fin_ret; [done..|]. split; [done|]. exists c5. split; [done|]. split_and!; try done. lia.
Qed.

(** *** The dispatch of a component *)
Lemma ok_state calls id c x : x ≠ Ready → component_ok calls id c → component_ok calls id (with_state x c).
Proof. intros Hx [O1 O2]. by split. Qed.
Lemma leave_fin id (r : result DispatchError (result string (list byte))) c s : Inv s → component_of id (engine s) = Some c → is_Some (cm_instance c) →
  is_Some (under_way id (e_guest_calls (engine s))) →
  fin (Some id) (λ _ s', ∃ c', component_of id (engine s') = Some c' ∧ same_component c c') s
    ((c ← self id;
      _ ← (if (cm_entered c =? 0)%nat && negb (match cm_state c with Ready => true | _ => false end)
           then set_self id (with_instance None) else mret tt);
      match r with
      | Err e => mret (Err e)
      | Ok (Ok bytes) => mret (match guest_error bytes with Some message => Err (DGuest message) | None => Ok bytes end)
      | Ok (Err message) => mret (Err (DGuest (GuestText message)))
      end) s).
Proof.
  intros HI Hc Hi [g Hu]. rewrite (bind_done _ _ _ _ _ (self_done _ _ _ Hc)).
  assert (∀ s' c', Inv s' → kept_but (Some id) s s' → component_of id (engine s') = Some c' → same_component c c' →
    fin (Some id) (λ _ s', ∃ c', component_of id (engine s') = Some c' ∧ same_component c c') s ((match r with
      | Err e => mret (Err e)
      | Ok (Ok bytes) => mret (match guest_error bytes with Some message => Err (DGuest message) | None => Ok bytes end)
      | Ok (Err message) => mret (Err (DGuest (GuestText message)))
      end : E (result DispatchError (list byte))) s')) as Hend.
  { intros s' c' ????. destruct r as [[?|?]|?]; by apply fin_ret; eauto. }
  destruct (_ && _) eqn:Eb; [|apply (Hend s c); [done|apply kept_refl|done|apply same_component_refl]].
  apply andb_true_iff in Eb as [En%Nat.eqb_eq Est].
  apply set_fin with c; [done..| |].
  - pose proof (proj1 (ok_under_way _ _ _ _ Hu) (inv_components _ HI _ _ Hc)) as (O1 & O2 & O3).
    apply (ok_under_way _ _ _ _ Hu). split_and!; [|done|done]. cbn. intros Er. by rewrite Er in Est.
  - intros s1 HI1 K1 Hc1 E1. apply (Hend _ _ HI1 K1 Hc1). split_and!; try done. cbn. lia.
Qed.
Lemma component_dispatch_fin id function arg g s : Inv s → running id g s → is_Some (component_of id (engine s)) →
  fin None any s (component_dispatch instants epoch dispatch_ turns id function arg s).
Proof.
  intros HI Hg [c0 Hc0]. unfold component_dispatch. rewrite (bind_done _ _ _ _ _ (self_done _ _ _ Hc0)).
  destruct (negb _); [by apply fin_ret; [|apply kept_refl|]|]. unfold try_.
  eapply fin_bind; [by apply (recover_fin _ _ g)|]. intros [[]|e] s1 HI1 K1 Hr; [|by apply fin_ret].
  destruct Hr as (c & Hc & Hready). apply (fin_from _ _ _ s1); [done|].
  assert (under_way id (e_guest_calls (engine s1)) = Some g) as Hu by (rewrite (kept_calls _ _ _ K1); by apply running_under_way).
  rewrite (bind_done _ _ _ _ _ (self_done _ _ _ Hc)). pose proof (inv_components _ HI1 _ _ Hc) as Hok. destruct (ok_ready _ _ _ Hok Hready) as [i Hi]. rewrite Hi.
  rewrite (bind_done (unwrap _) _ s1 i s1) by done. apply (fin_close id c); [done|].
  apply set_fin with c; [done..|by eapply ok_entered|]. intros s2 HI2 K2 Hc2 E2.
  assert (at_place (Some id) s2) as Hp.
  { eexists _, g. split; [exact Hc2|]. rewrite E2, (kept_calls _ _ _ K1). destruct Hg as (? & ? & ?). split_and!; first [by exists i|cbn; lia|done]. }
  eapply fin_bind; [by apply run_fin|].
  intros ran s3 HI3 K3 _. destruct (kept_component _ _ _ _ _ K3 Hc2) as (c3 & Hc3 & Hs3). specialize (Hs3 ltac:(done)). destruct Hs3 as (B1 & B2 & B3 & B4 & B5 & B6).
  specialize (B6 ltac:(cbn; lia) ltac:(by exists i)). pose proof (kept_then _ _ _ _ K2 K3) as K13.
  assert (under_way id (e_guest_calls (engine s3)) = Some g) as Hu3 by (by rewrite (kept_calls _ _ _ K13)).
  apply set_fin with c3; [done..|by eapply ok_entered, inv_components|]. intros s4 HI4 K4 Hc4 E4. pose proof (kept_trans _ _ _ _ K13 K4) as K14.
  set (c4 := with_entered (cm_entered c3 - 1) c3) in *. assert (same_component c c4) as S4 by (cbn in *; split_and!; cbn; try done; lia).
  rewrite (bind_done _ _ _ _ _ (self_done _ _ _ Hc4)).
  assert (is_Some (under_way id (e_guest_calls (engine s4)))) as Hu4 by (exists g; by rewrite E4).
  eapply (fin_bind _ (Some id) (λ _ s', ∃ c', component_of id (engine s') = Some c' ∧ is_Some (cm_instance c') ∧ same_component c c')).
  { assert (∀ m, fin (Some id) (λ _ s', ∃ c', component_of id (engine s') = Some c' ∧ is_Some (cm_instance c') ∧ same_component c c') s4
      ((set_self id (with_state (Trapped m)) ≫= λ _, mret (Err (DTrap m)) : E (result DispatchError (result string (list byte)))) s4)) as Htrap.
    { intros m. apply set_fin with c4; [done..|by apply ok_state, inv_components|]. intros s5 HI5 K5 Hc5 E5. apply fin_ret; [done..|]. eexists; split; [exact Hc5|done]. }
    destruct ran; [apply fin_ret; [done|apply kept_refl|by exists c4]|apply Htrap|apply Htrap]. }
  intros r s5 HI5 K5 (c5 & Hc5 & Hi5 & S5). apply (fin_from _ _ _ s5); [by eapply kept_trans|].
  eapply fin_conseq; [apply (leave_fin id r c5); [done..|by rewrite (kept_calls _ _ _ K5)]|]. cbn. intros ? s' (c' & Hc' & S'). split; [done|]. exists c'. split; [done|]. by eapply same_component_trans.
Qed.

(** *** The dispatch of a module *)
Lemma decode_fin (Q : Value → St → Prop) data s : Inv s → (∀ v, Q v s) → fin None Q s (decode data s).
Proof. intros HI HQ. unfold decode. destruct (deserialize data); [|done]. apply fin_ret; [done|apply kept_refl|apply HQ]. Qed.
Lemma host_dispatch_fin h function arg s : Inv s → fin None any s (host_dispatch h function arg s).
Proof.
  intros HI. unfold host_dispatch, host_answer. destruct (hm_functions h !! function) as [f|]; [|by apply fin_ret; [|apply kept_refl|]].
  eapply (fin_bind _ None any).
  { unfold decode_arg. eapply (fin_bind _ None any); [by apply decode_fin|]. intros v s1 HI1 K1 _. destruct v; try by apply fin_ret. by destruct (decide _); apply fin_ret. }
  intros [call|m] s1 HI1 K1 _; [|by apply fin_ret]. rewrite (bind_done get _ s1 s1 s1) by done.
  destruct (f call (shared s1)) as [r x]. rewrite (bind_done (put _) _ s1 tt (with_shared x s1)) by done.
  apply fin_ret; [by destruct HI1|by destruct K1|done].
Qed.
Lemma module_dispatch_fin g l function arg s : Inv s → running (gc_module g) g s →
  match l_module l with ComponentM _ => is_Some (component_of (gc_module g) (engine s)) | HostM _ => component_of (gc_module g) (engine s) = None end →
  fin None any s (module_dispatch instants epoch dispatch_ turns (gc_module g) (l_module l) function arg s).
Proof.
  intros HI Hg Hl. unfold module_dispatch. destruct (l_module l) as [c|h] eqn:Em; [|by apply host_dispatch_fin].
  by apply (component_dispatch_fin _ _ _ g).
Qed.
Lemma enter_fin g l function arg b (set_ : bool) restore s : Inv s → e_modules (engine s) !! gc_module g = Some l → entered_by g s →
  match under_way (gc_module g) (e_guest_calls (engine s)) with
  | None => set_ = true ∧ restore = None
  | Some outer => set_ = true ∧ restore = Some (gc_deadline outer, gc_budget outer) ∨ set_ = false ∧ restore = None ∧ gc_deadline outer = gc_deadline g
  end →
  fin None any s
    ((_ ← (if set_ then tell l (gc_module g) (gc_deadline g) b else mret tt);
      _ ← push_call g;
      r ← module_dispatch instants epoch dispatch_ turns (gc_module g) (l_module l) function arg;
      _ ← pop_call;
      _ ← (match restore with Some (d, b) => tell l (gc_module g) d b | None => mret tt end);
      mret r) s).
Proof.
  intros HI El Hg Hr. set (s2 := if set_ then told (gc_module g) (gc_deadline g) b s else s).
  assert (∀ s', kept s s' → match l_module l with ComponentM _ => is_Some (component_of (gc_module g) (engine s')) | HostM _ => component_of (gc_module g) (engine s') = None end) as Hkind.
  { intros s' K. pose proof (kept_modules _ _ _ K (gc_module g)) as M. rewrite El in M. cbn in M. unfold component_of.
    destruct (e_modules (engine s') !! gc_module g) as [l'|]; [|done]. destruct M as (_ & _ & M). destruct (l_module l), (l_module l'); naive_solver. }
  assert (kept s s2) as K2 by (unfold s2; destruct set_; [apply told_kept|apply kept_refl]).
  rewrite (bind_done _ _ s tt s2) by (unfold s2; destruct set_; [apply tell_done, Hkind, kept_refl|done]).
  rewrite (bind_done (push_call g) _ s2 tt (pushed g s2)) by done.
  assert (Inv (pushed g s2)) as HI3.
  { apply (inv_enter g b s); [done..|]. unfold s2. destruct set_; [by left|right; split; [done|]]. destruct (under_way _ _) as [outer|]; naive_solver. }
  assert (running (gc_module g) g (pushed g s2)) as Hrun by (split; [apply last_snoc|by destruct Hg]).
  pose proof (module_dispatch_fin g l function arg (pushed g s2) HI3 Hrun (Hkind _ K2)) as Hm. unfold mbind at 1, E_bind at 1.
  destruct (module_dispatch _ _ _ _ _ _ _ _) as [[r s4]| |]; [|done..]. destruct Hm as (HI4 & K4 & _).
  rewrite (bind_done pop_call _ s4 tt (popped s4)) by done.
  destruct (inv_leave g restore s s2 s4 HI HI4 K2 K4) as [HI5 K5]; [|by destruct Hg|].
  { destruct (under_way _ _) as [outer|]; naive_solver. }
  rewrite (bind_done _ _ (popped s4) tt (restored restore (gc_module g) (popped s4))); [by apply fin_ret|].
  unfold restored. destruct restore as [[d b']|]; [|done]. apply tell_done, Hkind. eapply kept_trans; [exact K2|by eapply kept_pop].
Qed.
Lemma dispatch_with_fin module function arg s : Inv s → fin None any s (dispatch_with usize_max instants epoch dispatch_ turns module function arg s).
Proof.
  intros HI. unfold dispatch_with. destruct (call_deadline_done module s) as (d & b & Hd1 & Hst & Hl). rewrite (bind_done _ _ _ _ _ Hd1).
  set (s1 := counted _ _ s). assert (Inv s1) as HI1 by (by apply inv_counted). apply (fin_from _ _ _ s1); [apply kept_counted, kept_refl|].
  rewrite (bind_done get _ s1 s1 s1) by done. destruct (e_modules (engine s1) !! module) as [l|] eqn:El; [|by apply fin_ret; [|apply kept_refl|]].
  destruct (l_signatures l) as [sg|] eqn:Esg.
  2: { unfold module_dispatch. destruct (l_module l) as [c|h] eqn:Em; [|by apply host_dispatch_fin]. destruct (inv_signatures _ HI1 _ _ _ El Em) as [? ?]. congruence. }
  destruct (check _ _ _ _) as [[]|e]; [|by apply fin_ret; [|apply kept_refl|]].
  set (o := under_way module (e_guest_calls (engine s1))).
  assert (∃ d' b' restore set_, match o with
      | None => (d, b, None, true)
      | Some outer => if d <? gc_deadline outer then (d, b, Some (gc_deadline outer, gc_budget outer), true) else (gc_deadline outer, gc_budget outer, None, false)
      end = (d', b', restore, set_) ∧ d' ≤ d ∧ match o with
        | None => set_ = true ∧ restore = None
        | Some outer => set_ = true ∧ restore = Some (gc_deadline outer, gc_budget outer) ∨ set_ = false ∧ restore = None ∧ gc_deadline outer = d'
        end) as (d' & b' & restore & set_ & -> & Hle & Hr).
  { destruct o as [outer|]; [|by eexists _, _, _, _]. destruct (Z.ltb_spec d (gc_deadline outer)); eexists _, _, _, _; split; eauto with lia. }
  rewrite (bind_done _ _ _ _ _ (now_done s1)). set (s2 := counted _ _ s1). assert (Inv s2) as HI2 by (by apply inv_counted).
  apply (fin_from _ _ _ s2); [apply kept_counted, kept_refl|]. destruct (d' <=? _); [by apply fin_ret; [|apply kept_refl|]|].
  apply (enter_fin (mkGuestCall module d' b' false) l function arg b'); [done..| |exact Hr].
  split; [done|]. split; cbn.
  - destruct (e_step_deadline (engine s)); [cbn in *; lia|done].
  - destruct (last (e_guest_calls (engine s))); [lia|done].
Qed.
End Guests.
Lemma dispatch_fin fuel module function arg s : Inv s → fin None any s (dispatch usize_max instants epoch fuel module function arg s).
Proof. revert module function arg s. induction fuel as [|fuel IH]; intros module function arg s HI; [done|]. by apply dispatch_with_fin. Qed.

(** C17. Whatever the guests compute, trap on and call back for, at whatever depth,
    the dispatch of a call from an engine that keeps its books ends in one that
    does ([Inv]): every guest a tick of the epoch checked within a call was checked
    by the deadline of the innermost call under way, which none of its callers' nor
    the step's own precedes; the stack of calls, the budgets and the step are as
    they were, and every module is the one it was: a host module the same, a
    component of the same id, name, code and functions, as entered as before and
    still instantiated if entered, its memory being what its guests made of it; a module that is ready has its instance. A panic is
    of the decoding of a buffer, never of a module or an instance gone. *)
Theorem calls_nest fuel module function arg s : Inv s →
  match dispatch usize_max instants epoch fuel module function arg s with
  | Done (_, s') => Inv s' ∧ kept s s'
  | Panics_ why => why = Decoding
  | OutOfFuel_ => True
  end.
Proof.
  intros HI. pose proof (dispatch_fin fuel module function arg s HI) as Hf. destruct (dispatch _ _ _ _ _ _ _ _) as [[r s']| |]; [|done..].
  destruct Hf as (? & ? & _). done.
Qed.
End Dispatching.
