(* ===== verification/Returning.v ===== *)
(** * Calls return

    Guests may loop for ever and call each other without end, and [dispatch] runs
    on fuel. Time passes, and a guest's code is checked against the deadline of its
    call at every tick of the epoch: so every call returns, on as much fuel as it
    takes, and any more makes no difference. *)

From S2P Require Import Prelude Values Extern Writer Reader Froto Types WellFormed GuestArguments Schema Engine Dispatching.

(** The clock passes any instant, and the epoch ticks again. *)
Record time_passes (instants : nat → Z) (epoch : nat → bool) : Prop := {
  clock_passes : ∀ t, ∃ n, ∀ m, (n ≤ m)%nat → t ≤ instants m;
  epoch_ticks : ∀ n, ∃ m, (n ≤ m)%nat ∧ epoch m = true }.

Section Returning.
Context `{BY : Bytes} `{UC : UuidCrate} (usize_max : Z) {Mem X : Type} (instants : nat → Z) (epoch : nat → bool).
Abbreviation St := (@St Mem X).
Abbreviation E := (@E Mem X).
Abbreviation ComponentModule := (@ComponentModule Mem).
Abbreviation Component := (@Component Mem).
Abbreviation Instance_ := (@Instance Mem).

(** ** Code whose outcome is the same on any more fuel
    The first fuel is for the calls within, the second for the loops. *)
Definition T {A} (P : St → Prop) (Q : A → St → Prop) (m : nat → nat → E A) : Prop := ∀ s, P s →
  ∃ n o, (∀ F G, (n ≤ F)%nat → (n ≤ G)%nat → m F G s = o) ∧ match o with Done (a, s') => Q a s' | Panics_ _ => True | OutOfFuel_ => False end.
Lemma T_const {A} P Q (m : E A) :
  (∀ s, P s → match m s with Done (a, s') => Q a s' | Panics_ _ => True | OutOfFuel_ => False end) → T P Q (λ _ _, m).
Proof. intros Hm s Hs. exists 0%nat, (m s). split; [done|by apply Hm]. Qed.
Lemma T_bind {A B} P Q R (m : nat → nat → E A) (f : nat → nat → A → E B) :
  T P Q m → (∀ a, T (Q a) R (λ F G, f F G a)) → T P R (λ F G, m F G ≫= f F G).
Proof.
  intros Hm Hf s Hs. destruct (Hm s Hs) as (n & o & Ho & HQ). destruct o as [[a s']|why|]; [|by exists n, (Panics_ why); split; [|done]; intros F G HF HG; unfold mbind, E_bind; rewrite Ho|done].
  destruct (Hf a s' HQ) as (n' & o & Ho' & HR). exists (Nat.max n n'), o. split; [|done]. intros F G HF HG.
  unfold mbind, E_bind. rewrite Ho by lia. apply Ho'; lia.
Qed.
Lemma T_weaken {A} (P P' : St → Prop) (Q Q' : A → St → Prop) m : T P Q m → (∀ s, P' s → P s) → (∀ a s, Q a s → Q' a s) → T P' Q' m.
Proof. intros Hm HP HQ s Hs. destruct (Hm s (HP s Hs)) as (n & o & Ho & H). exists n, o. split; [done|]. destruct o as [[a s']| |]; auto. Qed.
Lemma T_at {A} P Q (m : nat → nat → E A) : (∀ s, P s → T (λ x, x = s) Q m) → T P Q m.
Proof. intros Hm s Hs. by apply (Hm s Hs). Qed.
(** Loops run on one turn less. *)
Lemma T_turn {A} P Q (m : nat → nat → E A) : T P Q (λ F G, m F (S G)) → T P Q m.
Proof.
  intros Hm s Hs. destruct (Hm s Hs) as (n & o & Ho & HQ). exists (S n), o. split; [|done].
  intros F [|G] HF HG; [lia|]. apply Ho; lia.
Qed.
Lemma T_ret {A} P (Q : A → St → Prop) a : (∀ s, P s → Q a s) → T P Q (λ _ _, mret a).
Proof. intros HQ. by apply T_const. Qed.

(** ** The deadlines of a call, all of them past from some reading on *)
Section Bounded.
Context (D : Z) (N : nat) (HN : ∀ m, (N ≤ m)%nat → D ≤ instants m).
Definition bounded (c : ComponentModule) : Prop := cm_deadline c ≤ D ∧ ∀ i, cm_instance c = Some i → i_deadline i ≤ D.
Record held (k : nat) (s : St) : Prop := {
  held_calls : length (e_guest_calls (engine s)) = k;
  held_deadlines : Forall (λ c, gc_deadline c ≤ D) (e_guest_calls (engine s));
  held_fresh : Forall (λ i, i_deadline i ≤ D) (fresh s);
  held_modules : ∀ id l c, e_modules (engine s) !! id = Some l → l_module l = ComponentM c → bounded c ∧ is_Some (l_signatures l) }.
(** What code leaves behind: the readings it made, and one for each tick *)
Record later (s s' : St) : Prop := {
  later_reads : (reads s ≤ reads s')%nat;
  later_ticks : (ticks_read s ≤ ticks_read s')%nat;
  later_read : ∀ m, (ticks_read s ≤ m < ticks_read s')%nat → epoch m = true → (reads s < reads s')%nat }.
Lemma later_refl s : later s s.
Proof. split; [done|done|lia]. Qed.
Lemma later_trans s1 s2 s3 : later s1 s2 → later s2 s3 → later s1 s3.
Proof.
  intros [A1 A2 A3] [B1 B2 B3]. split; [lia|lia|]. intros m Hm He. destruct (decide (m < ticks_read s2)%nat).
  - specialize (A3 m ltac:(lia) He). lia.
  - specialize (B3 m ltac:(lia) He). lia.
Qed.
(** Held since a state, and with what a command answered *)
Definition I (k : nat) (s0 s : St) : Prop := held k s ∧ later s0 s.
Definition with_I {A} (Q : A → Prop) (k : nat) (s0 : St) (a : A) (s : St) : Prop := Q a ∧ I k s0 s.
Abbreviation any := (λ _, True).
(** A command that keeps the clock and the epoch *)
Lemma T_still {A} (Q : A → Prop) k k' s0 (m : E A) :
  (∀ s, held k s → match m s with Done (a, s') => Q a ∧ held k' s' ∧ reads s' = reads s ∧ ticks_read s' = ticks_read s | Panics_ _ => True | OutOfFuel_ => False end) →
  T (I k s0) (with_I Q k' s0) (λ _ _, m).
Proof.
  intros Hm. apply T_const. intros s [Hh Hl]. specialize (Hm s Hh). destruct (m s) as [[a s']| |]; [|done..].
  destruct Hm as (Ha & Hk & Hr & Ht). split; [done|]. split; [done|]. eapply later_trans; [done|]. split; [lia|lia|]. rewrite Ht. lia.
Qed.
Lemma T_I {A B} (Q : A → Prop) k k1 s0 R (m : nat → nat → E A) (f : nat → nat → A → E B) :
  T (I k s0) (with_I Q k1 s0) m → (∀ a, Q a → T (I k1 s0) R (λ F G, f F G a)) → T (I k s0) R (λ F G, m F G ≫= f F G).
Proof. intros Hm Hf. eapply T_bind; [done|]. intros a s [Ha Hs]. by apply (Hf a Ha). Qed.
Lemma T_I_ret {A} (Q : A → Prop) k s0 a : Q a → T (I k s0) (with_I Q k s0) (λ _ _, mret a).
Proof. intros Ha. by apply T_ret. Qed.
Lemma T_get k s0 : T (I k s0) (with_I (held k) k s0) (λ _ _, get).
Proof. apply T_still. by intros s Hs. Qed.
Lemma T_unwrap {A} (o : option A) k s0 : T (I k s0) (with_I (λ a, o = Some a) k s0) (λ _ _, unwrap o).
Proof. apply T_still. intros s Hs. by destruct o. Qed.
Lemma T_panic {A} why (Q : A → St → Prop) k s0 : T (I k s0) Q (λ _ _, panic_ why).
Proof. by apply T_const. Qed.
Lemma held_component k s id c : held k s → component_of id (engine s) = Some c → bounded c.
Proof.
  intros Hh Hc. unfold component_of in Hc. destruct (e_modules (engine s) !! id) as [l|] eqn:El; [|done].
  destruct (l_module l) as [c'|] eqn:Em; [|done]. injection Hc as ->. by eapply held_modules.
Qed.
Lemma T_self id k s0 : T (I k s0) (with_I bounded k s0) (λ _ _, self id).
Proof.
  apply T_still. intros s Hs. unfold self, mbind, E_bind, get, unwrap. destruct (component_of id (engine s)) as [c|] eqn:Hc; [|done].
  split; [by eapply held_component|done].
Qed.
Lemma T_set_self id f k s0 : (∀ c, bounded c → bounded (f c)) → T (I k s0) (with_I any k s0) (λ _ _, set_self id f).
Proof.
  intros Hf. apply T_still. intros s Hs. unfold set_self, self, mbind, E_bind, get, unwrap. destruct (component_of id (engine s)) as [c|] eqn:Hc; [|done].
  pose proof (held_component _ _ _ _ Hs Hc) as Hb. split; [done|]. split; [|done]. destruct Hs as [H1 H2 H3 H4]. split; [done..|].
  intros j l cj. cbn. destruct (decide (j = id)) as [->|Hj]; [|rewrite lookup_alter_ne by done; apply H4].
  rewrite lookup_alter_eq. intros (l' & El & ->)%fmap_Some. cbn. intros [= <-]. split; [by apply Hf|].
  unfold component_of in Hc. rewrite El in Hc. destruct (l_module l') eqn:Em; [|done]. by eapply H4.
Qed.
Lemma T_push c k s0 : gc_deadline c ≤ D → T (I k s0) (with_I any (S k) s0) (λ _ _, push_call c).
Proof.
  intros Hc. apply T_still. intros s [H1 H2 H3 H4]. split; [done|]. split; [|done]. split; [cbn; rewrite length_app, H1; cbn; lia| |done..].
  cbn. apply Forall_app. split; [done|by constructor].
Qed.
Lemma T_pop k s0 : T (I (S k) s0) (with_I any k s0) (λ _ _, pop_call).
Proof.
  apply T_still. intros s [H1 H2 H3 H4]. split; [done|]. split; [|done].
  split; [|cbn; rewrite removelast_firstn_len; by apply Forall_take|done..]. cbn. rewrite removelast_firstn_len, length_take, H1. lia.
Qed.
Lemma T_fresh f k s0 : (∀ l, Forall (λ i, i_deadline i ≤ D) l → Forall (λ i, i_deadline i ≤ D) (f l)) →
  T (I k s0) (with_I any k s0) (λ _ _, put (λ s, with_fresh (f (fresh s)) s)).
Proof. intros Hf. apply T_still. intros s [H1 H2 H3 H4]. split; [done|]. split; [|done]. split; [done..|by apply Hf|done]. Qed.
Lemma T_shared x k s0 : T (I k s0) (with_I any k s0) (λ _ _, put (with_shared x)).
Proof. apply T_still. intros s [H1 H2 H3 H4]. done. Qed.
Lemma T_now k s0 : T (I k s0) (with_I any k s0) (λ _ _, now instants).
Proof.
  apply T_const. intros s [Hh Hl]. cbn. split; [done|]. split; [by destruct Hh|]. eapply later_trans; [done|].
  split; cbn; lia.
Qed.
(** Commands one after the other *)
Ltac command :=
  lazymatch goal with
  | |- T _ _ (λ _ _, try_ _ _) => unfold try_
  | |- T _ _ (λ _ _, mbind _ _) => eapply T_I; [|intros ? ?]
  | |- T _ _ (λ _ _, mret _) => apply T_I_ret; try done
  | |- T _ _ (λ _ _, panic_ _) => apply T_panic
  | |- T _ _ (λ _ _, get) => apply T_get
  | |- T _ _ (λ _ _, unwrap _) => apply T_unwrap
  | |- T _ _ (λ _ _, self _) => apply T_self
  | |- T _ _ (λ _ _, set_self _ _) => apply T_set_self
  | |- T _ _ (λ _ _, now _) => apply T_now
  | |- T _ _ (λ _ _, pop_call) => apply T_pop
  | |- T _ _ (λ _ _, end_load) => apply T_pop
  | |- T _ _ (λ _ _, let _ := _ in _) => cbv zeta
  | |- T _ _ (λ _ _, match ?x with _ => _ end) => destruct x eqn:?
  end.
Ltac commands := repeat command.
Lemma T_call_deadline module k s0 : T (I (S k) s0) (with_I (λ a, a.1 ≤ D) (S k) s0) (λ _ _, call_deadline instants module).
Proof.
  unfold call_deadline. commands. destruct H0 as [H1 H2 _ _]. cbn. destruct (last _) as [caller|] eqn:El.
  - apply last_Some_elem_of in El. rewrite Forall_forall in H2. specialize (H2 _ El). lia.
  - apply last_None in El. by rewrite El in H1.
Qed.
Lemma T_begin_load module k s0 : T (I (S k) s0) (with_I (λ d, d ≤ D) (S (S k)) s0) (λ _ _, begin_load instants module).
Proof.
  unfold begin_load. eapply T_I; [apply T_get|]. intros s Hs. eapply (T_I (λ load, gc_deadline load ≤ D)).
  - unfold loading. commands. destruct Hs as [H1 H2 _ _]. destruct (last _) as [caller|] eqn:El; cbn.
    + apply last_Some_elem_of in El. rewrite Forall_forall in H2. specialize (H2 _ El). lia.
    + apply last_None in El. by rewrite El in H1.
  - intros load Hl. eapply T_I; [by apply T_push|]. intros _ _. by apply T_I_ret.
Qed.
Lemma T_instance_at place k s0 : T (I k s0) (with_I (λ i, i_deadline i ≤ D) k s0) (λ _ _, instance_at place).
Proof.
  unfold instance_at. destruct place as [id|].
  - eapply T_I; [apply T_self|]. intros c [_ Hc]. eapply T_weaken; [apply T_unwrap|done|]. intros i s [Hi Hs]. split; [by apply Hc|done].
  - eapply T_I; [apply T_get|]. intros s [_ _ Hs _]. eapply T_weaken; [apply T_unwrap|done|]. intros i s' [Hi Hs']. split; [|done].
    destruct (fresh s) as [|j l]; [done|]. injection Hi as ->. by apply Forall_cons in Hs as [? _].
Qed.
Lemma T_set_memory place m k s0 : T (I k s0) (with_I any k s0) (λ _ _, set_memory place m).
Proof.
  unfold set_memory. eapply T_I; [apply T_instance_at|]. intros i Hi. destruct place as [id|].
  - apply T_set_self. intros c [Hc _]. split; [done|]. by intros j [= <-].
  - apply (T_fresh (λ l, mkInstance m (i_deadline i) :: tail l)). intros l Hl. constructor; [done|]. destruct l; [done|]. by apply Forall_cons in Hl as [_ ?].
Qed.
(** ** A tick interrupts once the deadline is past, and the clock is read at it *)
Definition ticked (k : nat) (s s' : St) (stop : bool) : Prop :=
  held k s' ∧ later s s' ∧ ticks_read s' = S (ticks_read s) ∧
  (epoch (ticks_read s) = true → (reads s < reads s')%nat ∧ ((N ≤ reads s)%nat → stop = true)).
Lemma interrupted_ticks place k s : held k s →
  match interrupted instants epoch place s with Done (stop, s') => ticked k s s' stop | Panics_ _ => True | OutOfFuel_ => False end.
Proof.
  intros Hs. unfold interrupted, get, put, mbind, E_bind. cbn [mret E_ret reads ticks_read].
  set (s1 := mkSt (engine s) (fresh s) (shared s) (reads s) (S (ticks_read s)) (checks s)). assert (held k s1) as Hs1 by (by destruct Hs).
  destruct (epoch (ticks_read s)) eqn:Ee.
  2: { unfold ticked. split_and!; [done| |done|by rewrite Ee]. split; cbn; [lia|lia|]. intros m Hm He. assert (m = ticks_read s) as -> by lia. congruence. }
  destruct (T_instance_at place k s1 s1 ltac:(split; [done|apply later_refl])) as (n & o & Ho & Hi). specialize (Ho n n ltac:(lia) ltac:(lia)).
  assert (match instance_at place s1 with Done (i, s2) => s2 = s1 | _ => True end) as Hsame.
  { unfold instance_at, self, get, mbind, E_bind, unwrap, mret, E_ret, panic_. destruct place; cbn; [|by destruct (fresh s)].
    cbn. destruct (component_of _ _) as [c|]; cbn; [|done]. by destruct (cm_instance c). }
  rewrite Ho in Hsame |- *. destruct o as [[i s2]| |]; [|done..]. subst s2. destruct Hi as [Hi _].
  assert ((N ≤ reads s)%nat → on_epoch (i_deadline i) (instants (reads s)) = Interrupt) as Hpast.
  { intros Hn. specialize (HN _ Hn). unfold on_epoch. by rewrite Z.geb_leb, (proj2 (Z.leb_le _ _)) by lia. }
  cbn -[on_epoch]. unfold ticked. split_and!.
  - by destruct Hs.
  - split; cbn; lia.
  - done.
  - intros _. split; [cbn; lia|]. intros Hn. change (reads s1) with (reads s). by rewrite Hpast.
Qed.
Lemma T_ticks place k s : held k s → T (λ x, x = s) (λ stop s', ticked k s s' stop) (λ _ _, interrupted instants epoch place).
Proof. intros Hs. apply T_const. intros ? ->. by apply interrupted_ticks. Qed.
Lemma T_interrupted place k s0 : T (I k s0) (with_I any k s0) (λ _ _, interrupted instants epoch place).
Proof.
  apply T_at. intros s [Hs Hl]. eapply T_weaken; [by apply T_ticks|done|]. intros stop s' (Hk & Hl' & _). split; [done|]. split; [done|by eapply later_trans].
Qed.

(** The rest of a dispatch, where its call has time left *)
Definition enter (dispatch_ : Uuid → Uuid → list byte → E (result DispatchError (list byte))) (turns : nat) module (l : Loaded (Mem := Mem) (X := X)) function arg
    (d b : Z) restore (set_ : bool) : E (result DispatchError (list byte)) :=
  let tell := λ d b, match l_module l with ComponentM _ => set_self module (set_call_deadline d b) | HostM _ => mret tt end in
  _ ← (if set_ then tell d b else mret tt);
  _ ← push_call (mkGuestCall module d b false);
  r ← module_dispatch instants epoch dispatch_ turns module (l_module l) function arg;
  _ ← pop_call;
  _ ← (match restore with Some (d, b) => tell d b | None => mret tt end);
  mret r.
Section Guests.
Context (dispatch_ : nat → Uuid → Uuid → list byte → E (result DispatchError (list byte))) (left_ : nat).
(** Calls made in time return, [left_] readings before every deadline is past, and those made late make no tick. *)
Context (Hcall : ∀ module function arg k s, held (S k) s → (N ≤ reads s + left_)%nat →
  T (λ x, x = s) (λ _ s', held (S k) s' ∧ later s s' ∧ ((N ≤ reads s)%nat → ticks_read s' = ticks_read s)) (λ F _, dispatch_ F module function arg)).
(** *** A guest's code, where what holds of its states holds throughout *)
Lemma T_run_to (P : St → Prop) (Q : Ran → St → Prop) again place p :
  T P (λ stop s, if stop : bool then Q InterruptedAt s else P s) (λ _ _, interrupted instants epoch place) →
  T P (λ _, P) (λ _ _, instance_at place) → (∀ m, T P (λ _, P) (λ _ _, set_memory place m)) →
  (∀ module function arg, T P (λ _, P) (λ F _, dispatch_ F module function arg)) →
  (∀ label, T P Q (λ F G, again F G label)) → (∀ r s, P s → Q r s) →
  T P Q (λ F G, run_to instants epoch (dispatch_ F) (again F G) place p).
Proof.
  intros Hi Hp Hm Hd Ha HQ. induction p as [r|m|f IH|module function arg c IH|label] using Program_nested_ind; cbn [run_to]; [apply T_ret, HQ..| | |apply Ha].
  - eapply T_bind; [exact Hi|]. intros stop. destruct stop; [by apply T_ret|]. eapply T_bind; [exact Hp|]. intros i.
    eapply T_bind; [apply Hm|]. intros []. apply IH.
  - eapply T_bind; [apply Hd|]. intros r. apply IH.
Qed.
(** Between two ticks the code keeps what [P] says, which neither the readings nor the ticks of another guest's code break *)
Definition on_time (m ticks_left : nat) (late : nat) (k : nat) (s0 s : St) : Prop :=
  I (S k) s0 s ∧ (N ≤ reads s + late)%nat ∧
  (match late with S late => (N ≤ reads s + late)%nat | O => False end ∨ (ticks_read s ≤ m)%nat ∧ (m ≤ ticks_read s + ticks_left)%nat).
Lemma on_time_later m n late k s0 s s' : epoch m = true → on_time m n late k s0 s → held (S k) s' → later s s' →
  (late = 0%nat → ticks_read s' = ticks_read s) → on_time m n late k s0 s'.
Proof.
  intros Hm ([Hh Hl] & Hn & Hor) Hs' [R1 R2 R3] Hlate. split; [split; [done|by eapply later_trans]|]. split; [lia|].
  destruct late as [|late]; [right; rewrite Hlate by done; destruct Hor as [[]|Hor]; exact Hor|].
  destruct Hor as [Hr|[Ht1 Ht2]]; [left; lia|]. destruct (decide (ticks_read s' ≤ m)%nat) as [Ht|Ht]; [right; lia|].
  specialize (R3 m ltac:(lia) Hm). left. lia.
Qed.
(** Commands that neither read the clock nor meet a tick *)
Definition still {A} (c : E A) : Prop := ∀ s, match c s with Done (_, s') => reads s' = reads s ∧ ticks_read s' = ticks_read s | _ => True end.
Lemma still_instance_at place : still (instance_at place).
Proof.
  intros s. unfold instance_at, self, get, mbind, E_bind, unwrap, mret, E_ret, panic_. destruct place; cbn; [|by destruct (fresh s)].
  destruct (component_of _ _) as [c|]; cbn; [|done]. by destruct (cm_instance c).
Qed.
Lemma still_set_memory place m : still (set_memory place m).
Proof.
  intros s. unfold set_memory, mbind, E_bind. pose proof (still_instance_at place s) as Hi. destruct (instance_at place s) as [[i s1]| |]; [|done..].
  destruct place; [|done]. unfold set_self, self, get, put, mbind, E_bind, unwrap, mret, E_ret, panic_. by destruct (component_of _ _).
Qed.
Lemma T_on_time {A} m n late k s0 (c : E A) : epoch m = true → still c → (∀ s, T (I (S k) s) (with_I any (S k) s) (λ _ _, c)) →
  T (on_time m n late k s0) (λ _, on_time m n late k s0) (λ _ _, c).
Proof.
  intros Hm Hstill Hc. apply T_const. intros s Hs. pose proof Hs as ([Hh Hl] & _). destruct (Hc s s) as (F & o & Ho & Hi); [split; [done|apply later_refl]|].
  rewrite (Ho F F) by done. specialize (Hstill s). rewrite (Ho F F) in Hstill by done. destruct o as [[a s']| |]; [|done..].
  destruct Hi as [_ [Hs' Hl']]. eapply on_time_later; [done..|]. intros _. apply Hstill.
Qed.
(** A tick that does not interrupt brings the end nearer *)
Definition nearer (m n late : nat) (k : nat) (s0 s : St) : Prop :=
  I (S k) s0 s ∧ ((∃ l, late = S l ∧ (N ≤ reads s + l)%nat) ∨ ∃ n', n = S n' ∧ on_time m n' late k s0 s).
Lemma ticked_on_time m n late k s0 s s' : epoch m = true → on_time m n late k s0 s → ticked (S k) s s' false → on_time m n late k s0 s' ∧ nearer m n late k s0 s'.
Proof.
  intros Hm ([Hh Hl] & Hn & Hor) (Hs' & Hl' & Ht & Hep). assert (I (S k) s0 s') as HI by (split; [done|by eapply later_trans]). pose proof (later_reads _ _ Hl') as Hr.
  assert ((∃ l, late = S l ∧ (N ≤ reads s' + l)%nat) ∨ (ticks_read s < m)%nat ∧ (m ≤ ticks_read s + n)%nat) as Hcase.
  { destruct Hor as [Hlate|[Ht1 Ht2]]; [destruct late as [|l]; [done|left; exists l; split; [done|lia]]|].
    destruct (epoch (ticks_read s)) eqn:Ee.
    - destruct (Hep eq_refl) as [Hlt Hstop]. destruct late as [|l]; [assert (false = true) by (apply Hstop; lia); done|]. left. exists l. split; [done|lia].
    - right. assert (ticks_read s ≠ m) by congruence. lia. }
  destruct Hcase as [(l & -> & Hnl)|[Ht1 Ht2]].
  - split; [split; [done|]; split; [lia|by left]|]. split; [done|]. left. by exists l.
  - split; [split; [done|]; split; [lia|right; lia]|]. split; [done|]. right. exists (n - 1)%nat. split; [lia|]. split; [done|]. split; [lia|right; lia].
Qed.
Lemma T_ticked m n late k s0 place : epoch m = true →
  T (on_time m n late k s0) (λ stop s, if stop : bool then I (S k) s0 s else on_time m n late k s0 s ∧ nearer m n late k s0 s) (λ _ _, interrupted instants epoch place).
Proof.
  intros Hm. apply T_at. intros s Hs. pose proof Hs as ([Hh Hl] & _). eapply T_weaken; [by apply T_ticks|done|]. intros stop s' Ht. destruct stop.
  - destruct Ht as (? & ? & _). split; [done|by eapply later_trans].
  - by eapply ticked_on_time.
Qed.
Context (Hep : ∀ n, ∃ m, (n ≤ m)%nat ∧ epoch m = true).
Lemma T_run late : (late ≤ left_)%nat → ∀ k s0 body place p,
  T (λ s, I (S k) s0 s ∧ (N ≤ reads s + late)%nat) (with_I any (S k) s0) (λ F G, run instants epoch (dispatch_ F) G body place p).
Proof.
  induction late as [late IHlate] using lt_wf_ind. intros Hlate k s0 body place p. apply T_at. intros s0' [HI0 Hn0].
  destruct (Hep (ticks_read s0')) as (m & Hm & Hme).
  assert (∀ n p, T (on_time m n late k s0) (with_I any (S k) s0) (λ F G, run instants epoch (dispatch_ F) G body place p)) as Hrun.
  2: { eapply T_weaken; [apply (Hrun (m - ticks_read s0')%nat p)| |done]. intros s ->. split; [done|]. split; [done|right; lia]. }
  intros n. induction n as [n IHn] using lt_wf_ind. clear p. intros p. apply T_turn. cbn [run].
  apply (T_run_to (on_time m n late k s0) _ (λ F G label, _)).
  - eapply T_weaken; [by apply T_ticked|done|]. intros [] s; [by split|by intros [? _]].
  - apply T_on_time; [done|apply still_instance_at|]. intros s. eapply T_weaken; [apply T_instance_at|done|]. intros ? ? [_ ?]. by split.
  - intros mem. apply T_on_time; [done|apply still_set_memory|]. intros s. apply T_set_memory.
  - intros module function arg. apply T_at. intros s Hs. pose proof Hs as ([Hh Hl] & Hn & _). eapply T_weaken; [apply (Hcall _ _ _ k s); [done|lia]|done|].
    intros r s' (Hs' & Hl' & Ht). eapply on_time_later; [done..|]. intros ->. apply Ht. lia.
  - intros label. eapply T_bind; [by apply (T_ticked m n late k s0 place)|]. intros [].
    + apply T_ret. by split.
    + apply T_at. intros s [_ [HI [(l & -> & Hl)|(n' & -> & Hn')]]].
      * eapply T_weaken; [apply (IHlate l); lia| |done]. by intros ? ->.
      * eapply T_weaken; [apply (IHn n'); lia| |done]. by intros ? ->.
  - intros r s [HI _]. by split.
Qed.
(** *** The dispatch of a component, from a state in time *)
Section In_time.
Context (s0 : St) (Hs0 : (N ≤ reads s0 + left_)%nat).
Lemma T_runs k body place p : T (I (S k) s0) (with_I any (S k) s0) (λ F G, run instants epoch (dispatch_ F) G body place p).
Proof. eapply T_weaken; [by apply (T_run left_)| |done]. intros s [Hs Hl]. split; [done|]. destruct Hl. lia. Qed.
Ltac known :=
  lazymatch goal with
  | |- T _ _ (λ _ _, run _ _ _ _ _ _ _) => apply T_runs
  | |- T _ _ (λ _ _, mbind _ (match _ with Returned _ => _ | TrappedAt _ => _ | InterruptedAt => _ end)) => eapply (T_I any); [|intros ? ?]
  | |- T _ _ (λ _ _, instance_at _) => apply T_instance_at
  | |- T _ _ (λ _ _, begin_load _ _) => apply T_begin_load
  | |- T _ _ (λ _ _, put (λ s, with_fresh _ s)) => first [apply (T_fresh (λ l, _ :: l))|apply (T_fresh tail)]
  | |- T _ _ _ => command
  end.
Lemma T_instance c ids deadline k : deadline ≤ D →
  T (I (S k) s0) (with_I (λ r, match r with Ok i => i_deadline i ≤ D | Err _ => True end) (S k) s0) (λ F G, instance instants epoch (dispatch_ F) G c ids deadline).
Proof.
  intros Hd. assert (∀ l : list Instance_, Forall (λ i, i_deadline i ≤ D) l → Forall (λ i, i_deadline i ≤ D) (tail l)) as Htail by (by intros ? []).
  unfold instance. repeat known; try done; by constructor.
Qed.
Lemma T_recover id function k : T (I (S k) s0) (with_I any (S k) s0) (λ F G, recover instants epoch (dispatch_ F) G id function).
Proof.
  unfold recover. eapply T_I; [apply T_self|]. intros c [Hc Hi]. destruct (cm_state c); [by apply T_I_ret| |by apply T_I_ret].
  destruct (_ <? _)%nat; [by apply T_I_ret|]. cbv zeta. eapply T_I; [apply T_set_self; by intros ? [? _]|]. intros _ _.
  eapply T_I; [apply T_begin_load|]. intros d Hd. eapply T_I; [apply T_now|]. intros t _.
  eapply (T_I (λ r, match r with Some (Ok i) => i_deadline i ≤ D | _ => True end)).
  { destruct (t <? d); [|by apply T_I_ret]. eapply T_I; [by apply T_set_self|]. intros _ _. eapply T_I; [by apply T_instance|]. intros r Hr.
    eapply T_I; [by apply T_set_self|]. intros _ _. by apply T_I_ret. }
  intros made Hm. eapply T_I; [apply T_pop|]. intros _ _. destruct made as [[i|[e|e]]|]; [|by apply T_I_ret| |by apply T_I_ret].
  - eapply T_I; [apply T_set_self; intros ? [? _]; split; [done|]; by intros ? [= <-]|]. intros _ _. repeat known.
  - repeat known. done.
Qed.
Lemma T_component_dispatch id function arg k : T (I (S k) s0) (with_I any (S k) s0) (λ F G, component_dispatch instants epoch (dispatch_ F) G id function arg).
Proof.
  unfold component_dispatch. eapply T_I; [apply T_self|]. intros c _. destruct (negb _); [by apply T_I_ret|]. unfold try_.
  eapply T_I; [apply T_recover|]. intros [[]|e] _; [|by apply T_I_ret]. repeat known; try done. by intros ? [? _].
Qed.
Lemma T_host_dispatch h function arg k : T (I k s0) (with_I any k s0) (λ _ _, host_dispatch h function arg).
Proof.
  apply T_still. intros s Hs. unfold host_dispatch, host_answer, decode_arg, decode, get, put, mbind, E_bind, panic_, mret, E_ret.
  destruct (hm_functions h !! function) as [f|]; [|done]. destruct (deserialize arg) as [v|]; [|done]. destruct v; try done.
  destruct (decide _); [|done]. destruct (f _ _) as [r x]. by destruct Hs.
Qed.
Lemma T_module_dispatch m id function arg k : T (I (S k) s0) (with_I any (S k) s0) (λ F G, module_dispatch instants epoch (dispatch_ F) G id m function arg).
Proof. unfold module_dispatch. destruct m; [apply T_component_dispatch|apply T_host_dispatch]. Qed.
End In_time.

Lemma under_way_deadline k s id g : held k s → under_way id (e_guest_calls (engine s)) = Some g → gc_deadline g ≤ D.
Proof.
  intros [_ Hd _ _] Hu. unfold under_way in Hu. apply List.find_some in Hu as [Hin _]. rewrite <- in_rev in Hin.
  rewrite List.Forall_forall in Hd. by apply Hd.
Qed.
Lemma T_enter module l function arg k s (d b : Z) restore (set_ : bool) : held k s → (N ≤ reads s + left_)%nat → d ≤ D →
  match restore with Some (d, _) => d ≤ D | None => True end →
  T (λ x, x = s) (with_I any k s) (λ F G, enter (dispatch_ F) G module l function arg d b restore set_).
Proof.
  intros Hs Hn Hd Hr. apply (T_weaken (I k s) _ (with_I any k s) (with_I any k s)); [|intros ? ->; split; [done|apply later_refl]|done]. unfold enter. cbv zeta.
  assert (∀ d b, d ≤ D → T (I k s) (with_I any k s) (λ _ _, match l_module l with ComponentM _ => set_self module (set_call_deadline d b) | HostM _ => mret tt end)) as Htell.
  { intros d' b' Hd'. destruct (l_module l) as [m|m]; [|by apply T_I_ret]. apply T_set_self. intros c [_ Hc]. split; [done|]. cbn. by intros i (j & _ & ->)%fmap_Some. }
  eapply (T_I any); [destruct set_; [by apply Htell|by apply T_I_ret]|]. intros _ _. eapply T_I; [by apply T_push|]. intros _ _.
  eapply T_I; [by apply T_module_dispatch|]. intros r _. eapply T_I; [apply T_pop|]. intros _ _.
  eapply (T_I any); [destruct restore as [[d' b']|]; [by apply Htell|by apply T_I_ret]|]. intros _ _. by apply T_I_ret.
Qed.
End Guests.
(** *** The dispatch of a module: refused late, and otherwise with a reading fewer *)
Definition answered (k : nat) (s s' : St) : Prop := held k s' ∧ later s s' ∧ ((N ≤ reads s)%nat → ticks_read s' = ticks_read s).
Definition in_time (k : nat) (s : St) (a : Z * Z) (s' : St) : Prop :=
  a.1 ≤ D ∧ held k s' ∧ later s s' ∧ ticks_read s' = ticks_read s.
Lemma T_dispatch_with (dispatch_ : nat → Uuid → Uuid → list byte → E (result DispatchError (list byte))) module function arg k s :
  T (λ x, x = s) (in_time k s) (λ _ _, call_deadline instants module) →
  (∀ l d b restore set_ s2, held k s2 → (reads s < reads s2 ≤ N)%nat → d ≤ D → match restore with Some (d, _) => d ≤ D | None => True end →
    T (λ x, x = s2) (with_I any k s2) (λ F G, enter (dispatch_ F) G module l function arg d b restore set_)) →
  T (λ x, x = s) (λ _, answered k s) (λ F G, dispatch_with usize_max instants epoch (dispatch_ F) G module function arg).
Proof.
  intros Hcd Henter. unfold dispatch_with. eapply T_bind; [exact Hcd|]. intros [d b]. apply T_at. intros s1 (Hd & Hs1 & Hl1 & Ht1). cbn [fst] in Hd.
  assert (answered k s s1) as Hans by done.
  eapply (T_bind _ (λ a x, a = s1 ∧ x = s1)); [by apply T_const; intros ? ->|]. intros ?. apply T_at. intros ? [-> ->].
  destruct (e_modules (engine s1) !! module) as [l|] eqn:El; [|apply T_ret; by intros ? ->].
  destruct (l_signatures l) as [sg|] eqn:Esg.
  2: { unfold module_dispatch. destruct (l_module l) as [c|h] eqn:Em; [destruct (held_modules _ _ Hs1 _ _ _ El Em) as [_ [? ?]]; congruence|].
    intros ? ->. destruct (T_host_dispatch s1 h function arg k s1) as (n & o & Ho & Hi); [split; [done|apply later_refl]|].
    exists n, o. split; [exact Ho|]. specialize (Ho n n ltac:(lia) ltac:(lia)). destruct o as [[r s']| |]; [|done..]. destruct Hi as [_ [Hh Hl]].
    split; [done|]. split; [by eapply later_trans|]. intros _. rewrite <- Ht1. clear -Ho.
    unfold host_dispatch, host_answer, decode_arg, decode, get, put, mbind, E_bind, panic_, mret, E_ret in Ho.
    destruct (hm_functions h !! function) as [f|]; [|by simplify_eq]. destruct (deserialize arg) as [v|]; [|done]. destruct v; simplify_eq; try done.
    destruct (decide _); [|by simplify_eq]. destruct (f _ _) as [r' x]. by simplify_eq. }
  destruct (check _ _ _ _) as [[]|e]; [|apply T_ret; by intros ? ->].
  set (o := under_way module (e_guest_calls (engine s1))).
  assert (∃ d' b' restore set_, match o with
      | None => (d, b, None, true)
      | Some outer => if d <? gc_deadline outer then (d, b, Some (gc_deadline outer, gc_budget outer), true) else (gc_deadline outer, gc_budget outer, None, false)
      end = (d', b', restore, set_) ∧ d' ≤ D ∧ match restore with Some (d, _) => d ≤ D | None => True end) as (d' & b' & restore & set_ & -> & Hd' & Hr).
  { destruct o as [outer|] eqn:Eo; [|by eexists _, _, _, _]. pose proof (under_way_deadline _ _ _ _ Hs1 Eo). destruct (d <? _); by eexists _, _, _, _. }
  eapply (T_bind _ (λ t x, t = instants (reads s1) ∧ held k x ∧ later s x ∧ ticks_read x = ticks_read s ∧ reads x = S (reads s1))).
  { apply T_const. intros ? ->. cbn. split_and!; [done|by destruct Hs1| |done|done]. eapply later_trans; [exact Hl1|]. split; cbn; lia. }
  intros t. apply T_at. intros s2 (-> & Hs2 & Hl2 & Ht2 & Hr2). destruct (Z.leb_spec d' (instants (reads s1))) as [Hlate|Hearly].
  { apply T_ret. intros ? ->. by split. }
  assert (reads s1 < N)%nat as Hlt by (destruct (decide (reads s1 < N)%nat); [done|]; specialize (HN (reads s1) ltac:(lia)); lia).
  pose proof (later_reads _ _ Hl1). eapply T_weaken; [apply (Henter l d' b' restore set_ s2); [done|lia|done..]|done|].
  intros r s' [_ [Hs' Hl']]. split; [done|]. split; [by eapply later_trans|lia].
Qed.
Lemma call_deadline_read module (s : St) : ∃ a, call_deadline instants module s = Done (a, counted (S (reads s)) (ticks_read s) s).
Proof. unfold call_deadline, now, get, put, mbind, E_bind, mret, E_ret. cbv zeta. by eexists. Qed.
Lemma T_fueled {P} {Q : _ → St → Prop} module function arg :
  T P Q (λ F G, dispatch_with usize_max instants epoch (dispatch usize_max instants epoch F) G module function arg) →
  T P Q (λ F _, dispatch usize_max instants epoch F module function arg).
Proof. intros Hm s Hs. destruct (Hm s Hs) as (n & o & Ho & HQ). exists (S n), o. split; [|done]. intros [|F] G HF HG; [lia|]. apply Ho; lia. Qed.
Lemma T_dispatch (Hep : ∀ n, ∃ m, (n ≤ m)%nat ∧ epoch m = true) left_ : ∀ module function arg k s, held (S k) s → (N ≤ reads s + left_)%nat →
  T (λ x, x = s) (λ _, answered (S k) s) (λ F _, dispatch usize_max instants epoch F module function arg).
Proof.
  induction left_ as [|left_ IH]; intros module function arg k s Hs Hn; apply T_fueled, T_dispatch_with.
  1,3: intros ? ->; destruct (T_call_deadline module k s s) as (n & o & Ho & Hi); [split; [done|apply later_refl]|]; exists n, o; split; [done|];
    destruct (call_deadline_read module s) as [a Ha]; rewrite (Ho n n) in Ha by done; subst o; destruct Hi as [Hd [Hh Hl]]; by split_and!.
  - intros l d b restore set_ s2 _ Hr. lia.
  - intros l d b restore set_ s2 Hs2 Hr Hd Hres. apply (T_enter _ left_ IH Hep); [done|lia|done..].
Qed.
End Bounded.

(** ** Deadlines that bound all those of an engine *)
Lemma list_bound {A} (P : Z → A → Prop) l : (∀ D D' a, D ≤ D' → P D a → P D' a) → (∀ a, ∃ D, P D a) → ∃ D, Forall (P D) l.
Proof.
  intros Hmono Hex. induction l as [|a l [D HD]]; [by exists 0|]. destruct (Hex a) as [D' HD']. exists (Z.max D D'). constructor.
  - eapply Hmono; [|done]. lia.
  - eapply Forall_impl; [done|]. intros b. apply Hmono. lia.
Qed.
Lemma held_exists d s : (∀ id l c, e_modules (engine s) !! id = Some l → l_module l = ComponentM c → is_Some (l_signatures l)) →
  ∃ D, d ≤ D ∧ held D (length (e_guest_calls (engine s))) s.
Proof.
  intros Hsg. destruct (list_bound (λ D c, gc_deadline c ≤ D) (e_guest_calls (engine s))) as [D1 H1]; [intros; lia|intros c; by exists (gc_deadline c)|].
  destruct (list_bound (λ D i, i_deadline i ≤ D) (fresh s)) as [D2 H2]; [intros; lia|intros i; by exists (i_deadline i)|].
  destruct (list_bound (λ D e, ∀ c, l_module (snd e) = ComponentM c → bounded D c) (map_to_list (e_modules (engine s)))) as [D3 H3].
  { intros D D' e HD He c Hc. destruct (He c Hc) as [Hb Hi]. split; [lia|]. intros i Hci. specialize (Hi i Hci). lia. }
  { intros [id l]. cbn. destruct (l_module l) as [c|]; [|by exists 0]. exists (Z.max (cm_deadline c) (match cm_instance c with Some i => i_deadline i | None => 0 end)).
    intros ? [= <-]. split; [lia|]. intros i ->. lia. }
  exists (Z.max d (Z.max D1 (Z.max D2 D3))). split; [lia|]. split; [done| | |].
  - eapply Forall_impl; [exact H1|]. cbn. intros. lia.
  - eapply Forall_impl; [exact H2|]. cbn. intros. lia.
  - intros id l c El Em. split; [|by eapply Hsg]. rewrite Forall_forall in H3. destruct (H3 (id, l) ltac:(by apply elem_of_map_to_list) c Em) as [Hb Hi].
    split; [lia|]. intros i Hci. specialize (Hi i Hci). lia.
Qed.

(** C18. Every call returns. Whatever the guests do - loop for ever, call each other
    or themselves without end, trap -, from an engine that keeps its books, at the
    deadlines the budgets set: as time passes and the epoch ticks, a call comes to
    one outcome, the same on any more fuel. It is a result, with the engine's books
    kept and its modules as they were, or a panic decoding what a guest wrote. *)
Theorem calls_return module function arg (s : St) : time_passes instants epoch → Inv s →
  ∃ enough o, (∀ fuel, (enough ≤ fuel)%nat → dispatch usize_max instants epoch fuel module function arg s = o) ∧
    ((∃ r s', o = Done (r, s') ∧ Inv s' ∧ kept_but None s s') ∨ o = Panics_ Decoding).
Proof.
  intros [Hclock Hep] HI. destruct (call_deadline_read module s) as [[d b] Hcd].
  destruct (held_exists d s) as (D & Hd & Hs); [intros; by eapply inv_signatures|]. destruct (Hclock D) as (N & HN).
  assert (T (λ x, x = s) (λ _, answered D N (length (e_guest_calls (engine s))) s) (λ F _, dispatch usize_max instants epoch F module function arg)) as Hm.
  { apply T_fueled, (T_dispatch_with D N HN).
    - apply T_const. intros ? ->. rewrite Hcd. split_and!; [done|by destruct Hs|split; cbn; lia|done].
    - intros l d' b' restore set_ s2 Hs2 Hr Hd' Hres. apply (T_enter D N HN _ N (T_dispatch D N HN Hep N) Hep); [done|lia|done..]. }
  destruct (Hm s eq_refl) as (n & o & Ho & Ha). exists n, o. split; [intros fuel Hf; by apply (Ho fuel fuel)|].
  pose proof (dispatch_fin usize_max instants epoch n module function arg s HI) as Hfin. rewrite (Ho n n) in Hfin by done.
  destruct o as [[r s']|why|]; [left|right|done]; [|by rewrite Hfin]. destruct Hfin as (? & ? & _). eauto 10.
Qed.
End Returning.
