(* ===== verification/Reloading.v ===== *)
(** * Loading modules between calls

    Between dispatches, the engine loads and reloads compiled modules. What an
    executor promises the engine is a class, which the component executor
    instantiates: a load leaves the engine as it found it and makes a module no
    call is in. The engine's theorem is proved against it. *)

From S2P Require Import Prelude Values Extern Writer Reader Froto Types WellFormed GuestArguments Schema Engine Dispatching.

Section Reloading.
Context `{BY : Bytes} `{UC : UuidCrate} (usize_max : Z) {Mem X : Type} (instants : nat → Z) (epoch : nat → bool).
Abbreviation St := (@St Mem X).
Abbreviation E := (@E Mem X).
Abbreviation Module_ := (@Module_ Mem X).
Abbreviation Loaded := (@Loaded Mem X).
Abbreviation Executor := (@Executor Mem X).
Abbreviation CompiledModule := (@CompiledModule Mem).
Abbreviation kept := (kept_but None).

(** A module no call is in: a component is ready, in its instance *)
Definition unentered (m : Module_) : Prop :=
  match m with ComponentM c => cm_state c = Ready ∧ is_Some (cm_instance c) ∧ cm_entered c = 0%nat | HostM _ => True end.
Definition made (r : result LoadModuleError Module_) (_ : St) : Prop := match r with Ok m => unentered m | Err _ => True end.
Class KeepsEngine (x : Executor) : Prop :=
  keeps_engine m limits s : Inv s → only_load (e_guest_calls (engine s)) → fin None made s (x_load_compiled_module x m limits s).

(** ** The component executor *)
Lemma instantiate_fin fuel name header c s : Inv s → only_load (e_guest_calls (engine s)) →
  fin None made s (instantiate usize_max instants epoch fuel name header c s).
Proof.
  intros HI Ho. unfold instantiate. rewrite (bind_done _ _ _ _ _ (now_done _ s)). apply (fin_from _ _ _ (counted (S (reads s)) (ticks_read s) s)); [apply kept_counted, kept_refl|].
  eapply fin_bind; [apply instance_fin; [by intros; apply dispatch_fin|by apply inv_counted|by left]|].
  intros [i|f] s1 HI1 K1 _; apply fin_ret; try done.
Qed.
#[export] Instance component_executor_keeps compile fuel name : KeepsEngine (component_executor usize_max instants epoch compile fuel name).
Proof.
  intros m limits s HI Ho. cbn. destruct (cp_code m) as [c|bytes]; [by apply instantiate_fin|].
  destruct (compile bytes); [by apply instantiate_fin|]. apply fin_ret; [done|apply kept_refl|done].
Qed.

(** ** The engine *)
Lemma within_load_fin x `{KeepsEngine x} id m limits s : Inv s → e_guest_calls (engine s) = [] →
  fin None made s (within_load instants id (x_load_compiled_module x m limits) s).
Proof.
  intros HI Hc. unfold within_load. destruct (begin_load_done instants id s) as (g & s1 & Hb & -> & Hl & _). rewrite (bind_done _ _ _ _ _ Hb).
  set (s1 := counted _ _ s). assert (Inv (pushed g s1)) as HI1 by (apply inv_push_load; [by apply inv_counted|done|by cbn; rewrite Hc]).
  assert (only_load (e_guest_calls (engine (pushed g s1)))) as Ho by (cbn; rewrite Hc; by exists g).
  pose proof (keeps_engine m limits _ HI1 Ho) as Hf. unfold mbind, E_bind. destruct (x_load_compiled_module x m limits _) as [[r s2]| |]; [|done..].
  destruct Hf as (HI2 & K2 & Hr). cbn. split_and!; [|by apply (kept_counted _ (S (reads s)) (ticks_read s)) in K2 as K3; exact (kept_trans _ _ _ _ (kept_counted _ _ _ _ _ (kept_refl _ s)) (kept_pop _ _ _ _ K2))|done].
  eapply inv_pop_load; [done|by apply (pop_calls None g s1 s2)|done].
Qed.
Lemma inv_insert id l s : Inv s → e_guest_calls (engine s) = [] → unentered (l_module l) → is_Some (l_signatures l) →
  Inv (with_engine (λ e, with_modules (<[id := l]> (e_modules e)) e) s).
Proof.
  intros [I1 I2 I3 I4 I5] Hc Hu Hs. split; try done; cbn.
  - intros j c (l' & El & Em)%component_of_lookup. cbn in El. destruct (decide (j = id)) as [->|Hj].
    + rewrite lookup_insert_eq in El. injection El as <-. rewrite Em in Hu. destruct Hu as (? & ? & ?). split; [done|]. by rewrite Hc.
    + rewrite lookup_insert_ne in El by done. apply I3. apply component_of_lookup. eauto.
  - intros j l' c. destruct (decide (j = id)) as [->|Hj]; [rewrite lookup_insert_eq; by intros [= <-]|rewrite lookup_insert_ne by done; apply I4].
Qed.
Context (executors : gmap string Executor).
Hypothesis keep : ∀ name x, executors !! name = Some x → KeepsEngine x.
Definition loaded (m : CompiledModule) (module : Module_) : Loaded :=
  mkLoaded (Some (h_executor (cp_header m))) module (Some (signatures_of (cp_header m))).
(** A load begun, made by an executor and ended: what it answers, and the state it leaves *)
Definition made_by (x : Executor) (m : CompiledModule) (s : St) (r : result LoadModuleError Module_) (s' : St) : Prop :=
  ∃ deadline s0 s1, begin_load instants (h_id (cp_header m)) s = Done (deadline, s0) ∧
    x_load_compiled_module x m (guest_limits (engine s) (h_id (cp_header m))) s0 = Done (r, s1) ∧ end_load s1 = Done (tt, s').
Lemma within_load_made x m s r s' :
  within_load instants (h_id (cp_header m)) (x_load_compiled_module x m (guest_limits (engine s) (h_id (cp_header m)))) s = Done (r, s') → made_by x m s r s'.
Proof.
  unfold within_load, mbind, E_bind. destruct (begin_load _ _ s) as [[d s0]| |] eqn:Eb; [|done..].
  destruct (x_load_compiled_module _ _ _ s0) as [[r1 s1]| |] eqn:Ex; [|done..]. destruct (end_load s1) as [[[] s2]| |] eqn:Ee; [|done..].
  intros [= <- <-]. by exists d, s0, s1.
Qed.
(** The instance [x] made is the module under its id, unentered, over the state its load left, where every other module is the one it was *)
Definition put_in (m : CompiledModule) (s s' : St) : Prop :=
  ∃ x new s1, executors !! h_executor (cp_header m) = Some x ∧ made_by x m s (Ok new) s1 ∧ unentered new ∧ kept s s1 ∧
    s' = with_engine (λ e, with_modules (<[h_id (cp_header m) := loaded m new]> (e_modules e)) e) s1.
(** No executor of the name, and nothing run, or one whose load fails, in the state that load left *)
Definition load_refused (m : CompiledModule) (e : LoadModuleError) (s s' : St) : Prop :=
  (executors !! h_executor (cp_header m) = None ∧ e = ExecutorNotFound ∧ s' = s) ∨
  (∃ x, executors !! h_executor (cp_header m) = Some x ∧ made_by x m s (Err e) s').
Lemma load_put_in m s : Inv s → e_guest_calls (engine s) = [] →
  ∀ x, executors !! h_executor (cp_header m) = Some x →
  match within_load instants (h_id (cp_header m)) (x_load_compiled_module x m (guest_limits (engine s) (h_id (cp_header m)))) s with
  | Done (Ok new, s1) => Inv (with_engine (λ e, with_modules (<[h_id (cp_header m) := loaded m new]> (e_modules e)) e) s1) ∧
      put_in m s (with_engine (λ e, with_modules (<[h_id (cp_header m) := loaded m new]> (e_modules e)) e) s1)
  | Done (Err e, s1) => Inv s1 ∧ kept s s1 ∧ load_refused m e s s1
  | Panics_ why => why = Decoding
  | OutOfFuel_ => True
  end.
Proof.
  intros HI Hc x Ex. pose proof (within_load_fin x (H := keep _ _ Ex) (h_id (cp_header m)) m (guest_limits (engine s) (h_id (cp_header m))) s HI Hc) as Hf.
  pose proof (within_load_made x m s) as Hm. destruct (within_load _ _ _ _) as [[[new|e] s1]| |]; [| |done..]; destruct Hf as (HI1 & K1 & Hr); specialize (Hm _ _ eq_refl).
  - split; [apply inv_insert; [done|by rewrite (kept_calls _ _ _ K1)|done|by eexists]|]. by exists x, new, s1.
  - split; [done|]. split; [done|]. right. by exists x.
Qed.
(** The executor that loaded a module, where it cannot unload it *)
Definition not_unloaded_by (l : Loaded) (name : string) : Prop :=
  l_executor l = Some name ∧ ∃ x, executors !! name = Some x ∧ x_can_unload x = false.
Lemma refusing_unload_spec l : match refusing_unload executors l with Some name => not_unloaded_by l name | None => ∀ name, ¬ not_unloaded_by l name end.
Proof.
  unfold refusing_unload, not_unloaded_by. destruct (l_executor l) as [name|]; cbn; [|by intros ? [? _]].
  destruct (executors !! name) as [x|] eqn:Ex; [|intros ? [[= <-] (? & ? & _)]; congruence].
  destruct (x_can_unload x) eqn:Eu; [intros ? [[= <-] (? & ? & ?)]; congruence|]. split; [done|]. by exists x.
Qed.

(** C19. Reloading is a replacement or nothing, and loading is an addition or
    nothing. Between dispatches, from an engine that keeps its books, with
    executors that keep the engine: a module reloaded is, under its id, the very
    instance its header's executor made of it in a load that began and ended,
    ready, with no call in it and its arguments checked against its own header,
    over the state that load left, where every other module is the one it was; it
    replaces a module that was loaded, by no executor that cannot unload. Refused,
    it leaves the engine untouched - no module under the id, an executor that
    cannot unload it, none of the header's name - or as a load that failed left
    it, every module, the old one too, being the one it was. A load does the same
    for an id that is not loaded, and nothing to one that is. Either way no load is
    left open, and the books are kept. A module being the one it was is of its
    identity, its code and the calls in it: the calls the new instance's own
    initializer makes may move its memory. *)
Theorem reload_replaces_or_keeps m s : Inv s → e_guest_calls (engine s) = [] →
  match reload_module instants executors m s with
  | Done (Ok _, s') => Inv s' ∧ put_in m s s' ∧ ∃ old, e_modules (engine s) !! h_id (cp_header m) = Some old ∧ ∀ name, ¬ not_unloaded_by old name
  | Done (Err RModuleNotFound, s') => s' = s ∧ e_modules (engine s) !! h_id (cp_header m) = None
  | Done (Err (RUnsupported name), s') => s' = s ∧ ∃ old, e_modules (engine s) !! h_id (cp_header m) = Some old ∧ not_unloaded_by old name
  | Done (Err (RLoad e), s') => Inv s' ∧ kept s s' ∧ load_refused m e s s'
  | Panics_ why => why = Decoding
  | OutOfFuel_ => True
  end ∧
  match load_compiled_module instants executors m s with
  | Done (Ok _, s') => Inv s' ∧ if decide (is_Some (e_modules (engine s) !! h_id (cp_header m))) then s' = s else put_in m s s'
  | Done (Err e, s') => Inv s' ∧ kept s s' ∧ load_refused m e s s' ∧ e_modules (engine s) !! h_id (cp_header m) = None
  | Panics_ why => why = Decoding
  | OutOfFuel_ => True
  end.
Proof.
  intros HI Hc. pose proof (load_put_in m s HI Hc) as Hload. split.
  - unfold reload_module. rewrite (bind_done get _ s s s) by done. cbv zeta. destruct (e_modules (engine s) !! _) as [old|] eqn:El; [|done].
    pose proof (refusing_unload_spec old) as Hu. destruct (refusing_unload executors old) as [name|]; [split; [done|by exists old]|].
    destruct (executors !! _) as [x|] eqn:Ex; [|split; [done|]; split; [apply kept_refl|by left]].
    specialize (Hload x eq_refl). unfold mbind, E_bind. destruct (within_load _ _ _ _) as [[[new|e] s1]| |]; [|done..].
    cbn. split; [apply Hload|]. split; [apply Hload|by exists old].
  - unfold load_compiled_module. rewrite (bind_done get _ s s s) by done. cbv zeta. unfold contains_module.
    destruct (decide (is_Some (e_modules (engine s) !! _))) as [Hl|Hl].
    { rewrite bool_decide_eq_true_2 by done. by split. }
    rewrite bool_decide_eq_false_2 by done. apply eq_None_not_Some in Hl. destruct (executors !! _) as [x|] eqn:Ex; [|split; [done|]; split; [apply kept_refl|split; [by left|done]]].
    specialize (Hload x eq_refl). unfold try_, mbind, E_bind. destruct (within_load _ _ _ _) as [[[new|e] s1]| |]; [| |done..]; [cbn; done|naive_solver].
Qed.
End Reloading.
