(* ===== verification/Answering.v ===== *)
(** * The host's functions, called through buffers

    A host module is called as a guest is: its arguments are written to a buffer
    and read back, and so is what it answers. *)

From S2P Require Import Prelude Values Extern Writer Reader Froto Types WellFormed RoundTrip GuestArguments Schema Engine Dispatching.

Section Answering.
Context `{BL : BytesLaws} `{UL : UuidLaws} (usize_max : Z) {Mem X : Type} (instants : nat → Z) (epoch : nat → bool).
Abbreviation St := (@St Mem X).
Abbreviation E := (@E Mem X).
Abbreviation HostModule := (@HostModule X).

(** ** The module a host declares *)
Lemma from_exports_builder exports (b : ModuleBuilder (X := X)) :
  let b' := foldl (λ b f, described_function (af_id f) (af_name f) (af_signature f) (invoke f) b) b exports in
  mb_id b' = mb_id b ∧
  mb_descriptions b' = mb_descriptions b ++ ((λ f, mkDescription (af_id f) (af_name f) (af_signature f)) <$> exports) ∧
  ∀ id, mb_functions b' !! id = match last (filter (λ f : AroraFunction, af_id f = id) exports) with Some f => Some (invoke f) | None => mb_functions b !! id end.
Proof.
  revert b. induction exports as [|f exports IH]; intros b; [by rewrite app_nil_r|]. cbn [foldl]. destruct (IH (described_function (af_id f) (af_name f) (af_signature f) (invoke f) b)) as (H1 & H2' & H3).
  split_and!; [done|by rewrite H2'; cbn; rewrite <- app_assoc|]. intros id. rewrite H3, filter_cons. cbn.
  destruct (decide (af_id f = id)) as [<-|Hne].
  - rewrite last_cons. destruct (last _); [done|]. by rewrite lookup_insert_eq.
  - destruct (last _); [done|]. by rewrite lookup_insert_ne.
Qed.

(** ** Calls *)
Definition answered (call : Call) (r : result CallFailure CallResult) : result CallFailure CallResult :=
  match r with
  | Ok r => Ok (mkCallResult (canon (ret r)) (canon_field <$> mutated r))
  | Err (CGuest message) => Err (CGuest message)
  | Err other => Err (CGuest (OfCallError other))
  end.
Definition wf_call (call : Call) : bool := wf_value (Value.Structure (mkStructure (call_id call) (call_args call))).
Definition wf_answer (call : Call) (r : result CallFailure CallResult) : bool :=
  match r with
  | Ok r => wf_value (Value.Structure (mkStructure (call_id call) (mkStructureField (call_id call) (ret r) :: mutated r)))
  | Err _ => true
  end.

Lemma bind_eq {A B} (m m' : E A) (f : A → E B) s s' : m s = m' s' → (m ≫= f) s = (m' ≫= f) s'.
Proof. intros Hm. unfold mbind, E_bind. by rewrite Hm. Qed.

(** C20. A call to a host's function answers what the function does: over the
    buffers both ways, a module declared by its exports answers the call of one
    with what the last export of that id answers the call - its arguments, without
    the module they were for, as they read back - the return value first and then
    what it mutated, or its error as a guest's; what the functions share is as it
    left it, and nothing else of the engine changes. An id it does not export is
    answered as not found. *)
Theorem host_calls_answer fuel module exports call (s : St) : call_module_id call = Some module →
  e_modules (engine s) !! module = Some (mkLoaded None (HostM (from_exports module exports)) None) →
  wf_call call = true →
  let s1 := mkSt (engine s) (fresh s) (shared s) (S (reads s)) (ticks_read s) (checks s) in
  match last (filter (λ f : AroraFunction, af_id f = call_id call) exports) with
  | Some f =>
      let '(r, x) := invoke f (mkCall None (call_id call) (canon_field <$> call_args call)) (shared s) in
      wf_answer call r = true →
      arora_call usize_max instants epoch (S fuel) call s = Done (answered call r, with_shared x s1)
  | None => arora_call usize_max instants epoch (S fuel) call s = Done (Err (CFunctionNotFound (call_id call)), s1)
  end.
Proof.
  intros Hm El Hwf s1. destruct (from_exports_builder exports (new_builder module)) as (_ & _ & Hf). specialize (Hf (call_id call)).
  change (mb_functions (foldl _ (new_builder module) exports)) with (hm_functions (from_exports module exports)) in Hf.
  change (mb_functions (new_builder module) !! call_id call) with (None (A := ModuleFn (X := X))) in Hf.
  unfold arora_call. rewrite Hm.
  assert (dispatch usize_max instants epoch (S fuel) module (call_id call) (serialize_to_arg call) s
    = host_dispatch (from_exports module exports) (call_id call) (serialize_to_arg call) s1) as Hd.
  { cbn [dispatch]. unfold dispatch_with. destruct (call_deadline_done instants module s) as (d & b & Hd & _). rewrite (bind_done _ _ _ _ _ Hd).
    rewrite (bind_done get _ s1 s1 s1) by done. assert (e_modules (engine s1) !! module = e_modules (engine s) !! module) as -> by done. by rewrite El. }
  rewrite (bind_eq _ _ _ _ _ Hd). unfold host_dispatch, ModuleFn in *. rewrite Hf.
  destruct (last _) as [f|]; [|done].
  assert (decode_arg (call_id call) (serialize_to_arg call) s1 = Done (Ok (mkCall None (call_id call) (canon_field <$> call_args call)), s1)) as Ha.
  { unfold decode_arg, serialize_to_arg, decode, mbind, E_bind. rewrite deserialize_serialize_gen by done. cbn. by rewrite decide_True. }
  destruct (invoke f _ _) as [r x] eqn:Ef. intros Hr.
  assert (host_answer (invoke f) (call_id call) (serialize_to_arg call) s1 = Done (match r with
    | Ok r => Ok (encode_call_result (call_id call) r) | Err (CGuest m) => Err (DGuest m) | Err other => Err (DGuest (OfCallError other)) end, with_shared x s1)) as Hh.
  { unfold host_answer. rewrite (bind_done _ _ _ _ _ Ha), (bind_done get _ s1 s1 s1) by done. change (shared s1) with (shared s). by rewrite Ef. }
  rewrite (bind_done _ _ _ _ _ Hh). destruct r as [r|e]; [|by destruct e].
  unfold decode, encode_call_result. unfold wf_answer in Hr. rewrite deserialize_serialize_gen by done. rewrite (bind_done _ _ _ _ _ eq_refl). cbn. by rewrite !decide_True.
Qed.
End Answering.
