(* ===== verification/EngineExamples.v ===== *)
(** * An engine with two guests and a host module

    A relay that passes its calls on to a counter, which counts them in its
    memory, and a host module that counts what it is called in what the host
    shares; the clock advances a microsecond a reading. *)

From S2P Require Import Prelude Values Extern Writer Reader Froto Types WellFormed RoundTrip GuestArguments Schema Engine Dispatching Returning Reloading Answering.

Definition usize_max : Z := 2 ^ 64 - 1.
Definition clock (n : nat) : Z := 1000 * Z.of_nat n.
Definition ticks (n : nat) : bool := true.
Definition FUNCTION : Uuid := 0x70.
Definition answer (function : Uuid) (n : nat) : list byte := encode_call_result function (mkCallResult (Value.U32 (Z.of_nat n)) []).
Definition counting : Component (Mem := nat) :=
  mkComponent 0%nat (λ _, TrapNow "unreachable") (Return (Ok [])) (Return (Ok [])) (λ _, [FUNCTION]) (λ f _, Step (λ m, (S m, Return (Ok (answer f (S m)))))).
Definition relaying : Component (Mem := nat) :=
  mkComponent 0%nat (λ _, TrapNow "unreachable") (Return (Ok [])) (Return (Ok [])) (λ _, [FUNCTION])
    (λ f arg, Step (λ m, (S m, HostDispatch 0x22 f arg (λ r, match r with Ok bytes => Return (Ok bytes) | Err _ => TrapNow "the counter failed" end)))).
Definition header (id : Uuid) : Header := mkHeader id "wasm-component" [mkExport FUNCTION "count" [] (TypeRef.Scalar U32_ID)].
Definition ready (id : Uuid) (c : Component) : Loaded (Mem := nat) (X := nat) :=
  mkLoaded (Some "wasm-component"%string)
    (ComponentM (mkCM id "guest" DEFAULT_CALL_BUDGET c 0 (Some (mkInstance (initial c) 0)) [FUNCTION] Ready 0)) (Some (signatures_of (header id))).
Definition tally : AroraFunction (X := nat) :=
  mkAroraFunction 0x90 "tally" (mkFunction ∅ [] (Primitive U32_ID)) (λ _ x, (Ok (mkCallResult (Value.U32 (Z.of_nat x)) []), S x)).
Definition engine_of (modules : gmap Uuid (Loaded (Mem := nat) (X := nat))) : Engine_ := mkEngine modules default_limits ∅ None [].
Definition host_of (modules : gmap Uuid (Loaded (Mem := nat) (X := nat))) : St := mkSt (engine_of modules) [] 5%nat 0 0 [].
Definition device : St :=
  host_of (<[0x11 := ready 0x11 relaying]> (<[0x22 := ready 0x22 counting]> {[0x33 := mkLoaded None (HostM (from_exports 0x33 [tally])) None]})).
Definition count (module : Uuid) : Call := mkCall (Some module) FUNCTION [].
Definition call_twice (module : Uuid) : E (Mem := nat) (X := nat) (result CallFailure CallResult) :=
  _ ← arora_call usize_max clock ticks 3 (count module); arora_call usize_max clock ticks 3 (count module).
Definition outcome {A} (r : Outcome (A * St (Mem := nat) (X := nat))) : option (A * St) := match r with Done r => Some r | _ => None end.

Example relayed_twice : fst <$> outcome (call_twice 0x11 device) = Some (Ok (mkCallResult (Value.U32 2) [])).
Proof. vm_compute. reflexivity. Qed.
(** The guest of the call within is checked by its caller's deadline. *)
Example checked_by_the_caller : ((λ r, (λ ck, (ck_deadline ck, length (ck_calls ck))) <$> checks r.2) <$> outcome (arora_call usize_max clock ticks 3 (count 0x11) device))
  = Some [(1000000000, 2%nat); (1000000000, 1%nat)].
Proof. vm_compute. reflexivity. Qed.
(** A trap in the guest called traps its caller; each is instantiated afresh before its next call. *)
Definition failing : Component (Mem := nat) :=
  mkComponent 0%nat (λ _, TrapNow "unreachable") (Return (Ok [])) (Return (Ok [])) (λ _, [FUNCTION]) (λ f _, Step (λ m, (S m, TrapNow "unreachable"))).
Definition failing_device : St := host_of (<[0x11 := ready 0x11 relaying]> {[0x22 := ready 0x22 failing]}).
Example trapped_twice : fst <$> outcome (call_twice 0x11 failing_device) = Some (Err (CTrap (DispatchTrapped "the counter failed"))).
Proof. vm_compute. reflexivity. Qed.

(** ** The device keeps its books *)
Lemma ready_ok id c : component_ok (Mem := nat) [] id (mkCM id "guest" DEFAULT_CALL_BUDGET c 0 (Some (mkInstance (initial c) 0)) [FUNCTION] Ready 0).
Proof. split; [by eexists|done]. Qed.
Lemma device_modules id l : e_modules (engine device) !! id = Some l →
  id = 0x11 ∧ l = ready 0x11 relaying ∨ id = 0x22 ∧ l = ready 0x22 counting ∨ id = 0x33 ∧ l = mkLoaded None (HostM (from_exports 0x33 [tally])) None.
Proof.
  unfold device, host_of, engine_of. cbn [engine e_modules].
  rewrite !lookup_insert_Some, lookup_singleton_Some. naive_solver.
Qed.
Lemma device_inv : Inv device.
Proof.
  split; [done|constructor| | |constructor].
  - intros id c (l & El%device_modules & Em)%component_of_lookup. destruct El as [[-> ->]|[[-> ->]|[-> ->]]]; [| |done]; injection Em as <-; apply ready_ok.
  - intros id l c El%device_modules Em. destruct El as [[-> ->]|[[-> ->]|[-> ->]]]; [by eexists..|done].
Qed.
Definition arg : list byte := serialize_to_arg (count 0x11).
Lemma calls_nest_witness : Inv device ∧
  match dispatch usize_max clock ticks 3 0x11 FUNCTION arg device with
  | Done (_, s') => Inv s' ∧ kept_but None device s'
  | Panics_ why => why = Decoding
  | OutOfFuel_ => True
  end.
Proof. split; [exact device_inv|exact (calls_nest usize_max clock ticks 3 0x11 FUNCTION arg device device_inv)]. Defined.
Lemma time_runs : time_passes clock ticks.
Proof.
  split; [|intros n; by exists n]. intros t. exists (Z.to_nat t). intros m Hm. unfold clock. lia.
Qed.
Lemma calls_return_witness : time_passes clock ticks ∧ Inv device ∧
  ∃ enough o, (∀ fuel, (enough ≤ fuel)%nat → dispatch usize_max clock ticks fuel 0x11 FUNCTION arg device = o) ∧
    ((∃ r s', o = Done (r, s') ∧ Inv s' ∧ kept_but None device s') ∨ o = Panics_ Decoding).
Proof. split; [exact time_runs|]. split; [exact device_inv|]. exact (calls_return usize_max clock ticks 0x11 FUNCTION arg device time_runs device_inv). Defined.
(** A guest that loops for ever, and one that calls itself for ever: each ends once its budget of ten readings is spent. *)
Definition hasty (c : Component (Mem := nat)) : St :=
  mkSt (mkEngine {[0x22 := ready 0x22 c]} (mkLimits DEFAULT_MEMORY (Some 10000)) ∅ None []) [] 5%nat 0 0 [].
Definition spinning : Component (Mem := nat) :=
  mkComponent 0%nat (λ _, Again 0) (Return (Ok [])) (Return (Ok [])) (λ _, [FUNCTION]) (λ _ _, Again 0).
Example spinning_ends : fst <$> outcome (dispatch usize_max clock ticks 30 0x22 FUNCTION (serialize_to_arg (count 0x22)) (hasty spinning))
  = Some (Err (DTrap (Overran "guest" FUNCTION 10000))).
Proof. vm_compute. reflexivity. Qed.
Definition recursing : Component (Mem := nat) :=
  mkComponent 0%nat (λ _, TrapNow "unreachable") (Return (Ok [])) (Return (Ok [])) (λ _, [FUNCTION])
    (λ f arg, HostDispatch 0x22 f arg (λ r, match r with Ok bytes => Return (Ok bytes) | Err _ => TrapNow "the call within failed" end)).
Example recursing_ends : fst <$> outcome (dispatch usize_max clock ticks 30 0x22 FUNCTION (serialize_to_arg (count 0x22)) (hasty recursing))
  = Some (Err (DTrap (DispatchTrapped "the call within failed"))).
Proof. vm_compute. reflexivity. Qed.
Definition executor : Executor (Mem := nat) (X := nat) := component_executor usize_max clock ticks (λ _, Err MalformedExecutable) 3 (λ _, "guest"%string).
Definition executors : gmap string (Executor (Mem := nat) (X := nat)) := {["wasm-component"%string := executor]}.
Lemma executors_keep name x : executors !! name = Some x → KeepsEngine x.
Proof. unfold executors. rewrite lookup_singleton_Some. intros [_ <-]. apply component_executor_keeps. Qed.
Definition recounted : CompiledModule (Mem := nat) := mkCompiled (header 0x22) (CodeComponent failing).
Lemma reload_witness : Inv device ∧ e_guest_calls (engine device) = [] ∧
  match reload_module clock executors recounted device with
  | Done (Ok _, s') => Inv s' ∧ put_in clock executors recounted device s' ∧
      ∃ old, e_modules (engine device) !! h_id (cp_header recounted) = Some old ∧ ∀ name, ¬ not_unloaded_by executors old name
  | Done (Err RModuleNotFound, s') => s' = device ∧ e_modules (engine device) !! h_id (cp_header recounted) = None
  | Done (Err (RUnsupported name), s') => s' = device ∧ ∃ old, e_modules (engine device) !! h_id (cp_header recounted) = Some old ∧ not_unloaded_by executors old name
  | Done (Err (RLoad e), s') => Inv s' ∧ kept_but None device s' ∧ load_refused clock executors recounted e device s'
  | Panics_ why => why = Decoding
  | OutOfFuel_ => True
  end.
Proof.
  split; [exact device_inv|]. split; [reflexivity|].
  exact (proj1 (reload_replaces_or_keeps clock executors executors_keep recounted device device_inv eq_refl)).
Defined.
Example reloaded : fst <$> outcome ((_ ← reload_module clock executors recounted; call_twice 0x11) device) = Some (Err (CTrap (DispatchTrapped "the counter failed"))).
Proof. vm_compute. reflexivity. Qed.
Definition told_of : Call := mkCall (Some 0x33) 0x90 [mkStructureField 0x91 (Value.String "hi")].
Lemma host_calls_answer_witness : arora_call usize_max clock ticks 1 told_of device
  = Done (Ok (mkCallResult (Value.U32 5) []), mkSt (engine device) [] 6%nat 1 0 []).
Proof.
  exact (host_calls_answer usize_max clock ticks 0 0x33 [tally] told_of device eq_refl eq_refl eq_refl eq_refl).
Defined.

(** ** What a guest can make the host panic on *)
(** A guest that answers a structure of no fields, as no generated guest does *)
Definition bare : Component (Mem := nat) :=
  mkComponent 0%nat (λ _, TrapNow "unreachable") (Return (Ok [])) (Return (Ok [])) (λ _, [FUNCTION]) (λ f _, Return (Ok (serialize (Value.Structure (mkStructure f []))))).
Example bare_answer_panics :
  arora_call usize_max clock ticks 2 (count 0x22) (host_of {[0x22 := ready 0x22 bare]}) = Panics_ NoReturnValue.
Proof. vm_compute. reflexivity. Qed.
(** A guest that calls a host's function with bytes that are no buffer *)
Definition garbling : Component (Mem := nat) :=
  mkComponent 0%nat (λ _, TrapNow "unreachable") (Return (Ok [])) (Return (Ok [])) (λ _, [FUNCTION]) (λ _ _, HostDispatch 0x33 0x90 [] (λ _, Return (Ok []))).
Example garbled_call_panics :
  arora_call usize_max clock ticks 3 (count 0x11) (host_of (<[0x11 := ready 0x11 garbling]> {[0x33 := mkLoaded None (HostM (from_exports 0x33 [tally])) None]})) = Panics_ Decoding.
Proof. vm_compute. reflexivity. Qed.
