(* ===== verification/Messages.v ===== *)
(** * ROS 2 message definitions: [arora-msgs-ros2/src/schema.rs], [registry.rs]

    The [.msg] and [.action] parser, over text as its chars, and the registry of
    message types, by id and by name. A message of a refusal is the constructor
    that carries what it names. The literals of the source are [lit]s; a [usize] a
    definition holds is at most [usize_max]. *)

From Stdlib Require Import Ascii.
From S2P Require Import Prelude Regexes Tokens Parser Values Extern Nodes Reports Types.

(** ** [Primitive] *)
Inductive Primitive := PBool | PI8 | PI16 | PI32 | PI64 | PU8 | PU16 | PU32 | PU64 | PF32 | PF64 | PString.
#[export] Instance Primitive_eq_dec : EqDecision Primitive.
Proof. solve_decision. Defined.
Definition tokens_of : list (string * Primitive) :=
  [("bool", PBool); ("int8", PI8); ("int16", PI16); ("int32", PI32); ("int64", PI64);
   ("uint8", PU8); ("char", PU8); ("byte", PU8); ("uint16", PU16); ("uint32", PU32); ("uint64", PU64);
   ("float32", PF32); ("float64", PF64)]%string.
Fixpoint find_token (token : Str) (l : list (string * Primitive)) : option Primitive :=
  match l with
  | [] => None
  | (s, p) :: l => if decide (token = lit s) then Some p else find_token token l
  end.
Definition from_token (token : Str) : option Primitive :=
  if starts_with (lit "string") token || starts_with (lit "wstring") token then Some PString else find_token token tokens_of.

Inductive Base := Primitive_ (p : Primitive) | Named (package name : Str).
Inductive Arr := Unit | Unbounded | Fixed (n : nat).
Record RosType := mkRosType { base : Base; arr : Arr }.
Record Field := mkField { f_name : Str; f_ty : RosType }.
Record Constant := mkConstant { c_ty : Primitive; c_name : Str; c_value : Str }.
Record MessageSpec := mkSpec { ms_package : Str; ms_name : Str; namespace : Str; ms_fields : list Field; constants : list Constant }.
Definition rep2016_name (m : MessageSpec) : Str := ms_package m ++ lit "/" ++ namespace m ++ lit "/" ++ ms_name m.

(** ** Operations of [str] *)
Fixpoint split_once (p : char → bool) (s : Str) : option (Str * Str) :=
  match s with
  | [] => None
  | c :: s => if p c then Some ([], s) else '(a, b) ← split_once p s; Some (c :: a, b)
  end.
(** A line ended by a line feed, without the carriage return before it *)
Definition strip_return (line : Str) : Str := match rev line with c :: l => if c =? 13 then rev l else line | [] => [] end.
Fixpoint lines_from (s line : Str) : list Str :=
  match s with
  | [] => match line with [] => [] | _ => [rev line] end
  | c :: s => if c =? 10 then strip_return (rev line) :: lines_from s [] else lines_from s (c :: line)
  end.
Definition lines (text : Str) : list Str := lines_from text [].
Fixpoint words_from (s word : Str) : list Str :=
  match s with
  | [] => match word with [] => [] | _ => [rev word] end
  | c :: s =>
      if is_whitespace c then match word with [] => words_from s [] | _ => rev word :: words_from s [] end
      else words_from s (c :: word)
  end.
Definition split_whitespace (s : Str) : list Str := words_from s [].
Fixpoint trim_start_matches (p : char → bool) (s : Str) : Str :=
  match s with c :: s' => if p c then trim_start_matches p s' else s | [] => [] end.
Definition trim_end_matches (p : char → bool) (s : Str) : Str := rev (trim_start_matches p (rev s)).
Definition numeral (s : Str) : nat := foldl (λ n c, n * 10 + Z.to_nat (c - 48))%nat 0%nat s.

Section Parse.
Context (usize_max : Z).
(** [str::parse::<usize>] *)
Definition parse_usize (s : Str) : option nat :=
  let digits := match s with c :: (_ :: _) as r => if is_char "+"%char c then tail s else s | _ => s end in
  if negb (bool_decide (digits = [])) && forallb is_digit digits && (Z.of_nat (numeral digits) <=? usize_max) then Some (numeral digits) else None.
(** [parse_type] *)
Definition parse_type (token package : Str) : RosType :=
  let '(base_tok, arr) :=
    match split_once (is_char "["%char) token with
    | Some (base, rest) =>
        let inside := trim_end_matches (is_char "]"%char) rest in
        (base, if bool_decide (inside = []) || starts_with (lit "<=") inside then Unbounded
               else match parse_usize inside with Some n => Fixed n | None => Unbounded end)
    | None => (token, Unit)
    end in
  let base :=
    match from_token base_tok with
    | Some primitive => Primitive_ primitive
    | None =>
        if decide (base_tok = lit "Header") then Named (lit "std_msgs") (lit "Header")
        else match split_once (is_char "/"%char) base_tok with
        | Some (pkg, ty) => Named pkg ty
        | None => Named package base_tok
        end
    end in
  mkRosType base arr.

Inductive Wrong := ConstantWithoutType | ConstantWithoutName | NotPrimitive (token : Str) | FieldWithoutType | FieldWithoutName.
Inductive MsgError := At (package name : Str) (line : nat) (wrong : Wrong) | SectionsAre (package name : Str) (sections : nat).
(** A line without its comment *)
Definition code_of (raw : Str) : Str := trim (match split_once (is_char "#"%char) raw with Some (code, _) => code | None => raw end).
Definition unquoted (value : Str) : Str :=
  let within := λ q, (2 <=? length value)%nat && bool_decide (hd_error value = Some q) && bool_decide (last value = Some q) in
  if within 34 || within 39 then removelast (tail value) else value.
(** What a line says: nothing, a constant or a field *)
Inductive Item := Nothing | AConstant (c : Constant) | AField (f : Field).
Definition parse_line (package raw : Str) : result Wrong Item :=
  let line := code_of raw in
  if decide (line = []) then Ok Nothing
  else match split_once (is_char "="%char) line with
  | Some (decl, value) =>
      match split_whitespace decl with
      | [] => Err ConstantWithoutType
      | [_] => Err ConstantWithoutName
      | type_tok :: const_name :: _ =>
          match from_token type_tok with
          | None => Err (NotPrimitive type_tok)
          | Some ty => Ok (AConstant (mkConstant ty const_name (unquoted (trim value))))
          end
      end
  | None =>
      match split_whitespace line with
      | [] => Err FieldWithoutType
      | [_] => Err FieldWithoutName
      | type_tok :: field_name :: _ => Ok (AField (mkField field_name (parse_type type_tok package)))
      end
  end.
Fixpoint parse_lines (package name : Str) (line_no : nat) (l : list Str) (fields : list Field) (constants : list Constant) : result MsgError MessageSpec :=
  match l with
  | [] => Ok (mkSpec package name (lit "msg") fields constants)
  | raw :: l =>
      match parse_line package raw with
      | Err wrong => Err (At package name (S line_no) wrong)
      | Ok Nothing => parse_lines package name (S line_no) l fields constants
      | Ok (AConstant c) => parse_lines package name (S line_no) l fields (constants ++ [c])
      | Ok (AField f) => parse_lines package name (S line_no) l (fields ++ [f]) constants
      end
  end.
(** [parse_msg] *)
Definition parse_msg (package name text : Str) : result MsgError MessageSpec := parse_lines package name 0 (lines text) [] [].
(** [parse_action] *)
Fixpoint sections_of (l : list Str) (section : Str) : list Str :=
  match l with
  | [] => [section]
  | line :: l => if decide (trim line = lit "---") then section :: sections_of l [] else sections_of l (section ++ line ++ [10])
  end.
Definition parse_section (package name : Str) (suffix : string) (section : Str) : result MsgError MessageSpec :=
  match parse_msg package (name ++ lit "_" ++ lit suffix) section with
  | Ok spec => Ok (mkSpec (ms_package spec) (ms_name spec) (lit "action") (ms_fields spec) (constants spec))
  | Err e => Err e
  end.
Definition parse_action (package name text : Str) : result MsgError (list MessageSpec) :=
  match sections_of (lines text) [] with
  | [goal; result_; feedback] =>
      g ← parse_section package name "Goal" goal;
      r ← parse_section package name "Result" result_;
      f ← parse_section package name "Feedback" feedback;
      Ok [g; r; f]
  | sections => Err (SectionsAre package name (length sections))
  end.
End Parse.

(** ** [registry.rs] *)
Record Ros2Registry := mkRegistry { types : TypeRegistry; by_name : gmap string Uuid }.
Definition new_registry : Ros2Registry := mkRegistry ∅ ∅.
(** [str::split_once] of a text, over its bytes *)
Fixpoint strip_prefix (p s : string) : option string :=
  match p, s with
  | String.EmptyString, _ => Some s
  | String.String a p, String.String b s => if decide (a = b) then strip_prefix p s else None
  | _, _ => None
  end.
Fixpoint split_once_at (p s : string) : option (string * string) :=
  match strip_prefix p s with
  | Some rest => Some (String.EmptyString, rest)
  | None => match s with
            | String.EmptyString => None
            | String.String a s => '(x, y) ← split_once_at p s; Some (String.String a x, y)
            end
  end.
Definition alias_of (segment name : string) : list string :=
  match split_once_at segment name with Some (package, ty) => [(package +:+ "/" +:+ ty)%string] | None => [] end.
(** [name_aliases] *)
Definition name_aliases (name : string) : list string :=
  if decide (name = ""%string) then [] else name :: alias_of "/msg/" name ++ alias_of "/action/" name.
Definition insert_type (ty : low.Type_) (r : Ros2Registry) : Ros2Registry :=
  mkRegistry (<[low.id ty := ty]> (types r)) (foldl (λ m name, <[name := low.id ty]> m) (by_name r) (name_aliases (low.name ty))).
(** [extend]: the types of a registry, in the order its hash map gives *)
Definition extend (tys : list low.Type_) (r : Ros2Registry) : Ros2Registry := foldl (λ r ty, insert_type ty r) r tys.
Definition define (ty : low.Type_) (deps : list low.Type_) (r : Ros2Registry) : Ros2Registry := insert_type ty (extend deps r).
Definition get_type (id : Uuid) (r : Ros2Registry) : option low.Type_ := types r !! id.
Definition id_of (name : string) (r : Ros2Registry) : option Uuid := by_name r !! name.
Definition get_by_name (name : string) (r : Ros2Registry) : option low.Type_ := id ← by_name r !! name; types r !! id.
(** [str::rsplit_once] of a slash *)
Fixpoint rsplit_slash (s : string) : option (string * string) :=
  match s with
  | String.EmptyString => None
  | String.String a s' =>
      match rsplit_slash s' with
      | Some (x, y) => Some (String.String a x, y)
      | None => if decide (a = "/"%char) then Some (String.EmptyString, s') else None
      end
  end.
Definition package_and_type (name : string) : option (string * string) :=
  match split_once_at "/msg/" name with
  | Some r => Some r
  | None => match split_once_at "/action/" name with Some r => Some r | None => rsplit_slash name end
  end.
Definition primitive_id (p : Primitive) : Uuid :=
  match p with
  | PBool => BOOLEAN_ID | PI8 => I8_ID | PI16 => I16_ID | PI32 => I32_ID | PI64 => I64_ID
  | PU8 => U8_ID | PU16 => U16_ID | PU32 => U32_ID | PU64 => U64_ID | PF32 => F32_ID | PF64 => F64_ID | PString => STRING_ID
  end.
Section Define.
Context `{UC : UuidCrate} `{DH : DefaultHasher} (usize_max : Z).
(** [message_type_ref] *)
Definition message_type_ref (b : Base) (a : Arr) : TypeRef :=
  let element_id := match b with
                    | Primitive_ p => primitive_id p
                    | Named package name => gen_uuid_from_str (utf8_string (package ++ lit "/msg/" ++ name))
                    end in
  match a with Unit => TypeRef.Scalar element_id | Unbounded => TypeRef.Array element_id | Fixed len => TypeRef.FixedArray element_id len end.
Definition low_field (f : Field) : Uuid * low.StructureField :=
  (gen_uuid_from_str (utf8_string (f_name f)), low.mkStructureField (utf8_string (f_name f)) (message_type_ref (base (f_ty f)) (arr (f_ty f)))).
(** [message_spec_to_low_type] *)
Definition message_spec_to_low_type (spec : MessageSpec) : low.Type_ :=
  let name := utf8_string (rep2016_name spec) in
  low.mkType name (gen_uuid_from_str name) "" (low.KStructure (from_fields (low_field <$> ms_fields spec))).
(** [define_from_msg] *)
Definition define_from_msg (package name text : Str) (r : Ros2Registry) : result MsgError (Uuid * Ros2Registry) :=
  spec ← parse_msg usize_max package name text;
  let ty := message_spec_to_low_type spec in
  Ok (low.id ty, insert_type ty r).
End Define.

(** * Reading message definitions: what the lines of a definition say is what [parse_msg] reads *)

(** ** Operations of text *)
Lemma trim_start_blank a s : forallb is_whitespace a = true → trim_start (a ++ s) = trim_start s.
Proof. induction a as [|c a IH]; [done|]. cbn. intros [-> H]%andb_true_iff. by apply IH. Qed.
Lemma trim_start_at c s : is_whitespace c = false → trim_start (c :: s) = c :: s.
Proof. cbn. by intros ->. Qed.
Lemma trim_start_mid a c b : is_whitespace c = false → trim_start (a ++ c :: b) = trim_start a ++ c :: b.
Proof. intros Hc. induction a as [|d a IH]; cbn; [by rewrite Hc|]. by destruct (is_whitespace d). Qed.
Lemma trim_end_mid a c b : is_whitespace c = false → trim_end (a ++ c :: b) = a ++ c :: trim_end b.
Proof.
  intros Hc. unfold trim_end. rewrite rev_app_distr. cbn. rewrite <- app_assoc. cbn. rewrite trim_start_mid by done.
  rewrite rev_app_distr. cbn. by rewrite rev_involutive, <- app_assoc.
Qed.
Lemma trim_mid a c b : is_whitespace c = false → trim (a ++ c :: b) = trim_start a ++ c :: trim_end b.
Proof. intros Hc. unfold trim. by rewrite trim_start_mid, trim_end_mid. Qed.
Lemma trim_start_split s : ∃ a, forallb is_whitespace a = true ∧ s = a ++ trim_start s.
Proof.
  induction s as [|c s (a & Ha & Hs)]; [by exists []|]. cbn. destruct (is_whitespace c) eqn:E; [|by exists []].
  exists (c :: a). cbn. rewrite E. split; [done|]. by rewrite <- Hs.
Qed.
Lemma forallb_rev {A} (p : A → bool) l : forallb p (rev l) = forallb p l.
Proof. induction l as [|a l IH]; [done|]. cbn. rewrite forallb_app, IH. cbn. rewrite andb_true_r. apply andb_comm. Qed.
Lemma trim_end_split s : ∃ a, forallb is_whitespace a = true ∧ s = trim_end s ++ a.
Proof.
  destruct (trim_start_split (rev s)) as (a & Ha & Hs). exists (rev a). rewrite forallb_rev. split; [done|].
  unfold trim_end. rewrite <- rev_app_distr, <- Hs. by rewrite rev_involutive.
Qed.
Lemma trim_split s : ∃ a b, forallb is_whitespace a = true ∧ forallb is_whitespace b = true ∧ s = a ++ trim s ++ b.
Proof.
  destruct (trim_start_split s) as (a & Ha & Hs). destruct (trim_end_split (trim_start s)) as (b & Hb & Ht).
  exists a, b. unfold trim. by rewrite <- Ht.
Qed.
Lemma trim_end_blank s b : forallb is_whitespace b = true → trim_end (s ++ b) = trim_end s.
Proof. intros Hb. unfold trim_end. rewrite rev_app_distr, trim_start_blank; [done|by rewrite forallb_rev]. Qed.
Lemma trim_start_nil s : forallb is_whitespace s = true → trim_start s = [].
Proof. intros Hs. rewrite <- (app_nil_r s). by rewrite trim_start_blank. Qed.
Lemma trim_blank s b : forallb is_whitespace b = true → trim (s ++ b) = trim s.
Proof.
  intros Hb. unfold trim. destruct (trim_start_split s) as (a & Ha & Hs). destruct (trim_start s) as [|c s'] eqn:E.
  - rewrite app_nil_r in Hs. subst a. rewrite (trim_start_nil (s ++ b)); [done|]. by rewrite forallb_app, Ha, Hb.
  - assert (is_whitespace c = false) as Hc.
    { clear Hs Ha Hb. revert E. induction s as [|d s IH]; [done|]. cbn. destruct (is_whitespace d) eqn:Ed; [done|]. by intros [= <- _]. }
    rewrite Hs, <- app_assoc, trim_start_blank by done. cbn [app]. rewrite trim_start_at by done. by rewrite app_comm_cons, trim_end_blank.
Qed.
Lemma trim_lead s a : forallb is_whitespace a = true → trim (a ++ s) = trim s.
Proof. intros Ha. unfold trim. by rewrite trim_start_blank. Qed.

(** *** Words *)
Lemma words_from_word w s acc : forallb (λ c, negb (is_whitespace c)) w = true → words_from (w ++ s) acc = words_from s (rev w ++ acc).
Proof.
  revert acc. induction w as [|c w IH]; intros acc; [done|]. cbn. intros [Hc%negb_true_iff Hw]%andb_true_iff. rewrite Hc, IH by done. by rewrite <- app_assoc.
Qed.
Lemma words_from_blank a s : forallb is_whitespace a = true → words_from (a ++ s) [] = words_from s [].
Proof. induction a as [|c a IH]; [done|]. cbn. intros [-> Ha]%andb_true_iff. by apply IH. Qed.
Lemma words_from_end s a acc : forallb is_whitespace a = true → words_from (s ++ a) acc = words_from s acc.
Proof.
  intros Ha. revert acc. induction s as [|c s IH]; intros acc; cbn.
  - destruct a as [|c a]; [done|]. cbn in Ha |- *. apply andb_true_iff in Ha as [-> Ha].
    assert (words_from a [] = []) as Hn by (rewrite <- (app_nil_r a), words_from_blank; done). destruct acc; by rewrite Hn.
  - destruct (is_whitespace c), acc; by rewrite ?IH.
Qed.
Lemma split_whitespace_trim s : split_whitespace (trim s) = split_whitespace s.
Proof.
  destruct (trim_split s) as (a & b & Ha & Hb & Hs). unfold split_whitespace. rewrite Hs at 2. by rewrite words_from_blank, words_from_end.
Qed.
Lemma split_whitespace_trim_start s : split_whitespace (trim_start s) = split_whitespace s.
Proof. destruct (trim_start_split s) as (a & Ha & Hs). unfold split_whitespace. rewrite Hs at 2. by rewrite words_from_blank. Qed.
Lemma words_from_flush c s t : t ≠ [] → is_whitespace c = true → words_from (c :: s) (rev t) = t :: words_from s [].
Proof. intros Ht Hc. cbn. rewrite Hc. destruct t as [|x t _] using rev_ind; [done|]. rewrite rev_app_distr. cbn. by rewrite rev_involutive. Qed.
Lemma words_from_last t : t ≠ [] → words_from [] (rev t) = [t].
Proof. intros Ht. destruct t as [|x t _] using rev_ind; [done|]. rewrite rev_app_distr. cbn. by rewrite rev_involutive. Qed.
(** Two words, and what follows a blank *)
Lemma split_two lead t gap n rest : forallb is_whitespace lead = true → forallb is_whitespace gap = true → gap ≠ [] → t ≠ [] → n ≠ [] →
  forallb (λ c, negb (is_whitespace c)) t = true → forallb (λ c, negb (is_whitespace c)) n = true →
  match rest with c :: _ => is_whitespace c = true | [] => True end →
  ∃ l, split_whitespace (lead ++ t ++ gap ++ n ++ rest) = t :: n :: l.
Proof.
  intros Hl Hg Hg0 Ht0 Hn0 Ht Hn Hr. unfold split_whitespace. rewrite words_from_blank, words_from_word by done. rewrite app_nil_r.
  destruct gap as [|g gap]; [done|]. cbn in Hg. apply andb_true_iff in Hg as [Hg1 Hg]. cbn [app]. rewrite words_from_flush, words_from_blank, words_from_word by done.
  rewrite app_nil_r. destruct rest as [|c rest]; [rewrite words_from_last by done; eauto|]. rewrite words_from_flush by done. eauto.
Qed.

(** *** Splits *)
Lemma split_once_at_first p a c b : forallb (λ c, negb (p c)) a = true → p c = true → split_once p (a ++ c :: b) = Some (a, b).
Proof. intros Ha Hc. induction a as [|d a IH]; cbn; [by rewrite Hc|]. cbn in Ha. apply andb_true_iff in Ha as [->%negb_true_iff Ha]. by rewrite IH. Qed.
Lemma split_once_none p a : forallb (λ c, negb (p c)) a = true → split_once p a = None.
Proof. induction a as [|d a IH]; [done|]. cbn. intros [->%negb_true_iff Ha]%andb_true_iff. by rewrite IH. Qed.
Lemma forallb_trim p s : forallb p s = true → forallb p (trim s) = true.
Proof.
  intros H. destruct (trim_split s) as (a & b & _ & _ & Hs). rewrite Hs, !forallb_app in H. by apply andb_true_iff in H as [_ [H _]%andb_true_iff].
Qed.

(** *** Lines *)
Lemma lines_from_line l s acc : forallb (λ c, negb (c =? 10)) l = true → lines_from (l ++ 10 :: s) acc = strip_return (rev acc ++ l) :: lines_from s [].
Proof.
  revert acc. induction l as [|c l IH]; intros acc; cbn; [by rewrite app_nil_r|]. intros [Hc%negb_true_iff Hl]%andb_true_iff. rewrite Hc, IH by done.
  cbn. by rewrite <- app_assoc.
Qed.
Lemma lines_written ls : Forall (λ l, forallb (λ c, negb (c =? 10)) l = true) ls → lines (ls ≫= λ l, l ++ [10]) = strip_return <$> ls.
Proof.
  unfold lines. induction 1 as [|l ls Hl _ IH]; [done|]. rewrite bind_cons, <- app_assoc. cbn [app]. rewrite lines_from_line by done. cbn. by rewrite IH.
Qed.
Lemma strip_return_cases l : strip_return l = l ∨ l = strip_return l ++ [13].
Proof.
  unfold strip_return. destruct l as [|c l _] using rev_ind; [by left|]. rewrite rev_app_distr. cbn. destruct (Z.eqb_spec c 13) as [->|?]; [|by left].
  right. by rewrite rev_involutive.
Qed.
Lemma code_of_return l : code_of (strip_return l) = code_of l.
Proof.
  destruct (strip_return_cases l) as [->|E]; [done|]. rewrite E at 2. generalize (strip_return l) as s. clear l E. intros s. unfold code_of.
  assert (∀ s, match split_once (is_char "#"%char) (s ++ [13]) with Some (a, _) => Some a | None => None end
             = match split_once (is_char "#"%char) s with Some (a, _) => Some a | None => None end) as H.
  { clear s. induction s as [|c s IH]; [done|]. cbn. destruct (is_char _ c); [done|].
    destruct (split_once _ (s ++ [13])) as [[x y]|], (split_once _ s) as [[x' y']|]; cbn in IH |- *; congruence. }
  specialize (H s). destruct (split_once _ (s ++ [13])) as [[x y]|], (split_once _ s) as [[x' y']|]; try done; [by injection H as ->|].
  by rewrite trim_blank.
Qed.

(** ** Definitions as they are written *)
(** A char of a line before its comment, of a word, and of a name of a type *)
Definition plain (c : char) : bool := negb (c =? 10) && negb (is_char "#"%char c).
Definition code_char (c : char) : bool := plain c && negb (is_char "="%char c).
Definition word_char (c : char) : bool := code_char c && negb (is_whitespace c).
Definition name_char (c : char) : bool := word_char c && negb (is_char "["%char c) && negb (is_char "/"%char c).
Definition spaces (s : Str) : Prop := forallb (λ c, is_whitespace c && negb (c =? 10)) s = true.
Definition a_word (s : Str) : Prop := s ≠ [] ∧ forallb word_char s = true.
Definition a_name (s : Str) : Prop := s ≠ [] ∧ forallb name_char s = true.
(** What may follow a word: nothing, or a space and other words *)
Definition after_word (s : Str) : Prop := forallb code_char s = true ∧ match s with c :: _ => is_whitespace c = true | [] => True end.
Inductive WBase := WPrimitive (s : string) (p : Primitive) | WHeader | WLocal (name : Str) | WQualified (package name : Str).
Inductive WArr := WUnit | WSequence | WArray (digits : Str).
Inductive WValue := WRaw (v : Str) | WQuoted (q : char) (v : Str).
Inductive WLine :=
| WBlank (space : Str)
| WField (lead : Str) (b : WBase) (a : WArr) (gap name rest : Str)
| WConstant (lead : Str) (s : string) (p : Primitive) (gap name rest pad : Str) (v : WValue) (pad' : Str).
Definition PRIMITIVES : list (string * Primitive) := ("string"%string, PString) :: ("wstring"%string, PString) :: tokens_of.
Definition base_text (b : WBase) : Str :=
  match b with
  | WPrimitive s _ => lit s | WHeader => lit "Header" | WLocal n => n | WQualified p n => p ++ lit "/" ++ n
  end.
Definition arr_text (a : WArr) : Str := match a with WUnit => [] | WSequence => lit "[]" | WArray d => lit "[" ++ d ++ lit "]" end.
Definition value_text (v : WValue) : Str := match v with WRaw v => v | WQuoted q v => q :: v ++ [q] end.
Definition line_text (l : WLine) : Str :=
  match l with
  | WBlank s => s
  | WField lead b a gap name rest => lead ++ (base_text b ++ arr_text a) ++ gap ++ name ++ rest
  | WConstant lead s _ gap name rest pad v pad' => (lead ++ lit s ++ gap ++ name ++ rest) ++ lit "=" ++ pad ++ value_text v ++ pad'
  end.
Definition written (usize_max : Z) (l : WLine) : Prop :=
  match l with
  | WBlank s => spaces s
  | WField lead b a gap name rest => spaces lead ∧ spaces gap ∧ gap ≠ [] ∧ a_word name ∧ after_word rest ∧
      match b with
      | WPrimitive s p => (s, p) ∈ PRIMITIVES
      | WHeader => True
      | WLocal n => a_name n ∧ from_token n = None ∧ n ≠ lit "Header"
      | WQualified p n => a_name p ∧ a_name n ∧ from_token (p ++ lit "/" ++ n) = None
      end ∧
      match a with WArray d => d ≠ [] ∧ forallb is_digit d = true ∧ Z.of_nat (numeral d) ≤ usize_max | _ => True end
  | WConstant lead s p gap name rest pad v pad' => spaces lead ∧ (s, p) ∈ PRIMITIVES ∧ spaces gap ∧ gap ≠ [] ∧ a_word name ∧ after_word rest ∧
      spaces pad ∧ spaces pad' ∧ forallb plain (value_text v) = true ∧
      match v with
      | WRaw v => trim v = v ∧ match hd_error v with Some c => c ≠ 34 ∧ c ≠ 39 | None => True end
      | WQuoted q _ => q = 34 ∨ q = 39
      end
  end.
(** What they say *)
Definition said_base (package : Str) (b : WBase) : Base :=
  match b with
  | WPrimitive _ p => Primitive_ p | WHeader => Named (lit "std_msgs") (lit "Header")
  | WLocal n => Named package n | WQualified p n => Named p n
  end.
Definition said_arr (a : WArr) : Arr := match a with WUnit => Unit | WSequence => Unbounded | WArray d => Fixed (numeral d) end.
Definition said (package : Str) (l : WLine) : Item :=
  match l with
  | WBlank _ => Nothing
  | WField _ b a _ name _ => AField (mkField name (mkRosType (said_base package b) (said_arr a)))
  | WConstant _ _ p _ name _ _ v _ => AConstant (mkConstant p name (match v with WRaw v | WQuoted _ v => v end))
  end.
Definition fields_said (package : Str) (ls : list WLine) : list Field :=
  ls ≫= λ l, match said package l with AField f => [f] | _ => [] end.
Definition constants_said (package : Str) (ls : list WLine) : list Constant :=
  ls ≫= λ l, match said package l with AConstant c => [c] | _ => [] end.
(** A line, its comment if any, and its end *)
Definition with_comment (l : WLine * option Str) : Str := line_text l.1 ++ match l.2 with Some c => lit "#" ++ c | None => [] end.
Definition text_of (ls : list (WLine * option Str)) : Str := ls ≫= λ l, with_comment l ++ [10].

(** ** Their reading *)
Lemma forallb_impl {A} (p q : A → bool) l : (∀ a, p a = true → q a = true) → forallb p l = true → forallb q l = true.
Proof. intros Hpq. rewrite !forallb_forall. eauto. Qed.
Ltac chars := eapply forallb_impl; [|eassumption]; intros ?; unfold name_char, word_char, code_char, plain; rewrite ?andb_true_iff; naive_solver.
Lemma primitive_token s p : (s, p) ∈ PRIMITIVES → from_token (lit s) = Some p ∧ forallb name_char (lit s) = true ∧ lit s ≠ [].
Proof. unfold PRIMITIVES, tokens_of. rewrite !elem_of_cons, elem_of_nil. intros H. repeat destruct H as [H|H]; try done; by injection H as -> ->. Qed.
Lemma spaces_blank s : spaces s → forallb is_whitespace s = true.
Proof. intros H. chars. Qed.
Ltac codes := repeat match goal with
  | |- context [Z.of_nat (Ascii.nat_of_ascii ?a)] => let n := eval vm_compute in (Z.of_nat (Ascii.nat_of_ascii a)) in change (Z.of_nat (Ascii.nat_of_ascii a)) with n
  | H : context [Z.of_nat (Ascii.nat_of_ascii ?a)] |- _ => let n := eval vm_compute in (Z.of_nat (Ascii.nat_of_ascii a)) in change (Z.of_nat (Ascii.nat_of_ascii a)) with n in H
  end.
Lemma is_digit_close c : is_digit c = true → is_char "]"%char c = false.
Proof. unfold is_digit, between, is_char. intros [H1%Z.leb_le H2%Z.leb_le]%andb_true_iff. apply Z.eqb_neq. codes. lia. Qed.
Lemma is_digit_plus c : is_digit c = true → is_char "+"%char c = false.
Proof. unfold is_digit, between, is_char. intros [H1%Z.leb_le H2%Z.leb_le]%andb_true_iff. apply Z.eqb_neq. codes. lia. Qed.
Lemma is_digit_less c : is_digit c = true → c ≠ 60.
Proof. unfold is_digit, between. intros [H1%Z.leb_le H2%Z.leb_le]%andb_true_iff. codes. lia. Qed.
Lemma parse_usize_digits u d : d ≠ [] → forallb is_digit d = true → Z.of_nat (numeral d) ≤ u → parse_usize u d = Some (numeral d).
Proof.
  intros Hd Hds Hu. unfold parse_usize. destruct d as [|c d]; [done|]. pose proof Hds as Hc. cbn in Hc. apply andb_true_iff in Hc as [Hc _].
  assert ((match c :: d with c :: (_ :: _) as r => if is_char "+"%char c then tail (c :: d) else c :: d | _ => c :: d end) = c :: d) as ->.
  { destruct d; [done|]. by rewrite is_digit_plus. }
  rewrite Hds, bool_decide_false by done. by rewrite (proj2 (Z.leb_le _ _) Hu).
Qed.

Section Reading.
Context (usize_max : Z) (package : Str).
Lemma parse_type_written b a : 
  match b with
  | WPrimitive s p => (s, p) ∈ PRIMITIVES
  | WHeader => True
  | WLocal n => a_name n ∧ from_token n = None ∧ n ≠ lit "Header"
  | WQualified p n => a_name p ∧ a_name n ∧ from_token (p ++ lit "/" ++ n) = None
  end →
  match a with WArray d => d ≠ [] ∧ forallb is_digit d = true ∧ Z.of_nat (numeral d) ≤ usize_max | _ => True end →
  parse_type usize_max (base_text b ++ arr_text a) package = mkRosType (said_base package b) (said_arr a).
Proof.
  intros Hb Ha.
  assert (forallb (λ c, negb (is_char "["%char c)) (base_text b) = true) as Hn.
  { destruct b as [s p| |n|p n]; cbn [base_text].
    - apply primitive_token in Hb as (_ & Hb & _). chars.
    - done.
    - destruct Hb as ([_ Hb] & _). chars.
    - destruct Hb as ([_ Hp] & [_ Hq] & _). rewrite !forallb_app, andb_true_iff. split; [chars|]. rewrite andb_true_iff. split; [done|chars]. }
  assert (match from_token (base_text b) with
    | Some primitive => Primitive_ primitive
    | None =>
        if decide (base_text b = lit "Header") then Named (lit "std_msgs") (lit "Header")
        else match split_once (is_char "/"%char) (base_text b) with
        | Some (pkg, ty) => Named pkg ty
        | None => Named package (base_text b)
        end
    end = said_base package b) as Hbase.
  { clear Hn. destruct b as [s p| |n|p n]; cbn [base_text said_base].
    - apply primitive_token in Hb as (-> & _). done.
    - done.
    - destruct Hb as ([_ Hb] & -> & Hh). rewrite decide_False by done. rewrite split_once_none; [done|chars].
    - destruct Hb as ([_ Hp] & _ & ->). rewrite decide_False.
      + change (lit "/" ++ n) with (47 :: n). rewrite split_once_at_first; [done|chars|done].
      + intros Hh. assert (47 ∈ lit "Header") as Hin by (rewrite <- Hh; set_solver). assert (bool_decide (47 ∈ lit "Header") = false) as Hf by (vm_compute; reflexivity). by apply bool_decide_eq_false in Hf. }
  unfold parse_type. destruct a as [| |d]; cbn [arr_text said_arr].
  - rewrite app_nil_r, split_once_none by done. cbv beta iota zeta. by rewrite Hbase.
  - change (lit "[]") with (91 :: [93]). rewrite split_once_at_first by done. cbv beta iota zeta. by rewrite Hbase.
  - destruct Ha as (Hd0 & Hd & Hu). change (lit "[" ++ d ++ lit "]") with (91 :: d ++ [93]). rewrite split_once_at_first by done. cbv beta iota zeta.
    assert (trim_end_matches (is_char "]"%char) (d ++ [93]) = d) as ->.
    { unfold trim_end_matches. rewrite rev_app_distr. change (trim_start_matches (is_char "]"%char) (rev [93] ++ rev d)) with (trim_start_matches (is_char "]"%char) (rev d)).
      destruct d as [|x d _] using rev_ind; [done|]. rewrite rev_app_distr. change (rev [x] ++ rev d) with (x :: rev d). cbn [trim_start_matches].
      rewrite forallb_app in Hd. apply andb_true_iff in Hd as [_ Hx]. cbn in Hx. rewrite is_digit_close by (by rewrite andb_true_r in Hx). cbn. by rewrite rev_involutive. }
    assert (starts_with (lit "<=") d = false) as Hs.
    { apply bool_decide_eq_false. destruct d as [|x d]; [done|]. cbn in Hd. apply andb_true_iff in Hd as [Hx%is_digit_less _]. vm_compute (lit "<="). cbn. congruence. }
    rewrite bool_decide_false by done. cbn [orb]. rewrite Hs, parse_usize_digits by done. cbv beta iota zeta. by rewrite Hbase.
Qed.
(** A line's code, as the parser sees it, and the lines *)
Lemma code_of_written l : forallb plain (line_text l.1) = true → code_of (with_comment l) = trim (line_text l.1).
Proof.
  intros Hp. unfold code_of, with_comment. destruct l as [l [c|]]; cbn [fst snd] in *.
  - change (lit "#" ++ c) with (35 :: c). rewrite split_once_at_first; [done|chars|done].
  - rewrite app_nil_r, split_once_none; [done|chars].
Qed.
Lemma plain_spaces s : spaces s → forallb plain s = true.
Proof.
  unfold spaces. rewrite !forallb_forall. intros H c Hc. specialize (H c Hc). apply andb_true_iff in H as [Hw Hn]. unfold plain. rewrite Hn. cbn.
  unfold is_char. codes. apply negb_true_iff, Z.eqb_neq. intros ->. done.
Qed.
Lemma no_equals_spaces s : spaces s → forallb code_char s = true.
Proof.
  intros H. pose proof (plain_spaces s H) as Hp. revert H Hp. unfold spaces. rewrite !forallb_forall. intros H Hp c Hc. specialize (H c Hc). specialize (Hp c Hc).
  apply andb_true_iff in H as [Hw Hn]. unfold code_char. rewrite Hp. cbn. unfold is_char. codes. apply negb_true_iff, Z.eqb_neq. intros ->. done.
Qed.
Lemma token_written b a : 
  match b with
  | WPrimitive s p => (s, p) ∈ PRIMITIVES
  | WHeader => True
  | WLocal n => a_name n ∧ from_token n = None ∧ n ≠ lit "Header"
  | WQualified p n => a_name p ∧ a_name n ∧ from_token (p ++ lit "/" ++ n) = None
  end →
  match a with WArray d => d ≠ [] ∧ forallb is_digit d = true ∧ Z.of_nat (numeral d) ≤ usize_max | _ => True end →
  a_word (base_text b ++ arr_text a).
Proof.
  intros Hb Ha. split.
  - destruct b as [s p| |n|p n]; cbn [base_text]; [apply primitive_token in Hb as (_ & _ & Hb)|done|destruct Hb as ([Hb _] & _)|destruct Hb as ([Hb _] & _)];
      intros [Hn _]%app_nil; try done. by apply app_nil in Hn as [].
  - rewrite forallb_app, andb_true_iff. split.
    + destruct b as [s p| |n|p n]; cbn [base_text].
      * apply primitive_token in Hb as (_ & Hb & _). chars.
      * done.
      * destruct Hb as ([_ Hb] & _). chars.
      * destruct Hb as ([_ Hp] & [_ Hq] & _). rewrite !forallb_app, !andb_true_iff. split_and!; [chars|done|chars].
    + destruct a as [| |d]; [done..|]. cbn [arr_text]. destruct Ha as (_ & Hd & _). rewrite !forallb_app, !andb_true_iff. split_and!; [done| |done].
      eapply forallb_impl; [|exact Hd]. intros c. unfold is_digit, between. rewrite andb_true_iff, !Z.leb_le. codes. intros [H1 H2].
      assert (c ∈ seqZ 48 10) as Hc by (apply elem_of_seqZ; lia). clear H1 H2. revert c Hc. apply Forall_forall. by vm_compute; repeat constructor.
Qed.
Lemma word_no_space s : forallb word_char s = true → forallb (λ c, negb (is_whitespace c)) s = true.
Proof. intros H. chars. Qed.
Lemma value_trimmed v : match v with
      | WRaw v => trim v = v ∧ match hd_error v with Some c => c ≠ 34 ∧ c ≠ 39 | None => True end
      | WQuoted q _ => q = 34 ∨ q = 39
      end → trim (value_text v) = value_text v ∧ unquoted (value_text v) = match v with WRaw v | WQuoted _ v => v end.
Proof.
  destruct v as [v|q v]; cbn [value_text].
  - intros [-> Hv]. split; [done|]. unfold unquoted. destruct v as [|c v]; [done|]. destruct Hv as [H1 H2]. cbn [hd_error].
    rewrite !(bool_decide_false (Some c = Some _)) by congruence. by rewrite !andb_false_r.
  - intros Hq. assert (is_whitespace q = false) as Hw by (by destruct Hq as [->| ->]). split.
    + unfold trim. rewrite trim_start_at by done. change (q :: v ++ [q]) with ((q :: v) ++ q :: []). by rewrite trim_end_mid.
    + unfold unquoted. assert (hd_error (q :: v ++ [q]) = Some q) as -> by done. assert (last (q :: v ++ [q]) = Some q) as -> by apply (last_snoc q (q :: v)).
      assert ((2 <=? length (q :: v ++ [q]))%nat = true) as -> by (apply Nat.leb_le; rewrite length_cons, length_app; cbn; lia).
      cbn [tail]. rewrite removelast_last. by destruct Hq as [->| ->].
Qed.
Lemma parse_line_written l : written usize_max l.1 → parse_line usize_max package (with_comment l) = Ok (said package l.1).
Proof.
  destruct l as [l c]. cbn [fst]. intros Hw. unfold parse_line. destruct l as [s|lead b a gap name rest|lead s p gap name rest pad v pad']; cbn [written] in Hw.
  - rewrite code_of_written by (by apply plain_spaces). cbn [fst line_text]. unfold trim. by rewrite trim_start_nil by (by apply spaces_blank).
  - destruct Hw as (Hl & Hg & Hg0 & [Hn0 Hn] & [Hr Hr'] & Hb & Ha). pose proof (token_written b a Hb Ha) as [Ht0 Ht].
    assert (forallb code_char (line_text (WField lead b a gap name rest)) = true) as Hcode.
    { cbn [line_text]. rewrite !(forallb_app code_char lead), !(forallb_app code_char (_ ++ _)), !(forallb_app code_char gap), !(forallb_app code_char name), !andb_true_iff.
      split_and!; [by apply no_equals_spaces|chars|by apply no_equals_spaces|chars|done]. }
    rewrite code_of_written by chars. cbn [fst].
    destruct (split_two lead (base_text b ++ arr_text a) gap name rest) as (k & Hk); [by apply spaces_blank|by apply spaces_blank|done|done|done|by apply word_no_space|by apply word_no_space|done|].
    change (lead ++ _) with (line_text (WField lead b a gap name rest)) in Hk. rewrite <- split_whitespace_trim in Hk.
    rewrite decide_False by (intros E; rewrite E in Hk; discriminate Hk).
    rewrite split_once_none by (apply forallb_trim; chars). rewrite Hk. cbn [said]. by rewrite parse_type_written.
  - destruct Hw as (Hl & Hs & Hg & Hg0 & [Hn0 Hn] & [Hr Hr'] & Hp & Hp' & Hv & Hv').
    apply primitive_token in Hs as (Hs & Hsn & Hs0).
    assert (forallb code_char (lead ++ lit s ++ gap ++ name ++ rest) = true) as Hcode.
    { rewrite !forallb_app, !andb_true_iff. split_and!; [by apply no_equals_spaces|chars|by apply no_equals_spaces|chars|done]. }
    rewrite code_of_written.
    2: { cbn [fst line_text]. rewrite !(forallb_app plain), !andb_true_iff. rewrite !(forallb_app code_char), !andb_true_iff in Hcode.
         split_and!; [by apply plain_spaces|chars|by apply plain_spaces|chars|chars|done|by apply plain_spaces|done|by apply plain_spaces]. }
    cbn [fst line_text]. set (D := lead ++ lit s ++ gap ++ name ++ rest) in *. change (lit "=" ++ pad ++ value_text v ++ pad') with (61 :: (pad ++ value_text v ++ pad')).
    rewrite trim_mid by done. rewrite decide_False by (by destruct (trim_start D)).
    rewrite split_once_at_first; [|destruct (trim_start_split D) as (x & _ & E); rewrite E, forallb_app in Hcode; apply andb_true_iff in Hcode as [_ Hcode]; chars|done].
    destruct (split_two lead (lit s) gap name rest) as (k & Hk); [by apply spaces_blank|by apply spaces_blank|done|done|done|chars|by apply word_no_space|done|].
    rewrite split_whitespace_trim_start. unfold D. rewrite Hk, Hs. cbn [said]. destruct (value_trimmed v Hv') as [Htv Huv].
    destruct (trim_end_split (pad ++ value_text v ++ pad')) as (x & Hx & E). rewrite <- (trim_blank _ x) by done. rewrite <- E.
    rewrite trim_lead, trim_blank by (by apply spaces_blank). by rewrite Htv, Huv.
Qed.
Lemma plain_written l : written usize_max l → forallb plain (line_text l) = true.
Proof.
  destruct l as [s|lead b a gap name rest|lead s p gap name rest pad v pad']; cbn [written line_text].
  - by apply plain_spaces.
  - intros (Hl & Hg & _ & [_ Hn] & [Hr _] & Hb & Ha). pose proof (token_written b a Hb Ha) as [_ Ht].
    rewrite !(forallb_app plain lead), !(forallb_app plain (_ ++ _)), !(forallb_app plain gap), !(forallb_app plain name), !andb_true_iff.
    split_and!; [by apply plain_spaces|chars|by apply plain_spaces|chars|chars].
  - intros (Hl & Hs & Hg & _ & [_ Hn] & [Hr _] & Hp & Hp' & Hv & _). apply primitive_token in Hs as (_ & Hs & _).
    rewrite !(forallb_app plain), !andb_true_iff. split_and!; [by apply plain_spaces|chars|by apply plain_spaces|chars|chars|done|by apply plain_spaces|done|by apply plain_spaces].
Qed.
Definition a_line (l : WLine * option Str) : Prop :=
  written usize_max l.1 ∧ match l.2 with Some c => forallb (λ c, negb (c =? 10)) c = true | None => True end.
Lemma lines_text_of ls : Forall a_line ls → lines (text_of ls) = strip_return <$> (with_comment <$> ls).
Proof.
  intros Hls. rewrite <- lines_written.
  - f_equal. unfold text_of. induction ls as [|l ls IH]; [done|]. rewrite fmap_cons, !bind_cons. f_equal. apply IH. by apply Forall_cons in Hls as [_ ?].
  - apply Forall_fmap. eapply Forall_impl; [exact Hls|]. intros [l c] [Hl Hc]. cbn in *. unfold with_comment. cbn [fst snd]. rewrite forallb_app, andb_true_iff.
    pose proof (plain_written l Hl). split; [chars|]. destruct c; [|done]. by cbn.
Qed.
Lemma parse_lines_written name ls n fs cs : Forall a_line ls →
  parse_lines usize_max package name n (strip_return <$> (with_comment <$> ls)) fs cs
  = Ok (mkSpec package name (lit "msg") (fs ++ fields_said package ls.*1) (cs ++ constants_said package ls.*1)).
Proof.
  revert n fs cs. induction ls as [|l ls IH]; intros n fs cs Hls; [by cbn; rewrite !app_nil_r|]. apply Forall_cons in Hls as [[Hl _] Hls].
  rewrite !fmap_cons. cbn [parse_lines].
  assert (parse_line usize_max package (strip_return (with_comment l)) = Ok (said package l.1)) as ->.
  { unfold parse_line. rewrite code_of_return. by apply parse_line_written. }
  unfold fields_said, constants_said. rewrite !bind_cons. destruct (said package l.1); rewrite IH by done; cbn [app]; by rewrite <- ?app_assoc.
Qed.
Lemma parse_msg_written name ls : Forall a_line ls →
  parse_msg usize_max package name (text_of ls) = Ok (mkSpec package name (lit "msg") (fields_said package ls.*1) (constants_said package ls.*1)).
Proof. intros Hls. unfold parse_msg. rewrite lines_text_of by done. by rewrite parse_lines_written. Qed.
End Reading.

(** A message definition reads as it is written: of any lines, blank, fields or
    constants, with any spacing, any words after a name, any comment and either
    end of line, the fields and the constants are read in order, each with its
    name and its type, or its value without its quotes, and nothing else; a bare
    name is of the package, and [Header] of [std_msgs]. *)
Theorem messages_read usize_max package name ls : Forall (a_line usize_max) ls →
  parse_msg usize_max package name (text_of ls) = Ok (mkSpec package name (lit "msg") (fields_said package ls.*1) (constants_said package ls.*1)).
Proof. apply parse_msg_written. Qed.
