(* ===== verification/Registered.v ===== *)
(** * The registry of ROS 2 messages

    What [arora-msgs-ros2/src/registry.rs] lists, and what a type put in it is
    found by: its id, its name and its short name. *)

From Stdlib Require Import Ascii.
From stdpp Require Import sorting.
From S2P Require Import Prelude Regexes Tokens Parser Values Extern Keys State Store Effects Nodes Schema Runtime Commands Reports Types Messages.

(** ** [contains], [names], [len], [is_empty], [define_from_json] of a parsed blob *)
Definition contains (id : Uuid) (r : Ros2Registry) : bool := bool_decide (is_Some (types r !! id)).
Definition names (r : Ros2Registry) : list string :=
  dedup_names (merge_sort String.le (filter (λ n, n ≠ ""%string) (low.name <$> (map_to_list (types r)).*2))).
Definition len (r : Ros2Registry) : nat := size (types r).
Definition is_empty (r : Ros2Registry) : bool := Nat.eqb (len r) 0.
Definition define_parsed (tys : list low.Type_) (r : Ros2Registry) : list Uuid * Ros2Registry :=
  (low.id <$> tys, foldl (λ r ty, insert_type ty r) r tys).

(** ** Names *)
Fixpoint no_slash (s : string) : Prop := match s with String.EmptyString => True | String.String a s => a ≠ "/"%char ∧ no_slash s end.
Lemma strip_prefix_app p s : strip_prefix p (p +:+ s) = Some s.
Proof.
  induction p as [|a p IH]; [done|]. change (strip_prefix (String.String a p) (String.String a (p +:+ s)) = Some s). cbn. by rewrite decide_True.
Qed.
Lemma strip_prefix_slash q s : no_slash s → strip_prefix (String.String "/" q) s = None.
Proof. destruct s as [|a s]; [done|]. cbn. intros [Ha _]. by rewrite decide_False. Qed.
Lemma split_once_at_slash q p s : no_slash p → split_once_at (String.String "/" q) (p +:+ String.String "/" q +:+ s) = Some (p, s).
Proof.
  induction p as [|a p IH]; cbn [no_slash].
  - intros _. change (split_once_at (String.String "/" q) (String.String "/" (q +:+ s)) = Some (""%string, s)). cbn [split_once_at strip_prefix].
    by rewrite decide_True, strip_prefix_app by done.
  - intros [Ha Hp]. change (String.String a p +:+ String.String "/" q +:+ s)%string with (String.String a (p +:+ String.String "/" q +:+ s))%string.
    cbn [split_once_at strip_prefix]. rewrite decide_False by done. by rewrite IH.
Qed.
Lemma split_once_at_none q s : no_slash s → split_once_at (String.String "/" q) s = None.
Proof.
  induction s as [|a s IH]; [done|]. intros Hs. pose proof (strip_prefix_slash q _ Hs) as Hn. destruct Hs as [_ Hs].
  cbn [split_once_at]. rewrite Hn. by rewrite IH.
Qed.
(** The name a message is stored under, and the short one *)
Definition full_name (package name : string) : string := package +:+ "/msg/" +:+ name.
Definition short_name (package name : string) : string := package +:+ "/" +:+ name.
Lemma no_slash_app p s : no_slash p → no_slash s → no_slash (p +:+ s).
Proof. induction p as [|a p IH]; [done|]. intros [Ha Hp] Hs. split; [done|by apply IH]. Qed.
Lemma rsplit_no_slash s : no_slash s → rsplit_slash s = None.
Proof. induction s as [|a s IH]; [done|]. intros [Ha Hs]. cbn. rewrite IH by done. by rewrite decide_False. Qed.
Lemma rsplit_slash_first p s : no_slash s → rsplit_slash (p +:+ "/" +:+ s) = Some (p, s).
Proof.
  intros Hs. induction p as [|a p IH].
  - change (rsplit_slash (String.String "/" s) = Some (""%string, s)). cbn. by rewrite rsplit_no_slash.
  - change (rsplit_slash (String.String a (p +:+ "/" +:+ s)) = Some (String.String a p, s)). cbn [rsplit_slash]. by rewrite IH.
Qed.
Lemma strip_longer c q s : no_slash s → strip_prefix (String.String "/" (q +:+ "/")) (String.String c s) = None.
Proof.
  intros Hs. cbn [strip_prefix]. destruct (decide _) as [_|_]; [|done]. revert s Hs. induction q as [|a q IH]; intros s Hs.
  - by apply (strip_prefix_slash "").
  - destruct s as [|b s]; [done|]. destruct Hs as [_ Hs]. change (strip_prefix (String.String a (q +:+ "/")) (String.String b s) = None).
    cbn [strip_prefix]. destruct (decide _); [by apply IH|done].
Qed.
(** A separator with a slash at each end is not in a text with one slash *)
Lemma split_once_at_short q p s : no_slash p → no_slash s → split_once_at (String.String "/" (q +:+ "/")) (p +:+ "/" +:+ s) = None.
Proof.
  intros Hp Hs. induction p as [|a p IH].
  - change (split_once_at (String.String "/" (q +:+ "/")) (String.String "/" s) = None). cbn [split_once_at]. rewrite strip_longer by done.
    by rewrite split_once_at_none.
  - change (split_once_at (String.String "/" (q +:+ "/")) (String.String a (p +:+ "/" +:+ s)) = None). destruct Hp as [Ha Hp].
    cbn [split_once_at strip_prefix]. rewrite decide_False by done. by rewrite IH.
Qed.
Lemma name_aliases_message p n : no_slash p → no_slash n → name_aliases (full_name p n) = [full_name p n; short_name p n].
Proof.
  intros Hp Hn. unfold name_aliases. rewrite decide_False by (by destruct p). f_equal. unfold alias_of, full_name.
  rewrite split_once_at_slash by done.
  assert (split_once_at "/action/" (p +:+ "/msg/" +:+ n) = None) as ->; [|done].
  induction p as [|a p IH].
  - pose proof (split_once_at_none "action/" n Hn). change (split_once_at "/action/" (String.String "/" (String.String "m" (String.String "s" (String.String "g" (String.String "/" n))))) = None).
    pose proof (strip_longer "/" "action" n Hn) as Hl. change (String.String "/" ("action" +:+ "/"))%string with "/action/"%string in Hl.
    cbn [split_once_at]. rewrite Hl, H. done.
  - change (split_once_at "/action/" (String.String a (p +:+ "/msg/" +:+ n)) = None). destruct Hp as [Ha Hp].
    cbn [split_once_at strip_prefix]. rewrite decide_False by done. by rewrite IH.
Qed.
Lemma package_of_full p n : no_slash p → package_and_type (full_name p n) = Some (p, n).
Proof. intros Hp. unfold package_and_type, full_name. by rewrite split_once_at_slash. Qed.
Lemma package_of_short p n : no_slash p → no_slash n → package_and_type (short_name p n) = Some (p, n).
Proof.
  intros Hp Hn. unfold package_and_type, short_name. rewrite (split_once_at_short "msg"), (split_once_at_short "action") by done.
  by apply rsplit_slash_first.
Qed.

(** ** A registry keeps what it indexes *)
Definition indexed (r : Ros2Registry) : Prop := ∀ name id, by_name r !! name = Some id → is_Some (types r !! id).
Lemma foldl_alias (id : Uuid) l (m : gmap string Uuid) k : foldl (λ m n, <[n := id]> m) m l !! k = if decide (k ∈ l) then Some id else m !! k.
Proof.
  revert m. induction l as [|a l IH]; intros m; [done|]. cbn [foldl]. rewrite IH.
  destruct (decide (k ∈ l)), (decide (k = a)) as [->|]; rewrite ?decide_True by set_solver; [done..|by rewrite lookup_insert_eq|].
  rewrite decide_False by set_solver. by rewrite lookup_insert_ne.
Qed.
Lemma insert_type_indexed ty r : indexed r → indexed (insert_type ty r).
Proof.
  intros Hr name id. unfold insert_type. cbn [types by_name]. unfold TypeRegistry in *. rewrite foldl_alias. destruct (decide (name ∈ _)); [intros [= <-]; by rewrite lookup_insert_eq|].
  intros H. apply Hr in H. destruct (decide (id = low.id ty)) as [->|]; [by rewrite lookup_insert_eq|by rewrite lookup_insert_ne].
Qed.
Lemma extend_indexed tys r : indexed r → indexed (extend tys r).
Proof. revert r. induction tys as [|ty tys IH]; intros r Hr; [done|]. apply IH. by apply insert_type_indexed. Qed.
Lemma utf8_string_app a b : utf8_string (a ++ b) = utf8_string a +:+ utf8_string b.
Proof.
  unfold utf8_string. rewrite bind_app, foldr_app. induction (a ≫= utf8_bytes) as [|z l IH]; [done|]. cbn [foldr]. by rewrite IH.
Qed.

Section Found.
Context `{UC : UuidCrate} `{DH : DefaultHasher} (usize_max : Z).
Lemma parse_lines_named package name n l fs cs spec : parse_lines usize_max package name n l fs cs = Ok spec →
  ms_package spec = package ∧ ms_name spec = name ∧ namespace spec = lit "msg".
Proof. revert n fs cs. induction l as [|x l IH]; intros n fs cs; cbn [parse_lines]; [by intros [= <-]|]. repeat case_match; [by apply IH..|done]. Qed.
(** A message defined from its text is found: by the id of its full name, by its full name [package/msg/Name] and
    by its short one [package/Name], each the one type its definition reads as; every other id and every other name
    finds what it found before, and either name splits back into its package and its type. The package and the name
    hold no slash. *)
Theorem messages_are_found package name text r id r' :
  no_slash (utf8_string package) → no_slash (utf8_string name) → define_from_msg usize_max package name text r = Ok (id, r') →
  let full := full_name (utf8_string package) (utf8_string name) in
  let short := short_name (utf8_string package) (utf8_string name) in
  id = gen_uuid_from_str full ∧
  (∃ spec, parse_msg usize_max package name text = Ok spec ∧ low.name (message_spec_to_low_type spec) = full ∧
    get_type id r' = Some (message_spec_to_low_type spec) ∧ get_by_name full r' = Some (message_spec_to_low_type spec) ∧
    get_by_name short r' = Some (message_spec_to_low_type spec)) ∧
  (∀ j, j ≠ id → get_type j r' = get_type j r) ∧ (∀ m, m ≠ full → m ≠ short → id_of m r' = id_of m r) ∧
  package_and_type full = Some (utf8_string package, utf8_string name) ∧ package_and_type short = Some (utf8_string package, utf8_string name).
Proof.
  intros Hp Hn Hd full short. unfold define_from_msg in Hd. destruct (parse_msg usize_max package name text) as [spec|] eqn:Es; [|done].
  cbn in Hd. injection Hd as <- <-. destruct (parse_lines_named _ _ _ _ _ _ _ Es) as (E1 & E2 & E3).
  assert (utf8_string (rep2016_name spec) = full) as Hname.
  { unfold rep2016_name. rewrite E1, E2, E3, !utf8_string_app. done. }
  pose proof (name_aliases_message _ _ Hp Hn) as Ha. fold full short in Ha.
  unfold get_by_name, id_of, get_type, message_spec_to_low_type, insert_type. cbn. rewrite !Hname, Ha. unfold TypeRegistry in *.
  split; [done|]. split.
  { exists spec. rewrite !Hname. split_and!; [done|done|by rewrite lookup_insert_eq|..]; rewrite foldl_alias, decide_True by set_solver; cbn; by rewrite lookup_insert_eq. }
  split_and!; [intros j Hj; by rewrite lookup_insert_ne| |by apply package_of_full|by apply package_of_short].
  intros m Hf Hs. rewrite foldl_alias, decide_False; [done|]. set_solver.
Qed.
End Found.

(** The names a node editor is offered are the non-empty names of the types known, each once, sorted. *)
Theorem names_are_known r : StronglySorted String.le (names r) ∧ NoDup (names r) ∧
  ∀ n, n ∈ names r ↔ n ≠ ""%string ∧ ∃ id ty, get_type id r = Some ty ∧ low.name ty = n.
Proof.
  destruct (dedup_names_sorted (merge_sort String.le (filter (λ n, n ≠ ""%string) (low.name <$> (map_to_list (types r)).*2)))) as [Hs Hd].
  { apply StronglySorted_merge_sort; apply _. }
  split; [done|]. split; [done|]. intros n. unfold names, get_type. rewrite elem_of_dedup_names, merge_sort_Permutation, list_elem_of_filter.
  rewrite list_elem_of_fmap. apply and_iff_compat_l. split.
  - intros (ty & -> & ([id u] & -> & Hi%elem_of_map_to_list)%list_elem_of_fmap). by exists id, u.
  - intros (id & ty & Hi & <-). exists ty. split; [done|]. apply list_elem_of_fmap. exists (id, ty). split; [done|by apply elem_of_map_to_list].
Qed.
