(* ===== verification/RosTypes.v ===== *)
(** * Types as ROS 2 messages: [arora-msgs-ros2/src/representable.rs], [hash.rs]

    Whether a type, with all it nests, has a ROS 2 form, and the description its
    type hash is of. Both walk the registry of types and visit each id once: the
    walks run on fuel, of which one more than the types of the registry is enough.
    The [ros2_client] crate - its field types and its hash of a description - is a
    class, and so is the list of [byte] fields the build generates. *)

From S2P Require Import Prelude Values Types Walk.

Definition ROS_SCALARS : list Uuid :=
  [BOOLEAN_ID; I8_ID; I16_ID; I32_ID; I64_ID; U8_ID; U16_ID; U32_ID; U64_ID; F32_ID; F64_ID; STRING_ID].
Definition is_ros_scalar (id : Uuid) : bool := in_ids id ROS_SCALARS.

(** ** [ros2_representable] *)
Inductive NotRepresentable :=
| InField (name : string) (reason : NotRepresentable)
| EnumerationsHaveNoEncoding
| MapsHaveNoEncoding
| NeitherScalarNorKnown (id : Uuid).
(** The ids seen, or why not; [None] out of fuel *)
Abbreviation Walked := (option (result NotRepresentable (gset Uuid))).
Section Check.
Variable registry : TypeRegistry.
Section Nested.
Variable check_type : low.Type_ → gset Uuid → Walked.
Definition check_element (id : Uuid) (seen : gset Uuid) : Walked :=
  if is_ros_scalar id then Some (Ok seen)
  else match registry !! id with
  | None => Some (Err (NeitherScalarNorKnown id))
  | Some nested => if decide (id ∈ seen) then Some (Ok seen) else check_type nested ({[ id ]} ∪ seen)
  end.
Definition check_ref (t : TypeRef) (seen : gset Uuid) : Walked :=
  match t with
  | TypeRef.Scalar id | TypeRef.Array id | TypeRef.FixedArray id _ | TypeRef.Option id => check_element id seen
  | TypeRef.Map_ _ _ => Some (Err MapsHaveNoEncoding)
  end.
Fixpoint check_fields (l : IndexMap low.StructureField) (seen : gset Uuid) : Walked :=
  match l with
  | [] => Some (Ok seen)
  | (_, field) :: l =>
      r ← check_ref (low.sf_type_ref field) seen;
      match r with
      | Ok seen => check_fields l seen
      | Err e => Some (Err (InField (low.sf_name field) e))
      end
  end.
End Nested.
Fixpoint check_type (fuel : nat) (ty : low.Type_) (seen : gset Uuid) : Walked :=
  match fuel with
  | O => None
  | S fuel =>
      match low.kind ty with
      | low.KStructure s => check_fields (check_type fuel) (low.fields s) seen
      | low.KPrimitive t => check_ref (check_type fuel) t seen
      | low.KEnumeration _ => Some (Err EnumerationsHaveNoEncoding)
      end
  end.
Definition enough_fuel : nat := S (size registry).
Definition ros2_representable (ty : low.Type_) : option (result NotRepresentable unit) :=
  r ← check_type enough_fuel ty {[ low.id ty ]};
  Some (match r with Ok _ => Ok tt | Err e => Err e end).
End Check.

(** ** [hash.rs] *)
Record FieldType := mkFieldType { type_id : Z; capacity : Z; string_capacity : Z; nested_type_name : string }.
Record Field := mkField { fd_name : string; fd_type : FieldType }.
Record IndividualTypeDescription := mkIndividual { type_name : string; i_fields : list Field }.
Class Ros2Client := {
  rid_boolean : Z; rid_int8 : Z; rid_int16 : Z; rid_int32 : Z; rid_int64 : Z;
  rid_uint8 : Z; rid_uint16 : Z; rid_uint32 : Z; rid_uint64 : Z; rid_float : Z; rid_double : Z; rid_string : Z; rid_byte : Z; rid_nested : Z;
  array_offset : Z; bounded_sequence_offset : Z; unbounded_sequence_offset : Z;
  ft_scalar : Z → FieldType; ft_array : Z → Z → FieldType; ft_nested : string → FieldType; ft_nested_bounded_sequence : string → Z → FieldType;
  (* [TypeDescription::new(top, referenced).rihs01()] *)
  description_rihs01 : IndividualTypeDescription → list IndividualTypeDescription → string;
  (* [BYTE_FIELDS], generated from the bundled messages *)
  byte_fields : list (string * string) }.
Inductive HashError := NotAStructure (name : string) | MapsHaveNoFieldType | NeitherScalarNorInRegistry (id : Uuid) | NestedNotInRegistry (id : Uuid) | NoName (id : Uuid).
Section Hash.
Context `{RC : Ros2Client} (registry : TypeRegistry).
Definition rep2016_scalar (id : Uuid) : option Z :=
  if negb (is_ros_scalar id) then None
  else Some (by_id id
    [(BOOLEAN_ID, rid_boolean); (I8_ID, rid_int8); (I16_ID, rid_int16); (I32_ID, rid_int32); (I64_ID, rid_int64);
     (U8_ID, rid_uint8); (U16_ID, rid_uint16); (U32_ID, rid_uint32); (U64_ID, rid_uint64); (F32_ID, rid_float); (F64_ID, rid_double)]
    rid_string).
Definition ros_name (ty : low.Type_) : result HashError string :=
  if decide (low.name ty = ""%string) then Err (NoName (low.id ty)) else Ok (low.name ty).
Inductive Shape := SUnit | SFixed (n : Z) | SBounded (n : Z) | SUnbounded.
Definition scalar_field (base : Z) (shape : Shape) : FieldType :=
  match shape with
  | SUnit => ft_scalar base
  | SFixed capacity => ft_array base capacity
  | SBounded capacity => mkFieldType (base + bounded_sequence_offset) capacity 0 ""
  | SUnbounded => mkFieldType (base + unbounded_sequence_offset) 0 0 ""
  end.
Definition nested_field (name : string) (shape : Shape) : FieldType :=
  match shape with
  | SUnit => ft_nested name
  | SFixed capacity => mkFieldType (rid_nested + array_offset) capacity 0 name
  | SBounded capacity => ft_nested_bounded_sequence name capacity
  | SUnbounded => mkFieldType (rid_nested + unbounded_sequence_offset) 0 0 name
  end.
Definition shaped (t : TypeRef) : result HashError (Uuid * Shape) :=
  match t with
  | TypeRef.Scalar id => Ok (id, SUnit)
  | TypeRef.Array id => Ok (id, SUnbounded)
  | TypeRef.FixedArray id len => Ok (id, SFixed (Z.of_nat len))
  | TypeRef.Option id => Ok (id, SBounded 1)
  | TypeRef.Map_ _ _ => Err MapsHaveNoFieldType
  end.
Definition field_type (t : TypeRef) : result HashError FieldType :=
  '(id, shape) ← shaped t;
  match rep2016_scalar id with
  | Some base => Ok (scalar_field base shape)
  | None => match registry !! id with
            | Some nested => name ← ros_name nested; Ok (nested_field name shape)
            | None => Err (NeitherScalarNorInRegistry id)
            end
  end.
Definition declared_byte (type_name field_name : string) : bool :=
  existsb (λ e, bool_decide (e.1 = type_name) && bool_decide (e.2 = field_name)) byte_fields.
Definition as_byte (f : FieldType) : FieldType :=
  let offset := type_id f - type_id f mod array_offset in
  if type_id f - offset =? rid_uint8 then mkFieldType (offset + rid_byte) (capacity f) (string_capacity f) (nested_type_name f) else f.
Fixpoint fields_from (type_name : string) (l : IndexMap low.StructureField) : result HashError (list Field) :=
  match l with
  | [] => Ok []
  | (_, field) :: l =>
      t ← field_type (low.sf_type_ref field);
      let t := if declared_byte type_name (low.sf_name field) then as_byte t else t in
      fs ← fields_from type_name l;
      Ok (mkField (low.sf_name field) t :: fs)
  end.
Definition fields_of (ty : low.Type_) : result HashError (list Field) :=
  match low.kind ty with
  | low.KStructure s => fields_from (low.name ty) (low.fields s)
  | _ => Err (NotAStructure (low.name ty))
  end.
Definition individual (ty : low.Type_) : result HashError IndividualTypeDescription :=
  name ← ros_name ty; fs ← fields_of ty; Ok (mkIndividual name fs).
(** [collect_referenced], of what is gathered and seen; [None] out of fuel *)
Definition Gathered : Type := list IndividualTypeDescription * gset Uuid.
Fixpoint collect_fields (collect : low.Type_ → Gathered → option (result HashError Gathered)) (l : IndexMap low.StructureField) (g : Gathered) : option (result HashError Gathered) :=
  match l with
  | [] => Some (Ok g)
  | (_, field) :: l =>
      match low.sf_type_ref field with
      | TypeRef.Map_ _ _ => collect_fields collect l g
      | TypeRef.Scalar id | TypeRef.Array id | TypeRef.FixedArray id _ | TypeRef.Option id =>
          if (match rep2016_scalar id with Some _ => true | None => false end) || bool_decide (id ∈ g.2) then collect_fields collect l g
          else match registry !! id with
          | None => Some (Err (NestedNotInRegistry id))
          | Some nested =>
              match individual nested with
              | Err e => Some (Err e)
              | Ok d =>
                  r ← collect nested (g.1 ++ [d], {[ id ]} ∪ g.2);
                  match r with Ok g => collect_fields collect l g | Err e => Some (Err e) end
              end
          end
      end
  end.
Fixpoint collect_referenced (fuel : nat) (ty : low.Type_) (g : Gathered) : option (result HashError Gathered) :=
  match fuel with
  | O => None
  | S fuel =>
      match low.kind ty with
      | low.KStructure s => collect_fields (collect_referenced fuel) (low.fields s) g
      | _ => Some (Ok g)
      end
  end.
(** A message's own description followed by everything it references, the list [described] gives *)
Definition described (ty : low.Type_) : option (result HashError (list IndividualTypeDescription)) :=
  match individual ty with
  | Err e => Some (Err e)
  | Ok d =>
      r ← collect_referenced (enough_fuel registry) ty ([d], {[ low.id ty ]});
      Some (match r with Ok g => Ok g.1 | Err e => Err e end)
  end.
Definition rihs01 (ty : low.Type_) : option (result HashError string) :=
  match individual ty with
  | Err e => Some (Err e)
  | Ok top =>
      r ← collect_referenced (enough_fuel registry) ty ([], {[ low.id ty ]});
      Some (match r with Ok g => Ok (description_rihs01 top g.1) | Err e => Err e end)
  end.

(** *** Services and actions *)
Definition UUID : string := "unique_identifier_msgs/msg/UUID".
Definition TIME : string := "builtin_interfaces/msg/Time".
Definition SERVICE_EVENT_INFO : string := "service_msgs/msg/ServiceEventInfo".
Definition uuid_ : IndividualTypeDescription := mkIndividual UUID [mkField "uuid" (ft_array rid_uint8 16)].
Definition time : IndividualTypeDescription := mkIndividual TIME [mkField "sec" (ft_scalar rid_int32); mkField "nanosec" (ft_scalar rid_uint32)].
Definition service_event_info : IndividualTypeDescription :=
  mkIndividual SERVICE_EVENT_INFO
    [mkField "event_type" (ft_scalar rid_uint8); mkField "stamp" (ft_nested TIME); mkField "client_gid" (ft_array rid_uint8 16);
     mkField "sequence_number" (ft_scalar rid_int64)].
Fixpoint dedup (l : list IndividualTypeDescription) (seen : gset string) : list IndividualTypeDescription :=
  match l with
  | [] => []
  | d :: l => if decide (type_name d ∈ seen) then dedup l seen else d :: dedup l ({[ type_name d ]} ∪ seen)
  end.
Definition service_hash (service : string) (request response : IndividualTypeDescription) (referenced : list IndividualTypeDescription) : string :=
  let event := mkIndividual (service +:+ "_Event")
    [mkField "info" (ft_nested SERVICE_EVENT_INFO); mkField "request" (ft_nested_bounded_sequence (type_name request) 1);
     mkField "response" (ft_nested_bounded_sequence (type_name response) 1)] in
  let top := mkIndividual service
    [mkField "request_message" (ft_nested (type_name request)); mkField "response_message" (ft_nested (type_name response));
     mkField "event_message" (ft_nested (type_name event))] in
  description_rihs01 top (dedup ([request; response; event; service_event_info; time] ++ referenced) ∅).
Definition service_rihs01 (service : string) (request response : low.Type_) : option (result HashError string) :=
  match fields_of request, fields_of response with
  | Err e, _ | Ok _, Err e => Some (Err e)
  | Ok rq, Ok rs =>
      r ← collect_referenced (enough_fuel registry) request ([], {[ low.id request; low.id response ]});
      match r with
      | Err e => Some (Err e)
      | Ok g =>
          r ← collect_referenced (enough_fuel registry) response g;
          Some (match r with
                | Ok g => Ok (service_hash service (mkIndividual (service +:+ "_Request") rq) (mkIndividual (service +:+ "_Response") rs) g.1)
                | Err e => Err e
                end)
      end
  end.
Record ActionHashes := mkActionHashes { send_goal : string; get_result : string; feedback_message : string }.
Definition action_hashes (action : string) (goal result_ feedback : low.Type_) : option (result HashError ActionHashes) :=
  match ros_name goal, ros_name result_, ros_name feedback with
  | Err e, _, _ | Ok _, Err e, _ | Ok _, Ok _, Err e => Some (Err e)
  | Ok goal_name, Ok result_name, Ok feedback_name =>
      let goal_id := mkField "goal_id" (ft_nested UUID) in
      let send_goal_request := mkIndividual (action +:+ "_SendGoal_Request") [goal_id; mkField "goal" (ft_nested goal_name)] in
      let send_goal_response := mkIndividual (action +:+ "_SendGoal_Response") [mkField "accepted" (ft_scalar rid_boolean); mkField "stamp" (ft_nested TIME)] in
      let get_result_request := mkIndividual (action +:+ "_GetResult_Request") [goal_id] in
      let get_result_response := mkIndividual (action +:+ "_GetResult_Response") [mkField "status" (ft_scalar rid_int8); mkField "result" (ft_nested result_name)] in
      let feedback_message := mkIndividual (action +:+ "_FeedbackMessage") [goal_id; mkField "feedback" (ft_nested feedback_name)] in
      g ← described goal;
      match g with Err e => Some (Err e) | Ok g =>
      r ← described result_;
      match r with Err e => Some (Err e) | Ok r =>
      f ← described feedback;
      match f with Err e => Some (Err e) | Ok f =>
      Some (Ok (mkActionHashes
        (service_hash (action +:+ "_SendGoal") send_goal_request send_goal_response (g ++ [uuid_; time]))
        (service_hash (action +:+ "_GetResult") get_result_request get_result_response (r ++ [uuid_]))
        (description_rihs01 feedback_message (dedup (f ++ [uuid_]) ∅))))
      end end end
  end.
End Hash.

(** * What the walks answer, against the types a type reaches *)

Section Described.
Context (registry : TypeRegistry).
(** ** The types a type reaches *)
Definition element (t : TypeRef) : option Uuid :=
  match t with
  | TypeRef.Scalar id | TypeRef.Array id | TypeRef.FixedArray id _ | TypeRef.Option id => if is_ros_scalar id then None else Some id
  | TypeRef.Map_ _ _ => None
  end.
Definition elements_of (ty : low.Type_) : list Uuid := omap element (kind_refs (low.kind ty)).
Inductive reaches (ty : low.Type_) : low.Type_ → Prop :=
| reaches_self : reaches ty ty
| reaches_nested t id t' : reaches ty t → id ∈ elements_of t → registry !! id = Some t' → reaches ty t'.
Lemma reaches_trans a b c : reaches a b → reaches b c → reaches a c.
Proof. intros Hab. induction 1; [done|]. by eapply reaches_nested. Qed.
Lemma reaches_first ty id t : id ∈ elements_of ty → registry !! id = Some t → reaches ty t.
Proof. intros. eapply reaches_nested; [constructor|done..]. Qed.
(** A reference, and a type, with a form of its own *)
Definition carried_ref (t : TypeRef) : Prop :=
  match t with TypeRef.Map_ _ _ => False | _ => match element t with Some id => is_Some (registry !! id) | None => True end end.
Definition carried (ty : low.Type_) : Prop :=
  match low.kind ty with low.KEnumeration _ => False | _ => Forall carried_ref (kind_refs (low.kind ty)) end.
(** Seen ids: each names a carried type, and what it references is seen *)
Definition settled (seen : gset Uuid) (id : Uuid) : Prop :=
  ∃ t, registry !! id = Some t ∧ carried t ∧ ∀ j, j ∈ elements_of t → j ∈ seen.

(** ** [ros2_representable] *)
Definition passes (refs : list TypeRef) (seen seen' : gset Uuid) : Prop :=
  seen ⊆ seen' ∧ (∀ id, id ∈ seen' → id ∉ seen → settled seen' id) ∧ Forall carried_ref refs ∧ ∀ j, j ∈ omap element refs → j ∈ seen'.
(** A failed walk names a type reached that is not carried, or a reference of its own that is not *)
Definition fails (refs : list TypeRef) : Prop :=
  Exists (λ r, ¬ carried_ref r) refs ∨ ∃ id t t', id ∈ omap element refs ∧ registry !! id = Some t ∧ reaches t t' ∧ ¬ carried t'.
Definition unseen (seen : gset Uuid) : nat := size (dom registry ∖ seen).
(** What a walk over references promises, and a walk over a type *)
Definition walks (refs : list TypeRef) (n : nat) (m : gset Uuid → Walked) : Prop := ∀ seen, (unseen seen < n)%nat →
  ∃ r, m seen = Some r ∧ match r with Ok seen' => passes refs seen seen' | Err _ => fails refs end.
Lemma settled_mono s s' id : s ⊆ s' → settled s id → settled s' id.
Proof. intros Hs (t & Ht & Hc & Hj). exists t. split_and!; [done..|]. set_solver. Qed.
Lemma unseen_mono s s' : s ⊆ s' → (unseen s' ≤ unseen s)%nat.
Proof. intros Hs. unfold unseen. apply subseteq_size. set_solver. Qed.
Lemma unseen_insert id t seen : registry !! id = Some t → id ∉ seen → (unseen ({[ id ]} ∪ seen) < unseen seen)%nat.
Proof.
  intros Ht Hid. unfold unseen. apply subset_size. split; [set_solver|]. intros Hs. apply elem_of_dom_2 in Ht. set_solver.
Qed.
Lemma passes_nil seen : passes [] seen seen.
Proof. split_and!; [done|set_solver|constructor|intros j; by rewrite elem_of_nil]. Qed.
Lemma passes_app l k s1 s2 s3 : passes l s1 s2 → passes k s2 s3 → passes (l ++ k) s1 s3.
Proof.
  intros (A1 & A2 & A3 & A4) (B1 & B2 & B3 & B4). split_and!; [set_solver| |by apply Forall_app|].
  - intros id H3 H1. destruct (decide (id ∈ s2)); [eapply settled_mono; [exact B1|]; by apply A2|by apply B2].
  - intros j. rewrite omap_app, elem_of_app. intros [Hj|Hj]; [apply B1; by apply A4|by apply B4].
Qed.
Lemma fails_left l k : fails l → fails (l ++ k).
Proof. intros [H|(id & t & t' & H & ?)]; [left; by apply Exists_app; left|right]. exists id, t, t'. rewrite omap_app, elem_of_app. tauto. Qed.
Lemma fails_right l k : fails k → fails (l ++ k).
Proof. intros [H|(id & t & t' & H & ?)]; [left; by apply Exists_app; right|right]. exists id, t, t'. rewrite omap_app, elem_of_app. tauto. Qed.

Section Nested.
Context (n : nat) (check : low.Type_ → gset Uuid → Walked).
(** Of a type: its references, which an enumeration fails for having none *)
Definition walks_type (ty : low.Type_) (m : gset Uuid → Walked) : Prop := ∀ seen, (unseen seen < n)%nat →
  ∃ r, m seen = Some r ∧ match r with
    | Ok seen' => carried ty ∧ passes (kind_refs (low.kind ty)) seen seen'
    | Err _ => ∃ t, reaches ty t ∧ ¬ carried t
    end.
Context (Hcheck : ∀ ty, walks_type ty (check ty)).
Lemma check_ref_walks t : walks [t] (S n) (check_ref registry check t).
Proof.
  intros seen Hn.
  assert (∀ id, (match t with TypeRef.Map_ _ _ => False | _ => True end) → element t = (if is_ros_scalar id then None else Some id) →
    ∃ r, check_element registry check id seen = Some r ∧ match r with Ok seen' => passes [t] seen seen' | Err _ => fails [t] end) as Hel.
  { intros id Ht He. unfold check_element. assert (∀ P : Prop, (match element t with Some id => is_Some (registry !! id) | None => True end ↔ P) → (carried_ref t ↔ P)) as Hc by (by destruct t).
    destruct (is_ros_scalar id) eqn:Es; rewrite ?Es in He.
    { eexists; split; [done|]. split_and!; [done|set_solver| |cbn; rewrite He; intros j; by rewrite elem_of_nil]. constructor; [|done]. apply (Hc True); [by rewrite He|done]. }
    destruct (registry !! id) as [nested|] eqn:El.
    2: { eexists; split; [done|]. left. constructor. intros Hr%(Hc False); [done|]. rewrite He, El. split; [by intros []|done]. }
    assert (carried_ref t) as Hct by (apply (Hc True); [rewrite He, El; split; [done|by eexists]|done]).
    destruct (decide (id ∈ seen)) as [Hs|Hs].
    { eexists; split; [done|]. split_and!; [done|set_solver|by constructor|]. cbn. rewrite He. intros j Hj. by apply list_elem_of_singleton in Hj as ->. }
    pose proof (unseen_insert _ _ _ El Hs). destruct (Hcheck nested ({[ id ]} ∪ seen) ltac:(lia)) as (r & -> & Hr). eexists; split; [done|].
    destruct r as [seen'|e].
    - destruct Hr as (Hcar & A1 & A2 & A3 & A4). split_and!; [set_solver| |by constructor|].
      + intros j Hj Hjs. destruct (decide (j = id)) as [->|]; [|apply A2; set_solver]. exists nested. split_and!; [done..|]. exact A4.
      + cbn. rewrite He. intros j Hj. apply list_elem_of_singleton in Hj as ->. set_solver.
    - destruct Hr as (t' & Hr & Hnc). right. exists id, nested, t'. cbn. rewrite He. split_and!; [by apply list_elem_of_singleton|done..]. }
  destruct t as [id|id|id len|k v|id]; cbn [check_ref]; try (by apply Hel). eexists; split; [done|]. left. constructor. by intros [].
Qed.
Lemma check_fields_walks l : walks (low.sf_type_ref ∘ snd <$> l) (S n) (check_fields registry check l).
Proof.
  induction l as [|[k f] l IH]; intros seen Hn; [eexists; split; [done|apply passes_nil]|]. cbn [check_fields fmap list_fmap].
  destruct (check_ref_walks (low.sf_type_ref f) seen Hn) as (r & -> & Hr). cbn [mbind option_bind]. destruct r as [s1|e].
  - pose proof (unseen_mono _ _ (proj1 Hr)). destruct (IH s1 ltac:(lia)) as (r & -> & Hr'). eexists; split; [done|].
    destruct r; [by eapply (passes_app [_])|by apply (fails_right [_])].
  - eexists; split; [done|]. by apply (fails_left [_]).
Qed.
End Nested.
Lemma check_type_walks fuel : ∀ ty, walks_type fuel ty (check_type registry fuel ty).
Proof.
  induction fuel as [|n IH]; intros ty seen Hn; [lia|]. cbn [check_type].
  assert (∀ refs m, refs = kind_refs (low.kind ty) → (carried ty ↔ Forall carried_ref refs) → walks refs (S n) m → ∃ r, m seen = Some r ∧ match r with
    | Ok seen' => carried ty ∧ passes (kind_refs (low.kind ty)) seen seen' | Err _ => ∃ t, reaches ty t ∧ ¬ carried t end) as Hw.
  { intros refs m -> Hc Hm. destruct (Hm seen Hn) as (r & -> & Hr). eexists; split; [done|]. destruct r as [s'|e].
    - split; [apply Hc; by destruct Hr as (_ & _ & ? & _)|done].
    - destruct Hr as [He|(id & t & t' & Hid & Ht & Hr & Hnc)].
      + exists ty. split; [constructor|]. rewrite Hc. by apply Exists_not_Forall.
      + exists t'. split; [|done]. eapply reaches_trans; [|done]. by eapply reaches_first. }
  destruct (low.kind ty) as [s|e|t] eqn:Ek.
  - apply (Hw (kind_refs (low.KStructure s))); [done|unfold carried; by rewrite Ek|apply (check_fields_walks n _ IH)].
  - eexists; split; [done|]. exists ty. split; [constructor|]. unfold carried. rewrite Ek. by intros [].
  - apply (Hw [t]); [done|unfold carried; by rewrite Ek|apply (check_ref_walks n _ IH)].
Qed.
Lemma unseen_enough ty : (unseen {[ low.id ty ]} < enough_fuel registry)%nat.
Proof. unfold unseen, enough_fuel. pose proof (size_dom (D:=gset Uuid) registry) as Hd. assert (dom registry ∖ {[ low.id ty ]} ⊆ (dom registry : gset Uuid)) as Hs%subseteq_size by set_solver. eapply Nat.le_lt_trans; [exact Hs|]. unfold TypeRegistry in *. rewrite Hd. lia. Qed.
(** Reached: the type itself, or one whose id is seen *)
Lemma reached_seen ty (seen : gset Uuid) : (∀ ty', registry !! low.id ty = Some ty' → ty' = ty) →
  (∀ j, j ∈ elements_of ty → j ∈ seen) → (∀ id, id ∈ seen → id ≠ low.id ty → ∃ t, registry !! id = Some t ∧ ∀ j, j ∈ elements_of t → j ∈ seen) →
  ∀ t, reaches ty t → t = ty ∨ ∃ id, id ∈ seen ∧ id ≠ low.id ty ∧ registry !! id = Some t.
Proof.
  intros Hself Hty Hseen. induction 1 as [|t id t' Hr IH Hid Ht']; [by left|].
  assert (id ∈ seen) as Hin.
  { destruct IH as [->|(i & Hi & Hne & Ht)]; [by apply Hty|]. destruct (Hseen i Hi Hne) as (u & Hu & Hj). simplify_eq. by apply Hj. }
  destruct (decide (id = low.id ty)) as [->|Hne]; [left; by apply Hself|right; by exists id].
Qed.
(** C36. [ros2_representable] always answers, within a fuel of one more than the types of the registry however the
    types refer to one another: that a type has a ROS 2 form exactly when every type it reaches through the fields it
    nests is of a carried form, an enumeration of none and a map, and an id neither a scalar nor in the registry, of
    none. The type's own id, when the registry has it, names that type. *)
Theorem representable_exactly ty : (∀ ty', registry !! low.id ty = Some ty' → ty' = ty) →
  ∃ r, ros2_representable registry ty = Some r ∧ (r = Ok tt ↔ ∀ t, reaches ty t → carried t).
Proof.
  intros Hself. unfold ros2_representable. destruct (check_type_walks _ ty _ (unseen_enough ty)) as (r & -> & Hr).
  eexists; split; [done|]. destruct r as [seen|e].
  - split; [|done]. intros _ t Ht. destruct Hr as (Hc & A1 & A2 & _ & A4).
    assert (∀ id, id ∈ seen → id ≠ low.id ty → settled seen id) as Hset by (intros id Hid Hne; apply A2; set_solver).
    edestruct (reached_seen ty seen Hself A4) as [->|(id & Hid & Hne & Hlk)]; [|exact Ht|done|].
    + intros id Hid Hne. destruct (Hset id Hid Hne) as (u & ? & _ & ?). by exists u.
    + destruct (Hset id Hid Hne) as (u & ? & ? & _). by simplify_eq.
  - destruct Hr as (t & Ht & Hnc). split; [done|]. intros Hall. destruct Hnc. by apply Hall.
Qed.

(** ** [collect_referenced] *)
Section Describing.
Context `{RC : Ros2Client}.
(** A reference a described type has: one its field type resolves *)
Definition typed (t : TypeRef) : Prop := ∃ ft, field_type registry t = Ok ft.
Lemma rep2016_is_scalar id : rep2016_scalar id = None ↔ is_ros_scalar id = false.
Proof. unfold rep2016_scalar. by destruct (is_ros_scalar id). Qed.
Lemma typed_element t id : typed t → element t = Some id → is_Some (registry !! id).
Proof.
  intros [ft Hft] He. unfold field_type in Hft.
  assert (∃ shape, shaped t = Ok (id, shape) ∧ rep2016_scalar id = None) as (shape & Hs & Hr).
  { destruct t; cbn in He; repeat case_match; simplify_eq; eexists; (split; [done|by apply rep2016_is_scalar]). }
  rewrite Hs in Hft. cbn in Hft. rewrite Hr in Hft. by destruct (registry !! id); [eexists|].
Qed.
Lemma fields_from_typed name l fs : fields_from registry name l = Ok fs → Forall typed (low.sf_type_ref ∘ snd <$> l).
Proof.
  revert fs. induction l as [|[k f] l IH]; intros fs H; [constructor|]. cbn in H.
  destruct (field_type registry (low.sf_type_ref f)) as [ft|] eqn:Ef; [|done]. cbn in H.
  destruct (fields_from registry name l) eqn:El; [|done]. constructor; [by exists ft|by eapply IH].
Qed.
Lemma individual_typed ty d : individual registry ty = Ok d → (∃ s, low.kind ty = low.KStructure s) ∧ Forall typed (kind_refs (low.kind ty)).
Proof.
  unfold individual, fields_of. intros H. destruct (ros_name ty); [|done]. cbn in H. destruct (low.kind ty) as [s| |] eqn:Ek; [|done..].
  split; [by exists s|]. destruct (fields_from registry (low.name ty) (low.fields s)) eqn:Ef; [|done]. by eapply fields_from_typed.
Qed.
(** The type an id names, described as [d] *)
Definition described_as (id : Uuid) (d : IndividualTypeDescription) : Prop := ∃ t, registry !! id = Some t ∧ individual registry t = Ok d.
(** Reached from one of a list of references *)
Definition reached_by (refs : list TypeRef) (t' : low.Type_) : Prop :=
  ∃ id t, id ∈ omap element refs ∧ registry !! id = Some t ∧ reaches t t'.
(** What one stretch of the walk gathers: the ids, none seen before, each described, each reached, each followed through *)
Definition gathers (refs : list TypeRef) (g g' : Gathered) (ids : list Uuid) : Prop :=
  ∃ ds, g'.1 = g.1 ++ ds ∧ Forall2 described_as ids ds ∧ g'.2 ≡ list_to_set ids ∪ g.2 ∧ NoDup ids ∧ (∀ id, id ∈ ids → id ∉ g.2) ∧
  (∀ id, id ∈ ids → ∃ t, registry !! id = Some t ∧ reached_by refs t ∧ ∀ j, j ∈ elements_of t → j ∈ g'.2) ∧
  (∀ j, j ∈ omap element refs → j ∈ g'.2).
Definition misses (refs : list TypeRef) (e : HashError) : Prop := ∃ t, reached_by refs t ∧ individual registry t = Err e.
Definition collects (refs : list TypeRef) (n : nat) (m : Gathered → option (result HashError Gathered)) : Prop := ∀ g, (unseen g.2 < n)%nat →
  ∃ r, m g = Some r ∧ match r with Ok g' => ∃ ids, gathers refs g g' ids | Err e => misses refs e end.
Lemma reached_by_app l k t : reached_by (l ++ k) t ↔ reached_by l t ∨ reached_by k t.
Proof. unfold reached_by. setoid_rewrite omap_app. setoid_rewrite elem_of_app. naive_solver. Qed.
Lemma gathers_app l k g1 g2 g3 ids js : gathers l g1 g2 ids → gathers k g2 g3 js → gathers (l ++ k) g1 g3 (ids ++ js).
Proof.
  intros (ds & A1 & A2 & A3 & A4 & A5 & A6 & A7) (es & B1 & B2 & B3 & B4 & B5 & B6 & B7). exists (ds ++ es). split_and!.
  - by rewrite B1, A1, <-app_assoc.
  - by apply Forall2_app.
  - rewrite B3, A3, list_to_set_app. set_solver.
  - apply NoDup_app. split_and!; [done| |done]. intros id Hi Hj. apply (B5 id Hj). set_solver.
  - intros id. rewrite elem_of_app. intros [Hi|Hj]; [by apply A5|]. intros Hg. apply (B5 id Hj). set_solver.
  - intros id. rewrite elem_of_app. intros [Hi|Hj].
    + destruct (A6 id Hi) as (t & ? & ? & He). exists t. split_and!; [done|apply reached_by_app; by left|]. set_solver.
    + destruct (B6 id Hj) as (t & ? & ? & He). exists t. split_and!; [done|apply reached_by_app; by right|done].
  - intros j. rewrite omap_app, elem_of_app. intros [Hj|Hj]; [|by apply B7]. apply A7 in Hj. set_solver.
Qed.
Lemma gathers_nothing refs g : (∀ j, j ∈ omap element refs → j ∈ g.2) → gathers refs g g [].
Proof. intros H. exists []. rewrite app_nil_r. split_and!; [done|constructor|set_solver|constructor|intros id; by rewrite elem_of_nil..|done]. Qed.
Lemma reached_by_nested t id nested t' : element t = Some id → registry !! id = Some nested → reached_by (kind_refs (low.kind nested)) t' → reached_by [t] t'.
Proof.
  intros He Hn (i & u & Hi & Hu & Hr). exists id, nested. cbn. rewrite He. split_and!; [by apply list_elem_of_singleton|done|].
  eapply reaches_trans; [by eapply reaches_first|done].
Qed.
Lemma reached_by_self t id nested : element t = Some id → registry !! id = Some nested → reached_by [t] nested.
Proof. intros He Hn. exists id, nested. cbn. rewrite He. split_and!; [by apply list_elem_of_singleton|done|constructor]. Qed.
Lemma gathers_nested t id nested d g g1 ids : element t = Some id → registry !! id = Some nested → individual registry nested = Ok d → id ∉ g.2 →
  gathers (kind_refs (low.kind nested)) (g.1 ++ [d], {[ id ]} ∪ g.2) g1 ids → gathers [t] g g1 (id :: ids).
Proof.
  intros He Hn Hd Hid (ds & A1 & A2 & A3 & A4 & A5 & A6 & A7). cbn in A1, A3, A5. exists (d :: ds). split_and!.
  - by rewrite A1, <-app_assoc.
  - constructor; [by exists nested|done].
  - cbn. set_solver.
  - constructor; [|done]. intros Hi. apply (A5 id Hi). set_solver.
  - intros i. rewrite elem_of_cons. intros [->|Hi]; [done|]. specialize (A5 i Hi). set_solver.
  - intros i. rewrite elem_of_cons. intros [->|Hi].
    + exists nested. split_and!; [done|by eapply reached_by_self|exact A7].
    + destruct (A6 i Hi) as (u & ? & ? & ?). exists u. split_and!; [done|by eapply reached_by_nested|done].
  - cbn. rewrite He. intros j Hj. apply list_elem_of_singleton in Hj as ->. set_solver.
Qed.
Section Nested.
Context (n : nat) (collect : low.Type_ → Gathered → option (result HashError Gathered)).
Lemma collect_fields_cons k f l g : typed (low.sf_type_ref f) → collect_fields registry collect ((k, f) :: l) g =
  match element (low.sf_type_ref f) with
  | None => collect_fields registry collect l g
  | Some id => if bool_decide (id ∈ g.2) then collect_fields registry collect l g
      else match registry !! id with
      | None => Some (Err (NestedNotInRegistry id))
      | Some nested =>
          match individual registry nested with
          | Err e => Some (Err e)
          | Ok d => r ← collect nested (g.1 ++ [d], {[ id ]} ∪ g.2); match r with Ok g => collect_fields registry collect l g | Err e => Some (Err e) end
          end
      end
  end.
Proof.
  intros [ft Hft]. cbn [collect_fields]. unfold rep2016_scalar.
  destruct (low.sf_type_ref f) as [id|id|id len|a b|id]; [| | |done|]; cbn [element]; by destruct (is_ros_scalar id).
Qed.
Context (Hcollect : ∀ ty d, individual registry ty = Ok d → collects (kind_refs (low.kind ty)) n (collect ty)).
Lemma collect_fields_collects l : Forall typed (low.sf_type_ref ∘ snd <$> l) → collects (low.sf_type_ref ∘ snd <$> l) (S n) (collect_fields registry collect l).
Proof.
  induction l as [|[k f] l IH]; intros Ht g Hg; [eexists; split; [done|]; exists []; apply gathers_nothing; intros j; by rewrite elem_of_nil|].
  apply Forall_cons in Ht as [Hf Hl]. rewrite collect_fields_cons by done. set (t := low.sf_type_ref f) in *.
  assert (∀ g1 ids, (unseen g1.2 ≤ unseen g.2)%nat → gathers [t] g g1 ids → ∃ r, collect_fields registry collect l g1 = Some r ∧
    match r with Ok g' => ∃ ids, gathers (t :: (low.sf_type_ref ∘ snd <$> l)) g g' ids | Err e => misses (t :: (low.sf_type_ref ∘ snd <$> l)) e end) as Hrest.
  { intros g1 ids Hle Hg1. destruct (IH Hl g1 ltac:(lia)) as (r & -> & Hr). eexists; split; [done|]. destruct r as [g'|e].
    - destruct Hr as [js Hr]. exists (ids ++ js). by eapply (gathers_app [_]).
    - destruct Hr as (u & Hu & He). exists u. split; [apply (reached_by_app [_]); by right|done]. }
  destruct (element t) as [id|] eqn:Ee.
  2: { apply (Hrest g []); [done|]. apply gathers_nothing. cbn. rewrite Ee. intros j. by rewrite elem_of_nil. }
  case_bool_decide as Hs.
  { apply (Hrest g []); [done|]. apply gathers_nothing. cbn. rewrite Ee. by intros j ->%list_elem_of_singleton. }
  destruct (typed_element t id Hf Ee) as [nested Hn]. rewrite Hn.
  destruct (individual registry nested) as [d|e] eqn:Ed.
  2: { eexists; split; [done|]. exists nested. split; [|done]. apply (reached_by_app [_]). left. by eapply reached_by_self. }
  pose proof (unseen_insert _ _ _ Hn Hs). destruct (Hcollect nested d Ed (g.1 ++ [d], {[ id ]} ∪ g.2)) as (r & -> & Hr); [cbn; lia|].
  cbn [mbind option_bind]. destruct r as [g1|e].
  - destruct Hr as [ids Hr]. pose proof Hr as (_ & _ & _ & Hu & _). apply (Hrest g1 (id :: ids)).
    + apply unseen_mono. cbn in Hu. set_solver.
    + by eapply gathers_nested.
  - destruct Hr as (u & Hu & He). eexists; split; [done|]. exists u. split; [|done]. apply (reached_by_app [_]). left. by eapply reached_by_nested.
Qed.
End Nested.
Lemma collect_referenced_collects fuel : ∀ ty d, individual registry ty = Ok d → collects (kind_refs (low.kind ty)) fuel (collect_referenced registry fuel ty).
Proof.
  induction fuel as [|n IH]; intros ty d Hd g Hg; [lia|]. destruct (individual_typed ty d Hd) as [[s Hs] Ht].
  cbn [collect_referenced]. rewrite Hs in *. by apply (collect_fields_collects n _ IH).
Qed.
Lemma reached_by_kind ty t : reached_by (kind_refs (low.kind ty)) t → reaches ty t.
Proof. intros (id & u & Hi & Hu & Hr). eapply reaches_trans; [by eapply reaches_first|done]. Qed.
(** The description a type hash is of lists the type and then every type it reaches through its fields, however
    deep and however they refer to one another, each once and as its own description says; it is always given, and
    refused only with the refusal one of those types' own description meets. The type's own id, when the registry has
    it, names that type. *)
Theorem describes_what_is_reached ty : (∀ ty', registry !! low.id ty = Some ty' → ty' = ty) →
  ∃ r, described registry ty = Some r ∧ match r with
    | Ok ds => ∃ d ids rest, ds = d :: rest ∧ individual registry ty = Ok d ∧ Forall2 described_as ids rest ∧ NoDup (low.id ty :: ids) ∧
        ∀ t, reaches ty t ↔ t = ty ∨ ∃ id, id ∈ ids ∧ registry !! id = Some t
    | Err e => ∃ t, reaches ty t ∧ individual registry t = Err e
    end.
Proof.
  intros Hself. unfold described. destruct (individual registry ty) as [d|e] eqn:Ed; [|eexists; split; [done|]; exists ty; split; [constructor|done]].
  destruct (collect_referenced_collects _ ty d Ed ([d], {[ low.id ty ]}) (unseen_enough ty)) as (r & -> & Hr). eexists; split; [done|].
  destruct r as [g|e].
  2: { destruct Hr as (t & Ht & He). exists t. split; [by apply reached_by_kind|done]. }
  destruct Hr as (ids & ds & A1 & A2 & A3 & A4 & A5 & A6 & A7). cbn in A3, A5. exists d, ids, ds. split_and!; [done..| |].
  - constructor; [|done]. intros Hi. apply (A5 _ Hi). set_solver.
  - intros t. split.
    + intros Ht. edestruct (reached_seen ty g.2 Hself A7) as [->|(id & Hid & Hne & Hlk)]; [|exact Ht|by left|].
      * intros id Hid Hne. destruct (A6 id ltac:(set_solver)) as (u & ? & _ & ?). by exists u.
      * right. exists id. split; [set_solver|done].
    + intros [->|(id & Hid & Hlk)]; [constructor|]. destruct (A6 id Hid) as (u & ? & ? & _). simplify_eq. by apply reached_by_kind.
Qed.
End Describing.
End Described.
