(* ===== verification/RosExamples.v ===== *)
(** * Some ROS 2 messages: what is read of them, and what of what is not

    The laws of the message files at concrete definitions and types, and the
    definitions the code reads otherwise than its documentation says. *)

From S2P Require Import Prelude Regexes Tokens Parser Values Extern Nodes Reports Types Walk Cdr Messages RosTypes.

Definition usize_max : Z := 2 ^ 64 - 1.
(** [string<=10 label # a label] and the like, a space after each word *)
Definition stamped_text : list (WLine * option Str) :=
  [(WBlank [], Some (lit " a stamped value"));
   (WField [] WHeader WUnit (lit " ") (lit "header") [], None);
   (WField (lit "  ") (WPrimitive "float64" PF64) (WArray (lit "9")) (lit "  ") (lit "covariance") (lit " rest"), Some (lit "a comment"));
   (WField [] (WQualified (lit "geometry_msgs") (lit "Point")) WSequence (lit " ") (lit "points") [], None);
   (WConstant [] "string" PString (lit " ") (lit "NAME") [] (lit " ") (WQuoted 34 (lit "a=b")) [], None)].
Lemma stamped_written : Forall (a_line usize_max) stamped_text.
Proof.
  unfold stamped_text, a_line, written, spaces, a_word, a_name, after_word, PRIMITIVES. repeat (apply Forall_cons; split); [..|apply Forall_nil].
  all: repeat split; try (vm_compute; reflexivity); try (vm_compute; discriminate).
  all: try (apply (bool_decide_unpack _); vm_compute; exact I).
Qed.
Lemma messages_read_witness : Forall (a_line usize_max) stamped_text ∧
  parse_msg usize_max (lit "pkg") (lit "Stamped") (text_of stamped_text)
  = Ok (mkSpec (lit "pkg") (lit "Stamped") (lit "msg")
      [Messages.mkField (lit "header") (mkRosType (Named (lit "std_msgs") (lit "Header")) Unit);
       Messages.mkField (lit "covariance") (mkRosType (Primitive_ PF64) (Fixed 9));
       Messages.mkField (lit "points") (mkRosType (Named (lit "geometry_msgs") (lit "Point")) Unbounded)]
      [mkConstant PString (lit "NAME") (lit "a=b")]).
Proof. split; [exact stamped_written|]. exact (messages_read usize_max (lit "pkg") (lit "Stamped") stamped_text stamped_written). Defined.

(** ** Definitions read otherwise than documented *)
(** A bound, which the documentation says is read as none: its equals sign makes the line a constant's. *)
Example bounded_refused :
  parse_msg usize_max (lit "pkg") (lit "M") (lit "string<=10 label") = Err (At (lit "pkg") (lit "M") 1 ConstantWithoutName) ∧
  parse_msg usize_max (lit "pkg") (lit "M") (lit "uint8[<=4] data") = Err (At (lit "pkg") (lit "M") 1 ConstantWithoutName).
Proof. split; vm_compute; reflexivity. Qed.
(** A type of a package whose name starts like a string's token is read as a string. *)
Example package_as_string : parse_type usize_max (lit "string_msgs/Foo") (lit "pkg") = mkRosType (Primitive_ PString) Unit.
Proof. vm_compute. reflexivity. Qed.

(** ** Types *)
Lemma pose_itself ty' : pose_registry !! low.id pose_type = Some ty' → ty' = pose_type.
Proof. intros H. assert (pose_registry !! low.id pose_type = Some pose_type) as E by (vm_compute; reflexivity). congruence. Qed.
Lemma representable_exactly_witness : ros2_representable pose_registry pose_type = Some (Ok tt) ∧ ∀ t, reaches pose_registry pose_type t → carried pose_registry t.
Proof.
  assert (ros2_representable pose_registry pose_type = Some (Ok tt)) as E by (vm_compute; reflexivity). split; [exact E|].
  destruct (representable_exactly pose_registry pose_type pose_itself) as (r & Er & Hr). apply Hr. congruence.
Defined.
(** A type that holds itself, and one that holds a map *)
Example self_representable : ros2_representable self_registry self_type = Some (Ok tt).
Proof. vm_compute. reflexivity. Qed.
Definition holds_map : low.Type_ :=
  low.mkType "holder" 0x300 "" (low.KStructure (from_fields [(0x301, low.mkStructureField "by_name" (TypeRef.Map_ STRING_ID F64_ID))])).
Example map_not_representable : ros2_representable ∅ holds_map = Some (Err (InField "by_name" MapsHaveNoEncoding)).
Proof. vm_compute. reflexivity. Qed.
#[local] Instance example_client : Ros2Client := {|
  rid_boolean := 15; rid_int8 := 2; rid_int16 := 4; rid_int32 := 6; rid_int64 := 8;
  rid_uint8 := 3; rid_uint16 := 5; rid_uint32 := 7; rid_uint64 := 9; rid_float := 10; rid_double := 11; rid_string := 17; rid_byte := 16; rid_nested := 1;
  array_offset := 48; bounded_sequence_offset := 96; unbounded_sequence_offset := 144;
  ft_scalar id := mkFieldType id 0 0 ""; ft_array id n := mkFieldType (id + 48) n 0 ""; ft_nested n := mkFieldType 1 0 0 n;
  ft_nested_bounded_sequence n k := mkFieldType 97 k 0 n;
  description_rihs01 top rest := type_name top; byte_fields := [] |}.
Example pose_described : (λ r, match r with Ok ds => type_name <$> ds | Err _ => [] end) <$> described pose_registry pose_type = Some ["pose"; "point"]%string.
Proof. vm_compute. reflexivity. Qed.
Lemma describes_what_is_reached_witness : (∀ ty', pose_registry !! low.id pose_type = Some ty' → ty' = pose_type) ∧
  ∃ r, described pose_registry pose_type = Some r ∧ match r with
    | Ok ds => ∃ d ids rest, ds = d :: rest ∧ individual pose_registry pose_type = Ok d ∧ Forall2 (described_as pose_registry) ids rest ∧ NoDup (low.id pose_type :: ids) ∧
        ∀ t, reaches pose_registry pose_type t ↔ t = pose_type ∨ ∃ id, id ∈ ids ∧ pose_registry !! id = Some t
    | Err e => ∃ t, reaches pose_registry pose_type t ∧ individual pose_registry t = Err e
    end.
Proof. split; [exact pose_itself|exact (describes_what_is_reached pose_registry pose_type pose_itself)]. Defined.
(** A type without a name passes, which its hash refuses. *)
Definition unnamed : low.Type_ := low.mkType "" 0x310 "" (low.KStructure (from_fields [(0x311, low.mkStructureField "x" (TypeRef.Scalar F64_ID))])).
Example unnamed_not_hashed : ros2_representable ∅ unnamed = Some (Ok tt) ∧ rihs01 ∅ unnamed = Some (Err (NoName 0x310)).
Proof. split; vm_compute; reflexivity. Qed.
